(* ===== verification/_CoqProject ===== *)
-Q . S2P
Prelude.v
Tlv.v
Component.v
Name.v
Encoding.v
Packet.v
PitAssist.v
Hashtable.v
NameTree.v
NameEnum.v
Face.v
Transport.v
Stream.v
FibEntry.v
PitEntry.v
Store.v
Pit.v
Fib.v
Cleanup.v
DeadNonceList.v
Cs.v
Algorithm.v
Forwarder.v
ForwarderInv.v
BestRoute.v
Strategies.v
ForwarderSafety.v
ForwarderProps.v
FaceFrame.v
FaceTable.v
Loops.v
DataPlane.v
InterestPlane.v
Scenario.v
StrategyScenario.v
FaceScenario.v
LpPacket.v
LpFragmenter.v
LpReassembler.v
GenericLinkService.v
LinkSend.v
LinkRoundtrip.v
RttEstimator.v
LpReliability.v
RelWindow.v
RelInv.v
ReliableLink.v
RelAcks.v
RelSafety.v
RelEvents.v
InterestWire.v
DataWire.v
PrefixAnn.v
NetPackets.v
PlainLink.v
RelScenario.v
RibEntry.v
Rib.v
RibTree.v
RibProps.v
FibUpdater.v
RibSystem.v
RibInherit.v
RibEffect.v
RibFib.v
RibRoutes.v
RibUpdates.v
RibCorrect.v
RibScenario.v
ControlParams.v
Management.v
FibManager.v
RoutePlane.v
RouteScenario.v
