(* ===== verification/Prelude.v ===== *)
(** * Verification of the reflexive-forwarding NFD

    The repository is a modified NDN Forwarding Daemon (NFD) and the part of
    the ndn-cxx library it is linked with.  A consumer may send an Interest
    whose name holds a reflexive component; the producer can then send Interests
    of its own back along the reverse path, which the forwarders find with PIT
    tokens instead of FIB entries.  The code is under [src/Mods/ndn-cxx] (packet
    formats, management protocol) and [src/Mods/NFD/daemon] (tables [table/],
    forwarding [fw/], faces [face/], routes [rib/], managers [mgmt/]).

    ** How a packet goes through the program

    A transport cuts an element out of the bytes it read and calls
    [GenericLinkService::doReceivePacket], which decodes the NDNLPv2 header,
    reassembles fragments and decodes the Interest, Data or Nack.  The signal it
    emits enters a pipeline of [Forwarder] ([onIncomingInterest], [onIncomingData],
    [onIncomingNack]).  The pipelines look names up in the PIT, the content
    store, the Dead Nonce List and, through the strategy, the FIB; PIT, FIB and
    strategy choice share the name tree.  What a pipeline sends goes back through
    a link service, which adds the tags as header fields, fragments to the MTU
    and hands the elements to the transport.

    Routes are registered with the RIB, which keeps them in a tree of names.  An
    update is turned by [FibUpdater] into commands for the FIB, for the name
    itself and, through route inheritance, for longer names; when all commands
    have succeeded the RIB itself is changed and the next update is taken.  A
    command is an Interest whose name carries encoded parameters; the dispatcher
    parses and checks it and the FIB manager executes it on the forwarder's FIB.

    ** Files, in the order they depend on each other

    - [Prelude]: faults, the state monads [M] (a fault loses the state) and [ME]
      (a caught exception keeps it) with their weakest-precondition rules,
      machine integers, lists with keys.
    - [Tlv], [Encoding]: [encoding/tlv.hpp], [encoder.cpp], [block.cpp],
      [block-helpers.cpp].  [Block] is a type and a value; [Wire] is a block with
      the bytes it was cut from.
    - [Component], [Name]: [name-component.cpp], [name.cpp].
    - [Packet]: the packet objects the forwarder shares by reference;
      [PitAssist]: [table/assist.hpp], the PIT token assistant.
    - [Hashtable], [NameTree]: [name-tree-hashtable.cpp], [name-tree.cpp];
      [NameEnum]: [name-tree-iterator.cpp], the enumerations.
    - [Face], [FibEntry], [PitEntry], [Store], [Pit], [Fib], [DeadNonceList],
      [Cs]: the tables of [NFD/daemon/table]; [Store] is the heap of PIT entries
      and Interests that the name tree refers to.  [Cleanup]:
      [table/cleanup.cpp].
    - [Transport]: the states of a transport ([face/transport.cpp] and how its
      subclasses close); [Stream]: [face/stream-transport.hpp], packets over a
      byte stream.
    - [Algorithm], [Forwarder], [BestRoute]: [fw/algorithm.cpp],
      [fw/forwarder.cpp], [fw/strategy.cpp], [fw/best-route-strategy.cpp].
      [Strategy] is a record of the callbacks, [StrategyLaws] what the
      forwarder's proofs need of it; best-route is an instance.  [Strategies]:
      [fw/multicast-strategy.cpp] and [fw/random-strategy.cpp], with instances
      of the same laws; [StrategyScenario] runs them.
    - [ForwarderInv], [ForwarderSafety]: the invariant of the forwarder and its
      preservation by every handler; [ForwarderProps], [Loops], [DataPlane],
      [InterestPlane], [Scenario]: what the pipelines do.
    - [FaceFrame], [FaceTable]: that the pipelines leave the faces alone, and
      [fw/face-table.cpp] with the transports, the cleanup and the forwarder
      put together; [FaceScenario] runs them.
    - [LpPacket], [LpFragmenter], [LpReassembler], [GenericLinkService]: the
      files of the same names in [ndn-cxx/lp] and [NFD/daemon/face]; [LinkSend]
      and [LinkRoundtrip]: the two directions and their composition.  The packet
      formats are the interface [NetCodec].  These files hold the link with
      reliability off.
    - [RttEstimator], [LpReliability], [ReliableLink]: [util/rtt-estimator.cpp],
      [face/lp-reliability.cpp] and the branches of the link service that
      reliability opens.  [RelWindow] is the window of TxSequence numbers modulo
      2^64, [RelInv] the invariant of [LpReliability], [RelAcks] the Acks on
      outgoing packets, [RelSafety] losses, [RelEvents] whole runs, and
      [RelScenario] concrete ones.
    - [InterestWire], [DataWire], [PrefixAnn]: the wire formats and modifiers of
      [Interest], [Data] with [MetaInfo], [SignatureInfo] and [KeyLocator], and
      [PrefixAnnouncement] with [ValidityPeriod]; [NetPackets] implements
      [NetCodec] with them.  [PlainLink] shows that the complete link service of
      [ReliableLink] is the one of [GenericLinkService] when reliability is off,
      and states the theorems of the plain link of it.
    - [RibEntry], [Rib], [FibUpdater]: the files of the same names in
      [NFD/daemon/rib], with [route.cpp], [rib-update.hpp] and [fib-update.cpp];
      [RibSystem] composes them with the queue of updates and the controller's
      answers.  [RibTree] and [RibProps] hold the invariant of the RIB;
      [RibInherit] specifies route inheritance on the RIB seen as a map from
      names to routes; [RibEffect], [RibFib], [RibRoutes] and [RibUpdates] show
      that the computed commands turn the FIB of the old map into that of the
      new one; [RibCorrect] is the refinement theorem and [RibScenario] holds
      concrete runs.
    - [ControlParams], [Management], [FibManager]: the management protocol of
      [ndn-cxx/mgmt] (parameters and responses, commands with their validators,
      dispatcher, controller) and [mgmt/fib-manager.cpp].  [RoutePlane] puts the
      RIB, the management protocol and the forwarder together; [RouteScenario]
      runs the whole.

    ** What the theorems show

    - The forwarder never fails an assertion, dereferences a null pointer or
      throws, whatever sequence of packets, timers, scheduled events of the
      content-store policy and route changes it handles, on the conditions of
      [event_ok]: a PIT token of an Interest has four bytes or more, the reflexive
      test does not throw, a free token can be drawn for a reflexive Interest, and
      the FreshnessPeriod of Data is not negative.  What happens otherwise is the
      subject of findings.  Packets stay in their scope, but for the finding on
      reflexive Interests; an Interest takes the best route, or all eligible ones
      with the multicast strategy; Data reaches every pending downstream, with the
      PIT token that the Interest object of its in-record carries, which for a
      reflexive Interest is not the downstream's own (a finding); a reflexive
      Interest goes back along the first in-record of the original one, with the
      token recorded for that name, which is the first downstream's (a finding);
      a Nonce that was forwarded is recognised while the Dead Nonce List holds it.
      The side conditions of each theorem are in its comment.
    - Faces may be added, fail, close and be removed at any time between those
      events, under the same conditions: no transport makes an invalid change of state, no face is removed
      twice, and no next hop or PIT record is left that names a face which is
      gone; a removal takes exactly the face's own next hops and records.
    - The FIB, the name tree and the hashtable refine a finite map, the PIT and
      the content store answer exactly the matching entries, the LRU and
      priority-FIFO policies keep the store within its limit, the Dead Nonce List
      keeps a Nonce for its lifetime.
    - With reliability off, two link services deliver each packet once whatever
      the order of its fragments, with the tags that the receiver's decoder keeps,
      never exceed the MTU, and survive any input; the one exception, a date that
      does not exist, is a finding.
    - A stream transport passes up exactly the packets its peer wrote, however
      the byte stream is cut into pieces.
    - With reliability on, an MTU of at least 64 bytes or none, safe prefix
      announcements and the log level below TRACE, no sequence of packets,
      received bytes and timers makes an assertion fail or an iterator dangle; the
      one exception thrown is that of exhausted TxSequence numbers.  The fragments declared lost are
      those with enough later Acks, retransmission ends, every network packet is
      counted once, and Acks fit the MTU and are not held back.
    - Interest, Data, NDNLPv2 packets and prefix announcements survive their
      wire format; a cached wire always agrees with the members; the signature
      covers what the verifier checks.
    - The RIB keeps its tree of entries, its counters and its face lookup table
      consistent whatever is inserted and erased.  Any sequence of updates from
      an empty RIB, each of which [updateSafe] covers, comes to rest update by
      update, in whatever order the commands succeed, with the FIB that the RIB
      asks for.  [updateSafe] limits a name to one route per face, keeps origin and
      flags of a route that is registered again, and leaves out captures and
      inherited routes that the updater gets wrong; runs outside it with a wrong
      FIB are findings.
    - A valid management command reaches its handler with the parameters that
      were sent; dispatching survives any parameters.  Composed with the RIB and
      the forwarder: a route that such an update registers ends in the
      forwarder's FIB, whatever the interleaving of executed commands and
      responses, if the commands are authorized and can be executed.
    - Each finding is a theorem that exhibits the behaviour.

    ** Modelling choices

    - Integers are [Z] with the wrap-around written out ([u8], [u32], [u64],
      [i64], [s32]), durations that the source computes in 64 bits included;
      bytes are [Z] below 256.  Time is [Z] in nanoseconds (the
      forwarder) or in the unit of the source, and an argument of each handler.
    - Exceptions, failed assertions and undefined behaviour are values of
      [fault]; a loop without a bound returns [Diverges] when its fuel ends.
      Fuel: [Block_parse_loop] and [Wire_split] get the number of bytes, since
      each round consumes one; [populateFragments] the size of the packet;
      evictions the size of the queue; the token generator of [PitAssist] a
      number of draws: [createName_correct] shows that any number is enough within
      which a free token comes up, and which token is then taken.
      Every theorem about a loop states that it returns.  The walks over the
      tree of the RIB get the number of entries, since every step goes to a
      shorter or to a longer name.  The search for lost fragments gets the number
      of fragments, the loop of the idle timer the length of the Ack queue.
    - A face object is gone when [FaceTable::remove] returns, although its
      release is posted, and its address may be taken by the next face; a PIT
      entry that the name tree has let go is gone before the next event.
    - Iterators of [std::map] are the keys they designate; a [shared_ptr] to a
      network packet is a reference into a heap that is never cleaned up, so its
      size is the number of packets there have been.
    - [std::nth_element] may return any of several routes of equal cost: the
      first registered is taken.  A [Rib::RouteSet] made without its comparison
      function holds at most one element, so the function is never called.
    - Parameters: CityHash, SHA-256, the random source, the signing function,
      Boost's ISO calendar.  Where a law of them is needed it is a class or a
      hypothesis ([IsoTimeLaws], [NetCodecLaws]) with an instance.
    - A bucket of the name tree's hashtable is the list of its nodes; the links
      between nodes and the assertions on them are not modelled.
    - The daemon turns the check of the parameters digest off; the wire format of
      an Interest is proved with the check on and off.
    - Logging and metrics are left out, but for one trace message of
      [LpReliability] whose arguments read an entry that is gone; [rk_trace] says
      whether it is evaluated.

    ** Not modelled

    Sockets, channels and their factories, the reconnection of TCP transports, changes of
    persistency, readvertising, the other managers, status datasets and notifications of the
    management protocol, command authorization, the configuration file, the
    strategies access, ASF and self-learning, the measurements table, the RIB
    manager, URI syntax, the key chain beyond signing a Data, the client
    library, the tools and the vendored WebSocket library. *)

From Stdlib Require Export ZArith Lia.
From stdpp Require Export base list gmap strings sorting.

#[export] Set Default Proof Using "Type".
#[export] Set Default Goal Selector "!".

(** ** Faults and the two monads of the development

    The C++ code leaves its normal path in four ways: an exception, a failed
    [BOOST_ASSERT], undefined behaviour (a null or out-of-range access) and a
    loop that never ends.  Each is a value of [fault]; a computation that can
    leave its normal path returns an [outcome]. *)

Inductive exn : Type :=
| TlvError
| ComponentError
| InvalidArgument
| OutOfRange
| BadCast
| FibUpdaterError
| ArgumentError
| ConfigFileError
| LengthError
| RuntimeError.

Inductive fault : Type :=
| Throw (e : exn)
| AssertFailed
| UndefinedBehaviour
| Diverges.

Inductive outcome (A : Type) : Type :=
| Ok (a : A)
| Fault (f : fault).
Arguments Ok {A} a.
Arguments Fault {A} f.

#[export] Instance exn_eq_dec : EqDecision exn.
Proof. solve_decision. Defined.
#[export] Instance fault_eq_dec : EqDecision fault.
Proof. solve_decision. Defined.

#[export] Instance outcome_ret : MRet outcome := fun A a => Ok a.
#[export] Instance outcome_bind : MBind outcome :=
  fun A B k m => match m with Ok a => k a | Fault f => Fault f end.

(** State-passing computations that may fault: the methods of the classes
    with mutable members. *)
Definition M (S A : Type) : Type := S → outcome (A * S).

#[export] Instance M_ret {S} : MRet (M S) := fun A a s => Ok (a, s).
#[export] Instance M_bind {S} : MBind (M S) :=
  fun A B k m s => match m s with Ok (a, s') => k a s' | Fault f => Fault f end.

Definition get {S} : M S S := fun s => Ok (s, s).
Definition put {S} (s : S) : M S unit := fun _ => Ok (tt, s).
Definition modify {S} (f : S → S) : M S unit := fun s => Ok (tt, f s).
Definition gets {S A} (f : S → A) : M S A := fun s => Ok (f s, s).
Definition raise {S A} (f : fault) : M S A := fun _ => Fault f.
Definition lift {S A} (m : outcome A) : M S A :=
  fun s => match m with Ok a => Ok (a, s) | Fault f => Fault f end.
Definition assertM {S} (b : bool) : M S unit :=
  if b then mret tt else raise AssertFailed.
(** Dereference of a pointer that may be null. *)
Definition deref {S A} (o : option A) : M S A :=
  match o with Some a => mret a | None => raise UndefinedBehaviour end.
Fixpoint forM_ {S A} (l : list A) (k : A → M S unit) : M S unit :=
  match l with
  | [] => mret tt
  | a :: l' => k a ≫= fun _ => forM_ l' k
  end.

(** Computations whose exceptions can be caught: what was written to the state
    before the exception stays written. *)
Definition ME (S A : Type) : Type := S → outcome A * S.

#[export] Instance ME_ret {S} : MRet (ME S) := fun A a s => (Ok a, s).
#[export] Instance ME_bind {S} : MBind (ME S) :=
  fun A B k m s => match m s with (Ok a, s') => k a s' | (Fault f, s') => (Fault f, s') end.

Definition getE {S A} (f : S → A) : ME S A := fun s => (Ok (f s), s).
Definition modifyE {S} (f : S → S) : ME S unit := fun s => (Ok tt, f s).
Definition liftE {S A} (m : outcome A) : ME S A := fun s => (m, s).
Definition assertE {S} (b : bool) : ME S unit := liftE (if b then Ok tt else Fault AssertFailed).
Definition zoomE {S T A} (view : S → T) (update : T → S → S) (m : ME T A) : ME S A :=
  fun s => let '(r, t) := m (view s) in (r, update t s).
Fixpoint forE_ {S A} (l : list A) (k : A → ME S unit) : ME S unit :=
  match l with
  | [] => mret tt
  | a :: l' => k a ≫= fun _ => forE_ l' k
  end.

(** [tlv::Error] and the classes derived from it. *)
Definition isTlvError (f : fault) : bool :=
  match f with
  | Throw TlvError | Throw ComponentError => true
  | _ => false
  end.
(** [try { m } catch (const tlv::Error&) { h }]. *)
Definition catchTlv {S A} (m h : ME S A) : ME S A :=
  fun s => match m s with
           | (Fault f, s') => if isTlvError f then h s' else (Fault f, s')
           | r => r
           end.

(** ** Machine integers *)

Local Open Scope Z_scope.

Definition u8 (z : Z) : Z := z mod 2 ^ 8.
Definition u32 (z : Z) : Z := z mod 2 ^ 32.
Definition u64 (z : Z) : Z := z mod 2 ^ 64.
(** Conversion to a signed 64-bit integer. *)
Definition i64 (z : Z) : Z := (z + 2 ^ 63) mod 2 ^ 64 - 2 ^ 63.
(** Conversion to a 32-bit [int]. *)
Definition s32 (z : Z) : Z :=
  let m := z mod 2 ^ 32 in if bool_decide (m < 2 ^ 31) then m else (m - 2 ^ 32).

Definition is_byte (b : Z) : Prop := (0 ≤ b < 256).
#[export] Instance is_byte_dec b : Decision (is_byte b).
Proof. unfold is_byte. apply _. Defined.
Notation bytes_ok := (Forall is_byte).

Lemma u32_small z : (0 ≤ z < 2 ^ 32) → u32 z = z.
Proof. intros. by apply Z.mod_small. Qed.
Lemma u64_small z : (0 ≤ z < 2 ^ 64) → u64 z = z.
Proof. intros. by apply Z.mod_small. Qed.
Lemma u64_add_l a b : u64 (u64 a + b) = u64 (a + b).
Proof. unfold u64. by rewrite Zplus_mod_idemp_l. Qed.

Lemma filter_length_le {A} (f : A → bool) l : (length (List.filter f l) ≤ length l)%nat.
Proof. induction l as [|a l IH]; simpl; [done|]. destruct (f a); simpl; lia. Qed.

Lemma i64_u64 z : - 2 ^ 63 ≤ z < 2 ^ 63 → i64 (u64 z) = z.
Proof.
  intros Hz. unfold i64, u64. rewrite Zplus_mod_idemp_l. rewrite Z.mod_small by lia. lia.
Qed.

Lemma s32_small z : (- 2 ^ 31 ≤ z < 2 ^ 31) → s32 z = z.
Proof.
  intros Hz. unfold s32. destruct (decide (0 ≤ z)).
  - rewrite Z.mod_small by lia. by rewrite bool_decide_true by lia.
  - assert (z mod 2 ^ 32 = z + 2 ^ 32) as ->.
    { symmetry. apply (Z.mod_unique_pos _ _ (-1)); lia. }
    rewrite bool_decide_false by lia. lia.
Qed.

Lemma s32_u64 z : s32 (u64 z) = s32 z.
Proof.
  unfold s32, u64.
  assert (((z mod 2 ^ 64) mod 2 ^ 32) = z mod 2 ^ 32) as ->; [|done].
  rewrite <-Znumtheory.Zmod_div_mod; [done|lia|lia|]. by exists (2 ^ 32).
Qed.

(** A shifted value or-ed above a smaller one is added to it. *)
Lemma lor_shiftl_add a b k : 0 ≤ k → 0 ≤ a < 2 ^ k → Z.lor a (Z.shiftl b k) = a + b * 2 ^ k.
Proof.
  intros Hk Ha. pose proof (Z.add_lor_land a (Z.shiftl b k)) as E.
  rewrite Z.shiftl_mul_pow2 in * by lia.
  assert (Z.land a (b * 2 ^ k) = 0) as Hz; [|lia].
  rewrite <-(Z.mod_small a (2 ^ k)) by lia.
  rewrite <-Z.land_ones, <-Z.land_assoc, (Z.land_comm (Z.ones k)), Z.land_ones by lia.
  by rewrite Z.mod_mul, Z.land_0_r by lia.
Qed.

(** ** Lexicographic comparison

    [lex cmp] is the order of [std::lexicographical_compare] as a three-way
    result; [cmp_min] is [std::memcmp] over the first [min(n1,n2)] bytes. *)

Section lex.
Context {A : Type} (cmp : A → A → comparison).

Fixpoint lex (l1 l2 : list A) : comparison :=
  match l1, l2 with
  | [], [] => Eq
  | [], _ :: _ => Lt
  | _ :: _, [] => Gt
  | x :: l1', y :: l2' =>
      match cmp x y with Eq => lex l1' l2' | c => c end
  end.

Fixpoint cmp_min (l1 l2 : list A) : comparison :=
  match l1, l2 with
  | x :: l1', y :: l2' =>
      match cmp x y with Eq => cmp_min l1' l2' | c => c end
  | _, _ => Eq
  end.

Context (cmp_eq : ∀ x y, cmp x y = Eq ↔ x = y).
Context (cmp_antisym : ∀ x y, cmp y x = CompOpp (cmp x y)).
Context (cmp_trans : ∀ x y z, cmp x y = Lt → cmp y z = Lt → cmp x z = Lt).

Lemma lex_eq l1 l2 : lex l1 l2 = Eq ↔ l1 = l2.
Proof using cmp_eq.
  revert l2. induction l1 as [|x l1 IH]; intros [|y l2]; simpl; try done.
  destruct (cmp x y) eqn:E.
  - apply cmp_eq in E as ->. rewrite IH. naive_solver.
  - split; [done|]. intros [= -> ->].
    assert (cmp y y = Eq) by by apply cmp_eq. congruence.
  - split; [done|]. intros [= -> ->].
    assert (cmp y y = Eq) by by apply cmp_eq. congruence.
Qed.

Lemma lex_antisym l1 l2 : lex l2 l1 = CompOpp (lex l1 l2).
Proof using cmp_antisym.
  revert l2. induction l1 as [|x l1 IH]; intros [|y l2]; simpl; try done.
  rewrite (cmp_antisym x y). destruct (cmp x y); simpl; auto.
Qed.

Lemma lex_trans l1 l2 l3 : lex l1 l2 = Lt → lex l2 l3 = Lt → lex l1 l3 = Lt.
Proof using cmp_eq cmp_trans.
  revert l2 l3. induction l1 as [|x l1 IH]; intros [|y l2] [|z l3]; simpl; try done.
  destruct (cmp x y) eqn:Exy; [|intros _|done].
  - apply cmp_eq in Exy as ->. destruct (cmp y z); try done. apply IH.
  - destruct (cmp y z) eqn:Eyz; try done.
    + apply cmp_eq in Eyz as ->. by rewrite Exy.
    + by rewrite (cmp_trans _ _ _ Exy Eyz).
Qed.

(** Lists of one length are ordered by [memcmp] as by [lex]. *)
Lemma cmp_min_lex l1 l2 : length l1 = length l2 → cmp_min l1 l2 = lex l1 l2.
Proof.
  revert l2. induction l1 as [|x l1 IH]; intros [|y l2]; simpl; try done.
  intros [= ?]. destruct (cmp x y); auto.
Qed.

Lemma cmp_min_app l1 l2 k1 k2 :
  length l1 = length l2 →
  cmp_min (l1 ++ k1) (l2 ++ k2) =
    match lex l1 l2 with Eq => cmp_min k1 k2 | c => c end.
Proof.
  revert l2. induction l1 as [|x l1 IH]; intros [|y l2]; simpl; try done.
  intros [= ?]. destruct (cmp x y); auto.
Qed.
End lex.

(** The sign of an [int] comparison result. *)
Definition Z_sign (z : Z) : comparison := z ?= 0.
Definition sign_Z (c : comparison) : Z :=
  match c with Lt => -1 | Eq => 0 | Gt => 1 end.
Lemma Z_sign_sign_Z c : Z_sign (sign_Z c) = c.
Proof. by destruct c. Qed.
Lemma Z_sign_sub a b : Z_sign (a - b) = (a ?= b).
Proof. unfold Z_sign. destruct (Z.compare_spec a b); subst; [apply Z.compare_eq_iff|apply Z.compare_lt_iff|apply Z.compare_gt_iff]; lia. Qed.

Lemma Zcompare_trans_Lt x y z : (x ?= y) = Lt → (y ?= z) = Lt → (x ?= z) = Lt.
Proof. rewrite !Z.compare_lt_iff. lia. Qed.

(** [std::memcmp] on byte strings, and the order of byte strings. *)
Notation bytes_lex := (lex Z.compare).
Notation memcmp := (cmp_min Z.compare).
Lemma bytes_lex_eq l1 l2 : bytes_lex l1 l2 = Eq ↔ l1 = l2.
Proof. apply lex_eq, Z.compare_eq_iff. Qed.
Lemma bytes_lex_antisym l1 l2 : bytes_lex l2 l1 = CompOpp (bytes_lex l1 l2).
Proof. apply lex_antisym. intros. by rewrite Z.compare_antisym. Qed.
Lemma bytes_lex_trans l1 l2 l3 :
  bytes_lex l1 l2 = Lt → bytes_lex l2 l3 = Lt → bytes_lex l1 l3 = Lt.
Proof. apply lex_trans; [apply Z.compare_eq_iff|apply Zcompare_trans_Lt]. Qed.

(** ** Lists *)

Lemma rev_replicate {A} n (x : A) : rev (replicate n x) = replicate n x.
Proof. rewrite rev_alt. apply reverse_replicate. Qed.

Lemma StronglySorted_delete {A} (R : relation A) i l :
  StronglySorted R l → StronglySorted R (delete i l).
Proof.
  intros Hs. revert i. induction Hs as [|x l Hl IH Hx]; intros [|i]; simpl; [constructor..|done|].
  constructor; [apply IH|]. rewrite Forall_forall in Hx |- *. intros y Hy. apply Hx.
  rewrite list_elem_of_lookup in Hy |- *. destruct Hy as [j Hj].
  rewrite list_lookup_delete in Hj. case_decide; eauto.
Qed.

(** Apply [f] to the first element selected by [p]. *)
Fixpoint updateFirst {A} (p : A → bool) (f : A → A) (l : list A) : list A :=
  match l with
  | [] => []
  | x :: l' => if p x then f x :: l' else x :: updateFirst p f l'
  end.
Fixpoint removeFirst {A} (p : A → bool) (l : list A) : list A :=
  match l with
  | [] => []
  | x :: l' => if p x then l' else x :: removeFirst p l'
  end.

Section first.
Context {A K : Type} `{EqDecision K} (key : A → K).
Abbreviation isKey k := (fun r => bool_decide (key r = k)).

Lemma find_key_Some k l r : List.find (isKey k) l = Some r → r ∈ l ∧ key r = k.
Proof. intros [Hin Hk%bool_decide_eq_true]%find_some. by rewrite list_elem_of_In. Qed.
Lemma find_key_None k l : List.find (isKey k) l = None ↔ k ∉ map key l.
Proof.
  induction l as [|x l IH]; simpl; [split; [intros _; apply not_elem_of_nil|done]|].
  case_bool_decide; rewrite not_elem_of_cons; naive_solver.
Qed.
Lemma find_key_NoDup l r : NoDup (map key l) → r ∈ l → List.find (isKey (key r)) l = Some r.
Proof.
  induction l as [|x l IH]; simpl; [by intros _ ?%not_elem_of_nil|].
  rewrite NoDup_cons, elem_of_cons. intros [Hx Hnd] [->|Hin]; [by rewrite bool_decide_true|].
  rewrite bool_decide_false; [by apply IH|]. intros E. apply Hx. rewrite E.
  apply list_elem_of_fmap. eauto.
Qed.

Lemma map_updateFirst p f l : (∀ x, key (f x) = key x) → map key (updateFirst p f l) = map key l.
Proof. intros Hf. induction l as [|x l IH]; simpl; [done|]. destruct (p x); simpl; congruence. Qed.
Lemma elem_of_updateFirst k f l r :
  NoDup (map key l) → (∀ x, key (f x) = key x) →
  r ∈ updateFirst (isKey k) f l ↔
    (∃ r0, r0 ∈ l ∧ key r0 = k ∧ r = f r0) ∨ (r ∈ l ∧ key r ≠ k).
Proof.
  intros Hnd Hf. induction l as [|x l IH]; simpl.
  { rewrite !elem_of_nil. split; [done|]. intros [(? & ?%not_elem_of_nil & _)|[? _]]; done. }
  simpl in Hnd. apply NoDup_cons in Hnd as [Hx Hnd].
  assert (∀ y, y ∈ l → key y ≠ key x) as Hother.
  { intros y Hy E. apply Hx. rewrite <-E. apply list_elem_of_fmap. eauto. }
  case_bool_decide as E; rewrite elem_of_cons; [|rewrite IH by done]; clear IH Hnd;
    setoid_rewrite elem_of_cons; split; naive_solver.
Qed.
Lemma updateFirst_length p (f : A → A) l : length (updateFirst p f l) = length l.
Proof. induction l as [|x l IH]; simpl; [done|]. destruct (p x); simpl; congruence. Qed.

Lemma elem_of_removeFirst k l r :
  NoDup (map key l) → r ∈ removeFirst (isKey k) l ↔ r ∈ l ∧ key r ≠ k.
Proof.
  intros Hnd. induction l as [|x l IH]; simpl.
  { rewrite !elem_of_nil. tauto. }
  simpl in Hnd. apply NoDup_cons in Hnd as [Hx Hnd].
  assert (∀ y, y ∈ l → key y ≠ key x) as Hother.
  { intros y Hy E. apply Hx. rewrite <-E. apply list_elem_of_fmap. eauto. }
  case_bool_decide as E; rewrite !elem_of_cons; [|rewrite IH by done]; clear IH Hnd; naive_solver.
Qed.
Lemma removeFirst_sublist p (l : list A) : removeFirst p l `sublist_of` l.
Proof.
  induction l as [|x l IH]; simpl; [done|]. destruct (p x).
  - by apply sublist_cons.
  - by apply sublist_skip.
Qed.
Lemma NoDup_removeFirst p l : NoDup (map key l) → NoDup (map key (removeFirst p l)).
Proof.
  intros Hnd. eapply sublist_NoDup; [exact Hnd|]. apply (fmap_sublist key), removeFirst_sublist.
Qed.
Lemma removeFirst_perm (p : A → bool) l r :
  List.find p l = Some r → r :: removeFirst p l ≡ₚ l.
Proof.
  induction l as [|x l IH]; simpl; [done|]. destruct (p x); [by intros [= ->]|].
  intros Hf. rewrite perm_swap. by apply perm_skip, IH.
Qed.
Lemma removeFirst_key_perm k l :
  NoDup (map key l) → k ∈ map key l → k :: map key (removeFirst (isKey k) l) ≡ₚ map key l.
Proof.
  intros Hnd (r & -> & Hr)%list_elem_of_fmap.
  pose proof (removeFirst_perm _ _ _ (find_key_NoDup l r Hnd Hr)) as Hp.
  apply (fmap_Permutation key) in Hp. exact Hp.
Qed.
End first.

(** Running a computation on a part of the state. *)
Definition zoom {S T A} (view : S → T) (update : T → S → S) (m : M T A) : M S A :=
  fun s => match m (view s) with
           | Ok (a, t) => Ok (a, update t s)
           | Fault f => Fault f
           end.

(** Unfolding the state monad at concrete states. *)
Ltac munfold :=
  unfold mbind, mret, M_bind, M_ret, outcome_bind, outcome_ret, get, put, gets, modify, raise,
    lift in *; cbv beta iota zeta in *.
Lemma bind_Ok {A B} (a : A) (k : A → outcome B) : (Ok a ≫= k) = k a.
Proof. done. Qed.
Lemma bind_Ok_inv {A B} (m : outcome A) (k : A → outcome B) b :
  (m ≫= k) = Ok b → ∃ a, m = Ok a ∧ k a = Ok b.
Proof. destruct m as [a|]; [eauto|done]. Qed.
Lemma bindE {S A B} (m : ME S A) (k : A → ME S B) s a s' :
  m s = (Ok a, s') → (m ≫= k) s = k a s'.
Proof. unfold mbind, ME_bind. by intros ->. Qed.
Lemma bindE_fault {S A B} (m : ME S A) (k : A → ME S B) s f s' :
  m s = (Fault f, s') → (m ≫= k) s = (Fault f, s').
Proof. unfold mbind, ME_bind. by intros ->. Qed.
Lemma assertM_true {S} (b : bool) (s : S) : b = true → assertM b s = Ok (tt, s).
Proof. by intros ->. Qed.
Lemma deref_Some {S A} (a : A) (s : S) : deref (Some a) s = Ok (a, s).
Proof. done. Qed.

(** ** Total correctness of stateful computations

    [wp m R s]: started in [s], [m] returns (no exception, no failed assertion,
    no undefined behaviour, no divergence) and its result and final state
    satisfy [R]. *)
Definition wp {S A} (m : M S A) (R : A → S → Prop) (s : S) : Prop :=
  match m s with Ok (a, s') => R a s' | Fault _ => False end.

Section wp.
Context {S : Type}.

Lemma wp_ret {A} (a : A) (R : A → S → Prop) s : R a s → wp (mret a) R s.
Proof. done. Qed.
Lemma wp_bind {A B} (m : M S A) (k : A → M S B) (R : B → S → Prop) s :
  wp m (fun a => wp (k a) R) s → wp (m ≫= k) R s.
Proof. unfold wp, mbind, M_bind. by destruct (m s) as [[a s']|]. Qed.
Lemma wp_mono {A} (m : M S A) (R R' : A → S → Prop) s :
  wp m R s → (∀ a s', R a s' → R' a s') → wp m R' s.
Proof. unfold wp. destruct (m s) as [[a s']|]; [|done]. auto. Qed.
Lemma wp_get (R : S → S → Prop) s : R s s → wp get R s.
Proof. done. Qed.
Lemma wp_gets {A} (f : S → A) (R : A → S → Prop) s : R (f s) s → wp (gets f) R s.
Proof. done. Qed.
Lemma wp_put (s' : S) (R : unit → S → Prop) s : R tt s' → wp (put s') R s.
Proof. done. Qed.
Lemma wp_modify (f : S → S) (R : unit → S → Prop) s : R tt (f s) → wp (modify f) R s.
Proof. done. Qed.
Lemma wp_lift {A} (m : outcome A) a (R : A → S → Prop) s : m = Ok a → R a s → wp (lift m) R s.
Proof. by intros ->. Qed.
Lemma wp_assert (b : bool) (R : unit → S → Prop) s : b = true → R tt s → wp (assertM b) R s.
Proof. by intros ->. Qed.
Lemma wp_deref {A} (o : option A) a (R : A → S → Prop) s : o = Some a → R a s → wp (deref o) R s.
Proof. by intros ->. Qed.
Lemma wp_run {A} (m : M S A) a s' (R : A → S → Prop) s : m s = Ok (a, s') → R a s' → wp m R s.
Proof. unfold wp. by intros ->. Qed.
Lemma wp_elim {A} (m : M S A) (R : A → S → Prop) s :
  wp m R s → ∃ a s', m s = Ok (a, s') ∧ R a s'.
Proof. unfold wp. destruct (m s) as [[a s']|]; [eauto|done]. Qed.
Lemma wp_conj {A} (m : M S A) (R R' : A → S → Prop) s :
  wp m R s → wp m R' s → wp m (fun a s' => R a s' ∧ R' a s') s.
Proof. unfold wp. by destruct (m s) as [[a s']|]. Qed.

(** A loop over a list keeps its invariant. *)
Lemma wp_forM {A} (I : S → Prop) (l : list A) (k : A → M S unit) s :
  I s → (∀ x s, x ∈ l → I s → wp (k x) (fun _ => I) s) → wp (forM_ l k) (fun _ => I) s.
Proof.
  revert s. induction l as [|x l IH]; intros s Hs Hk; simpl; [done|].
  apply wp_bind. eapply wp_mono; [by apply Hk; [left|]|]. intros [] s' Hs'.
  apply IH; [done|]. intros y s2 Hy. apply Hk. by right.
Qed.
End wp.
Lemma wp_zoom {S T A} (view : S → T) (update : T → S → S) (m : M T A) (R : A → S → Prop) s :
  wp m (fun a t => R a (update t s)) (view s) → wp (zoom view update m) R s.
Proof. unfold wp, zoom. by destruct (m (view s)) as [[a t]|]. Qed.

(** ** Computations with catchable exceptions

    [wpE m R s]: started in [s], the result of [m], a value or a fault, and
    the final state satisfy [R]. *)
Definition wpE {S A} (m : ME S A) (R : outcome A → S → Prop) (s : S) : Prop :=
  R (m s).1 (m s).2.

Section wpE.
Context {S : Type}.

Lemma wpE_ret {A} (a : A) (R : outcome A → S → Prop) s : R (Ok a) s → wpE (mret a) R s.
Proof. done. Qed.
Lemma wpE_bind {A B} (m : ME S A) (k : A → ME S B) (R : outcome B → S → Prop) s :
  wpE m (fun r s' => match r with Ok a => wpE (k a) R s' | Fault f => R (Fault f) s' end) s →
  wpE (m ≫= k) R s.
Proof. unfold wpE, mbind, ME_bind. by destruct (m s) as [[a|f] s']. Qed.
Lemma wpE_mono {A} (m : ME S A) (R R' : outcome A → S → Prop) s :
  wpE m R s → (∀ r s', R r s' → R' r s') → wpE m R' s.
Proof. unfold wpE. auto. Qed.
Lemma wpE_get {A} (f : S → A) (R : outcome A → S → Prop) s : R (Ok (f s)) s → wpE (getE f) R s.
Proof. done. Qed.
Lemma wpE_modify (f : S → S) (R : outcome unit → S → Prop) s : R (Ok tt) (f s) → wpE (modifyE f) R s.
Proof. done. Qed.
Lemma wpE_lift {A} (m : outcome A) (R : outcome A → S → Prop) s : R m s → wpE (liftE m) R s.
Proof. done. Qed.
Lemma wpE_assert (b : bool) (R : outcome unit → S → Prop) s :
  b = true → R (Ok tt) s → wpE (assertE b) R s.
Proof. by intros ->. Qed.
Lemma wpE_catchTlv {A} (m h : ME S A) (R : outcome A → S → Prop) s :
  wpE m (fun r s' => match r with
                     | Fault f => if isTlvError f then wpE h R s' else R (Fault f) s'
                     | Ok a => R (Ok a) s'
                     end) s →
  wpE (catchTlv m h) R s.
Proof.
  unfold wpE, catchTlv. destruct (m s) as [[a|f] s']; simpl; [done|]. by destruct (isTlvError f).
Qed.
Lemma wpE_elim {A} (m : ME S A) (R : outcome A → S → Prop) s :
  wpE m R s → ∃ r s', m s = (r, s') ∧ R r s'.
Proof. unfold wpE. destruct (m s) as [r s']. eauto. Qed.

(** A loop whose body returns and keeps its invariant. *)
Lemma wpE_forE {A} (I : S → Prop) (l : list A) (k : A → ME S unit) s :
  I s → (∀ x s, x ∈ l → I s → wpE (k x) (fun r s' => r = Ok tt ∧ I s') s) →
  wpE (forE_ l k) (fun r s' => r = Ok tt ∧ I s') s.
Proof.
  revert s. induction l as [|x l IH]; intros s Hs Hk; cbn [forE_]; [done|].
  apply wpE_bind. eapply wpE_mono; [by apply Hk; [left|]|]. intros r s' [-> Hs'].
  apply IH; [done|]. intros y s2 Hy. apply Hk. by right.
Qed.
End wpE.
Lemma wpE_zoom {S T A} (view : S → T) (update : T → S → S) (m : ME T A) (R : outcome A → S → Prop) s :
  wpE m (fun r t => R r (update t s)) (view s) → wpE (zoomE view update m) R s.
Proof. unfold wpE, zoomE. by destruct (m (view s)) as [r t]. Qed.
