(* ===== verification/Tlv.v ===== *)
(** * NDN-TLV numbers and blocks (ndn-cxx [encoding/])

    VAR-NUMBER and NonNegativeInteger as [tlv.hpp], [tlv.cpp] and
    [encoder.cpp] read and write them, and the TLV framing of [block.cpp].
    A buffer is the list of its bytes; an iterator pair is the list of the
    bytes still unread. *)

From S2P Require Import Prelude.
Local Open Scope Z_scope.

(** ** Big-endian integers *)

(** The bytes of [boost::endian::native_to_big] of an [8n]-bit integer. *)
Fixpoint be_bytes (n : nat) (z : Z) : list Z :=
  match n with
  | O => []
  | S n' => (z / 256 ^ Z.of_nat n') mod 256 :: be_bytes n' z
  end.

(** [boost::endian::big_to_native] of a byte string. *)
Definition be_number (l : list Z) : Z := foldl (fun acc b => acc * 256 + b) 0 l.

Definition UINT8_MAX : Z := 255.
Definition UINT16_MAX : Z := 65535.
Definition UINT32_MAX : Z := 4294967295.
Definition tlv_Invalid : Z := 0.
Definition tlv_Interest : Z := 5.
Definition tlv_Data : Z := 6.

(** ** Writing numbers *)

(** [Encoder::prependVarNumber] on the bytes already encoded. *)
Definition prependVarNumber (varNumber : Z) (enc : list Z) : list Z :=
  if bool_decide (varNumber < 253) then [u8 varNumber] ++ enc
  else if bool_decide (varNumber ≤ UINT16_MAX) then [253] ++ (be_bytes 2 varNumber ++ enc)
  else if bool_decide (varNumber ≤ UINT32_MAX) then [254] ++ (be_bytes 4 varNumber ++ enc)
  else [255] ++ (be_bytes 8 varNumber ++ enc).

(** [Encoder::appendVarNumber]. *)
Definition appendVarNumber (enc : list Z) (varNumber : Z) : list Z :=
  if bool_decide (varNumber < 253) then enc ++ [u8 varNumber]
  else if bool_decide (varNumber ≤ UINT16_MAX) then (enc ++ [253]) ++ be_bytes 2 varNumber
  else if bool_decide (varNumber ≤ UINT32_MAX) then (enc ++ [254]) ++ be_bytes 4 varNumber
  else (enc ++ [255]) ++ be_bytes 8 varNumber.

(** [Encoder::prependNonNegativeInteger]. *)
Definition prependNonNegativeInteger (varNumber : Z) (enc : list Z) : list Z :=
  if bool_decide (varNumber ≤ UINT8_MAX) then [u8 varNumber] ++ enc
  else if bool_decide (varNumber ≤ UINT16_MAX) then be_bytes 2 varNumber ++ enc
  else if bool_decide (varNumber ≤ UINT32_MAX) then be_bytes 4 varNumber ++ enc
  else be_bytes 8 varNumber ++ enc.

(** [tlv::writeVarNumber]: the bytes put on the stream and the count returned. *)
Definition writeVarNumber (number : Z) : list Z * nat :=
  if bool_decide (number < 253) then ([u8 number], 1%nat)
  else if bool_decide (number ≤ UINT16_MAX) then (253 :: be_bytes 2 number, 3%nat)
  else if bool_decide (number ≤ UINT32_MAX) then (254 :: be_bytes 4 number, 5%nat)
  else (255 :: be_bytes 8 number, 9%nat).

(** [tlv::writeNonNegativeInteger]. *)
Definition writeNonNegativeInteger (integer : Z) : list Z * nat :=
  if bool_decide (integer ≤ UINT8_MAX) then ([u8 integer], 1%nat)
  else if bool_decide (integer ≤ UINT16_MAX) then (be_bytes 2 integer, 2%nat)
  else if bool_decide (integer ≤ UINT32_MAX) then (be_bytes 4 integer, 4%nat)
  else (be_bytes 8 integer, 8%nat).

Definition sizeOfVarNumber (number : Z) : nat :=
  if bool_decide (number < 253) then 1
  else if bool_decide (number ≤ UINT16_MAX) then 3
  else if bool_decide (number ≤ UINT32_MAX) then 5 else 9.

Definition sizeOfNonNegativeInteger (integer : Z) : nat :=
  if bool_decide (integer ≤ UINT8_MAX) then 1
  else if bool_decide (integer ≤ UINT16_MAX) then 2
  else if bool_decide (integer ≤ UINT32_MAX) then 4 else 8.

(** ** Reading numbers *)

(** The sizes [detail::readNumber] is reachable with. *)
Inductive num_size : Type := N1 | N2 | N4 | N8.
Definition num_bytes (s : num_size) : nat :=
  match s with N1 => 1 | N2 => 2 | N4 => 4 | N8 => 8 end.

(** [detail::readNumber], contiguous iterators: [None] is the result [false],
    otherwise the number and the bytes left. *)
Definition readNumber (size : num_size) (buf : list Z) : option (Z * list Z) :=
  if bool_decide (length buf < num_bytes size)%nat then None
  else match size with
       | N1 => Some (be_number (take 1 buf), drop 1 buf)
       | N2 => Some (be_number (take 2 buf), drop 2 buf)
       | N4 => Some (be_number (take 4 buf), drop 4 buf)
       | N8 => Some (be_number (take 8 buf), drop 8 buf)
       end.

(** [detail::readNumber], the loop for other iterators, with its [count] as
    the steps left to do: whether [count == size], the number, the rest. *)
Fixpoint readNumber_loop (todo : nat) (number : Z) (buf : list Z) : bool * Z * list Z :=
  match todo, buf with
  | O, _ => (true, number, buf)
  | S _, [] => (false, number, buf)
  | S todo', b :: buf' => readNumber_loop todo' (u64 (Z.lor (Z.shiftl number 8) b)) buf'
  end.
Definition readNumber_slow (size : nat) (buf : list Z) : bool * Z * list Z :=
  readNumber_loop size 0 buf.

(** [readVarNumber(begin, end, number)]. *)
Definition readVarNumber (buf : list Z) : option (Z * list Z) :=
  match buf with
  | [] => None
  | firstOctet :: rest =>
      if bool_decide (firstOctet < 253) then Some (firstOctet, rest)
      else readNumber (if bool_decide (firstOctet = 253) then N2
                       else if bool_decide (firstOctet = 254) then N4 else N8) rest
  end.

(** [readType(begin, end, type)]. *)
Definition readType (buf : list Z) : option (Z * list Z) :=
  match readVarNumber buf with
  | None => None
  | Some (number, rest) =>
      if bool_decide (number = tlv_Invalid ∨ UINT32_MAX < number) then None
      else Some (number, rest)
  end.

(** The throwing overloads. *)
Definition readVarNumber_exn (buf : list Z) : outcome (Z * list Z) :=
  match readVarNumber buf with Some r => Ok r | None => Fault (Throw TlvError) end.

Definition readType_exn (buf : list Z) : outcome (Z * list Z) :=
  '(type, rest) ← readVarNumber_exn buf;
  if bool_decide (type = tlv_Invalid ∨ UINT32_MAX < type) then Fault (Throw TlvError)
  else Ok (type, rest).

Definition readNonNegativeInteger (len : nat) (buf : list Z) : outcome (Z * list Z) :=
  match (match len with 1 => Some N1 | 2 => Some N2 | 4 => Some N4 | 8 => Some N8
                   | _ => None end)%nat with
  | None => Fault (Throw TlvError)
  | Some size =>
      match readNumber size buf with
      | None => Fault (Throw TlvError)
      | Some r => Ok r
      end
  end.

(** ** Blocks *)

(** A block with TLV-VALUE; [Block::equals] compares exactly these two. *)
Record Block := { blk_type : Z; blk_value : list Z }.
#[export] Instance Block_eq_dec : EqDecision Block.
Proof. solve_decision. Defined.

(** [Block::encode] of a block that has a value: TLV-VALUE, then TLV-LENGTH
    and TLV-TYPE are prepended. *)
Definition Block_encode (b : Block) (enc : list Z) : list Z :=
  prependVarNumber (blk_type b)
    (prependVarNumber (Z.of_nat (length (blk_value b))) (blk_value b ++ enc)).

(** [Block::fromBuffer(span)]: the block and the bytes after it. *)
Definition Block_fromBuffer (buf : list Z) : option (Block * list Z) :=
  match readType buf with
  | None => None
  | Some (type, pos) =>
      match readVarNumber pos with
      | None => None
      | Some (length_, pos) =>
          if bool_decide (Z.of_nat (length pos) < length_) then None
          else Some ({| blk_type := type; blk_value := take (Z.to_nat length_) pos |},
                     drop (Z.to_nat length_) pos)
      end
  end.

(** [Block::parse]: the loop appends to [m_elements] ([els]) until the value
    is consumed.  Too long a sub-element clears [m_elements] before throwing;
    a sub-element whose type or length cannot be read throws at once.
    [fuel] bounds the number of sub-elements; each consumes at least a byte,
    so the length of the value is enough. *)
Fixpoint Block_parse_loop (fuel : nat) (els : list Block) (buf : list Z)
  : list Block * option exn :=
  match buf, fuel with
  | [], _ => (els, None)
  | _ :: _, O => (els, None)
  | _ :: _, S fuel' =>
      match readType_exn buf with
      | Fault (Throw e) => (els, Some e)
      | Fault _ => (els, None)
      | Ok (type, pos) =>
          match readVarNumber pos with
          | None => (els, Some TlvError)
          | Some (length_, pos) =>
              if bool_decide (Z.of_nat (length pos) < length_) then ([], Some TlvError)
              else Block_parse_loop fuel'
                     (els ++ [{| blk_type := type; blk_value := take (Z.to_nat length_) pos |}])
                     (drop (Z.to_nat length_) pos)
          end
      end
  end.

Definition Block_parse (m_elements : list Block) (value : list Z) : list Block * option exn :=
  if bool_decide (m_elements ≠ [] ∨ value = []) then (m_elements, None)
  else Block_parse_loop (length value) m_elements value.

(** [Block::encodeValue]: the sub-elements, prepended in reverse order. *)
Definition Block_encodeElements (els : list Block) (enc : list Z) : list Z :=
  foldr Block_encode enc els.

(** A [Block] object with its wire buffer: TLV-TYPE, the bytes of TLV-VALUE,
    the bytes of the whole element and the sub-elements parsed so far.  The
    decoder accepts VAR-NUMBERs that are longer than needed, so the bytes of
    a received element are not determined by its type and value. *)
Record Wire := mkWire {
  w_type : Z;
  w_value : list Z;
  w_bytes : list Z;
  w_elements : list Block
}.
#[export] Instance Wire_eq_dec : EqDecision Wire.
Proof. solve_decision. Defined.

(** [Block::size]. *)
Definition Wire_size (w : Wire) : nat := length (w_bytes w).

(** The constructor [Block(span)]: bytes after the element are ignored. *)
Definition Wire_ofSpan (buffer : list Z) : outcome Wire :=
  '(type, pos) ← readType_exn buffer;
  '(length_, pos) ← readVarNumber_exn pos;
  if bool_decide (Z.of_nat (length pos) < length_) then Fault (Throw TlvError)
  else
    let value := take (Z.to_nat length_) pos in
    let rest := drop (Z.to_nat length_) pos in
    Ok (mkWire type value (take (length buffer - length rest) buffer) []).

(** [Block::parse] and the sub-elements it leaves. *)
Definition Wire_parse (w : Wire) : outcome (list Block) :=
  match Block_parse (w_elements w) (w_value w) with
  | (els, None) => Ok els
  | (_, Some e) => Fault (Throw e)
  end.

(** An element that [Block::encode] has just written. *)
Definition Wire_ofBlock (b : Block) (els : list Block) : Wire :=
  mkWire (blk_type b) (blk_value b) (Block_encode b []) els.

(** ** Lemmas on big-endian integers *)

Lemma length_be_bytes n z : length (be_bytes n z) = n.
Proof. induction n; simpl; auto. Qed.

Lemma be_bytes_ok n z : bytes_ok (be_bytes n z).
Proof.
  induction n as [|n IH]; simpl; constructor; [|done].
  unfold is_byte. apply Z.mod_pos_bound. lia.
Qed.

Lemma foldl_be_number l a :
  foldl (fun acc b => acc * 256 + b) a l = a * 256 ^ Z.of_nat (length l) + be_number l.
Proof.
  unfold be_number. revert a. induction l as [|b l IH]; intros a; cbn [foldl length].
  - rewrite Z.pow_0_r. lia.
  - rewrite IH, (IH (0 * 256 + b)), Nat2Z.inj_succ, Z.pow_succ_r by lia. ring.
Qed.

Lemma be_number_cons b l : be_number (b :: l) = b * 256 ^ Z.of_nat (length l) + be_number l.
Proof. unfold be_number. cbn [foldl]. by rewrite foldl_be_number. Qed.

Lemma be_number_bound l : bytes_ok l → 0 ≤ be_number l < 256 ^ Z.of_nat (length l).
Proof.
  induction 1 as [|b l Hb Hl IH]; [done|].
  rewrite be_number_cons. cbn [length]. rewrite Nat2Z.inj_succ, Z.pow_succ_r by lia.
  unfold is_byte in Hb. nia.
Qed.

Lemma be_number_be_bytes n z : 0 ≤ z < 256 ^ Z.of_nat n → be_number (be_bytes n z) = z.
Proof.
  intros Hz. enough (∀ n z, 0 ≤ z → be_number (be_bytes n z) = z mod 256 ^ Z.of_nat n) as H.
  { rewrite H by lia. apply Z.mod_small. lia. }
  clear n z Hz. intros n z Hz. induction n as [|n IH].
  - simpl. rewrite Z.pow_0_r, Z.mod_1_r. done.
  - cbn [be_bytes]. rewrite be_number_cons, length_be_bytes, IH.
    rewrite Nat2Z.inj_succ, Z.pow_succ_r by lia.
    rewrite (Z.mul_comm 256), Z.rem_mul_r by lia. ring.
Qed.

Lemma be_bytes_mod n z : be_bytes n (z mod 256 ^ Z.of_nat n) = be_bytes n z.
Proof.
  enough (∀ m, (n ≤ m)%nat → be_bytes n (z mod 256 ^ Z.of_nat m) = be_bytes n z) as H by auto.
  induction n as [|n IH]; intros m Hm; simpl; [done|]. f_equal; [|apply IH; lia].
  replace (Z.of_nat m) with (Z.of_nat n + Z.of_nat (m - n)) by lia.
  rewrite Z.pow_add_r, Z.rem_mul_r by lia.
  rewrite (Z.mul_comm (256 ^ Z.of_nat n)), Z.div_add by lia.
  rewrite (Z.div_small (z mod _)) by (apply Z.mod_pos_bound; lia). rewrite Z.add_0_l.
  replace (Z.of_nat (m - n)) with (1 + Z.of_nat (m - n - 1)) by lia.
  rewrite Z.pow_add_r, Z.pow_1_r by lia. rewrite Z.rem_mul_r by lia.
  rewrite (Z.mul_comm 256), Z.mod_add by lia. by rewrite Z.mod_mod by lia.
Qed.

(** Reading a NonNegativeInteger gives a 64-bit number. *)
Lemma readNonNegativeInteger_bound len buf n rest :
  bytes_ok buf → readNonNegativeInteger len buf = Ok (n, rest) → 0 ≤ n < 2 ^ 64.
Proof.
  intros Hok. unfold readNonNegativeInteger.
  destruct (match len with 1%nat => Some N1 | 2%nat => Some N2 | 4%nat => Some N4 | 8%nat => Some N8
            | _ => None end) as [s|]; [|done].
  unfold readNumber. case_bool_decide as Hl; [done|].
  assert (0 ≤ be_number (take (num_bytes s) buf) < 2 ^ 64) as Hb.
  { pose proof (be_number_bound (take (num_bytes s) buf) (Forall_take _ _ _ Hok)) as [H1 H2].
    split; [done|]. eapply Z.lt_le_trans; [exact H2|]. rewrite length_take_le by lia.
    by destruct s. }
  by destruct s; simpl in *; intros [= <- <-].
Qed.

(** Big-endian strings of one length are ordered as the numbers they encode. *)
Lemma lex_be_bytes n a b :
  0 ≤ a < 256 ^ Z.of_nat n → 0 ≤ b < 256 ^ Z.of_nat n →
  bytes_lex (be_bytes n a) (be_bytes n b) = (a ?= b).
Proof.
  revert a b. induction n as [|n IH]; intros a b Ha Hb.
  - rewrite Z.pow_0_r in *. replace b with a by lia. by rewrite Z.compare_refl.
  - rewrite Nat2Z.inj_succ, Z.pow_succ_r in * by lia. cbn [be_bytes lex].
    set (p := 256 ^ Z.of_nat n) in *. assert (0 < p) by (unfold p; lia).
    assert (0 ≤ a / p < 256 ∧ 0 ≤ b / p < 256) as [Hqa Hqb].
    { split; (split; [apply Z.div_pos; lia|apply Z.div_lt_upper_bound; lia]). }
    rewrite !(Z.mod_small (_ / p)) by lia.
    pose proof (Z.div_mod a p ltac:(lia)) as Ea. pose proof (Z.div_mod b p ltac:(lia)) as Eb.
    pose proof (Z.mod_pos_bound a p ltac:(lia)) as Hra.
    pose proof (Z.mod_pos_bound b p ltac:(lia)) as Hrb.
    destruct (Z.compare_spec (a / p) (b / p)) as [E|E|E].
    + rewrite <-(be_bytes_mod n a), <-(be_bytes_mod n b). fold p.
      rewrite (IH (a mod p) (b mod p)) by (unfold p in *; lia).
      symmetry. rewrite Ea at 1. rewrite Eb at 1. rewrite E. apply Z.add_compare_mono_l.
    + symmetry. apply Z.compare_lt_iff. nia.
    + symmetry. apply Z.compare_gt_iff. nia.
Qed.

Definition varNumber (n : Z) : list Z := prependVarNumber n [].

Lemma prependVarNumber_app n enc : prependVarNumber n enc = varNumber n ++ enc.
Proof. unfold varNumber, prependVarNumber. by repeat case_bool_decide; rewrite ?app_nil_r. Qed.

Ltac var_cases := unfold varNumber, prependVarNumber, appendVarNumber, writeVarNumber,
  sizeOfVarNumber, prependNonNegativeInteger, writeNonNegativeInteger,
  sizeOfNonNegativeInteger, UINT8_MAX, UINT16_MAX, UINT32_MAX;
  repeat case_bool_decide.

Lemma appendVarNumber_app n enc : appendVarNumber enc n = enc ++ varNumber n.
Proof. by var_cases; rewrite ?app_nil_r, <-?app_assoc. Qed.

Lemma length_varNumber n : length (varNumber n) = sizeOfVarNumber n.
Proof. by var_cases. Qed.

Lemma varNumber_ok n : bytes_ok (varNumber n).
Proof.
  unfold varNumber, prependVarNumber. rewrite !app_nil_r.
  repeat case_bool_decide; repeat constructor; try apply be_bytes_ok; try done;
    apply Z.mod_pos_bound; lia.
Qed.

Lemma writeVarNumber_spec n : writeVarNumber n = (varNumber n, sizeOfVarNumber n).
Proof. by var_cases; rewrite ?app_nil_r. Qed.

(** ** Reading back what was written *)

Lemma readNumber_spec s buf :
  (num_bytes s ≤ length buf)%nat →
  readNumber s buf = Some (be_number (take (num_bytes s) buf), drop (num_bytes s) buf).
Proof. intros ?. unfold readNumber. rewrite bool_decide_false by lia. by destruct s. Qed.

Lemma readNumber_short s buf :
  (length buf < num_bytes s)%nat → readNumber s buf = None.
Proof. intros ?. unfold readNumber. by rewrite bool_decide_true by lia. Qed.

Lemma readNumber_be_bytes s n rest :
  0 ≤ n < 256 ^ Z.of_nat (num_bytes s) →
  readNumber s (be_bytes (num_bytes s) n ++ rest) = Some (n, rest).
Proof.
  intros Hn. rewrite readNumber_spec by (rewrite length_app, length_be_bytes; lia).
  rewrite take_app_length', drop_app_length' by by rewrite length_be_bytes.
  by rewrite be_number_be_bytes.
Qed.

Lemma readVarNumber_varNumber n rest :
  0 ≤ n < 2 ^ 64 → readVarNumber (varNumber n ++ rest) = Some (n, rest).
Proof.
  intros Hn. unfold varNumber, prependVarNumber, UINT16_MAX, UINT32_MAX.
  repeat case_bool_decide; cbn -[be_bytes readNumber]; rewrite ?app_nil_r.
  - unfold u8. rewrite Z.mod_small by lia. by rewrite bool_decide_true.
  - apply (readNumber_be_bytes N2). simpl; lia.
  - apply (readNumber_be_bytes N4). simpl; lia.
  - apply (readNumber_be_bytes N8). simpl; lia.
Qed.

Lemma readType_varNumber n rest :
  0 < n < 2 ^ 32 → readType (varNumber n ++ rest) = Some (n, rest).
Proof.
  intros Hn. unfold readType. rewrite readVarNumber_varNumber by lia.
  unfold tlv_Invalid, UINT32_MAX. by rewrite bool_decide_false by lia.
Qed.

(** Whatever [readVarNumber] accepts is a prefix of the buffer of 1 to 9
    bytes, and the number fits 64 bits. *)
Lemma readVarNumber_inv buf n rest :
  bytes_ok buf → readVarNumber buf = Some (n, rest) →
  0 ≤ n < 2 ^ 64 ∧ ∃ hd, buf = hd ++ rest ∧ (1 ≤ length hd ≤ 9)%nat.
Proof.
  intros Hok. destruct buf as [|b buf]; simpl; [done|].
  apply Forall_cons in Hok as [Hb Hok]. unfold is_byte in Hb.
  case_bool_decide; [intros [= <- <-]; split; [lia|]; exists [b]; simpl; split; [done|lia]|].
  generalize (if bool_decide (b = 253) then N2 else if bool_decide (b = 254) then N4 else N8).
  intros s. destruct (decide (num_bytes s ≤ length buf)%nat).
  - rewrite readNumber_spec by done. intros [= <- <-]. split.
    + pose proof (be_number_bound (take (num_bytes s) buf)) as Hbd.
      rewrite length_take_le in Hbd by done.
      destruct Hbd as [? Hlt]; [by apply Forall_take|]. split; [done|].
      eapply Z.lt_le_trans; [done|]. by destruct s.
    + exists (b :: take (num_bytes s) buf). simpl. rewrite take_drop, length_take_le by done.
      split; [done|]. destruct s; simpl; lia.
  - rewrite readNumber_short by lia. done.
Qed.

Lemma readNumber_loop_spec todo : ∀ number buf,
  bytes_ok buf → (todo ≤ length buf)%nat →
  0 ≤ number → number * 256 ^ Z.of_nat todo + 256 ^ Z.of_nat todo ≤ 2 ^ 64 →
  readNumber_loop todo number buf =
    (true, number * 256 ^ Z.of_nat todo + be_number (take todo buf), drop todo buf).
Proof.
  induction todo as [|todo IH]; intros number buf Hok Hlen Hn Hbd.
  - simpl. rewrite take_0, drop_0. unfold be_number. simpl. do 2 f_equal. lia.
  - destruct buf as [|b buf]; [simpl in *; lia|].
    apply Forall_cons in Hok as [Hb Hok]. unfold is_byte in Hb. cbn [readNumber_loop].
    assert (Z.lor (Z.shiftl number 8) b = number * 256 + b) as ->.
    { pose proof (Z.add_lor_land (Z.shiftl number 8) b) as E.
      rewrite Z.shiftl_mul_pow2 in * by lia.
      assert (Z.land (number * 2 ^ 8) b = 0) as Hz; [|lia].
      replace b with (b mod 2 ^ 8) by (apply Z.mod_small; lia).
      rewrite <-Z.land_ones, (Z.land_comm b), Z.land_assoc, Z.land_ones by lia.
      by rewrite Z.mod_mul by lia. }
    rewrite Nat2Z.inj_succ, Z.pow_succ_r in * by lia.
    set (p := 256 ^ Z.of_nat todo) in *. assert (1 ≤ p) by (unfold p; lia).
    rewrite u64_small by nia.
    rewrite IH; [|done|simpl in *; lia|nia|unfold p in *; nia].
    cbn [take drop]. rewrite be_number_cons, length_take_le by (simpl in *; lia).
    fold p. do 2 f_equal. ring.
Qed.

(** ** Blocks *)

Definition Block_ok (b : Block) : Prop :=
  0 < blk_type b < 2 ^ 32 ∧ Z.of_nat (length (blk_value b)) < 2 ^ 64.
#[export] Instance Block_ok_dec b : Decision (Block_ok b).
Proof. unfold Block_ok. apply _. Defined.

Lemma Block_encode_app b enc :
  Block_encode b enc =
    varNumber (blk_type b) ++ varNumber (Z.of_nat (length (blk_value b))) ++ blk_value b ++ enc.
Proof. unfold Block_encode. by rewrite !prependVarNumber_app. Qed.

Lemma Block_fromBuffer_encode b enc :
  Block_ok b → Block_fromBuffer (Block_encode b enc) = Some (b, enc).
Proof.
  intros [Ht Hl]. rewrite Block_encode_app. unfold Block_fromBuffer.
  rewrite readType_varNumber, readVarNumber_varNumber by lia.
  rewrite bool_decide_false by (rewrite length_app; lia).
  rewrite Nat2Z.id, take_app_length, drop_app_length. by destruct b.
Qed.

Lemma Block_parse_loop_step fuel els b enc :
  Block_ok b →
  Block_parse_loop (S fuel) els (Block_encode b enc) = Block_parse_loop fuel (els ++ [b]) enc.
Proof.
  intros [Ht Hl]. rewrite Block_encode_app. pose proof (length_varNumber (blk_type b)) as Hlen.
  destruct (varNumber (blk_type b)) as [|x l] eqn:Ev.
  { exfalso. revert Hlen. by unfold sizeOfVarNumber; repeat case_bool_decide. }
  cbn [Block_parse_loop app]. change (x :: (l ++ ?k)) with ((x :: l) ++ k). rewrite <-Ev.
  unfold readType_exn, readVarNumber_exn. rewrite readVarNumber_varNumber by lia. simpl.
  unfold tlv_Invalid, UINT32_MAX. rewrite bool_decide_false by lia.
  rewrite readVarNumber_varNumber by lia.
  rewrite bool_decide_false by (rewrite length_app; lia).
  rewrite Nat2Z.id, take_app_length, drop_app_length. by destruct b.
Qed.

Lemma length_Block_encode b enc : (length enc < length (Block_encode b enc))%nat.
Proof.
  rewrite Block_encode_app, !length_app, !length_varNumber.
  unfold sizeOfVarNumber. repeat case_bool_decide; lia.
Qed.

Lemma Block_parse_loop_encode els : ∀ fuel done,
  Forall Block_ok els → (length (Block_encodeElements els []) ≤ fuel)%nat →
  Block_parse_loop fuel done (Block_encodeElements els []) = (done ++ els, None).
Proof.
  induction els as [|b els IH]; intros fuel done Hok Hfuel; simpl in *.
  - rewrite app_nil_r. by destruct fuel.
  - apply Forall_cons in Hok as [Hb Hok].
    pose proof (length_Block_encode b (Block_encodeElements els [])).
    destruct fuel as [|fuel]; [simpl in *; lia|].
    rewrite Block_parse_loop_step by done.
    rewrite IH by (done || lia). by rewrite <-app_assoc.
Qed.

Lemma Block_parse_encode els :
  Forall Block_ok els → Block_parse [] (Block_encodeElements els []) = (els, None).
Proof.
  intros Hok. unfold Block_parse. case_bool_decide as Hd; [|by rewrite Block_parse_loop_encode].
  destruct Hd as [?|Hnil]; [done|]. destruct els as [|b els]; [done|].
  pose proof (length_Block_encode b (Block_encodeElements els [])) as Hl.
  cbn in Hnil. unfold Block_encodeElements in Hl. rewrite Hnil in Hl. simpl in Hl. lia.
Qed.

(** The loop of [Block::parse] never runs out of fuel: every iteration
    consumes at least one byte. *)
Lemma Block_parse_loop_fuel buf fuel fuel' els :
  bytes_ok buf → (length buf ≤ fuel)%nat → (length buf ≤ fuel')%nat →
  Block_parse_loop fuel els buf = Block_parse_loop fuel' els buf.
Proof.
  revert fuel' els buf. induction fuel as [|fuel IH]; intros [|fuel'] els [|b buf] Hok Hf Hf';
    try done; try (simpl in *; lia).
  cbn [Block_parse_loop]. remember (b :: buf) as whole eqn:Ew.
  unfold readType_exn, readVarNumber_exn.
  destruct (readVarNumber whole) as [[type pos]|] eqn:Et; simpl; [|done].
  apply readVarNumber_inv in Et as (_ & hd & -> & Hl); [|done].
  apply Forall_app in Hok as [_ Hok]. case_bool_decide; [done|].
  destruct (readVarNumber pos) as [[len pos']|] eqn:El; [|done].
  apply readVarNumber_inv in El as (_ & hd' & -> & Hl'); [|done].
  apply Forall_app in Hok as [_ Hok]. case_bool_decide; [done|].
  rewrite !length_app in *. apply IH; [by apply Forall_drop|..]; rewrite length_drop; lia.
Qed.

(** What [Block::parse] leaves in [m_elements] has TLV-TYPEs and lengths in
    range, and the only exception is [tlv::Error]. *)
Lemma Block_parse_loop_ok fuel els buf els' r :
  bytes_ok buf → Z.of_nat (length buf) < 2 ^ 64 → Forall Block_ok els →
  Block_parse_loop fuel els buf = (els', r) →
  Forall Block_ok els' ∧ (r = None ∨ r = Some TlvError).
Proof.
  revert els buf. induction fuel as [|fuel IH]; intros els [|b buf] Hok Hlen Hels;
    cbn [Block_parse_loop]; try (intros [= <- <-]; auto).
  remember (b :: buf) as whole eqn:Ew. unfold readType_exn, readVarNumber_exn.
  destruct (readVarNumber whole) as [[type pos]|] eqn:Et; simpl; [|intros [= <- <-]; auto].
  apply readVarNumber_inv in Et as (Htype & hd & -> & Hl); [|done].
  apply Forall_app in Hok as [_ Hok]. unfold tlv_Invalid, UINT32_MAX.
  case_bool_decide; [intros [= <- <-]; auto|].
  destruct (readVarNumber pos) as [[len pos']|] eqn:El; [|intros [= <- <-]; auto].
  apply readVarNumber_inv in El as (Hlr & hd' & -> & Hl'); [|done].
  apply Forall_app in Hok as [_ Hok]. case_bool_decide; [intros [= <- <-]; auto|].
  rewrite !length_app in *. apply IH.
  - by apply Forall_drop.
  - rewrite length_drop. lia.
  - apply Forall_app. split; [done|]. repeat constructor; simpl; try lia. rewrite length_take. lia.
Qed.

Lemma Block_parse_loop_bytes fuel els buf els' r :
  bytes_ok buf → Forall (fun b => bytes_ok (blk_value b)) els →
  Block_parse_loop fuel els buf = (els', r) → Forall (fun b => bytes_ok (blk_value b)) els'.
Proof.
  revert els buf. induction fuel as [|fuel IH]; intros els [|b buf] Hok Hels;
    cbn [Block_parse_loop]; try (intros [= <- <-]; auto).
  remember (b :: buf) as whole eqn:Ew. unfold readType_exn, readVarNumber_exn.
  destruct (readVarNumber whole) as [[type pos]|] eqn:Et; simpl; [|by intros [= <- <-]].
  apply readVarNumber_inv in Et as (_ & hd & -> & _); [|done].
  apply Forall_app in Hok as [_ Hok]. case_bool_decide; [by intros [= <- <-]|].
  destruct (readVarNumber pos) as [[len pos']|] eqn:El; [|by intros [= <- <-]].
  apply readVarNumber_inv in El as (_ & hd' & -> & _); [|done].
  apply Forall_app in Hok as [_ Hok]. case_bool_decide; [intros [= <- <-]; auto|].
  apply IH; [by apply Forall_drop|]. apply Forall_app. split; [done|].
  constructor; [by apply Forall_take|done].
Qed.

Lemma Block_parse_ok els buf els' r :
  bytes_ok buf → Z.of_nat (length buf) < 2 ^ 64 → Forall Block_ok els →
  Block_parse els buf = (els', r) → Forall Block_ok els' ∧ (r = None ∨ r = Some TlvError).
Proof.
  intros ???. unfold Block_parse. case_bool_decide; [intros [= <- <-]; auto|].
  by apply Block_parse_loop_ok.
Qed.

(** ** Blocks with their buffer *)

Definition Wire_ok (w : Wire) : Prop :=
  bytes_ok (w_value w) ∧ bytes_ok (w_bytes w) ∧ Forall Block_ok (w_elements w) ∧
  Z.of_nat (length (w_value w)) < 2 ^ 64 ∧ Z.of_nat (length (w_bytes w)) < 2 ^ 64.

Lemma Wire_parse_ok w els : Wire_ok w → Wire_parse w = Ok els → Forall Block_ok els.
Proof.
  intros (Hv & _ & Hels & Hl & _). unfold Wire_parse.
  destruct (Block_parse _ _) as [els' [e|]] eqn:E; [done|]. intros [= <-].
  by eapply Block_parse_ok in E as [? _].
Qed.

Lemma Wire_parse_bytes w els :
  bytes_ok (w_value w) → w_elements w = [] → Wire_parse w = Ok els →
  Forall (fun b => bytes_ok (blk_value b)) els.
Proof.
  intros Hv He. unfold Wire_parse, Block_parse. rewrite He.
  case_bool_decide; [by intros [= <-]|].
  destruct (Block_parse_loop _ _ _) as [els' [e|]] eqn:E; [done|]. intros [= <-].
  by eapply Block_parse_loop_bytes in E.
Qed.

Lemma Block_parse_loop_throws fuel els buf els' e :
  Block_parse_loop fuel els buf = (els', Some e) → e = TlvError.
Proof.
  revert els buf. induction fuel as [|fuel IH]; intros els [|b buf]; cbn [Block_parse_loop]; try done.
  unfold readType_exn, readVarNumber_exn.
  destruct (readVarNumber (b :: buf)) as [[type pos]|]; simpl; [|congruence].
  case_bool_decide; [congruence|]. destruct (readVarNumber pos) as [[len pos']|]; [|congruence].
  case_bool_decide; [congruence|]. apply IH.
Qed.
Lemma Wire_parse_throws w f : Wire_parse w = Fault f → f = Throw TlvError.
Proof.
  unfold Wire_parse, Block_parse. case_bool_decide; [done|].
  destruct (Block_parse_loop _ _ _) as [els' [e|]] eqn:E; [|done]. intros [= <-].
  by apply Block_parse_loop_throws in E as ->.
Qed.

Lemma Wire_ofSpan_throws buf f : Wire_ofSpan buf = Fault f → f = Throw TlvError.
Proof.
  unfold Wire_ofSpan, readType_exn, readVarNumber_exn.
  destruct (readVarNumber buf) as [[type pos]|]; simpl; [|congruence].
  case_bool_decide; simpl; [congruence|].
  destruct (readVarNumber pos) as [[len pos']|]; simpl; [|congruence].
  case_bool_decide; congruence.
Qed.

(** The bytes of the element are a prefix of the span, the value their end. *)
Lemma Wire_ofSpan_inv buf w :
  bytes_ok buf → Wire_ofSpan buf = Ok w →
  0 < w_type w < 2 ^ 32 ∧ w_elements w = [] ∧
  ∃ hd rest, w_bytes w = hd ++ w_value w ∧ buf = w_bytes w ++ rest ∧ hd ≠ [].
Proof.
  intros Hok. unfold Wire_ofSpan, readType_exn, readVarNumber_exn.
  destruct (readVarNumber buf) as [[type pos]|] eqn:Et; simpl; [|done].
  apply readVarNumber_inv in Et as (Htype & hd & -> & Hl); [|done].
  apply Forall_app in Hok as [_ Hok]. unfold tlv_Invalid, UINT32_MAX.
  case_bool_decide; simpl; [done|].
  destruct (readVarNumber pos) as [[len pos']|] eqn:El; simpl; [|done].
  apply readVarNumber_inv in El as (Hlr & hd' & -> & Hl'); [|done].
  case_bool_decide as Hlen; [done|]. intros [= <-]. cbn [w_type w_elements w_bytes w_value].
  split; [lia|]. split; [done|]. exists (hd ++ hd'), (drop (Z.to_nat len) pos').
  assert (hd ++ hd' ++ pos' =
    ((hd ++ hd') ++ take (Z.to_nat len) pos') ++ drop (Z.to_nat len) pos') as E.
  { by rewrite <-!app_assoc, take_drop. }
  rewrite E. assert (length (((hd ++ hd') ++ take (Z.to_nat len) pos') ++ drop (Z.to_nat len) pos')
    - length (drop (Z.to_nat len) pos') = length ((hd ++ hd') ++ take (Z.to_nat len) pos'))%nat as ->
    by (rewrite !length_app; lia).
  rewrite take_app_length. split_and!; [done..|]. destruct hd; simpl in *; [lia|done].
Qed.

Lemma Wire_ofSpan_ok buf w :
  bytes_ok buf → Z.of_nat (length buf) < 2 ^ 64 → Wire_ofSpan buf = Ok w → Wire_ok w.
Proof.
  intros Hok Hlen Hw. apply Wire_ofSpan_inv in Hw as (_ & He & hd & rest & Hb & -> & _); [|done].
  apply Forall_app in Hok as [Hok _]. rewrite Hb in Hok. apply Forall_app in Hok as [Hok1 Hok2].
  unfold Wire_ok. rewrite He, Hb in *. rewrite !length_app in *.
  split_and!; [done|by apply Forall_app|done|lia..].
Qed.

Lemma Wire_ofSpan_encode b rest :
  Block_ok b → Wire_ofSpan (Block_encode b rest) = Ok (Wire_ofBlock b []).
Proof.
  intros [Ht Hl]. unfold Wire_ofSpan, Wire_ofBlock. rewrite !Block_encode_app.
  unfold readType_exn, readVarNumber_exn. rewrite readVarNumber_varNumber by lia. simpl.
  unfold tlv_Invalid, UINT32_MAX. rewrite bool_decide_false by lia. simpl.
  rewrite readVarNumber_varNumber by lia. simpl.
  rewrite bool_decide_false by (rewrite length_app; lia).
  rewrite Nat2Z.id, take_app_length, drop_app_length, !app_assoc, app_nil_r.
  do 2 f_equal. rewrite length_app, Nat.add_sub. apply take_app_length.
Qed.

(** Parsing the bytes of one element finds that element only. *)
Lemma Block_parse_single buf w :
  bytes_ok buf → Wire_ofSpan buf = Ok w → w_bytes w = buf →
  Block_parse [] buf = ([Build_Block (w_type w) (w_value w)], None).
Proof.
  intros Hok Hw Hb. pose proof Hw as Hw'.
  apply Wire_ofSpan_inv in Hw' as (_ & _ & hd & rest & Hhd & Hbuf & Hne); [|done].
  unfold Block_parse. destruct buf as [|b0 buf0]; [by rewrite Hhd in Hb; destruct hd|].
  rewrite bool_decide_false by naive_solver. remember (b0 :: buf0) as buf eqn:Ebuf.
  assert (length buf = S (length buf0)) as -> by by subst buf.
  rewrite Ebuf at 1. cbn [Block_parse_loop]. rewrite <-Ebuf.
  revert Hw. unfold Wire_ofSpan, readType_exn, readVarNumber_exn.
  destruct (readVarNumber buf) as [[type pos]|] eqn:Et; simpl; [|done].
  case_bool_decide; simpl; [done|].
  destruct (readVarNumber pos) as [[len pos']|] eqn:El; simpl; [|done].
  case_bool_decide as Hlen; [done|]. intros [= <-]. cbn [w_type w_value w_bytes] in *.
  assert (drop (Z.to_nat len) pos' = []) as ->; [|by destruct (length buf0)].
  apply nil_length_inv. apply (f_equal length) in Hb. rewrite length_take in Hb.
  assert (length (drop (Z.to_nat len) pos') < length buf)%nat as Hsh; [|lia].
  apply readVarNumber_inv in Et as (_ & hd1 & -> & ?); [|done]. apply Forall_app in Hok as [_ Hok].
  apply readVarNumber_inv in El as (_ & hd2 & -> & ?); [|done].
  rewrite length_drop, !length_app. lia.
Qed.

(** The comment of [Component::compare] for VAR-NUMBERs: the bytes of two
    encodings compare as the numbers, whatever follows them. *)
Lemma memcmp_varNumber a b x y :
  0 ≤ a < 2 ^ 64 → 0 ≤ b < 2 ^ 64 →
  memcmp (varNumber a ++ x) (varNumber b ++ y) =
    match a ?= b with Eq => memcmp x y | c => c end.
Proof.
  intros Ha Hb. unfold varNumber, prependVarNumber, UINT16_MAX, UINT32_MAX, u8.
  assert (∀ n, 0 ≤ a < 256 ^ Z.of_nat n → 0 ≤ b < 256 ^ Z.of_nat n →
    memcmp (be_bytes n a ++ x) (be_bytes n b ++ y) =
      match a ?= b with Eq => memcmp x y | c => c end) as Hbe.
  { intros n ??. rewrite cmp_min_app by by rewrite !length_be_bytes.
    by rewrite lex_be_bytes. }
  repeat case_bool_decide; cbn -[be_bytes Z.compare]; rewrite ?app_nil_r, ?Z.mod_small by lia;
    try (apply Hbe; simpl; lia); try done;
    destruct (Z.compare_spec a b); try lia;
    repeat match goal with |- context [?p ?= ?q] =>
      destruct (Z.compare_spec p q); try lia; try done end.
Qed.

Lemma be_bytes_be_number l : bytes_ok l → be_bytes (length l) (be_number l) = l.
Proof.
  induction 1 as [|b l Hb Hl IH]; [done|]. unfold is_byte in Hb.
  cbn [length be_bytes]. rewrite be_number_cons.
  pose proof (be_number_bound l Hl) as Hbd. set (p := 256 ^ Z.of_nat (length l)) in *.
  assert (0 < p) by (unfold p; lia). f_equal.
  - rewrite Z.add_comm, Z.div_add, Z.div_small by lia. apply Z.mod_small. lia.
  - rewrite <-(be_bytes_mod (length l)). fold p.
    rewrite Z.add_comm, Z.mod_add, Z.mod_small by lia. done.
Qed.

Lemma bytes_lex_be_number l1 l2 :
  bytes_ok l1 → bytes_ok l2 → length l1 = length l2 →
  bytes_lex l1 l2 = (be_number l1 ?= be_number l2).
Proof.
  intros H1 H2 El. rewrite <-(lex_be_bytes (length l1)).
  - by rewrite be_bytes_be_number, El, be_bytes_be_number by done.
  - by apply be_number_bound.
  - rewrite El. by apply be_number_bound.
Qed.

Lemma be_number_snoc l b : be_number (l ++ [b]) = be_number l * 256 + b.
Proof. unfold be_number. by rewrite foldl_app. Qed.

Lemma be_number_zeros n : be_number (replicate n 0) = 0.
Proof. induction n; [done|]. rewrite replicate_S, be_number_cons, IHn. lia. Qed.

Lemma be_number_max n : be_number (replicate n 255) = 256 ^ Z.of_nat n - 1.
Proof.
  induction n; [done|].
  rewrite replicate_S, be_number_cons, IHn, length_replicate, Nat2Z.inj_succ, Z.pow_succ_r by lia.
  lia.
Qed.

(** ** Properties *)

(** VAR-NUMBER round trip: for every 64-bit number the encoder writes
    exactly [sizeOfVarNumber] bytes, the stream writer writes the same bytes,
    and [readVarNumber] recovers the number and leaves whatever follows. *)
Theorem varNumber_roundtrip n rest :
  0 ≤ n < 2 ^ 64 →
  readVarNumber (prependVarNumber n rest) = Some (n, rest) ∧
  prependVarNumber n rest = (writeVarNumber n).1 ++ rest ∧
  length (writeVarNumber n).1 = sizeOfVarNumber n ∧
  (writeVarNumber n).2 = sizeOfVarNumber n.
Proof.
  intros Hn. rewrite prependVarNumber_app, writeVarNumber_spec. simpl.
  by rewrite readVarNumber_varNumber, length_varNumber.
Qed.
Lemma varNumber_roundtrip_witness : readVarNumber (prependVarNumber 65536 [7]) = Some (65536, [7]).
Proof. apply (varNumber_roundtrip 65536 [7]). lia. Defined.

(** The two implementations of [detail::readNumber] agree: on any buffer
    of bytes the [memcpy] path and the shift-and-or loop accept the same
    buffers and produce the same number and the same remaining bytes. *)
Theorem readNumber_slow_fast s buf :
  bytes_ok buf →
  match readNumber s buf with
  | Some (n, rest) => readNumber_slow (num_bytes s) buf = (true, n, rest)
  | None => (readNumber_slow (num_bytes s) buf).1.1 = false
  end.
Proof.
  intros Hok. destruct (decide (num_bytes s ≤ length buf)%nat) as [Hl|Hl].
  - rewrite readNumber_spec by done. unfold readNumber_slow.
    rewrite readNumber_loop_spec; [by rewrite Z.mul_0_l|done..|]. destruct s; simpl; lia.
  - rewrite readNumber_short by lia. unfold readNumber_slow.
    apply not_le in Hl. revert Hl. generalize (num_bytes s) 0. clear.
    induction buf as [|b buf IH]; intros [|n] z Hl; simpl in *; try lia; try done.
    apply IH. lia.
Qed.
Lemma readNumber_slow_fast_witness : readNumber_slow 2 [1; 2; 3] = (true, 258, [3]).
Proof. apply (readNumber_slow_fast N2 [1; 2; 3]). repeat constructor; done. Defined.

(** NonNegativeInteger round trip: the encoder writes
    [sizeOfNonNegativeInteger] bytes and reading that many bytes gives the
    integer back; any other declared length throws. *)
Theorem nonNegativeInteger_roundtrip n rest :
  0 ≤ n < 2 ^ 64 →
  readNonNegativeInteger (sizeOfNonNegativeInteger n) (prependNonNegativeInteger n rest)
    = Ok (n, rest) ∧
  prependNonNegativeInteger n rest = (writeNonNegativeInteger n).1 ++ rest ∧
  (writeNonNegativeInteger n).2 = sizeOfNonNegativeInteger n ∧
  ∀ len buf, len ∉ [1; 2; 4; 8]%nat → readNonNegativeInteger len buf = Fault (Throw TlvError).
Proof.
  intros Hn. split_and!.
  - var_cases; cbn -[be_bytes readNumber].
    + unfold readNumber. simpl. rewrite take_0, drop_0. unfold be_number, u8. simpl.
      rewrite Z.mod_small by lia. done.
    + by rewrite (readNumber_be_bytes N2) by (simpl; lia).
    + by rewrite (readNumber_be_bytes N4) by (simpl; lia).
    + by rewrite (readNumber_be_bytes N8) by (simpl; lia).
  - by var_cases.
  - by var_cases.
  - intros len buf Hlen. unfold readNonNegativeInteger.
    destruct len as [|[|[|[|[|[|[|[|[|len]]]]]]]]]; try done; exfalso; apply Hlen; set_solver.
Qed.
Lemma nonNegativeInteger_roundtrip_witness :
  readNonNegativeInteger 4 (prependNonNegativeInteger 960051513 []) = Ok (960051513, []).
Proof. apply (nonNegativeInteger_roundtrip 960051513 []). lia. Defined.

(** Parsing a block's value recovers its sub-elements: [Block::parse] on
    the bytes [Block::encode] wrote for a list of sub-elements terminates
    without throwing and yields exactly that list. *)
Theorem Block_parse_roundtrip els :
  Forall Block_ok els →
  Block_parse [] (Block_encodeElements els []) = (els, None).
Proof. apply Block_parse_encode. Qed.
Lemma Block_parse_roundtrip_witness :
  Block_parse [] (Block_encodeElements [Build_Block 8 [65]; Build_Block 59 [49; 50]] [])
    = ([Build_Block 8 [65]; Build_Block 59 [49; 50]], None).
Proof. apply (Block_parse_roundtrip [Build_Block 8 [65]; Build_Block 59 [49; 50]]).
  by repeat constructor. Defined.
