(* ===== verification/Component.v ===== *)
(** * Name components (ndn-cxx [name-component.cpp], [impl/name-component-types.hpp])

    A component is its TLV-TYPE and TLV-VALUE, the two fields
    [Block::equals] compares.  Whether it also carries its wire encoding only
    matters to [Component::compare], which takes that as two flags. *)

From S2P Require Import Prelude Tlv.
Local Open Scope Z_scope.

Record Component := mkComponent { ctype : Z; cvalue : list Z }.

#[export] Instance Component_eq_dec : EqDecision Component.
Proof. solve_decision. Defined.
#[export] Instance Component_countable : Countable Component.
Proof.
  apply (inj_countable' (fun c => (ctype c, cvalue c)) (fun p => mkComponent p.1 p.2)).
  by intros [].
Defined.

(** ** Types and conventions *)

Definition ImplicitSha256DigestComponent : Z := 1.
Definition ParametersSha256DigestComponent : Z := 2.
Definition GenericNameComponent : Z := 8.
Definition SegmentNameComponent : Z := 50.
Definition ByteOffsetNameComponent : Z := 52.
Definition VersionNameComponent : Z := 54.
Definition TimestampNameComponent : Z := 56.
Definition SequenceNumNameComponent : Z := 58.
Definition ReflexiveNameComponent : Z := 59.
Definition NameComponentMin : Z := 1.
Definition NameComponentMax : Z := 65535.
Definition DIGEST_SIZE : nat := 32.

Definition SEGMENT_MARKER : Z := 0.
Definition SEGMENT_OFFSET_MARKER : Z := 251.
Definition VERSION_MARKER : Z := 253.
Definition TIMESTAMP_MARKER : Z := 252.
Definition SEQUENCE_NUMBER_MARKER : Z := 254.

Inductive Convention : Type := MARKER | TYPED | EITHER.
Definition to_underlying (c : Convention) : Z :=
  match c with MARKER => 1 | TYPED => 2 | EITHER => 3 end.
(** The initial values of the two globals. *)
Definition g_conventionEncoding : Convention := TYPED.
Definition g_conventionDecoding : Convention := EITHER.

Definition setConventionEncoding (c : Convention) : outcome Convention :=
  match c with MARKER | TYPED => Ok c | EITHER => Fault (Throw InvalidArgument) end.

Definition canDecodeMarkerConvention (g : Convention) : bool :=
  bool_decide (Z.land (to_underlying g) (to_underlying MARKER) ≠ 0).
Definition canDecodeTypedConvention (g : Convention) : bool :=
  bool_decide (Z.land (to_underlying g) (to_underlying TYPED) ≠ 0).

(** The rules of [ComponentTypeTable], which has 60 slots: the class that
    [get(type)] answers with. *)
Inductive ComponentType : Type :=
| BaseComponentType
| Sha256ComponentType
| GenericNameComponentType
| DecimalComponentType
| ReflexiveNameComponentType.

Definition ComponentTypeTable_get (type : Z) : ComponentType :=
  if bool_decide (type = ImplicitSha256DigestComponent) then Sha256ComponentType
  else if bool_decide (type = ParametersSha256DigestComponent) then Sha256ComponentType
  else if bool_decide (type = GenericNameComponent) then GenericNameComponentType
  else if bool_decide (type ∈ [SegmentNameComponent; ByteOffsetNameComponent;
                               VersionNameComponent; TimestampNameComponent;
                               SequenceNumNameComponent]) then DecimalComponentType
  else if bool_decide (type = ReflexiveNameComponent) then ReflexiveNameComponentType
  else BaseComponentType.

(** [ComponentType::check]: only the SHA-256 types override it with a test. *)
Definition ComponentType_check (ct : ComponentType) (c : Component) : bool :=
  match ct with
  | Sha256ComponentType => bool_decide (length (cvalue c) = DIGEST_SIZE)
  | _ => true
  end.

Definition ComponentType_getMinValue (ct : ComponentType) : list Z :=
  match ct with Sha256ComponentType => replicate DIGEST_SIZE 0 | _ => [] end.

(** [Component::ensureValid]. *)
Definition ensureValid (c : Component) : bool :=
  if bool_decide (ctype c < NameComponentMin ∨ NameComponentMax < ctype c) then false
  else ComponentType_check (ComponentTypeTable_get (ctype c)) c.

(** The constructors that validate. *)
Definition makeComponent (type : Z) (value : list Z) : outcome Component :=
  let c := mkComponent type value in
  if ensureValid c then Ok c else Fault (Throw ComponentError).

(** ** Numbers *)

Definition value_size (c : Component) : nat := length (cvalue c).

Definition isNumber (c : Component) : bool :=
  bool_decide (value_size c = 1%nat ∨ value_size c = 2%nat ∨
               value_size c = 4%nat ∨ value_size c = 8%nat).

Definition isNumberWithMarker (marker : Z) (c : Component) : bool :=
  bool_decide (value_size c = 2%nat ∨ value_size c = 3%nat ∨
               value_size c = 5%nat ∨ value_size c = 9%nat) &&
  match cvalue c with b :: _ => bool_decide (b = marker) | [] => false end.

(** The common shape of [isSegment], [isByteOffset], ...: a marker in a
    component of type [mtype], or a number in one of type [ttype]. *)
Definition is_convention (g : Convention) (mtype marker ttype : Z) (c : Component) : bool :=
  (canDecodeMarkerConvention g && bool_decide (ctype c = mtype) && isNumberWithMarker marker c) ||
  (canDecodeTypedConvention g && bool_decide (ctype c = ttype) && isNumber c).

Definition isSegment g := is_convention g GenericNameComponent SEGMENT_MARKER SegmentNameComponent.
Definition isByteOffset g :=
  is_convention g GenericNameComponent SEGMENT_OFFSET_MARKER ByteOffsetNameComponent.
Definition isVersion g := is_convention g GenericNameComponent VERSION_MARKER VersionNameComponent.
Definition isTimestamp g :=
  is_convention g GenericNameComponent TIMESTAMP_MARKER TimestampNameComponent.
Definition isSequenceNumber g :=
  is_convention g GenericNameComponent SEQUENCE_NUMBER_MARKER SequenceNumNameComponent.
(** [isReflexive] tests the reflexive type in both disjuncts. *)
Definition isReflexive g :=
  is_convention g ReflexiveNameComponent SEGMENT_MARKER ReflexiveNameComponent.

Definition toNumber (c : Component) : outcome Z :=
  if isNumber c then
    '(n, _) ← readNonNegativeInteger (value_size c) (cvalue c); mret n
  else Fault (Throw ComponentError).

Definition toNumberWithMarker (marker : Z) (c : Component) : outcome Z :=
  if isNumberWithMarker marker c then
    '(n, _) ← readNonNegativeInteger (value_size c - 1) (drop 1 (cvalue c)); mret n
  else Fault (Throw ComponentError).

(** The common shape of [toSegment], [toByteOffset], ... *)
Definition to_convention (g : Convention) (marker ttype : Z) (c : Component) : outcome Z :=
  if canDecodeMarkerConvention g && bool_decide (ctype c = GenericNameComponent)
  then toNumberWithMarker marker c
  else if canDecodeTypedConvention g && bool_decide (ctype c = ttype) then toNumber c
  else Fault (Throw ComponentError).

Definition toSegment g := to_convention g SEGMENT_MARKER SegmentNameComponent.
Definition toByteOffset g := to_convention g SEGMENT_OFFSET_MARKER ByteOffsetNameComponent.
Definition toVersion g := to_convention g VERSION_MARKER VersionNameComponent.
Definition toSequenceNumber g := to_convention g SEQUENCE_NUMBER_MARKER SequenceNumNameComponent.

(** [isRN9999]: the number is compared after the reflexive test, and
    [toNumber] throws when the value is not a NonNegativeInteger. *)
Definition isRN9999 (g : Convention) (c : Component) : outcome bool :=
  if isReflexive g c then n ← toNumber c; mret (bool_decide (n = 960051513))
  else mret false.

Definition fromNumber (number type : Z) : outcome Component :=
  makeComponent type (prependNonNegativeInteger number []).
Definition fromNumberWithMarker (marker number : Z) : outcome Component :=
  makeComponent GenericNameComponent (marker :: prependNonNegativeInteger number []).

(** The common shape of [fromSegment], [fromByteOffset], ... *)
Definition from_convention (g : Convention) (marker ttype number : Z) : outcome Component :=
  match g with
  | MARKER => fromNumberWithMarker marker number
  | _ => fromNumber number ttype
  end.
Definition fromSegment g := from_convention g SEGMENT_MARKER SegmentNameComponent.
Definition fromByteOffset g := from_convention g SEGMENT_OFFSET_MARKER ByteOffsetNameComponent.
Definition fromVersion g := from_convention g VERSION_MARKER VersionNameComponent.
Definition fromSequenceNumber g :=
  from_convention g SEQUENCE_NUMBER_MARKER SequenceNumNameComponent.

Definition isImplicitSha256Digest (c : Component) : bool :=
  bool_decide (ctype c = ImplicitSha256DigestComponent ∧ value_size c = DIGEST_SIZE).
Definition isParametersSha256Digest (c : Component) : bool :=
  bool_decide (ctype c = ParametersSha256DigestComponent ∧ value_size c = DIGEST_SIZE).

(** ** Order *)

(** [Component::wireEncode]. *)
Definition Component_wireEncode (c : Component) (enc : list Z) : list Z :=
  prependVarNumber (ctype c)
    (prependVarNumber (Z.of_nat (value_size c)) (cvalue c ++ enc)).

(** [Component::compare]; [hasWire1] and [hasWire2] are [hasWire()] of the two
    sides, and a wire is what [Component_wireEncode] writes.  The subtractions
    are converted to [int]. *)
Definition Component_compare (hasWire1 hasWire2 : bool) (c1 c2 : Component) : Z :=
  if hasWire1 && hasWire2 then
    sign_Z (memcmp (Component_wireEncode c1 []) (Component_wireEncode c2 []))
  else
    let cmpType := s32 (u32 (ctype c1 - ctype c2)) in
    if bool_decide (cmpType ≠ 0) then cmpType
    else
      let cmpSize := s32 (u64 (Z.of_nat (value_size c1) - Z.of_nat (value_size c2))) in
      if bool_decide (cmpSize ≠ 0) then cmpSize
      else if bool_decide (cvalue c1 = []) then 0
      else sign_Z (memcmp (cvalue c1) (cvalue c2)).

(** ** Successor *)

(** The loop of [getSuccessorImpl], from the last byte: [rv] is the part of
    the value not yet visited, reversed, and [enc] the bytes already
    prepended.  The result is whether all bytes wrapped, and the value. *)
Fixpoint getSuccessorImpl_loop (rv enc : list Z) : bool * list Z :=
  match rv with
  | [] => (true, enc)
  | b :: rv' =>
      let newValue := u8 (Z.land (b + 1) 255) in
      if bool_decide (newValue = 0) then getSuccessorImpl_loop rv' (newValue :: enc)
      else (false, rev rv' ++ newValue :: enc)
  end.

Definition getSuccessorImpl (c : Component) : bool * Component :=
  let '(isOverflow, enc) := getSuccessorImpl_loop (rev (cvalue c)) [] in
  (isOverflow, mkComponent (ctype c) (if isOverflow then enc ++ [0] else enc)).

(** [ComponentType::getSuccessor]: a SHA-256 component cannot be extended. *)
Definition ComponentType_getSuccessor (ct : ComponentType) (c : Component) : bool * Component :=
  match ct with
  | Sha256ComponentType =>
      let '(isExtended, successor) := getSuccessorImpl c in
      (isExtended, if isExtended then c else successor)
  | _ => (false, (getSuccessorImpl c).2)
  end.

Definition Component_getSuccessor (c : Component) : Component :=
  let '(isOverflow, successor) :=
    ComponentType_getSuccessor (ComponentTypeTable_get (ctype c)) c in
  if isOverflow then
    let type := u32 (ctype c + 1) in
    mkComponent type (ComponentType_getMinValue (ComponentTypeTable_get type))
  else successor.

(** ** Canonical order *)

(** The canonical order of the NDN packet format: type, then length, then
    bytes. *)
Definition comp_cmp (c1 c2 : Component) : comparison :=
  match ctype c1 ?= ctype c2 with
  | Eq => match Z.of_nat (value_size c1) ?= Z.of_nat (value_size c2) with
          | Eq => bytes_lex (cvalue c1) (cvalue c2)
          | c => c
          end
  | c => c
  end.

(** A component that passed [ensureValid], whose value is bytes and has a size
    a 32-bit [int] can hold (NDN packets have at most 8800 bytes). *)
Definition Component_ok (c : Component) : Prop :=
  ensureValid c = true ∧ bytes_ok (cvalue c) ∧ Z.of_nat (value_size c) < 2 ^ 31.
#[export] Instance Component_ok_dec c : Decision (Component_ok c).
Proof. unfold Component_ok. apply _. Defined.

Lemma ensureValid_type c : ensureValid c = true → 1 ≤ ctype c ≤ 65535.
Proof.
  unfold ensureValid, NameComponentMin, NameComponentMax.
  case_bool_decide; [done|]. lia.
Qed.

Lemma comp_cmp_eq c1 c2 : comp_cmp c1 c2 = Eq ↔ c1 = c2.
Proof.
  unfold comp_cmp, value_size. destruct c1 as [t1 v1], c2 as [t2 v2]; simpl.
  destruct (Z.compare_spec t1 t2); [|naive_solver lia..].
  destruct (Z.compare_spec (Z.of_nat (length v1)) (Z.of_nat (length v2)));
    [|naive_solver lia..].
  rewrite bytes_lex_eq. naive_solver.
Qed.

Lemma comp_cmp_antisym c1 c2 : comp_cmp c2 c1 = CompOpp (comp_cmp c1 c2).
Proof.
  unfold comp_cmp. rewrite (Z.compare_antisym (ctype c1)).
  destruct (ctype c1 ?= ctype c2); simpl; try done.
  rewrite (Z.compare_antisym (Z.of_nat (value_size c1))).
  destruct (Z.of_nat (value_size c1) ?= _); simpl; try done. apply bytes_lex_antisym.
Qed.

Lemma comp_cmp_trans c1 c2 c3 :
  comp_cmp c1 c2 = Lt → comp_cmp c2 c3 = Lt → comp_cmp c1 c3 = Lt.
Proof.
  unfold comp_cmp.
  destruct (Z.compare_spec (ctype c1) (ctype c2)) as [E1|E1|E1]; try done;
  destruct (Z.compare_spec (ctype c2) (ctype c3)) as [E2|E2|E2]; try done;
  destruct (Z.compare_spec (ctype c1) (ctype c3)) as [E3|E3|E3]; try lia; try done.
  destruct (Z.compare_spec (Z.of_nat (value_size c1)) (Z.of_nat (value_size c2))) as [F1|F1|F1]; try done;
  destruct (Z.compare_spec (Z.of_nat (value_size c2)) (Z.of_nat (value_size c3))) as [F2|F2|F2]; try done;
  destruct (Z.compare_spec (Z.of_nat (value_size c1)) (Z.of_nat (value_size c3))) as [F3|F3|F3]; try lia; try done.
  apply bytes_lex_trans.
Qed.

Lemma Component_compare_wire c1 c2 :
  Component_ok c1 → Component_ok c2 →
  memcmp (Component_wireEncode c1 []) (Component_wireEncode c2 []) = comp_cmp c1 c2.
Proof.
  intros (Ht1%ensureValid_type & _ & Hs1) (Ht2%ensureValid_type & _ & Hs2).
  unfold Component_wireEncode. rewrite !prependVarNumber_app, !app_nil_r.
  rewrite !memcmp_varNumber by lia. unfold comp_cmp, value_size.
  destruct (ctype c1 ?= ctype c2); try done.
  destruct (Z.compare_spec (Z.of_nat (length (cvalue c1))) (Z.of_nat (length (cvalue c2)))); try done.
  apply cmp_min_lex. lia.
Qed.

Lemma Component_compare_value c1 c2 w1 w2 :
  Component_ok c1 → Component_ok c2 → w1 && w2 = false →
  Z_sign (Component_compare w1 w2 c1 c2) = comp_cmp c1 c2.
Proof.
  intros (Ht1%ensureValid_type & _ & Hs1) (Ht2%ensureValid_type & _ & Hs2) Hw.
  unfold Component_compare. rewrite Hw. unfold comp_cmp.
  rewrite s32_u64. rewrite (s32_small (_ - Z.of_nat _)) by lia.
  assert (s32 (u32 (ctype c1 - ctype c2)) = ctype c1 - ctype c2) as ->.
  { transitivity (s32 (ctype c1 - ctype c2)); [|apply s32_small; lia].
    unfold s32, u32. by rewrite Z.mod_mod by lia. }
  case_bool_decide as E1.
  { rewrite Z_sign_sub. destruct (Z.compare_spec (ctype c1) (ctype c2)); [lia|done..]. }
  replace (ctype c1) with (ctype c2) by lia. rewrite Z.compare_refl.
  case_bool_decide as E2.
  { rewrite Z_sign_sub.
    destruct (Z.compare_spec (Z.of_nat (value_size c1)) (Z.of_nat (value_size c2))); [lia|done..]. }
  assert (length (cvalue c1) = length (cvalue c2)) as El by (unfold value_size in *; lia).
  unfold value_size. rewrite El, Z.compare_refl. case_bool_decide as E3.
  - rewrite E3 in *. symmetry in El. by apply nil_length_inv in El as ->.
  - rewrite Z_sign_sign_Z. by apply cmp_min_lex.
Qed.

Lemma Component_compare_sign w1 w2 c1 c2 :
  Component_ok c1 → Component_ok c2 →
  Z_sign (Component_compare w1 w2 c1 c2) = comp_cmp c1 c2.
Proof.
  intros H1 H2. destruct (w1 && w2) eqn:Hw; [|by apply Component_compare_value].
  unfold Component_compare. rewrite Hw, Z_sign_sign_Z. by apply Component_compare_wire.
Qed.

(** ** Successor *)

(** The order of two byte components as an order of numbers. *)
Lemma comp_cmp_number c1 c2 :
  bytes_ok (cvalue c1) → bytes_ok (cvalue c2) →
  comp_cmp c1 c2 = Lt ↔
    ctype c1 < ctype c2 ∨ ctype c1 = ctype c2 ∧
    ((value_size c1 < value_size c2)%nat ∨ value_size c1 = value_size c2 ∧
     be_number (cvalue c1) < be_number (cvalue c2)).
Proof.
  intros H1 H2. unfold comp_cmp.
  destruct (Z.compare_spec (ctype c1) (ctype c2)); [|naive_solver lia..].
  destruct (Z.compare_spec (Z.of_nat (value_size c1)) (Z.of_nat (value_size c2)));
    [|naive_solver lia..].
  rewrite bytes_lex_be_number by (done || (unfold value_size in *; lia)).
  rewrite Z.compare_lt_iff. naive_solver lia.
Qed.

Lemma getSuccessorImpl_loop_spec rv enc :
  bytes_ok rv →
  (getSuccessorImpl_loop rv enc = (true, replicate (length rv) 0 ++ enc) ∧
   rv = replicate (length rv) 255) ∨
  ∃ out, getSuccessorImpl_loop rv enc = (false, out ++ enc) ∧ length out = length rv ∧
    bytes_ok out ∧ be_number out = be_number (rev rv) + 1.
Proof.
  intros Hok. revert enc. induction Hok as [|b rv Hb Hrv IH]; intros enc; [by left|].
  unfold is_byte in Hb. cbn [getSuccessorImpl_loop length rev].
  change 255 with (Z.ones 8). rewrite Z.land_ones by lia.
  unfold u8. rewrite Z.mod_mod by lia. rewrite be_number_snoc.
  destruct (decide (b = 255)) as [->|Hne].
  - change (Z.ones 8) with 255. change ((255 + 1) mod 2 ^ 8) with 0.
    rewrite bool_decide_true by done.
    destruct (IH (0 :: enc)) as [[-> Erv]|(out & -> & Hl & Hout & Hn)].
    + left. rewrite replicate_S_end, <-app_assoc. split; [done|]. simpl. by f_equal.
    + right. exists (out ++ [0]). rewrite <-app_assoc, length_app, be_number_snoc, Hn. simpl.
      split_and!; [done|lia| |lia]. apply Forall_app; split; [done|]. by repeat constructor.
  - rewrite Z.mod_small by lia. rewrite bool_decide_false by lia. right.
    exists (rev rv ++ [b + 1]). rewrite <-app_assoc, length_app, length_rev, be_number_snoc. simpl.
    split_and!; [done|lia| |lia]. apply Forall_app; split.
    + by apply Forall_rev.
    + repeat constructor; unfold is_byte; lia.
Qed.

Lemma getSuccessorImpl_spec c :
  bytes_ok (cvalue c) →
  (getSuccessorImpl c = (true, mkComponent (ctype c) (replicate (S (value_size c)) 0)) ∧
   be_number (cvalue c) = 256 ^ Z.of_nat (value_size c) - 1) ∨
  ∃ out, getSuccessorImpl c = (false, mkComponent (ctype c) out) ∧
    length out = value_size c ∧ bytes_ok out ∧ be_number out = be_number (cvalue c) + 1.
Proof.
  intros Hok. unfold getSuccessorImpl, value_size.
  destruct (getSuccessorImpl_loop_spec (rev (cvalue c)) []) as [[-> E]|(out & -> & Hl & Hout & Hn)].
  - by apply Forall_rev.
  - left. rewrite app_nil_r, length_rev, replicate_S_end. split; [done|].
    apply (f_equal (@rev Z)) in E. rewrite rev_involutive, rev_replicate, length_rev in E.
    rewrite E at 1. apply be_number_max.
  - right. exists out. rewrite app_nil_r. rewrite rev_involutive in Hn. rewrite length_rev in Hl.
    done.
Qed.

(** A successor keeps the type, or is the least component of the next type. *)
Lemma Component_getSuccessor_cases c :
  Component_ok c →
  (∃ out, Component_getSuccessor c = mkComponent (ctype c) out ∧ bytes_ok out ∧
     length out = value_size c ∧ be_number out = be_number (cvalue c) + 1) ∨
  be_number (cvalue c) = 256 ^ Z.of_nat (value_size c) - 1 ∧
  (Component_getSuccessor c = mkComponent (ctype c) (replicate (S (value_size c)) 0) ∧ 2 < ctype c ∨
   ctype c = 1 ∧ Component_getSuccessor c = mkComponent 2 (replicate 32 0) ∨
   ctype c = 2 ∧ Component_getSuccessor c = mkComponent 3 []).
Proof.
  intros (Hv & Hok & Hsz). pose proof (ensureValid_type _ Hv) as Ht.
  unfold Component_getSuccessor, ComponentType_getSuccessor.
  destruct (getSuccessorImpl_spec c Hok) as [[-> Hmax]|(out & -> & Hl & Hout & Hn)].
  - right. split; [done|]. destruct (decide (ctype c = 1)) as [->|]; [by right; left|].
    destruct (decide (ctype c = 2)) as [->|]; [by right; right|]. left.
    destruct (ComponentTypeTable_get (ctype c)) eqn:E; split; try done; try lia.
    unfold ComponentTypeTable_get, ImplicitSha256DigestComponent, ParametersSha256DigestComponent in E.
    by repeat case_bool_decide.
  - left. exists out. by destruct (ComponentTypeTable_get (ctype c)).
Qed.

Lemma ensureValid_digest c :
  ensureValid c = true → ctype c = 1 ∨ ctype c = 2 → value_size c = 32%nat.
Proof.
  unfold ensureValid. case_bool_decide; [done|].
  intros Hc [E|E]; rewrite E in Hc; simpl in Hc; by apply bool_decide_eq_true in Hc.
Qed.

Lemma bytes_ok_zeros n : bytes_ok (replicate n 0).
Proof. apply Forall_replicate. done. Qed.

Lemma Component_getSuccessor_lt c :
  Component_ok c → comp_cmp c (Component_getSuccessor c) = Lt.
Proof.
  intros Hc. pose proof Hc as (Hv & Hok & _).
  destruct (Component_getSuccessor_cases c Hc)
    as [(out & -> & Hout & Hl & Hn)|[Hmax [[-> ?]|[[E ->]|[E ->]]]]];
    apply comp_cmp_number; try done; try apply bytes_ok_zeros;
    unfold value_size in *; cbn [ctype cvalue]; rewrite ?length_replicate; lia.
Qed.

Lemma Component_getSuccessor_least c z :
  Component_ok c → Component_ok z →
  comp_cmp c z = Lt → comp_cmp z (Component_getSuccessor c) ≠ Lt.
Proof.
  intros Hc Hz Hlt Hzs. pose proof Hc as (Hv & Hok & _). pose proof Hz as (Hvz & Hokz & _).
  pose proof (be_number_bound _ Hokz) as Hbz.
  pose proof (ensureValid_digest _ Hv). pose proof (ensureValid_digest _ Hvz).
  apply comp_cmp_number in Hlt; [|done..].
  destruct (Component_getSuccessor_cases c Hc)
    as [(out & E & Hout & Hl & Hn)|[Hmax [[E ?]|[[? E]|[? E]]]]];
    rewrite E in Hzs; apply comp_cmp_number in Hzs; try done; try apply bytes_ok_zeros;
    unfold value_size in *; cbn [ctype cvalue] in *;
    rewrite ?be_number_zeros, ?length_replicate in Hzs;
    try rewrite Hmax in Hlt; try rewrite Hn, Hl in Hzs;
    destruct Hlt as [|(Et & [|[El ?]])], Hzs as [|(Et' & [|[El' ?]])];
    change (be_number []) with 0 in *;
    try lia; try (rewrite El in *; lia); try (simpl in *; lia).
Qed.

(** ** Numbers *)

Lemma isNumber_size c : isNumber c = true ↔ value_size c ∈ [1; 2; 4; 8]%nat.
Proof. unfold isNumber. rewrite bool_decide_eq_true. set_solver. Qed.

Lemma readNonNegativeInteger_all v :
  length v ∈ [1; 2; 4; 8]%nat → readNonNegativeInteger (length v) v = Ok (be_number v, []).
Proof.
  intros Hl. unfold readNonNegativeInteger.
  assert (∀ s, length v = num_bytes s → readNumber s v = Some (be_number v, [])) as H.
  { intros s E. rewrite readNumber_spec by lia. rewrite <-E, firstn_all, drop_all. done. }
  rewrite !elem_of_cons in Hl. destruct Hl as [E|[E|[E|[E|?%not_elem_of_nil]]]]; [..|done];
    rewrite E; [rewrite (H N1)|rewrite (H N2)|rewrite (H N4)|rewrite (H N8)]; done.
Qed.

Lemma toNumber_spec c :
  toNumber c = if isNumber c then Ok (be_number (cvalue c)) else Fault (Throw ComponentError).
Proof.
  unfold toNumber. destruct (isNumber c) eqn:E; [|done]. apply isNumber_size in E.
  unfold value_size in *. by rewrite readNonNegativeInteger_all.
Qed.

Lemma isReflexive_either c :
  isReflexive EITHER c =
    bool_decide (ctype c = 59) && (isNumberWithMarker 0 c || isNumber c).
Proof.
  unfold isReflexive, is_convention. change (canDecodeMarkerConvention EITHER) with true.
  change (canDecodeTypedConvention EITHER) with true.
  unfold ReflexiveNameComponent, SEGMENT_MARKER.
  by destruct (bool_decide (ctype c = 59)).
Qed.

(** The two byte strings that decode to the number of "9999". *)
Definition RN9999_value : list Z := [57; 57; 57; 57].

Lemma be_number_RN9999 v :
  bytes_ok v → length v ∈ [1; 2; 4; 8]%nat →
  be_number v = 960051513 ↔ v = RN9999_value ∨ v = replicate 4 0 ++ RN9999_value.
Proof.
  intros Hok Hl. split; [|by intros [-> | ->]].
  intros E. rewrite !elem_of_cons in Hl.
  pose proof (be_number_bound v Hok) as Hb.
  pose proof (be_bytes_be_number v Hok) as Hv. rewrite E in *.
  destruct Hl as [El|[El|[El|[El|?%not_elem_of_nil]]]]; [..|done]; rewrite El in *.
  - change (256 ^ Z.of_nat 1) with 256 in Hb. lia.
  - change (256 ^ Z.of_nat 2) with 65536 in Hb. lia.
  - left. by rewrite <-Hv.
  - right. by rewrite <-Hv.
Qed.

(** ** Properties *)

(** [Component::compare] implements the canonical order whatever mix of
    wire and non-wire components it is given: the [memcmp] shortcut and the
    field-by-field comparison (with its conversions to [int]) have the sign
    of "type, then length, then bytes" for all valid components. *)
Theorem Component_compare_canonical w1 w2 c1 c2 :
  Component_ok c1 → Component_ok c2 →
  Z_sign (Component_compare w1 w2 c1 c2) = comp_cmp c1 c2.
Proof. apply Component_compare_sign. Qed.
Lemma Component_compare_canonical_witness :
  Z_sign (Component_compare true true (mkComponent 59 [57; 57]) (mkComponent 8 [1; 2; 3])) = Gt.
Proof.
  apply (Component_compare_canonical true true (mkComponent 59 [57; 57]) (mkComponent 8 [1; 2; 3]));
    apply (bool_decide_unpack _); by vm_compute.
Defined.

(** [Component::getSuccessor] is the immediate successor in the canonical
    order: it is greater than the component, and no valid component lies
    strictly between the two, for every component type of the table,
    including the 32-byte digests that overflow into the next type. *)
Theorem Component_getSuccessor_immediate c :
  Component_ok c →
  comp_cmp c (Component_getSuccessor c) = Lt ∧
  ∀ z, Component_ok z → ~ (comp_cmp c z = Lt ∧ comp_cmp z (Component_getSuccessor c) = Lt).
Proof.
  intros Hc. split; [by apply Component_getSuccessor_lt|].
  intros z Hz [Hcz Hzs]. by apply (Component_getSuccessor_least c z).
Qed.
Lemma Component_getSuccessor_immediate_witness :
  comp_cmp (mkComponent 8 [255]) (Component_getSuccessor (mkComponent 8 [255])) = Lt.
Proof.
  apply (Component_getSuccessor_immediate (mkComponent 8 [255])).
  apply (bool_decide_unpack _); by vm_compute.
Defined.

(** What [isRN9999] decides, on every branch: under the default decoding
    convention it answers [true] exactly for a reflexive component whose value
    is "9999", bare or left-padded to eight bytes, and it throws exactly for
    a reflexive component of 3, 5 or 9 bytes that starts with the segment
    marker byte 0, because the value passes the marker test and [toNumber]
    then rejects it. *)
Theorem isRN9999_spec c :
  bytes_ok (cvalue c) →
  (isRN9999 g_conventionDecoding c = Ok true ↔
     ctype c = ReflexiveNameComponent ∧
     (cvalue c = RN9999_value ∨ cvalue c = replicate 4 0 ++ RN9999_value)) ∧
  (isRN9999 g_conventionDecoding c = Fault (Throw ComponentError) ↔
     ctype c = ReflexiveNameComponent ∧ value_size c ∈ [3; 5; 9]%nat ∧ head (cvalue c) = Some 0).
Proof.
  intros Hok. unfold isRN9999, g_conventionDecoding, ReflexiveNameComponent.
  rewrite isReflexive_either, toNumber_spec.
  case_bool_decide as Et; simpl; [|split; split; [done|by intros [? _]|done|by intros [? _]]].
  pose proof (isNumber_size c) as Hsz.
  destruct (isNumber c) eqn:En.
  - rewrite orb_true_r. pose proof (proj1 Hsz eq_refl) as Hl. clear Hsz. simpl. split.
    + transitivity (be_number (cvalue c) = 960051513).
      { case_bool_decide; naive_solver. }
      rewrite be_number_RN9999 by done. naive_solver.
    + split; [done|]. intros (_ & Hs & _). exfalso.
      rewrite !elem_of_cons, elem_of_nil in *. unfold value_size in *. lia.
  - rewrite orb_false_r.
    assert (value_size c ∉ [1; 2; 4; 8]%nat) as Hn by (intros H%Hsz; done). clear Hsz.
    unfold isNumberWithMarker. split.
    + split.
      { destruct (_ && _); done. }
      intros (_ & [E|E]); exfalso; apply Hn; unfold value_size; rewrite E; set_solver.
    + rewrite !elem_of_cons, elem_of_nil in *. destruct (cvalue c) as [|b v] eqn:Ev; simpl.
      { rewrite andb_false_r. naive_solver. }
      case_bool_decide as E1; case_bool_decide as E2; simpl; subst; naive_solver lia.
Qed.
Lemma isRN9999_spec_witness :
  isRN9999 g_conventionDecoding (mkComponent 59 [0; 1; 2]) = Fault (Throw ComponentError).
Proof.
  apply (isRN9999_spec (mkComponent 59 [0; 1; 2])).
  - by repeat constructor.
  - apply (bool_decide_unpack _); by vm_compute.
Defined.
