(* ===== verification/Name.v ===== *)
(** * Names (ndn-cxx [name.cpp], [name.hpp])

    A name is the list of its components.  [size_t] positions and counts are
    kept at 64 bits because the code subtracts and adds them unchecked. *)

From S2P Require Import Prelude Tlv Component.
Local Open Scope Z_scope.

Abbreviation Name := (list Component).

Definition npos : Z := 2 ^ 64 - 1.
Definition tlv_Name : Z := 7.
Definition Name_size (n : Name) : Z := Z.of_nat (length n).

(** [Name::get]: a negative index counts from the end, and nothing checks the
    bounds of [m_wire.elements()]. *)
Definition Name_get (n : Name) (i : Z) : outcome Component :=
  let i := if bool_decide (i < 0) then i + Name_size n else i in
  if bool_decide (i < 0) then Fault UndefinedBehaviour
  else match n !! Z.to_nat i with Some c => Ok c | None => Fault UndefinedBehaviour end.

(** [Name::getSubName]. *)
Definition getSubName (n : Name) (iStartComponent nComponents : Z) : Name :=
  let iStartComponent :=
    if bool_decide (iStartComponent < 0) then iStartComponent + Name_size n else iStartComponent in
  let iStart := if bool_decide (iStartComponent < 0) then 0 else iStartComponent in
  let iEnd := if bool_decide (nComponents ≠ npos)
              then Z.min (Name_size n) (u64 (iStart + nComponents)) else Name_size n in
  take (Z.to_nat (iEnd - iStart)) (drop (Z.to_nat iStart) n).

(** [Name::getPrefix]. *)
Definition getPrefix (n : Name) (nComponents : Z) : Name :=
  if bool_decide (nComponents < 0)
  then getSubName n 0 (u64 (Name_size n + nComponents))
  else getSubName n 0 nComponents.

(** [Name::isPrefixOf]: the size test, then the component loop. *)
Fixpoint isPrefixOf_loop (n other : Name) : bool :=
  match n, other with
  | [], _ => true
  | c :: n', c' :: other' => if bool_decide (c = c') then isPrefixOf_loop n' other' else false
  | _ :: _, [] => false
  end.
Definition isPrefixOf (n other : Name) : bool :=
  if bool_decide (Name_size other < Name_size n) then false else isPrefixOf_loop n other.

(** [Name::equals]. *)
Definition Name_equals (n other : Name) : bool :=
  if bool_decide (Name_size n ≠ Name_size other) then false else isPrefixOf_loop n other.

(** [Name::compare(pos1, count1, other, pos2, count2)].  [hw1] and [hw2] say
    which components of the two names carry a wire encoding. *)
Section compare.
Context (hw1 hw2 : nat → bool) (n other : Name).

Fixpoint Name_compare_loop (todo i : nat) (pos1 pos2 : Z) (result : Z) : outcome Z :=
  match todo with
  | O => Ok result
  | S todo' =>
      c1 ← Name_get n (pos1 + Z.of_nat i);
      c2 ← Name_get other (pos2 + Z.of_nat i);
      let comp := Component_compare (hw1 (Z.to_nat pos1 + i)) (hw2 (Z.to_nat pos2 + i)) c1 c2 in
      if bool_decide (comp ≠ 0) then Ok comp
      else Name_compare_loop todo' (S i) pos1 pos2 result
  end.

Definition Name_compare (pos1 count1 pos2 count2 : Z) : outcome Z :=
  let count1 := Z.min count1 (u64 (Name_size n - pos1)) in
  let count2 := Z.min count2 (u64 (Name_size other - pos2)) in
  let count := Z.min count1 count2 in
  Name_compare_loop (Z.to_nat count) 0 pos1 pos2 (s32 (u64 (count1 - count2))).
End compare.

(** [Name::getSuccessor]. *)
Definition Name_getSuccessor (n : Name) : Name :=
  match last n with
  | None => [mkComponent ImplicitSha256DigestComponent (replicate DIGEST_SIZE 0)]
  | Some c => getPrefix n (-1) ++ [Component_getSuccessor c]
  end.

(** [Name::isReflexiveName] and [Name::getnonReflexiveName] (the first
    reflexive component is erased). *)
Definition isReflexiveName (g : Convention) (n : Name) : bool := existsb (isReflexive g) n.
Fixpoint erase_first_reflexive (g : Convention) (n : Name) : Name :=
  match n with
  | [] => []
  | c :: n' => if isReflexive g c then n' else c :: erase_first_reflexive g n'
  end.
Definition getnonReflexiveName (g : Convention) (n : Name) : Name :=
  if negb (isReflexiveName g n) then n else erase_first_reflexive g n.

(** [Name::wireEncode] and [Name::wireDecode]; decoding parses the value into
    sub-elements and does not validate them as components. *)
Definition Name_wireEncode (n : Name) (enc : list Z) : list Z :=
  let comps := foldr Component_wireEncode [] n in
  prependVarNumber tlv_Name (prependVarNumber (Z.of_nat (length comps)) (comps ++ enc)).

Definition Name_wireDecode (wire : Block) : outcome Name :=
  if bool_decide (blk_type wire ≠ tlv_Name) then Fault (Throw TlvError)
  else match Block_parse [] (blk_value wire) with
       | (els, None) => Ok (map (fun b => mkComponent (blk_type b) (blk_value b)) els)
       | (_, Some e) => Fault (Throw e)
       end.

(** ** Canonical order of names *)

Definition name_cmp : Name → Name → comparison := lex comp_cmp.

Definition Name_ok (n : Name) : Prop := Forall Component_ok n ∧ Name_size n < 2 ^ 31.
#[export] Instance Name_ok_dec n : Decision (Name_ok n).
Proof. unfold Name_ok. apply _. Defined.

Lemma name_cmp_eq n1 n2 : name_cmp n1 n2 = Eq ↔ n1 = n2.
Proof. apply lex_eq, comp_cmp_eq. Qed.
Lemma name_cmp_refl n : name_cmp n n = Eq.
Proof. by apply name_cmp_eq. Qed.
Lemma name_cmp_antisym n1 n2 : name_cmp n2 n1 = CompOpp (name_cmp n1 n2).
Proof. apply lex_antisym, comp_cmp_antisym. Qed.
Lemma name_cmp_trans n1 n2 n3 :
  name_cmp n1 n2 = Lt → name_cmp n2 n3 = Lt → name_cmp n1 n3 = Lt.
Proof. apply lex_trans; [apply comp_cmp_eq|apply comp_cmp_trans]. Qed.

Lemma isPrefixOf_loop_spec n other : isPrefixOf_loop n other = true ↔ n `prefix_of` other.
Proof.
  revert other. induction n as [|c n IH]; intros [|c' other]; simpl.
  - split; [intros _; by exists []|done].
  - split; [intros _; by exists (c' :: other)|done].
  - split; [done|]. by intros ?%prefix_nil_not.
  - case_bool_decide as E; [subst|].
    + rewrite IH. split; [by apply prefix_cons|by apply prefix_cons_inv_2].
    + split; [done|]. intros H%prefix_cons_inv_1. done.
Qed.

Lemma isPrefixOf_spec n other : isPrefixOf n other = true ↔ n `prefix_of` other.
Proof.
  unfold isPrefixOf, Name_size. case_bool_decide as H; [|apply isPrefixOf_loop_spec].
  split; [done|]. intros ?%prefix_length. lia.
Qed.

Lemma Name_equals_spec n other : Name_equals n other = true ↔ n = other.
Proof.
  unfold Name_equals, Name_size. case_bool_decide as H.
  { split; [done|]. intros ->. lia. }
  rewrite isPrefixOf_loop_spec. split; [|by intros ->].
  intros Hp. apply prefix_length_eq; [done|lia].
Qed.

Lemma getPrefix_nonneg n k :
  (k ≤ length n)%nat → Name_size n < 2 ^ 63 → getPrefix n (Z.of_nat k) = take k n.
Proof.
  intros Hk Hn. unfold getPrefix, getSubName, Name_size, npos in *.
  rewrite bool_decide_false by lia. simpl. rewrite drop_0. f_equal.
  case_bool_decide; rewrite ?Z.add_0_l, ?u64_small by lia; lia.
Qed.

Lemma getPrefix_m1 n :
  Name_size n < 2 ^ 63 → getPrefix n (-1) = take (length n - 1) n.
Proof.
  intros Hn. unfold getPrefix, getSubName, Name_size, npos in *. simpl.
  rewrite drop_0. destruct n as [|c n]; [by rewrite !take_nil|].
  f_equal. cbn [length] in *. rewrite (u64_small (_ + _)) by lia.
  rewrite bool_decide_true by lia. rewrite Z.add_0_l, u64_small by lia. lia.
Qed.

Lemma Name_getSuccessor_snoc n c :
  Name_size (n ++ [c]) < 2 ^ 63 →
  Name_getSuccessor (n ++ [c]) = n ++ [Component_getSuccessor c].
Proof.
  intros Hn. unfold Name_getSuccessor. rewrite last_snoc, getPrefix_m1 by done.
  rewrite length_app. simpl. rewrite Nat.add_sub. by rewrite take_app_length.
Qed.

Lemma Name_get_nat n i c : n !! i = Some c → Name_get n (Z.of_nat i) = Ok c.
Proof.
  intros E. unfold Name_get.
  assert (bool_decide (Z.of_nat i < 0) = false) as -> by (apply bool_decide_false; lia).
  cbv zeta. rewrite bool_decide_false, Nat2Z.id, E by lia. done.
Qed.

(** The comparison loop over the remaining components of the two ranges. *)
Lemma Name_compare_loop_spec hw1 hw2 n1 n2 p1 p2 r :
  Forall Component_ok n1 → Forall Component_ok n2 → ∀ l1 l2 i todo,
  drop (p1 + i) n1 = l1 → drop (p2 + i) n2 = l2 →
  (todo ≤ length l1)%nat → (todo ≤ length l2)%nat →
  ∃ z, Name_compare_loop hw1 hw2 n1 n2 todo i (Z.of_nat p1) (Z.of_nat p2) r = Ok z ∧
    Z_sign z = match lex comp_cmp (take todo l1) (take todo l2) with
               | Eq => Z_sign r | c => c end.
Proof.
  intros Hok1 Hok2 l1 l2 i todo. revert l1 l2 i.
  induction todo as [|todo IH]; intros l1 l2 i E1 E2 H1 H2; [by exists r|].
  destruct l1 as [|c1 l1]; [simpl in *; lia|]. destruct l2 as [|c2 l2]; [simpl in *; lia|].
  assert (n1 !! (p1 + i)%nat = Some c1 ∧ drop (p1 + S i) n1 = l1) as [G1 D1].
  { rewrite <-(Nat.add_0_r (p1 + i)), <-lookup_drop, E1. split; [done|].
    replace (p1 + S i)%nat with ((p1 + i) + 1)%nat by lia. by rewrite <-drop_drop, E1. }
  assert (n2 !! (p2 + i)%nat = Some c2 ∧ drop (p2 + S i) n2 = l2) as [G2 D2].
  { rewrite <-(Nat.add_0_r (p2 + i)), <-lookup_drop, E2. split; [done|].
    replace (p2 + S i)%nat with ((p2 + i) + 1)%nat by lia. by rewrite <-drop_drop, E2. }
  cbn [Name_compare_loop]. rewrite <-!Nat2Z.inj_add.
  rewrite (Name_get_nat _ _ _ G1), (Name_get_nat _ _ _ G2). simpl.
  match goal with |- context [Component_compare ?a ?b c1 c2] =>
    pose proof (Component_compare_sign a b c1 c2) as Hc;
    set (z := Component_compare a b c1 c2) in * end.
  rewrite <-Hc by (first [exact (Forall_lookup_1 _ _ _ _ Hok1 G1)
                         |exact (Forall_lookup_1 _ _ _ _ Hok2 G2)]).
  case_bool_decide as Ez.
  - exists z. split; [done|]. destruct (Z_sign z) eqn:Es; [|done..].
    unfold Z_sign in Es. by apply Z.compare_eq in Es.
  - assert (z = 0) as -> by lia. unfold Z_sign at 2. simpl.
    apply IH; [done|done|simpl in *; lia..].
Qed.

(** Ranges of two names: the shorter range decides, then the lengths. *)
Lemma lex_take_min {A} (cmp : A → A → comparison) (l1 l2 : list A) :
  lex cmp l1 l2 =
    match lex cmp (take (length l1 `min` length l2) l1) (take (length l1 `min` length l2) l2) with
    | Eq => Z.of_nat (length l1) ?= Z.of_nat (length l2) | c => c end.
Proof.
  revert l2. induction l1 as [|x l1 IH]; intros [|y l2];
    cbn [lex take length Nat.min]; try done.
  destruct (cmp x y); try done. rewrite IH.
  destruct (lex cmp (take _ l1) _); try done.
  by rewrite !Nat2Z.inj_succ, <-!Z.add_1_l, Z.add_compare_mono_l.
Qed.

(** [Name::compare] on in-range positions compares the two sub-names in the
    canonical order, as its documentation says. *)
Lemma Name_compare_spec hw1 hw2 n1 n2 p1 k1 p2 k2 :
  Name_ok n1 → Name_ok n2 → (p1 ≤ length n1)%nat → (p2 ≤ length n2)%nat →
  0 ≤ k1 ≤ npos → 0 ≤ k2 ≤ npos →
  ∃ z, Name_compare hw1 hw2 n1 n2 (Z.of_nat p1) k1 (Z.of_nat p2) k2 = Ok z ∧
    Z_sign z = name_cmp (take (Z.to_nat k1) (drop p1 n1)) (take (Z.to_nat k2) (drop p2 n2)).
Proof.
  intros [Hok1 Hs1] [Hok2 Hs2] Hp1 Hp2 Hk1 Hk2. unfold Name_size, npos in *.
  unfold Name_compare, Name_size. rewrite !(u64_small (Z.of_nat _ - _)) by lia.
  set (m1 := (Z.to_nat k1 `min` (length n1 - p1))%nat).
  set (m2 := (Z.to_nat k2 `min` (length n2 - p2))%nat).
  assert (Z.min k1 (Z.of_nat (length n1) - Z.of_nat p1) = Z.of_nat m1) as -> by lia.
  assert (Z.min k2 (Z.of_nat (length n2) - Z.of_nat p2) = Z.of_nat m2) as -> by lia.
  rewrite <-Nat2Z.inj_min, Nat2Z.id, s32_u64, s32_small by lia.
  destruct (Name_compare_loop_spec hw1 hw2 n1 n2 p1 p2 (Z.of_nat m1 - Z.of_nat m2)
    Hok1 Hok2 (drop p1 n1) (drop p2 n2) 0 (m1 `min` m2)) as (z & -> & Hz);
    [by rewrite Nat.add_0_r|by rewrite Nat.add_0_r|rewrite length_drop; lia..|].
  exists z. split; [done|]. rewrite Hz. unfold name_cmp. symmetry.
  rewrite lex_take_min, !take_take, !length_take, !length_drop.
  fold m1 m2. rewrite !(Nat.min_l (m1 `min` m2)) by lia. by rewrite Z_sign_sub.
Qed.

(** ** Prefix ranges *)

Lemma name_cmp_app_lt n1 n2 : name_cmp n1 (n1 ++ n2) ≠ Gt.
Proof.
  unfold name_cmp. induction n1 as [|c n1 IH]; simpl; [by destruct n2|].
  by rewrite (proj2 (comp_cmp_eq c c) eq_refl).
Qed.

Lemma prefix_range_snoc n c N :
  Component_ok c → Forall Component_ok N →
  (n ++ [c]) `prefix_of` N ↔
    name_cmp (n ++ [c]) N ≠ Gt ∧ name_cmp N (n ++ [Component_getSuccessor c]) = Lt.
Proof.
  intros Hc HN. split.
  - intros [R ->]. split; [apply name_cmp_app_lt|]. unfold name_cmp.
    induction n as [|q n IH]; simpl in *.
    + by rewrite Component_getSuccessor_lt.
    + rewrite (proj2 (comp_cmp_eq q q) eq_refl). apply IH. by apply Forall_cons in HN as [_ ?].
  - unfold name_cmp. revert n. induction HN as [|d R Hd HR IH]; intros [|q n]; simpl; try naive_solver.
    + intros [Hge Hlt].
      assert (comp_cmp d (Component_getSuccessor c) = Lt) as Hds.
      { destruct (comp_cmp d _); [by destruct R|done..]. }
      destruct (comp_cmp c d) eqn:E; [|by destruct (Component_getSuccessor_least c d)|done].
      apply comp_cmp_eq in E as ->. by exists R.
    + intros [Hge Hlt]. rewrite (comp_cmp_antisym q d) in Hlt.
      destruct (comp_cmp q d) eqn:E; simpl in *; [|done..].
      apply comp_cmp_eq in E as ->. apply prefix_cons, IH. done.
Qed.

Definition comp_block (c : Component) : Block :=
  {| blk_type := ctype c; blk_value := cvalue c |}.

Lemma wireEncode_elements n :
  foldr Component_wireEncode [] n = Block_encodeElements (map comp_block n) [].
Proof. induction n as [|c n IH]; simpl; [done|]. by rewrite IH. Qed.

Lemma comp_block_ok c : Component_ok c → Block_ok (comp_block c).
Proof.
  intros (Ht%ensureValid_type & _ & Hs). unfold Block_ok, comp_block, value_size in *. simpl. lia.
Qed.

(** ** Properties *)

(** [Name::compare(pos1, count1, other, pos2, count2)] on in-range
    positions returns normally and has the sign of the canonical comparison
    of the two sub-names, and in particular [compare(other)] is the canonical
    order of names; the unchecked 64-bit position arithmetic, the 32-bit
    result and the choice of wire or field comparison do not matter. *)
Theorem Name_compare_canonical hw1 hw2 n1 n2 p1 k1 p2 k2 :
  Name_ok n1 → Name_ok n2 → (p1 ≤ length n1)%nat → (p2 ≤ length n2)%nat →
  0 ≤ k1 ≤ npos → 0 ≤ k2 ≤ npos →
  ∃ z, Name_compare hw1 hw2 n1 n2 (Z.of_nat p1) k1 (Z.of_nat p2) k2 = Ok z ∧
    Z_sign z = name_cmp (take (Z.to_nat k1) (drop p1 n1)) (take (Z.to_nat k2) (drop p2 n2)).
Proof. apply Name_compare_spec. Qed.
Lemma Name_compare_canonical_witness :
  ∃ z, Name_compare (fun _ => true) (fun _ => false)
         [mkComponent 8 [65]; mkComponent 8 [66]] [mkComponent 8 [66]] 1 npos 0 npos = Ok z ∧
       Z_sign z = Eq.
Proof.
  destruct (Name_compare_canonical (fun _ => true) (fun _ => false)
    [mkComponent 8 [65]; mkComponent 8 [66]] [mkComponent 8 [66]] 1 1 0 1) as (z & E & Hz).
  - apply (bool_decide_unpack _); by vm_compute.
  - apply (bool_decide_unpack _); by vm_compute.
  - simpl; lia.
  - simpl; lia.
  - done.
  - done.
  - exists z. split; [|by rewrite Hz]. rewrite <-E. by vm_compute.
Defined.

(** The range the content store searches for a prefix: for a non-empty
    prefix [P], the names between [P] (inclusive) and [P.getSuccessor()]
    (exclusive) in the canonical order are exactly the names [P] is a prefix
    of. *)
Theorem Name_prefix_range P N :
  P ≠ [] → Name_ok P → Name_ok N →
  isPrefixOf P N = true ↔
    name_cmp P N ≠ Gt ∧ name_cmp N (Name_getSuccessor P) = Lt.
Proof.
  intros Hne [HP HsP] [HN _]. rewrite isPrefixOf_spec.
  destruct (exists_last Hne) as (n & c & ->).
  rewrite Name_getSuccessor_snoc by (unfold Name_size in *; lia).
  apply prefix_range_snoc; [|done]. apply Forall_app in HP as [_ HP]. by inversion HP.
Qed.
Lemma Name_prefix_range_witness :
  isPrefixOf [mkComponent 8 [65]] [mkComponent 8 [65]; mkComponent 59 [49]] = true ↔
    name_cmp [mkComponent 8 [65]] [mkComponent 8 [65]; mkComponent 59 [49]] ≠ Gt ∧
    name_cmp [mkComponent 8 [65]; mkComponent 59 [49]] (Name_getSuccessor [mkComponent 8 [65]]) = Lt.
Proof.
  apply (Name_prefix_range [mkComponent 8 [65]] [mkComponent 8 [65]; mkComponent 59 [49]]); [done|..];
    apply (bool_decide_unpack _); by vm_compute.
Defined.

(** The documented contract of [Name::getSuccessor], "no name lies between
    a name and its successor", does not hold for names: every child of a
    non-empty name lies strictly between the name and its successor. *)
Theorem Name_getSuccessor_not_immediate P c :
  P ≠ [] → Name_ok (P ++ [c]) →
  name_cmp P (P ++ [c]) = Lt ∧ name_cmp (P ++ [c]) (Name_getSuccessor P) = Lt.
Proof.
  intros Hne [Hok Hs]. split.
  - unfold name_cmp. clear. induction P as [|d P IH]; [done|].
    simpl. by rewrite (proj2 (comp_cmp_eq d d) eq_refl).
  - destruct (exists_last Hne) as (n & d & ->). unfold Name_size in Hs.
    rewrite !length_app in Hs. simpl in Hs.
    rewrite Name_getSuccessor_snoc by (unfold Name_size; rewrite length_app; simpl; lia).
    apply prefix_range_snoc; [|done|by eexists].
    apply Forall_app in Hok as [Hok _]. apply Forall_app in Hok as [_ Hok]. by inversion Hok.
Qed.
Lemma Name_getSuccessor_not_immediate_witness :
  name_cmp ([mkComponent 8 [65]] ++ [mkComponent 8 [66]]) (Name_getSuccessor [mkComponent 8 [65]]) = Lt.
Proof.
  apply (Name_getSuccessor_not_immediate [mkComponent 8 [65]] (mkComponent 8 [66])); [done|].
  apply (bool_decide_unpack _); by vm_compute.
Defined.

(** Name wire round trip: reading the TLV that [Name::wireEncode] wrote
    gives one block, leaves the following bytes, and [Name::wireDecode] of the
    block is the name, reflexive components included. *)
Theorem Name_wire_roundtrip n rest :
  Name_ok n → Z.of_nat (length (foldr Component_wireEncode [] n)) < 2 ^ 64 →
  ∃ b, Block_fromBuffer (Name_wireEncode n rest) = Some (b, rest) ∧ Name_wireDecode b = Ok n.
Proof.
  intros [Hok _] Hl. set (v := foldr Component_wireEncode [] n) in *.
  exists {| blk_type := tlv_Name; blk_value := v |}. split.
  - apply (Block_fromBuffer_encode {| blk_type := tlv_Name; blk_value := v |}).
    by unfold Block_ok, tlv_Name.
  - unfold Name_wireDecode. simpl. unfold v. rewrite wireEncode_elements.
    assert (Block_parse [] (Block_encodeElements (map comp_block n) []) = (map comp_block n, None)) as ->.
    { apply Block_parse_encode. apply Forall_map. eapply Forall_impl; [done|]. apply comp_block_ok. }
    f_equal. rewrite map_map. rewrite <-map_id. apply map_ext. by intros [].
Qed.
Lemma Name_wire_roundtrip_witness :
  ∃ b, Block_fromBuffer (Name_wireEncode [mkComponent 8 [65]; mkComponent 59 [57; 57; 57; 57]] [1])
         = Some (b, [1]) ∧ Name_wireDecode b = Ok [mkComponent 8 [65]; mkComponent 59 [57; 57; 57; 57]].
Proof.
  apply (Name_wire_roundtrip [mkComponent 8 [65]; mkComponent 59 [57; 57; 57; 57]] [1]).
  - apply (bool_decide_unpack _); by vm_compute.
  - done.
Defined.
