(* ===== verification/Encoding.v ===== *)
(** * Elements inside packets (ndn-cxx [encoding/block-helpers.cpp], [block.cpp])

    The helpers the packet classes encode their fields with, and the
    sub-elements of a block with their own bytes: what a digest or a signature
    is computed over, and what is written again when the packet is. *)

From S2P Require Import Prelude Tlv Component Name.
Local Open Scope Z_scope.

(** ** TLV-TYPEs of the packet format ([tlv.hpp]) *)

Definition tlv_CanBePrefix : Z := 33.
Definition tlv_MustBeFresh : Z := 18.
Definition tlv_ForwardingHint : Z := 30.
Definition tlv_Nonce : Z := 10.
Definition tlv_InterestLifetime : Z := 12.
Definition tlv_HopLimit : Z := 34.
Definition tlv_ApplicationParameters : Z := 36.
Definition tlv_InterestSignatureInfo : Z := 44.
Definition tlv_InterestSignatureValue : Z := 46.
Definition tlv_MetaInfo : Z := 20.
Definition tlv_Content : Z := 21.
Definition tlv_SignatureInfo : Z := 22.
Definition tlv_SignatureValue : Z := 23.
Definition tlv_ContentType : Z := 24.
Definition tlv_FreshnessPeriod : Z := 25.
Definition tlv_FinalBlockId : Z := 26.
Definition tlv_SignatureType : Z := 27.
Definition tlv_KeyLocator : Z := 28.
Definition tlv_KeyDigest : Z := 29.
Definition tlv_SignatureNonce : Z := 38.
Definition tlv_SignatureTime : Z := 40.
Definition tlv_SignatureSeqNum : Z := 42.
Definition tlv_ValidityPeriod : Z := 253.

(** [tlv::isCriticalType]. *)
Definition isCriticalType (type : Z) : bool :=
  bool_decide (type ≤ 31) || negb (bool_decide (Z.land type 1 = 0)).

Definition throwE {S A} (e : exn) : ME S A := liftE (Fault (Throw e)).

(** ** Block helpers *)

(** The bytes in front of those already encoded. *)
Definition prependEmptyBlock (type : Z) (enc : list Z) : list Z :=
  prependVarNumber type (prependVarNumber 0 enc).
Definition prependNonNegativeIntegerBlock (type value : Z) (enc : list Z) : list Z :=
  let body := prependNonNegativeInteger value [] in
  prependVarNumber type (prependVarNumber (Z.of_nat (length body)) (body ++ enc)).
Definition prependBinaryBlock (type : Z) (value enc : list Z) : list Z :=
  prependVarNumber type (prependVarNumber (Z.of_nat (length value)) (value ++ enc)).
(** [prependBlock] of a block that has a wire. *)
Definition prependBlock (block : Wire) (enc : list Z) : list Z := w_bytes block ++ enc.
(** [prependNestedBlock] of a range whose items encode with [wireEncode]. *)
Definition prependNestedBlock {A} (wireEncode : A → list Z → list Z) (type : Z) (items : list A)
    (enc : list Z) : list Z :=
  let body := foldr wireEncode [] items in
  prependVarNumber type (prependVarNumber (Z.of_nat (length body)) (body ++ enc)).

(** [makeBinaryBlock], [makeStringBlock], and [Block(type, buffer)] once encoded. *)
Definition makeBinaryBlock (type : Z) (value : list Z) : Wire := Wire_ofBlock (Build_Block type value) [].
Definition makeEmptyBlock (type : Z) : Wire := makeBinaryBlock type [].

(** [ndn::readNonNegativeInteger(const Block&)]. *)
Definition readNonNegativeInteger_block (block : Block) : outcome Z :=
  '(n, _) ← readNonNegativeInteger (length (blk_value block)) (blk_value block); Ok n.

(** [readNonNegativeIntegerAs<R>] for an unsigned [R] with the given maximum. *)
Definition readNonNegativeIntegerAs (maximum : Z) (block : Block) : outcome Z :=
  value ← readNonNegativeInteger_block block;
  if bool_decide (maximum < value) then Fault (Throw TlvError) else Ok value.

(** ** Sub-elements with their bytes *)

(** [Block::parse]: every sub-element is a [Block] over its part of the
    buffer.  [fuel] bounds their number, as in [Block_parse_loop]. *)
Fixpoint Wire_split (fuel : nat) (buf : list Z) : outcome (list Wire) :=
  match buf, fuel with
  | [], _ => Ok []
  | _ :: _, O => Fault Diverges
  | _ :: _, S fuel' =>
      w ← Wire_ofSpan buf;
      ws ← Wire_split fuel' (drop (Wire_size w) buf);
      Ok (w :: ws)
  end.
Definition Wire_subs (w : Wire) : outcome (list Wire) := Wire_split (length (w_value w)) (w_value w).

Definition wire_block (w : Wire) : Block := Build_Block (w_type w) (w_value w).

(** [Block::get(type)]: the first sub-element of the type. *)
Definition findWire (type : Z) (ws : list Wire) : option Wire :=
  List.find (fun w => bool_decide (w_type w = type)) ws.

(** [Block::blockFromValue]: the value must be exactly one element. *)
Definition blockFromValue (w : Wire) : outcome Wire :=
  if bool_decide (length (w_value w) = 0%nat) then Fault (Throw TlvError)
  else
    inner ← Wire_ofSpan (w_value w);
    if bool_decide (Wire_size inner ≠ length (w_value w)) then Fault (Throw TlvError) else Ok inner.

(** ** Lemmas on NonNegativeIntegers *)

Definition is_u64 (z : Z) : Prop := 0 ≤ z < 2 ^ 64.

Lemma length_prependNonNegativeInteger n :
  length (prependNonNegativeInteger n []) = sizeOfNonNegativeInteger n.
Proof. by var_cases. Qed.
Lemma sizeOfNonNegativeInteger_le n : (1 ≤ sizeOfNonNegativeInteger n ≤ 8)%nat.
Proof. var_cases; lia. Qed.

Lemma readNonNegativeInteger_written n :
  is_u64 n →
  readNonNegativeInteger (sizeOfNonNegativeInteger n) (prependNonNegativeInteger n []) = Ok (n, []).
Proof.
  unfold is_u64. intros Hn. var_cases; cbn -[be_bytes readNumber].
  - unfold readNumber, be_number, u8. simpl. by rewrite Z.mod_small by lia.
  - by rewrite (readNumber_be_bytes N2) by (simpl; lia).
  - by rewrite (readNumber_be_bytes N4) by (simpl; lia).
  - by rewrite (readNumber_be_bytes N8) by (simpl; lia).
Qed.

Lemma readNonNegativeInteger_block_written type n :
  is_u64 n →
  readNonNegativeInteger_block (Build_Block type (prependNonNegativeInteger n [])) = Ok n.
Proof.
  intros Hn. unfold readNonNegativeInteger_block. cbn [blk_value].
  by rewrite length_prependNonNegativeInteger, readNonNegativeInteger_written.
Qed.

Lemma readNonNegativeInteger_throws b f :
  readNonNegativeInteger_block b = Fault f → f = Throw TlvError.
Proof.
  unfold readNonNegativeInteger_block, readNonNegativeInteger.
  destruct (match length (blk_value b) with 1%nat => Some N1 | 2%nat => Some N2 | 4%nat => Some N4
            | 8%nat => Some N8 | _ => None end) as [s|]; simpl; [|congruence].
  destruct (readNumber s _) as [[n rest]|]; simpl; congruence.
Qed.

Lemma prependNonNegativeInteger_bytes n : bytes_ok (prependNonNegativeInteger n []).
Proof.
  unfold prependNonNegativeInteger. rewrite !app_nil_r.
  repeat case_bool_decide; try apply be_bytes_ok. repeat constructor; apply Z.mod_pos_bound; lia.
Qed.

(** ** Lemmas on sub-elements *)

Lemma Wire_ofSpan_step buf w :
  bytes_ok buf → Wire_ofSpan buf = Ok w →
  ∃ type pos len pos', readType_exn buf = Ok (type, pos) ∧ readVarNumber pos = Some (len, pos') ∧
    len ≤ Z.of_nat (length pos') ∧
    wire_block w = Build_Block type (take (Z.to_nat len) pos') ∧
    drop (Wire_size w) buf = drop (Z.to_nat len) pos'.
Proof.
  intros Hok. unfold Wire_ofSpan, readType_exn, readVarNumber_exn.
  destruct (readVarNumber buf) as [[type pos]|] eqn:Et; simpl; [|done].
  case_bool_decide; simpl; [done|].
  destruct (readVarNumber pos) as [[len pos']|] eqn:El; simpl; [|done].
  case_bool_decide; [done|]. intros [= <-]. exists type, pos, len, pos'. split_and!; [done..|lia|done|].
  apply readVarNumber_inv in Et as (_ & hd & -> & _); [|done]. apply Forall_app in Hok as [_ Hok].
  apply readVarNumber_inv in El as (_ & hd' & -> & _); [|done].
  set (k := Z.to_nat len). unfold Wire_size. cbn [w_bytes].
  replace (hd ++ hd' ++ pos') with ((hd ++ hd' ++ take k pos') ++ drop k pos')
    by (by rewrite <-!app_assoc, take_drop).
  assert (∀ l r : list Z, length (l ++ r) - length r = length l)%nat as Hl
    by (intros; rewrite length_app; lia).
  by rewrite Hl, take_app_length, drop_app_length.
Qed.

Lemma Wire_ofSpan_shrinks buf w :
  bytes_ok buf → Wire_ofSpan buf = Ok w → (length (drop (Wire_size w) buf) < length buf)%nat.
Proof.
  intros Hok Hw. apply Wire_ofSpan_inv in Hw as (_ & _ & hd & rest & Hb & -> & Hne); [|done].
  unfold Wire_size. rewrite drop_app_length, length_app, Hb, length_app.
  destruct hd; [done|simpl; lia].
Qed.

(** The sub-elements are those [Block_parse] finds. *)
Lemma Wire_split_parse_loop fuel els buf :
  bytes_ok buf → (length buf ≤ fuel)%nat →
  match Wire_split fuel buf with
  | Ok ws => Block_parse_loop fuel els buf = (els ++ map wire_block ws, None)
  | Fault f => f = Throw TlvError ∧ ∃ els', Block_parse_loop fuel els buf = (els', Some TlvError)
  end.
Proof.
  revert els buf. induction fuel as [|fuel IH]; intros els [|b buf] Hok Hlen;
    cbn [Wire_split Block_parse_loop]; try (by rewrite app_nil_r); [simpl in Hlen; lia|].
  remember (b :: buf) as whole eqn:Ew.
  destruct (Wire_ofSpan whole) as [w|f] eqn:E.
  - rewrite bind_Ok. pose proof (Wire_ofSpan_shrinks _ _ Hok E) as Hs.
    destruct (Wire_ofSpan_step _ _ Hok E) as (type & pos & len & pos' & -> & -> & Hl & Hblk & Hd).
    rewrite bool_decide_false by lia. rewrite <-Hblk, <-Hd.
    specialize (IH (els ++ [wire_block w]) (drop (Wire_size w) whole) (Forall_drop _ _ _ Hok)).
    destruct (Wire_split fuel _) as [ws|f]; cbn [mbind outcome_bind]; [|apply IH; lia].
    rewrite IH by lia. by rewrite <-app_assoc.
  - pose proof (Wire_ofSpan_throws _ _ E) as ->. split; [done|].
    revert E. unfold Wire_ofSpan, readType_exn, readVarNumber_exn.
    destruct (readVarNumber whole) as [[type pos]|]; simpl; [|eauto].
    case_bool_decide; simpl; [eauto|].
    destruct (readVarNumber pos) as [[len pos']|]; simpl; [|eauto].
    case_bool_decide; [eauto|done].
Qed.

Lemma Wire_subs_parse w :
  bytes_ok (w_value w) → w_elements w = [] →
  Wire_parse w = (ws ← Wire_subs w; Ok (map wire_block ws)).
Proof.
  intros Hok He. unfold Wire_parse, Block_parse, Wire_subs. rewrite He.
  case_bool_decide as Hv.
  { destruct Hv as [Hv|Hv]; [done|]. by rewrite Hv. }
  pose proof (Wire_split_parse_loop (length (w_value w)) [] (w_value w) Hok ltac:(lia)) as H.
  destruct (Wire_split _ _) as [ws|f]; cbn; [by rewrite H|]. destruct H as [-> [els' ->]]. done.
Qed.


(** An element whose bytes are complete: whatever follows, it is read back. *)
Definition Wire_closed (w : Wire) : Prop :=
  (∀ rest, Wire_ofSpan (w_bytes w ++ rest) = Ok w) ∧ bytes_ok (w_bytes w) ∧ bytes_ok (w_value w) ∧
  w_bytes w ≠ [].

Lemma makeBinaryBlock_closed type value :
  0 < type < 2 ^ 32 → Z.of_nat (length value) < 2 ^ 64 → bytes_ok value →
  Wire_closed (makeBinaryBlock type value).
Proof.
  intros Ht Hl Hb. unfold makeBinaryBlock, Wire_closed. cbn [w_bytes w_value Wire_ofBlock blk_value].
  assert (Block_ok (Build_Block type value)) as Hok by done. split_and!.
  - intros rest. rewrite <-(Wire_ofSpan_encode _ rest Hok). f_equal.
    rewrite !Block_encode_app. by rewrite app_nil_r, <-!app_assoc.
  - rewrite Block_encode_app, app_nil_r, !Forall_app. split_and!; [apply varNumber_ok..|done].
  - done.
  - rewrite Block_encode_app. intros Hn. apply (f_equal length) in Hn.
    rewrite length_app, length_varNumber in Hn. cbn [blk_type length] in Hn.
    unfold sizeOfVarNumber in Hn. repeat case_bool_decide; simpl in Hn; lia.
Qed.

(** Reading a number looks at its own bytes only. *)
Lemma readNumber_local size buf n rest :
  readNumber size buf = Some (n, rest) →
  buf = take (num_bytes size) buf ++ rest ∧
  ∀ r, readNumber size (take (num_bytes size) buf ++ r) = Some (n, r).
Proof.
  unfold readNumber. case_bool_decide as Hl; [done|]. intros E.
  assert (n = be_number (take (num_bytes size) buf) ∧ rest = drop (num_bytes size) buf) as [-> ->]
    by (by destruct size; injection E as <- <-).
  split; [by rewrite take_drop|]. intros r.
  assert (length (take (num_bytes size) buf) = num_bytes size) as Hk by (rewrite length_take; lia).
  rewrite bool_decide_false by (rewrite length_app; lia).
  destruct size; cbn [num_bytes] in *;
    rewrite take_app_le, take_take, Nat.min_id, drop_app_le by lia; rewrite drop_ge by lia; done.
Qed.

Lemma readVarNumber_local buf n rest :
  readVarNumber buf = Some (n, rest) →
  ∃ hd, buf = hd ++ rest ∧ ∀ r, readVarNumber (hd ++ r) = Some (n, r).
Proof.
  destruct buf as [|b buf]; [done|]. cbn [readVarNumber]. case_bool_decide as Hb.
  - intros [= <- <-]. exists [b]. split; [done|]. intros r. cbn. by rewrite bool_decide_true.
  - intros [Hbuf Hr]%readNumber_local. eexists (b :: _). split; [cbn; by rewrite <-Hbuf|].
    intros r. cbn [app readVarNumber]. by rewrite bool_decide_false.
Qed.

(** Splitting ends, whatever the bytes. *)
Lemma Wire_ofSpan_size buf w :
  Wire_ofSpan buf = Ok w → (length (drop (Wire_size w) buf) < length buf)%nat.
Proof.
  unfold Wire_ofSpan, readType_exn, readVarNumber_exn.
  destruct (readVarNumber buf) as [[type pos]|] eqn:Et; simpl; [|done].
  case_bool_decide; simpl; [done|].
  destruct (readVarNumber pos) as [[len pos']|] eqn:El; simpl; [|done].
  case_bool_decide; [done|]. intros [= <-].
  assert (length pos < length buf)%nat as Hp.
  { destruct buf as [|b buf]; [done|]. cbn in Et. case_bool_decide; [by injection Et as <- <-; simpl; lia|].
    apply readNumber_local in Et as [Hb _]. rewrite Hb. simpl. rewrite length_app. lia. }
  apply readVarNumber_local in El as (hd & -> & _). rewrite length_app in Hp.
  unfold Wire_size. cbn [w_bytes]. rewrite length_drop, length_take, length_drop. lia.
Qed.
Lemma Wire_split_throws fuel buf f :
  (length buf ≤ fuel)%nat → Wire_split fuel buf = Fault f → f = Throw TlvError.
Proof.
  revert buf. induction fuel as [|fuel IH]; intros [|b buf] Hl; cbn [Wire_split]; try done;
    [simpl in Hl; lia|].
  destruct (Wire_ofSpan (b :: buf)) as [w|g] eqn:E; cbn [mbind outcome_bind].
  - pose proof (Wire_ofSpan_size _ _ E) as Hs.
    destruct (Wire_split fuel _) as [ws|g] eqn:E'; [done|]. cbn. intros [= <-].
    eapply IH; [|exact E']. lia.
  - intros [= <-]. by eapply Wire_ofSpan_throws.
Qed.
Lemma Wire_subs_throws w f : Wire_subs w = Fault f → f = Throw TlvError.
Proof. by apply Wire_split_throws. Qed.

Lemma Wire_ofSpan_closed buf w : bytes_ok buf → Wire_ofSpan buf = Ok w → Wire_closed w.
Proof.
  intros Hok Hw. pose proof (Wire_ofSpan_inv buf w Hok Hw) as (_ & He & hd & rest & Hb & Hbuf & Hne).
  assert (bytes_ok (w_bytes w)) as Hwb by (rewrite Hbuf in Hok; by apply Forall_app in Hok as [? _]).
  split_and!; [|done|rewrite Hb in Hwb; by apply Forall_app in Hwb as [_ ?]|rewrite Hb; by destruct hd].
  clear He hd rest Hb Hbuf Hne Hwb. revert Hw. unfold Wire_ofSpan, readType_exn, readVarNumber_exn.
  destruct (readVarNumber buf) as [[type pos]|] eqn:Et; simpl; [|done].
  case_bool_decide as Hty; simpl; [done|].
  destruct (readVarNumber pos) as [[len pos']|] eqn:El; simpl; [|done].
  case_bool_decide; [done|]. intros [= <-] r. cbn [w_bytes].
  apply readVarNumber_local in Et as (h1 & -> & Et). apply readVarNumber_local in El as (h2 & -> & El).
  set (k := Z.to_nat len) in *.
  replace (h1 ++ h2 ++ pos') with ((h1 ++ h2 ++ take k pos') ++ drop k pos')
    by (by rewrite <-!app_assoc, take_drop).
  assert (∀ l r : list Z, length (l ++ r) - length r = length l)%nat as Hl
    by (intros; rewrite length_app; lia).
  rewrite Hl, take_app_length, <-!app_assoc, Et. simpl. rewrite bool_decide_false by done. simpl.
  rewrite El. simpl. assert (length (take k pos') = k) as Hk by (rewrite length_take; lia).
  rewrite bool_decide_false by (rewrite length_app; lia). fold k.
  rewrite take_app_le, take_ge, drop_app_le, (drop_ge (take k pos')), app_nil_l by lia.
  do 2 f_equal. by rewrite !app_assoc, Hl, take_app_length, <-!app_assoc.
Qed.

(** The concatenated bytes of closed elements split into these elements. *)
Definition wiresBytes (ws : list Wire) (enc : list Z) : list Z := foldr prependBlock enc ws.
Lemma wiresBytes_app ws ws' enc : wiresBytes (ws ++ ws') enc = wiresBytes ws (wiresBytes ws' enc).
Proof. apply foldr_app. Qed.
Lemma wiresBytes_enc ws enc : wiresBytes ws enc = wiresBytes ws [] ++ enc.
Proof.
  induction ws as [|w ws IH]; [done|]. unfold wiresBytes in *. cbn [foldr]. unfold prependBlock at 1 3.
  by rewrite IH, app_assoc.
Qed.
Lemma wiresBytes_ok ws : Forall Wire_closed ws → bytes_ok (wiresBytes ws []).
Proof.
  induction 1 as [|w ws (_ & Hb & _) _ IH]; [constructor|]. cbn. by apply Forall_app.
Qed.

Lemma Wire_split_closed ws fuel :
  Forall Wire_closed ws → (length (wiresBytes ws []) ≤ fuel)%nat →
  Wire_split fuel (wiresBytes ws []) = Ok ws.
Proof.
  intros Hws. revert fuel. induction Hws as [|w ws (Hw & _ & _ & Hne) _ IH]; intros fuel Hf.
  { by destruct fuel. }
  cbn [wiresBytes foldr] in Hf |- *. fold (wiresBytes ws []) in *. unfold prependBlock in *.
  rewrite length_app in Hf.
  destruct fuel as [|fuel]; [destruct (w_bytes w); simpl in *; [done|lia]|].
  destruct (w_bytes w ++ wiresBytes ws []) as [|b buf] eqn:E.
  { exfalso. destruct (w_bytes w); [done|discriminate E]. }
  cbn [Wire_split]. rewrite <-E, Hw, bind_Ok. unfold Wire_size. rewrite drop_app_length.
  rewrite IH; [done|]. destruct (w_bytes w); simpl in *; [done|lia].
Qed.

Lemma Wire_split_all_closed fuel buf ws :
  bytes_ok buf → Wire_split fuel buf = Ok ws → Forall Wire_closed ws ∧ wiresBytes ws [] = buf.
Proof.
  revert buf ws. induction fuel as [|fuel IH]; intros [|b buf] ws Hok; cbn [Wire_split];
    try (by intros [= <-]; split); try done.
  destruct (Wire_ofSpan (b :: buf)) as [w|f] eqn:E; [|done]. rewrite bind_Ok.
  destruct (Wire_split fuel _) as [ws'|f] eqn:E'; [|done]. intros [= <-].
  destruct (IH _ _ (Forall_drop _ _ _ Hok) E') as [Hc Hb].
  split; [constructor; [by eapply Wire_ofSpan_closed|done]|]. cbn. fold (wiresBytes ws' []).
  rewrite Hb. apply Wire_ofSpan_inv in E as (_ & _ & hd & rest & _ & Hbuf & _); [|done].
  unfold prependBlock, Wire_size. rewrite Hbuf. by rewrite drop_app_length.
Qed.

(** ** The helpers write one element each *)

Lemma prependBlock_make type value enc :
  prependBlock (makeBinaryBlock type value) enc = prependBinaryBlock type value enc.
Proof.
  unfold prependBlock, makeBinaryBlock, prependBinaryBlock. cbn [w_bytes Wire_ofBlock].
  rewrite Block_encode_app, !prependVarNumber_app. cbn [blk_type blk_value].
  by rewrite app_nil_r, <-!app_assoc.
Qed.
Lemma prependEmptyBlock_make type enc :
  prependEmptyBlock type enc = prependBlock (makeEmptyBlock type) enc.
Proof. unfold makeEmptyBlock. by rewrite prependBlock_make. Qed.
Lemma prependNonNegativeIntegerBlock_make type v enc :
  prependNonNegativeIntegerBlock type v enc =
    prependBlock (makeBinaryBlock type (prependNonNegativeInteger v [])) enc.
Proof. by rewrite prependBlock_make. Qed.
Lemma prependNestedBlock_make {A} (f : A → list Z → list Z) type items enc :
  prependNestedBlock f type items enc = prependBlock (makeBinaryBlock type (foldr f [] items)) enc.
Proof. by rewrite prependBlock_make. Qed.

(** ** Names that can be written *)

(** What the encoder needs of a name; names from the network have it, although
    nothing has validated their components. *)
Definition comp_wf (c : Component) : Prop := Block_ok (comp_block c) ∧ bytes_ok (cvalue c).
Definition name_wf (n : Name) : Prop := Forall comp_wf n.
#[export] Instance comp_wf_dec c : Decision (comp_wf c).
Proof. unfold comp_wf, Block_ok. apply _. Defined.
#[export] Instance name_wf_dec n : Decision (name_wf n).
Proof. unfold name_wf. apply _. Defined.

Definition nameWire (n : Name) : Wire := makeBinaryBlock tlv_Name (foldr Component_wireEncode [] n).

Lemma Name_wireEncode_make n enc : Name_wireEncode n enc = prependBlock (nameWire n) enc.
Proof. unfold nameWire. by rewrite prependBlock_make. Qed.

Lemma Name_value_bytes n : name_wf n → bytes_ok (foldr Component_wireEncode [] n).
Proof.
  induction 1 as [|c n [_ Hc] _ IH]; [constructor|]. cbn. unfold Component_wireEncode at 1.
  rewrite !prependVarNumber_app, !Forall_app. split_and!; [apply varNumber_ok..|done|done].
Qed.

Lemma Name_wireDecode_nameWire n :
  name_wf n → Name_wireDecode (wire_block (nameWire n)) = Ok n.
Proof.
  intros Hn. unfold Name_wireDecode, nameWire, makeBinaryBlock, wire_block.
  cbn [w_type w_value Wire_ofBlock blk_type blk_value]. rewrite bool_decide_false by auto.
  rewrite wireEncode_elements, Block_parse_encode.
  - f_equal. rewrite map_map. rewrite <-map_id. apply map_ext. by intros [].
  - apply Forall_map. eapply Forall_impl; [done|]. by intros c [].
Qed.

Lemma Name_wireDecode_throws b f : Name_wireDecode b = Fault f → f = Throw TlvError.
Proof.
  unfold Name_wireDecode. case_bool_decide; [congruence|].
  destruct (Block_parse [] (blk_value b)) as [els [e|]] eqn:E; [|done]. intros [= <-].
  unfold Block_parse in E. case_bool_decide; [done|]. by apply Block_parse_loop_throws in E as ->.
Qed.

Lemma Name_wireDecode_wf b n :
  bytes_ok (blk_value b) → Z.of_nat (length (blk_value b)) < 2 ^ 64 →
  Name_wireDecode b = Ok n → name_wf n.
Proof.
  intros Hb Hl. unfold Name_wireDecode. case_bool_decide; [done|].
  destruct (Block_parse [] (blk_value b)) as [els [e|]] eqn:E; [done|]. intros [= <-].
  pose proof E as E'. apply Block_parse_ok in E' as [Hok _]; [|done..].
  assert (Forall (fun b => bytes_ok (blk_value b)) els) as Hbytes.
  { unfold Block_parse in E. case_bool_decide; [by injection E as <-|].
    by eapply Block_parse_loop_bytes in E. }
  apply Forall_map. rewrite Forall_forall in *. intros x Hx. split; [by destruct x; apply Hok|].
  by apply Hbytes.
Qed.

(** The sub-elements of an element written from closed elements. *)
Lemma Wire_subs_make type ws :
  Forall Wire_closed ws → Wire_subs (makeBinaryBlock type (wiresBytes ws [])) = Ok ws.
Proof. intros Hws. unfold Wire_subs. cbn. by apply Wire_split_closed. Qed.

Lemma Wire_subs_closed w ws :
  bytes_ok (w_value w) → Wire_subs w = Ok ws → Forall Wire_closed ws ∧ wiresBytes ws [] = w_value w.
Proof. intros Hok. by apply Wire_split_all_closed. Qed.

Lemma wire_in_length ws w :
  w ∈ ws → (length (w_bytes w) ≤ length (wiresBytes ws []))%nat.
Proof.
  induction 1 as [w ws|w w' ws _ IH]; cbn [wiresBytes foldr]; unfold prependBlock at 1;
    rewrite length_app; [lia|]. fold (wiresBytes ws []). lia.
Qed.

Definition smallWire (w : Wire) : Prop := Wire_closed w ∧ Z.of_nat (length (w_value w)) < 2 ^ 64.

Lemma subs_small w ws :
  bytes_ok (w_value w) → Z.of_nat (length (w_value w)) < 2 ^ 64 → Wire_subs w = Ok ws →
  Forall smallWire ws.
Proof.
  intros Hb Hl Hs. destruct (Wire_subs_closed w ws Hb Hs) as [Hc Hv].
  apply Forall_forall. intros x Hx. rewrite Forall_forall in Hc. pose proof (Hc x Hx) as Hcx.
  split; [done|]. apply wire_in_length in Hx. rewrite Hv in Hx.
  destruct Hcx as (Hx1 & Hx2 & _ & _). specialize (Hx1 []). rewrite app_nil_r in Hx1.
  apply Wire_ofSpan_inv in Hx1 as (_ & _ & hd & rest & E & _ & _); [|done].
  apply (f_equal length) in E. rewrite length_app in E. lia.
Qed.
(** ** Steps of a decoder *)

(** A step of a decoder that ends, throws [tlv::Error]s only, and when it
    returns leaves a state with [R]. *)
Definition decodesTo {S A} (m : ME S A) (R : A → S → Prop) (s : S) : Prop :=
  wpE m (fun r s' => match r with Ok a => R a s' | Fault f => isTlvError f = true end) s.

Section decodesTo.
Context {S : Type}.
Implicit Types s : S.

Lemma decodesTo_bind {A B} (m : ME S A) (k : A → ME S B) R s :
  decodesTo m (fun a s' => decodesTo (k a) R s') s → decodesTo (m ≫= k) R s.
Proof.
  unfold decodesTo, wpE, mbind, ME_bind. by destruct (m s) as [[a|f] s'].
Qed.
Lemma decodesTo_ret {A} (a : A) (R : A → S → Prop) s : R a s → decodesTo (mret a) R s.
Proof. done. Qed.
Lemma decodesTo_get {A} (f : S → A) (R : A → S → Prop) s : R (f s) s → decodesTo (getE f) R s.
Proof. done. Qed.
Lemma decodesTo_modify (f : S → S) (R : unit → S → Prop) s : R tt (f s) → decodesTo (modifyE f) R s.
Proof. done. Qed.
Lemma decodesTo_assert (b : bool) (R : unit → S → Prop) s :
  b = true → R tt s → decodesTo (assertE b) R s.
Proof. by intros ->. Qed.
Lemma decodesTo_lift {A} (m : outcome A) (R : A → S → Prop) s :
  (∀ f, m = Fault f → f = Throw TlvError) → (∀ a, m = Ok a → R a s) → decodesTo (liftE m) R s.
Proof.
  intros Hf Hr. unfold decodesTo, wpE. simpl. destruct m as [a|f]; [by apply Hr|].
  by rewrite (Hf f eq_refl).
Qed.
Lemma decodesTo_lift_error {A} (m : outcome A) (R : A → S → Prop) s :
  (∀ f, m = Fault f → isTlvError f = true) → (∀ a, m = Ok a → R a s) → decodesTo (liftE m) R s.
Proof. intros Hf Hr. unfold decodesTo, wpE. simpl. destruct m; auto. Qed.
Lemma decodesTo_zoom {T A} (view : S → T) (update : T → S → S) (m : ME T A) (R : A → S → Prop) s :
  decodesTo m (fun a t => R a (update t s)) (view s) → decodesTo (zoomE view update m) R s.
Proof. unfold decodesTo, wpE, zoomE. by destruct (m (view s)) as [[a|f] t]. Qed.
Lemma decodesTo_throw {A} (R : A → S → Prop) s : decodesTo (throwE TlvError) R s.
Proof. done. Qed.
Lemma decodesTo_mono {A} (m : ME S A) (R R' : A → S → Prop) s :
  decodesTo m R s → (∀ a s', R a s' → R' a s') → decodesTo m R' s.
Proof. unfold decodesTo, wpE. destruct (m s) as [[a|f] s']; simpl; auto. Qed.
Lemma decodesTo_if {A} (b : bool) (m1 m2 : ME S A) R s :
  (b = true → decodesTo m1 R s) → (b = false → decodesTo m2 R s) →
  decodesTo (if b then m1 else m2) R s.
Proof. destruct b; auto. Qed.
Lemma decodesTo_decide {A} P `{!Decision P} (m1 m2 : ME S A) R s :
  (P → decodesTo m1 R s) → (¬ P → decodesTo m2 R s) →
  decodesTo (if bool_decide P then m1 else m2) R s.
Proof. case_bool_decide; auto. Qed.
Lemma decodesTo_forE {A} (I : S → Prop) (l : list A) (k : A → ME S unit) s :
  I s → (∀ x s, x ∈ l → I s → decodesTo (k x) (fun _ => I) s) →
  decodesTo (forE_ l k) (fun _ => I) s.
Proof.
  revert s. induction l as [|x l IH]; intros s Hs Hk; cbn [forE_]; [done|].
  apply decodesTo_bind. eapply decodesTo_mono; [by apply Hk; [left|]|]. intros [] s' Hs'.
  apply IH; [done|]. intros y s2 Hy. apply Hk. by right.
Qed.
Lemma decodesTo_elim {A} (m : ME S A) R s r s' :
  decodesTo m R s → m s = (r, s') → match r with Ok a => R a s' | Fault f => isTlvError f = true end.
Proof. unfold decodesTo, wpE. by intros H E; rewrite E in H. Qed.
End decodesTo.

Lemma blockFromValue_throws w f : blockFromValue w = Fault f → f = Throw TlvError.
Proof.
  unfold blockFromValue. case_bool_decide; [congruence|].
  destruct (Wire_ofSpan _) as [i|g] eqn:E; cbn.
  - case_bool_decide; congruence.
  - intros [= <-]. by eapply Wire_ofSpan_throws.
Qed.

(** ** Elements that fit in memory *)

Definition small (ws : list Wire) : Prop := Z.of_nat (length (wiresBytes ws [])) < 2 ^ 63.

(** An element written from closed elements is closed. *)
Lemma nested_closed type ws :
  0 < type < 2 ^ 32 → Forall Wire_closed ws → small ws →
  Wire_closed (makeBinaryBlock type (wiresBytes ws [])).
Proof.
  intros Ht Hws Hs. apply makeBinaryBlock_closed; [done| |by apply wiresBytes_ok].
  unfold small in Hs. lia.
Qed.
Lemma small_app ws ws' : small (ws ++ ws') → small ws ∧ small ws'.
Proof.
  unfold small. rewrite wiresBytes_app, wiresBytes_enc, length_app. lia.
Qed.
Lemma small_in ws w : w ∈ ws → small ws → Z.of_nat (length (w_bytes w)) < 2 ^ 63.
Proof. unfold small. intros Hin%wire_in_length. lia. Qed.
Lemma value_le_bytes type value : (length value ≤ length (w_bytes (makeBinaryBlock type value)))%nat.
Proof.
  unfold makeBinaryBlock. cbn [w_bytes Wire_ofBlock]. rewrite Block_encode_app, !length_app.
  cbn [blk_value]. lia.
Qed.

Lemma length_makeBinaryBlock type value :
  (length (w_bytes (makeBinaryBlock type value)) ≤ 18 + length value)%nat.
Proof.
  unfold makeBinaryBlock. cbn [w_bytes Wire_ofBlock]. rewrite Block_encode_app, !length_app.
  rewrite !length_varNumber. cbn [blk_type blk_value length].
  unfold sizeOfVarNumber. repeat case_bool_decide; lia.
Qed.
