(* ===== verification/Packet.v ===== *)
(** * Packets (ndn-cxx [interest.cpp], [data.cpp], [lp/])

    The fields of Interest, Data and Nack the forwarder reads or writes, with
    the packet tags ([TagHost]) it uses.  The SHA-256 digest of a Data's wire
    is a field, because hashing is outside the sources. *)

From S2P Require Import Prelude Tlv Component Name.
Local Open Scope Z_scope.

(** ** PIT token ([lp/pit-token.cpp]) *)

Abbreviation PitToken := (list Z).
Definition LENGTH_MIN : nat := 1.
Definition LENGTH_MAX : nat := 32.
(** The constructor [PitToken(value)] with its [validate()]. *)
Definition makePitToken (buf : list Z) : outcome PitToken :=
  if bool_decide (length buf < LENGTH_MIN ∨ LENGTH_MAX < length buf)%nat
  then Fault (Throw TlvError) else Ok buf.

(** ** Interest *)

Record Interest := mkInterest {
  i_name : Name;
  i_canBePrefix : bool;
  i_mustBeFresh : bool;
  i_forwardingHint : list Name;
  i_nonce : option Z;
  i_lifetime : Z;                    (* InterestLifetime in milliseconds *)
  i_hopLimit : option Z;
  i_pitTokenTag : option PitToken;
  i_incomingFaceIdTag : option Z;
  i_nextHopFaceIdTag : option Z
}.
#[export] Instance Interest_eq_dec : EqDecision Interest.
Proof. solve_decision. Defined.

Definition set_i_nonce (v : option Z) (i : Interest) : Interest :=
  mkInterest (i_name i) (i_canBePrefix i) (i_mustBeFresh i) (i_forwardingHint i) v
    (i_lifetime i) (i_hopLimit i) (i_pitTokenTag i) (i_incomingFaceIdTag i) (i_nextHopFaceIdTag i).
Definition set_i_hopLimit (v : option Z) (i : Interest) : Interest :=
  mkInterest (i_name i) (i_canBePrefix i) (i_mustBeFresh i) (i_forwardingHint i) (i_nonce i)
    (i_lifetime i) v (i_pitTokenTag i) (i_incomingFaceIdTag i) (i_nextHopFaceIdTag i).
Definition set_i_forwardingHint (v : list Name) (i : Interest) : Interest :=
  mkInterest (i_name i) (i_canBePrefix i) (i_mustBeFresh i) v (i_nonce i)
    (i_lifetime i) (i_hopLimit i) (i_pitTokenTag i) (i_incomingFaceIdTag i) (i_nextHopFaceIdTag i).
Definition set_i_pitTokenTag (v : option PitToken) (i : Interest) : Interest :=
  mkInterest (i_name i) (i_canBePrefix i) (i_mustBeFresh i) (i_forwardingHint i) (i_nonce i)
    (i_lifetime i) (i_hopLimit i) v (i_incomingFaceIdTag i) (i_nextHopFaceIdTag i).
Definition set_i_incomingFaceIdTag (v : option Z) (i : Interest) : Interest :=
  mkInterest (i_name i) (i_canBePrefix i) (i_mustBeFresh i) (i_forwardingHint i) (i_nonce i)
    (i_lifetime i) (i_hopLimit i) (i_pitTokenTag i) v (i_nextHopFaceIdTag i).

(** ** Data *)

Inductive CachePolicyType : Type := CachePolicy_NONE | CachePolicy_NO_CACHE.

Record Data := mkData {
  d_name : Name;
  d_digest : list Z;                 (* SHA-256 of the wire encoding *)
  d_freshnessPeriod : Z;             (* milliseconds *)
  d_cachePolicyTag : option CachePolicyType;
  d_pitTokenTag : option PitToken;
  d_incomingFaceIdTag : option Z
}.
#[export] Instance CachePolicyType_eq_dec : EqDecision CachePolicyType.
Proof. solve_decision. Defined.
#[export] Instance Data_eq_dec : EqDecision Data.
Proof. solve_decision. Defined.

Definition set_d_pitTokenTag (v : option PitToken) (d : Data) : Data :=
  mkData (d_name d) (d_digest d) (d_freshnessPeriod d) (d_cachePolicyTag d) v (d_incomingFaceIdTag d).
Definition set_d_incomingFaceIdTag (v : option Z) (d : Data) : Data :=
  mkData (d_name d) (d_digest d) (d_freshnessPeriod d) (d_cachePolicyTag d) (d_pitTokenTag d) v.

(** [Data::getFullName]: the name and the implicit digest. *)
Definition getFullName (d : Data) : Name :=
  d_name d ++ [mkComponent ImplicitSha256DigestComponent (d_digest d)].

(** ** Matching *)

(** [Interest::matchesData]. *)
Definition matchesData (i : Interest) (d : Data) : bool :=
  let nameMatches :=
    if bool_decide (Name_size (i_name i) = Name_size (d_name d) + 1) then
      match last (i_name i) with
      | Some c => if isImplicitSha256Digest c
                  then Name_equals (i_name i) (getFullName d) else false
      | None => false
      end
    else if i_canBePrefix i then isPrefixOf (i_name i) (d_name d)
    else Name_equals (i_name i) (d_name d) in
  if nameMatches
  then negb (i_mustBeFresh i && bool_decide (d_freshnessPeriod d ≤ 0))
  else false.

(** [Interest::matchesInterest]. *)
Definition matchesInterest (i other : Interest) : bool :=
  Name_equals (i_name i) (i_name other) &&
  Bool.eqb (i_canBePrefix i) (i_canBePrefix other) &&
  Bool.eqb (i_mustBeFresh i) (i_mustBeFresh other).

(** [Interest::isReflexiveInterest]. *)
Definition isReflexiveInterest (i : Interest) : bool :=
  isReflexiveName g_conventionDecoding (i_name i).

(** [Interest::isReflexiveInterestFromProducer]: the loop over the components,
    which stops at the first that is RN=9999 and throws what [isRN9999]
    throws. *)
Fixpoint anyRN9999 (n : Name) : outcome bool :=
  match n with
  | [] => Ok false
  | c :: n' => b ← isRN9999 g_conventionDecoding c;
               if b : bool then Ok true else anyRN9999 n'
  end.
Definition isReflexiveInterestFromProducer (i : Interest) : outcome bool :=
  if bool_decide (Name_size (i_name i) = 0) then Ok false else anyRN9999 (i_name i).

(** ** Nack *)

Inductive NackReason : Type :=
| Nack_NONE | Nack_CONGESTION | Nack_DUPLICATE | Nack_NO_ROUTE.
#[export] Instance NackReason_eq_dec : EqDecision NackReason.
Proof. solve_decision. Defined.
Definition NackReason_code (r : NackReason) : Z :=
  match r with
  | Nack_NONE => 0 | Nack_CONGESTION => 50 | Nack_DUPLICATE => 100 | Nack_NO_ROUTE => 150
  end.

(** [lp::isLessSevere]. *)
Definition isLessSevere (x y : NackReason) : bool :=
  if bool_decide (x = Nack_NONE) then false
  else if bool_decide (y = Nack_NONE) then true
  else bool_decide (NackReason_code x < NackReason_code y).

(** A Nack carries its Interest and a header with the reason. *)
Record Nack := mkNack { n_interest : Interest; n_reason : NackReason }.
#[export] Instance Nack_eq_dec : EqDecision Nack.
Proof. solve_decision. Defined.

(** ** Scope prefixes ([fw/scope-prefix.hpp]) *)

Definition LOCALHOST : Name :=
  [mkComponent GenericNameComponent [108; 111; 99; 97; 108; 104; 111; 115; 116]].
Definition LOCALHOP : Name :=
  [mkComponent GenericNameComponent [108; 111; 99; 97; 108; 104; 111; 112]].

(** ** Lemmas *)

Lemma matchesInterest_spec i j :
  matchesInterest i j = true ↔
    i_name i = i_name j ∧ i_canBePrefix i = i_canBePrefix j ∧ i_mustBeFresh i = i_mustBeFresh j.
Proof.
  unfold matchesInterest. rewrite !andb_true_iff, Name_equals_spec, !eqb_true_iff. tauto.
Qed.

Lemma matchesData_prefix i d :
  matchesData i d = true →
  i_name i `prefix_of` getFullName d.
Proof.
  unfold matchesData. intros H.
  destruct (if bool_decide _ then _ else _) eqn:E in H; [clear H|done].
  revert E. case_bool_decide as Hl.
  - destruct (last (i_name i)) as [c|]; [|done]. destruct (isImplicitSha256Digest c); [|done].
    by intros ->%Name_equals_spec.
  - unfold getFullName. destruct (i_canBePrefix i).
    + intros [k ->]%isPrefixOf_spec. eexists. by rewrite <-app_assoc.
    + intros ->%Name_equals_spec. by eexists.
Qed.

Lemma anyRN9999_reflexive n b :
  anyRN9999 n = Ok b → b = true → isReflexiveName g_conventionDecoding n = true.
Proof.
  revert b. induction n as [|c n IH]; simpl; intros b; [congruence|].
  unfold isRN9999 at 1. destruct (isReflexive g_conventionDecoding c); simpl; [done|eauto].
Qed.

(** An Interest the code takes for the producer's is also a reflexive one. *)
Lemma fromProducer_reflexive i :
  isReflexiveInterestFromProducer i = Ok true → isReflexiveInterest i = true.
Proof.
  unfold isReflexiveInterestFromProducer, isReflexiveInterest. case_bool_decide; [done|].
  intros Hb. by eapply anyRN9999_reflexive.
Qed.
