(* ===== verification/PitAssist.v ===== *)
(** * The reflexive-forwarding assistant (NFD [table/assist.hpp], [table/assist.cpp])

    [pit_assist] gives every reflexive Interest name a 32-bit token for the
    next hop and remembers the token of the previous hop. *)

From S2P Require Import Prelude Tlv Component Name Packet.
Local Open Scope Z_scope.

(** ** Tokens on the wire *)

(** The loop of [setPitToken] pushes byte [i] of the value, least significant
    first, and the constructor of [PitToken] validates the length. *)
Definition setPitToken (tokenvalue : Z) : outcome PitToken :=
  makePitToken (map (fun i => u8 (Z.land (Z.shiftr tokenvalue (8 * i)) 255)) [0; 1; 2; 3]).

(** [readPitToken]: [pitToken[i]] for [i < 4] does not check the size. *)
Fixpoint readPitToken_loop (pitToken : PitToken) (i : nat) (todo : nat) (tokenvalue : Z)
  : outcome Z :=
  match todo with
  | O => Ok tokenvalue
  | S todo' =>
      match pitToken !! i with
      | None => Fault UndefinedBehaviour
      | Some b => readPitToken_loop pitToken (S i) todo'
                    (Z.lor tokenvalue (u32 (Z.shiftl b (8 * Z.of_nat i))))
      end
  end.
Definition readPitToken (pitToken : PitToken) : outcome Z := readPitToken_loop pitToken 0 4 0.

(** [readInterestPitToken]. *)
Definition readInterestPitToken (i : Interest) : outcome Z :=
  match i_pitTokenTag i with None => Ok 0 | Some t => readPitToken t end.

(** ** The maps *)

Record pit_assist := mkAssist {
  m_reserved_value : gset Z;
  m_Name_to_Token : gmap Name Z;
  m_Name_to_prevToken : gmap Name Z;
  m_Token_to_Name : gmap Z Name;
  m_prevToken_to_Name : gmap Z Name
}.

(** The constructor: token 0 is illegal. *)
Definition pit_assist_init : pit_assist := mkAssist {[0]} ∅ ∅ ∅ ∅.

Definition existName (a : pit_assist) (name : Name) : bool :=
  bool_decide (is_Some (m_Name_to_Token a !! name)).

(** [generateToken]: an endless loop over [generateNonce()].  [word k] is the
    [k]-th 32-bit word the random source yields and [k] the number drawn so
    far; [fuel] bounds the draws, and running out of it is divergence. *)
Fixpoint generateToken (word : nat → Z) (fuel : nat) (a : pit_assist) (k : nat)
  : outcome (Z * nat) :=
  match fuel with
  | O => Fault Diverges
  | S fuel' =>
      let newtoken := u32 (word k) in
      if bool_decide (newtoken ∈ m_reserved_value a) then generateToken word fuel' a (S k)
      else if bool_decide (m_Token_to_Name a !! newtoken = None) then Ok (newtoken, S k)
      else generateToken word fuel' a (S k)
  end.

(** The four stores of [createName] once the token is drawn. *)
Definition storeName (a : pit_assist) (name : Name) (prevToken token : Z) : pit_assist :=
  mkAssist (m_reserved_value a)
    (<[name := token]> (m_Name_to_Token a))
    (<[name := prevToken]> (m_Name_to_prevToken a))
    (<[token := name]> (m_Token_to_Name a))
    (<[prevToken := name]> (m_prevToken_to_Name a)).

Definition createName (word : nat → Z) (fuel : nat) (a : pit_assist) (k : nat)
    (name : Name) (prevToken : Z) : outcome (pit_assist * nat) :=
  '(token, k') ← generateToken word fuel a k;
  mret (storeName a name prevToken token, k').

Definition prevTokenToName (a : pit_assist) (prevtoken : Z) : Name * bool :=
  match m_prevToken_to_Name a !! prevtoken with Some n => (n, true) | None => ([], false) end.
Definition nameToPrevToken (a : pit_assist) (name : Name) : Z * bool :=
  match m_Name_to_prevToken a !! name with Some t => (t, true) | None => (0, false) end.
Definition tokenToName (a : pit_assist) (token : Z) : Name * bool :=
  match m_Token_to_Name a !! token with Some n => (n, true) | None => ([], false) end.
Definition nameToToken (a : pit_assist) (name : Name) : Z * bool :=
  match m_Name_to_Token a !! name with Some t => (t, true) | None => (0, false) end.

(** ** Invariant

    Names and tokens are in bijection, tokens are legal 32-bit values, and a
    name has a previous-hop token exactly when it has a token. *)
Record assist_inv (a : pit_assist) : Prop := {
  ai_reserved : m_reserved_value a = {[0]};
  ai_bij : ∀ n t, m_Name_to_Token a !! n = Some t ↔ m_Token_to_Name a !! t = Some n;
  ai_range : ∀ n t, m_Name_to_Token a !! n = Some t → 0 < t < 2 ^ 32;
  ai_prev : ∀ n, is_Some (m_Name_to_prevToken a !! n) ↔ is_Some (m_Name_to_Token a !! n);
  ai_prev_inv : ∀ p n, m_prevToken_to_Name a !! p = Some n → m_Name_to_prevToken a !! n = Some p
}.

Lemma assist_inv_init : assist_inv pit_assist_init.
Proof. by split. Qed.

Lemma generateToken_sound word fuel a k t k' :
  m_reserved_value a = {[0]} →
  generateToken word fuel a k = Ok (t, k') →
  0 < t < 2 ^ 32 ∧ m_Token_to_Name a !! t = None ∧ (k < k')%nat.
Proof.
  intros Hr. revert k. induction fuel as [|fuel IH]; intros k; simpl; [done|].
  assert (0 ≤ u32 (word k) < 2 ^ 32) by (apply Z.mod_pos_bound; lia).
  case_bool_decide as E1; [intros ?%IH; naive_solver lia|].
  case_bool_decide as E2; [|intros ?%IH; naive_solver lia].
  intros [= <- <-]. rewrite Hr in E1. split_and!; [|lia|done|lia].
  destruct (decide (u32 (word k) = 0)); [set_solver|lia].
Qed.

(** The loop ends at the first drawn word that is neither 0 nor taken. *)
Lemma generateToken_total word fuel a k j :
  m_reserved_value a = {[0]} → (j < fuel)%nat →
  u32 (word (k + j)%nat) ≠ 0 → m_Token_to_Name a !! u32 (word (k + j)%nat) = None →
  ∃ t k', generateToken word fuel a k = Ok (t, k').
Proof.
  intros Hr. revert k j. induction fuel as [|fuel IH]; intros k j Hj H0 Hn; [lia|]. simpl.
  assert (j = 0%nat ∨ ∃ j', j = S j') as [->|[j' ->]] by (destruct j; eauto).
  - rewrite Nat.add_0_r in *. rewrite Hr. rewrite bool_decide_false by set_solver.
    rewrite bool_decide_true by done. eauto.
  - rewrite <-Nat.add_succ_comm in *.
    repeat case_bool_decide; eauto; apply (IH (S k) j'); (done || lia).
Qed.

(** A drawn word that the loop accepts, and the first of them: the words before
    it are 0 or taken. *)
Definition usableWord (a : pit_assist) (w : Z) : bool :=
  negb (bool_decide (w = 0)) && bool_decide (m_Token_to_Name a !! w = None).
Lemma usableWord_spec a w : usableWord a w = true ↔ w ≠ 0 ∧ m_Token_to_Name a !! w = None.
Proof. unfold usableWord. by rewrite andb_true_iff, negb_true_iff, bool_decide_eq_false, bool_decide_eq_true. Qed.
Definition firstUsable (word : nat → Z) (a : pit_assist) (k k' : nat) (t : Z) : Prop :=
  ∃ j, k' = S (k + j)%nat ∧ t = u32 (word (k + j)%nat) ∧ usableWord a t = true ∧
    ∀ j', (j' < j)%nat → usableWord a (u32 (word (k + j')%nat)) = false.

Lemma generateToken_first word fuel a k t k' :
  m_reserved_value a = {[0]} → generateToken word fuel a k = Ok (t, k') → firstUsable word a k k' t.
Proof.
  intros Hr. revert k. induction fuel as [|fuel IH]; intros k; simpl; [done|].
  assert (usableWord a (u32 (word k)) = false → generateToken word fuel a (S k) = Ok (t, k') →
    firstUsable word a k k' t) as Hnext.
  { intros Hno Hg. destruct (IH _ Hg) as (j & -> & -> & Hu & Hj). exists (S j).
    rewrite Nat.add_succ_r. split_and!; [done|done|done|]. intros [|j'] Hj'; [by rewrite Nat.add_0_r|].
    rewrite Nat.add_succ_r. apply (Hj j'). lia. }
  rewrite Hr. case_bool_decide as E0; [apply Hnext; unfold usableWord; by rewrite bool_decide_true by set_solver|].
  case_bool_decide as E1; [|apply Hnext; unfold usableWord; by rewrite (bool_decide_false (_ = None)), andb_false_r].
  intros [= <- <-]. exists 0%nat. rewrite Nat.add_0_r. split_and!; [done|done| |lia].
  apply usableWord_spec. split; [set_solver|done].
Qed.

(** ... and never ends when every word is 0 or taken. *)
Lemma generateToken_diverges word fuel a k :
  m_reserved_value a = {[0]} →
  (∀ j, u32 (word j) = 0 ∨ is_Some (m_Token_to_Name a !! u32 (word j))) →
  generateToken word fuel a k = Fault Diverges.
Proof.
  intros Hr Hall. revert k. induction fuel as [|fuel IH]; intros k; simpl; [done|].
  rewrite !IH. repeat case_bool_decide; try done.
  destruct (Hall k) as [E|[n E]]; [|congruence]. rewrite Hr, E in *. set_solver.
Qed.

Lemma assist_inv_storeName a name prev t :
  assist_inv a → m_Name_to_Token a !! name = None →
  0 < t < 2 ^ 32 → m_Token_to_Name a !! t = None →
  assist_inv (storeName a name prev t).
Proof.
  intros Ha Hn Ht Hf. assert (m_Name_to_prevToken a !! name = None) as Hp.
  { apply eq_None_not_Some. rewrite (ai_prev a Ha). rewrite Hn. by intros []. }
  split; simpl.
  - apply Ha.
  - intros n t'. destruct (decide (n = name)) as [->|]; destruct (decide (t' = t)) as [->|];
      rewrite ?lookup_insert_eq, ?lookup_insert_ne by done.
    + done.
    + rewrite <-(ai_bij a Ha). naive_solver.
    + rewrite (ai_bij a Ha). naive_solver.
    + apply Ha.
  - intros n t'. rewrite lookup_insert. case_decide; [naive_solver|]. apply Ha.
  - intros n. rewrite !lookup_insert. case_decide; [naive_solver|]. apply Ha.
  - intros p n. destruct (decide (p = prev)) as [->|]; destruct (decide (n = name)) as [->|];
      rewrite ?lookup_insert_eq, ?lookup_insert_ne by done.
    + done.
    + congruence.
    + intros E%(ai_prev_inv a Ha). congruence.
    + apply Ha.
Qed.

(** ** Token bytes *)

Definition le_number4 (b0 b1 b2 b3 : Z) : Z := b0 + b1 * 2 ^ 8 + b2 * 2 ^ 16 + b3 * 2 ^ 24.

(** The token loop finds a fresh word among the allowed draws. *)
Lemma createName_ok word fuel a k j name prev :
  assist_inv a → existName a name = false → (j < fuel)%nat →
  u32 (word (k + j)%nat) ≠ 0 → m_Token_to_Name a !! u32 (word (k + j)%nat) = None →
  ∃ a' k', createName word fuel a k name prev = Ok (a', k') ∧ existName a' name = true ∧ assist_inv a'.
Proof.
  intros Ha Hex Hj H0 Hf. destruct (generateToken_total word fuel a k j) as (t & k' & E);
    [apply Ha|done..|]. unfold createName. rewrite E. simpl. do 2 eexists. split; [done|].
  split; [apply bool_decide_eq_true; simpl; rewrite lookup_insert_eq; eauto|].
  apply generateToken_sound in E as (Ht & Hn & _); [|apply Ha].
  apply assist_inv_storeName; [done| |done|done].
  unfold existName in Hex. apply bool_decide_eq_false in Hex. by apply eq_None_not_Some.
Qed.
Lemma readPitToken_ok t : (4 ≤ length t)%nat → ∃ v, readPitToken t = Ok v.
Proof.
  intros Hl. destruct t as [|b0 [|b1 [|b2 [|b3 t]]]]; simpl in Hl; try lia. eexists. reflexivity.
Qed.

Lemma readPitToken_4 b0 b1 b2 b3 rest :
  is_byte b0 → is_byte b1 → is_byte b2 → is_byte b3 →
  readPitToken (b0 :: b1 :: b2 :: b3 :: rest) = Ok (le_number4 b0 b1 b2 b3).
Proof.
  unfold is_byte. intros H0 H1 H2 H3. unfold readPitToken. cbn -[Z.lor Z.shiftl Z.mul Z.of_nat].
  change (8 * Z.of_nat 0) with 0. change (8 * Z.of_nat 1) with 8.
  change (8 * Z.of_nat 2) with 16. change (8 * Z.of_nat 3) with 24.
  rewrite !u32_small by (rewrite Z.shiftl_mul_pow2 by lia; lia).
  rewrite Z.lor_0_l, Z.shiftl_0_r, (lor_shiftl_add b0), (lor_shiftl_add (b0 + _)),
    (lor_shiftl_add (b0 + b1 * 2 ^ 8 + _)) by lia.
  done.
Qed.

Lemma readPitToken_short t : (length t < 4)%nat → readPitToken t = Fault UndefinedBehaviour.
Proof. intros H. by destruct t as [|? [|? [|? [|??]]]]; simpl in *; try lia. Qed.

Lemma setPitToken_bytes v :
  0 ≤ v < 2 ^ 32 →
  setPitToken v = Ok [v mod 2 ^ 8; (v / 2 ^ 8) mod 2 ^ 8; (v / 2 ^ 16) mod 2 ^ 8; v / 2 ^ 24].
Proof.
  intros Hv. unfold setPitToken, makePitToken, u8. cbn -[Z.land Z.shiftr Z.mul Z.modulo].
  change 255 with (Z.ones 8). rewrite !Z.land_ones, !Z.mod_mod, !Z.shiftr_div_pow2 by lia.
  change (8 * 0) with 0. change (8 * 1) with 8. change (8 * 2) with 16. change (8 * 3) with 24.
  rewrite Z.pow_0_r, Z.div_1_r. do 4 f_equal. f_equal.
  apply Z.mod_small. split; [apply Z.div_pos; lia|apply Z.div_lt_upper_bound; lia].
Qed.

Lemma le_number4_bytes v :
  0 ≤ v < 2 ^ 32 →
  le_number4 (v mod 2 ^ 8) ((v / 2 ^ 8) mod 2 ^ 8) ((v / 2 ^ 16) mod 2 ^ 8) (v / 2 ^ 24) = v.
Proof.
  intros Hv. unfold le_number4.
  replace (v / 2 ^ 16) with (v / 2 ^ 8 / 2 ^ 8) by (rewrite Z.div_div by lia; done).
  replace (v / 2 ^ 24) with (v / 2 ^ 8 / 2 ^ 8 / 2 ^ 8) by (rewrite !Z.div_div by lia; done).
  pose proof (Z.div_mod v (2 ^ 8) ltac:(lia)).
  pose proof (Z.div_mod (v / 2 ^ 8) (2 ^ 8) ltac:(lia)).
  pose proof (Z.div_mod (v / 2 ^ 8 / 2 ^ 8) (2 ^ 8) ltac:(lia)).
  change (2 ^ 24) with (2 ^ 8 * 2 ^ 8 * 2 ^ 8). change (2 ^ 16) with (2 ^ 8 * 2 ^ 8). lia.
Qed.

Lemma readPitToken_setPitToken v t :
  0 ≤ v < 2 ^ 32 → setPitToken v = Ok t → readPitToken t = Ok v.
Proof.
  intros Hv. rewrite setPitToken_bytes by done. intros [= <-].
  rewrite readPitToken_4; [by rewrite le_number4_bytes|..]; unfold is_byte;
    try (apply Z.mod_pos_bound; lia).
  split; [apply Z.div_pos; lia|apply Z.div_lt_upper_bound; lia].
Qed.

(** ** Properties *)

(** Writing a token into a packet and reading it back: for every 32-bit
    token [setPitToken] succeeds with four bytes and [readPitToken] recovers
    the token, also when longer tokens follow the four bytes. *)
Theorem pitToken_roundtrip v extra :
  0 ≤ v < 2 ^ 32 →
  ∃ t, setPitToken v = Ok t ∧ length t = 4%nat ∧ bytes_ok t ∧ readPitToken (t ++ extra) = Ok v.
Proof.
  intros Hv. rewrite setPitToken_bytes by done. eexists. split; [done|].
  assert (0 ≤ v / 2 ^ 24 < 256).
  { split; [apply Z.div_pos; lia|apply Z.div_lt_upper_bound; lia]. }
  split_and!; [done| |].
  - repeat constructor; unfold is_byte; try (apply Z.mod_pos_bound; lia); lia.
  - cbn [app]. rewrite readPitToken_4; [by rewrite le_number4_bytes|..]; unfold is_byte;
      try (apply Z.mod_pos_bound; lia); lia.
Qed.
Lemma pitToken_roundtrip_witness :
  ∃ t, setPitToken 2345 = Ok t ∧ length t = 4%nat ∧ bytes_ok t ∧ readPitToken (t ++ [9]) = Ok 2345.
Proof. apply (pitToken_roundtrip 2345 [9]). lia. Defined.

(** A PIT token of one to three bytes is legal on the wire (the
    constructor accepts 1 to 32 bytes), and [readPitToken] reads past its
    end. *)
Theorem readPitToken_short_ub t :
  (1 ≤ length t ≤ 3)%nat →
  makePitToken t = Ok t ∧ readPitToken t = Fault UndefinedBehaviour.
Proof.
  intros Ht. split; [|apply readPitToken_short; lia].
  unfold makePitToken, LENGTH_MIN, LENGTH_MAX. by rewrite bool_decide_false by lia.
Qed.
Lemma readPitToken_short_ub_witness : readPitToken [1; 2] = Fault UndefinedBehaviour.
Proof. apply (readPitToken_short_ub [1; 2]). simpl; lia. Defined.

(** C30. [createName] on a name the assistant does not know.  If one of the words
    that the random source yields next, the [j]-th, is neither 0 nor a token in
    use, the loop of [generateToken] ends at the first such word, whatever bound
    above [j] the model puts on the draws.  That word becomes the token of the
    name and leads back to it, the previous-hop token is remembered, the
    bijection between names and tokens is kept, and for every other name and
    every other token the two maps from names and the map from tokens are as
    before.  The map from previous-hop tokens now leads to the new name,
    also when another name had the same previous-hop token; at other
    previous-hop tokens it is as before. *)
Theorem createName_correct word fuel a k name prev j :
  assist_inv a → existName a name = false →
  (j < fuel)%nat → usableWord a (u32 (word (k + j)%nat)) = true →
  ∃ a' k', createName word fuel a k name prev = Ok (a', k') ∧ assist_inv a' ∧ existName a' name = true ∧
    (∃ t, firstUsable word a k k' t ∧ 0 < t < 2 ^ 32 ∧ nameToToken a' name = (t, true) ∧
       tokenToName a' t = (name, true) ∧ tokenToName a t = ([], false) ∧
       ∀ t', t' ≠ t → tokenToName a' t' = tokenToName a t') ∧
    nameToPrevToken a' name = (prev, true) ∧
    (∀ n, n ≠ name → nameToToken a' n = nameToToken a n ∧ nameToPrevToken a' n = nameToPrevToken a n) ∧
    prevTokenToName a' prev = (name, true) ∧
    (∀ p, p ≠ prev → prevTokenToName a' p = prevTokenToName a p).
Proof.
  intros Ha Hex Hj Hu. apply bool_decide_eq_false, eq_None_not_Some in Hex as Hn.
  apply usableWord_spec in Hu as [H0 Hf]. destruct (generateToken_total word fuel a k j) as (t & k' & E);
    [apply Ha|done..|]. pose proof (generateToken_first word fuel a k t k' (ai_reserved a Ha) E) as Hfirst.
  apply generateToken_sound in E as E'; [|apply Ha]. destruct E' as (Ht & Hft & _).
  exists (storeName a name prev t), k'. unfold createName. rewrite E.
  unfold existName, nameToToken, tokenToName, nameToPrevToken, prevTokenToName. simpl. rewrite !lookup_insert_eq.
  split_and!; [done|by apply assist_inv_storeName|by apply bool_decide_true| |done| |done|].
  - exists t. rewrite lookup_insert_eq, Hft. split_and!; try done; [lia|lia|]. intros t' Ht'. by rewrite lookup_insert_ne.
  - intros n Hne. by rewrite !lookup_insert_ne.
  - intros p Hp. by rewrite lookup_insert_ne.
Qed.
Lemma createName_correct_witness :
  ∃ a' k', createName (fun k => Z.of_nat k) 5 pit_assist_init 0 [mkComponent 59 [49]] 7 = Ok (a', k') ∧
    nameToPrevToken a' [mkComponent 59 [49]] = (7, true) ∧ prevTokenToName a' 7 = ([mkComponent 59 [49]], true).
Proof.
  destruct (createName_correct (fun k => Z.of_nat k) 5 pit_assist_init 0 [mkComponent 59 [49]] 7 1)
    as (a' & k' & H & _ & _ & _ & Hp & _ & Hq & _); [apply assist_inv_init|reflexivity|lia|reflexivity|].
  exists a', k'. exact (conj H (conj Hp Hq)).
Defined.

(** Termination of the token loop: [createName] returns as soon as the
    random source yields, within the allowed draws, a non-zero word that is
    not a token; and it never returns, however long it draws, when every word
    the source yields is 0 or a token in use. *)
Theorem createName_terminates word a k name prev :
  assist_inv a →
  (∀ fuel j, (j < fuel)%nat → u32 (word (k + j)%nat) ≠ 0 →
     tokenToName a (u32 (word (k + j)%nat)) = ([], false) →
     ∃ a' k', createName word fuel a k name prev = Ok (a', k')) ∧
  ((∀ j, u32 (word j) = 0 ∨ (tokenToName a (u32 (word j))).2 = true) →
     ∀ fuel, createName word fuel a k name prev = Fault Diverges).
Proof.
  intros Ha. unfold tokenToName, createName. split.
  - intros fuel j Hj H0 Hn.
    destruct (m_Token_to_Name a !! u32 (word (k + j)%nat)) eqn:E; [done|].
    destruct (generateToken_total word fuel a k j) as (t & k' & ->); [apply Ha|done..|].
    simpl. eauto.
  - intros Hall fuel. rewrite generateToken_diverges; [done|apply Ha|].
    intros j. destruct (Hall j) as [|H]; [by left|right].
    destruct (m_Token_to_Name a !! u32 (word j)); [done|discriminate H].
Qed.
Lemma createName_terminates_witness :
  ∃ a' k', createName (fun k => Z.of_nat k) 2 pit_assist_init 0 [] 0 = Ok (a', k').
Proof.
  eapply (proj1 (createName_terminates (fun k => Z.of_nat k) pit_assist_init 0 [] 0 assist_inv_init)
    2%nat 1%nat); [lia|done|done].
Defined.
