(* ===== verification/Hashtable.v ===== *)
(** * The name-tree hashtable (NFD [table/name-tree-hashtable.cpp])

    A vector of buckets, each a linked list of nodes, that grows and shrinks
    with the number of nodes.  A node is identified by the name of its entry;
    the entry itself lives in the name tree ([NameTree]).  The component hash
    (CityHash) is a parameter: nothing below depends on which function it is. *)

From S2P Require Import Prelude Tlv Component Name.
Local Open Scope Z_scope.

(** The products [factor * n] of [HashtableOptions], converted to [size_t]. *)
Record HashtableOptions := mkOptions {
  initialSize : nat;
  minSize : nat;
  expandThresholdOf : nat → nat;
  expandSizeOf : nat → nat;
  shrinkThresholdOf : nat → nat;
  shrinkSizeOf : nat → nat
}.

(** The constructor with the default factors 0.5, 2, 0.1 and 0.5; the float
    products are exact after truncation below 2^24 buckets. *)
Definition defaultOptions (size : nat) : HashtableOptions :=
  mkOptions size size (fun n => n / 2)%nat (fun n => 2 * n)%nat
    (fun n => n / 10)%nat (fun n => n / 2)%nat.

Record Node := mkNode { node_hash : Z; node_name : Name }.
#[export] Instance Node_eq_dec : EqDecision Node.
Proof. solve_decision. Defined.

Record Hashtable := mkHashtable {
  m_buckets : list (list Node);
  m_options : HashtableOptions;
  m_size : nat;
  m_expandThreshold : nat;
  m_shrinkThreshold : nat
}.

Section hashtable.
Context (HashFunc : Component → Z).

(** [computeHash]: the exclusive or of the component hashes. *)
Definition computeHash (name : Name) (prefixLen : nat) : Z :=
  foldl (fun h c => Z.lxor h (u64 (HashFunc c))) 0 (take (prefixLen `min` length name) name).

(** [computeHashes]: the hashes of all prefixes, shortest first. *)
Fixpoint computeHashes_loop (h : Z) (comps : list Component) : list Z :=
  match comps with
  | [] => []
  | c :: comps' => let h := Z.lxor h (u64 (HashFunc c)) in h :: computeHashes_loop h comps'
  end.
Definition computeHashes (name : Name) (prefixLen : nat) : list Z :=
  0 :: computeHashes_loop 0 (take (prefixLen `min` length name) name).

Definition getNBuckets (ht : Hashtable) : nat := length (m_buckets ht).
Definition bucketIndex (nBuckets : nat) (h : Z) : nat := Z.to_nat (h mod Z.of_nat nBuckets).
Definition computeBucketIndex (ht : Hashtable) (h : Z) : nat := bucketIndex (getNBuckets ht) h.

(** [attach] puts the node at the head of the bucket's list, [detach] unlinks
    it. *)
Definition attach (bucket : nat) (node : Node) (bs : list (list Node)) : list (list Node) :=
  alter (cons node) bucket bs.
Fixpoint unlink (node : Node) (l : list Node) : list Node :=
  match l with
  | [] => []
  | x :: l' => if decide (x = node) then l' else x :: unlink node l'
  end.
Definition detach (bucket : nat) (node : Node) (bs : list (list Node)) : list (list Node) :=
  alter (unlink node) bucket bs.

Definition computeThresholds (ht : Hashtable) : Hashtable :=
  mkHashtable (m_buckets ht) (m_options ht) (m_size ht)
    (expandThresholdOf (m_options ht) (getNBuckets ht))
    (shrinkThresholdOf (m_options ht) (getNBuckets ht)).

Definition Hashtable_init (options : HashtableOptions) : Hashtable :=
  computeThresholds (mkHashtable (replicate (initialSize options) []) options 0 0 0).

(** [resize]: every node of every old bucket, in list order, is attached to
    its bucket in the new vector. *)
Definition rehash (newNBuckets : nat) (old : list (list Node)) : list (list Node) :=
  foldl (fun bs node => attach (bucketIndex newNBuckets (node_hash node)) node bs)
    (replicate newNBuckets []) (concat old).
Definition resize (ht : Hashtable) (newNBuckets : nat) : Hashtable :=
  if decide (getNBuckets ht = newNBuckets) then ht
  else computeThresholds (mkHashtable (rehash newNBuckets (m_buckets ht)) (m_options ht)
         (m_size ht) (m_expandThreshold ht) (m_shrinkThreshold ht)).

(** The bucket scan of [findOrInsert]: the first node with the hash and the
    name. *)
Definition findInBucket (l : list Node) (h : Z) (name : Name) : option Node :=
  find (fun node => bool_decide (node_hash node = h) && Name_equals name (node_name node)) l.

(** [findOrInsert]: the node (null as [None]) and whether it is new. *)
Definition findOrInsert (ht : Hashtable) (name : Name) (prefixLen : nat) (h : Z)
    (allowInsert : bool) : option Node * bool * Hashtable :=
  let bucket := computeBucketIndex ht h in
  match findInBucket (default [] (m_buckets ht !! bucket)) h (take prefixLen name) with
  | Some node => (Some node, false, ht)
  | None =>
      if negb allowInsert then (None, false, ht)
      else
        let node := mkNode h (take prefixLen name) in
        let ht := mkHashtable (attach bucket node (m_buckets ht)) (m_options ht)
                    (S (m_size ht)) (m_expandThreshold ht) (m_shrinkThreshold ht) in
        (Some node, true,
         if decide (m_expandThreshold ht < m_size ht)%nat
         then resize ht (expandSizeOf (m_options ht) (getNBuckets ht)) else ht)
  end.

(** [find(name, prefixLen)], [find] and [insert] with a hash sequence. *)
Definition ht_find (ht : Hashtable) (name : Name) (prefixLen : nat) : option Node :=
  (findOrInsert ht name prefixLen (computeHash name prefixLen) false).1.1.
Definition ht_find_seq (ht : Hashtable) (name : Name) (prefixLen : nat) (hashes : list Z)
  : option Node :=
  (findOrInsert ht name prefixLen (default 0 (hashes !! prefixLen)) false).1.1.
Definition ht_insert (ht : Hashtable) (name : Name) (prefixLen : nat) (hashes : list Z)
  : option Node * bool * Hashtable :=
  findOrInsert ht name prefixLen (default 0 (hashes !! prefixLen)) true.

Definition ht_erase (ht : Hashtable) (node : Node) : Hashtable :=
  let bucket := computeBucketIndex ht (node_hash node) in
  let ht := mkHashtable (detach bucket node (m_buckets ht)) (m_options ht)
              (m_size ht - 1) (m_expandThreshold ht) (m_shrinkThreshold ht) in
  if decide (m_size ht < m_shrinkThreshold ht)%nat
  then resize ht (Nat.max (minSize (m_options ht)) (shrinkSizeOf (m_options ht) (getNBuckets ht)))
  else ht.

(** ** Invariant *)

Definition ht_nodes (ht : Hashtable) : list Node := concat (m_buckets ht).
Definition ht_names (ht : Hashtable) : list Name := map node_name (ht_nodes ht).

(** Every node carries the hash of its name and sits in the bucket of that
    hash. *)
Definition placed (n : nat) (bs : list (list Node)) : Prop :=
  length bs = n ∧ ∀ i l node, bs !! i = Some l → node ∈ l →
    node_hash node = computeHash (node_name node) (length (node_name node)) ∧
    i = bucketIndex n (node_hash node).

Definition options_ok (o : HashtableOptions) : Prop :=
  (0 < minSize o)%nat ∧ (minSize o ≤ initialSize o)%nat ∧
  ∀ n, (0 < n)%nat → (0 < expandSizeOf o n)%nat.

Record ht_inv (ht : Hashtable) : Prop := {
  hi_options : options_ok (m_options ht);
  hi_pos : (0 < getNBuckets ht)%nat;
  hi_placed : placed (getNBuckets ht) (m_buckets ht);
  hi_nodup : NoDup (ht_names ht);
  hi_size : m_size ht = length (ht_nodes ht)
}.

Lemma bucketIndex_lt n h : (0 < n)%nat → (bucketIndex n h < n)%nat.
Proof.
  intros. unfold bucketIndex. pose proof (Z.mod_pos_bound h (Z.of_nat n) ltac:(lia)). lia.
Qed.

Lemma computeHash_take name k :
  (k ≤ length name)%nat → computeHash (take k name) (length (take k name)) = computeHash name k.
Proof.
  intros. unfold computeHash. rewrite length_take, take_take. do 2 f_equal. lia.
Qed.

Lemma computeHashes_lookup name len k :
  (k ≤ len)%nat → (len ≤ length name)%nat →
  computeHashes name len !! k = Some (computeHash name k).
Proof.
  intros Hk Hl. unfold computeHashes, computeHash.
  rewrite (Nat.min_l len), (Nat.min_l k) by lia.
  replace (take k name) with (take k (take len name)) by (rewrite take_take; f_equal; lia).
  assert (k ≤ length (take len name))%nat as Hk' by (rewrite length_take; lia).
  revert Hk'. generalize (take len name) as l. generalize 0 as h. clear.
  induction k as [|k IH]; intros h l Hk; [done|].
  destruct l as [|c l]; [simpl in *; lia|]. simpl. apply (IH (Z.lxor h (u64 (HashFunc c)))).
  simpl in *. lia.
Qed.

Lemma elem_of_concat_lookup {A} (bs : list (list A)) x :
  x ∈ concat bs ↔ ∃ i l, bs !! i = Some l ∧ x ∈ l.
Proof.
  rewrite list_elem_of_In, in_concat. split.
  - intros (l & Hl & Hx). rewrite <-!list_elem_of_In in *.
    apply list_elem_of_lookup in Hl as [i Hi]. eauto.
  - intros (i & l & Hi & Hx). exists l. rewrite <-!list_elem_of_In. split; [|done].
    by eapply list_elem_of_lookup_2.
Qed.

Lemma concat_attach bucket node bs :
  (bucket < length bs)%nat → concat (attach bucket node bs) ≡ₚ node :: concat bs.
Proof.
  revert bucket. unfold attach. induction bs as [|l bs IH]; intros [|b] Hb; simpl in *; try lia;
    [done|].
  unfold alter in IH. rewrite IH by lia. by rewrite Permutation_middle.
Qed.

Lemma unlink_perm node l : node ∈ l → l ≡ₚ node :: unlink node l.
Proof.
  induction l as [|x l IH]; [by intros ?%not_elem_of_nil|].
  simpl. case_decide as E; [by subst|]. intros [->|Hn]%elem_of_cons; [done|].
  rewrite (IH Hn) at 1. apply Permutation_swap.
Qed.

Lemma concat_detach bucket node bs l :
  bs !! bucket = Some l → node ∈ l → concat bs ≡ₚ node :: concat (detach bucket node bs).
Proof.
  revert bucket. unfold detach. induction bs as [|l' bs IH]; intros [|b] Hb Hn; simpl in *; try done.
  - injection Hb as ->. by rewrite (unlink_perm node l) at 1.
  - unfold alter in IH. rewrite (IH b) at 1 by done. by rewrite Permutation_middle.
Qed.

Lemma unlink_subset node l x : x ∈ unlink node l → x ∈ l.
Proof.
  induction l as [|y l IH]; simpl; [done|]. case_decide; rewrite !elem_of_cons; naive_solver.
Qed.

Lemma placed_attach n bs node :
  (0 < n)%nat → placed n bs →
  node_hash node = computeHash (node_name node) (length (node_name node)) →
  placed n (attach (bucketIndex n (node_hash node)) node bs).
Proof.
  intros Hn [Hl Hp] Hh. split; [by unfold attach; rewrite length_alter|].
  intros i l x. unfold attach. rewrite list_lookup_alter. case_decide as E.
  - subst i. destruct (bs !! _) as [l0|] eqn:E0; simpl; [|done].
    intros [= <-] [->|Hx]%elem_of_cons; [done|]. by eapply Hp.
  - intros Hi Hx. by eapply Hp.
Qed.

Lemma rehash_spec n old :
  (0 < n)%nat →
  (∀ node, node ∈ concat old →
     node_hash node = computeHash (node_name node) (length (node_name node))) →
  placed n (rehash n old) ∧ concat (rehash n old) ≡ₚ concat old.
Proof.
  intros Hn. unfold rehash. generalize (concat old) as nodes.
  assert (placed n (replicate n [])) as H0.
  { split; [apply length_replicate|]. intros i l node [-> _]%lookup_replicate.
    by intros ?%not_elem_of_nil. }
  assert (concat (replicate n []) = @nil Node) as E0 by (clear; induction n; simpl; auto).
  intros nodes Hh. enough (∀ bs, placed n bs →
    placed n (foldl (fun bs node => attach (bucketIndex n (node_hash node)) node bs) bs nodes) ∧
    concat (foldl (fun bs node => attach (bucketIndex n (node_hash node)) node bs) bs nodes)
      ≡ₚ nodes ++ concat bs) as H.
  { destruct (H _ H0) as [H1 H2]. split; [done|]. by rewrite H2, E0, app_nil_r. }
  clear H0 E0. induction nodes as [|x nodes IH]; intros bs Hp; [done|].
  assert (placed n (attach (bucketIndex n (node_hash x)) x bs)) as Hp'.
  { apply placed_attach; [done|done|]. apply Hh. by left. }
  destruct (IH ltac:(intros ??; apply Hh; by right) _ Hp') as [H1 H2]. simpl. split; [done|].
  rewrite H2, concat_attach; [by rewrite Permutation_middle|].
  destruct Hp as [-> _]. by apply bucketIndex_lt.
Qed.

Lemma node_in_names ht node : node ∈ ht_nodes ht → node_name node ∈ ht_names ht.
Proof. intros Hin. unfold ht_names. apply list_elem_of_fmap. by exists node. Qed.

Lemma ht_inv_resize ht n :
  ht_inv ht → (0 < n)%nat →
  ht_inv (resize ht n) ∧ ht_nodes (resize ht n) ≡ₚ ht_nodes ht.
Proof.
  intros Hi Hn. unfold resize. case_decide as E; [done|].
  destruct (rehash_spec n (m_buckets ht) Hn) as [Hp Hperm].
  { intros node (i & l & Hl & Hx)%elem_of_concat_lookup.
    by apply (proj2 (hi_placed _ Hi) i l node). }
  unfold computeThresholds, ht_nodes, ht_names. simpl. split; [|done]. split; simpl.
  - apply Hi.
  - unfold getNBuckets. simpl. by rewrite (proj1 Hp).
  - unfold getNBuckets. simpl. by rewrite (proj1 Hp).
  - unfold ht_names, ht_nodes. simpl. rewrite Hperm. apply Hi.
  - unfold ht_nodes. simpl. rewrite Hperm. apply Hi.
Qed.

Lemma findInBucket_Some ht name k node :
  ht_inv ht → (k ≤ length name)%nat →
  findInBucket (default [] (m_buckets ht !! computeBucketIndex ht (computeHash name k)))
    (computeHash name k) (take k name) = Some node →
  node = mkNode (computeHash name k) (take k name) ∧ node ∈ ht_nodes ht.
Proof.
  intros Hi Hk Hf. unfold findInBucket in Hf.
  apply find_some in Hf as [Hin Hb]. rewrite <-list_elem_of_In in Hin.
  apply andb_true_iff in Hb as [Hh%bool_decide_eq_true Hn%Name_equals_spec].
  split; [destruct node; simpl in *; congruence|].
  apply elem_of_concat_lookup. destruct (m_buckets ht !! _) as [l|] eqn:E; [|by apply not_elem_of_nil in Hin].
  eauto.
Qed.

Lemma findInBucket_None ht name k :
  ht_inv ht → (k ≤ length name)%nat →
  findInBucket (default [] (m_buckets ht !! computeBucketIndex ht (computeHash name k)))
    (computeHash name k) (take k name) = None →
  take k name ∉ ht_names ht.
Proof.
  intros Hi Hk Hf Hin. unfold ht_names in Hin.
  apply list_elem_of_fmap in Hin as (node & En & Hnode).
  apply elem_of_concat_lookup in Hnode as (i & l & Hl & Hx).
  destruct (proj2 (hi_placed _ Hi) i l node Hl Hx) as [Hh Hidx].
  rewrite <-En, computeHash_take in Hh by done.
  assert (i = computeBucketIndex ht (computeHash name k)) as -> by (rewrite <-Hh; done).
  rewrite Hl in Hf. simpl in Hf. unfold findInBucket in Hf.
  apply find_none with (x := node) in Hf; [|by apply list_elem_of_In].
  rewrite Hh, bool_decide_true, En in Hf by done. simpl in Hf.
  apply not_true_iff_false in Hf. apply Hf. by apply Name_equals_spec.
Qed.

Lemma ht_find_spec ht name k :
  ht_inv ht → (k ≤ length name)%nat →
  ht_find ht name k =
    if decide (take k name ∈ ht_names ht)
    then Some (mkNode (computeHash name k) (take k name)) else None.
Proof.
  intros Hi Hk. unfold ht_find, findOrInsert.
  destruct (findInBucket _ _ _) as [node|] eqn:E; simpl.
  - apply findInBucket_Some in E as [-> Hin]; [|done..].
    rewrite decide_True; [done|]. by apply node_in_names in Hin.
  - apply findInBucket_None in E; [|done..]. by rewrite decide_False.
Qed.

Lemma ht_find_seq_spec ht name len k :
  (k ≤ len)%nat → (len ≤ length name)%nat →
  ht_find_seq ht name k (computeHashes name len) = ht_find ht name k.
Proof. intros. unfold ht_find_seq, ht_find. by rewrite computeHashes_lookup. Qed.

Lemma ht_insert_spec ht name len k :
  ht_inv ht → (k ≤ len)%nat → (len ≤ length name)%nat →
  ∃ ht', ht_insert ht name k (computeHashes name len) =
      (Some (mkNode (computeHash name k) (take k name)),
       bool_decide (take k name ∉ ht_names ht), ht') ∧
    ht_inv ht' ∧
    ht_names ht' ≡ₚ (if decide (take k name ∈ ht_names ht) then [] else [take k name]) ++ ht_names ht.
Proof.
  intros Hi Hk Hlen. unfold ht_insert. rewrite computeHashes_lookup by done. simpl.
  unfold findOrInsert. destruct (findInBucket _ _ _) as [node|] eqn:E.
  - apply findInBucket_Some in E as [-> Hin]; [|done|lia].
    assert (take k name ∈ ht_names ht) as Hn by by apply node_in_names in Hin.
    exists ht. rewrite decide_True by done. rewrite bool_decide_false by naive_solver. done.
  - apply findInBucket_None in E; [|done|lia].
    rewrite (decide_False (P := take k name ∈ ht_names ht)) by done. rewrite bool_decide_true by done. cbn [negb].
    set (node := mkNode (computeHash name k) (take k name)).
    set (ht1 := mkHashtable _ _ _ _ _).
    assert (ht_nodes ht1 ≡ₚ node :: ht_nodes ht) as Hperm.
    { unfold ht_nodes, ht1. simpl. apply concat_attach.
      apply bucketIndex_lt, Hi. }
    assert (ht_inv ht1) as Hi1.
    { assert (getNBuckets ht1 = getNBuckets ht) as En
        by (unfold getNBuckets, ht1, attach; simpl; by rewrite length_alter).
      split; rewrite ?En; try apply Hi.
      - apply placed_attach; [apply Hi|apply Hi|]. simpl. rewrite computeHash_take by lia. done.
      - unfold ht_names. rewrite Hperm. simpl. constructor; [done|]. apply Hi.
      - rewrite Hperm. simpl. by rewrite (hi_size _ Hi). }
    assert (ht_names ht1 ≡ₚ [take k name] ++ ht_names ht) as Hnames
      by (unfold ht_names; by rewrite Hperm).
    case_decide; [|by exists ht1].
    destruct (ht_inv_resize ht1 (expandSizeOf (m_options ht1) (getNBuckets ht1))) as [Hi2 Hp2].
    + done.
    + apply (hi_options _ Hi1), Hi1.
    + eexists. split; [done|]. split; [done|]. unfold ht_names at 1. by rewrite Hp2.
Qed.

Lemma ht_erase_spec ht node :
  ht_inv ht → node ∈ ht_nodes ht →
  ht_inv (ht_erase ht node) ∧ node_name node :: ht_names (ht_erase ht node) ≡ₚ ht_names ht.
Proof.
  intros Hi Hin. pose proof Hin as (i & l & Hl & Hx)%elem_of_concat_lookup.
  destruct (proj2 (hi_placed _ Hi) i l node Hl Hx) as [Hh Hidx].
  unfold ht_erase. fold (computeBucketIndex ht (node_hash node)) in Hidx. rewrite <-Hidx.
  set (ht1 := mkHashtable _ _ _ _ _).
  assert (ht_nodes ht ≡ₚ node :: ht_nodes ht1) as Hperm by (by eapply concat_detach).
  assert (ht_inv ht1) as Hi1.
  { assert (getNBuckets ht1 = getNBuckets ht) as En
      by (unfold getNBuckets, ht1, detach; simpl; by rewrite length_alter).
    pose proof (hi_nodup _ Hi) as Hnd. pose proof (hi_size _ Hi) as Hsz.
    unfold ht_names in Hnd. rewrite Hperm in Hnd, Hsz. simpl in Hnd, Hsz.
    split; rewrite ?En; try apply Hi.
    - split; [unfold ht1, detach; simpl; rewrite length_alter; apply Hi|].
      intros j l' x. unfold ht1, detach. simpl. rewrite list_lookup_alter. case_decide as E.
      + subst j. rewrite Hl. simpl. intros [= <-] Hx'%unlink_subset.
        by apply (proj2 (hi_placed _ Hi) i l).
      + apply (proj2 (hi_placed _ Hi)).
    - by apply NoDup_cons in Hnd as [_ ?].
    - change (m_size ht1) with (m_size ht - 1)%nat. lia. }
  assert (node_name node :: ht_names ht1 ≡ₚ ht_names ht) as Hnames
    by (unfold ht_names; by rewrite Hperm).
  case_decide; [|done].
  destruct (ht_inv_resize ht1 (Nat.max (minSize (m_options ht1))
    (shrinkSizeOf (m_options ht1) (getNBuckets ht1)))) as [Hi2 Hp2]; [done| |].
  { destruct (hi_options _ Hi1). lia. }
  split; [done|]. unfold ht_names at 1. by rewrite Hp2.
Qed.

Lemma ht_inv_init options :
  options_ok options → ht_inv (Hashtable_init options) ∧ ht_names (Hashtable_init options) = [].
Proof.
  intros Ho. pose proof Ho as (? & ? & _).
  assert (concat (replicate (initialSize options) []) = @nil Node) as E
    by (clear; induction (initialSize options); simpl; auto).
  unfold Hashtable_init, computeThresholds, ht_names, ht_nodes. simpl. rewrite E.
  split; [|done]. split; unfold getNBuckets, ht_names, ht_nodes; simpl;
    rewrite ?length_replicate, ?E; try done; try lia; [|constructor].
  split; [apply length_replicate|].
  intros i l node [-> _]%lookup_replicate. by intros ?%not_elem_of_nil.
Qed.
End hashtable.

(** ** Reference: a set of names *)

(** What the hashtable implements: a finite set of names with membership,
    insertion and removal. *)
Inductive ht_op : Type := OpInsert (n : Name) | OpErase (n : Name).

Definition ht_step (H : Component → Z) (op : ht_op) (ht : Hashtable) : Hashtable :=
  match op with
  | OpInsert n => (ht_insert ht n (length n) (computeHashes H n (length n))).2
  | OpErase n => match ht_find H ht n (length n) with Some node => ht_erase ht node | None => ht end
  end.
Definition set_step (op : ht_op) (s : gset Name) : gset Name :=
  match op with OpInsert n => {[n]} ∪ s | OpErase n => s ∖ {[n]} end.

Lemma ht_step_refines H op ht s :
  ht_inv H ht → (∀ n, n ∈ ht_names ht ↔ n ∈ s) →
  ht_inv H (ht_step H op ht) ∧ (∀ n, n ∈ ht_names (ht_step H op ht) ↔ n ∈ set_step op s).
Proof.
  intros Hi Hs. destruct op as [n|n]; simpl.
  - destruct (ht_insert_spec H ht n (length n) (length n)) as (ht' & -> & Hi' & Hp); [done|lia..|].
    simpl. split; [done|]. intros m. rewrite Hp, firstn_all, elem_of_app.
    rewrite elem_of_union, elem_of_singleton.
    clear Hp. rewrite <-(Hs m). pose proof (Hs n).
    case_decide as E; rewrite ?elem_of_cons, ?elem_of_nil; naive_solver.
  - rewrite ht_find_spec by (done || lia). rewrite firstn_all. case_decide as E.
    + assert (mkNode (computeHash H n (length n)) n ∈ ht_nodes ht) as Hin.
      { unfold ht_names in E. apply list_elem_of_fmap in E as ([h m] & -> & Hm). simpl.
        pose proof Hm as (i & l & Hl & Hx)%elem_of_concat_lookup.
        destruct (proj2 (hi_placed _ _ Hi) i l _ Hl Hx) as [Hh _]. simpl in Hh. by rewrite <-Hh. }
      destruct (ht_erase_spec H ht _ Hi Hin) as [Hi' Hp]. split; [done|].
      pose proof (hi_nodup _ _ Hi) as Hnd. rewrite <-Hp in Hnd.
      simpl in Hnd. apply NoDup_cons in Hnd as [Hnin _]. simpl in Hp.
      intros m. rewrite elem_of_difference, <-Hs, <-Hp, elem_of_cons. set_solver.
    + split; [done|]. intros m. rewrite elem_of_difference, <-Hs. set_solver.
Qed.

Lemma ht_steps_refine H ops ht s :
  ht_inv H ht → (∀ n, n ∈ ht_names ht ↔ n ∈ s) →
  ht_inv H (foldl (fun t op => ht_step H op t) ht ops) ∧
  (∀ n, n ∈ ht_names (foldl (fun t op => ht_step H op t) ht ops)
        ↔ n ∈ foldl (fun t op => set_step op t) s ops).
Proof.
  revert ht s. induction ops as [|op ops IH]; intros ht s Hi Hs; [done|].
  simpl. destruct (ht_step_refines H op ht s Hi Hs). by apply IH.
Qed.

(** C25. The hashtable refines a set of names: after any sequence of
    insertions and removals, through all the expansions and shrinkings they
    cause and whatever the hash function, [find] succeeds exactly for the
    names of the reference set, the size counter is the number of nodes, and
    the structural invariant holds. *)
Theorem hashtable_refines_set H options ops name :
  options_ok options →
  let ht := foldl (fun t op => ht_step H op t) (Hashtable_init options) ops in
  let s := foldl (fun t op => set_step op t) ∅ ops in
  ht_inv H ht ∧ m_size ht = size s ∧
  (is_Some (ht_find H ht name (length name)) ↔ name ∈ s).
Proof.
  intros Ho ht s. destruct (ht_inv_init H options Ho) as [Hi0 E0].
  destruct (ht_steps_refine H ops (Hashtable_init options) ∅ Hi0) as [Hi Hs].
  { intros n. rewrite E0. set_solver. }
  fold ht s in Hi, Hs. split_and!; [done| |].
  - rewrite (hi_size _ _ Hi). rewrite <-(length_map node_name). fold (ht_names ht).
    rewrite <-(size_list_to_set (C:=gset Name)) by apply Hi. f_equal. apply set_eq. set_solver.
  - rewrite ht_find_spec, firstn_all by (done || lia). rewrite <-Hs. case_decide; naive_solver.
Qed.
Lemma hashtable_refines_set_witness :
  is_Some (ht_find (fun c => ctype c) (ht_step (fun c => ctype c) (OpInsert [mkComponent 8 [65]])
     (Hashtable_init (defaultOptions 1))) [mkComponent 8 [65]] 1).
Proof.
  apply (hashtable_refines_set (fun c => ctype c) (defaultOptions 1) [OpInsert [mkComponent 8 [65]]]
           [mkComponent 8 [65]]).
  - unfold options_ok. simpl. split_and!; [lia|lia|intros; lia].
  - simpl. set_solver.
Defined.
