(* ===== verification/NameTree.v ===== *)
(** * The name tree (NFD [table/name-tree.cpp], [table/name-tree-entry.cpp])

    The tree shared by FIB, PIT, Measurements and StrategyChoice.  Entries are
    identified by their names; the hashtable holds the nodes, and the parent
    pointers, children vectors and table slots of the entries live in a map
    from names, which plays the role of the heap. *)

From S2P Require Import Prelude Tlv Component Name Hashtable.

Definition getMaxDepth : nat := 32.

(** The table slots of an entry. *)
Record Tables (FibE PitE MeasE ScE : Type) := mkTables {
  t_fib : option FibE;
  t_pit : list PitE;
  t_meas : option MeasE;
  t_sc : option ScE
}.
Arguments mkTables {_ _ _ _} _ _ _ _.
Arguments t_fib {_ _ _ _} _.
Arguments t_pit {_ _ _ _} _.
Arguments t_meas {_ _ _ _} _.
Arguments t_sc {_ _ _ _} _.

Record Entry (T : Type) := mkEntry {
  e_parent : option Name;
  e_children : list Name;
  e_tables : T
}.
Arguments mkEntry {_} _ _ _.
Arguments e_parent {_} _.
Arguments e_children {_} _.
Arguments e_tables {_} _.

Record NameTree (T : Type) := mkNameTree {
  nt_ht : Hashtable;
  nt_entries : gmap Name (Entry T)
}.
Arguments mkNameTree {_} _ _.
Arguments nt_ht {_} _.
Arguments nt_entries {_} _.

Definition parentName (n : Name) : option Name :=
  match n with [] => None | _ :: _ => Some (take (length n - 1) n) end.

Section nametree.
Context (HashFunc : Component → Z) {FibE PitE MeasE ScE : Type}.
Abbreviation T := (Tables FibE PitE MeasE ScE).
Abbreviation NT := (NameTree T).

Definition noTables : T := mkTables None [] None None.

(** [Entry::hasTableEntries], negated. *)
Definition noTableEntries (t : T) : bool :=
  match t_fib t, t_pit t, t_meas t, t_sc t with
  | None, [], None, None => true
  | _, _, _, _ => false
  end.
(** [Entry::isEmpty]. *)
Definition isEmpty (e : Entry T) : bool :=
  match e_children e with [] => noTableEntries (e_tables e) | _ :: _ => false end.

Definition NameTree_init (nBuckets : nat) : NT :=
  mkNameTree (Hashtable_init (defaultOptions nBuckets)) ∅.

Definition entry (n : Name) : M NT (Entry T) :=
  nt ← get; deref (nt_entries nt !! n).
Definition setEntry (n : Name) (e : Entry T) : M NT unit :=
  modify (fun nt => mkNameTree (nt_ht nt) (<[n := e]> (nt_entries nt))).

(** [Entry::setParent] and [Entry::unsetParent]. *)
Definition setParent (n parent : Name) : M NT unit :=
  e ← entry n;
  assertM (bool_decide (e_parent e = None));;
  assertM (bool_decide (n ≠ []));;
  assertM (bool_decide (Some parent = parentName n));;
  setEntry n (mkEntry (Some parent) (e_children e) (e_tables e));;
  p ← entry parent;
  setEntry parent (mkEntry (e_parent p) (e_children p ++ [n]) (e_tables p)).

Fixpoint eraseFirst (n : Name) (l : list Name) : list Name :=
  match l with
  | [] => []
  | x :: l' => if decide (x = n) then l' else x :: eraseFirst n l'
  end.

Definition unsetParent (n : Name) : M NT unit :=
  e ← entry n;
  match e_parent e with
  | None => raise AssertFailed
  | Some parent =>
      p ← entry parent;
      assertM (bool_decide (n ∈ e_children p));;
      setEntry parent (mkEntry (e_parent p) (eraseFirst n (e_children p)) (e_tables p));;
      e' ← entry n;
      setEntry n (mkEntry None (e_children e') (e_tables e'))
  end.

(** [m_ht.insert] with the construction of the node's entry. *)
Definition nt_insert (name : Name) (i : nat) (hashes : list Z) : M NT (Name * bool) :=
  nt ← get;
  let '(node, isNew, ht) := ht_insert (nt_ht nt) name i hashes in
  node ← deref node;
  put (mkNameTree ht (if isNew : bool
                      then <[node_name node := mkEntry None [] noTables]> (nt_entries nt)
                      else nt_entries nt));;
  mret (node_name node, isNew).

(** [NameTree::lookup(name, prefixLen)]: iteration [i] of the loop, with
    [todo] iterations left after it. *)
Fixpoint lookup_loop (name : Name) (hashes : list Z) (todo i : nat) (parent : option Name)
  : M NT Name :=
  '(node, isNew) ← nt_insert name i hashes;
  (match isNew, parent with
   | true, Some p => setParent node p
   | _, _ => mret tt
   end);;
  match todo with
  | O => mret node
  | S todo' => lookup_loop name hashes todo' (S i) (Some node)
  end.
Definition nt_lookup (name : Name) (prefixLen : nat) : M NT Name :=
  assertM (bool_decide (prefixLen ≤ length name));;
  assertM (bool_decide (prefixLen ≤ getMaxDepth));;
  lookup_loop name (computeHashes HashFunc name prefixLen) prefixLen 0 None.

(** [getNode]: the node of an entry carries the hash of its name. *)
Definition getNode (n : Name) : Node := mkNode (computeHash HashFunc n (length n)) n.

(** [NameTree::eraseIfEmpty]: every iteration moves to the parent, whose name
    is shorter, so one iteration per component and one for the root are
    enough. *)
Fixpoint eraseIfEmpty_loop (fuel : nat) (n : option Name) (canEraseAncestors : bool)
    (nErased : nat) : M NT nat :=
  match n, fuel with
  | None, _ => mret nErased
  | Some _, O => raise Diverges
  | Some n, S fuel' =>
      e ← entry n;
      if isEmpty e then
        let parent := e_parent e in
        (match parent with Some _ => unsetParent n | None => mret tt end);;
        e' ← entry n;
        assertM (bool_decide (e_parent e' = None));;
        modify (fun nt => mkNameTree (ht_erase (nt_ht nt) (getNode n)) (delete n (nt_entries nt)));;
        if canEraseAncestors
        then eraseIfEmpty_loop fuel' parent canEraseAncestors (S nErased)
        else mret (S nErased)
      else mret nErased
  end.
Definition eraseIfEmpty (n : Name) (canEraseAncestors : bool) : M NT nat :=
  eraseIfEmpty_loop (S (length n)) (Some n) canEraseAncestors 0.

(** [NameTree::findExactMatch]. *)
Definition findExactMatch (nt : NT) (name : Name) (prefixLen : nat) : option Name :=
  let prefixLen := length name `min` prefixLen in
  if decide (getMaxDepth < prefixLen) then None
  else node_name <$> ht_find HashFunc (nt_ht nt) name prefixLen.

(** Selectors see the entry. *)
Abbreviation EntrySelector := (Name → Entry T → bool).
Definition selects (sel : EntrySelector) (nt : NT) (n : Name) : bool :=
  match nt_entries nt !! n with Some e => sel n e | None => false end.

(** [NameTree::findLongestPrefixMatch(name, selector)]. *)
Fixpoint lpm_loop (nt : NT) (sel : EntrySelector) (name : Name) (hashes : list Z) (i : nat)
  : option Name :=
  match ht_find_seq (nt_ht nt) name i hashes with
  | Some node =>
      if selects sel nt (node_name node) then Some (node_name node)
      else match i with O => None | S i' => lpm_loop nt sel name hashes i' end
  | None => match i with O => None | S i' => lpm_loop nt sel name hashes i' end
  end.
Definition findLongestPrefixMatch (nt : NT) (sel : EntrySelector) (name : Name) : option Name :=
  let depth := length name `min` getMaxDepth in
  lpm_loop nt sel name (computeHashes HashFunc name depth) depth.

(** [findLongestPrefixMatch(entry, selector)]: walk up the parent pointers. *)
Fixpoint lpm_up (fuel : nat) (nt : NT) (sel : EntrySelector) (n : option Name) : option Name :=
  match n, fuel with
  | None, _ => None
  | Some _, O => None
  | Some n, S fuel' =>
      if selects sel nt n then Some n
      else lpm_up fuel' nt sel (nt_entries nt !! n ≫= e_parent)
  end.
Definition findLongestPrefixMatch_entry (nt : NT) (sel : EntrySelector) (n : Name) : option Name :=
  lpm_up (S (length n)) nt sel (Some n).

(** [findLongestPrefixMatch(pitEntry, selector)]: [nte] is the name of the
    entry the PIT entry is attached to and [name] the PIT entry's name; the
    loop goes deeper while exact matches exist. *)
Fixpoint lpm_deeper (nt : NT) (name nte : Name) (i todo : nat) : Name :=
  match todo with
  | O => nte
  | S todo' =>
      match findExactMatch nt name i with
      | None => nte
      | Some exact => lpm_deeper nt name exact (S i) todo'
      end
  end.
Definition findLongestPrefixMatch_pit (nt : NT) (sel : EntrySelector) (name nte : Name)
  : option Name :=
  let depth := length name `min` getMaxDepth in
  let nte := if decide (length nte < length name)
             then lpm_deeper nt name nte (S (length nte)) (depth - length nte) else nte in
  findLongestPrefixMatch_entry nt sel nte.

(** [NameTree::findAllMatches]: [PrefixMatchImpl] visits the longest match and
    then every selected ancestor. *)
Fixpoint matches_up (fuel : nat) (nt : NT) (sel : EntrySelector) (n : option Name) : list Name :=
  match n, fuel with
  | None, _ => []
  | Some _, O => []
  | Some n, S fuel' =>
      (if selects sel nt n then [n] else []) ++
      matches_up fuel' nt sel (nt_entries nt !! n ≫= e_parent)
  end.
Definition findAllMatches (nt : NT) (sel : EntrySelector) (name : Name) : list Name :=
  matches_up (S (length name)) nt sel (findLongestPrefixMatch nt sel name).

(** [NameTree::fullEnumerate]: [FullEnumerationImpl] visits the selected nodes
    bucket by bucket. *)
Definition fullEnumerate (nt : NT) (sel : EntrySelector) : list Name :=
  filter (fun n => selects sel nt n) (ht_names (nt_ht nt)).

(** Update of the table slots of an entry (the setters of [name_tree::Entry]). *)
Definition updTables (n : Name) (f : T → T) : M NT unit :=
  e ← entry n;
  setEntry n (mkEntry (e_parent e) (e_children e) (f (e_tables e))).

(** ** Invariant *)

Abbreviation Entries := (gmap Name (Entry T)).

(** Parents and children agree with the names, and the tree is closed under
    parents. *)
Record ent_inv (m : Entries) : Prop := {
  en_depth : ∀ n e, m !! n = Some e → length n ≤ getMaxDepth;
  en_parent : ∀ n e, m !! n = Some e → e_parent e = parentName n;
  en_up : ∀ n p, is_Some (m !! n) → parentName n = Some p →
    ∃ ep, m !! p = Some ep ∧ n ∈ e_children ep;
  en_down : ∀ n e c, m !! n = Some e → c ∈ e_children e →
    parentName c = Some n ∧ is_Some (m !! c);
  en_nodup : ∀ n e, m !! n = Some e → NoDup (e_children e)
}.

Record nt_inv (nt : NT) : Prop := {
  ni_ht : ht_inv HashFunc (nt_ht nt);
  ni_dom : ∀ n, n ∈ ht_names (nt_ht nt) ↔ is_Some (nt_entries nt !! n);
  ni_ent : ent_inv (nt_entries nt)
}.

(** The tables of a name, whether or not the tree has an entry for it: what
    the tree stores for its users. *)
Definition tablesOf (m : Entries) (n : Name) : T :=
  match m !! n with Some e => e_tables e | None => noTables end.
Definition tablesAt (nt : NT) (n : Name) : T := tablesOf (nt_entries nt) n.

Lemma parentName_take name i :
  S i ≤ length name → parentName (take (S i) name) = Some (take i name).
Proof.
  intros Hi. destruct name as [|c name]; [simpl in *; lia|].
  cbn [take parentName length]. rewrite length_take_le by (simpl in *; lia).
  f_equal. replace (S i - 1) with i by lia.
  change (c :: take i name) with (take (S i) (c :: name)). rewrite take_take. f_equal. lia.
Qed.

Lemma parentName_length n p : parentName n = Some p → S (length p) = length n.
Proof.
  destruct n as [|c n]; simpl; [done|]. intros [= <-]. rewrite Nat.sub_0_r.
  destruct n as [|d n]; [done|]. simpl. rewrite length_take. simpl. lia.
Qed.

Lemma parentName_snoc n c : parentName (n ++ [c]) = Some n.
Proof.
  destruct (n ++ [c]) as [|d l] eqn:El; [by destruct n|]. unfold parentName. rewrite <-El.
  rewrite length_app. simpl. by rewrite Nat.add_sub, take_app_length.
Qed.

Lemma parentName_ne n p : parentName n = Some p → n ≠ p.
Proof. intros H%parentName_length ->. lia. Qed.

Lemma ent_inv_root (m : Entries) :
  ent_inv m → m !! [] = None → ent_inv (<[[] := mkEntry None [] noTables]> m).
Proof.
  intros Hm H0. split.
  - intros n e. rewrite lookup_insert. case_decide; [intros; subst; simpl; unfold getMaxDepth; lia|].
    apply Hm.
  - intros n e. rewrite lookup_insert. case_decide; [by intros [= <-]; subst|]. apply Hm.
  - intros n p. rewrite lookup_insert. case_decide; [by subst|]. intros Hn Hp.
    destruct (en_up m Hm n p Hn Hp) as (ep & E & Hin). exists ep.
    rewrite lookup_insert_ne by congruence. done.
  - intros n e c. rewrite lookup_insert. case_decide.
    { intros [= <-]. simpl. by intros ?%not_elem_of_nil. }
    intros Hn Hc. destruct (en_down m Hm n e c Hn Hc) as [? ?]. split; [done|].
    rewrite lookup_insert. by case_decide.
  - intros n e. rewrite lookup_insert. case_decide; [intros [= <-]; constructor|]. apply Hm.
Qed.

(** Adding a child [n] below an existing parent [p]. *)
Definition addChild (m : Entries) (n p : Name) (ep : Entry T) : Entries :=
  <[p := mkEntry (e_parent ep) (e_children ep ++ [n]) (e_tables ep)]>
    (<[n := mkEntry (Some p) [] noTables]> m).

Lemma ent_inv_child (m : Entries) n p ep :
  ent_inv m → m !! n = None → m !! p = Some ep → parentName n = Some p →
  length n ≤ getMaxDepth → ent_inv (addChild m n p ep).
Proof.
  intros Hm Hn Hp Hpar Hd. pose proof (parentName_ne _ _ Hpar) as Hne. unfold addChild.
  assert (n ∉ e_children ep) as Hnin.
  { intros Hc. destruct (en_down m Hm p ep n Hp Hc) as [_ [? ?]]. congruence. }
  assert (∀ x, is_Some (m !! x) → is_Some (addChild m n p ep !! x)) as Hmono.
  { intros x ?. unfold addChild. rewrite !lookup_insert. by repeat case_decide. }
  split.
  - intros x e. rewrite !lookup_insert. repeat case_decide; subst; [|done|apply Hm].
    intros _. by eapply en_depth.
  - intros x e. rewrite !lookup_insert. repeat case_decide; subst; [| |apply Hm].
    + intros [= <-]. simpl. by eapply en_parent.
    + by intros [= <-].
  - intros x q Hx Hq. destruct (decide (x = n)) as [->|Hxn].
    { assert (q = p) as -> by congruence. eexists. rewrite lookup_insert_eq. split; [done|].
      simpl. apply elem_of_app. right. by left. }
    assert (is_Some (m !! x)) as Hx'.
    { revert Hx. rewrite !lookup_insert. repeat case_decide; subst; [eauto|done|done]. }
    destruct (en_up m Hm x q Hx' Hq) as (eq_ & Eq & Hin).
    destruct (decide (q = p)) as [->|Hqp].
    + eexists. rewrite lookup_insert_eq. split; [done|]. simpl. apply elem_of_app. left. congruence.
    + exists eq_. rewrite lookup_insert_ne by done. rewrite lookup_insert_ne; [done|].
      intros ->. congruence.
  - intros x e c. rewrite !lookup_insert_Some. intros Hx Hc.
    destruct Hx as [[-> <-]|[Hxp [[-> <-]|[Hxn Hx]]]]; simpl in Hc.
    + apply elem_of_app in Hc as [Hc|Hc].
      * destruct (en_down m Hm _ _ _ Hp Hc). auto.
      * apply list_elem_of_singleton in Hc as ->. split; [done|].
        rewrite lookup_insert_ne by done. rewrite lookup_insert_eq. eauto.
    + by apply not_elem_of_nil in Hc.
    + destruct (en_down m Hm _ _ _ Hx Hc). auto.
  - intros x e. rewrite !lookup_insert_Some.
    intros [[-> <-]|[Hxp [[-> <-]|[Hxn Hx]]]]; simpl.
    + apply NoDup_app. split_and!; [by eapply en_nodup| |by apply NoDup_singleton].
      intros y Hy ->%list_elem_of_singleton. done.
    + constructor.
    + by eapply en_nodup.
Qed.

Lemma tablesOf_root (m : Entries) n :
  m !! [] = None → tablesOf (<[[] := mkEntry None [] noTables]> m) n = tablesOf m n.
Proof.
  intros H. unfold tablesOf. rewrite lookup_insert. case_decide; [|done]. subst. by rewrite H.
Qed.
Lemma tablesOf_child (m : Entries) n p ep x :
  m !! n = None → m !! p = Some ep → n ≠ p → tablesOf (addChild m n p ep) x = tablesOf m x.
Proof.
  intros Hn Hp Hne. unfold tablesOf, addChild. rewrite !lookup_insert.
  repeat case_decide; subst; simpl; [by rewrite Hp|by rewrite Hn|done].
Qed.

(** ** lookup *)

Lemma setParent_run nt n p e ep :
  nt_entries nt !! n = Some e → e_parent e = None → parentName n = Some p →
  nt_entries nt !! p = Some ep →
  setParent n p nt = Ok (tt, mkNameTree (nt_ht nt)
    (<[p := mkEntry (e_parent ep) (e_children ep ++ [n]) (e_tables ep)]>
       (<[n := mkEntry (Some p) (e_children e) (e_tables e)]> (nt_entries nt)))).
Proof.
  intros Hn He Hp Hep. unfold setParent, entry, setEntry. munfold. rewrite Hn.
  cbn [deref]. munfold. rewrite !assertM_true.
  - cbn [nt_entries]. rewrite lookup_insert_ne by by eapply parentName_ne. rewrite Hep. done.
  - by apply bool_decide_true.
  - apply bool_decide_true. by intros ->.
  - by apply bool_decide_true.
Qed.

(** One iteration of [lookup]. *)
Lemma lookup_step nt name len i :
  nt_inv nt → i ≤ len → len ≤ length name → i ≤ getMaxDepth →
  (∀ j, i = S j → is_Some (nt_entries nt !! take j name)) →
  let parent := match i with O => None | S j => Some (take j name) end in
  ∃ nt',
    ('(node, isNew) ← nt_insert name i (computeHashes HashFunc name len);
     (match isNew, parent with true, Some p => setParent node p | _, _ => mret tt end);;
     mret node) nt = Ok (take i name, nt') ∧
    nt_inv nt' ∧ (∀ n, tablesAt nt' n = tablesAt nt n) ∧
    (∀ n, is_Some (nt_entries nt' !! n) ↔ is_Some (nt_entries nt !! n) ∨ n = take i name).
Proof.
  intros Hi Hil Hl Hd Hpar. cbv zeta.
  destruct (ht_insert_spec HashFunc (nt_ht nt) name len i) as (ht' & Eins & Hht & Hperm);
    [apply Hi|done|done|].
  assert (∀ n, n ∈ ht_names ht' ↔ is_Some (nt_entries nt !! n) ∨ n = take i name) as Hdom.
  { intros n. rewrite Hperm, elem_of_app. clear Hperm.
    rewrite <-(ni_dom nt Hi n). pose proof (ni_dom nt Hi (take i name)) as Hd'.
    clear Eins. destruct (decide (take i name ∈ ht_names (nt_ht nt)));
      rewrite ?elem_of_cons, ?elem_of_nil; naive_solver. }
  clear Hperm. unfold nt_insert. munfold. rewrite Eins. cbn [deref node_name]. munfold. cbn [node_name].
  case_bool_decide as Hnew.
  - assert (nt_entries nt !! take i name = None) as Hnone.
    { apply eq_None_not_Some. by rewrite <-(ni_dom nt Hi). }
    destruct i as [|j].
    + rewrite take_0 in *. eexists. split; [done|]. unfold tablesAt. simpl.
      assert (∀ n, is_Some (<[[] := mkEntry None [] noTables]> (nt_entries nt) !! n)
                ↔ is_Some (nt_entries nt !! n) ∨ n = []) as Hd'.
      { intros n. rewrite lookup_insert. case_decide; naive_solver. }
      split_and!; [|by intros; apply tablesOf_root|done]. split; simpl; [done| |].
      * intros n. by rewrite Hdom, Hd'.
      * apply ent_inv_root; [apply Hi|done].
    + destruct (Hpar j eq_refl) as [ep Hep].
      pose proof (parentName_take name j ltac:(lia)) as Hpn.
      pose proof (parentName_ne _ _ Hpn) as Hne.
      rewrite (setParent_run _ _ _ (mkEntry None [] noTables) ep); cbn [nt_entries];
        [|apply lookup_insert_eq|done|done|by rewrite lookup_insert_ne].
      eexists. split; [done|]. cbn [e_children e_tables].
      rewrite insert_insert_eq. fold (addChild (nt_entries nt) (take (S j) name) (take j name) ep).
      assert (∀ n, is_Some (addChild (nt_entries nt) (take (S j) name) (take j name) ep !! n)
                ↔ is_Some (nt_entries nt !! n) ∨ n = take (S j) name) as Hd'.
      { intros n. unfold addChild. rewrite !lookup_insert. repeat case_decide; naive_solver. }
      unfold tablesAt. cbn [nt_entries].
      split_and!; [|by intros; apply tablesOf_child|done]. split; simpl; [done| |].
      * intros n. rewrite Hdom. symmetry. apply Hd'.
      * apply ent_inv_child; [apply Hi|done|done|done|]. rewrite length_take. lia.
  - eexists. split; [done|]. unfold tablesAt. cbn [nt_entries].
    assert (is_Some (nt_entries nt !! take i name)) as Hsome.
    { rewrite <-(ni_dom nt Hi). destruct (decide (take i name ∈ ht_names (nt_ht nt))); [done|tauto]. }
    split_and!; [|done|naive_solver]. split; simpl; [done| |apply Hi].
    intros n. rewrite Hdom. naive_solver.
Qed.

Lemma lookup_loop_spec name len todo : ∀ i nt,
  nt_inv nt → i + todo = len → len ≤ length name → len ≤ getMaxDepth →
  (∀ j, i = S j → is_Some (nt_entries nt !! take j name)) →
  ∃ nt',
    lookup_loop name (computeHashes HashFunc name len) todo i
      (match i with O => None | S j => Some (take j name) end) nt = Ok (take len name, nt') ∧
    nt_inv nt' ∧ (∀ n, tablesAt nt' n = tablesAt nt n) ∧
    (∀ n, is_Some (nt_entries nt' !! n) ↔
          is_Some (nt_entries nt !! n) ∨ ∃ k, i ≤ k ≤ len ∧ n = take k name).
Proof.
  induction todo as [|todo IH]; intros i nt Hi Hlen Hl Hd Hpar.
  - destruct (lookup_step nt name len i) as (nt' & Hrun & Hi' & Ht & Hdom); [done|lia..|done|].
    exists nt'. replace i with len in * by lia. cbn [lookup_loop]. split; [exact Hrun|].
    split_and!; [done|done|]. intros n. rewrite Hdom. split.
    + intros [?|?]; [by left|right]. exists len. split; [lia|done].
    + intros [?|(k & ? & ->)]; [by left|right]. f_equal. lia.
  - destruct (lookup_step nt name len i) as (nt' & Hrun & Hi' & Ht & Hdom); [done|lia..|done|].
    destruct (IH (S i) nt') as (nt2 & Hrun2 & Hi2 & Ht2 & Hdom2); [done|lia..| |].
    { intros j [= <-]. apply Hdom. by right. }
    exists nt2. split_and!; [|done|by intros; rewrite Ht2|].
    + cbn [lookup_loop]. revert Hrun. munfold.
      destruct (nt_insert name i _ nt) as [[[node isNew] nt1]|]; [|done].
      destruct ((match isNew, _ with true, Some p => setParent node p | _, _ => _ end) nt1)
        as [[[] nt1']|]; [|done]. by intros [= -> ->].
    + intros n. rewrite Hdom2, Hdom. split.
      * intros [[?|?]|(k & ? & ->)]; [by left|right; exists i|right; exists k]; (split; [lia|done]).
      * intros [?|(k & ? & ->)]; [auto|]. destruct (decide (k = i)) as [->|]; [auto|].
        right. exists k. split; [lia|done].
Qed.

Lemma nt_lookup_spec nt name k :
  nt_inv nt → k ≤ length name → k ≤ getMaxDepth →
  ∃ nt', nt_lookup name k nt = Ok (take k name, nt') ∧
    nt_inv nt' ∧ (∀ n, tablesAt nt' n = tablesAt nt n) ∧
    (∀ n, is_Some (nt_entries nt' !! n) ↔
          is_Some (nt_entries nt !! n) ∨ ∃ j, j ≤ k ∧ n = take j name).
Proof.
  intros Hi Hk Hd. destruct (lookup_loop_spec name k k 0 nt) as (nt' & Hrun & Hi' & Ht & Hdom);
    [done|lia..|done|]. exists nt'. split_and!; [|done|done|].
  - unfold nt_lookup. munfold. rewrite !assertM_true by by apply bool_decide_true. exact Hrun.
  - intros n. rewrite Hdom. split; (intros [?|(j & ? & ?)]; [by left|right; exists j]);
      (split; [lia|done]).
Qed.

(** ** eraseIfEmpty *)

Lemma elem_of_eraseFirst n l x : NoDup l → x ∈ eraseFirst n l ↔ x ∈ l ∧ x ≠ n.
Proof.
  induction 1 as [|y l Hy Hl IH]; simpl; [set_solver|].
  case_decide as E; [subst|]; rewrite ?elem_of_cons, ?IH; naive_solver.
Qed.
Lemma NoDup_eraseFirst n l : NoDup l → NoDup (eraseFirst n l).
Proof.
  induction 1 as [|y l Hy Hl IH]; simpl; [constructor|].
  case_decide; [done|]. constructor; [|done]. rewrite elem_of_eraseFirst by done. tauto.
Qed.

Definition dropChild (n : Name) (e : Entry T) : Entry T :=
  mkEntry (e_parent e) (eraseFirst n (e_children e)) (e_tables e).
(** The map after the leaf [n] is unlinked and deleted. *)
Definition removeLeaf (m : Entries) (n : Name) : Entries :=
  delete n (match parentName n with Some p => alter (dropChild n) p m | None => m end).

Lemma lookup_removeLeaf (m : Entries) n x :
  removeLeaf m n !! x =
    if decide (x = n) then None
    else if decide (parentName n = Some x) then dropChild n <$> m !! x else m !! x.
Proof.
  unfold removeLeaf. case_decide as E1; [subst; apply lookup_delete_eq|].
  rewrite lookup_delete_ne by done. destruct (parentName n) as [p|].
  - rewrite lookup_alter. case_decide as E2; case_decide as E3; simplify_eq; done.
  - by rewrite decide_False by done.
Qed.

Lemma removeLeaf_Some (m : Entries) n x e' :
  removeLeaf m n !! x = Some e' →
  x ≠ n ∧ ∃ e, m !! x = Some e ∧ e_parent e' = e_parent e ∧ e_tables e' = e_tables e ∧
    ((parentName n = Some x ∧ e_children e' = eraseFirst n (e_children e)) ∨
     (parentName n ≠ Some x ∧ e_children e' = e_children e)).
Proof.
  rewrite lookup_removeLeaf. repeat case_decide; [done|..].
  - destruct (m !! x) as [e|]; simpl; [|done]. intros [= <-]. split; [done|]. exists e. naive_solver.
  - intros E. split; [done|]. exists e'. naive_solver.
Qed.

Lemma ent_inv_removeLeaf (m : Entries) n e :
  ent_inv m → m !! n = Some e → e_children e = [] → ent_inv (removeLeaf m n).
Proof.
  intros Hm Hn Hleaf.
  assert (∀ x, is_Some (m !! x) → x ≠ n → is_Some (removeLeaf m n !! x)) as Hkeep.
  { intros x Hx Hxn. rewrite lookup_removeLeaf, decide_False by done. case_decide; [|done].
    by apply fmap_is_Some. }
  split.
  - intros x e' (_ & e0 & E & _)%removeLeaf_Some. by eapply en_depth.
  - intros x e' (_ & e0 & E & -> & _)%removeLeaf_Some. by eapply en_parent.
  - intros x q [e' (Hxn & e0 & E & _)%removeLeaf_Some] Hq.
    destruct (en_up m Hm x q ltac:(eauto) Hq) as (eq_ & Eq & Hin).
    assert (q ≠ n) as Hqn.
    { intros ->. rewrite Hn in Eq. injection Eq as <-. rewrite Hleaf in Hin. by apply not_elem_of_nil in Hin. }
    destruct (Hkeep q ltac:(eauto) Hqn) as [eq' Eq'].
    pose proof Eq' as (_ & e1 & E1 & _ & _ & Hch)%removeLeaf_Some. rewrite Eq in E1. injection E1 as <-.
    exists eq'. split; [done|]. destruct Hch as [[_ ->]|[_ ->]]; [|done].
    apply elem_of_eraseFirst; [by eapply en_nodup|done].
  - intros x e' c (Hxn & e0 & E & _ & _ & Hch)%removeLeaf_Some Hc.
    assert (c ∈ e_children e0 ∧ c ≠ n) as [Hc0 Hcn].
    { destruct Hch as [[Hp Hch]|[Hp Hch]]; rewrite Hch in Hc.
      - apply elem_of_eraseFirst in Hc; [done|by eapply en_nodup].
      - split; [done|]. intros ->. by destruct (en_down m Hm x e0 n E Hc). }
    destruct (en_down m Hm x e0 c E Hc0). auto.
  - intros x e' (_ & e0 & E & _ & _ & [[_ ->]|[_ ->]])%removeLeaf_Some;
      [apply NoDup_eraseFirst|]; by eapply en_nodup.
Qed.

Lemma noTableEntries_spec (t : T) : noTableEntries t = true ↔ t = noTables.
Proof. by destruct t as [[] [] [] []]. Qed.

Lemma tablesOf_removeLeaf (m : Entries) n e x :
  m !! n = Some e → e_tables e = noTables → tablesOf (removeLeaf m n) x = tablesOf m x.
Proof.
  intros Hn He. unfold tablesOf. rewrite lookup_removeLeaf. repeat case_decide; subst.
  - by rewrite Hn.
  - by destruct (m !! x).
  - done.
Qed.

Definition eraseStep (n : Name) (nt : NT) : NT :=
  mkNameTree (ht_erase (nt_ht nt) (getNode n)) (removeLeaf (nt_entries nt) n).

Lemma eraseStep_inv nt n e :
  nt_inv nt → nt_entries nt !! n = Some e → isEmpty e = true →
  nt_inv (eraseStep n nt) ∧ (∀ x, tablesAt (eraseStep n nt) x = tablesAt nt x) ∧
  (∀ x, is_Some (nt_entries (eraseStep n nt) !! x) ↔ is_Some (nt_entries nt !! x) ∧ x ≠ n).
Proof.
  intros Hi Hn Hemp. unfold isEmpty in Hemp. destruct (e_children e) eqn:Hch; [|done].
  apply noTableEntries_spec in Hemp.
  assert (∀ x, is_Some (removeLeaf (nt_entries nt) n !! x) ↔
    is_Some (nt_entries nt !! x) ∧ x ≠ n) as Hdom.
  { intros x. rewrite lookup_removeLeaf. repeat case_decide; rewrite ?fmap_is_Some; [|tauto..].
    split; [by intros []|tauto]. }
  assert (getNode n ∈ ht_nodes (nt_ht nt)) as Hin.
  { assert (n ∈ ht_names (nt_ht nt)) as Hnm by (rewrite (ni_dom nt Hi); eauto).
    unfold ht_names in Hnm. apply list_elem_of_fmap in Hnm as ([h m] & -> & Hm). simpl.
    pose proof Hm as (i & l & Hl & Hx)%elem_of_concat_lookup.
    destruct (proj2 (hi_placed _ _ (ni_ht nt Hi)) i l _ Hl Hx) as [Hh _]. simpl in Hh.
    unfold getNode. by rewrite <-Hh. }
  destruct (ht_erase_spec HashFunc (nt_ht nt) _ (ni_ht nt Hi) Hin) as [Hht Hp].
  split_and!; [|by intros; eapply tablesOf_removeLeaf|done].
  split; simpl; [done| |by eapply ent_inv_removeLeaf; [apply Hi| |]].
  intros x. rewrite Hdom, <-(ni_dom nt Hi).
  pose proof (hi_nodup _ _ (ni_ht nt Hi)) as Hnd. rewrite <-Hp in Hnd |- *.
  simpl in *. apply NoDup_cons in Hnd as [Hnin _].
  rewrite elem_of_cons. split; [intros Hx; split; [by right|]; by intros ->|tauto].
Qed.

(** An iteration of the loop on an empty entry does [eraseStep]. *)
Lemma eraseIfEmpty_run nt n e (b : bool) fuel k :
  nt_inv nt → nt_entries nt !! n = Some e → isEmpty e = true →
  eraseIfEmpty_loop (S fuel) (Some n) b k nt =
    if b then eraseIfEmpty_loop fuel (parentName n) b (S k) (eraseStep n nt)
    else Ok (S k, eraseStep n nt).
Proof.
  intros Hi Hn Hemp. cbn [eraseIfEmpty_loop]. unfold entry. munfold. rewrite Hn. cbn [deref]. munfold.
  rewrite Hemp, (en_parent _ (ni_ent nt Hi) n e Hn). unfold eraseStep, removeLeaf.
  destruct (parentName n) as [p|] eqn:Hp.
  - destruct (en_up _ (ni_ent nt Hi) n p ltac:(eauto) Hp) as (ep & Ep & Hin).
    pose proof (parentName_ne _ _ Hp) as Hne.
    unfold unsetParent, entry, setEntry. munfold. rewrite Hn. cbn [deref]. munfold.
    rewrite (en_parent _ (ni_ent nt Hi) n e Hn), Hp. munfold. rewrite Ep. cbn [deref]. munfold.
    rewrite assertM_true by by apply bool_decide_true. cbn [nt_entries nt_ht].
    rewrite lookup_insert_ne, Hn by done. cbn [deref]. munfold. cbn [nt_entries nt_ht].
    rewrite lookup_insert_eq. cbn [deref]. munfold. cbn [e_parent].
    rewrite assertM_true by by apply bool_decide_true. munfold.
    assert (∀ v, delete n (<[n := v]> (<[p := dropChild n ep]> (nt_entries nt)))
              = delete n (alter (dropChild n) p (nt_entries nt))) as Hm.
    { intros v. apply map_eq. intros x. destruct (decide (x = n)) as [->|].
      - by rewrite !lookup_delete_eq.
      - rewrite !lookup_delete_ne, lookup_insert_ne, lookup_insert, lookup_alter by done.
        case_decide; [subst; by rewrite Ep|done]. }
    cbn [nt_entries nt_ht]. unfold dropChild in Hm at 1. rewrite Hm. by destruct b.
  - munfold. rewrite Hn. cbn [deref]. munfold.
    rewrite (en_parent _ (ni_ent nt Hi) n e Hn), Hp, assertM_true by by apply bool_decide_true.
    by destruct b.
Qed.

(** A proper prefix of an entry has a child, so it is not empty; and it has
    an entry. *)
Lemma prefix_child (m : Entries) x r c :
  ent_inv m → is_Some (m !! (x ++ r ++ [c])) →
  ∃ e d, m !! x = Some e ∧ d ∈ e_children e.
Proof.
  intros Hm. revert c. induction r as [|d r IH] using rev_ind; intros c Hs.
  - destruct (en_up m Hm _ x Hs) as (e & ? & ?); [apply parentName_snoc|]. eauto.
  - apply (IH d). destruct (en_up m Hm _ (x ++ r ++ [d]) Hs) as (e & ? & ?); [|eauto].
    rewrite app_assoc. apply parentName_snoc.
Qed.
Lemma has_child_not_empty (m : Entries) n x e :
  ent_inv m → m !! x = Some e → is_Some (m !! n) → x `prefix_of` n → x ≠ n → isEmpty e = false.
Proof.
  intros Hm Hx Hn [r ->] Hne. destruct r as [|c r _] using rev_ind; [by rewrite app_nil_r in Hne|].
  destruct (prefix_child m x r c Hm Hn) as (e' & d & E & Hd). unfold isEmpty.
  rewrite Hx in E. injection E as <-. destruct (e_children e); [by apply not_elem_of_nil in Hd|done].
Qed.
Lemma ent_inv_prefix (m : Entries) n x :
  ent_inv m → is_Some (m !! n) → x `prefix_of` n → is_Some (m !! x).
Proof.
  intros Hm Hn [r ->]. destruct r as [|c r _] using rev_ind; [by rewrite app_nil_r in Hn|].
  destruct (prefix_child m x r c Hm Hn) as (e' & d & E & Hd). eauto.
Qed.

Lemma eraseIfEmpty_loop_spec fuel : ∀ n nt b k,
  nt_inv nt → is_Some (nt_entries nt !! n) → length n < fuel →
  ∃ k' nt', eraseIfEmpty_loop fuel (Some n) b k nt = Ok (k', nt') ∧
    nt_inv nt' ∧ (∀ x, tablesAt nt' x = tablesAt nt x) ∧
    (∀ x, is_Some (nt_entries nt' !! x) → is_Some (nt_entries nt !! x)) ∧
    (∀ x, is_Some (nt_entries nt !! x) → ~ x `prefix_of` n → is_Some (nt_entries nt' !! x)) ∧
    (b = true → ∀ x e, nt_entries nt' !! x = Some e → x `prefix_of` n → isEmpty e = false).
Proof.
  induction fuel as [|fuel IH]; intros n nt b k Hi [e Hn] Hf; [lia|].
  destruct (isEmpty e) eqn:Hemp.
  - rewrite (eraseIfEmpty_run nt n e) by done.
    destruct (eraseStep_inv nt n e Hi Hn Hemp) as (Hi' & Ht & Hdom).
    assert (∀ x, is_Some (nt_entries nt !! x) → ~ x `prefix_of` n →
      is_Some (nt_entries (eraseStep n nt) !! x)) as Hkeep.
    { intros x Hx Hp. apply Hdom. split; [done|]. by intros ->. }
    assert (∀ x, is_Some (nt_entries (eraseStep n nt) !! x) → is_Some (nt_entries nt !! x)) as Hsub.
    { intros x Hx. by apply Hdom in Hx as [? _]. }
    destruct b; [|by exists (S k), (eraseStep n nt)].
    destruct (parentName n) as [p|] eqn:Hp.
    + pose proof (parentName_length _ _ Hp) as Hpl.
      assert (p `prefix_of` n) as Hpn.
      { destruct n; [done|]. injection Hp as <-. apply prefix_take. }
      destruct (IH p (eraseStep n nt) true (S k)) as (k' & nt' & Hrun & Hi2 & Ht2 & Hd2 & Hk2 & Hf2);
        [done| |lia|].
      { apply Hdom. split; [|by eapply not_eq_sym, parentName_ne].
        destruct (en_up _ (ni_ent nt Hi) n p ltac:(eauto) Hp) as (ep & -> & _). eauto. }
      exists k', nt'. split_and!; [done|done|by intros; rewrite Ht2|by auto| |].
      * intros x Hx Hnp. apply Hk2; [by apply Hkeep|]. intros ?. apply Hnp. by etransitivity.
      * intros _ x e' Hx Hxn. apply (Hf2 eq_refl x e' Hx).
        assert (x ≠ n) as Hne by (apply Hdom; apply Hd2; eauto).
        destruct Hxn as [r ->]. destruct r as [|c r] using rev_ind; [by rewrite app_nil_r in Hne|].
        assert (p = x ++ r) as ->; [|by eexists].
        rewrite app_assoc, parentName_snoc in Hp. congruence.
    + assert (n = []) as -> by by destruct n.
      exists (S k), (eraseStep [] nt). split_and!; [by destruct fuel|done|done|done|done|].
      intros _ x e' Hx [r Hr]. symmetry in Hr. apply app_eq_nil in Hr as [-> _].
      destruct (proj1 (Hdom []) ltac:(eauto)) as [_ ?]. done.
  - exists k, nt. cbn [eraseIfEmpty_loop]. unfold entry. munfold. rewrite Hn. cbn [deref]. munfold.
    rewrite Hemp. split_and!; try done. intros _ x e' Hx Hxn.
    destruct (decide (x = n)) as [->|Hne]; [congruence|].
    eapply has_child_not_empty; [apply Hi|done| |done|done]. eauto.
Qed.

Lemma eraseIfEmpty_spec nt n b :
  nt_inv nt → is_Some (nt_entries nt !! n) →
  ∃ k nt', eraseIfEmpty n b nt = Ok (k, nt') ∧
    nt_inv nt' ∧ (∀ x, tablesAt nt' x = tablesAt nt x) ∧
    (∀ x, is_Some (nt_entries nt' !! x) → is_Some (nt_entries nt !! x)) ∧
    (∀ x, is_Some (nt_entries nt !! x) → ~ x `prefix_of` n → is_Some (nt_entries nt' !! x)) ∧
    (b = true → ∀ x e, nt_entries nt' !! x = Some e → x `prefix_of` n → isEmpty e = false).
Proof. intros Hi Hn. apply eraseIfEmpty_loop_spec; [done|done|lia]. Qed.

(** ** Lookups *)

Lemma ht_names_entries nt n : nt_inv nt → n ∈ ht_names (nt_ht nt) ↔ is_Some (nt_entries nt !! n).
Proof. intros Hi. apply Hi. Qed.

Lemma findExactMatch_spec nt name k :
  nt_inv nt →
  findExactMatch nt name k =
    if decide (is_Some (nt_entries nt !! take k name)) then Some (take k name) else None.
Proof.
  intros Hi. unfold findExactMatch. case_decide as Hd.
  - rewrite decide_False; [done|]. intros [e He]. pose proof (en_depth _ (ni_ent nt Hi) _ _ He) as Hl.
    rewrite length_take in Hl. lia.
  - rewrite ht_find_spec by (apply Hi || lia).
    assert (take (length name `min` k) name = take k name) as ->.
    { destruct (decide (k ≤ length name)); [by rewrite Nat.min_r|].
      rewrite Nat.min_l by lia. by rewrite !take_ge by lia. }
    destruct (decide (take k name ∈ _)) as [Hin|Hin]; rewrite (ht_names_entries nt _ Hi) in Hin.
    + by rewrite decide_True.
    + by rewrite decide_False.
Qed.

(** The prefixes of [name] of at most [k] components, longest first: the
    reference for the prefix matches. *)
Fixpoint prefixesDown (name : Name) (k : nat) : list Name :=
  take k name :: match k with O => [] | S k' => prefixesDown name k' end.

Lemma selects_Some sel nt n :
  selects sel nt n = true → ∃ e, nt_entries nt !! n = Some e ∧ sel n e = true.
Proof. unfold selects. destruct (nt_entries nt !! n); [eauto|done]. Qed.

Lemma selects_absent nt sel n :
  nt_inv nt → n ∉ ht_names (nt_ht nt) → selects sel nt n = false.
Proof.
  intros Hi Hin. rewrite (ht_names_entries nt _ Hi) in Hin. unfold selects.
  destruct (nt_entries nt !! n); [|done]. destruct Hin. eauto.
Qed.

Lemma lpm_loop_spec nt sel name len k :
  nt_inv nt → k ≤ len → len ≤ length name →
  lpm_loop nt sel name (computeHashes HashFunc name len) k =
    List.find (selects sel nt) (prefixesDown name k).
Proof.
  intros Hi Hk Hlen. induction k as [|k IH]; simpl lpm_loop; cbn [prefixesDown List.find];
    rewrite (ht_find_seq_spec HashFunc), ht_find_spec by (lia || apply Hi).
  all: case_decide as Hin; cbn [node_name]; [by destruct (selects _ _ _); [|rewrite ?IH by lia]|].
  all: by rewrite (selects_absent nt sel _ Hi Hin), ?IH by lia.
Qed.

(** Prefixes below the depth of the tree have no entry. *)
Lemma prefixesDown_min (f : Name → bool) name k k' :
  k' ≤ k → (∀ j, k' < j ≤ k → f (take j name) = false) →
  List.find f (prefixesDown name k) = List.find f (prefixesDown name k') ∧
  filter f (prefixesDown name k) = filter f (prefixesDown name k').
Proof.
  intros Hk. induction Hk as [|k Hk IH]; intros Hf; [done|].
  cbn [prefixesDown List.find]. rewrite filter_cons, Hf by lia. simpl. apply IH. intros. apply Hf. lia.
Qed.
Lemma selects_depth nt sel name j :
  nt_inv nt → getMaxDepth < j ≤ length name → selects sel nt (take j name) = false.
Proof.
  intros Hi Hj. destruct (selects _ _ _) eqn:E; [|done].
  apply selects_Some in E as (e & He & _). apply (en_depth _ (ni_ent nt Hi)) in He.
  rewrite length_take in He. lia.
Qed.

Lemma findLongestPrefixMatch_spec nt sel name :
  nt_inv nt →
  findLongestPrefixMatch nt sel name = List.find (selects sel nt) (prefixesDown name (length name)).
Proof.
  intros Hi. unfold findLongestPrefixMatch. rewrite lpm_loop_spec by (done || lia).
  symmetry. apply prefixesDown_min; [lia|]. intros j Hj. apply selects_depth; [done|lia].
Qed.

Lemma take_parent name k : S k ≤ length name → parentName (take (S k) name) = Some (take k name).
Proof. apply parentName_take. Qed.

Lemma up_parent nt name k :
  nt_inv nt → k ≤ length name → is_Some (nt_entries nt !! take k name) →
  nt_entries nt !! take k name ≫= e_parent = match k with O => None | S j => Some (take j name) end
  ∧ ∀ j, j ≤ k → is_Some (nt_entries nt !! take j name).
Proof.
  intros Hi Hk [e He]. split.
  - rewrite He. simpl. rewrite (en_parent _ (ni_ent nt Hi) _ _ He). destruct k; [done|].
    by apply parentName_take.
  - intros j Hj. eapply ent_inv_prefix; [apply Hi|eauto|]. exists (drop j (take k name)).
    rewrite <-(take_drop j (take k name)) at 1. by rewrite take_take, Nat.min_l.
Qed.

Lemma lpm_up_spec nt sel name k fuel :
  nt_inv nt → k ≤ length name → k < fuel → is_Some (nt_entries nt !! take k name) →
  lpm_up fuel nt sel (Some (take k name)) = List.find (selects sel nt) (prefixesDown name k) ∧
  matches_up fuel nt sel (Some (take k name)) = filter (selects sel nt) (prefixesDown name k).
Proof.
  intros Hi. revert k. induction fuel as [|fuel IH]; intros k Hk Hf Hs; [lia|].
  destruct (up_parent nt name k Hi Hk Hs) as [Hup Hpre].
  cbn [lpm_up matches_up]. rewrite Hup. destruct k as [|k]; cbn [prefixesDown List.find]; rewrite filter_cons.
  - by destruct (selects sel nt (take 0 name)), fuel.
  - destruct (IH k) as [-> ->]; [lia|lia|apply Hpre; lia|].
    by destruct (selects sel nt (take (S k) name)).
Qed.

Lemma findLongestPrefixMatch_entry_spec nt sel n :
  nt_inv nt → is_Some (nt_entries nt !! n) →
  findLongestPrefixMatch_entry nt sel n = findLongestPrefixMatch nt sel n.
Proof.
  intros Hi Hn. rewrite findLongestPrefixMatch_spec by done. unfold findLongestPrefixMatch_entry.
  rewrite <-(firstn_all n) at 2. apply lpm_up_spec; [done|lia|lia|]. by rewrite firstn_all.
Qed.

Lemma find_filter_first (f : Name → bool) name k :
  match List.find f (prefixesDown name k) with
  | Some n => ∃ j, n = take j name ∧ j ≤ k ∧ f n = true ∧
      filter f (prefixesDown name k) = filter f (prefixesDown name j)
  | None => filter f (prefixesDown name k) = []
  end.
Proof.
  induction k as [|k IH]; cbn [prefixesDown List.find]; rewrite filter_cons.
  - destruct (f (take 0 name)) eqn:E; [|done]. exists 0. split_and!; [done|lia|done|].
    cbn [prefixesDown]. rewrite filter_cons. by rewrite E.
  - destruct (f (take (S k) name)) eqn:E; cbn [decide].
    + exists (S k). split_and!; [done|lia|done|]. cbn [prefixesDown]. rewrite filter_cons. by rewrite E.
    + destruct (List.find f _) as [n|]; [|done]. destruct IH as (j & ? & ? & ? & ?).
      exists j. split_and!; [done|lia|done|done].
Qed.

Lemma findAllMatches_spec nt sel name :
  nt_inv nt →
  findAllMatches nt sel name = filter (selects sel nt) (prefixesDown name (length name)).
Proof.
  intros Hi. unfold findAllMatches. rewrite findLongestPrefixMatch_spec by done.
  pose proof (find_filter_first (selects sel nt) name (length name)) as H.
  destruct (List.find _ _) as [n|]; [|by rewrite H].
  destruct H as (j & -> & Hj & Hs & ->). apply selects_Some in Hs as (e & He & _).
  apply lpm_up_spec; [done|lia|lia|eauto].
Qed.

(** The descent of the PIT variant stops at the deepest entry along the name. *)
Lemma lpm_deeper_spec nt name todo : ∀ k,
  nt_inv nt → k + todo = length name `min` getMaxDepth → is_Some (nt_entries nt !! take k name) →
  ∃ j, lpm_deeper nt name (take k name) (S k) todo = take j name ∧ j ≤ length name ∧
    is_Some (nt_entries nt !! take j name) ∧
    ∀ i, j < i ≤ length name → nt_entries nt !! take i name = None.
Proof.
  induction todo as [|todo IH]; intros k Hi Hk Hs; cbn [lpm_deeper].
  - exists k. split_and!; [done|lia|done|]. intros i Hlt.
    destruct (nt_entries nt !! take i name) eqn:E; [|done].
    apply (en_depth _ (ni_ent nt Hi)) in E. rewrite length_take in E. lia.
  - rewrite findExactMatch_spec by done. case_decide as Hd.
    + apply IH; [done|lia|done].
    + exists k. split_and!; [done|lia|done|]. intros i Hlt.
      destruct (nt_entries nt !! take i name) eqn:E; [|done]. destruct Hd.
      apply (up_parent nt name i Hi); [lia|eauto|lia].
Qed.

Lemma findLongestPrefixMatch_pit_spec nt sel name nte :
  nt_inv nt → nte `prefix_of` name → is_Some (nt_entries nt !! nte) →
  findLongestPrefixMatch_pit nt sel name nte = findLongestPrefixMatch nt sel name.
Proof.
  intros Hi Hp Hs. unfold findLongestPrefixMatch_pit.
  assert (nte = take (length nte) name) as En.
  { destruct Hp as [r ->]. by rewrite take_app_length. }
  assert (length nte ≤ length name) as Hle by by apply prefix_length.
  assert (length nte ≤ getMaxDepth) as Hmd.
  { destruct Hs as [e He]. by apply (en_depth _ (ni_ent nt Hi)) in He. }
  case_decide as Hd.
  2:{ assert (nte = name) as -> by (rewrite En; by rewrite take_ge by lia).
      by apply findLongestPrefixMatch_entry_spec. }
  destruct (lpm_deeper_spec nt name (length name `min` getMaxDepth - length nte) (length nte))
    as (j & Hj & Hjl & Hjs & Hmax); [done|lia|by rewrite <-En|].
  rewrite <-En in Hj. rewrite Hj, findLongestPrefixMatch_entry_spec by done.
  rewrite !findLongestPrefixMatch_spec, length_take_le by done.
  assert (∀ k, k ≤ j → prefixesDown (take j name) k = prefixesDown name k) as Hpd.
  { induction k as [|k IHk]; intros Hk; simpl prefixesDown; [done|].
    rewrite IHk, take_take, Nat.min_l by lia. done. }
  rewrite Hpd by done. symmetry. apply prefixesDown_min; [done|]. intros i Hlt. unfold selects.
  by rewrite Hmax.
Qed.

Lemma updTables_spec nt n f :
  nt_inv nt → is_Some (nt_entries nt !! n) →
  ∃ nt', updTables n f nt = Ok (tt, nt') ∧ nt_inv nt' ∧
    (∀ x, tablesAt nt' x = if decide (x = n) then f (tablesAt nt n) else tablesAt nt x) ∧
    (∀ x, is_Some (nt_entries nt' !! x) ↔ is_Some (nt_entries nt !! x)).
Proof.
  intros Hi [e Hn]. unfold updTables, entry, setEntry. munfold. rewrite Hn. cbn [deref]. munfold.
  eexists. split; [done|].
  assert (∀ x e', <[n:=mkEntry (e_parent e) (e_children e) (f (e_tables e))]> (nt_entries nt) !! x
      = Some e' → ∃ e0, nt_entries nt !! x = Some e0 ∧ e_parent e' = e_parent e0 ∧
      e_children e' = e_children e0) as Hsame.
  { intros x e'. rewrite lookup_insert_Some. intros [[<- <-]|[_ ?]]; eauto. }
  assert (∀ x, is_Some (<[n:=mkEntry (e_parent e) (e_children e) (f (e_tables e))]> (nt_entries nt) !! x)
    ↔ is_Some (nt_entries nt !! x)) as Hdom.
  { intros x. rewrite lookup_insert_is_Some'. naive_solver. }
  destruct Hi as [Hht Hd [E1 E2 E3 E4 E5]]. split_and!; [split; cbn [nt_ht nt_entries]| |done].
  - done.
  - intros x. by rewrite Hdom.
  - split.
    + intros x e' (e0 & ? & _)%Hsame. eauto.
    + intros x e' (e0 & ? & -> & _)%Hsame. eauto.
    + intros x p Hx%Hdom Hp. destruct (E3 x p Hx Hp) as (ep & Ep & Hin).
      destruct (proj2 (Hdom p) ltac:(eauto)) as [ep' Ep']. exists ep'. split; [done|].
      destruct (Hsame _ _ Ep') as (e0 & E0 & _ & ->). congruence.
    + intros x e' c (e0 & ? & _ & ->)%Hsame Hc. rewrite Hdom. eauto.
    + intros x e' (e0 & ? & _ & ->)%Hsame. eauto.
  - intros x. unfold tablesAt, tablesOf. cbn [nt_entries]. rewrite lookup_insert.
    destruct (decide (n = x)) as [->|]; [by rewrite decide_True, Hn|by rewrite decide_False].
Qed.

(** ** Trees without empty entries

    What [eraseIfEmpty] is for: every entry has a table entry or a child. *)
Definition noEmpty (nt : NT) : Prop := ∀ n e, nt_entries nt !! n = Some e → isEmpty e = false.
(** The same in terms of names: [n] is used by a table or by a longer name. *)
Definition inUse (nt : NT) (n : Name) : Prop :=
  tablesAt nt n ≠ noTables ∨ ∃ c, is_Some (nt_entries nt !! c) ∧ n `prefix_of` c ∧ n ≠ c.

Lemma isEmpty_inUse nt n e :
  nt_inv nt → nt_entries nt !! n = Some e → isEmpty e = false ↔ inUse nt n.
Proof.
  intros Hi Hn. unfold inUse, tablesAt, tablesOf. rewrite Hn. split.
  - unfold isEmpty. destruct (e_children e) as [|c l] eqn:Hc.
    + intros H. left. intros Ht%noTableEntries_spec. congruence.
    + intros _. right. exists c.
      destruct (en_down _ (ni_ent _ Hi) n e c Hn) as [Hp Hs]; [rewrite Hc; by left|].
      split_and!; [done| |by intros ->; apply parentName_ne in Hp].
      destruct c as [|d c' _] using rev_ind; [done|]. rewrite parentName_snoc in Hp.
      injection Hp as ->. by apply prefix_app_r.
  - intros [Ht|(c & Hc & Hp & Hne)].
    + unfold isEmpty. destruct (e_children e); [|done]. apply not_true_iff_false.
      by intros ?%noTableEntries_spec.
    + by eapply has_child_not_empty; [apply Hi|..].
Qed.
Lemma noEmpty_inUse nt :
  nt_inv nt → noEmpty nt ↔ ∀ n, is_Some (nt_entries nt !! n) → inUse nt n.
Proof.
  intros Hi. split.
  - intros H n [e He]. eapply isEmpty_inUse; eauto.
  - intros H n e He. eapply isEmpty_inUse; eauto.
Qed.
(** A tree that grew by the ancestors of a name in use. *)
Lemma noEmpty_grow nt nt' t :
  nt_inv nt → nt_inv nt' → noEmpty nt →
  (∀ x, tablesAt nt x ≠ noTables → tablesAt nt' x ≠ noTables) →
  (∀ x, is_Some (nt_entries nt !! x) → is_Some (nt_entries nt' !! x)) →
  (∀ x, is_Some (nt_entries nt' !! x) → is_Some (nt_entries nt !! x) ∨ x `prefix_of` t) →
  is_Some (nt_entries nt' !! t) → tablesAt nt' t ≠ noTables → noEmpty nt'.
Proof.
  intros Hi Hi' Hne Ht Hup Hdown Hs Hn. apply noEmpty_inUse; [done|]. rewrite noEmpty_inUse in Hne by done.
  intros x [Hx|Hx]%Hdown.
  - destruct (Hne x Hx) as [Hx'|(c & Hc & ? & ?)]; [by left; apply Ht|]. right. exists c. auto.
  - destruct (decide (x = t)) as [->|]; [by left|]. right. by exists t.
Qed.
End nametree.

(** ** The tree as seen by its users *)

Section refinement.
Context (HashFunc : Component → Z) {FibE PitE MeasE ScE : Type}.
Abbreviation T := (Tables FibE PitE MeasE ScE).
Abbreviation NT := (NameTree T).

(** The two ways the tables use the tree: write the slots of the entry of a
    name, which is created with its ancestors when needed; and change the slots of
    an existing entry and drop what became empty. *)
Inductive nt_op : Type :=
| OpWrite (n : Name) (f : T → T)
| OpUpdateAndErase (n : Name) (f : T → T).

Definition nt_exec (op : nt_op) : M NT unit :=
  match op with
  | OpWrite n f => e ← nt_lookup HashFunc n (length n); updTables e f
  | OpUpdateAndErase n f =>
      nt ← get;
      match findExactMatch HashFunc nt n (length n) with
      | None => mret tt
      | Some e => updTables e f;; eraseIfEmpty HashFunc e true;; mret tt
      end
  end.
Fixpoint nt_run (ops : list nt_op) : M NT unit :=
  match ops with [] => mret tt | op :: ops' => nt_exec op;; nt_run ops' end.

(** The specification: a total function from names to slots. *)
Definition upd_fun (n : Name) (f : T → T) (tb : Name → T) : Name → T :=
  fun x => if decide (x = n) then f (tb n) else tb x.
Definition op_spec (op : nt_op) (tb : Name → T) : Name → T :=
  match op with OpWrite n f | OpUpdateAndErase n f => upd_fun n f tb end.
Definition op_name (op : nt_op) : Name :=
  match op with OpWrite n _ | OpUpdateAndErase n _ => n end.
Definition op_ok (op : nt_op) : Prop :=
  length (op_name op) ≤ getMaxDepth ∧
  match op with OpWrite _ _ => True | OpUpdateAndErase _ f => f noTables = noTables end.

Lemma nt_exec_refines op nt :
  nt_inv HashFunc nt → op_ok op →
  ∃ nt', nt_exec op nt = Ok (tt, nt') ∧ nt_inv HashFunc nt' ∧
    (∀ x, tablesAt nt' x = op_spec op (tablesAt nt) x).
Proof.
  intros Hi [Hl Hf]. destruct op as [n f|n f]; simpl in *.
  - destruct (nt_lookup_spec HashFunc nt n (length n)) as (nt1 & H1 & Hi1 & Ht1 & Hd1); [done|lia..|].
    rewrite firstn_all in H1.
    destruct (updTables_spec HashFunc nt1 n f Hi1) as (nt2 & H2 & Hi2 & Ht2 & _).
    { apply Hd1. right. exists (length n). by rewrite firstn_all. }
    exists nt2. munfold. rewrite H1. split_and!; [done|done|].
    intros x. rewrite Ht2. unfold upd_fun. by rewrite !Ht1.
  - munfold. rewrite findExactMatch_spec, firstn_all by done. case_decide as Hs.
    + destruct (updTables_spec HashFunc nt n f Hi Hs) as (nt1 & H1 & Hi1 & Ht1 & Hd1). rewrite H1.
      destruct (eraseIfEmpty_spec HashFunc nt1 n true Hi1) as (k & nt2 & H2 & Hi2 & Ht2 & _);
        [by apply Hd1|]. rewrite H2. exists nt2. split_and!; [done|done|].
      intros x. by rewrite Ht2, Ht1.
    + exists nt. split_and!; [done|done|]. intros x. unfold upd_fun. case_decide as E; [|done].
      subst x. unfold tablesAt, tablesOf. destruct (nt_entries nt !! n) eqn:E; [destruct Hs; eauto|].
      by rewrite Hf.
Qed.

Lemma nt_run_refines ops nt tb :
  nt_inv HashFunc nt → Forall op_ok ops → (∀ x, tablesAt nt x = tb x) →
  ∃ nt', nt_run ops nt = Ok (tt, nt') ∧ nt_inv HashFunc nt' ∧
    (∀ x, tablesAt nt' x = foldl (fun tb op => op_spec op tb) tb ops x).
Proof.
  intros Hi Hok. revert nt tb Hi. induction Hok as [|op ops Hop Hok IH]; intros nt tb Hi Htb.
  - by exists nt.
  - destruct (nt_exec_refines op nt Hi Hop) as (nt1 & H1 & Hi1 & Ht1).
    destruct (IH nt1 (op_spec op tb) Hi1) as (nt2 & H2 & Hi2 & Ht2).
    { intros x. rewrite Ht1. destruct op; simpl; unfold upd_fun; by rewrite !Htb. }
    exists nt2. simpl. munfold. by rewrite H1.
Qed.

Lemma nt_inv_init nBuckets :
  0 < nBuckets → nt_inv HashFunc (NameTree_init nBuckets : NT).
Proof.
  intros Hn. destruct (ht_inv_init HashFunc (defaultOptions nBuckets)) as [Hi E].
  { unfold options_ok. simpl. split_and!; [lia|lia|intros; lia]. }
  split; simpl; [done| |].
  - intros n. rewrite E, lookup_empty. split; [by intros ?%not_elem_of_nil|by intros []].
  - by split; intros *; rewrite lookup_empty; first [done|intros []].
Qed.

(** C24. Refinement: for any number of initial buckets and any hash function,
    any sequence of writes and of updates followed by [eraseIfEmpty] runs
    without a failed assertion or a dangling access, keeps the structural
    invariant (parent pointers and children vectors agree with the names, all
    ancestors present, hashtable consistent), and the slots found at every name
    are those of the specification, a plain function from names to slots: erasing
    empty entries and their ancestors never loses or changes table entries. *)
Theorem nametree_refines_tables nBuckets ops :
  0 < nBuckets → Forall op_ok ops →
  ∃ nt, nt_run ops (NameTree_init nBuckets) = Ok (tt, nt) ∧ nt_inv HashFunc nt ∧
    ∀ x, tablesAt nt x = foldl (fun tb op => op_spec op tb) (fun _ => noTables) ops x.
Proof.
  intros Hn Hok. apply nt_run_refines; [by apply nt_inv_init|done|].
  intros x. unfold tablesAt, tablesOf. simpl. by rewrite lookup_empty.
Qed.

(** [eraseIfEmpty] with ancestors removes the entry and exactly those
    ancestors that become empty: it terminates without a failed assertion, no
    other name loses its entry, no table slot changes, and no empty entry is
    left on the path to the root. *)
Theorem eraseIfEmpty_exact (nt : NT) n :
  nt_inv HashFunc nt → is_Some (nt_entries nt !! n) →
  ∃ k nt', eraseIfEmpty HashFunc n true nt = Ok (k, nt') ∧ nt_inv HashFunc nt' ∧
    (∀ x, tablesAt nt' x = tablesAt nt x) ∧
    (∀ x, is_Some (nt_entries nt' !! x) → is_Some (nt_entries nt !! x)) ∧
    (∀ x, is_Some (nt_entries nt !! x) → is_Some (nt_entries nt' !! x) ∨ x `prefix_of` n) ∧
    (∀ x e, nt_entries nt' !! x = Some e → x `prefix_of` n → isEmpty e = false).
Proof.
  intros Hi Hn. destruct (eraseIfEmpty_spec HashFunc nt n true Hi Hn)
    as (k & nt' & Hrun & Hi' & Ht & Hsub & Hkeep & Hne).
  exists k, nt'. split_and!; [done|done|done|done| |by apply Hne].
  intros x Hx. destruct (decide (x `prefix_of` n)); [by right|left; auto].
Qed.

(** The three longest-prefix matches agree: on a consistent tree,
    [findLongestPrefixMatch] by name (hash probes from the longest prefix), by
    tree entry (parent pointers) and by PIT entry (descent below the attached
    entry, then parent pointers) all return the longest prefix of the name
    whose entry is selected, or null if there is none, and [findAllMatches]
    visits exactly the selected prefixes, longest first; names deeper than the tree
    included. *)
Theorem longestPrefixMatch_agree (nt : NT) sel name nte :
  nt_inv HashFunc nt → is_Some (nt_entries nt !! nte) → nte `prefix_of` name →
  let longest := List.find (selects sel nt) (prefixesDown name (length name)) in
  findLongestPrefixMatch HashFunc nt sel name = longest ∧
  findLongestPrefixMatch_pit HashFunc nt sel name nte = longest ∧
  findLongestPrefixMatch_entry nt sel nte
    = List.find (selects sel nt) (prefixesDown nte (length nte)) ∧
  findAllMatches HashFunc nt sel name
    = filter (selects sel nt) (prefixesDown name (length name)).
Proof.
  intros Hi Hs Hp longest. subst longest. split_and!.
  - by apply findLongestPrefixMatch_spec.
  - rewrite findLongestPrefixMatch_pit_spec by done. by apply findLongestPrefixMatch_spec.
  - rewrite (findLongestPrefixMatch_entry_spec HashFunc) by done.
    by apply findLongestPrefixMatch_spec.
  - by apply findAllMatches_spec.
Qed.
End refinement.

(** A concrete tree: /A/B with a FIB slot on /A. *)
Definition ntA : Component := mkComponent 8 [65%Z].
Definition ntB : Component := mkComponent 8 [66%Z].
Definition setFib (v : option nat) (t : Tables nat nat nat nat) : Tables nat nat nat nat :=
  mkTables v (t_pit t) (t_meas t) (t_sc t).
Definition ntOps : list (nt_op (FibE:=nat) (PitE:=nat) (MeasE:=nat) (ScE:=nat)) :=
  [OpWrite [ntA] (setFib (Some 1)); OpWrite [ntA; ntB] id].
Definition ntSample : NameTree (Tables nat nat nat nat) :=
  match nt_run ctype ntOps (NameTree_init 1) with
  | Ok (_, nt) => nt | Fault _ => NameTree_init 1
  end.

Lemma nametree_refines_tables_witness :
  ∃ nt, nt_run ctype ntOps (NameTree_init 1) = Ok (tt, nt) ∧ nt_inv ctype nt ∧
    tablesAt nt [ntA] = setFib (Some 1) noTables.
Proof.
  destruct (nametree_refines_tables ctype 1 ntOps) as (nt & H1 & H2 & H3).
  - lia.
  - repeat constructor; simpl; unfold getMaxDepth; lia.
  - exists nt. split; [done|]. split; [done|]. rewrite H3. vm_compute. reflexivity.
Defined.

Lemma ntSample_inv : nt_inv ctype ntSample.
Proof.
  destruct (nt_run_refines ctype ntOps (NameTree_init 1) (fun _ => noTables))
    as (nt & H1 & H2 & _).
  - apply nt_inv_init. lia.
  - repeat constructor; simpl; unfold getMaxDepth; lia.
  - intros x. unfold tablesAt, tablesOf. simpl. by rewrite lookup_empty.
  - unfold ntSample. by rewrite H1.
Qed.

Lemma eraseIfEmpty_exact_witness :
  ∃ k nt', eraseIfEmpty ctype [ntA; ntB] true ntSample = Ok (k, nt') ∧ nt_inv ctype nt'.
Proof.
  destruct (eraseIfEmpty_exact ctype ntSample [ntA; ntB] ntSample_inv) as (k & nt' & H1 & H2 & _).
  - vm_compute. eauto.
  - eauto.
Defined.

Lemma longestPrefixMatch_agree_witness :
  findLongestPrefixMatch ctype ntSample (fun _ e => bool_decide (t_fib (e_tables e) = Some 1))
    [ntA; ntB; ntA] = Some [ntA].
Proof.
  destruct (longestPrefixMatch_agree ctype ntSample
    (fun _ e => bool_decide (t_fib (e_tables e) = Some 1)) [ntA; ntB; ntA] [ntA; ntB]
    ntSample_inv) as [-> _].
  - vm_compute. eauto.
  - by exists [ntA].
  - vm_compute. reflexivity.
Defined.
