(* ===== verification/NameEnum.v ===== *)
(** * Enumeration of a subtree of the name tree (NFD [table/name-tree-iterator.cpp])

    [PartialEnumerationImpl] walks a subtree with the parent pointers and the
    vectors of children, and keeps one entry and one bit between two calls.  The
    enumeration visits what a recursive traversal of the subtree lists. *)

From S2P Require Import Prelude Tlv Component Name Hashtable NameTree.

Lemma elem_of_concat_map {A B} (f : A → list B) l x : x ∈ concat (map f l) ↔ ∃ y, y ∈ l ∧ x ∈ f y.
Proof.
  induction l as [|a l IH]; cbn [map concat].
  - split; [by intros ?%elem_of_nil|by intros (y & ?%elem_of_nil & _)].
  - rewrite elem_of_app, IH. setoid_rewrite elem_of_cons. naive_solver.
Qed.
Lemma prefixes_of_same (a b k : Name) : a `prefix_of` k → b `prefix_of` k → length a ≤ length b → a `prefix_of` b.
Proof.
  intros Ha Hb Hl. destruct (prefix_weak_total a b k Ha Hb) as [H|H]; [done|]. destruct H as [r ->].
  rewrite length_app in Hl. destruct r; [by rewrite app_nil_r|simpl in Hl; lia].
Qed.

Section enumeration.
Context {FibE PitE MeasE ScE : Type}.
Abbreviation T := (Tables FibE PitE MeasE ScE).
Abbreviation Entries := (gmap Name (Entry T)).
(** [EntrySubTreeSelector]: whether to visit the entry and its children. *)
Abbreviation Selector := (Name → Entry T → bool * bool).
Context (m : Entries) (pred : Selector).

Definition entryAt (n : Name) : outcome (Entry T) :=
  match m !! n with Some e => Ok e | None => Fault UndefinedBehaviour end.
(** What follows the first occurrence of [n]. *)
Fixpoint afterFirst (n : Name) (l : list Name) : option (list Name) :=
  match l with
  | [] => None
  | x :: l' => if decide (x = n) then Some l' else afterFirst n l'
  end.

(** The outcome of one round of the loop in [advance]: the end of the
    enumeration, a visit with the bit to keep, or the next round. *)
Inductive PeStep : Type :=
| PeEnd
| PeVisit (n : Name) (state : bool)
| PeGo (n : Name) (wantChildren : bool).

(** The inner loop over the siblings. *)
Fixpoint siblings_loop (parent : Name) (l : list Name) : outcome PeStep :=
  match l with
  | [] => Ok (PeGo parent false)
  | d :: l' =>
      e ← entryAt d;
      let '(wantSelf, wantChildren) := pred d e in
      if wantSelf then Ok (PeVisit d wantChildren)
      else if wantChildren then Ok (PeGo d true)
      else siblings_loop parent l'
  end.
Definition pe_round (ref n : Name) (wantChildren : bool) : outcome PeStep :=
  e ← entryAt n;
  match wantChildren, e_children e with
  | true, c :: _ =>
      ec ← entryAt c;
      let '(wantSelf, wantChildren) := pred c ec in
      Ok (if wantSelf : bool then PeVisit c wantChildren else PeGo c wantChildren)
  | _, _ =>
      if bool_decide (n = ref) then Ok PeEnd
      else
        match e_parent e with
        | None => Fault UndefinedBehaviour
        | Some parent =>
            p ← entryAt parent;
            match afterFirst n (e_children p) with
            | None => Fault AssertFailed
            | Some l => siblings_loop parent l
            end
        end
  end.
(** [PartialEnumerationImpl::advance] from a position: the entry that is visited,
    with [m_state], or the end. *)
Fixpoint advance_loop (fuel : nat) (ref n : Name) (wantChildren : bool) : outcome (option (Name * bool)) :=
  match fuel with
  | O => Fault Diverges
  | S fuel' =>
      step ← pe_round ref n wantChildren;
      match step with
      | PeEnd => Ok None
      | PeVisit c state => Ok (Some (c, state))
      | PeGo c w => advance_loop fuel' ref c w
      end
  end.
(** Each entry of the subtree is entered and left at most once. *)
Definition pe_fuel : nat := S (2 * size m).
Definition advance_first (ref : Name) : outcome (option (Name * bool)) :=
  e ← entryAt ref;
  let '(wantSelf, wantChildren) := pred ref e in
  if wantSelf : bool then Ok (Some (ref, wantChildren)) else advance_loop pe_fuel ref ref wantChildren.
Definition advance_next (ref : Name) (at_ : Name * bool) : outcome (option (Name * bool)) :=
  advance_loop pe_fuel ref at_.1 at_.2.

(** The loop of the caller over the iterator range. *)
Fixpoint visits (fuel : nat) (ref : Name) (it : option (Name * bool)) : outcome (list Name) :=
  match it, fuel with
  | None, _ => Ok []
  | Some _, O => Fault Diverges
  | Some (n, state), S fuel' =>
      it' ← advance_next ref (n, state);
      l ← visits fuel' ref it';
      Ok (n :: l)
  end.
Definition enumerate (ref : option Name) : outcome (list Name) :=
  match ref with
  | None => Ok []
  | Some ref => it ← advance_first ref; visits (S pe_fuel) ref it
  end.

(** ** The reference: a recursive traversal *)

(** [h] bounds the height of the subtree. *)
Fixpoint preorder (h : nat) (n : Name) : list Name :=
  match h, m !! n with
  | S h', Some e =>
      let '(wantSelf, wantChildren) := pred n e in
      (if wantSelf then [n] else []) ++
      (if wantChildren then concat (map (preorder h') (e_children e)) else [])
  | _, _ => []
  end.
(** All entries of the subtree. *)
Fixpoint subtree (h : nat) (n : Name) : list Name :=
  match h, m !! n with
  | S h', Some e => n :: concat (map (subtree h') (e_children e))
  | _, _ => []
  end.

(** ** The walk *)

(** From a position the rest of the enumeration visits a list, in [k] rounds. *)
Inductive walks (ref : Name) : nat → Name → bool → list Name → Prop :=
| walks_end n w : pe_round ref n w = Ok PeEnd → walks ref 1 n w []
| walks_visit k n w c state l :
    pe_round ref n w = Ok (PeVisit c state) → walks ref k c state l → walks ref (S k) n w (c :: l)
| walks_go k n w c w' l :
    pe_round ref n w = Ok (PeGo c w') → walks ref k c w' l → walks ref (S k) n w l.

Lemma walks_advance ref k n w l fuel :
  walks ref k n w l → k ≤ fuel →
  match l with
  | [] => advance_loop fuel ref n w = Ok None
  | c :: l' => ∃ state k', advance_loop fuel ref n w = Ok (Some (c, state)) ∧ k' < k ∧ walks ref k' c state l'
  end.
Proof.
  intros Hw. revert fuel. induction Hw as [n w Hr|k n w c state l Hr Hw _|k n w c w' l Hr Hw IH];
    intros [|fuel] Hf; try lia; cbn [advance_loop]; rewrite Hr, bind_Ok;
    [done|exists state, k; split_and!; [done|lia|done]|].
  specialize (IH fuel ltac:(lia)). destruct l as [|d l]; [exact IH|].
  destruct IH as (state & k' & H1 & H2 & H3). exists state, k'. split_and!; [done|lia|done].
Qed.
Lemma walks_visits ref k n w l fuel :
  walks ref k n w l → k ≤ pe_fuel → k ≤ fuel → visits fuel ref (Some (n, w)) = Ok (n :: l).
Proof.
  revert k n w fuel. induction l as [|c l IH]; intros k n w fuel Hw Hk Hf.
  all: pose proof (walks_advance ref k n w _ pe_fuel Hw Hk) as Ha.
  all: destruct fuel as [|fuel]; [by inversion Hw; subst; lia|]; cbn [visits]; unfold advance_next; cbn [fst snd].
  - rewrite Ha, bind_Ok. by destruct fuel.
  - destruct Ha as (state & k' & -> & Hk' & Hw'). rewrite bind_Ok, (IH k' c state fuel Hw') by lia. done.
Qed.

Context (Hm : ent_inv m).

Lemma child_entry n e c :
  m !! n = Some e → c ∈ e_children e →
  ∃ ec, m !! c = Some ec ∧ e_parent ec = Some n ∧ length c = S (length n) ∧ n `prefix_of` c.
Proof using Hm.
  intros Hn Hc. destruct (en_down m Hm n e c Hn Hc) as [Hp [ec Hec]]. exists ec.
  split_and!; [done|by rewrite (en_parent m Hm c ec Hec)|by apply parentName_length in Hp|].
  destruct c as [|x c]; [done|]. injection Hp as <-. apply prefix_take.
Qed.

(** What a round leads to. *)
Definition leadsTo (ref : Name) (k : nat) (step : outcome PeStep) (l : list Name) : Prop :=
  match step with
  | Ok PeEnd => k = 0 ∧ l = []
  | Ok (PeVisit c state) => ∃ l', l = c :: l' ∧ walks ref k c state l'
  | Ok (PeGo c w) => walks ref k c w l
  | Fault _ => False
  end.
Lemma leadsTo_walks ref k n w l : leadsTo ref k (pe_round ref n w) l → walks ref (S k) n w l.
Proof.
  unfold leadsTo. destruct (pe_round ref n w) as [[|c state|c w']|] eqn:E; [| | |done].
  - intros [-> ->]. by apply walks_end.
  - intros (l' & -> & H). by eapply walks_visit.
  - intros H. by eapply walks_go.
Qed.
Lemma afterFirst_split (pre post : list Name) c : c ∉ pre → afterFirst c (pre ++ c :: post) = Some post.
Proof.
  induction pre as [|x pre IH]; cbn [afterFirst app]; [by rewrite decide_True|].
  intros [Hne Hc]%not_elem_of_cons. rewrite decide_False by congruence. by apply IH.
Qed.
(** The number of rounds for a subtree, the entering of its root apart. *)
Abbreviation rounds h n := (2 * length (subtree h n)).
Definition below (h : nat) (n : Name) (w : bool) : list Name :=
  match m !! n with Some e => if w then concat (map (preorder h) (e_children e)) else [] | None => [] end.

Lemma subtree_S h n e : m !! n = Some e → subtree (S h) n = n :: concat (map (subtree h) (e_children e)).
Proof. intros Hn. cbn [subtree]. by rewrite Hn. Qed.
Lemma preorder_S h n e :
  m !! n = Some e → preorder (S h) n = (if (pred n e).1 then [n] else []) ++ below h n (pred n e).2.
Proof. intros Hn. unfold below. cbn [preorder]. rewrite Hn. by destruct (pred n e). Qed.
(** After a child come its siblings. *)
Lemma child_done ref n en pre c post k l :
  m !! n = Some en → ref `prefix_of` n → e_children en = pre ++ c :: post →
  leadsTo ref k (siblings_loop n post) l → walks ref (S k) c false l.
Proof using Hm.
  intros Hn Href Ech H. assert (c ∈ e_children en) as Hc by (rewrite Ech; set_solver).
  destruct (child_entry n en c Hn Hc) as (ec & Hec & Hpc & Hlc & _).
  apply leadsTo_walks. unfold pe_round, entryAt. rewrite Hec, bind_Ok, bool_decide_false, Hpc, Hn, bind_Ok.
  - rewrite Ech, afterFirst_split; [done|]. pose proof (en_nodup m Hm n en Hn) as Hnd. rewrite Ech in Hnd.
    apply NoDup_app in Hnd as (_ & Hdis & _). intros Hin. apply (Hdis c Hin). by left.
  - intros ->. apply prefix_length in Href. lia.
Qed.
(** The children behind one that is done: given the walks of their subtrees, the
    walk goes through them and back to the parent. *)
Lemma siblings_walk ref h n en k l :
  m !! n = Some en → ref `prefix_of` n → walks ref k n false l →
  (∀ c k l, c ∈ e_children en → walks ref k c false l →
     ∀ w, ∃ k', k' + 2 ≤ k + rounds (S h) c ∧ walks ref k' c w (below h c w ++ l)) →
  ∀ post pre c, e_children en = pre ++ c :: post →
  ∃ k', k' ≤ k + 2 * length (concat (map (subtree (S h)) post)) ∧
    leadsTo ref k' (siblings_loop n post) (concat (map (preorder (S h)) post) ++ l).
Proof using Hm.
  intros Hn Href Hback Hsub. induction post as [|d post IH]; intros pre c Ech.
  { exists k. split; [simpl; lia|]. exact Hback. }
  destruct (IH (pre ++ [c]) d) as (k1 & Hk1 & H1); [by rewrite <-app_assoc|].
  assert (d ∈ e_children en) as Hd by (rewrite Ech; set_solver).
  destruct (child_entry n en d Hn Hd) as (ed & Hed & _).
  assert (walks ref (S k1) d false (concat (map (preorder (S h)) post) ++ l)) as Hdone
    by (eapply (child_done ref n en (pre ++ [c]) d post); [..|exact H1]; [done|done|by rewrite <-app_assoc]).
  cbn [siblings_loop map concat]. unfold entryAt. rewrite Hed, bind_Ok, length_app.
  rewrite (preorder_S h d ed Hed).
  destruct (pred d ed) as [ws wc]. cbn [fst snd].
  destruct (Hsub d (S k1) _ Hd Hdone wc) as (k2 & Hk2 & H2). destruct ws.
  - exists k2. split; [lia|]. eexists. split; [|exact H2]. by rewrite <-!app_assoc.
  - destruct wc; [exists k2; split; [lia|]; by rewrite <-app_assoc|].
    exists k1. split; [lia|]. unfold below. rewrite Hed. exact H1.
Qed.
(** The subtree of an entry, when the walk is at the entry and knows how to go
    on from it. *)
Lemma subtree_walk ref h :
  ∀ n k l, ref `prefix_of` n → is_Some (m !! n) → getMaxDepth ≤ h + length n → walks ref k n false l →
  ∀ w, ∃ k', k' + 2 ≤ k + rounds (S h) n ∧ walks ref k' n w (below h n w ++ l).
Proof using Hm.
  induction h as [|h IH]; intros n k l Href [en Hn] Hh Hback w.
  all: assert (∀ h, 2 ≤ rounds (S h) n) as H2 by (intros h'; rewrite (subtree_S h' n en Hn); cbn [length]; lia).
  all: assert (e_children en = [] → ∃ k', k' + 2 ≤ k + rounds 1 n ∧ walks ref k' n w l) as Hleaf.
  1,3: intros Ech; exists k; split; [specialize (H2 0); lia|]; assert (pe_round ref n w = pe_round ref n false) as Er
    by (unfold pe_round, entryAt; rewrite Hn, !bind_Ok, Ech; by destruct w); inversion Hback; subst;
    [apply walks_end|eapply walks_visit; [|done]|eapply walks_go; [|done]]; by rewrite Er.
  - unfold below. rewrite Hn. destruct (e_children en) as [|c post] eqn:Ech.
    + destruct (Hleaf eq_refl) as (k' & H1 & H3). exists k'. destruct w; by split.
    + exfalso. destruct (child_entry n en c Hn) as (ec & Hec & _ & Hl & _); [rewrite Ech; by left|].
      pose proof (en_depth m Hm c ec Hec). lia.
  - unfold below. rewrite Hn. destruct (e_children en) as [|c post] eqn:Ech.
    { destruct (Hleaf eq_refl) as (k' & H1 & H3). exists k'. specialize (H2 (S h)).
      rewrite (subtree_S _ n en Hn), Ech in H1. rewrite (subtree_S _ n en Hn), Ech. destruct w; by split. }
    destruct w; [|exists k; split; [specialize (H2 (S h)); lia|done]].
    assert (∀ d k l, d ∈ e_children en → walks ref k d false l →
      ∀ w, ∃ k', k' + 2 ≤ k + rounds (S h) d ∧ walks ref k' d w (below h d w ++ l)) as Hsub.
    { intros d k0 l0 Hd Hw0. destruct (child_entry n en d Hn Hd) as (ed & Hed & _ & Hl & Hp).
      apply IH; [by trans n|by exists ed|lia|done]. }
    destruct (siblings_walk ref h n en k l Hn Href Hback Hsub post [] c Ech) as (k1 & Hk1 & H1).
    pose proof (child_done ref n en [] c post k1 _ Hn Href Ech H1) as Hdone.
    assert (c ∈ e_children en) as Hc by (rewrite Ech; by left).
    destruct (child_entry n en c Hn Hc) as (ec & Hec & _).
    destruct (Hsub c (S k1) _ Hc Hdone (pred c ec).2) as (k2 & Hk2 & Hw2). exists (S k2). split.
    { rewrite (subtree_S (S h) n en Hn), Ech. cbn [map concat length]. rewrite length_app. lia. }
    apply leadsTo_walks. unfold pe_round, entryAt. rewrite Hn, bind_Ok, Ech, Hec, bind_Ok.
    cbn [map concat]. rewrite (preorder_S h c ec Hec).
    destruct (pred c ec) as [ws wc]. cbn [fst snd] in *. destruct ws.
    + eexists. split; [|exact Hw2]. by rewrite <-!app_assoc.
    + by rewrite <-app_assoc.
Qed.

(** ** Each entry at most once *)

Lemma subtree_in h n x : x ∈ subtree h n → n `prefix_of` x ∧ is_Some (m !! x).
Proof using Hm.
  revert n. induction h as [|h IH]; intros n; cbn [subtree]; [by intros ?%elem_of_nil|].
  destruct (m !! n) as [e|] eqn:En; [|by intros ?%elem_of_nil].
  intros [->|Hx]%elem_of_cons; [by rewrite En|]. apply elem_of_concat_map in Hx as (c & Hc & Hx).
  apply IH in Hx as [Hp Hs]. split; [|done]. destruct (child_entry n e c En Hc) as (ec & _ & _ & _ & Hpc). by trans c.
Qed.
Lemma subtree_NoDup h n : NoDup (subtree h n).
Proof using Hm.
  revert n. induction h as [|h IH]; intros n; cbn [subtree]; [constructor|].
  destruct (m !! n) as [e|] eqn:En; [|constructor]. constructor.
  - intros (c & Hc & Hx)%elem_of_concat_map. apply subtree_in in Hx as [Hp%prefix_length _].
    destruct (child_entry n e c En Hc) as (ec & _ & _ & Hl & _). lia.
  - pose proof (en_nodup m Hm n e En) as Hnd.
    assert (∀ c, c ∈ e_children e → length c = S (length n)) as Hlen
      by (intros c Hc; by destruct (child_entry n e c En Hc) as (ec & _ & _ & ? & _)).
    induction Hnd as [|c l Hc Hnd IHl]; cbn [map concat]; [constructor|].
    apply NoDup_app. split_and!; [apply IH| |apply IHl; intros d Hd; apply Hlen; by right].
    intros x Hx (d & Hd & Hx')%elem_of_concat_map. apply subtree_in in Hx as [H1 _]. apply subtree_in in Hx' as [H2 _].
    destruct H1 as [r1 ->], H2 as [r2 E]. apply app_inj_1 in E as [-> _]; [done|].
    rewrite (Hlen c), (Hlen d); [done|by right|by left].
Qed.
Lemma subtree_size h n : length (subtree h n) ≤ size m.
Proof using Hm.
  assert (list_to_set (subtree h n) ⊆@{gset Name} dom m) as Hsub.
  { intros x Hx%elem_of_list_to_set. apply elem_of_dom. exact (proj2 (subtree_in h n x Hx)). }
  apply subseteq_size in Hsub. rewrite size_list_to_set in Hsub by apply subtree_NoDup. by rewrite size_dom in Hsub.
Qed.

(** The iterator visits what the recursive traversal lists. *)
Lemma enumerate_spec ref :
  is_Some (m !! ref) → enumerate (Some ref) = Ok (preorder (S getMaxDepth) ref).
Proof using Hm.
  intros [e He]. assert (walks ref 1 ref false []) as Hend.
  { apply walks_end. unfold pe_round, entryAt. by rewrite He, bind_Ok, bool_decide_true. }
  destruct (subtree_walk ref getMaxDepth ref 1 [] ltac:(done) ltac:(by exists e) ltac:(lia) Hend (pred ref e).2)
    as (k & Hk & Hw). rewrite app_nil_r in Hw.
  pose proof (subtree_size (S getMaxDepth) ref) as Hs. assert (k ≤ pe_fuel) as Hf by (unfold pe_fuel; lia).
  cbn [enumerate]. unfold advance_first, entryAt. rewrite He, bind_Ok, (preorder_S getMaxDepth ref e He).
  destruct (pred ref e) as [ws wc]. cbn [fst snd] in *. destruct ws.
  - rewrite bind_Ok. by rewrite (walks_visits ref k ref wc _ _ Hw Hf) by lia.
  - cbn [app]. pose proof (walks_advance ref k ref wc _ pe_fuel Hw Hf) as Ha.
    destruct (below getMaxDepth ref wc) as [|c l].
    + by rewrite Ha, bind_Ok.
    + destruct Ha as (state & k' & -> & Hk' & Hw'). rewrite bind_Ok. by apply (walks_visits ref k'); [done|lia|lia].
Qed.

(** What is listed: the selected entries that are reached through entries whose
    children are wanted. *)
Definition wantedFrom (ref x : Name) : Prop :=
  ref `prefix_of` x ∧ (∃ e, m !! x = Some e ∧ (pred x e).1 = true) ∧
  ∀ y e, ref `prefix_of` y → y `prefix_of` x → y ≠ x → m !! y = Some e → (pred y e).2 = true.
Lemma wantedFrom_child n e c x :
  m !! n = Some e → c ∈ e_children e → (pred n e).2 = true → wantedFrom c x → wantedFrom n x.
Proof using Hm.
  intros Hn Hc Hw (Hp & Hx & Hall). destruct (child_entry n e c Hn Hc) as (ec & Hec & _ & Hl & Hnc).
  split_and!; [by trans c|done|]. intros y ey Hny Hyx Hne Hy.
  destruct (decide (y = n)) as [->|Hyn]; [by replace ey with e by congruence|].
  apply (Hall y ey); [|done..]. apply (prefixes_of_same c y x); [done|done|].
  destruct Hny as [[|a r] ->]; [by rewrite app_nil_r in Hyn|]. rewrite length_app, Hl. simpl. lia.
Qed.
Lemma wantedFrom_below n e x :
  m !! n = Some e → wantedFrom n x → x ≠ n →
  (pred n e).2 = true ∧ ∃ c, c ∈ e_children e ∧ wantedFrom c x.
Proof using Hm.
  intros Hn (Hp & Hx & Hall) Hne. split; [by apply (Hall n e)|].
  destruct Hp as [[|a r] ->]; [by rewrite app_nil_r in Hne|].
  assert (n ++ a :: r = (n ++ [a]) ++ r) as Ea by by rewrite <-app_assoc.
  assert ((n ++ [a]) `prefix_of` n ++ a :: r) as Hpre by (rewrite Ea; by exists r).
  exists (n ++ [a]). split.
  - destruct Hx as (ex & Hex & _). destruct (en_up m Hm (n ++ [a]) n) as (ep & Hep & Hin).
    + by apply (ent_inv_prefix m (n ++ a :: r)); [done|exists ex|].
    + apply parentName_snoc.
    + by replace e with ep by congruence.
  - split_and!; [done|done|]. intros y ey Hy. apply Hall. trans (n ++ [a]); [by exists [a]|done].
Qed.
Lemma elem_of_preorder h n x : getMaxDepth < h + length n → x ∈ preorder h n ↔ wantedFrom n x.
Proof using Hm.
  revert n. induction h as [|h IH]; intros n Hh; destruct (m !! n) as [e|] eqn:En.
  1: pose proof (en_depth m Hm n e En); lia.
  1,3: split; [cbn [preorder]; rewrite ?En; by intros ?%elem_of_nil|]; intros (Hp & (ex & Hex & _) & _);
    destruct (ent_inv_prefix m x n Hm ltac:(by exists ex) Hp); congruence.
  assert (∀ c, c ∈ e_children e → x ∈ preorder h c ↔ wantedFrom c x) as Hc.
  { intros c Hc. destruct (child_entry n e c En Hc) as (ec & _ & _ & Hl & _). apply IH. lia. }
  rewrite (preorder_S _ n e En), elem_of_app. unfold below. rewrite En. split.
  - intros [Hs|Hb].
    + destruct (pred n e) as [[] wc] eqn:Ep; [|by apply elem_of_nil in Hs]. apply list_elem_of_singleton in Hs as ->.
      split_and!; [done|exists e; by rewrite Ep|]. intros y ey H1 H2 H3. destruct H3. by apply (anti_symm prefix).
    + destruct (pred n e).2 eqn:Ew; [|by apply elem_of_nil in Hb]. apply elem_of_concat_map in Hb as (c & Hin & Hx).
      eapply wantedFrom_child; [done..|]. by apply Hc.
  - intros Hw. destruct (decide (x = n)) as [->|Hne].
    + destruct Hw as (_ & (e' & He' & Hs) & _). replace e' with e in Hs by congruence. rewrite Hs. left. by left.
    + destruct (wantedFrom_below n e x En Hw Hne) as (-> & c & Hin & Hx). right. apply elem_of_concat_map. exists c.
      split; [done|]. by apply Hc.
Qed.
Lemma preorder_sublist h n : preorder h n `sublist_of` subtree h n.
Proof.
  revert n. induction h as [|h IH]; intros n; [done|]. destruct (m !! n) as [e|] eqn:En.
  - rewrite (preorder_S h n e En), (subtree_S h n e En). unfold below. rewrite En.
    assert (concat (map (preorder h) (e_children e)) `sublist_of` concat (map (subtree h) (e_children e))) as Hsub.
    { induction (e_children e) as [|c l IHl]; cbn [map concat]; [done|]. by apply sublist_app. }
    destruct (pred n e) as [[] []]; cbn [fst snd app]; auto using sublist_skip, sublist_cons, sublist_nil_l.
  - cbn [preorder subtree]. by rewrite En.
Qed.
End enumeration.

Section partial.
Context (HashFunc : Component → Z) {FibE PitE MeasE ScE : Type}.
Abbreviation NT := (NameTree (Tables FibE PitE MeasE ScE)).

(** [NameTree::partialEnumerate], as the list of entries that the range visits. *)
Definition partialEnumerate (nt : NT) (prefix : Name) (pred : Name → Entry (Tables FibE PitE MeasE ScE) → bool * bool)
  : outcome (list Name) :=
  enumerate (nt_entries nt) pred (findExactMatch HashFunc nt prefix (length prefix)).

Lemma partialEnumerate_spec (nt : NT) prefix pred :
  nt_inv HashFunc nt →
  ∃ l, partialEnumerate nt prefix pred = Ok l ∧ l = preorder (nt_entries nt) pred (S getMaxDepth) prefix ∧
    NoDup l ∧ ∀ x, x ∈ l ↔ wantedFrom (nt_entries nt) pred prefix x.
Proof.
  intros Hi. exists (preorder (nt_entries nt) pred (S getMaxDepth) prefix). pose proof (ni_ent _ nt Hi) as Hm.
  split_and!; [|done| |].
  - unfold partialEnumerate. rewrite findExactMatch_spec, firstn_all by done. case_decide as Hd.
    + by apply enumerate_spec.
    + cbn [enumerate preorder]. destruct (nt_entries nt !! prefix) eqn:E; [|done]. destruct Hd. by eexists.
  - by eapply sublist_NoDup, preorder_sublist; apply subtree_NoDup.
  - intros x. apply elem_of_preorder; [done|lia].
Qed.

(** C28. The enumeration of a subtree of the name tree is complete and returns.
    The iterator of [partialEnumerate], which remembers one entry and one bit,
    visits exactly what a recursive traversal lists, in preorder: every entry
    below the prefix that the selector wants and that is reached through entries
    whose children the selector wants, each once. *)
Theorem partial_enumeration (nt : NT) prefix pred :
  nt_inv HashFunc nt →
  ∃ l, partialEnumerate nt prefix pred = Ok l ∧ l = preorder (nt_entries nt) pred (S getMaxDepth) prefix ∧
    NoDup l ∧ ∀ x, x ∈ l ↔ wantedFrom (nt_entries nt) pred prefix x.
Proof. apply partialEnumerate_spec. Qed.
End partial.

(** The entries below the root in a tree with /A, /A/B and /B, in which the
    children of /B and the root itself are not wanted. *)
Definition enumOps : list (nt_op (FibE:=nat) (PitE:=nat) (MeasE:=nat) (ScE:=nat)) :=
  [OpWrite [ntA; ntB] id; OpWrite [ntB; ntA] id].
Definition enumSample : NameTree (Tables nat nat nat nat) :=
  match nt_run ctype enumOps (NameTree_init 1) with Ok (_, nt) => nt | Fault _ => NameTree_init 1 end.
Lemma enumSample_inv : nt_inv ctype enumSample.
Proof.
  destruct (nt_run_refines ctype enumOps (NameTree_init 1) (fun _ => noTables)) as (nt & H1 & H2 & _).
  - apply nt_inv_init. lia.
  - repeat constructor; simpl; unfold getMaxDepth; lia.
  - intros x. unfold tablesAt, tablesOf. simpl. by rewrite lookup_empty.
  - unfold enumSample. by rewrite H1.
Qed.
Lemma partial_enumeration_witness :
  partialEnumerate ctype enumSample [] (fun n _ => (bool_decide (n ≠ []), bool_decide (n ≠ [ntB]))) =
    Ok [[ntA]; [ntA; ntB]; [ntB]].
Proof.
  destruct (partial_enumeration ctype enumSample [] (fun n _ => (bool_decide (n ≠ []), bool_decide (n ≠ [ntB])))
    enumSample_inv) as (l & -> & -> & _). by vm_compute.
Defined.
