(* ===== verification/Face.v ===== *)
(** * Faces as the forwarder sees them (NFD [face/face.hpp], [face/face-common.hpp])

    A [Face*] is a natural number, its address; [std::set<Face*>] iterates in
    increasing order of addresses.  The properties the forwarding plane reads
    are its identifier, scope and link type; the two drop counters are the ones
    it writes. *)

From S2P Require Import Prelude.
Local Open Scope Z_scope.

Abbreviation FaceRef := nat.

Inductive FaceScope : Type := FACE_SCOPE_NON_LOCAL | FACE_SCOPE_LOCAL.
Inductive LinkType : Type :=
| LINK_TYPE_POINT_TO_POINT | LINK_TYPE_MULTI_ACCESS | LINK_TYPE_AD_HOC.
#[export] Instance FaceScope_eq_dec : EqDecision FaceScope.
Proof. solve_decision. Defined.
#[export] Instance LinkType_eq_dec : EqDecision LinkType.
Proof. solve_decision. Defined.

Definition INVALID_FACEID : Z := 0.
Definition FACEID_CONTENT_STORE : Z := 254.

Record Face := mkFace {
  face_id : Z;
  face_scope : FaceScope;
  face_linkType : LinkType;
  nInHopLimitZero : Z;
  nOutHopLimitZero : Z
}.

Definition inc_nInHopLimitZero (f : Face) : Face :=
  mkFace (face_id f) (face_scope f) (face_linkType f) (nInHopLimitZero f + 1) (nOutHopLimitZero f).
Definition inc_nOutHopLimitZero (f : Face) : Face :=
  mkFace (face_id f) (face_scope f) (face_linkType f) (nInHopLimitZero f) (nOutHopLimitZero f + 1).

(** The iteration order of a [std::set<Face*>] filled from [l]. *)
Definition faceSet (l : list FaceRef) : list FaceRef :=
  merge_sort le (elements (list_to_set l : gset FaceRef)).

Lemma elem_of_faceSet f l : f ∈ faceSet l ↔ f ∈ l.
Proof.
  unfold faceSet. rewrite (merge_sort_Permutation le (elements (list_to_set l : gset FaceRef))).
  by rewrite elem_of_elements, elem_of_list_to_set.
Qed.
Lemma NoDup_faceSet l : NoDup (faceSet l).
Proof.
  unfold faceSet. rewrite (merge_sort_Permutation le (elements (list_to_set l : gset FaceRef))).
  apply NoDup_elements.
Qed.
