(* ===== verification/Transport.v ===== *)
(** * States of a transport (NFD [face/transport.cpp] and its subclasses)

    The state machine of [Transport], and what the subclasses do when a
    transport closes or fails.  A subclass either finishes closing at once or posts
    a handler that does so when pending socket callbacks have run. *)

From S2P Require Import Prelude.
Local Open Scope Z_scope.

Inductive TransportState : Type :=
| TransportState_NONE | TransportState_UP | TransportState_DOWN
| TransportState_CLOSING | TransportState_FAILED | TransportState_CLOSED.
#[export] Instance TransportState_eq_dec : EqDecision TransportState.
Proof. solve_decision. Defined.

Inductive FacePersistency : Type :=
| FACE_PERSISTENCY_NONE | FACE_PERSISTENCY_ON_DEMAND | FACE_PERSISTENCY_PERSISTENT | FACE_PERSISTENCY_PERMANENT.
#[export] Instance FacePersistency_eq_dec : EqDecision FacePersistency.
Proof. solve_decision. Defined.

(** The subclasses; TCP transports that reconnect are not among them. *)
Inductive TransportKind : Type :=
| NullTransport | InternalForwarderTransport | WebSocketTransport
| DatagramTransport | EthernetTransport | StreamTransport.

Record TransportObj := mkTransportObj {
  tr_kind : TransportKind;
  tr_state : TransportState;
  tr_persistency : FacePersistency
}.
Definition set_tr_state (st : TransportState) (t : TransportObj) : TransportObj :=
  mkTransportObj (tr_kind t) st (tr_persistency t).

(** The [switch] of [Transport::setState]. *)
Definition isValidTransition (old new : TransportState) : bool :=
  match old with
  | TransportState_UP =>
      bool_decide (new = TransportState_DOWN) || bool_decide (new = TransportState_CLOSING) ||
      bool_decide (new = TransportState_FAILED)
  | TransportState_DOWN =>
      bool_decide (new = TransportState_UP) || bool_decide (new = TransportState_CLOSING) ||
      bool_decide (new = TransportState_FAILED)
  | TransportState_CLOSING | TransportState_FAILED => bool_decide (new = TransportState_CLOSED)
  | TransportState_NONE | TransportState_CLOSED => false
  end.

(** [Transport::setState]: the transport after the change, and nothing when
    there is none to signal. *)
Definition Transport_setState (new : TransportState) (t : TransportObj) : outcome (option TransportObj) :=
  if bool_decide (tr_state t = new) then Ok None
  else if isValidTransition (tr_state t) new then Ok (Some (set_tr_state new t))
  else Fault (Throw RuntimeError).

(** The test of [Transport::close]. *)
Definition canClose (t : TransportObj) : bool :=
  negb (bool_decide (tr_state t ≠ TransportState_UP) && bool_decide (tr_state t ≠ TransportState_DOWN)).

(** [doClose] of the subclasses: whether it calls [setState(CLOSED)] itself;
    the others post a handler for it. *)
Definition closesAtOnce (kind : TransportKind) : bool :=
  match kind with
  | NullTransport | InternalForwarderTransport | WebSocketTransport => true
  | DatagramTransport | EthernetTransport | StreamTransport => false
  end.

(** A socket error or the end of a stream: the state a subclass changes to
    before it calls [doClose], if it does; the transports inside the process
    have no socket. *)
Definition isShuttingDown (t : TransportObj) : bool :=
  bool_decide (tr_state t = TransportState_CLOSING) || bool_decide (tr_state t = TransportState_FAILED) ||
  bool_decide (tr_state t = TransportState_CLOSED).
(** [DatagramTransport::processErrorCode]. *)
Definition datagram_stateOnError (t : TransportObj) : option TransportState :=
  if isShuttingDown t then None
  else if bool_decide (tr_persistency t = FACE_PERSISTENCY_PERMANENT) then None
  else Some TransportState_FAILED.
(** [EthernetTransport::handleError], which [handleRead] calls unless the
    transport is shutting down. *)
Definition ethernet_stateOnError (t : TransportObj) : option TransportState :=
  if isShuttingDown t then None
  else if bool_decide (tr_persistency t = FACE_PERSISTENCY_PERMANENT) then None
  else Some TransportState_FAILED.
(** [WebSocketTransport::processErrorCode]. *)
Definition websocket_stateOnError (t : TransportObj) : option TransportState :=
  if isShuttingDown t then None else Some TransportState_FAILED.
(** [StreamTransport::processErrorCode] and [StreamTransport::handleError]. *)
Definition stream_stateOnError (eof : bool) (t : TransportObj) : option TransportState :=
  if isShuttingDown t then None
  else Some (if eof then TransportState_CLOSING else TransportState_FAILED).
Definition stateOnError (eof : bool) (t : TransportObj) : option TransportState :=
  match tr_kind t with
  | NullTransport | InternalForwarderTransport => None
  | DatagramTransport => datagram_stateOnError t
  | EthernetTransport => ethernet_stateOnError t
  | WebSocketTransport => websocket_stateOnError t
  | StreamTransport => stream_stateOnError eof t
  end.

(** [EthernetTransport::handleNetifStateChange]: the state it changes to. *)
Definition stateOnNetif (running : bool) (t : TransportObj) : option TransportState :=
  if running then
    if bool_decide (tr_state t = TransportState_DOWN) then Some TransportState_UP else None
  else if bool_decide (tr_state t = TransportState_UP) then Some TransportState_DOWN else None.

(** A transport that is in use, and one on its way out. *)
Definition isOpen (t : TransportObj) : Prop :=
  tr_state t = TransportState_UP ∨ tr_state t = TransportState_DOWN.
Definition isClosing (t : TransportObj) : Prop :=
  tr_state t = TransportState_CLOSING ∨ tr_state t = TransportState_FAILED.

Lemma canClose_spec t : canClose t = true ↔ isOpen t.
Proof. unfold canClose, isOpen. destruct (tr_state t); naive_solver. Qed.
Lemma setState_closing t new :
  isOpen t → new = TransportState_CLOSING ∨ new = TransportState_FAILED →
  Transport_setState new t = Ok (Some (set_tr_state new t)).
Proof. unfold Transport_setState. intros [E|E] [->| ->]; by rewrite E. Qed.
Lemma setState_closed t :
  isClosing t → Transport_setState TransportState_CLOSED t = Ok (Some (set_tr_state TransportState_CLOSED t)).
Proof. unfold Transport_setState. intros [E|E]; by rewrite E. Qed.
Lemma stateOnError_spec eof t new :
  isOpen t ∨ isClosing t → stateOnError eof t = Some new →
  isOpen t ∧ (new = TransportState_CLOSING ∨ new = TransportState_FAILED).
Proof.
  unfold stateOnError, datagram_stateOnError, ethernet_stateOnError, websocket_stateOnError,
    stream_stateOnError, isShuttingDown, isOpen, isClosing.
  destruct t as [k st p]; cbn. destruct k, st, p, eof; cbn; naive_solver.
Qed.
Lemma stateOnNetif_spec running t new :
  stateOnNetif running t = Some new →
  Transport_setState new t = Ok (Some (set_tr_state new t)) ∧ isOpen t ∧ isOpen (set_tr_state new t) ∧
  new ≠ TransportState_CLOSED.
Proof.
  unfold stateOnNetif, Transport_setState, isOpen. destruct t as [k st p]; cbn.
  destruct running, st; cbn; naive_solver.
Qed.
