(* ===== verification/Stream.v ===== *)
(** * Stream transports (NFD [face/stream-transport.hpp])

    TCP and Unix sockets carry a byte stream.  The receiving side collects what
    the socket gives it in a buffer of one maximal packet and cuts elements out
    of it; the sending side writes one packet after another.  The contents of the
    first [m_receiveBufferSize] bytes of the buffer are [ss_receiveBuffer]; a
    transport remembers what it passed to [Transport::receive] and what the
    socket has taken from it. *)

From S2P Require Import Prelude Tlv Encoding Transport.
Local Open Scope Z_scope.

Definition receiveBufferCapacity : nat := Z.to_nat 8800.

Record StreamState := mkStreamState {
  ss_transport : TransportObj;
  ss_receiveBuffer : list Z;
  ss_sendQueue : list Wire;
  ss_sendQueueBytes : Z;
  ss_writing : option (list Z);         (* the buffer of an [async_write] under way *)
  ss_posted : nat;                      (* [deferredClose] handlers posted *)
  ss_received : list Wire;
  ss_sent : list Z
}.
Definition set_ss_transport v s := mkStreamState v (ss_receiveBuffer s) (ss_sendQueue s) (ss_sendQueueBytes s)
  (ss_writing s) (ss_posted s) (ss_received s) (ss_sent s).
Definition set_ss_receiveBuffer v s := mkStreamState (ss_transport s) v (ss_sendQueue s) (ss_sendQueueBytes s)
  (ss_writing s) (ss_posted s) (ss_received s) (ss_sent s).
Definition set_ss_queue q n s := mkStreamState (ss_transport s) (ss_receiveBuffer s) q n
  (ss_writing s) (ss_posted s) (ss_received s) (ss_sent s).
Definition set_ss_writing v s := mkStreamState (ss_transport s) (ss_receiveBuffer s) (ss_sendQueue s)
  (ss_sendQueueBytes s) v (ss_posted s) (ss_received s) (ss_sent s).
Definition set_ss_posted v s := mkStreamState (ss_transport s) (ss_receiveBuffer s) (ss_sendQueue s)
  (ss_sendQueueBytes s) (ss_writing s) v (ss_received s) (ss_sent s).
Definition set_ss_received v s := mkStreamState (ss_transport s) (ss_receiveBuffer s) (ss_sendQueue s)
  (ss_sendQueueBytes s) (ss_writing s) (ss_posted s) v (ss_sent s).
Definition set_ss_sent v s := mkStreamState (ss_transport s) (ss_receiveBuffer s) (ss_sendQueue s)
  (ss_sendQueueBytes s) (ss_writing s) (ss_posted s) (ss_received s) v.

(** A new transport, after its constructor. *)
Definition StreamTransport_new (persistency : FacePersistency) : StreamState :=
  mkStreamState (mkTransportObj StreamTransport TransportState_UP persistency) [] [] 0 None 0 [] [].

(** The errors of Boost.Asio that the code tells apart. *)
Inductive AsioError : Type := Asio_eof | Asio_operation_aborted | Asio_shut_down | Asio_other.
#[export] Instance AsioError_eq_dec : EqDecision AsioError.
Proof. solve_decision. Defined.

(** [Block::fromBuffer(span)], with the bytes of the element. *)
Definition Wire_fromBuffer (buffer : list Z) : option Wire :=
  match readType buffer with
  | None => None
  | Some (type, pos) =>
      match readVarNumber pos with
      | None => None
      | Some (length_, pos) =>
          if bool_decide (Z.of_nat (length pos) < length_) then None
          else
            let rest := drop (Z.to_nat length_) pos in
            Some (mkWire type (take (Z.to_nat length_) pos) (take (length buffer - length rest) buffer) [])
      end
  end.

Abbreviation ST := (M StreamState).

(** ** Closing *)

Definition stream_setState (new : TransportState) : ST unit :=
  s ← get;
  r ← lift (Transport_setState new (ss_transport s));
  match r with Some t => put (set_ss_transport t s) | None => mret tt end.
Definition resetSendQueue : ST unit := modify (set_ss_queue [] 0).
Definition resetReceiveBuffer : ST unit := modify (set_ss_receiveBuffer []).
(** [StreamTransport::doClose] and [StreamTransport::deferredClose]. *)
Definition stream_doClose : ST unit := modify (fun s => set_ss_posted (S (ss_posted s)) s).
Definition stream_deferredClose : ST unit :=
  modify (fun s => set_ss_posted (pred (ss_posted s)) s);;
  resetSendQueue;;
  stream_setState TransportState_CLOSED.
Definition stream_handleError (error : AsioError) : ST unit :=
  stream_setState (if bool_decide (error = Asio_eof) then TransportState_CLOSING else TransportState_FAILED);;
  stream_doClose.
Definition stream_processErrorCode (error : AsioError) : ST unit :=
  s ← get;
  if isShuttingDown (ss_transport s) || bool_decide (error = Asio_operation_aborted) ||
     bool_decide (error = Asio_shut_down)
  then mret tt
  else stream_handleError error.

(** ** Receiving *)

Definition startReceive : ST unit :=
  s ← get; assertM (bool_decide (tr_state (ss_transport s) = TransportState_UP)).

(** The loop of [handleReceive]: every element takes at least a byte of the
    buffer, so its length bounds the iterations.  The result is [isOk] and
    [offset]. *)
Fixpoint receiveLoop (fuel : nat) (bufferView : list Z) (offset : nat) : ST (bool * nat) :=
  if bool_decide (offset < length bufferView)%nat then
    match fuel with
    | O => raise Diverges
    | S fuel' =>
        match Wire_fromBuffer (drop offset bufferView) with
        | None => mret (false, offset)
        | Some element =>
            let offset := (offset + Wire_size element)%nat in
            assertM (bool_decide (offset ≤ length bufferView)%nat);;
            modify (fun s => set_ss_received (ss_received s ++ [element]) s);;
            receiveLoop fuel' bufferView offset
        end
    end
  else mret (true, offset).

(** The end of [handleReceive]: what was not consumed moves to the front. *)
Definition keepRest (bufferView : list Z) (offset : nat) : ST unit :=
  if bool_decide (0 < offset)%nat then
    if bool_decide (offset ≠ length bufferView)
    then modify (set_ss_receiveBuffer (drop offset bufferView))
    else modify (set_ss_receiveBuffer [])
  else mret tt.
Definition handleReceive (error : option AsioError) (bytes : list Z) : ST unit :=
  match error with
  | Some error => stream_processErrorCode error
  | None =>
      modify (fun s => set_ss_receiveBuffer (ss_receiveBuffer s ++ bytes) s);;
      s ← get;
      let bufferView := ss_receiveBuffer s in
      '(isOk, offset) ← receiveLoop (length bufferView) bufferView 0;
      if negb isOk && bool_decide (length bufferView = receiveBufferCapacity) && bool_decide (offset = 0%nat)
      then stream_setState TransportState_FAILED;; stream_doClose
      else
        keepRest bufferView offset;;
        startReceive
  end.

(** ** Sending *)

Definition sendFromQueue : ST unit :=
  s ← get;
  packet ← deref (head (ss_sendQueue s));
  put (set_ss_writing (Some (w_bytes packet)) s).
Definition stream_doSend (packet : Wire) : ST unit :=
  s ← get;
  if bool_decide (tr_state (ss_transport s) ≠ TransportState_UP) then mret tt
  else
    let wasQueueEmpty := match ss_sendQueue s with [] => true | _ :: _ => false end in
    put (set_ss_queue (ss_sendQueue s ++ [packet])
           (u64 (ss_sendQueueBytes s + Z.of_nat (Wire_size packet))) s);;
    if wasQueueEmpty then sendFromQueue else mret tt.
Definition stream_handleSend (error : option AsioError) (nBytesSent : nat) : ST unit :=
  match error with
  | Some error => stream_processErrorCode error
  | None =>
      s ← get;
      match ss_sendQueue s with
      | [] => raise AssertFailed
      | front :: queue =>
          assertM (bool_decide (Wire_size front = nBytesSent));;
          put (set_ss_queue queue (u64 (ss_sendQueueBytes s - Z.of_nat nBytesSent)) s);;
          match queue with [] => mret tt | _ :: _ => sendFromQueue end
      end
  end.

(** [async_write] completes: the socket has taken the whole buffer. *)
Definition writeCompletes : ST unit :=
  s ← get;
  buffer ← deref (ss_writing s);
  put (set_ss_sent (ss_sent s ++ buffer) (set_ss_writing None s));;
  stream_handleSend None (length buffer).

(** ** Events *)

(** What the link service and the socket do on the sending side. *)
Inductive SendEvent : Type :=
| StSend (packet : Wire)
| StWritten.
Definition stream_send (e : SendEvent) : ST unit :=
  match e with StSend packet => stream_doSend packet | StWritten => writeCompletes end.
Fixpoint sendAll (es : list SendEvent) : ST unit :=
  match es with [] => mret tt | e :: es' => stream_send e;; sendAll es' end.
(** A write completes only after it was started. *)
Fixpoint sendEvents_ok (es : list SendEvent) (s : StreamState) : Prop :=
  match es with
  | [] => True
  | e :: es' => (e = StWritten → is_Some (ss_writing s)) ∧
      ∀ s', stream_send e s = Ok (tt, s') → sendEvents_ok es' s'
  end.
Definition packetsOf (es : list SendEvent) : list Wire :=
  omap (fun e => match e with StSend packet => Some packet | StWritten => None end) es.

(** The receiving side: [n] bytes of the stream are there when the socket is
    read, and it gives out as many as there is room for. *)
Definition readSome (n : nat) (stream : list Z) : ST (list Z) :=
  s ← get;
  let k := (n `min` (receiveBufferCapacity - length (ss_receiveBuffer s)))%nat in
  handleReceive None (take k stream);;
  mret (drop k stream).
Fixpoint readAll (sizes : list nat) (stream : list Z) : ST (list Z) :=
  match sizes with
  | [] => mret stream
  | n :: sizes' => stream' ← readSome n stream; readAll sizes' stream'
  end.

(** ** Elements in a byte stream *)

Definition packetBytes (ws : list Wire) : list Z := concat (map w_bytes ws).
Definition packet_ok (w : Wire) : Prop := Wire_closed w ∧ (Wire_size w ≤ receiveBufferCapacity)%nat.
(** The beginning of an element that is not complete. *)
Definition isPartial (p : list Z) : Prop :=
  p = [] ∨ ∃ w q, packet_ok w ∧ w_bytes w = p ++ q ∧ q ≠ [].

Lemma Wire_fromBuffer_ofSpan buf :
  Wire_fromBuffer buf = match Wire_ofSpan buf with Ok w => Some w | Fault _ => None end.
Proof.
  unfold Wire_fromBuffer, Wire_ofSpan, readType, readType_exn, readVarNumber_exn.
  destruct (readVarNumber buf) as [[type pos]|]; cbn; [|done]. case_bool_decide; cbn; [done|].
  destruct (readVarNumber pos) as [[len pos']|]; cbn; [|done]. by case_bool_decide.
Qed.
Lemma fromBuffer_closed w rest : Wire_closed w → Wire_fromBuffer (w_bytes w ++ rest) = Some w.
Proof. intros [H _]. by rewrite Wire_fromBuffer_ofSpan, H. Qed.
Lemma fromBuffer_partial p : isPartial p → p ≠ [] → Wire_fromBuffer p = None.
Proof.
  intros [->|(w & q & [Hw _] & Hb & Hq)] Hp; [done|]. rewrite Wire_fromBuffer_ofSpan.
  destruct (Wire_ofSpan p) as [w'|] eqn:E; [|done]. exfalso.
  assert (bytes_ok p) as Hok by (destruct Hw as (_ & Hbw & _); rewrite Hb in Hbw; by apply Forall_app in Hbw as [? _]).
  destruct (Wire_ofSpan_inv p w' Hok E) as (_ & _ & hd & rest & _ & Hp' & _).
  pose proof (Wire_ofSpan_closed p w' Hok E) as (Hc & _). pose proof (proj1 Hw []) as Hw0.
  rewrite app_nil_r, Hb, Hp', <-app_assoc, Hc in Hw0. injection Hw0 as ->.
  rewrite Hp' in Hb. rewrite <-(app_nil_r (w_bytes w)) in Hb at 1. rewrite <-app_assoc in Hb.
  apply app_inv_head in Hb. symmetry in Hb. by apply app_eq_nil in Hb as [_ ?].
Qed.
Lemma partial_short p : isPartial p → (length p < receiveBufferCapacity)%nat.
Proof.
  intros [->|(w & q & [_ Hs] & Hb & Hq)]; [unfold receiveBufferCapacity; cbn; lia|].
  unfold Wire_size in Hs. rewrite Hb, length_app in Hs. destruct q; [done|]. simpl in Hs. lia.
Qed.
Lemma packet_nonempty w : packet_ok w → (0 < Wire_size w)%nat.
Proof. intros [(_ & _ & _ & H) _]. unfold Wire_size. destruct (w_bytes w); [done|]. simpl. lia. Qed.
Lemma packetBytes_app ws ws' : packetBytes (ws ++ ws') = packetBytes ws ++ packetBytes ws'.
Proof. unfold packetBytes. by rewrite map_app, concat_app. Qed.

(** What is read of a stream of elements is some whole elements and the
    beginning of the next. *)
Lemma packetBytes_prefix ws : ∀ b rest,
  Forall packet_ok ws → packetBytes ws = b ++ rest →
  ∃ ws1 ws2 p, ws = ws1 ++ ws2 ∧ b = packetBytes ws1 ++ p ∧ isPartial p ∧ packetBytes ws2 = p ++ rest.
Proof.
  induction ws as [|w ws IH]; intros b rest Hws Hb.
  - symmetry in Hb. apply app_eq_nil in Hb as [-> ->]. exists [], [], []. split_and!; try done. by left.
  - apply Forall_cons in Hws as [Hw Hws]. unfold packetBytes in Hb. simpl in Hb. fold (packetBytes ws) in Hb.
    destruct (decide (length (w_bytes w) ≤ length b)%nat) as [Hl|Hl].
    + apply app_eq_inv in Hb as [(k & H1 & H2)|(k & H1 & H2)].
      * assert (k = []) as ->.
        { destruct k; [done|]. rewrite H1, length_app in Hl. simpl in Hl. lia. }
        rewrite app_nil_r in H1. subst b. destruct (IH [] rest Hws) as (ws1 & ws2 & p & E1 & E2 & E3 & E4); [by rewrite H2|].
        symmetry in E2. apply app_eq_nil in E2 as [E2 ->]. exists (w :: ws1), ws2, []. subst. split_and!; try done.
        unfold packetBytes. simpl. fold (packetBytes ws1). by rewrite E2, !app_nil_r.
      * destruct (IH k rest Hws H2) as (ws1 & ws2 & p & -> & -> & Hp & E). exists (w :: ws1), ws2, p.
        split_and!; [done| |done|done]. rewrite H1. unfold packetBytes. simpl. by rewrite app_assoc.
    + exists [], (w :: ws), b. split_and!; [done|done| |exact Hb]. right.
      apply app_eq_inv in Hb as [(k & H1 & H2)|(k & H1 & H2)]; [|rewrite H1, length_app in Hl; lia].
      exists w, k. split_and!; [done|done|]. intros ->. rewrite app_nil_r in H1. rewrite H1 in Hl. lia.
Qed.

(** ** Receiving *)

Lemma receiveLoop_spec ws p : ∀ pre fuel s,
  Forall packet_ok ws → isPartial p → (length (packetBytes ws ++ p) ≤ fuel)%nat →
  receiveLoop fuel (pre ++ packetBytes ws ++ p) (length pre) s =
    Ok ((bool_decide (p = []), length (pre ++ packetBytes ws)), set_ss_received (ss_received s ++ ws) s).
Proof.
  induction ws as [|w ws IH]; intros pre fuel s Hws Hp Hf.
  - unfold packetBytes. simpl. rewrite !app_nil_r. destruct s as [t rb q qb wr po re se]. cbn.
    destruct fuel as [|fuel]; cbn [receiveLoop]; rewrite length_app.
    + simpl in Hf. rewrite bool_decide_false by lia. destruct p; [|simpl in Hf; lia]. done.
    + destruct p as [|b p']; [by rewrite bool_decide_false by (simpl; lia)|].
      rewrite bool_decide_true by (simpl; lia). rewrite drop_app_length, fromBuffer_partial by done. done.
  - apply Forall_cons in Hws as [Hw Hws]. pose proof (packet_nonempty w Hw) as Hpos.
    unfold packetBytes in Hf |- *. simpl in Hf |- *. fold (packetBytes ws) in *.
    rewrite !length_app in Hf. unfold Wire_size in Hpos. destruct fuel as [|fuel]; [lia|]. cbn [receiveLoop].
    rewrite bool_decide_true by (rewrite !length_app; lia).
    rewrite drop_app_length, <-app_assoc, fromBuffer_closed by apply Hw. unfold Wire_size. munfold.
    rewrite assertM_true by (apply bool_decide_true; rewrite !length_app; lia).
    replace (pre ++ w_bytes w ++ packetBytes ws ++ p) with ((pre ++ w_bytes w) ++ packetBytes ws ++ p) by by rewrite !app_assoc.
    rewrite <-length_app, IH by (done || rewrite length_app; lia). cbn [ss_received set_ss_received].
    by rewrite <-!app_assoc.
Qed.

Definition isUp (s : StreamState) : Prop := tr_state (ss_transport s) = TransportState_UP.

Lemma keepRest_spec done rest s :
  ss_receiveBuffer s = done ++ rest → keepRest (done ++ rest) (length done) s = Ok (tt, set_ss_receiveBuffer rest s).
Proof.
  intros Hs. unfold keepRest. rewrite drop_app_length, length_app. case_bool_decide as E1.
  - case_bool_decide as E2; [done|]. destruct rest; [done|simpl in E2; lia].
  - destruct done; [|simpl in E1; lia]. destruct s. cbn in Hs. by subst.
Qed.

(** The buffer never fills up with one unfinished element. *)
Lemma notFull ws p :
  isPartial p →
  negb (bool_decide (p = [])) && bool_decide (length (packetBytes ws ++ p) = receiveBufferCapacity) &&
    bool_decide (length (packetBytes ws) = 0%nat) = false.
Proof.
  intros Hp. destruct (bool_decide (length (packetBytes ws) = 0%nat)) eqn:E; [|by rewrite andb_false_r].
  apply bool_decide_eq_true in E. rewrite length_app, E. rewrite (bool_decide_false (0 + _ = _)%nat).
  - by rewrite andb_false_r.
  - pose proof (partial_short p Hp). lia.
Qed.

(** The buffer after a read; nothing else changes but what was received. *)
Lemma handleReceive_spec bytes ws p s :
  isUp s → ss_receiveBuffer s ++ bytes = packetBytes ws ++ p → Forall packet_ok ws → isPartial p →
  handleReceive None bytes s = Ok (tt, set_ss_receiveBuffer p (set_ss_received (ss_received s ++ ws) s)).
Proof.
  intros Hup Hb Hws Hp. unfold handleReceive. munfold. cbn [ss_receiveBuffer set_ss_receiveBuffer]. rewrite Hb.
  pose proof (receiveLoop_spec ws p [] (length (packetBytes ws ++ p)) (set_ss_receiveBuffer (packetBytes ws ++ p) s)
    Hws Hp ltac:(lia)) as Hloop. cbn [app length] in Hloop. rewrite Hloop. clear Hloop.
  rewrite notFull by done.
  set (s1 := set_ss_received _ _).
  rewrite (keepRest_spec (packetBytes ws) p s1) by done.
  unfold startReceive. munfold. rewrite assertM_true; [done|]. by apply bool_decide_true.
Qed.

(** Where a receiver is: [ws1] delivered, and the buffer and the rest of the
    stream are [ws2]. *)
Record reading (ws1 ws2 : list Wire) (rest : list Z) (s0 s : StreamState) : Prop := {
  rd_up : isUp s;
  rd_received : ss_received s = ss_received s0 ++ ws1;
  rd_rest : packetBytes ws2 = ss_receiveBuffer s ++ rest;
  rd_partial : isPartial (ss_receiveBuffer s);
  rd_ok : Forall packet_ok ws2
}.

Lemma readSome_spec n ws1 ws2 rest s0 s :
  reading ws1 ws2 rest s0 s →
  ∃ ws2a ws2b s', ws2 = ws2a ++ ws2b ∧
    readSome n rest s = Ok (drop (n `min` (receiveBufferCapacity - length (ss_receiveBuffer s))) rest, s') ∧
    reading (ws1 ++ ws2a) ws2b (drop (n `min` (receiveBufferCapacity - length (ss_receiveBuffer s))) rest) s0 s'.
Proof.
  intros [H1 H2 H3 H4 H5]. unfold readSome. munfold. set (k := (n `min` _)%nat).
  destruct (packetBytes_prefix ws2 (ss_receiveBuffer s ++ take k rest) (drop k rest) H5) as (a & b & p & -> & Hb & Hp & Hrest).
  { by rewrite H3, <-app_assoc, take_drop. }
  apply Forall_app in H5 as [Ha Hb'].
  exists a, b, (set_ss_receiveBuffer p (set_ss_received (ss_received s ++ a) s)). split; [done|].
  rewrite (handleReceive_spec _ a p) by done. split; [done|]. split; try done. cbn. by rewrite H2, app_assoc.
Qed.

Lemma readAll_spec sizes : ∀ ws1 ws2 rest s0 s,
  reading ws1 ws2 rest s0 s →
  ∃ ws2a ws2b rest' s', ws2 = ws2a ++ ws2b ∧ readAll sizes rest s = Ok (rest', s') ∧
    reading (ws1 ++ ws2a) ws2b rest' s0 s' ∧
    (Forall (fun n => 0 < n)%nat sizes → length rest' ≤ length rest - length sizes)%nat.
Proof.
  induction sizes as [|n sizes IH]; intros ws1 ws2 rest s0 s Hr; cbn [readAll].
  - exists [], ws2, rest, s. rewrite app_nil_r. split_and!; try done. intros _. simpl. lia.
  - destruct (readSome_spec n ws1 ws2 rest s0 s Hr) as (a & b & s1 & -> & Hrun & Hr1).
    pose proof (partial_short _ (rd_partial _ _ _ _ _ Hr)) as Hroom.
    set (k := (n `min` _)%nat) in *.
    destruct (IH _ _ _ _ _ Hr1) as (a' & b' & rest' & s' & -> & Hrun' & Hr' & Hlen).
    exists (a ++ a'), b', rest', s'. split_and!.
    + by rewrite app_assoc.
    + munfold. by rewrite Hrun.
    + by rewrite app_assoc.
    + intros [Hn Hs]%Forall_cons. specialize (Hlen Hs). rewrite length_drop in Hlen. simpl.
      assert (0 < k)%nat by (unfold k; lia). lia.
Qed.

(** When the stream is used up, the buffer is empty. *)
Lemma reading_end ws1 ws2 s0 s : reading ws1 ws2 [] s0 s → ws2 = [].
Proof.
  intros [H1 H2 H3 H4 H5]. rewrite app_nil_r in H3. destruct ws2 as [|w ws]; [done|]. exfalso.
  apply Forall_cons in H5 as [Hw _]. pose proof (packet_nonempty w Hw) as Hpos. unfold Wire_size in Hpos.
  unfold packetBytes in H3. simpl in H3. fold (packetBytes ws) in H3.
  destruct (decide (ss_receiveBuffer s = [])) as [E|Hne].
  { rewrite E in H3. apply app_eq_nil in H3 as [E' _]. rewrite E' in Hpos. simpl in Hpos. lia. }
  pose proof (fromBuffer_partial _ H4 Hne) as Hf. rewrite <-H3, fromBuffer_closed in Hf; [done|apply Hw].
Qed.

(** ** Sending *)

(** The first packet of the queue is being written, and the counter is the
    number of bytes queued. *)
Record sending (s : StreamState) : Prop := {
  sd_up : isUp s;
  sd_writing : ss_writing s = w_bytes <$> head (ss_sendQueue s);
  sd_bytes : ss_sendQueueBytes s = u64 (Z.of_nat (length (packetBytes (ss_sendQueue s))))
}.

Lemma doSend_spec packet s :
  sending s → ∃ s', stream_doSend packet s = Ok (tt, s') ∧ sending s' ∧
    ss_sendQueue s' = ss_sendQueue s ++ [packet] ∧ ss_sent s' = ss_sent s.
Proof.
  intros [H1 H2 H3]. unfold stream_doSend. munfold. rewrite bool_decide_false by (intros Hn; exact (Hn H1)).
  assert (u64 (ss_sendQueueBytes s + Z.of_nat (Wire_size packet)) =
    u64 (Z.of_nat (length (packetBytes (ss_sendQueue s ++ [packet]))))) as ->.
  { rewrite H3, u64_add_l, packetBytes_app, length_app. unfold packetBytes at 3. simpl. rewrite app_nil_r.
    unfold Wire_size. f_equal. lia. }
  destruct (ss_sendQueue s) as [|w q] eqn:Eq; munfold.
  - unfold sendFromQueue. munfold. cbn. eexists. split; [done|]. split_and!; [|done|done]. by split.
  - eexists. split; [done|]. split_and!; [|done|done]. by split.
Qed.

Lemma writeCompletes_spec s :
  sending s → is_Some (ss_writing s) → ∃ w s', writeCompletes s = Ok (tt, s') ∧ sending s' ∧
    ss_sendQueue s = w :: ss_sendQueue s' ∧ ss_sent s' = ss_sent s ++ w_bytes w.
Proof.
  intros [H1 H2 H3] Hw. destruct (ss_sendQueue s) as [|w q] eqn:Eq; cbn in H2; [by rewrite H2 in Hw; destruct Hw|].
  unfold writeCompletes, stream_handleSend. munfold. rewrite H2. cbn [deref]. munfold. cbn. rewrite Eq. munfold.
  rewrite assertM_true by by apply bool_decide_true.
  assert (u64 (ss_sendQueueBytes s - Z.of_nat (length (w_bytes w))) = u64 (Z.of_nat (length (packetBytes q)))) as ->.
  { rewrite H3. unfold packetBytes. simpl. rewrite length_app. unfold u64. rewrite Zminus_mod_idemp_l. f_equal. lia. }
  exists w. destruct q as [|w' q]; munfold.
  - eexists. split; [done|]. split_and!; [|done|done]. by split.
  - unfold sendFromQueue. munfold. cbn. eexists. split; [done|]. split_and!; [|done|done]. by split.
Qed.

Lemma sendAll_spec es : ∀ s,
  sending s → sendEvents_ok es s → ∃ written s', sendAll es s = Ok (tt, s') ∧ sending s' ∧
    ss_sent s' = ss_sent s ++ packetBytes written ∧
    ss_sendQueue s ++ packetsOf es = written ++ ss_sendQueue s'.
Proof.
  induction es as [|e es IH]; intros s Hs Hes; cbn [sendAll].
  - exists [], s. split_and!; try done; unfold packetBytes; simpl; by rewrite app_nil_r.
  - destruct Hes as [He Hes]. munfold. destruct e as [packet|]; cbn [stream_send] in *.
    + destruct (doSend_spec packet s Hs) as (s1 & E & Hs1 & Eq & Et). rewrite E.
      destruct (IH s1 Hs1 (Hes s1 E)) as (wr & s' & E' & Hs' & Es & Ep). exists wr, s'.
      split_and!; [done|done|by rewrite Es, Et|]. rewrite Eq, <-app_assoc in Ep. exact Ep.
    + destruct (writeCompletes_spec s Hs (He eq_refl)) as (w & s1 & E & Hs1 & Eq & Et). rewrite E.
      destruct (IH s1 Hs1 (Hes s1 E)) as (wr & s' & E' & Hs' & Es & Ep). exists (w :: wr), s'.
      split_and!; [done|done| |].
      * rewrite Es, Et, <-app_assoc. done.
      * rewrite Eq. cbn. by rewrite <-Ep.
Qed.

(** ** Properties *)

(** C12. A stream keeps packets apart.  Packets of at most 8800 bytes are sent
    while their predecessors are still being written, and the socket of the
    peer is read in pieces of any size: the peer's transport passes up exactly the
    packets written, in their order, however the pieces cut them; it never fails
    or closes, no assertion fails on either side, and there is always room in the
    buffer for the next read.  Once the stream has been read, every packet
    written has been passed up. *)
Theorem stream_delivers_packets es sizes per per' :
  Forall packet_ok (packetsOf es) → sendEvents_ok es (StreamTransport_new per) →
  ∃ snd written rest rcv,
    sendAll es (StreamTransport_new per) = Ok (tt, snd) ∧ packetsOf es = written ++ ss_sendQueue snd ∧
    readAll sizes (ss_sent snd) (StreamTransport_new per') = Ok (rest, rcv) ∧
    ss_received rcv `prefix_of` written ∧ isUp snd ∧ isUp rcv ∧
    (length (ss_receiveBuffer rcv) < receiveBufferCapacity)%nat ∧
    (Forall (fun n => 0 < n)%nat sizes → (length (ss_sent snd) ≤ length sizes)%nat → ss_received rcv = written).
Proof.
  intros Hok Hes. destruct (sendAll_spec es (StreamTransport_new per)) as (written & snd & E & Hs & Et & Ep); [by split|done|].
  cbn in Et, Ep. rewrite Ep in Hok. apply Forall_app in Hok as [Hok _].
  assert (reading [] written (ss_sent snd) (StreamTransport_new per') (StreamTransport_new per')) as Hr.
  { split; try done. by left. }
  destruct (readAll_spec sizes _ _ _ _ _ Hr) as (ws1 & ws2 & rest & rcv & -> & Er & Hr' & Hlen).
  exists snd, (ws1 ++ ws2), rest, rcv. pose proof (rd_received _ _ _ _ _ Hr') as Hrec. cbn in Hrec.
  split_and!; [done|done|done| |apply Hs|apply Hr'|by apply partial_short, Hr'|].
  - rewrite Hrec. by apply prefix_app_r.
  - intros Hpos Hl. specialize (Hlen Hpos). assert (rest = []) as -> by (destruct rest; [done|simpl in Hlen; lia]).
    apply reading_end in Hr' as ->. by rewrite Hrec, app_nil_r.
Qed.

(** [handleReceive] does not look at the state before it asks for more: when
    the transport is no longer up and the completion of a successful read is still
    to come (the comment in [doClose] says that pending handlers may run as if
    nothing had happened), the read is processed and then the assertion of
    [startReceive] fails. *)
Theorem stream_read_while_closing bytes ws p s :
  tr_state (ss_transport s) ≠ TransportState_UP →
  ss_receiveBuffer s ++ bytes = packetBytes ws ++ p → Forall packet_ok ws → isPartial p →
  handleReceive None bytes s = Fault AssertFailed.
Proof.
  intros Hc Hb Hws Hp. unfold handleReceive. munfold. cbn [ss_receiveBuffer set_ss_receiveBuffer]. rewrite Hb.
  pose proof (receiveLoop_spec ws p [] (length (packetBytes ws ++ p)) (set_ss_receiveBuffer (packetBytes ws ++ p) s)
    Hws Hp ltac:(lia)) as Hloop. cbn [app length] in Hloop. rewrite Hloop. clear Hloop.
  rewrite notFull, keepRest_spec by done. unfold startReceive. munfold.
  unfold assertM. by rewrite bool_decide_false.
Qed.

(** ** Two packets in pieces *)

Definition firstPacket : Wire := makeBinaryBlock 100 [1; 2; 3].
Definition secondPacket : Wire := makeBinaryBlock 100 [4; 5].
Definition twoPackets : list SendEvent := [StSend firstPacket; StSend secondPacket; StWritten; StWritten].
Lemma samplePackets_ok : Forall packet_ok [firstPacket; secondPacket].
Proof.
  assert (∀ v, bytes_ok v → (length v < 10)%nat → packet_ok (makeBinaryBlock 100 v)) as H.
  { intros v Hv Hl. split; [by apply makeBinaryBlock_closed; [lia|lia|]|].
    unfold Wire_size, makeBinaryBlock. cbn [w_bytes Wire_ofBlock]. unfold Block_encode. cbn [blk_type blk_value].
    rewrite app_nil_r. unfold prependVarNumber. repeat case_bool_decide; try lia.
    cbn. unfold receiveBufferCapacity. rewrite ?length_app. cbn. lia. }
  apply Forall_cons; split; [|apply Forall_cons; split; [|apply Forall_nil; done]].
  - apply H; [by repeat constructor|simpl; lia].
  - apply H; [by repeat constructor|simpl; lia].
Qed.
Lemma twoPackets_ok : sendEvents_ok twoPackets (StreamTransport_new FACE_PERSISTENCY_PERSISTENT).
Proof.
  repeat (split; [(by intros [=]) || (intros _; vm_compute; by eexists)|intros ? [= <-]]). done.
Qed.
Lemma stream_delivers_packets_witness :
  ∃ snd rest rcv, sendAll twoPackets (StreamTransport_new FACE_PERSISTENCY_PERSISTENT) = Ok (tt, snd) ∧
    readAll (replicate 9 2%nat) (ss_sent snd) (StreamTransport_new FACE_PERSISTENCY_ON_DEMAND) = Ok (rest, rcv) ∧
    ss_received rcv = [firstPacket; secondPacket].
Proof.
  destruct (stream_delivers_packets twoPackets (replicate 9 2%nat) FACE_PERSISTENCY_PERSISTENT FACE_PERSISTENCY_ON_DEMAND)
    as (snd & written & rest & rcv & E1 & E2 & E3 & _ & _ & _ & _ & Hall).
  - exact samplePackets_ok.
  - exact twoPackets_ok.
  - assert (sendAll twoPackets (StreamTransport_new FACE_PERSISTENCY_PERSISTENT) = Ok (tt, snd)) as E by exact E1.
    vm_compute in E. injection E as <-. exists (mkStreamState (mkTransportObj StreamTransport TransportState_UP
      FACE_PERSISTENCY_PERSISTENT) [] [] 0 None 0 [] [100; 3; 1; 2; 3; 100; 2; 4; 5]), rest, rcv.
    split_and!; [exact E1|exact E3|]. rewrite Hall; [|by repeat constructor|vm_compute; lia].
    cbn in E2. rewrite app_nil_r in E2. by rewrite <-E2.
Defined.

Lemma stream_read_while_closing_witness :
  handleReceive None (w_bytes firstPacket)
    (mkStreamState (mkTransportObj StreamTransport TransportState_FAILED FACE_PERSISTENCY_PERSISTENT) [] [] 0 None 1 [] []) =
  Fault AssertFailed.
Proof.
  apply (stream_read_while_closing (w_bytes firstPacket) [firstPacket] []); [done| | |by left].
  - unfold packetBytes. cbn [map concat]. by rewrite !app_nil_r.
  - apply Forall_cons; split; [exact (Forall_inv samplePackets_ok)|by apply Forall_nil].
Defined.
