(* ===== verification/FibEntry.v ===== *)
(** * FIB entries (NFD [table/fib-entry.cpp], [table/fib-nexthop.hpp])

    A prefix and its next hops, kept in order of cost. *)

From S2P Require Import Prelude Tlv Component Name Face.
Local Open Scope Z_scope.

Record NextHop := mkNextHop { nh_face : FaceRef; nh_cost : Z }.
#[export] Instance NextHop_eq_dec : EqDecision NextHop.
Proof. solve_decision. Defined.

Record FibEntry := mkFibEntry { fe_prefix : Name; fe_nextHops : list NextHop }.
#[export] Instance FibEntry_eq_dec : EqDecision FibEntry.
Proof. solve_decision. Defined.

Definition hasNextHops (e : FibEntry) : bool :=
  match fe_nextHops e with [] => false | _ :: _ => true end.

(** [findNextHop]: the position of the face's record; the length of the list
    is [end()]. *)
Fixpoint findNextHop (face : FaceRef) (l : list NextHop) : nat :=
  match l with
  | [] => 0
  | nh :: l' => if bool_decide (nh_face nh = face) then 0 else S (findNextHop face l')
  end%nat.
Definition hasNextHop (e : FibEntry) (face : FaceRef) : bool :=
  bool_decide (findNextHop face (fe_nextHops e) ≠ length (fe_nextHops e)).

(** [sortNextHops].  [std::sort] leaves the order of equal costs open; the
    model keeps their order, and no result below depends on that choice. *)
Definition cost_le (a b : NextHop) : Prop := nh_cost a ≤ nh_cost b.
#[export] Instance cost_le_dec a b : Decision (cost_le a b).
Proof. unfold cost_le. apply _. Defined.
Definition sortNextHops (l : list NextHop) : list NextHop := merge_sort cost_le l.

(** [Entry::addOrUpdateNextHop]: the returned iterator is the position the
    record had before the sort. *)
Definition addOrUpdateNextHop (e : FibEntry) (face : FaceRef) (cost : Z)
  : FibEntry * nat * bool :=
  let it := findNextHop face (fe_nextHops e) in
  let isNew := bool_decide (it = length (fe_nextHops e)) in
  let nextHops := if isNew then fe_nextHops e ++ [mkNextHop face 0] else fe_nextHops e in
  let nextHops := alter (fun nh => mkNextHop (nh_face nh) cost) it nextHops in
  (mkFibEntry (fe_prefix e) (sortNextHops nextHops), it, isNew).

Definition removeNextHop (e : FibEntry) (face : FaceRef) : FibEntry * bool :=
  let it := findNextHop face (fe_nextHops e) in
  if bool_decide (it ≠ length (fe_nextHops e))
  then (mkFibEntry (fe_prefix e) (delete it (fe_nextHops e)), true)
  else (e, false).

(** ** Invariant: one record per face, in order of cost *)

Definition fib_faces (e : FibEntry) : list FaceRef := map nh_face (fe_nextHops e).
Record fe_inv (e : FibEntry) : Prop := {
  fi_nodup : NoDup (fib_faces e);
  fi_sorted : StronglySorted cost_le (fe_nextHops e)
}.

#[export] Instance cost_le_total : Total cost_le.
Proof. intros a b. unfold cost_le. lia. Qed.
#[export] Instance cost_le_trans : Transitive cost_le.
Proof. intros a b c. unfold cost_le. lia. Qed.

Lemma findNextHop_spec face l :
  (findNextHop face l = length l ∧ face ∉ map nh_face l) ∨
  (findNextHop face l < length l)%nat ∧
  ∃ cost, l !! findNextHop face l = Some (mkNextHop face cost).
Proof.
  induction l as [|[f c] l IH]; simpl; [left; split; [done|apply not_elem_of_nil]|].
  case_bool_decide as E; simpl in *.
  - right. subst. split; [lia|eauto].
  - destruct IH as [[-> Hn]|[Hl Hc]]; [left|right].
    + split; [done|]. rewrite elem_of_cons. naive_solver.
    + split; [lia|done].
Qed.

Lemma map_face_alter i cost (l : list NextHop) :
  map nh_face (alter (fun nh => mkNextHop (nh_face nh) cost) i l) = map nh_face l.
Proof.
  revert i. induction l as [|nh l IH]; intros [|i]; simpl; [done..|]. f_equal. apply IH.
Qed.

Lemma sortNextHops_perm l : sortNextHops l ≡ₚ l.
Proof. apply merge_sort_Permutation. Qed.

(** The records [addOrUpdateNextHop] leaves, as a set. *)
Lemma addOrUpdateNextHop_elem e face cost e' it isNew nh :
  NoDup (fib_faces e) →
  addOrUpdateNextHop e face cost = (e', it, isNew) →
  nh ∈ fe_nextHops e' ↔
    nh = mkNextHop face cost ∨ (nh ∈ fe_nextHops e ∧ nh_face nh ≠ face).
Proof.
  intros Hnd. unfold addOrUpdateNextHop. intros [= <- _ _]. cbn [fe_nextHops].
  rewrite sortNextHops_perm. unfold fib_faces in Hnd. destruct (findNextHop_spec face (fe_nextHops e))
    as [[E Hn]|[Hl [c Hc]]].
  - rewrite E, bool_decide_true by done.
    rewrite alter_app_r_alt by lia. rewrite Nat.sub_diag, elem_of_app. simpl.
    rewrite list_elem_of_singleton. split; [|naive_solver].
    intros [Hin| ->]; [right|by left]. split; [done|]. intros <-. apply Hn.
    apply list_elem_of_fmap. eauto.
  - rewrite bool_decide_false by lia. set (i := findNextHop face (fe_nextHops e)) in *.
    rewrite !list_elem_of_lookup. split.
    + intros [j Hj]. rewrite list_lookup_alter in Hj. case_decide as Ej.
      * subst j. rewrite Hc in Hj. simpl in Hj. left. congruence.
      * right. split; [eauto|]. intros Ef. apply Ej.
        eapply (NoDup_lookup (map nh_face (fe_nextHops e))); [done| |];
          rewrite list_lookup_fmap; [rewrite Hc|rewrite Hj]; simpl; [done|by rewrite Ef].
    + intros [->|[[j Hj] Hne]].
      * exists i. by rewrite list_lookup_alter, decide_True, Hc.
      * exists j. rewrite list_lookup_alter, decide_False; [done|]. intros <-.
        rewrite Hc in Hj. injection Hj as <-. done.
Qed.

Lemma fe_inv_addOrUpdate e face cost e' it isNew :
  fe_inv e → addOrUpdateNextHop e face cost = (e', it, isNew) → fe_inv e'.
Proof.
  intros [Hnd Hs]. unfold addOrUpdateNextHop. intros [= <- _ _]. split.
  - unfold fib_faces in *. cbn [fe_nextHops]. rewrite sortNextHops_perm, map_face_alter.
    destruct (findNextHop_spec face (fe_nextHops e)) as [[E Hn]|[Hl [c Hc]]].
    + rewrite bool_decide_true by done. rewrite map_app. simpl.
      apply NoDup_app. split_and!; [done| |apply NoDup_singleton].
      by intros x Hx ->%list_elem_of_singleton.
    + by rewrite bool_decide_false by lia.
  - cbn [fe_nextHops]. apply StronglySorted_merge_sort; apply _.
Qed.

Lemma fe_inv_remove e face e' b :
  fe_inv e → removeNextHop e face = (e', b) →
  fe_inv e' ∧ (∀ nh, nh ∈ fe_nextHops e' ↔ nh ∈ fe_nextHops e ∧ nh_face nh ≠ face) ∧
  (b = true ↔ face ∈ fib_faces e).
Proof.
  intros [Hnd Hs]. unfold removeNextHop, fib_faces in *.
  destruct (findNextHop_spec face (fe_nextHops e)) as [[E Hn]|[Hl [c Hc]]].
  - rewrite bool_decide_false by naive_solver. intros [= <- <-]. split_and!; [done| |naive_solver].
    intros nh. split; [|naive_solver]. intros Hin. split; [done|]. intros <-.
    apply Hn, list_elem_of_fmap. eauto.
  - rewrite bool_decide_true by lia. set (i := findNextHop face (fe_nextHops e)) in *.
    intros [= <- <-]. unfold fib_faces. cbn [fe_nextHops].
    pose proof (delete_Permutation _ _ _ Hc) as Hp.
    assert (NoDup (face :: map nh_face (delete i (fe_nextHops e)))) as Hnd'.
    { rewrite Hp in Hnd. done. }
    apply NoDup_cons in Hnd' as [Hnin Hnd']. split_and!.
    + split; [done|]. by apply StronglySorted_delete.
    + intros nh. assert (nh ∈ fe_nextHops e ↔ nh = mkNextHop face c ∨ nh ∈ delete i (fe_nextHops e))
        as -> by (by rewrite <-elem_of_cons, <-Hp). split.
      * intros Hin. split; [by right|]. intros E. apply Hnin. rewrite <-E.
        apply list_elem_of_fmap. eauto.
      * intros [[->|?] ?]; done.
    + split; [|done]. intros _. apply list_elem_of_fmap. exists (mkNextHop face c). split; [done|].
      by eapply list_elem_of_lookup_2.
Qed.

(** [addOrUpdateNextHop] and [removeNextHop] keep one record per face in
    order of cost: after the update the face is listed once, with the new
    cost, every other record is unchanged, and the first record has the lowest
    cost; after the removal exactly the face's record is gone. *)
Theorem nextHops_correct e face cost :
  fe_inv e →
  let e1 := (addOrUpdateNextHop e face cost).1.1 in
  let e2 := (removeNextHop e face).1 in
  fe_inv e1 ∧ fe_inv e2 ∧
  (∀ nh, nh ∈ fe_nextHops e1 ↔
     nh = mkNextHop face cost ∨ (nh ∈ fe_nextHops e ∧ nh_face nh ≠ face)) ∧
  (∀ best rest, fe_nextHops e1 = best :: rest → ∀ nh, nh ∈ fe_nextHops e1 → nh_cost best ≤ nh_cost nh) ∧
  (∀ nh, nh ∈ fe_nextHops e2 ↔ nh ∈ fe_nextHops e ∧ nh_face nh ≠ face).
Proof.
  intros Hi e1 e2. destruct (addOrUpdateNextHop e face cost) as [[e1' it] isNew] eqn:E1.
  destruct (removeNextHop e face) as [e2' b] eqn:E2. subst e1 e2. cbn [fst].
  pose proof (fe_inv_addOrUpdate _ _ _ _ _ _ Hi E1) as Hi1.
  destruct (fe_inv_remove _ _ _ _ Hi E2) as (Hi2 & Hr & _).
  split_and!; [done|done| | |done].
  - intros nh. eapply addOrUpdateNextHop_elem; [apply Hi|done].
  - intros best rest Hb nh Hin. pose proof (fi_sorted _ Hi1) as Hs. rewrite Hb in Hs, Hin.
    apply StronglySorted_inv in Hs as [_ Hf]. apply elem_of_cons in Hin as [->|Hin]; [lia|].
    rewrite Forall_forall in Hf. by apply Hf.
Qed.
Definition sampleFib : FibEntry := mkFibEntry [] [mkNextHop 1 10; mkNextHop 2 20].
Lemma sampleFib_inv : fe_inv sampleFib.
Proof.
  split.
  - apply (bool_decide_unpack _). by vm_compute.
  - repeat constructor; unfold cost_le; simpl; lia.
Qed.
Lemma nextHops_correct_witness :
  mkNextHop 3 5 ∈ fe_nextHops (addOrUpdateNextHop sampleFib 3 5).1.1.
Proof.
  destruct (nextHops_correct sampleFib 3 5 sampleFib_inv) as (_ & _ & H & _).
  apply H. by left.
Defined.

(** The iterator [addOrUpdateNextHop] returns is not always "the iterator
    to the new or updated NextHop" its documentation promises: sorting the
    vector moves the records under it.  Whenever a new face is added with a
    cost below all the others of a non-empty entry, the iterator designates
    another face's record, and that is what [Fib::addOrUpdateNextHop] signals
    to the forwarder. *)
Theorem addOrUpdateNextHop_wrong_iterator e face cost :
  fe_inv e → fe_nextHops e ≠ [] → face ∉ fib_faces e →
  (∀ nh, nh ∈ fe_nextHops e → cost < nh_cost nh) →
  let '(e', it, isNew) := addOrUpdateNextHop e face cost in
  isNew = true ∧ ∃ nh, fe_nextHops e' !! it = Some nh ∧ nh_face nh ≠ face.
Proof.
  intros Hi Hne Hnew Hlow. destruct (addOrUpdateNextHop e face cost) as [[e' it] isNew] eqn:E.
  pose proof (fe_inv_addOrUpdate _ _ _ _ _ _ Hi E) as [Hnd' Hs'].
  pose proof (addOrUpdateNextHop_elem e face cost e' it isNew) as Hel.
  specialize (λ nh, Hel nh (fi_nodup _ Hi) E).
  unfold addOrUpdateNextHop in E.
  destruct (findNextHop_spec face (fe_nextHops e)) as [[Ef _]|[_ [c Hc]]].
  2:{ destruct Hnew. unfold fib_faces. apply list_elem_of_fmap. exists (mkNextHop face c).
      split; [done|]. by eapply list_elem_of_lookup_2. }
  rewrite Ef, bool_decide_true in E by done. injection E as <- <- <-. split; [done|].
  set (l := sortNextHops _) in *. cbn [fe_nextHops] in *.
  assert (length l = S (length (fe_nextHops e))) as Hlen.
  { unfold l. rewrite sortNextHops_perm, length_alter, length_app. simpl. lia. }
  destruct (lookup_lt_is_Some_2 l (length (fe_nextHops e)) ltac:(lia)) as [nh Hnh].
  exists nh. split; [done|]. intros Hface.
  assert (nh = mkNextHop face cost) as ->.
  { apply list_elem_of_lookup_2 in Hnh. apply Hel in Hnh as [?|[_ ?]]; done. }
  destruct (fe_nextHops e) as [|nh0 rest] eqn:E0; [done|].
  assert (nh0 ∈ l) as [j Hj]%list_elem_of_lookup.
  { apply Hel. right. split; [by left|]. intros <-. apply Hnew. unfold fib_faces. rewrite E0. by left. }
  specialize (Hlow nh0 ltac:(by left)).
  assert (j < length l)%nat as Hjl by by eapply lookup_lt_Some.
  assert (j ≠ length (nh0 :: rest)) as Hjne by (intros ->; rewrite Hj in Hnh; injection Hnh as ->; simpl in *; lia).
  pose proof (StronglySorted_app_1_elem_of cost_le (take (S j) l) (drop (S j) l) nh0 (mkNextHop face cost))
    as Hord. rewrite take_drop in Hord.
  unfold cost_le in Hord. cbn [nh_cost] in Hord. enough (nh_cost nh0 ≤ cost) by lia. apply Hord; [done| |].
  - apply (list_elem_of_lookup_2 _ j). rewrite lookup_take_lt by lia. done.
  - apply (list_elem_of_lookup_2 _ (length (nh0 :: rest) - S j)). rewrite lookup_drop.
    replace (S j + (length (nh0 :: rest) - S j))%nat with (length (nh0 :: rest)) by (simpl in *; lia).
    done.
Qed.
Lemma addOrUpdateNextHop_wrong_iterator_witness :
  let '(e', it, isNew) := addOrUpdateNextHop sampleFib 3 5 in
  isNew = true ∧ ∃ nh, fe_nextHops e' !! it = Some nh ∧ nh_face nh ≠ 3%nat.
Proof.
  apply (addOrUpdateNextHop_wrong_iterator sampleFib 3 5 sampleFib_inv).
  - done.
  - apply (bool_decide_unpack _). by vm_compute.
  - intros nh. simpl. rewrite !elem_of_cons. intros [->|[->|Hn]]; simpl; [lia|lia|].
    by apply not_elem_of_nil in Hn.
Defined.
