(* ===== verification/PitEntry.v ===== *)
(** * PIT entries and their records (NFD [table/pit-entry.cpp],
    [table/pit-face-record.cpp], [table/pit-in-record.cpp],
    [table/pit-out-record.cpp])

    An Interest object is shared: a PIT entry and its in-records hold
    [shared_ptr]s to it, and the forwarder changes its tags through a const
    reference.  So records hold references [InterestRef] to a store of
    Interests.  Times are nanoseconds of the steady clock. *)

From S2P Require Import Prelude Tlv Component Name Packet Face.
Local Open Scope Z_scope.

Abbreviation InterestRef := nat.
Abbreviation PitRef := nat.

Definition ms (t : Z) : Z := t * 1000000.

(** ** Records *)

Record InRecord := mkInRecord {
  in_face : FaceRef;
  in_lastNonce : Z;
  in_lastRenewed : Z;
  in_expiry : Z;
  in_interest : InterestRef
}.
Record OutRecord := mkOutRecord {
  out_face : FaceRef;
  out_lastNonce : Z;
  out_lastRenewed : Z;
  out_expiry : Z;
  out_incomingNack : option NackReason;
  out_info : option Z                   (* suppression interval of this upstream, ms *)
}.

Definition MAX_LIFETIME : Z := 10 * 24 * 3600 * 1000.

(** [FaceRecord::update]: the expiry it computes. *)
Definition recordExpiry (now lifetime : Z) : Z := i64 (now + ms (Z.min lifetime MAX_LIFETIME)).

(** ** Entries *)

Record PitEntry := mkPitEntry {
  pe_interest : InterestRef;
  pe_inRecords : list InRecord;
  pe_outRecords : list OutRecord;
  pe_expiryTimer : option Z;            (* when [onInterestFinalize] is scheduled *)
  pe_isSatisfied : bool;
  pe_dataFreshnessPeriod : Z;           (* milliseconds *)
  pe_nameTreeEntry : option Name;
  pe_info : option Z                    (* suppression interval of the entry, ms *)
}.

Definition newPitEntry (i : InterestRef) : PitEntry :=
  mkPitEntry i [] [] None false 0 None None.

Definition set_pe_inRecords (l : list InRecord) (e : PitEntry) : PitEntry :=
  mkPitEntry (pe_interest e) l (pe_outRecords e) (pe_expiryTimer e) (pe_isSatisfied e)
    (pe_dataFreshnessPeriod e) (pe_nameTreeEntry e) (pe_info e).
Definition set_pe_outRecords (l : list OutRecord) (e : PitEntry) : PitEntry :=
  mkPitEntry (pe_interest e) (pe_inRecords e) l (pe_expiryTimer e) (pe_isSatisfied e)
    (pe_dataFreshnessPeriod e) (pe_nameTreeEntry e) (pe_info e).
Definition set_pe_expiryTimer (t : option Z) (e : PitEntry) : PitEntry :=
  mkPitEntry (pe_interest e) (pe_inRecords e) (pe_outRecords e) t (pe_isSatisfied e)
    (pe_dataFreshnessPeriod e) (pe_nameTreeEntry e) (pe_info e).
Definition set_pe_satisfied (freshness : Z) (e : PitEntry) : PitEntry :=
  mkPitEntry (pe_interest e) (pe_inRecords e) (pe_outRecords e) (pe_expiryTimer e) true
    freshness (pe_nameTreeEntry e) (pe_info e).
Definition set_pe_nameTreeEntry (n : option Name) (e : PitEntry) : PitEntry :=
  mkPitEntry (pe_interest e) (pe_inRecords e) (pe_outRecords e) (pe_expiryTimer e)
    (pe_isSatisfied e) (pe_dataFreshnessPeriod e) n (pe_info e).
Definition set_pe_info (i : option Z) (e : PitEntry) : PitEntry :=
  mkPitEntry (pe_interest e) (pe_inRecords e) (pe_outRecords e) (pe_expiryTimer e)
    (pe_isSatisfied e) (pe_dataFreshnessPeriod e) (pe_nameTreeEntry e) i.

(** [Entry::canMatch]: the two [Name::compare] calls return zero exactly on
    equal sub-names ([canMatch_compare] below). *)
Definition canMatch (mine other : Interest) (nEqualNameComps : nat) : outcome bool :=
  if bool_decide (take nEqualNameComps (i_name mine) = take nEqualNameComps (i_name other))
  then Ok (bool_decide (drop nEqualNameComps (i_name mine) = drop nEqualNameComps (i_name other)) &&
           Bool.eqb (i_canBePrefix mine) (i_canBePrefix other) &&
           Bool.eqb (i_mustBeFresh mine) (i_mustBeFresh other))
  else Fault AssertFailed.

(** [getInRecord] and [getOutRecord]. *)
Definition getInRecord (e : PitEntry) (face : FaceRef) : option InRecord :=
  List.find (fun r => bool_decide (in_face r = face)) (pe_inRecords e).
Definition getOutRecord (e : PitEntry) (face : FaceRef) : option OutRecord :=
  List.find (fun r => bool_decide (out_face r = face)) (pe_outRecords e).

(** [insertOrUpdateInRecord]: a new record goes to the front, then [update]. *)
Definition updateInRecord (now : Z) (i : InterestRef) (nonce lifetime : Z) (r : InRecord) : InRecord :=
  mkInRecord (in_face r) nonce now (recordExpiry now lifetime) i.
Definition insertOrUpdateInRecord (now : Z) (face : FaceRef) (i : InterestRef)
    (nonce lifetime : Z) (e : PitEntry) : PitEntry :=
  let isFace := fun r => bool_decide (in_face r = face) in
  match getInRecord e face with
  | None => set_pe_inRecords
              (updateInRecord now i nonce lifetime (mkInRecord face 0 0 0 i) :: pe_inRecords e) e
  | Some _ => set_pe_inRecords
                (updateFirst isFace (updateInRecord now i nonce lifetime) (pe_inRecords e)) e
  end.
Definition deleteInRecord (face : FaceRef) (e : PitEntry) : PitEntry :=
  set_pe_inRecords (removeFirst (fun r => bool_decide (in_face r = face)) (pe_inRecords e)) e.
Definition clearInRecords (e : PitEntry) : PitEntry := set_pe_inRecords [] e.

(** [insertOrUpdateOutRecord]: [update] keeps the recorded Nack. *)
Definition updateOutRecord (now nonce lifetime : Z) (r : OutRecord) : OutRecord :=
  mkOutRecord (out_face r) nonce now (recordExpiry now lifetime) (out_incomingNack r) (out_info r).
Definition insertOrUpdateOutRecord (now : Z) (face : FaceRef) (nonce lifetime : Z)
    (e : PitEntry) : PitEntry :=
  let isFace := fun r => bool_decide (out_face r = face) in
  match getOutRecord e face with
  | None => set_pe_outRecords
              (updateOutRecord now nonce lifetime (mkOutRecord face 0 0 0 None None)
               :: pe_outRecords e) e
  | Some _ => set_pe_outRecords
                (updateFirst isFace (updateOutRecord now nonce lifetime) (pe_outRecords e)) e
  end.
Definition deleteOutRecord (face : FaceRef) (e : PitEntry) : PitEntry :=
  set_pe_outRecords (removeFirst (fun r => bool_decide (out_face r = face)) (pe_outRecords e)) e.

(** [OutRecord::setIncomingNack] on the out-record of [face]; the Boolean is
    whether the Nack is accepted. *)
Definition setIncomingNack (nonce : Z) (reason : NackReason) (r : OutRecord) : OutRecord * bool :=
  if bool_decide (nonce ≠ out_lastNonce r) then (r, false)
  else (mkOutRecord (out_face r) (out_lastNonce r) (out_lastRenewed r) (out_expiry r)
          (Some reason) (out_info r), true).

Definition hasInRecords (e : PitEntry) : bool :=
  match pe_inRecords e with [] => false | _ :: _ => true end.

(** ** Invariant: one record per face *)

Definition in_faces (e : PitEntry) : list FaceRef := map in_face (pe_inRecords e).
Definition out_faces (e : PitEntry) : list FaceRef := map out_face (pe_outRecords e).
Definition pe_inv (e : PitEntry) : Prop := NoDup (in_faces e) ∧ NoDup (out_faces e).

(** [canMatch] is what the two [Name::compare] calls of the source compute. *)
Lemma canMatch_compare hw1 hw2 mine other k :
  Name_ok (i_name mine) → Name_ok (i_name other) →
  (k ≤ length (i_name mine))%nat → (k ≤ length (i_name other))%nat →
  ∃ z1 z2,
    Name_compare hw1 hw2 (i_name mine) (i_name other) 0 (Z.of_nat k) 0 (Z.of_nat k) = Ok z1 ∧
    Name_compare hw1 hw2 (i_name mine) (i_name other) (Z.of_nat k) npos (Z.of_nat k) npos = Ok z2 ∧
    canMatch mine other k =
      if bool_decide (z1 = 0)
      then Ok (bool_decide (z2 = 0) && Bool.eqb (i_canBePrefix mine) (i_canBePrefix other) &&
               Bool.eqb (i_mustBeFresh mine) (i_mustBeFresh other))
      else Fault AssertFailed.
Proof.
  intros Hm Ho Hkm Hko.
  destruct (Name_compare_spec hw1 hw2 (i_name mine) (i_name other) 0 (Z.of_nat k) 0 (Z.of_nat k))
    as (z1 & E1 & S1); [done|done|lia|lia|destruct Hm; unfold Name_size, npos in *; lia..|].
  destruct (Name_compare_spec hw1 hw2 (i_name mine) (i_name other) k npos k npos)
    as (z2 & E2 & S2); [done|done|lia|lia|done..|].
  exists z1, z2. split_and!; [done|done|]. unfold canMatch.
  rewrite !drop_0, !Nat2Z.id in S1.
  rewrite !(take_ge (drop k _)) in S2 by (rewrite length_drop; destruct Hm, Ho; unfold Name_size, npos in *; lia).
  assert (∀ z a b, Z_sign z = name_cmp a b → bool_decide (z = 0) = bool_decide (a = b)) as H0.
  { intros z a b Hz. apply bool_decide_ext. rewrite <-name_cmp_eq, <-Hz. unfold Z_sign.
    symmetry. apply Z.compare_eq_iff. }
  by rewrite (H0 _ _ _ S1), (H0 _ _ _ S2).
Qed.

Lemma canMatch_0 mine other : canMatch mine other 0 = Ok (matchesInterest mine other).
Proof.
  unfold canMatch, matchesInterest. rewrite !drop_0, !take_0, bool_decide_true by done.
  do 3 f_equal. apply eq_true_iff_eq. by rewrite Name_equals_spec, bool_decide_eq_true.
Qed.
Lemma canMatch_prefix mine other k :
  take k (i_name mine) = take k (i_name other) →
  canMatch mine other k = Ok (matchesInterest mine other).
Proof.
  intros E. rewrite <-canMatch_0. unfold canMatch. rewrite E, !take_0, !drop_0, !bool_decide_true by done.
  do 3 f_equal. apply bool_decide_ext. split; [|by intros ->].
  intros Ed. rewrite <-(take_drop k (i_name mine)), <-(take_drop k (i_name other)). by rewrite E, Ed.
Qed.

(** ** Records after an update *)

Lemma insertOrUpdateInRecord_spec now face i nonce lifetime e r :
  pe_inv e →
  r ∈ pe_inRecords (insertOrUpdateInRecord now face i nonce lifetime e) ↔
    r = mkInRecord face nonce now (recordExpiry now lifetime) i ∨
    (r ∈ pe_inRecords e ∧ in_face r ≠ face).
Proof.
  intros [Hnd _]. unfold insertOrUpdateInRecord, getInRecord.
  destruct (List.find _ _) as [r0|] eqn:E; cbn [pe_inRecords set_pe_inRecords].
  - apply find_key_Some in E as [Hin Hf].
    rewrite (elem_of_updateFirst in_face) by done. unfold updateInRecord. split.
    { intros [(r1 & _ & <- & ->)|?]; [by left|by right]. }
    intros [->|?]; [left|by right]. exists r0. by rewrite Hf.
  - apply (find_key_None in_face) in E. rewrite elem_of_cons. unfold updateInRecord. cbn [in_face].
    split; [|by intros [->|[? _]]; [left|right]]. intros [->|Hin]; [by left|right]. split; [done|]. intros <-. apply E.
    apply list_elem_of_fmap. eauto.
Qed.

Lemma insertOrUpdateOutRecord_spec now face nonce lifetime e r :
  pe_inv e →
  r ∈ pe_outRecords (insertOrUpdateOutRecord now face nonce lifetime e) ↔
    (∃ r0, default (mkOutRecord face 0 0 0 None None) (getOutRecord e face) = r0 ∧
       r = mkOutRecord face nonce now (recordExpiry now lifetime) (out_incomingNack r0) (out_info r0)) ∨
    (r ∈ pe_outRecords e ∧ out_face r ≠ face).
Proof.
  intros [_ Hnd]. unfold insertOrUpdateOutRecord.
  destruct (getOutRecord e face) as [r0|] eqn:E; cbn [pe_outRecords set_pe_outRecords default].
  - pose proof E as [Hin Hf]%(find_key_Some out_face).
    rewrite (elem_of_updateFirst out_face) by done. unfold updateOutRecord. split.
    + intros [(r1 & Hr1 & Hf1 & ->)|?]; [left|by right]. exists r1.
      pose proof (find_key_NoDup out_face _ _ Hnd Hr1) as E1. rewrite Hf1 in E1 |- *.
      unfold getOutRecord in E. unfold id. split; [congruence|done].
    + intros [(r1 & <- & ->)|?]; [left|by right]. exists r0. by rewrite Hf.
  - apply (find_key_None out_face) in E. rewrite elem_of_cons. unfold updateOutRecord. cbn [out_face].
    split; [|by intros [(? & <- & ->)|[? _]]; [left|right]].
    intros [->|Hin]; [left; eauto|right]. split; [done|]. intros <-. apply E.
    apply list_elem_of_fmap. eauto.
Qed.

Lemma pe_inv_insertIn now face i nonce lifetime e :
  pe_inv e → pe_inv (insertOrUpdateInRecord now face i nonce lifetime e).
Proof.
  intros [Hin Hout]. unfold insertOrUpdateInRecord, getInRecord.
  destruct (List.find _ _) eqn:E; split; unfold in_faces, out_faces; simpl; try done.
  - by rewrite map_updateFirst.
  - apply (find_key_None in_face) in E. by constructor.
Qed.
Lemma pe_inv_insertOut now face nonce lifetime e :
  pe_inv e → pe_inv (insertOrUpdateOutRecord now face nonce lifetime e).
Proof.
  intros [Hin Hout]. unfold insertOrUpdateOutRecord, getOutRecord.
  destruct (List.find _ _) eqn:E; split; unfold in_faces, out_faces; simpl; try done.
  - by rewrite map_updateFirst.
  - apply (find_key_None out_face) in E. by constructor.
Qed.
Lemma pe_inv_deleteIn face e : pe_inv e → pe_inv (deleteInRecord face e).
Proof. intros [? ?]. split; [by apply NoDup_removeFirst|done]. Qed.
Lemma pe_inv_deleteOut face e : pe_inv e → pe_inv (deleteOutRecord face e).
Proof. intros [? ?]. split; [done|by apply NoDup_removeFirst]. Qed.
Lemma pe_inv_new i : pe_inv (newPitEntry i).
Proof. split; constructor. Qed.
Lemma elem_of_deleteIn face e r :
  pe_inv e → r ∈ pe_inRecords (deleteInRecord face e) ↔ r ∈ pe_inRecords e ∧ in_face r ≠ face.
Proof. intros [? _]. by apply elem_of_removeFirst. Qed.
Lemma elem_of_deleteOut face e r :
  pe_inv e → r ∈ pe_outRecords (deleteOutRecord face e) ↔ r ∈ pe_outRecords e ∧ out_face r ≠ face.
Proof. intros [_ ?]. by apply elem_of_removeFirst. Qed.
Lemma getInRecord_spec e face r :
  pe_inv e → getInRecord e face = Some r ↔ r ∈ pe_inRecords e ∧ in_face r = face.
Proof.
  intros [Hnd _]. split; [apply find_key_Some|]. intros [Hin <-]. by apply find_key_NoDup.
Qed.
Lemma getOutRecord_spec e face r :
  pe_inv e → getOutRecord e face = Some r ↔ r ∈ pe_outRecords e ∧ out_face r = face.
Proof.
  intros [_ Hnd]. split; [apply find_key_Some|]. intros [Hin <-]. by apply find_key_NoDup.
Qed.

Create HintDb pit.
#[export] Hint Resolve pe_inv_insertIn pe_inv_insertOut pe_inv_deleteIn pe_inv_deleteOut
  pe_inv_new : pit.

(** ** Properties *)

(** In- and out-records form a map keyed by face: the operations keep at
    most one record per face; after [insertOrUpdate...Record] the face's
    record has the Interest's Nonce, is renewed now and expires after the
    Interest's lifetime capped at ten days, while every other record is
    unchanged; after [delete...Record] exactly the face's record is gone. *)
Theorem pit_records_map now face i nonce lifetime e :
  pe_inv e →
  let ein := insertOrUpdateInRecord now face i nonce lifetime e in
  let eout := insertOrUpdateOutRecord now face nonce lifetime e in
  (pe_inv ein ∧ pe_inv eout ∧ pe_inv (deleteInRecord face e) ∧ pe_inv (deleteOutRecord face e)) ∧
  getInRecord ein face = Some (mkInRecord face nonce now (recordExpiry now lifetime) i) ∧
  (∃ nack info, getOutRecord eout face =
     Some (mkOutRecord face nonce now (recordExpiry now lifetime) nack info)) ∧
  (∀ f, f ≠ face → getInRecord ein f = getInRecord e f ∧ getOutRecord eout f = getOutRecord e f) ∧
  getInRecord (deleteInRecord face e) face = None ∧
  getOutRecord (deleteOutRecord face e) face = None ∧
  (∀ f, f ≠ face → getInRecord (deleteInRecord face e) f = getInRecord e f ∧
                   getOutRecord (deleteOutRecord face e) f = getOutRecord e f).
Proof.
  intros Hi ein eout.
  assert (pe_inv ein ∧ pe_inv eout ∧ pe_inv (deleteInRecord face e) ∧ pe_inv (deleteOutRecord face e))
    as (H1 & H2 & H3 & H4) by (subst ein eout; auto with pit).
  split_and!; try done.
  - apply getInRecord_spec; [done|]. split; [|done]. apply insertOrUpdateInRecord_spec; auto.
  - eexists _, _. apply getOutRecord_spec; [done|]. split; [|done].
    apply insertOrUpdateOutRecord_spec; [done|]. left. eexists. split; done.
  - intros f Hf. split; apply option_eq; intros r.
    + rewrite !getInRecord_spec by done. unfold ein. rewrite insertOrUpdateInRecord_spec by done.
      split; [|naive_solver]. intros [[->|[? ?]] <-]; [done|auto].
    + rewrite !getOutRecord_spec by done. unfold eout. rewrite insertOrUpdateOutRecord_spec by done.
      split; [|naive_solver]. intros [[(? & _ & ->)|[? ?]] <-]; [done|auto].
  - apply (find_key_None in_face). intros (r & -> & Hr)%list_elem_of_fmap.
    by apply elem_of_deleteIn in Hr as [_ ?].
  - apply (find_key_None out_face). intros (r & -> & Hr)%list_elem_of_fmap.
    by apply elem_of_deleteOut in Hr as [_ ?].
  - intros f Hf. split; apply option_eq; intros r.
    + rewrite !getInRecord_spec, elem_of_deleteIn by done. naive_solver.
    + rewrite !getOutRecord_spec, elem_of_deleteOut by done. naive_solver.
Qed.
Lemma pit_records_map_witness :
  getInRecord (insertOrUpdateInRecord 5 1 0 7 4000 (newPitEntry 0)) 1
  = Some (mkInRecord 1 7 5 (recordExpiry 5 4000) 0).
Proof.
  destruct (pit_records_map 5 1 0 7 4000 (newPitEntry 0) (pe_inv_new 0)) as (_ & H & _). exact H.
Defined.

(** Renewing an out-record does not clear the Nack it received: the
    documentation of [OutRecord] says that the Nack is cleared by the outgoing
    Interest pipeline and that a recorded Nack means the last Interest sent
    was answered with one, but nothing clears it, so after a retransmission to an
    upstream that once returned a Nack, the out-record of the new Interest
    still carries the old Nack. *)
Theorem outRecord_renewal_keeps_nack now face nonce lifetime e r reason :
  pe_inv e → getOutRecord e face = Some r → out_incomingNack r = Some reason →
  ∃ r', getOutRecord (insertOrUpdateOutRecord now face nonce lifetime e) face = Some r' ∧
    out_lastNonce r' = nonce ∧ out_lastRenewed r' = now ∧ out_incomingNack r' = Some reason.
Proof.
  intros Hi Hr Hn. eexists. split.
  - apply getOutRecord_spec; [auto with pit|]. split.
    + apply insertOrUpdateOutRecord_spec; [done|]. left. eexists. split; done.
    + done.
  - rewrite Hr. simpl. auto.
Qed.
Lemma outRecord_renewal_keeps_nack_witness :
  let e := set_pe_outRecords [mkOutRecord 1 7 0 10 (Some Nack_NO_ROUTE) None] (newPitEntry 0) in
  ∃ r', getOutRecord (insertOrUpdateOutRecord 20 1 8 4000 e) 1 = Some r' ∧
    out_lastNonce r' = 8 ∧ out_lastRenewed r' = 20 ∧ out_incomingNack r' = Some Nack_NO_ROUTE.
Proof.
  intros e. apply (outRecord_renewal_keeps_nack 20 1 8 4000 e
    (mkOutRecord 1 7 0 10 (Some Nack_NO_ROUTE) None)).
  - split; repeat constructor. apply not_elem_of_nil.
  - reflexivity.
  - reflexivity.
Defined.
