(* ===== verification/Store.v ===== *)
(** * The state shared by the tables

    FIB, PIT and StrategyChoice keep their entries in one name tree.  The FIB
    entry of a name and the strategy of a name sit in the tree's slots; PIT
    entries are shared objects, so the tree holds references into a store of
    PIT entries, which in turn refer to a store of Interests.  A strategy
    instance is a number; Measurements entries are not modelled, and their slot
    can only be empty or occupied. *)

From S2P Require Import Prelude Tlv Component Name Packet Hashtable NameTree Face FibEntry PitEntry.
Local Open Scope Z_scope.

Abbreviation StrategyRef := nat.
Abbreviation NTables := (Tables FibEntry PitRef unit StrategyRef).
Abbreviation NTree := (NameTree NTables).

Record Store := mkStore {
  st_nameTree : NTree;
  st_fibItems : Z;                      (* [Fib::m_nItems] *)
  st_pitItems : Z;                      (* [Pit::m_nItems] *)
  st_pits : gmap PitRef PitEntry;
  st_interests : gmap InterestRef Interest
}.

Definition set_st_nameTree (nt : NTree) (s : Store) : Store :=
  mkStore nt (st_fibItems s) (st_pitItems s) (st_pits s) (st_interests s).
Definition set_st_fibItems (n : Z) (s : Store) : Store :=
  mkStore (st_nameTree s) n (st_pitItems s) (st_pits s) (st_interests s).
Definition set_st_pitItems (n : Z) (s : Store) : Store :=
  mkStore (st_nameTree s) (st_fibItems s) n (st_pits s) (st_interests s).
Definition set_st_pits (m : gmap PitRef PitEntry) (s : Store) : Store :=
  mkStore (st_nameTree s) (st_fibItems s) (st_pitItems s) m (st_interests s).
Definition set_st_interests (m : gmap InterestRef Interest) (s : Store) : Store :=
  mkStore (st_nameTree s) (st_fibItems s) (st_pitItems s) (st_pits s) m.

(** A name-tree operation on the shared tree. *)
Definition onNameTree {A} : M NTree A → M Store A := zoom st_nameTree set_st_nameTree.

Definition Store_init (nBuckets : nat) : Store :=
  mkStore (NameTree_init nBuckets) 0 0 ∅ ∅.

(** Access to the objects. *)
Definition getInterest (r : InterestRef) : M Store Interest :=
  s ← get; deref (st_interests s !! r).
Definition setInterest (r : InterestRef) (f : Interest → Interest) : M Store unit :=
  i ← getInterest r; modify (fun s => set_st_interests (<[r := f i]> (st_interests s)) s).
Definition getPitEntry (r : PitRef) : M Store PitEntry :=
  s ← get; deref (st_pits s !! r).
Definition setPitEntry (r : PitRef) (f : PitEntry → PitEntry) : M Store unit :=
  e ← getPitEntry r; modify (fun s => set_st_pits (<[r := f e]> (st_pits s)) s).
(** [make_shared<Interest>] for a received packet. *)
Definition newInterest (i : Interest) : M Store InterestRef :=
  s ← get;
  let r := fresh (dom (st_interests s)) in
  put (set_st_interests (<[r := i]> (st_interests s)) s);; mret r.

(** [pitEntry->getInterest()]. *)
Definition pitInterest (s : Store) (r : PitRef) : option Interest :=
  pe ← st_pits s !! r; st_interests s !! pe_interest pe.

(** The slots of a name. *)
Definition pitSlot (s : Store) (n : Name) : list PitRef := t_pit (tablesAt (st_nameTree s) n).
Definition fibSlot (s : Store) (n : Name) : option FibEntry := t_fib (tablesAt (st_nameTree s) n).

(** Setters of [name_tree::Entry]. *)
Definition setFibSlot (v : option FibEntry) (t : NTables) : NTables :=
  mkTables v (t_pit t) (t_meas t) (t_sc t).
Definition setPitSlot (v : list PitRef) (t : NTables) : NTables :=
  mkTables (t_fib t) v (t_meas t) (t_sc t).
Definition setStrategySlot (v : option StrategyRef) (t : NTables) : NTables :=
  mkTables (t_fib t) (t_pit t) (t_meas t) v.
