(* ===== verification/Pit.v ===== *)
(** * The Pending Interest Table (NFD [table/pit.cpp], [table/name-tree-entry.cpp]) *)

From S2P Require Import Prelude Tlv Component Name Packet.
From S2P Require Import Hashtable NameTree Face FibEntry PitEntry Store.
Local Open Scope Z_scope.

(** The name-tree depth a PIT entry is attached at: without the implicit
    digest, and at most the depth of the tree. *)
Definition hasDigest (name : Name) : bool :=
  match last name with Some c => isImplicitSha256Digest c | None => false end.
Definition nteDepth (name : Name) : nat :=
  ((length name - if hasDigest name then 1 else 0) `min` getMaxDepth)%nat.
Definition nteName (name : Name) : Name := take (nteDepth name) name.

(** [name_tree::Entry::erasePitEntry]: the last reference takes the place of
    the erased one. *)
Definition swapRemove (r : PitRef) (l : list PitRef) : list PitRef :=
  match last l with
  | None => []
  | Some back => take (length l - 1)
                   (updateFirst (fun x => bool_decide (x = r)) (fun _ => back) l)
  end.

Section pit.
Context (HashFunc : Component → Z).

(** The [find_if] over the entries of a name-tree entry. *)
Fixpoint findMatching (interest : Interest) (depth : nat) (l : list PitRef) : M Store (option PitRef) :=
  match l with
  | [] => mret None
  | r :: l' =>
      pe ← getPitEntry r;
      mine ← getInterest (pe_interest pe);
      b ← lift (canMatch mine interest depth);
      if b : bool then mret (Some r) else findMatching interest depth l'
  end.

(** [name_tree::Entry::insertPitEntry]. *)
Definition insertPitEntry (n : Name) (r : PitRef) : M Store unit :=
  pe ← getPitEntry r;
  assertM (bool_decide (pe_nameTreeEntry pe = None));;
  onNameTree (updTables n (fun t => setPitSlot (t_pit t ++ [r]) t));;
  setPitEntry r (set_pe_nameTreeEntry (Some n)).

(** [Pit::findOrInsert].  [ref] is the reference of the Interest object, which
    a new entry keeps. *)
Definition findOrInsert (interest : Interest) (ref : InterestRef) (allowInsert : bool)
  : M Store (option PitRef * bool) :=
  let name := i_name interest in
  let depth := nteDepth name in
  nte ← (if allowInsert then n ← onNameTree (nt_lookup HashFunc name depth); mret (Some n)
         else s ← get; mret (findExactMatch HashFunc (st_nameTree s) name depth));
  match nte with
  | None => mret (None, true)
  | Some n =>
      e ← onNameTree (entry n);
      it ← findMatching interest depth (t_pit (e_tables e));
      match it with
      | Some r => mret (Some r, false)
      | None =>
          if negb allowInsert then assertM (negb (isEmpty e));; mret (None, true)
          else
            s ← get;
            let r := fresh (dom (st_pits s)) in
            put (set_st_pits (<[r := newPitEntry ref]> (st_pits s)) s);;
            insertPitEntry n r;;
            modify (fun s => set_st_pitItems (u64 (st_pitItems s + 1)) s);;
            mret (Some r, true)
      end
  end.
(** [Pit::find] and [Pit::insert]. *)
Definition Pit_find (interest : Interest) : M Store (option PitRef) :=
  '(r, _) ← findOrInsert interest 0 false; mret r.
Definition Pit_insert (interest : Interest) (ref : InterestRef) : M Store (option PitRef * bool) :=
  findOrInsert interest ref true.

(** [Pit::findBasedOnName]: the added lookup of reflexive forwarding. *)
Definition findBasedOnName (s : Store) (name : Name) : option PitRef :=
  match findExactMatch HashFunc (st_nameTree s) name (length name) with
  | None => None
  | Some n =>
      List.find (fun r => match pitInterest s r with
                          | Some i => Name_equals (i_name i) name | None => false end)
        (pitSlot s n)
  end.

(** [Pit::findAllDataMatches]. *)
Definition nteHasPitEntries (n : Name) (e : Entry NTables) : bool :=
  match t_pit (e_tables e) with [] => false | _ :: _ => true end.
Definition entryMatchesData (s : Store) (d : Data) (r : PitRef) : bool :=
  match pitInterest s r with Some i => matchesData i d | None => false end.
Definition findAllDataMatches (s : Store) (d : Data) : list PitRef :=
  concat (map (fun n => filter (entryMatchesData s d) (pitSlot s n))
    (findAllMatches HashFunc (st_nameTree s) nteHasPitEntries (d_name d))).

(** [Pit::erase]. *)
Definition Pit_erase (r : PitRef) (canDeleteNte : bool) : M Store unit :=
  pe ← getPitEntry r;
  match pe_nameTreeEntry pe with
  | None => raise AssertFailed
  | Some n =>
      e ← onNameTree (entry n);
      assertM (bool_decide (r ∈ t_pit (e_tables e)));;
      setPitEntry r (set_pe_nameTreeEntry None);;
      onNameTree (updTables n (fun t => setPitSlot (swapRemove r (t_pit t)) t));;
      (if canDeleteNte then onNameTree (eraseIfEmpty HashFunc n true);; mret tt else mret tt);;
      modify (fun s => set_st_pitItems (u64 (st_pitItems s - 1)) s)
  end.

(** [Pit::deleteInOutRecords]. *)
Definition deleteInOutRecords (r : PitRef) (face : FaceRef) : M Store unit :=
  setPitEntry r (fun pe => deleteOutRecord face (deleteInRecord face pe)).

(** [Pit::begin() .. end()]: all entries, in the order of the tree. *)
Definition Pit_entries (s : Store) : list PitRef :=
  concat (map (pitSlot s) (fullEnumerate (st_nameTree s) nteHasPitEntries)).

(** ** Invariant *)

Definition attached (s : Store) (r : PitRef) (n : Name) : Prop :=
  ∃ pe, st_pits s !! r = Some pe ∧ pe_nameTreeEntry pe = Some n.

Record entry_ok (s : Store) (pe : PitEntry) : Prop := {
  eo_records : pe_inv pe;
  eo_interest : is_Some (st_interests s !! pe_interest pe);
  eo_in : ∀ r, r ∈ pe_inRecords pe → is_Some (st_interests s !! in_interest r)
}.

Definition nAttached (m : gmap PitRef PitEntry) : nat :=
  size (filter (fun rp => is_Some (pe_nameTreeEntry rp.2)) m).

Record pit_inv (s : Store) : Prop := {
  pi_nt : nt_inv HashFunc (st_nameTree s);
  pi_slot : ∀ n r, r ∈ pitSlot s n ↔ attached s r n;
  pi_nodup : ∀ n, NoDup (pitSlot s n);
  pi_entry : ∀ r pe, st_pits s !! r = Some pe → entry_ok s pe;
  pi_place : ∀ r n i, attached s r n → pitInterest s r = Some i → n = nteName (i_name i);
  pi_unique : ∀ r1 r2 n1 n2 i1 i2,
    attached s r1 n1 → attached s r2 n2 →
    pitInterest s r1 = Some i1 → pitInterest s r2 = Some i2 →
    matchesInterest i1 i2 = true → r1 = r2;
  pi_count : st_pitItems s = u64 (Z.of_nat (nAttached (st_pits s)))
}.

(** ** Lemmas on the parts of the invariant *)

Lemma swapRemove_perm r l : NoDup l → r ∈ l → r :: swapRemove r l ≡ₚ l.
Proof.
  intros Hnd Hin. destruct l as [|back l _] using rev_ind; [by apply not_elem_of_nil in Hin|].
  unfold swapRemove. rewrite last_snoc, length_app. simpl. rewrite Nat.add_sub.
  assert (∀ l', r ∉ l' → updateFirst (fun x => bool_decide (x = r)) (fun _ => back) l' = l') as Hno.
  { induction l' as [|x l' IH]; simpl; [done|]. rewrite not_elem_of_cons. intros [? ?].
    rewrite bool_decide_false by congruence. by rewrite IH. }
  apply NoDup_app in Hnd as (Hnd & Hdis & _).
  destruct (decide (r ∈ l)) as [Hl|Hl].
  - assert (∀ l', r ∈ l' → updateFirst (fun x => bool_decide (x = r)) (fun _ => back) (l' ++ [back])
      = updateFirst (fun x => bool_decide (x = r)) (fun _ => back) l' ++ [back] ∧
      r :: updateFirst (fun x => bool_decide (x = r)) (fun _ => back) l' ≡ₚ l' ++ [back] ∧
      length (updateFirst (fun x => bool_decide (x = r)) (fun _ => back) l') = length l') as Hyes.
    { induction l' as [|x l' IH]; [by intros ?%not_elem_of_nil|]. simpl. intros Hx.
      case_bool_decide as E.
      - subst. split_and!; [done| |done]. apply perm_skip, Permutation_cons_append.
      - destruct IH as (E1 & E2 & E3); [set_solver|]. split_and!.
        + by rewrite E1.
        + rewrite perm_swap. by rewrite E2.
        + simpl. by rewrite E3. }
    destruct (Hyes l Hl) as (-> & Hp & Hlen). by rewrite take_app_length'.
  - assert (r = back) as -> by set_solver.
    assert (∀ l', back ∉ l' → updateFirst (fun x => bool_decide (x = back)) (fun _ => back)
      (l' ++ [back]) = l' ++ [back]) as Hlast.
    { induction l' as [|x l' IH]; simpl; [by rewrite bool_decide_true|]. rewrite not_elem_of_cons.
      intros [? ?]. rewrite bool_decide_false by congruence. by rewrite IH. }
    rewrite Hlast, take_app_length by done. apply Permutation_cons_append.
Qed.

Lemma nteName_length name : (nteDepth name ≤ length name)%nat ∧ (nteDepth name ≤ getMaxDepth)%nat.
Proof. unfold nteDepth. lia. Qed.

(** An Interest that matches a Data is attached at a prefix of its name. *)
Lemma matchesData_nte i d :
  matchesData i d = true → nteName (i_name i) `prefix_of` d_name d.
Proof.
  unfold matchesData. intros H.
  destruct (if bool_decide _ then _ else _) eqn:E in H; [clear H|done]. revert E.
  assert (∀ n, nteName n `prefix_of` n) as Hpre by (intros; apply prefix_take).
  case_bool_decide as Hl.
  - unfold nteName, nteDepth, hasDigest. destruct (last (i_name i)) as [c|]; [|done].
    destruct (isImplicitSha256Digest c); [|done]. intros ->%Name_equals_spec.
    unfold getFullName. rewrite length_app. simpl. rewrite Nat.add_sub.
    rewrite take_app_le by lia. apply prefix_take.
  - destruct (i_canBePrefix i).
    + intros Hp%isPrefixOf_spec. etransitivity; [apply Hpre|done].
    + intros <-%Name_equals_spec. apply Hpre.
Qed.

Lemma nAttached_new m r pe :
  m !! r = None → is_Some (pe_nameTreeEntry pe) → nAttached (<[r := pe]> m) = S (nAttached m).
Proof.
  intros Hr Hpe. unfold nAttached. rewrite map_filter_insert_True by done.
  rewrite map_size_insert_None; [done|]. apply map_lookup_filter_None. by left.
Qed.
Lemma nAttached_same m r pe pe' :
  m !! r = Some pe → (is_Some (pe_nameTreeEntry pe) ↔ is_Some (pe_nameTreeEntry pe')) →
  nAttached (<[r := pe']> m) = nAttached m.
Proof.
  intros Hr Hpe. unfold nAttached. destruct (decide (is_Some (pe_nameTreeEntry pe'))) as [Hs|Hs].
  - rewrite map_filter_insert_True by done. apply map_size_insert_Some. exists pe.
    apply map_lookup_filter_Some. by rewrite Hpe.
  - rewrite map_filter_insert_False by done. f_equal. rewrite map_filter_delete.
    apply delete_id. apply map_lookup_filter_None. right. intros x Hx. simpl. naive_solver.
Qed.
Lemma nAttached_detach m r pe pe' :
  m !! r = Some pe → is_Some (pe_nameTreeEntry pe) → pe_nameTreeEntry pe' = None →
  nAttached m = S (nAttached (<[r := pe']> m)).
Proof.
  intros Hr Hpe Hpe'. unfold nAttached.
  rewrite map_filter_insert_False by (simpl; rewrite Hpe'; by intros []).
  rewrite map_filter_delete.
  assert (filter (λ rp : PitRef * PitEntry, is_Some (pe_nameTreeEntry rp.2)) m !! r = Some pe) as Hf
    by by apply map_lookup_filter_Some.
  rewrite map_size_delete_Some by eauto.
  assert (size (filter (λ rp : PitRef * PitEntry, is_Some (pe_nameTreeEntry rp.2)) m) ≠ 0%nat); [|lia].
  intros E%map_size_empty_inv. by rewrite E, lookup_empty in Hf.
Qed.

(** The slots of the other tables. *)
Definition nonPit (s : Store) (n : Name) : NTables := setPitSlot [] (tablesAt (st_nameTree s) n).

(** ** Changes that keep the invariant *)

(** The fields of an Interest that the PIT reads; the forwarder never changes
    them. *)
Definition sameKey (i j : Interest) : Prop :=
  i_name i = i_name j ∧ i_canBePrefix i = i_canBePrefix j ∧ i_mustBeFresh i = i_mustBeFresh j.
Lemma sameKey_refl i : sameKey i i.
Proof. done. Qed.

Lemma pit_inv_nt s nt' :
  pit_inv s → nt_inv HashFunc nt' → (∀ n, t_pit (tablesAt nt' n) = pitSlot s n) →
  pit_inv (set_st_nameTree nt' s).
Proof.
  intros [H1 H2 H3 H4 H5 H6 H7] Hnt Hslot.
  assert (∀ n, pitSlot (set_st_nameTree nt' s) n = pitSlot s n) as Hs by done.
  split; try done.
  - intros n r. rewrite Hs. apply H2.
  - intros n. rewrite Hs. apply H3.
  - intros r pe Hr. destruct (H4 r pe Hr). by split.
Qed.

Lemma pit_inv_entry s r pe pe' :
  pit_inv s → st_pits s !! r = Some pe →
  pe_interest pe' = pe_interest pe → pe_nameTreeEntry pe' = pe_nameTreeEntry pe →
  entry_ok s pe' → pit_inv (set_st_pits (<[r := pe']> (st_pits s)) s).
Proof.
  intros [H1 H2 H3 H4 H5 H6 H7] Hr Hi Hn Hok. set (s' := set_st_pits _ s).
  assert (∀ r' n, attached s' r' n ↔ attached s r' n) as Hatt.
  { intros r' n. unfold attached, s'. cbn [st_pits set_st_pits]. rewrite lookup_insert.
    case_decide as E; [subst r'|done]. split; intros (x & Ex & Hx).
    - injection Ex as <-. exists pe. split; [done|congruence].
    - rewrite Hr in Ex. injection Ex as <-. exists pe'. split; [done|congruence]. }
  assert (∀ r', pitInterest s' r' = pitInterest s r') as Hpi.
  { intros r'. unfold pitInterest, s'. cbn [st_pits set_st_pits st_interests]. rewrite lookup_insert.
    case_decide as E; [subst|done]. rewrite Hr. simpl. by rewrite Hi. }
  split; try done.
  - intros n r'. rewrite Hatt. apply H2.
  - intros r' x. unfold s'. cbn [st_pits set_st_pits]. rewrite lookup_insert. case_decide.
    + intros [= <-]. by destruct Hok.
    + intros Hx. by destruct (H4 _ _ Hx).
  - intros r' n i. rewrite Hatt, Hpi. apply H5.
  - intros r1 r2 n1 n2 i1 i2. rewrite !Hatt, !Hpi. apply H6.
  - unfold s'. cbn [st_pits set_st_pits st_pitItems]. rewrite (nAttached_same _ _ pe), H7; [done|done|].
    by rewrite Hn.
Qed.

Lemma matchesInterest_sameKey i1 i2 j1 j2 :
  sameKey i1 j1 → sameKey i2 j2 → matchesInterest i1 i2 = matchesInterest j1 j2.
Proof. intros (E1 & E2 & E3) (F1 & F2 & F3). unfold matchesInterest. congruence. Qed.

Lemma pit_inv_interest s r i :
  pit_inv s → (∀ i0, st_interests s !! r = Some i0 → sameKey i0 i) →
  pit_inv (set_st_interests (<[r := i]> (st_interests s)) s).
Proof.
  intros [H1 H2 H3 H4 H5 H6 H7] Hk. set (s' := set_st_interests _ s).
  assert (∀ r' j, pitInterest s' r' = Some j → ∃ j0, pitInterest s r' = Some j0 ∧ sameKey j0 j) as Hpi.
  { intros r' j. unfold pitInterest, s'. cbn [st_pits set_st_interests st_interests].
    destruct (st_pits s !! r') as [pe|] eqn:Hr; [|done]. simpl.
    destruct (H4 _ _ Hr) as [_ [j0 Hj0] _]. rewrite Hj0, lookup_insert. case_decide as E.
    - subst r. intros [= <-]. eauto.
    - rewrite Hj0. intros [= <-]. exists j0. done. }
  split; try done.
  - intros r' pe Hr. destruct (H4 _ _ Hr) as [? ? Hin].
    assert (∀ x, is_Some (st_interests s !! x) → is_Some (st_interests s' !! x)) as Hmono.
    { intros x Hx. unfold s'. cbn [st_interests set_st_interests]. rewrite lookup_insert. by case_decide. }
    split; [done|auto|auto].
  - intros r' n j Ha (j0 & Hj0 & <- & _)%Hpi. by eapply H5.
  - intros r1 r2 n1 n2 i1 i2 Ha1 Ha2 (j1 & E1 & K1)%Hpi (j2 & E2 & K2)%Hpi Hm.
    eapply H6; [done..|]. by rewrite (matchesInterest_sameKey _ _ _ _ K1 K2).
Qed.

(** ** find and insert *)

Lemma onNameTree_Ok {A} (m : M NTree A) s a nt' :
  m (st_nameTree s) = Ok (a, nt') → onNameTree m s = Ok (a, set_st_nameTree nt' s).
Proof. intros H. unfold onNameTree, zoom. by rewrite H. Qed.
Lemma set_st_nameTree_id s : set_st_nameTree (st_nameTree s) s = s.
Proof. by destruct s. Qed.
Lemma onNameTree_entry s n e :
  nt_entries (st_nameTree s) !! n = Some e → onNameTree (entry n) s = Ok (e, s).
Proof.
  intros H. erewrite onNameTree_Ok; [by rewrite set_st_nameTree_id|].
  unfold entry. munfold. by rewrite H.
Qed.
Lemma getPitEntry_Ok s r pe : st_pits s !! r = Some pe → getPitEntry r s = Ok (pe, s).
Proof. intros H. unfold getPitEntry. munfold. by rewrite H. Qed.
Lemma getInterest_Ok s r i : st_interests s !! r = Some i → getInterest r s = Ok (i, s).
Proof. intros H. unfold getInterest. munfold. by rewrite H. Qed.
Lemma setPitEntry_Ok s r pe f :
  st_pits s !! r = Some pe →
  setPitEntry r f s = Ok (tt, set_st_pits (<[r := f pe]> (st_pits s)) s).
Proof. intros H. unfold setPitEntry. munfold. by rewrite (getPitEntry_Ok _ _ _ H). Qed.
Lemma setInterest_Ok s r i f :
  st_interests s !! r = Some i →
  setInterest r f s = Ok (tt, set_st_interests (<[r := f i]> (st_interests s)) s).
Proof. intros H. unfold setInterest. munfold. by rewrite (getInterest_Ok _ _ _ H). Qed.

Lemma pitSlot_entry s n e :
  nt_entries (st_nameTree s) !! n = Some e → t_pit (e_tables e) = pitSlot s n.
Proof. intros H. unfold pitSlot, tablesAt, tablesOf. by rewrite H. Qed.
Lemma pitSlot_no_entry s n : nt_entries (st_nameTree s) !! n = None → pitSlot s n = [].
Proof. intros H. unfold pitSlot, tablesAt, tablesOf. by rewrite H. Qed.

Definition matchesEntry (s : Store) (interest : Interest) (r : PitRef) : bool :=
  match pitInterest s r with Some i => matchesInterest i interest | None => false end.

Lemma nteName_eq n1 n2 : nteName n1 = nteName n2 → nteDepth n1 = nteDepth n2.
Proof.
  intros E%(f_equal length). unfold nteName in E. rewrite !length_take in E.
  pose proof (nteName_length n1). pose proof (nteName_length n2). lia.
Qed.

Lemma slot_interest s name r :
  pit_inv s → r ∈ pitSlot s (nteName name) →
  ∃ pe i, st_pits s !! r = Some pe ∧ st_interests s !! pe_interest pe = Some i ∧
    take (nteDepth name) (i_name i) = take (nteDepth name) name.
Proof.
  intros Hi Hr. pose proof (proj1 (pi_slot s Hi _ r) Hr) as Ha. pose proof Ha as (pe & Hpe & Hn).
  destruct (eo_interest _ _ (pi_entry s Hi _ _ Hpe)) as [i Hint]. exists pe, i.
  split_and!; [done|done|].
  assert (pitInterest s r = Some i) as Hpi by (unfold pitInterest; by rewrite Hpe).
  pose proof (pi_place s Hi _ _ _ Ha Hpi) as E. rewrite (nteName_eq _ _ E).
  unfold nteName in E at 2. rewrite <-E. unfold nteName. by rewrite (nteName_eq _ _ E).
Qed.

Lemma findMatching_spec s interest l :
  pit_inv s → (∀ r, r ∈ l → r ∈ pitSlot s (nteName (i_name interest))) →
  findMatching interest (nteDepth (i_name interest)) l s
  = Ok (List.find (matchesEntry s interest) l, s).
Proof.
  intros Hi. induction l as [|r l IH]; intros Hl; [done|].
  destruct (slot_interest s (i_name interest) r Hi ltac:(apply Hl; by left)) as (pe & i & Hpe & Hint & E).
  cbn [findMatching List.find]. munfold.
  rewrite (getPitEntry_Ok _ _ _ Hpe), (getInterest_Ok _ _ _ Hint), canMatch_prefix by done.
  unfold matchesEntry at 1, pitInterest at 1. rewrite Hpe. simpl. rewrite Hint.
  destruct (matchesInterest i interest); [done|]. apply IH. intros. apply Hl. by right.
Qed.

Lemma Pit_find_spec s interest :
  pit_inv s →
  Pit_find interest s =
    match nt_entries (st_nameTree s) !! nteName (i_name interest) with
    | None => Ok (None, s)
    | Some e =>
        match List.find (matchesEntry s interest) (pitSlot s (nteName (i_name interest))) with
        | Some r => Ok (Some r, s)
        | None => if isEmpty e then Fault AssertFailed else Ok (None, s)
        end
    end.
Proof.
  intros Hi. unfold Pit_find, findOrInsert. munfold.
  rewrite findExactMatch_spec by apply Hi. fold (nteName (i_name interest)).
  destruct (nt_entries _ !! _) as [e|] eqn:He; [|by rewrite decide_False by (intros []; done)].
  rewrite decide_True by eauto. rewrite (onNameTree_entry _ _ _ He), (pitSlot_entry _ _ _ He).
  rewrite findMatching_spec by done. destruct (List.find _ _); [done|]. simpl.
  unfold assertM. by destruct (isEmpty e).
Qed.

(** At most one attached entry matches an Interest, and it is in the slot
    the Interest's name selects. *)
Lemma find_matchesEntry s interest r n :
  pit_inv s → attached s r n → matchesEntry s interest r = true →
  n = nteName (i_name interest) ∧
  List.find (matchesEntry s interest) (pitSlot s (nteName (i_name interest))) = Some r.
Proof.
  intros Hi Ha Hm. pose proof Hm as Hm0. unfold matchesEntry in Hm0.
  destruct (pitInterest s r) as [i|] eqn:Hpi; [|done].
  pose proof (pi_place s Hi _ _ _ Ha Hpi) as ->.
  apply matchesInterest_spec in Hm0 as (En & Ec & Ef). split; [by rewrite En|].
  assert (r ∈ pitSlot s (nteName (i_name interest))) as Hin.
  { apply (pi_slot s Hi). by rewrite <-En. }
  destruct (List.find _ _) as [r'|] eqn:Hf.
  - apply find_some in Hf as [Hr' Hm']. apply list_elem_of_In in Hr'. f_equal.
    unfold matchesEntry in Hm'. destruct (pitInterest s r') as [i'|] eqn:Hpi'; [|done].
    eapply (pi_unique s Hi); [by apply (pi_slot s Hi)|exact Ha|exact Hpi'|exact Hpi|].
    apply matchesInterest_spec in Hm' as (? & ? & ?). apply matchesInterest_spec.
    split_and!; congruence.
  - apply find_none with (x := r) in Hf; [congruence|]. by apply list_elem_of_In.
Qed.

Lemma Pit_find_Some s interest r n :
  pit_inv s → attached s r n → matchesEntry s interest r = true →
  Pit_find interest s = Ok (Some r, s).
Proof.
  intros Hi Ha Hm. rewrite Pit_find_spec by done.
  destruct (find_matchesEntry s interest r n Hi Ha Hm) as [-> Hf].
  destruct (nt_entries _ !! _) as [e|] eqn:He; [by rewrite Hf|].
  apply (pi_slot s Hi) in Ha. rewrite pitSlot_no_entry in Ha by done. by apply not_elem_of_nil in Ha.
Qed.

(** Attaching a new entry. *)
Definition attachEntry (nt' : NTree) (r : PitRef) (ref : InterestRef) (n : Name) (s : Store) : Store :=
  mkStore nt' (st_fibItems s) (u64 (st_pitItems s + 1))
    (<[r := set_pe_nameTreeEntry (Some n) (newPitEntry ref)]> (st_pits s)) (st_interests s).

Lemma pit_inv_attach s nt' r ref i n :
  pit_inv s → st_pits s !! r = None → st_interests s !! ref = Some i → n = nteName (i_name i) →
  nt_inv HashFunc nt' →
  (∀ x, t_pit (tablesAt nt' x) = if decide (x = n) then pitSlot s n ++ [r] else pitSlot s x) →
  (∀ r' n', attached s r' n' → matchesEntry s i r' = false) →
  pit_inv (attachEntry nt' r ref n s).
Proof.
  intros Hi Hr Hint Hn Hnt Hslot Hnew. set (s' := attachEntry nt' r ref n s).
  assert (∀ r' x, attached s' r' x ↔ attached s r' x ∨ (r' = r ∧ x = n)) as Hatt.
  { intros r' x. unfold attached, s', attachEntry. cbn [st_pits]. rewrite lookup_insert.
    case_decide as E.
    - subst r'. rewrite Hr. split.
      + intros (pe & [= <-] & [= ->]). auto.
      + intros [(pe & ? & _)|[_ ->]]; [done|eauto].
    - split; [auto|]. intros [?|[? _]]; [done|congruence]. }
  assert (∀ r', pitInterest s' r' = if decide (r' = r) then Some i else pitInterest s r') as Hpi.
  { intros r'. unfold pitInterest, s', attachEntry. cbn [st_pits st_interests]. rewrite lookup_insert.
    destruct (decide (r = r')) as [->|]; [by rewrite decide_True|by rewrite decide_False]. }
  assert (r ∉ pitSlot s n) as Hnin.
  { intros (pe & ? & _)%(pi_slot s Hi). congruence. }
  split.
  - done.
  - intros x r'. unfold pitSlot, s', attachEntry. cbn [st_nameTree]. rewrite Hslot.
    fold (attachEntry nt' r ref n s). fold s'. rewrite Hatt.
    destruct (decide (x = n)) as [->|Hx].
    + rewrite elem_of_app, list_elem_of_singleton, (pi_slot s Hi). naive_solver.
    + rewrite (pi_slot s Hi). naive_solver.
  - intros x. unfold pitSlot, s', attachEntry. cbn [st_nameTree]. rewrite Hslot. case_decide.
    + apply NoDup_app. split_and!; [apply Hi| |apply NoDup_singleton].
      by intros y Hy ->%list_elem_of_singleton.
    + apply Hi.
  - intros r' pe. unfold s', attachEntry. cbn [st_pits]. rewrite lookup_insert. case_decide.
    + intros [= <-]. split; [apply (pe_inv_new ref)|by exists i|]. simpl. by intros ? ?%not_elem_of_nil.
    + intros Hpe. by destruct (pi_entry s Hi _ _ Hpe).
  - intros r' x j Ha Hj. rewrite Hatt in Ha. rewrite Hpi in Hj. destruct (decide (r' = r)) as [->|].
    + destruct Ha as [(pe & ? & _)|[_ ->]]; congruence.
    + destruct Ha as [Ha|[? _]]; [exact (pi_place s Hi _ _ _ Ha Hj)|congruence].
  - intros r1 r2 n1 n2 i1 i2 Ha1 Ha2 Hp1 Hp2 Hm. rewrite Hatt in Ha1, Ha2. rewrite Hpi in Hp1, Hp2.
    destruct (decide (r1 = r)) as [->|], (decide (r2 = r)) as [->|]; [done| | |].
    + destruct Ha2 as [Ha2|[? _]]; [|done]. specialize (Hnew _ _ Ha2). unfold matchesEntry in Hnew.
      rewrite Hp2 in Hnew. injection Hp1 as <-. apply matchesInterest_spec in Hm as (? & ? & ?).
      assert (matchesInterest i2 i = true); [|congruence]. apply matchesInterest_spec. auto.
    + destruct Ha1 as [Ha1|[? _]]; [|done]. specialize (Hnew _ _ Ha1). unfold matchesEntry in Hnew.
      rewrite Hp1 in Hnew. congruence.
    + destruct Ha1 as [Ha1|[? _]], Ha2 as [Ha2|[? _]]; [|done..].
      exact (pi_unique s Hi _ _ _ _ _ _ Ha1 Ha2 Hp1 Hp2 Hm).
  - unfold s', attachEntry. cbn [st_pits st_pitItems]. rewrite nAttached_new, (pi_count s Hi) by done.
    rewrite u64_add_l. f_equal. lia.
Qed.

(** Inserting a PIT entry leaves no empty name-tree entry. *)
Lemma noEmpty_insert (nt nt' : NTree) name :
  nt_inv HashFunc nt → nt_inv HashFunc nt' → noEmpty nt →
  (∀ x, tablesAt nt x ≠ noTables → tablesAt nt' x ≠ noTables) →
  (∀ x, is_Some (nt_entries nt' !! x) ↔
        is_Some (nt_entries nt !! x) ∨ ∃ j, (j ≤ nteDepth name)%nat ∧ x = take j name) →
  tablesAt nt' (nteName name) ≠ noTables → noEmpty nt'.
Proof.
  intros Hi Hi' Hne Ht Hd Hn. apply (noEmpty_grow HashFunc nt nt' (nteName name)); try done.
  - intros x Hx. apply Hd. by left.
  - intros x [?|(j & Hj & ->)]%Hd; [by left|right]. unfold nteName.
    replace (take j name) with (take j (take (nteDepth name) name)) by (rewrite take_take; f_equal; lia).
    apply prefix_take.
  - apply Hd. right. by exists (nteDepth name).
Qed.

Lemma Pit_insert_spec s interest ref :
  pit_inv s → st_interests s !! ref = Some interest →
  ∃ r isNew s', Pit_insert interest ref s = Ok ((Some r, isNew), s') ∧ pit_inv s' ∧
    attached s' r (nteName (i_name interest)) ∧ matchesEntry s' interest r = true ∧
    st_interests s' = st_interests s ∧ st_fibItems s' = st_fibItems s ∧
    (∀ n, nonPit s' n = nonPit s n) ∧
    (if isNew : bool
     then (∀ r' n, attached s r' n → matchesEntry s interest r' = false) ∧
          st_pits s !! r = None ∧
          st_pits s' = <[r := set_pe_nameTreeEntry (Some (nteName (i_name interest)))
                               (newPitEntry ref)]> (st_pits s)
     else st_pits s' = st_pits s) ∧
    (noEmpty (st_nameTree s) → noEmpty (st_nameTree s')).
Proof.
  intros Hi Hint. set (n := nteName (i_name interest)).
  destruct (nteName_length (i_name interest)) as [Hl Hd].
  destruct (nt_lookup_spec HashFunc (st_nameTree s) (i_name interest) (nteDepth (i_name interest)))
    as (nt1 & Hrun & Hnt1 & Ht1 & Hdom); [apply Hi|done|done|]. fold (nteName (i_name interest)) in Hrun.
  fold n in Hrun.
  assert (pit_inv (set_st_nameTree nt1 s)) as Hi1.
  { apply pit_inv_nt; [done|done|]. intros x. by rewrite Ht1. }
  assert (is_Some (nt_entries nt1 !! n)) as [e He].
  { apply Hdom. right. by exists (nteDepth (i_name interest)). }
  unfold Pit_insert, findOrInsert. munfold. rewrite (onNameTree_Ok _ _ _ _ Hrun).
  rewrite (onNameTree_entry (set_st_nameTree nt1 s) _ _ He), (pitSlot_entry (set_st_nameTree nt1 s) _ _ He).
  rewrite findMatching_spec by done.
  assert (∀ x, pitSlot (set_st_nameTree nt1 s) x = pitSlot s x) as Hslot.
  { intros x. unfold pitSlot. cbn [st_nameTree set_st_nameTree]. by rewrite Ht1. }
  assert (∀ r, matchesEntry (set_st_nameTree nt1 s) interest r = matchesEntry s interest r) as Hme by done.
  destruct (List.find _ _) as [r|] eqn:Hf.
  - exists r, false, (set_st_nameTree nt1 s). apply find_some in Hf as [Hin Hm].
    apply list_elem_of_In in Hin. split_and!; [done|done| |done|done|done| |done|].
    + by apply (pi_slot _ Hi1).
    + intros x. unfold nonPit. cbn [st_nameTree set_st_nameTree]. by rewrite Ht1.
    + intros Hne. apply (noEmpty_insert (st_nameTree s) nt1 (i_name interest));
        [apply Hi|done|done|intros x; by rewrite Ht1|done|].
      fold n. intros E. unfold pitSlot in Hin. cbn [st_nameTree set_st_nameTree] in Hin.
      rewrite E in Hin. by apply not_elem_of_nil in Hin.
  - assert (∀ r' x, attached s r' x → matchesEntry s interest r' = false) as Hnew.
    { intros r' x Ha. destruct (matchesEntry s interest r') eqn:Hm; [|done].
      destruct (find_matchesEntry (set_st_nameTree nt1 s) interest r' x Hi1 Ha Hm) as [_ Hf'].
      fold n in Hf'. by rewrite Hf' in Hf. }
    cbn [negb]. set (r := fresh (dom (st_pits (set_st_nameTree nt1 s)))).
    assert (st_pits s !! r = None) as Hr.
    { apply not_elem_of_dom. apply (is_fresh (dom (st_pits s))). }
    destruct (updTables_spec HashFunc nt1 n (fun t => setPitSlot (t_pit t ++ [r]) t)) as
      (nt2 & Hup & Hnt2 & Ht2 & Hd2); [done|eauto|].
    unfold insertPitEntry. munfold. erewrite getPitEntry_Ok by apply lookup_insert_eq.
    rewrite assertM_true by done. erewrite onNameTree_Ok by exact Hup.
    erewrite setPitEntry_Ok by apply lookup_insert_eq.
    exists r, true, (attachEntry nt2 r ref n s). split_and!.
    + unfold attachEntry. cbn [st_pits set_st_pits set_st_nameTree]. by rewrite insert_insert_eq.
    + apply pit_inv_attach with (i := interest); [done|done|done|done|done| |done].
      intros x. rewrite Ht2. case_decide as E; [|by rewrite Ht1].
      subst x. cbn [t_pit setPitSlot]. by rewrite Ht1.
    + eexists. split; [apply lookup_insert_eq|done].
    + unfold matchesEntry, pitInterest, attachEntry. cbn [st_pits st_interests].
      rewrite lookup_insert_eq. simpl. rewrite Hint. by apply matchesInterest_spec.
    + done.
    + done.
    + intros x. unfold nonPit, attachEntry. cbn [st_nameTree]. rewrite Ht2.
      case_decide as E; [subst x; unfold setPitSlot; simpl|]; by rewrite Ht1.
    + done.
    + done.
    + done.
    + intros Hne. unfold attachEntry. cbn [st_nameTree].
      apply (noEmpty_insert (st_nameTree s) nt2 (i_name interest)); [apply Hi|done|done| | |].
      * intros x Hx. rewrite Ht2. case_decide; [|by rewrite Ht1].
        intros E%(f_equal t_pit). simpl in E. by destruct (t_pit _).
      * intros x. rewrite Hd2. apply Hdom.
      * fold n. rewrite Ht2, decide_True by done. intros E%(f_equal t_pit). simpl in E.
        by destruct (t_pit _).
Qed.

(** ** erase *)

Definition detachEntry (nt' : NTree) (r : PitRef) (pe : PitEntry) (s : Store) : Store :=
  mkStore nt' (st_fibItems s) (u64 (st_pitItems s - 1))
    (<[r := set_pe_nameTreeEntry None pe]> (st_pits s)) (st_interests s).

Lemma u64_sub_l a b : u64 (u64 a - b) = u64 (a - b).
Proof. unfold u64. by rewrite Zminus_mod_idemp_l. Qed.

Lemma pit_inv_detach s nt' r pe n :
  pit_inv s → st_pits s !! r = Some pe → pe_nameTreeEntry pe = Some n → nt_inv HashFunc nt' →
  (∀ x, t_pit (tablesAt nt' x) = if decide (x = n) then swapRemove r (pitSlot s n) else pitSlot s x) →
  pit_inv (detachEntry nt' r pe s).
Proof.
  intros Hi Hr Hn Hnt Hslot. set (s' := detachEntry nt' r pe s).
  assert (∀ r' x, attached s' r' x ↔ attached s r' x ∧ r' ≠ r) as Hatt.
  { intros r' x. unfold attached, s', detachEntry. cbn [st_pits]. rewrite lookup_insert. case_decide as E.
    - subst r'. split; [|naive_solver]. by intros (? & [= <-] & ?).
    - split; [|naive_solver]. intros ?. split; [done|congruence]. }
  assert (∀ r', pitInterest s' r' = pitInterest s r') as Hpi.
  { intros r'. unfold pitInterest, s', detachEntry. cbn [st_pits st_interests]. rewrite lookup_insert.
    case_decide as E; [subst r'; by rewrite Hr|done]. }
  assert (r ∈ pitSlot s n) as Hin by (apply (pi_slot s Hi); by exists pe).
  pose proof (swapRemove_perm r _ (pi_nodup s Hi n) Hin) as Hperm.
  pose proof (pi_nodup s Hi n) as Hnd. rewrite <-Hperm in Hnd. apply NoDup_cons in Hnd as [Hnin Hnd].
  split.
  - done.
  - intros x r'. rewrite Hatt, <-(pi_slot s Hi). unfold pitSlot at 1, s', detachEntry. cbn [st_nameTree].
    rewrite Hslot. destruct (decide (x = n)) as [->|Hx].
    + assert (r' ∈ pitSlot s n ↔ r' ∈ r :: swapRemove r (pitSlot s n)) as -> by by rewrite Hperm.
      rewrite elem_of_cons. split; [|naive_solver]. intros Hr'. split; [by right|]. by intros ->.
    + split; [|tauto]. intros Hr'. split; [done|]. intros ->. apply Hx.
      apply (pi_slot s Hi) in Hr' as (pe' & ? & ?). congruence.
  - intros x. unfold pitSlot at 1, s', detachEntry. cbn [st_nameTree]. rewrite Hslot.
    case_decide; [done|apply Hi].
  - intros r' pe'. unfold s', detachEntry. cbn [st_pits]. rewrite lookup_insert. case_decide.
    + intros [= <-]. by destruct (pi_entry s Hi _ _ Hr).
    + intros Hpe. by destruct (pi_entry s Hi _ _ Hpe).
  - intros r' x j. rewrite Hatt, Hpi. intros [Ha _] Hj. exact (pi_place s Hi _ _ _ Ha Hj).
  - intros r1 r2 n1 n2 i1 i2. rewrite !Hatt, !Hpi. intros [Ha1 _] [Ha2 _] Hp1 Hp2 Hm.
    exact (pi_unique s Hi _ _ _ _ _ _ Ha1 Ha2 Hp1 Hp2 Hm).
  - unfold s', detachEntry. cbn [st_pits st_pitItems]. rewrite (pi_count s Hi), u64_sub_l.
    rewrite (nAttached_detach (st_pits s) r pe (set_pe_nameTreeEntry None pe)); [|done|by rewrite Hn|done].
    f_equal. lia.
Qed.

Lemma Pit_erase_spec s r pe n b :
  pit_inv s → st_pits s !! r = Some pe → pe_nameTreeEntry pe = Some n →
  ∃ nt', Pit_erase r b s = Ok (tt, detachEntry nt' r pe s) ∧
    pit_inv (detachEntry nt' r pe s) ∧
    (∀ x, nonPit (detachEntry nt' r pe s) x = nonPit s x) ∧
    (b = true → noEmpty (st_nameTree s) → noEmpty nt').
Proof.
  intros Hi Hr Hn. assert (r ∈ pitSlot s n) as Hin by (apply (pi_slot s Hi); by exists pe).
  destruct (nt_entries (st_nameTree s) !! n) as [e|] eqn:He.
  2:{ rewrite pitSlot_no_entry in Hin by done. by apply not_elem_of_nil in Hin. }
  unfold Pit_erase. munfold. rewrite (getPitEntry_Ok _ _ _ Hr), Hn.
  rewrite (onNameTree_entry _ _ _ He), (pitSlot_entry _ _ _ He), assertM_true by by apply bool_decide_true.
  rewrite (setPitEntry_Ok _ _ _ _ Hr).
  destruct (updTables_spec HashFunc (st_nameTree s) n (fun t => setPitSlot (swapRemove r (t_pit t)) t))
    as (nt1 & Hup & Hnt1 & Ht1 & Hd1); [apply Hi|eauto|].
  rewrite (onNameTree_Ok _ (set_st_pits _ s) _ _ Hup).
  assert (∀ x, t_pit (tablesAt nt1 x) = if decide (x = n) then swapRemove r (pitSlot s n) else pitSlot s x)
    as Hslot1 by (intros x; rewrite Ht1; by case_decide).
  assert (∀ x, setPitSlot [] (tablesAt nt1 x) = nonPit s x) as Hnp1
    by (intros x; rewrite Ht1; case_decide; [by subst x|done]).
  destruct b.
  - destruct (eraseIfEmpty_spec HashFunc nt1 n true) as (k & nt2 & Her & Hnt2 & Ht2 & Hsub & Hkeep & Hemp);
      [done|apply Hd1; eauto|].
    erewrite onNameTree_Ok by exact Her. exists nt2. split_and!; [done| | |].
    + eapply pit_inv_detach; [done|done|done|done|]. intros x. by rewrite Ht2.
    + intros x. unfold nonPit, detachEntry. cbn [st_nameTree]. by rewrite Ht2.
    + intros _ Hne. rewrite (noEmpty_inUse HashFunc) in Hne by apply Hi.
      intros x e' He'. destruct (decide (x `prefix_of` n)) as [Hx|Hx]; [by eapply Hemp|].
      apply (isEmpty_inUse HashFunc nt2 x e'); [done|done|].
      assert (x ≠ n) as Hxn by (by intros ->).
      destruct (Hne x) as [Ht|(c & Hc & Hxc & Hne')]; [apply Hd1, Hsub; eauto| |].
      * left. by rewrite Ht2, Ht1, decide_False.
      * right. exists c. split; [|done]. apply Hkeep; [by apply Hd1|]. intros Hcn. apply Hx. by trans c.
  - exists nt1. split_and!; [done| |done|done]. by eapply pit_inv_detach.
Qed.

(** ** Data matches *)

Lemma prefixesDown_elem name k n :
  (k ≤ length name)%nat → n ∈ prefixesDown name k ↔ n `prefix_of` name ∧ (length n ≤ k)%nat.
Proof.
  induction k as [|k IH]; intros Hk; cbn [prefixesDown]; rewrite elem_of_cons.
  - rewrite take_0, elem_of_nil. split.
    + intros [->|[]]. split; [apply prefix_nil|done].
    + intros [_ Hl]. left. apply nil_length_inv. lia.
  - rewrite IH by lia. split.
    + intros [->|[? ?]]; [|split; [done|lia]]. split; [apply prefix_take|]. rewrite length_take. lia.
    + intros [Hp Hl]. destruct (decide (length n = S k)) as [E|]; [left|right; split; [done|lia]].
      destruct Hp as [x ->]. rewrite <-E. by rewrite take_app_length.
Qed.
Lemma prefixesDown_NoDup name k : (k ≤ length name)%nat → NoDup (prefixesDown name k).
Proof.
  induction k as [|k IH]; intros Hk; cbn [prefixesDown]; constructor.
  - apply not_elem_of_nil.
  - constructor.
  - rewrite prefixesDown_elem by lia. rewrite length_take. lia.
  - apply IH. lia.
Qed.

Lemma findAllDataMatches_elem s d r :
  pit_inv s →
  r ∈ findAllDataMatches s d ↔ (∃ n, attached s r n) ∧ entryMatchesData s d r = true.
Proof.
  intros Hi. unfold findAllDataMatches. rewrite findAllMatches_spec by apply Hi.
  rewrite elem_of_concat_lookup. split.
  - intros (k & l & Hl & Hr). apply list_lookup_fmap_Some in Hl as (n & -> & Hn).
    apply list_elem_of_filter in Hr as [Hm Hr]. apply (pi_slot s Hi) in Hr. split; [eauto|].
    by apply Is_true_true.
  - intros [[n Ha] Hm].
    assert (n `prefix_of` d_name d) as Hp.
    { pose proof Hm as Hm'. unfold entryMatchesData in Hm'.
      destruct (pitInterest s r) as [i|] eqn:Hpi; [|done].
      rewrite (pi_place s Hi _ _ _ Ha Hpi). by apply matchesData_nte. }
    pose proof (proj2 (pi_slot s Hi n r) Ha) as Hslot.
    assert (n ∈ filter (selects nteHasPitEntries (st_nameTree s))
      (prefixesDown (d_name d) (length (d_name d)))) as [k Hk]%list_elem_of_lookup.
    { apply list_elem_of_filter. split.
      - unfold selects, nteHasPitEntries, pitSlot, tablesAt, tablesOf in *.
        destruct (nt_entries (st_nameTree s) !! n) as [e|]; [|by apply not_elem_of_nil in Hslot].
        destruct (t_pit (e_tables e)); [by apply not_elem_of_nil in Hslot|done].
      - apply prefixesDown_elem; [done|]. split; [done|by apply prefix_length]. }
    exists k, (filter (entryMatchesData s d) (pitSlot s n)). split.
    + apply list_lookup_fmap_Some. eauto.
    + apply list_elem_of_filter. split; [by apply Is_true_true|done].
Qed.

Lemma findAllDataMatches_NoDup s d : pit_inv s → NoDup (findAllDataMatches s d).
Proof.
  intros Hi. unfold findAllDataMatches. rewrite findAllMatches_spec by apply Hi.
  assert (NoDup (filter (selects nteHasPitEntries (st_nameTree s))
    (prefixesDown (d_name d) (length (d_name d))))) as Hnd by by apply NoDup_filter, prefixesDown_NoDup.
  induction Hnd as [|n l Hn Hnd IH]; simpl; [constructor|]. apply NoDup_app. split_and!; [|clear IH|done].
  - apply NoDup_filter, Hi.
  - intros r Hr Hr'. apply list_elem_of_filter in Hr as [_ Ha%(pi_slot s Hi)].
    apply elem_of_concat_lookup in Hr' as (k & l' & Hl' & Hr').
    apply list_lookup_fmap_Some in Hl' as (n' & -> & Hn').
    apply list_elem_of_filter in Hr' as [_ Ha'%(pi_slot s Hi)].
    destruct Ha as (pe & E1 & E2), Ha' as (pe' & E1' & E2'). apply Hn.
    replace n with n' by congruence. by eapply list_elem_of_lookup_2.
Qed.

(** ** Lookup by name *)

Lemma findBasedOnName_spec s name :
  pit_inv s →
  match findBasedOnName s name with
  | Some r => attached s r name ∧ ∃ i, pitInterest s r = Some i ∧ i_name i = name
  | None => ∀ r i, attached s r name → pitInterest s r = Some i → i_name i ≠ name
  end.
Proof.
  intros Hi. unfold findBasedOnName. rewrite findExactMatch_spec, firstn_all by apply Hi.
  case_decide as Hd.
  - destruct (List.find _ _) as [r|] eqn:Hf.
    + apply find_some in Hf as [Hin Hm]. split; [by apply (pi_slot s Hi), list_elem_of_In|].
      destruct (pitInterest s r) as [i|]; [|done]. exists i. split; [done|]. by apply Name_equals_spec.
    + intros r i Ha Hpi En. apply find_none with (x := r) in Hf.
      * rewrite Hpi in Hf. assert (Name_equals (i_name i) name = true); [|congruence].
        by apply Name_equals_spec.
      * by apply list_elem_of_In, (pi_slot s Hi).
  - intros r i Ha. apply (pi_slot s Hi) in Ha. rewrite pitSlot_no_entry in Ha;
      [by apply not_elem_of_nil in Ha|].
    destruct (nt_entries (st_nameTree s) !! name); [|done]. destruct Hd. eauto.
Qed.

Lemma pit_inv_init nBuckets : (0 < nBuckets)%nat → pit_inv (Store_init nBuckets).
Proof.
  intros Hn. assert (∀ n, pitSlot (Store_init nBuckets) n = []) as Hs.
  { intros n. by rewrite pitSlot_no_entry. }
  assert (∀ r n, ~ attached (Store_init nBuckets) r n) as Ha by by intros r n (pe & ? & _).
  split; try done.
  - by apply nt_inv_init.
  - intros n r. rewrite Hs. split; [by intros ?%not_elem_of_nil|by intros ?%Ha].
  - intros n. rewrite Hs. constructor.
Qed.
End pit.

(** ** Properties *)

Section properties.
Context (HashFunc : Component → Z).

(** C21. [Pit::insert] returns the one entry of the Interest: on a consistent
    PIT it always succeeds, returns the existing entry exactly when some
    attached entry has the same name, CanBePrefix and MustBeFresh, and otherwise
    a new empty entry; no other entry and no slot of another table changes, the
    invariant holds again, and [Pit::find] for any Interest with the same key then
    returns the same entry. *)
Theorem Pit_insert_correct s interest ref :
  pit_inv HashFunc s → st_interests s !! ref = Some interest →
  ∃ r isNew s', Pit_insert HashFunc interest ref s = Ok ((Some r, isNew), s') ∧
    pit_inv HashFunc s' ∧ attached s' r (nteName (i_name interest)) ∧
    (isNew = false ↔ ∃ r' n, attached s r' n ∧ matchesEntry s interest r' = true) ∧
    (∀ r' pe, st_pits s !! r' = Some pe → st_pits s' !! r' = Some pe) ∧
    (isNew = true → ∃ pe, st_pits s' !! r = Some pe ∧ pe_inRecords pe = [] ∧ pe_outRecords pe = []) ∧
    (∀ n, nonPit s' n = nonPit s n) ∧
    (∀ interest', sameKey interest interest' → Pit_find HashFunc interest' s' = Ok (Some r, s')).
Proof.
  intros Hi Hint. destruct (Pit_insert_spec HashFunc s interest ref Hi Hint)
    as (r & isNew & s' & Hrun & Hi' & Ha & Hm & Hints & _ & Hnp & Hcase & _).
  exists r, isNew, s'. split_and!; [done|done|done| | | |done|].
  - split; [|intros (r' & n & Ha' & Hm')].
    + intros ->. exists r, (nteName (i_name interest)). unfold attached, matchesEntry, pitInterest in *.
      by rewrite Hcase, Hints in *.
    + destruct isNew; [|done]. destruct Hcase as [Hnew _]. by rewrite (Hnew _ _ Ha') in Hm'.
  - intros r' pe Hpe. destruct isNew; [|by rewrite Hcase]. destruct Hcase as (_ & Hr & ->).
    rewrite lookup_insert_ne; [done|]. congruence.
  - intros ->. destruct Hcase as (_ & Hr & ->). eexists. by rewrite lookup_insert_eq.
  - intros i' Hk. eapply Pit_find_Some; [done|exact Ha|]. unfold matchesEntry in *.
    destruct (pitInterest s' r) as [j|]; [|done].
    by rewrite <-(matchesInterest_sameKey j interest j i' (sameKey_refl j) Hk).
Qed.

(** C22. [Pit::findAllDataMatches] is sound and complete: it returns, without
    repetition, exactly the attached entries whose Interest matches the Data,
    including Interests that end with the implicit digest and names deeper than
    the name tree. *)
Theorem findAllDataMatches_complete s d :
  pit_inv HashFunc s →
  NoDup (findAllDataMatches HashFunc s d) ∧
  ∀ r, r ∈ findAllDataMatches HashFunc s d ↔
    (∃ n, attached s r n) ∧ ∃ i, pitInterest s r = Some i ∧ matchesData i d = true.
Proof.
  intros Hi. split; [by apply findAllDataMatches_NoDup|]. intros r.
  rewrite findAllDataMatches_elem by done. unfold entryMatchesData.
  destruct (pitInterest s r) as [i|]; naive_solver.
Qed.

(** [Pit::erase] detaches exactly the given entry: it succeeds for every
    attached entry, later finds and Data matches no longer see it but see every
    other entry as before, the size counter goes down by one, the other tables
    are unchanged and the invariant, with the name tree it shrinks, holds
    again. *)
Theorem Pit_erase_correct s r pe n d :
  pit_inv HashFunc s → st_pits s !! r = Some pe → pe_nameTreeEntry pe = Some n →
  ∃ s', Pit_erase HashFunc r true s = Ok (tt, s') ∧ pit_inv HashFunc s' ∧
    (∀ r' n', attached s' r' n' ↔ attached s r' n' ∧ r' ≠ r) ∧
    (∀ r', r' ∈ findAllDataMatches HashFunc s' d ↔ r' ∈ findAllDataMatches HashFunc s d ∧ r' ≠ r) ∧
    st_pitItems s' = u64 (st_pitItems s - 1) ∧ (∀ x, nonPit s' x = nonPit s x).
Proof.
  intros Hi Hr Hn. destruct (Pit_erase_spec HashFunc s r pe n true Hi Hr Hn) as (nt' & Hrun & Hi' & Hnp & _).
  set (s' := detachEntry nt' r pe s) in *. exists s'.
  assert (∀ r' n', attached s' r' n' ↔ attached s r' n' ∧ r' ≠ r) as Hatt.
  { intros r' x. unfold attached, s', detachEntry. cbn [st_pits]. rewrite lookup_insert. case_decide as E.
    - subst r'. split; [|naive_solver]. by intros (? & [= <-] & ?).
    - split; [|naive_solver]. intros ?. split; [done|congruence]. }
  split_and!; [done|done|done| |done|done].
  intros r'. rewrite !findAllDataMatches_elem by done. setoid_rewrite Hatt.
  assert (entryMatchesData s' d r' = entryMatchesData s d r') as ->; [|naive_solver].
  unfold entryMatchesData, pitInterest, s', detachEntry. cbn [st_pits st_interests].
  rewrite lookup_insert. case_decide as E; [subst r'; by rewrite Hr|done].
Qed.

(** [Pit::find] with a name whose name-tree entry is empty fails the
    assertion that the entry "shouldn't be created in this call". *)
Lemma Pit_find_empty_nte_asserts s interest e :
  pit_inv HashFunc s →
  nt_entries (st_nameTree s) !! nteName (i_name interest) = Some e → isEmpty e = true →
  Pit_find HashFunc interest s = Fault AssertFailed.
Proof.
  intros Hi He Hemp. rewrite Pit_find_spec, He by done.
  assert (pitSlot s (nteName (i_name interest)) = []) as ->; [|by rewrite Hemp].
  rewrite <-(pitSlot_entry _ _ _ He). unfold isEmpty in Hemp.
  destruct (e_children e); [|done]. by apply noTableEntries_spec in Hemp as ->.
Qed.
End properties.

(** A PIT with one entry for /A. *)
Definition pitA : Component := mkComponent GenericNameComponent [65].
Definition sampleInterest : Interest :=
  mkInterest [pitA] false false [] (Some 7) 4000 None None None None.
Definition sampleStore0 : Store := set_st_interests {[0%nat := sampleInterest]} (Store_init 1).
Definition sampleStore : Store :=
  match Pit_insert ctype sampleInterest 0 sampleStore0 with
  | Ok (_, s) => s | Fault _ => sampleStore0
  end.
Lemma sampleStore0_inv : pit_inv ctype sampleStore0.
Proof.
  unfold sampleStore0. change {[0%nat := sampleInterest]} with
    (<[0%nat := sampleInterest]> (st_interests (Store_init 1))).
  apply pit_inv_interest; [apply pit_inv_init; lia|done].
Qed.
Lemma sampleStore_inv : pit_inv ctype sampleStore.
Proof.
  destruct (Pit_insert_spec ctype sampleStore0 sampleInterest 0 sampleStore0_inv) as (r & b & s' & H & Hi & _).
  { reflexivity. }
  unfold sampleStore. by rewrite H.
Qed.

Lemma Pit_insert_correct_witness :
  ∃ r isNew s', Pit_insert ctype sampleInterest 0 sampleStore0 = Ok ((Some r, isNew), s') ∧
    Pit_find ctype sampleInterest s' = Ok (Some r, s').
Proof.
  destruct (Pit_insert_correct ctype sampleStore0 sampleInterest 0 sampleStore0_inv)
    as (r & b & s' & H & _ & _ & _ & _ & _ & _ & Hf).
  - reflexivity.
  - exists r, b, s'. split; [exact H|]. apply Hf, sameKey_refl.
Defined.

Definition sampleData : Data := mkData [pitA] (replicate 32 0) 1000 None None None.
Lemma findAllDataMatches_complete_witness : 0%nat ∈ findAllDataMatches ctype sampleStore sampleData.
Proof.
  apply (findAllDataMatches_complete ctype sampleStore sampleData sampleStore_inv).
  split.
  - exists [pitA]. eexists. split; vm_compute; reflexivity.
  - exists sampleInterest. split; vm_compute; reflexivity.
Defined.

Lemma Pit_erase_correct_witness :
  ∃ s', Pit_erase ctype 0 true sampleStore = Ok (tt, s') ∧
    (0%nat ∈ findAllDataMatches ctype s' sampleData ↔
     0%nat ∈ findAllDataMatches ctype sampleStore sampleData ∧ 0%nat ≠ 0%nat).
Proof.
  destruct (Pit_erase_correct ctype sampleStore 0 (set_pe_nameTreeEntry (Some [pitA]) (newPitEntry 0))
    [pitA] sampleData sampleStore_inv) as (s' & H & _ & _ & Hm & _).
  - vm_compute. reflexivity.
  - reflexivity.
  - exists s'. split; [exact H|]. apply Hm.
Defined.
