(* ===== verification/Fib.v ===== *)
(** * The Forwarding Information Base (NFD [table/fib.cpp])

    A FIB entry is identified by its prefix, the name of the name-tree entry
    that holds it. *)

From S2P Require Import Prelude Tlv Component Name Packet Hashtable.
From S2P Require Import NameTree Face FibEntry PitEntry Store Pit.
Local Open Scope Z_scope.

Inductive RemoveNextHopResult : Type :=
| NO_SUCH_NEXTHOP | NEXTHOP_REMOVED | FIB_ENTRY_REMOVED.
#[export] Instance RemoveNextHopResult_eq_dec : EqDecision RemoveNextHopResult.
Proof. solve_decision. Defined.

(** [Fib::s_emptyEntry]. *)
Definition s_emptyEntry : FibEntry := mkFibEntry [] [].

Section fib.
Context (HashFunc : Component → Z).

Definition nteHasFibEntry (n : Name) (e : Entry NTables) : bool :=
  match t_fib (e_tables e) with Some _ => true | None => false end.

(** [Fib::findLongestPrefixMatchImpl], with the name tree's answer. *)
Definition Fib_lpmResult (s : Store) (nte : option Name) : FibEntry :=
  match nte with
  | Some n => default s_emptyEntry (fibSlot s n)
  | None => s_emptyEntry
  end.
Definition Fib_findLongestPrefixMatch (s : Store) (prefix : Name) : FibEntry :=
  Fib_lpmResult s (findLongestPrefixMatch HashFunc (st_nameTree s) nteHasFibEntry prefix).
(** The overload for a PIT entry with name [name] attached at [nte]. *)
Definition Fib_findLongestPrefixMatch_pit (s : Store) (name nte : Name) : FibEntry :=
  Fib_lpmResult s (findLongestPrefixMatch_pit HashFunc (st_nameTree s) nteHasFibEntry name nte).

Definition Fib_findExactMatch (s : Store) (prefix : Name) : option FibEntry :=
  match findExactMatch HashFunc (st_nameTree s) prefix (length prefix) with
  | Some n => fibSlot s n
  | None => None
  end.

(** [Fib::insert]. *)
Definition Fib_insert (prefix : Name) : M Store (Name * bool) :=
  n ← onNameTree (nt_lookup HashFunc prefix (length prefix));
  e ← onNameTree (entry n);
  match t_fib (e_tables e) with
  | Some _ => mret (n, false)
  | None =>
      onNameTree (updTables n (setFibSlot (Some (mkFibEntry prefix []))));;
      modify (fun s => set_st_fibItems (u64 (st_fibItems s + 1)) s);;
      mret (n, true)
  end.

(** [Fib::erase(nte, canDeleteNte)] and [Fib::erase(prefix)]. *)
Definition Fib_eraseNte (n : Name) (canDeleteNte : bool) : M Store unit :=
  onNameTree (updTables n (setFibSlot None));;
  (if canDeleteNte then onNameTree (eraseIfEmpty HashFunc n true);; mret tt else mret tt);;
  modify (fun s => set_st_fibItems (u64 (st_fibItems s - 1)) s).
Definition Fib_erase (prefix : Name) : M Store unit :=
  s ← get;
  match findExactMatch HashFunc (st_nameTree s) prefix (length prefix) with
  | Some n => Fib_eraseNte n true
  | None => mret tt
  end.

Definition getFibEntry (n : Name) : M Store FibEntry :=
  e ← onNameTree (entry n); deref (t_fib (e_tables e)).

(** [Fib::addOrUpdateNextHop]: the next hop signalled by [afterNewNextHop],
    when one is. *)
Definition Fib_addOrUpdateNextHop (n : Name) (face : FaceRef) (cost : Z) : M Store (option NextHop) :=
  fe ← getFibEntry n;
  let '(fe', it, isNew) := addOrUpdateNextHop fe face cost in
  onNameTree (updTables n (setFibSlot (Some fe')));;
  if isNew : bool then nh ← deref (fe_nextHops fe' !! it); mret (Some nh) else mret None.

(** [Fib::removeNextHop]. *)
Definition Fib_removeNextHop (n : Name) (face : FaceRef) : M Store RemoveNextHopResult :=
  fe ← getFibEntry n;
  let '(fe', isRemoved) := removeNextHop fe face in
  onNameTree (updTables n (setFibSlot (Some fe')));;
  if negb isRemoved then mret NO_SUCH_NEXTHOP
  else if negb (hasNextHops fe') then Fib_eraseNte n false;; mret FIB_ENTRY_REMOVED
  else mret NEXTHOP_REMOVED.

(** ** Invariant *)

(** The names that have a FIB entry. *)
Definition fibNames (nt : NTree) : gset Name :=
  dom (filter (fun ne => is_Some (t_fib (e_tables ne.2))) (nt_entries nt)).

Lemma elem_of_fibNames nt n : n ∈ fibNames nt ↔ is_Some (t_fib (tablesAt nt n)).
Proof.
  unfold fibNames. rewrite elem_of_dom. unfold tablesAt, tablesOf. split.
  - intros [e [He Hs]%map_lookup_filter_Some]. by rewrite He.
  - destruct (nt_entries nt !! n) as [e|] eqn:He; [|by intros []].
    intros Hs. exists e. by apply map_lookup_filter_Some.
Qed.

Record fib_inv (s : Store) : Prop := {
  fb_nt : nt_inv HashFunc (st_nameTree s);
  fb_entry : ∀ n fe, fibSlot s n = Some fe → fe_prefix fe = n ∧ fe_inv fe;
  fb_count : st_fibItems s = u64 (Z.of_nat (size (fibNames (st_nameTree s))))
}.

(** The slots of the other tables, and the parts of the store outside the
    name tree and the FIB counter. *)
Definition nonFib (s : Store) (n : Name) : NTables := setFibSlot None (tablesAt (st_nameTree s) n).
Definition sameRest (s s' : Store) : Prop :=
  st_pitItems s' = st_pitItems s ∧ st_pits s' = st_pits s ∧ st_interests s' = st_interests s ∧
  ∀ n, nonFib s' n = nonFib s n.

Lemma fibSlot_entry s n e :
  nt_entries (st_nameTree s) !! n = Some e → t_fib (e_tables e) = fibSlot s n.
Proof. intros H. unfold fibSlot, tablesAt, tablesOf. by rewrite H. Qed.
Lemma fibSlot_is_entry s n fe :
  fibSlot s n = Some fe → is_Some (nt_entries (st_nameTree s) !! n).
Proof. unfold fibSlot, tablesAt, tablesOf. destruct (nt_entries _ !! n); [eauto|done]. Qed.
Lemma getFibEntry_Ok s n fe : fibSlot s n = Some fe → getFibEntry n s = Ok (fe, s).
Proof.
  intros H. destruct (fibSlot_is_entry _ _ _ H) as [e He]. unfold getFibEntry. munfold.
  rewrite (onNameTree_entry _ _ _ He), (fibSlot_entry _ _ _ He), H. done.
Qed.

(** FIB operations keep the PIT invariant. *)
Lemma sameRest_pit s s' :
  pit_inv HashFunc s → nt_inv HashFunc (st_nameTree s') → sameRest s s' → pit_inv HashFunc s'.
Proof.
  intros Hi Hnt (E1 & E2 & E3 & E4). destruct s' as [nt' fi pi pits ints]. simpl in *. subst.
  destruct (pit_inv_nt HashFunc s nt' Hi Hnt) as [H1 H2 H3 H4 H5 H6 H7].
  { intros n. exact (f_equal t_pit (E4 n)). }
  split; try done. intros r pe Hr. destruct (H4 r pe Hr). by split.
Qed.

(** Writing the FIB slot of [n]. *)
Lemma setFib_spec s n v :
  nt_inv HashFunc (st_nameTree s) → is_Some (nt_entries (st_nameTree s) !! n) →
  ∃ nt', onNameTree (updTables n (setFibSlot v)) s = Ok (tt, set_st_nameTree nt' s) ∧
    nt_inv HashFunc nt' ∧ (∀ x, is_Some (nt_entries nt' !! x) ↔ is_Some (nt_entries (st_nameTree s) !! x)) ∧
    sameRest s (set_st_nameTree nt' s) ∧
    (∀ x, fibSlot (set_st_nameTree nt' s) x = if decide (x = n) then v else fibSlot s x).
Proof.
  intros Hi Hn. destruct (updTables_spec HashFunc (st_nameTree s) n (setFibSlot v) Hi Hn)
    as (nt' & Hrun & Hi' & Ht & Hd).
  exists nt'. split_and!; [by apply onNameTree_Ok|done|done| |].
  - split_and!; try done. intros x. unfold nonFib. cbn [st_nameTree set_st_nameTree]. rewrite Ht.
    case_decide; [by subst|done].
  - intros x. unfold fibSlot. cbn [st_nameTree set_st_nameTree]. rewrite Ht. by case_decide.
Qed.

Lemma fibNames_upd nt nt' n (v : option FibEntry) :
  (∀ x, t_fib (tablesAt nt' x) = if decide (x = n) then v else t_fib (tablesAt nt x)) →
  size (fibNames nt') =
    match v, t_fib (tablesAt nt n) with
    | Some _, None => S (size (fibNames nt))
    | None, Some _ => (size (fibNames nt) - 1)%nat
    | _, _ => size (fibNames nt)
    end ∧ (is_Some (t_fib (tablesAt nt n)) → 0 < size (fibNames nt))%nat.
Proof.
  intros Hv. assert (∀ x, x ∈ fibNames nt' ↔ if decide (x = n) then is_Some v else x ∈ fibNames nt) as Hel.
  { intros x. rewrite elem_of_fibNames, Hv. destruct (decide (x = n)); [done|].
    by rewrite elem_of_fibNames. }
  pose proof (elem_of_fibNames nt n) as Hn. split.
  - destruct v as [fe'|], (t_fib (tablesAt nt n)) as [fe|].
    + f_equal. apply set_eq. intros x. rewrite Hel. case_decide; [subst; rewrite Hn; naive_solver|done].
    + assert (n ∉ fibNames nt) as Hnin by (rewrite Hn; by intros []).
      assert (fibNames nt' = {[n]} ∪ fibNames nt) as ->.
      { apply set_eq. intros x. rewrite Hel, elem_of_union, elem_of_singleton. case_decide; naive_solver. }
      rewrite size_union by set_solver. by rewrite size_singleton.
    + assert (n ∈ fibNames nt) as Hin by (rewrite Hn; eauto).
      assert (fibNames nt' = fibNames nt ∖ {[n]}) as ->.
      { apply set_eq. intros x. rewrite Hel, elem_of_difference, elem_of_singleton.
        case_decide; [subst|naive_solver]. split; [by intros []|naive_solver]. }
      rewrite size_difference by set_solver. by rewrite size_singleton.
    + f_equal. apply set_eq. intros x. rewrite Hel. case_decide; [subst; rewrite Hn|done].
      split; by intros [].
  - rewrite <-Hn. intros Hin. apply Nat.neq_0_lt_0. intros E%size_empty_inv. set_solver.
Qed.

Lemma fibNames_same nt nt' :
  (∀ x, tablesAt nt' x = tablesAt nt x) → fibNames nt' = fibNames nt.
Proof. intros H. apply set_eq. intros x. by rewrite !elem_of_fibNames, H. Qed.

(** ** Operations *)

(** What every operation below leaves: the invariant, the rest of the store,
    and the FIB slots [slots]. *)
Definition fib_post (s s' : Store) (slots : Name → option FibEntry) : Prop :=
  fib_inv s' ∧ sameRest s s' ∧ ∀ x, fibSlot s' x = slots x.
Definition updSlot (n : Name) (v : option FibEntry) (s : Store) : Name → option FibEntry :=
  fun x => if decide (x = n) then v else fibSlot s x.

Lemma fib_inv_upd s nt' n v fi :
  fib_inv s → nt_inv HashFunc nt' →
  (∀ x, t_fib (tablesAt nt' x) = updSlot n v s x) →
  (∀ fe, v = Some fe → fe_prefix fe = n ∧ fe_inv fe) →
  fi = match v, fibSlot s n with
       | Some _, None => u64 (st_fibItems s + 1)
       | None, Some _ => u64 (st_fibItems s - 1)
       | _, _ => st_fibItems s
       end →
  fib_inv (mkStore nt' fi (st_pitItems s) (st_pits s) (st_interests s)).
Proof.
  intros Hi Hnt Ht Hv ->. destruct (fibNames_upd (st_nameTree s) nt' n v Ht) as [Hsize Hpos]. split.
  - done.
  - intros x fe. unfold fibSlot at 1. cbn [st_nameTree]. rewrite Ht. unfold updSlot. case_decide.
    + subst x. apply Hv.
    + apply Hi.
  - cbn [st_fibItems st_nameTree]. rewrite Hsize. fold (fibSlot s n) in *.
    destruct v, (fibSlot s n) eqn:E; rewrite (fb_count s Hi); try done.
    + rewrite u64_add_l. f_equal. lia.
    + rewrite u64_sub_l. f_equal. specialize (Hpos ltac:(eauto)). lia.
Qed.

Lemma Fib_insert_spec s prefix :
  fib_inv s → (length prefix ≤ getMaxDepth)%nat →
  ∃ s', Fib_insert prefix s = Ok ((prefix, bool_decide (fibSlot s prefix = None)), s') ∧
    fib_post s s' (updSlot prefix (Some (default (mkFibEntry prefix []) (fibSlot s prefix))) s) ∧
    (∀ x, is_Some (nt_entries (st_nameTree s') !! x) ↔
          is_Some (nt_entries (st_nameTree s) !! x) ∨ x `prefix_of` prefix).
Proof.
  intros Hi Hl. destruct (nt_lookup_spec HashFunc (st_nameTree s) prefix (length prefix))
    as (nt1 & Hrun & Hnt1 & Ht1 & Hd1); [apply Hi|done|done|]. rewrite firstn_all in Hrun.
  assert (is_Some (nt_entries nt1 !! prefix)) as [e He].
  { apply Hd1. right. exists (length prefix). by rewrite firstn_all. }
  assert (∀ x, is_Some (nt_entries nt1 !! x) ↔ is_Some (nt_entries (st_nameTree s) !! x) ∨ x `prefix_of` prefix) as Hdom.
  { intros x. rewrite Hd1. split; (intros [?|H]; [by left|right]).
    - destruct H as (j & _ & ->). apply prefix_take.
    - destruct H as [k ->]. exists (length x). rewrite length_app, take_app_length. split; [lia|done]. }
  set (s1 := set_st_nameTree nt1 s).
  assert (∀ x, fibSlot s1 x = fibSlot s x) as Hs1 by (intros x; unfold fibSlot, s1; simpl; by rewrite Ht1).
  assert (sameRest s s1) as Hsr1.
  { split_and!; try done. intros x. unfold nonFib, s1. cbn [st_nameTree set_st_nameTree]. by rewrite Ht1. }
  unfold Fib_insert. munfold. rewrite (onNameTree_Ok _ _ _ _ Hrun). fold s1.
  rewrite (onNameTree_entry s1 _ _ He), (fibSlot_entry s1 _ _ He), Hs1.
  destruct (fibSlot s prefix) as [fe|] eqn:Ef.
  - exists s1. rewrite bool_decide_false by done. split; [done|]. split; [split_and!; [|done|]|done].
    + apply (fib_inv_upd s nt1 prefix (Some fe)); [done|done| | |by rewrite Ef].
      * intros x. rewrite Ht1. unfold updSlot. case_decide; [by subst x|done].
      * intros ? [= <-]. by apply Hi.
    + intros x. rewrite Hs1. unfold updSlot. case_decide; [by subst x|done].
  - rewrite bool_decide_true by done.
    destruct (setFib_spec s1 prefix (Some (mkFibEntry prefix []))) as (nt2 & -> & Hnt2 & Hd2 & Hsr2 & Hf2);
      [done|eauto|].
    eexists. split; [done|]. split; [split_and!|intros x; etransitivity; [apply Hd2|apply Hdom]].
    + apply (fib_inv_upd s nt2 prefix (Some (mkFibEntry prefix []))); [done|done| | |by rewrite Ef].
      * intros x. etransitivity; [apply Hf2|]. unfold updSlot. case_decide; [done|apply Hs1].
      * intros ? [= <-]. split; [done|]. split; constructor.
    + destruct Hsr2 as (? & ? & ? & Hn2). split_and!; try done. intros x. etransitivity; [apply Hn2|].
      apply Hsr1.
    + intros x. etransitivity; [apply Hf2|]. unfold updSlot. case_decide; [done|apply Hs1].
Qed.

Lemma Fib_addOrUpdateNextHop_spec s n face cost fe :
  fib_inv s → fibSlot s n = Some fe →
  ∃ nh s', Fib_addOrUpdateNextHop n face cost s = Ok (nh, s') ∧
    fib_post s s' (updSlot n (Some (addOrUpdateNextHop fe face cost).1.1) s) ∧
    (∀ x, is_Some (nt_entries (st_nameTree s') !! x) ↔ is_Some (nt_entries (st_nameTree s) !! x)).
Proof.
  intros Hi Hf. destruct (fb_entry s Hi _ _ Hf) as [Hp Hfe]. unfold Fib_addOrUpdateNextHop. munfold.
  rewrite (getFibEntry_Ok _ _ _ Hf).
  destruct (addOrUpdateNextHop fe face cost) as [[fe' it] isNew] eqn:E. cbn [fst].
  destruct (setFib_spec s n (Some fe')) as (nt' & -> & Hnt & Hd & Hsr & Hf');
    [apply Hi|by eapply fibSlot_is_entry|].
  assert (fib_post s (set_st_nameTree nt' s) (updSlot n (Some fe') s)) as Hpost.
  { split_and!; [|done|done].
    apply (fib_inv_upd s nt' n (Some fe')); [done|done|apply Hf'| |by rewrite Hf].
    intros ? [= <-]. split; [|by eapply fe_inv_addOrUpdate].
    unfold addOrUpdateNextHop in E. by injection E as <- _ _. }
  destruct isNew; [|eauto].
  assert (∃ nh, fe_nextHops fe' !! it = Some nh) as [nh ->]; [|simpl; eauto].
  apply lookup_lt_is_Some_2. unfold addOrUpdateNextHop in E. injection E as <- <- E.
  cbn [fe_nextHops]. rewrite sortNextHops_perm, length_alter, E, length_app. simpl.
  apply bool_decide_eq_true in E. lia.
Qed.

(** The FIB operations that keep name-tree entries keep their children. *)
Definition children (s : Store) (x : Name) : option (list Name) :=
  e_children <$> nt_entries (st_nameTree s) !! x.
Lemma updTables_children n f s s' x :
  onNameTree (updTables n f) s = Ok (tt, s') → children s' x = children s x.
Proof.
  unfold onNameTree, zoom, updTables, entry, setEntry. munfold.
  destruct (nt_entries (st_nameTree s) !! n) as [e|] eqn:E; simpl; [|done]. munfold.
  intros [= <-]. unfold children. simpl. rewrite lookup_insert. case_decide; [subst; by rewrite E|done].
Qed.
Lemma Fib_removeNextHop_children n face s r s' :
  Fib_removeNextHop n face s = Ok (r, s') → ∀ x, children s' x = children s x.
Proof.
  unfold Fib_removeNextHop, getFibEntry. munfold. intros H x. revert H.
  destruct (onNameTree (entry n) s) as [[e s0]|] eqn:E0; [|done].
  assert (s0 = s) as ->.
  { revert E0. unfold onNameTree, zoom, entry. munfold.
    destruct (nt_entries (st_nameTree s) !! n); simpl; [|done]. munfold. intros [= _ <-]. by destruct s. }
  destruct (t_fib (e_tables e)) as [fe|]; simpl; [|done]. munfold.
  destruct (removeNextHop fe face) as [fe' b].
  destruct (onNameTree (updTables n (setFibSlot (Some fe'))) s) as [[[] s1]|] eqn:E1; [|done].
  apply (updTables_children _ _ _ _ x) in E1. destruct b; simpl; [|by intros [= _ <-]].
  destruct (hasNextHops fe'); simpl; [by intros [= _ <-]|]. unfold Fib_eraseNte. munfold.
  destruct (onNameTree (updTables n (setFibSlot None)) s1) as [[[] s2]|] eqn:E2; [|done].
  apply (updTables_children _ _ _ _ x) in E2. intros [= _ <-]. by rewrite <-E1, <-E2.
Qed.

Lemma Fib_eraseNte_spec s n fe b :
  fib_inv s → fibSlot s n = Some fe →
  ∃ s', Fib_eraseNte n b s = Ok (tt, s') ∧ fib_post s s' (updSlot n None s) ∧
    (b = false → ∀ x, is_Some (nt_entries (st_nameTree s) !! x) → is_Some (nt_entries (st_nameTree s') !! x)).
Proof.
  intros Hi Hf. unfold Fib_eraseNte. munfold.
  destruct (setFib_spec s n None) as (nt1 & -> & Hnt1 & Hd1 & Hsr1 & Hf1);
    [apply Hi|by eapply fibSlot_is_entry|].
  destruct b.
  - destruct (eraseIfEmpty_spec HashFunc nt1 n true) as (k & nt2 & Her & Hnt2 & Ht2 & _);
      [done|apply Hd1; by eapply fibSlot_is_entry|].
    rewrite (onNameTree_Ok _ (set_st_nameTree nt1 s) _ _ Her).
    eexists. split; [done|]. split; [|done].
    assert (∀ x, t_fib (tablesAt nt2 x) = updSlot n None s x) as Hu.
    { intros x. rewrite Ht2. apply Hf1. }
    split_and!; [by apply (fib_inv_upd s nt2 n None); [..|by rewrite Hf]| |exact Hu].
    destruct Hsr1 as (? & ? & ? & Hn1). split_and!; try done. intros x. unfold nonFib.
    cbn [st_nameTree set_st_nameTree set_st_fibItems]. rewrite Ht2. apply Hn1.
  - eexists. split; [done|]. split.
    + split_and!; [by apply (fib_inv_upd s nt1 n None); [..|by rewrite Hf]|done|exact Hf1].
    + intros _ x Hx. by apply Hd1.
Qed.

Lemma Fib_removeNextHop_spec s n face fe :
  fib_inv s → fibSlot s n = Some fe →
  let '(fe', isRemoved) := removeNextHop fe face in
  ∃ s', Fib_removeNextHop n face s =
      Ok (if negb isRemoved then NO_SUCH_NEXTHOP
          else if negb (hasNextHops fe') then FIB_ENTRY_REMOVED else NEXTHOP_REMOVED, s') ∧
    fib_post s s' (updSlot n (if isRemoved && negb (hasNextHops fe') then None else Some fe') s) ∧
    (∀ x, is_Some (nt_entries (st_nameTree s) !! x) → is_Some (nt_entries (st_nameTree s') !! x)).
Proof.
  intros Hi Hf. destruct (fb_entry s Hi _ _ Hf) as [Hp Hfe].
  destruct (removeNextHop fe face) as [fe' isRemoved] eqn:E. unfold Fib_removeNextHop. munfold.
  rewrite (getFibEntry_Ok _ _ _ Hf), E.
  destruct (setFib_spec s n (Some fe')) as (nt1 & -> & Hnt & Hd & Hsr & Hf');
    [apply Hi|by eapply fibSlot_is_entry|].
  assert (fib_post s (set_st_nameTree nt1 s) (updSlot n (Some fe') s)) as Hpost.
  { split_and!; [|done|done].
    apply (fib_inv_upd s nt1 n (Some fe')); [done|done|apply Hf'| |by rewrite Hf].
    intros ? [= <-]. destruct (fe_inv_remove _ _ _ _ Hfe E) as [? _]. split; [|done].
    unfold removeNextHop in E. case_bool_decide; by injection E as <- _. }
  assert (∀ x, is_Some (nt_entries (st_nameTree s) !! x) → is_Some (nt_entries nt1 !! x)) as Hd'
    by (intros; by apply Hd).
  destruct isRemoved; [|by exists (set_st_nameTree nt1 s)].
  destruct (hasNextHops fe') eqn:Hh; [by exists (set_st_nameTree nt1 s)|]. cbn [negb andb].
  destruct (Fib_eraseNte_spec (set_st_nameTree nt1 s) n fe' false) as (s2 & -> & (Hi2 & Hsr2 & Hf2) & Hk);
    [apply Hpost|rewrite Hf'; by rewrite decide_True|].
  exists s2. split; [done|]. split; [|auto]. split_and!; [done| |].
  - destruct Hsr as (E1 & E2 & E3 & E4), Hsr2 as (F1 & F2 & F3 & F4).
    split_and!; [congruence..|]. intros x. rewrite F4. apply E4.
  - intros x. rewrite Hf2. unfold updSlot. case_decide; [done|]. rewrite Hf'. by rewrite decide_False.
Qed.
End fib.

(** ** Refinement: prefixes to next hops *)

Section refinement.
Context (HashFunc : Component → Z).

(** The specification of the FIB: a finite map from prefixes to finite maps
    from faces to costs. *)
Abbreviation AbsFib := (gmap Name (gmap FaceRef Z)).

Inductive fib_op : Type :=
| FInsert (prefix : Name)
| FAddNextHop (prefix : Name) (face : FaceRef) (cost : Z)
| FRemoveNextHop (prefix : Name) (face : FaceRef)
| FErase (prefix : Name).

(** Management looks an entry up before it changes or erases it. *)
Definition withEntry (prefix : Name) (m : M Store unit) : M Store unit :=
  s ← get; match Fib_findExactMatch HashFunc s prefix with Some _ => m | None => mret tt end.
Definition fib_exec (op : fib_op) : M Store unit :=
  match op with
  | FInsert p => Fib_insert HashFunc p;; mret tt
  | FAddNextHop p f c => withEntry p (Fib_addOrUpdateNextHop p f c;; mret tt)
  | FRemoveNextHop p f => withEntry p (Fib_removeNextHop HashFunc p f;; mret tt)
  | FErase p => withEntry p (Fib_erase HashFunc p)
  end.
Fixpoint fib_run (ops : list fib_op) : M Store unit :=
  match ops with [] => mret tt | op :: ops' => fib_exec op;; fib_run ops' end.

Definition fib_spec (op : fib_op) (A : AbsFib) : AbsFib :=
  match op with
  | FInsert p => match A !! p with Some _ => A | None => <[p := ∅]> A end
  | FAddNextHop p f c => match A !! p with Some m => <[p := <[f := c]> m]> A | None => A end
  | FRemoveNextHop p f =>
      match A !! p with
      | Some m => match m !! f with
                  | Some _ => if decide (delete f m = ∅) then delete p A else <[p := delete f m]> A
                  | None => A
                  end
      | None => A
      end
  | FErase p => delete p A
  end.
Definition fib_op_ok (op : fib_op) : Prop :=
  match op with FInsert p => (length p ≤ getMaxDepth)%nat | _ => True end.

Definition hops_abs (fe : FibEntry) (m : gmap FaceRef Z) : Prop :=
  ∀ f c, mkNextHop f c ∈ fe_nextHops fe ↔ m !! f = Some c.
Definition slot_abs (o : option FibEntry) (a : option (gmap FaceRef Z)) : Prop :=
  match o, a with
  | Some fe, Some m => hops_abs fe m
  | None, None => True
  | _, _ => False
  end.
Definition fib_abs (s : Store) (A : AbsFib) : Prop := ∀ n, slot_abs (fibSlot s n) (A !! n).

Lemma Fib_findExactMatch_spec s p :
  fib_inv HashFunc s → Fib_findExactMatch HashFunc s p = fibSlot s p.
Proof.
  intros Hi. unfold Fib_findExactMatch. rewrite findExactMatch_spec, firstn_all by apply Hi.
  case_decide as Hd; [done|]. unfold fibSlot, tablesAt, tablesOf.
  destruct (nt_entries _ !! p) eqn:E; [destruct Hd; eauto|done].
Qed.

Lemma hops_add fe m f c :
  fe_inv fe → hops_abs fe m → hops_abs (addOrUpdateNextHop fe f c).1.1 (<[f := c]> m).
Proof.
  intros Hfe Hm f' c'. destruct (addOrUpdateNextHop fe f c) as [[fe' it] b] eqn:E. cbn [fst].
  rewrite (addOrUpdateNextHop_elem fe f c fe' it b) by (done || apply Hfe).
  cbn [nh_face]. rewrite (Hm f' c'), lookup_insert. case_decide; naive_solver.
Qed.
Lemma hops_remove fe m f fe' b :
  fe_inv fe → hops_abs fe m → removeNextHop fe f = (fe', b) →
  hops_abs fe' (delete f m) ∧ (b = true ↔ is_Some (m !! f)) ∧
  (hasNextHops fe' = false ↔ delete f m = ∅).
Proof.
  intros Hfe Hm E. destruct (fe_inv_remove fe f fe' b Hfe E) as (_ & Hel & Hb).
  assert (hops_abs fe' (delete f m)) as Hm'.
  { intros f' c'. rewrite Hel. cbn [nh_face]. rewrite (Hm f' c'), lookup_delete. case_decide; naive_solver. }
  split_and!; [done| |].
  - rewrite Hb. unfold fib_faces. rewrite list_elem_of_fmap. split.
    + intros ([f' c] & -> & Hin). exists c. by apply Hm.
    + intros [c Hc]. exists (mkNextHop f c). split; [done|]. by apply Hm.
  - unfold hasNextHops. destruct (fe_nextHops fe') as [|[f0 c0] l] eqn:El.
    + split; [|done]. intros _. apply map_eq. intros f'. rewrite lookup_empty.
      destruct (delete f m !! f') as [c'|] eqn:Ed; [|done]. apply Hm' in Ed. rewrite El in Ed.
      by apply not_elem_of_nil in Ed.
    + split; [done|]. intros Hempty. assert (delete f m !! f0 = Some c0) as Hx.
      { apply Hm'. rewrite El. by left. }
      by rewrite Hempty, lookup_empty in Hx.
Qed.

Lemma slot_abs_upd s s' A n v a :
  fib_abs s A → (∀ x, fibSlot s' x = updSlot n v s x) → slot_abs v a →
  fib_abs s' (match a with Some m => <[n := m]> A | None => delete n A end).
Proof.
  intros HA Hs Hv x. rewrite Hs. unfold updSlot. destruct (decide (x = n)) as [->|Hx].
  - destruct a; [by rewrite lookup_insert_eq|by rewrite lookup_delete_eq].
  - destruct a; [rewrite lookup_insert_ne by done|rewrite lookup_delete_ne by done]; apply HA.
Qed.

Lemma fib_exec_refines op s A :
  fib_inv HashFunc s → fib_abs s A → fib_op_ok op →
  ∃ s', fib_exec op s = Ok (tt, s') ∧ fib_inv HashFunc s' ∧ sameRest s s' ∧ fib_abs s' (fib_spec op A).
Proof.
  intros Hi HA Hok. destruct op as [p|p f c|p f|p]; cbn [fib_exec fib_spec].
  - destruct (Fib_insert_spec HashFunc s p Hi Hok) as (s' & Hrun & (Hi' & Hsr & Hs') & _).
    exists s'. munfold. rewrite Hrun. split_and!; [done|done|done|].
    pose proof (HA p) as Hp. unfold slot_abs in Hp.
    destruct (fibSlot s p) as [fe|] eqn:Ef, (A !! p) as [m|] eqn:Ea; try done; simpl in Hs'.
    + rewrite <-(insert_id A p m Ea). exact (slot_abs_upd s s' A p (Some fe) (Some m) HA Hs' Hp).
    + apply (slot_abs_upd s s' A p (Some (mkFibEntry p [])) (Some ∅) HA Hs').
      intros f c. rewrite lookup_empty. simpl. split; [by intros ?%not_elem_of_nil|done].
  - unfold withEntry. munfold. rewrite Fib_findExactMatch_spec by done. pose proof (HA p) as Hp.
    unfold slot_abs in Hp. destruct (fibSlot s p) as [fe|] eqn:Ef, (A !! p) as [m|] eqn:Ea; try done.
    + destruct (Fib_addOrUpdateNextHop_spec HashFunc s p f c fe Hi Ef) as (nh & s' & Hrun & (Hi' & Hsr & Hs') & _).
      rewrite Hrun. exists s'. split_and!; [done|done|done|].
      apply (slot_abs_upd s s' A p _ (Some (<[f:=c]> m)) HA Hs'). apply hops_add; [|done].
      exact (proj2 (fb_entry _ s Hi p fe Ef)).
    + exists s. by split_and!.
  - unfold withEntry. munfold. rewrite Fib_findExactMatch_spec by done. pose proof (HA p) as Hp.
    unfold slot_abs in Hp. destruct (fibSlot s p) as [fe|] eqn:Ef, (A !! p) as [m|] eqn:Ea; try done.
    2:{ exists s. by split_and!. }
    pose proof (Fib_removeNextHop_spec HashFunc s p f fe Hi Ef) as Hrm.
    destruct (removeNextHop fe f) as [fe' b] eqn:Er. destruct Hrm as (s' & Hrun & (Hi' & Hsr & Hs') & _).
    destruct (hops_remove fe m f fe' b) as (Hm' & Hb & Hempty); [exact (proj2 (fb_entry _ s Hi p fe Ef))|done|done|].
    rewrite Hrun. exists s'. split_and!; [done|done|done|].
    destruct (m !! f) as [c|] eqn:Ec.
    + assert (b = true) as -> by (apply Hb; eauto). cbn [andb negb] in Hs'. case_decide as Ed.
      * rewrite (proj2 Hempty Ed) in Hs'. exact (slot_abs_upd s s' A p None None HA Hs' I).
      * destruct (hasNextHops fe') eqn:Eh; [|by destruct Ed; apply Hempty].
        exact (slot_abs_upd s s' A p (Some fe') (Some (delete f m)) HA Hs' Hm').
    + destruct b; [destruct (proj1 Hb eq_refl); congruence|]. cbn [andb] in Hs'.
      rewrite delete_id in Hm' by done. rewrite <-(insert_id A p m Ea).
      exact (slot_abs_upd s s' A p (Some fe') (Some m) HA Hs' Hm').
  - unfold withEntry. munfold. rewrite Fib_findExactMatch_spec by done. pose proof (HA p) as Hp.
    unfold slot_abs in Hp. destruct (fibSlot s p) as [fe|] eqn:Ef, (A !! p) as [m|] eqn:Ea; try done.
    + unfold Fib_erase. munfold. rewrite findExactMatch_spec, firstn_all by apply Hi.
      rewrite decide_True by by eapply fibSlot_is_entry.
      destruct (Fib_eraseNte_spec HashFunc s p fe true Hi Ef) as (s' & Hrun & (Hi' & Hsr & Hs') & _).
      rewrite Hrun. exists s'. split_and!; [done|done|done|].
      exact (slot_abs_upd s s' A p None None HA Hs' I).
    + exists s. rewrite delete_id by done. by split_and!.
Qed.

Lemma sameRest_trans s1 s2 s3 : sameRest s1 s2 → sameRest s2 s3 → sameRest s1 s3.
Proof.
  intros (E1 & E2 & E3 & E4) (F1 & F2 & F3 & F4). split_and!; [congruence..|].
  intros n. by rewrite F4.
Qed.

Lemma fib_run_refines ops s A :
  fib_inv HashFunc s → fib_abs s A → Forall fib_op_ok ops →
  ∃ s', fib_run ops s = Ok (tt, s') ∧ fib_inv HashFunc s' ∧ sameRest s s' ∧
    fib_abs s' (foldl (fun A op => fib_spec op A) A ops).
Proof.
  intros Hi HA Hok. revert s A Hi HA. induction Hok as [|op ops Hop Hok IH]; intros s A Hi HA.
  - exists s. by split_and!.
  - destruct (fib_exec_refines op s A Hi HA Hop) as (s1 & H1 & Hi1 & Hr1 & HA1).
    destruct (IH s1 _ Hi1 HA1) as (s2 & H2 & Hi2 & Hr2 & HA2). exists s2.
    cbn [fib_run]. munfold. rewrite H1. split_and!; [done|done|by eapply sameRest_trans|done].
Qed.

(** The longest prefix of [name] that the specification has. *)
Definition abs_lpm (A : AbsFib) (name : Name) : option Name :=
  List.find (fun n => bool_decide (is_Some (A !! n))) (prefixesDown name (length name)).

Lemma find_ext {X} (p q : X → bool) l : (∀ x, p x = q x) → List.find p l = List.find q l.
Proof. intros H. induction l as [|x l IH]; simpl; [done|]. by rewrite H, IH. Qed.

Lemma selects_fib s A n :
  fib_abs s A → selects nteHasFibEntry (st_nameTree s) n = bool_decide (is_Some (A !! n)).
Proof.
  intros HA. specialize (HA n). unfold slot_abs, fibSlot, tablesAt, tablesOf in HA.
  unfold selects, nteHasFibEntry.
  destruct (nt_entries (st_nameTree s) !! n) as [e|]; [|simpl in HA; destruct (A !! n); [done|]].
  - destruct (t_fib (e_tables e)), (A !! n); try done.
  - done.
Qed.

Lemma Fib_lpm_spec s A name :
  fib_inv HashFunc s → fib_abs s A →
  findLongestPrefixMatch HashFunc (st_nameTree s) nteHasFibEntry name = abs_lpm A name.
Proof.
  intros Hi HA. rewrite findLongestPrefixMatch_spec by apply Hi. apply find_ext.
  intros n. by apply selects_fib.
Qed.

(** The overload for PIT entries. *)
Lemma Fib_lpm_pit_eq s r n i :
  pit_inv HashFunc s → attached s r n → pitInterest s r = Some i →
  Fib_findLongestPrefixMatch_pit HashFunc s (i_name i) n
  = Fib_findLongestPrefixMatch HashFunc s (i_name i).
Proof.
  intros Hi Ha Hp. unfold Fib_findLongestPrefixMatch_pit, Fib_findLongestPrefixMatch. f_equal.
  apply findLongestPrefixMatch_pit_spec; [apply Hi| |].
  - rewrite (pi_place _ s Hi _ _ _ Ha Hp). apply prefix_take.
  - apply (pi_slot _ s Hi) in Ha. destruct (nt_entries (st_nameTree s) !! n) eqn:E; [eauto|].
    rewrite pitSlot_no_entry in Ha by done. by apply not_elem_of_nil in Ha.
Qed.
(** The FIB does not see the other tables. *)
Lemma Fib_lpm_slots s s' name :
  nt_inv HashFunc (st_nameTree s) → nt_inv HashFunc (st_nameTree s') → (∀ n, fibSlot s' n = fibSlot s n) →
  Fib_findLongestPrefixMatch HashFunc s' name = Fib_findLongestPrefixMatch HashFunc s name.
Proof.
  intros Hi Hi' Hs. unfold Fib_findLongestPrefixMatch. rewrite !findLongestPrefixMatch_spec by done.
  assert (∀ n, selects nteHasFibEntry (st_nameTree s') n = selects nteHasFibEntry (st_nameTree s) n) as Hsel.
  { intros n. specialize (Hs n). unfold fibSlot, tablesAt, tablesOf in Hs. unfold selects, nteHasFibEntry.
    destruct (nt_entries (st_nameTree s') !! n), (nt_entries (st_nameTree s) !! n); simpl in *; by rewrite ?Hs, <-?Hs. }
  rewrite (find_ext _ _ _ Hsel). unfold Fib_lpmResult. by destruct (List.find _ _); [rewrite Hs|].
Qed.

Lemma fib_inv_init nBuckets :
  (0 < nBuckets)%nat → fib_inv HashFunc (Store_init nBuckets) ∧ fib_abs (Store_init nBuckets) ∅.
Proof.
  intros Hn. assert (∀ n, fibSlot (Store_init nBuckets) n = None) as Hs.
  { intros n. unfold fibSlot, tablesAt, tablesOf. simpl. by rewrite lookup_empty. }
  split.
  - split.
    + by apply nt_inv_init.
    + intros n fe. by rewrite Hs.
    + assert (fibNames (st_nameTree (Store_init nBuckets)) = ∅) as ->; [|done].
      apply set_eq. intros x. rewrite elem_of_fibNames. fold (fibSlot (Store_init nBuckets) x).
      rewrite Hs. split; [by intros []|set_solver].
  - intros n. rewrite Hs, lookup_empty. done.
Qed.

(** C23. The FIB refines a map from prefixes to next hops: after any sequence
    of insertions, next-hop updates, next-hop removals (which erase an entry
    that has none left) and erasures of existing entries, no operation faults, every
    entry lists the specification's next hops in order of cost, the size
    counter is the number of prefixes, and [findLongestPrefixMatch] returns the entry of
    the longest prefix the specification has, or the empty entry. *)
Theorem fib_refines_map nBuckets ops name :
  (0 < nBuckets)%nat → Forall fib_op_ok ops →
  let A := foldl (fun A op => fib_spec op A) ∅ ops in
  ∃ s, fib_run ops (Store_init nBuckets) = Ok (tt, s) ∧ fib_inv HashFunc s ∧ fib_abs s A ∧
    st_fibItems s = u64 (Z.of_nat (size (dom A))) ∧
    match abs_lpm A name with
    | Some n => fibSlot s n = Some (Fib_findLongestPrefixMatch HashFunc s name)
    | None => Fib_findLongestPrefixMatch HashFunc s name = s_emptyEntry
    end.
Proof.
  intros Hn Hok A. destruct (fib_inv_init nBuckets Hn) as [Hi0 HA0].
  destruct (fib_run_refines ops _ _ Hi0 HA0 Hok) as (s & Hrun & Hi & _ & HA). fold A in HA.
  exists s. split_and!; [done|done|done| |].
  - rewrite (fb_count _ s Hi). do 3 f_equal. apply set_eq. intros n.
    rewrite elem_of_fibNames, elem_of_dom. specialize (HA n). unfold slot_abs in HA.
    fold (fibSlot s n). destruct (fibSlot s n), (A !! n); try done; by split; intros [].
  - unfold Fib_findLongestPrefixMatch. rewrite (Fib_lpm_spec s A) by done.
    destruct (abs_lpm A name) as [n|] eqn:El; [|done].
    apply find_some in El as [_ Hs%bool_decide_eq_true]. specialize (HA n). unfold slot_abs in HA.
    simpl. destruct (fibSlot s n) as [fe|]; [done|]. by destruct (A !! n), Hs.
Qed.

(** The longest prefix match for a PIT entry is "equivalent to
    findLongestPrefixMatch(pitEntry.getName())", as its documentation says,
    although it starts from the name-tree entry the PIT entry is attached to. *)
Theorem Fib_lpm_pit_equiv s r n i :
  pit_inv HashFunc s → attached s r n → pitInterest s r = Some i →
  Fib_findLongestPrefixMatch_pit HashFunc s (i_name i) n
  = Fib_findLongestPrefixMatch HashFunc s (i_name i).
Proof.
  apply Fib_lpm_pit_eq.
Qed.

(** [Fib::erase(prefix)] decrements the size counter even when the prefix
    has no FIB entry, as long as the name tree has an entry for it (because of
    a PIT entry or of a longer prefix): the FIB is unchanged, and a size of zero
    wraps to 2^64 - 1. *)
Theorem Fib_erase_counts_missing_entry s prefix :
  fib_inv HashFunc s → is_Some (nt_entries (st_nameTree s) !! prefix) → fibSlot s prefix = None →
  ∃ s', Fib_erase HashFunc prefix s = Ok (tt, s') ∧ (∀ n, fibSlot s' n = fibSlot s n) ∧
    st_fibItems s' = u64 (st_fibItems s - 1) ∧
    (fibNames (st_nameTree s) = ∅ → st_fibItems s' = 2 ^ 64 - 1).
Proof.
  intros Hi Hn Hf. unfold Fib_erase. munfold.
  rewrite findExactMatch_spec, firstn_all, decide_True by (done || apply Hi).
  destruct (setFib_spec HashFunc s prefix None (fb_nt _ s Hi) Hn) as (nt1 & H1 & Hnt1 & Hd1 & _ & Hf1).
  destruct (eraseIfEmpty_spec HashFunc nt1 prefix true Hnt1) as (k & nt2 & Her & _ & Ht2 & _);
    [by apply Hd1|].
  unfold Fib_eraseNte. munfold. rewrite H1. rewrite (onNameTree_Ok _ (set_st_nameTree nt1 s) _ _ Her).
  eexists. split_and!; [done| |done|].
  - intros n. unfold fibSlot at 1. cbn [st_nameTree set_st_nameTree set_st_fibItems]. rewrite Ht2.
    etransitivity; [apply Hf1|]. case_decide; [by subst|done].
  - intros E. cbn [st_fibItems set_st_nameTree set_st_fibItems].
    rewrite (fb_count _ s Hi), E. vm_compute. reflexivity.
Qed.

(** Removing the last next hop of a FIB entry leaves an empty name-tree
    entry behind ([removeNextHop] erases the FIB entry with [canDeleteNte] set
    to false), and [Pit::find] for any Interest attached there then fails its assertion that the
    name-tree entry is not empty. *)
Theorem Fib_removeNextHop_breaks_Pit_find s n fe face e :
  fib_inv HashFunc s → pit_inv HashFunc s →
  fibSlot s n = Some fe → fib_faces fe = [face] →
  nt_entries (st_nameTree s) !! n = Some e → e_children e = [] → nonFib s n = noTables →
  ∃ s' e', Fib_removeNextHop HashFunc n face s = Ok (FIB_ENTRY_REMOVED, s') ∧
    nt_entries (st_nameTree s') !! n = Some e' ∧ isEmpty e' = true ∧
    ∀ interest, nteName (i_name interest) = n →
      Pit_find HashFunc interest s' = Fault AssertFailed.
Proof.
  intros Hi Hpi Hf Hfaces He Hc Hnt.
  pose proof (Fib_removeNextHop_spec HashFunc s n face fe Hi Hf) as Hrm.
  destruct (fe_nextHops fe) as [|[f c] [|? ?]] eqn:El; unfold fib_faces in Hfaces; rewrite El in Hfaces;
    simpl in Hfaces; [done| |done]. injection Hfaces as ->.
  assert (removeNextHop fe face = (mkFibEntry (fe_prefix fe) [], true)) as Er.
  { unfold removeNextHop. rewrite El. simpl. by rewrite (bool_decide_true (face = face)). }
  rewrite Er in Hrm. simpl in Hrm. destruct Hrm as (s' & Hrun & (Hi' & Hsr & Hs') & Hd).
  assert (tablesAt (st_nameTree s') n = noTables) as Htab.
  { destruct Hsr as (_ & _ & _ & Hnf). specialize (Hnf n). rewrite Hnt in Hnf.
    specialize (Hs' n). unfold updSlot in Hs'. rewrite decide_True in Hs' by done.
    unfold nonFib, fibSlot in *. destruct (tablesAt (st_nameTree s') n). simpl in *.
    unfold setFibSlot, noTables in *. simpl in *. congruence. }
  destruct (Hd n ltac:(eauto)) as [e' He'].
  assert (isEmpty e' = true) as Hemp.
  { unfold isEmpty. pose proof (Fib_removeNextHop_children HashFunc _ _ _ _ _ Hrun n) as Hch.
    unfold children in Hch. rewrite He, He' in Hch. injection Hch as ->. rewrite Hc. apply noTableEntries_spec.
    unfold tablesAt, tablesOf in Htab. by rewrite He' in Htab. }
  exists s', e'. split_and!; [done|done|done|]. intros interest Hin.
  apply (Pit_find_empty_nte_asserts HashFunc s' interest e'); [|by rewrite Hin|done].
  eapply sameRest_pit; [exact Hpi|apply Hi'|done].
Qed.
End refinement.

(** ** Witnesses *)

Definition fibOps : list fib_op :=
  [FInsert [pitA]; FAddNextHop [pitA] 1 10; FAddNextHop [pitA] 2 5; FRemoveNextHop [pitA] 1].
Lemma fib_refines_map_witness :
  ∃ s, fib_run ctype fibOps (Store_init 1) = Ok (tt, s) ∧
    fibSlot s [pitA] = Some (Fib_findLongestPrefixMatch ctype s [pitA; pitA]).
Proof.
  destruct (fib_refines_map ctype 1 fibOps [pitA; pitA]) as (s & H1 & _ & _ & _ & H2).
  - lia.
  - repeat constructor; simpl; unfold getMaxDepth; lia.
  - exists s. split; [exact H1|]. revert H2. vm_compute. done.
Defined.

Lemma Fib_lpm_pit_equiv_witness :
  Fib_findLongestPrefixMatch_pit ctype sampleStore [pitA] [pitA]
  = Fib_findLongestPrefixMatch ctype sampleStore [pitA].
Proof.
  apply (Fib_lpm_pit_equiv ctype sampleStore 0 [pitA] sampleInterest sampleStore_inv).
  - eexists. split; vm_compute; reflexivity.
  - vm_compute. reflexivity.
Defined.

(** The sample PIT has a name-tree entry for /A and no FIB entry. *)
Lemma sampleStore_fib_inv : fib_inv ctype sampleStore.
Proof.
  destruct (Pit_insert_spec ctype sampleStore0 sampleInterest 0 sampleStore0_inv)
    as (r & b & s' & H & Hi & _ & _ & _ & Hfi & Hnp & _); [reflexivity|].
  unfold sampleStore. rewrite H.
  assert (∀ n, fibSlot s' n = None) as Hs.
  { intros n. specialize (Hnp n). apply (f_equal t_fib) in Hnp. unfold fibSlot.
    simpl in Hnp. rewrite Hnp. unfold tablesAt, tablesOf. simpl. by rewrite lookup_empty. }
  split; [apply Hi| |].
  - intros n fe. by rewrite Hs.
  - rewrite Hfi. assert (fibNames (st_nameTree s') = ∅) as ->; [|done].
    apply set_eq. intros x. rewrite elem_of_fibNames. fold (fibSlot s' x). rewrite Hs.
    split; [by intros []|set_solver].
Qed.

Lemma Fib_erase_counts_missing_entry_witness :
  ∃ s', Fib_erase ctype [pitA] sampleStore = Ok (tt, s') ∧ st_fibItems s' = 2 ^ 64 - 1.
Proof.
  destruct (Fib_erase_counts_missing_entry ctype sampleStore [pitA] sampleStore_fib_inv)
    as (s' & H1 & _ & _ & H2).
  - vm_compute. eauto.
  - vm_compute. reflexivity.
  - exists s'. split; [exact H1|]. apply H2. vm_compute. reflexivity.
Defined.

(** A FIB entry for /A with the one next hop 1. *)
Definition oneHopOps : list fib_op := [FInsert [pitA]; FAddNextHop [pitA] 1 10].
Definition oneHopStore : Store :=
  match fib_run ctype oneHopOps (Store_init 1) with Ok (_, s) => s | Fault _ => Store_init 1 end.
Lemma oneHopStore_inv : fib_inv ctype oneHopStore ∧ pit_inv ctype oneHopStore.
Proof.
  destruct (fib_inv_init ctype 1) as [Hi HA]; [lia|].
  destruct (fib_run_refines ctype oneHopOps (Store_init 1) ∅ Hi HA) as (s & H & Hi' & Hsr & _).
  { repeat constructor; simpl; unfold getMaxDepth; lia. }
  unfold oneHopStore. rewrite H. split; [done|].
  eapply sameRest_pit; [apply (pit_inv_init ctype 1); lia|apply Hi'|done].
Qed.
Lemma Fib_removeNextHop_breaks_Pit_find_witness :
  ∃ s', Fib_removeNextHop ctype [pitA] 1 oneHopStore = Ok (FIB_ENTRY_REMOVED, s') ∧
    Pit_find ctype sampleInterest s' = Fault AssertFailed.
Proof.
  destruct oneHopStore_inv as [Hi Hp].
  destruct (Fib_removeNextHop_breaks_Pit_find ctype oneHopStore [pitA]
    (mkFibEntry [pitA] [mkNextHop 1 10]) 1
    (mkEntry (Some []) [] (mkTables (Some (mkFibEntry [pitA] [mkNextHop 1 10])) [] None None)) Hi Hp)
    as (s' & e' & H1 & _ & _ & H2).
  - vm_compute. reflexivity.
  - reflexivity.
  - vm_compute. reflexivity.
  - reflexivity.
  - vm_compute. reflexivity.
  - exists s'. split; [exact H1|]. apply H2. vm_compute. reflexivity.
Defined.
