(* ===== verification/Cleanup.v ===== *)
(** * Cleanup after a face (NFD [table/cleanup.cpp])

    Before a face leaves the face table, [cleanupOnFaceRemoval] takes it out of
    the FIB and the PIT in one pass over the name tree and then erases the
    name-tree entries that have become empty, longer names first.  The
    [std::multimap] of the candidates is a list in the order of their lengths. *)

From S2P Require Import Prelude Tlv Component Name Packet Hashtable NameTree Face FibEntry PitEntry.
From S2P Require Import Store Pit Fib.
Local Open Scope Z_scope.

(** ** The code *)

(** [multimap::emplace] with the number of components as the key: the new
    element goes behind those with an equal key. *)
Fixpoint multimap_emplace (n : Name) (l : list Name) : list Name :=
  match l with
  | [] => [n]
  | x :: l' => if bool_decide (length n < length x)%nat then n :: l else x :: multimap_emplace n l'
  end.

Definition anyEntry (n : Name) (e : Entry NTables) : bool := true.

Section code.
Context (HashFunc : Component → Z).

(** The body of the loop over the name tree: what is left of the candidates
    is the state of the loop. *)
Definition visitNte (face : FaceRef) (n : Name) (maybeEmptyNtes : list Name) : M Store (list Name) :=
  nte ← onNameTree (entry n);
  (match t_fib (e_tables nte) with
   | Some _ => Fib_removeNextHop HashFunc n face;; mret tt
   | None => mret tt
   end);;
  nte ← onNameTree (entry n);
  forM_ (t_pit (e_tables nte)) (fun pitEntry => deleteInOutRecords pitEntry face);;
  nte ← onNameTree (entry n);
  mret (if noTableEntries (e_tables nte) then multimap_emplace n maybeEmptyNtes else maybeEmptyNtes).
Fixpoint visitNtes (face : FaceRef) (ntes maybeEmptyNtes : list Name) : M Store (list Name) :=
  match ntes with
  | [] => mret maybeEmptyNtes
  | n :: ntes' => maybeEmptyNtes' ← visitNte face n maybeEmptyNtes; visitNtes face ntes' maybeEmptyNtes'
  end.

Definition noneEmpty (nt : NTree) : bool :=
  forallb (fun n => negb (selects (fun _ => isEmpty) nt n)) (fullEnumerate nt anyEntry).

Definition cleanupOnFaceRemoval (face : FaceRef) : M Store unit :=
  s ← get;
  maybeEmptyNtes ← visitNtes face (fullEnumerate (st_nameTree s) anyEntry) [];
  forM_ (rev maybeEmptyNtes) (fun n => onNameTree (eraseIfEmpty HashFunc n false);; mret tt);;
  s ← get;
  assertM (bool_decide (m_size (nt_ht (st_nameTree s)) = 0%nat) || noneEmpty (st_nameTree s)).
End code.

(** ** What it leaves of an entry *)

(** The FIB entry without the face, and nothing when that was its last next
    hop; the PIT entry without the records of the face. *)
Definition withoutHop (face : FaceRef) (fe : FibEntry) : option FibEntry :=
  let '(fe', isRemoved) := removeNextHop fe face in
  if isRemoved && negb (hasNextHops fe') then None else Some fe'.
Definition withoutRecords (face : FaceRef) (pe : PitEntry) : PitEntry :=
  deleteOutRecord face (deleteInRecord face pe).
(** The entries attached to the names [P] are cleaned. *)
Definition cleanedAt (P : Name → bool) (face : FaceRef) (pe : PitEntry) : PitEntry :=
  match pe_nameTreeEntry pe with
  | Some n => if P n then withoutRecords face pe else pe
  | None => pe
  end.

Lemma withoutHop_spec face fe fe' :
  fe_inv fe → withoutHop face fe = Some fe' →
  ∀ nh, nh ∈ fe_nextHops fe' ↔ nh ∈ fe_nextHops fe ∧ nh_face nh ≠ face.
Proof.
  unfold withoutHop. intros Hi. destruct (removeNextHop fe face) as [x b] eqn:E.
  destruct (b && negb (hasNextHops x)); [done|]. intros [= <-]. apply (fe_inv_remove fe face x b Hi E).
Qed.
Lemma withoutHop_none face fe :
  fe_inv fe → withoutHop face fe = None → ∀ nh, nh ∈ fe_nextHops fe → nh_face nh = face.
Proof.
  unfold withoutHop. intros Hi. destruct (removeNextHop fe face) as [x b] eqn:E.
  destruct b; [|done]. cbn [andb]. destruct (hasNextHops x) eqn:Eh; [done|]. intros _ nh Hnh.
  destruct (decide (nh_face nh = face)) as [|Hne]; [done|].
  assert (nh ∈ fe_nextHops x) as Hin by (apply (fe_inv_remove fe face x true Hi E); done).
  unfold hasNextHops in Eh. destruct (fe_nextHops x); [by apply not_elem_of_nil in Hin|done].
Qed.
Lemma withoutHop_bind face (o : option FibEntry) nh :
  (∀ fe, o = Some fe → fe_inv fe) →
  (∃ fe, o ≫= withoutHop face = Some fe ∧ nh ∈ fe_nextHops fe) ↔
  (∃ fe, o = Some fe ∧ nh ∈ fe_nextHops fe) ∧ nh_face nh ≠ face.
Proof.
  intros Hi. destruct o as [fe|]; cbn; [|naive_solver]. specialize (Hi fe eq_refl).
  destruct (withoutHop face fe) as [fe'|] eqn:E.
  - pose proof (withoutHop_spec face fe fe' Hi E nh). naive_solver.
  - pose proof (withoutHop_none face fe Hi E nh). naive_solver.
Qed.
Lemma withoutHop_some_hops face fe fe' :
  withoutHop face fe = Some fe' → fe_nextHops fe ≠ [] → fe_nextHops fe' ≠ [].
Proof.
  unfold withoutHop, removeNextHop. case_bool_decide as E.
  - cbn [andb]. destruct (hasNextHops _) eqn:Eh; [|done]. intros [= <-] _. unfold hasNextHops in Eh.
    intros H. cbn [fe_nextHops] in *. by rewrite H in Eh.
  - by intros [= <-].
Qed.

Lemma cleanedAt_same P face pe :
  pe_interest (cleanedAt P face pe) = pe_interest pe ∧
  pe_nameTreeEntry (cleanedAt P face pe) = pe_nameTreeEntry pe.
Proof. unfold cleanedAt. destruct (pe_nameTreeEntry pe) as [n|] eqn:E; [|done]. by destruct (P n). Qed.
Lemma cleanedAt_compose P Q face pe :
  (∀ n, P n = true → Q n = false) →
  cleanedAt Q face (cleanedAt P face pe) = cleanedAt (fun n => P n || Q n) face pe.
Proof.
  intros H. unfold cleanedAt at 1. rewrite (proj2 (cleanedAt_same P face pe)).
  unfold cleanedAt. destruct (pe_nameTreeEntry pe) as [n|]; [|done].
  destruct (P n) eqn:E; cbn [orb]; [by rewrite (H n E)|done].
Qed.
Lemma cleanedAt_none face pe : cleanedAt (fun _ => false) face pe = pe.
Proof. unfold cleanedAt. by destruct (pe_nameTreeEntry pe). Qed.

Section proofs.
Context (HashFunc : Component → Z).

(** ** One erasure *)

(** [eraseIfEmpty] of one entry, without its ancestors. *)
Lemma eraseIfEmpty_one (nt : NTree) n :
  nt_inv HashFunc nt → is_Some (nt_entries nt !! n) →
  ∃ k nt', eraseIfEmpty HashFunc n false nt = Ok (k, nt') ∧ nt_inv HashFunc nt' ∧
    (∀ x, tablesAt nt' x = tablesAt nt x) ∧
    (∀ x, is_Some (nt_entries nt' !! x) ↔ is_Some (nt_entries nt !! x) ∧ (x ≠ n ∨ inUse nt n)).
Proof.
  intros Hi [e He]. pose proof (isEmpty_inUse HashFunc nt n e Hi He) as Hu.
  unfold eraseIfEmpty. destruct (isEmpty e) eqn:Ee.
  - rewrite (eraseIfEmpty_run HashFunc nt n e) by done.
    destruct (eraseStep_inv HashFunc nt n e Hi He Ee) as (Hi' & Ht & Hd).
    eexists _, _. split_and!; [done|done|done|]. intros x. rewrite Hd. naive_solver.
  - exists 0%nat, nt. cbn [eraseIfEmpty_loop]. unfold entry. munfold. rewrite He. cbn [deref]. munfold.
    rewrite Ee. split_and!; [done..|]. naive_solver.
Qed.

(** ** The PIT entries of one name *)

Lemma entry_ok_withoutRecords s face pe : entry_ok s pe → entry_ok s (withoutRecords face pe).
Proof.
  intros [H1 H2 H3]. split; [by apply pe_inv_deleteOut, pe_inv_deleteIn|done|].
  intros r Hr. apply H3. by apply (elem_of_deleteIn face pe r H1).
Qed.

Lemma deleteInOutRecords_Ok face s r pe :
  st_pits s !! r = Some pe →
  deleteInOutRecords r face s = Ok (tt, set_st_pits (<[r := withoutRecords face pe]> (st_pits s)) s).
Proof. intros H. unfold deleteInOutRecords. by rewrite (setPitEntry_Ok _ _ _ _ H). Qed.
Lemma deleteAll_spec face l s :
  pit_inv HashFunc s → NoDup l → (∀ r, r ∈ l → is_Some (st_pits s !! r)) →
  ∃ m, forM_ l (fun r => deleteInOutRecords r face) s = Ok (tt, set_st_pits m s) ∧
    pit_inv HashFunc (set_st_pits m s) ∧
    ∀ r, m !! r = (if decide (r ∈ l) then withoutRecords face else id) <$> st_pits s !! r.
Proof.
  revert s. induction l as [|r l IH]; intros s Hi Hnd Hin.
  - exists (st_pits s). destruct s. split_and!; [done|done|]. intros r. cbn. by destruct (_ !! r).
  - apply NoDup_cons in Hnd as [Hr Hnd]. destruct (Hin r) as [pe Hpe]; [by left|].
    cbn [forM_]. munfold. rewrite (deleteInOutRecords_Ok _ _ _ _ Hpe). set (s1 := set_st_pits _ s).
    assert (pit_inv HashFunc s1) as Hi1.
    { apply (pit_inv_entry _ _ r pe); [done..|]. apply entry_ok_withoutRecords. by eapply pi_entry. }
    destruct (IH s1 Hi1 Hnd) as (m & Hrun & Hm & Hl).
    { intros x Hx. unfold s1. cbn [st_pits set_st_pits]. rewrite lookup_insert. case_decide; [done|].
      apply Hin. by right. }
    exists m. split_and!; [exact Hrun|exact Hm|]. intros x. rewrite Hl. unfold s1. cbn [st_pits set_st_pits].
    rewrite lookup_insert. destruct (decide (r = x)) as [<-|Hne].
    + rewrite decide_False, decide_True by (done || by left). by rewrite Hpe.
    + f_equal. destruct (decide (x ∈ l)); [rewrite decide_True by by right|rewrite decide_False by set_solver]; done.
Qed.

(** ** The pass over the name tree *)

(** The tables [s'] are those of [s] after the names in [P] were visited. *)
Record cleaned (face : FaceRef) (P : Name → bool) (s s' : Store) : Prop := {
  cl_pit : pit_inv HashFunc s';
  cl_fib : fib_inv HashFunc s';
  cl_nonFib : ∀ n, nonFib s' n = nonFib s n;
  cl_slot : ∀ n, fibSlot s' n = if P n then fibSlot s n ≫= withoutHop face else fibSlot s n;
  cl_pits : ∀ r, st_pits s' !! r = cleanedAt P face <$> st_pits s !! r;
  cl_interests : st_interests s' = st_interests s;
  cl_items : st_pitItems s' = st_pitItems s
}.
Definition sameNames (s s' : Store) : Prop :=
  ∀ x, is_Some (nt_entries (st_nameTree s') !! x) ↔ is_Some (nt_entries (st_nameTree s) !! x).

Lemma cleaned_refl face s : pit_inv HashFunc s → fib_inv HashFunc s → cleaned face (fun _ => false) s s.
Proof.
  intros. split; try done. intros r. destruct (st_pits s !! r); [|done]. cbn. by rewrite cleanedAt_none.
Qed.
Lemma cleaned_trans face P Q s1 s2 s3 :
  (∀ n, P n = true → Q n = false) →
  cleaned face P s1 s2 → cleaned face Q s2 s3 → cleaned face (fun n => P n || Q n) s1 s3.
Proof.
  intros Hd [A1 A2 A3 A4 A5 A6 A7] [B1 B2 B3 B4 B5 B6 B7]. split; try done; try congruence.
  - intros n. rewrite B4, A4. destruct (P n) eqn:E; cbn [orb]; [by rewrite (Hd n E)|done].
  - intros r. rewrite B5, A5. destruct (st_pits s1 !! r); cbn; [|done]. by rewrite cleanedAt_compose.
Qed.
Lemma cleaned_ext face P Q s s' : (∀ n, P n = Q n) → cleaned face P s s' → cleaned face Q s s'.
Proof.
  intros H [A1 A2 A3 A4 A5 A6 A7]. split; try done.
  - intros n. by rewrite <-H.
  - intros r. rewrite A5. destruct (st_pits s !! r) as [pe|]; [|done]. cbn. unfold cleanedAt.
    destruct (pe_nameTreeEntry pe); [by rewrite H|done].
Qed.

(** Visiting a FIB entry. *)
Lemma removeNextHop_visit face n s :
  pit_inv HashFunc s → fib_inv HashFunc s →
  ∃ s', (match fibSlot s n with
         | Some _ => Fib_removeNextHop HashFunc n face;; mret tt
         | None => mret tt
         end) s = Ok (tt, s') ∧
    pit_inv HashFunc s' ∧ sameNames s s' ∧
    fib_post HashFunc s s' (fun x => if bool_decide (x = n) then fibSlot s x ≫= withoutHop face else fibSlot s x).
Proof.
  intros Hp Hi. destruct (fibSlot s n) as [fe|] eqn:Ef.
  2: { exists s. split_and!; [done|done|done|]. split_and!; [done|done|]. intros x.
       case_bool_decide; [subst; by rewrite Ef|done]. }
  pose proof (Fib_removeNextHop_spec HashFunc s n face fe Hi Ef) as Hrm.
  destruct (removeNextHop fe face) as [fe' b] eqn:Er. destruct Hrm as (s' & Hrun & (H1 & H2 & H3) & _).
  exists s'. split; [munfold; by rewrite Hrun|]. split; [by eapply sameRest_pit; [done|apply H1|done]|].
  split.
  - intros x. pose proof (Fib_removeNextHop_children HashFunc _ _ _ _ _ Hrun x) as Hc. unfold children in Hc.
    by rewrite <-!(fmap_is_Some e_children), Hc.
  - split_and!; [done|done|]. intros x. rewrite H3. unfold updSlot. case_decide as E.
    + subst x. rewrite bool_decide_true, Ef by done. cbn. unfold withoutHop. by rewrite Er.
    + by rewrite bool_decide_false.
Qed.

(** A change of the PIT entries does not concern the FIB. *)
Lemma fib_inv_pits s m : fib_inv HashFunc s → fib_inv HashFunc (set_st_pits m s).
Proof. intros [H1 H2 H3]. by split. Qed.

Lemma visitNte_spec face n l s :
  pit_inv HashFunc s → fib_inv HashFunc s → is_Some (nt_entries (st_nameTree s) !! n) →
  ∃ s', visitNte HashFunc face n l s =
      Ok (if noTableEntries (tablesAt (st_nameTree s') n) then multimap_emplace n l else l, s') ∧
    cleaned face (fun x => bool_decide (x = n)) s s' ∧ sameNames s s'.
Proof.
  intros Hp Hi [e He]. unfold visitNte. munfold. rewrite (onNameTree_entry _ _ _ He), (fibSlot_entry _ _ _ He).
  destruct (removeNextHop_visit face n s Hp Hi) as (s1 & Hrun & Hp1 & Hn1 & Hi1 & (E1 & E2 & E3 & E4) & Hf1).
  munfold. rewrite Hrun. destruct (proj2 (Hn1 n)) as [e1 He1]; [eauto|].
  rewrite (onNameTree_entry _ _ _ He1), (pitSlot_entry _ _ _ He1).
  destruct (deleteAll_spec face (pitSlot s1 n) s1 Hp1) as (m & Hrun2 & Hp2 & Hm).
  { by apply pi_nodup with HashFunc. }
  { intros r (pe & Hr & _)%(pi_slot HashFunc s1 Hp1). eauto. }
  rewrite Hrun2. rewrite (onNameTree_entry (set_st_pits m s1) _ _ He1).
  exists (set_st_pits m s1). split.
  { cbn [st_nameTree set_st_pits]. unfold tablesAt, tablesOf. by rewrite He1. }
  split; [|done]. split; try done.
  - by apply fib_inv_pits.
  - intros r. cbn [st_pits set_st_pits]. rewrite Hm, E2. destruct (st_pits s !! r) as [pe|] eqn:Er; [|done].
    cbn. f_equal. unfold cleanedAt.
    assert (r ∈ pitSlot s1 n ↔ pe_nameTreeEntry pe = Some n) as Hin.
    { rewrite (pi_slot HashFunc s1 Hp1). unfold attached. rewrite E2, Er. naive_solver. }
    case_decide as Ed; rewrite Hin in Ed.
    + by rewrite Ed, bool_decide_true.
    + destruct (pe_nameTreeEntry pe) as [x|]; [|done]. rewrite bool_decide_false; [done|congruence].
Qed.

Lemma tablesAt_slots (nt nt' : NTree) n :
  setFibSlot None (tablesAt nt' n) = setFibSlot None (tablesAt nt n) →
  t_fib (tablesAt nt' n) = t_fib (tablesAt nt n) → tablesAt nt' n = tablesAt nt n.
Proof.
  destruct (tablesAt nt' n), (tablesAt nt n). unfold setFibSlot. cbn. intros [= -> -> ->] ->. done.
Qed.
(** A name that is not visited keeps its tables. *)
Lemma cleaned_tablesAt face P s s' n :
  cleaned face P s s' → P n = false → tablesAt (st_nameTree s') n = tablesAt (st_nameTree s) n.
Proof.
  intros Hc Hn. apply tablesAt_slots; [apply (cl_nonFib _ _ _ _ Hc)|].
  pose proof (cl_slot _ _ _ _ Hc n) as H. by rewrite Hn in H.
Qed.

Definition shorter (x y : Name) : Prop := (length x ≤ length y)%nat.
Lemma StronglySorted_reverse {A} (R : A → A → Prop) l : StronglySorted R l → StronglySorted (flip R) (rev l).
Proof.
  induction 1 as [|x l Hs IH Hx]; simpl; [constructor|]. apply StronglySorted_app. split_and!.
  - intros a b Ha ->%list_elem_of_singleton. rewrite <-Permutation_rev in Ha. rewrite Forall_forall in Hx. by apply Hx.
  - done.
  - repeat constructor.
Qed.
Lemma multimap_emplace_perm n l : multimap_emplace n l ≡ₚ n :: l.
Proof.
  induction l as [|x l IH]; cbn [multimap_emplace]; [done|]. case_bool_decide; [done|].
  rewrite IH. apply perm_swap.
Qed.
Lemma multimap_emplace_sorted n l :
  StronglySorted shorter l → StronglySorted shorter (multimap_emplace n l).
Proof.
  induction l as [|x l IH]; cbn [multimap_emplace]; [by repeat constructor|].
  intros Hs. apply StronglySorted_cons in Hs as [Hx Hs]. case_bool_decide as E.
  - repeat constructor; [done|done|unfold shorter; lia|].
    eapply Forall_impl; [exact Hx|]. unfold shorter. simpl. lia.
  - constructor; [by apply IH|]. rewrite multimap_emplace_perm. constructor; [unfold shorter; lia|done].
Qed.

Lemma visitNtes_spec face ns : ∀ l s,
  pit_inv HashFunc s → fib_inv HashFunc s → NoDup ns →
  (∀ n, n ∈ ns → is_Some (nt_entries (st_nameTree s) !! n)) →
  ∃ l' s', visitNtes HashFunc face ns l s = Ok (l', s') ∧
    cleaned face (fun x => bool_decide (x ∈ ns)) s s' ∧ sameNames s s' ∧
    l' ≡ₚ filter (fun x => noTableEntries (tablesAt (st_nameTree s') x) = true) ns ++ l ∧
    (StronglySorted shorter l → StronglySorted shorter l').
Proof.
  induction ns as [|n ns IH]; intros l s Hp Hi Hnd Hin; cbn [visitNtes].
  - exists l, s. split_and!; try done. eapply cleaned_ext; [|by apply cleaned_refl].
    intros x. symmetry. apply bool_decide_false, not_elem_of_nil.
  - apply NoDup_cons in Hnd as [Hn Hnd].
    destruct (visitNte_spec face n l s Hp Hi) as (s1 & Hrun & Hc1 & Hn1); [apply Hin; by left|].
    set (l1 := if noTableEntries _ then _ else _) in Hrun.
    destruct (IH l1 s1) as (l' & s' & Hrun' & Hc & Hns & Hl & Hs); [apply Hc1|apply Hc1|done| |].
    { intros x Hx. apply Hn1, Hin. by right. }
    assert (tablesAt (st_nameTree s') n = tablesAt (st_nameTree s1) n) as Ht
      by (eapply cleaned_tablesAt; [done|by apply bool_decide_false]).
    exists l', s'. split_and!.
    + munfold. by rewrite Hrun.
    + eapply cleaned_ext; [|eapply cleaned_trans; [|exact Hc1|exact Hc]].
      * intros x. cbn beta. rewrite <-bool_decide_or. apply bool_decide_ext. set_solver.
      * intros x ->%bool_decide_eq_true. by apply bool_decide_false.
    + intros x. etransitivity; [apply Hns|apply Hn1].
    + rewrite Hl, filter_cons, Ht. unfold l1. destruct (noTableEntries (tablesAt (st_nameTree s1) n)).
      * rewrite decide_True, multimap_emplace_perm by done. simpl. symmetry. apply Permutation_middle.
      * by rewrite decide_False.
    + intros Hsl. apply Hs. unfold l1. destruct (noTableEntries _); [by apply multimap_emplace_sorted|done].
Qed.

(** ** The erasures *)

Lemma eraseAll_spec l : ∀ s,
  nt_inv HashFunc (st_nameTree s) → NoDup l → StronglySorted (flip shorter) l →
  (∀ n, n ∈ l → is_Some (nt_entries (st_nameTree s) !! n)) →
  ∃ nt', forM_ l (fun n => onNameTree (eraseIfEmpty HashFunc n false);; mret tt) s =
      Ok (tt, set_st_nameTree nt' s) ∧
    nt_inv HashFunc nt' ∧ (∀ x, tablesAt nt' x = tablesAt (st_nameTree s) x) ∧
    (∀ x, is_Some (nt_entries nt' !! x) → is_Some (nt_entries (st_nameTree s) !! x)) ∧
    (∀ x, is_Some (nt_entries (st_nameTree s) !! x) → x ∉ l → is_Some (nt_entries nt' !! x)) ∧
    (∀ x, x ∈ l → is_Some (nt_entries nt' !! x) → inUse nt' x).
Proof.
  induction l as [|n l IH]; intros s Hi Hnd Hs Hin.
  - exists (st_nameTree s). rewrite set_st_nameTree_id. split_and!; try done. by intros x ?%not_elem_of_nil.
  - apply NoDup_cons in Hnd as [Hn Hnd]. apply StronglySorted_cons in Hs as [Hle Hs].
    rewrite Forall_forall in Hle.
    destruct (eraseIfEmpty_one (st_nameTree s) n Hi) as (k & nt1 & Hrun & Hi1 & Ht1 & Hd1); [apply Hin; by left|].
    destruct (IH (set_st_nameTree nt1 s)) as (nt' & Hrun' & Hi' & Ht' & Hsub & Hkeep & Huse); [done..| |].
    { intros x Hx. apply Hd1. split; [apply Hin; by right|left]. by intros ->. }
    cbn [st_nameTree set_st_nameTree] in *.
    exists nt'. split_and!.
    + cbn [forM_]. munfold. rewrite (onNameTree_Ok _ _ _ _ Hrun). exact Hrun'.
    + done.
    + intros x. by rewrite Ht', Ht1.
    + intros x Hx. by apply Hd1, Hsub.
    + intros x Hx Hnin. apply Hkeep; [|set_solver]. apply Hd1. split; [done|]. left. set_solver.
    + intros x [->|Hx]%elem_of_cons Hpres; [|by apply Huse].
      destruct (proj1 (Hd1 n) (Hsub n Hpres)) as [_ [?|[Hu|(c & Hc & Hpre & Hne)]]]; [done| |].
      * left. by rewrite Ht', Ht1.
      * right. exists c. split_and!; [|done|done]. apply Hkeep; [apply Hd1; split; [done|by left]|].
        intros Hcl. specialize (Hle c Hcl). unfold flip, shorter in Hle.
        destruct Hpre as [r ->]. rewrite length_app in Hle. apply Hne. destruct r; [by rewrite app_nil_r|simpl in Hle; lia].
Qed.

(** The store with another tree that holds the same tables. *)
Lemma cleaned_tree face P s s' nt' :
  cleaned face P s s' → nt_inv HashFunc nt' → (∀ x, tablesAt nt' x = tablesAt (st_nameTree s') x) →
  cleaned face P s (set_st_nameTree nt' s').
Proof.
  intros [A1 A2 A3 A4 A5 A6 A7] Hnt Ht. split; try done.
  - apply pit_inv_nt; [done|done|]. intros n. by rewrite Ht.
  - destruct A2 as [B1 B2 B3]. split; [done| |].
    + intros n fe. unfold fibSlot. cbn. rewrite Ht. apply B2.
    + cbn. by rewrite (fibNames_same (st_nameTree s')).
  - intros n. rewrite <-A3. unfold nonFib. cbn. by rewrite Ht.
  - intros n. rewrite <-A4. unfold fibSlot. cbn. by rewrite Ht.
Qed.

Lemma noneEmpty_spec nt : nt_inv HashFunc nt → noEmpty nt → noneEmpty nt = true.
Proof.
  intros Hi Hne. apply forallb_forall. intros n _. unfold selects.
  destruct (nt_entries nt !! n) as [e|] eqn:He; [|done]. by rewrite (Hne n e He).
Qed.

Lemma elem_of_allNames nt n :
  nt_inv HashFunc nt → n ∈ fullEnumerate nt anyEntry ↔ is_Some (nt_entries nt !! n).
Proof.
  intros Hi. unfold fullEnumerate. rewrite list_elem_of_filter, (ni_dom HashFunc nt Hi). unfold selects, anyEntry.
  destruct (nt_entries nt !! n); [naive_solver|]. split; [by intros []|by intros []].
Qed.

Lemma cleanup_spec face s :
  pit_inv HashFunc s → fib_inv HashFunc s →
  ∃ s', cleanupOnFaceRemoval HashFunc face s = Ok (tt, s') ∧
    cleaned face (fun _ => true) s s' ∧ noEmpty (st_nameTree s').
Proof.
  intros Hp Hi. pose proof (fb_nt HashFunc s Hi) as Hnt. set (ns := fullEnumerate (st_nameTree s) anyEntry).
  assert (∀ n, n ∈ ns ↔ is_Some (nt_entries (st_nameTree s) !! n)) as Hns by (intros; by apply elem_of_allNames).
  assert (NoDup ns) as Hnd by (by apply NoDup_filter, (hi_nodup HashFunc), ni_ht).
  destruct (visitNtes_spec face ns [] s Hp Hi Hnd) as (l & s1 & Hrun & Hc & Hsame & Hl & Hsort); [by intros n ?%Hns|].
  rewrite app_nil_r in Hl.
  destruct (eraseAll_spec (rev l) s1) as (nt' & Hrun2 & Hi' & Ht' & Hsub & Hkeep & Huse).
  { apply (pi_nt HashFunc), Hc. }
  { rewrite <-Permutation_rev, Hl. by apply NoDup_filter. }
  { apply StronglySorted_reverse, Hsort. constructor. }
  { intros n. rewrite <-Permutation_rev, Hl, list_elem_of_filter. intros [_ ?%Hns]. by apply Hsame. }
  assert (noEmpty nt') as Hne.
  { apply (noEmpty_inUse HashFunc); [done|]. intros n Hn. destruct (decide (n ∈ rev l)) as [|Hnl]; [by apply Huse|].
    left. rewrite Ht'. intros E. apply Hnl. rewrite <-Permutation_rev, Hl, list_elem_of_filter. split; [by apply noTableEntries_spec|].
    by apply Hns, Hsame, Hsub. }
  exists (set_st_nameTree nt' s1). split_and!; [| |done].
  - unfold cleanupOnFaceRemoval. munfold. fold ns. rewrite Hrun, Hrun2. cbn [st_nameTree set_st_nameTree].
    by rewrite noneEmpty_spec, orb_true_r by done.
  - apply cleaned_tree; [|done|done]. destruct Hc as [A1 A2 A3 A4 A5 A6 A7]. split; try done.
    + intros n. rewrite A4. case_bool_decide as E; [done|]. rewrite Hns in E.
      destruct (fibSlot s n) eqn:Ef; [|done]. by apply fibSlot_is_entry in Ef.
    + intros r. rewrite A5. destruct (st_pits s !! r) as [pe|] eqn:Er; [|done]. cbn. f_equal. unfold cleanedAt.
      destruct (pe_nameTreeEntry pe) as [n|] eqn:En; [|done]. rewrite bool_decide_true; [done|]. apply Hns.
      destruct (nt_entries (st_nameTree s) !! n) eqn:Ee; [eauto|]. apply pitSlot_no_entry in Ee.
      assert (r ∈ pitSlot s n) as Hin by (apply (pi_slot HashFunc s Hp); by exists pe).
      rewrite Ee in Hin. by apply not_elem_of_nil in Hin.
Qed.
End proofs.
