(* ===== verification/DeadNonceList.v ===== *)
(** * The Dead Nonce List (NFD [table/dead-nonce-list.cpp])

    A queue of 64-bit hashes of name and Nonce with marks that measure how
    long entries stay; the capacity is adapted to the marks.  The hash
    (CityHash64WithSeed) is a parameter. *)

From S2P Require Import Prelude Tlv Component Name.
Local Open Scope Z_scope.

Definition MARK : Z := 0.
Definition EXPECTED_MARK_COUNT : nat := 5.
Definition INITIAL_CAPACITY : Z := 2 ^ 14.
Definition MIN_CAPACITY : Z := 2 ^ 10.
Definition MAX_CAPACITY : Z := 2 ^ 24.
Definition EVICT_LIMIT : Z := 64.
Definition MIN_LIFETIME : Z := 50000000.
Definition DEFAULT_LIFETIME : Z := 6000000000.

Record DeadNonceList := mkDnl {
  dnl_lifetime : Z;                     (* nanoseconds *)
  m_queue : list Z;                     (* oldest first *)
  m_capacity : Z;
  m_actualMarkCounts : list nat
}.

(** The constructor. *)
Definition DeadNonceList_init (lifetime : Z) : outcome DeadNonceList :=
  if bool_decide (lifetime < MIN_LIFETIME) then Fault (Throw InvalidArgument)
  else Ok (mkDnl lifetime (replicate EXPECTED_MARK_COUNT MARK) INITIAL_CAPACITY []).

Definition countMarks (d : DeadNonceList) : nat := length (filter (fun x => x = MARK) (m_queue d)).
Definition dnl_size (d : DeadNonceList) : nat := (length (m_queue d) - countMarks d)%nat.

Definition set_m_queue (q : list Z) (d : DeadNonceList) : DeadNonceList :=
  mkDnl (dnl_lifetime d) q (m_capacity d) (m_actualMarkCounts d).

(** [evictEntries], with its assertion. *)
Definition evictEntries (d : DeadNonceList) : outcome DeadNonceList :=
  let len := Z.of_nat (length (m_queue d)) in
  if bool_decide (len ≤ m_capacity d) then Ok d
  else
    let nEvict := Z.min (len - m_capacity d) EVICT_LIMIT in
    let q := drop (Z.to_nat nEvict) (m_queue d) in
    if bool_decide (m_capacity d ≤ Z.of_nat (length q)) then Ok (set_m_queue q d)
    else Fault AssertFailed.

(** [relocate(end(), find(entry))]: the found element moves to the back. *)
Fixpoint removeOne (x : Z) (l : list Z) : list Z :=
  match l with
  | [] => []
  | y :: l' => if bool_decide (y = x) then l' else y :: removeOne x l'
  end.

Section dnl.
Context (cityHash64WithSeed : list Z → Z → Z).

Definition makeEntry (name : Name) (nonce : Z) : Z :=
  u64 (cityHash64WithSeed (Name_wireEncode name []) nonce).

Definition dnl_has (d : DeadNonceList) (name : Name) (nonce : Z) : bool :=
  bool_decide (makeEntry name nonce ∈ m_queue d).

Definition dnl_add (d : DeadNonceList) (name : Name) (nonce : Z) : outcome DeadNonceList :=
  let entry := makeEntry name nonce in
  if bool_decide (entry ∈ m_queue d)
  then Ok (set_m_queue (removeOne entry (m_queue d) ++ [entry]) d)
  else evictEntries (set_m_queue (m_queue d ++ [entry]) d).
End dnl.

Definition dnl_mark (d : DeadNonceList) : DeadNonceList :=
  let d := set_m_queue (m_queue d ++ [MARK]) d in
  mkDnl (dnl_lifetime d) (m_queue d) (m_capacity d) (countMarks d :: m_actualMarkCounts d).

(** [adjustCapacity].  [equal_range(5).second == begin()] says that no count is
    at most 5, [equal_range(5).first == end()] that no count is at least 5.
    The products with the doubles 1.2 and 0.9, truncated, are exact up to
    2^24. *)
Definition adjustCapacity (d : DeadNonceList) : outcome DeadNonceList :=
  let counts := m_actualMarkCounts d in
  let capacity :=
    if forallb (fun c => bool_decide (EXPECTED_MARK_COUNT < c)%nat) counts
    then Z.max MIN_CAPACITY (m_capacity d * 9 / 10)
    else if forallb (fun c => bool_decide (c < EXPECTED_MARK_COUNT)%nat) counts
    then Z.min MAX_CAPACITY (m_capacity d * 6 / 5)
    else m_capacity d in
  evictEntries (mkDnl (dnl_lifetime d) (m_queue d) capacity []).

(** ** Invariant and retention *)

Record dnl_inv (d : DeadNonceList) : Prop := {
  di_capacity : MIN_CAPACITY ≤ m_capacity d ≤ MAX_CAPACITY;
  di_nodup : NoDup (filter (fun x => x ≠ MARK) (m_queue d))
}.

(** The last [k] elements of the queue. *)
Definition recent (k : nat) (q : list Z) : list Z := drop (length q - k) q.

Lemma filter_drop_NoDup (P : Z → Prop) `{∀ x, Decision (P x)} n (q : list Z) :
  NoDup (filter P q) → NoDup (filter P (drop n q)).
Proof.
  intros Hnd. rewrite <-(take_drop n q), filter_app in Hnd.
  apply NoDup_app in Hnd. tauto.
Qed.

Lemma evictEntries_spec d :
  MIN_CAPACITY ≤ m_capacity d ≤ MAX_CAPACITY →
  ∃ n, evictEntries d = Ok (set_m_queue (drop n (m_queue d)) d) ∧
    (n ≤ length (m_queue d) - Z.to_nat (m_capacity d))%nat.
Proof.
  intros Hc. unfold evictEntries, EVICT_LIMIT, MIN_CAPACITY in *. case_bool_decide as Hl.
  - exists 0%nat. split; [by destruct d|lia].
  - rewrite bool_decide_true by (rewrite length_drop; lia). eexists. split; [done|]. lia.
Qed.

Lemma recent_drop k n q x :
  (n + k ≤ length q)%nat → x ∈ recent k (drop n q) ↔ x ∈ recent k q.
Proof.
  intros Hn. unfold recent. rewrite length_drop, drop_drop. by replace (n + (length q - n - k))%nat
    with (length q - k)%nat by lia.
Qed.
Lemma recent_snoc k q x y : x ∈ recent k q → x ∈ recent (S k) (q ++ [y]).
Proof.
  unfold recent. rewrite length_app. simpl. replace (length q + 1 - S k)%nat with (length q - k)%nat by lia.
  intros Hx. rewrite drop_app_le by lia. apply elem_of_app. by left.
Qed.
Lemma recent_mono k k' q x : (k ≤ k')%nat → x ∈ recent k q → x ∈ recent k' q.
Proof.
  intros Hk. unfold recent. rewrite !list_elem_of_lookup. intros [i Hi].
  rewrite lookup_drop in Hi.
  exists (length q - k + i - (length q - k'))%nat. rewrite lookup_drop. rewrite <-Hi. f_equal. lia.
Qed.
Lemma recent_removeOne k q x y : x ≠ y → x ∈ recent k q → x ∈ recent k (removeOne y q).
Proof.
  intros Hne. induction q as [|z q IH]; [done|]. intros Hx. simpl.
  destruct (decide (length q < k)%nat) as [Hlt|Hge].
  - (* everything is recent *)
    assert (∀ l, x ∈ l → x ≠ y → x ∈ removeOne y l) as Hrm.
    { induction l as [|a l IHl]; simpl; [done|]. intros [->|?]%elem_of_cons ?;
        case_bool_decide; rewrite ?elem_of_cons; auto; congruence. }
    assert (x ∈ z :: q) as Hin.
    { unfold recent in Hx. simpl in Hx. by replace (S (length q) - k)%nat with 0%nat in Hx by lia. }
    case_bool_decide as E.
    + subst z. apply elem_of_cons in Hin as [?|Hin]; [done|]. unfold recent.
      by replace (length q - k)%nat with 0%nat by lia.
    + assert (length (removeOne y q) ≤ length q)%nat.
      { clear. induction q; simpl; [lia|]. case_bool_decide; simpl; lia. }
      unfold recent. simpl. replace (S (length (removeOne y q)) - k)%nat with 0%nat by lia. simpl.
      apply elem_of_cons in Hin as [->|Hin]; [by left|right; auto].
  - assert (x ∈ recent k q) as Hx'.
    { unfold recent in *. simpl in Hx. by replace (S (length q) - k)%nat with (S (length q - k)) in Hx by lia. }
    case_bool_decide as E; [done|]. specialize (IH Hx'). unfold recent in *. simpl.
    destruct (decide (length (removeOne y q) < k)%nat).
    + replace (length (removeOne y q) - k)%nat with 0%nat in IH by lia.
      destruct (decide (S (length (removeOne y q)) - k = 0)%nat) as [->|]; [by right|]. lia.
    + by replace (S (length (removeOne y q)) - k)%nat with (S (length (removeOne y q) - k)) by lia.
Qed.

Lemma removeOne_perm x l : x ∈ l → x :: removeOne x l ≡ₚ l.
Proof.
  induction l as [|y l IH]; [by intros ?%not_elem_of_nil|]. simpl. intros Hx.
  case_bool_decide as E; [by subst|]. rewrite perm_swap. apply perm_skip, IH.
  apply elem_of_cons in Hx as [?|?]; [congruence|done].
Qed.

Lemma adjusted_capacity d :
  MIN_CAPACITY ≤ m_capacity d ≤ MAX_CAPACITY →
  MIN_CAPACITY ≤ Z.max MIN_CAPACITY (m_capacity d * 9 / 10) ≤ MAX_CAPACITY ∧
  MIN_CAPACITY ≤ Z.min MAX_CAPACITY (m_capacity d * 6 / 5) ≤ MAX_CAPACITY.
Proof.
  unfold MIN_CAPACITY, MAX_CAPACITY. intros Hc.
  assert (m_capacity d * 9 / 10 ≤ 2 ^ 24) by (apply Z.div_le_upper_bound; lia).
  assert (2 ^ 10 ≤ m_capacity d * 6 / 5) by (apply Z.div_le_lower_bound; lia). lia.
Qed.

(** The events of the list. *)
Inductive dnl_op : Type := DnlAdd (name : Name) (nonce : Z) | DnlMark | DnlAdjust.
Definition dnl_step (H : list Z → Z → Z) (op : dnl_op) (d : DeadNonceList) : outcome DeadNonceList :=
  match op with
  | DnlAdd name nonce => dnl_add H d name nonce
  | DnlMark => Ok (dnl_mark d)
  | DnlAdjust => adjustCapacity d
  end.
Fixpoint dnl_run (H : list Z → Z → Z) (ops : list dnl_op) (d : DeadNonceList) : outcome DeadNonceList :=
  match ops with [] => Ok d | op :: ops' => d' ← dnl_step H op d; dnl_run H ops' d' end.

Lemma dnl_step_spec H op d :
  dnl_inv d →
  ∃ d', dnl_step H op d = Ok d' ∧ dnl_inv d' ∧ dnl_lifetime d' = dnl_lifetime d ∧
    (∀ k x, (k < Z.to_nat MIN_CAPACITY)%nat → x ∈ recent k (m_queue d) → x ∈ recent (S k) (m_queue d')).
Proof.
  intros [Hc Hnd].
  assert (∀ k x q n c, (k < Z.to_nat MIN_CAPACITY)%nat → MIN_CAPACITY ≤ c →
    (n ≤ length q - Z.to_nat c)%nat → x ∈ recent (S k) q → x ∈ recent (S k) (drop n q)) as Hevict.
  { intros k x q n c Hk Hcc Hn Hx. destruct (decide (n = 0)%nat) as [->|]; [done|].
    apply recent_drop; [|done]. lia. }
  destruct op as [name nonce| |]; cbn [dnl_step].
  - unfold dnl_add. case_bool_decide as Hin.
    + eexists. split; [done|]. pose proof (removeOne_perm _ _ Hin) as Hp.
      split_and!; [split; [done|]|done|].
      * cbn [m_queue set_m_queue]. rewrite <-Permutation_cons_append. by rewrite Hp.
      * intros k x Hk Hx. cbn [m_queue set_m_queue].
        destruct (decide (x = makeEntry H name nonce)) as [->|Hne].
        { apply (recent_mono 1); [lia|]. unfold recent. rewrite length_app. simpl.
          rewrite drop_app_ge by lia. replace (_ - _)%nat with 0%nat by lia. by left. }
        by apply recent_snoc, recent_removeOne.
    + set (q := m_queue d ++ [makeEntry H name nonce]).
      destruct (evictEntries_spec (set_m_queue q d)) as (n & -> & Hn); [done|].
      eexists. split; [done|]. cbn [m_queue set_m_queue m_capacity] in *. split_and!; [split; [done|]|done|].
      * apply filter_drop_NoDup. unfold q. rewrite filter_app. apply NoDup_app. split_and!; [done| |].
        -- intros x [_ Hx]%list_elem_of_filter [_ ->%list_elem_of_singleton]%list_elem_of_filter. done.
        -- apply NoDup_filter, NoDup_singleton.
      * intros k x Hk Hx. eapply Hevict; [done|apply Hc|done|]. by apply recent_snoc.
  - eexists. split; [done|]. split_and!; [split; [done|]|done|].
    + cbn [m_queue set_m_queue dnl_mark]. rewrite filter_app. simpl. by rewrite app_nil_r.
    + intros k x _ Hx. by apply recent_snoc.
  - unfold adjustCapacity. set (cap := if forallb _ _ then _ else _).
    assert (MIN_CAPACITY ≤ cap ≤ MAX_CAPACITY) as Hcap.
    { destruct (adjusted_capacity d Hc). unfold cap. by repeat case_match. }
    destruct (evictEntries_spec (mkDnl (dnl_lifetime d) (m_queue d) cap [])) as (n & -> & Hn); [done|].
    eexists. split; [done|]. cbn [m_queue set_m_queue m_capacity] in *. split_and!; [split; [done|]|done|].
    + by apply filter_drop_NoDup.
    + intros k x Hk Hx. eapply Hevict; [done|apply Hcap|done|]. by apply (recent_mono k); [lia|].
Qed.

Lemma dnl_run_spec H ops : ∀ d k x,
  dnl_inv d → x ∈ recent k (m_queue d) → (k + length ops ≤ Z.to_nat MIN_CAPACITY)%nat →
  ∃ d', dnl_run H ops d = Ok d' ∧ dnl_inv d' ∧ x ∈ m_queue d'.
Proof.
  induction ops as [|op ops IH]; intros d k x Hi Hx Hk.
  - exists d. split_and!; [done|done|]. unfold recent in Hx. apply list_elem_of_lookup in Hx as [j Hj].
    rewrite lookup_drop in Hj. by eapply list_elem_of_lookup_2.
  - destruct (dnl_step_spec H op d Hi) as (d1 & H1 & Hi1 & _ & Hr). simpl in Hk.
    destruct (IH d1 (S k) x) as (d2 & H2 & Hi2 & Hx2); [done|apply Hr; [lia|done]|lia|].
    exists d2. simpl. by rewrite H1.
Qed.

Lemma dnl_inv_init lifetime d : DeadNonceList_init lifetime = Ok d → dnl_inv d.
Proof.
  unfold DeadNonceList_init. case_bool_decide; [done|]. intros [= <-]. split; [done|].
  simpl. constructor.
Qed.

Lemma dnl_add_recent H d name nonce :
  dnl_inv d →
  ∃ d1, dnl_add H d name nonce = Ok d1 ∧ dnl_inv d1 ∧ makeEntry H name nonce ∈ recent 1 (m_queue d1).
Proof.
  intros Hi. destruct (dnl_step_spec H (DnlAdd name nonce) d Hi) as (d1 & H1 & Hi1 & _ & _).
  exists d1. split_and!; [done|done|]. cbn [dnl_step] in H1. unfold dnl_add in H1.
  assert (∀ q, makeEntry H name nonce ∈ recent 1 (q ++ [makeEntry H name nonce])) as Hlast.
  { intros q. unfold recent. rewrite length_app. simpl. rewrite Nat.add_sub, drop_app_length. by left. }
  case_bool_decide; [injection H1 as <-; apply Hlast|].
  destruct (evictEntries_spec (set_m_queue (m_queue d ++ [makeEntry H name nonce]) d)) as (n & E & Hn);
    [apply Hi|]. rewrite E in H1. injection H1 as <-. cbn [m_queue set_m_queue m_capacity] in *.
  pose proof (di_capacity _ Hi) as Hc. unfold MIN_CAPACITY in *.
  destruct (decide (n = 0)%nat) as [->|]; [apply Hlast|].
  apply recent_drop; [lia|apply Hlast].
Qed.
(** An addition within a longer run. *)
Lemma dnl_run_added H ops1 name nonce ops2 : ∀ d,
  dnl_inv d → (length ops2 < Z.to_nat MIN_CAPACITY)%nat →
  ∃ d', dnl_run H (ops1 ++ DnlAdd name nonce :: ops2) d = Ok d' ∧ dnl_inv d' ∧ dnl_has H d' name nonce = true.
Proof.
  induction ops1 as [|op ops1 IH]; intros d Hi Hl; cbn [app dnl_run].
  - destruct (dnl_add_recent H d name nonce Hi) as (d1 & H1 & Hi1 & Hx). cbn [dnl_step]. rewrite H1.
    destruct (dnl_run_spec H ops2 d1 1 _ Hi1 Hx) as (d2 & H2 & Hi2 & Hin); [lia|].
    exists d2. split_and!; [done|done|]. by apply bool_decide_true.
  - destruct (dnl_step_spec H op d Hi) as (d1 & -> & Hi1 & _). by apply IH.
Qed.

(** C29. A Nonce stays in the Dead Nonce List: right after [add] the pair is
    found by [has], and it is still found after any further sequence of at
    most 1023 insertions, marks and capacity adjustments, whatever the hash
    function; no operation fails its assertion, the capacity stays between
    2^10 and 2^24 and no hash is stored twice. *)
Theorem dnl_retains H d name nonce ops :
  dnl_inv d → Z.of_nat (length ops) < MIN_CAPACITY →
  ∃ d1 d2, dnl_add H d name nonce = Ok d1 ∧ dnl_has H d1 name nonce = true ∧ dnl_inv d1 ∧
    dnl_run H ops d1 = Ok d2 ∧ dnl_inv d2 ∧ dnl_has H d2 name nonce = true.
Proof.
  intros Hi Hops. destruct (dnl_add_recent H d name nonce Hi) as (d1 & H1 & Hi1 & Hx).
  unfold MIN_CAPACITY in Hops.
  destruct (dnl_run_spec H [] d1 1 _ Hi1 Hx) as (? & [= <-] & _ & Hin1); [simpl; unfold MIN_CAPACITY; lia|].
  destruct (dnl_run_spec H ops d1 1 _ Hi1 Hx) as (d2 & H2 & Hi2 & Hin2); [unfold MIN_CAPACITY; lia|].
  exists d1, d2. unfold dnl_has. rewrite !bool_decide_true by done. by split_and!.
Qed.
Lemma dnl_retains_witness :
  ∃ d1 d2, let H := fun (w : list Z) (n : Z) => n + 1 in
    dnl_add H (mkDnl DEFAULT_LIFETIME (replicate 5 MARK) INITIAL_CAPACITY []) [] 7 = Ok d1 ∧
    dnl_run H [DnlMark; DnlAdd [] 8] d1 = Ok d2 ∧ dnl_has H d2 [] 7 = true.
Proof.
  destruct (dnl_retains (fun w n => n + 1) (mkDnl DEFAULT_LIFETIME (replicate 5 MARK) INITIAL_CAPACITY [])
    [] 7 [DnlMark; DnlAdd [] 8]) as (d1 & d2 & H1 & _ & _ & H2 & _ & H3).
  - apply (dnl_inv_init DEFAULT_LIFETIME). reflexivity.
  - reflexivity.
  - exists d1, d2. by split_and!.
Defined.
