(* ===== verification/Cs.v ===== *)
(** * The Content Store (NFD [table/cs.cpp], [table/cs-entry.cpp],
    [table/cs-policy.cpp], [table/cs-policy-lru.cpp],
    [table/cs-policy-priority-fifo.cpp])

    The table is a [std::set] of entries in the order of [compareDataWithData],
    kept here as a sorted list.  An iterator into it is the full name of the Data,
    which identifies the entry.  [Name::compare] and [Component::compare] have the
    sign of [name_cmp] and [comp_cmp] ([Name_compare_spec],
    [Component_compare_sign]).  The replacement policy is an interface. *)

From S2P Require Import Prelude Tlv Component Name Packet PitEntry Pit.
Local Open Scope Z_scope.

(** ** Entries *)

Record CsEntry := mkCsEntry { ce_data : Data; ce_isUnsolicited : bool; ce_freshUntil : Z }.

(** The sum is computed in 64-bit nanoseconds, and wraps around for a
    FreshnessPeriod of more than about 292 years. *)
Definition updateFreshUntil (now : Z) (e : CsEntry) : CsEntry :=
  mkCsEntry (ce_data e) (ce_isUnsolicited e) (i64 (now + ms (d_freshnessPeriod (ce_data e)))).
Definition clearUnsolicited (e : CsEntry) : CsEntry :=
  mkCsEntry (ce_data e) false (ce_freshUntil e).
Definition newCsEntry (now : Z) (d : Data) (isUnsolicited : bool) : CsEntry :=
  updateFreshUntil now (mkCsEntry d isUnsolicited 0).
Definition isFresh (now : Z) (e : CsEntry) : bool := bool_decide (now ≤ ce_freshUntil e).
Definition canSatisfy (now : Z) (i : Interest) (e : CsEntry) : bool :=
  if negb (matchesData i (ce_data e)) then false
  else if i_mustBeFresh i && negb (isFresh now e) then false
  else true.

Definition digestOf (d : Data) : Component := mkComponent ImplicitSha256DigestComponent (d_digest d).
Abbreviation CsKey := Name.
Definition entryKey (e : CsEntry) : CsKey := getFullName (ce_data e).

(** [compareQueryWithData] and [compareDataWithData]. *)
Definition compareQueryWithData (queryName : Name) (d : Data) : comparison :=
  let queryIsFullName := hasDigest queryName in
  let cmp := if queryIsFullName
             then name_cmp (take (length queryName - 1) queryName) (d_name d)
             else name_cmp queryName (d_name d) in
  match cmp with
  | Eq => if queryIsFullName
          then match last queryName with Some c => comp_cmp c (digestOf d) | None => Eq end
          else Lt
  | c => c
  end.
Definition compareDataWithData (lhs rhs : Data) : comparison :=
  match name_cmp (d_name lhs) (d_name rhs) with
  | Eq => comp_cmp (digestOf lhs) (digestOf rhs)
  | c => c
  end.
(** [operator<(entry, queryName)]. *)
Definition entryBeforeQuery (q : Name) (e : CsEntry) : bool :=
  match compareQueryWithData q (ce_data e) with Gt => true | _ => false end.

(** ** The replacement policy *)

(** What the content store asks of a policy.  [pol_keys] lists the entries the
    policy tracks, [pol_scheduled] is the time at which the event a policy has
    scheduled for an entry is due, and [doScheduled] that event. *)
Class CsPolicy (Q : Type) := {
  pol_init : Q;
  pol_keys : Q → list CsKey;
  doAfterInsert : Z → CsEntry → Q → outcome Q;
  doAfterRefresh : Z → CsEntry → Q → outcome Q;
  doBeforeErase : CsKey → Q → outcome Q;
  doBeforeUse : CsKey → Q → outcome Q;
  evictOne : Q → outcome (CsKey * Q);
  pol_scheduled : Q → CsKey → option Z;
  doScheduled : CsKey → Q → outcome Q
}.

(** What a policy promises: it tracks exactly the entries it was told about,
    none of its assertions fails, it always finds a victim among them, and a
    scheduled event runs once and loses no entry. *)
Class CsPolicyLaws (Q : Type) `{CsPolicy Q} := {
  pol_inv : Q → Prop;
  pol_init_ok : pol_inv pol_init ∧ pol_keys pol_init = [];
  pol_insert_ok : ∀ now e q, pol_inv q → entryKey e ∉ pol_keys q →
    ∃ q', doAfterInsert now e q = Ok q' ∧ pol_inv q' ∧ pol_keys q' ≡ₚ entryKey e :: pol_keys q;
  pol_refresh_ok : ∀ now e q, pol_inv q → entryKey e ∈ pol_keys q →
    ∃ q', doAfterRefresh now e q = Ok q' ∧ pol_inv q' ∧ pol_keys q' ≡ₚ pol_keys q;
  pol_erase_ok : ∀ k q, pol_inv q → k ∈ pol_keys q →
    ∃ q', doBeforeErase k q = Ok q' ∧ pol_inv q' ∧ k :: pol_keys q' ≡ₚ pol_keys q;
  pol_use_ok : ∀ k q, pol_inv q → k ∈ pol_keys q →
    ∃ q', doBeforeUse k q = Ok q' ∧ pol_inv q' ∧ pol_keys q' ≡ₚ pol_keys q;
  pol_evict_ok : ∀ q, pol_inv q → pol_keys q ≠ [] →
    ∃ k q', evictOne q = Ok (k, q') ∧ pol_inv q' ∧ k :: pol_keys q' ≡ₚ pol_keys q;
  pol_scheduled_ok : ∀ k t q, pol_inv q → pol_scheduled q k = Some t →
    ∃ q', doScheduled k q = Ok q' ∧ pol_inv q' ∧ pol_keys q' ≡ₚ pol_keys q ∧ pol_scheduled q' k = None
}.

(** ** The content store *)

Record Cs (Q : Type) := mkCs {
  cs_table : list CsEntry;
  cs_policy : Q;
  cs_limit : nat;
  cs_shouldAdmit : bool;
  cs_shouldServe : bool
}.
Arguments mkCs {_} _ _ _ _ _.
Arguments cs_table {_} _.
Arguments cs_policy {_} _.
Arguments cs_limit {_} _.
Arguments cs_shouldAdmit {_} _.
Arguments cs_shouldServe {_} _.

Section cs.
Context {Q : Type} `{CsPolicy Q}.

Definition set_cs (table : list CsEntry) (q : Q) (c : Cs Q) : Cs Q :=
  mkCs table q (cs_limit c) (cs_shouldAdmit c) (cs_shouldServe c).

(** [m_table.erase(it)]. *)
Definition eraseKey (k : CsKey) (table : list CsEntry) : list CsEntry :=
  removeFirst (fun e => bool_decide (entryKey e = k)) table.

(** [evictEntries]: both policies loop while the store is over its limit; an
    iteration removes an entry. *)
Fixpoint evictEntries_loop (fuel : nat) (c : Cs Q) : outcome (Cs Q) :=
  if decide (cs_limit c < length (cs_table c))%nat then
    match fuel with
    | O => Fault Diverges
    | S fuel' =>
        '(k, q) ← evictOne (cs_policy c);
        evictEntries_loop fuel' (set_cs (eraseKey k (cs_table c)) q c)
    end
  else Ok c.
Definition cs_evictEntries (c : Cs Q) : outcome (Cs Q) :=
  evictEntries_loop (length (cs_table c)) c.

(** [m_table.emplace]. *)
Fixpoint emplace (new : CsEntry) (table : list CsEntry) : list CsEntry * bool :=
  match table with
  | [] => ([new], true)
  | x :: table' =>
      match compareDataWithData (ce_data new) (ce_data x) with
      | Lt => (new :: table, true)
      | Eq => (table, false)
      | Gt => let '(t, b) := emplace new table' in (x :: t, b)
      end
  end.

(** [Cs::insert]. *)
Definition cs_insert (now : Z) (d : Data) (isUnsolicited : bool) (c : Cs Q) : outcome (Cs Q) :=
  if negb (cs_shouldAdmit c) || bool_decide (cs_limit c = 0%nat) then Ok c
  else if bool_decide (d_cachePolicyTag d = Some CachePolicy_NO_CACHE) then Ok c
  else
    let '(table, isNewEntry) := emplace (newCsEntry now d isUnsolicited) (cs_table c) in
    let isEntry := fun e => bool_decide (entryKey e = getFullName d) in
    let table := updateFirst isEntry (updateFreshUntil now) table in
    if isNewEntry then
      q ← doAfterInsert now (newCsEntry now d isUnsolicited) (cs_policy c);
      cs_evictEntries (set_cs table q c)
    else
      let table := updateFirst isEntry
        (fun e => if ce_isUnsolicited e && negb isUnsolicited then clearUnsolicited e else e) table in
      match List.find isEntry table with
      | Some e => q ← doAfterRefresh now e (cs_policy c); Ok (set_cs table q c)
      | None => Fault UndefinedBehaviour
      end.

(** [Cs::findPrefixRange]: the entries from [lower_bound(prefix)] to
    [lower_bound(prefix.getSuccessor())]. *)
Fixpoint dropWhile {A} (p : A → bool) (l : list A) : list A :=
  match l with [] => [] | x :: l' => if p x then dropWhile p l' else l end.
Fixpoint takeWhile {A} (p : A → bool) (l : list A) : list A :=
  match l with [] => [] | x :: l' => if p x then x :: takeWhile p l' else [] end.
Definition findPrefixRange (c : Cs Q) (prefix : Name) : list CsEntry :=
  let first := dropWhile (entryBeforeQuery prefix) (cs_table c) in
  match prefix with
  | [] => first
  | _ => takeWhile (entryBeforeQuery (Name_getSuccessor prefix)) first
  end.

(** [Cs::findImpl]: the entry found, and the store after [beforeUse]. *)
Definition cs_find (now : Z) (i : Interest) (c : Cs Q) : outcome (option CsEntry * Cs Q) :=
  if negb (cs_shouldServe c) || bool_decide (cs_limit c = 0%nat) then Ok (None, c)
  else
    match List.find (canSatisfy now i) (findPrefixRange c (i_name i)) with
    | None => Ok (None, c)
    | Some e => q ← doBeforeUse (entryKey e) (cs_policy c); Ok (Some e, set_cs (cs_table c) q c)
    end.

(** [Cs::eraseImpl]. *)
Fixpoint eraseImpl_loop (keys : list CsKey) (c : Cs Q) (nErased : nat) : outcome (nat * Cs Q) :=
  match keys with
  | [] => Ok (nErased, c)
  | k :: keys' =>
      q ← doBeforeErase k (cs_policy c);
      eraseImpl_loop keys' (set_cs (eraseKey k (cs_table c)) q c) (S nErased)
  end.
Definition cs_eraseImpl (prefix : Name) (limit : nat) (c : Cs Q) : outcome (nat * Cs Q) :=
  eraseImpl_loop (take limit (map entryKey (findPrefixRange c prefix))) c 0.

(** [Policy::setLimit]. *)
Definition cs_setLimit (n : nat) (c : Cs Q) : outcome (Cs Q) :=
  cs_evictEntries (mkCs (cs_table c) (cs_policy c) n (cs_shouldAdmit c) (cs_shouldServe c)).

(** The event that the policy has scheduled for the entry [k] runs when its time
    has come; an event that was cancelled never does. *)
Definition cs_policyEvent (now : Z) (k : CsKey) (c : Cs Q) : outcome (Cs Q) :=
  match pol_scheduled (cs_policy c) k with
  | Some due =>
      if bool_decide (due ≤ now)
      then q ← doScheduled k (cs_policy c); Ok (set_cs (cs_table c) q c) else Ok c
  | None => Ok c
  end.

(** [Cs::enableAdmit] and [Cs::enableServe]. *)
Definition enableAdmit (b : bool) (c : Cs Q) : Cs Q :=
  mkCs (cs_table c) (cs_policy c) (cs_limit c) b (cs_shouldServe c).
Definition enableServe (b : bool) (c : Cs Q) : Cs Q :=
  mkCs (cs_table c) (cs_policy c) (cs_limit c) (cs_shouldAdmit c) b.

(** The constructor. *)
Definition Cs_init (nMaxPackets : nat) : Cs Q := mkCs [] pol_init nMaxPackets true true.
End cs.

(** ** LRU *)

Module Lru.
(** Least recently used first. *)
Record LruPolicy := mkLru { m_queue : list CsKey }.

Definition moveToEnd (k : CsKey) (q : list CsKey) : list CsKey :=
  removeFirst (fun x => bool_decide (x = k)) q ++ [k].
Definition insertToQueue (k : CsKey) (isNewEntry : bool) (q : LruPolicy) : outcome LruPolicy :=
  let isNew := bool_decide (k ∉ m_queue q) in
  if bool_decide (isNew = isNewEntry)
  then Ok (mkLru (if isNewEntry then m_queue q ++ [k] else moveToEnd k (m_queue q)))
  else Fault AssertFailed.
Definition lru_evictOne (q : LruPolicy) : outcome (CsKey * LruPolicy) :=
  match m_queue q with [] => Fault AssertFailed | k :: q' => Ok (k, mkLru q') end.

#[global] Instance LruCsPolicy : CsPolicy LruPolicy := {
  pol_init := mkLru [];
  pol_keys := m_queue;
  doAfterInsert := fun _ e q => insertToQueue (entryKey e) true q;
  doAfterRefresh := fun _ e q => insertToQueue (entryKey e) false q;
  doBeforeErase := fun k q => Ok (mkLru (removeFirst (fun x => bool_decide (x = k)) (m_queue q)));
  doBeforeUse := fun k q => insertToQueue k false q;
  evictOne := lru_evictOne;
  pol_scheduled := fun _ _ => None;
  doScheduled := fun _ q => Ok q
}.
End Lru.

(** ** Priority FIFO *)

Module PriorityFifo.
Inductive QueueType : Type := QUEUE_UNSOLICITED | QUEUE_STALE | QUEUE_FIFO.
#[global] Instance QueueType_eq_dec : EqDecision QueueType.
Proof. solve_decision. Defined.

Record EntryInfo := mkEntryInfo { queueType : QueueType; moveStaleEvent : option Z }.
Record PriorityFifoPolicy := mkPfp {
  m_unsolicited : list CsKey;
  m_stale : list CsKey;
  m_fifo : list CsKey;
  m_entryInfoMap : gmap CsKey EntryInfo
}.

Definition getQueue (t : QueueType) (q : PriorityFifoPolicy) : list CsKey :=
  match t with
  | QUEUE_UNSOLICITED => m_unsolicited q | QUEUE_STALE => m_stale q | QUEUE_FIFO => m_fifo q
  end.
Definition setQueue (t : QueueType) (l : list CsKey) (q : PriorityFifoPolicy) : PriorityFifoPolicy :=
  match t with
  | QUEUE_UNSOLICITED => mkPfp l (m_stale q) (m_fifo q) (m_entryInfoMap q)
  | QUEUE_STALE => mkPfp (m_unsolicited q) l (m_fifo q) (m_entryInfoMap q)
  | QUEUE_FIFO => mkPfp (m_unsolicited q) (m_stale q) l (m_entryInfoMap q)
  end.
Definition setInfoMap (m : gmap CsKey EntryInfo) (q : PriorityFifoPolicy) : PriorityFifoPolicy :=
  mkPfp (m_unsolicited q) (m_stale q) (m_fifo q) m.

Definition attachQueue (now : Z) (e : CsEntry) (q : PriorityFifoPolicy) : outcome PriorityFifoPolicy :=
  let k := entryKey e in
  match m_entryInfoMap q !! k with
  | Some _ => Fault AssertFailed
  | None =>
      let info :=
        if ce_isUnsolicited e then mkEntryInfo QUEUE_UNSOLICITED None
        else if negb (isFresh now e) then mkEntryInfo QUEUE_STALE None
        else mkEntryInfo QUEUE_FIFO (Some (now + i64 (ms (d_freshnessPeriod (ce_data e))))) in
      let q := setQueue (queueType info) (getQueue (queueType info) q ++ [k]) q in
      Ok (setInfoMap (<[k := info]> (m_entryInfoMap q)) q)
  end.
Definition detachQueue (k : CsKey) (q : PriorityFifoPolicy) : outcome PriorityFifoPolicy :=
  match m_entryInfoMap q !! k with
  | None => Fault AssertFailed
  | Some info =>
      let t := queueType info in
      let q := setQueue t (removeFirst (fun x => bool_decide (x = k)) (getQueue t q)) q in
      Ok (setInfoMap (delete k (m_entryInfoMap q)) q)
  end.
(** The event scheduled for a fresh entry. *)
Definition moveToStaleQueue (k : CsKey) (q : PriorityFifoPolicy) : outcome PriorityFifoPolicy :=
  match m_entryInfoMap q !! k with
  | Some (mkEntryInfo QUEUE_FIFO _) =>
      let q := setQueue QUEUE_FIFO (removeFirst (fun x => bool_decide (x = k)) (m_fifo q)) q in
      let q := setQueue QUEUE_STALE (m_stale q ++ [k]) q in
      Ok (setInfoMap (<[k := mkEntryInfo QUEUE_STALE None]> (m_entryInfoMap q)) q)
  | _ => Fault AssertFailed
  end.
Definition pfp_evictOne (q : PriorityFifoPolicy) : outcome (CsKey * PriorityFifoPolicy) :=
  match m_unsolicited q, m_stale q, m_fifo q with
  | k :: _, _, _ => q' ← detachQueue k q; Ok (k, q')
  | [], k :: _, _ => q' ← detachQueue k q; Ok (k, q')
  | [], [], k :: _ => q' ← detachQueue k q; Ok (k, q')
  | [], [], [] => Fault AssertFailed
  end.

#[global] Instance PriorityFifoCsPolicy : CsPolicy PriorityFifoPolicy := {
  pol_init := mkPfp [] [] [] ∅;
  pol_keys := fun q => m_unsolicited q ++ m_stale q ++ m_fifo q;
  doAfterInsert := attachQueue;
  doAfterRefresh := fun now e q => q' ← detachQueue (entryKey e) q; attachQueue now e q';
  doBeforeErase := detachQueue;
  doBeforeUse := fun k q => match m_entryInfoMap q !! k with
                            | Some _ => Ok q | None => Fault AssertFailed end;
  evictOne := pfp_evictOne;
  pol_scheduled := fun q k => m_entryInfoMap q !! k ≫= moveStaleEvent;
  doScheduled := moveToStaleQueue
}.
End PriorityFifo.

(** ** The policies keep their promise *)

Lemma removeKey_perm (k : CsKey) l :
  NoDup l → k ∈ l → k :: removeFirst (fun x => bool_decide (x = k)) l ≡ₚ l.
Proof.
  intros Hnd Hk. pose proof (removeFirst_key_perm (fun x : CsKey => x) k l) as Hp.
  rewrite !map_id in Hp. by apply Hp.
Qed.

Module LruLaws.
Import Lru.
Lemma insertToQueue_new q k :
  NoDup (m_queue q) → k ∉ m_queue q →
  ∃ q', insertToQueue k true q = Ok q' ∧ NoDup (m_queue q') ∧ m_queue q' ≡ₚ k :: m_queue q.
Proof.
  intros Hnd Hk. unfold insertToQueue. rewrite (bool_decide_true (k ∉ _)) by done.
  rewrite bool_decide_true by done. eexists. split; [done|]. cbn [m_queue].
  rewrite <-Permutation_cons_append. split; [by constructor|done].
Qed.
Lemma insertToQueue_old q k :
  NoDup (m_queue q) → k ∈ m_queue q →
  ∃ q', insertToQueue k false q = Ok q' ∧ NoDup (m_queue q') ∧ m_queue q' ≡ₚ m_queue q.
Proof.
  intros Hnd Hk. unfold insertToQueue. rewrite (bool_decide_false (k ∉ _)) by naive_solver.
  rewrite bool_decide_true by done. eexists. split; [done|]. cbn [m_queue].
  assert (moveToEnd k (m_queue q) ≡ₚ m_queue q) as Hp.
  { unfold moveToEnd. rewrite <-Permutation_cons_append. by apply removeKey_perm. }
  split; [by rewrite Hp|done].
Qed.

#[global] Instance LruLaws : CsPolicyLaws LruPolicy.
Proof.
  refine {| pol_inv := fun q => NoDup (m_queue q) |}.
  - split; [constructor|done].
  - intros now e q. apply insertToQueue_new.
  - intros now e q. apply insertToQueue_old.
  - intros k q Hnd Hk. eexists. split; [done|]. cbn [m_queue pol_keys LruCsPolicy].
    pose proof (removeKey_perm k (m_queue q) Hnd Hk) as Hp. split; [|done].
    rewrite <-Hp in Hnd. by apply NoDup_cons in Hnd as [_ ?].
  - intros k q. apply insertToQueue_old.
  - intros [q] Hnd Hne. simpl in *. destruct q as [|k q]; [done|].
    exists k, (mkLru q). split; [done|]. by apply NoDup_cons in Hnd as [_ ?].
  - by intros k t q _ [=].
Defined.
End LruLaws.

Module PriorityFifoLaws.
Import PriorityFifo.
Definition keys (q : PriorityFifoPolicy) : list CsKey := m_unsolicited q ++ m_stale q ++ m_fifo q.
Record pfp_inv (q : PriorityFifoPolicy) : Prop := {
  pv_nodup : NoDup (keys q);
  pv_info : ∀ k t, k ∈ getQueue t q ↔ ∃ info, m_entryInfoMap q !! k = Some info ∧ queueType info = t;
  pv_event : ∀ k info, m_entryInfoMap q !! k = Some info →
    is_Some (moveStaleEvent info) ↔ queueType info = QUEUE_FIFO
}.

Lemma elem_of_keys q k : k ∈ keys q ↔ ∃ t, k ∈ getQueue t q.
Proof.
  unfold keys. rewrite !elem_of_app. split.
  - intros [?|[?|?]]; [by exists QUEUE_UNSOLICITED|by exists QUEUE_STALE|by exists QUEUE_FIFO].
  - intros [[] ?]; auto.
Qed.
Lemma keys_split t q : ∃ l, keys q ≡ₚ getQueue t q ++ l ∧
  ∀ l' m, keys (setInfoMap m (setQueue t l' q)) ≡ₚ l' ++ l.
Proof.
  destruct t; simpl.
  - by exists (m_stale q ++ m_fifo q).
  - exists (m_unsolicited q ++ m_fifo q). unfold keys, setInfoMap; simpl. split.
    + by rewrite !app_assoc, (Permutation_app_comm (m_unsolicited q)).
    + intros l' _. by rewrite !app_assoc, (Permutation_app_comm (m_unsolicited q)).
  - exists (m_unsolicited q ++ m_stale q). unfold keys, setInfoMap; simpl. split.
    + by rewrite app_assoc, (Permutation_app_comm _ (m_fifo q)).
    + intros l' _. by rewrite app_assoc, (Permutation_app_comm _ l').
Qed.
Lemma getQueue_set t t' l m q :
  getQueue t (setInfoMap m (setQueue t' l q)) = if decide (t = t') then l else getQueue t q.
Proof. by destruct t, t'. Qed.
Lemma infoMap_set t l m q : m_entryInfoMap (setInfoMap m (setQueue t l q)) = m.
Proof. by destruct t. Qed.
Lemma infoMap_setQueue t l q : m_entryInfoMap (setQueue t l q) = m_entryInfoMap q.
Proof. by destruct t. Qed.

Lemma attachQueue_ok now e q :
  pfp_inv q → entryKey e ∉ keys q →
  ∃ q', attachQueue now e q = Ok q' ∧ pfp_inv q' ∧ keys q' ≡ₚ entryKey e :: keys q.
Proof.
  intros [Hnd Hinfo Hev] Hk. unfold attachQueue.
  destruct (m_entryInfoMap q !! entryKey e) as [info0|] eqn:E0.
  { destruct Hk. apply elem_of_keys. exists (queueType info0). apply Hinfo. eauto. }
  set (info := if ce_isUnsolicited e then _ else _).
  assert (is_Some (moveStaleEvent info) ↔ queueType info = QUEUE_FIFO) as Hnew.
  { unfold info. destruct (ce_isUnsolicited e); [|destruct (negb _)]; simpl;
      (split; [by intros []|done]) || (split; [done|eauto]). }
  clearbody info. set (t := queueType info).
  destruct (keys_split t q) as (l & Hl & Hset).
  eexists. split; [done|]. rewrite infoMap_setQueue.
  assert (keys (setInfoMap (<[entryKey e:=info]> (m_entryInfoMap q))
    (setQueue t (getQueue t q ++ [entryKey e]) q)) ≡ₚ entryKey e :: keys q) as Hkeys.
  { rewrite Hset, Hl, <-Permutation_cons_append. done. }
  split; [|done]. split; [rewrite Hkeys; by constructor| |].
  2:{ intros k x. rewrite infoMap_set, lookup_insert. case_decide; [by intros [= <-]|apply Hev]. }
  intros k t'. rewrite getQueue_set, infoMap_set, lookup_insert.
  destruct (decide (t' = t)) as [->|Ht].
  - rewrite elem_of_app, list_elem_of_singleton, Hinfo. destruct (decide (entryKey e = k)) as [<-|Hne].
    + rewrite E0. split; [|by right]. intros _. by exists info.
    + naive_solver.
  - rewrite Hinfo. destruct (decide (entryKey e = k)) as [<-|Hne]; [|done].
    rewrite E0. split; [naive_solver|]. intros (i & [= <-] & ?). by destruct Ht.
Qed.

Lemma detachQueue_ok k q :
  pfp_inv q → k ∈ keys q →
  ∃ q', detachQueue k q = Ok q' ∧ pfp_inv q' ∧ k :: keys q' ≡ₚ keys q.
Proof.
  intros [Hnd Hinfo Hev] Hk. apply elem_of_keys in Hk as [t Hkt]. unfold detachQueue.
  pose proof (proj1 (Hinfo k t) Hkt) as (info & E & Ht). rewrite E, Ht.
  destruct (keys_split t q) as (l & Hl & Hset).
  assert (NoDup (getQueue t q)) as Hndt by (rewrite Hl in Hnd; by apply NoDup_app in Hnd as [? _]).
  pose proof (removeKey_perm k _ Hndt Hkt) as Hp.
  eexists. split; [done|]. rewrite infoMap_setQueue.
  set (q' := setInfoMap _ _).
  assert (k :: keys q' ≡ₚ keys q) as Hkeys.
  { unfold q'. rewrite Hset, Hl. by rewrite <-Hp at 2. }
  assert (k ∉ removeFirst (λ x : CsKey, bool_decide (x = k)) (getQueue t q)) as Hnin.
  { rewrite <-Hp in Hndt. by apply NoDup_cons in Hndt as [? _]. }
  split; [|done]. rewrite <-Hkeys in Hnd. apply NoDup_cons in Hnd as [Hnk Hnd]. split; [done| |].
  2:{ intros k' x. unfold q'. rewrite infoMap_set, lookup_delete. case_decide; [done|apply Hev]. }
  intros k' t'. unfold q'. rewrite getQueue_set, infoMap_set, lookup_delete.
  destruct (decide (t' = t)) as [->|Ht'].
  - destruct (decide (k = k')) as [<-|Hne].
    + split; [done|]. by intros (? & ? & _).
    + rewrite <-Hinfo. assert (k' ∈ getQueue t q ↔ k' ∈ k :: removeFirst (λ x : CsKey, bool_decide (x = k))
        (getQueue t q)) as -> by by rewrite Hp.
      rewrite elem_of_cons. naive_solver.
  - rewrite Hinfo. destruct (decide (k = k')) as [<-|Hne]; [|done].
    split; [|by intros (? & ? & _)]. intros (i & Ei & Eti). congruence.
Qed.

(** The event of a fresh entry finds it in the FIFO queue and moves it to the end
    of the stale queue. *)
Lemma moveToStaleQueue_ok k due q :
  pfp_inv q → m_entryInfoMap q !! k ≫= moveStaleEvent = Some due →
  ∃ q', moveToStaleQueue k q = Ok q' ∧ pfp_inv q' ∧ keys q' ≡ₚ keys q ∧ m_stale q' = m_stale q ++ [k] ∧
    m_entryInfoMap q' !! k = Some (mkEntryInfo QUEUE_STALE None).
Proof.
  intros [Hnd Hinfo Hev] Hs. unfold moveToStaleQueue.
  destruct (m_entryInfoMap q !! k) as [[t ev]|] eqn:E; [|done]. simpl in Hs. subst ev.
  assert (t = QUEUE_FIFO) as -> by (apply (Hev k _ E); eauto).
  assert (k ∈ m_fifo q) as Hk by (apply (Hinfo k QUEUE_FIFO); eauto).
  eexists. split; [done|]. cbn. rewrite lookup_insert_eq.
  assert (NoDup (m_fifo q)) as Hndf by (unfold keys in Hnd; apply NoDup_app in Hnd as (_ & _ & (_ & _ & ?)%NoDup_app); done).
  pose proof (removeKey_perm k _ Hndf Hk) as Hp. set (fifo := removeFirst _ _) in *.
  assert (m_unsolicited q ++ (m_stale q ++ [k]) ++ fifo ≡ₚ keys q) as Hkeys.
  { unfold keys. rewrite <-Hp. by rewrite <-app_assoc. }
  split_and!; [|done|done|done]. split; [unfold keys at 1; cbn; by rewrite Hkeys| |].
  - intros k' t'. cbn. rewrite lookup_insert. pose proof (Hinfo k' t') as Hk'.
    pose proof (proj1 (Hinfo k' QUEUE_UNSOLICITED)) as Hu. pose proof (proj1 (Hinfo k' QUEUE_STALE)) as Hst.
    rewrite <-Hp in Hndf. apply NoDup_cons in Hndf as [Hnk _].
    assert (k' ∈ m_fifo q ↔ k' ∈ k :: fifo) as Hfifo by by rewrite Hp.
    rewrite elem_of_cons in Hfifo. cbn in Hu, Hst. case_decide as Ek.
    + subst k'. rewrite E in Hu, Hst. destruct t'; cbn; rewrite ?elem_of_app, ?list_elem_of_singleton; naive_solver.
    + destruct t'; cbn in Hk' |- *; rewrite ?elem_of_app, ?list_elem_of_singleton; naive_solver.
  - intros k' x. cbn. rewrite lookup_insert. case_decide; [|apply Hev]. intros [= <-]. cbn. split; [by intros []|done].
Qed.

#[global] Instance PriorityFifoLaws : CsPolicyLaws PriorityFifoPolicy.
Proof.
  refine {| pol_inv := pfp_inv |}.
  - split; [|done]. split; [constructor| |by intros ? ? [=]]. intros k t. destruct t; simpl;
      (split; [by intros ?%not_elem_of_nil|by intros (? & ? & _)]).
  - intros now e q. apply attachQueue_ok.
  - intros now e q Hi Hk. destruct (detachQueue_ok (entryKey e) q Hi Hk) as (q1 & H1 & Hi1 & Hp1).
    destruct (attachQueue_ok now e q1 Hi1) as (q2 & H2 & Hi2 & Hp2).
    { pose proof (pv_nodup _ Hi) as Hnd. rewrite <-Hp1 in Hnd. by apply NoDup_cons in Hnd as [? _]. }
    exists q2. cbn [doAfterRefresh PriorityFifoCsPolicy]. rewrite H1. simpl. split_and!; [done|done|].
    etransitivity; [exact Hp2|exact Hp1].
  - intros k q. apply detachQueue_ok.
  - intros k q Hi Hk. exists q. cbn [doBeforeUse PriorityFifoCsPolicy].
    apply elem_of_keys in Hk as [t (info & -> & _)%(pv_info _ Hi)]. done.
  - intros q Hi Hne. cbn [evictOne PriorityFifoCsPolicy]. unfold pfp_evictOne.
    assert (∀ k, k ∈ keys q → ∃ k' q', (q' ← detachQueue k q; Ok (k, q')) = Ok (k', q') ∧ pfp_inv q' ∧
      k' :: keys q' ≡ₚ keys q) as Hev.
    { intros k Hk. destruct (detachQueue_ok k q Hi Hk) as (q' & -> & Hi' & Hp). by exists k, q'. }
    destruct (m_unsolicited q) as [|k ?] eqn:E1; [|apply Hev; unfold keys; rewrite E1; by left].
    destruct (m_stale q) as [|k ?] eqn:E2; [|apply Hev; unfold keys; rewrite E1, E2; by left].
    destruct (m_fifo q) as [|k ?] eqn:E3; [|apply Hev; unfold keys; rewrite E1, E2, E3; by left].
    destruct Hne. cbn [pol_keys PriorityFifoCsPolicy]. by rewrite E1, E2, E3.
  - intros k due q Hi Hs. destruct (moveToStaleQueue_ok k due q Hi Hs) as (q' & H & Hi' & Hp & _ & Hk).
    exists q'. cbn [doScheduled pol_keys pol_scheduled PriorityFifoCsPolicy]. by rewrite Hk.
Defined.
End PriorityFifoLaws.

(** ** The order of the table *)

Definition data_lt (a b : Data) : Prop := compareDataWithData a b = Lt.

Lemma getFullName_inj a b :
  getFullName a = getFullName b ↔ d_name a = d_name b ∧ digestOf a = digestOf b.
Proof.
  unfold getFullName. split.
  - intros [? [= E]]%app_inj_2; [|done]. split; [done|]. unfold digestOf. by rewrite E.
  - intros [-> [= ->]]. done.
Qed.
Lemma compareData_eq a b : compareDataWithData a b = Eq ↔ getFullName a = getFullName b.
Proof.
  rewrite getFullName_inj. unfold compareDataWithData.
  destruct (name_cmp (d_name a) (d_name b)) eqn:E.
  - apply name_cmp_eq in E. rewrite comp_cmp_eq. tauto.
  - split; [done|]. intros [En _]. rewrite (proj2 (name_cmp_eq _ _) En) in E. done.
  - split; [done|]. intros [En _]. rewrite (proj2 (name_cmp_eq _ _) En) in E. done.
Qed.
Lemma compareData_antisym a b : compareDataWithData b a = CompOpp (compareDataWithData a b).
Proof.
  unfold compareDataWithData. rewrite (name_cmp_antisym (d_name a)).
  destruct (name_cmp (d_name a) (d_name b)); simpl; [apply comp_cmp_antisym|done..].
Qed.
#[export] Instance data_lt_trans : Transitive data_lt.
Proof.
  intros a b c. unfold data_lt, compareDataWithData.
  destruct (name_cmp (d_name a) (d_name b)) eqn:E1; [|intros _|done].
  - apply name_cmp_eq in E1 as ->. destruct (name_cmp (d_name b) (d_name c)); [apply comp_cmp_trans|done..].
  - destruct (name_cmp (d_name b) (d_name c)) eqn:E2; [|intros _|done].
    + apply name_cmp_eq in E2 as <-. by rewrite E1.
    + by rewrite (name_cmp_trans _ _ _ E1 E2).
Qed.

Definition csSorted (table : list CsEntry) : Prop := StronglySorted data_lt (map ce_data table).

Lemma csSorted_NoDup table : csSorted table → NoDup (map entryKey table).
Proof.
  unfold csSorted. induction table as [|e table IH]; simpl; [constructor|].
  intros [Hs Hf]%StronglySorted_inv. constructor; [|auto].
  intros (e' & Ek & He')%list_elem_of_fmap. rewrite Forall_forall in Hf.
  specialize (Hf (ce_data e')). unfold data_lt in Hf.
  rewrite (proj2 (compareData_eq (ce_data e) (ce_data e'))) in Hf by done.
  discriminate Hf. apply list_elem_of_fmap. eauto.
Qed.

Lemma StronglySorted_sublist' {A} (R : relation A) l1 l2 :
  l1 `sublist_of` l2 → StronglySorted R l2 → StronglySorted R l1.
Proof.
  induction 1 as [|x l1 l2 Hsub IH|x l1 l2 Hsub IH]; [done|..]; intros [Hs Hf]%StronglySorted_inv; [|auto].
  constructor; [auto|]. rewrite Forall_forall in Hf |- *. intros y Hy. apply Hf.
  by eapply elem_of_sublist.
Qed.
Lemma csSorted_removeFirst p table : csSorted table → csSorted (removeFirst p table).
Proof. apply StronglySorted_sublist'. apply (fmap_sublist ce_data), removeFirst_sublist. Qed.

Lemma map_data_updateFirst p f table :
  (∀ e, ce_data (f e) = ce_data e) → map ce_data (updateFirst p f table) = map ce_data table.
Proof. apply (map_updateFirst ce_data). Qed.
Lemma map_key_updateFirst p f table :
  (∀ e, ce_data (f e) = ce_data e) → map entryKey (updateFirst p f table) = map entryKey table.
Proof. intros Hf. apply map_updateFirst. intros e. unfold entryKey. by rewrite Hf. Qed.

Lemma emplace_spec new table :
  csSorted table →
  let '(t, b) := emplace new table in
  csSorted t ∧
  (if b : bool then t ≡ₚ new :: table ∧ entryKey new ∉ map entryKey table
   else t = table ∧ entryKey new ∈ map entryKey table).
Proof.
  unfold csSorted. induction table as [|x table IH]; simpl.
  - intros _. split; [repeat constructor|]. split; [done|apply not_elem_of_nil].
  - intros [Hs Hf]%StronglySorted_inv.
    destruct (compareDataWithData (ce_data new) (ce_data x)) eqn:E.
    + apply compareData_eq in E. split; [by constructor|]. split; [done|]. apply elem_of_cons. left. exact E.
    + assert (Forall (data_lt (ce_data new)) (ce_data x :: map ce_data table)) as Hall.
      { constructor; [done|]. eapply Forall_impl; [exact Hf|]. intros y Hy. simpl. by etransitivity. }
      split; [constructor; [by constructor|done]|]. split; [done|].
      intros (y & Ey & Hy)%(list_elem_of_fmap entryKey (x :: table)).
      rewrite Forall_forall in Hall. specialize (Hall (ce_data y)). unfold data_lt in Hall.
      rewrite (proj2 (compareData_eq (ce_data new) (ce_data y)) Ey) in Hall.
      discriminate Hall. change (ce_data y ∈ map ce_data (x :: table)). apply list_elem_of_fmap. eauto.
    + specialize (IH Hs). destruct (emplace new table) as [t b]. destruct IH as [Hst Hb].
      assert (ce_data x ≠ ce_data new ∧ entryKey new ≠ entryKey x) as [Hne Hnk].
      { split; [intros Heq|intros Heq; unfold entryKey in Heq];
          [rewrite Heq in E|]; [|by rewrite (proj2 (compareData_eq _ _) Heq) in E].
        by rewrite (proj2 (compareData_eq _ _) eq_refl) in E. }
      split.
      * simpl. constructor; [done|]. destruct b; [|by destruct Hb as [-> _]].
        destruct Hb as [Hp _]. rewrite Hp. simpl. constructor; [|done].
        unfold data_lt. rewrite compareData_antisym, E. done.
      * destruct b.
        -- destruct Hb as [Hp Hn]. split; [by rewrite Hp, perm_swap|]. by apply not_elem_of_cons.
        -- destruct Hb as [-> Hin]. split; [done|]. by right.
Qed.

(** ** The invariant of the store, for every policy that keeps the laws *)

Section cs_inv.
Context {Q : Type} `{!CsPolicy Q} `{!CsPolicyLaws Q}.

(** Sorted, with exactly the entries the policy tracks. *)
Record cs_wf (c : Cs Q) : Prop := {
  cw_sorted : csSorted (cs_table c);
  cw_policy : pol_inv (cs_policy c);
  cw_tracked : pol_keys (cs_policy c) ≡ₚ map entryKey (cs_table c)
}.
Record cs_inv (c : Cs Q) : Prop := {
  ci_wf : cs_wf c;
  ci_limit : (length (cs_table c) ≤ cs_limit c)%nat
}.

Lemma eraseKey_perm k table :
  csSorted table → k ∈ map entryKey table →
  k :: map entryKey (eraseKey k table) ≡ₚ map entryKey table ∧
  S (length (eraseKey k table)) = length table ∧
  (∀ e, e ∈ eraseKey k table ↔ e ∈ table ∧ entryKey e ≠ k).
Proof.
  intros Hs Hk. pose proof (csSorted_NoDup _ Hs) as Hnd. unfold eraseKey.
  pose proof (removeFirst_key_perm entryKey k table Hnd Hk) as Hp. split_and!; [done| |].
  - apply Permutation_length in Hp. simpl in Hp. by rewrite !length_map in Hp.
  - intros e. by apply (elem_of_removeFirst entryKey).
Qed.

Lemma cs_wf_eraseKey k q c :
  cs_wf c → k ∈ map entryKey (cs_table c) → pol_inv q → k :: pol_keys q ≡ₚ pol_keys (cs_policy c) →
  cs_wf (set_cs (eraseKey k (cs_table c)) q c).
Proof.
  intros [Hs Hp Ht] Hk Hq Hkeys. destruct (eraseKey_perm k _ Hs Hk) as [Hperm _].
  split; [by apply csSorted_removeFirst|done|]. cbn [cs_table cs_policy set_cs].
  apply (Permutation_cons_inv (a := k)). by rewrite Hkeys, Hperm.
Qed.

Lemma evict_loop_ok fuel : ∀ c,
  cs_wf c → (length (cs_table c) ≤ fuel + cs_limit c)%nat →
  ∃ c', evictEntries_loop fuel c = Ok c' ∧ cs_inv c' ∧ cs_limit c' = cs_limit c ∧
    cs_shouldAdmit c' = cs_shouldAdmit c ∧ cs_shouldServe c' = cs_shouldServe c ∧
    (∀ e, e ∈ cs_table c' → e ∈ cs_table c) ∧
    ((length (cs_table c) ≤ cs_limit c)%nat → c' = c).
Proof.
  induction fuel as [|fuel IH]; intros c Hw Hl; simpl; case_decide as Hd.
  - lia.
  - exists c. split_and!; try done; (split; [done|lia]).
  - destruct (pol_evict_ok (cs_policy c)) as (k & q & -> & Hq & Hk); [apply Hw| |].
    { intros E. pose proof (cw_tracked _ Hw) as Ht. rewrite E in Ht.
      apply Permutation_length in Ht. rewrite length_map in Ht. simpl in Ht. lia. }
    assert (k ∈ map entryKey (cs_table c)) as Hin by (rewrite <-(cw_tracked _ Hw), <-Hk; by left).
    destruct (eraseKey_perm k _ (cw_sorted _ Hw) Hin) as (_ & Hlen & Hel).
    simpl. destruct (IH (set_cs (eraseKey k (cs_table c)) q c)) as (c' & -> & Hi & H1 & H2 & H3 & H4 & _).
    { by apply cs_wf_eraseKey. }
    { cbn [cs_table set_cs cs_limit]. lia. }
    exists c'. split_and!; try done; [|lia]. intros e He. by apply H4, Hel in He as [? _].
  - exists c. split_and!; try done; (split; [done|lia]).
Qed.
Lemma cs_evictEntries_ok c :
  cs_wf c →
  ∃ c', cs_evictEntries c = Ok c' ∧ cs_inv c' ∧ cs_limit c' = cs_limit c ∧
    cs_shouldAdmit c' = cs_shouldAdmit c ∧ cs_shouldServe c' = cs_shouldServe c ∧
    (∀ e, e ∈ cs_table c' → e ∈ cs_table c) ∧
    ((length (cs_table c) ≤ cs_limit c)%nat → c' = c).
Proof. intros Hw. apply evict_loop_ok; [done|lia]. Qed.

Lemma cs_insert_ok now d uns c :
  cs_inv c →
  ∃ c', cs_insert now d uns c = Ok c' ∧ cs_inv c' ∧ cs_limit c' = cs_limit c ∧
    (∀ e, e ∈ cs_table c' → ∃ e0, (e0 ∈ cs_table c ∨ e0 = newCsEntry now d uns) ∧ ce_data e0 = ce_data e).
Proof.
  intros [Hw Hl]. unfold cs_insert.
  assert (∃ c', Ok c = Ok c' ∧ cs_inv c' ∧ cs_limit c' = cs_limit c ∧
    (∀ e, e ∈ cs_table c' → ∃ e0, (e0 ∈ cs_table c ∨ e0 = newCsEntry now d uns) ∧ ce_data e0 = ce_data e))
    as Hsame.
  { exists c. split_and!; [done|done|done|]. intros e He. exists e. auto. }
  destruct (negb (cs_shouldAdmit c) || _); [done|]. case_bool_decide; [done|]. clear Hsame.
  pose proof (emplace_spec (newCsEntry now d uns) (cs_table c) (cw_sorted _ Hw)) as Hem.
  destruct (emplace _ _) as [t b]. destruct Hem as [Hst Hb].
  set (isEntry := fun e => bool_decide (entryKey e = getFullName d)).
  assert (∀ f table e, (∀ e, ce_data (f e) = ce_data e) → e ∈ updateFirst isEntry f table →
    ∃ e0, e0 ∈ table ∧ ce_data e0 = ce_data e) as Hupd.
  { intros f table e Hf He. assert (ce_data e ∈ map ce_data table) as (e0 & E & He0)%list_elem_of_fmap; [|eauto].
    rewrite <-(map_data_updateFirst isEntry f) by done. apply list_elem_of_fmap. eauto. }
  destruct b.
  - destruct Hb as [Hp Hnew].
    destruct (pol_insert_ok now (newCsEntry now d uns) (cs_policy c)) as (q & -> & Hq & Hkeys);
      [apply Hw|by rewrite (cw_tracked _ Hw)|]. unfold mbind, outcome_bind.
    destruct (cs_evictEntries_ok (set_cs (updateFirst isEntry (updateFreshUntil now) t) q c))
      as (c' & -> & Hi & Hlim & _ & _ & Hsub & _).
    { split; cbn [cs_table cs_policy set_cs].
      - unfold csSorted. by rewrite map_data_updateFirst.
      - done.
      - rewrite map_key_updateFirst by done. rewrite Hkeys, Hp, (cw_tracked _ Hw). done. }
    exists c'. split_and!; [done|done|done|]. intros e He.
    apply Hsub, Hupd in He as (e0 & He0 & ?); [|done]. exists e0. split; [|done].
    rewrite Hp in He0. apply elem_of_cons in He0. tauto.
  - destruct Hb as [-> Hin]. set (f1 := updateFreshUntil now).
    set (f2 := fun e => if ce_isUnsolicited e && negb uns then clearUnsolicited e else e).
    assert (∀ e, ce_data (f1 e) = ce_data e) as Hf1 by done.
    assert (∀ e, ce_data (f2 e) = ce_data e) as Hf2 by (intros e; unfold f2; by destruct (_ && _)).
    set (t2 := updateFirst isEntry f2 (updateFirst isEntry f1 (cs_table c))).
    assert (map ce_data t2 = map ce_data (cs_table c)) as Hd2.
    { unfold t2. by rewrite !map_data_updateFirst. }
    assert (map entryKey t2 = map entryKey (cs_table c)) as Hk2.
    { unfold t2. by rewrite !map_key_updateFirst. }
    destruct (List.find isEntry t2) as [e|] eqn:Hf.
    2:{ apply (find_key_None entryKey) in Hf. rewrite Hk2 in Hf. done. }
    apply (find_key_Some entryKey) in Hf as [He Hek].
    destruct (pol_refresh_ok now e (cs_policy c)) as (q & -> & Hq & Hkeys); [apply Hw| |].
    { rewrite (cw_tracked _ Hw), <-Hk2. apply list_elem_of_fmap. eauto. }
    eexists. split; [done|]. split_and!; [split; [split|]|done|]; cbn [cs_table cs_policy set_cs cs_limit].
    + unfold csSorted. rewrite Hd2. apply Hw.
    + done.
    + by rewrite Hkeys, Hk2, (cw_tracked _ Hw).
    + by rewrite <-(length_map ce_data), Hd2, length_map.
    + intros x Hx. assert (ce_data x ∈ map ce_data (cs_table c)) as (e0 & E & He0)%list_elem_of_fmap.
      { rewrite <-Hd2. apply list_elem_of_fmap. eauto. }
      exists e0. auto.
Qed.

Lemma range_sub (c : Cs Q) prefix e : e ∈ findPrefixRange c prefix → e ∈ cs_table c.
Proof.
  assert (∀ p l, e ∈ dropWhile p l → e ∈ l) as Hd.
  { intros p l. induction l as [|x l IH]; simpl; [done|]. destruct (p x); [|done]. intros. right. auto. }
  assert (∀ p l, e ∈ takeWhile p l → e ∈ l) as Ht.
  { intros p l. induction l as [|x l IH]; simpl; [done|]. destruct (p x); [|by intros ?%not_elem_of_nil].
    rewrite !elem_of_cons. naive_solver. }
  unfold findPrefixRange. destruct prefix; [apply Hd|]. intros ?%Ht. by eapply Hd.
Qed.

Lemma cs_find_ok now i c :
  cs_inv c →
  ∃ o c', cs_find now i c = Ok (o, c') ∧ cs_inv c' ∧ cs_table c' = cs_table c ∧ cs_limit c' = cs_limit c.
Proof.
  intros [Hw Hl]. unfold cs_find. destruct (negb _ || _); [by exists None, c|].
  destruct (List.find _ _) as [e|] eqn:Hf; [|by exists None, c].
  apply find_some in Hf as [Hin _]. apply list_elem_of_In, range_sub in Hin.
  destruct (pol_use_ok (entryKey e) (cs_policy c)) as (q & -> & Hq & Hk); [apply Hw| |].
  { rewrite (cw_tracked _ Hw). apply list_elem_of_fmap. eauto. }
  exists (Some e), (set_cs (cs_table c) q c). split_and!; [done| |done|done].
  split; [split|done]; cbn [cs_table cs_policy set_cs]; [apply Hw|done|by rewrite Hk, (cw_tracked _ Hw)].
Qed.

Lemma eraseImpl_loop_ok keys : ∀ c n,
  cs_inv c → NoDup keys → (∀ k, k ∈ keys → k ∈ map entryKey (cs_table c)) →
  ∃ c', eraseImpl_loop keys c n = Ok ((n + length keys)%nat, c') ∧ cs_inv c' ∧ cs_limit c' = cs_limit c ∧
    (∀ e, e ∈ cs_table c' ↔ e ∈ cs_table c ∧ entryKey e ∉ keys).
Proof.
  induction keys as [|k keys IH]; intros c n [Hw Hl] Hnd Hk; simpl.
  - exists c. rewrite Nat.add_0_r. split_and!; [done|done|done|]. intros e.
    split; [|tauto]. intros. split; [done|apply not_elem_of_nil].
  - apply NoDup_cons in Hnd as [Hnk Hnd]. assert (k ∈ map entryKey (cs_table c)) as Hin by (apply Hk; by left).
    destruct (pol_erase_ok k (cs_policy c)) as (q & -> & Hq & Hkeys);
      [apply Hw|by rewrite (cw_tracked _ Hw)|]. simpl.
    destruct (eraseKey_perm k _ (cw_sorted _ Hw) Hin) as (Hp & Hlen & Hel).
    destruct (IH (set_cs (eraseKey k (cs_table c)) q c) (S n)) as (c' & -> & Hi & Hlim & Hel').
    + split; [by apply cs_wf_eraseKey|]. cbn [cs_table set_cs cs_limit]. lia.
    + done.
    + intros k' Hk'. assert (k' ∈ map entryKey (cs_table c)) as Hk2 by (apply Hk; by right).
      rewrite <-Hp in Hk2. apply elem_of_cons in Hk2 as [->|?]; [done|]. done.
    + exists c'. rewrite Nat.add_succ_r. split_and!; [done|done|done|].
      intros e. rewrite Hel', not_elem_of_cons. cbn [cs_table set_cs]. rewrite Hel. tauto.
Qed.
End cs_inv.

(** ** Lookups *)

Lemma name_le_lt_trans a b q :
  name_cmp a b ≠ Gt → name_cmp q b = Gt → name_cmp q a = Gt.
Proof.
  intros Hab Hqb. rewrite (name_cmp_antisym b q) in Hqb.
  destruct (name_cmp b q) eqn:E; simpl in Hqb; try done.
  rewrite (name_cmp_antisym a q). destruct (name_cmp a b) eqn:E1; [|clear Hab|done].
  - apply name_cmp_eq in E1 as ->. by rewrite E.
  - by rewrite (name_cmp_trans _ _ _ E1 E).
Qed.

(** The entries before a query form an initial part of the table. *)
Lemma entryBeforeQuery_mono q a b :
  data_lt (ce_data a) (ce_data b) → entryBeforeQuery q b = true → entryBeforeQuery q a = true.
Proof.
  unfold entryBeforeQuery, data_lt, compareDataWithData, compareQueryWithData.
  set (q0 := if hasDigest q then take (length q - 1) q else q).
  assert ((if hasDigest q then name_cmp (take (length q - 1) q) (d_name (ce_data a))
           else name_cmp q (d_name (ce_data a))) = name_cmp q0 (d_name (ce_data a))) as ->
    by (unfold q0; by destruct (hasDigest q)).
  assert ((if hasDigest q then name_cmp (take (length q - 1) q) (d_name (ce_data b))
           else name_cmp q (d_name (ce_data b))) = name_cmp q0 (d_name (ce_data b))) as ->
    by (unfold q0; by destruct (hasDigest q)).
  intros Hab. assert (name_cmp (d_name (ce_data a)) (d_name (ce_data b)) ≠ Gt) as Hle
    by (by destruct (name_cmp (d_name (ce_data a)) _)).
  destruct (name_cmp q0 (d_name (ce_data b))) eqn:Eq1; [|done|].
  - destruct (hasDigest q); [|done]. destruct (last q) as [c|]; [|done].
    destruct (comp_cmp c (digestOf (ce_data b))) eqn:Ec; try done. intros _.
    apply name_cmp_eq in Eq1. rewrite Eq1, (name_cmp_antisym (d_name (ce_data a))).
    destruct (name_cmp (d_name (ce_data a)) (d_name (ce_data b))) eqn:En; simpl; try done.
    rewrite (comp_cmp_antisym (digestOf (ce_data b)) c) in Ec. rewrite (comp_cmp_antisym (digestOf (ce_data a)) c).
    destruct (comp_cmp (digestOf (ce_data b)) c) eqn:Eb; simpl in Ec; try done.
    by rewrite (comp_cmp_trans _ _ _ Hab Eb).
  - intros _. by rewrite (name_le_lt_trans _ _ _ Hle Eq1).
Qed.

Lemma dropWhile_mono (p : CsEntry → bool) table e :
  csSorted table →
  (∀ a b, data_lt (ce_data a) (ce_data b) → p b = true → p a = true) →
  e ∈ dropWhile p table ↔ e ∈ table ∧ p e = false.
Proof.
  unfold csSorted. intros Hs Hp. induction table as [|x table IH]; simpl.
  - split; [by intros ?%not_elem_of_nil|]. by intros [?%not_elem_of_nil _].
  - simpl in Hs. apply StronglySorted_inv in Hs as [Hs Hf]. destruct (p x) eqn:E.
    + rewrite IH, elem_of_cons by done. split; [naive_solver|]. intros [[->|?] ?]; [congruence|done].
    + split; [|tauto]. intros Hin. split; [done|]. apply elem_of_cons in Hin as [->|Hin]; [done|].
      destruct (p e) eqn:Ee; [|done]. rewrite (Hp x e) in E; [done| |done].
      rewrite Forall_forall in Hf. apply Hf, list_elem_of_fmap. eauto.
Qed.
Lemma takeWhile_mono (p : CsEntry → bool) table e :
  csSorted table →
  (∀ a b, data_lt (ce_data a) (ce_data b) → p b = true → p a = true) →
  e ∈ takeWhile p table ↔ e ∈ table ∧ p e = true.
Proof.
  unfold csSorted. intros Hs Hp. induction table as [|x table IH]; simpl.
  - split; [by intros ?%not_elem_of_nil|]. by intros [?%not_elem_of_nil _].
  - simpl in Hs. apply StronglySorted_inv in Hs as [Hs Hf]. destruct (p x) eqn:E.
    + rewrite !elem_of_cons, IH by done. naive_solver.
    + split; [by intros ?%not_elem_of_nil|]. intros [Hin Ee]. exfalso.
      apply elem_of_cons in Hin as [->|Hin]; [congruence|]. rewrite (Hp x e) in E; [done| |done].
      rewrite Forall_forall in Hf. apply Hf, list_elem_of_fmap. eauto.
Qed.
Lemma dropWhile_sublist {A} (p : A → bool) l : dropWhile p l `sublist_of` l.
Proof. induction l as [|x l IH]; simpl; [done|]. destruct (p x); [by apply sublist_cons|done]. Qed.

Lemma takeWhile_sublist {A} (p : A → bool) l : takeWhile p l `sublist_of` l.
Proof.
  induction l as [|x l IH]; simpl; [done|].
  destruct (p x); [by apply sublist_skip|apply sublist_nil_l].
Qed.

Lemma findPrefixRange_spec {Q} (c : Cs Q) P e :
  csSorted (cs_table c) →
  e ∈ findPrefixRange c P ↔
    e ∈ cs_table c ∧ entryBeforeQuery P e = false ∧
    (P ≠ [] → entryBeforeQuery (Name_getSuccessor P) e = true).
Proof.
  intros Hs. unfold findPrefixRange. destruct P as [|x P].
  - rewrite dropWhile_mono by (done || apply entryBeforeQuery_mono). naive_solver.
  - rewrite takeWhile_mono, dropWhile_mono; [|done|apply entryBeforeQuery_mono| |apply entryBeforeQuery_mono].
    + naive_solver.
    + unfold csSorted. eapply StronglySorted_sublist'; [|exact Hs].
      apply (fmap_sublist ce_data), dropWhile_sublist.
Qed.

Lemma successor_no_digest n c :
  Component_ok c → hasDigest (n ++ [c]) = false → hasDigest (n ++ [Component_getSuccessor c]) = false.
Proof.
  unfold hasDigest. rewrite !last_snoc. intros Hc Hd.
  assert (ctype c ≠ 1) as Ht.
  { intros E. assert (value_size c = 32%nat) as Hs by (apply ensureValid_digest; [apply Hc|auto]).
    unfold isImplicitSha256Digest in Hd. by rewrite E, Hs in Hd. }
  unfold isImplicitSha256Digest, ImplicitSha256DigestComponent. apply bool_decide_false. intros [E _].
  revert E. destruct (Component_getSuccessor_cases c Hc) as [(out & -> & _)|[_ [[-> _]|[[? _]|[? ->]]]]]; done.
Qed.

(** The range of a prefix that is not a full name: the Data under it. *)
Lemma range_prefix P e :
  Name_ok P → Name_ok (d_name (ce_data e)) → hasDigest P = false →
  (entryBeforeQuery P e = false ∧ (P ≠ [] → entryBeforeQuery (Name_getSuccessor P) e = true)) ↔
  P `prefix_of` d_name (ce_data e).
Proof.
  intros [HP HsP] [HN _] Hd. unfold entryBeforeQuery, compareQueryWithData. rewrite Hd.
  destruct P as [|c P _] using rev_ind.
  - split; [intros _; apply prefix_nil|]. intros _. split; [|done].
    by destruct (d_name (ce_data e)).
  - rewrite Name_getSuccessor_snoc by (unfold Name_size in *; lia).
    assert (Component_ok c) as Hc by (apply Forall_app in HP as [_ HP]; by inversion HP).
    rewrite (successor_no_digest P c Hc Hd), (prefix_range_snoc P c _ Hc HN).
    rewrite (name_cmp_antisym (d_name (ce_data e)) (P ++ [Component_getSuccessor c])).
    assert (P ++ [c] ≠ []) as Hne by (by destruct P).
    destruct (name_cmp (P ++ [c]) (d_name (ce_data e))), (name_cmp (d_name (ce_data e)) (P ++ [Component_getSuccessor c]));
      simpl; naive_solver.
Qed.

(** The Data whose full name is the query is in the query's range. *)
Lemma range_full_name e :
  Name_ok (getFullName (ce_data e)) → length (d_digest (ce_data e)) = 32%nat →
  let P := getFullName (ce_data e) in
  entryBeforeQuery P e = false ∧ (P ≠ [] → entryBeforeQuery (Name_getSuccessor P) e = true).
Proof.
  intros [HP HsP] Hlen P. unfold P, getFullName. fold (digestOf (ce_data e)).
  set (n := d_name (ce_data e)). set (c := digestOf (ce_data e)).
  assert (hasDigest (n ++ [c]) = true) as Hd.
  { unfold hasDigest. rewrite last_snoc. unfold c, digestOf, isImplicitSha256Digest. simpl.
    by rewrite bool_decide_true. }
  assert (Component_ok c) as Hc by (unfold getFullName in HP; apply Forall_app in HP as [_ HP]; by inversion HP).
  assert (∀ x, take (length (n ++ [x]) - 1) (n ++ [x]) = n) as Ht.
  { intros x. rewrite length_app. simpl. by rewrite Nat.add_sub, take_app_length. }
  unfold entryBeforeQuery, compareQueryWithData. split.
  - rewrite Hd, Ht, last_snoc. fold n. rewrite name_cmp_refl. fold c. by rewrite (proj2 (comp_cmp_eq c c) eq_refl).
  - intros _. unfold getFullName in HsP.
    rewrite Name_getSuccessor_snoc by (unfold n, c, digestOf, Name_size in *; lia).
    rewrite Ht, last_snoc. fold n. destruct (hasDigest (n ++ [Component_getSuccessor c])).
    + rewrite name_cmp_refl. fold c. rewrite comp_cmp_antisym, Component_getSuccessor_lt by done. done.
    + assert (name_cmp (n ++ [Component_getSuccessor c]) n = Gt) as ->; [|done].
      rewrite name_cmp_antisym. clear. unfold name_cmp. induction n as [|x n IH]; simpl; [done|].
      by rewrite (proj2 (comp_cmp_eq x x) eq_refl).
Qed.

(** ** Properties *)

(** The operations of the store as events. *)
Inductive cs_op : Type :=
| CsInsert (now : Z) (d : Data) (isUnsolicited : bool)
| CsFind (now : Z) (i : Interest)
| CsErase (prefix : Name) (limit : nat)
| CsSetLimit (n : nat)
| CsEnable (shouldAdmit serve : bool)
| CsPolicyEvent (now : Z) (k : CsKey).
Definition cs_step {Q} `{CsPolicy Q} (op : cs_op) (c : Cs Q) : outcome (Cs Q) :=
  match op with
  | CsInsert now d b => cs_insert now d b c
  | CsFind now i => '(_, c') ← cs_find now i c; Ok c'
  | CsErase p n => '(_, c') ← cs_eraseImpl p n c; Ok c'
  | CsSetLimit n => cs_setLimit n c
  | CsEnable a s => Ok (enableServe s (enableAdmit a c))
  | CsPolicyEvent now k => cs_policyEvent now k c
  end.
Fixpoint cs_run {Q} `{CsPolicy Q} (ops : list cs_op) (c : Cs Q) : outcome (Cs Q) :=
  match ops with [] => Ok c | op :: ops' => c' ← cs_step op c; cs_run ops' c' end.

Section properties.
Context {Q : Type} `{!CsPolicy Q} `{!CsPolicyLaws Q}.

Lemma cs_eraseImpl_ok prefix limit (c : Cs Q) :
  cs_inv c →
  ∃ n c', cs_eraseImpl prefix limit c = Ok (n, c') ∧ cs_inv c' ∧ cs_limit c' = cs_limit c ∧
    n = (limit `min` length (findPrefixRange c prefix))%nat ∧
    (∀ e, e ∈ cs_table c' ↔
       e ∈ cs_table c ∧ entryKey e ∉ take limit (map entryKey (findPrefixRange c prefix))).
Proof.
  intros Hi. unfold cs_eraseImpl. set (keys := take limit _).
  assert (NoDup (map entryKey (findPrefixRange c prefix))) as Hnd.
  { pose proof (csSorted_NoDup _ (cw_sorted _ (ci_wf _ Hi))) as Hnd.
    assert (findPrefixRange c prefix `sublist_of` cs_table c) as Hsub.
    { unfold findPrefixRange. destruct prefix; [apply dropWhile_sublist|].
      etransitivity; [apply takeWhile_sublist|apply dropWhile_sublist]. }
    eapply sublist_NoDup; [exact Hnd|]. by apply (fmap_sublist entryKey). }
  destruct (eraseImpl_loop_ok keys c 0) as (c' & H & Hi' & Hl & Hel); [done| | |].
  - unfold keys. eapply sublist_NoDup; [exact Hnd|]. apply sublist_take.
  - intros k Hk. unfold keys in Hk. apply elem_of_take in Hk as (j & Hk & _).
    apply list_elem_of_lookup_2 in Hk. apply list_elem_of_fmap in Hk as (e & -> & He).
    apply list_elem_of_fmap. exists e. split; [done|]. by eapply range_sub.
  - exists (length keys), c'. split_and!; [done|done|done| |done].
    unfold keys. by rewrite length_take, length_map.
Qed.

Lemma cs_policyEvent_ok now k (c : Cs Q) :
  cs_inv c → ∃ c', cs_policyEvent now k c = Ok c' ∧ cs_inv c' ∧ cs_table c' = cs_table c.
Proof using CsPolicyLaws0.
  intros Hi. unfold cs_policyEvent. destruct (pol_scheduled _ k) as [due|] eqn:E; [|eauto].
  case_bool_decide; [|eauto]. destruct Hi as [[Hs Hp Ht] Hl].
  destruct (pol_scheduled_ok k due _ Hp E) as (q & -> & Hq & Hk & _). eexists. split; [done|].
  split; [|done]. split; [split|]; cbn; [done|done|by rewrite Hk|done].
Qed.

Lemma cs_step_ok op (c : Cs Q) : cs_inv c → ∃ c', cs_step op c = Ok c' ∧ cs_inv c'.
Proof.
  intros Hi. destruct op as [now d b|now i|p n|n|a s|now k]; simpl.
  - destruct (cs_insert_ok now d b c Hi) as (c' & -> & ? & _). eauto.
  - destruct (cs_find_ok now i c Hi) as (o & c' & -> & ? & _). simpl. eauto.
  - destruct (cs_eraseImpl_ok p n c Hi) as (k & c' & -> & ? & _). simpl. eauto.
  - destruct (cs_evictEntries_ok (mkCs (cs_table c) (cs_policy c) n (cs_shouldAdmit c) (cs_shouldServe c)))
      as (c' & H & ? & _); [|unfold cs_setLimit; eauto]. destruct (ci_wf _ Hi). by split.
  - eexists. split; [done|]. destruct Hi as [[? ? ?] ?]. by split; [split|].
  - destruct (cs_policyEvent_ok now k c Hi) as (c' & -> & ? & _). eauto.
Qed.

Lemma cs_inv_init n : cs_inv (Cs_init n : Cs Q).
Proof.
  destruct pol_init_ok as [Hp Hk]. split; [split|simpl; lia]; simpl; [constructor|done|by rewrite Hk].
Qed.

(** C26. The content store stays consistent: for every replacement policy that keeps
    the laws of the interface (both the LRU and the priority-FIFO policy do), any
    sequence of insertions, lookups, erasures, limit changes, switches and events
    that the policy has scheduled (of priority-FIFO: the move of an entry to the
    stale queue) runs without a failed assertion or a wrong iterator, and leaves the
    table strictly ordered by name and digest, so without duplicate Data, of at most
    [limit] entries, with exactly its entries tracked by the policy; the eviction
    loops terminate. *)
Theorem cs_run_invariant ops n :
  ∃ c : Cs Q, cs_run ops (Cs_init n) = Ok c ∧ csSorted (cs_table c) ∧ NoDup (map entryKey (cs_table c)) ∧
    (length (cs_table c) ≤ cs_limit c)%nat ∧ pol_keys (cs_policy c) ≡ₚ map entryKey (cs_table c).
Proof using CsPolicyLaws0.
  assert (∀ ops (c0 : Cs Q), cs_inv c0 → ∃ c, cs_run ops c0 = Ok c ∧ cs_inv c) as Hrun.
  { clear ops. intros ops. induction ops as [|op ops IH]; intros c0 Hi; [by exists c0|].
    destruct (cs_step_ok op c0 Hi) as (c1 & H1 & Hi1). simpl. rewrite H1. by apply IH. }
  destruct (Hrun ops (Cs_init n) (cs_inv_init n)) as (c & H & [[Hs Hp Ht] Hl]).
  exists c. split_and!; try done. by apply csSorted_NoDup.
Qed.

(** C27. [Cs::find] is sound and complete: the entry it returns is stored,
    matches the Interest and is fresh when the Interest asks for it; and if it
    returns none while the store serves, then no stored Data can satisfy the
    Interest, for an Interest whose name does not end with an implicit digest
    or is the full name of that Data.  So the range from the prefix to its
    successor misses nothing. *)
Theorem cs_find_correct now i (c : Cs Q) :
  cs_inv c → Name_ok (i_name i) →
  (∀ e, e ∈ cs_table c → Name_ok (getFullName (ce_data e)) ∧ length (d_digest (ce_data e)) = 32%nat) →
  ∃ o c', cs_find now i c = Ok (o, c') ∧ cs_inv c' ∧ cs_table c' = cs_table c ∧
    match o with
    | Some e => e ∈ cs_table c ∧ matchesData i (ce_data e) = true ∧
                (i_mustBeFresh i = true → isFresh now e = true)
    | None => cs_shouldServe c = true → cs_limit c ≠ 0%nat → ∀ e, e ∈ cs_table c →
                (hasDigest (i_name i) = false ∨ i_name i = getFullName (ce_data e)) →
                canSatisfy now i e = false
    end.
Proof.
  intros Hi Hni Hok. destruct (cs_find_ok now i c Hi) as (o & c' & Hrun & Hi' & Ht & _).
  exists o, c'. split_and!; [done|done|done|]. unfold cs_find in Hrun.
  destruct (negb (cs_shouldServe c) || bool_decide (cs_limit c = 0%nat)) eqn:Es.
  { injection Hrun as <- <-. intros Hserve Hlim. rewrite Hserve, bool_decide_false in Es by done. done. }
  destruct (List.find _ _) as [e|] eqn:Hf.
  - destruct (doBeforeUse _ _); [|done]. injection Hrun as <- <-. apply find_some in Hf as [Hin Hcs].
    apply list_elem_of_In, range_sub in Hin. split; [done|]. unfold canSatisfy in Hcs.
    destruct (matchesData i (ce_data e)); [|done]. split; [done|]. simpl in Hcs. intros Hmf.
    rewrite Hmf in Hcs. by destruct (isFresh now e).
  - injection Hrun as <- <-. intros _ _ e He Hcase.
    destruct (canSatisfy now i e) eqn:Hcs; [|done].
    assert (e ∈ findPrefixRange c (i_name i)) as Hin.
    { apply findPrefixRange_spec; [apply Hi|]. split; [done|]. destruct (Hok e He) as [Hfn Hdl].
      destruct Hcase as [Hd| ->]; [|by apply range_full_name].
      apply range_prefix; [done| |done|].
      - destruct Hfn as [Hc Hsz]. unfold getFullName in *. apply Forall_app in Hc as [? _].
        split; [done|]. unfold Name_size in *. rewrite length_app in Hsz. lia.
      - unfold canSatisfy in Hcs. destruct (matchesData i (ce_data e)) eqn:Hm; [|done].
        apply matchesData_nte in Hm as Hp. unfold matchesData in Hm.
        unfold hasDigest in Hd. destruct (if bool_decide _ then _ else _) eqn:E in Hm; [clear Hm|done].
        clear Es. revert E. case_bool_decide.
        + revert Hd. destruct (last (i_name i)) as [x|]; [by intros ->|done].
        + destruct (i_canBePrefix i); [by intros ?%isPrefixOf_spec|by intros ->%Name_equals_spec]. }
    apply find_none with (x := e) in Hf; [congruence|]. by apply list_elem_of_In.
Qed.
End properties.

(** The LRU policy evicts the least recently used entry: when a new Data
    enters a full store, the one entry removed is the one at the head of the
    queue, which insertions, refreshes and lookups only ever append to, and the
    new Data goes to its tail. *)
Theorem lru_evicts_oldest now d uns (c : Cs Lru.LruPolicy) oldest rest :
  cs_inv c → cs_shouldAdmit c = true → d_cachePolicyTag d ≠ Some CachePolicy_NO_CACHE →
  length (cs_table c) = cs_limit c → Lru.m_queue (cs_policy c) = oldest :: rest →
  getFullName d ∉ map entryKey (cs_table c) →
  ∃ c', cs_insert now d uns c = Ok c' ∧ cs_inv c' ∧
    Lru.m_queue (cs_policy c') = rest ++ [getFullName d] ∧
    (∀ e, e ∈ cs_table c' ↔ e = newCsEntry now d uns ∨ (e ∈ cs_table c ∧ entryKey e ≠ oldest)).
Proof.
  intros Hi Hadm Htag Hfull Hq Hnew. destruct (cs_insert_ok now d uns c Hi) as (c' & Hrun & Hi' & _ & _).
  exists c'. split; [done|]. split; [done|]. revert Hrun. unfold cs_insert.
  pose proof (cw_tracked _ (ci_wf _ Hi)) as Ht.
  change (Lru.m_queue (cs_policy c) ≡ₚ map entryKey (cs_table c)) in Ht.
  assert (cs_limit c ≠ 0%nat) as Hlim.
  { rewrite Hq in Ht. apply Permutation_length in Ht. rewrite length_map in Ht. simpl in Ht. lia. }
  rewrite Hadm, (bool_decide_false (cs_limit c = _)), (bool_decide_false (_ = Some _)) by done. cbn [negb orb].
  pose proof (emplace_spec (newCsEntry now d uns) (cs_table c) (cw_sorted _ (ci_wf _ Hi))) as Hem.
  destruct (emplace _ _) as [t b]. destruct Hem as [Hst Hb].
  destruct b; [|by destruct Hb as [_ Hin]]. destruct Hb as [Hp _].
  set (isEntry := fun e => bool_decide (entryKey e = getFullName d)).
  assert (NoDup (map entryKey t)) as Hndt by by apply csSorted_NoDup.
  set (t1 := updateFirst isEntry (updateFreshUntil now) t).
  assert (∀ e, e ∈ t1 ↔ e = newCsEntry now d uns ∨ e ∈ cs_table c) as Hel.
  { intros e. unfold t1, isEntry. rewrite (elem_of_updateFirst entryKey) by done.
    assert (∀ x, x ∈ t ↔ x = newCsEntry now d uns ∨ x ∈ cs_table c) as Ht'.
    { intros x. by rewrite Hp, elem_of_cons. }
    assert (∀ x, x ∈ cs_table c → entryKey x ≠ getFullName d) as Hne.
    { intros x Hx E. apply Hnew. rewrite <-E. apply list_elem_of_fmap. eauto. }
    split.
    - intros [(x & Hx%Ht' & E & ->)|[Hx%Ht' _]]; [|tauto]. destruct Hx as [->|Hx]; [by left|].
      by destruct (Hne x Hx).
    - intros [->|Hx]; [left|right]; [|split; [apply Ht'; auto|auto]].
      exists (newCsEntry now d uns). split_and!; [apply Ht'; auto|done|done]. }
  cbn [doAfterInsert Lru.LruCsPolicy]. unfold Lru.insertToQueue.
  rewrite (bool_decide_true (_ ∉ _)) by by rewrite Ht.
  rewrite bool_decide_true by done. unfold mbind, outcome_bind. unfold cs_evictEntries.
  assert (length t1 = S (cs_limit c)) as Hlen.
  { unfold t1. rewrite updateFirst_length, Hp. simpl. by rewrite Hfull. }
  cbn [cs_table set_cs]. rewrite Hlen. cbn [evictEntries_loop cs_table set_cs cs_limit].
  rewrite decide_True by (rewrite Hlen; lia).
  cbn [evictOne Lru.LruCsPolicy cs_policy]. unfold Lru.lru_evictOne. cbn [Lru.m_queue]. rewrite Hq. simpl.
  assert (csSorted t1) as Hst1 by (unfold csSorted, t1; by rewrite map_data_updateFirst).
  assert (oldest ∈ map entryKey t1) as Hin.
  { unfold t1. rewrite map_key_updateFirst by done. rewrite Hp. simpl. right. rewrite <-Ht, Hq. by left. }
  destruct (eraseKey_perm oldest t1 Hst1 Hin) as (_ & Hlen1 & Hel1).
  destruct (cs_limit c) as [|lim] eqn:El; [done|]. cbn [evictEntries_loop cs_table set_cs cs_limit].
  rewrite decide_False by (rewrite El; lia). intros [= <-]. cbn [cs_table cs_policy set_cs Lru.m_queue].
  split; [done|]. intros e. rewrite Hel1, Hel. split.
  - intros [[->|?] ?]; auto.
  - intros [->|[? ?]]; [|auto]. split; [auto|]. intros E. apply Hnew. rewrite <-Ht, Hq.
    change (getFullName d) with (entryKey (newCsEntry now d uns)). rewrite E. by left.
Qed.

(** ** Witnesses *)

Definition csData (b : Z) : Data :=
  mkData [mkComponent GenericNameComponent [b]] (replicate 32 0) 1000 None None None.
Definition csInterest (b : Z) : Interest :=
  mkInterest [mkComponent GenericNameComponent [b]] true true [] (Some 1) 4000 None None None None.
Definition csOps : list cs_op :=
  [CsInsert 0 (csData 66) false; CsInsert 0 (csData 65) true; CsFind 5 (csInterest 66)].

Lemma cs_run_invariant_witness :
  (∃ c : Cs Lru.LruPolicy, cs_run csOps (Cs_init 2) = Ok c ∧ (length (cs_table c) ≤ cs_limit c)%nat) ∧
  (∃ c : Cs PriorityFifo.PriorityFifoPolicy,
     cs_run (csOps ++ [CsPolicyEvent (ms 2000) (getFullName (csData 66))]) (Cs_init 2) = Ok c ∧
     (length (cs_table c) ≤ cs_limit c)%nat ∧ PriorityFifo.m_stale (cs_policy c) = [getFullName (csData 66)]).
Proof.
  split.
  - destruct (cs_run_invariant (Q := Lru.LruPolicy) csOps 2) as (c & H & _ & _ & Hl & _). by exists c.
  - destruct (cs_run_invariant (Q := PriorityFifo.PriorityFifoPolicy)
      (csOps ++ [CsPolicyEvent (ms 2000) (getFullName (csData 66))]) 2) as (c & H & _ & _ & Hl & _).
    exists c. split_and!; [done|done|]. revert H. vm_compute. by intros [= <-].
Defined.

Definition csSample : Cs Lru.LruPolicy :=
  match cs_run csOps (Cs_init 2) with Ok c => c | Fault _ => Cs_init 2 end.
Lemma csSample_inv : cs_inv csSample.
Proof.
  assert (∀ ops (c0 : Cs Lru.LruPolicy), cs_inv c0 → ∃ c, cs_run ops c0 = Ok c ∧ cs_inv c) as Hrun.
  { intros ops. induction ops as [|op ops IH]; intros c0 Hi; [by exists c0|].
    destruct (cs_step_ok op c0 Hi) as (c1 & H1 & Hi1). simpl. rewrite H1. by apply IH. }
  destruct (Hrun csOps (Cs_init 2) (cs_inv_init 2)) as (c & H & Hi). unfold csSample. by rewrite H.
Qed.
Lemma csSample_ok e :
  e ∈ cs_table csSample → Name_ok (getFullName (ce_data e)) ∧ length (d_digest (ce_data e)) = 32%nat.
Proof.
  assert (Forall (fun e => Name_ok (getFullName (ce_data e)) ∧ length (d_digest (ce_data e)) = 32%nat)
    (cs_table csSample)) as Hf by (apply (bool_decide_unpack _); by vm_compute).
  rewrite Forall_forall in Hf. apply Hf.
Qed.
Lemma cs_find_correct_witness :
  ∃ o c', cs_find 5 (csInterest 65) csSample = Ok (o, c') ∧ cs_inv c'.
Proof.
  destruct (cs_find_correct 5 (csInterest 65) csSample csSample_inv) as (o & c' & H & Hi & _).
  - apply (bool_decide_unpack _); by vm_compute.
  - apply csSample_ok.
  - by exists o, c'.
Defined.
Lemma lru_evicts_oldest_witness :
  ∃ c', cs_insert 9 (csData 67) false csSample = Ok c' ∧
    Lru.m_queue (cs_policy c') = [getFullName (csData 66); getFullName (csData 67)].
Proof.
  destruct (lru_evicts_oldest 9 (csData 67) false csSample (getFullName (csData 65))
    [getFullName (csData 66)] csSample_inv) as (c' & H & _ & Hq & _).
  - reflexivity.
  - done.
  - vm_compute. reflexivity.
  - vm_compute. reflexivity.
  - apply (bool_decide_unpack _); by vm_compute.
  - exists c'. split; [exact H|exact Hq].
Defined.
