(* ===== verification/Algorithm.v ===== *)
(** * Forwarding algorithms (NFD [fw/algorithm.cpp],
    [fw/retx-suppression-exponential.cpp], [fw/process-nack-traits.cpp],
    [fw/unsolicited-data-policy.cpp], [table/network-region-table.cpp])

    Functions of PIT entries, next hops and faces that the strategies and the
    forwarder share. *)

From S2P Require Import Prelude Tlv Component Name Packet Face FibEntry PitEntry.
Local Open Scope Z_scope.

Definition wouldViolateScope (inFace : Face) (interest : Interest) (outFace : Face) : bool :=
  if bool_decide (face_scope outFace = FACE_SCOPE_LOCAL) then false
  else if isPrefixOf LOCALHOST (i_name interest) then true
  else if isPrefixOf LOCALHOP (i_name interest)
  then bool_decide (face_scope inFace ≠ FACE_SCOPE_LOCAL)
  else false.

(** The flags of [DuplicateNonceWhere]. *)
Definition DUPLICATE_NONCE_NONE : Z := 0.
Definition DUPLICATE_NONCE_IN_SAME : Z := 1.
Definition DUPLICATE_NONCE_IN_OTHER : Z := 2.
Definition DUPLICATE_NONCE_OUT_SAME : Z := 4.
Definition DUPLICATE_NONCE_OUT_OTHER : Z := 8.

Definition findDuplicateNonce (pe : PitEntry) (nonce : Z) (face : FaceRef) : Z :=
  let dnw := foldl (fun dnw r =>
      if bool_decide (in_lastNonce r = nonce)
      then Z.lor dnw (if bool_decide (in_face r = face)
                      then DUPLICATE_NONCE_IN_SAME else DUPLICATE_NONCE_IN_OTHER)
      else dnw) DUPLICATE_NONCE_NONE (pe_inRecords pe) in
  foldl (fun dnw r =>
      if bool_decide (out_lastNonce r = nonce)
      then Z.lor dnw (if bool_decide (out_face r = face)
                      then DUPLICATE_NONCE_OUT_SAME else DUPLICATE_NONCE_OUT_OTHER)
      else dnw) dnw (pe_outRecords pe).

Definition hasPendingOutRecords (now : Z) (pe : PitEntry) : bool :=
  existsb (fun r => bool_decide (now ≤ out_expiry r) && bool_decide (out_incomingNack r = None))
    (pe_outRecords pe).

(** [getLastOutgoing]: the maximum over a non-empty list of out-records. *)
Definition getLastOutgoing (pe : PitEntry) : outcome Z :=
  match pe_outRecords pe with
  | [] => Fault AssertFailed
  | r :: l => Ok (foldl (fun m r => Z.max m (out_lastRenewed r)) (out_lastRenewed r) l)
  end.

Definition isNextHopEligible (faces : gmap FaceRef Face) (inFace : Face) (interest : Interest)
    (nh : NextHop) (pe : PitEntry) (wantUnused : bool) (now : Z) : bool :=
  match faces !! nh_face nh with
  | None => false
  | Some outFace =>
      if (bool_decide (face_id outFace = face_id inFace) &&
          bool_decide (face_linkType outFace ≠ LINK_TYPE_AD_HOC)) ||
         wouldViolateScope inFace interest outFace
      then false
      else if wantUnused then
        match getOutRecord pe (nh_face nh) with
        | Some r => negb (bool_decide (now < out_expiry r))
        | None => true
        end
      else true
  end.

(** [findEligibleNextHopWithEarliestOutRecord].  [earliest] is [None] for
    [time_point::max()]. *)
Fixpoint earliestNextHop (faces : gmap FaceRef Face) (inFace : Face) (interest : Interest)
    (pe : PitEntry) (l : list NextHop) (found : option NextHop) (earliest : option Z)
  : outcome (option NextHop) :=
  match l with
  | [] => Ok found
  | nh :: l' =>
      if isNextHopEligible faces inFace interest nh pe false 0 then
        match getOutRecord pe (nh_face nh) with
        | None => Fault AssertFailed
        | Some r =>
            if match earliest with None => true | Some t => bool_decide (out_lastRenewed r < t) end
            then earliestNextHop faces inFace interest pe l' (Some nh) (Some (out_lastRenewed r))
            else earliestNextHop faces inFace interest pe l' found earliest
        end
      else earliestNextHop faces inFace interest pe l' found earliest
  end.
Definition findEligibleNextHopWithEarliestOutRecord (faces : gmap FaceRef Face) (inFace : Face)
    (interest : Interest) (nexthops : list NextHop) (pe : PitEntry) : outcome (option NextHop) :=
  earliestNextHop faces inFace interest pe nexthops None None.

(** ** Retransmission suppression *)

Inductive RetxSuppressionResult : Type := RETX_NEW | RETX_FORWARD | RETX_SUPPRESS.
#[export] Instance RetxSuppressionResult_eq_dec : EqDecision RetxSuppressionResult.
Proof. solve_decision. Defined.

(** Intervals are milliseconds; [multiply] is the product with the float
    multiplier converted back to milliseconds. *)
Record RetxSuppressionExponential := mkRetx {
  m_initialInterval : Z;
  m_maxInterval : Z;
  multiply : Z → Z
}.
(** The default parameters 10 ms, 250 ms and 2.0. *)
Definition defaultRetx : RetxSuppressionExponential := mkRetx 10 250 (fun x => x * 2).

(** [decidePerPitEntry]: the decision and the entry with its suppression
    interval. *)
Definition decidePerPitEntry (rs : RetxSuppressionExponential) (now : Z) (pe : PitEntry)
  : outcome (RetxSuppressionResult * PitEntry) :=
  if negb (hasPendingOutRecords now pe) then Ok (RETX_NEW, pe)
  else
    lastOutgoing ← getLastOutgoing pe;
    let sinceLastOutgoing := now - lastOutgoing in
    let interval := default (m_initialInterval rs) (pe_info pe) in
    if bool_decide (sinceLastOutgoing < ms interval)
    then Ok (RETX_SUPPRESS, set_pe_info (Some interval) pe)
    else Ok (RETX_FORWARD, set_pe_info (Some (Z.min (m_maxInterval rs) (multiply rs interval))) pe).

(** [decidePerUpstream] on the out-record of the face. *)
Definition decidePerUpstream (rs : RetxSuppressionExponential) (now : Z) (pe : PitEntry) (f : FaceRef)
  : RetxSuppressionResult * PitEntry :=
  match getOutRecord pe f with
  | None => (RETX_NEW, pe)
  | Some r =>
      let interval := default (m_initialInterval rs) (out_info r) in
      let setInfo := fun r => mkOutRecord (out_face r) (out_lastNonce r) (out_lastRenewed r)
                                (out_expiry r) (out_incomingNack r) (Some interval) in
      let pe' := set_pe_outRecords
        (updateFirst (fun r => bool_decide (out_face r = f)) setInfo (pe_outRecords pe)) pe in
      (if bool_decide (now - out_lastRenewed r < ms interval) then RETX_SUPPRESS else RETX_FORWARD, pe')
  end.

(** [incrementIntervalForOutRecord]. *)
Definition incrementIntervalForOutRecord (rs : RetxSuppressionExponential) (r : OutRecord) : OutRecord :=
  mkOutRecord (out_face r) (out_lastNonce r) (out_lastRenewed r) (out_expiry r) (out_incomingNack r)
    (Some (Z.min (m_maxInterval rs) (multiply rs (default (m_initialInterval rs) (out_info r))))).

(** ** Processing of Nacks *)

(** The loop of [processNack]: the number of out-records without a Nack, the
    last such face, and the least severe reason of the others. *)
Definition nackSummary (pe : PitEntry) : nat * option FaceRef * NackReason :=
  foldl (fun '(n, last, least) r =>
      match out_incomingNack r with
      | None => (S n, Some (out_face r), least)
      | Some reason => (n, last, if isLessSevere reason least then reason else least)
      end) (0%nat, None, Nack_NONE) (pe_outRecords pe).

(** What [processNack] does next. *)
Inductive NackAction : Type :=
| NackTo (f : FaceRef) (reason : NackReason)
| NackWait
| NackAll (reason : NackReason).
Definition processNack (pe : PitEntry) : outcome NackAction :=
  let '(nOutRecordsNotNacked, lastFaceNotNacked, leastSevereReason) := nackSummary pe in
  let wait := if bool_decide (0 < nOutRecordsNotNacked)%nat then Ok NackWait
              else Ok (NackAll leastSevereReason) in
  if bool_decide (nOutRecordsNotNacked = 1%nat) then
    match lastFaceNotNacked with
    | None => Fault AssertFailed
    | Some f => match getInRecord pe f with
                | Some _ => Ok (NackTo f leastSevereReason)
                | None => wait
                end
    end
  else wait.

(** ** Policies *)

Inductive UnsolicitedDataDecision : Type := DROP | CACHE.
Inductive UnsolicitedDataPolicy : Type := DropAll | AdmitLocal | AdmitNetwork | AdmitAll.
Definition decideUnsolicited (p : UnsolicitedDataPolicy) (inFace : Face) : UnsolicitedDataDecision :=
  match p with
  | DropAll => DROP
  | AdmitLocal => match face_scope inFace with FACE_SCOPE_LOCAL => CACHE | _ => DROP end
  | AdmitNetwork => match face_scope inFace with FACE_SCOPE_NON_LOCAL => CACHE | _ => DROP end
  | AdmitAll => CACHE
  end.

(** [NetworkRegionTable::isInProducerRegion]. *)
Definition isInProducerRegion (regions forwardingHint : list Name) : bool :=
  existsb (fun regionName => existsb (fun delegation => isPrefixOf delegation regionName)
                               forwardingHint) regions.

(** ** Properties *)

Lemma wouldViolateScope_spec inFace i outFace :
  wouldViolateScope inFace i outFace = true ↔
    face_scope outFace = FACE_SCOPE_NON_LOCAL ∧
    (LOCALHOST `prefix_of` i_name i ∨
     LOCALHOP `prefix_of` i_name i ∧ face_scope inFace = FACE_SCOPE_NON_LOCAL).
Proof.
  unfold wouldViolateScope. rewrite <-!isPrefixOf_spec.
  destruct (face_scope outFace), (face_scope inFace), (isPrefixOf LOCALHOST _), (isPrefixOf LOCALHOP _);
    simpl; split; try done; naive_solver.
Qed.

Lemma hasPendingOutRecords_spec now pe :
  hasPendingOutRecords now pe = true ↔
    ∃ r, r ∈ pe_outRecords pe ∧ now ≤ out_expiry r ∧ out_incomingNack r = None.
Proof.
  unfold hasPendingOutRecords. rewrite existsb_exists. split; intros (r & Hr & H); exists r;
    rewrite list_elem_of_In in *; rewrite andb_true_iff, !bool_decide_eq_true in *; tauto.
Qed.

(** The two loops of [findDuplicateNonce] set a bit exactly when some record
    has the Nonce. *)
Lemma fold_flags {A} (p same : A → bool) (bs bo : Z) l d :
  foldl (fun dnw r => if p r then Z.lor dnw (if same r then bs else bo) else dnw) d l =
  Z.lor d (Z.lor (if existsb (fun r => p r && same r) l then bs else 0)
                 (if existsb (fun r => p r && negb (same r)) l then bo else 0)).
Proof.
  revert d. induction l as [|r l IH]; intros d; simpl; [by rewrite !Z.lor_0_r|]. rewrite IH.
  destruct (p r), (same r), (existsb (fun r => p r && same r) l), (existsb (fun r => p r && negb (same r)) l);
    simpl; rewrite ?Z.lor_0_r, ?Z.lor_0_l; try done;
    apply Z.bits_inj'; intros n Hn; rewrite !Z.lor_spec;
    destruct (Z.testbit d n), (Z.testbit bs n), (Z.testbit bo n); done.
Qed.

Definition inDup (pe : PitEntry) (nonce : Z) (same : bool) (face : FaceRef) : bool :=
  existsb (fun r => bool_decide (in_lastNonce r = nonce) &&
    (if same then bool_decide (in_face r = face) else negb (bool_decide (in_face r = face))))
    (pe_inRecords pe).
Definition outDup (pe : PitEntry) (nonce : Z) (same : bool) (face : FaceRef) : bool :=
  existsb (fun r => bool_decide (out_lastNonce r = nonce) &&
    (if same then bool_decide (out_face r = face) else negb (bool_decide (out_face r = face))))
    (pe_outRecords pe).

Lemma findDuplicateNonce_flags pe nonce face :
  findDuplicateNonce pe nonce face =
    (if inDup pe nonce true face then 1 else 0) + (if inDup pe nonce false face then 2 else 0) +
    (if outDup pe nonce true face then 4 else 0) + (if outDup pe nonce false face then 8 else 0).
Proof.
  unfold findDuplicateNonce. rewrite !fold_flags. unfold inDup, outDup.
  destruct (existsb _ (pe_inRecords pe)), (existsb _ (pe_inRecords pe)), (existsb _ (pe_outRecords pe)),
    (existsb _ (pe_outRecords pe)); reflexivity.
Qed.

(** ** Choosing a next hop *)

Lemma eligible_face faces inFace i nh pe u t :
  isNextHopEligible faces inFace i nh pe u t = true → is_Some (faces !! nh_face nh).
Proof. unfold isNextHopEligible. by destruct (faces !! nh_face nh); [eauto|]. Qed.

(** An eligible next hop that is not unused has an out-record. *)
Lemma eligible_used faces inFace i nh pe t t' :
  isNextHopEligible faces inFace i nh pe false t' = true →
  isNextHopEligible faces inFace i nh pe true t = false → is_Some (getOutRecord pe (nh_face nh)).
Proof.
  unfold isNextHopEligible. destruct (faces !! nh_face nh); [|done].
  destruct (_ || _); [done|]. by destruct (getOutRecord pe (nh_face nh)).
Qed.

Section earliest.
Context (faces : gmap FaceRef Face) (inFace : Face) (i : Interest) (pe : PitEntry).
Definition eligible (nh : NextHop) : bool := isNextHopEligible faces inFace i nh pe false 0.
(** When the out-record of a next hop was last renewed. *)
Definition renewed (nh : NextHop) (t : Z) : Prop :=
  ∃ r, getOutRecord pe (nh_face nh) = Some r ∧ out_lastRenewed r = t.

Lemma earliestNextHop_spec l : ∀ found earliest,
  (∀ nh, nh ∈ l → eligible nh = true → ∃ t, renewed nh t) →
  match found, earliest with
  | None, None => True
  | Some nh, Some t => eligible nh = true ∧ renewed nh t
  | _, _ => False
  end →
  ∃ o, earliestNextHop faces inFace i pe l found earliest = Ok o ∧
    match o with
    | None => found = None ∧ ∀ nh, nh ∈ l → eligible nh = false
    | Some nh => (nh ∈ l ∨ found = Some nh) ∧ eligible nh = true ∧
        ∃ t, renewed nh t ∧ (∀ t0, earliest = Some t0 → t ≤ t0) ∧
          ∀ nh' t', nh' ∈ l → eligible nh' = true → renewed nh' t' → t ≤ t'
    end.
Proof.
  induction l as [|x l IH]; intros found earliest Hall Hfound; cbn [earliestNextHop].
  - exists found. split; [done|]. destruct found as [nh|], earliest as [t|]; try done.
    + destruct Hfound as [He Hr]. split_and!; [by right|done|]. exists t.
      split_and!; [done|by intros ? [= ->]|by intros ? ? ?%not_elem_of_nil].
    + split; [done|]. by intros ? ?%not_elem_of_nil.
  - fold (eligible x). destruct (eligible x) eqn:Ex.
    2:{ destruct (IH found earliest) as (o & -> & Ho); [intros; apply Hall; [by right|done]|done|].
        exists o. split; [done|]. destruct o as [nh|].
        - destruct Ho as (Hin & He & t & Ht & Hle & Hmin). split_and!; [set_solver|done|].
          exists t. split_and!; [done|done|]. intros nh' t' [->|?]%elem_of_cons; [congruence|eauto].
        - destruct Ho as [? Ho]. split; [done|]. intros nh [->|?]%elem_of_cons; auto. }
    destruct (Hall x) as (t & r & Hr & Et); [by left|done|]. rewrite Hr.
    assert (∀ nh', renewed x nh' → nh' = t) as Hx by (intros nh' (r' & ? & ?); congruence).
    destruct (match earliest with None => true | Some t0 => _ end) eqn:Ecmp.
    + destruct (IH (Some x) (Some (out_lastRenewed r))) as (o & -> & Ho);
        [intros; apply Hall; [by right|done]|by split; [|exists r]|].
      exists o. split; [done|]. destruct o as [nh|]; [|by destruct Ho].
      destruct Ho as (Hin & He & t1 & Ht1 & Hle & Hmin). split_and!; [set_solver|done|].
      exists t1. specialize (Hle _ eq_refl). split_and!; [done| |].
      * intros t0 ->. apply bool_decide_eq_true in Ecmp. lia.
      * intros nh' t' [->|?]%elem_of_cons He' Hr'; [|eauto]. apply Hx in Hr'. lia.
    + destruct earliest as [t0|]; [|done]. apply bool_decide_eq_false in Ecmp.
      destruct (IH found (Some t0)) as (o & -> & Ho); [intros; apply Hall; [by right|done]|done|].
      exists o. split; [done|]. destruct o as [nh|].
      * destruct Ho as (Hin & He & t1 & Ht1 & Hle & Hmin). split_and!; [set_solver|done|].
        exists t1. specialize (Hle _ eq_refl). split_and!; [done|by intros ? [= <-]|].
        intros nh' t' [->|?]%elem_of_cons He' Hr'; [|eauto]. apply Hx in Hr'. lia.
      * destruct found; [by destruct Ho|done].
Qed.
End earliest.
