(* ===== verification/Forwarder.v ===== *)
(** * The forwarder (NFD [fw/forwarder.cpp], [fw/strategy.cpp],
    [fw/best-route-strategy.cpp], [table/strategy-choice.cpp])

    The forwarding pipelines, as computations on the state of the forwarder.
    The outgoing pipelines come first, then the strategies that call them, then
    the incoming pipelines that call the strategies.  Arguments of log
    statements are not evaluated (the log level is above DEBUG), and the clock does
    not advance inside a handler. *)

From S2P Require Import Prelude Tlv Component Name Packet PitAssist Hashtable NameTree NameEnum.
From S2P Require Import Face FibEntry PitEntry Store Pit Fib DeadNonceList Cs Algorithm.
Local Open Scope Z_scope.

(** ** State *)

Record Counters := mkCounters {
  nInInterests : Z; nOutInterests : Z; nInData : Z; nOutData : Z; nInNacks : Z; nOutNacks : Z;
  nSatisfiedInterests : Z; nUnsatisfiedInterests : Z; nUnsolicitedData : Z;
  nCsHits : Z; nCsMisses : Z
}.
Definition Counters_init : Counters := mkCounters 0 0 0 0 0 0 0 0 0 0 0.

(** What the faces are told to send. *)
Inductive Output : Type :=
| SendInterest (egress : FaceRef) (i : Interest)
| SendData (egress : FaceRef) (d : Data)
| SendNack (egress : FaceRef) (n : Nack).

Record Forwarder (Q : Type) := mkForwarder {
  fw_store : Store;
  fw_cs : Cs Q;
  fw_dnl : DeadNonceList;
  fw_assist : pit_assist;
  fw_faces : gmap FaceRef Face;
  fw_regions : list Name;               (* [m_networkRegionTable] *)
  fw_defaultHopLimit : Z;               (* [m_config.defaultHopLimit] *)
  fw_unsolicited : UnsolicitedDataPolicy;
  fw_counters : Counters;
  fw_now : Z;                           (* steady clock, nanoseconds *)
  fw_drawn : nat;                       (* random words drawn *)
  fw_output : list Output               (* in the order sent *)
}.
Arguments mkForwarder {_} _ _ _ _ _ _ _ _ _ _ _ _.
Arguments fw_store {_} _.
Arguments fw_cs {_} _.
Arguments fw_dnl {_} _.
Arguments fw_assist {_} _.
Arguments fw_faces {_} _.
Arguments fw_regions {_} _.
Arguments fw_defaultHopLimit {_} _.
Arguments fw_unsolicited {_} _.
Arguments fw_counters {_} _.
Arguments fw_now {_} _.
Arguments fw_drawn {_} _.
Arguments fw_output {_} _.

Section setters.
Context {Q : Type}.
Definition set_fw_store (v : Store) (s : Forwarder Q) : Forwarder Q :=
  mkForwarder v (fw_cs s) (fw_dnl s) (fw_assist s) (fw_faces s) (fw_regions s) (fw_defaultHopLimit s)
    (fw_unsolicited s) (fw_counters s) (fw_now s) (fw_drawn s) (fw_output s).
Definition set_fw_cs (v : Cs Q) (s : Forwarder Q) : Forwarder Q :=
  mkForwarder (fw_store s) v (fw_dnl s) (fw_assist s) (fw_faces s) (fw_regions s) (fw_defaultHopLimit s)
    (fw_unsolicited s) (fw_counters s) (fw_now s) (fw_drawn s) (fw_output s).
Definition set_fw_dnl (v : DeadNonceList) (s : Forwarder Q) : Forwarder Q :=
  mkForwarder (fw_store s) (fw_cs s) v (fw_assist s) (fw_faces s) (fw_regions s) (fw_defaultHopLimit s)
    (fw_unsolicited s) (fw_counters s) (fw_now s) (fw_drawn s) (fw_output s).
Definition set_fw_assist (v : pit_assist) (k : nat) (s : Forwarder Q) : Forwarder Q :=
  mkForwarder (fw_store s) (fw_cs s) (fw_dnl s) v (fw_faces s) (fw_regions s) (fw_defaultHopLimit s)
    (fw_unsolicited s) (fw_counters s) (fw_now s) k (fw_output s).
Definition set_fw_faces (v : gmap FaceRef Face) (s : Forwarder Q) : Forwarder Q :=
  mkForwarder (fw_store s) (fw_cs s) (fw_dnl s) (fw_assist s) v (fw_regions s) (fw_defaultHopLimit s)
    (fw_unsolicited s) (fw_counters s) (fw_now s) (fw_drawn s) (fw_output s).
Definition set_fw_counters (v : Counters) (s : Forwarder Q) : Forwarder Q :=
  mkForwarder (fw_store s) (fw_cs s) (fw_dnl s) (fw_assist s) (fw_faces s) (fw_regions s)
    (fw_defaultHopLimit s) (fw_unsolicited s) v (fw_now s) (fw_drawn s) (fw_output s).
Definition set_fw_now (v : Z) (s : Forwarder Q) : Forwarder Q :=
  mkForwarder (fw_store s) (fw_cs s) (fw_dnl s) (fw_assist s) (fw_faces s) (fw_regions s)
    (fw_defaultHopLimit s) (fw_unsolicited s) (fw_counters s) v (fw_drawn s) (fw_output s).
Definition set_fw_drawn (v : nat) (s : Forwarder Q) : Forwarder Q :=
  mkForwarder (fw_store s) (fw_cs s) (fw_dnl s) (fw_assist s) (fw_faces s) (fw_regions s)
    (fw_defaultHopLimit s) (fw_unsolicited s) (fw_counters s) (fw_now s) v (fw_output s).
Definition set_fw_output (v : list Output) (s : Forwarder Q) : Forwarder Q :=
  mkForwarder (fw_store s) (fw_cs s) (fw_dnl s) (fw_assist s) (fw_faces s) (fw_regions s)
    (fw_defaultHopLimit s) (fw_unsolicited s) (fw_counters s) (fw_now s) (fw_drawn s) v.

(** Computations on the parts of the state. *)
Definition onStore {A} : M Store A → M (Forwarder Q) A := zoom fw_store set_fw_store.
Definition onCs (f : Cs Q → outcome (Cs Q)) : M (Forwarder Q) unit :=
  s ← get; c ← lift (f (fw_cs s)); put (set_fw_cs c s).
Definition onDnl (f : DeadNonceList → outcome DeadNonceList) : M (Forwarder Q) unit :=
  s ← get; d ← lift (f (fw_dnl s)); put (set_fw_dnl d s).
Definition count (f : Counters → Counters) : M (Forwarder Q) unit :=
  modify (fun s => set_fw_counters (f (fw_counters s)) s).
Definition emit (o : Output) : M (Forwarder Q) unit :=
  modify (fun s => set_fw_output (fw_output s ++ [o]) s).
Definition getFace (f : FaceRef) : M (Forwarder Q) Face :=
  s ← get; deref (fw_faces s !! f).
Definition setFace (f : FaceRef) (g : Face → Face) : M (Forwarder Q) unit :=
  x ← getFace f; modify (fun s => set_fw_faces (<[f := g x]> (fw_faces s)) s).
Definition interestOf (r : InterestRef) : M (Forwarder Q) Interest := onStore (getInterest r).
Definition changeInterest (r : InterestRef) (f : Interest → Interest) : M (Forwarder Q) unit :=
  onStore (setInterest r f).
Definition pitEntryOf (r : PitRef) : M (Forwarder Q) PitEntry := onStore (getPitEntry r).
Definition changePitEntry (r : PitRef) (f : PitEntry → PitEntry) : M (Forwarder Q) unit :=
  onStore (setPitEntry r f).
Definition now : M (Forwarder Q) Z := gets fw_now.
End setters.

Definition inc_nInInterests (c : Counters) : Counters :=
  mkCounters (nInInterests c + 1) (nOutInterests c) (nInData c) (nOutData c) (nInNacks c) (nOutNacks c)
    (nSatisfiedInterests c) (nUnsatisfiedInterests c) (nUnsolicitedData c) (nCsHits c) (nCsMisses c).
Definition inc_nOutInterests (c : Counters) : Counters :=
  mkCounters (nInInterests c) (nOutInterests c + 1) (nInData c) (nOutData c) (nInNacks c) (nOutNacks c)
    (nSatisfiedInterests c) (nUnsatisfiedInterests c) (nUnsolicitedData c) (nCsHits c) (nCsMisses c).
Definition inc_nInData (c : Counters) : Counters :=
  mkCounters (nInInterests c) (nOutInterests c) (nInData c + 1) (nOutData c) (nInNacks c) (nOutNacks c)
    (nSatisfiedInterests c) (nUnsatisfiedInterests c) (nUnsolicitedData c) (nCsHits c) (nCsMisses c).
Definition inc_nOutData (c : Counters) : Counters :=
  mkCounters (nInInterests c) (nOutInterests c) (nInData c) (nOutData c + 1) (nInNacks c) (nOutNacks c)
    (nSatisfiedInterests c) (nUnsatisfiedInterests c) (nUnsolicitedData c) (nCsHits c) (nCsMisses c).
Definition inc_nInNacks (c : Counters) : Counters :=
  mkCounters (nInInterests c) (nOutInterests c) (nInData c) (nOutData c) (nInNacks c + 1) (nOutNacks c)
    (nSatisfiedInterests c) (nUnsatisfiedInterests c) (nUnsolicitedData c) (nCsHits c) (nCsMisses c).
Definition inc_nOutNacks (c : Counters) : Counters :=
  mkCounters (nInInterests c) (nOutInterests c) (nInData c) (nOutData c) (nInNacks c) (nOutNacks c + 1)
    (nSatisfiedInterests c) (nUnsatisfiedInterests c) (nUnsolicitedData c) (nCsHits c) (nCsMisses c).
Definition inc_nSatisfiedInterests (c : Counters) : Counters :=
  mkCounters (nInInterests c) (nOutInterests c) (nInData c) (nOutData c) (nInNacks c) (nOutNacks c)
    (nSatisfiedInterests c + 1) (nUnsatisfiedInterests c) (nUnsolicitedData c) (nCsHits c) (nCsMisses c).
Definition inc_nUnsatisfiedInterests (c : Counters) : Counters :=
  mkCounters (nInInterests c) (nOutInterests c) (nInData c) (nOutData c) (nInNacks c) (nOutNacks c)
    (nSatisfiedInterests c) (nUnsatisfiedInterests c + 1) (nUnsolicitedData c) (nCsHits c) (nCsMisses c).
Definition inc_nUnsolicitedData (c : Counters) : Counters :=
  mkCounters (nInInterests c) (nOutInterests c) (nInData c) (nOutData c) (nInNacks c) (nOutNacks c)
    (nSatisfiedInterests c) (nUnsatisfiedInterests c) (nUnsolicitedData c + 1) (nCsHits c) (nCsMisses c).
Definition inc_nCsHits (c : Counters) : Counters :=
  mkCounters (nInInterests c) (nOutInterests c) (nInData c) (nOutData c) (nInNacks c) (nOutNacks c)
    (nSatisfiedInterests c) (nUnsatisfiedInterests c) (nUnsolicitedData c) (nCsHits c + 1) (nCsMisses c).
Definition inc_nCsMisses (c : Counters) : Counters :=
  mkCounters (nInInterests c) (nOutInterests c) (nInData c) (nOutData c) (nInNacks c) (nOutNacks c)
    (nSatisfiedInterests c) (nUnsatisfiedInterests c) (nUnsolicitedData c) (nCsHits c) (nCsMisses c + 1).

(** What the forwarder is run with: the two CityHash functions (any functions
    will do), the random source with a bound on the draws of a token, and the
    order in which an [unordered_set] of faces is visited. *)
Class Environment := {
  HashFunc : Component → Z;
  cityHash64WithSeed : list Z → Z → Z;
  randomWord : nat → Z;
  tokenFuel : nat;
  unorderedFaces : list FaceRef → list FaceRef
}.

(** ** Outgoing pipelines *)

Section outgoing.
Context {Env : Environment} {Q : Type} {Pol : CsPolicy Q}.
Abbreviation FW := (M (Forwarder Q)).

(** [Interest::getNonce]: an absent Nonce is drawn and kept. *)
Definition getNonce (r : InterestRef) : FW Z :=
  i ← interestOf r;
  match i_nonce i with
  | Some n => mret n
  | None =>
      s ← get;
      let n := u32 (randomWord (fw_drawn s)) in
      put (set_fw_drawn (S (fw_drawn s)) s);;
      changeInterest r (set_i_nonce (Some n));;
      mret n
  end.

(** [setPitToken(value)] stored as the tag of the Interest. *)
Definition tagPitToken (r : InterestRef) (value : Z) : FW unit :=
  t ← lift (setPitToken value);
  changeInterest r (set_i_pitTokenTag (Some t)).

(** [pitEntry->insertOrUpdateOutRecord(egress, interest)] with its assertion. *)
Definition addOutRecord (p : PitRef) (egress : FaceRef) (r : InterestRef) : FW unit :=
  pe ← pitEntryOf p;
  mine ← interestOf (pe_interest pe);
  i ← interestOf r;
  b ← lift (canMatch mine i 0);
  assertM b;;
  nonce ← getNonce r;
  t ← now;
  changePitEntry p (insertOrUpdateOutRecord t egress nonce (i_lifetime i)).
Definition addInRecord (p : PitRef) (ingress : FaceRef) (r : InterestRef) : FW unit :=
  pe ← pitEntryOf p;
  mine ← interestOf (pe_interest pe);
  i ← interestOf r;
  b ← lift (canMatch mine i 0);
  assertM b;;
  nonce ← getNonce r;
  t ← now;
  changePitEntry p (insertOrUpdateInRecord t ingress r nonce (i_lifetime i)).

(** [egress.sendInterest(interest)]. *)
Definition sendOnFace (egress : FaceRef) (r : InterestRef) : FW unit :=
  i ← interestOf r; emit (SendInterest egress i);; count inc_nOutInterests.

(** [Forwarder::onOutgoingInterest]; the result says whether an out-record is
    returned. *)
Definition onOutgoingInterest (r : InterestRef) (egress : FaceRef) (p : PitRef) : FW bool :=
  i ← interestOf r;
  face ← getFace egress;
  if bool_decide (i_hopLimit i = Some 0) && bool_decide (face_scope face = FACE_SCOPE_NON_LOCAL)
  then setFace egress inc_nOutHopLimitZero;; mret false
  else
    fromProducer ← lift (isReflexiveInterestFromProducer i);
    if fromProducer : bool then
      pe ← pitEntryOf p;
      original ← interestOf (pe_interest pe);
      s ← get;
      tagPitToken r (nameToPrevToken (fw_assist s) (i_name original)).1;;
      i ← interestOf r;
      p2 ← onStore (Pit_find HashFunc i);
      p2 ← deref p2;
      addOutRecord p2 egress r;;
      sendOnFace egress r;;
      mret true
    else
      (if isReflexiveInterest i
       then s ← get; tagPitToken r (nameToToken (fw_assist s) (i_name i)).1
       else mret tt);;
      addOutRecord p egress r;;
      sendOnFace egress r;;
      mret true.

(** [Forwarder::setExpiryTimer], the duration in milliseconds. *)
Definition setExpiryTimer (p : PitRef) (duration : Z) : FW unit :=
  t ← now;
  changePitEntry p (set_pe_expiryTimer (Some (t + ms (Z.max duration 0)))).

(** [Forwarder::onOutgoingData]. *)
Definition onOutgoingData (d : Data) (egress : FaceRef) : FW bool :=
  face ← getFace egress;
  if bool_decide (face_id face = INVALID_FACEID) then mret false
  else if bool_decide (face_scope face = FACE_SCOPE_NON_LOCAL) && isPrefixOf LOCALHOST (d_name d)
  then mret false
  else emit (SendData egress d);; count inc_nOutData;; mret true.

(** [Forwarder::onOutgoingNack]. *)
Definition onOutgoingNack (reason : NackReason) (egress : FaceRef) (p : PitRef) : FW bool :=
  face ← getFace egress;
  if bool_decide (face_id face = INVALID_FACEID) then mret false
  else
    pe ← pitEntryOf p;
    match getInRecord pe egress with
    | None => mret false
    | Some inRecord =>
        if bool_decide (face_linkType face ≠ LINK_TYPE_POINT_TO_POINT) then mret false
        else
          i ← interestOf (in_interest inRecord);
          changePitEntry p (deleteInRecord egress);;
          emit (SendNack egress (mkNack i reason));;
          count inc_nOutNacks;;
          mret true
    end.

(** ** The base class of strategies *)

(** [Strategy::sendInterest]: with a PIT token, a copy of the Interest without
    it is sent. *)
Definition sendInterest (r : InterestRef) (egress : FaceRef) (p : PitRef) : FW bool :=
  i ← interestOf r;
  match i_pitTokenTag i with
  | Some _ =>
      r2 ← onStore (newInterest (set_i_pitTokenTag None i));
      onOutgoingInterest r2 egress p
  | None => onOutgoingInterest r egress p
  end.

(** [Strategy::sendData]. *)
Definition sendData (d : Data) (egress : FaceRef) (p : PitRef) : FW bool :=
  pe ← pitEntryOf p;
  mine ← interestOf (pe_interest pe);
  assertM (matchesData mine d);;
  pitToken ← (match getInRecord pe egress with
              | Some inRecord => i ← interestOf (in_interest inRecord); mret (i_pitTokenTag i)
              | None => mret None
              end);
  changePitEntry p (deleteInRecord egress);;
  onOutgoingData (match pitToken with Some t => set_d_pitTokenTag (Some t) d | None => d end) egress.

(** [Strategy::sendDataToAll]. *)
Definition isPendingDownstream (faces : gmap FaceRef Face) (t : Z) (inFace : Face) (rec : InRecord)
  : bool :=
  bool_decide (t < in_expiry rec) &&
  match faces !! in_face rec with
  | Some f => negb (bool_decide (face_id f = face_id inFace) &&
                    bool_decide (face_linkType f ≠ LINK_TYPE_AD_HOC))
  | None => false
  end.
Definition sendDataToAll (d : Data) (p : PitRef) (inFace : FaceRef) : FW unit :=
  pe ← pitEntryOf p;
  face ← getFace inFace;
  s ← get;
  let pendingDownstreams :=
    faceSet (map in_face (List.filter (isPendingDownstream (fw_faces s) (fw_now s) face)
                            (pe_inRecords pe))) in
  forM_ pendingDownstreams (fun f => sendData d f p;; mret tt).

(** [Strategy::sendNacks] with no excluded face. *)
Definition sendNacks (reason : NackReason) (p : PitRef) : FW unit :=
  pe ← pitEntryOf p;
  forM_ (unorderedFaces (remove_dups (map in_face (pe_inRecords pe))))
    (fun f => onOutgoingNack reason f p;; mret tt).

(** [Strategy::lookupFib]. *)
Fixpoint lookupFib_loop (s : Store) (fh : list Name) (fibEntry : option FibEntry) : outcome FibEntry :=
  match fh with
  | [] => match fibEntry with
          | Some fe => if bool_decide (fe_prefix fe = []) then Ok fe else Fault AssertFailed
          | None => Fault AssertFailed
          end
  | delegation :: fh' =>
      let fe := Fib_findLongestPrefixMatch HashFunc s delegation in
      if hasNextHops fe then Ok fe
      else if bool_decide (fe_prefix fe = []) then lookupFib_loop s fh' (Some fe)
      else Fault AssertFailed
  end.
Definition lookupFib (p : PitRef) : FW FibEntry :=
  pe ← pitEntryOf p;
  i ← interestOf (pe_interest pe);
  s ← get;
  match i_forwardingHint i with
  | [] => nte ← deref (pe_nameTreeEntry pe);
          mret (Fib_findLongestPrefixMatch_pit HashFunc (fw_store s) (i_name i) nte)
  | fh => assertM (negb (isInProducerRegion (fw_regions s) fh));;
          lift (lookupFib_loop (fw_store s) fh None)
  end.

(** The triggers of a strategy; Interests and PIT entries by reference. *)
Record Strategy := mkStrategy {
  afterReceiveInterest : InterestRef → FaceRef → PitRef → FW unit;
  afterContentStoreHit : Data → FaceRef → PitRef → FW unit;
  beforeSatisfyInterest : Data → FaceRef → PitRef → FW unit;
  afterReceiveData : Data → FaceRef → PitRef → FW unit;
  afterReceiveNack : Nack → FaceRef → PitRef → FW unit;
  onDroppedInterest : Interest → FaceRef → FW unit;
  afterNewNextHop : NextHop → PitRef → FW unit
}.

(** The base-class triggers. *)
Definition base_beforeSatisfyInterest (d : Data) (ingress : FaceRef) (p : PitRef) : FW unit := mret tt.
Definition base_afterContentStoreHit (d : Data) (ingress : FaceRef) (p : PitRef) : FW unit :=
  sendData d ingress p;; mret tt.
Definition base_afterReceiveData (d : Data) (ingress : FaceRef) (p : PitRef) : FW unit :=
  base_beforeSatisfyInterest d ingress p;; sendDataToAll d p ingress.
Definition base_onDroppedInterest (i : Interest) (egress : FaceRef) : FW unit := mret tt.
Definition base_afterNewNextHop (nextHop : NextHop) (p : PitRef) : FW unit := mret tt.

(** ** The best-route strategy *)

Definition noNextHop (ingress : FaceRef) (p : PitRef) : FW unit :=
  onOutgoingNack Nack_NO_ROUTE ingress p;; setExpiryTimer p 0.

Definition br_afterReceiveInterest (rs : RetxSuppressionExponential) (r : InterestRef)
    (ingress : FaceRef) (p : PitRef) : FW unit :=
  i ← interestOf r;
  fromProducer ← lift (isReflexiveInterestFromProducer i);
  if fromProducer : bool then
    lookupFib p;;
    pe ← pitEntryOf p;
    match pe_inRecords pe with
    | [] => noNextHop ingress p
    | it :: _ => sendInterest r (in_face it) p;; mret tt
    end
  else
    pe ← pitEntryOf p;
    t ← now;
    '(suppression, pe') ← lift (decidePerPitEntry rs t pe);
    changePitEntry p (fun _ => pe');;
    match suppression with
    | RETX_SUPPRESS => mret tt
    | RETX_NEW =>
        fe ← lookupFib p;
        inFace ← getFace ingress;
        s ← get;
        match List.find (fun nh => isNextHopEligible (fw_faces s) inFace i nh pe' false 0)
                (fe_nextHops fe) with
        | None => noNextHop ingress p
        | Some nh => sendInterest r (nh_face nh) p;; mret tt
        end
    | RETX_FORWARD =>
        fe ← lookupFib p;
        inFace ← getFace ingress;
        s ← get;
        match List.find (fun nh => isNextHopEligible (fw_faces s) inFace i nh pe' true t)
                (fe_nextHops fe) with
        | Some nh => sendInterest r (nh_face nh) p;; mret tt
        | None =>
            nh ← lift (findEligibleNextHopWithEarliestOutRecord (fw_faces s) inFace i
                         (fe_nextHops fe) pe');
            match nh with
            | None => mret tt
            | Some nh => sendInterest r (nh_face nh) p;; mret tt
            end
        end
    end.

Definition br_afterReceiveNack (n : Nack) (ingress : FaceRef) (p : PitRef) : FW unit :=
  pe ← pitEntryOf p;
  action ← lift (processNack pe);
  match action with
  | NackTo f reason => onOutgoingNack reason f p;; mret tt
  | NackWait => mret tt
  | NackAll reason => sendNacks reason p
  end.

Definition BestRouteStrategy (rs : RetxSuppressionExponential) : Strategy :=
  mkStrategy (br_afterReceiveInterest rs) base_afterContentStoreHit base_beforeSatisfyInterest
    base_afterReceiveData br_afterReceiveNack base_onDroppedInterest base_afterNewNextHop.
End outgoing.

(** ** Incoming pipelines *)

Section incoming.
Context {Env : Environment} {Q : Type} {Pol : CsPolicy Q}.
(** The strategy instances. *)
Context (strategy : StrategyRef → Strategy (Q := Q)).
Abbreviation FW := (M (Forwarder Q)).

(** [StrategyChoice::findEffectiveStrategy] for a PIT entry and for a name. *)
Definition nteHasStrategyChoiceEntry (n : Name) (e : Entry NTables) : bool :=
  match t_sc (e_tables e) with Some _ => true | None => false end.
Definition strategyAt (nte : option Name) : FW (Strategy (Q := Q)) :=
  match nte with
  | None => raise AssertFailed
  | Some n => s ← get;
              st ← deref (t_sc (tablesAt (st_nameTree (fw_store s)) n));
              mret (strategy st)
  end.
Definition findEffectiveStrategy (p : PitRef) : FW (Strategy (Q := Q)) :=
  pe ← pitEntryOf p;
  i ← interestOf (pe_interest pe);
  nte ← deref (pe_nameTreeEntry pe);
  s ← get;
  strategyAt (findLongestPrefixMatch_pit HashFunc (st_nameTree (fw_store s))
                nteHasStrategyChoiceEntry (i_name i) nte).
Definition findEffectiveStrategy_name (n : Name) : FW (Strategy (Q := Q)) :=
  s ← get;
  strategyAt (findLongestPrefixMatch HashFunc (st_nameTree (fw_store s)) nteHasStrategyChoiceEntry n).

(** [Forwarder::insertDeadNonceList]; [upstream] is null as [None]. *)
Definition insertDeadNonceList (p : PitRef) (upstream : option FaceRef) : FW unit :=
  pe ← pitEntryOf p;
  i ← interestOf (pe_interest pe);
  s ← get;
  needDnl ← (if pe_isSatisfied pe then
               assertM (bool_decide (0 ≤ pe_dataFreshnessPeriod pe));;
               mret (i_mustBeFresh i &&
                     bool_decide (i64 (ms (pe_dataFreshnessPeriod pe)) < dnl_lifetime (fw_dnl s)))
             else mret true);
  if negb needDnl then mret tt
  else
    match upstream with
    | None =>
        forM_ (pe_outRecords pe) (fun rec =>
          onDnl (fun d => dnl_add cityHash64WithSeed d (i_name i) (out_lastNonce rec)))
    | Some f =>
        match getOutRecord pe f with
        | Some rec => onDnl (fun d => dnl_add cityHash64WithSeed d (i_name i) (out_lastNonce rec))
        | None => mret tt
        end
    end.

(** [Forwarder::onInterestLoop]. *)
Definition onInterestLoop (r : InterestRef) (ingress : FaceRef) : FW unit :=
  face ← getFace ingress;
  if bool_decide (face_linkType face ≠ LINK_TYPE_POINT_TO_POINT) then mret tt
  else
    i ← interestOf r;
    emit (SendNack ingress (mkNack i Nack_DUPLICATE));;
    count inc_nOutNacks.

(** Attach the default HopLimit, insert the in-record and set the expiry timer
    to the latest in-record: the common part of [onSendingRI] and
    [onContentStoreMiss]. *)
Definition attachDefaultHopLimit (r : InterestRef) : FW unit :=
  i ← interestOf r;
  s ← get;
  if bool_decide (0 < fw_defaultHopLimit s) && bool_decide (i_hopLimit i = None)
  then changeInterest r (set_i_hopLimit (Some (fw_defaultHopLimit s))) else mret tt.
Definition lastExpiry (pe : PitEntry) : option Z :=
  match pe_inRecords pe with
  | [] => None
  | rec :: l => Some (foldl (fun m rec => Z.max m (in_expiry rec)) (in_expiry rec) l)
  end.
Definition acceptInterest (r : InterestRef) (ingress : FaceRef) (p : PitRef) : FW unit :=
  attachDefaultHopLimit r;;
  addInRecord p ingress r;;
  pe ← pitEntryOf p;
  expiry ← deref (lastExpiry pe);
  t ← now;
  setExpiryTimer p (Z.quot (i64 (expiry - t)) 1000000).

(** A Nack sent outside the outgoing Nack pipeline. *)
Definition sendNackDirect (reason : NackReason) (r : InterestRef) (ingress : FaceRef) : FW unit :=
  i ← interestOf r;
  emit (SendNack ingress (mkNack i reason));;
  count inc_nOutNacks.

(** [Forwarder::onSendingRI]. *)
Definition onSendingRI (r : InterestRef) (ingress : FaceRef) (p : PitRef) : FW unit :=
  i ← interestOf r;
  pitToken ← (match i_pitTokenTag i with None => mret 0 | Some t => lift (readPitToken t) end);
  if bool_decide (pitToken = 0) then sendNackDirect Nack_NONE r ingress
  else
    s ← get;
    match tokenToName (fw_assist s) pitToken with
    | (_, false) => sendNackDirect Nack_NO_ROUTE r ingress
    | (originalInterestname, true) =>
        match findBasedOnName HashFunc (fw_store s) originalInterestname with
        | None => mret tt
        | Some pitEntry_original =>
            match nameToPrevToken (fw_assist s) originalInterestname with
            | (_, false) => mret tt
            | (prevPitToken, true) =>
                tagPitToken r prevPitToken;;
                acceptInterest r ingress p;;
                st ← findEffectiveStrategy p;
                afterReceiveInterest st r ingress pitEntry_original
            end
        end
    end.

(** [FaceTable::get]. *)
Definition faceTable_get (faces : gmap FaceRef Face) (id : Z) : option FaceRef :=
  if bool_decide (id = INVALID_FACEID) then None
  else fst <$> List.find (fun rf => bool_decide (face_id rf.2 = id)) (map_to_list faces).

(** [Forwarder::onContentStoreMiss]. *)
Definition onContentStoreMiss (r : InterestRef) (ingress : FaceRef) (p : PitRef) : FW unit :=
  count inc_nCsMisses;;
  acceptInterest r ingress p;;
  i ← interestOf r;
  match i_nextHopFaceIdTag i with
  | Some id =>
      s ← get;
      match faceTable_get (fw_faces s) id with
      | Some f => onOutgoingInterest r f p;; mret tt
      | None => mret tt
      end
  | None =>
      (if isReflexiveInterest i
       then s ← get; tagPitToken r (nameToToken (fw_assist s) (i_name i)).1
       else mret tt);;
      st ← findEffectiveStrategy p;
      afterReceiveInterest st r ingress p
  end.

(** The Data object of a content-store entry is shared with the store, so
    tagging it changes the stored Data. *)
Definition cs_tagData (k : CsKey) (d : Data) (c : Cs Q) : Cs Q :=
  set_cs (updateFirst (fun e => bool_decide (entryKey e = k))
            (fun e => mkCsEntry d (ce_isUnsolicited e) (ce_freshUntil e)) (cs_table c)) (cs_policy c) c.

(** [Forwarder::onContentStoreHit]. *)
Definition onContentStoreHit (r : InterestRef) (ingress : FaceRef) (p : PitRef) (d : Data) : FW unit :=
  count inc_nCsHits;;
  i ← interestOf r;
  let d := set_d_pitTokenTag (i_pitTokenTag i)
             (set_d_incomingFaceIdTag (Some FACEID_CONTENT_STORE) d) in
  onCs (fun c => Ok (cs_tagData (getFullName d) d c));;
  changePitEntry p (set_pe_satisfied (d_freshnessPeriod d));;
  setExpiryTimer p 0;;
  st ← findEffectiveStrategy p;
  afterContentStoreHit st d ingress p.

(** The [m_cs.find] call of [onIncomingInterest]. *)
Definition lookupContentStore (r : InterestRef) (ingress : FaceRef) (p : PitRef) : FW unit :=
  i ← interestOf r;
  s ← get;
  '(o, c) ← lift (cs_find (fw_now s) i (fw_cs s));
  put (set_fw_cs c s);;
  match o with
  | Some e => onContentStoreHit r ingress p (ce_data e)
  | None => onContentStoreMiss r ingress p
  end.

(** The second half of [onIncomingInterest]: after the PIT entry of an
    Interest that is not the producer's reflexive Interest is known. *)
Definition isDuplicateInPit (face : Face) (dnw : Z) : bool :=
  if bool_decide (face_linkType face = LINK_TYPE_POINT_TO_POINT)
  then bool_decide (dnw ≠ DUPLICATE_NONCE_NONE) &&
       bool_decide (Z.land dnw DUPLICATE_NONCE_IN_SAME = 0)
  else bool_decide (dnw ≠ DUPLICATE_NONCE_NONE).
Definition processInterest (r : InterestRef) (ingress : FaceRef) (p : PitRef) (nonce : Z) : FW unit :=
  i ← interestOf r;
  (if isReflexiveInterest i then
     prevToken ← (match i_pitTokenTag i with None => mret 0 | Some t => lift (readPitToken t) end);
     s ← get;
     if existName (fw_assist s) (i_name i) then mret tt
     else
       '(a, k) ← lift (createName randomWord tokenFuel (fw_assist s) (fw_drawn s) (i_name i) prevToken);
       put (set_fw_assist a k s)
   else mret tt);;
  face ← getFace ingress;
  pe ← pitEntryOf p;
  if isDuplicateInPit face (findDuplicateNonce pe nonce ingress) then onInterestLoop r ingress
  else if negb (hasInRecords pe) then lookupContentStore r ingress p
  else onContentStoreMiss r ingress p.

(** [Forwarder::onIncomingInterest] on a received packet. *)
Definition onIncomingInterest (packet : Interest) (ingress : FaceRef) : FW unit :=
  r ← onStore (newInterest packet);
  face ← getFace ingress;
  changeInterest r (set_i_incomingFaceIdTag (Some (face_id face)));;
  count inc_nInInterests;;
  nonce ← getNonce r;
  if bool_decide (i_hopLimit packet = Some 0) then setFace ingress inc_nInHopLimitZero
  else
    (match i_hopLimit packet with
     | Some h => changeInterest r (set_i_hopLimit (Some (h - 1)))
     | None => mret tt
     end);;
    if bool_decide (face_scope face = FACE_SCOPE_NON_LOCAL) && isPrefixOf LOCALHOST (i_name packet)
    then mret tt
    else
      s ← get;
      if dnl_has cityHash64WithSeed (fw_dnl s) (i_name packet) nonce then onInterestLoop r ingress
      else
        (match i_forwardingHint packet with
         | [] => mret tt
         | fh => if isInProducerRegion (fw_regions s) fh
                 then changeInterest r (set_i_forwardingHint []) else mret tt
         end);;
        i ← interestOf r;
        '(p, _) ← onStore (Pit_insert HashFunc i r);
        p ← deref p;
        fromProducer ← lift (isReflexiveInterestFromProducer i);
        if fromProducer : bool then onSendingRI r ingress p
        else processInterest r ingress p nonce.

(** [Forwarder::onInterestFinalize]. *)
Definition onInterestFinalize (p : PitRef) : FW unit :=
  insertDeadNonceList p None;;
  pe ← pitEntryOf p;
  count (if pe_isSatisfied pe then inc_nSatisfiedInterests else inc_nUnsatisfiedInterests);;
  changePitEntry p (set_pe_expiryTimer None);;
  onStore (Pit_erase HashFunc p true).

(** [Forwarder::onDataUnsolicited]. *)
Definition onDataUnsolicited (d : Data) (ingress : FaceRef) : FW unit :=
  count inc_nUnsolicitedData;;
  face ← getFace ingress;
  s ← get;
  match decideUnsolicited (fw_unsolicited s) face with
  | CACHE => onCs (cs_insert (fw_now s) d true)
  | DROP => mret tt
  end.

(** [Forwarder::onIncomingData]: one matching PIT entry. *)
Definition satisfyOne (d : Data) (ingress : FaceRef) (p : PitRef) : FW unit :=
  setExpiryTimer p 0;;
  st ← findEffectiveStrategy p;
  afterReceiveData st d ingress p;;
  changePitEntry p (set_pe_satisfied (d_freshnessPeriod d));;
  insertDeadNonceList p (Some ingress);;
  changePitEntry p (deleteOutRecord ingress).
(** Several matching PIT entries: the in-record faces that are still waiting
    are collected while the entries are satisfied. *)
Fixpoint satisfyMany (d : Data) (ingress : FaceRef) (ps : list PitRef) (pending : list FaceRef)
  : FW (list FaceRef) :=
  match ps with
  | [] => mret pending
  | p :: ps' =>
      pe ← pitEntryOf p;
      t ← now;
      let waiting := map in_face (List.filter (fun rec => bool_decide (t < in_expiry rec))
                                    (pe_inRecords pe)) in
      setExpiryTimer p 0;;
      st ← findEffectiveStrategy p;
      beforeSatisfyInterest st d ingress p;;
      changePitEntry p (set_pe_satisfied (d_freshnessPeriod d));;
      insertDeadNonceList p (Some ingress);;
      changePitEntry p (fun pe => deleteOutRecord ingress (clearInRecords pe));;
      satisfyMany d ingress ps' (pending ++ waiting)
  end.
Definition sendToDownstream (d : Data) (ingress f : FaceRef) : FW unit :=
  inFace ← getFace ingress;
  face ← getFace f;
  if bool_decide (face_id face = face_id inFace) && bool_decide (face_linkType face ≠ LINK_TYPE_AD_HOC)
  then mret tt
  else onOutgoingData d f;; mret tt.
Definition onIncomingData (packet : Data) (ingress : FaceRef) : FW unit :=
  face ← getFace ingress;
  let d := set_d_incomingFaceIdTag (Some (face_id face)) packet in
  count inc_nInData;;
  if bool_decide (face_scope face = FACE_SCOPE_NON_LOCAL) && isPrefixOf LOCALHOST (d_name d)
  then mret tt
  else
    s ← get;
    match findAllDataMatches HashFunc (fw_store s) d with
    | [] => onDataUnsolicited d ingress
    | [p] => onCs (cs_insert (fw_now s) d false);; satisfyOne d ingress p
    | ps =>
        onCs (cs_insert (fw_now s) d false);;
        pending ← satisfyMany d ingress ps [];
        forM_ (faceSet pending) (sendToDownstream d ingress)
    end.

(** [Forwarder::onIncomingNack].  The Interest in the Nack is a fresh object,
    whose absent Nonce is drawn when it is first read. *)
Definition onIncomingNack (nack : Nack) (ingress : FaceRef) : FW unit :=
  face ← getFace ingress;
  count inc_nInNacks;;
  if bool_decide (face_linkType face ≠ LINK_TYPE_POINT_TO_POINT) then mret tt
  else
    p ← onStore (Pit_find HashFunc (n_interest nack));
    match p with
    | None => mret tt
    | Some p =>
        pe ← pitEntryOf p;
        match getOutRecord pe ingress with
        | None => mret tt
        | Some rec =>
            r ← onStore (newInterest (n_interest nack));
            nonce ← getNonce r;
            if bool_decide (nonce ≠ out_lastNonce rec) then mret tt
            else
              changePitEntry p (fun pe => set_pe_outRecords
                (updateFirst (fun rec => bool_decide (out_face rec = ingress))
                   (fun rec => (setIncomingNack nonce (n_reason nack) rec).1) (pe_outRecords pe)) pe);;
              pe ← pitEntryOf p;
              t ← now;
              (if hasPendingOutRecords t pe then mret tt else setExpiryTimer p 0);;
              st ← findEffectiveStrategy p;
              afterReceiveNack st nack ingress p
        end
    end.

(** [Forwarder::onDroppedInterest]. *)
Definition fw_onDroppedInterest (i : Interest) (egress : FaceRef) : FW unit :=
  st ← findEffectiveStrategy_name (i_name i);
  onDroppedInterest st i egress.

(** A scheduled [onInterestFinalize] runs when its time has come. *)
Definition onTimer (p : PitRef) : FW unit :=
  pe ← pitEntryOf p;
  t ← now;
  match pe_expiryTimer pe with
  | Some deadline => if bool_decide (deadline ≤ t) then onInterestFinalize p else mret tt
  | None => mret tt
  end.

(** [Forwarder::onNewNextHop]: the strategy of every PIT entry in the subtree is
    told, except below names that have FIB entries of their own.  No strategy
    changes the name tree, so the range is evaluated at once. *)
Definition affectedSelector (prefix n : Name) (nte : Entry NTables) : bool * bool :=
  if match t_fib (e_tables nte) with Some _ => true | None => false end &&
     bool_decide (length prefix < length n)%nat
  then (false, false)
  else (match t_pit (e_tables nte) with [] => false | _ => true end, true).
Definition onNewNextHop (prefix : Name) (nextHop : NextHop) : FW unit :=
  s ← get;
  affectedEntries ← lift (partialEnumerate HashFunc (st_nameTree (fw_store s)) prefix (affectedSelector prefix));
  forM_ affectedEntries (fun nte =>
    s ← get;
    forM_ (t_pit (tablesAt (st_nameTree (fw_store s)) nte)) (fun p =>
      st ← findEffectiveStrategy p;
      afterNewNextHop st nextHop p)).

(** [FibManager::addNextHop] after the face of the command is known; the
    result is the response code.  The FIB's signal [afterNewNextHop] is connected to
    [onNewNextHop]. *)
Definition addNextHop (prefix : Name) (faceId : Z) (cost : Z) : FW Z :=
  if bool_decide (getMaxDepth < length prefix)%nat then mret 414
  else
    s ← get;
    match faceTable_get (fw_faces s) faceId with
    | None => mret 410
    | Some face =>
        '(entry, _) ← onStore (Fib_insert HashFunc prefix);
        signal ← onStore (Fib_addOrUpdateNextHop entry face cost);
        (match signal with Some nextHop => onNewNextHop entry nextHop | None => mret tt end);;
        mret 200
    end.

(** [StrategyChoice::setDefaultStrategy], from the constructor of the
    forwarder. *)
Definition setDefaultStrategy (st : StrategyRef) : FW unit :=
  n ← onStore (onNameTree (nt_lookup HashFunc [] 0));
  onStore (onNameTree (updTables n (setStrategySlot (Some st)))).
(** The constructor of the forwarder, with the configured faces, regions,
    default hop limit, policy for unsolicited Data and capacity of the content
    store; the name tree starts with 1024 buckets. *)
Definition Forwarder_new (st : StrategyRef) (faces : gmap FaceRef Face) (regions : list Name)
    (defaultHopLimit : Z) (unsolicited : UnsolicitedDataPolicy) (nMaxPackets : nat)
  : outcome (Forwarder Q) :=
  dnl ← DeadNonceList_init DEFAULT_LIFETIME;
  '(_, s) ← setDefaultStrategy st
    (mkForwarder (Store_init 1024) (Cs_init nMaxPackets) dnl pit_assist_init faces regions
       defaultHopLimit unsolicited Counters_init 0 0 []);
  Ok s.

(** The events of the forwarder: packets, Interests dropped by a link service,
    expiry of a PIT entry, the two timers of the Dead Nonce List, an event scheduled by the policy of the
    content store, a new route, and the passing of time. *)
Inductive Event : Type :=
| EvInterest (i : Interest) (ingress : FaceRef)
| EvData (d : Data) (ingress : FaceRef)
| EvNack (n : Nack) (ingress : FaceRef)
| EvDropped (i : Interest) (egress : FaceRef)
| EvTimer (p : PitRef)
| EvMark
| EvAdjust
| EvPolicy (k : CsKey)
| EvRoute (prefix : Name) (faceId : Z) (cost : Z)
| EvClock (t : Z).
Definition handle (e : Event) : FW unit :=
  match e with
  | EvInterest i f => onIncomingInterest i f
  | EvData d f => onIncomingData d f
  | EvNack n f => onIncomingNack n f
  | EvDropped i f => fw_onDroppedInterest i f
  | EvTimer p => onTimer p
  | EvMark => onDnl (fun d => Ok (dnl_mark d))
  | EvAdjust => onDnl adjustCapacity
  | EvPolicy k => t ← now; onCs (cs_policyEvent t k)
  | EvRoute prefix faceId cost => addNextHop prefix faceId cost;; mret tt
  | EvClock t => modify (fun s => set_fw_now (Z.max (fw_now s) t) s)
  end.
Fixpoint handleAll (es : list Event) : FW unit :=
  match es with [] => mret tt | e :: es' => handle e;; handleAll es' end.
End incoming.
