(* ===== verification/ForwarderInv.v ===== *)
(** * The invariant of the forwarder

    The state the pipelines keep, the frame every outgoing pipeline and every
    strategy respects, and the promises of the outgoing pipelines.  The interface
    [StrategyLaws] at the end is what the incoming pipelines rely on. *)

From S2P Require Import Prelude Tlv Component Name Packet PitAssist Hashtable NameTree Face FibEntry.
From S2P Require Import PitEntry Store Pit Fib DeadNonceList Cs Algorithm Forwarder.
Local Open Scope Z_scope.

(** ** Fields that never change *)

(** Faces up to their counters. *)
Definition sameFace (x y : Face) : Prop :=
  face_id x = face_id y ∧ face_scope x = face_scope y ∧ face_linkType x = face_linkType y.
(** Interests up to Nonce, HopLimit and tags. *)
Definition sameCore (i j : Interest) : Prop :=
  sameKey i j ∧ i_forwardingHint i = i_forwardingHint j ∧
  i_nextHopFaceIdTag i = i_nextHopFaceIdTag j.

Lemma sameCore_refl i : sameCore i i.
Proof. done. Qed.
Lemma sameCore_trans i j k : sameCore i j → sameCore j k → sameCore i k.
Proof. unfold sameCore, sameKey. naive_solver congruence. Qed.
Lemma sameKey_fromProducer i j :
  sameKey i j → isReflexiveInterestFromProducer i = isReflexiveInterestFromProducer j.
Proof. intros (E & _). unfold isReflexiveInterestFromProducer. by rewrite E. Qed.
Lemma sameKey_matchesData i j d : sameKey i j → matchesData i d = matchesData j d.
Proof. intros (E1 & E2 & E3). unfold matchesData. by rewrite E1, E2, E3. Qed.

(** ** Invariant *)

(** What a face was told to send: Data in scope, on an open face; no Interest
    with an exhausted hop limit on a non-local face. *)
Definition output_ok (faces : gmap FaceRef Face) (o : Output) : Prop :=
  match o with
  | SendInterest f i => ∃ face, faces !! f = Some face ∧
      (i_hopLimit i = Some 0 → face_scope face = FACE_SCOPE_LOCAL)
  | SendData f d => ∃ face, faces !! f = Some face ∧ face_id face ≠ INVALID_FACEID ∧
      (LOCALHOST `prefix_of` d_name d → face_scope face = FACE_SCOPE_LOCAL)
  | SendNack f n => is_Some (faces !! f)
  end.

(** A PIT entry with respect to the faces. *)
Record entry_fw (faces : gmap FaceRef Face) (pe : PitEntry) : Prop := {
  ef_in : ∀ rec, rec ∈ pe_inRecords pe → is_Some (faces !! in_face rec);
  ef_out : ∀ rec, rec ∈ pe_outRecords pe → is_Some (faces !! out_face rec);
  ef_fresh : pe_isSatisfied pe = true → 0 ≤ pe_dataFreshnessPeriod pe;
  ef_timer : is_Some (pe_expiryTimer pe) → is_Some (pe_nameTreeEntry pe)
}.

(** The iteration order of an [unordered_set] is some order of its elements. *)
Class EnvironmentLaws (Env : Environment) : Prop := {
  unorderedFaces_perm : ∀ l, NoDup l → unorderedFaces l ≡ₚ l
}.

(** An Interest in the PIT: its forwarding hint does not name the producer region
    of this forwarder, and the test for reflexive Interests does not throw. *)
Definition storable (regions : list Name) (i : Interest) : Prop :=
  isInProducerRegion regions (i_forwardingHint i) = false ∧ ∃ b, isReflexiveInterestFromProducer i = Ok b.

Section inv.
Context {Env : Environment} {Q : Type} {Pol : CsPolicy Q} {Laws : CsPolicyLaws Q}.
Abbreviation FW := (M (Forwarder Q)).
Abbreviation pits s := (st_pits (fw_store s)).
Abbreviation interests s := (st_interests (fw_store s)).
Abbreviation tree s := (st_nameTree (fw_store s)).

Record fw_inv (s : Forwarder Q) : Prop := {
  fi_pit : pit_inv HashFunc (fw_store s);
  fi_fib : fib_inv HashFunc (fw_store s);
  fi_hops : ∀ n fe, fibSlot (fw_store s) n = Some fe →
    (n ≠ [] → fe_nextHops fe ≠ []) ∧ ∀ nh, nh ∈ fe_nextHops fe → is_Some (fw_faces s !! nh_face nh);
  fi_noEmpty : noEmpty (tree s);
  fi_strategy : is_Some (t_sc (tablesAt (tree s) []));
  fi_entry : ∀ p pe, pits s !! p = Some pe → entry_fw (fw_faces s) pe;
  fi_region : ∀ p pe i, pits s !! p = Some pe → interests s !! pe_interest pe = Some i →
    storable (fw_regions s) i;
  fi_cs : cs_inv (fw_cs s);
  fi_csFresh : ∀ e, e ∈ cs_table (fw_cs s) → 0 ≤ d_freshnessPeriod (ce_data e);
  fi_dnl : dnl_inv (fw_dnl s);
  fi_assist : assist_inv (fw_assist s);
  fi_output : ∀ o, o ∈ fw_output s → output_ok (fw_faces s) o
}.

(** The frame: what every outgoing pipeline and every strategy leaves alone.
    PIT entries are neither created nor erased. *)
Record ext (s s' : Forwarder Q) : Prop := {
  ex_tree : tree s' = tree s;
  ex_faces : ∀ f x, fw_faces s !! f = Some x → ∃ x', fw_faces s' !! f = Some x' ∧ sameFace x x';
  ex_interests : ∀ r i, interests s !! r = Some i → ∃ i', interests s' !! r = Some i' ∧ sameCore i i';
  ex_pits : ∀ p pe, pits s !! p = Some pe → ∃ pe', pits s' !! p = Some pe' ∧
    pe_interest pe' = pe_interest pe ∧ pe_nameTreeEntry pe' = pe_nameTreeEntry pe;
  ex_now : fw_now s' = fw_now s;
  ex_regions : fw_regions s' = fw_regions s
}.

#[export] Instance ext_refl : Reflexive ext.
Proof.
  intros s. split; try done.
  - intros f x Hf. by exists x.
  - intros r i Hi. exists i. split; [done|apply sameCore_refl].
  - intros p pe Hp. by exists pe.
Qed.
#[export] Instance ext_trans : Transitive ext.
Proof.
  intros a b c [A1 A2 A3 A4 A5 A6] [B1 B2 B3 B4 B5 B6]. split; try congruence.
  - intros f x (y & Hy & Hxy)%A2. destruct (B2 _ _ Hy) as (z & Hz & Hyz). exists z. split; [done|].
    unfold sameFace in *. naive_solver congruence.
  - intros r i (j & Hj & Hij)%A3. destruct (B3 _ _ Hj) as (k & Hk & Hjk). exists k.
    split; [done|]. by eapply sameCore_trans.
  - intros p pe (pe' & Hp & ? & ?)%A4. destruct (B4 _ _ Hp) as (pe2 & ? & ? & ?). exists pe2.
    split; [done|]. split; congruence.
Qed.

Lemma ext_eq s s' :
  fw_store s' = fw_store s → fw_faces s' = fw_faces s → fw_now s' = fw_now s →
  fw_regions s' = fw_regions s → ext s s'.
Proof.
  intros E1 E2 E3 E4. split; rewrite ?E1, ?E2; try done.
  - intros f x Hf. by exists x.
  - intros r i Hi. exists i. split; [done|apply sameCore_refl].
  - intros p pe Hp. by exists pe.
Qed.

(** An attached entry and its Interest. *)
Definition entryOf (s : Forwarder Q) (p : PitRef) (i : Interest) : Prop :=
  ∃ n, attached (fw_store s) p n ∧ pitInterest (fw_store s) p = Some i.

Lemma ext_entryOf s s' p i : ext s s' → entryOf s p i → ∃ i', entryOf s' p i' ∧ sameCore i i'.
Proof.
  intros He (n & (pe & Hp & Hn) & Hi). destruct (ex_pits _ _ He _ _ Hp) as (pe' & Hp' & E1 & E2).
  unfold pitInterest in Hi. rewrite Hp in Hi. simpl in Hi.
  destruct (ex_interests _ _ He _ _ Hi) as (i' & Hi' & Hc). exists i'. split; [|done].
  exists n. split.
  - exists pe'. split; [done|congruence].
  - unfold pitInterest. rewrite Hp'. simpl. by rewrite E1.
Qed.
Lemma ext_face s s' f : ext s s' → is_Some (fw_faces s !! f) → is_Some (fw_faces s' !! f).
Proof. intros He [x (x' & ? & _)%(ex_faces _ _ He)]. eauto. Qed.
Lemma ext_interest s s' r : ext s s' → is_Some (interests s !! r) → is_Some (interests s' !! r).
Proof. intros He [x (x' & ? & _)%(ex_interests _ _ He)]. eauto. Qed.

Lemma output_ok_faces (m m' : gmap FaceRef Face) o :
  (∀ f x, m !! f = Some x → ∃ x', m' !! f = Some x' ∧ sameFace x x') →
  output_ok m o → output_ok m' o.
Proof.
  intros Hm. destruct o as [f i|f d|f n]; simpl.
  - intros (x & (x' & Hx' & _ & E & _)%Hm & H). exists x'. split; [done|]. by rewrite <-E.
  - intros (x & (x' & Hx' & E1 & E2 & _)%Hm & H1 & H2). exists x'.
    split; [done|]. rewrite <-E1, <-E2. done.
  - intros [x (x' & ? & _)%Hm]. eauto.
Qed.
Lemma entry_fw_faces (m m' : gmap FaceRef Face) pe :
  (∀ f, is_Some (m !! f) → is_Some (m' !! f)) → entry_fw m pe → entry_fw m' pe.
Proof. intros Hm [H1 H2 H3 H4]. split; eauto. Qed.

(** ** Primitive steps *)

(** A change of the store that keeps the name tree and the set of entries. *)
Lemma store_step s st' :
  fw_inv s → pit_inv HashFunc st' →
  st_nameTree st' = tree s → st_fibItems st' = st_fibItems (fw_store s) →
  (∀ p pe', st_pits st' !! p = Some pe' →
     entry_fw (fw_faces s) pe' ∧ ∃ pe, pits s !! p = Some pe ∧ pe_interest pe' = pe_interest pe) →
  (∀ p pe, pits s !! p = Some pe → ∃ pe', st_pits st' !! p = Some pe' ∧
     pe_interest pe' = pe_interest pe ∧ pe_nameTreeEntry pe' = pe_nameTreeEntry pe) →
  (∀ r i, interests s !! r = Some i → ∃ i', st_interests st' !! r = Some i' ∧ sameCore i i') →
  fw_inv (set_fw_store st' s) ∧ ext s (set_fw_store st' s).
Proof.
  intros Hi Hpit Ht Hf He Hp Hin. assert (ext s (set_fw_store st' s)) as Hext.
  { split; try done. intros f x Hx. by exists x. }
  split; [|done]. destruct Hi as [A1 A2 A3 A4 A5 A6 A7 A8 A9 A10 A11 A12].
  split; cbn [fw_store fw_faces fw_cs fw_dnl fw_assist fw_output fw_regions set_fw_store]; try done.
  - destruct A2 as [B1 B2 B3]. unfold fibSlot in *. split; unfold fibSlot; rewrite ?Ht, ?Hf; done.
  - unfold fibSlot in *. by rewrite Ht.
  - by rewrite Ht.
  - by rewrite Ht.
  - intros p pe' (? & _)%He. done.
  - intros p pe' i' Hp' Hi'. destruct (He _ _ Hp') as (_ & pe & Hpe & E). rewrite E in Hi'.
    destruct (eo_interest _ _ (pi_entry _ _ A1 _ _ Hpe)) as [i Hi0].
    destruct (Hin _ _ Hi0) as (i2 & Hi2 & Hk & Eh & _). rewrite Hi2 in Hi'. injection Hi' as <-.
    unfold storable. rewrite <-Eh, <-(sameKey_fromProducer i i2 Hk). by eapply A7.
Qed.

Lemma wp_interestOf r i (R : Interest → Forwarder Q → Prop) s :
  interests s !! r = Some i → R i s → wp (interestOf r) R s.
Proof.
  intros Hr HR. apply wp_zoom. unfold getInterest. apply wp_bind, wp_get.
  eapply wp_deref; [done|]. by destruct s.
Qed.
Lemma wp_pitEntryOf p pe (R : PitEntry → Forwarder Q → Prop) s :
  pits s !! p = Some pe → R pe s → wp (pitEntryOf p) R s.
Proof.
  intros Hr HR. apply wp_zoom. unfold getPitEntry. apply wp_bind, wp_get.
  eapply wp_deref; [done|]. by destruct s.
Qed.
Lemma wp_getFace f x (R : Face → Forwarder Q → Prop) s :
  fw_faces s !! f = Some x → R x s → wp (getFace f) R s.
Proof. intros Hf HR. apply wp_bind, wp_get. by eapply wp_deref. Qed.

(** The parts of the state that a step on the store leaves alone. *)
Definition sameTables (s s' : Forwarder Q) : Prop :=
  fw_cs s' = fw_cs s ∧ fw_dnl s' = fw_dnl s ∧ fw_assist s' = fw_assist s ∧
  fw_defaultHopLimit s' = fw_defaultHopLimit s.

Lemma wp_changeInterest r i f (R : unit → Forwarder Q → Prop) s :
  fw_inv s → interests s !! r = Some i → sameCore i (f i) →
  (∀ s', fw_inv s' → ext s s' → sameTables s s' → fw_faces s' = fw_faces s →
     fw_drawn s' = fw_drawn s →
     pits s' = pits s → interests s' = <[r := f i]> (interests s) → R tt s') →
  wp (changeInterest r f) R s.
Proof.
  intros Hi Hr Hc HR. apply wp_zoom. eapply wp_run; [by apply setInterest_Ok|]. cbv beta.
  assert (∀ r' j, interests s !! r' = Some j → ∃ i', <[r := f i]> (interests s) !! r' = Some i' ∧ sameCore j i')
    as Hint.
  { intros r' j Hj. rewrite lookup_insert. case_decide as E; [|by exists j].
    subst r'. assert (j = i) as -> by congruence. by exists (f i). }
  edestruct (store_step s (set_st_interests (<[r:=f i]> (interests s)) (fw_store s))) as [Hi' He]; try done.
  - apply pit_inv_interest; [apply Hi|]. intros i0 Hi0. assert (i0 = i) as -> by congruence. apply Hc.
  - intros p pe Hp. split; [by eapply fi_entry|]. by exists pe.
  - intros p pe Hp. by exists pe.
  - by apply HR.
Qed.

Lemma wp_changePitEntry p pe f (R : unit → Forwarder Q → Prop) s :
  fw_inv s → pits s !! p = Some pe →
  pe_interest (f pe) = pe_interest pe → pe_nameTreeEntry (f pe) = pe_nameTreeEntry pe →
  entry_ok (fw_store s) (f pe) → entry_fw (fw_faces s) (f pe) →
  (∀ s', fw_inv s' → ext s s' → sameTables s s' → fw_faces s' = fw_faces s →
     fw_output s' = fw_output s →
     pits s' = <[p := f pe]> (pits s) → interests s' = interests s → R tt s') →
  wp (changePitEntry p f) R s.
Proof.
  intros Hi Hp E1 E2 Hok Hfw HR. apply wp_zoom. eapply wp_run; [by apply setPitEntry_Ok|]. cbv beta.
  edestruct (store_step s (set_st_pits (<[p:=f pe]> (pits s)) (fw_store s))) as [Hi' He]; try done.
  - eapply pit_inv_entry; [apply Hi|done..].
  - intros p' pe'. cbn [st_pits set_st_pits]. rewrite lookup_insert. case_decide as E.
    + intros [= <-]. subst p'. eauto.
    + intros Hp'. split; [by eapply fi_entry|]. eauto.
  - intros p' pe' Hp'. cbn [st_pits set_st_pits]. rewrite lookup_insert. case_decide as E; [|eauto].
    subst p'. assert (pe' = pe) as -> by congruence. eauto.
  - intros r i Hr. exists i. split; [done|apply sameCore_refl].
  - by apply HR.
Qed.

Lemma wp_newInterest i (R : InterestRef → Forwarder Q → Prop) s :
  fw_inv s →
  (∀ r s', fw_inv s' → ext s s' → sameTables s s' → fw_faces s' = fw_faces s →
     fw_drawn s' = fw_drawn s →
     pits s' = pits s → interests s !! r = None → interests s' = <[r := i]> (interests s) → R r s') →
  wp (onStore (newInterest i)) R s.
Proof.
  intros Hi HR. apply wp_zoom. unfold newInterest. apply wp_bind, wp_get. set (r := fresh _).
  apply wp_bind, wp_put, wp_ret.
  assert (interests s !! r = None) as Hr by (apply not_elem_of_dom, is_fresh).
  edestruct (store_step s (set_st_interests (<[r:=i]> (interests s)) (fw_store s))) as [Hi' He]; try done.
  - apply pit_inv_interest; [apply Hi|]. by rewrite Hr.
  - intros p pe Hp. split; [by eapply fi_entry|]. by exists pe.
  - intros p pe Hp. by exists pe.
  - intros r' j Hj. exists j. split; [|apply sameCore_refl]. cbn [st_interests set_st_interests].
    rewrite lookup_insert_ne; [done|]. congruence.
  - by apply HR.
Qed.

(** Steps outside the store. *)
Lemma wp_count f (R : unit → Forwarder Q → Prop) s :
  fw_inv s →
  (∀ s', fw_inv s' → ext s s' → sameTables s s' → fw_faces s' = fw_faces s →
     fw_drawn s' = fw_drawn s → fw_store s' = fw_store s → R tt s') →
  wp (count f) R s.
Proof.
  intros Hi HR. apply wp_modify. apply HR; [..|done|done|done|done].
  - destruct Hi. by split.
  - by apply ext_eq.
Qed.
Lemma wp_emit o (R : unit → Forwarder Q → Prop) s :
  fw_inv s → output_ok (fw_faces s) o →
  (∀ s', fw_inv s' → ext s s' → sameTables s s' → fw_faces s' = fw_faces s →
     fw_store s' = fw_store s → R tt s') →
  wp (emit o) R s.
Proof.
  intros Hi Ho HR. apply wp_modify. apply HR; [..|done|done|done].
  - destruct Hi. split; try done. cbn [fw_output set_fw_output fw_faces].
    intros o' [?|Ho']%elem_of_app; [auto|]. by apply list_elem_of_singleton in Ho' as ->.
  - by apply ext_eq.
Qed.
Lemma wp_setFace f x g (R : unit → Forwarder Q → Prop) s :
  fw_inv s → fw_faces s !! f = Some x → sameFace x (g x) →
  (∀ s', fw_inv s' → ext s s' → sameTables s s' → fw_store s' = fw_store s → R tt s') →
  wp (setFace f g) R s.
Proof.
  intros Hi Hf Hg HR. apply wp_bind. eapply wp_getFace; [done|]. apply wp_modify.
  assert (∀ f' y, fw_faces s !! f' = Some y → ∃ y', <[f := g x]> (fw_faces s) !! f' = Some y' ∧ sameFace y y')
    as Hm.
  { intros f' y Hy. rewrite lookup_insert. case_decide; [|by exists y]. subst f'.
    assert (y = x) as -> by congruence. eauto. }
  apply HR; [..|done|done].
  - destruct Hi. split; cbn [fw_store fw_faces fw_cs fw_dnl fw_assist fw_output fw_regions set_fw_faces];
      try done.
    + intros n fe Hs. destruct (fi_hops0 n fe Hs) as [? Hl]. split; [done|]. intros nh Hnh.
      destruct (Hl nh Hnh) as [y (? & ? & _)%Hm]. eauto.
    + intros p pe Hp. eapply entry_fw_faces; [|by eauto]. intros f' [y (? & ? & _)%Hm]. eauto.
    + intros o Ho. eapply output_ok_faces; eauto.
  - split; try done.
    + intros r i Hr. exists i. split; [done|apply sameCore_refl].
    + intros p pe Hp. by exists pe.
Qed.
Lemma wp_setDrawn k (R : unit → Forwarder Q → Prop) s :
  fw_inv s →
  (∀ s', fw_inv s' → ext s s' → sameTables s s' → fw_faces s' = fw_faces s →
     fw_drawn s' = k → fw_store s' = fw_store s → R tt s') →
  wp (put (set_fw_drawn k s)) R s.
Proof.
  intros Hi HR. apply wp_put. apply HR; [..|done|done|done|done].
  - destruct Hi. by split.
  - by apply ext_eq.
Qed.

(** Steps that also keep the other tables, the faces and every hop limit. *)
Record quiet (s s' : Forwarder Q) : Prop := {
  q_ext : ext s s';
  q_tables : sameTables s s';
  q_faces : fw_faces s' = fw_faces s;
  q_hops : ∀ r i, interests s !! r = Some i →
    ∃ i', interests s' !! r = Some i' ∧ sameCore i i' ∧ i_hopLimit i' = i_hopLimit i
}.
#[export] Instance quiet_refl : Reflexive quiet.
Proof. intros s. split; try done. intros r i Hi. exists i. split; [done|]. by split. Qed.
#[export] Instance quiet_trans : Transitive quiet.
Proof.
  intros a b c [A1 (A2 & A3 & A4 & A5) A6 A7] [B1 (B2 & B3 & B4 & B5) B6 B7].
  split; [by trans b|split_and!; congruence|congruence|].
  intros r i (j & Hj & Hc & E)%A7. destruct (B7 _ _ Hj) as (k & Hk & Hc' & E'). exists k.
  split_and!; [done|by eapply sameCore_trans|congruence].
Qed.
Lemma quiet_same s s' :
  ext s s' → sameTables s s' → fw_faces s' = fw_faces s → interests s' = interests s → quiet s s'.
Proof.
  intros He Ht Hf E. split; try done. intros r i Hi. exists i. rewrite E. split; [done|]. by split.
Qed.
Lemma quiet_insert s s' r i j :
  ext s s' → sameTables s s' → fw_faces s' = fw_faces s →
  interests s !! r = Some i → sameCore i j → i_hopLimit j = i_hopLimit i →
  interests s' = <[r := j]> (interests s) → quiet s s'.
Proof.
  intros He Ht Hf Hr Hc Eh E. split; try done. intros r' i' Hi'. rewrite E, lookup_insert.
  case_decide as Er; [subst r'; assert (i' = i) as -> by congruence; by exists j|].
  exists i'. split; [done|]. by split.
Qed.

(** ** Interests leaving the forwarder *)

Lemma getNonce_ok r i s :
  fw_inv s → interests s !! r = Some i →
  wp (getNonce r) (fun _ s' => fw_inv s' ∧ quiet s s' ∧ pits s' = pits s ∧
    fw_drawn s' = match i_nonce i with Some _ => fw_drawn s | None => S (fw_drawn s) end ∧
    ∃ n, interests s' !! r = Some (set_i_nonce n i)) s.
Proof.
  intros Hi Hr. unfold getNonce. apply wp_bind. eapply wp_interestOf; [done|].
  destruct (i_nonce i) as [n|] eqn:En.
  - apply wp_ret. split_and!; [done|done|done|done|]. exists (Some n). rewrite Hr. destruct i. simpl in *. by subst.
  - apply wp_bind, wp_get, wp_bind, wp_setDrawn; [done|].
    intros s1 Hi1 He1 Ht1 Hf1 Hd1 Hs1. apply wp_bind.
    eapply wp_changeInterest with (i := i); [done|by rewrite Hs1|done|].
    intros s2 Hi2 He2 Ht2 Hf2 Hd2 Hp2 Hin2. apply wp_ret. split_and!; [done| |congruence|congruence|].
    2:{ eexists. rewrite Hin2. apply lookup_insert_eq. }
    trans s1.
    + apply quiet_same; try done. by rewrite Hs1.
    + eapply quiet_insert; [..|exact Hin2]; rewrite ?Hs1; done.
Qed.

Lemma tagPitToken_ok r i v s :
  fw_inv s → interests s !! r = Some i →
  wp (tagPitToken r v) (fun _ s' => fw_inv s' ∧ quiet s s' ∧ pits s' = pits s ∧ fw_drawn s' = fw_drawn s ∧
    ∃ b, setPitToken v = Ok b ∧ interests s' !! r = Some (set_i_pitTokenTag (Some b) i)) s.
Proof.
  intros Hi Hr. unfold tagPitToken. apply wp_bind. eapply wp_lift; [reflexivity|].
  eapply wp_changeInterest; [done|done|done|].
  intros s2 Hi2 He2 Ht2 Hf2 Hd2 Hp2 Hin2. split_and!; try done.
  - eapply quiet_insert; [..|exact Hin2]; done.
  - eexists. split; [reflexivity|]. rewrite Hin2. apply lookup_insert_eq.
Qed.

Lemma entry_ok_out st pe t f nonce lifetime :
  entry_ok st pe → entry_ok st (insertOrUpdateOutRecord t f nonce lifetime pe).
Proof.
  intros [H1 H2 H3]. split; [auto with pit|..];
    unfold insertOrUpdateOutRecord; by destruct (getOutRecord pe f).
Qed.
Lemma entry_fw_out m st pe t f nonce lifetime :
  entry_ok st pe → is_Some (m !! f) → entry_fw m pe →
  entry_fw m (insertOrUpdateOutRecord t f nonce lifetime pe).
Proof.
  intros Hok Hf [H1 H2 H3 H4]. split.
  - unfold insertOrUpdateOutRecord. by destruct (getOutRecord pe f).
  - intros rec. rewrite insertOrUpdateOutRecord_spec by apply Hok.
    intros [(r0 & _ & ->)|[? _]]; [done|auto].
  - unfold insertOrUpdateOutRecord. by destruct (getOutRecord pe f).
  - unfold insertOrUpdateOutRecord. by destruct (getOutRecord pe f).
Qed.
Lemma entry_ok_in st pe t f r nonce lifetime :
  entry_ok st pe → is_Some (st_interests st !! r) →
  entry_ok st (insertOrUpdateInRecord t f r nonce lifetime pe).
Proof.
  intros [H1 H2 H3] Hr. split; [auto with pit|..].
  - unfold insertOrUpdateInRecord. by destruct (getInRecord pe f).
  - intros rec. rewrite insertOrUpdateInRecord_spec by done. intros [->|[? _]]; [done|auto].
Qed.
Lemma entry_fw_in m st pe t f r nonce lifetime :
  entry_ok st pe → is_Some (m !! f) → entry_fw m pe →
  entry_fw m (insertOrUpdateInRecord t f r nonce lifetime pe).
Proof.
  intros Hok Hf [H1 H2 H3 H4]. split.
  - intros rec. rewrite insertOrUpdateInRecord_spec by apply Hok.
    intros [->|[? _]]; [done|auto].
  - unfold insertOrUpdateInRecord. by destruct (getInRecord pe f).
  - unfold insertOrUpdateInRecord. by destruct (getInRecord pe f).
  - unfold insertOrUpdateInRecord. by destruct (getInRecord pe f).
Qed.

(** [p] is an entry that [r] may be recorded in. *)
Definition recordable (s : Forwarder Q) (p : PitRef) (r : InterestRef) : Prop :=
  ∃ mine i, entryOf s p mine ∧ interests s !! r = Some i ∧ matchesInterest mine i = true.

Lemma recordable_ext s s' p r : ext s s' → recordable s p r → recordable s' p r.
Proof.
  intros He (mine & i & Hp & Hr & Hm). destruct (ext_entryOf _ _ _ _ He Hp) as (mine' & Hp' & Hk & _).
  destruct (ex_interests _ _ He _ _ Hr) as (i' & Hr' & Hk' & _). exists mine', i'. split_and!; [done|done|].
  by rewrite <-(matchesInterest_sameKey mine i mine' i').
Qed.
Lemma entryOf_lookup s p i :
  entryOf s p i → ∃ pe n, pits s !! p = Some pe ∧ pe_nameTreeEntry pe = Some n ∧
    interests s !! pe_interest pe = Some i.
Proof.
  intros (n & (pe & Hp & Hn) & Hi). exists pe, n. unfold pitInterest in Hi. by rewrite Hp in Hi.
Qed.

Lemma addOutRecord_ok p f r s :
  fw_inv s → recordable s p r → is_Some (fw_faces s !! f) →
  wp (addOutRecord p f r) (fun _ s' => fw_inv s' ∧ quiet s s' ∧
    ∀ i, interests s !! r = Some i → ∃ n, interests s' !! r = Some (set_i_nonce n i)) s.
Proof.
  intros Hi (mine & i & He & Hr & Hm) Hf. destruct (entryOf_lookup _ _ _ He) as (pe & n & Hp & Hn & Hmi).
  unfold addOutRecord. apply wp_bind. eapply wp_pitEntryOf; [done|].
  apply wp_bind. eapply wp_interestOf; [done|]. apply wp_bind. eapply wp_interestOf; [done|].
  apply wp_bind. eapply wp_lift; [apply canMatch_0|]. apply wp_bind, wp_assert; [done|].
  apply wp_bind. eapply wp_mono; [by apply getNonce_ok|]. intros nonce s1 (Hi1 & Hq1 & Hp1 & _ & m & Hm1).
  apply wp_bind, wp_gets.
  eapply wp_changePitEntry with (pe := pe); [done|by rewrite Hp1|..].
  - unfold insertOrUpdateOutRecord. by destruct (getOutRecord pe f).
  - unfold insertOrUpdateOutRecord. by destruct (getOutRecord pe f).
  - apply entry_ok_out. eapply pi_entry; [apply Hi1|]. by rewrite Hp1.
  - eapply entry_fw_out.
    + eapply pi_entry; [apply Hi1|]. by rewrite Hp1.
    + by rewrite (q_faces _ _ Hq1).
    + eapply fi_entry; [done|]. by rewrite Hp1.
  - intros s2 Hi2 He2 Ht2 Hf2 _ Hp2 Hin2. split_and!; [done|trans s1; [done|by apply quiet_same]|].
    intros i' Hi'. assert (i' = i) as -> by congruence. exists m. by rewrite Hin2.
Qed.

Lemma sendOnFace_ok f r i face s :
  fw_inv s → interests s !! r = Some i → fw_faces s !! f = Some face →
  (i_hopLimit i = Some 0 → face_scope face = FACE_SCOPE_LOCAL) →
  wp (sendOnFace f r) (fun _ s' => fw_inv s' ∧ quiet s s') s.
Proof.
  intros Hi Hr Hf Hh. unfold sendOnFace. apply wp_bind. eapply wp_interestOf; [done|].
  apply wp_bind, wp_emit; [done|by exists face|]. intros s1 Hi1 He1 Ht1 Hf1 Hs1.
  apply wp_count; [done|]. intros s2 Hi2 He2 Ht2 Hf2 _ Hs2. split; [done|].
  trans s1; apply quiet_same; try done; [by rewrite Hs1|by rewrite Hs2].
Qed.

(** Recording and sending [r] on [f]: the end of both branches of
    [onOutgoingInterest]. *)
Lemma recordAndSend_ok p f r i face s :
  fw_inv s → recordable s p r → interests s !! r = Some i → fw_faces s !! f = Some face →
  (i_hopLimit i = Some 0 → face_scope face = FACE_SCOPE_LOCAL) →
  wp (addOutRecord p f r;; sendOnFace f r;; mret true) (fun _ s' => fw_inv s' ∧ quiet s s') s.
Proof.
  intros Hi Hrec Hr Hf Hh. apply wp_bind. eapply wp_mono; [by apply addOutRecord_ok|].
  intros [] s1 (Hi1 & Hq1 & _). destruct (q_hops _ _ Hq1 _ _ Hr) as (i1 & Hr1 & _ & Eh).
  apply wp_bind. eapply wp_mono; [eapply sendOnFace_ok; [done|exact Hr1| |]|].
  - by rewrite (q_faces _ _ Hq1).
  - by rewrite Eh.
  - intros [] s2 [Hi2 Hq2]. apply wp_ret. split; [done|]. by trans s1.
Qed.

Lemma Pit_find_recordable s p r i :
  fw_inv s → recordable s p r → interests s !! r = Some i →
  Pit_find HashFunc i (fw_store s) = Ok (Some p, fw_store s).
Proof.
  intros Hi (mine & i' & (n & Ha & Hmi) & Hr & Hm) Hr'. assert (i' = i) as -> by congruence.
  eapply Pit_find_Some; [apply Hi|exact Ha|]. unfold matchesEntry. by rewrite Hmi.
Qed.

(** What an Interest must satisfy to enter the outgoing Interest pipeline: a
    normal one matches the entry, the producer's reflexive one has an entry of
    its own. *)
Definition sendable (s : Forwarder Q) (p : PitRef) (r : InterestRef) (i : Interest) : Prop :=
  interests s !! r = Some i ∧
  ((isReflexiveInterestFromProducer i = Ok false ∧ recordable s p r) ∨
   (isReflexiveInterestFromProducer i = Ok true ∧ (∃ orig, entryOf s p orig) ∧ ∃ p2, recordable s p2 r)).
Lemma sendable_ext s s' p r i : ext s s' → sendable s p r i → ∃ i', sendable s' p r i' ∧ sameCore i i'.
Proof.
  intros He [Hr H]. destruct (ex_interests _ _ He _ _ Hr) as (i' & Hr' & Hc). exists i'. split; [|done].
  split; [done|]. rewrite <-(sameKey_fromProducer i i') by apply Hc.
  destruct H as [[? ?]|(? & (o & Ho) & p2 & ?)]; [left|right].
  - split; [done|]. by eapply recordable_ext.
  - destruct (ext_entryOf _ _ _ _ He Ho) as (o' & ? & _). split_and!; [done|by exists o'|].
    exists p2. by eapply recordable_ext.
Qed.

Lemma onOutgoingInterest_ok r i f p s :
  fw_inv s → sendable s p r i → is_Some (fw_faces s !! f) →
  wp (onOutgoingInterest r f p) (fun _ s' => fw_inv s' ∧ ext s s' ∧ sameTables s s') s.
Proof.
  intros Hi [Hr Hsend] [face Hf]. unfold onOutgoingInterest.
  apply wp_bind. eapply wp_interestOf; [done|]. apply wp_bind. eapply wp_getFace; [done|].
  destruct (bool_decide (i_hopLimit i = Some 0) && _) eqn:Eh.
  { apply wp_bind. eapply wp_setFace; [done|done|done|]. intros s1 ? ? ? ?. by apply wp_ret. }
  assert (i_hopLimit i = Some 0 → face_scope face = FACE_SCOPE_LOCAL) as Hh.
  { intros E. rewrite bool_decide_true in Eh by done. by destruct (face_scope face). }
  destruct Hsend as [[Hfp Hrec]|(Hfp & (orig & He) & p2 & Hrec)];
    (apply wp_bind; eapply wp_lift; [exact Hfp|]; cbv beta iota).
  - apply wp_bind. destruct (isReflexiveInterest i).
    + apply wp_bind, wp_get. eapply wp_mono; [by apply tagPitToken_ok with (i := i)|].
      intros [] s1 (Hi1 & Hq1 & _). destruct (q_hops _ _ Hq1 _ _ Hr) as (i1 & Hr1 & _ & Eh1).
      eapply wp_mono; [eapply recordAndSend_ok with (i := i1) (face := face)|]; try done.
      * eapply recordable_ext; [apply Hq1|done].
      * by rewrite (q_faces _ _ Hq1).
      * by rewrite Eh1.
      * intros b s2 [Hi2 Hq2]. assert (quiet s s2) as [] by by trans s1. done.
    + apply wp_ret. eapply wp_mono; [by eapply recordAndSend_ok|]. intros b s2 [Hi2 []]. done.
  - destruct (entryOf_lookup _ _ _ He) as (pe & n & Hp & _ & Ho).
    apply wp_bind. eapply wp_pitEntryOf; [done|]. apply wp_bind. eapply wp_interestOf; [done|].
    apply wp_bind, wp_get, wp_bind. eapply wp_mono; [by apply tagPitToken_ok with (i := i)|].
    intros [] s1 (Hi1 & Hq1 & _). destruct (q_hops _ _ Hq1 _ _ Hr) as (i1 & Hr1 & _ & Eh1).
    assert (recordable s1 p2 r) as Hrec1 by (eapply recordable_ext; [apply Hq1|done]).
    apply wp_bind. eapply wp_interestOf; [done|]. apply wp_bind, wp_zoom.
    eapply wp_run; [by eapply Pit_find_recordable|]. apply wp_bind. eapply wp_deref; [done|].
    replace (set_fw_store (fw_store s1) s1) with s1 by by destruct s1.
    eapply wp_mono; [eapply recordAndSend_ok with (i := i1) (face := face)|]; try done.
    + by rewrite (q_faces _ _ Hq1).
    + by rewrite Eh1.
    + intros b s2 [Hi2 Hq2]. assert (quiet s s2) as [] by by trans s1. done.
Qed.

(** [Strategy::sendInterest]. *)
Lemma sendInterest_ok r i f p s :
  fw_inv s → sendable s p r i → is_Some (fw_faces s !! f) →
  wp (sendInterest r f p) (fun _ s' => fw_inv s' ∧ ext s s' ∧ sameTables s s') s.
Proof.
  intros Hi Hs Hf. pose proof Hs as [Hr _]. unfold sendInterest. apply wp_bind.
  eapply wp_interestOf; [done|]. destruct (i_pitTokenTag i) as [t|]; [|by eapply onOutgoingInterest_ok].
  apply wp_bind, wp_newInterest; [done|]. intros r2 s1 Hi1 He1 Ht1 Hf1 _ Hp1 Hfresh Hin1.
  assert (interests s1 !! r2 = Some (set_i_pitTokenTag None i)) as Hr2 by (rewrite Hin1; apply lookup_insert_eq).
  assert (∀ p', recordable s p' r → recordable s1 p' r2) as Hcopy.
  { intros p' (mine & i' & (n & Ha & Hmi) & Hr' & Hm). assert (i' = i) as -> by congruence.
    destruct (ext_entryOf s s1 p' mine He1) as (mine' & He' & Hk & _); [by exists n|].
    exists mine', (set_i_pitTokenTag None i). split_and!; [done|done|].
    by rewrite <-(matchesInterest_sameKey mine i mine'). }
  eapply wp_mono; [eapply onOutgoingInterest_ok with (i := set_i_pitTokenTag None i)|]; [done| |by rewrite Hf1|].
  - split; [done|]. destruct Hs as [_ [[? ?]|(? & (o & Ho) & p2 & ?)]]; [left; auto|right].
    destruct (ext_entryOf _ _ _ _ He1 Ho) as (o' & ? & _). split_and!; [done|by exists o'|by exists p2; auto].
  - intros b s2 (Hi2 & He2 & Ht2). split_and!; [done|by trans s1|].
    unfold sameTables in *. intuition congruence.
Qed.

(** ** Data and Nacks leaving the forwarder *)

Definition keeps (s s' : Forwarder Q) : Prop := fw_inv s' ∧ ext s s'.
Lemma keeps_trans s1 s2 s3 : keeps s1 s2 → keeps s2 s3 → keeps s1 s3.
Proof. intros [_ ?] [? ?]. split; [done|by trans s2]. Qed.

(** A loop whose steps change nothing. *)
Lemma forM_same {S A} (l : list A) (k : A → M S unit) (s : S) :
  (∀ a, a ∈ l → wp (k a) (fun _ s' => s' = s) s) → wp (forM_ l k) (fun _ s' => s' = s) s.
Proof.
  induction l as [|a l IH]; intros Hk; cbn [forM_]; [by apply wp_ret|]. apply wp_bind.
  eapply wp_mono; [apply Hk; by left|]. intros [] s' ->. apply IH. intros b Hb. apply Hk. by right.
Qed.
(** A loop whose steps keep the frame. *)
Lemma forM_keeps {A} (l : list A) (k : A → FW unit) s :
  fw_inv s →
  (∀ a s', a ∈ l → fw_inv s' → ext s s' → wp (k a) (fun _ s2 => keeps s' s2) s') →
  wp (forM_ l k) (fun _ s' => keeps s s') s.
Proof.
  intros Hi Hk. assert (∀ l', (∀ a, a ∈ l' → a ∈ l) → ∀ s', fw_inv s' → ext s s' →
    wp (forM_ l' k) (fun _ s2 => keeps s' s2) s') as H; [|by apply H].
  induction l' as [|a l' IH]; intros Hl s' Hi' He; cbn [forM_]; [by apply wp_ret|].
  apply wp_bind. eapply wp_mono; [apply Hk; [apply Hl; by left|done|done]|]. intros [] s1 [Hi1 He1].
  eapply wp_mono; [apply IH; [intros b Hb; apply Hl; by right|done|by trans s']|].
  intros [] s2 H2. by apply (keeps_trans s' s1).
Qed.

Lemma setExpiryTimer_ok p i duration s :
  fw_inv s → entryOf s p i → wp (setExpiryTimer p duration) (fun _ s' => keeps s s') s.
Proof.
  intros Hi He. destruct (entryOf_lookup _ _ _ He) as (pe & n & Hp & Hn & _).
  unfold setExpiryTimer. apply wp_bind, wp_gets.
  eapply wp_changePitEntry; [done|done|done|done|..].
  - by destruct (pi_entry _ _ (fi_pit s Hi) _ _ Hp).
  - destruct (fi_entry s Hi _ _ Hp). split; [done..|]. intros _. cbn. by rewrite Hn.
  - done.
Qed.

Lemma onOutgoingData_ok d f s :
  fw_inv s → is_Some (fw_faces s !! f) → wp (onOutgoingData d f) (fun _ s' => keeps s s') s.
Proof.
  intros Hi [face Hf]. unfold onOutgoingData. apply wp_bind. eapply wp_getFace; [done|].
  case_bool_decide as Hid; [by apply wp_ret|].
  destruct (bool_decide (face_scope face = _) && _) eqn:Es; [by apply wp_ret|].
  apply wp_bind, wp_emit; [done| |].
  - exists face. split_and!; [done|done|]. intros Hl%isPrefixOf_spec. rewrite Hl, andb_true_r in Es.
    by destruct (face_scope face).
  - intros s1 Hi1 He1 _ _ _. apply wp_bind, wp_count; [done|]. intros s2 Hi2 He2 _ _ _ _.
    apply wp_ret. split; [done|by trans s1].
Qed.

Lemma onOutgoingNack_ok reason f p i s :
  fw_inv s → entryOf s p i → is_Some (fw_faces s !! f) →
  wp (onOutgoingNack reason f p) (fun _ s' => keeps s s') s.
Proof.
  intros Hi He [face Hf]. destruct (entryOf_lookup _ _ _ He) as (pe & n & Hp & Hn & _).
  pose proof (pi_entry _ _ (fi_pit s Hi) _ _ Hp) as [Hpe Hpi Hin].
  unfold onOutgoingNack. apply wp_bind. eapply wp_getFace; [done|].
  case_bool_decide; [by apply wp_ret|]. apply wp_bind. eapply wp_pitEntryOf; [done|].
  destruct (getInRecord pe f) as [rec|] eqn:Hrec; [|by apply wp_ret].
  case_bool_decide; [by apply wp_ret|]. apply getInRecord_spec in Hrec as [Hrec _]; [|done].
  destruct (Hin _ Hrec) as [j Hj]. apply wp_bind. eapply wp_interestOf; [done|]. apply wp_bind.
  eapply wp_changePitEntry; [done|done|done|done|..].
  - split; [auto with pit|done|]. intros r Hr. apply Hin. by apply elem_of_deleteIn in Hr as [? _].
  - destruct (fi_entry s Hi _ _ Hp). split; try done. intros r [? _]%elem_of_deleteIn; by auto.
  - intros s1 Hi1 He1 _ Hf1 _ _ _. apply wp_bind, wp_emit; [done|simpl; rewrite Hf1; eauto|].
    intros s2 Hi2 He2 _ _ _. apply wp_bind, wp_count; [done|]. intros s3 Hi3 He3 _ _ _ _.
    apply wp_ret. split; [done|]. trans s2; [by trans s1|done].
Qed.

(** ** The strategy base class *)

Lemma sendData_ok d f p i s :
  fw_inv s → entryOf s p i → matchesData i d = true → is_Some (fw_faces s !! f) →
  wp (sendData d f p) (fun _ s' => keeps s s') s.
Proof.
  intros Hi He Hm Hf. destruct (entryOf_lookup _ _ _ He) as (pe & n & Hp & Hn & Hpi).
  pose proof (pi_entry _ _ (fi_pit s Hi) _ _ Hp) as [Hpe _ Hin].
  unfold sendData. apply wp_bind. eapply wp_pitEntryOf; [done|]. apply wp_bind.
  eapply wp_interestOf; [done|]. apply wp_bind, wp_assert; [done|]. apply wp_bind.
  eapply wp_mono with (R := fun _ s' => s' = s).
  { destruct (getInRecord pe f) as [rec|] eqn:Hrec; [|by apply wp_ret].
    apply getInRecord_spec in Hrec as [Hrec _]; [|done]. destruct (Hin _ Hrec) as [j Hj].
    apply wp_bind. eapply wp_interestOf; [done|]. by apply wp_ret. }
  intros tok s' ->. apply wp_bind. eapply wp_changePitEntry; [done|done|done|done|..].
  - split; [auto with pit|by eauto|]. intros r Hr. apply Hin. by apply elem_of_deleteIn in Hr as [? _].
  - destruct (fi_entry s Hi _ _ Hp). split; try done. intros r [? _]%elem_of_deleteIn; by auto.
  - intros s1 Hi1 He1 _ Hf1 _ _ _. eapply wp_mono; [apply onOutgoingData_ok; [done|by rewrite Hf1]|].
    intros b s2 Hk. by apply (keeps_trans s s1).
Qed.

Lemma keeps_loop {A} (l : list A) (k : A → FW unit) s :
  fw_inv s → (∀ x s', x ∈ l → keeps s s' → wp (k x) (fun _ s2 => keeps s' s2) s') →
  wp (forM_ l k) (fun _ s' => keeps s s') s.
Proof.
  intros Hi Hk. apply (wp_forM (keeps s)); [by split|]. intros x s' Hx Hs'.
  eapply wp_mono; [by apply Hk|]. intros [] s2 H2. by apply (keeps_trans s s').
Qed.

Lemma sendDataToAll_ok d p i f s :
  fw_inv s → entryOf s p i → matchesData i d = true → is_Some (fw_faces s !! f) →
  wp (sendDataToAll d p f) (fun _ s' => keeps s s') s.
Proof.
  intros Hi He Hm [face Hf]. destruct (entryOf_lookup _ _ _ He) as (pe & n & Hp & Hn & Hpi).
  unfold sendDataToAll. apply wp_bind. eapply wp_pitEntryOf; [done|]. apply wp_bind.
  eapply wp_getFace; [done|]. apply wp_bind, wp_get. apply keeps_loop; [done|].
  intros g s1 Hg [Hi1 He1]. rewrite elem_of_faceSet in Hg.
  apply list_elem_of_fmap in Hg as (rec & -> & Hrec). apply list_elem_of_In, filter_In in Hrec as [Hrec _].
  apply list_elem_of_In in Hrec. destruct (ext_entryOf _ _ _ _ He1 He) as (i' & He' & Hk & _).
  apply wp_bind. eapply wp_mono; [eapply sendData_ok; [done|done| |]|].
  - by rewrite <-(sameKey_matchesData i i').
  - eapply ext_face; [done|]. by apply (ef_in _ _ (fi_entry s Hi _ _ Hp)).
  - intros b s2 H2. by apply wp_ret.
Qed.

Lemma sendNacks_ok `{!EnvironmentLaws Env} reason p i s :
  fw_inv s → entryOf s p i → wp (sendNacks reason p) (fun _ s' => keeps s s') s.
Proof.
  intros Hi He. destruct (entryOf_lookup _ _ _ He) as (pe & n & Hp & Hn & Hpi).
  unfold sendNacks. apply wp_bind. eapply wp_pitEntryOf; [done|]. apply keeps_loop; [done|].
  intros g s1 Hg [Hi1 He1]. rewrite unorderedFaces_perm in Hg by apply NoDup_remove_dups.
  apply elem_of_remove_dups, list_elem_of_fmap in Hg as (rec & -> & Hrec).
  destruct (ext_entryOf _ _ _ _ He1 He) as (i' & He' & _).
  apply wp_bind. eapply wp_mono; [eapply onOutgoingNack_ok; [done|done|]|].
  - eapply ext_face; [done|]. by apply (ef_in _ _ (fi_entry s Hi _ _ Hp)).
  - intros b s2 H2. by apply wp_ret.
Qed.

(** ** FIB lookup *)

(** Only the root entry of the FIB may lack next hops. *)
Lemma lpm_no_hops s n :
  fw_inv s → hasNextHops (Fib_findLongestPrefixMatch HashFunc (fw_store s) n) = false →
  fe_prefix (Fib_findLongestPrefixMatch HashFunc (fw_store s) n) = [].
Proof.
  intros Hi. unfold Fib_findLongestPrefixMatch, Fib_lpmResult. destruct (findLongestPrefixMatch _ _ _ _) as [m|]; [|done].
  destruct (fibSlot (fw_store s) m) as [fe|] eqn:E; [|done]. simpl.
  destruct (fb_entry _ _ (fi_fib s Hi) _ _ E) as [-> _]. unfold hasNextHops.
  destruct (decide (m = [])) as [->|Hm]; [done|]. pose proof (proj1 (fi_hops s Hi _ _ E) Hm).
  by destruct (fe_nextHops fe).
Qed.
Lemma lookupFib_loop_ok s fh : ∀ fe0,
  fw_inv s → (fh ≠ [] ∨ ∃ fe, fe0 = Some fe ∧ fe_prefix fe = []) →
  ∃ fe, lookupFib_loop (fw_store s) fh fe0 = Ok fe.
Proof.
  induction fh as [|d fh IH]; intros fe0 Hi Hfh; cbn [lookupFib_loop].
  - destruct Hfh as [?|(fe & -> & ->)]; [done|]. rewrite bool_decide_true by done. eauto.
  - destruct (hasNextHops _) eqn:Eh; [eauto|].
    pose proof (lpm_no_hops s d Hi Eh) as E. rewrite bool_decide_true by done.
    apply IH; [done|]. right. eauto.
Qed.

Lemma lookupFib_ok p i s :
  fw_inv s → entryOf s p i → wp (lookupFib p) (fun _ s' => s' = s) s.
Proof.
  intros Hi He. destruct (entryOf_lookup _ _ _ He) as (pe & n & Hp & Hn & Hpi).
  unfold lookupFib. apply wp_bind. eapply wp_pitEntryOf; [done|]. apply wp_bind.
  eapply wp_interestOf; [done|]. apply wp_bind, wp_get. destruct (i_forwardingHint i) as [|d fh] eqn:Eh.
  - apply wp_bind. rewrite Hn. eapply wp_deref; [done|]. by apply wp_ret.
  - apply wp_bind, wp_assert.
    + rewrite <-Eh, (proj1 (fi_region s Hi _ _ _ Hp Hpi)). done.
    + destruct (lookupFib_loop_ok s (d :: fh) None Hi) as [fe E]; [by left|].
      by eapply wp_lift.
Qed.
End inv.

(** ** What the forwarder relies on in a strategy *)

(** Every trigger returns, keeps the invariant and stays within the frame. *)
Class StrategyLaws `{Env : Environment} {Q : Type} {Pol : CsPolicy Q} {Laws : CsPolicyLaws Q}
    (st : Strategy (Q := Q)) : Prop := {
  sl_interest : ∀ r i f p s, fw_inv s → sendable s p r i → is_Some (fw_faces s !! f) →
    wp (afterReceiveInterest st r f p) (fun _ s' => keeps s s') s;
  sl_hit : ∀ d f p i s, fw_inv s → entryOf s p i → matchesData i d = true → is_Some (fw_faces s !! f) →
    wp (afterContentStoreHit st d f p) (fun _ s' => keeps s s') s;
  sl_before : ∀ d f p i s, fw_inv s → entryOf s p i → matchesData i d = true → is_Some (fw_faces s !! f) →
    wp (beforeSatisfyInterest st d f p) (fun _ s' => keeps s s') s;
  sl_data : ∀ d f p i s, fw_inv s → entryOf s p i → matchesData i d = true → is_Some (fw_faces s !! f) →
    wp (afterReceiveData st d f p) (fun _ s' => keeps s s') s;
  sl_nack : ∀ n f p i s, fw_inv s → entryOf s p i → is_Some (fw_faces s !! f) →
    wp (afterReceiveNack st n f p) (fun _ s' => keeps s s') s;
  sl_dropped : ∀ i f s, fw_inv s → wp (onDroppedInterest st i f) (fun _ s' => keeps s s') s;
  sl_newNextHop : ∀ nh p i s, fw_inv s → entryOf s p i → wp (afterNewNextHop st nh p) (fun _ s' => keeps s s') s
}.
