(* ===== verification/BestRoute.v ===== *)
(** * The best-route strategy keeps the promises of a strategy

    [fw/best-route-strategy.cpp] against the interface of [ForwarderInv]. *)

From S2P Require Import Prelude Tlv Component Name Packet PitAssist Hashtable NameTree Face FibEntry.
From S2P Require Import PitEntry Store Pit Fib DeadNonceList Cs Algorithm Forwarder ForwarderInv.
Local Open Scope Z_scope.

Lemma decidePerPitEntry_ok rs t pe :
  ∃ res info, decidePerPitEntry rs t pe = Ok (res, set_pe_info info pe).
Proof.
  unfold decidePerPitEntry. destruct (hasPendingOutRecords t pe) eqn:Hp; cbn [negb].
  2:{ exists RETX_NEW, (pe_info pe). by destruct pe. }
  apply hasPendingOutRecords_spec in Hp as (r & Hr & _). unfold getLastOutgoing.
  destruct (pe_outRecords pe) as [|r0 l]; [by apply not_elem_of_nil in Hr|].
  unfold mbind, outcome_bind. case_bool_decide; eauto.
Qed.

Lemma processNack_ok pe : ∃ a, processNack pe = Ok a ∧ ∀ f reason, a = NackTo f reason →
  is_Some (getInRecord pe f).
Proof.
  unfold processNack. destruct (nackSummary pe) as [[n last] least] eqn:E.
  assert (n = 0%nat ∨ is_Some last) as Hl.
  { revert E. unfold nackSummary.
    assert (∀ l n0 last0 least0, (n0 = 0%nat ∨ is_Some last0) →
      foldl (fun '(n, last, least) r => match out_incomingNack r with
        | None => (S n, Some (out_face r), least)
        | Some reason => (n, last, if isLessSevere reason least then reason else least)
        end) (n0, last0, least0) l = (n, last, least) → n = 0%nat ∨ is_Some last) as Hgen.
    { induction l as [|r l IH]; intros n0 last0 least0 H0; simpl; [by intros [= <- <- _]|].
      destruct (out_incomingNack r); apply IH; eauto. }
    apply Hgen. by left. }
  destruct (bool_decide (n = 1%nat)) eqn:E1.
  - apply bool_decide_eq_true in E1 as ->. destruct Hl as [?|[f ->]]; [done|].
    destruct (getInRecord pe f) eqn:Ef.
    + eexists. split; [reflexivity|]. intros f' r' [= <- <-]. by rewrite Ef.
    + exists NackWait. by split.
  - clear E1. case_bool_decide; eexists; (split; [reflexivity|by intros]).
Qed.

Section bestroute.
Context `{Env : Environment} `{!EnvironmentLaws Env}.
Context {Q : Type} {Pol : CsPolicy Q} {Laws : CsPolicyLaws Q}.
Context (rs : RetxSuppressionExponential).

Lemma noNextHop_ok f p i s :
  fw_inv s → entryOf s p i → is_Some (fw_faces s !! f) → wp (noNextHop f p) (fun _ s' => keeps s s') s.
Proof.
  intros Hi He Hf. unfold noNextHop. apply wp_bind. eapply wp_mono; [by eapply onOutgoingNack_ok|].
  intros b s1 [Hi1 He1]. destruct (ext_entryOf _ _ _ _ He1 He) as (i' & He' & _).
  eapply wp_mono; [by eapply setExpiryTimer_ok|]. intros [] s2 H2. by apply (keeps_trans s s1).
Qed.

(** Sending on a chosen face, with the result dropped. *)
Lemma forward_ok r i f p s :
  fw_inv s → sendable s p r i → is_Some (fw_faces s !! f) →
  wp (sendInterest r f p;; mret tt) (fun _ s' => keeps s s') s.
Proof.
  intros Hi Hs Hf. apply wp_bind. eapply wp_mono; [by eapply sendInterest_ok|].
  intros b s1 (Hi1 & He1 & _). apply wp_ret. by split.
Qed.

Lemma sendable_entry (s : Forwarder Q) p r i : sendable s p r i → ∃ j, entryOf s p j.
Proof. intros [_ [[_ (mine & _ & He & _)]|(_ & ? & _)]]; eauto. Qed.

Lemma br_afterReceiveInterest_ok r i f p s :
  fw_inv s → sendable s p r i → is_Some (fw_faces s !! f) →
  wp (br_afterReceiveInterest rs r f p) (fun _ s' => keeps s s') s.
Proof using Type.
  intros Hi Hs Hf. pose proof Hs as [Hr Hcase]. destruct (sendable_entry _ _ _ _ Hs) as [j Hj].
  destruct (entryOf_lookup _ _ _ Hj) as (pe & n & Hp & Hn & Hpi).
  unfold br_afterReceiveInterest. apply wp_bind. eapply wp_interestOf; [done|].
  destruct Hcase as [[Hfp Hrec]|(Hfp & Ho & p2 & Hrec)];
    (apply wp_bind; eapply wp_lift; [exact Hfp|]; cbv beta iota).
  - apply wp_bind. eapply wp_pitEntryOf; [done|]. apply wp_bind, wp_gets.
    destruct (decidePerPitEntry_ok rs (fw_now s) pe) as (res & info & E).
    apply wp_bind. eapply wp_lift; [exact E|]. cbv beta iota. apply wp_bind.
    eapply wp_changePitEntry; [done|done|done|done| | |].
    { by destruct (pi_entry _ _ (fi_pit s Hi) _ _ Hp). }
    { by destruct (fi_entry s Hi _ _ Hp). }
    intros s1 Hi1 He1 _ Hf1 _ Hp1 Hin1. set (pe' := set_pe_info info pe) in *.
    destruct (sendable_ext _ _ _ _ _ He1 Hs) as (i1 & Hs1 & _).
    destruct (ext_entryOf _ _ _ _ He1 Hj) as (j1 & Hj1 & _).
    rewrite <-Hf1 in Hf. assert (∀ m, wp m (fun _ s' => keeps s1 s') s1 →
      wp m (fun (_ : unit) s' => keeps s s') s1) as Hlater.
    { intros m Hm. eapply wp_mono; [exact Hm|]. intros [] s2 H2. by apply (keeps_trans s s1). }
    destruct res; [| |by apply wp_ret]; apply Hlater; (apply wp_bind;
      eapply wp_mono; [by eapply lookupFib_ok|]; intros fe s' ->);
      destruct Hf as [face Hf]; (apply wp_bind; eapply wp_getFace; [done|]; apply wp_bind, wp_get).
    + destruct (List.find _ (fe_nextHops fe)) as [nh|] eqn:Hnh; [|by eapply noNextHop_ok].
      apply find_some in Hnh as [_ Hel]. eapply forward_ok; [done|exact Hs1|]. by eapply eligible_face.
    + destruct (List.find _ (fe_nextHops fe)) as [nh|] eqn:Hnh.
      * apply find_some in Hnh as [_ Hel]. eapply forward_ok; [done|exact Hs1|]. by eapply eligible_face.
      * destruct (earliestNextHop_spec (fw_faces s1) face i pe' (fe_nextHops fe) None None)
          as (o & Eo & Ho); [|done|].
        { intros nh Hin Hel. destruct (eligible_used _ _ _ _ _ (fw_now s) 0 Hel) as [rec Hrec'].
          - by apply (find_none _ _ Hnh), list_elem_of_In.
          - eexists. by exists rec. }
        apply wp_bind. eapply wp_lift; [exact Eo|]. destruct o as [nh|]; [|by apply wp_ret].
        destruct Ho as (_ & Hel & _). eapply forward_ok; [done|exact Hs1|].
        unfold eligible in Hel. by eapply eligible_face.
  - apply wp_bind. eapply wp_mono; [by eapply lookupFib_ok|]. intros fe s' ->.
    apply wp_bind. eapply wp_pitEntryOf; [done|].
    destruct (pe_inRecords pe) as [|rec l] eqn:Hrecs; [by eapply noNextHop_ok|].
    eapply forward_ok; [done|exact Hs|]. apply (ef_in _ _ (fi_entry s Hi _ _ Hp)). rewrite Hrecs. by left.
Qed.

Lemma br_afterReceiveNack_ok n f p i s :
  fw_inv s → entryOf s p i → wp (br_afterReceiveNack n f p) (fun _ s' => keeps s s') s.
Proof using All.
  intros Hi He. destruct (entryOf_lookup _ _ _ He) as (pe & m & Hp & Hn & Hpi).
  unfold br_afterReceiveNack. apply wp_bind. eapply wp_pitEntryOf; [done|].
  destruct (processNack_ok pe) as (a & E & Ha). apply wp_bind. eapply wp_lift; [exact E|].
  destruct a as [g reason| |reason]; [|by apply wp_ret|by eapply sendNacks_ok].
  destruct (Ha _ _ eq_refl) as [rec Hrec].
  apply getInRecord_spec in Hrec as [Hrec <-]; [|apply (pi_entry _ _ (fi_pit s Hi) _ _ Hp)].
  apply wp_bind. eapply wp_mono; [eapply onOutgoingNack_ok; [done|done|]|].
  - by apply (ef_in _ _ (fi_entry s Hi _ _ Hp)).
  - intros b s1 H1. by apply wp_ret.
Qed.

#[export] Instance BestRouteLaws : StrategyLaws (BestRouteStrategy rs).
Proof using All.
  split; cbn [BestRouteStrategy afterReceiveInterest afterContentStoreHit beforeSatisfyInterest
    afterReceiveData afterReceiveNack onDroppedInterest afterNewNextHop].
  - intros. by eapply br_afterReceiveInterest_ok.
  - intros d f p i s Hi He Hm Hf. apply wp_bind. eapply wp_mono; [by eapply sendData_ok|].
    intros b s1 H1. by apply wp_ret.
  - intros. by apply wp_ret.
  - intros d f p i s Hi He Hm Hf. apply wp_bind, wp_ret. by eapply sendDataToAll_ok.
  - intros. by eapply br_afterReceiveNack_ok.
  - intros. by apply wp_ret.
  - intros. by apply wp_ret.
Qed.
End bestroute.
