(* ===== verification/Strategies.v ===== *)
(** * The multicast and random strategies

    [fw/multicast-strategy.cpp] and [fw/random-strategy.cpp], and that they keep
    the promises of a strategy in [ForwarderInv]. *)

From S2P Require Import Prelude Tlv Component Name Packet PitAssist Hashtable NameTree Face FibEntry.
From S2P Require Import PitEntry Store Pit Fib DeadNonceList Cs Algorithm Forwarder ForwarderInv BestRoute.
Local Open Scope Z_scope.

(** [Strategy::afterReceiveNack]. *)
Definition base_afterReceiveNack {Q : Type} (n : Nack) (ingress : FaceRef) (p : PitRef) : M (Forwarder Q) unit :=
  mret tt.

(** ** The multicast strategy *)

Section multicast.
Context {Env : Environment} {Q : Type}.
Context (rs : RetxSuppressionExponential).
Abbreviation FW := (M (Forwarder Q)).

(** The entry of the out-record that [sendInterest] returns: the producer's
    reflexive Interest has an entry of its own. *)
Definition outRecordOwner (r : InterestRef) (p : PitRef) : FW PitRef :=
  i ← interestOf r;
  fromProducer ← lift (isReflexiveInterestFromProducer i);
  if fromProducer : bool then p2 ← onStore (Pit_find HashFunc i); deref p2 else mret p.
Definition incrementInterval (f : FaceRef) (pe : PitEntry) : PitEntry :=
  set_pe_outRecords (updateFirst (fun rec => bool_decide (out_face rec = f)) (incrementIntervalForOutRecord rs)
                       (pe_outRecords pe)) pe.
(** The body of the loop of [MulticastStrategy::afterReceiveInterest]. *)
Definition mc_forwardTo (r : InterestRef) (ingress : FaceRef) (p : PitRef) (nexthop : NextHop) : FW unit :=
  pe ← pitEntryOf p;
  t ← now;
  let '(suppressResult, pe') := decidePerUpstream rs t pe (nh_face nexthop) in
  changePitEntry p (fun _ => pe');;
  match suppressResult with
  | RETX_SUPPRESS => mret tt
  | _ =>
      i ← interestOf r;
      inFace ← getFace ingress;
      s ← get;
      if isNextHopEligible (fw_faces s) inFace i nexthop pe' false 0 then
        sent ← sendInterest r (nh_face nexthop) p;
        if (sent : bool) && bool_decide (suppressResult = RETX_FORWARD) then
          owner ← outRecordOwner r p;
          changePitEntry owner (incrementInterval (nh_face nexthop))
        else mret tt
      else mret tt
  end.
Definition mc_afterReceiveInterest (r : InterestRef) (ingress : FaceRef) (p : PitRef) : FW unit :=
  fe ← lookupFib p;
  forM_ (fe_nextHops fe) (mc_forwardTo r ingress p).

(** [MulticastStrategy::afterNewNextHop]: one in-record that does not rule the next
    hop out is enough. *)
Definition mc_afterNewNextHop (nextHop : NextHop) (p : PitRef) : FW unit :=
  pe ← pitEntryOf p;
  i ← interestOf (pe_interest pe);
  s ← get;
  match List.find (fun rec => match fw_faces s !! in_face rec with
                              | Some inFace => isNextHopEligible (fw_faces s) inFace i nextHop pe false 0
                              | None => false
                              end) (pe_inRecords pe) with
  | Some _ => sendInterest (pe_interest pe) (nh_face nextHop) p;; mret tt
  | None => mret tt
  end.

Definition MulticastStrategy : Strategy (Q := Q) :=
  mkStrategy mc_afterReceiveInterest base_afterContentStoreHit base_beforeSatisfyInterest
    base_afterReceiveData base_afterReceiveNack base_onDroppedInterest mc_afterNewNextHop.
End multicast.

(** ** The random strategy *)

Section random.
Context {Env : Environment} {Q : Type}.
(** [std::shuffle]; its order may depend on anything. *)
Context (shuffle : Forwarder Q → list NextHop → list NextHop).
Abbreviation FW := (M (Forwarder Q)).

Definition rd_afterReceiveInterest (r : InterestRef) (ingress : FaceRef) (p : PitRef) : FW unit :=
  fe ← lookupFib p;
  pe ← pitEntryOf p;
  i ← interestOf r;
  inFace ← getFace ingress;
  s ← get;
  match List.filter (fun nh => isNextHopEligible (fw_faces s) inFace i nh pe false 0) (fe_nextHops fe) with
  | [] => noNextHop ingress p
  | nhs =>
      nh ← deref (head (shuffle s nhs));
      sendInterest r (nh_face nh) p;; mret tt
  end.
Definition RandomStrategy : Strategy (Q := Q) :=
  mkStrategy rd_afterReceiveInterest base_afterContentStoreHit base_beforeSatisfyInterest
    base_afterReceiveData br_afterReceiveNack base_onDroppedInterest base_afterNewNextHop.
End random.

(** ** The promises of a strategy *)

Lemma set_outRecords_ok (st : Store) faces pe (g : OutRecord → OutRecord) f :
  (∀ rec, out_face (g rec) = out_face rec) → entry_ok st pe → entry_fw faces pe →
  let pe' := set_pe_outRecords (updateFirst (fun rec => bool_decide (out_face rec = f)) g (pe_outRecords pe)) pe in
  entry_ok st pe' ∧ entry_fw faces pe'.
Proof.
  intros Hg [[Hin Hout] H2 H3] [E1 E2 E3 E4] pe'.
  assert (out_faces pe' = out_faces pe) as Ef by (apply (map_updateFirst out_face); exact Hg). split; split; try done.
  - split; [exact Hin|]. by rewrite Ef.
  - intros rec Hrec. assert (out_face rec ∈ out_faces pe') as Hel by (apply list_elem_of_fmap; eauto).
    rewrite Ef in Hel. apply list_elem_of_fmap in Hel as (rec0 & -> & ?). by apply E2.
Qed.
Lemma decidePerUpstream_ok (st : Store) faces rs t pe f :
  entry_ok st pe → entry_fw faces pe →
  let pe' := (decidePerUpstream rs t pe f).2 in
  entry_ok st pe' ∧ entry_fw faces pe' ∧ pe_interest pe' = pe_interest pe ∧ pe_nameTreeEntry pe' = pe_nameTreeEntry pe.
Proof.
  intros H1 H2. unfold decidePerUpstream. destruct (getOutRecord pe f) as [rec|]; [|done]. cbn [snd].
  match goal with |- context [updateFirst _ ?g _] => destruct (set_outRecords_ok st faces pe g f) as [? ?] end; done.
Qed.

Section laws.
Context `{Env : Environment} `{!EnvironmentLaws Env}.
Context {Q : Type} {Pol : CsPolicy Q} {Laws : CsPolicyLaws Q}.

(** What every derived class inherits. *)
Lemma base_hit_ok d f p i (s : Forwarder Q) :
  fw_inv s → entryOf s p i → matchesData i d = true → is_Some (fw_faces s !! f) →
  wp (base_afterContentStoreHit d f p) (fun _ s' => keeps s s') s.
Proof.
  intros Hi He Hm Hf. apply wp_bind. eapply wp_mono; [by eapply sendData_ok|]. intros b s1 H1. by apply wp_ret.
Qed.
Lemma base_data_ok d f p i (s : Forwarder Q) :
  fw_inv s → entryOf s p i → matchesData i d = true → is_Some (fw_faces s !! f) →
  wp (base_afterReceiveData d f p) (fun _ s' => keeps s s') s.
Proof. intros Hi He Hm Hf. apply wp_bind, wp_ret. by eapply sendDataToAll_ok. Qed.

(** The Interest of an entry can be sent on behalf of the entry. *)
Lemma own_sendable (s : Forwarder Q) p i pe :
  fw_inv s → entryOf s p i → st_pits (fw_store s) !! p = Some pe → st_interests (fw_store s) !! pe_interest pe = Some i →
  sendable s p (pe_interest pe) i.
Proof.
  intros Hi He Hp Hpi. split; [done|]. destruct (fi_region s Hi _ _ _ Hp Hpi) as (_ & b & Hb).
  assert (recordable s p (pe_interest pe)) as Hr by (exists i, i; split_and!; [done|done|by rewrite matchesInterest_spec]).
  destruct b; [right|by left]. split_and!; [done|by exists i|by exists p].
Qed.
Lemma sendable_owner rs r i p f (s : Forwarder Q) :
  fw_inv s → sendable s p r i →
  wp (owner ← outRecordOwner r p; changePitEntry owner (incrementInterval rs f)) (fun _ s' => keeps s s') s.
Proof.
  intros Hi [Hr Hcase]. assert (∃ q, recordable s q r ∧ ∀ (R : PitRef → Forwarder Q → Prop), R q s → wp (outRecordOwner r p) R s) as (q & Hq & Hrun).
  { destruct Hcase as [[Hb Hrec]|(Hb & _ & p2 & Hrec)]; eexists; (split; [exact Hrec|]); intros R HR; unfold outRecordOwner;
      (apply wp_bind; eapply wp_interestOf; [done|]); (apply wp_bind; eapply wp_lift; [exact Hb|]); cbv beta iota.
    - by apply wp_ret.
    - apply wp_bind, wp_zoom. eapply wp_run; [by eapply Pit_find_recordable|]. eapply wp_deref; [done|]. by destruct s. }
  apply wp_bind, Hrun. destruct Hq as (mine & i' & He & _). destruct (entryOf_lookup _ _ _ He) as (pe & n & Hp & Hn & Hpi).
  destruct (set_outRecords_ok (fw_store s) (fw_faces s) pe (incrementIntervalForOutRecord rs) f) as [Hok Hfw];
    [done|exact (pi_entry _ _ (fi_pit s Hi) _ _ Hp)|exact (fi_entry s Hi _ _ Hp)|].
  eapply wp_changePitEntry; [done|exact Hp|done|done|exact Hok|exact Hfw|]. intros s' Hi' He' _ _ _ _ _. by split.
Qed.

Section mc.
Context (rs : RetxSuppressionExponential).
Lemma mc_forwardTo_ok r i f p nh (s : Forwarder Q) :
  fw_inv s → sendable s p r i → is_Some (fw_faces s !! f) →
  wp (mc_forwardTo rs r f p nh) (fun _ s' => keeps s s') s.
Proof using Type.
  intros Hi Hs Hf. destruct (sendable_entry _ _ _ _ Hs) as [j Hj]. destruct (entryOf_lookup _ _ _ Hj) as (pe & n & Hp & Hn & Hpi).
  unfold mc_forwardTo. apply wp_bind. eapply wp_pitEntryOf; [done|]. apply wp_bind, wp_gets.
  destruct (decidePerUpstream_ok (fw_store s) (fw_faces s) rs (fw_now s) pe (nh_face nh)) as (D1 & D2 & D3 & D4);
    [exact (pi_entry _ _ (fi_pit s Hi) _ _ Hp)|exact (fi_entry s Hi _ _ Hp)|].
  destruct (decidePerUpstream rs (fw_now s) pe (nh_face nh)) as [res pe'] eqn:Ed. cbn [snd] in *.
  apply wp_bind. eapply wp_changePitEntry; [done|exact Hp|done|done|done|done|].
  intros s1 Hi1 He1 _ Hf1 _ _ _. destruct (sendable_ext _ _ _ _ _ He1 Hs) as (i1 & Hs1 & _).
  rewrite <-Hf1 in Hf. destruct Hf as [face Hf].
  assert (wp (i ← interestOf r; inFace ← getFace f; s ← get;
      if isNextHopEligible (fw_faces s) inFace i nh pe' false 0 then
        sent ← sendInterest r (nh_face nh) p;
        if (sent : bool) && bool_decide (res = RETX_FORWARD) then
          owner ← outRecordOwner r p; changePitEntry owner (incrementInterval rs (nh_face nh))
        else mret tt
      else mret tt) (fun _ s' => keeps s s') s1) as Hsend.
  2: { destruct res; [exact Hsend|exact Hsend|]. apply wp_ret. by split. }
  apply wp_bind. eapply wp_interestOf; [apply Hs1|]. apply wp_bind. eapply wp_getFace; [done|]. apply wp_bind, wp_get.
  destruct (isNextHopEligible _ _ _ _ _ _ _) eqn:Hel; [|by apply wp_ret].
  apply wp_bind. eapply wp_mono; [eapply sendInterest_ok; [done|exact Hs1|by eapply eligible_face]|].
  intros sent s2 (Hi2 & He2 & _). assert (keeps s s2) as Hk2 by (split; [done|by trans s1]).
  destruct (_ && _); [|by apply wp_ret]. destruct (sendable_ext _ _ _ _ _ He2 Hs1) as (i2 & Hs2 & _).
  eapply wp_mono; [by eapply sendable_owner|]. intros [] s3 Hk3. by eapply keeps_trans.
Qed.
Lemma mc_afterReceiveInterest_ok r i f p (s : Forwarder Q) :
  fw_inv s → sendable s p r i → is_Some (fw_faces s !! f) →
  wp (mc_afterReceiveInterest rs r f p) (fun _ s' => keeps s s') s.
Proof using Type.
  intros Hi Hs Hf. destruct (sendable_entry _ _ _ _ Hs) as [j Hj]. unfold mc_afterReceiveInterest.
  apply wp_bind. eapply wp_mono; [by eapply lookupFib_ok|]. intros fe s' ->. apply forM_keeps; [done|].
  intros nh s1 _ Hi1 He1. destruct (sendable_ext _ _ _ _ _ He1 Hs) as (i1 & Hs1 & _).
  eapply mc_forwardTo_ok; [done|exact Hs1|by eapply ext_face].
Qed.
Lemma mc_afterNewNextHop_ok nh p i (s : Forwarder Q) :
  fw_inv s → entryOf s p i → wp (mc_afterNewNextHop nh p) (fun _ s' => keeps s s') s.
Proof.
  intros Hi He. destruct (entryOf_lookup _ _ _ He) as (pe & n & Hp & Hn & Hpi). unfold mc_afterNewNextHop.
  apply wp_bind. eapply wp_pitEntryOf; [done|]. apply wp_bind. eapply wp_interestOf; [done|]. apply wp_bind, wp_get.
  destruct (List.find _ _) as [rec|] eqn:Ef; [|by apply wp_ret]. apply find_some in Ef as [_ Hel].
  destruct (fw_faces s !! in_face rec) as [inFace|]; [|done].
  eapply forward_ok; [done|by eapply own_sendable|by eapply eligible_face].
Qed.
#[export] Instance MulticastLaws : StrategyLaws (MulticastStrategy rs).
Proof using All.
  split; cbn [MulticastStrategy afterReceiveInterest afterContentStoreHit beforeSatisfyInterest
    afterReceiveData afterReceiveNack onDroppedInterest afterNewNextHop].
  - intros. by eapply mc_afterReceiveInterest_ok.
  - intros. by eapply base_hit_ok.
  - intros. by apply wp_ret.
  - intros. by eapply base_data_ok.
  - intros. by apply wp_ret.
  - intros. by apply wp_ret.
  - intros. by eapply mc_afterNewNextHop_ok.
Qed.
End mc.

Section rd.
Context (shuffle : Forwarder Q → list NextHop → list NextHop).
Context (shuffle_perm : ∀ s l, shuffle s l ≡ₚ l).
Lemma rd_afterReceiveInterest_ok r i f p (s : Forwarder Q) :
  fw_inv s → sendable s p r i → is_Some (fw_faces s !! f) →
  wp (rd_afterReceiveInterest shuffle r f p) (fun _ s' => keeps s s') s.
Proof using Type shuffle_perm.
  intros Hi Hs Hf. destruct (sendable_entry _ _ _ _ Hs) as [j Hj]. destruct (entryOf_lookup _ _ _ Hj) as (pe & n & Hp & Hn & Hpi).
  unfold rd_afterReceiveInterest. apply wp_bind. eapply wp_mono; [by eapply lookupFib_ok|]. intros fe s' ->.
  apply wp_bind. eapply wp_pitEntryOf; [done|]. apply wp_bind. eapply wp_interestOf; [apply Hs|].
  pose proof Hf as [face Hface]. apply wp_bind. eapply wp_getFace; [done|]. apply wp_bind, wp_get.
  destruct (List.filter _ _) as [|nh0 l] eqn:El; [by eapply noNextHop_ok|].
  pose proof (shuffle_perm s (nh0 :: l)) as Hperm. destruct (shuffle s (nh0 :: l)) as [|nh l'] eqn:Esh.
  { by apply Permutation_nil_cons in Hperm. }
  assert (nh ∈ nh0 :: l) as Hin by (rewrite <-Hperm; by left).
  rewrite <-El in Hin. apply list_elem_of_In, filter_In in Hin as [_ Hel].
  apply wp_bind. eapply wp_deref; [done|]. eapply forward_ok; [done|exact Hs|by eapply eligible_face].
Qed.
Lemma RandomLaws : StrategyLaws (RandomStrategy shuffle).
Proof using All.
  split; cbn [RandomStrategy afterReceiveInterest afterContentStoreHit beforeSatisfyInterest
    afterReceiveData afterReceiveNack onDroppedInterest afterNewNextHop].
  - intros. by eapply rd_afterReceiveInterest_ok.
  - intros. by eapply base_hit_ok.
  - intros. by apply wp_ret.
  - intros. by eapply base_data_ok.
  - intros. by eapply (br_afterReceiveNack_ok defaultRetx).
  - intros. by apply wp_ret.
  - intros. by apply wp_ret.
Qed.
End rd.
End laws.
