(* ===== verification/ForwarderSafety.v ===== *)
(** * Safety of the forwarder

    Every pipeline of [fw/forwarder.cpp], run on a consistent state with
    strategies that keep the laws of [StrategyLaws], returns and leaves a
    consistent state. *)

From S2P Require Import Prelude Tlv Component Name Packet PitAssist Hashtable NameTree NameEnum Face FibEntry.
From S2P Require Import PitEntry Store Pit Fib DeadNonceList Cs Algorithm Forwarder ForwarderInv BestRoute.
Local Open Scope Z_scope.

(** ** The content store under tagging *)

Definition sameData (a b : Data) : Prop :=
  d_name a = d_name b ∧ d_digest a = d_digest b.

Lemma sameData_sorted l l' :
  Forall2 sameData l l' → StronglySorted data_lt l → StronglySorted data_lt l'.
Proof.
  induction 1 as [|a b l l' Hab Hl IH]; [done|]. intros [Hs Hall]%StronglySorted_inv.
  constructor; [by apply IH|]. clear IH Hs. induction Hl as [|c d l l' Hcd Hl IH]; [constructor|].
  apply Forall_cons in Hall as [Hac Hall]. constructor; [|by apply IH].
  destruct Hab as [E1 E2], Hcd as [E3 E4]. unfold data_lt, compareDataWithData, digestOf in *.
  by rewrite <-E1, <-E2, <-E3, <-E4.
Qed.

Section tag.
Context {Q : Type} {Pol : CsPolicy Q} {Laws : CsPolicyLaws Q}.
Lemma cs_tagData_ok (d : Data) (c : Cs Q) :
  cs_inv c →
  cs_inv (cs_tagData (getFullName d) d c) ∧
  ∀ e, e ∈ cs_table (cs_tagData (getFullName d) d c) → e ∈ cs_table c ∨ ce_data e = d.
Proof.
  intros [[Hs Hp Ht] Hl].
  assert (∀ table, Forall2 sameData (map ce_data table) (map ce_data (updateFirst
    (fun e => bool_decide (entryKey e = getFullName d))
    (fun e => mkCsEntry d (ce_isUnsolicited e) (ce_freshUntil e)) table))) as Hsame.
  { induction table as [|e table IH]; simpl; [constructor|].
    assert (∀ l : list CsEntry, Forall2 sameData (map ce_data l) (map ce_data l)) as Hrefl.
    { induction l; simpl; by constructor. }
    case_bool_decide as E; simpl; constructor; [|apply Hrefl|done|done].
    unfold entryKey in E. apply getFullName_inj in E as [E1 E2]. split; [done|]. by injection E2. }
  assert (∀ table, map entryKey (updateFirst (fun e => bool_decide (entryKey e = getFullName d))
    (fun e => mkCsEntry d (ce_isUnsolicited e) (ce_freshUntil e)) table) = map entryKey table) as Hkey.
  { induction table as [|e table IH]; simpl; [done|].
    case_bool_decide as E; simpl; [|by rewrite IH]. by rewrite E. }
  unfold cs_tagData. split; [split; [split|]|]; cbn [cs_table cs_policy set_cs cs_limit].
  - unfold csSorted. by eapply sameData_sorted.
  - done.
  - by rewrite Hkey.
  - by rewrite updateFirst_length.
  - clear. intros e. induction (cs_table c) as [|x l IH]; simpl; [by intros ?%not_elem_of_nil|].
    case_bool_decide; rewrite !elem_of_cons; [|naive_solver]. intros [->|?]; [by right|by left; right].
Qed.

Lemma cs_find_sound t i (c : Cs Q) e c' :
  cs_find t i c = Ok (Some e, c') → e ∈ cs_table c ∧ matchesData i (ce_data e) = true.
Proof.
  unfold cs_find. destruct (negb _ || _); [done|].
  destruct (List.find _ _) as [e'|] eqn:Hf; [|done]. simpl.
  destruct (doBeforeUse _ _); [|done]. intros [= <- _].
  apply find_some in Hf as [Hin%list_elem_of_In%range_sub Hs]. split; [done|].
  unfold canSatisfy in Hs. by destruct (matchesData i (ce_data e')).
Qed.
End tag.

Section safety.
Context `{Env : Environment} `{!EnvironmentLaws Env}.
Context {Q : Type} {Pol : CsPolicy Q} {Laws : CsPolicyLaws Q}.
Context (strategy : StrategyRef → Strategy (Q := Q)) {SL : ∀ st, StrategyLaws (strategy st)}.
Abbreviation FW := (M (Forwarder Q)).
Abbreviation pits s := (st_pits (fw_store s)).
Abbreviation interests s := (st_interests (fw_store s)).
Abbreviation tree s := (st_nameTree (fw_store s)).

Lemma keeps_refl (s : Forwarder Q) : fw_inv s → keeps s s.
Proof. by split. Qed.

(** Continuing after a step that keeps the invariant. *)
Lemma wp_then {A} (m : FW A) (k : A → FW unit) s :
  wp m (fun _ s' => keeps s s') s →
  (∀ a s', keeps s s' → wp (k a) (fun _ s2 => keeps s' s2) s') →
  wp (m ≫= k) (fun _ s' => keeps s s') s.
Proof.
  intros Hm Hk. apply wp_bind. eapply wp_mono; [exact Hm|]. intros a s1 H1.
  eapply wp_mono; [by apply Hk|]. intros b s2 H2. by apply (keeps_trans s s1).
Qed.

(** ** Tables outside the store *)

Lemma wp_onDnl f d s :
  fw_inv s → f (fw_dnl s) = Ok d → dnl_inv d → wp (onDnl f) (fun _ s' => keeps s s') s.
Proof.
  intros Hi Hf Hd. unfold onDnl. apply wp_bind, wp_get, wp_bind. eapply wp_lift; [done|]. apply wp_put.
  split; [|by apply ext_eq]. destruct Hi. by split.
Qed.
Lemma wp_onCs f c s :
  fw_inv s → f (fw_cs s) = Ok c → cs_inv c →
  (∀ e, e ∈ cs_table c → 0 ≤ d_freshnessPeriod (ce_data e)) →
  wp (onCs f) (fun _ s' => keeps s s' ∧ fw_store s' = fw_store s ∧ fw_faces s' = fw_faces s) s.
Proof.
  intros Hi Hf Hc Hfr. unfold onCs. apply wp_bind, wp_get, wp_bind. eapply wp_lift; [done|]. apply wp_put.
  split; [|done]. split; [|by apply ext_eq]. destruct Hi. by split.
Qed.
Lemma cs_insert_keeps d uns t s :
  fw_inv s → 0 ≤ d_freshnessPeriod d →
  wp (onCs (cs_insert t d uns)) (fun _ s' => keeps s s' ∧ fw_store s' = fw_store s ∧ fw_faces s' = fw_faces s) s.
Proof.
  intros Hi Hd. destruct (cs_insert_ok t d uns (fw_cs s) (fi_cs s Hi)) as (c & E & Hc & _ & Hel).
  eapply wp_onCs; [done|exact E|done|]. intros e (e0 & [He0| ->] & <-)%Hel; [by eapply fi_csFresh|done].
Qed.

(** ** The effective strategy *)

Lemma strategyAt_ok s n :
  is_Some (t_sc (tablesAt (tree s) [])) →
  wp (strategyAt strategy (List.find (selects nteHasStrategyChoiceEntry (tree s)) (prefixesDown n (length n))))
    (fun st s' => s' = s ∧ ∃ ref, st = strategy ref) s.
Proof.
  intros [ref0 Hroot].
  assert (selects nteHasStrategyChoiceEntry (tree s) [] = true) as Hsel.
  { unfold selects, nteHasStrategyChoiceEntry. unfold tablesAt, tablesOf in Hroot.
    destruct (nt_entries (tree s) !! []); [by rewrite Hroot|done]. }
  destruct (List.find _ _) as [m|] eqn:Hf.
  - apply find_some in Hf as [_ Hm]. unfold strategyAt. apply wp_bind, wp_get, wp_bind.
    unfold selects, nteHasStrategyChoiceEntry in Hm. unfold tablesAt, tablesOf.
    destruct (nt_entries (tree s) !! m) as [e|]; [|done].
    destruct (t_sc (e_tables e)) as [ref|]; [|done]. eapply wp_deref; [done|]. apply wp_ret. eauto.
  - exfalso. rewrite (find_none _ _ Hf []) in Hsel; [done|]. apply list_elem_of_In, prefixesDown_elem; [done|].
    split; [apply prefix_nil|simpl; lia].
Qed.
Lemma findEffectiveStrategy_pit p i s :
  pit_inv HashFunc (fw_store s) → is_Some (t_sc (tablesAt (tree s) [])) → entryOf s p i →
  wp (findEffectiveStrategy strategy p) (fun st s' => s' = s ∧ ∃ ref, st = strategy ref) s.
Proof.
  intros Hi Hroot He. destruct (entryOf_lookup _ _ _ He) as (pe & n & Hp & Hn & Hpi).
  destruct He as (n' & Ha & Hpi'). assert (n' = n) as ->.
  { destruct Ha as (pe' & ? & ?). congruence. }
  unfold findEffectiveStrategy. apply wp_bind. eapply wp_pitEntryOf; [done|]. apply wp_bind.
  eapply wp_interestOf; [done|]. apply wp_bind. eapply wp_deref; [done|]. apply wp_bind, wp_get.
  rewrite findLongestPrefixMatch_pit_spec, findLongestPrefixMatch_spec.
  - by apply strategyAt_ok.
  - apply Hi.
  - apply Hi.
  - rewrite (pi_place _ _ Hi _ _ _ Ha Hpi'). apply prefix_take.
  - apply (pi_slot _ _ Hi) in Ha. destruct (nt_entries (tree s) !! n) eqn:E; [eauto|].
    rewrite pitSlot_no_entry in Ha by done. by apply not_elem_of_nil in Ha.
Qed.
Lemma findEffectiveStrategy_ok p i s :
  fw_inv s → entryOf s p i →
  wp (findEffectiveStrategy strategy p) (fun st s' => s' = s ∧ ∃ ref, st = strategy ref) s.
Proof. intros Hi. apply findEffectiveStrategy_pit; apply Hi. Qed.

(** Asking the effective strategy: what is proved of every strategy holds. *)
Lemma ask_strategy p i s (k : Strategy → FW unit) (R : Forwarder Q → Prop) :
  fw_inv s → entryOf s p i → (∀ ref, wp (k (strategy ref)) (fun _ => R) s) →
  wp (findEffectiveStrategy strategy p ≫= k) (fun _ => R) s.
Proof.
  intros Hi He Hk. apply wp_bind. eapply wp_mono; [by eapply findEffectiveStrategy_ok|].
  intros st s' (-> & ref & ->). apply Hk.
Qed.

(** ** Dead nonces and loops *)

Lemma insertDeadNonceList_ok p i upstream s :
  fw_inv s → entryOf s p i → wp (insertDeadNonceList p upstream) (fun _ s' => keeps s s') s.
Proof.
  intros Hi He. destruct (entryOf_lookup _ _ _ He) as (pe & n & Hp & Hn & Hpi).
  assert (∀ name nonce s', keeps s s' →
    wp (onDnl (fun d => dnl_add cityHash64WithSeed d name nonce)) (fun _ s2 => keeps s' s2) s') as Hadd.
  { intros name nonce s' [Hi' _].
    destruct (dnl_step_spec cityHash64WithSeed (DnlAdd name nonce) _ (fi_dnl s' Hi')) as (d & E & Hd & _).
    by eapply wp_onDnl. }
  unfold insertDeadNonceList. apply wp_bind. eapply wp_pitEntryOf; [done|]. apply wp_bind.
  eapply wp_interestOf; [done|]. apply wp_bind, wp_get, wp_bind.
  eapply wp_mono with (R := fun _ s' => s' = s).
  { destruct (pe_isSatisfied pe) eqn:Es; [|by apply wp_ret]. apply wp_bind, wp_assert; [|by apply wp_ret].
    apply bool_decide_eq_true. by apply (ef_fresh _ _ (fi_entry s Hi _ _ Hp)). }
  intros need s' ->. destruct need; cbn [negb]; [|by apply wp_ret, keeps_refl].
  destruct upstream as [f|].
  - destruct (getOutRecord pe f); [|by apply wp_ret, keeps_refl]. by apply Hadd, keeps_refl.
  - apply keeps_loop; [done|]. intros rec s' _ H'. by apply Hadd.
Qed.

Lemma onInterestLoop_ok r f s :
  fw_inv s → is_Some (interests s !! r) → is_Some (fw_faces s !! f) →
  wp (onInterestLoop r f) (fun _ s' => keeps s s') s.
Proof.
  intros Hi [i Hr] [face Hf]. unfold onInterestLoop. apply wp_bind. eapply wp_getFace; [done|].
  case_bool_decide; [by apply wp_ret, keeps_refl|]. apply wp_bind. eapply wp_interestOf; [done|].
  apply wp_bind, wp_emit; [done|simpl; eauto|]. intros s1 Hi1 He1 _ _ _.
  apply wp_count; [done|]. intros s2 Hi2 He2 _ _ _ _. split; [done|by trans s1].
Qed.
Lemma sendNackDirect_ok reason r f s :
  fw_inv s → is_Some (interests s !! r) → is_Some (fw_faces s !! f) →
  wp (sendNackDirect reason r f) (fun _ s' => keeps s s') s.
Proof.
  intros Hi [i Hr] Hf. unfold sendNackDirect. apply wp_bind. eapply wp_interestOf; [done|].
  apply wp_bind, wp_emit; [done|done|]. intros s1 Hi1 He1 _ _ _.
  apply wp_count; [done|]. intros s2 Hi2 He2 _ _ _ _. split; [done|by trans s1].
Qed.

(** ** Accepting an Interest *)

Lemma recordable_interest (s : Forwarder Q) p r :
  recordable s p r → is_Some (interests s !! r) ∧ ∃ i, entryOf s p i.
Proof. intros (mine & i & ? & ? & ?). eauto. Qed.

Lemma addInRecord_ok p f r s :
  fw_inv s → recordable s p r → is_Some (fw_faces s !! f) →
  wp (addInRecord p f r) (fun _ s' => keeps s s' ∧ ∃ pe, pits s' !! p = Some pe ∧ pe_inRecords pe ≠ []) s.
Proof.
  intros Hi (mine & i & He & Hr & Hm) Hf. destruct (entryOf_lookup _ _ _ He) as (pe & n & Hp & Hn & Hmi).
  unfold addInRecord. apply wp_bind. eapply wp_pitEntryOf; [done|].
  apply wp_bind. eapply wp_interestOf; [done|]. apply wp_bind. eapply wp_interestOf; [done|].
  apply wp_bind. eapply wp_lift; [apply canMatch_0|]. apply wp_bind, wp_assert; [done|].
  apply wp_bind. eapply wp_mono; [by apply getNonce_ok|]. intros nonce s1 (Hi1 & Hq1 & Hp1 & _).
  assert (pits s1 !! p = Some pe) as Hpe1 by by rewrite Hp1.
  pose proof (pi_entry _ _ (fi_pit s1 Hi1) _ _ Hpe1) as Hok.
  apply wp_bind, wp_gets. eapply wp_changePitEntry with (pe := pe); [done|done|..].
  - unfold insertOrUpdateInRecord. by destruct (getInRecord pe f).
  - unfold insertOrUpdateInRecord. by destruct (getInRecord pe f).
  - apply entry_ok_in; [done|]. eapply ext_interest; [apply Hq1|eauto].
  - eapply entry_fw_in; [done|by rewrite (q_faces _ _ Hq1)|by eapply fi_entry].
  - intros s2 Hi2 He2 Ht2 Hf2 _ Hp2 Hin2. split.
    + apply (keeps_trans s s1); [split; [done|apply Hq1]|by split].
    + eexists. rewrite Hp2. split; [apply lookup_insert_eq|]. intros E.
      assert (mkInRecord f nonce (fw_now s1) (recordExpiry (fw_now s1) (i_lifetime i)) r ∈
        pe_inRecords (insertOrUpdateInRecord (fw_now s1) f r nonce (i_lifetime i) pe)) as Hin.
      { apply insertOrUpdateInRecord_spec; [apply Hok|by left]. }
      rewrite E in Hin. by apply not_elem_of_nil in Hin.
Qed.

Lemma attachDefaultHopLimit_ok r s :
  fw_inv s → is_Some (interests s !! r) → wp (attachDefaultHopLimit r) (fun _ s' => keeps s s') s.
Proof.
  intros Hi [i Hr]. unfold attachDefaultHopLimit. apply wp_bind. eapply wp_interestOf; [done|].
  apply wp_bind, wp_get. destruct (_ && _); [|by apply wp_ret, keeps_refl].
  eapply wp_changeInterest; [done|done|done|]. intros s' Hi' He' _ _ _ _ _. by split.
Qed.

Lemma acceptInterest_ok r f p s :
  fw_inv s → recordable s p r → is_Some (fw_faces s !! f) →
  wp (acceptInterest r f p) (fun _ s' => keeps s s') s.
Proof.
  intros Hi Hrec Hf. destruct (recordable_interest _ _ _ Hrec) as [Hr [i He]]. unfold acceptInterest.
  apply wp_then; [by apply attachDefaultHopLimit_ok|]. intros [] s1 [Hi1 He1].
  apply wp_bind. eapply wp_mono; [apply addInRecord_ok; [done|by eapply recordable_ext|by eapply ext_face]|].
  intros [] s2 (Hk2 & pe & Hp & Hne). apply wp_bind. eapply wp_pitEntryOf; [done|].
  apply wp_bind. unfold lastExpiry. destruct (pe_inRecords pe) as [|rec l]; [done|].
  eapply wp_deref; [done|]. apply wp_bind, wp_gets. destruct Hk2 as [Hi2 He2].
  destruct (ext_entryOf s s2 p i) as (i2 & Hen2 & _); [by trans s1|done|].
  eapply wp_mono; [by eapply setExpiryTimer_ok|]. intros [] s3 H3. by apply (keeps_trans s1 s2); [split|].
Qed.

(** ** Content store hits and misses *)

Lemma faceTable_get_ok (faces : gmap FaceRef Face) id f :
  faceTable_get faces id = Some f → is_Some (faces !! f).
Proof.
  unfold faceTable_get. case_bool_decide; [done|]. destruct (List.find _ _) as [[g x]|] eqn:E; [|done].
  intros [= <-]. apply find_some in E as [E _]. apply list_elem_of_In, elem_of_map_to_list in E. eauto.
Qed.

Lemma onContentStoreMiss_ok r i f p s :
  fw_inv s → interests s !! r = Some i → isReflexiveInterestFromProducer i = Ok false →
  recordable s p r → is_Some (fw_faces s !! f) →
  wp (onContentStoreMiss strategy r f p) (fun _ s' => keeps s s') s.
Proof using All.
  intros Hi Hr Hfp Hrec Hf. unfold onContentStoreMiss.
  apply wp_then. { apply wp_count; [done|]. intros s' ? ? _ _ _ _. by split. }
  intros [] s1 [Hi1 He1]. apply wp_then.
  { apply acceptInterest_ok; [done|by eapply recordable_ext|by eapply ext_face]. }
  intros [] s2 [Hi2 He2]. assert (ext s s2) as He by by trans s1.
  assert (sendable s p r i) as Hs by (split; [done|by left]).
  destruct (sendable_ext _ _ _ _ _ He Hs) as (i2 & Hs2 & Hc2). pose proof Hs2 as [Hr2 _].
  apply wp_bind. eapply wp_interestOf; [done|]. destruct (i_nextHopFaceIdTag i2) as [id|].
  - apply wp_bind, wp_get. destruct (faceTable_get _ id) as [g|] eqn:Hg; [|by apply wp_ret, keeps_refl].
    apply wp_bind. eapply wp_mono; [eapply onOutgoingInterest_ok; [done|exact Hs2|by eapply faceTable_get_ok]|].
    intros b s3 (Hi3 & He3 & _). apply wp_ret. by split.
  - apply wp_then.
    { destruct (isReflexiveInterest i2); [|by apply wp_ret, keeps_refl]. apply wp_bind, wp_get.
      eapply wp_mono; [by eapply tagPitToken_ok|]. intros [] s3 (Hi3 & Hq3 & _). split; [done|apply Hq3]. }
    intros [] s3 [Hi3 He3]. assert (ext s s3) as He' by by trans s2.
    destruct (sendable_ext _ _ _ _ _ He' Hs) as (i3 & Hs3 & _).
    destruct (sendable_entry _ _ _ _ Hs3) as [j Hj].
    eapply ask_strategy; [done|done|]. intros ref. eapply sl_interest; [done|exact Hs3|by eapply ext_face].
Qed.

Lemma satisfy_ok p i d s :
  fw_inv s → entryOf s p i → 0 ≤ d_freshnessPeriod d →
  wp (changePitEntry p (set_pe_satisfied (d_freshnessPeriod d))) (fun _ s' => keeps s s') s.
Proof.
  intros Hi He Hd. destruct (entryOf_lookup _ _ _ He) as (pe & n & Hp & Hn & Hpi).
  eapply wp_changePitEntry; [done|done|done|done|..].
  - by destruct (pi_entry _ _ (fi_pit s Hi) _ _ Hp).
  - by destruct (fi_entry s Hi _ _ Hp).
  - intros s' ? ? _ _ _ _ _. by split.
Qed.

Lemma onContentStoreHit_ok r i f p d s :
  fw_inv s → interests s !! r = Some i → recordable s p r → is_Some (fw_faces s !! f) →
  matchesData i d = true → 0 ≤ d_freshnessPeriod d →
  wp (onContentStoreHit strategy r f p d) (fun _ s' => keeps s s') s.
Proof using All.
  intros Hi Hr Hrec Hf Hm Hd. unfold onContentStoreHit.
  destruct Hrec as (mine & i' & He & Hr' & Hmi). assert (i' = i) as -> by congruence.
  apply wp_then. { apply wp_count; [done|]. intros s' ? ? _ _ _ _. by split. }
  intros [] s1 [Hi1 He1]. destruct (ex_interests _ _ He1 _ _ Hr) as (i1 & Hr1 & _).
  apply wp_bind. eapply wp_interestOf; [done|]. cbv zeta. set (d' := set_d_pitTokenTag _ _).
  destruct (cs_tagData_ok d' (fw_cs s1) (fi_cs s1 Hi1)) as [Hcs Hel].
  apply wp_then.
  { eapply wp_mono; [eapply wp_onCs; [done|reflexivity|exact Hcs|]|by intros [] ? [? _]].
    intros e [He'| ->]%Hel; [by eapply fi_csFresh|done]. }
  intros [] s2 [Hi2 He2]. assert (ext s s2) as Hx2 by by trans s1.
  destruct (ext_entryOf _ _ _ _ Hx2 He) as (m2 & Hen2 & _). apply wp_then; [by eapply satisfy_ok|].
  intros [] s3 [Hi3 He3]. assert (ext s s3) as Hx3 by by trans s2.
  destruct (ext_entryOf _ _ _ _ Hx3 He) as (m3 & Hen3 & _). apply wp_then; [by eapply setExpiryTimer_ok|].
  intros [] s4 [Hi4 He4]. assert (ext s s4) as Hx4 by by trans s3.
  destruct (ext_entryOf _ _ _ _ Hx4 He) as (m4 & Hen4 & Hk4 & _).
  eapply ask_strategy; [done|done|]. intros ref. eapply sl_hit; [done|done| |by eapply ext_face].
  apply matchesInterest_spec in Hmi. rewrite <-(sameKey_matchesData mine m4) by done.
  by rewrite (sameKey_matchesData mine i).
Qed.

Lemma lookupContentStore_ok r i f p s :
  fw_inv s → interests s !! r = Some i → isReflexiveInterestFromProducer i = Ok false →
  recordable s p r → is_Some (fw_faces s !! f) →
  wp (lookupContentStore strategy r f p) (fun _ s' => keeps s s') s.
Proof using All.
  intros Hi Hr Hfp Hrec Hf. unfold lookupContentStore. apply wp_bind. eapply wp_interestOf; [done|].
  apply wp_bind, wp_get. destruct (cs_find_ok (fw_now s) i (fw_cs s) (fi_cs s Hi)) as (o & c & E & Hc & Ht & _).
  apply wp_bind. eapply wp_lift; [exact E|]. cbv beta iota.
  assert (keeps s (set_fw_cs c s)) as Hk.
  { split; [|by apply ext_eq]. destruct Hi. split; try done. cbn [fw_cs set_fw_cs]. by rewrite Ht. }
  apply wp_then; [by apply wp_put|]. intros [] s1 [Hi1 He1].
  destruct (ex_interests _ _ He1 _ _ Hr) as (i1 & Hr1 & Hkey & _). destruct o as [e|].
  - destruct (cs_find_sound _ _ _ _ _ E) as [Hin Hm]. eapply onContentStoreHit_ok; [done|done| | | |].
    + by eapply recordable_ext.
    + by eapply ext_face.
    + by rewrite <-(sameKey_matchesData i i1).
    + by apply (fi_csFresh s Hi).
  - eapply onContentStoreMiss_ok; [done|done| | |].
    + by rewrite <-(sameKey_fromProducer i i1).
    + by eapply recordable_ext.
    + by eapply ext_face.
Qed.

(** ** Reflexive Interests *)

(** The PIT token of a packet, when it has one, has at least four bytes. *)
Definition tokenReadable (i : Interest) : Prop :=
  ∀ t, i_pitTokenTag i = Some t → (4 ≤ length t)%nat.
(** The random source yields an unused token within the allowed draws. *)
Definition tokenAvailable (a : pit_assist) (k : nat) : Prop :=
  ∃ j, (j < tokenFuel)%nat ∧ u32 (randomWord (k + j)%nat) ≠ 0 ∧
    m_Token_to_Name a !! u32 (randomWord (k + j)%nat) = None.

Lemma readToken_ok i s :
  tokenReadable i →
  wp (match i_pitTokenTag i with None => mret 0 | Some t => lift (readPitToken t) end)
    (fun (_ : Z) s' => s' = s) (s : Forwarder Q).
Proof.
  intros Hi. destruct (i_pitTokenTag i) as [t|] eqn:E; [|by apply wp_ret].
  destruct (readPitToken_ok t) as [v Hv]; [by apply Hi|]. by eapply wp_lift.
Qed.

Lemma onSendingRI_ok r i f p s :
  fw_inv s → interests s !! r = Some i → isReflexiveInterestFromProducer i = Ok true →
  tokenReadable i → recordable s p r → is_Some (fw_faces s !! f) →
  wp (onSendingRI strategy r f p) (fun _ s' => keeps s s') s.
Proof using All.
  intros Hi Hr Hfp Htok Hrec Hf. unfold onSendingRI. apply wp_bind. eapply wp_interestOf; [done|].
  apply wp_bind. eapply wp_mono; [by apply readToken_ok|]. intros tok s' ->.
  case_bool_decide; [by apply sendNackDirect_ok; [|eauto|]|]. apply wp_bind, wp_get.
  destruct (tokenToName (fw_assist s) tok) as [name []]; [|by apply sendNackDirect_ok; [|eauto|]].
  pose proof (findBasedOnName_spec HashFunc (fw_store s) name (fi_pit s Hi)) as Hfind.
  destruct (findBasedOnName HashFunc (fw_store s) name) as [po|]; [|by apply wp_ret, keeps_refl].
  destruct (nameToPrevToken (fw_assist s) name) as [prev []]; [|by apply wp_ret, keeps_refl].
  destruct Hfind as (Hatt & io & Hio & _). assert (entryOf s po io) as Hpo by by exists name.
  apply wp_then.
  { eapply wp_mono; [by eapply tagPitToken_ok|]. intros [] s1 (Hi1 & Hq1 & _). split; [done|apply Hq1]. }
  intros [] s1 [Hi1 He1]. apply wp_then.
  { apply acceptInterest_ok; [done|by eapply recordable_ext|by eapply ext_face]. }
  intros [] s2 [Hi2 He2]. assert (ext s s2) as He by by trans s1.
  assert (sendable s po r i) as Hs. { split; [done|]. right. split_and!; eauto. }
  destruct (sendable_ext _ _ _ _ _ He Hs) as (i2 & Hs2 & _).
  destruct (recordable_interest s2 p r) as [_ [j Hj]]; [by eapply recordable_ext|].
  eapply ask_strategy; [done|exact Hj|]. intros ref. eapply sl_interest; [done|exact Hs2|by eapply ext_face].
Qed.

(** The token of a reflexive Interest is created once. *)
Lemma learnToken_ok i s :
  fw_inv s → tokenReadable i →
  (isReflexiveInterest i = true → existName (fw_assist s) (i_name i) = true ∨
     tokenAvailable (fw_assist s) (fw_drawn s)) →
  wp (if isReflexiveInterest i then
        prevToken ← (match i_pitTokenTag i with None => mret 0 | Some t => lift (readPitToken t) end);
        s ← get;
        if existName (fw_assist s) (i_name i) then mret tt
        else
          '(a, k) ← lift (createName randomWord tokenFuel (fw_assist s) (fw_drawn s) (i_name i) prevToken);
          put (set_fw_assist a k s)
      else mret tt)
    (fun _ s' => keeps s s' ∧ fw_store s' = fw_store s ∧ fw_faces s' = fw_faces s ∧ fw_output s' = fw_output s ∧
       fw_cs s' = fw_cs s ∧
       (isReflexiveInterest i = true → existName (fw_assist s') (i_name i) = true)) s.
Proof.
  intros Hi Htok Hav. pose proof (keeps_refl _ Hi).
  destruct (isReflexiveInterest i) eqn:Hri; [|by apply wp_ret].
  apply wp_bind. eapply wp_mono; [by apply readToken_ok|]. intros prev s' ->. apply wp_bind, wp_get.
  destruct (existName (fw_assist s) (i_name i)) eqn:Hex; [by apply wp_ret|].
  destruct Hav as [?|(j & Hj & H0 & Hn)]; [done|congruence|].
  destruct (createName_ok randomWord tokenFuel (fw_assist s) (fw_drawn s) j (i_name i) prev)
    as (a & k & E & Hea & Ha); [apply Hi|done..|].
  apply wp_bind. eapply wp_lift; [exact E|]. apply wp_put. split; [|done].
  split; [|by apply ext_eq]. destruct Hi. by split.
Qed.

Lemma processInterest_ok r i f p nonce s :
  fw_inv s → interests s !! r = Some i → isReflexiveInterestFromProducer i = Ok false →
  tokenReadable i →
  (isReflexiveInterest i = true → existName (fw_assist s) (i_name i) = true ∨
     tokenAvailable (fw_assist s) (fw_drawn s)) →
  recordable s p r → is_Some (fw_faces s !! f) →
  wp (processInterest strategy r f p nonce) (fun _ s' => keeps s s') s.
Proof using All.
  intros Hi Hr Hfp Htok Hav Hrec Hf. unfold processInterest. apply wp_bind. eapply wp_interestOf; [done|].
  apply wp_then; [eapply wp_mono; [by apply learnToken_ok|]; by intros [] ? [? _]|].
  intros [] s1 [Hi1 He1]. assert (is_Some (fw_faces s1 !! f)) as [face Hf1] by by eapply ext_face.
  assert (recordable s1 p r) as Hrec1 by by eapply recordable_ext.
  destruct (recordable_interest _ _ _ Hrec1) as [Hr1 [j Hj]]. destruct (entryOf_lookup _ _ _ Hj) as (pe & n & Hp & _).
  destruct (ex_interests _ _ He1 _ _ Hr) as (i1 & Hri1 & Hk1 & _).
  assert (isReflexiveInterestFromProducer i1 = Ok false) as Hfp1 by (by rewrite <-(sameKey_fromProducer i i1)).
  apply wp_bind. eapply wp_getFace; [done|]. apply wp_bind. eapply wp_pitEntryOf; [done|].
  destruct (isDuplicateInPit _ _); [by apply onInterestLoop_ok; [| |eauto]|].
  destruct (hasInRecords pe); cbn [negb].
  - by eapply onContentStoreMiss_ok; [| | | |eauto].
  - by eapply lookupContentStore_ok; [| | | |eauto].
Qed.

(** ** Creating and erasing PIT entries *)

(** A change of the PIT that leaves the other tables alone. *)
Lemma pit_step s st' :
  fw_inv s → pit_inv HashFunc st' → (∀ n, nonPit st' n = nonPit (fw_store s) n) →
  st_fibItems st' = st_fibItems (fw_store s) → noEmpty (st_nameTree st') →
  (∀ p pe, st_pits st' !! p = Some pe → entry_fw (fw_faces s) pe) →
  (∀ p pe i, st_pits st' !! p = Some pe → st_interests st' !! pe_interest pe = Some i →
     storable (fw_regions s) i) →
  fw_inv (set_fw_store st' s).
Proof.
  intros [A1 A2 A3 A4 A5 A6 A7 A8 A9 A10 A11 A12] Hpit Hnp Hf Hne He Hr.
  assert (∀ n, fibSlot st' n = fibSlot (fw_store s) n) as Hslot.
  { intros n. by apply (f_equal t_fib (Hnp n)). }
  split; cbn [fw_store fw_faces fw_cs fw_dnl fw_assist fw_output fw_regions set_fw_store]; try done.
  - split; [apply Hpit| |].
    + intros n fe. rewrite Hslot. apply A2.
    + rewrite Hf, (fb_count _ _ A2). do 3 f_equal. apply set_eq. intros n. rewrite !elem_of_fibNames.
      change (t_fib (tablesAt (st_nameTree st') n)) with (fibSlot st' n). by rewrite Hslot.
  - intros n fe. rewrite Hslot. apply A3.
  - pose proof (f_equal t_sc (Hnp [])) as E. simpl in E. by rewrite E.
Qed.

Lemma Pit_insert_keeps r i (R : option PitRef * bool → Forwarder Q → Prop) s :
  fw_inv s → interests s !! r = Some i → storable (fw_regions s) i →
  (∀ p b st', fw_inv (set_fw_store st' s) → recordable (set_fw_store st' s) p r →
     st_interests st' = interests s →
     (∀ p' pe, pits s !! p' = Some pe → st_pits st' !! p' = Some pe) →
     (∀ p' pe, st_pits st' !! p' = Some pe → p' = p ∨ pits s !! p' = Some pe) →
     R (Some p, b) (set_fw_store st' s)) →
  wp (onStore (Pit_insert HashFunc i r)) R s.
Proof.
  intros Hi Hr Hreg HR. destruct (Pit_insert_spec HashFunc (fw_store s) i r (fi_pit s Hi) Hr)
    as (p & b & st' & Hrun & Hpit & Hatt & Hm & Hin & Hfi & Hnp & Hcase & Hne).
  apply wp_zoom. eapply wp_run; [exact Hrun|]. apply HR; [|clear HR|done|clear HR|clear HR].
  - apply pit_step; try done.
    + by apply Hne, fi_noEmpty.
    + intros p' pe'. destruct b; [|rewrite Hcase; apply (fi_entry s Hi)].
      destruct Hcase as (_ & _ & ->). rewrite lookup_insert. case_decide; [|apply (fi_entry s Hi)].
      intros [= <-]. split; simpl; [by intros ? ?%not_elem_of_nil..|done|by intros []].
    + intros p' pe' i'. rewrite Hin. destruct b; [|rewrite Hcase; apply (fi_region s Hi)].
      destruct Hcase as (_ & _ & ->). rewrite lookup_insert. case_decide; [|apply (fi_region s Hi)].
      intros [= <-]. simpl. rewrite Hr. by intros [= <-].
  - unfold matchesEntry in Hm. destruct (pitInterest st' p) as [mine|] eqn:Hmine; [|done].
    exists mine, i. split_and!; [|by rewrite <-Hin in Hr|done]. by exists (nteName (i_name i)).
  - intros p' pe Hp'. destruct b; [|by rewrite Hcase]. destruct Hcase as (_ & Hnew & ->).
    rewrite lookup_insert_ne; [done|congruence].
  - intros p' pe. destruct b; [|rewrite Hcase; by right]. destruct Hcase as (_ & Hnew & ->).
    rewrite lookup_insert. case_decide; [by left|by right].
Qed.

(** A new Interest gets a fresh entry without records. *)
Lemma Pit_insert_new r i s (R : option PitRef * bool → Forwarder Q → Prop) :
  fw_inv s → interests s !! r = Some i → storable (fw_regions s) i →
  (∀ p j, entryOf s p j → matchesInterest j i = false) →
  (∀ p st', fw_inv (set_fw_store st' s) → recordable (set_fw_store st' s) p r →
     st_interests st' = interests s → (∀ n, nonPit st' n = nonPit (fw_store s) n) →
     st_pits st' !! p = Some (set_pe_nameTreeEntry (Some (nteName (i_name i))) (newPitEntry r)) →
     R (Some p, true) (set_fw_store st' s)) →
  wp (onStore (Pit_insert HashFunc i r)) R s.
Proof.
  intros Hi Hr Hreg Hno HR. assert (wp (onStore (Pit_insert HashFunc i r)) (fun o s' =>
    ∃ p b, o = (Some p, b) ∧ fw_inv s' ∧ recordable s' p r) s) as Hw.
  { eapply Pit_insert_keeps; [done|done|done|]. intros p b st' H1 H2 _ _ _. by exists p, b. }
  destruct (Pit_insert_spec HashFunc (fw_store s) i r (fi_pit s Hi) Hr)
    as (p & b & st' & Hrun & Hpit & Hatt & Hm & Hin & Hfi & Hnp & Hcase & Hne).
  revert Hw. unfold wp, onStore, zoom. rewrite Hrun. intros (p' & b' & [= <- <-] & Hi' & Hrec).
  destruct b.
  - destruct Hcase as (_ & _ & Hp). apply HR; try done. rewrite Hp. apply lookup_insert_eq.
  - exfalso. unfold matchesEntry, pitInterest in Hm. rewrite Hcase, Hin in Hm.
    destruct Hatt as (pe & Hpe & Hn). rewrite Hcase in Hpe. rewrite Hpe in Hm. simpl in Hm.
    destruct (interests s !! pe_interest pe) as [j|] eqn:Hj; [|done]. rewrite (Hno p j) in Hm; [done|].
    exists (nteName (i_name i)). split; [by exists pe|]. unfold pitInterest. rewrite Hpe. exact Hj.
Qed.

(** A pending Interest finds its entry again. *)
Lemma Pit_insert_existing r i p pe j s (R : option PitRef * bool → Forwarder Q → Prop) :
  fw_inv s → interests s !! r = Some i → storable (fw_regions s) i →
  pits s !! p = Some pe → is_Some (pe_nameTreeEntry pe) → interests s !! pe_interest pe = Some j →
  matchesInterest j i = true →
  (∀ b st', fw_inv (set_fw_store st' s) → recordable (set_fw_store st' s) p r →
     st_interests st' = interests s → st_pits st' = pits s → R (Some p, b) (set_fw_store st' s)) →
  wp (onStore (Pit_insert HashFunc i r)) R s.
Proof.
  intros Hi Hr Hreg Hp [n Hn] Hj Hm HR. eapply Pit_insert_keeps; [done|done|done|].
  intros p' b st' Hi2 Hrec Hin Hup Hdown. assert (p' = p) as ->.
  { destruct Hrec as (mine & i' & (n' & Ha' & Hmine) & Hr' & Hm'). simpl in Hr'. rewrite Hin, Hr in Hr'.
    injection Hr' as <-.
    eapply (pi_unique _ _ (fi_pit _ Hi2)); [exact Ha'|exists pe; split; [by apply Hup|done]|exact Hmine| |].
    - unfold pitInterest. simpl. rewrite (Hup _ _ Hp). simpl. by rewrite Hin.
    - rewrite matchesInterest_spec in *. unfold sameKey in *. naive_solver congruence. }
  apply HR; [done|done|done|]. apply map_eq. intros q.
  destruct (pits s !! q) as [x|] eqn:Hq; [by apply Hup|].
  destruct (st_pits st' !! q) as [x|] eqn:Hq'; [|done]. destruct (Hdown _ _ Hq') as [->|Hq2]; congruence.
Qed.

Lemma onInterestFinalize_ok p i s :
  fw_inv s → entryOf s p i → wp (onInterestFinalize p) (fun _ s' => fw_inv s') s.
Proof.
  intros Hi He. unfold onInterestFinalize. apply wp_bind.
  eapply wp_mono; [by eapply insertDeadNonceList_ok|]. intros [] s1 [Hi1 He1].
  destruct (ext_entryOf _ _ _ _ He1 He) as (i1 & Hen1 & _). destruct (entryOf_lookup _ _ _ Hen1) as (pe & n & Hp & Hn & Hpi).
  apply wp_bind. eapply wp_pitEntryOf; [done|]. apply wp_bind, wp_count; [done|].
  intros s2 Hi2 _ _ Hf2 _ Hs2. apply wp_bind. rewrite <-Hs2 in Hp.
  eapply wp_changePitEntry; [done|exact Hp|done|done|..].
  - by destruct (pi_entry _ _ (fi_pit s2 Hi2) _ _ Hp).
  - destruct (fi_entry s2 Hi2 _ _ Hp). by split.
  - intros s3 Hi3 He3 _ Hf3 _ Hp3 Hin3. set (pe' := set_pe_expiryTimer None pe) in *.
    assert (pits s3 !! p = Some pe') as Hpe3 by (rewrite Hp3; apply lookup_insert_eq).
    destruct (Pit_erase_spec HashFunc (fw_store s3) p pe' n true (fi_pit s3 Hi3) Hpe3 Hn)
      as (nt' & Hrun & Hpit & Hnp & Hne).
    apply wp_zoom. eapply wp_run; [exact Hrun|]. apply pit_step; try done.
    + by apply Hne, fi_noEmpty.
    + intros p' x. unfold detachEntry. cbn [st_pits]. rewrite lookup_insert.
      case_decide; [|apply (fi_entry s3 Hi3)]. intros [= <-]. destruct (fi_entry s3 Hi3 _ _ Hpe3).
      split; try done. by intros [].
    + intros p' x j. unfold detachEntry. cbn [st_pits st_interests]. rewrite lookup_insert.
      case_decide; [|apply (fi_region s3 Hi3)]. intros [= <-]. by apply (fi_region s3 Hi3 _ _ j Hpe3).
Qed.

(** A packet the forwarder can process: no component makes the reflexive test
    throw, a PIT token is readable, and a token can be drawn if one is needed. *)
Record interest_ok (s : Forwarder Q) (i : Interest) : Prop := {
  io_test : ∃ b, isReflexiveInterestFromProducer i = Ok b;
  io_token : tokenReadable i;
  io_draw : isReflexiveInterest i = true → existName (fw_assist s) (i_name i) = true ∨
    tokenAvailable (fw_assist s)
      (match i_nonce i with Some _ => fw_drawn s | None => S (fw_drawn s) end)
}.

(** The pipeline from the insertion into the PIT. *)
Lemma insertAndProcess_ok r i f nonce s :
  fw_inv s → interests s !! r = Some i → is_Some (fw_faces s !! f) →
  isInProducerRegion (fw_regions s) (i_forwardingHint i) = false →
  (∃ b, isReflexiveInterestFromProducer i = Ok b) → tokenReadable i →
  (isReflexiveInterest i = true → existName (fw_assist s) (i_name i) = true ∨
     tokenAvailable (fw_assist s) (fw_drawn s)) →
  wp ('(p, _) ← onStore (Pit_insert HashFunc i r);
      p ← deref p;
      fromProducer ← lift (isReflexiveInterestFromProducer i);
      if fromProducer : bool then onSendingRI strategy r f p
      else processInterest strategy r f p nonce) (fun _ s' => fw_inv s') s.
Proof using All.
  intros Hi Hr Hf Hreg [b Hb] Htok Hav. apply wp_bind. eapply Pit_insert_keeps; [done|done|by split; [|exists b]|].
  intros p new st' Hi' Hrec Hin _ _. apply wp_bind. eapply wp_deref; [done|]. apply wp_bind.
  eapply wp_lift; [exact Hb|]. destruct b.
  - eapply wp_mono; [eapply onSendingRI_ok with (i := i)|by intros [] ? [? _]]; try done. simpl. by rewrite Hin.
  - eapply wp_mono; [eapply processInterest_ok with (i := i)|by intros [] ? [? _]]; try done. simpl. by rewrite Hin.
Qed.

(** ** The incoming Interest pipeline *)

(** The received packet [packet] is stored as [r], which no PIT entry refers to
    yet; [k] random words have been drawn. *)
Record received (s0 : Forwarder Q) (packet : Interest) (r : InterestRef) (f : FaceRef) (k : nat)
    (s : Forwarder Q) : Prop := {
  rc_inv : fw_inv s;
  rc_face : is_Some (fw_faces s !! f);
  rc_new : ∀ p pe, pits s !! p = Some pe → pe_interest pe ≠ r;
  rc_interest : ∃ i, interests s !! r = Some i ∧ sameKey packet i ∧
    i_forwardingHint i = i_forwardingHint packet ∧ i_pitTokenTag i = i_pitTokenTag packet;
  rc_assist : fw_assist s = fw_assist s0;
  rc_regions : fw_regions s = fw_regions s0;
  rc_drawn : fw_drawn s = k
}.

Lemma received_new packet f s :
  fw_inv s → is_Some (fw_faces s !! f) →
  wp (onStore (newInterest packet)) (fun r s' => received s packet r f (fw_drawn s) s' ∧
    interests s' !! r = Some packet) s.
Proof.
  intros Hi Hf. apply wp_newInterest; [done|]. intros r s1 Hi1 He1 Ht1 Hf1 Hd1 Hp1 Hfr Hin1.
  assert (interests s1 !! r = Some packet) as Hr by (rewrite Hin1; apply lookup_insert_eq).
  split; [|done]. split; [done|by rewrite Hf1| |by exists packet|apply Ht1|apply He1|done].
  rewrite Hp1. intros p pe Hp E. destruct (eo_interest _ _ (pi_entry _ _ (fi_pit s Hi) _ _ Hp)) as [x Hx].
  congruence.
Qed.

(** Changes of the received Interest that keep what identifies it. *)
Lemma received_change s0 packet r f k g s :
  received s0 packet r f k s →
  (∀ i, sameCore i (g i) ∧ i_pitTokenTag (g i) = i_pitTokenTag i) →
  wp (changeInterest r g) (fun _ s' => received s0 packet r f k s') s.
Proof.
  intros [A1 A2 A3 (i & Hr & Hk & Hh & Ht) A5 A6 A7] Hg. destruct (Hg i) as [Hc Hg'].
  eapply wp_changeInterest; [done|done|done|]. intros s1 Hi1 He1 (_ & _ & Ha1 & _) Hf1 Hd1 Hp1 Hin1.
  split; [done|by rewrite Hf1|by rewrite Hp1| |congruence|by rewrite (ex_regions _ _ He1)|congruence].
  exists (g i). rewrite Hin1, lookup_insert_eq. split_and!; [done| |destruct Hc as (_ & <- & _); done|congruence].
  destruct Hc as [Hk' _]. unfold sameKey in *. naive_solver congruence.
Qed.
Lemma received_count s0 packet r f k g s :
  received s0 packet r f k s → wp (count g) (fun _ s' => received s0 packet r f k s' ∧
    interests s' = interests s) s.
Proof.
  intros [A1 A2 A3 A4 A5 A6 A7]. apply wp_count; [done|].
  intros s1 Hi1 He1 (_ & _ & Ha1 & _) Hf1 Hd1 Hs1. split; [|by rewrite Hs1].
  split; [done|by rewrite Hf1|by rewrite Hs1|by rewrite Hs1|congruence|by rewrite (ex_regions _ _ He1)|congruence].
Qed.
Lemma received_nonce s0 packet r i f k s :
  received s0 packet r f k s → interests s !! r = Some i →
  wp (getNonce r) (fun _ s' => received s0 packet r f
    (match i_nonce i with Some _ => k | None => S k end) s') s.
Proof.
  intros [A1 A2 A3 (i' & Hr & Hk & Hh & Ht) A5 A6 A7] Hri. assert (i' = i) as -> by congruence.
  eapply wp_mono; [by eapply getNonce_ok|]. intros n s1 (Hi1 & [He1 (_ & _ & Ha1 & _) Hf1 _] & Hp1 & Hd1 & m & Hr1).
  split; [done|by rewrite Hf1|by rewrite Hp1| |congruence|by rewrite (ex_regions _ _ He1)|].
  - by exists (set_i_nonce m i).
  - rewrite Hd1. destruct (i_nonce i); congruence.
Qed.

Lemma isInProducerRegion_nil regions : isInProducerRegion regions [] = false.
Proof. unfold isInProducerRegion. by induction regions. Qed.

(** Stripping the forwarding hint: the Interest that enters the PIT is not in
    the producer region. *)
Lemma received_strip s0 packet r f k (k' : unit → FW unit) s :
  received s0 packet r f k s →
  (∀ s' i, fw_inv s' → is_Some (fw_faces s' !! f) → interests s' !! r = Some i → sameKey packet i →
     i_pitTokenTag i = i_pitTokenTag packet →
     isInProducerRegion (fw_regions s') (i_forwardingHint i) = false →
     fw_assist s' = fw_assist s0 → fw_drawn s' = k → wp (k' tt) (fun _ s' => fw_inv s') s') →
  wp ((match i_forwardingHint packet with
       | [] => mret tt
       | fh => if isInProducerRegion (fw_regions s) fh
               then changeInterest r (set_i_forwardingHint []) else mret tt
       end) ≫= k') (fun _ s' => fw_inv s') s.
Proof.
  intros [A1 A2 A3 (i & Hr & Hk & Hh & Ht) A5 A6 A7] Hcont. apply wp_bind.
  eapply wp_mono with (R := fun _ s' => ∃ i, fw_inv s' ∧ is_Some (fw_faces s' !! f) ∧
    interests s' !! r = Some i ∧ sameKey packet i ∧ i_pitTokenTag i = i_pitTokenTag packet ∧
    isInProducerRegion (fw_regions s') (i_forwardingHint i) = false ∧
    fw_assist s' = fw_assist s0 ∧ fw_drawn s' = k).
  2:{ intros [] s' (i' & H1 & H2 & H3 & H4 & H5 & H6 & H7 & H8). by apply (Hcont s' i'). }
  destruct (i_forwardingHint packet) as [|h fh] eqn:Efh.
  { apply wp_ret. exists i. split_and!; try done. rewrite Hh. apply isInProducerRegion_nil. }
  destruct (isInProducerRegion (fw_regions s) (h :: fh)) eqn:Ereg.
  2:{ apply wp_ret. exists i. split_and!; try done. by rewrite Hh. }
  apply wp_zoom. eapply wp_run; [by apply setInterest_Ok|].
  exists (set_i_forwardingHint [] i). split_and!; try done.
  - apply pit_step; try done.
    + apply pit_inv_interest; [apply A1|]. intros i0 Hi0. assert (i0 = i) as -> by congruence. done.
    + by apply fi_noEmpty.
    + apply (fi_entry s A1).
    + intros p pe j Hp. cbn [st_interests set_st_interests]. rewrite lookup_insert_ne.
      * by apply (fi_region s A1 p pe j Hp).
      * intros E. by apply (A3 _ _ Hp).
  - simpl. apply lookup_insert_eq.
  - apply isInProducerRegion_nil.
Qed.

Lemma onIncomingInterest_ok packet f s :
  fw_inv s → is_Some (fw_faces s !! f) → interest_ok s packet →
  wp (onIncomingInterest strategy packet f) (fun _ s' => fw_inv s') s.
Proof using All.
  intros Hi Hf [Hb Htok Hdraw]. unfold onIncomingInterest.
  apply wp_bind. eapply wp_mono; [by apply received_new|]. intros r s1 [Hrc1 Hr1].
  destruct (rc_face _ _ _ _ _ _ Hrc1) as [face Hface]. apply wp_bind. eapply wp_getFace; [done|].
  apply wp_bind.
  eapply wp_changeInterest; [apply Hrc1|done|done|].
  intros s2 Hi2 He2 (_ & _ & Ha2 & _) Hf2 Hd2 Hp2 Hin2.
  assert (received s packet r f (fw_drawn s) s2 ∧
    interests s2 !! r = Some (set_i_incomingFaceIdTag (Some (face_id face)) packet)) as [Hrc2 Hr2].
  { rewrite Hin2, lookup_insert_eq. split; [|done]. destruct Hrc1 as [_ B2 B3 _ B5 B6 B7].
    split; [done|by rewrite Hf2|by rewrite Hp2| |congruence|by rewrite (ex_regions _ _ He2)|congruence].
    rewrite Hin2, lookup_insert_eq. eexists. split; [done|]. by split. }
  apply wp_bind. eapply wp_mono; [by eapply received_count|]. intros [] s3 [Hrc3 Hin3].
  apply wp_bind. eapply wp_mono; [eapply received_nonce; [done|by rewrite Hin3]|]. cbn [i_nonce set_i_incomingFaceIdTag].
  set (k := match i_nonce packet with Some _ => _ | None => _ end) in *. intros nonce s4 Hrc4.
  destruct (rc_face _ _ _ _ _ _ Hrc4) as [face4 Hface4].
  case_bool_decide as Eh.
  { eapply wp_setFace; [apply Hrc4|done|done|]. by intros s5 ? _ _ _. }
  apply wp_bind. eapply wp_mono with (R := fun _ s' => received s packet r f k s').
  { destruct (i_hopLimit packet) as [h|]; [|by apply wp_ret]. by apply received_change. }
  intros [] s5 Hrc5. destruct (_ && isPrefixOf _ _); [apply wp_ret, Hrc5|]. apply wp_bind, wp_get.
  destruct (rc_interest _ _ _ _ _ _ Hrc5) as (i5 & Hr5 & _).
  destruct (dnl_has _ _ _ _).
  { eapply wp_mono; [apply onInterestLoop_ok; [apply Hrc5|eauto|apply Hrc5]|by intros [] ? [? _]]. }
  eapply received_strip; [done|]. intros s6 i Hi6 Hf6 Hr6 Hk6 Ht6 Hreg6 Ha6 Hd6.
  apply wp_bind. eapply wp_interestOf; [done|].
  eapply insertAndProcess_ok; [done|done|done|done| | |].
  - by rewrite <-(sameKey_fromProducer packet i).
  - unfold tokenReadable. by rewrite Ht6.
  - destruct Hk6 as (En & _). unfold isReflexiveInterest. rewrite <-En, Ha6, Hd6. exact Hdraw.
Qed.

(** ** The incoming Data pipeline *)

Lemma deleteOut_ok p i f s :
  fw_inv s → entryOf s p i → wp (changePitEntry p (deleteOutRecord f)) (fun _ s' => keeps s s') s.
Proof.
  intros Hi He. destruct (entryOf_lookup _ _ _ He) as (pe & n & Hp & Hn & Hpi).
  pose proof (pi_entry _ _ (fi_pit s Hi) _ _ Hp) as [Hpe Hpi' Hin].
  eapply wp_changePitEntry; [done|done|done|done|..].
  - split; [auto with pit|done|done].
  - destruct (fi_entry s Hi _ _ Hp). split; try done. intros r [? _]%elem_of_deleteOut; by auto.
  - intros s' ? ? _ _ _ _ _. by split.
Qed.
Lemma clearRecords_ok p i f s :
  fw_inv s → entryOf s p i →
  wp (changePitEntry p (fun pe => deleteOutRecord f (clearInRecords pe))) (fun _ s' => keeps s s') s.
Proof.
  intros Hi He. destruct (entryOf_lookup _ _ _ He) as (pe & n & Hp & Hn & Hpi).
  pose proof (pi_entry _ _ (fi_pit s Hi) _ _ Hp) as [Hpe Hpi' Hin].
  assert (pe_inv (clearInRecords pe)) as Hcl by (destruct Hpe; split; [constructor|done]).
  eapply wp_changePitEntry; [done|done|done|done|..].
  - split; [auto with pit|done|]. by intros r ?%not_elem_of_nil.
  - destruct (fi_entry s Hi _ _ Hp). split; try done.
    + by intros r ?%not_elem_of_nil.
    + intros r [? _]%elem_of_deleteOut; by auto.
  - intros s' ? ? _ _ _ _ _. by split.
Qed.

(** What satisfying an entry needs; steps within the frame keep it. *)
Definition satisfiable (d : Data) (s : Forwarder Q) (p : PitRef) : Prop :=
  ∃ i, entryOf s p i ∧ matchesData i d = true.
Lemma satisfiable_ext d s s' p : ext s s' → satisfiable d s p → satisfiable d s' p.
Proof.
  intros He (i & Hen & Hm). destruct (ext_entryOf _ _ _ _ He Hen) as (i' & Hen' & Hk & _).
  exists i'. split; [done|]. by rewrite <-(sameKey_matchesData i i').
Qed.

(** Marking an entry satisfied after its strategy has run. *)
Lemma markSatisfied_ok d f p (last : FW unit) s :
  fw_inv s → satisfiable d s p → 0 ≤ d_freshnessPeriod d →
  (∀ s', keeps s s' → satisfiable d s' p → wp last (fun _ s2 => keeps s' s2) s') →
  wp (changePitEntry p (set_pe_satisfied (d_freshnessPeriod d));; insertDeadNonceList p (Some f);; last)
    (fun _ s' => keeps s s') s.
Proof.
  intros Hi Hs Hd Hlast. destruct Hs as (i & He & Hm). apply wp_then; [by eapply satisfy_ok|].
  intros [] s1 [Hi1 He1]. destruct (ext_entryOf _ _ _ _ He1 He) as (i1 & Hen1 & Hk1 & _).
  apply wp_then; [by eapply insertDeadNonceList_ok|]. intros [] s2 [Hi2 He2].
  assert (ext s s2) by by trans s1. apply Hlast; [by split|]. eapply satisfiable_ext; [done|by exists i].
Qed.

Lemma satisfyOne_ok d f p s :
  fw_inv s → satisfiable d s p → 0 ≤ d_freshnessPeriod d → is_Some (fw_faces s !! f) →
  wp (satisfyOne strategy d f p) (fun _ s' => keeps s s') s.
Proof using All.
  intros Hi Hs Hd Hf. unfold satisfyOne. destruct Hs as (i & He & Hm).
  apply wp_then; [by eapply setExpiryTimer_ok|]. intros [] s1 [Hi1 He1].
  assert (satisfiable d s1 p) as (i1 & Hen1 & Hm1) by (eapply satisfiable_ext; [done|by exists i]).
  eapply ask_strategy; [done|done|]. intros ref.
  apply wp_then; [eapply sl_data; [done|done|done|by eapply ext_face]|]. intros [] s2 [Hi2 He2].
  apply markSatisfied_ok; [done| |done|].
  - eapply satisfiable_ext; [done|by exists i1].
  - intros s3 [Hi3 _] (i3 & Hen3 & _). by eapply deleteOut_ok.
Qed.

Lemma satisfyMany_ok d f ps : ∀ pending s,
  fw_inv s → (∀ p, p ∈ ps → satisfiable d s p) → 0 ≤ d_freshnessPeriod d → is_Some (fw_faces s !! f) →
  (∀ g, g ∈ pending → is_Some (fw_faces s !! g)) →
  wp (satisfyMany strategy d f ps pending)
    (fun pending' s' => keeps s s' ∧ ∀ g, g ∈ pending' → is_Some (fw_faces s' !! g)) s.
Proof using All.
  induction ps as [|p ps IH]; intros pending s Hi Hps Hd Hf Hpend; cbn [satisfyMany].
  { apply wp_ret. split; [by apply keeps_refl|done]. }
  destruct (Hps p) as (i & He & Hm); [by left|]. destruct (entryOf_lookup _ _ _ He) as (pe & n & Hp & _).
  apply wp_bind. eapply wp_pitEntryOf; [done|]. apply wp_bind, wp_gets. set (waiting := map in_face _).
  assert (∀ g, g ∈ pending ++ waiting → is_Some (fw_faces s !! g)) as Hpend'.
  { intros g [?|Hg]%elem_of_app; [auto|]. apply list_elem_of_fmap in Hg as (rec & -> & Hrec).
    apply list_elem_of_In, filter_In in Hrec as [Hrec _]. apply list_elem_of_In in Hrec.
    by apply (ef_in _ _ (fi_entry s Hi _ _ Hp)). }
  apply wp_bind. eapply wp_mono; [by eapply setExpiryTimer_ok|]. intros [] s1 [Hi1 He1].
  assert (satisfiable d s1 p) as (i1 & Hen1 & Hm1) by (eapply satisfiable_ext; [done|by exists i]).
  apply wp_bind. eapply wp_mono; [by eapply findEffectiveStrategy_ok|]. intros st s' (-> & ref & ->).
  apply wp_bind. eapply wp_mono; [eapply sl_before; [done|done|exact Hm1|by eapply ext_face]|].
  intros [] s2 [Hi2 He2].
  assert (satisfiable d s2 p) as (i2 & Hen2 & Hm2) by (eapply satisfiable_ext; [done|by exists i1]).
  apply wp_bind. eapply wp_mono; [by eapply satisfy_ok|]. intros [] s3 [Hi3 He3].
  destruct (ext_entryOf _ _ _ _ He3 Hen2) as (i3 & Hen3 & _).
  apply wp_bind. eapply wp_mono; [by eapply insertDeadNonceList_ok|]. intros [] s4 [Hi4 He4].
  destruct (ext_entryOf _ _ _ _ He4 Hen3) as (i4 & Hen4 & _).
  apply wp_bind. eapply wp_mono; [by eapply clearRecords_ok|]. intros [] s5 [Hi5 He5].
  assert (ext s s5) as Hx by (trans s4; [trans s3; [trans s2; [by trans s1|done]|done]|done]).
  eapply wp_mono; [apply IH; [done| |done|by eapply ext_face|]|].
  - intros p' Hp'. eapply satisfiable_ext; [exact Hx|]. apply Hps. by right.
  - intros g Hg. eapply ext_face; [exact Hx|]. auto.
  - intros pending' s6 [H6 Hg6]. split; [|done]. apply (keeps_trans s s5); [by split|done].
Qed.

Lemma sendToDownstream_ok d f g s :
  fw_inv s → is_Some (fw_faces s !! f) → is_Some (fw_faces s !! g) →
  wp (sendToDownstream d f g) (fun _ s' => keeps s s') s.
Proof.
  intros Hi [x Hf] [y Hg]. unfold sendToDownstream. apply wp_bind. eapply wp_getFace; [done|].
  apply wp_bind. eapply wp_getFace; [done|]. destruct (_ && _); [by apply wp_ret, keeps_refl|].
  apply wp_bind. eapply wp_mono; [apply onOutgoingData_ok; [done|eauto]|]. intros b s1 H1. by apply wp_ret.
Qed.

Lemma onDataUnsolicited_ok d f s :
  fw_inv s → is_Some (fw_faces s !! f) → 0 ≤ d_freshnessPeriod d →
  wp (onDataUnsolicited d f) (fun _ s' => keeps s s') s.
Proof.
  intros Hi Hf Hd. unfold onDataUnsolicited.
  apply wp_then. { apply wp_count; [done|]. intros s' ? ? _ _ _ _. by split. }
  intros [] s1 [Hi1 He1]. destruct (ext_face _ _ _ He1 Hf) as [x Hx]. apply wp_bind.
  eapply wp_getFace; [done|]. apply wp_bind, wp_get.
  destruct (decideUnsolicited _ _); [by apply wp_ret, keeps_refl|].
  eapply wp_mono; [by apply cs_insert_keeps|]. by intros [] ? [? _].
Qed.

Lemma onIncomingData_ok packet f s :
  fw_inv s → is_Some (fw_faces s !! f) → 0 ≤ d_freshnessPeriod packet →
  wp (onIncomingData strategy packet f) (fun _ s' => keeps s s') s.
Proof using All.
  intros Hi Hf Hd. destruct Hf as [face Hface]. unfold onIncomingData. apply wp_bind.
  eapply wp_getFace; [done|]. cbv zeta. set (d := set_d_incomingFaceIdTag _ packet).
  apply wp_then. { apply wp_count; [done|]. intros s' ? ? _ _ _ _. by split. }
  intros [] s1 [Hi1 He1]. assert (is_Some (fw_faces s1 !! f)) as Hf1 by (eapply ext_face; eauto).
  destruct (_ && isPrefixOf _ _); [by apply wp_ret, keeps_refl|]. apply wp_bind, wp_get.
  assert (∀ p, p ∈ findAllDataMatches HashFunc (fw_store s1) d → satisfiable d s1 p) as Hall.
  { intros p. rewrite findAllDataMatches_elem by apply Hi1. unfold entryMatchesData.
    intros [[n Ha] Hm]. destruct (pitInterest (fw_store s1) p) as [i|] eqn:Hpi; [|done].
    exists i. split; [by exists n|done]. }
  assert (0 ≤ d_freshnessPeriod d) as Hd' by done.
  destruct (findAllDataMatches HashFunc (fw_store s1) d) as [|p [|p2 ps]].
  - by apply onDataUnsolicited_ok.
  - apply wp_then. { eapply wp_mono; [by apply cs_insert_keeps|]. by intros [] ? [? _]. }
    intros [] s2 [Hi2 He2]. eapply satisfyOne_ok; [done| |done|by eapply ext_face].
    eapply satisfiable_ext; [done|]. apply Hall. by left.
  - apply wp_then. { eapply wp_mono; [by apply cs_insert_keeps|]. by intros [] ? [? _]. }
    intros [] s2 [Hi2 He2]. apply wp_bind.
    eapply wp_mono; [apply satisfyMany_ok; [done| |done|by eapply ext_face|by intros g ?%not_elem_of_nil]|].
    + intros p' Hp'. eapply satisfiable_ext; [done|]. by apply Hall.
    + intros pending s3 [[Hi3 He3] Hg3]. eapply wp_mono; [apply keeps_loop; [done|]|].
      * intros g s4 Hg [Hi4 He4]. rewrite elem_of_faceSet in Hg. apply sendToDownstream_ok; [done| |].
        -- eapply ext_face; [done|]. eapply ext_face; [done|]. by eapply ext_face.
        -- eapply ext_face; [done|]. auto.
      * intros [] s5 H5. by apply (keeps_trans s2 s3).
Qed.

(** ** The incoming Nack pipeline and the timers *)

Lemma Pit_find_total i s :
  fw_inv s → ∃ o, Pit_find HashFunc i (fw_store s) = Ok (o, fw_store s) ∧
    ∀ p, o = Some p → ∃ j, entryOf s p j.
Proof.
  intros Hi. pose proof (fi_pit s Hi) as Hp. rewrite Pit_find_spec by done.
  destruct (nt_entries (tree s) !! nteName (i_name i)) as [e|] eqn:He; [|by exists None].
  destruct (List.find _ _) as [p|] eqn:Hf.
  - exists (Some p). split; [done|]. intros p' [= <-]. apply find_some in Hf as [Hin Hm].
    apply list_elem_of_In, (pi_slot _ _ Hp) in Hin. unfold matchesEntry in Hm.
    destruct (pitInterest (fw_store s) p) as [j|] eqn:Hj; [|done]. exists j. by exists (nteName (i_name i)).
  - exists None. by rewrite (fi_noEmpty s Hi _ _ He).
Qed.

Lemma recordNack_ok p i f nonce reason s :
  fw_inv s → entryOf s p i →
  wp (changePitEntry p (fun pe => set_pe_outRecords
        (updateFirst (fun rec => bool_decide (out_face rec = f))
           (fun rec => (setIncomingNack nonce reason rec).1) (pe_outRecords pe)) pe))
    (fun _ s' => keeps s s') s.
Proof.
  intros Hi He. destruct (entryOf_lookup _ _ _ He) as (pe & n & Hp & Hn & Hpi).
  pose proof (pi_entry _ _ (fi_pit s Hi) _ _ Hp) as [[Hnd1 Hnd2] Hpi' Hin].
  assert (∀ l, map out_face (updateFirst (fun rec => bool_decide (out_face rec = f))
    (fun rec => (setIncomingNack nonce reason rec).1) l) = map out_face l) as Hmap.
  { intros l. apply map_updateFirst. intros x. unfold setIncomingNack. by case_bool_decide. }
  eapply wp_changePitEntry; [done|done|done|done|..].
  - split; [split; [done|]|done|done]. unfold out_faces. simpl. by rewrite Hmap.
  - destruct (fi_entry s Hi _ _ Hp) as [H1 H2 H3 H4]. split; try done. simpl. intros rec Hrec.
    assert (out_face rec ∈ map out_face (pe_outRecords pe)) as (rec0 & -> & Hr0)%list_elem_of_fmap; [|auto].
    rewrite <-Hmap. apply list_elem_of_fmap. eauto.
  - intros s' ? ? _ _ _ _ _. by split.
Qed.

Lemma onIncomingNack_ok nack f s :
  fw_inv s → is_Some (fw_faces s !! f) →
  wp (onIncomingNack strategy nack f) (fun _ s' => keeps s s') s.
Proof using All.
  intros Hi [face Hface]. unfold onIncomingNack. apply wp_bind. eapply wp_getFace; [done|].
  apply wp_then. { apply wp_count; [done|]. intros s' ? ? _ _ _ _. by split. }
  intros [] s1 [Hi1 He1]. case_bool_decide; [by apply wp_ret, keeps_refl|].
  destruct (Pit_find_total (n_interest nack) s1 Hi1) as (o & E & Ho).
  apply wp_bind, wp_zoom. eapply wp_run; [exact E|].
  replace (set_fw_store (fw_store s1) s1) with s1 by by destruct s1.
  destruct o as [p|]; [|by apply wp_ret, keeps_refl]. destruct (Ho p eq_refl) as [i Hen].
  destruct (entryOf_lookup _ _ _ Hen) as (pe & n & Hp & Hn & Hpi).
  apply wp_bind. eapply wp_pitEntryOf; [done|].
  destruct (getOutRecord pe f) as [rec|]; [|by apply wp_ret, keeps_refl].
  apply wp_bind, wp_newInterest; [done|]. intros r s2 Hi2 He2 _ _ _ _ _ Hin2.
  assert (interests s2 !! r = Some (n_interest nack)) as Hr by (rewrite Hin2; apply lookup_insert_eq).
  apply wp_bind. eapply wp_mono; [by eapply getNonce_ok|]. intros nonce s3 (Hi3 & Hq3 & _).
  assert (keeps s1 s3) as Hk3 by (split; [done|trans s2; [done|apply Hq3]]).
  case_bool_decide; [by apply wp_ret|]. destruct Hk3 as [_ He3].
  destruct (ext_entryOf _ _ _ _ He3 Hen) as (i3 & Hen3 & _).
  eapply wp_mono with (R := fun _ s' => keeps s3 s'); [|intros [] s4 [? ?]; split; [done|by trans s3]].
  apply wp_then; [by eapply recordNack_ok|]. intros [] s4 [Hi4 He4].
  destruct (ext_entryOf _ _ _ _ He4 Hen3) as (i4 & Hen4 & _).
  destruct (entryOf_lookup _ _ _ Hen4) as (pe4 & n4 & Hp4 & _).
  apply wp_bind. eapply wp_pitEntryOf; [done|]. apply wp_bind, wp_gets. apply wp_then.
  { destruct (hasPendingOutRecords _ _); [by apply wp_ret, keeps_refl|by eapply setExpiryTimer_ok]. }
  intros [] s5 [Hi5 He5]. destruct (ext_entryOf _ _ _ _ He5 Hen4) as (i5 & Hen5 & _).
  eapply ask_strategy; [done|done|]. intros ref. eapply sl_nack; [done|done|].
  eapply ext_face; [done|]. eapply ext_face; [done|]. eapply ext_face; [done|].
  eapply ext_face; [done|]. eauto.
Qed.

Lemma fw_onDroppedInterest_ok i f s :
  fw_inv s → wp (fw_onDroppedInterest strategy i f) (fun _ s' => keeps s s') s.
Proof using SL.
  intros Hi. unfold fw_onDroppedInterest, findEffectiveStrategy_name. apply wp_bind.
  apply wp_bind, wp_get. rewrite findLongestPrefixMatch_spec by apply (fi_pit s Hi).
  eapply wp_mono; [apply strategyAt_ok, Hi|]. intros st s' (-> & ref & ->). by apply sl_dropped.
Qed.

Lemma onTimer_ok p s :
  fw_inv s → is_Some (pits s !! p) → wp (onTimer p) (fun _ s' => fw_inv s') s.
Proof.
  intros Hi [pe Hp]. unfold onTimer. apply wp_bind. eapply wp_pitEntryOf; [done|]. apply wp_bind, wp_gets.
  destruct (pe_expiryTimer pe) as [t|] eqn:Et; [|by apply wp_ret]. case_bool_decide; [|by apply wp_ret].
  destruct (ef_timer _ _ (fi_entry s Hi _ _ Hp)) as [n Hn]; [by rewrite Et|].
  destruct (eo_interest _ _ (pi_entry _ _ (fi_pit s Hi) _ _ Hp)) as [i Hpi].
  eapply onInterestFinalize_ok; [done|]. exists n. split; [by exists pe|].
  unfold pitInterest. rewrite Hp. exact Hpi.
Qed.

(** ** Routes *)

Lemma nonFib_inv st st' :
  (∀ n, nonFib st' n = nonFib st n) → ∀ n, t_sc (tablesAt (st_nameTree st') n) = t_sc (tablesAt (st_nameTree st) n).
Proof. intros H n. exact (f_equal t_sc (H n)). Qed.
(** Slots that stay in use. *)
Lemma inUse_fib st st' n :
  (∀ x, nonFib st' x = nonFib st x) → (is_Some (fibSlot st n) → is_Some (fibSlot st' n)) →
  tablesAt (st_nameTree st) n ≠ noTables → tablesAt (st_nameTree st') n ≠ noTables.
Proof.
  unfold fibSlot. intros Hn Hf Hne E. specialize (Hn n). unfold nonFib in Hn. rewrite E in Hn, Hf.
  apply Hne. destruct (tablesAt (st_nameTree st) n) as [fe pe me sc]. simpl in *.
  injection Hn as <- <- <-. destruct fe; [|done]. by destruct Hf.
Qed.
Lemma addOrUpdateNextHop_nonempty fe f c : fe_nextHops (addOrUpdateNextHop fe f c).1.1 ≠ [].
Proof.
  unfold addOrUpdateNextHop. cbn [fst fe_nextHops]. intros E%(f_equal length). revert E.
  rewrite sortNextHops_perm, length_alter. case_bool_decide as E; [rewrite length_app; simpl; lia|].
  destruct (fe_nextHops fe); [by destruct E|]. simpl. lia.
Qed.

Lemma addOrUpdateNextHop_live (faces : gmap FaceRef Face) fe f c :
  NoDup (fib_faces fe) → is_Some (faces !! f) →
  (∀ nh, nh ∈ fe_nextHops fe → is_Some (faces !! nh_face nh)) →
  ∀ nh, nh ∈ fe_nextHops (addOrUpdateNextHop fe f c).1.1 → is_Some (faces !! nh_face nh).
Proof.
  intros Hnd Hf Hl nh. destruct (addOrUpdateNextHop fe f c) as [[fe' it] isNew] eqn:E. cbn [fst].
  rewrite (addOrUpdateNextHop_elem fe f c fe' it isNew nh Hnd E). intros [->|[? _]]; [done|by apply Hl].
Qed.

Lemma slot_entryOf (s : Forwarder Q) n p :
  pit_inv HashFunc (fw_store s) → p ∈ t_pit (tablesAt (tree s) n) → ∃ i, entryOf s p i.
Proof.
  intros Hi Hp. apply (pi_slot _ _ Hi) in Hp as Ha. pose proof Ha as (pe & Hpe & _).
  destruct (eo_interest _ _ (pi_entry _ _ Hi _ _ Hpe)) as [i Hii]. exists i, n. split; [done|].
  unfold pitInterest. by rewrite Hpe.
Qed.
Lemma onNewNextHop_ok prefix nh s : fw_inv s → wp (onNewNextHop strategy prefix nh) (fun _ s' => keeps s s') s.
Proof using All.
  intros Hi. unfold onNewNextHop. apply wp_bind, wp_get.
  destruct (partialEnumerate_spec HashFunc (tree s) prefix (affectedSelector prefix)) as (l & El & _); [apply Hi|].
  apply wp_bind. eapply wp_lift; [exact El|]. apply forM_keeps; [done|]. intros n s1 _ Hi1 He1.
  apply wp_bind, wp_get. apply forM_keeps; [done|]. intros p s2 Hp Hi2 He2.
  destruct (slot_entryOf s1 n p (fi_pit s1 Hi1) Hp) as (i & He). destruct (ext_entryOf _ _ _ _ He2 He) as (i' & He' & _).
  apply (ask_strategy p i' s2); [done|done|]. intros ref. by eapply sl_newNextHop.
Qed.
Lemma addNextHop_ok prefix id cost s :
  fw_inv s → wp (addNextHop strategy prefix id cost) (fun _ s' => fw_inv s') s.
Proof using All.
  intros Hi. unfold addNextHop. case_bool_decide as Hd; [by apply wp_ret|]. apply wp_bind, wp_get.
  destruct (faceTable_get _ id) as [f|] eqn:Ef; [|by apply wp_ret].
  destruct (Fib_insert_spec HashFunc (fw_store s) prefix (fi_fib s Hi)) as (st1 & E1 & (Hi1 & Hr1 & Hs1) & Hd1); [lia|].
  set (fe := default _ _) in Hs1.
  assert (fibSlot st1 prefix = Some fe) as Hfe by (rewrite Hs1; unfold updSlot; by rewrite decide_True).
  destruct (Fib_addOrUpdateNextHop_spec HashFunc st1 prefix f cost fe Hi1 Hfe) as (nh & st2 & E2 & (Hi2 & Hr2 & Hs2) & Hd2).
  apply wp_bind, wp_zoom. eapply wp_run; [exact E1|]. apply wp_bind, wp_zoom. eapply wp_run; [exact E2|].
  set (s2 := set_fw_store st2 _). assert (fw_inv s2) as Hi'.
  2: { apply wp_bind. destruct nh as [nh|]; [|by apply wp_ret, wp_ret].
       eapply wp_mono; [by apply onNewNextHop_ok|]. intros [] s3 [H3 _]. by apply wp_ret. }
  subst s2. assert (sameRest (fw_store s) st2) as Hr by by eapply sameRest_trans.
  assert (∀ x, fibSlot st2 x = updSlot prefix (Some (addOrUpdateNextHop fe f cost).1.1) (fw_store s) x) as Hs.
  { intros x. rewrite Hs2. unfold updSlot. case_decide; [done|]. rewrite Hs1. unfold updSlot. by rewrite decide_False. }
  assert (NoDup (fib_faces fe)) as Hnd by apply (fb_entry _ _ Hi1 _ _ Hfe).
  clear E1 E2 Hs1 Hs2. pose proof Hr as (R1 & R2 & R3 & R4).
  assert (tablesAt (st_nameTree st2) prefix ≠ noTables) as Huse.
  { intros E. specialize (Hs prefix). unfold fibSlot, updSlot in Hs. by rewrite E, decide_True in Hs. }
  destruct Hi as [A1 A2 A3 A4 A5 A6 A7 A8 A9 A10 A11 A12].
  assert (∀ nh, nh ∈ fe_nextHops fe → is_Some (fw_faces s !! nh_face nh)) as Hlive.
  { subst fe. destruct (fibSlot (fw_store s) prefix) eqn:Eold; [by eapply A3|]. by intros ? ?%not_elem_of_nil. }
  split; cbn [fw_store fw_faces fw_cs fw_dnl fw_assist fw_output fw_regions set_fw_store]; try done.
  - eapply sameRest_pit; [done|apply Hi2|done].
  - intros n fe'. rewrite Hs. unfold updSlot. case_decide; [|apply A3]. intros [= <-].
    split; [intros _; apply addOrUpdateNextHop_nonempty|]. apply addOrUpdateNextHop_live; [done|by eapply faceTable_get_ok|done].
  - apply (noEmpty_grow HashFunc (tree s) _ prefix); [apply A1|apply Hi2|done| | | | |done].
    + intros x. apply inUse_fib; [done|]. rewrite Hs. unfold updSlot. case_decide; eauto.
    + intros x Hx. apply Hd2, Hd1. by left.
    + intros x Hx%Hd2%Hd1. done.
    + apply Hd2, Hd1. by right.
  - rewrite (nonFib_inv _ _ R4). done.
  - by rewrite R2.
  - by rewrite R2, R3.
Qed.

(** ** The initial state *)

Lemma Forwarder_new_ok st faces regions hop uns lim :
  ∃ s, Forwarder_new st faces regions hop uns lim = Ok s ∧ fw_inv s ∧ fw_faces s = faces ∧ fw_output s = [].
Proof.
  clear SL strategy EnvironmentLaws0. assert (0 < 1024)%nat as Hpos by lia.
  destruct (nt_lookup_spec HashFunc (NameTree_init 1024 : NTree) [] 0) as (nt1 & E1 & Hi1 & Ht1 & Hd1);
    [by apply nt_inv_init|apply Nat.le_0_l..|]. simpl in E1.
  assert (∀ x, is_Some (nt_entries nt1 !! x) ↔ x = []) as Hd.
  { intros x. rewrite Hd1. simpl. split.
    - intros [[]|(j & Hj & ->)]; [done|]. by rewrite take_nil.
    - intros ->. right. by exists 0%nat. }
  destruct (updTables_spec HashFunc nt1 [] (setStrategySlot (Some st))) as (nt2 & E2 & Hi2 & Ht2 & Hd2);
    [done|by apply Hd|].
  assert (∀ x, tablesAt nt2 x = if decide (x = []) then setStrategySlot (Some st) noTables else noTables) as Ht.
  { intros x. rewrite Ht2, !Ht1. by repeat case_decide. }
  set (st2 := set_st_nameTree nt2 (Store_init 1024)).
  assert (∀ x, fibSlot st2 x = None) as Hfib.
  { intros x. unfold fibSlot. simpl. rewrite Ht. by case_decide. }
  unfold Forwarder_new, setDefaultStrategy, onStore, onNameTree, zoom. munfold.
  cbn [DeadNonceList_init DEFAULT_LIFETIME MIN_LIFETIME bool_decide fw_store Store_init st_nameTree].
  change (DeadNonceList_init DEFAULT_LIFETIME) with
    (Ok (mkDnl DEFAULT_LIFETIME (replicate EXPECTED_MARK_COUNT MARK) INITIAL_CAPACITY [])). cbv beta iota.
  rewrite E1. cbn [fw_store set_fw_store st_nameTree set_st_nameTree]. rewrite E2.
  eexists. split; [done|]. split; [|done].
  assert (pit_inv HashFunc st2) as Hpit.
  { apply (pit_inv_nt HashFunc (Store_init 1024)); [by apply pit_inv_init|done|].
    intros x. change (st_nameTree st2) with nt2. rewrite Ht. by case_decide. }
  split; cbn [fw_store fw_faces fw_cs fw_dnl fw_assist fw_output fw_regions set_fw_store];
    change (set_st_nameTree nt2 (set_st_nameTree nt1 _)) with st2; try done.
  - split; [done|intros n fe; by rewrite Hfib|].
    assert (fibNames (st_nameTree st2) = ∅) as ->; [|done]. apply set_eq. intros x.
    rewrite elem_of_fibNames. change (t_fib (tablesAt (st_nameTree st2) x)) with (fibSlot st2 x).
    rewrite Hfib. split; [by intros []|set_solver].
  - intros n fe. by rewrite Hfib.
  - apply (noEmpty_inUse HashFunc); [done|]. intros n ->%Hd2%Hd. left. change (st_nameTree st2) with nt2. by rewrite Ht.
  - change (st_nameTree st2) with nt2. rewrite Ht. simpl. eauto.
  - apply cs_inv_init.
  - by intros e ?%not_elem_of_nil.
  - by apply (dnl_inv_init DEFAULT_LIFETIME).
  - by intros o ?%not_elem_of_nil.
Qed.

(** ** Runs *)

Definition event_ok (s : Forwarder Q) (e : Event) : Prop :=
  match e with
  | EvInterest i f => is_Some (fw_faces s !! f) ∧ interest_ok s i
  | EvData d f => is_Some (fw_faces s !! f) ∧ 0 ≤ d_freshnessPeriod d
  | EvNack n f => is_Some (fw_faces s !! f)
  | EvTimer p => is_Some (pits s !! p)
  | EvDropped _ _ | EvMark | EvAdjust | EvPolicy _ | EvRoute _ _ _ | EvClock _ => True
  end.
(** The events of a run, each well-formed when it arrives. *)
Fixpoint events_ok (es : list Event) (s : Forwarder Q) : Prop :=
  match es with
  | [] => True
  | e :: es' => event_ok s e ∧ ∀ s', handle strategy e s = Ok (tt, s') → events_ok es' s'
  end.

Lemma handle_ok e s :
  fw_inv s → event_ok s e → wp (handle strategy e) (fun _ s' => fw_inv s') s.
Proof using All.
  intros Hi. destruct e as [i f|d f|n f|i f|p| | |k|prefix id c|t]; cbn [handle event_ok].
  - intros [? ?]. by apply onIncomingInterest_ok.
  - intros [? ?]. eapply wp_mono; [by apply onIncomingData_ok|]. by intros [] ? [? _].
  - intros ?. eapply wp_mono; [by apply onIncomingNack_ok|]. by intros [] ? [? _].
  - intros _. eapply wp_mono; [by apply fw_onDroppedInterest_ok|]. by intros [] ? [? _].
  - intros ?. by apply onTimer_ok.
  - intros _. destruct (dnl_step_spec cityHash64WithSeed DnlMark _ (fi_dnl s Hi)) as (d & E & Hd & _).
    eapply wp_mono; [by eapply wp_onDnl|]. by intros [] ? [? _].
  - intros _. destruct (dnl_step_spec cityHash64WithSeed DnlAdjust _ (fi_dnl s Hi)) as (d & E & Hd & _).
    eapply wp_mono; [by eapply wp_onDnl|]. by intros [] ? [? _].
  - intros _. apply wp_bind, wp_gets. destruct (cs_policyEvent_ok (fw_now s) k _ (fi_cs s Hi)) as (c & E & Hc & Ht).
    eapply wp_mono; [eapply wp_onCs; [done|exact E|done|]|by intros [] ? [[? _] _]]. rewrite Ht. apply (fi_csFresh s Hi).
  - intros _. apply wp_bind. eapply wp_mono; [by apply addNextHop_ok|]. intros code s' Hs'. by apply wp_ret.
  - intros _. apply wp_modify. destruct Hi. by split.
Qed.
Lemma handleAll_ok es : ∀ s,
  fw_inv s → events_ok es s → wp (handleAll strategy es) (fun _ s' => fw_inv s') s.
Proof using All.
  induction es as [|e es IH]; intros s Hi Hes; cbn [handleAll]; [by apply wp_ret|].
  destruct Hes as [He Hes]. apply wp_bind. destruct (wp_elim _ _ _ (handle_ok e s Hi He)) as ([] & s' & E & Hi').
  eapply wp_run; [exact E|]. apply IH; [done|]. by apply Hes.
Qed.
End safety.
