(* ===== verification/ForwarderProps.v ===== *)
(** * Properties of the forwarder

    Safety of whole runs, what leaves the faces, loop detection, and the return
    path of reflexive Interests. *)

From S2P Require Import Prelude Tlv Component Name Packet PitAssist Hashtable NameTree Face FibEntry.
From S2P Require Import PitEntry Store Pit Fib DeadNonceList Cs Algorithm Forwarder ForwarderInv BestRoute.
From S2P Require Import ForwarderSafety.
Local Open Scope Z_scope.

(** ** Frames

    A computation that never changes a part of the state. *)
Definition frame {S A B} (view : S → B) (m : M S A) : Prop :=
  ∀ s a s', m s = Ok (a, s') → view s' = view s.

Create HintDb frame.

Section frame.
Context {S B : Type} (view : S → B).
Lemma frame_ret {A} (a : A) : frame view (mret a).
Proof. by intros s a' s' [= _ <-]. Qed.
Lemma frame_bind {A C} (m : M S A) (k : A → M S C) :
  frame view m → (∀ a, frame view (k a)) → frame view (m ≫= k).
Proof.
  intros Hm Hk s c s'. unfold mbind, M_bind. destruct (m s) as [[a s1]|] eqn:E; [|done].
  intros Hr. rewrite (Hk _ _ _ _ Hr). by eapply Hm.
Qed.
Lemma frame_get : frame view get.
Proof. by intros s a s' [= _ <-]. Qed.
Lemma frame_gets {A} (f : S → A) : frame view (gets f).
Proof. by intros s a s' [= _ <-]. Qed.
Lemma frame_lift {A} (m : outcome A) : frame view (lift m).
Proof. intros s a s'. destruct m; [|done]. by intros [= _ <-]. Qed.
Lemma frame_assert (b : bool) : frame view (assertM b).
Proof. intros s a s'. destruct b; [|done]. by intros [= _ <-]. Qed.
Lemma frame_deref {A} (o : option A) : frame view (deref o).
Proof. intros s a s'. destruct o; [|done]. by intros [= _ <-]. Qed.
Lemma frame_raise {A} f : frame view (raise f : M S A).
Proof. by intros s a s'. Qed.
Lemma frame_modify (f : S → S) : (∀ s, view (f s) = view s) → frame view (modify f).
Proof. intros Hf s a s' [= _ <-]. apply Hf. Qed.
Lemma frame_forM {A} (l : list A) (k : A → M S unit) : (∀ a, frame view (k a)) → frame view (forM_ l k).
Proof. intros Hk. induction l; simpl; [apply frame_ret|by apply frame_bind]. Qed.
End frame.
Lemma frame_zoom {S T A B} (get : S → T) (set : T → S → S) (m : M T A) (view : S → B) :
  (∀ t s, view (set t s) = view s) → frame view (zoom get set m).
Proof.
  intros Hv s a s'. unfold zoom. destruct (m (get s)) as [[a' t]|]; [|done]. intros [= _ <-]. apply Hv.
Qed.
#[export] Hint Resolve frame_ret frame_get frame_gets frame_lift frame_assert frame_deref
  frame_raise frame_forM : frame.

(** A result of [wp] together with a frame. *)
Lemma wp_frame {S A B} (view : S → B) (m : M S A) (R : A → S → Prop) s :
  frame view m → wp m R s → wp m (fun a s' => R a s' ∧ view s' = view s) s.
Proof.
  intros Hf Hw. destruct (wp_elim _ _ _ Hw) as (a & s' & E & HR). eapply wp_run; [exact E|].
  split; [done|]. by eapply Hf.
Qed.

Ltac frame_solve :=
  intros;
  lazymatch goal with
  | |- frame _ (_ ≫= _) => apply frame_bind; frame_solve
  | |- frame _ (match ?x with _ => _ end) => destruct x; frame_solve
  | |- _ => try solve [eauto with frame]
  end.

Section fw_frames.
Context `{Env : Environment} {Q : Type} {Pol : CsPolicy Q} {Laws : CsPolicyLaws Q}.
Context {B : Type} (view : Forwarder Q → B).
Abbreviation pits s := (st_pits (fw_store s)).
Abbreviation interests s := (st_interests (fw_store s)).

(** Views of the state that do not depend on the store, the random source and
    the counters. *)
Class Outside : Prop := {
  out_store : ∀ st s, view (set_fw_store st s) = view s;
  out_drawn : ∀ k s, view (set_fw_drawn k s) = view s;
  out_counters : ∀ c s, view (set_fw_counters c s) = view s
}.
Context {O : Outside}.

Lemma frame_onStore {A} (m : M Store A) : frame view (onStore m).
Proof using O. apply frame_zoom. intros. apply out_store. Qed.
Lemma frame_count f : frame view (count f).
Proof using O. apply frame_modify. intros. apply out_counters. Qed.
Lemma frame_update {A} (f : Forwarder Q → Forwarder Q) (k : Forwarder Q → M (Forwarder Q) A) :
  (∀ s, view (f s) = view s) → (∀ s, frame view (k s)) →
  frame view (s ← get; put (f s);; k s).
Proof using Type. intros Hf Hk s a s' H. rewrite (Hk _ _ _ _ H). apply Hf. Qed.
Lemma frame_getNonce r : frame view (getNonce r).
Proof using O.
  unfold getNonce, interestOf, changeInterest. apply frame_bind; [apply frame_onStore|]. intros i.
  destruct (i_nonce i); [apply frame_ret|].
  apply (frame_update (fun s => set_fw_drawn (S (fw_drawn s)) s)); [intros; apply out_drawn|].
  intros s. apply frame_bind; [apply frame_onStore|]. intros. apply frame_ret.
Qed.
#[local] Hint Resolve frame_onStore frame_count frame_getNonce : frame.

Lemma frame_tagPitToken r v : frame view (tagPitToken r v).
Proof using O. unfold tagPitToken, changeInterest. frame_solve. Qed.
Lemma frame_addOutRecord p f r : frame view (addOutRecord p f r).
Proof using O. unfold addOutRecord, interestOf, pitEntryOf, changePitEntry, now. frame_solve. Qed.
Lemma frame_addInRecord p f r : frame view (addInRecord p f r).
Proof using O. unfold addInRecord, interestOf, pitEntryOf, changePitEntry, now. frame_solve. Qed.
Lemma frame_setExpiryTimer p d : frame view (setExpiryTimer p d).
Proof using O. unfold setExpiryTimer, changePitEntry, now. frame_solve. Qed.
#[local] Hint Resolve frame_tagPitToken frame_addInRecord frame_addOutRecord frame_setExpiryTimer : frame.
Lemma frame_acceptInterest r f p : frame view (acceptInterest r f p).
Proof using O.
  unfold acceptInterest, attachDefaultHopLimit, interestOf, changeInterest, pitEntryOf, now. frame_solve.
Qed.
End fw_frames.
#[export] Hint Resolve frame_onStore frame_count frame_getNonce frame_tagPitToken frame_addInRecord
  frame_addOutRecord frame_setExpiryTimer frame_acceptInterest : frame.

#[export] Instance Outside_output {Q} : Outside (fw_output (Q := Q)).
Proof. by split. Qed.
#[export] Instance Outside_assist {Q} : Outside (fw_assist (Q := Q)).
Proof. by split. Qed.
#[export] Instance Outside_faces {Q} : Outside (fw_faces (Q := Q)).
Proof. by split. Qed.

(** ** Frames inside the store *)

Section store_frames.
Context `{Env : Environment} {Q : Type} {Pol : CsPolicy Q} {Laws : CsPolicyLaws Q}.
Abbreviation FW := (M (Forwarder Q)).
Abbreviation pits s := (st_pits (fw_store s)).
Abbreviation interests s := (st_interests (fw_store s)).

Lemma frame_inStore {A B} (v : Store → B) (m : M Store A) :
  frame v m → frame (fun s : Forwarder Q => v (fw_store s)) (onStore m).
Proof.
  intros Hm s a s'. unfold onStore, zoom. destruct (m (fw_store s)) as [[a' st]|] eqn:E; [|done].
  intros [= _ <-]. simpl. by eapply Hm.
Qed.
Lemma frame_getInterest {B} (v : Store → B) r : frame v (getInterest r).
Proof. unfold getInterest. frame_solve. Qed.
(** Reading changes nothing. *)
Lemma frame_interestOf {B} (view : Forwarder Q → B) r : frame view (interestOf r).
Proof.
  intros s a s'. unfold interestOf, onStore, zoom, getInterest. munfold.
  destruct (interests s !! r); simpl; [|done]. intros [= _ <-]. by destruct s.
Qed.
Lemma frame_pitEntryOf {B} (view : Forwarder Q → B) p : frame view (pitEntryOf p).
Proof.
  intros s a s'. unfold pitEntryOf, onStore, zoom, getPitEntry. munfold.
  destruct (pits s !! p); simpl; [|done]. intros [= _ <-]. by destruct s.
Qed.
Lemma frame_getPitEntry {B} (v : Store → B) r : frame v (getPitEntry r).
Proof. unfold getPitEntry. frame_solve. Qed.
Lemma frame_setInterest {B} (v : Store → B) r g :
  (∀ st i, st_interests st !! r = Some i →
     v (set_st_interests (<[r := g i]> (st_interests st)) st) = v st) →
  frame v (setInterest r g).
Proof.
  intros Hv st a st'. unfold setInterest, getInterest. munfold.
  destruct (st_interests st !! r) as [i|] eqn:E; [|done]. intros [= _ <-]. by apply Hv.
Qed.
Lemma frame_setPitEntry {B} (v : Store → B) p g :
  (∀ st pe, st_pits st !! p = Some pe → v (set_st_pits (<[p := g pe]> (st_pits st)) st) = v st) →
  frame v (setPitEntry p g).
Proof.
  intros Hv st a st'. unfold setPitEntry, getPitEntry. munfold.
  destruct (st_pits st !! p) as [pe|] eqn:E; [|done]. intros [= _ <-]. by apply Hv.
Qed.

(** The PIT entry [po] under steps that write to other entries. *)
Section other_entry.
Context (po : PitRef).
Abbreviation V := (fun s : Forwarder Q => pits s !! po).
Lemma frame_pit_interest r g : frame V (changeInterest r g).
Proof. apply (frame_inStore (fun st => st_pits st !! po)), frame_setInterest. done. Qed.
Lemma frame_pit_entry p g : p ≠ po → frame V (changePitEntry p g).
Proof.
  intros Hp. apply (frame_inStore (fun st => st_pits st !! po)), frame_setPitEntry. intros st pe _.
  simpl. by apply lookup_insert_ne.
Qed.
Lemma frame_pit_reads r p :
  frame V (interestOf r) ∧ frame V (pitEntryOf p).
Proof.
  split; apply (frame_inStore (fun st => st_pits st !! po));
    [apply frame_getInterest|apply frame_getPitEntry].
Qed.
Lemma frame_pit_getNonce r : frame V (getNonce r).
Proof.
  unfold getNonce. apply frame_bind; [apply (frame_pit_reads r 0)|]. intros i.
  destruct (i_nonce i); [apply frame_ret|].
  apply (frame_update V (fun s => set_fw_drawn (S (fw_drawn s)) s)); [done|].
  intros s. apply frame_bind; [apply frame_pit_interest|]. intros. apply frame_ret.
Qed.
Lemma frame_pit_accept r f p : p ≠ po → frame V (acceptInterest r f p).
Proof.
  intros Hp. pose proof (frame_pit_entry p) as He. pose proof frame_pit_interest as Hi.
  pose proof frame_pit_getNonce as Hn. pose proof frame_pit_reads as Hr.
  assert (∀ r, frame V (interestOf r)) as Hri by (intros; apply (Hr _ 0%nat)).
  assert (∀ r, frame V (pitEntryOf r)) as Hrp by (intros; apply (Hr 0%nat)).
  unfold acceptInterest, attachDefaultHopLimit, addInRecord, setExpiryTimer, now. frame_solve.
Qed.
End other_entry.

(** Whether the hop limit of an Interest is exhausted. *)
Section zero_hop.
Context (r : InterestRef).
Definition zeroHopIn (st : Store) : bool :=
  bool_decide (i_hopLimit <$> st_interests st !! r = Some (Some 0)).
Abbreviation V := (fun s : Forwarder Q => zeroHopIn (fw_store s)).
Lemma frame_hop_interest r' g :
  (∀ i, i_hopLimit (g i) = i_hopLimit i) → frame V (changeInterest r' g).
Proof.
  intros Hg. apply (frame_inStore zeroHopIn), frame_setInterest. intros st i Hi. unfold zeroHopIn. simpl.
  rewrite lookup_insert. case_decide; [|done]. subst r'. simpl. by rewrite Hi, Hg.
Qed.
Lemma frame_hop_entry p g : frame V (changePitEntry p g).
Proof. apply (frame_inStore zeroHopIn), frame_setPitEntry. done. Qed.
Lemma frame_hop_reads r' p : frame V (interestOf r') ∧ frame V (pitEntryOf p).
Proof. split; apply (frame_inStore zeroHopIn); [apply frame_getInterest|apply frame_getPitEntry]. Qed.
Lemma frame_hop_getNonce r' : frame V (getNonce r').
Proof.
  unfold getNonce. apply frame_bind; [apply (frame_hop_reads r' 0)|]. intros i.
  destruct (i_nonce i); [apply frame_ret|].
  apply (frame_update V (fun s => set_fw_drawn (S (fw_drawn s)) s)); [done|].
  intros s. apply frame_bind; [by apply frame_hop_interest|]. intros. apply frame_ret.
Qed.
Lemma frame_hop_default r' : frame V (attachDefaultHopLimit r').
Proof.
  intros s a s'. unfold attachDefaultHopLimit, interestOf, changeInterest, onStore, zoom, getInterest, setInterest.
  munfold. destruct (interests s !! r') as [i|] eqn:Hi; simpl; [|done].
  destruct (bool_decide (0 < fw_defaultHopLimit s)) eqn:E1; simpl; [|by intros [= _ <-]].
  apply bool_decide_eq_true in E1. case_bool_decide as E2; [|by intros [= _ <-]]. munfold. simpl.
  rewrite (getInterest_Ok _ _ _ Hi). intros [= _ <-]. unfold zeroHopIn. simpl. rewrite lookup_insert.
  case_decide; [|done]. subst r'. rewrite Hi. simpl. rewrite E2.
  rewrite !bool_decide_false; [done|done|]. intros [= E]. lia.
Qed.
Lemma frame_hop_accept r' f p : frame V (acceptInterest r' f p).
Proof.
  pose proof frame_hop_entry as He. pose proof frame_hop_getNonce as Hn. pose proof frame_hop_default as Hd.
  pose proof frame_hop_reads as Hr. assert (∀ r, frame V (interestOf r)) as Hri by (intros; apply (Hr _ 0%nat)).
  assert (∀ r, frame V (pitEntryOf r)) as Hrp by (intros; apply (Hr 0%nat)).
  unfold acceptInterest, addInRecord, setExpiryTimer, now. frame_solve.
Qed.
End zero_hop.
End store_frames.

(** ** The return path of reflexive Interests *)

Section reflexive.
Context `{Env : Environment} `{!EnvironmentLaws Env}.
Context {Q : Type} {Pol : CsPolicy Q} {Laws : CsPolicyLaws Q}.
Abbreviation FW := (M (Forwarder Q)).
Abbreviation pits s := (st_pits (fw_store s)).
Abbreviation interests s := (st_interests (fw_store s)).

Lemma sendOnFace_output f r i (s : Forwarder Q) :
  interests s !! r = Some i →
  wp (sendOnFace f r) (fun _ s' => fw_output s' = fw_output s ++ [SendInterest f i]) s.
Proof.
  intros Hr. unfold sendOnFace. apply wp_bind. eapply wp_interestOf; [done|].
  apply wp_bind, wp_modify. apply wp_modify. done.
Qed.

(** What leaves the outgoing Interest pipeline for the producer's reflexive
    Interest. *)
Definition sentBack (f : FaceRef) (i : Interest) (v : Z) (s s' : Forwarder Q) : Prop :=
  ∃ i' b, fw_output s' = fw_output s ++ [SendInterest f i'] ∧ sameKey i i' ∧
    setPitToken v = Ok b ∧ i_pitTokenTag i' = Some b.

Lemma onOutgoingInterest_RI r i f p orig p2 face s :
  fw_inv s → interests s !! r = Some i → isReflexiveInterestFromProducer i = Ok true →
  entryOf s p orig → recordable s p2 r → fw_faces s !! f = Some face →
  (i_hopLimit i = Some 0 → face_scope face = FACE_SCOPE_LOCAL) →
  wp (onOutgoingInterest r f p)
    (fun _ s' => sentBack f i (nameToPrevToken (fw_assist s) (i_name orig)).1 s s') s.
Proof.
  intros Hi Hr Hfp He Hrec Hf Hh. destruct (entryOf_lookup _ _ _ He) as (pe & n & Hp & _ & Ho).
  unfold onOutgoingInterest. apply wp_bind. eapply wp_interestOf; [done|].
  apply wp_bind. eapply wp_getFace; [done|].
  destruct (bool_decide (i_hopLimit i = Some 0) && _) eqn:Eh.
  { apply andb_true_iff in Eh as [E1%bool_decide_eq_true E2%bool_decide_eq_true]. by rewrite Hh in E2. }
  apply wp_bind. eapply wp_lift; [exact Hfp|]. cbv beta iota.
  apply wp_bind. eapply wp_pitEntryOf; [done|]. apply wp_bind. eapply wp_interestOf; [done|].
  apply wp_bind, wp_get, wp_bind. set (v := (nameToPrevToken _ _).1).
  eapply wp_mono; [apply (wp_frame fw_output); [apply frame_tagPitToken, _|by apply tagPitToken_ok with (i := i)]|].
  intros [] s1 [(Hi1 & Hq1 & _ & _ & b & Hb & Hr1) Ho1].
  assert (recordable s1 p2 r) as Hrec1 by (eapply recordable_ext; [apply Hq1|done]).
  apply wp_bind. eapply wp_interestOf; [done|]. apply wp_bind, wp_zoom.
  eapply wp_run; [by eapply Pit_find_recordable|]. apply wp_bind. eapply wp_deref; [done|].
  replace (set_fw_store (fw_store s1) s1) with s1 by by destruct s1.
  apply wp_bind. eapply wp_mono;
    [apply (wp_frame fw_output); [apply frame_addOutRecord, _|apply addOutRecord_ok]|]; [done|done|..].
  { rewrite (q_faces _ _ Hq1). eauto. }
  intros [] s2 [(Hi2 & _ & Hn2) Ho2]. destruct (Hn2 _ Hr1) as [m Hr2].
  apply wp_bind. eapply wp_mono; [by apply sendOnFace_output|]. intros [] s3 Ho3. apply wp_ret.
  exists (set_i_nonce m (set_i_pitTokenTag (Some b) i)), b. split_and!; [|done|done|done].
  by rewrite Ho3, Ho2, Ho1.
Qed.

Lemma sendInterest_RI r i f p orig p2 face s :
  fw_inv s → interests s !! r = Some i → isReflexiveInterestFromProducer i = Ok true →
  entryOf s p orig → recordable s p2 r → fw_faces s !! f = Some face →
  (i_hopLimit i = Some 0 → face_scope face = FACE_SCOPE_LOCAL) →
  wp (sendInterest r f p)
    (fun _ s' => sentBack f i (nameToPrevToken (fw_assist s) (i_name orig)).1 s s') s.
Proof.
  intros Hi Hr Hfp He Hrec Hf Hh. unfold sendInterest. apply wp_bind. eapply wp_interestOf; [done|].
  destruct (i_pitTokenTag i) as [t|]; [|by eapply onOutgoingInterest_RI].
  apply wp_bind. eapply wp_mono; [apply (wp_frame (fun s => (fw_output s, fw_assist s)));
    [apply frame_onStore; by split|apply wp_newInterest with (R := fun r2 s' => fw_inv s' ∧ ext s s' ∧
      fw_faces s' = fw_faces s ∧ interests s' !! r2 = Some (set_i_pitTokenTag None i)); [done|]]|].
  { intros r2 s1 Hi1 He1 _ Hf1 _ _ _ Hin1. split_and!; [done|done|done|]. rewrite Hin1. apply lookup_insert_eq. }
  intros r2 s1 [(Hi1 & He1 & Hf1 & Hr2) [= Ho1 Ha1]].
  destruct (ext_entryOf _ _ _ _ He1 He) as (orig1 & Hen1 & (Eo & _) & _).
  eapply wp_mono; [eapply onOutgoingInterest_RI with (p2 := p2) (face := face); [done|exact Hr2|done|exact Hen1| | |done]|].
  - destruct Hrec as (mine & i' & Hp2 & Hr' & Hm). assert (i' = i) as -> by congruence.
    destruct (ext_entryOf _ _ _ _ He1 Hp2) as (mine' & Hp2' & Hk & _).
    exists mine', (set_i_pitTokenTag None i). split_and!; [done|done|].
    by rewrite <-(matchesInterest_sameKey mine i mine').
  - by rewrite Hf1.
  - intros x s2 (i' & b & E & Hk & Hb & Ht). exists i', b. rewrite <-Eo, Ha1 in Hb. rewrite <-Ho1. done.
Qed.

Context (rs : StrategyRef → RetxSuppressionExponential).
Abbreviation bestRoute := (fun ref : StrategyRef => BestRouteStrategy (rs ref)).

(** The token of the downstream is known for every name that has a token. *)
Lemma prevToken_known (a : pit_assist) tok N :
  assist_inv a → tokenToName a tok = (N, true) → (nameToPrevToken a N).2 = true.
Proof.
  intros Ha. unfold tokenToName, nameToPrevToken.
  destruct (m_Token_to_Name a !! tok) as [n|] eqn:E; [|done]. intros [= <-].
  apply (ai_bij a Ha) in E. destruct (proj2 (ai_prev a Ha n)) as [x ->]; [by rewrite E|done].
Qed.

(** Where the producer's reflexive Interest [i] must go: its token is the one of
    the pending Interest [N], whose only entry [po] has a first in-record [rec]. *)
Record returnPath (s : Forwarder Q) (i : Interest) (N : Name) (po : PitRef) (rec : InRecord) : Prop := {
  rp_producer : isReflexiveInterestFromProducer i = Ok true;
  rp_token : ∃ t tok, i_pitTokenTag i = Some t ∧ readPitToken t = Ok tok ∧ tok ≠ 0 ∧
    tokenToName (fw_assist s) tok = (N, true);
  rp_entry : attached (fw_store s) po N;
  rp_name : ∃ orig, pitInterest (fw_store s) po = Some orig ∧ i_name orig = N;
  rp_only : ∀ p j, attached (fw_store s) p N → pitInterest (fw_store s) p = Some j → i_name j = N → p = po;
  rp_record : ∃ pe l, pits s !! po = Some pe ∧ pe_inRecords pe = rec :: l
}.

Lemma br_RI_output ref r i f po rec orig p2 pe l face s :
  fw_inv s → interests s !! r = Some i → isReflexiveInterestFromProducer i = Ok true →
  entryOf s po orig → recordable s p2 r → pits s !! po = Some pe → pe_inRecords pe = rec :: l →
  fw_faces s !! in_face rec = Some face → (i_hopLimit i = Some 0 → face_scope face = FACE_SCOPE_LOCAL) →
  wp (br_afterReceiveInterest (rs ref) r f po)
    (fun _ s' => sentBack (in_face rec) i (nameToPrevToken (fw_assist s) (i_name orig)).1 s s') s.
Proof.
  intros Hi Hr Hfp Ho Hrec Hpe Hl Hg Hh. unfold br_afterReceiveInterest.
  apply wp_bind. eapply wp_interestOf; [done|]. apply wp_bind. eapply wp_lift; [exact Hfp|]. cbv beta iota.
  apply wp_bind. eapply wp_mono; [by eapply lookupFib_ok|]. intros fe s' ->.
  apply wp_bind. eapply wp_pitEntryOf; [done|]. rewrite Hl.
  apply wp_bind. eapply wp_mono; [by eapply sendInterest_RI|]. intros b s' Hs'. by apply wp_ret.
Qed.

Lemma onSendingRI_output r i f p N po rec s :
  fw_inv s → interests s !! r = Some i → returnPath s i N po rec →
  (i_hopLimit i = Some 0 → ∃ face, fw_faces s !! in_face rec = Some face ∧ face_scope face = FACE_SCOPE_LOCAL) →
  recordable s p r → p ≠ po → is_Some (fw_faces s !! f) →
  wp (onSendingRI bestRoute r f p)
    (fun _ s' => sentBack (in_face rec) i (nameToPrevToken (fw_assist s) N).1 s s') s.
Proof.
  intros Hi Hr [Hfp (t & tok & Ht & Hread & Htok0 & Htok) Hatt (orig & Horig & EN) Honly (pe & l & Hpe & Hl)]
    Hh Hrec Hne Hf.
  destruct (ef_in _ _ (fi_entry s Hi _ _ Hpe) rec) as [gface Hg]; [rewrite Hl; by left|].
  unfold onSendingRI. apply wp_bind. eapply wp_interestOf; [done|]. rewrite Ht.
  apply wp_bind. eapply wp_lift; [exact Hread|]. rewrite bool_decide_false by done.
  apply wp_bind, wp_get. rewrite Htok.
  assert (findBasedOnName HashFunc (fw_store s) N = Some po) as ->.
  { pose proof (findBasedOnName_spec HashFunc (fw_store s) N (fi_pit s Hi)) as Hfind.
    destruct (findBasedOnName HashFunc (fw_store s) N) as [x|].
    - destruct Hfind as (Hx & j & Hj & Ej). f_equal. by eapply Honly.
    - by destruct (Hfind po orig). }
  pose proof (prevToken_known _ _ _ (fi_assist s Hi) Htok) as Hprev.
  destruct (nameToPrevToken (fw_assist s) N) as [prev known] eqn:Ep. simpl in Hprev. subst known.
  set (V := fun s : Forwarder Q => (fw_output s, fw_assist s, fw_faces s)).
  assert (Outside V) as HV by by split. apply wp_bind.
  eapply wp_mono; [apply (wp_frame V); [by apply frame_tagPitToken|by apply tagPitToken_ok with (i := i)]|].
  intros [] s1 [(Hi1 & Hq1 & Hp1 & _ & b & _ & Hr1) HV1].
  assert (recordable s1 p r) as Hrec1 by (eapply recordable_ext; [apply Hq1|done]).
  apply wp_bind. eapply wp_mono.
  { apply (wp_frame V); [by apply frame_acceptInterest|].
    apply (wp_frame (fun s => pits s !! po)); [by apply frame_pit_accept|].
    apply (wp_frame (fun s => zeroHopIn r (fw_store s))); [apply frame_hop_accept|].
    apply acceptInterest_ok; [done|done|]. eapply ext_face; [apply Hq1|done]. }
  intros [] s2 [[[[Hi2 He2] Hz2] Hp2] HV2]. unfold V in *. rewrite <-HV2 in HV1. injection HV2 as Ho2 Ha2 Hf2.
  injection HV1 as Ho1 Ha1 Hf1.
  assert (ext s s2) as He by (trans s1; [apply Hq1|done]).
  assert (recordable s2 p r) as Hrec2 by by eapply recordable_ext.
  destruct (recordable_interest _ _ _ Hrec2) as [_ [j Hj]].
  destruct (ex_interests _ _ He _ _ Hr) as (i2 & Hr2 & Hk2 & _).
  destruct (ext_entryOf s s2 po orig He) as (orig2 & Hen2 & (Eo & _) & _); [by exists N|].
  eapply wp_mono; [eapply (ask_strategy bestRoute) with (R := fun s' =>
    sentBack (in_face rec) i2 (nameToPrevToken (fw_assist s2) (i_name orig2)).1 s2 s'); [done|exact Hj|]|].
  - intros ref. eapply br_RI_output; [done|exact Hr2| |exact Hen2|exact Hrec2| |exact Hl| |].
    + by rewrite <-(sameKey_fromProducer i i2).
    + by rewrite Hp2, Hp1.
    + rewrite Hf1. exact Hg.
    + intros Hz. assert (i_hopLimit i = Some 0) as Hz'.
      { unfold zeroHopIn in Hz2. rewrite Hr2, Hr1 in Hz2. simpl in Hz2. rewrite Hz in Hz2.
        rewrite bool_decide_true in Hz2 by done. symmetry in Hz2. apply bool_decide_eq_true in Hz2. by injection Hz2. }
      destruct (Hh Hz') as (face & Hf' & ?). congruence.
  - intros x s3 (i' & b' & E & Hk & Hb & Hb'). exists i', b'. split_and!; [by rewrite E, Ho1| | |done].
    + unfold sameKey in *. naive_solver congruence.
    + rewrite <-Eo, Ha1, EN, Ep in Hb. exact Hb.
Qed.
End reflexive.

(** ** The first part of the incoming Interest pipeline

    An Interest with a Nonce that is neither dropped nor looping is stored as a
    new object [prepared] for the PIT. *)
Section front.
Context `{Env : Environment} `{!EnvironmentLaws Env}.
Context {Q : Type} {Pol : CsPolicy Q} {Laws : CsPolicyLaws Q}.
Context (strategy : StrategyRef → Strategy (Q := Q)).
Abbreviation pits s := (st_pits (fw_store s)).
Abbreviation interests s := (st_interests (fw_store s)).

Definition arrived (face : Face) (packet : Interest) : Interest :=
  let i := set_i_incomingFaceIdTag (Some (face_id face)) packet in
  match i_hopLimit packet with Some h => set_i_hopLimit (Some (h - 1)) i | None => i end.
Definition prepared (regions : list Name) (face : Face) (packet : Interest) : Interest :=
  match i_forwardingHint packet with
  | [] => arrived face packet
  | fh => if isInProducerRegion regions fh then set_i_forwardingHint [] (arrived face packet)
          else arrived face packet
  end.
Definition stored (i : Interest) (s : Forwarder Q) : Forwarder Q :=
  set_fw_counters (inc_nInInterests (fw_counters s))
    (set_fw_store (set_st_interests (<[fresh (dom (interests s)) := i]> (interests s)) (fw_store s)) s).

(** What passes the checks at the start of the pipeline. *)
Record acceptable (packet : Interest) (face : Face) (nonce : Z) : Prop := {
  ac_nonce : i_nonce packet = Some nonce;
  ac_hop : i_hopLimit packet ≠ Some 0;
  ac_scope : bool_decide (face_scope face = FACE_SCOPE_NON_LOCAL) && isPrefixOf LOCALHOST (i_name packet) = false
}.
Definition inDnl (s : Forwarder Q) (name : Name) (nonce : Z) : bool :=
  dnl_has cityHash64WithSeed (fw_dnl s) name nonce.

Lemma prepared_same regions face packet :
  sameKey packet (prepared regions face packet) ∧
  i_pitTokenTag (prepared regions face packet) = i_pitTokenTag packet ∧
  i_nonce (prepared regions face packet) = i_nonce packet ∧
  isInProducerRegion regions (i_forwardingHint (prepared regions face packet)) = false ∧
  (i_hopLimit (prepared regions face packet) = Some 0 → i_hopLimit packet = Some 1).
Proof.
  unfold prepared, arrived. destruct (i_hopLimit packet) as [h|] eqn:Eh;
    (destruct (i_forwardingHint packet) as [|n fh] eqn:Ef;
     [|destruct (isInProducerRegion regions (n :: fh)) eqn:E]);
    cbn [i_pitTokenTag i_nonce i_forwardingHint i_hopLimit set_i_incomingFaceIdTag set_i_hopLimit set_i_forwardingHint];
    rewrite ?Ef, ?Eh, ?isInProducerRegion_nil, ?E;
    (split_and!; [done|done|done|done|try done]); intros [= ?]; f_equal; lia.
Qed.
Lemma prepared_storable regions face packet :
  (∃ b, isReflexiveInterestFromProducer packet = Ok b) → storable regions (prepared regions face packet).
Proof.
  destruct (prepared_same regions face packet) as (Hk & _ & _ & Hr & _). intros [b Hb].
  split; [done|]. exists b. by rewrite <-(sameKey_fromProducer packet).
Qed.

(** The pipeline from the Dead Nonce List on. *)
Definition afterChecks (r : InterestRef) (packet : Interest) (f : FaceRef) (nonce : Z) : M (Forwarder Q) unit :=
  s ← get;
  if inDnl s (i_name packet) nonce then onInterestLoop r f
  else
    (match i_forwardingHint packet with
     | [] => mret tt
     | fh => if isInProducerRegion (fw_regions s) fh
             then changeInterest r (set_i_forwardingHint []) else mret tt
     end);;
    i ← interestOf r;
    '(p, _) ← onStore (Pit_insert HashFunc i r);
    p ← deref p;
    fromProducer ← lift (isReflexiveInterestFromProducer i);
    if fromProducer : bool then onSendingRI strategy r f p
    else processInterest strategy r f p nonce.

Lemma wp_arrive packet f face nonce (R : unit → Forwarder Q → Prop) s :
  fw_faces s !! f = Some face → acceptable packet face nonce →
  wp (afterChecks (fresh (dom (interests s))) packet f nonce) R (stored (arrived face packet) s) →
  wp (onIncomingInterest strategy packet f) R s.
Proof.
  intros Hf [Hn Hh Hs] Hrest. unfold onIncomingInterest.
  apply wp_bind, wp_zoom. unfold newInterest. apply wp_bind, wp_get, wp_bind, wp_put, wp_ret.
  set (r := fresh _) in *. apply wp_bind. eapply wp_getFace; [done|]. apply wp_bind, wp_zoom.
  eapply wp_run; [apply setInterest_Ok, lookup_insert_eq|]. apply wp_bind, wp_modify, wp_bind.
  cbn [fw_store set_fw_store set_fw_counters st_interests set_st_interests fw_counters]. rewrite insert_insert_eq.
  unfold getNonce. apply wp_bind. eapply wp_interestOf; [apply lookup_insert_eq|].
  cbn [i_nonce set_i_incomingFaceIdTag]. rewrite Hn. apply wp_ret. rewrite bool_decide_false by done.
  apply wp_bind. eapply wp_mono with (R := fun _ s' => s' = stored (arrived face packet) s).
  { unfold arrived. destruct (i_hopLimit packet); [|by apply wp_ret].
    apply wp_zoom. eapply wp_run; [apply setInterest_Ok, lookup_insert_eq|]. cbn. by rewrite insert_insert_eq. }
  intros [] s1 ->. rewrite Hs. exact Hrest.
Qed.

Lemma wp_front packet f face nonce (R : unit → Forwarder Q → Prop) s :
  fw_faces s !! f = Some face → acceptable packet face nonce → inDnl s (i_name packet) nonce = false →
  let r := fresh (dom (interests s)) in
  let i := prepared (fw_regions s) face packet in
  wp ('(p, _) ← onStore (Pit_insert HashFunc i r);
      p ← deref p;
      fromProducer ← lift (isReflexiveInterestFromProducer i);
      if fromProducer : bool then onSendingRI strategy r f p
      else processInterest strategy r f p nonce) R (stored i s) →
  wp (onIncomingInterest strategy packet f) R s.
Proof.
  intros Hf Ha Hd r i Hrest. eapply wp_arrive; [done|done|]. unfold afterChecks. apply wp_bind, wp_get.
  change (inDnl (stored _ s)) with (inDnl s). rewrite Hd. fold r.
  apply wp_bind. eapply wp_mono with (R := fun _ s' => s' = stored i s).
  { unfold i, prepared. destruct (i_forwardingHint packet) as [|h fh]; [by apply wp_ret|].
    cbn [fw_regions stored set_fw_counters set_fw_store].
    destruct (isInProducerRegion _ _); [|by apply wp_ret].
    apply wp_zoom. eapply wp_run; [apply setInterest_Ok, lookup_insert_eq|]. cbn. by rewrite insert_insert_eq. }
  intros [] s2 ->. apply wp_bind. eapply wp_interestOf; [apply lookup_insert_eq|]. exact Hrest.
Qed.

(** The new object disturbs no PIT entry. *)
Lemma stored_fresh i (s : Forwarder Q) r j :
  interests s !! r = Some j → interests (stored i s) !! r = Some j.
Proof.
  intros Hr. simpl. rewrite lookup_insert_ne; [done|]. intros <-.
  assert (fresh (dom (interests s)) ∈ dom (interests s)) as Hin by by apply elem_of_dom_2 in Hr.
  by apply is_fresh in Hin.
Qed.
Lemma stored_inv i (s : Forwarder Q) : fw_inv s → fw_inv (stored i s).
Proof.
  intros Hi. assert (fw_inv (set_fw_store (fw_store (stored i s)) s)) as [A1 A2 A3 A4 A5 A6 A7 A8 A9 A10 A11 A12];
    [|by split].
  apply pit_step; try done.
  - apply pit_inv_interest; [apply Hi|]. intros j Hj. exfalso.
    assert (fresh (dom (interests s)) ∈ dom (interests s)) as Hin by by apply elem_of_dom_2 in Hj.
    by apply is_fresh in Hin.
  - apply Hi.
  - apply (fi_entry s Hi).
  - intros p pe j Hp Hj. destruct (eo_interest _ _ (pi_entry _ _ (fi_pit s Hi) _ _ Hp)) as [x Hx].
    apply (fi_region s Hi p pe j Hp). rewrite (stored_fresh i s _ _ Hx) in Hj. congruence.
Qed.
Lemma stored_pitInterest i (s : Forwarder Q) p :
  fw_inv s → pitInterest (fw_store (stored i s)) p = pitInterest (fw_store s) p.
Proof.
  intros Hi. unfold pitInterest. cbn [st_pits fw_store stored set_fw_counters set_fw_store set_st_interests].
  destruct (pits s !! p) as [pe|] eqn:Hp; [|done]. simpl.
  destruct (eo_interest _ _ (pi_entry _ _ (fi_pit s Hi) _ _ Hp)) as [x Hx]. rewrite Hx.
  by apply (stored_fresh i s).
Qed.
End front.

Section return_path.
Context `{Env : Environment} `{!EnvironmentLaws Env}.
Context {Q : Type} {Pol : CsPolicy Q} {Laws : CsPolicyLaws Q}.
Context (rs : StrategyRef → RetxSuppressionExponential).
Abbreviation bestRoute := (fun ref : StrategyRef => BestRouteStrategy (rs ref)).
Abbreviation pits s := (st_pits (fw_store s)).
Abbreviation interests s := (st_interests (fw_store s)).

(** The return path in the state where the PIT entry of the reflexive Interest
    exists. *)
Lemma returnPath_inserted (s s1 : Forwarder Q) st' i j N po rec p r :
  fw_inv s → returnPath s i N po rec → sameKey i j → i_pitTokenTag j = i_pitTokenTag i → i_name i ≠ N →
  fw_assist s1 = fw_assist s → pits s1 = pits s →
  (∀ p, pitInterest (fw_store s1) p = pitInterest (fw_store s) p) →
  interests s1 !! r = Some j → recordable (set_fw_store st' s1) p r → st_interests st' = interests s1 →
  (∀ p' pe, pits s1 !! p' = Some pe → st_pits st' !! p' = Some pe) →
  (∀ p' pe, st_pits st' !! p' = Some pe → p' = p ∨ pits s1 !! p' = Some pe) →
  returnPath (set_fw_store st' s1) j N po rec ∧ p ≠ po.
Proof.
  intros Hi [Hfp Htok Hatt Hname Honly Hrec] Hk Ht HN Ha Hp1 Hpi1 Hr Hre Hin Hup Hdown.
  assert (∀ q x, pits s !! q = Some x → pitInterest st' q = pitInterest (fw_store s) q) as Hpi.
  { intros q x Hq. rewrite <-Hpi1. rewrite <-Hp1 in Hq. unfold pitInterest.
    rewrite (Hup _ _ Hq), Hq. simpl. by rewrite Hin. }
  assert (∀ x, pitInterest st' p = Some x → i_name x ≠ N) as Hnew.
  { intros x Hx. destruct Hre as (mine & i' & (n & _ & Hmine) & Hr' & Hm). simpl in Hmine, Hr'.
    rewrite Hin, Hr in Hr'. injection Hr' as <-. rewrite Hmine in Hx. injection Hx as <-.
    apply matchesInterest_spec in Hm as (E & _). destruct Hk as (E' & _). congruence. }
  destruct Hatt as (pe & Hpe & Hn). destruct Hname as (orig & Horig & EN).
  split; [split|].
  - by rewrite <-(sameKey_fromProducer i j).
  - rewrite Ht. simpl. by rewrite Ha.
  - exists pe. split; [|done]. apply Hup. by rewrite Hp1.
  - exists orig. split; [|done]. simpl. by rewrite (Hpi _ _ Hpe).
  - intros q x (pq & Hq & Hnq) Hx Ex. simpl in Hq, Hx. destruct (Hdown _ _ Hq) as [->|Hq1].
    + by destruct (Hnew _ Hx).
    + rewrite Hp1 in Hq1. apply (Honly q x); [by exists pq| |done]. by rewrite <-(Hpi _ _ Hq1).
  - destruct Hrec as (pe' & l & Hpe' & El). exists pe', l. split; [|done]. apply Hup. by rewrite Hp1.
  - intros ->. rewrite <-(Hpi _ _ Hpe) in Horig. by destruct (Hnew _ Horig).
Qed.

(** C2. The return path, best-route strategy: a reflexive Interest that arrives from
    the producer's side with the token of a pending Interest [N] is sent exactly
    once, on the face of the first in-record of [N]'s only PIT entry, with the token
    that the assistant recorded for the name [N] when it first saw it; name and
    selectors are unchanged, the pipeline returns, and nothing else leaves.  The
    recorded token is that of the first Interest of this name and is never renewed:
    for a second downstream, or a name expressed again, it need not be the one on
    its own Interest ([stale_downstream_token]).  Conditions: the Interest has a
    Nonce that is not in the Dead Nonce List, a HopLimit that is not 0 and, if 1, an
    in-record on a local face; it is not under /localhost from a non-local face; its
    name is not [N]; its PIT token has at least four bytes; and a free token can be
    drawn if it needs one. *)
Theorem reflexive_interest_return_path s ri f face nonce N po rec :
  fw_inv s → interest_ok s ri → fw_faces s !! f = Some face → acceptable ri face nonce →
  inDnl s (i_name ri) nonce = false →
  returnPath s ri N po rec → i_name ri ≠ N →
  (i_hopLimit ri = Some 1 → ∃ g, fw_faces s !! in_face rec = Some g ∧ face_scope g = FACE_SCOPE_LOCAL) →
  ∃ s' ri' b,
    handle bestRoute (EvInterest ri f) s = Ok (tt, s') ∧ fw_inv s' ∧
    fw_output s' = fw_output s ++ [SendInterest (in_face rec) ri'] ∧ sameKey ri ri' ∧
    setPitToken (nameToPrevToken (fw_assist s) N).1 = Ok b ∧ i_pitTokenTag ri' = Some b.
Proof using EnvironmentLaws0.
  intros Hi Hok Hf Hps Hdnl Hrp HN Hhop.
  destruct (wp_elim _ _ _ (handle_ok bestRoute (EvInterest ri f) s Hi (conj (mk_is_Some _ _ Hf) Hok)))
    as ([] & s' & E & Hi').
  set (i := prepared (fw_regions s) face ri). destruct (prepared_same (fw_regions s) face ri)
    as (Hk & Ht & _ & Hreg & Hh). fold i in Hk, Ht, Hreg, Hh.
  assert (wp (handle bestRoute (EvInterest ri f)) (fun _ s' =>
    sentBack (in_face rec) i (nameToPrevToken (fw_assist s) N).1 s s') s) as Hout.
  { cbn [handle]. eapply wp_front; [done|done|done|]. cbv zeta. fold i. set (r := fresh _).
    assert (interests (stored i s) !! r = Some i) as Hr by apply lookup_insert_eq.
    apply wp_bind. eapply Pit_insert_keeps; [by apply stored_inv|done|apply prepared_storable, Hok|].
    intros p b st' Hi2 Hrec Hin Hup Hdown. apply wp_bind. eapply wp_deref; [done|]. apply wp_bind.
    eapply wp_lift; [rewrite <-(sameKey_fromProducer ri i) by done; apply Hrp|]. cbv beta iota.
    destruct (returnPath_inserted s (stored i s) st' ri i N po rec p r) as [Hrp2 Hpo]; try done.
    { intros q. by apply stored_pitInterest. }
    eapply wp_mono; [eapply onSendingRI_output with (i := i) (N := N) (po := po) (rec := rec); try done|].
    - simpl. by rewrite Hin.
    - auto.
    - intros x s3 (i' & b' & H1 & H2 & H3 & H4). by exists i', b'. }
  destruct (wp_elim _ _ _ Hout) as (x & s2 & E2 & i' & b & H1 & H2 & H3 & H4).
  rewrite E in E2. injection E2 as _ <-. exists s', i', b. split_and!; try done.
  unfold sameKey in *. naive_solver congruence.
Qed.
End return_path.

(** ** Runs of the forwarder *)

Section runs.
Context `{Env : Environment} {Q : Type} {Pol : CsPolicy Q} {Laws : CsPolicyLaws Q}.
Context (strategy : StrategyRef → Strategy (Q := Q)).
Abbreviation pits s := (st_pits (fw_store s)).

(** Well-formedness of events, decided. *)
Definition tokenAvailableb (a : pit_assist) (k : nat) : bool :=
  existsb (fun j => negb (bool_decide (u32 (randomWord (k + j)%nat) = 0)) &&
    bool_decide (m_Token_to_Name a !! u32 (randomWord (k + j)%nat) = None)) (seq 0 tokenFuel).
Definition interest_okb (s : Forwarder Q) (i : Interest) : bool :=
  match isReflexiveInterestFromProducer i with Ok _ => true | Fault _ => false end &&
  match i_pitTokenTag i with Some t => bool_decide (4 ≤ length t)%nat | None => true end &&
  (negb (isReflexiveInterest i) || existName (fw_assist s) (i_name i) ||
   tokenAvailableb (fw_assist s) (match i_nonce i with Some _ => fw_drawn s | None => S (fw_drawn s) end)).
Definition event_okb (s : Forwarder Q) (e : Event) : bool :=
  match e with
  | EvInterest i f => bool_decide (is_Some (fw_faces s !! f)) && interest_okb s i
  | EvData d f => bool_decide (is_Some (fw_faces s !! f)) && bool_decide (0 ≤ d_freshnessPeriod d)
  | EvNack n f => bool_decide (is_Some (fw_faces s !! f))
  | EvTimer p => bool_decide (is_Some (pits s !! p))
  | _ => true
  end.
Fixpoint events_okb (es : list Event) (s : Forwarder Q) : bool :=
  match es with
  | [] => true
  | e :: es' => event_okb s e &&
      match handle strategy e s with Ok (_, s') => events_okb es' s' | Fault _ => true end
  end.

Lemma interest_okb_sound s i : interest_okb s i = true → interest_ok s i.
Proof.
  unfold interest_okb. intros [[H1 H2]%andb_true_iff H3]%andb_true_iff. split.
  - destruct (isReflexiveInterestFromProducer i); [eauto|done].
  - intros t Ht. rewrite Ht in H2. by apply bool_decide_eq_true in H2.
  - intros Hr. rewrite Hr in H3. simpl in H3. apply orb_true_iff in H3 as [H3|H3]; [by left|right].
    apply existsb_exists in H3 as (j & Hj%in_seq & [H0 Hn]%andb_true_iff). exists j.
    apply negb_true_iff, bool_decide_eq_false in H0. apply bool_decide_eq_true in Hn. split_and!; [lia|done|done].
Qed.
Lemma event_okb_sound s e : event_okb s e = true → event_ok s e.
Proof.
  intros He. destruct e; simpl in *; try done.
  - apply andb_true_iff in He as [H1%bool_decide_eq_true H2]. split; [done|by apply interest_okb_sound].
  - apply andb_true_iff in He as [H1%bool_decide_eq_true H2%bool_decide_eq_true]. done.
  - by apply bool_decide_eq_true in He.
  - by apply bool_decide_eq_true in He.
Qed.
Lemma events_okb_sound es : ∀ s, events_okb es s = true → events_ok strategy es s.
Proof.
  induction es as [|e es IH]; intros s; cbn [events_okb events_ok]; [done|].
  intros [He Hes]%andb_true_iff. split; [by apply event_okb_sound|].
  intros s' E. rewrite E in Hes. by apply IH.
Qed.

Context `{!EnvironmentLaws Env} {SL : ∀ st, StrategyLaws (strategy st)}.

(** A run from the constructor. *)
Lemma run_ok st faces regions hop uns lim s es :
  Forwarder_new st faces regions hop uns lim = Ok s → events_ok strategy es s →
  ∃ s', handleAll strategy es s = Ok (tt, s') ∧ fw_inv s'.
Proof using All.
  intros E Hes. destruct (Forwarder_new_ok st faces regions hop uns lim) as (s0 & E0 & Hi & _).
  rewrite E0 in E. injection E as ->.
  destruct (wp_elim _ _ _ (handleAll_ok strategy es s Hi Hes)) as ([] & s' & H & Hi'). eauto.
Qed.

(** C1. Safety of the forwarder: from its constructor, any sequence of packets,
    drops, PIT timers, timers of the Dead Nonce List and of the content-store
    policy, route registrations and clock steps, each meeting [event_ok] when it
    comes, runs to completion without a failed assertion, an exception, a null
    dereference or an out-of-range access, and keeps the invariant of the tables:
    for any strategies and content-store policy that keep the laws of their
    interfaces, any hash functions and any order of the unordered sets.  [event_ok]
    asks that a packet names a face and a timer a PIT entry that exist; of an
    Interest, that it does not make the reflexive test throw, that its PIT token has
    at least four bytes, and that a free token can be drawn when it needs one; of
    Data, that its FreshnessPeriod is not negative.  Without these the code does
    fail: a FreshnessPeriod of 2^63 or more on the wire decodes to a negative one
    and fails an assertion ([negative_freshness_fails]). *)
Theorem forwarder_safe st faces regions hop uns lim es :
  ∃ s, Forwarder_new st faces regions hop uns lim = Ok s ∧ fw_inv s ∧
    (events_ok strategy es s → ∃ s', handleAll strategy es s = Ok (tt, s') ∧ fw_inv s').
Proof using All.
  destruct (Forwarder_new_ok st faces regions hop uns lim) as (s & E & Hi & _).
  exists s. split_and!; [done|done|]. intros Hes. by eapply run_ok.
Qed.

(** C6. Scope control on the way out: in every run no Data under /localhost
    leaves on a non-local face, no Data leaves on a closed face, and no Interest whose
    hop limit is exhausted leaves on a non-local face. *)
Theorem forwarder_outputs_in_scope st faces regions hop uns lim es s s' f :
  Forwarder_new st faces regions hop uns lim = Ok s → events_ok strategy es s →
  handleAll strategy es s = Ok (tt, s') →
  (∀ d, SendData f d ∈ fw_output s' → ∃ face, fw_faces s' !! f = Some face ∧
     face_id face ≠ INVALID_FACEID ∧
     (LOCALHOST `prefix_of` d_name d → face_scope face = FACE_SCOPE_LOCAL)) ∧
  (∀ i, SendInterest f i ∈ fw_output s' → i_hopLimit i = Some 0 →
     ∃ face, fw_faces s' !! f = Some face ∧ face_scope face = FACE_SCOPE_LOCAL).
Proof using All.
  intros E Hes H. destruct (run_ok _ _ _ _ _ _ _ _ E Hes) as (s2 & H2 & Hi).
  rewrite H2 in H. injection H as ->. split.
  - intros d Hd. exact (fi_output s' Hi _ Hd).
  - intros i Ho Hz. destruct (fi_output s' Hi _ Ho) as (face & Hf & Hs). eauto.
Qed.
End runs.
