(* ===== verification/FaceFrame.v ===== *)
(** * The pipelines leave the faces alone

    No pipeline and no strategy creates or destroys a face, or changes anything
    of one but its counters.  The proofs follow the code: a computation keeps the
    faces when its parts do. *)

From S2P Require Import Prelude Tlv Component Name Packet PitAssist Hashtable NameTree Face FibEntry.
From S2P Require Import PitEntry Store Pit Fib DeadNonceList Cs Algorithm Forwarder ForwarderInv.
From S2P Require Import BestRoute Strategies.
Local Open Scope Z_scope.

Create HintDb faces.

Section frame.
Context {Env : Environment} {Q : Type} {Pol : CsPolicy Q}.
Abbreviation FW := (M (Forwarder Q)).
Abbreviation FaceView := (gmap FaceRef (Z * FaceScope * LinkType)).

(** The faces without their counters. *)
Definition faceView (x : Face) : Z * FaceScope * LinkType := (face_id x, face_scope x, face_linkType x).
Definition facesOf (s : Forwarder Q) : FaceView := faceView <$> fw_faces s.

(** [m] keeps the faces [F], whenever it returns. *)
Definition keepsFaces (F : FaceView) {A} (m : FW A) : Prop :=
  ∀ s a s', facesOf s = F → m s = Ok (a, s') → facesOf s' = F.

Lemma kf_ret F {A} (a : A) : keepsFaces F (mret a).
Proof. by intros s b s' Hs [= _ <-]. Qed.
Lemma kf_bind F {A B} (m : FW A) (k : A → FW B) :
  keepsFaces F m → (∀ a, keepsFaces F (k a)) → keepsFaces F (m ≫= k).
Proof.
  intros Hm Hk s b s' Hs. munfold. destruct (m s) as [[a s1]|] eqn:E; [|done]. eapply Hk, Hm; eauto.
Qed.
Lemma kf_get_bind F {B} (k : Forwarder Q → FW B) :
  (∀ s, facesOf s = F → keepsFaces F (k s)) → keepsFaces F (get ≫= k).
Proof. intros Hk s b s' Hs. munfold. by apply Hk. Qed.
Lemma kf_put F s1 : facesOf s1 = F → keepsFaces F (put s1).
Proof. by intros H s a s' _ [= _ <-]. Qed.
Lemma kf_gets F {A} (f : Forwarder Q → A) : keepsFaces F (gets f).
Proof. by intros s b s' Hs [= _ <-]. Qed.
Lemma kf_raise F {A} x : keepsFaces F (raise x : FW A).
Proof. by intros s b s' Hs. Qed.
Lemma kf_lift F {A} (m : outcome A) : keepsFaces F (lift m).
Proof. intros s b s' Hs. unfold lift. destruct m; [by intros [= _ <-]|done]. Qed.
Lemma kf_assert F b : keepsFaces F (assertM b).
Proof. unfold assertM. destruct b; [apply kf_ret|apply kf_raise]. Qed.
Lemma kf_deref F {A} (o : option A) : keepsFaces F (deref o).
Proof. unfold deref. destruct o; [apply kf_ret|apply kf_raise]. Qed.
Lemma kf_forM F {A} (l : list A) (k : A → FW unit) : (∀ a, keepsFaces F (k a)) → keepsFaces F (forM_ l k).
Proof. intros Hk. induction l; cbn [forM_]; [apply kf_ret|by apply kf_bind]. Qed.
Lemma kf_onStore F {A} (m : M Store A) : keepsFaces F (onStore m).
Proof.
  intros s b s' Hs. unfold onStore, zoom. munfold. destruct (m (fw_store s)) as [[a st]|]; [|done]. by intros [= _ <-].
Qed.
Lemma kf_modify F (f : Forwarder Q → Forwarder Q) : (∀ s, facesOf (f s) = facesOf s) → keepsFaces F (modify f).
Proof. intros Hf s b s' Hs [= _ <-]. by rewrite Hf. Qed.
Lemma kf_setFace F f g : (∀ x, faceView (g x) = faceView x) → keepsFaces F (setFace f g).
Proof.
  intros Hg s b s' Hs. unfold setFace, getFace. munfold. destruct (fw_faces s !! f) as [x|] eqn:E; [|done].
  cbn [deref]. munfold. intros [= _ <-]. rewrite <-Hs. unfold facesOf. cbn [fw_faces set_fw_faces].
  rewrite fmap_insert, Hg. apply insert_id. by rewrite lookup_fmap, E.
Qed.
End frame.

#[export] Hint Resolve kf_ret kf_gets kf_raise kf_lift kf_assert kf_deref kf_onStore : faces.

(** One step through the code; [faces] has the parts already done. *)
Ltac kf_step :=
  match goal with
  | |- ∀ _, _ => intros
  | |- keepsFaces _ (get ≫= _) => apply kf_get_bind; intros
  | |- keepsFaces _ (_ ≫= _) => apply kf_bind
  | |- keepsFaces _ (put _) => apply kf_put; done
  | |- keepsFaces _ (forM_ _ _) => apply kf_forM
  | |- keepsFaces _ (modify _) => apply kf_modify; done
  | |- keepsFaces _ (setFace _ _) => apply kf_setFace; done
  | |- keepsFaces _ (match ?x with _ => _ end) => destruct x
  | |- keepsFaces _ _ => solve [eauto 2 with faces nocore]
  end.
Ltac kf := repeat kf_step.

(** ** The outgoing pipelines and the strategies *)

Section outgoing.
Context {Env : Environment} {Q : Type} {Pol : CsPolicy Q}.
Abbreviation FW := (M (Forwarder Q)).
Abbreviation FaceView := (gmap FaceRef (Z * FaceScope * LinkType)).
Implicit Types F : FaceView.

Lemma kf_emit F o : keepsFaces F (emit o : FW unit).
Proof. unfold emit. kf. Qed.
Lemma kf_count F f : keepsFaces F (count f : FW unit).
Proof. unfold count. kf. Qed.
Lemma kf_onCs F f : keepsFaces F (onCs f : FW unit).
Proof. unfold onCs. kf. Qed.
Lemma kf_onDnl F f : keepsFaces F (onDnl f : FW unit).
Proof. unfold onDnl. kf. Qed.
Lemma kf_getFace F f : keepsFaces F (getFace f : FW Face).
Proof. unfold getFace. kf. Qed.
Lemma kf_now F : keepsFaces F (now : FW Z).
Proof. unfold now. kf. Qed.
Lemma kf_interestOf F r : keepsFaces F (interestOf r : FW Interest).
Proof. unfold interestOf. kf. Qed.
Lemma kf_changeInterest F r f : keepsFaces F (changeInterest r f : FW unit).
Proof. unfold changeInterest. kf. Qed.
Lemma kf_pitEntryOf F r : keepsFaces F (pitEntryOf r : FW PitEntry).
Proof. unfold pitEntryOf. kf. Qed.
Lemma kf_changePitEntry F r f : keepsFaces F (changePitEntry r f : FW unit).
Proof. unfold changePitEntry. kf. Qed.
#[local] Hint Resolve kf_emit kf_count kf_onCs kf_onDnl kf_getFace kf_now kf_interestOf : faces.
#[local] Hint Resolve kf_changeInterest kf_pitEntryOf kf_changePitEntry : faces.

Lemma kf_getNonce F r : keepsFaces F (getNonce r : FW Z).
Proof. unfold getNonce. kf. Qed.
#[local] Hint Resolve kf_getNonce : faces.
Lemma kf_tagPitToken F r v : keepsFaces F (tagPitToken r v : FW unit).
Proof. unfold tagPitToken. kf. Qed.
Lemma kf_addOutRecord F p f r : keepsFaces F (addOutRecord p f r : FW unit).
Proof. unfold addOutRecord. kf. Qed.
Lemma kf_addInRecord F p f r : keepsFaces F (addInRecord p f r : FW unit).
Proof. unfold addInRecord. kf. Qed.
Lemma kf_sendOnFace F f r : keepsFaces F (sendOnFace f r : FW unit).
Proof. unfold sendOnFace. kf. Qed.
#[local] Hint Resolve kf_tagPitToken kf_addOutRecord kf_addInRecord kf_sendOnFace : faces.
Lemma kf_onOutgoingInterest F r f p : keepsFaces F (onOutgoingInterest r f p : FW bool).
Proof. unfold onOutgoingInterest. kf. Qed.
Lemma kf_setExpiryTimer F p d : keepsFaces F (setExpiryTimer p d : FW unit).
Proof. unfold setExpiryTimer. kf. Qed.
Lemma kf_onOutgoingData F d f : keepsFaces F (onOutgoingData d f : FW bool).
Proof. unfold onOutgoingData. kf. Qed.
Lemma kf_onOutgoingNack F d f p : keepsFaces F (onOutgoingNack d f p : FW bool).
Proof. unfold onOutgoingNack. kf. Qed.
#[local] Hint Resolve kf_onOutgoingInterest kf_setExpiryTimer kf_onOutgoingData kf_onOutgoingNack : faces.
Lemma kf_sendInterest F r f p : keepsFaces F (sendInterest r f p : FW bool).
Proof. unfold sendInterest. kf. Qed.
Lemma kf_sendData F d f p : keepsFaces F (sendData d f p : FW bool).
Proof. unfold sendData. kf. Qed.
#[local] Hint Resolve kf_sendInterest kf_sendData : faces.
Lemma kf_sendDataToAll F d p f : keepsFaces F (sendDataToAll d p f : FW unit).
Proof. unfold sendDataToAll. kf. Qed.
Lemma kf_sendNacks F x p : keepsFaces F (sendNacks x p : FW unit).
Proof. unfold sendNacks. kf. Qed.
Lemma kf_lookupFib F p : keepsFaces F (lookupFib p : FW FibEntry).
Proof. unfold lookupFib. kf. Qed.
Lemma kf_noNextHop F f p : keepsFaces F (noNextHop f p : FW unit).
Proof. unfold noNextHop. kf. Qed.
#[local] Hint Resolve kf_sendDataToAll kf_sendNacks kf_lookupFib kf_noNextHop : faces.

(** What a strategy promises about the faces. *)
Definition strategyKeepsFaces (st : Strategy (Q := Q)) : Prop :=
  ∀ F, (∀ r f p, keepsFaces F (afterReceiveInterest st r f p)) ∧
    (∀ d f p, keepsFaces F (afterContentStoreHit st d f p)) ∧
    (∀ d f p, keepsFaces F (beforeSatisfyInterest st d f p)) ∧
    (∀ d f p, keepsFaces F (afterReceiveData st d f p)) ∧
    (∀ n f p, keepsFaces F (afterReceiveNack st n f p)) ∧
    (∀ i f, keepsFaces F (onDroppedInterest st i f)) ∧
    (∀ nh p, keepsFaces F (afterNewNextHop st nh p)).

Lemma BestRouteStrategy_faces rs : strategyKeepsFaces (BestRouteStrategy rs).
Proof.
  intros F. split_and!; cbn; unfold br_afterReceiveInterest, base_afterContentStoreHit, base_beforeSatisfyInterest,
    base_afterReceiveData, br_afterReceiveNack, base_onDroppedInterest, base_afterNewNextHop; kf.
Qed.
Lemma kf_mc_forwardTo F rs r f p nh : keepsFaces F (mc_forwardTo rs r f p nh : FW unit).
Proof. unfold mc_forwardTo, outRecordOwner. kf. Qed.
#[local] Hint Resolve kf_mc_forwardTo : faces.
Lemma MulticastStrategy_faces rs : strategyKeepsFaces (MulticastStrategy rs).
Proof.
  intros F. split_and!; cbn; unfold mc_afterReceiveInterest, base_afterContentStoreHit, base_beforeSatisfyInterest,
    base_afterReceiveData, base_afterReceiveNack, base_onDroppedInterest, mc_afterNewNextHop; kf.
Qed.
Lemma RandomStrategy_faces shuffle : strategyKeepsFaces (RandomStrategy shuffle).
Proof.
  intros F. split_and!; cbn; unfold rd_afterReceiveInterest, base_afterContentStoreHit, base_beforeSatisfyInterest,
    base_afterReceiveData, br_afterReceiveNack, base_onDroppedInterest, base_afterNewNextHop; kf.
Qed.
End outgoing.

#[export] Hint Resolve kf_emit kf_count kf_onCs kf_onDnl kf_getFace kf_now kf_interestOf kf_changeInterest kf_pitEntryOf kf_changePitEntry : faces.
#[export] Hint Resolve kf_getNonce kf_tagPitToken kf_addOutRecord kf_addInRecord kf_sendOnFace kf_onOutgoingInterest kf_setExpiryTimer kf_onOutgoingData kf_onOutgoingNack kf_sendInterest kf_sendData kf_sendDataToAll kf_sendNacks kf_lookupFib kf_noNextHop : faces.

(** ** The incoming pipelines *)

Section incoming.
Context {Env : Environment} {Q : Type} {Pol : CsPolicy Q}.
Context (strategy : StrategyRef → Strategy (Q := Q)).
Context (Hst : ∀ st, strategyKeepsFaces (strategy st)).
Abbreviation FW := (M (Forwarder Q)).
Abbreviation FaceView := (gmap FaceRef (Z * FaceScope * LinkType)).
Implicit Types F : FaceView.

(** Asking a strategy. *)
Lemma kf_strategyAt F {B} nte (k : Strategy (Q := Q) → FW B) :
  (∀ st, keepsFaces F (k (strategy st))) → keepsFaces F (strategyAt strategy nte ≫= k).
Proof.
  intros Hk s b s' Hs. unfold strategyAt. destruct nte as [n|]; munfold; [|done].
  destruct (t_sc _) as [st|]; cbn [deref]; munfold; [by apply Hk|done].
Qed.
Lemma kf_effective F {B} p (k : Strategy (Q := Q) → FW B) :
  (∀ st, keepsFaces F (k (strategy st))) → keepsFaces F (findEffectiveStrategy strategy p ≫= k).
Proof.
  intros Hk s b s' Hs. unfold findEffectiveStrategy.
  assert (keepsFaces F (pe ← pitEntryOf p; i ← interestOf (pe_interest pe); nte ← deref (pe_nameTreeEntry pe);
    s ← get; strategyAt strategy (findLongestPrefixMatch_pit HashFunc (st_nameTree (fw_store s))
                nteHasStrategyChoiceEntry (i_name i) nte) ≫= k)) as H by (repeat first [by apply kf_strategyAt|kf_step]).
  intros E. apply (H s b s' Hs). rewrite <-E. munfold. destruct (pitEntryOf p s) as [[pe s1]|]; [|done].
  destruct (interestOf (pe_interest pe) s1) as [[i s2]|]; [|done].
  by destruct (deref (pe_nameTreeEntry pe) s2) as [[nte s3]|].
Qed.
Lemma kf_effective_name F {B} n (k : Strategy (Q := Q) → FW B) :
  (∀ st, keepsFaces F (k (strategy st))) → keepsFaces F (findEffectiveStrategy_name strategy n ≫= k).
Proof. intros Hk s b s' Hs. by apply kf_strategyAt. Qed.

Lemma sk_interest F st r f p : keepsFaces F (afterReceiveInterest (strategy st) r f p).
Proof using Hst. apply Hst. Qed.
Lemma sk_hit F st d f p : keepsFaces F (afterContentStoreHit (strategy st) d f p).
Proof using Hst. apply Hst. Qed.
Lemma sk_before F st d f p : keepsFaces F (beforeSatisfyInterest (strategy st) d f p).
Proof using Hst. apply Hst. Qed.
Lemma sk_data F st d f p : keepsFaces F (afterReceiveData (strategy st) d f p).
Proof using Hst. apply Hst. Qed.
Lemma sk_nack F st n f p : keepsFaces F (afterReceiveNack (strategy st) n f p).
Proof using Hst. apply Hst. Qed.
Lemma sk_dropped F st i f : keepsFaces F (onDroppedInterest (strategy st) i f).
Proof using Hst. apply Hst. Qed.
Lemma sk_newNextHop F st nh p : keepsFaces F (afterNewNextHop (strategy st) nh p).
Proof using Hst. apply Hst. Qed.
#[local] Hint Resolve sk_interest sk_hit sk_before sk_data sk_nack sk_dropped sk_newNextHop : faces.

Ltac kfs := repeat first
  [ match goal with
    | |- keepsFaces _ (findEffectiveStrategy _ _ ≫= _) => apply kf_effective
    | |- keepsFaces _ (findEffectiveStrategy_name _ _ ≫= _) => apply kf_effective_name
    end
  | kf_step ].

Lemma kf_insertDeadNonceList F p u : keepsFaces F (insertDeadNonceList p u : FW unit).
Proof. unfold insertDeadNonceList. kf. Qed.
Lemma kf_onInterestLoop F r f : keepsFaces F (onInterestLoop r f : FW unit).
Proof. unfold onInterestLoop. kf. Qed.
Lemma kf_acceptInterest F r f p : keepsFaces F (acceptInterest r f p : FW unit).
Proof. unfold acceptInterest, attachDefaultHopLimit. kf. Qed.
Lemma kf_sendNackDirect F x r f : keepsFaces F (sendNackDirect x r f : FW unit).
Proof. unfold sendNackDirect. kf. Qed.
#[local] Hint Resolve kf_insertDeadNonceList kf_onInterestLoop kf_acceptInterest kf_sendNackDirect : faces.
Lemma kf_onSendingRI F r f p : keepsFaces F (onSendingRI strategy r f p).
Proof using Hst. unfold onSendingRI. kfs. Qed.
Lemma kf_onContentStoreMiss F r f p : keepsFaces F (onContentStoreMiss strategy r f p).
Proof using Hst. unfold onContentStoreMiss. kfs. Qed.
Lemma kf_onContentStoreHit F r f p d : keepsFaces F (onContentStoreHit strategy r f p d).
Proof using Hst. unfold onContentStoreHit. cbv zeta. kfs. Qed.
#[local] Hint Resolve kf_onSendingRI kf_onContentStoreMiss kf_onContentStoreHit : faces.
Lemma kf_processInterest F r f p n : keepsFaces F (processInterest strategy r f p n).
Proof using Hst. unfold processInterest, lookupContentStore. kfs. Qed.
#[local] Hint Resolve kf_processInterest : faces.
Lemma kf_onIncomingInterest F i f : keepsFaces F (onIncomingInterest strategy i f).
Proof using Hst. unfold onIncomingInterest. kfs. Qed.
Lemma kf_satisfyMany F d f ps : ∀ l, keepsFaces F (satisfyMany strategy d f ps l).
Proof using Hst. induction ps as [|p ps IH]; intros l; cbn [satisfyMany]; cbv zeta; kfs; try apply IH. Qed.
#[local] Hint Resolve kf_satisfyMany : faces.
Lemma kf_onIncomingData F d f : keepsFaces F (onIncomingData strategy d f).
Proof using Hst.
  unfold onIncomingData, onDataUnsolicited, satisfyOne, sendToDownstream. cbv zeta. kfs.
Qed.
Lemma kf_onIncomingNack F n f : keepsFaces F (onIncomingNack strategy n f).
Proof using Hst. unfold onIncomingNack. kfs. Qed.
Lemma kf_addNextHop F prefix id c : keepsFaces F (addNextHop strategy prefix id c).
Proof using Hst. unfold addNextHop, onNewNextHop. kfs. Qed.
#[local] Hint Resolve kf_onIncomingInterest kf_onIncomingData kf_onIncomingNack kf_addNextHop : faces.

(** No event of the forwarder creates, destroys or changes a face. *)
Lemma handle_faces F e : keepsFaces F (handle strategy e).
Proof using Hst.
  destruct e; cbn [handle]; unfold fw_onDroppedInterest, onTimer, onInterestFinalize; kfs.
Qed.
End incoming.
