(* ===== verification/FaceTable.v ===== *)
(** * The face table and the life of faces (NFD [fw/face-table.cpp],
    [face/transport.cpp], [face/channel.cpp])

    Faces come and go: a new face is added to the table; when its transport
    reaches the state CLOSED, the table takes it out again, and the forwarder
    removes it from the FIB and the PIT ([Cleanup]).  The state here is the
    forwarder with the table, the transports, the handlers connected to
    [afterStateChange] and the handlers posted by [doClose].

    Face objects are the entries of [fw_faces].  The table's is the last
    reference to a face, and [FaceTable::remove] posts its release; here the face is
    gone, and its address free for another face, as soon as [remove] returns.  So
    the theorems below show that nothing refers to a face even that early. *)

From S2P Require Import Prelude Tlv Component Name Packet PitAssist Hashtable NameTree Face Transport.
From S2P Require Import FibEntry PitEntry Store Pit Fib Cleanup DeadNonceList Cs Algorithm Forwarder.
From S2P Require Import ForwarderInv BestRoute Strategies ForwarderSafety ForwarderProps FaceFrame.
Local Open Scope Z_scope.

(** ** State *)

Definition FACEID_RESERVED_MAX : Z := 255.

Record FaceTable := mkFaceTable {
  ft_faces : gmap Z FaceRef;            (* [m_faces] *)
  ft_lastFaceId : Z                     (* [m_lastFaceId] *)
}.
Definition FaceTable_init : FaceTable := mkFaceTable ∅ FACEID_RESERVED_MAX.

Record NodeState (Q : Type) := mkNodeState {
  nd_fw : Forwarder Q;
  nd_table : FaceTable;
  nd_transports : gmap FaceRef TransportObj;
  nd_onClosed : gmap FaceRef (list Z);  (* the FaceIds captured by the handlers of [afterStateChange] *)
  nd_posted : list FaceRef              (* the transports whose [doClose] posted a handler *)
}.
Arguments mkNodeState {_} _ _ _ _ _.
Arguments nd_fw {_} _.
Arguments nd_table {_} _.
Arguments nd_transports {_} _.
Arguments nd_onClosed {_} _.
Arguments nd_posted {_} _.

Definition set_face_id (id : Z) (x : Face) : Face :=
  mkFace id (face_scope x) (face_linkType x) (nInHopLimitZero x) (nOutHopLimitZero x).

Section code.
Context {Env : Environment} {Q : Type} {Pol : CsPolicy Q}.
Abbreviation ND := (M (NodeState Q)).

Definition set_nd_fw (v : Forwarder Q) (n : NodeState Q) : NodeState Q :=
  mkNodeState v (nd_table n) (nd_transports n) (nd_onClosed n) (nd_posted n).
Definition set_nd_table (v : FaceTable) (n : NodeState Q) : NodeState Q :=
  mkNodeState (nd_fw n) v (nd_transports n) (nd_onClosed n) (nd_posted n).
Definition set_nd_transports (v : gmap FaceRef TransportObj) (n : NodeState Q) : NodeState Q :=
  mkNodeState (nd_fw n) (nd_table n) v (nd_onClosed n) (nd_posted n).
Definition set_nd_onClosed (v : gmap FaceRef (list Z)) (n : NodeState Q) : NodeState Q :=
  mkNodeState (nd_fw n) (nd_table n) (nd_transports n) v (nd_posted n).
Definition set_nd_posted (v : list FaceRef) (n : NodeState Q) : NodeState Q :=
  mkNodeState (nd_fw n) (nd_table n) (nd_transports n) (nd_onClosed n) v.
Definition onFw {A} : M (Forwarder Q) A → ND A := zoom nd_fw set_nd_fw.

(** ** The face table *)

(** [FaceTable::get] and [FaceTable::size]. *)
Definition FaceTable_get (t : FaceTable) (id : Z) : option FaceRef := ft_faces t !! id.
Definition FaceTable_size (t : FaceTable) : nat := size (ft_faces t).

(** [connectFaceClosedSignal(face, [faceId] { remove(faceId) })]. *)
Definition connectFaceClosedSignal (f : FaceRef) (faceId : Z) : ND unit :=
  modify (fun n => set_nd_onClosed (<[f := default [] (nd_onClosed n !! f) ++ [faceId]]> (nd_onClosed n)) n).

(** [FaceTable::addImpl]; the handlers of [afterAdd] are the receive signals
    of the face, which the events below stand for. *)
Definition addImpl (f : FaceRef) (faceId : Z) : ND unit :=
  onFw (setFace f (set_face_id faceId));;
  n ← get;
  assertM (bool_decide (ft_faces (nd_table n) !! faceId = None));;
  put (set_nd_table (mkFaceTable (<[faceId := f]> (ft_faces (nd_table n))) (ft_lastFaceId (nd_table n))) n);;
  connectFaceClosedSignal f faceId.
(** [FaceTable::add]. *)
Definition FaceTable_add (f : FaceRef) : ND unit :=
  face ← onFw (getFace f);
  n ← get;
  if bool_decide (face_id face ≠ INVALID_FACEID) &&
     bool_decide (is_Some (ft_faces (nd_table n) !! face_id face))
  then mret tt
  else
    let faceId := u64 (ft_lastFaceId (nd_table n) + 1) in
    put (set_nd_table (mkFaceTable (ft_faces (nd_table n)) faceId) n);;
    assertM (bool_decide (FACEID_RESERVED_MAX < faceId));;
    addImpl f faceId.
(** [FaceTable::addReserved]. *)
Definition addReserved (f : FaceRef) (faceId : Z) : ND unit :=
  face ← onFw (getFace f);
  assertM (bool_decide (face_id face = INVALID_FACEID));;
  assertM (bool_decide (faceId ≤ FACEID_RESERVED_MAX));;
  addImpl f faceId.

(** The last reference to the face is gone, and with it its transport. *)
Definition releaseFace (f : FaceRef) : ND unit :=
  onFw (modify (fun s => set_fw_faces (delete f (fw_faces s)) s));;
  modify (fun n => set_nd_transports (delete f (nd_transports n)) n);;
  modify (fun n => set_nd_onClosed (delete f (nd_onClosed n)) n).
(** [FaceTable::remove], with the forwarder's handler of [beforeRemove]. *)
Definition FaceTable_remove (faceId : Z) : ND unit :=
  n ← get;
  match ft_faces (nd_table n) !! faceId with
  | None => raise AssertFailed
  | Some f =>
      onFw (onStore (cleanupOnFaceRemoval HashFunc f));;
      modify (fun n => set_nd_table (mkFaceTable (delete faceId (ft_faces (nd_table n)))
                                       (ft_lastFaceId (nd_table n))) n);;
      onFw (setFace f (set_face_id INVALID_FACEID));;
      releaseFace f
  end.

(** ** Transports *)

Definition transportOf (f : FaceRef) : ND TransportObj :=
  n ← get; deref (nd_transports n !! f).
(** [Transport::setState] with the handlers of [afterStateChange]. *)
Definition setState (f : FaceRef) (new : TransportState) : ND unit :=
  t ← transportOf f;
  r ← lift (Transport_setState new t);
  match r with
  | None => mret tt
  | Some t' =>
      modify (fun n => set_nd_transports (<[f := t']> (nd_transports n)) n);;
      n ← get;
      forM_ (default [] (nd_onClosed n !! f)) (fun faceId =>
        if bool_decide (new = TransportState_CLOSED) then FaceTable_remove faceId else mret tt)
  end.
Definition doClose (f : FaceRef) : ND unit :=
  t ← transportOf f;
  if closesAtOnce (tr_kind t) then setState f TransportState_CLOSED
  else modify (fun n => set_nd_posted (nd_posted n ++ [f]) n).
(** [Transport::close]. *)
Definition close (f : FaceRef) : ND unit :=
  t ← transportOf f;
  if negb (canClose t) then mret tt
  else setState f TransportState_CLOSING;; doClose f.
(** The handler posted by [doClose]. *)
Definition deferredClose (f : FaceRef) : ND unit :=
  modify (fun n => set_nd_posted (removeFirst (fun x => bool_decide (x = f)) (nd_posted n)) n);;
  setState f TransportState_CLOSED.
Definition onSocketError (eof : bool) (f : FaceRef) : ND unit :=
  t ← transportOf f;
  match stateOnError eof t with
  | Some new => setState f new;; doClose f
  | None => mret tt
  end.
Definition onNetifChange (running : bool) (f : FaceRef) : ND unit :=
  t ← transportOf f;
  match stateOnNetif running t with
  | Some new => setState f new
  | None => mret tt
  end.

(** ** Events *)

(** A channel or factory makes a face; its transport is up. *)
Definition makeFace (scope : FaceScope) (linkType : LinkType) (kind : TransportKind)
    (persistency : FacePersistency) : ND FaceRef :=
  n ← get;
  let f := fresh (dom (fw_faces (nd_fw n))) in
  onFw (modify (fun s => set_fw_faces (<[f := mkFace INVALID_FACEID scope linkType 0 0]> (fw_faces s)) s));;
  modify (fun n => set_nd_transports
    (<[f := mkTransportObj kind TransportState_UP persistency]> (nd_transports n)) n);;
  mret f.

Inductive NodeEvent : Type :=
| NdForward (e : Event)
| NdAdd (scope : FaceScope) (linkType : LinkType) (kind : TransportKind) (persistency : FacePersistency)
| NdAddReserved (faceId : Z) (scope : FaceScope) (linkType : LinkType) (kind : TransportKind)
    (persistency : FacePersistency)
| NdClose (f : FaceRef)
| NdSocketError (eof : bool) (f : FaceRef)
| NdNetif (running : bool) (f : FaceRef)
| NdDeferredClose (f : FaceRef).

Context (strategy : StrategyRef → Strategy (Q := Q)).

(** Between events, a PIT entry that is not attached to the name tree has no
    owner: only attached entries have a timer that refers to them.  And what
    the last event sent has been sent. *)
Definition collectPits (st : Store) : Store :=
  set_st_pits (filter (fun rp => is_Some (pe_nameTreeEntry rp.2)) (st_pits st)) st.
Definition beginEvent (n : NodeState Q) : NodeState Q :=
  set_nd_fw (set_fw_output [] (set_fw_store (collectPits (fw_store (nd_fw n))) (nd_fw n))) n.

Definition nodeHandle (e : NodeEvent) : ND unit :=
  modify beginEvent;;
  match e with
  | NdForward e => onFw (handle strategy e)
  | NdAdd scope linkType kind persistency =>
      f ← makeFace scope linkType kind persistency; FaceTable_add f
  | NdAddReserved faceId scope linkType kind persistency =>
      f ← makeFace scope linkType kind persistency; addReserved f faceId
  | NdClose f => close f
  | NdSocketError eof f => onSocketError eof f
  | NdNetif running f => onNetifChange running f
  | NdDeferredClose f => deferredClose f
  end.
Fixpoint nodeHandleAll (es : list NodeEvent) : ND unit :=
  match es with [] => mret tt | e :: es' => nodeHandle e;; nodeHandleAll es' end.

(** A forwarder without faces. *)
Definition Node_new (st : StrategyRef) (regions : list Name) (defaultHopLimit : Z)
    (unsolicited : UnsolicitedDataPolicy) (nMaxPackets : nat) : outcome (NodeState Q) :=
  s ← Forwarder_new st ∅ regions defaultHopLimit unsolicited nMaxPackets;
  Ok (mkNodeState s FaceTable_init ∅ ∅ []).
End code.

(** ** A forwarder without one of its faces *)

Section forwarder.
Context {Env : Environment} {Q : Type} {Pol : CsPolicy Q} {Laws : CsPolicyLaws Q}.
Abbreviation pits s := (st_pits (fw_store s)).

(** Nothing is waiting to be sent, and every PIT entry is attached. *)
Definition begun (s : Forwarder Q) : Prop :=
  fw_output s = [] ∧ ∀ p pe, pits s !! p = Some pe → is_Some (pe_nameTreeEntry pe).

Lemma collectPits_lookup st p pe :
  st_pits (collectPits st) !! p = Some pe ↔ st_pits st !! p = Some pe ∧ is_Some (pe_nameTreeEntry pe).
Proof. cbn. by rewrite map_lookup_filter_Some. Qed.
Lemma collectPits_inv st : pit_inv HashFunc st → pit_inv HashFunc (collectPits st).
Proof.
  intros [H1 H2 H3 H4 H5 H6 H7].
  assert (∀ r n, attached (collectPits st) r n ↔ attached st r n) as Ha.
  { intros r n. unfold attached. setoid_rewrite collectPits_lookup. naive_solver. }
  assert (∀ r i, pitInterest (collectPits st) r = Some i → pitInterest st r = Some i) as Hp.
  { intros r i. unfold pitInterest. destruct (st_pits (collectPits st) !! r) as [pe|] eqn:E; [|done].
    apply collectPits_lookup in E as [-> _]. done. }
  split; try done.
  - intros n r. rewrite Ha. apply H2.
  - intros r pe [Hr _]%collectPits_lookup. destruct (H4 r pe Hr). by split.
  - intros r n i. rewrite Ha. intros Hr Hi%Hp. by eapply H5.
  - intros r1 r2 n1 n2 i1 i2. rewrite !Ha. intros ?? ?%Hp ?%Hp. by eapply H6.
  - cbn. rewrite H7. unfold nAttached. by rewrite map_filter_filter_l by done.
Qed.

Lemma begin_fw (s : Forwarder Q) :
  fw_inv s → let s' := set_fw_output [] (set_fw_store (collectPits (fw_store s)) s) in
  fw_inv s' ∧ begun s' ∧ fw_faces s' = fw_faces s.
Proof.
  intros [A1 A2 A3 A4 A5 A6 A7 A8 A9 A10 A11 A12] s'. split_and!; [|split|done].
  - split; try done.
    + by apply collectPits_inv.
    + by apply fib_inv_pits.
    + intros p pe [Hp _]%collectPits_lookup. by apply (A6 p).
    + intros p pe i [Hp _]%collectPits_lookup. by apply (A7 p).
    + by intros o ?%not_elem_of_nil.
  - done.
  - intros p pe [_ Hp]%collectPits_lookup. done.
Qed.

(** The records and next hops that are left name other faces. *)
Lemma withoutRecords_fw f faces pe :
  pe_inv pe → entry_fw faces pe → entry_fw (delete f faces) (withoutRecords f pe).
Proof.
  intros Hpe [E1 E2 E3 E4]. split; try done.
  - intros rec [Hrec Hne]%(elem_of_deleteIn f pe rec Hpe). rewrite lookup_delete_ne by done. by apply E1.
  - intros rec [Hrec Hne]%(elem_of_deleteOut f (deleteInRecord f pe) rec (pe_inv_deleteIn f pe Hpe)).
    rewrite lookup_delete_ne by done. by apply E2.
Qed.

Lemma cleanup_fw f (s : Forwarder Q) :
  fw_inv s → begun s →
  ∃ st', cleanupOnFaceRemoval HashFunc f (fw_store s) = Ok (tt, st') ∧
    cleaned HashFunc f (fun _ => true) (fw_store s) st' ∧
    fw_inv (set_fw_faces (delete f (fw_faces s)) (set_fw_store st' s)).
Proof.
  intros Hi [Ho Hb]. destruct (cleanup_spec HashFunc f (fw_store s)) as (st' & Hrun & Hc & Hne); [apply Hi|apply Hi|].
  exists st'. split_and!; [done|done|]. destruct Hi as [A1 A2 A3 A4 A5 A6 A7 A8 A9 A10 A11 A12].
  pose proof Hc as [B1 B2 B3 B4 B5 B6 B7].
  split; cbn [fw_store fw_faces fw_cs fw_dnl fw_assist fw_output fw_regions set_fw_faces set_fw_store]; try done.
  - intros n fe Hs. rewrite B4 in Hs. destruct (fibSlot (fw_store s) n) as [fe0|] eqn:E; [|done]. cbn in Hs.
    destruct (A3 n fe0 E) as [Hn Hl]. split; [intros ?; eapply withoutHop_some_hops; [exact Hs|by apply Hn]|].
    intros nh [Hnh Hne']%(withoutHop_spec f fe0 fe (proj2 (fb_entry _ _ A2 _ _ E)) Hs).
    rewrite lookup_delete_ne by done. by apply Hl.
  - pose proof (f_equal t_sc (B3 [])) as E. cbn in E. by rewrite E.
  - intros p pe Hp. rewrite B5 in Hp. destruct (pits s !! p) as [pe0|] eqn:E; [|done]. cbn in Hp. injection Hp as <-.
    unfold cleanedAt. destruct (Hb p pe0 E) as [n ->]. apply withoutRecords_fw; [|by eapply A6].
    by apply (pi_entry _ _ A1 _ _ E).
  - intros p pe i Hp. rewrite B5 in Hp. destruct (pits s !! p) as [pe0|] eqn:E; [|done]. cbn in Hp. injection Hp as <-.
    rewrite (proj1 (cleanedAt_same _ _ pe0)), B6. by apply (A7 p).
  - rewrite Ho. by intros o ?%not_elem_of_nil.
Qed.

(** Adding a face, and giving it its identifier. *)
Lemma fw_inv_faces faces' (s : Forwarder Q) :
  fw_inv s → begun s → (∀ f, is_Some (fw_faces s !! f) → is_Some (faces' !! f)) →
  fw_inv (set_fw_faces faces' s).
Proof.
  intros [A1 A2 A3 A4 A5 A6 A7 A8 A9 A10 A11 A12] [Ho _] Hm. split; try done.
  - intros n fe Hs. destruct (A3 n fe Hs) as [? Hl]. split; [done|]. intros nh Hnh. by apply Hm, Hl.
  - intros p pe Hp. destruct (A6 p pe Hp). split; auto.
  - cbn. rewrite Ho. by intros o ?%not_elem_of_nil.
Qed.
End forwarder.

(** ** Invariant *)

Section node.
Context {Env : Environment} {Q : Type} {Pol : CsPolicy Q} {Laws : CsPolicyLaws Q}.
Abbreviation ND := (M (NodeState Q)).
Abbreviation faces n := (fw_faces (nd_fw n)).
Abbreviation table n := (ft_faces (nd_table n)).

(** The faces are those of the table, under their identifiers; each has an
    open transport, or a closing one with a posted handler, and the table will
    hear of its end.  The transport of [ex] is between two states. *)
Record node_inv_but (ex : option FaceRef) (n : NodeState Q) : Prop := {
  nv_fw : fw_inv (nd_fw n);
  nv_table : ∀ id f, table n !! id = Some f ↔ face_id <$> faces n !! f = Some id;
  nv_ids : ∀ id, is_Some (table n !! id) → 0 < id ≤ ft_lastFaceId (nd_table n);
  nv_last : FACEID_RESERVED_MAX ≤ ft_lastFaceId (nd_table n) < 2 ^ 64;
  nv_closed : ∀ f, nd_onClosed n !! f = (fun x => [face_id x]) <$> faces n !! f;
  nv_transport : ∀ f, is_Some (nd_transports n !! f) ↔ is_Some (faces n !! f);
  nv_state : ∀ f t, nd_transports n !! f = Some t → ex ≠ Some f →
    (isOpen t ∧ f ∉ nd_posted n) ∨ (isClosing t ∧ f ∈ nd_posted n);
  nv_posted : ∀ f, f ∈ nd_posted n → is_Some (nd_transports n !! f) ∧ ex ≠ Some f;
  nv_nodup : NoDup (nd_posted n)
}.
Abbreviation node_inv := (node_inv_but None).

Lemma nv_inj ex n id f1 f2 : node_inv_but ex n → table n !! id = Some f1 → table n !! id = Some f2 → f1 = f2.
Proof. congruence. Qed.

(** The forwarder's view of the table agrees with the table. *)
Lemma faceTable_get_table ex n id : node_inv_but ex n → faceTable_get (faces n) id = FaceTable_get (nd_table n) id.
Proof.
  intros Hi. unfold faceTable_get, FaceTable_get. case_bool_decide as E.
  { destruct (table n !! id) eqn:Et; [|done]. pose proof (nv_ids _ _ Hi id ltac:(eauto)). unfold INVALID_FACEID in *. lia. }
  destruct (List.find _ _) as [[f x]|] eqn:Ef; cbn.
  - apply List.find_some in Ef as [Hin%list_elem_of_In%elem_of_map_to_list Hx%bool_decide_eq_true].
    symmetry. apply (nv_table _ _ Hi). rewrite Hin. cbn in *. by rewrite Hx.
  - destruct (table n !! id) as [f|] eqn:Et; [|done]. apply (nv_table _ _ Hi) in Et.
    destruct (faces n !! f) as [x|] eqn:Ex; [|done]. injection Et as Et.
    pose proof (List.find_none _ _ Ef (f, x)) as Hn. cbn in Hn. rewrite bool_decide_true in Hn by done.
    discriminate Hn. by apply list_elem_of_In, elem_of_map_to_list.
Qed.

(** ** Leaving the table *)

Lemma remove_ok f id n :
  node_inv_but (Some f) n → begun (nd_fw n) → table n !! id = Some f →
  wp (FaceTable_remove id) (fun _ n' => node_inv n' ∧ faces n' = delete f (faces n) ∧
    nd_table n' = mkFaceTable (delete id (table n)) (ft_lastFaceId (nd_table n)) ∧
    cleaned HashFunc f (fun _ => true) (fw_store (nd_fw n)) (fw_store (nd_fw n'))) n.
Proof.
  intros Hi Hb Hid. pose proof (proj1 (nv_table _ _ Hi id f) Hid) as Hf.
  destruct (faces n !! f) as [x|] eqn:Hx; [|done]. injection Hf as Hf.
  destruct (cleanup_fw f (nd_fw n) (nv_fw _ _ Hi) Hb) as (st' & Hrun & Hc & Hfw).
  unfold FaceTable_remove. apply wp_bind, wp_get. rewrite Hid.
  apply wp_bind, wp_zoom, wp_zoom. eapply wp_run; [exact Hrun|]. apply wp_bind, wp_modify.
  apply wp_bind, wp_zoom. apply wp_bind. unfold getFace. apply wp_bind, wp_get. eapply wp_deref; [exact Hx|].
  apply wp_modify. apply wp_bind, wp_zoom, wp_modify, wp_bind, wp_modify, wp_modify. cbn.
  rewrite delete_insert_eq. split_and!; [|done|done|done].
  destruct Hi as [A1 A2 A3 A4 A5 A6 A7 A8 A9]. split; cbn; try done.
  - intros id' f'. rewrite !lookup_delete. split.
    + case_decide as E; [done|]. intros Hid'. pose proof (proj1 (A2 id' f') Hid') as E'.
      rewrite decide_False; [done|]. intros <-. rewrite Hx in E'. cbn in E'. congruence.
    + case_decide as E; [done|]. intros Hf'%A2. rewrite decide_False; [done|]. intros <-. congruence.
  - intros id'. rewrite lookup_delete. case_decide; [by intros []|apply A3].
  - intros f'. rewrite !lookup_delete. case_decide; [done|]. by rewrite A5.
  - intros f'. rewrite !lookup_delete. by case_decide.
  - intros f' t. rewrite lookup_delete. case_decide; [done|]. intros Ht _. apply A7; [done|congruence].
  - intros f' [Hs Hne]%A8. split; [|done]. rewrite lookup_delete_ne; [done|congruence].
Qed.

(** ** State changes *)

Lemma wp_transportOf f t (R : TransportObj → NodeState Q → Prop) n :
  nd_transports n !! f = Some t → R t n → wp (transportOf f) R n.
Proof. intros Ht HR. unfold transportOf. apply wp_bind, wp_get. by eapply wp_deref. Qed.

(** Other changes than to CLOSED only set the state. *)
Lemma setState_ok f t new (n : NodeState Q) :
  nd_transports n !! f = Some t → new ≠ TransportState_CLOSED →
  Transport_setState new t = Ok (Some (set_tr_state new t)) →
  wp (setState f new) (fun _ n' => n' = set_nd_transports (<[f := set_tr_state new t]> (nd_transports n)) n) n.
Proof.
  intros Ht Hne Hrun. unfold setState. apply wp_bind. eapply wp_transportOf; [done|].
  apply wp_bind. eapply wp_lift; [exact Hrun|]. apply wp_bind, wp_modify, wp_bind, wp_get. apply forM_same.
  intros id _. rewrite bool_decide_false by done. by apply wp_ret.
Qed.
Lemma closed_ok f t n :
  node_inv_but (Some f) n → begun (nd_fw n) → nd_transports n !! f = Some t → isClosing t →
  wp (setState f TransportState_CLOSED) (fun _ n' => node_inv n') n.
Proof.
  intros Hi Hb Ht Hcl. unfold setState. apply wp_bind. eapply wp_transportOf; [done|].
  apply wp_bind. eapply wp_lift; [by apply setState_closed|]. apply wp_bind, wp_modify, wp_bind, wp_get.
  destruct (proj1 (nv_transport _ _ Hi f) ltac:(eauto)) as [x Hx]. cbn. rewrite (nv_closed _ _ Hi), Hx. cbn.
  apply wp_bind. eapply wp_mono; [eapply (remove_ok f)|]; cycle 1.
  - done.
  - apply (nv_table _ _ Hi). by rewrite Hx.
  - intros [] n' [Hn' _]. by apply wp_ret.
  - destruct Hi as [A1 A2 A3 A4 A5 A6 A7 A8 A9]. split; cbn; try done.
    + intros f'. rewrite lookup_insert. case_decide; [subst|done]. rewrite Hx. split; eauto.
    + intros f' t' Ht' Hne. rewrite lookup_insert_ne in Ht' by congruence. by apply A7.
    + intros f' [Hs ?]%A8. split; [|done]. rewrite lookup_insert. by case_decide.
Qed.

(** Closing: the transport is on its way out, and [doClose] runs. *)
Lemma close_ok f t new n :
  node_inv n → begun (nd_fw n) → nd_transports n !! f = Some t → isOpen t →
  new = TransportState_CLOSING ∨ new = TransportState_FAILED →
  wp (setState f new;; doClose f) (fun _ n' => node_inv n') n.
Proof.
  intros Hi Hb Ht Ho Hnew. pose proof (setState_closing t new Ho Hnew) as Hrun.
  assert (isClosing (set_tr_state new t)) as Hcl by (unfold isClosing; naive_solver).
  apply wp_bind. eapply wp_mono; [eapply setState_ok; [done|naive_solver|done]|]. intros [] n1 ->.
  set (t1 := set_tr_state new t). set (n1 := set_nd_transports _ n).
  destruct (nv_state _ _ Hi f t Ht) as [[_ Hpost]|[[E|E] _]]; [done| |destruct Ho; congruence..].
  assert (node_inv_but (Some f) n1) as Hi1.
  { destruct Hi as [A1 A2 A3 A4 A5 A6 A7 A8 A9]. split; cbn; try done.
    - intros f'. rewrite lookup_insert. case_decide; [subst|done]. rewrite <-A6, Ht. split; eauto.
    - intros f' t' Ht' Hne. rewrite lookup_insert_ne in Ht' by congruence. by apply A7.
    - intros f' Hf'. split; [|intros [= ->]; done]. rewrite lookup_insert. case_decide; [done|]. by apply A8. }
  assert (nd_transports n1 !! f = Some t1) as Ht1 by (cbn; apply lookup_insert_eq).
  unfold doClose. apply wp_bind. eapply wp_transportOf; [done|].
  destruct (closesAtOnce _); [by eapply closed_ok|]. apply wp_modify.
  destruct Hi1 as [A1 A2 A3 A4 A5 A6 A7 A8 A9]. split; cbn [nd_fw nd_table nd_transports nd_onClosed nd_posted set_nd_posted]; try done.
  - intros f' t' Ht' _. destruct (decide (f' = f)) as [->|Hne].
    + right. assert (t' = t1) as -> by congruence. split; [done|set_solver].
    + destruct (A7 f' t' Ht') as [[? ?]|[? ?]]; [by intros [= ->]|left|right]; set_solver.
  - intros f' [Hf'|Hf']%elem_of_app; [by split; [apply A8|]|]. apply list_elem_of_singleton in Hf' as ->. split; [eauto|done].
  - apply NoDup_app. split_and!; [done| |apply NoDup_singleton]. by intros x Hx ->%list_elem_of_singleton.
Qed.

Lemma deferredClose_ok f n :
  node_inv n → begun (nd_fw n) → f ∈ nd_posted n → wp (deferredClose f) (fun _ n' => node_inv n') n.
Proof.
  intros Hi Hb Hf. destruct (nv_posted _ _ Hi f Hf) as [[t Ht] _].
  destruct (nv_state _ _ Hi f t Ht) as [[_ ?]|[Hcl _]]; [done|done|].
  unfold deferredClose. apply wp_bind, wp_modify. eapply closed_ok; [|done|exact Ht|done].
  assert (∀ x, x ∈ removeFirst (fun x => bool_decide (x = f)) (nd_posted n) ↔ x ∈ nd_posted n ∧ x ≠ f) as Hr.
  { intros x. apply (elem_of_removeFirst id). rewrite list_fmap_id. apply (nv_nodup _ _ Hi). }
  destruct Hi as [A1 A2 A3 A4 A5 A6 A7 A8 A9].
  split; cbn [nd_fw nd_table nd_transports nd_onClosed nd_posted set_nd_posted]; try done.
  - intros f' t' Ht' Hne. rewrite Hr. destruct (A7 f' t' Ht') as [[? ?]|[? ?]]; [done|left|right]; naive_solver.
  - intros f'. rewrite Hr. intros [Hf' Hne]. split; [by apply A8|congruence].
  - eapply sublist_NoDup; [exact A9|]. apply removeFirst_sublist.
Qed.

Lemma netif_ok running f t n :
  node_inv n → nd_transports n !! f = Some t → wp (onNetifChange running f) (fun _ n' => node_inv n') n.
Proof.
  intros Hi Ht. unfold onNetifChange. apply wp_bind. eapply wp_transportOf; [done|].
  destruct (stateOnNetif running t) as [new|] eqn:E; [|by apply wp_ret].
  destruct (stateOnNetif_spec _ _ _ E) as (Hrun & Ho & Ho' & Hne).
  eapply wp_mono; [by eapply setState_ok|]. intros [] n1 ->.
  destruct (nv_state _ _ Hi f t Ht) as [[_ Hpost]|[Hc _]]; [done| |by destruct Ho, Hc; congruence].
  destruct Hi as [A1 A2 A3 A4 A5 A6 A7 A8 A9]. split; cbn; try done.
  - intros f'. rewrite lookup_insert. case_decide; [subst|done]. rewrite <-A6, Ht. split; eauto.
  - intros f' t'. rewrite lookup_insert. case_decide as Ef; [|apply A7]. intros [= <-] _. left. by subst.
  - intros f' [Hf' ?]%A8. split; [|done]. rewrite lookup_insert. by case_decide.
Qed.

(** ** Entering the table *)

Lemma added_inv f x t id last n :
  node_inv n → begun (nd_fw n) → faces n !! f = None → face_id x = id → table n !! id = None →
  0 < id ≤ last → ft_lastFaceId (nd_table n) ≤ last < 2 ^ 64 → isOpen t →
  node_inv (mkNodeState (set_fw_faces (<[f := x]> (faces n)) (nd_fw n)) (mkFaceTable (<[id := f]> (table n)) last)
    (<[f := t]> (nd_transports n)) (<[f := [id]]> (nd_onClosed n)) (nd_posted n)).
Proof.
  intros Hi Hb Hf Hx Hid Hids Hlast Ho. pose proof Hi as [A1 A2 A3 A4 A5 A6 A7 A8 A9].
  assert (nd_transports n !! f = None) as Hnt.
  { destruct (nd_transports n !! f) eqn:E; [|done]. destruct (proj1 (A6 f)) as [? ?]; [eauto|congruence]. }
  split; cbn; try done.
  - apply fw_inv_faces; [done|done|]. intros f' Hf'. rewrite lookup_insert. by case_decide.
  - intros id' f'. rewrite !lookup_insert. repeat case_decide; subst; cbn.
    + done.
    + split; [intros [= ->]; done|]. intros E%A2. congruence.
    + split; [|intros [= ?]; done]. intros E%A2. by rewrite Hf in E.
    + apply A2.
  - intros id'. rewrite lookup_insert. case_decide; [subst; lia|]. intros ?%A3. lia.
  - lia.
  - intros f'. rewrite !lookup_insert. case_decide; [cbn; by rewrite Hx|apply A5].
  - intros f'. rewrite !lookup_insert. by case_decide; [split; eauto|].
  - intros f' t'. rewrite lookup_insert. case_decide as E; [|apply A7]. intros [= <-] _. left. split; [done|].
    subst. intros [[? ?] _]%A8. congruence.
  - intros f' [Hs ?]%A8. split; [|done]. rewrite lookup_insert. by case_decide.
Qed.

(** A face that was just made and gets the identifier [id]. *)
Lemma addImpl_ok f scope linkType t id last n :
  node_inv n → begun (nd_fw n) → faces n !! f = None → table n !! id = None →
  0 < id ≤ last → ft_lastFaceId (nd_table n) ≤ last < 2 ^ 64 → isOpen t →
  wp (addImpl f id) (fun _ n' => node_inv n' ∧ FaceTable_get (nd_table n') id = Some f)
    (mkNodeState (set_fw_faces (<[f := mkFace INVALID_FACEID scope linkType 0 0]> (faces n)) (nd_fw n))
       (mkFaceTable (table n) last) (<[f := t]> (nd_transports n)) (nd_onClosed n) (nd_posted n)).
Proof.
  intros Hi Hb Hf Hid Hids Hlast Ho. unfold addImpl. apply wp_bind, wp_zoom. unfold setFace, getFace.
  apply wp_bind, wp_bind, wp_get. eapply wp_deref; [cbn; apply lookup_insert_eq|]. apply wp_modify.
  apply wp_bind, wp_get. apply wp_bind, wp_assert; [by apply bool_decide_true|]. apply wp_bind, wp_put, wp_modify.
  cbn. rewrite insert_insert_eq, (nv_closed _ _ Hi), Hf. cbn. split; [|apply lookup_insert_eq].
  exact (added_inv f (mkFace id scope linkType 0 0) t id last n Hi Hb Hf eq_refl Hid Hids Hlast Ho).
Qed.
Lemma fresh_face (n : NodeState Q) : faces n !! (fresh (dom (faces n))) = None.
Proof. apply not_elem_of_dom, is_fresh. Qed.

Lemma add_ok scope linkType kind persistency n :
  node_inv n → begun (nd_fw n) → ft_lastFaceId (nd_table n) + 1 < 2 ^ 64 →
  wp (f ← makeFace scope linkType kind persistency; FaceTable_add f) (fun _ n' => node_inv n') n.
Proof.
  intros Hi Hb Hlast. pose proof (nv_last _ _ Hi) as Hl. unfold FACEID_RESERVED_MAX in *.
  assert (u64 (ft_lastFaceId (nd_table n) + 1) = ft_lastFaceId (nd_table n) + 1) as Eu.
  { unfold u64. apply Z.mod_small. lia. }
  unfold makeFace. apply wp_bind, wp_bind, wp_get. set (f := fresh _).
  apply wp_bind, wp_zoom, wp_modify, wp_bind, wp_modify, wp_ret.
  unfold FaceTable_add, getFace. apply wp_bind, wp_zoom, wp_bind, wp_get.
  eapply wp_deref; [cbn; apply lookup_insert_eq|]. apply wp_bind, wp_get. cbn.
  rewrite Eu. apply wp_bind, wp_put, wp_bind, wp_assert; [apply bool_decide_true; unfold FACEID_RESERVED_MAX; lia|].
  eapply wp_mono; [apply (addImpl_ok f scope linkType _ _ _ n)|]; try done.
  - apply fresh_face.
  - destruct (table n !! _) eqn:E; [|done]. pose proof (nv_ids _ _ Hi _ ltac:(eauto)). lia.
  - lia.
  - lia.
  - by left.
  - by intros [] n' [? _].
Qed.
Lemma addReserved_ok id scope linkType kind persistency n :
  node_inv n → begun (nd_fw n) → 0 < id ≤ FACEID_RESERVED_MAX → table n !! id = None →
  wp (f ← makeFace scope linkType kind persistency; addReserved f id) (fun _ n' => node_inv n') n.
Proof.
  destruct n as [fw [tb last] trs oc po]. set (n := mkNodeState fw (mkFaceTable tb last) trs oc po).
  intros Hi Hb Hid Hnone. pose proof (nv_last _ _ Hi) as Hl.
  unfold makeFace. apply wp_bind, wp_bind, wp_get. set (f := fresh _).
  apply wp_bind, wp_zoom, wp_modify, wp_bind, wp_modify, wp_ret.
  unfold addReserved, getFace. apply wp_bind, wp_zoom, wp_bind, wp_get.
  eapply wp_deref; [cbn; apply lookup_insert_eq|]. cbn.
  apply wp_bind, wp_assert; [done|]. apply wp_bind, wp_assert; [apply bool_decide_true; lia|].
  eapply wp_mono; [apply (addImpl_ok f scope linkType (mkTransportObj kind TransportState_UP persistency) id
    last n)|]; try done.
  - apply fresh_face.
  - cbn in *; lia.
  - cbn in *; lia.
  - by left.
  - by intros [] n' [? _].
Qed.
End node.

(** ** Runs *)

Section runs.
Context {Env : Environment} {Q : Type} {Pol : CsPolicy Q} {Laws : CsPolicyLaws Q}.
Context (strategy : StrategyRef → Strategy (Q := Q)).
Context `{!EnvironmentLaws Env} {SL : ∀ st, StrategyLaws (strategy st)}.
Context (Hst : ∀ st, strategyKeepsFaces (strategy st)).
Abbreviation faces n := (fw_faces (nd_fw n)).
Abbreviation table n := (ft_faces (nd_table n)).
Abbreviation node_inv := (node_inv_but None).

(** What arrives: packets on faces that exist, errors of transports that exist,
    handlers that were posted; identifiers do not run out, and a reserved one is
    given once. *)
Definition nodeEvent_ok (n : NodeState Q) (e : NodeEvent) : Prop :=
  match e with
  | NdForward e => event_ok (nd_fw (beginEvent n)) e
  | NdAdd _ _ _ _ => ft_lastFaceId (nd_table n) + 1 < 2 ^ 64
  | NdAddReserved id _ _ _ _ => 0 < id ≤ FACEID_RESERVED_MAX ∧ table n !! id = None
  | NdClose f | NdSocketError _ f | NdNetif _ f => is_Some (nd_transports n !! f)
  | NdDeferredClose f => f ∈ nd_posted n
  end.
Fixpoint nodeEvents_ok (es : list NodeEvent) (n : NodeState Q) : Prop :=
  match es with
  | [] => True
  | e :: es' => nodeEvent_ok n e ∧ ∀ n', nodeHandle strategy e n = Ok (tt, n') → nodeEvents_ok es' n'
  end.

Lemma begin_ok n :
  node_inv n → node_inv (beginEvent n) ∧ begun (nd_fw (beginEvent n)).
Proof.
  intros Hi. destruct (begin_fw (nd_fw n) (nv_fw _ _ Hi)) as (H1 & H2 & _). split; [|exact H2].
  destruct Hi as [A1 A2 A3 A4 A5 A6 A7 A8 A9]. by split.
Qed.

(** An event of the forwarder. *)
Lemma forwardEvent_ok e n :
  node_inv n → event_ok (nd_fw n) e → wp (onFw (handle strategy e)) (fun _ n' => node_inv n') n.
Proof using All.
  intros Hi He. destruct (wp_elim _ _ _ (handle_ok strategy e (nd_fw n) (nv_fw _ _ Hi) He)) as ([] & s' & E & Hs').
  pose proof (handle_faces strategy Hst _ e _ _ _ eq_refl E) as Hf.
  assert (∀ f, face_id <$> fw_faces s' !! f = face_id <$> faces n !! f) as Hid.
  { intros f. pose proof (f_equal (lookup f) Hf) as Hv. unfold facesOf in Hv. rewrite !lookup_fmap in Hv.
    destruct (fw_faces s' !! f), (faces n !! f); try done. injection Hv as Ei _ _. cbn. by rewrite Ei. }
  assert (∀ f, is_Some (fw_faces s' !! f) ↔ is_Some (faces n !! f)) as Hdom.
  { intros f. by rewrite <-(fmap_is_Some face_id), Hid, fmap_is_Some. }
  apply wp_zoom. eapply wp_run; [exact E|]. destruct Hi as [A1 A2 A3 A4 A5 A6 A7 A8 A9]. split; cbn; try done.
  - intros id f. by rewrite Hid.
  - intros f. rewrite A5. specialize (Hid f).
    destruct (fw_faces s' !! f), (faces n !! f); try done. cbn in *. by injection Hid as ->.
  - intros f. by rewrite Hdom.
Qed.

Lemma nodeHandle_ok e n :
  node_inv n → nodeEvent_ok n e → wp (nodeHandle strategy e) (fun _ n' => node_inv n') n.
Proof using All.
  intros Hi He. destruct (begin_ok n Hi) as [Hb1 Hb2]. unfold nodeHandle. apply wp_bind, wp_modify.
  destruct e as [e|scope lt kind per|id scope lt kind per|f|eof f|running f|f]; cbn [nodeEvent_ok] in He.
  - by apply forwardEvent_ok.
  - by apply add_ok.
  - destruct He. by apply addReserved_ok.
  - destruct He as [t Ht]. unfold close. apply wp_bind. eapply wp_transportOf; [exact Ht|].
    destruct (canClose t) eqn:Ec; [|by apply wp_ret]. apply canClose_spec in Ec. eapply close_ok; eauto.
  - destruct He as [t Ht]. unfold onSocketError. apply wp_bind. eapply wp_transportOf; [exact Ht|].
    destruct (stateOnError eof t) as [new|] eqn:Es; [|by apply wp_ret].
    destruct (stateOnError_spec eof t new) as [Ho Hnew]; [|done|by eapply close_ok].
    destruct (nv_state _ _ Hi f t Ht) as [[? _]|[? _]]; [done|by left|by right].
  - destruct He as [t Ht]. by eapply netif_ok.
  - by apply deferredClose_ok.
Qed.
Lemma nodeHandleAll_ok es : ∀ n,
  node_inv n → nodeEvents_ok es n → ∃ n', nodeHandleAll strategy es n = Ok (tt, n') ∧ node_inv n'.
Proof using All.
  induction es as [|e es IH]; intros n Hi Hes; cbn [nodeHandleAll]; [by exists n|]. destruct Hes as [He Hes].
  destruct (wp_elim _ _ _ (nodeHandle_ok e n Hi He)) as ([] & n1 & E & Hi1).
  destruct (IH n1 Hi1 (Hes n1 E)) as (n' & E' & Hi'). exists n'. split; [|done]. munfold. by rewrite E.
Qed.

Lemma Node_new_ok st regions hop uns lim : ∃ n, Node_new st regions hop uns lim = Ok n ∧ node_inv n.
Proof.
  destruct (Forwarder_new_ok st ∅ regions hop uns lim) as (s & E & Hi & Hf & _). unfold Node_new. rewrite E.
  eexists. split; [done|]. split; cbn; try done.
  - intros id f. rewrite Hf. done.
  - by intros id [].
  - intros f. by rewrite Hf.
  - intros f. rewrite Hf. split; by intros [].
  - by intros f ?%not_elem_of_nil.
  - constructor.
Qed.

(** The condition on events, decided. *)
Definition nodeEvent_okb (n : NodeState Q) (e : NodeEvent) : bool :=
  match e with
  | NdForward e => event_okb (nd_fw (beginEvent n)) e
  | NdAdd _ _ _ _ => bool_decide (ft_lastFaceId (nd_table n) + 1 < 2 ^ 64)
  | NdAddReserved id _ _ _ _ =>
      bool_decide (0 < id) && bool_decide (id ≤ FACEID_RESERVED_MAX) && bool_decide (table n !! id = None)
  | NdClose f | NdSocketError _ f | NdNetif _ f => bool_decide (is_Some (nd_transports n !! f))
  | NdDeferredClose f => bool_decide (f ∈ nd_posted n)
  end.
Fixpoint nodeEvents_okb (es : list NodeEvent) (n : NodeState Q) : bool :=
  match es with
  | [] => true
  | e :: es' => nodeEvent_okb n e &&
      match nodeHandle strategy e n with Ok (_, n') => nodeEvents_okb es' n' | Fault _ => true end
  end.
Lemma nodeEvents_okb_sound es : ∀ n, nodeEvents_okb es n = true → nodeEvents_ok es n.
Proof.
  induction es as [|e es IH]; intros n; cbn [nodeEvents_okb nodeEvents_ok]; [done|].
  intros [He Hes]%andb_true_iff. split.
  - destruct e; cbn in He |- *; rewrite ?andb_true_iff, ?bool_decide_eq_true in He; [|naive_solver..].
    by apply event_okb_sound.
  - intros n' E. rewrite E in Hes. by apply IH.
Qed.

(** A face of the table: what a [Face] that may be used is. *)
Definition inTable (n : NodeState Q) (f : FaceRef) : Prop := ∃ id, FaceTable_get (nd_table n) id = Some f.
Lemma inTable_live ex n f : node_inv_but ex n → inTable n f ↔ is_Some (faces n !! f).
Proof.
  intros Hi. unfold inTable, FaceTable_get. setoid_rewrite (nv_table _ _ Hi).
  destruct (faces n !! f) as [x|]; cbn; naive_solver.
Qed.

(** C7. Faces may come and go at any time, and nothing is left that refers to one
    that is gone: from a forwarder without faces, any sequence of new faces,
    closings, socket errors, interface changes and events of the forwarder, each
    meeting [nodeEvent_ok], runs to completion: no transport makes an invalid change
    of state, no face is removed twice, and the assertion of the cleanup holds.
    Afterwards every next hop in the FIB and every in-record and out-record in the
    PIT names a face of the face table, and looking a face up by its identifier
    gives the forwarder what the table holds.  Conditions: fewer than 2^64 faces; a
    reserved identifier is free; closings and errors name a transport that exists;
    and the forwarder's events meet [event_ok]: existing faces and PIT entries,
    Interests that do not make the reflexive test throw, with PIT tokens of at least
    four bytes and a free token if they need one, Data whose FreshnessPeriod is not
    negative. *)
Theorem faces_come_and_go st regions hop uns lim es :
  ∃ n, Node_new st regions hop uns lim = Ok n ∧
    (nodeEvents_ok es n → ∃ n', nodeHandleAll strategy es n = Ok (tt, n') ∧ fw_inv (nd_fw n') ∧
      (∀ id, faceTable_get (faces n') id = FaceTable_get (nd_table n') id) ∧
      (∀ prefix fe nh, fibSlot (fw_store (nd_fw n')) prefix = Some fe → nh ∈ fe_nextHops fe →
         inTable n' (nh_face nh)) ∧
      (∀ p pe, st_pits (fw_store (nd_fw n')) !! p = Some pe →
         (∀ rec, rec ∈ pe_inRecords pe → inTable n' (in_face rec)) ∧
         (∀ rec, rec ∈ pe_outRecords pe → inTable n' (out_face rec)))).
Proof using All.
  destruct (Node_new_ok st regions hop uns lim) as (n & E & Hi). exists n. split; [done|]. intros Hes.
  destruct (nodeHandleAll_ok es n Hi Hes) as (n' & Hrun & Hi'). pose proof (nv_fw _ _ Hi') as Hfw.
  exists n'. split_and!; [done|done|by intros; eapply faceTable_get_table| |].
  - intros prefix fe nh Hs Hnh. apply (inTable_live None); [done|]. by apply (fi_hops _ Hfw prefix fe Hs).
  - intros p pe Hp. destruct (fi_entry _ Hfw p pe Hp) as [H1 H2 _ _].
    split; intros rec Hrec; apply (inTable_live None); auto.
Qed.

(** C8. Removing a face removes exactly that face: [FaceTable::remove] returns, the
    table no longer has the face and keeps the others, and in the FIB and the PIT
    exactly the next hops and the records of that face are gone; no
    name-tree entry is left empty. *)
Theorem face_removed id f n :
  node_inv n → begun (nd_fw n) → FaceTable_get (nd_table n) id = Some f → f ∉ nd_posted n →
  ∃ n', FaceTable_remove id n = Ok (tt, n') ∧ node_inv n' ∧
    (∀ id', FaceTable_get (nd_table n') id' = if bool_decide (id' = id) then None else FaceTable_get (nd_table n) id') ∧
    (∀ prefix nh,
       (∃ fe, fibSlot (fw_store (nd_fw n')) prefix = Some fe ∧ nh ∈ fe_nextHops fe) ↔
       (∃ fe, fibSlot (fw_store (nd_fw n)) prefix = Some fe ∧ nh ∈ fe_nextHops fe) ∧ nh_face nh ≠ f) ∧
    (∀ p pe, st_pits (fw_store (nd_fw n)) !! p = Some pe →
       ∃ pe', st_pits (fw_store (nd_fw n')) !! p = Some pe' ∧ pe_interest pe' = pe_interest pe ∧
         (∀ rec, rec ∈ pe_inRecords pe' ↔ rec ∈ pe_inRecords pe ∧ in_face rec ≠ f) ∧
         (∀ rec, rec ∈ pe_outRecords pe' ↔ rec ∈ pe_outRecords pe ∧ out_face rec ≠ f)) ∧
    noEmpty (st_nameTree (fw_store (nd_fw n'))).
Proof.
  intros Hi Hb Hid Hpost. assert (node_inv_but (Some f) n) as Hi'.
  { destruct Hi as [A1 A2 A3 A4 A5 A6 A7 A8 A9]. split; try done; [by auto|]. intros f' Hf'. split; [by apply A8|].
    by intros [= ->]. }
  destruct (wp_elim _ _ _ (remove_ok f id n Hi' Hb Hid)) as ([] & n' & Hrun & Hn' & _ & Ht & Hc).
  exists n'. split_and!; [done|done| | | |apply (nv_fw _ _ Hn')].
  - intros id'. rewrite Ht. unfold FaceTable_get. cbn. rewrite lookup_delete.
    case_decide; [rewrite bool_decide_true|rewrite bool_decide_false]; congruence.
  - intros prefix nh. rewrite (cl_slot _ _ _ _ _ Hc). apply withoutHop_bind.
    intros fe Hfe. by apply (fb_entry _ _ (fi_fib _ (nv_fw _ _ Hi)) prefix).
  - intros p pe Hp. exists (withoutRecords f pe). destruct (proj2 Hb p pe Hp) as [m Hm].
    assert (pe_inv pe) as Hpe by apply (pi_entry _ _ (fi_pit _ (nv_fw _ _ Hi)) _ _ Hp).
    split_and!; [|done|by intros; apply (elem_of_deleteIn f pe)|].
    + rewrite (cl_pits _ _ _ _ _ Hc), Hp. cbn. unfold cleanedAt. by rewrite Hm.
    + intros rec. apply (elem_of_deleteOut f (deleteInRecord f pe)). by apply pe_inv_deleteIn.
Qed.
End runs.
