(* ===== verification/Loops.v ===== *)
(** * Loop detection

    A looping Interest is recognised by the Dead Nonce List after its PIT entry
    is gone, and by the records of the PIT entry while it is there.  In both cases
    it is not forwarded and no PIT entry changes. *)

From S2P Require Import Prelude Tlv Component Name Packet PitAssist Hashtable NameTree Face FibEntry.
From S2P Require Import PitEntry Store Pit Fib DeadNonceList Cs Algorithm Forwarder ForwarderInv BestRoute.
From S2P Require Import ForwarderSafety ForwarderProps.
Local Open Scope Z_scope.

Section loops.
Context `{Env : Environment} `{!EnvironmentLaws Env}.
Context {Q : Type} {Pol : CsPolicy Q} {Laws : CsPolicyLaws Q}.
Context (strategy : StrategyRef → Strategy (Q := Q)) {SL : ∀ st, StrategyLaws (strategy st)}.
Abbreviation FW := (M (Forwarder Q)).
Abbreviation pits s := (st_pits (fw_store s)).
Abbreviation interests s := (st_interests (fw_store s)).

(** What the loop pipeline sends: a Nack on a point-to-point face. *)
Definition loopOutput (face : Face) (f : FaceRef) (i : Interest) : list Output :=
  if bool_decide (face_linkType face = LINK_TYPE_POINT_TO_POINT)
  then [SendNack f (mkNack i Nack_DUPLICATE)] else [].
(** The Interest is dropped: the PIT is as before and nothing else leaves. *)
Definition dropsLoop (face : Face) (f : FaceRef) (i : Interest) (s s' : Forwarder Q) : Prop :=
  pits s' = pits s ∧ fw_output s' = fw_output s ++ loopOutput face f i.

Lemma onInterestLoop_drops r i f face s :
  interests s !! r = Some i → fw_faces s !! f = Some face →
  wp (onInterestLoop r f) (fun _ s' => dropsLoop face f i s s') s.
Proof.
  intros Hr Hf. unfold onInterestLoop, dropsLoop, loopOutput. apply wp_bind. eapply wp_getFace; [done|].
  case_bool_decide as E; [apply wp_ret; rewrite bool_decide_false by done; by rewrite app_nil_r|].
  rewrite bool_decide_true by (destruct (face_linkType face); naive_solver).
  apply wp_bind. eapply wp_interestOf; [done|]. apply wp_bind, wp_modify, wp_modify. done.
Qed.

Lemma dnl_loop packet f face nonce s :
  fw_faces s !! f = Some face → acceptable packet face nonce → inDnl s (i_name packet) nonce = true →
  wp (handle strategy (EvInterest packet f)) (fun _ s' => dropsLoop face f (arrived face packet) s s') s.
Proof.
  intros Hf Ha Hd. cbn [handle]. eapply wp_arrive; [done|done|]. unfold afterChecks. apply wp_bind, wp_get.
  change (inDnl (stored _ s)) with (inDnl s). rewrite Hd.
  eapply wp_mono; [eapply onInterestLoop_drops; [apply lookup_insert_eq|done]|].
  intros [] s' [H1 H2]. done.
Qed.

(** ** Expiry fills the Dead Nonce List *)

Lemma onDnl_Ok f d (s : Forwarder Q) : f (fw_dnl s) = Ok d → onDnl f s = Ok (tt, set_fw_dnl d s).
Proof. intros H. unfold onDnl. munfold. by rewrite H. Qed.
Lemma forM_dnl (l : list OutRecord) name : ∀ s d,
  dnl_run cityHash64WithSeed (map (fun rec => DnlAdd name (out_lastNonce rec)) l) (fw_dnl s) = Ok d →
  forM_ l (fun rec => onDnl (fun d => dnl_add cityHash64WithSeed d name (out_lastNonce rec))) s =
    Ok (tt, set_fw_dnl d (s : Forwarder Q)).
Proof.
  induction l as [|rec l IH]; intros s d; cbn [map dnl_run forM_].
  - intros [= <-]. by destruct s.
  - cbn [dnl_step]. unfold mbind, outcome_bind, M_bind.
    destruct (dnl_add cityHash64WithSeed (fw_dnl s) name (out_lastNonce rec)) as [d1|] eqn:E; [|done].
    intros H. rewrite (onDnl_Ok _ d1) by done. by rewrite (IH (set_fw_dnl d1 s) d H).
Qed.

Lemma insertDeadNonceList_adds p pe i rec s :
  fw_inv s → pits s !! p = Some pe → interests s !! pe_interest pe = Some i → pe_isSatisfied pe = false →
  rec ∈ pe_outRecords pe → (length (pe_outRecords pe) ≤ Z.to_nat MIN_CAPACITY)%nat →
  ∃ d, insertDeadNonceList p None s = Ok (tt, set_fw_dnl d s) ∧
    dnl_has cityHash64WithSeed d (i_name i) (out_lastNonce rec) = true.
Proof.
  intros Hi Hp Hr Hs (l1 & l2 & E)%list_elem_of_split Hl. rewrite E in Hl. rewrite length_app in Hl. simpl in Hl.
  destruct (dnl_run_added cityHash64WithSeed (map (fun rec => DnlAdd (i_name i) (out_lastNonce rec)) l1)
    (i_name i) (out_lastNonce rec) (map (fun rec => DnlAdd (i_name i) (out_lastNonce rec)) l2) (fw_dnl s))
    as (d & Hd & _ & Hin); [apply Hi|rewrite length_map; lia|].
  exists d. split; [|done].
  assert (wp (insertDeadNonceList p None) (fun _ s' => s' = set_fw_dnl d s) s) as Hw.
  { unfold insertDeadNonceList. apply wp_bind. eapply wp_pitEntryOf; [done|]. apply wp_bind.
    eapply wp_interestOf; [done|]. apply wp_bind, wp_get. rewrite Hs. apply wp_bind, wp_ret. cbn [negb].
    eapply wp_run; [apply forM_dnl|done]. rewrite E, map_app. exact Hd. }
  destruct (wp_elim _ _ _ Hw) as ([] & s' & H & ->). done.
Qed.

(** What the rest of the expiry leaves alone. *)
Lemma finalize_frame p pe i rec s :
  fw_inv s → pits s !! p = Some pe → interests s !! pe_interest pe = Some i → pe_isSatisfied pe = false →
  rec ∈ pe_outRecords pe → (length (pe_outRecords pe) ≤ Z.to_nat MIN_CAPACITY)%nat →
  is_Some (pe_nameTreeEntry pe) →
  wp (onInterestFinalize p) (fun _ s' => fw_inv s' ∧ inDnl s' (i_name i) (out_lastNonce rec) = true ∧
    fw_faces s' = fw_faces s ∧ fw_output s' = fw_output s) s.
Proof.
  intros Hi Hp Hr Hs Hrec Hl [n Hn].
  assert (entryOf s p i) as He. { exists n. split; [by exists pe|]. unfold pitInterest. by rewrite Hp. }
  destruct (insertDeadNonceList_adds p pe i rec s) as (d & Hd & Hin); try done.
  destruct (wp_elim _ _ _ (onInterestFinalize_ok p i s Hi He)) as ([] & s' & H & Hi').
  eapply wp_run; [exact H|]. split; [done|].
  set (V := fun s : Forwarder Q => (fw_dnl s, fw_faces s, fw_output s)).
  assert (Outside V) as HV by by split. revert H. unfold onInterestFinalize.
  unfold mbind at 1, M_bind at 1. rewrite Hd. intros H.
  assert (V s' = V (set_fw_dnl d s)) as E; [|unfold V in E; injection E as E1 E2 E3; unfold inDnl; by rewrite E1].
  eapply frame_bind; [apply frame_onStore, _| |exact H]. intros x.
  apply frame_bind; [apply frame_count, _|]. intros _.
  apply frame_bind; [apply frame_onStore, _|]. intros _. apply frame_onStore, _.
Qed.

(** C20. Loops are detected after expiry, for as long as the Dead Nonce List holds the
    Nonce.  When the timer of an unsatisfied PIT entry with at most 1024
    out-records fires, the handler returns and the list holds the Nonce of each
    out-record.  After any further events, an Interest of that name that comes back on a live face
    with such a Nonce, while the list has not evicted it, is dropped (if its hop limit and scope let it into
    the pipeline at all): no PIT entry changes and nothing leaves but a Duplicate Nack on a point-to-point face. *)
Theorem expired_nonce_is_loop s p pe i rec deadline :
  fw_inv s → pits s !! p = Some pe → interests s !! pe_interest pe = Some i →
  pe_expiryTimer pe = Some deadline → deadline ≤ fw_now s → pe_isSatisfied pe = false →
  rec ∈ pe_outRecords pe → (length (pe_outRecords pe) ≤ Z.to_nat MIN_CAPACITY)%nat →
  ∃ s1, handle strategy (EvTimer p) s = Ok (tt, s1) ∧ fw_inv s1 ∧ fw_output s1 = fw_output s ∧
    inDnl s1 (i_name i) (out_lastNonce rec) = true ∧
    ∀ es s2 packet f face,
      handleAll strategy es s1 = Ok (tt, s2) → inDnl s2 (i_name i) (out_lastNonce rec) = true →
      i_name packet = i_name i → fw_faces s2 !! f = Some face → acceptable packet face (out_lastNonce rec) →
      ∃ s3, handle strategy (EvInterest packet f) s2 = Ok (tt, s3) ∧
        dropsLoop face f (arrived face packet) s2 s3.
Proof using Laws.
  intros Hi Hp Hr Ht Hd Hs Hrec Hl.
  assert (wp (handle strategy (EvTimer p)) (fun _ s' => fw_inv s' ∧
    inDnl s' (i_name i) (out_lastNonce rec) = true ∧ fw_faces s' = fw_faces s ∧ fw_output s' = fw_output s) s) as Hw.
  { cbn [handle]. unfold onTimer. apply wp_bind. eapply wp_pitEntryOf; [done|]. apply wp_bind, wp_gets.
    rewrite Ht, bool_decide_true by done. eapply finalize_frame; try done.
    apply (ef_timer _ _ (fi_entry s Hi _ _ Hp)). eauto. }
  destruct (wp_elim _ _ _ Hw) as ([] & s1 & E1 & Hi1 & Hin & _ & Ho1). exists s1. split_and!; [done..|].
  intros es s2 packet f face _ Hin2 En Hf Ha. rewrite <-En in Hin2.
  destruct (wp_elim _ _ _ (dnl_loop packet f face _ s2 Hf Ha Hin2)) as ([] & s3 & E3 & Hdrop). by exists s3.
Qed.

(** ** Duplicate Nonces in the PIT *)

(** When the records of an entry show a loop. *)
Lemma isDuplicateInPit_spec face pe nonce f :
  isDuplicateInPit face (findDuplicateNonce pe nonce f) = true ↔
  (inDup pe nonce false f = true ∨ outDup pe nonce true f = true ∨ outDup pe nonce false f = true ∨
   inDup pe nonce true f = true) ∧
  (face_linkType face = LINK_TYPE_POINT_TO_POINT → inDup pe nonce true f = false).
Proof.
  unfold isDuplicateInPit. rewrite findDuplicateNonce_flags.
  destruct (inDup pe nonce true f), (inDup pe nonce false f), (outDup pe nonce true f), (outDup pe nonce false f),
    (face_linkType face); vm_compute; split; try done; try (split; [tauto|done]);
    (intros [H1 H2]; naive_solver).
Qed.

(** Loops are detected while the Interest is pending: an Interest whose
    Nonce is in a record of its PIT entry (on a point-to-point face: and not in the in-record of that face) is dropped; the entry keeps its
    records and its timer, and nothing leaves but a Duplicate Nack on a point-to-point face. *)
Theorem duplicate_nonce_in_pit_is_loop s packet f face nonce p pe j :
  fw_inv s → interest_ok s packet → fw_faces s !! f = Some face → acceptable packet face nonce →
  inDnl s (i_name packet) nonce = false → isReflexiveInterestFromProducer packet = Ok false →
  pits s !! p = Some pe → is_Some (pe_nameTreeEntry pe) → interests s !! pe_interest pe = Some j →
  matchesInterest j packet = true →
  (inDup pe nonce false f = true ∨ outDup pe nonce true f = true ∨ outDup pe nonce false f = true ∨
   inDup pe nonce true f = true) →
  (face_linkType face = LINK_TYPE_POINT_TO_POINT → inDup pe nonce true f = false) →
  ∃ s', handle strategy (EvInterest packet f) s = Ok (tt, s') ∧ fw_inv s' ∧
    dropsLoop face f (prepared (fw_regions s) face packet) s s'.
Proof using EnvironmentLaws0 Laws SL.
  intros Hi Hok Hf Ha Hdnl Hfp Hp Hn Hj Hm Hdup1 Hdup2.
  destruct (wp_elim _ _ _ (handle_ok strategy (EvInterest packet f) s Hi (conj (mk_is_Some _ _ Hf) Hok)))
    as ([] & s' & E & Hi'). exists s'. split_and!; [done|done|].
  set (i := prepared (fw_regions s) face packet). destruct (prepared_same (fw_regions s) face packet)
    as (Hk & Ht & Hnn & Hreg & _). fold i in Hk, Ht, Hnn, Hreg.
  assert (wp (handle strategy (EvInterest packet f)) (fun _ s' => dropsLoop face f i s s') s) as Hout.
  { cbn [handle]. eapply wp_front; [done|done|done|]. cbv zeta. fold i. set (r := fresh _).
    assert (interests (stored i s) !! r = Some i) as Hr by apply lookup_insert_eq.
    apply wp_bind. eapply (Pit_insert_existing r i p pe j (stored i s)); try done.
    { by apply stored_inv. }
    { apply prepared_storable, Hok. }
    { by apply (stored_fresh i s). }
    { rewrite matchesInterest_spec in *. unfold sameKey in *. naive_solver congruence. }
    intros b st' Hi2 Hrec Hin Hpits. apply wp_bind. eapply wp_deref; [done|]. apply wp_bind.
    eapply wp_lift; [by rewrite <-(sameKey_fromProducer packet i)|]. cbv beta iota.
    unfold processInterest. apply wp_bind. eapply wp_interestOf; [simpl; by rewrite Hin|].
    apply wp_bind. eapply wp_mono; [apply learnToken_ok; [done|unfold tokenReadable; rewrite Ht; apply Hok|]|].
    { destruct Hk as (Ek & _). unfold isReflexiveInterest. rewrite <-Ek. intros Hri.
      pose proof (io_draw _ _ Hok Hri) as Hdr. by rewrite (ac_nonce _ _ _ Ha) in Hdr. }
    intros [] s3 (_ & Hs3 & Hf3 & Ho3 & _). apply wp_bind. eapply wp_getFace; [by rewrite Hf3|].
    apply wp_bind. eapply wp_pitEntryOf; [rewrite Hs3; simpl; by rewrite Hpits|].
    rewrite (proj2 (isDuplicateInPit_spec face pe nonce f)) by done.
    eapply wp_mono; [eapply onInterestLoop_drops; [rewrite Hs3; simpl; by rewrite Hin|by rewrite Hf3]|].
    intros [] s4 [H1 H2]. split; [rewrite H1, Hs3; done|by rewrite H2, Ho3]. }
  destruct (wp_elim _ _ _ Hout) as (x & s2 & E2 & Hd). rewrite E in E2. by injection E2 as _ <-.
Qed.
End loops.
