(* ===== verification/DataPlane.v ===== *)
(** * Delivery of Data

    What leaves the forwarder when Data arrives for a pending Interest: the
    Data goes to each downstream that still waits, once, and the entry is
    satisfied. *)

From S2P Require Import Prelude Tlv Component Name Packet PitAssist Hashtable NameTree Face FibEntry.
From S2P Require Import PitEntry Store Pit Fib DeadNonceList Cs Algorithm Forwarder ForwarderInv BestRoute.
From S2P Require Import ForwarderSafety ForwarderProps.
Local Open Scope Z_scope.

Section delivery.
Context `{Env : Environment} `{!EnvironmentLaws Env}.
Context {Q : Type} {Pol : CsPolicy Q} {Laws : CsPolicyLaws Q}.
Abbreviation FW := (M (Forwarder Q)).
Abbreviation pits s := (st_pits (fw_store s)).
Abbreviation interests s := (st_interests (fw_store s)).

(** Whether a face takes the Data, and the Data with the PIT token of the
    downstream's Interest. *)
Definition takesData (face : Face) (d : Data) : bool :=
  negb (bool_decide (face_id face = INVALID_FACEID)) &&
  negb (bool_decide (face_scope face = FACE_SCOPE_NON_LOCAL) && isPrefixOf LOCALHOST (d_name d)).
Definition withToken (t : option PitToken) (d : Data) : Data :=
  match t with Some t => set_d_pitTokenTag (Some t) d | None => d end.
Definition downstreamToken (ints : gmap InterestRef Interest) (pe : PitEntry) (g : FaceRef) : option PitToken :=
  rec ← getInRecord pe g; i ← ints !! in_interest rec; i_pitTokenTag i.
Definition delivered (s : Forwarder Q) (pe : PitEntry) (d : Data) (g : FaceRef) : list Output :=
  match fw_faces s !! g with
  | Some face => if takesData face d
                 then [SendData g (withToken (downstreamToken (interests s) pe g) d)] else []
  | None => []
  end.
(** The downstreams that wait for the Data that came in on [f]. *)
Definition waiting (s : Forwarder Q) (pe : PitEntry) (face : Face) : list FaceRef :=
  faceSet (map in_face (List.filter (isPendingDownstream (fw_faces s) (fw_now s) face) (pe_inRecords pe))).
(** The entry after the delivery. *)
Definition satisfiedEntry (s : Forwarder Q) (pe : PitEntry) (d : Data) (f : FaceRef) (gs : list FaceRef) : PitEntry :=
  deleteOutRecord f (set_pe_satisfied (d_freshnessPeriod d)
    (foldl (fun e g => deleteInRecord g e) (set_pe_expiryTimer (Some (fw_now s + ms 0)) pe) gs)).

Lemma wp_changePitEntry_exact p pe g (R : unit → Forwarder Q → Prop) s :
  pits s !! p = Some pe →
  R tt (set_fw_store (set_st_pits (<[p := g pe]> (pits s)) (fw_store s)) s) → wp (changePitEntry p g) R s.
Proof. intros Hp HR. apply wp_zoom. eapply wp_run; [by apply setPitEntry_Ok|done]. Qed.

Lemma onOutgoingData_exact d g face s :
  fw_faces s !! g = Some face →
  wp (onOutgoingData d g) (fun _ s' => fw_store s' = fw_store s ∧ fw_faces s' = fw_faces s ∧
    fw_output s' = fw_output s ++ if takesData face d then [SendData g d] else []) (s : Forwarder Q).
Proof.
  intros Hg. unfold onOutgoingData, takesData. apply wp_bind. eapply wp_getFace; [done|].
  destruct (bool_decide (face_id face = INVALID_FACEID)); [apply wp_ret; by rewrite app_nil_r|].
  destruct (_ && _); [apply wp_ret; by rewrite app_nil_r|].
  apply wp_bind, wp_modify, wp_bind, wp_modify, wp_ret. done.
Qed.

Lemma takesData_token face t d : takesData face (withToken t d) = takesData face d.
Proof. by destruct t. Qed.

Lemma sendData_exact d g p pe mine face s :
  pits s !! p = Some pe → interests s !! pe_interest pe = Some mine → matchesData mine d = true →
  (∀ rec, getInRecord pe g = Some rec → is_Some (interests s !! in_interest rec)) →
  fw_faces s !! g = Some face →
  wp (sendData d g p) (fun _ s' => pits s' = <[p := deleteInRecord g pe]> (pits s) ∧
    interests s' = interests s ∧ fw_faces s' = fw_faces s ∧ fw_output s' = fw_output s ++ delivered s pe d g) s.
Proof.
  intros Hp Hm Hd Hrec Hf. unfold sendData. apply wp_bind. eapply wp_pitEntryOf; [done|]. apply wp_bind.
  eapply wp_interestOf; [done|]. apply wp_bind, wp_assert; [done|]. apply wp_bind.
  eapply wp_mono with (R := fun t s' => s' = s ∧ t = downstreamToken (interests s) pe g).
  { unfold downstreamToken. destruct (getInRecord pe g) as [rec|] eqn:Er; [|by apply wp_ret].
    destruct (Hrec _ eq_refl) as [j Hj]. apply wp_bind. eapply wp_interestOf; [done|]. apply wp_ret.
    simpl. by rewrite Hj. }
  intros t s' (-> & ->). apply wp_bind. eapply wp_changePitEntry_exact; [done|].
  change (match downstreamToken _ pe g with Some t => _ | None => d end)
    with (withToken (downstreamToken (interests s) pe g) d).
  eapply wp_mono; [by apply onOutgoingData_exact|]. intros b s' (H1 & H2 & H3).
  rewrite H1, H2, H3. split_and!; try done. unfold delivered. rewrite Hf, takesData_token.
  by destruct (takesData face d).
Qed.

(** The records of other faces. *)
Lemma getInRecord_delete e g g' : g' ≠ g → pe_inv e → getInRecord (deleteInRecord g e) g' = getInRecord e g'.
Proof.
  intros Hne He. apply option_eq. intros rec. assert (pe_inv (deleteInRecord g e)) by auto with pit.
  rewrite !getInRecord_spec, elem_of_deleteIn by done. naive_solver.
Qed.
Lemma delivered_delete s s' e d g g' :
  g' ≠ g → pe_inv e → fw_faces s' = fw_faces s → interests s' = interests s →
  delivered s' (deleteInRecord g e) d g' = delivered s e d g'.
Proof.
  intros Hne He Hf Hi. unfold delivered, downstreamToken. by rewrite getInRecord_delete, Hf, Hi.
Qed.

(** What the loop over the downstreams needs of the entry. *)
Record deliverable (s : Forwarder Q) (p : PitRef) (e : PitEntry) (d : Data) (gs : list FaceRef) : Prop := {
  dl_pit : pits s !! p = Some e;
  dl_inv : pe_inv e;
  dl_mine : ∃ mine, interests s !! pe_interest e = Some mine ∧ matchesData mine d = true;
  dl_records : ∀ rec, rec ∈ pe_inRecords e → is_Some (interests s !! in_interest rec);
  dl_faces : ∀ g, g ∈ gs → is_Some (fw_faces s !! g)
}.

Lemma sendData_loop d p gs : ∀ e s,
  NoDup gs → deliverable s p e d gs →
  wp (forM_ gs (fun g => sendData d g p;; mret tt))
    (fun _ s' => pits s' !! p = Some (foldl (fun e g => deleteInRecord g e) e gs) ∧
      fw_output s' = fw_output s ++ concat (map (delivered s e d) gs)) s.
Proof.
  induction gs as [|g gs IH]; intros e s Hnd [Hp He (mine & Hm & Hd) Hrec Hf]; cbn [forM_ foldl map concat].
  { apply wp_ret. by rewrite app_nil_r. }
  apply NoDup_cons in Hnd as [Hg Hnd]. destruct (Hf g) as [face Hface]; [by left|].
  apply wp_bind, wp_bind. eapply wp_mono; [eapply sendData_exact; [done|done|done| |done]|].
  { intros rec [? _]%getInRecord_spec; [auto|done]. }
  intros b s1 (Hp1 & Hi1 & Hf1 & Ho1). apply wp_ret.
  eapply wp_mono; [apply (IH (deleteInRecord g e)); [done|split]|].
  - rewrite Hp1. apply lookup_insert_eq.
  - auto with pit.
  - exists mine. by rewrite Hi1.
  - rewrite Hi1. intros rec [? _]%elem_of_deleteIn; [auto|done].
  - rewrite Hf1. intros x Hx. apply Hf. by right.
  - intros [] s2 [H1 H2]. split; [done|]. rewrite H2, Ho1, <-app_assoc. do 2 f_equal.
    f_equal. apply map_ext_in. intros x Hx%list_elem_of_In. apply delivered_delete; [|done..]. by intros ->.
Qed.

Context (rs : StrategyRef → RetxSuppressionExponential).
Abbreviation bestRoute := (fun ref : StrategyRef => BestRouteStrategy (rs ref)).

Lemma sendDataToAll_exact d p pe f face s :
  fw_inv s → pits s !! p = Some pe → satisfiable d s p → fw_faces s !! f = Some face →
  wp (sendDataToAll d p f) (fun _ s' =>
    pits s' !! p = Some (foldl (fun e g => deleteInRecord g e) pe (waiting s pe face)) ∧
    fw_output s' = fw_output s ++ concat (map (delivered s pe d) (waiting s pe face))) s.
Proof.
  intros Hi Hp (i & (n & _ & Hpi) & Hm) Hf. unfold sendDataToAll. apply wp_bind. eapply wp_pitEntryOf; [done|].
  apply wp_bind. eapply wp_getFace; [done|]. apply wp_bind, wp_get. cbv zeta. fold (waiting s pe face).
  pose proof (pi_entry _ _ (fi_pit s Hi) _ _ Hp) as [Hpe _ Hin].
  apply sendData_loop; [apply NoDup_faceSet|]. split; [done|done| |done|].
  - exists i. split; [|done]. unfold pitInterest in Hpi. by rewrite Hp in Hpi.
  - intros g. unfold waiting. rewrite elem_of_faceSet. intros (rec & -> & Hrec)%list_elem_of_fmap.
    apply list_elem_of_In, filter_In in Hrec as [Hrec%list_elem_of_In _].
    by apply (ef_in _ _ (fi_entry s Hi _ _ Hp)).
Qed.

(** What follows the strategy. *)
Lemma frame_onDnl {B} (view : Forwarder Q → B) g :
  (∀ d s, view (set_fw_dnl d s) = view s) → frame view (onDnl g).
Proof.
  intros Hv s a s'. unfold onDnl. munfold. destruct (g (fw_dnl s)); [|done]. intros [= _ <-]. apply Hv.
Qed.
Lemma frame_insertDeadNonceList {B} (view : Forwarder Q → B) p upstream :
  (∀ d s, view (set_fw_dnl d s) = view s) → frame view (insertDeadNonceList p upstream).
Proof.
  intros Hv. pose proof (frame_pitEntryOf view) as Hp. pose proof (frame_interestOf view) as Hr. pose proof (fun g => frame_onDnl view g Hv) as Hd. unfold insertDeadNonceList. frame_solve.
Qed.

Lemma markSatisfied_exact d f p e s :
  fw_inv s → satisfiable d s p → 0 ≤ d_freshnessPeriod d → pits s !! p = Some e →
  wp (changePitEntry p (set_pe_satisfied (d_freshnessPeriod d));; insertDeadNonceList p (Some f);;
      changePitEntry p (deleteOutRecord f)) (fun _ s' =>
    pits s' !! p = Some (deleteOutRecord f (set_pe_satisfied (d_freshnessPeriod d) e)) ∧
    fw_output s' = fw_output s) s.
Proof.
  intros Hi Hs Hd Hp. destruct Hs as (i & He & Hm). apply wp_bind. eapply wp_mono.
  { apply wp_conj; [by eapply satisfy_ok|]. eapply wp_changePitEntry_exact; [exact Hp|].
    instantiate (1 := fun _ s' => pits s' !! p = Some (set_pe_satisfied (d_freshnessPeriod d) e) ∧
      fw_output s' = fw_output s). split; [apply lookup_insert_eq|done]. }
  intros [] s1 [[Hi1 He1] [Hp1 Ho1]]. destruct (ext_entryOf _ _ _ _ He1 He) as (i1 & Hen1 & _).
  apply wp_bind. eapply wp_mono.
  { apply (wp_frame (fun s => (pits s !! p, fw_output s))); [|by eapply insertDeadNonceList_ok].
    by apply frame_insertDeadNonceList. }
  intros [] s2 [_ [= Hp2 Ho2]]. rewrite Hp1 in Hp2. eapply wp_changePitEntry_exact; [done|].
  split; [apply lookup_insert_eq|]. simpl. congruence.
Qed.

Lemma satisfyOne_exact d f face p pe s :
  fw_inv s → pits s !! p = Some pe → satisfiable d s p → 0 ≤ d_freshnessPeriod d →
  fw_faces s !! f = Some face →
  wp (satisfyOne bestRoute d f p) (fun _ s' =>
    pits s' !! p = Some (satisfiedEntry s pe d f (waiting s pe face)) ∧
    fw_output s' = fw_output s ++ concat (map (delivered s pe d) (waiting s pe face))) s.
Proof using EnvironmentLaws0.
  intros Hi Hp Hs Hd Hf. set (pe1 := set_pe_expiryTimer (Some (fw_now s + ms 0)) pe).
  unfold satisfyOne. apply wp_bind. eapply wp_mono.
  { destruct Hs as (i & He & Hm). apply wp_conj; [by eapply setExpiryTimer_ok|].
    apply (wp_frame (fun s => (interests s, fw_faces s, fw_output s, fw_now s))).
    - intros x a x'. unfold setExpiryTimer, changePitEntry, onStore, zoom, setPitEntry, getPitEntry, now. munfold.
      destruct (st_pits (fw_store x) !! p); simpl; [|done]. by intros [= _ <-].
    - unfold setExpiryTimer. apply wp_bind, wp_gets. eapply wp_changePitEntry_exact; [exact Hp|].
      instantiate (1 := fun _ s' => pits s' !! p = Some pe1). apply lookup_insert_eq. }
  intros [] s1 [[Hi1 He1] [Hp1 [= Hin1 Hf1 Ho1 Hn1]]].
  assert (satisfiable d s1 p) as Hs1 by by eapply satisfiable_ext.
  assert (waiting s1 pe1 face = waiting s pe face) as Hw by (unfold waiting; by rewrite Hf1, Hn1).
  assert (delivered s1 pe1 d = delivered s pe d) as Hdel.
  { unfold delivered, downstreamToken. by rewrite Hf1, Hin1. }
  destruct Hs1 as (i1 & Hen1 & Hm1). eapply (ask_strategy bestRoute); [done|exact Hen1|]. intros ref.
  apply wp_bind. cbn [afterReceiveData BestRouteStrategy]. unfold base_afterReceiveData, base_beforeSatisfyInterest.
  apply wp_bind, wp_ret. eapply wp_mono.
  { apply wp_conj; [eapply sendDataToAll_ok; [done|exact Hen1|done|rewrite Hf1; eauto]|].
    eapply sendDataToAll_exact; [done|exact Hp1|by exists i1|by rewrite Hf1]. }
  intros [] s2 [[Hi2 He2] [Hp2 Ho2]]. rewrite Hw in Hp2, Ho2. rewrite Hdel, Ho1 in Ho2.
  eapply wp_mono; [eapply markSatisfied_exact; [done|eapply satisfiable_ext; [exact He2|by exists i1]|done|exact Hp2]|].
  intros [] s3 [H1 H2]. split; [done|by rewrite H2].
Qed.

Lemma frame_onCs {B} (view : Forwarder Q → B) g :
  (∀ c s, view (set_fw_cs c s) = view s) → frame view (onCs g).
Proof.
  intros Hv s a s'. unfold onCs. munfold. destruct (g (fw_cs s)); [|done]. intros [= _ <-]. apply Hv.
Qed.

Lemma onIncomingData_one packet f face p pe s :
  let d := set_d_incomingFaceIdTag (Some (face_id face)) packet in
  fw_inv s → fw_faces s !! f = Some face → 0 ≤ d_freshnessPeriod packet →
  bool_decide (face_scope face = FACE_SCOPE_NON_LOCAL) && isPrefixOf LOCALHOST (d_name packet) = false →
  findAllDataMatches HashFunc (fw_store s) d = [p] → satisfiable d s p → pits s !! p = Some pe →
  wp (onIncomingData bestRoute packet f) (fun _ s' =>
    pits s' !! p = Some (satisfiedEntry s pe d f (waiting s pe face)) ∧
    fw_output s' = fw_output s ++ concat (map (delivered s pe d) (waiting s pe face))) s.
Proof using EnvironmentLaws0.
  intros d Hi Hf Hd Hsc Hm Hs Hp. set (V := fun s : Forwarder Q => (fw_store s, fw_faces s, fw_output s, fw_now s)).
  unfold onIncomingData. apply wp_bind. eapply wp_getFace; [done|]. cbv zeta. fold d. apply wp_bind.
  eapply wp_mono with (R := fun _ s' => keeps s s' ∧ V s' = V s).
  { apply (wp_frame V); [by apply frame_modify|]. apply wp_count; [done|]. intros s' ? ? _ _ _ _. by split. }
  intros [] s1 [[Hi1 He1] [= Hst1 Hf1 Ho1 Hn1]]. change (d_name d) with (d_name packet).
  rewrite Hsc. apply wp_bind, wp_get. rewrite Hst1, Hm.
  apply wp_bind. eapply wp_mono; [apply (wp_frame V); [by apply frame_onCs|by apply cs_insert_keeps]|].
  intros [] s2 [[[Hi2 He2] _] [= Hst2 Hf2 Ho2 Hn2]]. rewrite Hst1 in Hst2. rewrite Hf1 in Hf2.
  rewrite Ho1 in Ho2. rewrite Hn1 in Hn2.
  eapply wp_mono; [eapply satisfyOne_exact with (pe := pe) (face := face); [done|by rewrite Hst2| |done|by rewrite Hf2]|].
  { unfold satisfiable, entryOf. by rewrite Hst2. }
  intros [] s3. unfold waiting, delivered, downstreamToken, satisfiedEntry. rewrite Hst2, Hf2, Ho2, Hn2. done.
Qed.

(** C5. Delivery of Data, best-route strategy: Data that matches exactly one PIT
    entry is sent to every downstream whose in-record has not expired, except back
    to the face it came from (unless that is an ad hoc link), except closed faces
    and, under /localhost, non-local ones; once each, and nothing else leaves.  It
    carries the token that the Interest object of the in-record has when the Data
    comes: for an ordinary Interest the token the downstream put on it, for a
    reflexive Interest one that this node has written over it
    ([downstream_token_lost]); without a token there the Data keeps its own.  The
    PIT entry is satisfied, loses the in-records that were served and the out-record
    of the Data's face, and its timer is set to fire at once.  Conditions: the
    FreshnessPeriod of the Data is not negative, and the Data is not under
    /localhost from a non-local face. *)
Theorem data_reaches_downstreams s packet f face p pe :
  let d := set_d_incomingFaceIdTag (Some (face_id face)) packet in
  fw_inv s → fw_faces s !! f = Some face → 0 ≤ d_freshnessPeriod packet →
  bool_decide (face_scope face = FACE_SCOPE_NON_LOCAL) && isPrefixOf LOCALHOST (d_name packet) = false →
  findAllDataMatches HashFunc (fw_store s) d = [p] → pits s !! p = Some pe →
  ∃ s', handle bestRoute (EvData packet f) s = Ok (tt, s') ∧ fw_inv s' ∧
    fw_output s' = fw_output s ++ concat (map (delivered s pe d) (waiting s pe face)) ∧
    pits s' !! p = Some (satisfiedEntry s pe d f (waiting s pe face)).
Proof using EnvironmentLaws0.
  intros d Hi Hf Hd Hsc Hm Hp.
  assert (satisfiable d s p) as Hs.
  { assert (p ∈ findAllDataMatches HashFunc (fw_store s) d) as Hin by (rewrite Hm; by left).
    rewrite findAllDataMatches_elem in Hin by apply Hi. unfold entryMatchesData in Hin. destruct Hin as [[n Ha] Hmd].
    destruct (pitInterest (fw_store s) p) as [i|] eqn:Hpi; [|done]. exists i. split; [by exists n|done]. }
  destruct (wp_elim _ _ _ (handle_ok bestRoute (EvData packet f) s Hi (conj (mk_is_Some _ _ Hf) Hd)))
    as ([] & s' & E & Hi').
  destruct (wp_elim _ _ _ (onIncomingData_one packet f face p pe s Hi Hf Hd Hsc Hm Hs Hp)) as ([] & s2 & E2 & H1 & H2).
  cbn [handle] in *. rewrite E in E2. injection E2 as <-. by exists s'.
Qed.
End delivery.
