(* ===== verification/InterestPlane.v ===== *)
(** * Forwarding of a new Interest

    What leaves the forwarder when an Interest arrives that is neither pending
    nor cached: the Interest goes to eligible next hops of the longest matching FIB
    entry, the first with the best-route strategy and all with the multicast
    strategy, and a reflexive one carries this node's token. *)

From S2P Require Import Prelude Tlv Component Name Packet PitAssist Hashtable NameTree Face FibEntry.
From S2P Require Import PitEntry Store Pit Fib DeadNonceList Cs Algorithm Forwarder ForwarderInv BestRoute Strategies.
From S2P Require Import ForwarderSafety ForwarderProps.
Local Open Scope Z_scope.

Section forwarding.
Context `{Env : Environment} `{!EnvironmentLaws Env}.
Context {Q : Type} {Pol : CsPolicy Q} {Laws : CsPolicyLaws Q}.
Abbreviation FW := (M (Forwarder Q)).
Abbreviation pits s := (st_pits (fw_store s)).
Abbreviation interests s := (st_interests (fw_store s)).

(** ** The outgoing Interest pipeline *)

(** The token an Interest leaves with. *)
Definition leavesWith (a : pit_assist) (i i' : Interest) : Prop :=
  if isReflexiveInterest i
  then ∃ b, setPitToken (nameToToken a (i_name i)).1 = Ok b ∧ i_pitTokenTag i' = Some b
  else i_pitTokenTag i' = None.
Definition sentOn (g : FaceRef) (i : Interest) (s s' : Forwarder Q) : Prop :=
  ∃ i', fw_output s' = fw_output s ++ [SendInterest g i'] ∧ sameKey i i' ∧ leavesWith (fw_assist s) i i' ∧ quiet s s'.
Lemma quiet_assist (s s' : Forwarder Q) : quiet s s' → fw_assist s' = fw_assist s.
Proof. intros H. by destruct (q_tables _ _ H) as (_ & _ & ? & _). Qed.
(** The out-record of an entry for a face, and the records for the other faces. *)
Definition outTo (p : PitRef) (g : FaceRef) (s : Forwarder Q) : option OutRecord :=
  pits s !! p ≫= fun pe => getOutRecord pe g.
Definition othersKept (p : PitRef) (g : FaceRef) (s s' : Forwarder Q) : Prop :=
  ∀ g', g' ≠ g → outTo p g' s' = outTo p g' s.
Lemma othersKept_pits p g s s1 s' : pits s1 = pits s → othersKept p g s1 s' → othersKept p g s s'.
Proof. intros E H g' Hg. rewrite (H g' Hg). unfold outTo. by rewrite E. Qed.
(** The Interest leaves once on each of the faces and nothing else leaves. *)
Definition sentTo (fs : list FaceRef) (i : Interest) (s s' : Forwarder Q) : Prop :=
  ∃ l, fw_output s' = fw_output s ++ l ∧
    Forall2 (fun g o => ∃ i', o = SendInterest g i' ∧ sameKey i i' ∧ leavesWith (fw_assist s) i i') fs l ∧
    fw_assist s' = fw_assist s.
Lemma sentOn_to g i s s' : sentOn g i s s' → sentTo [g] i s s'.
Proof.
  intros (i' & Ho & Hk & Hl & Hq). eexists. split_and!; [exact Ho| |by apply quiet_assist]. repeat constructor. by exists i'.
Qed.
Lemma sentTo_same (s s1 s' : Forwarder Q) gs i i1 :
  sameKey i i1 → fw_output s1 = fw_output s → fw_assist s1 = fw_assist s → sentTo gs i1 s1 s' → sentTo gs i s s'.
Proof.
  intros Hk Ho Ha (l & E & Hl & Ha'). exists l. rewrite E, Ho. split_and!; [done| |congruence].
  eapply Forall2_impl; [exact Hl|]. intros g o (i' & -> & Hk' & Hw). exists i'. split_and!; [done| |].
  - unfold sameKey in *. naive_solver congruence.
  - unfold leavesWith, isReflexiveInterest in *. destruct Hk as (En & _). by rewrite En, <-Ha.
Qed.
Lemma sentTo_cons g gs i i1 s s1 s' :
  sentOn g i s s1 → sameKey i i1 → sentTo gs i1 s1 s' → sentTo (g :: gs) i s s'.
Proof.
  intros (i' & Ho & Hk & Hl & Ha%quiet_assist) Hk1 Hr. destruct (sentTo_same s1 s1 s' gs i i1 Hk1 eq_refl eq_refl Hr) as (l & Ho' & Hl' & Ha').
  exists (SendInterest g i' :: l). rewrite Ho', Ho, <-app_assoc. split_and!; [done| |congruence].
  constructor; [by exists i'|]. by rewrite <-Ha.
Qed.

Lemma frame_others p g g' r : g' ≠ g → frame (outTo p g') (addOutRecord p g r).
Proof.
  intros Hg. assert (∀ r h, frame (outTo p g') (changeInterest r h)) as Hci.
  { intros. apply (frame_inStore (fun st => st_pits st !! p ≫= fun pe => getOutRecord pe g')), frame_setInterest. done. }
  assert (∀ r, frame (outTo p g') (getNonce r)) as Hn.
  { intros r'. unfold getNonce. apply frame_bind; [apply frame_interestOf|]. intros i. destruct (i_nonce i); [apply frame_ret|].
    apply (frame_update (outTo p g') (fun s => set_fw_drawn (S (fw_drawn s)) s)); [done|].
    intros s. apply frame_bind; [apply Hci|]. intros. apply frame_ret. }
  pose proof (frame_interestOf (outTo p g')). pose proof (frame_pitEntryOf (outTo p g')).
  assert (∀ t n l, frame (outTo p g') (changePitEntry p (insertOrUpdateOutRecord t g n l))) as He.
  { intros. apply (frame_inStore (fun st => st_pits st !! p ≫= fun pe => getOutRecord pe g')), frame_setPitEntry.
    intros st pe Hp. cbn [st_pits set_st_pits]. rewrite lookup_insert_eq, Hp. cbn [mbind option_bind].
    unfold insertOrUpdateOutRecord. unfold getOutRecord at 2. destruct (List.find _ _); cbn [pe_outRecords set_pe_outRecords].
    - unfold getOutRecord. cbn [pe_outRecords set_pe_outRecords]. induction (pe_outRecords pe) as [|x l' IH]; [done|]. simpl.
      destruct (bool_decide (out_face x = g)) eqn:E; simpl; [|by rewrite IH].
      apply bool_decide_eq_true in E. rewrite E. by rewrite bool_decide_false.
    - unfold getOutRecord. simpl. by rewrite bool_decide_false. }
  unfold addOutRecord, now. frame_solve.
Qed.
Lemma recordAndSend_output p g r i s :
  fw_inv s → recordable s p r → interests s !! r = Some i → is_Some (fw_faces s !! g) →
  wp (addOutRecord p g r;; sendOnFace g r;; mret true) (fun _ s' =>
    quiet s s' ∧ othersKept p g s s' ∧ ∃ n, fw_output s' = fw_output s ++ [SendInterest g (set_i_nonce n i)]) s.
Proof.
  intros Hi Hrec Hr Hg. apply wp_bind.
  destruct (wp_elim _ _ _ (addOutRecord_ok p g r s Hi Hrec Hg)) as ([] & s1 & E & Hi1 & Hq1 & Hn).
  eapply wp_run; [exact E|]. pose proof (frame_addOutRecord fw_output p g r _ _ _ E) as Ho1.
  destruct (Hn _ Hr) as [n Hr1]. apply wp_bind. unfold sendOnFace.
  apply wp_bind. eapply wp_interestOf; [done|]. apply wp_bind, wp_modify, wp_modify, wp_ret. split_and!.
  - trans s1; [done|]. split; try done; [by apply ext_eq|]. intros r' i' Hr'. exists i'. split_and!; [done|apply sameCore_refl|done].
  - intros g' Hg'. etransitivity; [|exact (frame_others p g g' r Hg' _ _ _ E)]. done.
  - exists n. simpl. by rewrite Ho1.
Qed.

Lemma onOutgoingInterest_output r i g p face s :
  fw_inv s → interests s !! r = Some i → isReflexiveInterestFromProducer i = Ok false → recordable s p r →
  fw_faces s !! g = Some face → i_pitTokenTag i = None →
  (i_hopLimit i = Some 0 → face_scope face = FACE_SCOPE_LOCAL) →
  wp (onOutgoingInterest r g p) (fun _ s' => sentOn g i s s' ∧ othersKept p g s s') s.
Proof.
  intros Hi Hr Hfp Hrec Hg Ht Hh. unfold onOutgoingInterest. apply wp_bind. eapply wp_interestOf; [done|].
  apply wp_bind. eapply wp_getFace; [done|]. destruct (bool_decide (i_hopLimit i = Some 0) && _) eqn:Eh.
  { apply andb_true_iff in Eh as [E1%bool_decide_eq_true E2%bool_decide_eq_true]. by rewrite Hh in E2. }
  apply wp_bind. eapply wp_lift; [exact Hfp|]. cbv beta iota. apply wp_bind. unfold sentOn, leavesWith.
  destruct (isReflexiveInterest i) eqn:Hri.
  - apply wp_bind, wp_get. eapply wp_mono;
      [apply (wp_frame fw_output); [apply frame_tagPitToken, _|by apply tagPitToken_ok with (i := i)]|].
    intros [] s1 [(Hi1 & Hq1 & Hp1 & _ & b & Hb & Hr1) Ho1]. eapply wp_mono; [eapply recordAndSend_output; [done| |exact Hr1|]|].
    + eapply recordable_ext; [apply Hq1|done].
    + rewrite (q_faces _ _ Hq1). eauto.
    + intros x s2 (Hq2 & Hoth & n & Ho2). split; [|by eapply othersKept_pits].
      eexists. rewrite Ho2, Ho1. split_and!; [done|done|by exists b|by trans s1].
  - apply wp_ret. eapply wp_mono; [by eapply recordAndSend_output|]. intros x s2 (Hq2 & Hoth & n & Ho2). split; [|done].
    eexists. rewrite Ho2. split_and!; done.
Qed.

Lemma sendInterest_output r i g p face s :
  fw_inv s → interests s !! r = Some i → isReflexiveInterestFromProducer i = Ok false → recordable s p r →
  fw_faces s !! g = Some face → (i_hopLimit i = Some 0 → face_scope face = FACE_SCOPE_LOCAL) →
  wp (sendInterest r g p) (fun _ s' => sentOn g i s s' ∧ othersKept p g s s') s.
Proof.
  intros Hi Hr Hfp Hrec Hg Hh. unfold sendInterest. apply wp_bind. eapply wp_interestOf; [done|].
  destruct (i_pitTokenTag i) as [t|] eqn:Ht; [|by eapply onOutgoingInterest_output].
  apply wp_bind. eapply wp_mono; [apply (wp_frame fw_output);
    [apply frame_onStore; by split|apply wp_newInterest with (R := fun r2 s' => fw_inv s' ∧ quiet s s' ∧
      pits s' = pits s ∧ interests s' !! r2 = Some (set_i_pitTokenTag None i)); [done|]]|].
  { intros r2 s1 Hi1 He1 Ht1 Hf1 _ Hp1 Hfr Hin1. split_and!; [done| |done|rewrite Hin1; apply lookup_insert_eq].
    split; try done. intros r' i' Hr'. exists i'. split_and!; [|apply sameCore_refl|done]. rewrite Hin1.
    rewrite lookup_insert_ne; [done|congruence]. }
  intros r2 s1 [(Hi1 & Hq1 & Hp1 & Hr2) Ho1]. pose proof (q_ext _ _ Hq1) as He1. pose proof (quiet_assist _ _ Hq1) as Ha1.
  eapply wp_mono; [eapply onOutgoingInterest_output with (face := face);
    [done|exact Hr2|done| |by rewrite (q_faces _ _ Hq1)|done|done]|].
  - destruct Hrec as (mine & i' & Hp2 & Hr' & Hm). assert (i' = i) as -> by congruence.
    destruct (ext_entryOf _ _ _ _ He1 Hp2) as (mine' & Hp2' & Hk & _).
    exists mine', (set_i_pitTokenTag None i). split_and!; [done|done|].
    by rewrite <-(matchesInterest_sameKey mine i mine').
  - intros x s2 [(i' & E & Hk & Hl & Hq2) Hoth]. split; [|by eapply othersKept_pits].
    exists i'. rewrite E, Ho1. split_and!; [done|done| |by trans s1]. unfold leavesWith in *. by rewrite Ha1 in Hl.
Qed.

(** Writing an entry back changes nothing. *)
Lemma wp_sameEntry p pe (R : unit → Forwarder Q → Prop) s :
  pits s !! p = Some pe → R tt s → wp (changePitEntry p (fun _ => pe)) R s.
Proof.
  intros Hp HR. apply wp_zoom. eapply wp_run; [by apply setPitEntry_Ok|]. cbv beta.
  rewrite insert_id by done. replace (set_st_pits (pits s) (fw_store s)) with (fw_store s) by by destruct (fw_store s).
  by replace (set_fw_store (fw_store s) s) with s by by destruct s.
Qed.

(** ** The next hops of a new entry *)

Lemma Fib_lpm_NoDup st n : fib_inv HashFunc st → NoDup (nh_face <$> fe_nextHops (Fib_findLongestPrefixMatch HashFunc st n)).
Proof.
  intros Hi. unfold Fib_findLongestPrefixMatch, Fib_lpmResult. destruct (findLongestPrefixMatch _ _ _ _) as [m|]; [|constructor].
  destruct (fibSlot st m) as [fe|] eqn:E; [|constructor]. apply (fb_entry _ _ Hi) in E as [_ [H _]]. exact H.
Qed.

Definition eligibleHops (faces : gmap FaceRef Face) (inFace : Face) (i : Interest) (fe : FibEntry) : list NextHop :=
  List.filter (fun nh => isNextHopEligible faces inFace i nh (newPitEntry 0%nat) false 0) (fe_nextHops fe).
Lemma eligible_same faces inFace i j nh pe pe' t t' :
  i_name i = i_name j →
  isNextHopEligible faces inFace i nh pe false t = isNextHopEligible faces inFace j nh pe' false t'.
Proof. intros E. unfold isNextHopEligible, wouldViolateScope. by rewrite E. Qed.

Lemma lookupFib_exact p i s :
  fw_inv s → entryOf s p i → i_forwardingHint i = [] →
  wp (lookupFib p) (fun fe s' => s' = s ∧ fe = Fib_findLongestPrefixMatch HashFunc (fw_store s) (i_name i)) s.
Proof.
  intros Hi He Hh. destruct (entryOf_lookup _ _ _ He) as (pe & n & Hp & Hn & Hpi).
  unfold lookupFib. apply wp_bind. eapply wp_pitEntryOf; [done|]. apply wp_bind.
  eapply wp_interestOf; [done|]. apply wp_bind, wp_get. rewrite Hh. apply wp_bind. rewrite Hn.
  eapply wp_deref; [done|]. apply wp_ret. split; [done|]. eapply (Fib_lpm_pit_eq HashFunc _ p); [apply Hi|by exists pe|].
  unfold pitInterest. by rewrite Hp.
Qed.

(** ** Accepting the Interest *)

(** The out-records of an entry under steps that keep them. *)
Section out_records.
Context (p0 : PitRef).
Abbreviation V := (fun s : Forwarder Q => pe_outRecords <$> pits s !! p0).
Lemma frame_out_interest r g : frame V (changeInterest r g).
Proof. apply (frame_inStore (fun st => pe_outRecords <$> st_pits st !! p0)), frame_setInterest. done. Qed.
Lemma frame_out_entry p g : (∀ pe, pe_outRecords (g pe) = pe_outRecords pe) → frame V (changePitEntry p g).
Proof.
  intros Hg. apply (frame_inStore (fun st => pe_outRecords <$> st_pits st !! p0)), frame_setPitEntry.
  intros st pe Hp. simpl. rewrite lookup_insert. case_decide; [|done]. subst p0. rewrite Hp. simpl. by rewrite Hg.
Qed.
Lemma frame_out_getNonce r : frame V (getNonce r).
Proof.
  unfold getNonce. apply frame_bind; [apply frame_interestOf|]. intros i.
  destruct (i_nonce i); [apply frame_ret|].
  apply (frame_update V (fun s => set_fw_drawn (S (fw_drawn s)) s)); [done|].
  intros s. apply frame_bind; [apply frame_out_interest|]. intros. apply frame_ret.
Qed.
Lemma frame_out_accept r f p : frame V (acceptInterest r f p).
Proof.
  pose proof (frame_interestOf V) as Hri. pose proof (frame_pitEntryOf V) as Hrp.
  pose proof frame_out_interest as Hi. pose proof frame_out_getNonce as Hn.
  assert (∀ t g r n l, frame V (changePitEntry p (insertOrUpdateInRecord t g r n l))) as He1.
  { intros. apply frame_out_entry. intros pe. unfold insertOrUpdateInRecord. by destruct (getInRecord pe g). }
  assert (∀ t, frame V (changePitEntry p (set_pe_expiryTimer t))) as He2 by (intros; by apply frame_out_entry).
  unfold acceptInterest, attachDefaultHopLimit, addInRecord, setExpiryTimer, now. frame_solve.
Qed.
End out_records.

(** ** The content-store miss pipeline on a new entry *)

Section strategies.
(** The next hops that a strategy chooses among the eligible ones. *)
Context (choose : list NextHop → list NextHop).
Record forwardable (s : Forwarder Q) (r : InterestRef) (i : Interest) (p : PitRef) (f : FaceRef)
    (inFace : Face) (hops : list NextHop) : Prop := {
  fo_inv : fw_inv s;
  fo_interest : interests s !! r = Some i;
  fo_producer : isReflexiveInterestFromProducer i = Ok false;
  fo_record : recordable s p r;
  fo_out : pe_outRecords <$> pits s !! p = Some [];
  fo_entry : ∃ j, entryOf s p j ∧ i_forwardingHint j = [] ∧ i_name j = i_name i;
  fo_tag : i_nextHopFaceIdTag i = None;
  fo_face : fw_faces s !! f = Some inFace;
  fo_hops : eligibleHops (fw_faces s) inFace i (Fib_findLongestPrefixMatch HashFunc (fw_store s) (i_name i)) = hops;
  fo_limit : i_hopLimit i = Some 0 → ∀ nh g, nh ∈ choose hops → fw_faces s !! nh_face nh = Some g →
    face_scope g = FACE_SCOPE_LOCAL
}.

Lemma eligibleHops_same faces inFace i j fe :
  i_name i = i_name j → eligibleHops faces inFace i fe = eligibleHops faces inFace j fe.
Proof. intros E. apply filter_ext. intros nh. by apply eligible_same. Qed.
Lemma Fib_lpm_tree st st' n :
  st_nameTree st' = st_nameTree st →
  Fib_findLongestPrefixMatch HashFunc st' n = Fib_findLongestPrefixMatch HashFunc st n.
Proof. intros E. unfold Fib_findLongestPrefixMatch, Fib_lpmResult, fibSlot. by rewrite E. Qed.

Lemma forwardable_step s s' r i p f inFace hops :
  forwardable s r i p f inFace hops → fw_inv s' → ext s s' → fw_faces s' = fw_faces s →
  pe_outRecords <$> pits s' !! p = pe_outRecords <$> pits s !! p →
  zeroHopIn r (fw_store s') = zeroHopIn r (fw_store s) →
  ∃ i', forwardable s' r i' p f inFace hops ∧ sameKey i i'.
Proof.
  intros [H1 H2 H3 H4 H5 (j & Hj & Hh & Ej) H7 H8 H9 H10] Hi' He Hf Ho Hz.
  destruct (ex_interests _ _ He _ _ H2) as (i' & Hr' & Hk & Eh & Et). exists i'. split; [|done].
  destruct (ext_entryOf _ _ _ _ He Hj) as (j' & Hj' & (Ej' & _) & Eh' & _). pose proof Hk as (En & _).
  split; try done; rewrite ?Hf; try done.
  - by rewrite <-(sameKey_fromProducer i i').
  - by eapply recordable_ext.
  - by rewrite Ho.
  - exists j'. split_and!; [done|congruence|congruence].
  - congruence.
  - rewrite (Fib_lpm_tree (fw_store s)) by apply He. rewrite <-En. by rewrite <-(eligibleHops_same _ _ i i').
  - intros E. apply H10. unfold zeroHopIn in Hz. rewrite Hr', H2 in Hz. simpl in Hz. rewrite E in Hz.
    rewrite bool_decide_true in Hz by done. symmetry in Hz. apply bool_decide_eq_true in Hz. by injection Hz.
Qed.
(** What a strategy does with a new entry: the Interest goes to the chosen ones of
    the eligible next hops. *)
Definition sendsNew (strategy : StrategyRef → Strategy (Q := Q)) (hops : list NextHop) : Prop :=
  ∀ ref r i f inFace p s, forwardable s r i p f inFace hops →
    wp (afterReceiveInterest (strategy ref) r f p) (fun _ s' => sentTo (nh_face <$> choose hops) i s s') s.
Context (strategy : StrategyRef → Strategy (Q := Q)) {SL : ∀ ref, StrategyLaws (strategy ref)}.
Context (hops : list NextHop) (Hnew : sendsNew strategy hops).
Lemma miss_output r i f inFace p s :
  forwardable s r i p f inFace hops →
  wp (onContentStoreMiss strategy r f p) (fun _ s' => sentTo (nh_face <$> choose hops) i s s') s.
Proof using All.
  intros Hfo. unfold onContentStoreMiss.
  set (V := fun s : Forwarder Q => (fw_output s, fw_assist s, fw_faces s)). assert (Outside V) as HV by by split.
  apply wp_bind. eapply wp_mono; [apply (wp_frame V); [by apply frame_count|];
    apply wp_count with (R := fun _ s' => fw_inv s' ∧ ext s s' ∧ fw_store s' = fw_store s); [apply Hfo|done]|].
  intros [] s1 [(Hi1 & He1 & Hs1) [= Ho1 Ha1 Hf1]].
  destruct (forwardable_step s s1 r i p f inFace hops) as (i1 & Hfo1 & Hk1); try done; [by rewrite Hs1..|].
  eapply wp_mono with (R := fun _ s' => sentTo (nh_face <$> choose hops) i1 s1 s'); [|intros x s' H'; by eapply (sentTo_same s s1)]. clear Hfo Hk1.
  apply wp_bind. eapply wp_mono.
  { apply (wp_frame V); [by apply frame_acceptInterest|].
    apply (wp_frame (fun s => pe_outRecords <$> pits s !! p)); [apply frame_out_accept|].
    apply (wp_frame (fun s => zeroHopIn r (fw_store s))); [apply frame_hop_accept|].
    apply acceptInterest_ok; [done|apply Hfo1|]. rewrite (fo_face _ _ _ _ _ _ _ Hfo1). eauto. }
  intros [] s2 [[[[Hi2 He2] Hz2] Hp2] [= Ho2 Ha2 Hf2]].
  destruct (forwardable_step s1 s2 r i1 p f inFace hops) as (i2 & Hfo2 & Hk2); try done.
  eapply wp_mono with (R := fun _ s' => sentTo (nh_face <$> choose hops) i2 s2 s'); [|intros x s' H'; by eapply (sentTo_same s1 s2)]. clear Hfo1 Hk2.
  pose proof (fo_interest _ _ _ _ _ _ _ Hfo2) as Hr2.
  apply wp_bind. eapply wp_interestOf; [done|]. rewrite (fo_tag _ _ _ _ _ _ _ Hfo2). apply wp_bind.
  eapply wp_mono with (R := fun _ s3 => fw_inv s3 ∧ quiet s2 s3 ∧ pits s3 = pits s2 ∧ V s3 = V s2).
  { destruct (isReflexiveInterest i2); [|by apply wp_ret]. apply wp_bind, wp_get.
    eapply wp_mono; [apply (wp_frame V); [by apply frame_tagPitToken|by apply tagPitToken_ok with (i := i2)]|].
    intros [] s3 [(H1 & H2 & H3 & _) H4]. done. }
  intros [] s3 (Hi3 & Hq3 & Hp3 & [= Ho3 Ha3 Hf3]).
  destruct (forwardable_step s2 s3 r i2 p f inFace hops) as (i3 & Hfo3 & Hk3); try done; [apply Hq3|by rewrite Hp3| |].
  { destruct (q_hops _ _ Hq3 _ _ Hr2) as (x & Hx & _ & Ex). unfold zeroHopIn. rewrite Hx, Hr2. simpl. by rewrite Ex. }
  eapply wp_mono with (R := fun _ s' => sentTo (nh_face <$> choose hops) i3 s3 s'); [|intros x s' H'; by eapply (sentTo_same s2 s3)]. clear Hfo2 Hk3.
  destruct (fo_entry _ _ _ _ _ _ _ Hfo3) as (j & Hj & _).
  eapply (ask_strategy strategy); [done|exact Hj|]. intros ref. by eapply Hnew.
Qed.

(** ** The incoming Interest pipeline *)

(** The PIT entry just made for the packet. *)
Lemma forwardable_new s packet f face p st' r i :
  fw_inv s → fw_faces s !! f = Some face → interests (stored i s) !! r = Some i →
  i = prepared (fw_regions s) face packet → isReflexiveInterestFromProducer packet = Ok false →
  i_forwardingHint packet = [] → i_nextHopFaceIdTag packet = None →
  eligibleHops (fw_faces s) face packet (Fib_findLongestPrefixMatch HashFunc (fw_store s) (i_name packet)) = hops →
  (i_hopLimit packet = Some 1 → ∀ nh g, nh ∈ choose hops → fw_faces s !! nh_face nh = Some g → face_scope g = FACE_SCOPE_LOCAL) →
  fw_inv (set_fw_store st' (stored i s)) → recordable (set_fw_store st' (stored i s)) p r →
  st_interests st' = interests (stored i s) → (∀ n, nonPit st' n = nonPit (fw_store (stored i s)) n) →
  st_pits st' !! p = Some (set_pe_nameTreeEntry (Some (nteName (i_name i))) (newPitEntry r)) →
  forwardable (set_fw_store st' (stored i s)) r i p f face hops.
Proof.
  intros Hi Hf Hr Ei Hfp Hhint Htag Hnh Hlim Hi2 Hrec Hin Hnp Hp.
  destruct (prepared_same (fw_regions s) face packet) as (Hk & _ & _ & _ & Hh). rewrite <-Ei in Hk, Hh.
  pose proof Hk as (En & _).
  assert (i_forwardingHint i = [] ∧ i_nextHopFaceIdTag i = None) as [Hfh Hnt].
  { rewrite Ei. unfold prepared, arrived. rewrite Hhint. by destruct (i_hopLimit packet). }
  split; try done.
  - simpl. by rewrite Hin.
  - by rewrite <-(sameKey_fromProducer packet i).
  - simpl. by rewrite Hp.
  - exists i. split_and!; [|done|done]. exists (nteName (i_name i)). split; [eexists; by split|].
    unfold pitInterest. simpl. rewrite Hp. simpl. by rewrite Hin.
  - rewrite (Fib_lpm_slots HashFunc (fw_store s)); [|apply Hi|apply Hi2|].
    + rewrite <-En. by rewrite <-(eligibleHops_same _ _ packet i).
    + intros n. exact (f_equal t_fib (Hnp n)).
  - intros E. exact (Hlim (Hh E)).
Qed.

(** What a new entry means for the checks of the pipeline. *)
Lemma new_entry_clear face r n nonce f :
  isDuplicateInPit face (findDuplicateNonce (set_pe_nameTreeEntry (Some n) (newPitEntry r)) nonce f) = false ∧
  hasInRecords (set_pe_nameTreeEntry (Some n) (newPitEntry r)) = false.
Proof. split; [|done]. unfold isDuplicateInPit. by destruct (face_linkType face). Qed.

(** The second half of the pipeline on a new entry, with nothing cached. *)
Lemma process_output r i f face p nonce n c s :
  forwardable s r i p f face hops → tokenReadable i →
  (isReflexiveInterest i = true → existName (fw_assist s) (i_name i) = true ∨
     tokenAvailable (fw_assist s) (fw_drawn s)) →
  pits s !! p = Some (set_pe_nameTreeEntry (Some n) (newPitEntry r)) →
  cs_find (fw_now s) i (fw_cs s) = Ok (None, c) →
  wp (processInterest strategy r f p nonce) (fun _ s' => ∃ s1, sentTo (nh_face <$> choose hops) i s1 s' ∧
    fw_output s1 = fw_output s ∧ (isReflexiveInterest i = true → existName (fw_assist s1) (i_name i) = true)) s.
Proof using All.
  intros Hfo Htok Hav Hp Hcs. unfold processInterest.
  apply wp_bind. eapply wp_interestOf; [apply Hfo|]. apply wp_bind.
  eapply wp_mono; [apply learnToken_ok; [apply Hfo|done|done]|].
  intros [] s1 ((Hi1 & He1) & Hs1 & Hf1 & Ho1 & Hc1 & Hex).
  destruct (forwardable_step s s1 r i p f face hops) as (i1 & Hfo1 & Hk1); try done; [by rewrite Hs1..|].
  assert (i1 = i) as ->.
  { pose proof (fo_interest _ _ _ _ _ _ _ Hfo1) as H1. rewrite Hs1, (fo_interest _ _ _ _ _ _ _ Hfo) in H1. congruence. }
  apply wp_bind. eapply wp_getFace; [apply Hfo1|]. apply wp_bind. eapply wp_pitEntryOf; [rewrite Hs1; exact Hp|].
  destruct (new_entry_clear face r n nonce f) as [-> ->]. cbn [negb].
  unfold lookupContentStore. apply wp_bind. eapply wp_interestOf; [apply Hfo1|]. apply wp_bind, wp_get.
  apply wp_bind. eapply wp_lift; [rewrite Hc1, (ex_now _ _ He1); exact Hcs|]. cbv beta iota. apply wp_bind, wp_put.
  destruct (cs_find_ok (fw_now s) i (fw_cs s) (fi_cs s (fo_inv _ _ _ _ _ _ _ Hfo))) as (o & c' & E & Hc & Ht & _).
  rewrite Hcs in E. injection E as <- <-.
  eapply wp_mono; [eapply miss_output with (i := i)|].
  - destruct (forwardable_step s1 (set_fw_cs c s1) r i p f face hops) as (i2 & Hfo2 & _); try done; [|by apply ext_eq|].
    { destruct Hi1. split; try done. cbn [fw_cs set_fw_cs]. by rewrite Ht, <-Hc1. }
    assert (i2 = i) as ->; [|exact Hfo2].
    pose proof (fo_interest _ _ _ _ _ _ _ Hfo2) as H2. pose proof (fo_interest _ _ _ _ _ _ _ Hfo1) as H1.
    simpl in H2. congruence.
  - intros x s' Hs'. exists (set_fw_cs c s1). done.
Qed.

(** Tokens are readable at the next node. *)
Lemma token_resolves (a : pit_assist) name b :
  assist_inv a → existName a name = true → setPitToken (nameToToken a name).1 = Ok b →
  ∃ tok, tok ≠ 0 ∧ readPitToken b = Ok tok ∧ tokenToName a tok = (name, true).
Proof.
  intros Ha Hex Hb. apply bool_decide_eq_true in Hex as [tok Htok]. unfold nameToToken in Hb. rewrite Htok in Hb.
  pose proof (ai_range a Ha _ _ Htok). exists tok. split_and!; [lia|apply readPitToken_setPitToken; [lia|done]|].
  unfold tokenToName. by rewrite (proj1 (ai_bij a Ha name tok) Htok).
Qed.

(** A reflexive Interest leaves with a token of this node that resolves to its
    name, any other without a token. *)
Definition tokenFor (a : pit_assist) (packet i' : Interest) : Prop :=
  if isReflexiveInterest packet
  then ∃ b tok, i_pitTokenTag i' = Some b ∧ tok ≠ 0 ∧ readPitToken b = Ok tok ∧ tokenToName a tok = (i_name packet, true)
  else i_pitTokenTag i' = None.

(** The generic result for the strategies. *)
Lemma new_interest_sent s packet f face nonce c :
  fw_inv s → interest_ok s packet → fw_faces s !! f = Some face → acceptable packet face nonce →
  inDnl s (i_name packet) nonce = false → isReflexiveInterestFromProducer packet = Ok false →
  i_forwardingHint packet = [] → i_nextHopFaceIdTag packet = None →
  (∀ p j, entryOf s p j → matchesInterest j packet = false) →
  cs_find (fw_now s) (prepared (fw_regions s) face packet) (fw_cs s) = Ok (None, c) →
  eligibleHops (fw_faces s) face packet (Fib_findLongestPrefixMatch HashFunc (fw_store s) (i_name packet)) = hops →
  (i_hopLimit packet = Some 1 → ∀ nh g, nh ∈ choose hops → fw_faces s !! nh_face nh = Some g → face_scope g = FACE_SCOPE_LOCAL) →
  ∃ s' l, handle strategy (EvInterest packet f) s = Ok (tt, s') ∧ fw_inv s' ∧ fw_output s' = fw_output s ++ l ∧
    Forall2 (fun nh o => ∃ i', o = SendInterest (nh_face nh) i' ∧ sameKey packet i' ∧ tokenFor (fw_assist s') packet i')
      (choose hops) l.
Proof using All.
  intros Hi Hok Hf Ha Hdnl Hfp Hhint Htag Hno Hcs Hnh Hlim.
  destruct (wp_elim _ _ _ (handle_ok strategy (EvInterest packet f) s Hi (conj (mk_is_Some _ _ Hf) Hok)))
    as ([] & s' & E & Hi').
  set (i := prepared (fw_regions s) face packet) in *. destruct (prepared_same (fw_regions s) face packet)
    as (Hk & Ht & Hnn & Hreg & _). fold i in Hk, Ht, Hnn, Hreg. pose proof Hk as (En & _).
  assert (isReflexiveInterest i = isReflexiveInterest packet) as Eri by (unfold isReflexiveInterest; by rewrite En).
  assert (wp (handle strategy (EvInterest packet f)) (fun _ s' => ∃ s1, sentTo (nh_face <$> choose hops) i s1 s' ∧
    fw_output s1 = fw_output s ∧ (isReflexiveInterest i = true → existName (fw_assist s1) (i_name i) = true)) s) as Hw.
  { cbn [handle]. eapply wp_front; [done|done|done|]. cbv zeta. fold i. set (r := fresh _).
    assert (interests (stored i s) !! r = Some i) as Hr by apply lookup_insert_eq.
    apply wp_bind. eapply Pit_insert_new; [by apply stored_inv|done|apply prepared_storable, Hok| |].
    { intros p j (n & (pe & Hp & Hn) & Hj). rewrite stored_pitInterest in Hj by done.
      rewrite <-(Hno p j); [|exists n; split; [by exists pe|done]].
      symmetry. by apply matchesInterest_sameKey. }
    intros p st' Hi2 Hrec Hin Hnp Hp. apply wp_bind. eapply wp_deref; [done|]. apply wp_bind.
    eapply wp_lift; [by rewrite <-(sameKey_fromProducer packet i)|]. cbv beta iota.
    eapply wp_mono; [eapply process_output with (c := c) (n := nteName (i_name i)); [by eapply forwardable_new| | |exact Hp|exact Hcs]|].
    - unfold tokenReadable. rewrite Ht. apply Hok.
    - rewrite Eri, <-En. intros Hri. pose proof (io_draw _ _ Hok Hri) as Hd. by rewrite (ac_nonce _ _ _ Ha) in Hd.
    - intros x s2 H2. exact H2. }
  destruct (wp_elim _ _ _ Hw) as (x & s2 & E2 & s1 & (l & Ho & Hl & Ha') & Ho1 & Hex).
  rewrite E in E2. injection E2 as _ <-. exists s', l. rewrite Ho1 in Ho. split_and!; try done.
  rewrite Forall2_fmap_l in Hl. eapply Forall2_impl; [exact Hl|]. intros nh o (i' & -> & Hk' & Hlw). exists i'.
  split_and!; [done|unfold sameKey in *; naive_solver congruence|].
  unfold leavesWith, tokenFor in *. rewrite Eri in *. destruct (isReflexiveInterest packet); [|done].
  destruct Hlw as (b & Hb & Htb). rewrite <-Ha', <-En in Hb. rewrite <-Ha', <-En in Hex.
  destruct (token_resolves (fw_assist s') (i_name packet) b) as (tok & H1 & H2 & H3); [apply Hi'|by apply Hex|done|].
  by exists b, tok.
Qed.
End strategies.

(** ** The best-route strategy *)

Definition bestHop (faces : gmap FaceRef Face) (inFace : Face) (i : Interest) (fe : FibEntry) : option NextHop :=
  List.find (fun nh => isNextHopEligible faces inFace i nh (newPitEntry 0%nat) false 0) (fe_nextHops fe).
Lemma bestHop_first faces inFace i fe : bestHop faces inFace i fe = head (eligibleHops faces inFace i fe).
Proof. unfold bestHop, eligibleHops. induction (fe_nextHops fe) as [|nh l IH]; [done|]. simpl. by destruct (isNextHopEligible _ _ _ _ _ _ _). Qed.
Lemma eligibleHops_face faces inFace i fe nh : nh ∈ eligibleHops faces inFace i fe → is_Some (faces !! nh_face nh).
Proof. intros [_ H]%list_elem_of_In%filter_In. by eapply eligible_face. Qed.

Section best.
Context (rs : StrategyRef → RetxSuppressionExponential).
Abbreviation bestRoute := (fun ref : StrategyRef => BestRouteStrategy (rs ref)).
Lemma bestRoute_new ref r i f inFace p nh hops s :
  forwardable (take 1) s r i p f inFace (nh :: hops) →
  wp (br_afterReceiveInterest (rs ref) r f p) (fun _ s' => sentOn (nh_face nh) i s s') s.
Proof.
  intros Hfo. pose proof Hfo as [Hi Hr Hfp Hrec Hout (j & Hj & Hhint & Ej) _ Hf Hnh Hh].
  destruct (pits s !! p) as [pe|] eqn:Hp; [|done]. injection Hout as Hout. unfold br_afterReceiveInterest.
  apply wp_bind. eapply wp_interestOf; [done|]. apply wp_bind. eapply wp_lift; [exact Hfp|]. cbv beta iota.
  apply wp_bind. eapply wp_pitEntryOf; [done|]. apply wp_bind, wp_gets. apply wp_bind.
  eapply wp_lift; [unfold decidePerPitEntry, hasPendingOutRecords; rewrite Hout; reflexivity|]. cbv beta iota.
  apply wp_bind, wp_sameEntry; [done|].
  apply wp_bind. eapply wp_mono; [by eapply lookupFib_exact|]. intros fe s' [-> ->]. rewrite Ej.
  apply wp_bind. eapply wp_getFace; [done|]. apply wp_bind, wp_get.
  rewrite (find_ext _ (fun nh => isNextHopEligible (fw_faces s) inFace i nh (newPitEntry 0%nat) false 0))
    by (intros x; by apply eligible_same).
  fold (bestHop (fw_faces s) inFace i (Fib_findLongestPrefixMatch HashFunc (fw_store s) (i_name i))).
  rewrite bestHop_first, Hnh. cbn [head].
  destruct (eligibleHops_face (fw_faces s) inFace i (Fib_findLongestPrefixMatch HashFunc (fw_store s) (i_name i)) nh) as [g Hg];
    [rewrite Hnh; by left|].
  apply wp_bind. eapply wp_mono; [eapply sendInterest_output; [done..|]|intros b s' [Hs' _]; by apply wp_ret].
  intros E. eapply Hh; [done|by left|done].
Qed.

(** C3. Forwarding along the best route: an Interest is sent exactly once, on the
    cheapest eligible next hop of the FIB entry with the longest matching prefix
    (not back to its face unless ad hoc, and within its scope), name and selectors
    unchanged.  A reflexive Interest leaves with a token of this node that the
    assistant resolves to its name, any other without a token.  The pipeline returns
    and nothing else leaves.  Conditions: it matches no PIT entry and no cached
    Data; it has a Nonce that is not in the Dead Nonce List; its HopLimit is not 0,
    and 1 only if that next hop is local; it is not under /localhost from a
    non-local face; it is no reflexive Interest from the producer's side, has no
    forwarding hint and no NextHopFaceId tag; there is an eligible next hop; and
    ([interest_ok]) the reflexive test does not throw, its PIT token has at least
    four bytes, and a free token can be drawn if it needs one. *)
Theorem interest_takes_best_route s packet f face nonce nh g c :
  fw_inv s → interest_ok s packet → fw_faces s !! f = Some face → acceptable packet face nonce →
  inDnl s (i_name packet) nonce = false → isReflexiveInterestFromProducer packet = Ok false →
  i_forwardingHint packet = [] → i_nextHopFaceIdTag packet = None →
  (∀ p j, entryOf s p j → matchesInterest j packet = false) →
  cs_find (fw_now s) (prepared (fw_regions s) face packet) (fw_cs s) = Ok (None, c) →
  bestHop (fw_faces s) face packet (Fib_findLongestPrefixMatch HashFunc (fw_store s) (i_name packet)) = Some nh →
  fw_faces s !! nh_face nh = Some g → (i_hopLimit packet = Some 1 → face_scope g = FACE_SCOPE_LOCAL) →
  ∃ s' i', handle bestRoute (EvInterest packet f) s = Ok (tt, s') ∧ fw_inv s' ∧
    fw_output s' = fw_output s ++ [SendInterest (nh_face nh) i'] ∧ sameKey packet i' ∧ tokenFor (fw_assist s') packet i'.
Proof using EnvironmentLaws0.
  intros Hi Hok Hf Ha Hdnl Hfp Hhint Htag Hno Hcs Hnh Hg Hlim. rewrite bestHop_first in Hnh.
  destruct (eligibleHops _ _ _ _) as [|nh0 hops] eqn:Ehops; [done|]. injection Hnh as ->.
  destruct (new_interest_sent (take 1) bestRoute (nh :: hops)) with (s := s) (packet := packet) (f := f) (face := face)
    (nonce := nonce) (c := c) as (s' & l & E & Hi' & Ho & Hl); try done.
  - intros ref r i f' inFace p s1 Hfo. eapply wp_mono; [by eapply bestRoute_new|]. intros x s' Hs'. by apply sentOn_to.
  - intros E x g' [->|[]%not_elem_of_nil]%elem_of_cons Hg'. assert (g' = g) as -> by congruence. by apply Hlim.
  - apply Forall2_cons_inv_l in Hl as (o & l' & (i' & -> & Hk & Ht) & ->%Forall2_nil_inv_l & ->).
    by exists s', i'.
Qed.
End best.

(** ** The multicast strategy *)

Section multi.
Context (rs : StrategyRef → RetxSuppressionExponential).
Abbreviation multicast := (fun ref : StrategyRef => MulticastStrategy (rs ref)).
Abbreviation eligibleIn faces inFace i :=
  (fun nh => isNextHopEligible faces inFace i nh (newPitEntry 0%nat) false 0).

(** A next hop without an out-record: the Interest is sent if it is eligible. *)
Lemma mc_forwardTo_new ref r i f inFace p nh s :
  fw_inv s → interests s !! r = Some i → isReflexiveInterestFromProducer i = Ok false → recordable s p r →
  fw_faces s !! f = Some inFace → outTo p (nh_face nh) s = None →
  (i_hopLimit i = Some 0 → eligibleIn (fw_faces s) inFace i nh = true →
     ∀ g, fw_faces s !! nh_face nh = Some g → face_scope g = FACE_SCOPE_LOCAL) →
  wp (mc_forwardTo (rs ref) r f p nh) (fun _ s' =>
    if eligibleIn (fw_faces s) inFace i nh
    then sentOn (nh_face nh) i s s' ∧ othersKept p (nh_face nh) s s' ∧ fw_inv s' else s' = s) s.
Proof.
  intros Hi Hr Hfp Hrec Hf Hno Hh. pose proof Hrec as (mine & i' & He & _). destruct (entryOf_lookup _ _ _ He) as (pe & n & Hp & _).
  unfold mc_forwardTo. apply wp_bind. eapply wp_pitEntryOf; [done|]. apply wp_bind, wp_gets.
  unfold outTo in Hno. rewrite Hp in Hno. cbn [mbind option_bind] in Hno. unfold decidePerUpstream. rewrite Hno.
  apply wp_bind, wp_sameEntry; [done|]. apply wp_bind. eapply wp_interestOf; [done|]. apply wp_bind.
  eapply wp_getFace; [done|]. apply wp_bind, wp_get.
  rewrite (eligible_same _ _ i i nh pe (newPitEntry 0%nat) 0 0) by done.
  destruct (isNextHopEligible _ _ _ _ _ _ _) eqn:Hel; [|by apply wp_ret]. destruct (eligible_face _ _ _ _ _ _ _ Hel) as [g Hg].
  assert (sendable s p r i) as Hsend by (split; [done|by left]).
  destruct (wp_elim _ _ _ (sendInterest_ok r i (nh_face nh) p s Hi Hsend (mk_is_Some _ _ Hg))) as (b & s1 & E & Hi1 & _).
  pose proof (sendInterest_output r i (nh_face nh) p g s Hi Hr Hfp Hrec Hg (fun E0 => Hh E0 Hel g Hg)) as Hw.
  apply wp_elim in Hw as (b' & s1' & E' & Hs & Ho). rewrite E in E'. injection E' as <- <-.
  apply wp_bind. eapply wp_run; [exact E|]. rewrite bool_decide_false by done. rewrite andb_false_r. by apply wp_ret.
Qed.
Lemma mc_loop_new ref r f inFace p l i s :
  fw_inv s → interests s !! r = Some i → isReflexiveInterestFromProducer i = Ok false → recordable s p r →
  fw_faces s !! f = Some inFace → (∀ nh, nh ∈ l → outTo p (nh_face nh) s = None) → NoDup (nh_face <$> l) →
  (i_hopLimit i = Some 0 → ∀ nh g, nh ∈ List.filter (eligibleIn (fw_faces s) inFace i) l →
     fw_faces s !! nh_face nh = Some g → face_scope g = FACE_SCOPE_LOCAL) →
  wp (forM_ l (mc_forwardTo (rs ref) r f p)) (fun _ s' =>
    sentTo (nh_face <$> List.filter (eligibleIn (fw_faces s) inFace i) l) i s s') s.
Proof.
  revert i s. induction l as [|nh l IH]; intros i s Hi Hr Hfp Hrec Hf Hno Hnd Hh; cbn [forM_].
  { apply wp_ret. exists []. by rewrite app_nil_r. }
  inversion Hnd as [|? ? Hnin Hnd']; subst. clear Hnd. apply wp_bind. cbn [List.filter] in Hh |- *.
  destruct (eligibleIn (fw_faces s) inFace i nh) eqn:Hel.
  - eapply wp_mono; [apply (mc_forwardTo_new ref r i f inFace); try done; [apply Hno; by left|]|].
    { intros E _ g. apply (Hh E nh). by left. }
    intros [] s1. rewrite Hel. intros (Hs1 & Hoth & Hi1). pose proof Hs1 as (_ & _ & _ & _ & Hq).
    destruct (q_hops _ _ Hq _ _ Hr) as (i1 & Hr1 & (Hk & _) & Ehop). pose proof (q_faces _ _ Hq) as Hf1.
    assert (∀ x, eligibleIn (fw_faces s1) inFace i1 x = eligibleIn (fw_faces s) inFace i x) as Hsame.
    { intros x. rewrite Hf1. symmetry. apply eligible_same, Hk. }
    rewrite <-(filter_ext _ _ Hsame) in Hh |- *.
    eapply wp_mono; [apply (IH i1 s1); try done|].
    + by rewrite <-(sameKey_fromProducer i i1).
    + eapply recordable_ext; [apply Hq|done].
    + by rewrite Hf1.
    + intros x Hx. rewrite Hoth; [apply Hno; by right|]. intros E. apply Hnin. rewrite <-E. apply list_elem_of_fmap. eauto.
    + rewrite Ehop. intros E x g Hx Hg. apply (Hh E x g); [by right|by rewrite <-Hf1].
    + intros [] s2 Hs2. cbn [fmap list_fmap]. by eapply sentTo_cons.
  - eapply wp_mono with (R := fun _ s' => s' = s).
    { eapply wp_mono; [apply (mc_forwardTo_new ref r i f inFace); try done; [apply Hno; by left|]|].
      - intros _ E. by rewrite Hel in E.
      - intros [] s1. by rewrite Hel. }
    intros [] s1 ->. apply IH; try done. intros x Hx. apply Hno. by right.
Qed.
Lemma multicast_new hops : sendsNew (fun l => l) multicast hops.
Proof.
  intros ref r i f inFace p s [Hi Hr Hfp Hrec Hout (j & Hj & Hhint & Ej) _ Hf Hnh Hh].
  cbn [MulticastStrategy afterReceiveInterest]. unfold mc_afterReceiveInterest.
  apply wp_bind. eapply wp_mono; [by eapply lookupFib_exact|]. intros fe s' [-> ->]. rewrite Ej. rewrite <-Hnh in Hh |- *.
  apply mc_loop_new; try done.
  - intros nh _. unfold outTo. destruct (pits s !! p) as [pe|]; [|done]. injection Hout as Hout. simpl.
    unfold getOutRecord. by rewrite Hout.
  - apply Fib_lpm_NoDup, Hi.
Qed.
(** C4. Forwarding by the multicast strategy: an Interest is sent once on every
    eligible next hop of the FIB entry with the longest matching prefix, in the
    order of the entry, name and selectors unchanged; a reflexive one with a token
    of this node on each of them, any other without a token.  The pipeline returns
    and nothing else leaves.  Conditions: it matches no PIT entry and no cached
    Data; it has a Nonce that is not in the Dead Nonce List; its HopLimit is not 0,
    and 1 only if all these next hops are local; it is not under /localhost from a
    non-local face; it is no reflexive Interest from the producer's side, has no
    forwarding hint and no NextHopFaceId tag; and ([interest_ok]) the reflexive test
    does not throw, its PIT token has at least four bytes, and a free token can be
    drawn if it needs one. *)
Theorem interest_multicast s packet f face nonce c :
  let hops := eligibleHops (fw_faces s) face packet (Fib_findLongestPrefixMatch HashFunc (fw_store s) (i_name packet)) in
  fw_inv s → interest_ok s packet → fw_faces s !! f = Some face → acceptable packet face nonce →
  inDnl s (i_name packet) nonce = false → isReflexiveInterestFromProducer packet = Ok false →
  i_forwardingHint packet = [] → i_nextHopFaceIdTag packet = None →
  (∀ p j, entryOf s p j → matchesInterest j packet = false) →
  cs_find (fw_now s) (prepared (fw_regions s) face packet) (fw_cs s) = Ok (None, c) →
  (i_hopLimit packet = Some 1 → ∀ nh g, nh ∈ hops → fw_faces s !! nh_face nh = Some g → face_scope g = FACE_SCOPE_LOCAL) →
  ∃ s' l, handle multicast (EvInterest packet f) s = Ok (tt, s') ∧ fw_inv s' ∧ fw_output s' = fw_output s ++ l ∧
    Forall2 (fun nh o => ∃ i', o = SendInterest (nh_face nh) i' ∧ sameKey packet i' ∧ tokenFor (fw_assist s') packet i') hops l.
Proof using EnvironmentLaws0.
  intros hops Hi Hok Hf Ha Hdnl Hfp Hhint Htag Hno Hcs Hlim.
  by apply (new_interest_sent (fun l => l) multicast hops (multicast_new hops)) with (face := face) (nonce := nonce) (c := c).
Qed.
End multi.
End forwarding.
