(* ===== verification/Scenario.v ===== *)
(** * A node between a consumer and a producer

    The forwarder with one downstream and one upstream face, run on a reflexive
    exchange: the consumer's Interest, the producer's reflexive Interest, and
    the Data that answer them. *)

From S2P Require Import Prelude Tlv Component Name Packet PitAssist Hashtable NameTree Face FibEntry.
From S2P Require Import PitEntry Store Pit Fib DeadNonceList Cs Algorithm Forwarder ForwarderInv BestRoute.
From S2P Require Import ForwarderSafety ForwarderProps Loops DataPlane InterestPlane.
Local Open Scope Z_scope.

#[export] Instance sampleEnvironment : Environment := {|
  HashFunc := ctype;
  cityHash64WithSeed := fun bytes seed => foldl (fun h b => h * 31 + b) (seed + 1) bytes;
  randomWord := fun k => Z.of_nat k + 7;
  tokenFuel := 4;
  unorderedFaces := fun l => l
|}.
#[export] Instance sampleEnvironmentLaws : EnvironmentLaws sampleEnvironment.
Proof. by split. Qed.

Definition sampleFaces : gmap FaceRef Face :=
  {[ 0%nat := mkFace 256 FACE_SCOPE_NON_LOCAL LINK_TYPE_POINT_TO_POINT 0 0;
     1%nat := mkFace 257 FACE_SCOPE_NON_LOCAL LINK_TYPE_POINT_TO_POINT 0 0;
     2%nat := mkFace 258 FACE_SCOPE_NON_LOCAL LINK_TYPE_MULTI_ACCESS 0 0;
     3%nat := mkFace 259 FACE_SCOPE_LOCAL LINK_TYPE_POINT_TO_POINT 0 0 ]}.

Abbreviation LruForwarder := (Forwarder Lru.LruPolicy).
Definition bestRoute : StrategyRef → Strategy := fun _ => BestRouteStrategy (Q := Lru.LruPolicy) defaultRetx.

Definition generic (v : Z) : Component := mkComponent 8 [v].
Definition consumerName : Name := [generic 112; mkComponent 59 [5]].
Definition producerName : Name := [generic 113; mkComponent 59 [57; 57; 57; 57]].
Definition consumerInterest : Interest :=
  mkInterest consumerName false false [] (Some 77) 4000 (Some 5) (Some [42; 0; 0; 0]) None None.
Definition reflexiveInterest (token : PitToken) : Interest :=
  mkInterest producerName false false [] (Some 88) 1000 (Some 5) (Some token) None None.
Definition dataFor (n : Name) (token : PitToken) : Data :=
  mkData n [1; 2; 3] 0 None (Some token) None.

(** The forwarder from its constructor, and the state after a run. *)
Definition start : outcome LruForwarder := Forwarder_new 0%nat sampleFaces [] 0 DropAll 10.
Definition blank : LruForwarder :=
  mkForwarder (Store_init 1) (Cs_init 0) (mkDnl 0 [] 0 []) pit_assist_init ∅ [] 0 DropAll Counters_init 0 0 [].
Definition startState : LruForwarder := match start with Ok s => s | Fault _ => blank end.
Definition stateAfter (es : list Event) : LruForwarder :=
  match handleAll bestRoute es startState with Ok (_, s) => s | Fault _ => blank end.

Lemma start_Ok : start = Ok startState.
Proof.
  destruct (Forwarder_new_ok (Q := Lru.LruPolicy) 0%nat sampleFaces [] 0 DropAll 10) as (s & E & _).
  unfold startState. change (start = Ok s) in E. by rewrite E.
Qed.
Lemma run_stateAfter es :
  events_okb bestRoute es startState = true →
  handleAll bestRoute es startState = Ok (tt, stateAfter es) ∧ fw_inv (stateAfter es).
Proof.
  intros Hes. destruct (run_ok bestRoute _ _ _ _ _ _ startState es start_Ok (events_okb_sound _ _ _ Hes)) as (s & E & Hi).
  unfold stateAfter. by rewrite E.
Qed.

Definition requested : list Event := [EvRoute [generic 112] 257 1; EvInterest consumerInterest 0%nat].
Definition exchange : list Event := requested ++
  [EvInterest (reflexiveInterest [7; 0; 0; 0]) 1%nat; EvData (dataFor producerName [42; 0; 0; 0]) 0%nat;
   EvData (dataFor consumerName [7; 0; 0; 0]) 1%nat].

(** The run is well formed and its outputs. *)
Lemma exchange_ok : events_okb bestRoute exchange startState = true.
Proof. vm_compute. reflexivity. Qed.
Lemma requested_ok : events_okb bestRoute requested startState = true.
Proof. vm_compute. reflexivity. Qed.
Definition sentNames (s : LruForwarder) : list (FaceRef * Name) :=
  map (fun o => match o with
                | SendInterest f i => (f, i_name i)
                | SendData f d => (f, d_name d)
                | SendNack f n => (f, i_name (n_interest n))
                end) (fw_output s).
Lemma exchange_sent : sentNames (stateAfter exchange) =
  [(1%nat, consumerName); (0%nat, producerName); (1%nat, producerName); (0%nat, consumerName)].
Proof. vm_compute. reflexivity. Qed.

(** ** Witnesses *)

Lemma forwarder_safe_witness :
  handleAll bestRoute exchange startState = Ok (tt, stateAfter exchange) ∧ fw_inv (stateAfter exchange) ∧
  sentNames (stateAfter exchange) =
    [(1%nat, consumerName); (0%nat, producerName); (1%nat, producerName); (0%nat, consumerName)].
Proof.
  destruct (forwarder_safe bestRoute 0%nat sampleFaces [] 0 DropAll 10 exchange) as (s & E & _ & H).
  change (start = Ok s) in E. rewrite start_Ok in E. injection E as <-.
  destruct (H (events_okb_sound bestRoute exchange startState exchange_ok)) as (s' & E' & Hi).
  assert (stateAfter exchange = s') as -> by (unfold stateAfter; by rewrite E').
  split_and!; [done|done|]. rewrite <-exchange_sent. unfold stateAfter. by rewrite E'.
Defined.

(** The state with the consumer's Interest pending. *)
Abbreviation pendingState := (stateAfter requested).
Definition face0 : Face := mkFace 256 FACE_SCOPE_NON_LOCAL LINK_TYPE_POINT_TO_POINT 0 0.
Definition face1 : Face := mkFace 257 FACE_SCOPE_NON_LOCAL LINK_TYPE_POINT_TO_POINT 0 0.
Definition pendingInterest : Interest := set_i_pitTokenTag (Some [7; 0; 0; 0]) (arrived face0 consumerInterest).
Definition inRecord0 : InRecord := mkInRecord 0%nat 77 0 (ms 4000) 0%nat.
Definition outRecord1 : OutRecord := mkOutRecord 1%nat 77 0 (ms 4000) None None.
Definition pendingEntry : PitEntry :=
  mkPitEntry 0%nat [inRecord0] [outRecord1] (Some (ms 4000)) false 0 (Some consumerName) None.

Lemma pending_pits : st_pits (fw_store pendingState) = {[ 0%nat := pendingEntry ]}.
Proof. vm_compute. reflexivity. Qed.
Lemma pending_interest : st_interests (fw_store pendingState) !! 0%nat = Some pendingInterest.
Proof. vm_compute. reflexivity. Qed.
Lemma pending_faces : fw_faces pendingState = sampleFaces.
Proof. vm_compute. reflexivity. Qed.
Lemma pending_token : tokenToName (fw_assist pendingState) 7 = (consumerName, true).
Proof. vm_compute. reflexivity. Qed.
Lemma pending_inv : fw_inv pendingState.
Proof. apply (run_stateAfter requested requested_ok). Qed.

Lemma pending_path : returnPath pendingState (reflexiveInterest [7; 0; 0; 0]) consumerName 0%nat inRecord0.
Proof.
  pose proof pending_pits as Hp. split.
  - vm_compute. reflexivity.
  - exists [7; 0; 0; 0], 7. split_and!; [done|done|done|apply pending_token].
  - exists pendingEntry. rewrite Hp. split; [apply lookup_singleton_eq|done].
  - exists pendingInterest. split; [|done]. unfold pitInterest. rewrite Hp, lookup_singleton_eq. apply pending_interest.
  - intros p j (pe & Hpe & _) _ _. rewrite Hp in Hpe. by apply lookup_singleton_Some in Hpe as [<- _].
  - exists pendingEntry, []. rewrite Hp. split; [apply lookup_singleton_eq|done].
Qed.
Lemma reflexive_ok : interest_ok pendingState (reflexiveInterest [7; 0; 0; 0]).
Proof. apply interest_okb_sound. vm_compute. reflexivity. Qed.

Lemma reflexive_interest_return_path_witness :
  ∃ s' ri', handle bestRoute (EvInterest (reflexiveInterest [7; 0; 0; 0]) 1%nat) pendingState = Ok (tt, s') ∧
    fw_output s' = fw_output pendingState ++ [SendInterest 0%nat ri'] ∧ i_name ri' = producerName ∧
    i_pitTokenTag ri' = Some [42; 0; 0; 0].
Proof.
  destruct (reflexive_interest_return_path (Q := Lru.LruPolicy) (fun _ => defaultRetx) pendingState
    (reflexiveInterest [7; 0; 0; 0]) 1%nat face1 88 consumerName 0%nat inRecord0)
    as (s' & ri' & b & H1 & _ & H2 & (H3 & _) & H4 & H5).
  - apply pending_inv.
  - apply reflexive_ok.
  - rewrite pending_faces. by vm_compute.
  - split; [done|done|by vm_compute].
  - vm_compute. reflexivity.
  - apply pending_path.
  - done.
  - done.
  - exists s', ri'. split_and!; [done|done|done|]. rewrite H5, <-(f_equal (fun o => match o with Ok b => Some b | _ => None end) H4).
    vm_compute. reflexivity.
Defined.

Definition deliveredData : Data :=
  set_d_pitTokenTag (Some [7; 0; 0; 0]) (set_d_incomingFaceIdTag (Some 257) (dataFor consumerName [7; 0; 0; 0])).
Lemma exchange_last : fw_output (stateAfter exchange) !! 3%nat = Some (SendData 0%nat deliveredData).
Proof. vm_compute. reflexivity. Qed.
Lemma forwarder_outputs_in_scope_witness :
  ∃ face, fw_faces (stateAfter exchange) !! 0%nat = Some face ∧ face_id face ≠ INVALID_FACEID.
Proof.
  destruct (forwarder_outputs_in_scope bestRoute 0%nat sampleFaces [] 0 DropAll 10 exchange startState
    (stateAfter exchange) 0%nat) as [Hd _].
  - exact start_Ok.
  - exact (events_okb_sound bestRoute exchange startState exchange_ok).
  - exact (proj1 (run_stateAfter exchange exchange_ok)).
  - destruct (Hd deliveredData) as (face & Hf & Hid & _).
    + exact (list_elem_of_lookup_2 _ _ _ exchange_last).
    + exists face. exact (conj Hf Hid).
Defined.

(** The pending Interest when its lifetime is over. *)
Definition expired : list Event := requested ++ [EvClock (ms 5000)].
Lemma expired_ok : events_okb bestRoute expired startState = true.
Proof. vm_compute. reflexivity. Qed.
Lemma expired_pit : st_pits (fw_store (stateAfter expired)) !! 0%nat = Some pendingEntry.
Proof. vm_compute. reflexivity. Qed.
Lemma expired_interest : st_interests (fw_store (stateAfter expired)) !! 0%nat = Some pendingInterest.
Proof. vm_compute. reflexivity. Qed.
Lemma expired_face : fw_faces (stateAfter expired) !! 1%nat = Some face1.
Proof. vm_compute. reflexivity. Qed.
Lemma expired_now : ms 4000 ≤ fw_now (stateAfter expired).
Proof. vm_compute. discriminate. Qed.

(** Between the expiry and the returning Interest another Interest is refused and
    the Dead Nonce List is marked. *)
Definition later : list Event := [EvMark; EvClock (ms 6000); EvInterest (reflexiveInterest [9; 0; 0; 0]) 1%nat].
Definition afterExpiry : LruForwarder :=
  match handle bestRoute (EvTimer 0%nat) (stateAfter expired) with Ok (_, s) => s | Fault _ => blank end.
Definition laterState : LruForwarder :=
  match handleAll bestRoute later afterExpiry with Ok (_, s) => s | Fault _ => blank end.
Lemma later_run : handleAll bestRoute later afterExpiry = Ok (tt, laterState).
Proof.
  assert (match handleAll bestRoute later afterExpiry with Ok _ => true | Fault _ => false end = true) as H by (vm_compute; reflexivity).
  unfold laterState. by destruct (handleAll bestRoute later afterExpiry) as [[[] s]|].
Qed.

Lemma expired_nonce_is_loop_witness :
  ∃ s3, handle bestRoute (EvTimer 0%nat) (stateAfter expired) = Ok (tt, afterExpiry) ∧
    handle bestRoute (EvInterest consumerInterest 1%nat) laterState = Ok (tt, s3) ∧
    fw_output s3 = fw_output laterState ++ [SendNack 1%nat (mkNack (arrived face1 consumerInterest) Nack_DUPLICATE)].
Proof.
  destruct (expired_nonce_is_loop bestRoute (stateAfter expired) 0%nat pendingEntry pendingInterest outRecord1
    (ms 4000)) as (s1 & H1 & _ & _ & _ & H).
  - exact (proj2 (run_stateAfter expired expired_ok)).
  - exact expired_pit.
  - exact expired_interest.
  - done.
  - exact expired_now.
  - done.
  - by left.
  - vm_compute. lia.
  - assert (s1 = afterExpiry) as -> by (unfold afterExpiry; by rewrite H1).
    destruct (H later laterState consumerInterest 1%nat face1) as (s3 & H3 & _ & Ho).
    + exact later_run.
    + vm_compute. reflexivity.
    + done.
    + vm_compute. reflexivity.
    + split; [done|done|by vm_compute].
    + exists s3. exact (conj H1 (conj H3 Ho)).
Defined.

Lemma duplicate_nonce_in_pit_is_loop_witness :
  ∃ s', handle bestRoute (EvInterest consumerInterest 1%nat) pendingState = Ok (tt, s') ∧
    st_pits (fw_store s') = st_pits (fw_store pendingState).
Proof.
  destruct (duplicate_nonce_in_pit_is_loop bestRoute pendingState consumerInterest 1%nat face1 77 0%nat pendingEntry
    pendingInterest) as (s' & H1 & _ & H2 & _).
  - apply pending_inv.
  - apply interest_okb_sound. vm_compute. reflexivity.
  - rewrite pending_faces. by vm_compute.
  - split; [done|done|by vm_compute].
  - vm_compute. reflexivity.
  - by vm_compute.
  - rewrite pending_pits. apply lookup_singleton_eq.
  - simpl. eauto.
  - exact pending_interest.
  - by vm_compute.
  - left. by vm_compute.
  - by vm_compute.
  - exists s'. exact (conj H1 H2).
Defined.

Lemma pending_matches :
  findAllDataMatches HashFunc (fw_store pendingState)
    (set_d_incomingFaceIdTag (Some 257) (dataFor consumerName [7; 0; 0; 0])) = [0%nat].
Proof. vm_compute. reflexivity. Qed.
Lemma data_reaches_downstreams_witness :
  ∃ s', handle bestRoute (EvData (dataFor consumerName [7; 0; 0; 0]) 1%nat) pendingState = Ok (tt, s') ∧
    fw_output s' = fw_output pendingState ++ [SendData 0%nat deliveredData].
Proof.
  destruct (data_reaches_downstreams (Q := Lru.LruPolicy) (fun _ => defaultRetx) pendingState
    (dataFor consumerName [7; 0; 0; 0]) 1%nat face1 0%nat pendingEntry) as (s' & H1 & _ & H2 & _).
  - apply pending_inv.
  - rewrite pending_faces. by vm_compute.
  - done.
  - by vm_compute.
  - exact pending_matches.
  - rewrite pending_pits. apply lookup_singleton_eq.
  - exists s'. split; [exact H1|]. rewrite H2. f_equal.
Defined.

(** The node with its route only. *)
Definition routed : list Event := [EvRoute [generic 112] 257 1].
Lemma routed_ok : events_okb bestRoute routed startState = true.
Proof. vm_compute. reflexivity. Qed.
Lemma routed_pits : st_pits (fw_store (stateAfter routed)) = ∅.
Proof. vm_compute. reflexivity. Qed.
Lemma routed_faces : fw_faces (stateAfter routed) = sampleFaces.
Proof. vm_compute. reflexivity. Qed.
Lemma routed_miss :
  cs_find (fw_now (stateAfter routed)) (prepared (fw_regions (stateAfter routed)) face0 consumerInterest)
    (fw_cs (stateAfter routed)) = Ok (None, Cs_init 10).
Proof. vm_compute. reflexivity. Qed.
Lemma routed_hop :
  bestHop (fw_faces (stateAfter routed)) face0 consumerInterest
    (Fib_findLongestPrefixMatch HashFunc (fw_store (stateAfter routed)) consumerName) = Some (mkNextHop 1%nat 1).
Proof. vm_compute. reflexivity. Qed.
Lemma interest_takes_best_route_witness :
  ∃ s' i', handle bestRoute (EvInterest consumerInterest 0%nat) (stateAfter routed) = Ok (tt, s') ∧
    fw_output s' = fw_output (stateAfter routed) ++ [SendInterest 1%nat i'] ∧ i_name i' = consumerName.
Proof.
  destruct (interest_takes_best_route (Q := Lru.LruPolicy) (fun _ => defaultRetx) (stateAfter routed) consumerInterest
    0%nat face0 77 (mkNextHop 1%nat 1) face1 (Cs_init 10)) as (s' & i' & H1 & _ & H2 & (H3 & _) & _).
  - exact (proj2 (run_stateAfter routed routed_ok)).
  - apply interest_okb_sound. vm_compute. reflexivity.
  - rewrite routed_faces. by vm_compute.
  - split; [done|done|by vm_compute].
  - vm_compute. reflexivity.
  - by vm_compute.
  - reflexivity.
  - reflexivity.
  - intros p j (n & (pe & Hp & _) & _). rewrite routed_pits in Hp. by rewrite lookup_empty in Hp.
  - exact routed_miss.
  - exact routed_hop.
  - rewrite routed_faces. by vm_compute.
  - done.
  - exists s', i'. exact (conj H1 (conj H2 (eq_sym H3))).
Defined.

(** ** Where the reflexive extension departs from its intent *)

(** C39. The downstream's PIT token is lost: the consumer's reflexive Interest
    carries token 42, but [onContentStoreMiss] overwrites the tag of
    the object the in-record refers to with this node's own token, so the Data
    goes back to the consumer with token 7 and not with the consumer's. *)
Theorem downstream_token_lost :
  ∃ d, handleAll bestRoute exchange startState = Ok (tt, stateAfter exchange) ∧
    fw_output (stateAfter exchange) !! 3%nat = Some (SendData 0%nat d) ∧ d_name d = consumerName ∧
    i_pitTokenTag consumerInterest = Some [42; 0; 0; 0] ∧ d_pitTokenTag d = Some [7; 0; 0; 0].
Proof.
  exists deliveredData. split_and!; [|exact exchange_last|done|done|done].
  exact (proj1 (run_stateAfter exchange exchange_ok)).
Qed.

(** A producer's reflexive Interest without a token, on the multi-access face. *)
Definition stray : list Event := [EvInterest (reflexiveInterest [0; 0; 0; 0]) 2%nat; EvClock (ms 100000)].
Definition strayEntry : PitEntry := mkPitEntry 0%nat [] [] None false 0 (Some producerName) None.
Lemma stray_ok : events_okb bestRoute stray startState = true.
Proof. vm_compute. reflexivity. Qed.
Lemma stray_pits : st_pits (fw_store (stateAfter stray)) = {[ 0%nat := strayEntry ]}.
Proof. vm_compute. reflexivity. Qed.
Lemma stray_output : ∃ n, fw_output (stateAfter stray) = [SendNack 2%nat n] ∧ n_reason n = Nack_NONE.
Proof. eexists. vm_compute. split; reflexivity. Qed.

(** A reflexive Interest from the producer without a usable token leaves a
    PIT entry with neither records nor timer: its expiry never fires and
    the entry stays.  The Nack that answers it leaves even on a
    multi-access face. *)
Theorem stray_reflexive_entry_stays :
  handleAll bestRoute stray startState = Ok (tt, stateAfter stray) ∧
  st_pits (fw_store (stateAfter stray)) = {[ 0%nat := strayEntry ]} ∧
  handle bestRoute (EvTimer 0%nat) (stateAfter stray) = Ok (tt, stateAfter stray) ∧
  (face_linkType <$> fw_faces (stateAfter stray) !! 2%nat) = Some LINK_TYPE_MULTI_ACCESS ∧
  ∃ n, fw_output (stateAfter stray) = [SendNack 2%nat n].
Proof.
  destruct (run_stateAfter stray stray_ok) as [Hrun _]. destruct stray_output as (n & Ho & _).
  split_and!; [exact Hrun|exact stray_pits| |vm_compute; reflexivity|exists n; exact Ho].
  assert (wp (onTimer 0%nat) (fun _ s' => s' = stateAfter stray) (stateAfter stray)) as Hw.
  { unfold onTimer. apply wp_bind. eapply wp_pitEntryOf; [rewrite stray_pits; apply lookup_singleton_eq|].
    apply wp_bind, wp_gets. apply wp_ret. reflexivity. }
  destruct (wp_elim _ _ _ Hw) as ([] & s' & E & ->). exact E.
Qed.

(** The producer is an application on the local face. *)
Definition localProducer : list Event :=
  [EvRoute [generic 112] 259 1; EvInterest consumerInterest 0%nat;
   EvInterest (mkInterest (LOCALHOST ++ producerName) false false [] (Some 88) 1000 None (Some [7; 0; 0; 0]) None None) 3%nat].
Lemma localProducer_ok : events_okb bestRoute localProducer startState = true.
Proof. vm_compute. reflexivity. Qed.
Lemma localProducer_output :
  ∃ i, fw_output (stateAfter localProducer) !! 1%nat = Some (SendInterest 0%nat i) ∧
    i_name i = LOCALHOST ++ producerName.
Proof. eexists. vm_compute. split; reflexivity. Qed.

(** C40. Scope control is not applied to the producer's reflexive Interests: one
    under /localhost, received on a local face, is sent on the non-local
    face of the consumer. *)
Theorem reflexive_interest_escapes_localhost :
  ∃ i, handleAll bestRoute localProducer startState = Ok (tt, stateAfter localProducer) ∧
    fw_output (stateAfter localProducer) !! 1%nat = Some (SendInterest 0%nat i) ∧
    LOCALHOST `prefix_of` i_name i ∧
    (face_scope <$> fw_faces (stateAfter localProducer) !! 0%nat) = Some FACE_SCOPE_NON_LOCAL.
Proof.
  destruct localProducer_output as (i & Ho & En). exists i.
  split_and!; [exact (proj1 (run_stateAfter localProducer localProducer_ok))|exact Ho| |vm_compute; reflexivity].
  rewrite En. apply prefix_app_r. reflexivity.
Qed.

(** ** What the conditions of the safety theorem leave out *)

(** A FreshnessPeriod of 2^63 ms or more is decoded as a negative number; when
    such Data answers a pending Interest, the assertion of [insertDeadNonceList]
    fails. *)
Definition negativeFreshness : Data := mkData consumerName [1; 2; 3] (i64 (2 ^ 63)) None (Some [7; 0; 0; 0]) None.
Theorem negative_freshness_fails :
  d_freshnessPeriod negativeFreshness < 0 ∧
  handleAll bestRoute (requested ++ [EvData negativeFreshness 1%nat]) startState = Fault AssertFailed.
Proof. vm_compute. split; reflexivity. Qed.

(** The token that goes with a reflexive Interest is that of the first Interest
    ever seen with the name, and the face that of the first in-record: when the
    first consumer's Interest has expired and another consumer asks for the same name with token 43, the
    reflexive Interest goes to the second consumer with the token 42 of the first. *)
Definition secondConsumer : Interest :=
  mkInterest consumerName false false [] (Some 78) 4000 (Some 5) (Some [43; 0; 0; 0]) None None.
Definition twoConsumers : list Event :=
  requested ++ [EvClock (ms 5000); EvTimer 0%nat; EvInterest secondConsumer 3%nat;
                EvInterest (reflexiveInterest [7; 0; 0; 0]) 1%nat].
Lemma twoConsumers_ok : events_okb bestRoute twoConsumers startState = true.
Proof. vm_compute. reflexivity. Qed.
Theorem stale_downstream_token :
  ∃ i, handleAll bestRoute twoConsumers startState = Ok (tt, stateAfter twoConsumers) ∧
    last (fw_output (stateAfter twoConsumers)) = Some (SendInterest 3%nat i) ∧ i_name i = producerName ∧
    i_pitTokenTag secondConsumer = Some [43; 0; 0; 0] ∧ i_pitTokenTag i = Some [42; 0; 0; 0].
Proof.
  assert (∃ i, last (fw_output (stateAfter twoConsumers)) = Some (SendInterest 3%nat i) ∧
    i_name i = producerName ∧ i_pitTokenTag i = Some [42; 0; 0; 0]) as (i & Ho & En & Et).
  { eexists. vm_compute. split_and!; reflexivity. }
  exists i. split_and!; [exact (proj1 (run_stateAfter twoConsumers twoConsumers_ok))|done..].
Qed.
