(* ===== verification/StrategyScenario.v ===== *)
(** * The multicast strategy between a consumer and two upstreams *)

From S2P Require Import Prelude Tlv Component Name Packet PitAssist Hashtable NameTree Face FibEntry.
From S2P Require Import PitEntry Store Pit Fib DeadNonceList Cs Algorithm Forwarder ForwarderInv BestRoute Strategies.
From S2P Require Import ForwarderSafety ForwarderProps Loops DataPlane InterestPlane Scenario.
Local Open Scope Z_scope.

Definition multicast : StrategyRef → Strategy := fun _ => MulticastStrategy (Q := Lru.LruPolicy) defaultRetx.
Definition twoRoutes : list Event := [EvRoute [generic 112] 257 1; EvRoute [generic 112] 258 5].
Abbreviation twoState := (stateAfter twoRoutes).

Lemma two_pits : st_pits (fw_store twoState) = ∅.
Proof. vm_compute. reflexivity. Qed.
Lemma two_miss :
  cs_find (fw_now twoState) (prepared (fw_regions twoState) face0 consumerInterest) (fw_cs twoState) =
    Ok (None, Cs_init 10).
Proof. vm_compute. reflexivity. Qed.
Lemma two_hops :
  eligibleHops (fw_faces twoState) face0 consumerInterest
    (Fib_findLongestPrefixMatch HashFunc (fw_store twoState) consumerName) = [mkNextHop 1%nat 1; mkNextHop 2%nat 5].
Proof. vm_compute. reflexivity. Qed.
Lemma interest_multicast_witness :
  ∃ s' i1 i2, handle multicast (EvInterest consumerInterest 0%nat) twoState = Ok (tt, s') ∧
    fw_output s' = fw_output twoState ++ [SendInterest 1%nat i1; SendInterest 2%nat i2] ∧
    i_name i1 = consumerName ∧ i_name i2 = consumerName.
Proof.
  destruct (interest_multicast (Q := Lru.LruPolicy) (fun _ => defaultRetx) twoState consumerInterest 0%nat face0 77
    (Cs_init 10)) as (s' & l & H1 & _ & H2 & H3).
  - exact (proj2 (run_stateAfter twoRoutes ltac:(by vm_compute))).
  - apply interest_okb_sound. vm_compute. reflexivity.
  - vm_compute. reflexivity.
  - split; [done|done|by vm_compute].
  - vm_compute. reflexivity.
  - by vm_compute.
  - reflexivity.
  - reflexivity.
  - intros p j (n & (pe & Hp & _) & _). rewrite two_pits in Hp. by rewrite lookup_empty in Hp.
  - exact two_miss.
  - done.
  - change (i_name consumerInterest) with consumerName in H3. rewrite two_hops in H3.
    apply Forall2_cons_inv_l in H3 as (o1 & l1 & (i1 & -> & (E1 & _) & _) & H3 & ->).
    apply Forall2_cons_inv_l in H3 as (o2 & l2 & (i2 & -> & (E2 & _) & _) & ->%Forall2_nil_inv_l & ->).
    exists s', i1, i2. by split_and!.
Defined.

(** The faces that Interests are sent on in a run. *)
Definition interestFaces (strategy : StrategyRef → Strategy) (es : list Event) : outcome (list FaceRef) :=
  '(_, s) ← handleAll strategy es startState;
  Ok (omap (fun o => match o with SendInterest f _ => Some f | _ => None end) (fw_output s)).

(** A retransmission with another nonce within the suppression interval goes nowhere; later it
    goes to both upstreams again. *)
Definition retransmission (nonce : Z) : Interest := set_i_nonce (Some nonce) consumerInterest.
Lemma multicast_suppresses :
  interestFaces multicast (twoRoutes ++ [EvInterest consumerInterest 0%nat; EvClock (ms 5); EvInterest (retransmission 78) 0%nat]) =
    Ok [1%nat; 2%nat] ∧
  interestFaces multicast (twoRoutes ++ [EvInterest consumerInterest 0%nat; EvClock (ms 15); EvInterest (retransmission 78) 0%nat]) =
    Ok [1%nat; 2%nat; 1%nat; 2%nat].
Proof. split; by vm_compute. Qed.

(** A pending Interest is sent to a next hop that is added later by the multicast
    strategy and not by the best-route strategy; it does not go back to the
    consumer. *)
Lemma new_next_hop_used :
  let es := [EvRoute [generic 112] 257 1; EvInterest consumerInterest 0%nat; EvRoute [generic 112] 258 5;
             EvRoute [generic 112] 256 9] in
  interestFaces multicast es = Ok [1%nat; 2%nat] ∧ interestFaces bestRoute es = Ok [1%nat].
Proof. split; by vm_compute. Qed.

(** A next hop that is cheaper than another is not announced: the iterator to it
    was taken before the list was sorted, and the costlier next hop gets the
    pending Interest a second time. *)
Theorem cheaper_next_hop_missed :
  interestFaces multicast [EvRoute [generic 112] 257 5; EvInterest consumerInterest 0%nat; EvRoute [generic 112] 258 1] =
    Ok [1%nat; 1%nat].
Proof. by vm_compute. Qed.

(** The random strategy that takes the last eligible next hop. *)
Lemma random_takes_eligible :
  interestFaces (fun _ => RandomStrategy (fun _ l => rev l)) (twoRoutes ++ [EvInterest consumerInterest 0%nat]) = Ok [2%nat].
Proof. by vm_compute. Qed.
