(* ===== verification/FaceScenario.v ===== *)
(** * A face closes while an Interest is pending

    Two faces appear, a route and an Interest make the tables refer to them; then
    the upstream closes, and a new face takes its address. *)

From S2P Require Import Prelude Tlv Component Name Packet PitAssist Hashtable NameTree Face Transport.
From S2P Require Import FibEntry PitEntry Store Pit Fib Cleanup DeadNonceList Cs Algorithm Forwarder.
From S2P Require Import ForwarderInv BestRoute Strategies ForwarderSafety ForwarderProps FaceFrame FaceTable.
From S2P Require Import Loops DataPlane InterestPlane Scenario.
Local Open Scope Z_scope.

Abbreviation LruNode := (NodeState Lru.LruPolicy).
Definition blankNode : LruNode := mkNodeState blank FaceTable_init ∅ ∅ [].
Definition startNode : LruNode :=
  match Node_new (Q := Lru.LruPolicy) 0%nat [] 0 DropAll 10 with Ok n => n | Fault _ => blankNode end.
Definition nodeAfter (es : list NodeEvent) : LruNode :=
  match nodeHandleAll bestRoute es startNode with Ok (_, n) => n | Fault _ => blankNode end.

(** The addresses are 0 for the consumer's face and 1 for the upstream. *)
Definition pendingNode : list NodeEvent :=
  [NdAdd FACE_SCOPE_NON_LOCAL LINK_TYPE_POINT_TO_POINT StreamTransport FACE_PERSISTENCY_ON_DEMAND;
   NdAdd FACE_SCOPE_NON_LOCAL LINK_TYPE_POINT_TO_POINT DatagramTransport FACE_PERSISTENCY_PERSISTENT;
   NdForward (EvRoute [generic 112] 257 1);
   NdForward (EvInterest consumerInterest 0%nat)].
Definition upstreamCloses : list NodeEvent := pendingNode ++
  [NdClose 1%nat; NdSocketError false 1%nat; NdClose 1%nat; NdDeferredClose 1%nat;
   NdAdd FACE_SCOPE_LOCAL LINK_TYPE_POINT_TO_POINT InternalForwarderTransport FACE_PERSISTENCY_PERMANENT;
   NdForward (EvData (dataFor consumerName [7; 0; 0; 0]) 0%nat)].

Lemma startNode_Ok : Node_new 0%nat [] 0 DropAll 10 = Ok startNode.
Proof.
  destruct (Node_new_ok (Q := Lru.LruPolicy) 0%nat [] 0 DropAll 10) as (n & E & _). unfold startNode. by rewrite E.
Qed.
Lemma nodeAfter_ok es :
  nodeEvents_okb bestRoute es startNode = true →
  nodeHandleAll bestRoute es startNode = Ok (tt, nodeAfter es) ∧ node_inv_but None (nodeAfter es).
Proof.
  intros Hes. destruct (Node_new_ok (Q := Lru.LruPolicy) 0%nat [] 0 DropAll 10) as (n & E & Hi).
  rewrite startNode_Ok in E. injection E as <-.
  destruct (nodeHandleAll_ok bestRoute (fun _ => BestRouteStrategy_faces defaultRetx) es startNode Hi
    (nodeEvents_okb_sound _ _ _ Hes)) as (n' & E & Hi'). unfold nodeAfter. by rewrite E.
Qed.

Definition hopFaces (n : LruNode) : list FaceRef :=
  map nh_face (fe_nextHops (default s_emptyEntry (fibSlot (fw_store (nd_fw n)) [generic 112]))).
Definition outFaces (n : LruNode) : list (list FaceRef) :=
  map (fun pe => map out_face (pe_outRecords pe.2)) (map_to_list (st_pits (fw_store (nd_fw n)))).

Lemma pendingNode_ok : nodeEvents_okb bestRoute pendingNode startNode = true.
Proof. vm_compute. reflexivity. Qed.
Lemma upstreamCloses_ok : nodeEvents_okb bestRoute upstreamCloses startNode = true.
Proof. vm_compute. reflexivity. Qed.
Lemma pendingNode_refers : hopFaces (nodeAfter pendingNode) = [1%nat] ∧ outFaces (nodeAfter pendingNode) = [[1%nat]].
Proof. by vm_compute. Qed.
Lemma upstreamCloses_forgets :
  hopFaces (nodeAfter upstreamCloses) = [] ∧ FaceTable_get (nd_table (nodeAfter upstreamCloses)) 257 = None ∧
  FaceTable_get (nd_table (nodeAfter upstreamCloses)) 258 = Some 1%nat.
Proof. by vm_compute. Qed.

Lemma faces_come_and_go_witness :
  nodeHandleAll bestRoute upstreamCloses startNode = Ok (tt, nodeAfter upstreamCloses) ∧
  fw_inv (nd_fw (nodeAfter upstreamCloses)) ∧
  FaceTable_get (nd_table (nodeAfter upstreamCloses)) 257 = None.
Proof.
  destruct (faces_come_and_go bestRoute (fun _ => BestRouteStrategy_faces defaultRetx) 0%nat [] 0 DropAll 10
    upstreamCloses) as (n & E & H).
  rewrite startNode_Ok in E. injection E as <-.
  destruct H as (n' & E' & Hi & _); [exact (nodeEvents_okb_sound bestRoute upstreamCloses startNode upstreamCloses_ok)|].
  assert (nodeAfter upstreamCloses = n') as -> by (unfold nodeAfter; by rewrite E').
  split_and!; [done|done|]. rewrite <-(proj1 (proj2 upstreamCloses_forgets)). unfold nodeAfter. by rewrite E'.
Defined.

(** The upstream is removed with the Interest pending. *)
Definition beforeRemoval : LruNode := beginEvent (nodeAfter pendingNode).
Lemma beforeRemoval_ok : node_inv_but None beforeRemoval ∧ begun (nd_fw beforeRemoval).
Proof. exact (begin_ok (nodeAfter pendingNode) (proj2 (nodeAfter_ok pendingNode pendingNode_ok))). Qed.
Lemma beforeRemoval_table : FaceTable_get (nd_table beforeRemoval) 257 = Some 1%nat.
Proof. vm_compute. reflexivity. Qed.
Lemma beforeRemoval_posted : nd_posted beforeRemoval = [].
Proof. vm_compute. reflexivity. Qed.
Lemma face_removed_witness :
  ∃ n', FaceTable_remove 257 beforeRemoval = Ok (tt, n') ∧ FaceTable_get (nd_table n') 257 = None ∧
    ∀ fe, fibSlot (fw_store (nd_fw n')) [generic 112] = Some fe → ∀ nh, nh ∈ fe_nextHops fe → nh_face nh ≠ 1%nat.
Proof.
  destruct (face_removed 257 1%nat beforeRemoval) as (n' & E & _ & Ht & Hf & _).
  - exact (proj1 beforeRemoval_ok).
  - exact (proj2 beforeRemoval_ok).
  - exact beforeRemoval_table.
  - rewrite beforeRemoval_posted. apply not_elem_of_nil.
  - exists n'. split_and!; [done|by rewrite Ht|]. intros fe Hfe nh Hnh. apply (Hf [generic 112] nh). eauto.
Defined.
