(* ===== verification/LpPacket.v ===== *)
(** * NDNLPv2 packets (ndn-cxx [lp/])

    The link-layer packet of [lp/packet.hpp] and [lp/packet.cpp]: an ordered
    list of typed header fields and a Fragment, with the field declarations of
    [lp/fields.hpp], the decoding and encoding helpers of [lp/field-decl.hpp]
    and the field order the decoder enforces. *)

From S2P Require Import Prelude Tlv Component Name Encoding Packet.
Local Open Scope Z_scope.

(** ** TLV-TYPE numbers ([lp/tlv.hpp], [encoding/tlv.hpp]) *)

Definition lp_LpPacket : Z := 100.
Definition lp_Fragment : Z := 80.
Definition lp_Sequence : Z := 81.
Definition lp_FragIndex : Z := 82.
Definition lp_FragCount : Z := 83.
Definition lp_PitToken : Z := 98.
Definition lp_Nack : Z := 800.
Definition lp_NackReason : Z := 801.
Definition lp_IncomingFaceId : Z := 812.
Definition lp_NextHopFaceId : Z := 816.
Definition lp_CachePolicy : Z := 820.
Definition lp_CachePolicyType : Z := 821.
Definition lp_CongestionMark : Z := 832.
Definition lp_Ack : Z := 836.
Definition lp_TxSequence : Z := 840.
Definition lp_NonDiscovery : Z := 844.
Definition lp_PrefixAnnouncement : Z := 848.
Definition HEADER3_MIN : Z := 800.
Definition HEADER3_MAX : Z := 959.

(** ** Field declarations *)

(** [field_location_tags]. *)
Inductive FieldLocation : Type := Loc_Header | Loc_Fragment.
Definition getLocationSortOrder (l : FieldLocation) : Z :=
  match l with Loc_Header => 1 | Loc_Fragment => 2 end.

(** [FieldDecl]: TLV-TYPE, whether the field repeats, where it goes, and its
    encoder and decoder ([DecodeHelper] runs after the check of the type). *)
Record FieldDecl (A : Type) := mkField {
  F_type : Z;
  F_repeatable : bool;
  F_location : FieldLocation;
  F_encode : A → outcome Block;
  F_decodeHelper : Block → outcome A
}.
Arguments mkField {A}.
Arguments F_type {A}.
Arguments F_repeatable {A}.
Arguments F_location {A}.
Arguments F_encode {A}.
Arguments F_decodeHelper {A}.

(** [FieldDecl::decode]. *)
Definition F_decode {A} (F : FieldDecl A) (wire : Block) : outcome A :=
  if bool_decide (blk_type wire ≠ F_type F) then Fault (Throw TlvError)
  else F_decodeHelper F wire.

(** The specializations of [DecodeHelper] and [EncodeHelper]. *)
Definition decode_EmptyValue (wire : Block) : outcome unit :=
  if bool_decide (length (blk_value wire) ≠ 0%nat) then Fault (Throw TlvError) else Ok tt.
Definition decode_uint64 (wire : Block) : outcome Z :=
  if bool_decide (length (blk_value wire) ≠ 8%nat) then Fault (Throw TlvError)
  else Ok (be_number (blk_value wire)).
Definition decode_range (wire : Block) : outcome (list Z) :=
  if bool_decide (length (blk_value wire) = 0%nat) then Fault (Throw TlvError)
  else Ok (blk_value wire).

Definition encode_EmptyValue (type : Z) (_ : unit) : outcome Block := Ok (Build_Block type []).
Definition encode_NonNegativeInteger (type : Z) (value : Z) : outcome Block :=
  Ok (Build_Block type (prependNonNegativeInteger value [])).
Definition encode_uint64 (type : Z) (value : Z) : outcome Block :=
  Ok (Build_Block type (be_bytes 8 value)).
Definition encode_range (type : Z) (value : list Z) : outcome Block := Ok (Build_Block type value).

Definition field_uint64 (type : Z) (repeatable : bool) : FieldDecl Z :=
  mkField type repeatable Loc_Header (encode_uint64 type) decode_uint64.
Definition field_NonNegativeInteger (type : Z) : FieldDecl Z :=
  mkField type false Loc_Header (encode_NonNegativeInteger type) readNonNegativeInteger_block.

Definition FragmentField : FieldDecl (list Z) :=
  mkField lp_Fragment false Loc_Fragment (encode_range lp_Fragment) decode_range.
Definition SequenceField : FieldDecl Z := field_uint64 lp_Sequence false.
Definition FragIndexField : FieldDecl Z := field_NonNegativeInteger lp_FragIndex.
Definition FragCountField : FieldDecl Z := field_NonNegativeInteger lp_FragCount.
Definition PitTokenField : FieldDecl (list Z) :=
  mkField lp_PitToken false Loc_Header (encode_range lp_PitToken) decode_range.
Definition IncomingFaceIdField : FieldDecl Z := field_NonNegativeInteger lp_IncomingFaceId.
Definition NextHopFaceIdField : FieldDecl Z := field_NonNegativeInteger lp_NextHopFaceId.
Definition CongestionMarkField : FieldDecl Z := field_NonNegativeInteger lp_CongestionMark.
Definition AckField : FieldDecl Z := field_uint64 lp_Ack true.
Definition TxSequenceField : FieldDecl Z := field_uint64 lp_TxSequence false.
Definition NonDiscoveryField : FieldDecl unit :=
  mkField lp_NonDiscovery false Loc_Header (encode_EmptyValue lp_NonDiscovery) decode_EmptyValue.

(** [readNonNegativeIntegerAs<NackReason>]: the enumerations are [int]s, and a
    number above the maximum of the underlying type throws. *)
Definition readNonNegativeIntegerAs_int (block : Block) : outcome Z :=
  n ← readNonNegativeInteger_block block;
  if bool_decide (2 ^ 31 - 1 < n) then Fault (Throw TlvError) else Ok n.

(** [NackHeader]: the number of the reason as it is on the wire. *)
Definition NackHeader_wireEncode (m_reason : Z) : outcome Block :=
  b ← encode_NonNegativeInteger lp_NackReason (u64 m_reason);
  Ok (Build_Block lp_Nack (Block_encode b [])).
Definition NackHeader_wireDecode (wire : Block) : outcome Z :=
  els ← Wire_parse (Wire_ofBlock wire []);
  match els with
  | [] => Ok (NackReason_code Nack_NONE)
  | it :: _ =>
      if bool_decide (blk_type it = lp_NackReason) then readNonNegativeIntegerAs_int it
      else Fault (Throw TlvError)
  end.
Definition NackHeader_getReason (m_reason : Z) : NackReason :=
  if bool_decide (m_reason = NackReason_code Nack_CONGESTION) then Nack_CONGESTION
  else if bool_decide (m_reason = NackReason_code Nack_DUPLICATE) then Nack_DUPLICATE
  else if bool_decide (m_reason = NackReason_code Nack_NO_ROUTE) then Nack_NO_ROUTE
  else Nack_NONE.
Definition NackField : FieldDecl Z :=
  mkField lp_Nack false Loc_Header NackHeader_wireEncode NackHeader_wireDecode.

(** [CachePolicy]: the number of the policy as it is on the wire. *)
Definition CachePolicyType_code (p : CachePolicyType) : Z :=
  match p with CachePolicy_NONE => 0 | CachePolicy_NO_CACHE => 1 end.
Definition CachePolicy_getPolicy (m_policy : Z) : CachePolicyType :=
  if bool_decide (m_policy = CachePolicyType_code CachePolicy_NO_CACHE)
  then CachePolicy_NO_CACHE else CachePolicy_NONE.
Definition CachePolicy_wireEncode (m_policy : Z) : outcome Block :=
  if bool_decide (m_policy = CachePolicyType_code CachePolicy_NONE) then Fault (Throw TlvError)
  else b ← encode_NonNegativeInteger lp_CachePolicyType (u64 m_policy);
       Ok (Build_Block lp_CachePolicy (Block_encode b [])).
Definition CachePolicy_wireDecode (wire : Block) : outcome Z :=
  els ← Wire_parse (Wire_ofBlock wire []);
  match els with
  | [] => Fault (Throw TlvError)
  | it :: _ =>
      if bool_decide (blk_type it = lp_CachePolicyType) then
        m_policy ← readNonNegativeIntegerAs_int it;
        if bool_decide (CachePolicy_getPolicy m_policy = CachePolicy_NONE)
        then Fault (Throw TlvError) else Ok m_policy
      else Fault (Throw TlvError)
  end.
Definition CachePolicyField : FieldDecl Z :=
  mkField lp_CachePolicy false Loc_Header CachePolicy_wireEncode CachePolicy_wireDecode.

(** [PrefixAnnouncementHeader]: the Data of the announcement, which
    [PrefixAnnouncement(Data(...))] checks. *)
Definition PrefixAnnouncementHeader_wireEncode (m_prefixAnn : Block) : outcome Block :=
  Ok (Build_Block lp_PrefixAnnouncement (Block_encode m_prefixAnn [])).
Definition PrefixAnnouncementHeader_wireDecode (check : Block → outcome unit) (wire : Block)
  : outcome Block :=
  els ← Wire_parse (Wire_ofBlock wire []);
  match List.find (fun b => bool_decide (blk_type b = tlv_Data)) els with
  | None => Fault (Throw TlvError)
  | Some data => _ ← check data; Ok data
  end.
Definition PrefixAnnouncementField (check : Block → outcome unit) : FieldDecl Block :=
  mkField lp_PrefixAnnouncement false Loc_Header
    PrefixAnnouncementHeader_wireEncode (PrefixAnnouncementHeader_wireDecode check).

(** ** Field order ([lp/packet.cpp]) *)

(** What [ExtractFieldInfo] reads of a declaration. *)
Record FieldMeta := mkMeta { fm_type : Z; fm_repeatable : bool; fm_location : FieldLocation }.
Definition F_meta {A} (F : FieldDecl A) : FieldMeta :=
  mkMeta (F_type F) (F_repeatable F) (F_location F).

Definition FieldSet : list FieldMeta :=
  [F_meta FragmentField; F_meta SequenceField; F_meta FragIndexField; F_meta FragCountField;
   F_meta PitTokenField; F_meta NackField; F_meta NextHopFaceIdField;
   F_meta IncomingFaceIdField; F_meta CachePolicyField; F_meta CongestionMarkField;
   F_meta AckField; F_meta TxSequenceField; F_meta NonDiscoveryField;
   F_meta (PrefixAnnouncementField (fun _ => Ok tt))].

Record FieldInfo := mkFieldInfo {
  tlvType : Z;
  isRecognized : bool;
  canIgnore : bool;
  isRepeatable : bool;
  locationSortOrder : Z
}.

(** [ExtractFieldInfo::operator()]. *)
Definition ExtractFieldInfo (info : FieldInfo) (T : FieldMeta) : FieldInfo :=
  if bool_decide (fm_type T ≠ tlvType info) then info
  else mkFieldInfo (tlvType info) true false (fm_repeatable T)
         (getLocationSortOrder (fm_location T)).

(** The constructor [FieldInfo(type)]. *)
Definition makeFieldInfo (type : Z) : FieldInfo :=
  let info := foldl ExtractFieldInfo
                (mkFieldInfo type false false false (getLocationSortOrder Loc_Header)) FieldSet in
  if isRecognized info then info
  else mkFieldInfo (tlvType info) false
         (bool_decide (HEADER3_MIN ≤ tlvType info ∧ tlvType info ≤ HEADER3_MAX ∧
                       Z.land (tlvType info) 3 = 0))
         (isRepeatable info) (locationSortOrder info).

Definition compareFieldSortOrder (first second : FieldInfo) : bool :=
  bool_decide (locationSortOrder first < locationSortOrder second ∨
               locationSortOrder first = locationSortOrder second ∧
               tlvType first < tlvType second).

Definition comparePos (first : Z) (second : Block) : bool :=
  compareFieldSortOrder (makeFieldInfo first) (makeFieldInfo (blk_type second)).

(** ** The packet *)

(** [m_wire]: its sub-elements, and the received element while nothing has
    changed since it was decoded. *)
Record Packet := mkPacket { p_wire : option Wire; p_elements : list Block }.
#[export] Instance Packet_eq_dec : EqDecision Packet.
Proof. solve_decision. Defined.

Definition Packet_new : Packet := mkPacket None [].
Definition Packet_empty (p : Packet) : bool := bool_decide (length (p_elements p) = 0%nat).

Section access.
Context {A : Type} (F : FieldDecl A).

Definition isField (b : Block) : bool := bool_decide (blk_type b = F_type F).

Definition Packet_count (p : Packet) : nat := length (List.filter isField (p_elements p)).
Definition Packet_has (p : Packet) : bool := bool_decide (0 < Packet_count p)%nat.

(** [get(index)]: the loop with its running [count]. *)
Fixpoint get_loop (index count : nat) (els : list Block) : outcome A :=
  match els with
  | [] => Fault (Throw OutOfRange)
  | element :: els' =>
      if isField element then
        if bool_decide (count = index) then F_decode F element
        else get_loop index (S count) els'
      else get_loop index count els'
  end.
Definition Packet_get_at (index : nat) (p : Packet) : outcome A := get_loop index 0 (p_elements p).
Definition Packet_get (p : Packet) : outcome A := Packet_get_at 0 p.

(** [list()]. *)
Fixpoint list_loop (output : list A) (els : list Block) : outcome (list A) :=
  match els with
  | [] => Ok output
  | element :: els' =>
      if isField element then v ← F_decode F element; list_loop (output ++ [v]) els'
      else list_loop output els'
  end.
Definition Packet_list (p : Packet) : outcome (list A) := list_loop [] (p_elements p).

(** [std::upper_bound] over a range partitioned by [comparePos(type, _)]: the
    elements before and after the first that compares greater. *)
Fixpoint upper_bound (type : Z) (els : list Block) : list Block * list Block :=
  match els with
  | [] => ([], [])
  | e :: els' =>
      if comparePos type e then ([], els)
      else let '(before, after) := upper_bound type els' in (e :: before, after)
  end.

(** [add(value)]. *)
Definition Packet_add (value : A) (p : Packet) : outcome Packet :=
  if negb (F_repeatable F) && Packet_has p then Fault (Throw InvalidArgument)
  else
    block ← F_encode F value;
    let '(before, after) := upper_bound (F_type F) (p_elements p) in
    Ok (mkPacket None (before ++ block :: after)).

(** [clear()] and [set(value)]. *)
Definition Packet_clear (p : Packet) : Packet :=
  mkPacket None (List.filter (fun b => negb (isField b)) (p_elements p)).
Definition Packet_set (value : A) (p : Packet) : outcome Packet := Packet_add value (Packet_clear p).

(** [remove(index)]. *)
Fixpoint remove_loop (index count : nat) (before els : list Block) : outcome Packet :=
  match els with
  | [] => Fault (Throw OutOfRange)
  | it :: els' =>
      if isField it then
        if bool_decide (count = index) then Ok (mkPacket None (before ++ els'))
        else remove_loop index (S count) (before ++ [it]) els'
      else remove_loop index count (before ++ [it]) els'
  end.
Definition Packet_remove (index : nat) (p : Packet) : outcome Packet :=
  remove_loop index 0 [] (p_elements p).
End access.

(** [m_wire.encode()]: the received buffer when there is one, otherwise the
    sub-elements are written behind a fresh header. *)
Definition Packet_encodeWire (p : Packet) : Wire :=
  match p_wire p with
  | Some wire => wire
  | None => Wire_ofBlock (Build_Block lp_LpPacket (Block_encodeElements (p_elements p) []))
              (p_elements p)
  end.

(** [Packet::wireEncode]: a packet with nothing but a Fragment is sent as the
    network packet in it, [elements().front()] of the parsed Fragment. *)
Definition Packet_wireEncode (p : Packet) : outcome Wire :=
  match p_elements p with
  | [front] =>
      if bool_decide (blk_type front = lp_Fragment) then
        els ← Wire_parse (Wire_ofBlock front []);
        match els with
        | [] => Fault UndefinedBehaviour
        | _ :: _ => Wire_ofSpan (blk_value front)
        end
      else Ok (Packet_encodeWire p)
  | _ => Ok (Packet_encodeWire p)
  end.

(** The checks of [Packet::wireDecode] on each element, with [prev] the
    previous element's info unless this is the first. *)
Fixpoint checkElements (prev : option FieldInfo) (els : list Block) : outcome unit :=
  match els with
  | [] => Ok tt
  | element :: els' =>
      let info := makeFieldInfo (blk_type element) in
      if negb (isRecognized info) && negb (canIgnore info) then Fault (Throw TlvError)
      else
        match prev with
        | Some prev =>
            if bool_decide (tlvType info = tlvType prev) && negb (isRepeatable info)
            then Fault (Throw TlvError)
            else if bool_decide (tlvType info ≠ tlvType prev) &&
                    negb (compareFieldSortOrder prev info)
            then Fault (Throw TlvError)
            else checkElements (Some info) els'
        | None => checkElements (Some info) els'
        end
  end.

(** [Packet::wireDecode]. *)
Definition Packet_wireDecode (wire : Wire) : outcome Packet :=
  if bool_decide (w_type wire = tlv_Interest ∨ w_type wire = tlv_Data)
  then Packet_add FragmentField (w_bytes wire) Packet_new
  else if bool_decide (w_type wire ≠ lp_LpPacket) then Fault (Throw TlvError)
  else
    els ← Wire_parse wire;
    _ ← checkElements None els;
    Ok (mkPacket (Some (mkWire (w_type wire) (w_value wire) (w_bytes wire) els)) els).

(** ** Field order as an order on TLV-TYPEs *)

(** Header fields go by TLV-TYPE, the Fragment goes last. *)
Definition fieldRank (type : Z) : Z := if bool_decide (type = lp_Fragment) then 2 ^ 32 else type.

Lemma ExtractFieldInfo_type info T : tlvType (ExtractFieldInfo info T) = tlvType info.
Proof. unfold ExtractFieldInfo. by case_bool_decide. Qed.

Lemma foldl_ExtractFieldInfo_type info l : tlvType (foldl ExtractFieldInfo info l) = tlvType info.
Proof.
  revert info. induction l as [|T l IH]; intros info; simpl; [done|].
  by rewrite IH, ExtractFieldInfo_type.
Qed.

(** The declarations of [FieldSet] have distinct TLV-TYPEs, so the loop keeps
    what the one declaration of the type says. *)
Lemma foldl_ExtractFieldInfo_other info l :
  (∀ T, T ∈ l → fm_type T ≠ tlvType info) → foldl ExtractFieldInfo info l = info.
Proof.
  revert info. induction l as [|T l IH]; intros info Hl; simpl; [done|].
  unfold ExtractFieldInfo at 2. rewrite bool_decide_true by (apply Hl; by left).
  apply IH. intros T' HT'. apply Hl. by right.
Qed.

Lemma foldl_ExtractFieldInfo_registered info l T :
  NoDup (map fm_type l) → T ∈ l → fm_type T = tlvType info →
  foldl ExtractFieldInfo info l =
    mkFieldInfo (tlvType info) true false (fm_repeatable T) (getLocationSortOrder (fm_location T)).
Proof.
  revert info. induction l as [|T' l IH]; intros info Hnd HT Ht; [by apply not_elem_of_nil in HT|].
  cbn [map] in Hnd. apply NoDup_cons in Hnd as [Hn Hnd]. cbn [foldl].
  apply elem_of_cons in HT as [<-|HT].
  - rewrite foldl_ExtractFieldInfo_other.
    + unfold ExtractFieldInfo. by rewrite bool_decide_false by auto.
    + intros T' HT' E. rewrite ExtractFieldInfo_type in E. apply Hn.
      rewrite Ht, <-E. by apply list_elem_of_fmap_2.
  - rewrite (IH (ExtractFieldInfo info T') Hnd HT) by by rewrite ExtractFieldInfo_type.
    by rewrite ExtractFieldInfo_type.
Qed.

Lemma FieldSet_NoDup : NoDup (map fm_type FieldSet).
Proof. apply (bool_decide_unpack _). vm_compute. exact I. Qed.

Lemma makeFieldInfo_type type : tlvType (makeFieldInfo type) = type.
Proof.
  pose proof (foldl_ExtractFieldInfo_type
    (mkFieldInfo type false false false (getLocationSortOrder Loc_Header)) FieldSet) as Ht.
  unfold makeFieldInfo. cbv zeta. revert Ht. generalize (foldl ExtractFieldInfo
    (mkFieldInfo type false false false (getLocationSortOrder Loc_Header)) FieldSet).
  intros info Ht. destruct (isRecognized info); exact Ht.
Qed.

Lemma makeFieldInfo_registered T :
  T ∈ FieldSet →
  makeFieldInfo (fm_type T) =
    mkFieldInfo (fm_type T) true false (fm_repeatable T) (getLocationSortOrder (fm_location T)).
Proof.
  intros HT. unfold makeFieldInfo.
  by rewrite (foldl_ExtractFieldInfo_registered _ _ T FieldSet_NoDup HT) by done.
Qed.

Lemma makeFieldInfo_other type :
  type ∉ map fm_type FieldSet →
  locationSortOrder (makeFieldInfo type) = 1 ∧ isRepeatable (makeFieldInfo type) = false.
Proof.
  intros Ht. unfold makeFieldInfo. rewrite foldl_ExtractFieldInfo_other; [done|].
  intros T HT E. apply Ht. simpl in E. rewrite <-E. by apply list_elem_of_fmap_2.
Qed.

Lemma makeFieldInfo_location type :
  locationSortOrder (makeFieldInfo type) = if bool_decide (type = lp_Fragment) then 2 else 1.
Proof.
  destruct (decide (type ∈ map fm_type FieldSet)) as [Hin|Hout].
  - apply list_elem_of_fmap in Hin as (T & -> & HT). rewrite makeFieldInfo_registered by done.
    revert T HT. apply Forall_forall. apply (bool_decide_unpack _). vm_compute. exact I.
  - rewrite (proj1 (makeFieldInfo_other _ Hout)). case_bool_decide; [|done]. subst.
    exfalso. apply Hout. apply (bool_decide_unpack _). vm_compute. exact I.
Qed.

#[global] Opaque makeFieldInfo.

Lemma compareFieldSortOrder_spec s t :
  0 < s < 2 ^ 32 → 0 < t < 2 ^ 32 →
  compareFieldSortOrder (makeFieldInfo s) (makeFieldInfo t) = bool_decide (fieldRank s < fieldRank t).
Proof.
  intros Hs Ht. unfold compareFieldSortOrder, fieldRank.
  rewrite !makeFieldInfo_type, !makeFieldInfo_location. apply bool_decide_ext.
  repeat case_bool_decide; subst; lia.
Qed.

Lemma fieldRank_inj s t :
  0 < s < 2 ^ 32 → 0 < t < 2 ^ 32 → fieldRank s = fieldRank t → s = t.
Proof. unfold fieldRank. repeat case_bool_decide; subst; lia. Qed.

(** ** Well-formed packets *)

Definition knownType (type : Z) : bool :=
  isRecognized (makeFieldInfo type) || canIgnore (makeFieldInfo type).

(** An element may follow another when it sorts after it, or repeats a
    repeatable field. *)
Definition follows (a b : Block) : Prop :=
  fieldRank (blk_type a) < fieldRank (blk_type b) ∨
  blk_type a = blk_type b ∧ isRepeatable (makeFieldInfo (blk_type a)) = true.
#[export] Instance follows_dec a b : Decision (follows a b).
Proof. unfold follows. apply _. Defined.
#[export] Instance follows_trans : Transitive follows.
Proof.
  intros a b c [?|[Eab Ha]] [?|[Ebc Hb]]; unfold follows.
  - left. lia.
  - left. by rewrite <-Ebc.
  - left. by rewrite Eab.
  - right. by rewrite Eab.
Qed.

Definition element_ok (b : Block) : Prop := Block_ok b ∧ knownType (blk_type b) = true.
#[export] Instance element_ok_dec b : Decision (element_ok b).
Proof. unfold element_ok. apply _. Defined.

Definition Packet_ok (p : Packet) : Prop :=
  Forall element_ok (p_elements p) ∧ StronglySorted follows (p_elements p).
#[export] Instance Packet_ok_dec p : Decision (Packet_ok p).
Proof. unfold Packet_ok. apply _. Defined.

Lemma checkElements_Some b els :
  Block_ok b → Forall Block_ok els →
  checkElements (Some (makeFieldInfo (blk_type b))) els = Ok tt ↔
    Forall (fun e => knownType (blk_type e) = true) els ∧ Sorted follows (b :: els).
Proof.
  revert b. induction els as [|e els IH]; intros b Hb Hok; cbn [checkElements].
  { split; [|done]. by repeat constructor. }
  apply Forall_cons in Hok as [He Hok]. specialize (IH e He Hok).
  rewrite Forall_cons. unfold knownType at 1. rewrite !makeFieldInfo_type.
  rewrite compareFieldSortOrder_spec by (exact (proj1 Hb) || exact (proj1 He)).
  assert (Sorted follows (b :: e :: els) ↔ follows b e ∧ Sorted follows (e :: els)) as ->.
  { split; [|intros []; constructor; [done|by constructor]].
    intros [Hs Hh]%Sorted_inv. by apply HdRel_inv in Hh. }
  rewrite <-negb_orb. fold (knownType (blk_type e)) in *.
  pose proof (fieldRank_inj (blk_type b) (blk_type e) (proj1 Hb) (proj1 He)) as Hinj.
  unfold follows at 1. revert IH.
  generalize (checkElements (Some (makeFieldInfo (blk_type e))) els). intros out IH.
  assert (blk_type e = blk_type b →
    isRepeatable (makeFieldInfo (blk_type e)) = isRepeatable (makeFieldInfo (blk_type b)))
    as Hrep by by intros ->.
  revert Hrep. generalize (isRepeatable (makeFieldInfo (blk_type e))) as re.
  generalize (isRepeatable (makeFieldInfo (blk_type b))) as rb. intros rb re Hrep.
  destruct (knownType (blk_type e)); cbn [negb andb]; [|split; [done|by intros [[? _] _]]].
  case_bool_decide as E; [rewrite bool_decide_false by (intros Hn; by apply Hn)
                         |rewrite bool_decide_true by done].
  - rewrite (Hrep E). rewrite E. destruct rb; cbn [negb andb]; [rewrite IH; intuition|].
    split; [done|]. intros (_ & [?|[_ ?]] & _); [lia|done].
  - cbn [negb andb]. case_bool_decide as Hlt; cbn [negb]; [rewrite IH; intuition|].
    split; [done|]. intros (_ & [?|[? _]] & _); [lia|congruence].
Qed.

Lemma checkElements_ok els :
  Forall Block_ok els →
  checkElements None els = Ok tt ↔ Forall element_ok els ∧ StronglySorted follows els.
Proof.
  intros Hok. transitivity (Forall (fun e => knownType (blk_type e) = true) els ∧ Sorted follows els).
  - destruct els as [|e els]; [split; [by repeat constructor|done]|].
    apply Forall_cons in Hok as [He Hok]. pose proof (checkElements_Some e els He Hok) as Hs.
    cbn [checkElements]. rewrite <-negb_orb, Forall_cons. unfold knownType at 1.
    destruct (_ || _); cbn [negb]; [rewrite Hs; tauto|]. split; [done|by intros [[? _] _]].
  - split; intros [Hk Hs].
    + split; [by apply Forall_and|]. by apply (Sorted_StronglySorted follows).
    + split; [by apply Forall_and in Hk as [_ ?]|by apply StronglySorted_Sorted].
Qed.

(** ** A packet as a map from TLV-TYPEs to elements *)

Definition fieldsAt (type : Z) (els : list Block) : list Block :=
  List.filter (fun b => bool_decide (blk_type b = type)) els.

Lemma fieldsAt_app type l k : fieldsAt type (l ++ k) = fieldsAt type l ++ fieldsAt type k.
Proof. apply List.filter_app. Qed.

Lemma elem_of_fieldsAt type els b : b ∈ fieldsAt type els ↔ b ∈ els ∧ blk_type b = type.
Proof. unfold fieldsAt. by rewrite !list_elem_of_In, filter_In, bool_decide_eq_true. Qed.

Lemma fieldsAt_nil type els : (∀ b, b ∈ els → blk_type b ≠ type) → fieldsAt type els = [].
Proof.
  intros Hn. destruct (fieldsAt type els) as [|b l] eqn:E; [done|]. exfalso.
  assert (b ∈ fieldsAt type els) as [Hin Ht]%elem_of_fieldsAt by (rewrite E; by left).
  by apply (Hn b).
Qed.

Lemma fieldsAt_cons type b els :
  fieldsAt type (b :: els) =
    (if bool_decide (blk_type b = type) then [b] else []) ++ fieldsAt type els.
Proof. unfold fieldsAt. cbn [List.filter]. by case_bool_decide. Qed.

Section access_lemmas.
Context {A : Type} (F : FieldDecl A).

Lemma Packet_count_fields p : Packet_count F p = length (fieldsAt (F_type F) (p_elements p)).
Proof. done. Qed.

Lemma Packet_has_fields p :
  Packet_has F p = bool_decide (fieldsAt (F_type F) (p_elements p) ≠ []).
Proof.
  unfold Packet_has. rewrite Packet_count_fields. apply bool_decide_ext.
  destruct (fieldsAt _ _); simpl; naive_solver lia.
Qed.

Lemma get_loop_fields index count els :
  get_loop F (count + index) count els =
    match fieldsAt (F_type F) els !! index with
    | Some b => F_decode F b
    | None => Fault (Throw OutOfRange)
    end.
Proof.
  revert index count. induction els as [|e els IH]; intros index count; cbn [get_loop]; [done|].
  rewrite fieldsAt_cons. unfold isField. case_bool_decide as E; [|apply IH].
  destruct index as [|index]; simpl; [by rewrite bool_decide_true by lia|].
  rewrite bool_decide_false by lia. rewrite <-(IH index (S count)). f_equal. lia.
Qed.

Lemma Packet_get_at_fields index p :
  Packet_get_at F index p =
    match fieldsAt (F_type F) (p_elements p) !! index with
    | Some b => F_decode F b
    | None => Fault (Throw OutOfRange)
    end.
Proof. apply (get_loop_fields index 0). Qed.

Lemma Packet_get_fields p :
  Packet_get F p =
    match fieldsAt (F_type F) (p_elements p) with
    | b :: _ => F_decode F b
    | [] => Fault (Throw OutOfRange)
    end.
Proof. unfold Packet_get. rewrite Packet_get_at_fields. by destruct (fieldsAt _ _). Qed.

Lemma Packet_has_get p b l :
  fieldsAt (F_type F) (p_elements p) = b :: l →
  Packet_has F p = true ∧ Packet_get F p = F_decode F b.
Proof. intros E. by rewrite Packet_has_fields, Packet_get_fields, E. Qed.

Lemma Packet_has_false p :
  Packet_has F p = false ↔ fieldsAt (F_type F) (p_elements p) = [].
Proof. rewrite Packet_has_fields, bool_decide_eq_false. destruct (fieldsAt _ _); naive_solver. Qed.

Lemma list_loop_fields output els :
  list_loop F output els =
    match mapM (F_decode F) (fieldsAt (F_type F) els) with
    | Ok vs => Ok (output ++ vs)
    | Fault f => Fault f
    end.
Proof.
  revert output. induction els as [|e els IH]; intros output; cbn [list_loop].
  { simpl. by rewrite app_nil_r. }
  rewrite fieldsAt_cons. unfold isField. case_bool_decide as E; [|apply IH].
  simpl. destruct (F_decode F e) as [v|]; simpl; [|done]. rewrite IH.
  destruct (mapM _ _) as [vs|]; simpl; [|done]. by rewrite <-app_assoc.
Qed.

Lemma fieldsAt_clear type p :
  fieldsAt type (p_elements (Packet_clear F p)) =
    if bool_decide (type = F_type F) then [] else fieldsAt type (p_elements p).
Proof.
  unfold Packet_clear, fieldsAt, isField. cbn [p_elements].
  induction (p_elements p) as [|e els IH]; cbn [List.filter]; [by case_bool_decide|].
  destruct (decide (blk_type e = F_type F)) as [E|E].
  - rewrite (bool_decide_true (blk_type e = F_type F)) by done. cbn [negb]. rewrite IH.
    case_bool_decide; [done|]. by rewrite bool_decide_false by congruence.
  - rewrite (bool_decide_false (blk_type e = F_type F)) by done. cbn [negb List.filter].
    rewrite IH. case_bool_decide; [|done]. by rewrite bool_decide_false by congruence.
Qed.
End access_lemmas.

(** ** What adding a field does *)

#[export] Instance FieldMeta_eq_dec : EqDecision FieldMeta.
Proof. unfold EqDecision, Decision. repeat decide equality. Defined.

(** The declarations [FieldInfo] knows. *)
Class Registered {A} (F : FieldDecl A) : Prop := registered : F_meta F ∈ FieldSet.

Ltac registered := try unfold Registered; apply (bool_decide_unpack _); vm_compute; exact I.
#[export] Instance FragmentField_registered : Registered FragmentField.
Proof. registered. Qed.
#[export] Instance SequenceField_registered : Registered SequenceField.
Proof. registered. Qed.
#[export] Instance FragIndexField_registered : Registered FragIndexField.
Proof. registered. Qed.
#[export] Instance FragCountField_registered : Registered FragCountField.
Proof. registered. Qed.
#[export] Instance PitTokenField_registered : Registered PitTokenField.
Proof. registered. Qed.
#[export] Instance NackField_registered : Registered NackField.
Proof. registered. Qed.
#[export] Instance IncomingFaceIdField_registered : Registered IncomingFaceIdField.
Proof. registered. Qed.
#[export] Instance NextHopFaceIdField_registered : Registered NextHopFaceIdField.
Proof. registered. Qed.
#[export] Instance CachePolicyField_registered : Registered CachePolicyField.
Proof. registered. Qed.
#[export] Instance CongestionMarkField_registered : Registered CongestionMarkField.
Proof. registered. Qed.
#[export] Instance AckField_registered : Registered AckField.
Proof. registered. Qed.
#[export] Instance TxSequenceField_registered : Registered TxSequenceField.
Proof. registered. Qed.
#[export] Instance NonDiscoveryField_registered : Registered NonDiscoveryField.
Proof. registered. Qed.
#[export] Instance PrefixAnnouncementField_registered check :
  Registered (PrefixAnnouncementField check).
Proof. registered. Qed.

Lemma FieldSet_range : Forall (fun T => 0 < fm_type T < 2 ^ 32) FieldSet.
Proof. registered. Qed.

Lemma upper_bound_spec type els :
  0 < type < 2 ^ 32 → Forall Block_ok els → StronglySorted follows els →
  ∃ before after,
    upper_bound type els = (before, after) ∧ els = before ++ after ∧
    Forall (fun b => fieldRank (blk_type b) ≤ fieldRank type) before ∧
    Forall (fun b => fieldRank type < fieldRank (blk_type b)) after.
Proof.
  intros Ht Hok Hs. induction Hs as [|e els Hs IH He]; cbn [upper_bound].
  { exists [], []. by repeat constructor. }
  apply Forall_cons in Hok as [Heok Hok]. unfold comparePos.
  rewrite compareFieldSortOrder_spec by (done || exact (proj1 Heok)).
  case_bool_decide as Hlt.
  - exists [], (e :: els). split_and!; [done..|]. constructor; [done|].
    eapply Forall_impl; [exact He|]. intros b [?|[E _]]; [lia|by rewrite <-E].
  - destruct (IH Hok) as (before & after & -> & -> & Hb & Ha).
    exists (e :: before), after. split_and!; [done..| |done]. constructor; [lia|done].
Qed.

Lemma StronglySorted_filter_bool {B} (R : relation B) (f : B → bool) l :
  StronglySorted R l → StronglySorted R (List.filter f l).
Proof.
  induction 1 as [|x l Hl IH Hx]; simpl; [constructor|]. destruct (f x); [|done].
  constructor; [done|]. rewrite Forall_forall in Hx |- *. intros y Hy. apply Hx.
  rewrite list_elem_of_In, filter_In in Hy. by apply list_elem_of_In, Hy.
Qed.

Section add.
Context {A : Type} (F : FieldDecl A) `{!Registered F}.

Lemma registered_range : 0 < F_type F < 2 ^ 32.
Proof using Registered0.
  pose proof FieldSet_range as H. rewrite Forall_forall in H. apply (H _ registered).
Qed.

Lemma registered_info :
  makeFieldInfo (F_type F) =
    mkFieldInfo (F_type F) true false (F_repeatable F) (getLocationSortOrder (F_location F)).
Proof using Registered0. exact (makeFieldInfo_registered (F_meta F) registered). Qed.

Lemma Packet_add_insert v value p :
  Packet_ok p → F_encode F v = Ok (Build_Block (F_type F) value) →
  Z.of_nat (length value) < 2 ^ 64 →
  F_repeatable F = true ∨ fieldsAt (F_type F) (p_elements p) = [] →
  ∃ before after,
    p_elements p = before ++ after ∧
    (∀ b, b ∈ after → blk_type b ≠ F_type F) ∧
    Packet_add F v p = Ok (mkPacket None (before ++ Build_Block (F_type F) value :: after)) ∧
    Packet_ok (mkPacket None (before ++ Build_Block (F_type F) value :: after)).
Proof using Registered0.
  intros [Hok Hs] Henc Hlen Hrep. pose proof registered_range as Hr.
  assert (Forall Block_ok (p_elements p)) as Hbok by by apply Forall_and in Hok as [? _].
  destruct (upper_bound_spec (F_type F) (p_elements p) Hr Hbok Hs)
    as (before & after & Hub & Hels & Hb & Ha).
  exists before, after. split; [done|]. rewrite Forall_forall in Hb, Ha.
  assert (∀ b, b ∈ after → blk_type b ≠ F_type F) as Hafter.
  { intros b Hin E. specialize (Ha b Hin). rewrite E in Ha. lia. }
  split; [done|]. split.
  - unfold Packet_add. rewrite Packet_has_fields, Henc. simpl. rewrite Hub.
    destruct Hrep as [->| ->]; [done|]. simpl. by rewrite andb_false_r.
  - rewrite Hels in Hok, Hs. apply Forall_app in Hok as [Hok1 Hok2].
    apply StronglySorted_app in Hs as (Hcross & Hs1 & Hs2). split; cbn [p_elements].
    + apply Forall_app. split; [done|]. constructor; [|done]. split; [by split|].
      unfold knownType. simpl. by rewrite registered_info.
    + apply StronglySorted_app. split_and!; [|done|].
      2:{ constructor; [done|]. apply Forall_forall. intros b Hin. left. by apply Ha. }
      intros x y Hx [->|Hy]%elem_of_cons; [|by apply Hcross].
      destruct (decide (blk_type x = F_type F)) as [E|E].
      * right. split; [done|]. rewrite E, registered_info. simpl. destruct Hrep as [?|Hnil]; [done|].
        exfalso. apply (not_elem_of_nil x). rewrite <-Hnil. apply elem_of_fieldsAt.
        split; [|done]. rewrite Hels. apply elem_of_app. by left.
      * left. simpl. specialize (Hb x Hx). rewrite Forall_forall in Hok1.
        destruct (Hok1 x Hx) as [[Hxr _] _].
        pose proof (fieldRank_inj _ _ Hxr Hr). naive_solver lia.
Qed.

(** Adding a field appends it to the occurrences of its type and leaves the
    others alone. *)
Lemma Packet_add_spec v value p :
  Packet_ok p → F_encode F v = Ok (Build_Block (F_type F) value) →
  Z.of_nat (length value) < 2 ^ 64 →
  F_repeatable F = true ∨ fieldsAt (F_type F) (p_elements p) = [] →
  ∃ p', Packet_add F v p = Ok p' ∧ Packet_ok p' ∧ p_wire p' = None ∧
    p_elements p' ≡ₚ Build_Block (F_type F) value :: p_elements p ∧
    ∀ type, fieldsAt type (p_elements p') =
      fieldsAt type (p_elements p) ++
      if bool_decide (type = F_type F) then [Build_Block (F_type F) value] else [].
Proof using Registered0.
  intros Hok Henc Hlen Hrep.
  destruct (Packet_add_insert v value p Hok Henc Hlen Hrep)
    as (before & after & Hels & Hafter & Hadd & Hok').
  eexists. split; [exact Hadd|]. split; [done|]. split; [done|]. cbn [p_elements]. split.
  { rewrite Hels. by rewrite Permutation_middle. }
  intros type. rewrite Hels, !fieldsAt_app, fieldsAt_cons. cbn [blk_type].
  rewrite <-app_assoc. f_equal. case_bool_decide as E.
  - rewrite bool_decide_true by done. subst type. by rewrite (fieldsAt_nil _ after Hafter).
  - rewrite bool_decide_false by auto. by rewrite app_nil_r.
Qed.

Lemma Packet_clear_ok p : Packet_ok p → Packet_ok (Packet_clear F p).
Proof.
  intros [Hok Hs]. split; simpl; [|by apply StronglySorted_filter_bool].
  rewrite Forall_forall in Hok |- *. intros b Hb. apply Hok.
  rewrite list_elem_of_In, filter_In in Hb. by apply list_elem_of_In, Hb.
Qed.

Lemma Packet_set_spec v value p :
  Packet_ok p → F_encode F v = Ok (Build_Block (F_type F) value) →
  Z.of_nat (length value) < 2 ^ 64 →
  ∃ p', Packet_set F v p = Ok p' ∧ Packet_ok p' ∧ p_wire p' = None ∧
    p_elements p' ≡ₚ Build_Block (F_type F) value :: p_elements (Packet_clear F p) ∧
    ∀ type, fieldsAt type (p_elements p') =
      if bool_decide (type = F_type F) then [Build_Block (F_type F) value]
      else fieldsAt type (p_elements p).
Proof using Registered0.
  intros Hok Henc Hlen.
  destruct (Packet_add_spec v value (Packet_clear F p)) as (p' & Hadd & Hok' & Hw & Hp & Hf);
    [by apply Packet_clear_ok|done|done|right; by rewrite fieldsAt_clear, bool_decide_true|].
  exists p'. split_and!; [done..|]. intros type. rewrite Hf, fieldsAt_clear.
  case_bool_decide; [done|]. by rewrite app_nil_r.
Qed.
End add.

(** [remove(index)] drops exactly the index-th occurrence. *)
Lemma remove_loop_split {A} (F : FieldDecl A) index count acc els :
  (index < length (fieldsAt (F_type F) els))%nat →
  ∃ before it after,
    els = before ++ it :: after ∧ blk_type it = F_type F ∧
    length (fieldsAt (F_type F) before) = index ∧
    remove_loop F (count + index) count acc els = Ok (mkPacket None (acc ++ before ++ after)).
Proof.
  revert index count acc. induction els as [|e els IH]; intros index count acc Hi;
    cbn [remove_loop]; [simpl in Hi; lia|].
  rewrite fieldsAt_cons in Hi. unfold isField. case_bool_decide as E.
  - destruct index as [|index].
    + exists [], e, els. rewrite bool_decide_true by lia. by split_and!.
    + simpl in Hi. rewrite bool_decide_false by lia.
      destruct (IH index (S count) (acc ++ [e])) as (before & it & after & -> & Ht & Hl & Hr); [lia|].
      exists (e :: before), it, after. split_and!; [done|done| |].
      * rewrite fieldsAt_cons, bool_decide_true by done. simpl. by rewrite Hl.
      * replace (count + S index)%nat with (S count + index)%nat by lia.
        by rewrite Hr, <-app_assoc.
  - destruct (IH index count (acc ++ [e]) Hi) as (before & it & after & -> & Ht & Hl & Hr).
    exists (e :: before), it, after. split_and!; [done|done| |].
    + by rewrite fieldsAt_cons, bool_decide_false by done.
    + by rewrite Hr, <-app_assoc.
Qed.

Lemma remove_loop_out {A} (F : FieldDecl A) index count acc els :
  (length (fieldsAt (F_type F) els) ≤ index)%nat →
  remove_loop F (count + index) count acc els = Fault (Throw OutOfRange).
Proof.
  revert index count acc. induction els as [|e els IH]; intros index count acc Hi;
    cbn [remove_loop]; [done|].
  rewrite fieldsAt_cons in Hi. unfold isField. case_bool_decide as E; [|by apply IH].
  simpl in Hi. destruct index as [|index]; [lia|]. rewrite bool_decide_false by lia.
  replace (count + S index)%nat with (S count + index)%nat by lia. apply IH. lia.
Qed.

Lemma Packet_remove_ok {A} (F : FieldDecl A) index p p' :
  Packet_ok p → Packet_remove F index p = Ok p' → Packet_ok p'.
Proof.
  intros [Hok Hs] Hr. unfold Packet_remove in Hr.
  destruct (decide (index < length (fieldsAt (F_type F) (p_elements p)))%nat) as [Hi|Hi].
  - destruct (remove_loop_split F index 0 [] _ Hi) as (before & it & after & Hels & _ & _ & Hr').
    simpl in Hr'. rewrite Hr' in Hr. injection Hr as <-. rewrite Hels in Hok, Hs.
    apply Forall_app in Hok as [Hok1 [_ Hok2]%Forall_cons].
    apply StronglySorted_app in Hs as (Hc & Hs1 & [Hs2 _]%StronglySorted_inv).
    split; simpl; [by apply Forall_app|]. apply StronglySorted_app. split_and!; [|done..].
    intros x y Hx Hy. apply Hc; [done|]. by right.
  - pose proof (remove_loop_out F index 0 [] (p_elements p) ltac:(lia)) as Hr'. simpl in Hr'.
    congruence.
Qed.

(** ** Encoding and decoding of field values *)

(** Every value of the field that is [valid] has an encoding, and decoding the
    encoding gives it back. *)
Class FieldCodec {A} (F : FieldDecl A) (valid : A → Prop) : Prop :=
  field_codec v : valid v →
    ∃ value, F_encode F v = Ok (Build_Block (F_type F) value) ∧
      Z.of_nat (length value) < 2 ^ 64 ∧
      F_decode F (Build_Block (F_type F) value) = Ok v.

Lemma F_decode_same {A} (F : FieldDecl A) value :
  F_decode F (Build_Block (F_type F) value) = F_decodeHelper F (Build_Block (F_type F) value).
Proof. unfold F_decode. simpl. rewrite bool_decide_false; [done|]. intros H. by apply H. Qed.

#[export] Instance field_uint64_codec type rep : FieldCodec (field_uint64 type rep) is_u64.
Proof.
  intros v Hv. exists (be_bytes 8 v). split; [done|]. rewrite length_be_bytes. split; [done|].
  rewrite F_decode_same. cbn [F_decodeHelper field_uint64]. unfold decode_uint64. cbn [blk_value].
  rewrite length_be_bytes, bool_decide_false by auto. by rewrite be_number_be_bytes.
Qed.

#[export] Instance field_NonNegativeInteger_codec type :
  FieldCodec (field_NonNegativeInteger type) is_u64.
Proof.
  intros v Hv. exists (prependNonNegativeInteger v []). split; [done|].
  rewrite length_prependNonNegativeInteger.
  split; [pose proof (sizeOfNonNegativeInteger_le v); lia|].
  rewrite F_decode_same. by apply (readNonNegativeInteger_block_written type).
Qed.

Definition range_ok (l : list Z) : Prop := l ≠ [] ∧ Z.of_nat (length l) < 2 ^ 64.
Lemma decode_range_ok type l : l ≠ [] → decode_range (Build_Block type l) = Ok l.
Proof. intros. unfold decode_range. simpl. by rewrite bool_decide_false by (by destruct l). Qed.

#[export] Instance FragmentField_codec : FieldCodec FragmentField range_ok.
Proof.
  intros v [Hv Hl]. exists v. split_and!; [done..|].
  rewrite F_decode_same. by apply decode_range_ok.
Qed.
#[export] Instance PitTokenField_codec : FieldCodec PitTokenField range_ok.
Proof.
  intros v [Hv Hl]. exists v. split_and!; [done..|].
  rewrite F_decode_same. by apply decode_range_ok.
Qed.
#[export] Instance NonDiscoveryField_codec : FieldCodec NonDiscoveryField (fun _ => True).
Proof. intros [] _. by exists []. Qed.

(** A header with one NonNegativeInteger in it. *)
Lemma parse_nested outer inner n :
  0 < inner < 2 ^ 32 →
  let b := Build_Block inner (prependNonNegativeInteger n []) in
  Wire_parse (Wire_ofBlock (Build_Block outer (Block_encode b [])) []) = Ok [b] ∧
  (length (Block_encode b []) ≤ 26)%nat.
Proof.
  intros Hi b. pose proof (length_prependNonNegativeInteger n) as Hl.
  pose proof (sizeOfNonNegativeInteger_le n). split.
  - unfold Wire_parse. cbn [w_elements w_value Wire_ofBlock blk_value].
    pose proof (Block_parse_encode [b]) as Hp. simpl in Hp. rewrite Hp; [done|].
    constructor; [|done]. split; simpl; [done|]. rewrite Hl. lia.
  - rewrite Block_encode_app, !length_app, !length_varNumber. simpl. rewrite Hl.
    unfold sizeOfVarNumber. repeat case_bool_decide; lia.
Qed.

Definition is_int_enum (z : Z) : Prop := 0 ≤ z < 2 ^ 31.
Lemma readNonNegativeIntegerAs_written type n :
  is_int_enum n →
  readNonNegativeIntegerAs_int (Build_Block type (prependNonNegativeInteger (u64 n) [])) = Ok n.
Proof.
  unfold is_int_enum. intros Hn. unfold readNonNegativeIntegerAs_int.
  rewrite u64_small by lia. rewrite readNonNegativeInteger_block_written by (unfold is_u64; lia).
  simpl. by rewrite bool_decide_false by lia.
Qed.

#[export] Instance NackField_codec : FieldCodec NackField is_int_enum.
Proof.
  intros v Hv. destruct (parse_nested lp_Nack lp_NackReason (u64 v)) as [Hp Hl]; [done|].
  eexists. split; [reflexivity|]. split; [lia|]. rewrite F_decode_same.
  cbn [F_decodeHelper NackField]. unfold NackHeader_wireDecode. cbn [F_type NackField].
  rewrite Hp. cbn -[readNonNegativeIntegerAs_int]. by apply readNonNegativeIntegerAs_written.
Qed.

#[export] Instance CachePolicyField_codec :
  FieldCodec CachePolicyField (fun v => v = CachePolicyType_code CachePolicy_NO_CACHE).
Proof.
  intros v ->. eexists. split; [reflexivity|]. split; vm_compute; reflexivity.
Qed.

(** ** Decoded packets *)

Lemma Packet_new_ok : Packet_ok Packet_new.
Proof. split; constructor. Qed.

Lemma Packet_wireDecode_bare w :
  w_type w = tlv_Interest ∨ w_type w = tlv_Data → Z.of_nat (length (w_bytes w)) < 2 ^ 64 →
  Packet_wireDecode w = Ok (mkPacket None [Build_Block lp_Fragment (w_bytes w)]).
Proof. intros Hw Hl. unfold Packet_wireDecode. by rewrite bool_decide_true. Qed.

Lemma checkElements_throws prev els f : checkElements prev els = Fault f → f = Throw TlvError.
Proof.
  revert prev. induction els as [|e els IH]; intros prev; cbn [checkElements]; [done|].
  destruct (_ && _); [congruence|]. destruct prev; [|apply IH].
  destruct (_ && _); [congruence|]. destruct (_ && _); [congruence|]. apply IH.
Qed.

Lemma Packet_wireDecode_ok w p : Wire_ok w → Packet_wireDecode w = Ok p → Packet_ok p.
Proof.
  intros Hw. destruct (decide (w_type w = tlv_Interest ∨ w_type w = tlv_Data)) as [Ht|Ht].
  - rewrite Packet_wireDecode_bare by (done || apply Hw). intros [= <-].
    split; repeat constructor; simpl; try done; apply Hw.
  - unfold Packet_wireDecode. rewrite bool_decide_false by done. case_bool_decide; [done|].
    destruct (Wire_parse w) as [els|] eqn:Ep; simpl; [|done].
    destruct (checkElements None els) as [[]|] eqn:Ec; simpl; [|done]. intros [= <-].
    apply checkElements_ok in Ec; [exact Ec|]. by eapply Wire_parse_ok.
Qed.

(** The values of the fields are bytes. *)
Definition Packet_bytes (p : Packet) : Prop :=
  Forall (fun b => bytes_ok (blk_value b)) (p_elements p).
#[export] Instance Packet_bytes_dec p : Decision (Packet_bytes p).
Proof. unfold Packet_bytes. apply _. Defined.

Lemma Packet_wireDecode_bytes w p :
  bytes_ok (w_value w) → bytes_ok (w_bytes w) → w_elements w = [] →
  Packet_wireDecode w = Ok p → Packet_bytes p.
Proof.
  intros Hv Hb He. unfold Packet_wireDecode. case_bool_decide.
  - intros [= <-]. by repeat constructor.
  - case_bool_decide; [done|]. destruct (Wire_parse w) as [els|] eqn:Ep; simpl; [|done].
    destruct (checkElements None els) as [[]|]; simpl; [|done]. intros [= <-].
    by eapply Wire_parse_bytes.
Qed.

(** The decoder only ever throws [tlv::Error]. *)
Lemma Packet_wireDecode_throws w f : Packet_wireDecode w = Fault f → f = Throw TlvError.
Proof.
  unfold Packet_wireDecode. case_bool_decide; [done|]. case_bool_decide; [congruence|].
  destruct (Wire_parse w) as [els|] eqn:Ep; simpl.
  - destruct (checkElements None els) as [[]|] eqn:Ec; simpl; [done|]. intros [= <-].
    by eapply checkElements_throws.
  - intros [= <-]. by eapply Wire_parse_throws.
Qed.

(** The packets the code can hold: new or decoded, then changed field by
    field. *)
Inductive reachable_packet : Packet → Prop :=
| reach_new : reachable_packet Packet_new
| reach_decode w p : Wire_ok w → Packet_wireDecode w = Ok p → reachable_packet p
| reach_add {A} (F : FieldDecl A) valid `{!Registered F, !FieldCodec F valid} v p p' :
    reachable_packet p → valid v → Packet_add F v p = Ok p' → reachable_packet p'
| reach_set {A} (F : FieldDecl A) valid `{!Registered F, !FieldCodec F valid} v p p' :
    reachable_packet p → valid v → Packet_set F v p = Ok p' → reachable_packet p'
| reach_clear {A} (F : FieldDecl A) p : reachable_packet p → reachable_packet (Packet_clear F p)
| reach_remove {A} (F : FieldDecl A) index p p' :
    reachable_packet p → Packet_remove F index p = Ok p' → reachable_packet p'.

Lemma Packet_add_ok {A} (F : FieldDecl A) valid `{!Registered F, !FieldCodec F valid} v p p' :
  Packet_ok p → valid v → Packet_add F v p = Ok p' → Packet_ok p'.
Proof.
  intros Hp Hv Hadd. destruct (field_codec v Hv) as (value & Henc & Hl & _).
  destruct (decide (F_repeatable F = true ∨ fieldsAt (F_type F) (p_elements p) = [])) as [Hr|Hr].
  - destruct (Packet_add_spec F v value p Hp Henc Hl Hr) as (q & Hq & Hok & _). congruence.
  - exfalso. revert Hadd. unfold Packet_add. rewrite Packet_has_fields.
    rewrite (bool_decide_true (fieldsAt _ _ ≠ [])) by tauto.
    destruct (F_repeatable F); [tauto|done].
Qed.

(** The bytes of exactly one Interest or Data. *)
Definition isNetPacket (buf : list Z) : bool :=
  match Wire_ofSpan buf with
  | Ok w => bool_decide (w_bytes w = buf ∧ (w_type w = tlv_Interest ∨ w_type w = tlv_Data))
  | Fault _ => false
  end.

Lemma isNetPacket_spec buf :
  isNetPacket buf = true ↔
  ∃ w, Wire_ofSpan buf = Ok w ∧ w_bytes w = buf ∧ (w_type w = tlv_Interest ∨ w_type w = tlv_Data).
Proof.
  unfold isNetPacket. destruct (Wire_ofSpan buf) as [w|f]; [rewrite bool_decide_eq_true|].
  - split; [eauto|]. by intros (w' & [= <-] & ?).
  - split; [done|]. by intros (? & ? & _).
Qed.

Lemma Packet_wireEncode_bare wire buf :
  isNetPacket buf = true → bytes_ok buf →
  ∃ w, Wire_ofSpan buf = Ok w ∧ w_bytes w = buf ∧ (w_type w = tlv_Interest ∨ w_type w = tlv_Data) ∧
    Packet_wireEncode (mkPacket wire [Build_Block lp_Fragment buf]) = Ok w.
Proof.
  intros (w & Hw & Hb & Ht)%isNetPacket_spec Hok. exists w. split_and!; [done..|].
  unfold Packet_wireEncode. cbn [p_elements blk_type]. rewrite bool_decide_true by done.
  unfold Wire_parse. cbn [w_elements w_value Wire_ofBlock blk_value].
  by rewrite (Block_parse_single buf w).
Qed.

(** Packets with a header field, or without a Fragment. *)
Definition isBare (els : list Block) : bool :=
  match els with [f] => bool_decide (blk_type f = lp_Fragment) | _ => false end.

Lemma Packet_wireEncode_lp p :
  isBare (p_elements p) = false → Packet_wireEncode p = Ok (Packet_encodeWire p).
Proof.
  unfold isBare, Packet_wireEncode. destruct (p_elements p) as [|f [|??]]; [done| |done].
  by intros ->.
Qed.

(** The cached wire of a packet, if there is one, is the element that it was
    decoded from. *)
Definition cachedWire_ok (p : Packet) : Prop :=
  ∀ w, p_wire p = Some w → ∃ w0, Wire_closed w0 ∧ w_bytes w0 = w_bytes w ∧ Packet_wireDecode w0 = Ok p.
Lemma cachedWire_none p : p_wire p = None → cachedWire_ok p.
Proof. intros E w. by rewrite E. Qed.

(** Decoding establishes it, and a new field drops the wire. *)
Lemma Packet_add_noWire {A} (F : FieldDecl A) v p p' : Packet_add F v p = Ok p' → p_wire p' = None.
Proof.
  unfold Packet_add. destruct (_ && _); [done|]. destruct (F_encode F v); simpl; [|done].
  destruct (upper_bound _ _). by intros [= <-].
Qed.
Lemma Packet_wireDecode_cached w p : Wire_closed w → Packet_wireDecode w = Ok p → cachedWire_ok p.
Proof.
  intros Hc Hd w' Hw'. exists w. split_and!; [done| |done]. revert Hd Hw'. unfold Packet_wireDecode.
  case_bool_decide; [|case_bool_decide; [done|]].
  - intros Ha%Packet_add_noWire. by rewrite Ha.
  - destruct (Wire_parse w) as [els|]; simpl; [|done]. destruct (checkElements None els); simpl; [|done].
    by intros [= <-] [= <-].
Qed.
(** Encoding and decoding again, through the bytes. *)
Lemma Packet_roundtrip p rest :
  Packet_ok p → cachedWire_ok p →
  Z.of_nat (length (Block_encodeElements (p_elements p) [])) < 2 ^ 63 →
  (∀ buf, p_elements p = [Build_Block lp_Fragment buf] → bytes_ok buf ∧ isNetPacket buf = true) →
  ∃ w w' p', Packet_wireEncode p = Ok w ∧ Wire_ofSpan (w_bytes w ++ rest) = Ok w' ∧
    Packet_wireDecode w' = Ok p' ∧ p_elements p' = p_elements p.
Proof.
  intros [Hok Hs] Hw Hlen Hbare. destruct (isBare (p_elements p)) eqn:Hb.
  - destruct p as [wire els]. cbn [p_elements p_wire] in *.
    destruct els as [|[t buf] [|??]]; try done. apply bool_decide_eq_true in Hb. simpl in Hb.
    subst t. destruct (Hbare buf eq_refl) as (Hbok & Hnet).
    destruct (Packet_wireEncode_bare wire buf Hnet Hbok) as (w & Hspan & Hwb & Ht & Henc).
    exists w, w. eexists. split_and!; [exact Henc|apply (Wire_ofSpan_closed _ _ Hbok Hspan)| |].
    + apply Packet_wireDecode_bare; [done|]. rewrite Hwb. apply Forall_inv in Hok.
      apply Hok.
    + by rewrite Hwb.
  - rewrite Packet_wireEncode_lp by done. unfold Packet_encodeWire. destruct (p_wire p) as [w|] eqn:Ew.
    { destruct (Hw w Ew) as (w0 & [Hspan _] & Hb0 & Hd). exists w, w0, p. by rewrite <-Hb0. }
    set (blk := Build_Block lp_LpPacket (Block_encodeElements (p_elements p) [])).
    assert (Block_ok blk) as Hblk by (split; simpl; [done|lia]).
    exists (Wire_ofBlock blk (p_elements p)), (Wire_ofBlock blk []). eexists.
    split; [done|]. split.
    { cbn [w_bytes Wire_ofBlock]. rewrite <-(Wire_ofSpan_encode blk rest Hblk). f_equal.
      by rewrite !Block_encode_app, <-!app_assoc. }
    unfold Packet_wireDecode. cbn [w_type Wire_ofBlock blk_type blk].
    rewrite !bool_decide_false by (vm_compute; naive_solver).
    unfold Wire_parse. cbn [w_elements w_value Wire_ofBlock blk_value blk].
    assert (Forall Block_ok (p_elements p)) as Hbok by by apply Forall_and in Hok as [? _].
    rewrite Block_parse_encode by done. simpl.
    rewrite (proj2 (checkElements_ok (p_elements p) Hbok)) by done. done.
Qed.

(** ** Properties *)

(** C32. Every link-layer packet the code can hold is well-formed: a packet that
    is new or was decoded from any bytes, and then changed by any sequence of
    field additions, replacements and removals, keeps its elements in the
    order the decoder demands (header fields by TLV-TYPE, the Fragment last),
    repeats only repeatable fields, and contains no field that a receiver
    would have to reject. *)
Theorem packet_fields_well_ordered p : reachable_packet p → Packet_ok p.
Proof.
  induction 1 as [|w p Hw Hd|A F valid ?? v p p' _ IH Hv Hadd|A F valid ?? v p p' _ IH Hv Hset
    |A F p _ IH|A F index p p' _ IH Hr].
  - apply Packet_new_ok.
  - by eapply Packet_wireDecode_ok.
  - by apply (Packet_add_ok F valid v p).
  - apply (Packet_add_ok F valid v (Packet_clear F p)); [by apply Packet_clear_ok|done|exact Hset].
  - by apply Packet_clear_ok.
  - by eapply Packet_remove_ok.
Qed.
Lemma packet_fields_well_ordered_witness :
  Packet_ok (mkPacket None [Build_Block lp_Sequence [0; 0; 0; 0; 0; 0; 0; 7];
                            Build_Block lp_PitToken [1; 2]; Build_Block lp_Fragment [9]]).
Proof.
  apply packet_fields_well_ordered.
  apply (reach_add SequenceField is_u64 7
           (mkPacket None [Build_Block lp_PitToken [1; 2]; Build_Block lp_Fragment [9]]));
    [|unfold is_u64; lia|reflexivity].
  apply (reach_set PitTokenField range_ok [1; 2]
           (mkPacket None [Build_Block lp_Fragment [9]])); [|by vm_compute|reflexivity].
  by apply (reach_add FragmentField range_ok [9] Packet_new); [constructor|vm_compute|].
Defined.

(** C33. Link-layer wire round trip.  Take a well-formed packet of less than 2^63
    bytes whose cached wire, if it has one, is the element that it was decoded
    from; if it has nothing but a Fragment, let that be exactly one Interest
    or Data.  (A lone Fragment that is anything else is outside: [wireEncode]
    parses it and takes the first element, which throws or, when it is empty, is undefined.)  The
    packet is encoded without a fault, and a receiver that cuts the element
    out of the byte stream, whatever follows in it, and decodes it gets the same fields in the
    same order, whether it went out as a cached or a new LpPacket or as the
    bare network packet. *)
Theorem packet_wire_roundtrip p rest :
  Packet_ok p → cachedWire_ok p →
  Z.of_nat (length (Block_encodeElements (p_elements p) [])) < 2 ^ 63 →
  (∀ buf, p_elements p = [Build_Block lp_Fragment buf] → bytes_ok buf ∧ isNetPacket buf = true) →
  ∃ w w' p', Packet_wireEncode p = Ok w ∧ Wire_ofSpan (w_bytes w ++ rest) = Ok w' ∧
    Packet_wireDecode w' = Ok p' ∧ p_elements p' = p_elements p.
Proof.
  apply Packet_roundtrip.
Qed.
Lemma packet_wire_roundtrip_witness :
  ∃ w w' p',
    Packet_wireEncode (mkPacket None [Build_Block lp_PitToken [1; 2];
                                      Build_Block lp_Fragment [5; 1; 7]]) = Ok w ∧
    Wire_ofSpan (w_bytes w ++ [42]) = Ok w' ∧ Packet_wireDecode w' = Ok p' ∧
    p_elements p' = [Build_Block lp_PitToken [1; 2]; Build_Block lp_Fragment [5; 1; 7]].
Proof.
  apply (packet_wire_roundtrip (mkPacket None [Build_Block lp_PitToken [1; 2];
                                      Build_Block lp_Fragment [5; 1; 7]]) [42]).
  - apply (bool_decide_unpack _). vm_compute. exact I.
  - by intros w.
  - vm_compute. reflexivity.
  - intros buf E. discriminate E.
Defined.
