(* ===== verification/LpFragmenter.v ===== *)
(** * NDNLPv2 fragmentation ([NFD/daemon/face/lp-fragmenter.cpp])

    [fragmentPacket] as the code has it, with its assertions, and the proof
    that it never fails them: every fragment fits the MTU even after the
    sequence number is added, and the fragments carry exactly the bytes of the
    network packet.  Sizes are [size_t]s that stay far below [2^64]; the
    subtractions are guarded by the comparisons before them. *)

From S2P Require Import Prelude Tlv Encoding Packet LpPacket.
Local Open Scope Z_scope.

(** ** The fragmenter *)

Definition MAX_SINGLE_FRAG_OVERHEAD : nat := (1 + 9 + (1 + 1 + 8) + (1 + 9))%nat.
Definition MAX_FRAG_OVERHEAD : nat :=
  (1 + 9 + (1 + 1 + 8) + (1 + 1 + 8) + (1 + 1 + 8) + (1 + 9))%nat.

(** [LpFragmenter::Options]. *)
Record FragmenterOptions := mkFragmenterOptions { fo_nMaxFragments : nat }.
Definition FragmenterOptions_default : FragmenterOptions := mkFragmenterOptions 400.

Definition assertO (b : bool) : outcome unit := if b then Ok tt else Fault AssertFailed.

(** [Block::size] of a sub-element the code has written. *)
Definition Block_size (b : Block) : nat := length (Block_encode b []).

(** The loop that sums the sizes of the other NDNLPv2 headers. *)
Definition firstHeaderSize (packetWire : Wire) : nat :=
  if bool_decide (w_type packetWire = lp_LpPacket) then
    foldl (fun sum element =>
             if bool_decide (blk_type element ≠ lp_Fragment) then (sum + Block_size element)%nat
             else sum) 0%nat (w_elements packetWire)
  else 0%nat.

(** The [while] loop over the fragments: [fragBegin] and [fragEnd] are offsets
    into the network packet.  Each round moves [fragBegin] forward, so the
    number of bytes is enough fuel. *)
Fixpoint populateFragments (fuel : nat) (netPkt : list Z) (mtu payloadSize fragCount : nat)
    (frags : list Packet) (fragIndex fragBegin fragEnd : nat) : outcome (list Packet * nat) :=
  if bool_decide (length netPkt ≤ fragBegin)%nat then Ok (frags, fragIndex)
  else
    match fuel with
    | O => Fault Diverges
    | S fuel' =>
        match frags !! fragIndex with
        | None => Fault UndefinedBehaviour
        | Some frag =>
            frag ← Packet_add FragIndexField (Z.of_nat fragIndex) frag;
            frag ← Packet_add FragCountField (Z.of_nat fragCount) frag;
            frag ← Packet_set FragmentField (take (fragEnd - fragBegin) (drop fragBegin netPkt)) frag;
            wire ← Packet_wireEncode frag;
            _ ← assertO (bool_decide (Wire_size wire ≤ mtu)%nat);
            populateFragments fuel' netPkt mtu payloadSize fragCount
              (<[fragIndex := frag]> frags) (S fragIndex) fragEnd
              (Nat.min (length netPkt) (fragEnd + payloadSize))
        end
    end.

(** [LpFragmenter::fragmentPacket]: whether it succeeded, and the fragments. *)
Definition fragmentPacket (m_options : FragmenterOptions) (packet : Packet) (mtu : nat)
  : outcome (bool * list Packet) :=
  _ ← assertO (Packet_has FragmentField packet);
  _ ← assertO (negb (Packet_has FragIndexField packet));
  _ ← assertO (negb (Packet_has FragCountField packet));
  packetWire ← Packet_wireEncode packet;
  if bool_decide (MAX_SINGLE_FRAG_OVERHEAD + Wire_size packetWire ≤ mtu)%nat
  then Ok (true, [packet])
  else
    netPkt ← Packet_get FragmentField packet;
    let netPktSize := length netPkt in
    let firstHeaderSize := firstHeaderSize packetWire in
    if bool_decide (mtu < MAX_FRAG_OVERHEAD + firstHeaderSize + 1)%nat then Ok (false, [])
    else
      let firstPayloadSize := Nat.min netPktSize (mtu - firstHeaderSize - MAX_FRAG_OVERHEAD) in
      let payloadSize := (mtu - MAX_FRAG_OVERHEAD)%nat in
      let fragCount :=
        (1 + (netPktSize - firstPayloadSize) / payloadSize +
         (if bool_decide ((netPktSize - firstPayloadSize) mod payloadSize ≠ 0) then 1 else 0))%nat in
      if bool_decide (fo_nMaxFragments m_options < fragCount)%nat then Ok (false, [])
      else
        '(frags, fragIndex) ← populateFragments netPktSize netPkt mtu payloadSize fragCount
                                (packet :: replicate (fragCount - 1) Packet_new) 0 0 firstPayloadSize;
        _ ← assertO (bool_decide (fragIndex = fragCount));
        Ok (true, frags).

(** ** Sizes *)

Definition elementsSize (els : list Block) : nat := sum_list_with Block_size els.

Lemma Block_size_eq b :
  Block_size b = (sizeOfVarNumber (blk_type b) +
                  sizeOfVarNumber (Z.of_nat (length (blk_value b))) + length (blk_value b))%nat.
Proof.
  unfold Block_size. rewrite Block_encode_app, !length_app, !length_varNumber. simpl. lia.
Qed.

Lemma sizeOfVarNumber_le n : (1 ≤ sizeOfVarNumber n ≤ 9)%nat.
Proof. var_cases; lia. Qed.
Lemma sizeOfVarNumber_small n : n < 253 → sizeOfVarNumber n = 1%nat.
Proof. intros. unfold sizeOfVarNumber. by rewrite bool_decide_true. Qed.

Lemma elementsSize_cons b l : elementsSize (b :: l) = (Block_size b + elementsSize l)%nat.
Proof. done. Qed.
Lemma elementsSize_app l k : elementsSize (l ++ k) = (elementsSize l + elementsSize k)%nat.
Proof. apply sum_list_with_app. Qed.
#[export] Instance elementsSize_perm : Proper ((≡ₚ) ==> eq) elementsSize.
Proof. induction 1; rewrite ?elementsSize_cons in *; lia. Qed.

Lemma length_Block_encodeElements els : length (Block_encodeElements els []) = elementsSize els.
Proof.
  induction els as [|b els IH]; [done|]. rewrite elementsSize_cons, Block_size_eq, <-IH.
  cbn [Block_encodeElements foldr]. rewrite Block_encode_app.
  rewrite !length_app, !length_varNumber. fold (Block_encodeElements els []). lia.
Qed.

(** An LpPacket costs at most ten bytes over its elements. *)
Lemma LpPacket_size els :
  (length (Block_encode (Build_Block lp_LpPacket (Block_encodeElements els [])) [])
    ≤ 10 + elementsSize els)%nat.
Proof.
  fold (Block_size (Build_Block lp_LpPacket (Block_encodeElements els []))).
  rewrite Block_size_eq. cbn [blk_type blk_value]. rewrite length_Block_encodeElements.
  rewrite (sizeOfVarNumber_small lp_LpPacket) by done.
  pose proof (sizeOfVarNumber_le (Z.of_nat (elementsSize els))). lia.
Qed.

Lemma Packet_encodeWire_size p :
  p_wire p = None → (Wire_size (Packet_encodeWire p) ≤ 10 + elementsSize (p_elements p))%nat.
Proof. intros Hw. unfold Packet_encodeWire. rewrite Hw. apply LpPacket_size. Qed.

Lemma Block_size_NonNegativeInteger type n :
  0 < type < 253 →
  (Block_size (Build_Block type (prependNonNegativeInteger n [])) ≤ 10)%nat.
Proof.
  intros Ht. rewrite Block_size_eq. cbn [blk_type blk_value].
  rewrite length_prependNonNegativeInteger, (sizeOfVarNumber_small type) by lia.
  pose proof (sizeOfNonNegativeInteger_le n). rewrite sizeOfVarNumber_small by lia. lia.
Qed.

Lemma Block_size_uint64 type n :
  0 < type < 253 → Block_size (Build_Block type (be_bytes 8 n)) = 10%nat.
Proof.
  intros Ht. rewrite Block_size_eq. cbn [blk_type blk_value].
  by rewrite length_be_bytes, (sizeOfVarNumber_small type) by lia.
Qed.

Lemma Block_size_Fragment l : (length l < Block_size (Build_Block lp_Fragment l) ≤ 10 + length l)%nat.
Proof.
  rewrite Block_size_eq. cbn [blk_type blk_value].
  pose proof (sizeOfVarNumber_le (Z.of_nat (length l))).
  rewrite (sizeOfVarNumber_small lp_Fragment) by done. lia.
Qed.

(** ** One fragment *)

#[export] Instance filter_bool_perm {A} (f : A → bool) :
  Proper ((≡ₚ) ==> (≡ₚ)) (List.filter f).
Proof.
  induction 1 as [|x l k _ IH|x y l|l1 l2 l3 _ IH1 _ IH2]; simpl; [done| | |by etrans].
  - destruct (f x); [by constructor|done].
  - destruct (f x), (f y); first [done|by apply perm_swap].
Qed.

(** The header fields of a packet: all but its Fragment. *)
Definition headers (p : Packet) : list Block := p_elements (Packet_clear FragmentField p).

Lemma headers_perm p :
  p_elements p ≡ₚ fieldsAt lp_Fragment (p_elements p) ++ headers p.
Proof.
  unfold headers, Packet_clear, fieldsAt, isField. simpl.
  induction (p_elements p) as [|e els IH]; simpl; [done|].
  case_bool_decide; simpl; [by constructor|]. by rewrite <-Permutation_middle, <-IH.
Qed.

(** A field that does not repeat occurs at most once in a well-formed packet. *)
Lemma fieldsAt_unique {A} (F : FieldDecl A) `{!Registered F} p :
  Packet_ok p → F_repeatable F = false →
  fieldsAt (F_type F) (p_elements p) = [] ∨ ∃ b, fieldsAt (F_type F) (p_elements p) = [b].
Proof.
  intros [_ Hs] Hr. pose proof (StronglySorted_filter_bool follows
    (fun b => bool_decide (blk_type b = F_type F)) _ Hs) as Hs'.
  fold (fieldsAt (F_type F) (p_elements p)) in Hs'.
  destruct (fieldsAt (F_type F) (p_elements p)) as [|a [|b l]] eqn:E; [by left|by right; eexists|].
  exfalso. assert (blk_type a = F_type F ∧ blk_type b = F_type F) as [Ha Hb].
  { split; eapply (proj1 (elem_of_fieldsAt _ (p_elements p) _)); rewrite E; set_solver. }
  apply StronglySorted_inv in Hs' as [_ [Hf _]%Forall_cons]. destruct Hf as [Hlt|[_ Hrep]].
  - rewrite Ha, Hb in Hlt. lia.
  - rewrite Ha, (registered_info F) in Hrep. simpl in Hrep. congruence.
Qed.

Definition fragIndexBlock (i : nat) : Block :=
  Build_Block lp_FragIndex (prependNonNegativeInteger (Z.of_nat i) []).
Definition fragCountBlock (n : nat) : Block :=
  Build_Block lp_FragCount (prependNonNegativeInteger (Z.of_nat n) []).
Definition fragmentBlock (payload : list Z) : Block := Build_Block lp_Fragment payload.

(** [q] is the fragment numbered [i] of [n] with this payload, and carries the
    header fields of [base]. *)
Record isFragment (base : Packet) (i n : nat) (payload : list Z) (q : Packet) : Prop := {
  fragment_ok : Packet_ok q;
  fragment_wire : p_wire q = None;
  fragment_perm :
    p_elements q ≡ₚ fragmentBlock payload :: fragCountBlock n :: fragIndexBlock i :: headers base;
  fragment_fields type :
    fieldsAt type (p_elements q) =
      if bool_decide (type = lp_Fragment) then [fragmentBlock payload]
      else fieldsAt type (p_elements base) ++
           (if bool_decide (type = lp_FragIndex) then [fragIndexBlock i] else []) ++
           (if bool_decide (type = lp_FragCount) then [fragCountBlock n] else [])
}.

Lemma make_fragment base i n payload :
  Packet_ok base →
  fieldsAt lp_FragIndex (p_elements base) = [] → fieldsAt lp_FragCount (p_elements base) = [] →
  Z.of_nat (length payload) < 2 ^ 64 →
  ∃ q1 q2 q, Packet_add FragIndexField (Z.of_nat i) base = Ok q1 ∧
    Packet_add FragCountField (Z.of_nat n) q1 = Ok q2 ∧
    Packet_set FragmentField payload q2 = Ok q ∧ isFragment base i n payload q.
Proof.
  intros Hok Hni Hnc Hl.
  assert (∀ k : nat, Z.of_nat (length (prependNonNegativeInteger (Z.of_nat k) [])) < 2 ^ 64) as Hk.
  { intros k. rewrite length_prependNonNegativeInteger.
    pose proof (sizeOfNonNegativeInteger_le (Z.of_nat k)). lia. }
  destruct (Packet_add_spec FragIndexField (Z.of_nat i) _ base Hok eq_refl (Hk i) (or_intror Hni))
    as (q1 & Ha1 & Hok1 & _ & Hp1 & Hf1).
  destruct (Packet_add_spec FragCountField (Z.of_nat n) _ q1 Hok1 eq_refl (Hk n))
    as (q2 & Ha2 & Hok2 & _ & Hp2 & Hf2).
  { right. rewrite Hf1. simpl in *. by rewrite Hnc. }
  destruct (Packet_set_spec FragmentField payload payload q2 Hok2 eq_refl Hl)
    as (q & Ha & Hq & Hw & Hp & Hf).
  exists q1, q2, q. split_and!; [done..|]. split; [done|done| |].
  - rewrite Hp. apply perm_skip. unfold Packet_clear, headers, Packet_clear. cbn [p_elements].
    by rewrite Hp2, Hp1.
  - intros type. rewrite Hf, Hf2, Hf1. simpl. case_bool_decide; [done|]. by rewrite app_assoc.
Qed.

Section isFragment.
Context {base q : Packet} {i n : nat} {payload : list Z} (Hq : isFragment base i n payload q).

Lemma fragment_size :
  (elementsSize (p_elements q) ≤ 30 + length payload + elementsSize (headers base))%nat.
Proof using Hq.
  rewrite (fragment_perm _ _ _ _ _ Hq), !elementsSize_cons. unfold fragmentBlock.
  pose proof (Block_size_Fragment payload).
  pose proof (Block_size_NonNegativeInteger lp_FragIndex (Z.of_nat i) ltac:(done)).
  pose proof (Block_size_NonNegativeInteger lp_FragCount (Z.of_nat n) ltac:(done)).
  unfold fragIndexBlock, fragCountBlock. lia.
Qed.

Lemma fragment_not_bare : isBare (p_elements q) = false.
Proof using Hq.
  pose proof (Permutation_length (fragment_perm _ _ _ _ _ Hq)) as Hl. simpl in Hl.
  destruct (p_elements q) as [|? [|??]]; simpl in *; [done|lia|done].
Qed.

Lemma fragment_encode :
  ∃ w, Packet_wireEncode q = Ok w ∧
    (Wire_size w ≤ 40 + length payload + elementsSize (headers base))%nat.
Proof using Hq.
  rewrite Packet_wireEncode_lp by apply fragment_not_bare. eexists. split; [done|].
  pose proof (Packet_encodeWire_size q (fragment_wire _ _ _ _ _ Hq)). pose proof fragment_size. lia.
Qed.
End isFragment.

(** ** The loop *)

(** Fragments still to make when the next one is [fragBegin, fragEnd). *)
Definition fragsLeft (size payloadSize fragBegin fragEnd : nat) : nat :=
  if bool_decide (size ≤ fragBegin)%nat then 0
  else (1 + (size - fragEnd) / payloadSize +
        (if bool_decide ((size - fragEnd) mod payloadSize ≠ 0) then 1 else 0))%nat.

Lemma fragsLeft_step size payloadSize b e :
  (0 < payloadSize → b < size → b < e ≤ size →
   fragsLeft size payloadSize b e =
     S (fragsLeft size payloadSize e (Nat.min size (e + payloadSize))))%nat.
Proof.
  intros Hp Hb He. unfold fragsLeft. rewrite bool_decide_false by lia.
  destruct (decide (size ≤ e)%nat) as [Hse|Hse];
    [rewrite (bool_decide_true (size ≤ e)%nat) by done
    |rewrite (bool_decide_false (size ≤ e)%nat) by done].
  - replace (size - e)%nat with 0%nat by lia. rewrite Nat.Div0.div_0_l, Nat.Div0.mod_0_l. done.
  - set (n := (size - e)%nat).
    replace (size - Nat.min size (e + payloadSize))%nat with (n - payloadSize)%nat by (unfold n; lia).
    assert (0 < n)%nat by (unfold n; lia).
    destruct (decide (n < payloadSize)%nat).
    + replace (n - payloadSize)%nat with 0%nat by lia.
      rewrite Nat.Div0.div_0_l, Nat.Div0.mod_0_l, Nat.div_small, Nat.mod_small by lia.
      rewrite bool_decide_true by lia. done.
    + assert (∃ m, n - payloadSize = m ∧ n = m + 1 * payloadSize)%nat as (m & -> & ->)
        by (eexists; split; [done|lia]).
      rewrite Nat.div_add, Nat.Div0.mod_add by lia. lia.
Qed.

(** The packet whose headers fragment number [i] carries. *)
Definition fragmentBase (p : Packet) (i : nat) : Packet := match i with O => p | S _ => Packet_new end.

(** The fragments from number [i] on, with their payloads; each leaves room
    for a sequence number. *)
Inductive fragmentsOf (p : Packet) (n mtu : nat) : nat → list (list Z) → list Packet → Prop :=
| fragments_nil i : fragmentsOf p n mtu i [] []
| fragments_cons i payload payloads q qs :
    isFragment (fragmentBase p i) i n payload q → payload ≠ [] →
    (length payload + MAX_FRAG_OVERHEAD + elementsSize (headers (fragmentBase p i)) ≤ mtu)%nat →
    fragmentsOf p n mtu (S i) payloads qs →
    fragmentsOf p n mtu i (payload :: payloads) (q :: qs).

Section populate.
Context (p : Packet) (netPkt : list Z) (mtu payloadSize fragCount : nat).
Context (Hp : Packet_ok p) (Hidx : fieldsAt lp_FragIndex (p_elements p) = []).
Context (Hcnt : fieldsAt lp_FragCount (p_elements p) = []).
Context (Hpos : (0 < payloadSize)%nat) (Hmtu : (payloadSize + MAX_FRAG_OVERHEAD ≤ mtu)%nat).
Context (Hsize : Z.of_nat (length netPkt) < 2 ^ 64).

Lemma fragmentBase_ok i :
  Packet_ok (fragmentBase p i) ∧ fieldsAt lp_FragIndex (p_elements (fragmentBase p i)) = [] ∧
  fieldsAt lp_FragCount (p_elements (fragmentBase p i)) = [].
Proof using Hp Hidx Hcnt. destruct i; [done|]. split; [apply Packet_new_ok|done]. Qed.

Lemma populateFragments_spec fuel : ∀ frags i b e,
  (length netPkt - b ≤ fuel)%nat →
  ((b < length netPkt)%nat → (b < e ≤ length netPkt)%nat ∧
     (e - b + MAX_FRAG_OVERHEAD + elementsSize (headers (fragmentBase p i)) ≤ mtu)%nat) →
  length frags = fragCount → (i + fragsLeft (length netPkt) payloadSize b e = fragCount)%nat →
  (∀ j, (i ≤ j < fragCount)%nat → frags !! j = Some (fragmentBase p j)) →
  ∃ payloads out,
    populateFragments fuel netPkt mtu payloadSize fragCount frags i b e
      = Ok (take i frags ++ out, fragCount) ∧
    mjoin payloads = drop b netPkt ∧ (i + length payloads = fragCount)%nat ∧
    fragmentsOf p fragCount mtu i payloads out.
Proof using Hp Hidx Hcnt Hpos Hmtu Hsize.
  induction fuel as [|fuel IH]; intros frags i b e Hfuel Hbe Hlen Hleft Hfrags;
    cbn [populateFragments].
  1: rewrite bool_decide_true by lia. 2: case_bool_decide as Hb.
  1,2: unfold fragsLeft in Hleft; rewrite bool_decide_true in Hleft by lia;
    exists [], []; rewrite app_nil_r, take_ge, drop_ge by lia;
    (split_and!; [by rewrite Nat.add_0_r in Hleft; subst|done|simpl; lia|constructor]).
  destruct Hbe as [He Hfit]; [lia|]. rewrite fragsLeft_step in Hleft by lia.
  rewrite Hfrags by lia.
  set (payload := take (e - b) (drop b netPkt)).
  assert (length payload = e - b)%nat as Hpl by (unfold payload; rewrite length_take, length_drop; lia).
  destruct (fragmentBase_ok i) as (Hbok & Hbi & Hbc).
  destruct (make_fragment (fragmentBase p i) i fragCount payload) as (q1 & q2 & q & -> & E2 & E3 & Hq);
    [done..|lia|].
  cbn -[Packet_wireEncode]. rewrite E2. cbn -[Packet_wireEncode]. rewrite E3. cbn -[Packet_wireEncode].
  destruct (fragment_encode Hq) as (w & -> & Hw). cbn -[populateFragments].
  unfold assertO. rewrite bool_decide_true by (unfold MAX_FRAG_OVERHEAD in *; lia).
  cbn -[populateFragments].
  destruct (IH (<[i:=q]> frags) (S i) e (Nat.min (length netPkt) (e + payloadSize)))
    as (payloads & out & -> & Hcat & Hnum & Hout).
  - lia.
  - intros Hlt. split; [lia|]. cbn [fragmentBase].
    change (elementsSize (headers Packet_new)) with 0%nat. lia.
  - by rewrite length_insert.
  - lia.
  - intros j Hj. rewrite list_lookup_insert_ne by lia. apply Hfrags. lia.
  - exists (payload :: payloads), (q :: out). split_and!.
    + do 2 f_equal. rewrite (take_S_r _ _ q) by (apply list_lookup_insert_eq; lia).
      by rewrite take_insert_ge, <-app_assoc by lia.
    + change (payload ++ mjoin payloads = drop b netPkt). rewrite Hcat. unfold payload.
      replace (drop e netPkt) with (drop (e - b) (drop b netPkt)); [by rewrite take_drop|].
      rewrite drop_drop. f_equal. lia.
    + simpl. lia.
    + constructor; [done| |by rewrite Hpl|done].
      intros E. rewrite E in Hpl. simpl in Hpl. lia.
Qed.
End populate.

(** ** The fragmenter as a whole *)

(** What [fragmentPacket] is called with: a well-formed packet the sender has
    built around one network packet. *)
Record sendable (p : Packet) (netPkt : list Z) : Prop := {
  sendable_ok : Packet_ok p;
  sendable_wire : p_wire p = None;
  sendable_fragment : fieldsAt lp_Fragment (p_elements p) = [fragmentBlock netPkt];
  sendable_index : fieldsAt lp_FragIndex (p_elements p) = [];
  sendable_count : fieldsAt lp_FragCount (p_elements p) = [];
  sendable_net : isNetPacket netPkt = true;
  sendable_bytes : Packet_bytes p
}.

Lemma foldl_header_sizes els acc :
  foldl (fun sum element =>
           if bool_decide (blk_type element ≠ lp_Fragment) then (sum + Block_size element)%nat
           else sum) acc els =
  (acc + elementsSize (List.filter (fun b => negb (isField FragmentField b)) els))%nat.
Proof.
  revert acc. induction els as [|e els IH]; intros acc; cbn [foldl List.filter]; [simpl; lia|].
  rewrite IH. unfold isField. cbn [F_type FragmentField].
  destruct (decide (blk_type e = lp_Fragment)) as [E|E].
  - rewrite (bool_decide_true (blk_type e = lp_Fragment)) by done.
    by rewrite bool_decide_false by (intros Hn; by apply Hn).
  - rewrite (bool_decide_false (blk_type e = lp_Fragment)), bool_decide_true by done.
    cbn [negb]. rewrite elementsSize_cons. lia.
Qed.

Section sendable.
Context {p : Packet} {netPkt : list Z} (Hs : sendable p netPkt).

Lemma sendable_perm : p_elements p ≡ₚ fragmentBlock netPkt :: headers p.
Proof using Hs. rewrite (headers_perm p) at 1. by rewrite (sendable_fragment _ _ Hs). Qed.

Lemma sendable_netPkt_bytes : bytes_ok netPkt.
Proof using Hs.
  pose proof (sendable_bytes _ _ Hs) as Hb. unfold Packet_bytes in Hb.
  rewrite sendable_perm in Hb. by apply Forall_cons in Hb as [? _].
Qed.

Lemma sendable_length : Z.of_nat (length netPkt) < 2 ^ 64.
Proof using Hs.
  destruct (sendable_ok _ _ Hs) as [Hok _]. rewrite sendable_perm in Hok.
  apply Forall_cons in Hok as [[[_ Hl] _] _]. exact Hl.
Qed.

Lemma sendable_nonempty : netPkt ≠ [].
Proof using Hs. pose proof (sendable_net _ _ Hs) as Hn. intros ->. discriminate Hn. Qed.

Lemma sendable_get : Packet_has FragmentField p = true ∧ Packet_get FragmentField p = Ok netPkt.
Proof using Hs.
  destruct (Packet_has_get FragmentField p _ _ (sendable_fragment _ _ Hs)) as [Hh Hg].
  split; [done|]. rewrite Hg. unfold fragmentBlock. rewrite (F_decode_same FragmentField).
  apply decode_range_ok, sendable_nonempty.
Qed.

(** The wire of the packet, the size of its headers as the code computes it
    and the room the fast path leaves. *)
Lemma sendable_encode :
  ∃ w, Packet_wireEncode p = Ok w ∧ firstHeaderSize w = elementsSize (headers p) ∧
    (Wire_size w ≤ 20 + length netPkt + elementsSize (headers p))%nat ∧
    (elementsSize (p_elements p) ≤ 10 + Wire_size w)%nat.
Proof using Hs.
  pose proof sendable_perm as Hp. pose proof sendable_netPkt_bytes as Hnb.
  destruct (isBare (p_elements p)) eqn:Hb.
  - assert (p = mkPacket None [fragmentBlock netPkt] ∧ headers p = []) as [-> Hh].
    { destruct p as [wire els]. pose proof (sendable_wire _ _ Hs) as Hw.
      cbn [p_elements p_wire] in *. destruct els as [|f [|??]]; try done.
      apply Permutation_singleton_l in Hp. injection Hp as <- <-. by subst. }
    destruct (Packet_wireEncode_bare None netPkt (sendable_net _ _ Hs) Hnb)
      as (w & _ & Hwb & Ht & Henc).
    exists w. split; [exact Henc|]. rewrite Hh. unfold Wire_size. rewrite Hwb.
    split; [|split; [simpl; lia|]].
    + unfold firstHeaderSize. rewrite bool_decide_false; [done|].
      destruct Ht as [-> | ->]; vm_compute; congruence.
    + cbn [p_elements]. rewrite elementsSize_cons. unfold fragmentBlock.
      pose proof (Block_size_Fragment netPkt). change (elementsSize []) with 0%nat. lia.
  - rewrite Packet_wireEncode_lp by done. eexists. split; [done|].
    pose proof (Packet_encodeWire_size p (sendable_wire _ _ Hs)) as Hsz.
    split; [|split].
    + unfold Packet_encodeWire. rewrite (sendable_wire _ _ Hs). unfold firstHeaderSize.
      cbn [w_type w_elements Wire_ofBlock blk_type]. rewrite bool_decide_true by done.
      by rewrite foldl_header_sizes.
    + rewrite Hp, elementsSize_cons in Hsz. unfold fragmentBlock in Hsz.
      pose proof (Block_size_Fragment netPkt). lia.
    + unfold Packet_encodeWire, Wire_size. rewrite (sendable_wire _ _ Hs).
      cbn [w_bytes Wire_ofBlock]. rewrite Block_encode_app, !length_app. cbn [blk_value].
      rewrite length_Block_encodeElements. lia.
Qed.

(** The number of fragments when the packet does not fit in one. *)
Definition fragmentsNeeded (hdr mtu : nat) : nat :=
  fragsLeft (length netPkt) (mtu - MAX_FRAG_OVERHEAD) 0
    (Nat.min (length netPkt) (mtu - hdr - MAX_FRAG_OVERHEAD)).

Lemma fragmentPacket_spec opts mtu :
  ∃ w, Packet_wireEncode p = Ok w ∧
  let hdr := elementsSize (headers p) in
  let n := fragmentsNeeded hdr mtu in
  if bool_decide (MAX_SINGLE_FRAG_OVERHEAD + Wire_size w ≤ mtu)%nat
  then fragmentPacket opts p mtu = Ok (true, [p])
  else if bool_decide (mtu < MAX_FRAG_OVERHEAD + hdr + 1 ∨ fo_nMaxFragments opts < n)%nat
  then fragmentPacket opts p mtu = Ok (false, [])
  else (2 ≤ n)%nat ∧
    ∃ payloads frags, fragmentPacket opts p mtu = Ok (true, frags) ∧
      mjoin payloads = netPkt ∧ length payloads = n ∧ fragmentsOf p n mtu 0 payloads frags.
Proof using Hs.
  destruct sendable_encode as (w & Hw & Hhdr & Hsz & _). destruct sendable_get as [Hhas Hget].
  exists w. split; [done|]. intros hdr n. unfold fragmentPacket. rewrite Hhas.
  rewrite (proj2 (Packet_has_false FragIndexField p) (sendable_index _ _ Hs)).
  rewrite (proj2 (Packet_has_false FragCountField p) (sendable_count _ _ Hs)).
  cbn [assertO negb]. rewrite !bind_Ok, Hw, bind_Ok. cbv zeta.
  case_bool_decide as Hfast; [done|]. rewrite Hget, bind_Ok, Hhdr. fold hdr in Hsz |- *.
  assert (0 < length netPkt)%nat as Hpos.
  { pose proof sendable_nonempty. destruct netPkt; simpl; [done|lia]. }
  assert (n = 1 + (length netPkt - Nat.min (length netPkt) (mtu - hdr - MAX_FRAG_OVERHEAD)) /
      (mtu - MAX_FRAG_OVERHEAD) +
      (if bool_decide ((length netPkt - Nat.min (length netPkt) (mtu - hdr - MAX_FRAG_OVERHEAD)) mod
      (mtu - MAX_FRAG_OVERHEAD) ≠ 0) then 1 else 0))%nat as En.
  { unfold n, fragmentsNeeded, fragsLeft. by rewrite bool_decide_false by lia. }
  rewrite <-En. destruct (decide (mtu < MAX_FRAG_OVERHEAD + hdr + 1)%nat) as [Hsmall|Hsmall].
  { rewrite (bool_decide_true (mtu < _)%nat) by done. by rewrite bool_decide_true by auto. }
  rewrite (bool_decide_false (mtu < _)%nat) by done.
  destruct (decide (fo_nMaxFragments opts < n)%nat) as [Hmany|Hmany].
  { rewrite (bool_decide_true (_ < n)%nat) by done. by rewrite bool_decide_true by auto. }
  rewrite (bool_decide_false (_ < n)%nat) by done. rewrite bool_decide_false by tauto.
  assert (2 ≤ n)%nat as Hn.
  { unfold n, fragmentsNeeded. unfold MAX_SINGLE_FRAG_OVERHEAD, MAX_FRAG_OVERHEAD in *.
    rewrite !fragsLeft_step by lia. lia. }
  split; [done|].
  destruct (populateFragments_spec p netPkt mtu (mtu - MAX_FRAG_OVERHEAD) n
    (sendable_ok _ _ Hs) (sendable_index _ _ Hs) (sendable_count _ _ Hs)) with (length netPkt)
    (p :: replicate (n - 1) Packet_new) 0%nat 0%nat
    (Nat.min (length netPkt) (mtu - hdr - MAX_FRAG_OVERHEAD))
    as (payloads & frags & -> & Hcat & Hnum & Hfrags).
  - lia.
  - lia.
  - exact sendable_length.
  - lia.
  - intros _. cbn [fragmentBase]. fold hdr. lia.
  - simpl. rewrite length_replicate. lia.
  - done.
  - intros [|j] Hj; [done|]. simpl. rewrite lookup_replicate_2 by lia. done.
  - exists payloads, frags. rewrite bind_Ok. rewrite bool_decide_true by done. done.
Qed.
End sendable.

(** ** Reading a fragment back *)

Section read_fragment.
Context {p q : Packet} {i n : nat} {payload : list Z}.
Context (Hq : isFragment (fragmentBase p i) i n payload q).
Context (Hidx : fieldsAt lp_FragIndex (p_elements p) = []).
Context (Hcnt : fieldsAt lp_FragCount (p_elements p) = []).

Lemma fragment_index_fields : fieldsAt lp_FragIndex (p_elements q) = [fragIndexBlock i].
Proof using Hq Hidx.
  rewrite (fragment_fields _ _ _ _ _ Hq). rewrite bool_decide_false by done.
  rewrite bool_decide_true, bool_decide_false by done. destruct i; simpl; [by rewrite Hidx|done].
Qed.
Lemma fragment_count_fields : fieldsAt lp_FragCount (p_elements q) = [fragCountBlock n].
Proof using Hq Hcnt.
  rewrite (fragment_fields _ _ _ _ _ Hq). rewrite bool_decide_false by done.
  rewrite bool_decide_false, bool_decide_true by done. destruct i; simpl; [by rewrite Hcnt|done].
Qed.
Lemma fragment_payload_fields : fieldsAt lp_Fragment (p_elements q) = [fragmentBlock payload].
Proof using Hq. rewrite (fragment_fields _ _ _ _ _ Hq). by rewrite bool_decide_true by done. Qed.
Lemma fragment_other_fields type :
  type ≠ lp_Fragment → type ≠ lp_FragIndex → type ≠ lp_FragCount →
  fieldsAt type (p_elements q) = match i with O => fieldsAt type (p_elements p) | S _ => [] end.
Proof using Hq.
  intros ???. rewrite (fragment_fields _ _ _ _ _ Hq). rewrite !bool_decide_false by done.
  rewrite app_nil_r. by destruct i.
Qed.
End read_fragment.

Lemma fragmentsOf_length p n mtu i payloads frags :
  fragmentsOf p n mtu i payloads frags → length frags = length payloads.
Proof. induction 1; simpl; congruence. Qed.

Lemma fragmentsOf_lookup p n mtu i payloads frags j q :
  fragmentsOf p n mtu i payloads frags → frags !! j = Some q →
  ∃ payload, payloads !! j = Some payload ∧ payload ≠ [] ∧
    isFragment (fragmentBase p (i + j)) (i + j) n payload q ∧
    (length payload + MAX_FRAG_OVERHEAD + elementsSize (headers (fragmentBase p (i + j))) ≤ mtu)%nat.
Proof.
  intros Hf. revert j. induction Hf as [i|i payload payloads q' qs Hq Hne Hsz _ IH]; intros j Hj;
    [by rewrite lookup_nil in Hj|].
  destruct j as [|j]; simpl in *.
  - injection Hj as <-. exists payload. rewrite Nat.add_0_r. by split_and!.
  - rewrite Nat.add_succ_r. apply (IH j Hj).
Qed.

(** ** Adding the sequence number *)

Lemma elementsSize_filter f els : (elementsSize (List.filter f els) ≤ elementsSize els)%nat.
Proof.
  induction els as [|e els IH]; cbn [List.filter]; [done|]. rewrite elementsSize_cons.
  destruct (f e); rewrite ?elementsSize_cons; lia.
Qed.

Definition sequenceBlock (seq : Z) : Block := Build_Block lp_Sequence (be_bytes 8 seq).

(** [set<SequenceField>] on any packet with a Fragment. *)
Lemma set_sequence q seq payload :
  Packet_ok q → fieldsAt lp_Fragment (p_elements q) = [fragmentBlock payload] →
  ∃ q' w, Packet_set SequenceField seq q = Ok q' ∧ Packet_wireEncode q' = Ok w ∧
    Packet_ok q' ∧ p_wire q' = None ∧ isBare (p_elements q') = false ∧
    (∀ type, fieldsAt type (p_elements q') =
       if bool_decide (type = lp_Sequence) then [sequenceBlock seq]
       else fieldsAt type (p_elements q)) ∧
    (elementsSize (p_elements q') ≤ 10 + elementsSize (p_elements q))%nat ∧
    (Wire_size w ≤ 20 + elementsSize (p_elements q))%nat.
Proof.
  intros Hok Hf. destruct (Packet_set_spec SequenceField seq (be_bytes 8 seq) q)
    as (q' & Hset & Hok' & Hw & Hp & Hfields); [done|done|by rewrite length_be_bytes|].
  exists q'. assert (isBare (p_elements q') = false) as Hb.
  { pose proof (Hfields lp_Sequence) as H1. rewrite bool_decide_true in H1 by done.
    destruct (p_elements q') as [|e [|??]]; [done| |done]. unfold isBare.
    case_bool_decide as He; [|done]. rewrite fieldsAt_cons, He, bool_decide_false in H1 by done.
    discriminate H1. }
  rewrite Packet_wireEncode_lp by done. eexists.
  assert (elementsSize (p_elements q') ≤ 10 + elementsSize (p_elements q))%nat as Hsz.
  { rewrite Hp, elementsSize_cons. cbn [F_type SequenceField field_uint64].
    rewrite Block_size_uint64 by done.
    pose proof (elementsSize_filter (fun b => negb (isField SequenceField b)) (p_elements q)).
    unfold Packet_clear. cbn [p_elements]. lia. }
  pose proof (Packet_encodeWire_size q' Hw). split_and!; try done. lia.
Qed.

(** ** Properties *)

(** Every fragment fits the MTU: whenever [fragmentPacket] succeeds on a
    packet around one network packet, each packet it returns, with any 64-bit
    sequence number added afterwards, still encodes to at most [mtu] bytes. *)
Theorem fragments_fit_mtu opts p netPkt mtu frags :
  sendable p netPkt → fragmentPacket opts p mtu = Ok (true, frags) →
  Forall (fun frag => ∀ seq, 0 ≤ seq < 2 ^ 64 →
    ∃ frag' w, Packet_set SequenceField seq frag = Ok frag' ∧
      Packet_wireEncode frag' = Ok w ∧ (Wire_size w ≤ mtu)%nat) frags.
Proof.
  intros Hs Hfr. destruct (fragmentPacket_spec Hs opts mtu) as (w & Hw & Hspec).
  destruct (sendable_encode Hs) as (w' & Hw' & _ & _ & Hroom). rewrite Hw in Hw'.
  injection Hw' as <-. cbv zeta in Hspec. apply Forall_forall. intros frag Hin seq _.
  unfold MAX_SINGLE_FRAG_OVERHEAD in Hspec. case_bool_decide as Hfast.
  - rewrite Hfr in Hspec. injection Hspec as ->. apply list_elem_of_singleton in Hin as ->.
    destruct (set_sequence p seq netPkt (sendable_ok _ _ Hs) (sendable_fragment _ _ Hs))
      as (q' & wq & Hset & Henc & _ & _ & _ & _ & _ & Hsz).
    exists q', wq. split_and!; [done..|lia].
  - case_bool_decide; [congruence|].
    destruct Hspec as (_ & payloads & frags' & Hfr' & _ & _ & Hall). rewrite Hfr in Hfr'.
    injection Hfr' as <-. apply list_elem_of_lookup in Hin as [j Hj].
    destruct (fragmentsOf_lookup _ _ _ _ _ _ _ _ Hall Hj) as (payload & _ & _ & Hq & Hroom').
    destruct (set_sequence frag seq payload (fragment_ok _ _ _ _ _ Hq) (fragment_payload_fields Hq))
      as (q' & wq & Hset & Henc & _ & _ & _ & _ & _ & Hsz).
    pose proof (fragment_size Hq). exists q', wq. split_and!; [done..|].
    unfold MAX_FRAG_OVERHEAD in Hroom'. lia.
Qed.

(** A Data of 120 bytes behind a PIT token, for the witnesses. *)
Definition sampleNetPkt : list Z := 6 :: 118 :: replicate 118 7.
Definition samplePacket : Packet :=
  mkPacket None [Build_Block lp_PitToken [1; 2; 3; 4]; fragmentBlock sampleNetPkt].
Lemma samplePacket_sendable : sendable samplePacket sampleNetPkt.
Proof.
  split; try reflexivity.
  - apply (bool_decide_unpack _). vm_compute. exact I.
  - apply (bool_decide_unpack _). vm_compute. exact I.
Qed.

Lemma fragments_fit_mtu_witness :
  ∃ frags, fragmentPacket FragmenterOptions_default samplePacket 70 = Ok (true, frags) ∧
    length frags = 7%nat ∧
    Forall (fun frag => ∀ seq, 0 ≤ seq < 2 ^ 64 →
      ∃ frag' w, Packet_set SequenceField seq frag = Ok frag' ∧
        Packet_wireEncode frag' = Ok w ∧ (Wire_size w ≤ 70)%nat) frags.
Proof.
  eexists. split; [vm_compute; reflexivity|]. split; [reflexivity|].
  apply (fragments_fit_mtu FragmenterOptions_default samplePacket sampleNetPkt 70).
  - exact samplePacket_sendable.
  - vm_compute. reflexivity.
Defined.

Lemma fragmentsOf_payloads p n mtu i payloads frags :
  fragmentsOf p n mtu i payloads frags →
  mapM (Packet_get FragmentField) frags = Ok payloads.
Proof.
  induction 1 as [|i payload payloads q qs Hq Hne _ _ IH]; [done|].
  destruct (Packet_has_get FragmentField q _ _ (fragment_payload_fields Hq)) as [_ Hg].
  cbn [mapM]. rewrite Hg. unfold fragmentBlock. rewrite (F_decode_same FragmentField).
  cbn [F_decodeHelper FragmentField F_type]. rewrite decode_range_ok, bind_Ok, IH by done. done.
Qed.

Lemma get_NonNegativeInteger type q n :
  fieldsAt type (p_elements q) = [Build_Block type (prependNonNegativeInteger n [])] →
  is_u64 n →
  Packet_has (field_NonNegativeInteger type) q = true ∧
  Packet_get (field_NonNegativeInteger type) q = Ok n.
Proof.
  intros Hf Hn. destruct (Packet_has_get (field_NonNegativeInteger type) q _ _ Hf) as [Hh Hg].
  split; [done|]. rewrite Hg. rewrite (F_decode_same (field_NonNegativeInteger type)).
  by apply readNonNegativeInteger_block_written.
Qed.

(** Fragmentation loses nothing and decides as it promises.  On a packet
    around one network packet [fragmentPacket] always returns; it fails
    exactly when the packet does not fit in one piece and either not even one
    byte of payload fits beside the headers or more fragments than allowed
    are needed; and when it succeeds, the payloads concatenated are the
    network packet, several fragments are numbered from 0 in order and all
    give their number, and the first one keeps every other header field. *)
Theorem fragmentation_covers_packet opts p netPkt mtu :
  sendable p netPkt → Z.of_nat (fo_nMaxFragments opts) < 2 ^ 64 →
  ∃ w ok frags,
    Packet_wireEncode p = Ok w ∧ fragmentPacket opts p mtu = Ok (ok, frags) ∧
    (ok = false ↔ (mtu < MAX_SINGLE_FRAG_OVERHEAD + Wire_size w)%nat ∧
       (mtu < MAX_FRAG_OVERHEAD + firstHeaderSize w + 1 ∨
        fo_nMaxFragments opts < @fragmentsNeeded netPkt (firstHeaderSize w) mtu)%nat) ∧
    (ok = true →
       (∃ payloads, mapM (Packet_get FragmentField) frags = Ok payloads ∧
                    mjoin payloads = netPkt) ∧
       (∃ first rest, frags = first :: rest ∧
          ∀ type, type ∉ [lp_Fragment; lp_FragIndex; lp_FragCount] →
            fieldsAt type (p_elements first) = fieldsAt type (p_elements p)) ∧
       (frags = [p] ∨
        ∀ i frag, frags !! i = Some frag →
          Packet_get FragIndexField frag = Ok (Z.of_nat i) ∧
          Packet_get FragCountField frag = Ok (Z.of_nat (length frags)))).
Proof.
  intros Hs Hmax. destruct (fragmentPacket_spec Hs opts mtu) as (w & Hw & Hspec).
  destruct (sendable_encode Hs) as (w' & Hw' & Hhdr & _). rewrite Hw in Hw'.
  injection Hw' as <-. cbv zeta in Hspec. rewrite <-Hhdr in Hspec. exists w.
  set (n := fragmentsNeeded (firstHeaderSize w) mtu) in *.
  case_bool_decide as Hfast; [|case_bool_decide as Hbad].
  - exists true, [p]. split_and!; [done..|split; [done|lia]|]. intros _. split_and!; [|eauto|by left].
    exists [netPkt]. destruct (sendable_get Hs) as [_ Hg]. cbn [mapM]. rewrite Hg. cbn.
    by rewrite app_nil_r.
  - exists false, []. split_and!; [done..| |done]. split; [|done]. intros _. split; [lia|done].
  - destruct Hspec as (_ & payloads & frags & Hfr & Hcat & Hn & Hall).
    exists true, frags. split_and!; [done..|split; [done|tauto]|]. intros _.
    pose proof (fragmentsOf_length _ _ _ _ _ _ Hall) as Hlen. split_and!.
    + exists payloads. split; [|done]. by eapply fragmentsOf_payloads.
    + destruct frags as [|first rest]; [exfalso|].
      { apply (sendable_nonempty Hs). rewrite <-Hcat.
        destruct payloads; [done|discriminate Hlen]. }
      exists first, rest. split; [done|]. intros type Ht.
      destruct (fragmentsOf_lookup _ _ _ _ _ _ 0 first Hall eq_refl) as (payload & _ & _ & Hq & _).
      apply (fragment_other_fields Hq); set_solver.
    + right. intros i frag Hi. pose proof (lookup_lt_Some _ _ _ Hi) as Hlt.
      destruct (fragmentsOf_lookup _ _ _ _ _ _ i frag Hall Hi) as (payload & _ & _ & Hq & _).
      assert (¬ (fo_nMaxFragments opts < n)%nat) by tauto.
      rewrite Hlen, Hn. split; apply get_NonNegativeInteger; unfold is_u64; try lia.
      * exact (fragment_index_fields Hq (sendable_index _ _ Hs)).
      * exact (fragment_count_fields Hq (sendable_count _ _ Hs)).
Qed.
Lemma fragmentation_covers_packet_witness :
  ∃ w ok frags, Packet_wireEncode samplePacket = Ok w ∧
    fragmentPacket FragmenterOptions_default samplePacket 70 = Ok (ok, frags).
Proof.
  destruct (fragmentation_covers_packet FragmenterOptions_default samplePacket sampleNetPkt 70)
    as (w & ok & frags & Hw & Hf & _).
  - exact samplePacket_sendable.
  - vm_compute. reflexivity.
  - exists w, ok, frags. split; [exact Hw|exact Hf].
Defined.
