(* ===== verification/LpReassembler.v ===== *)
(** * NDNLPv2 reassembly ([NFD/daemon/face/lp-reassembler.cpp])

    [receiveFragment], [doReassembly] and [timeoutPartialPacket] over the map
    of partial packets, the invariant of that map, and the theorem that
    fragments delivered in any order, between fragments of other packets, give
    back the network packet. *)

From S2P Require Import Prelude Tlv Encoding Packet LpPacket LpFragmenter.
Local Open Scope Z_scope.

(** ** State *)

(** [EndpointId] of [face-common.hpp]: nothing, an Ethernet address, or the
    address and port of a UDP endpoint. *)
Inductive EndpointId : Type :=
| Ep_monostate
| Ep_ethernet (address : list Z)
| Ep_udp (address : list Z) (port : Z).
#[export] Instance EndpointId_eq_dec : EqDecision EndpointId.
Proof. solve_decision. Defined.
#[export] Instance EndpointId_countable : Countable EndpointId.
Proof.
  refine (inj_countable'
    (fun e => match e with
              | Ep_monostate => inl tt
              | Ep_ethernet a => inr (inl a)
              | Ep_udp a p => inr (inr (a, p))
              end)
    (fun s => match s with
              | inl _ => Ep_monostate
              | inr (inl a) => Ep_ethernet a
              | inr (inr (a, p)) => Ep_udp a p
              end) _).
  by intros [].
Defined.

(** [LpReassembler::Options]; the timeout is in nanoseconds. *)
Record ReassemblerOptions := mkReassemblerOptions {
  ro_nMaxFragments : Z;
  ro_reassemblyTimeout : Z
}.
Definition ReassemblerOptions_default : ReassemblerOptions :=
  mkReassemblerOptions 400 (500 * 1000000).

(** [PartialPacket]; [dropTimer] is the time its event fires, if scheduled. *)
Record PartialPacket := mkPartial {
  pp_fragments : list Packet;
  pp_fragCount : Z;
  pp_nReceivedFragments : Z;
  pp_dropTimer : option Z
}.
Definition PartialPacket_new : PartialPacket := mkPartial [] 0 0 None.

Abbreviation Key := (EndpointId * Z)%type.

Record LpReassembler := mkReassembler {
  r_options : ReassemblerOptions;
  r_partialPackets : gmap Key PartialPacket
}.
Definition LpReassembler_new (options : ReassemblerOptions) : LpReassembler :=
  mkReassembler options ∅.
Definition LpReassembler_size (r : LpReassembler) : nat := size (r_partialPackets r).
Definition LpReassembler_setOptions (options : ReassemblerOptions) (r : LpReassembler)
  : LpReassembler := mkReassembler options (r_partialPackets r).

Definition set_partial (key : Key) (pp : PartialPacket) (r : LpReassembler) : LpReassembler :=
  mkReassembler (r_options r) (<[key := pp]> (r_partialPackets r)).
Definition erase_partial (key : Key) (r : LpReassembler) : LpReassembler :=
  mkReassembler (r_options r) (delete key (r_partialPackets r)).

(** ** Operations *)

(** [doReassembly]: the size of the buffer is the sum of the payload sizes,
    the copies fill it, and [Block(fragBuffer)] cuts the packet out of it. *)
Definition doReassembly (fragments : list Packet) : outcome Wire :=
  payloads ← mapM (Packet_get FragmentField) fragments;
  Wire_ofSpan (mjoin payloads).

(** FragIndex and FragCount with their defaults. *)
Definition fragIndexOf (packet : Packet) : outcome Z :=
  if Packet_has FragIndexField packet then Packet_get FragIndexField packet else Ok 0.
Definition fragCountOf (packet : Packet) : outcome Z :=
  if Packet_has FragCountField packet then Packet_get FragCountField packet else Ok 1.

(** [receiveFragment]: [None] is the result [{false, {}, {}}], otherwise the
    reassembled packet and the first fragment.  A [tlv::Error] from
    [doReassembly] leaves the completed partial packet in the map. *)
Definition receiveFragment (now : Z) (remoteEndpoint : EndpointId) (packet : Packet)
  : ME LpReassembler (option (Wire * Packet)) :=
  _ ← assertE (Packet_has FragmentField packet);
  options ← getE r_options;
  fragIndex ← liftE (fragIndexOf packet);
  fragCount ← liftE (fragCountOf packet);
  if bool_decide (fragCount ≤ fragIndex) then mret None
  else if bool_decide (ro_nMaxFragments options < fragCount) then mret None
  else if bool_decide (fragIndex = 0 ∧ fragCount = 1) then
    frag ← liftE (Packet_get FragmentField packet);
    netPkt ← liftE (Wire_ofSpan frag);
    mret (Some (netPkt, packet))
  else if negb (Packet_has SequenceField packet) then mret None
  else
    seq ← liftE (Packet_get SequenceField packet);
    let messageIdentifier := u64 (seq - fragIndex) in
    let key := (remoteEndpoint, messageIdentifier) in
    pp ← getE (fun r => default PartialPacket_new (r_partialPackets r !! key));
    _ ← modifyE (set_partial key pp);
    let isNew := bool_decide (pp_fragCount pp = 0) in
    if negb isNew && bool_decide (fragCount ≠ pp_fragCount pp) then mret None
    else
      let pp := if isNew
                then mkPartial (resize (Z.to_nat fragCount) Packet_new (pp_fragments pp)) fragCount 0
                       (pp_dropTimer pp)
                else pp in
      _ ← modifyE (set_partial key pp);
      slot ← liftE (match pp_fragments pp !! Z.to_nat fragIndex with
                    | Some slot => Ok slot
                    | None => Fault UndefinedBehaviour
                    end);
      if Packet_has SequenceField slot then mret None
      else
        let pp := mkPartial (<[Z.to_nat fragIndex := packet]> (pp_fragments pp)) (pp_fragCount pp)
                    (pp_nReceivedFragments pp + 1) (pp_dropTimer pp) in
        _ ← modifyE (set_partial key pp);
        if bool_decide (pp_nReceivedFragments pp = pp_fragCount pp) then
          reassembled ← liftE (doReassembly (pp_fragments pp));
          firstFrag ← liftE (match pp_fragments pp !! 0%nat with
                             | Some f => Ok f
                             | None => Fault UndefinedBehaviour
                             end);
          _ ← modifyE (erase_partial key);
          mret (Some (reassembled, firstFrag))
        else
          _ ← modifyE (set_partial key
                 (mkPartial (pp_fragments pp) (pp_fragCount pp) (pp_nReceivedFragments pp)
                    (Some (now + ro_reassemblyTimeout options))));
          mret None.

(** [timeoutPartialPacket]: the number of fragments [beforeTimeout] reports,
    when the partial packet is still there. *)
Definition timeoutPartialPacket (key : Key) (r : LpReassembler) : option Z * LpReassembler :=
  match r_partialPackets r !! key with
  | None => (None, r)
  | Some pp => (Some (pp_nReceivedFragments pp), erase_partial key r)
  end.

(** ** Reading the fields of a fragment *)

(** The decoders of the fields only throw [tlv::Error]. *)
Lemma get_throws {A} (F : FieldDecl A) q f :
  (∀ b f, F_decodeHelper F b = Fault f → f = Throw TlvError) →
  Packet_has F q = true → Packet_get F q = Fault f → f = Throw TlvError.
Proof.
  intros Hd Hh. rewrite Packet_has_fields in Hh. rewrite Packet_get_fields.
  destruct (fieldsAt _ _) as [|b l]; [done|]. clear Hh. unfold F_decode.
  case_bool_decide; [congruence|apply Hd].
Qed.

Lemma get_Fragment_throws q f :
  Packet_has FragmentField q = true → Packet_get FragmentField q = Fault f → f = Throw TlvError.
Proof.
  apply get_throws. intros b f'. simpl. unfold decode_range. case_bool_decide; congruence.
Qed.
Lemma get_Sequence_throws q f :
  Packet_has SequenceField q = true → Packet_get SequenceField q = Fault f → f = Throw TlvError.
Proof.
  apply get_throws. intros b f'. simpl. unfold decode_uint64. case_bool_decide; congruence.
Qed.
Lemma fragIndexOf_throws q f : fragIndexOf q = Fault f → f = Throw TlvError.
Proof.
  unfold fragIndexOf. destruct (Packet_has FragIndexField q) eqn:E; [|done].
  apply get_throws; [|done]. exact readNonNegativeInteger_throws.
Qed.
Lemma fragCountOf_throws q f : fragCountOf q = Fault f → f = Throw TlvError.
Proof.
  unfold fragCountOf. destruct (Packet_has FragCountField q) eqn:E; [|done].
  apply get_throws; [|done]. exact readNonNegativeInteger_throws.
Qed.

(** ** The slow path in one equation *)

Lemma set_partial_twice key a b r : set_partial key a (set_partial key b r) = set_partial key a r.
Proof. unfold set_partial. simpl. by rewrite insert_insert_eq. Qed.
Lemma set_partial_id key pp r : r_partialPackets r !! key = Some pp → set_partial key pp r = r.
Proof. intros H. unfold set_partial. destruct r. simpl in *. by rewrite insert_id. Qed.
Lemma erase_set_partial key pp r : erase_partial key (set_partial key pp r) = erase_partial key r.
Proof. unfold erase_partial, set_partial. simpl. by rewrite delete_insert_eq. Qed.

(** A fragment of a packet with several fragments, as the code reads it. *)
Record isPiece (options : ReassemblerOptions) (q : Packet) (i n : nat) (seq : Z) : Prop := {
  piece_fragment : Packet_has FragmentField q = true;
  piece_index : fragIndexOf q = Ok (Z.of_nat i);
  piece_count : fragCountOf q = Ok (Z.of_nat n);
  piece_lt : (i < n)%nat;
  piece_several : (2 ≤ n)%nat;
  piece_max : Z.of_nat n ≤ ro_nMaxFragments options;
  piece_has : Packet_has SequenceField q = true;
  piece_seq : Packet_get SequenceField q = Ok seq
}.

(** The partial packet the fragment goes to. *)
Definition partialFor (r : LpReassembler) (key : Key) (n : nat) : PartialPacket :=
  match r_partialPackets r !! key with
  | Some pp => pp
  | None => mkPartial (replicate n Packet_new) (Z.of_nat n) 0 None
  end.

Lemma receiveFragment_slow now ep q r i n seq :
  isPiece (r_options r) q i n seq →
  let key := (ep, u64 (seq - Z.of_nat i)) in
  let pp := partialFor r key n in
  pp_fragCount pp ≠ 0 →
  receiveFragment now ep q r =
    if bool_decide (Z.of_nat n ≠ pp_fragCount pp) then (Ok None, r)
    else
      match pp_fragments pp !! i with
      | None => (Fault UndefinedBehaviour, set_partial key pp r)
      | Some slot =>
          if Packet_has SequenceField slot then (Ok None, set_partial key pp r)
          else
            let frags := <[i := q]> (pp_fragments pp) in
            let received := pp_nReceivedFragments pp + 1 in
            if bool_decide (received = pp_fragCount pp) then
              match doReassembly frags, frags !! 0%nat with
              | Ok w, Some first => (Ok (Some (w, first)), erase_partial key r)
              | Ok w, None =>
                  (Fault UndefinedBehaviour,
                   set_partial key (mkPartial frags (pp_fragCount pp) received (pp_dropTimer pp)) r)
              | Fault f, _ =>
                  (Fault f,
                   set_partial key (mkPartial frags (pp_fragCount pp) received (pp_dropTimer pp)) r)
              end
            else
              (Ok None,
               set_partial key (mkPartial frags (pp_fragCount pp) received
                                  (Some (now + ro_reassemblyTimeout (r_options r)))) r)
      end.
Proof.
  intros [Hfr Hidx Hcnt Hlt Htwo Hmax Hhas Hseq] key pp Hnz.
  unfold receiveFragment, mbind, ME_bind, assertE, liftE, getE, modifyE, mret, ME_ret.
  rewrite Hfr, Hidx, Hcnt, Hhas, Hseq. cbv beta iota zeta. fold key.
  rewrite (bool_decide_false (Z.of_nat n ≤ Z.of_nat i)) by lia.
  rewrite (bool_decide_false (ro_nMaxFragments (r_options r) < Z.of_nat n)) by lia.
  rewrite (bool_decide_false (Z.of_nat i = 0 ∧ Z.of_nat n = 1)) by lia.
  cbn [negb]. cbv beta iota zeta. unfold pp, partialFor in *. rewrite !Nat2Z.id.
  destruct (r_partialPackets r !! key) as [pp0|] eqn:Epp; cbn [default id PartialPacket_new
    pp_fragCount pp_fragments pp_dropTimer pp_nReceivedFragments] in *.
  - rewrite (bool_decide_false (pp_fragCount pp0 = 0)) by done. cbn [negb andb].
    assert (set_partial key pp0 r = r) as Hid by by apply set_partial_id.
    case_bool_decide; [by rewrite ?Hid|]. rewrite ?Hid.
    destruct (pp_fragments pp0 !! i) as [slot|]; [|by rewrite ?Hid].
    destruct (Packet_has _ slot); [by rewrite ?Hid|]. rewrite ?Hid.
    case_bool_decide; [|by rewrite set_partial_twice].
    destruct (doReassembly _); [|done]. destruct (_ !! 0%nat); [|done].
    by rewrite erase_set_partial.
  - cbn [negb andb]. rewrite (bool_decide_true (0 = 0)) by done. cbn [negb andb].
    cbv beta iota zeta. cbn [pp_fragments pp_fragCount pp_nReceivedFragments pp_dropTimer].
    rewrite resize_nil.
    rewrite (bool_decide_false (Z.of_nat n ≠ Z.of_nat n)) by (intros Hn; by apply Hn).
    destruct (replicate n Packet_new !! i) as [slot|]; [|by rewrite set_partial_twice].
    destruct (Packet_has _ slot); rewrite !set_partial_twice; [done|].
    case_bool_decide; [|by rewrite set_partial_twice].
    destruct (doReassembly _); [|done]. destruct (_ !! 0%nat); [|done].
    by rewrite erase_set_partial.
Qed.

(** ** The invariant of the map *)

(** What is in slot [i] of a partial packet once its fragment has come. *)
Definition wasReceived (key : Key) (n : Z) (i : nat) (q : Packet) : Prop :=
  Packet_has SequenceField q = true ∧ Packet_has FragmentField q = true ∧
  fragIndexOf q = Ok (Z.of_nat i) ∧ fragCountOf q = Ok n ∧
  ∃ seq, Packet_get SequenceField q = Ok seq ∧ key.2 = u64 (seq - Z.of_nat i).

Record partial_ok (key : Key) (pp : PartialPacket) : Prop := {
  partial_length : pp_fragCount pp = Z.of_nat (length (pp_fragments pp));
  partial_several : 2 ≤ pp_fragCount pp;
  partial_received :
    pp_nReceivedFragments pp =
      Z.of_nat (length (List.filter (Packet_has SequenceField) (pp_fragments pp)));
  partial_some : 1 ≤ pp_nReceivedFragments pp;
  partial_timer : is_Some (pp_dropTimer pp);
  partial_slots i q : pp_fragments pp !! i = Some q →
    q = Packet_new ∨ wasReceived key (pp_fragCount pp) i q
}.

Definition Reassembler_ok (r : LpReassembler) : Prop :=
  ∀ key pp, r_partialPackets r !! key = Some pp → partial_ok key pp.

Lemma filter_insert_length {A} (f : A → bool) l i x y :
  l !! i = Some x → f x = false → f y = true →
  length (List.filter f (<[i := y]> l)) = S (length (List.filter f l)).
Proof.
  revert i. induction l as [|a l IH]; intros [|i] Hi Hx Hy; simpl in *; try done.
  - injection Hi as ->. by rewrite Hx, Hy.
  - destruct (f a); simpl; by rewrite IH.
Qed.

Lemma filter_full {A} (f : A → bool) l :
  length (List.filter f l) = length l → Forall (fun x => f x = true) l.
Proof.
  induction l as [|a l IH]; simpl; [done|]. pose proof (filter_length_le f l).
  destruct (f a) eqn:E; simpl; intros Hl; [|lia]. constructor; [done|]. apply IH. lia.
Qed.

Lemma filter_replicate_new n : List.filter (Packet_has SequenceField) (replicate n Packet_new) = [].
Proof. induction n as [|n IH]; [done|exact IH]. Qed.

(** The partial packet a fragment goes to, before it is stored. *)
Lemma partialFor_ok r key n :
  Reassembler_ok r → (2 ≤ n)%nat →
  let pp := partialFor r key n in
  pp_fragCount pp = Z.of_nat (length (pp_fragments pp)) ∧ 2 ≤ pp_fragCount pp ∧
  pp_nReceivedFragments pp =
    Z.of_nat (length (List.filter (Packet_has SequenceField) (pp_fragments pp))) ∧
  (1 ≤ pp_nReceivedFragments pp → is_Some (pp_dropTimer pp)) ∧
  ∀ i q, pp_fragments pp !! i = Some q → q = Packet_new ∨ wasReceived key (pp_fragCount pp) i q.
Proof.
  intros Hr Hn. unfold partialFor. destruct (r_partialPackets r !! key) as [pp|] eqn:E; simpl.
  - destruct (Hr key pp E). split_and!; auto.
  - rewrite length_replicate, filter_replicate_new. split_and!; [done|lia|done|lia|].
    intros i q [-> _]%lookup_replicate_1. by left.
Qed.

Lemma partial_insert key pp i n q t slot :
  pp_fragCount pp = Z.of_nat (length (pp_fragments pp)) → 2 ≤ pp_fragCount pp →
  pp_nReceivedFragments pp =
    Z.of_nat (length (List.filter (Packet_has SequenceField) (pp_fragments pp))) →
  (∀ i q, pp_fragments pp !! i = Some q → q = Packet_new ∨ wasReceived key (pp_fragCount pp) i q) →
  pp_fragments pp !! i = Some slot → Packet_has SequenceField slot = false →
  wasReceived key (pp_fragCount pp) i q → pp_fragCount pp = n →
  partial_ok key (mkPartial (<[i := q]> (pp_fragments pp)) n (pp_nReceivedFragments pp + 1) (Some t)).
Proof.
  intros Hl H2 Hrec Hslots Hi Hslot Hq <-. split; simpl.
  - by rewrite length_insert.
  - done.
  - rewrite (filter_insert_length _ _ _ slot) by (done || apply Hq). lia.
  - lia.
  - by eexists.
  - intros j q' Hj. rewrite list_lookup_insert in Hj. case_decide as Hij; [|by apply Hslots].
    injection Hj as <-. destruct Hij as [<- _]. by right.
Qed.

(** All slots are filled when the count says so. *)
Lemma partial_full key pp :
  partial_ok key pp → pp_nReceivedFragments pp = pp_fragCount pp →
  Forall (fun q => Packet_has FragmentField q = true) (pp_fragments pp).
Proof.
  intros [Hl _ Hrec _ _ Hslots] Hfull.
  assert (length (List.filter (Packet_has SequenceField) (pp_fragments pp)) = length (pp_fragments pp))
    as Hall%filter_full by lia.
  rewrite Forall_forall in Hall |- *. intros q Hq. specialize (Hall q Hq).
  apply list_elem_of_lookup in Hq as [i Hi].
  destruct (Hslots i q Hi) as [-> |(_ & Hf & _)]; [discriminate Hall|done].
Qed.

Lemma doReassembly_throws fragments f :
  Forall (fun q => Packet_has FragmentField q = true) fragments →
  doReassembly fragments = Fault f → f = Throw TlvError.
Proof.
  intros Hall. unfold doReassembly.
  destruct (mapM (Packet_get FragmentField) fragments) as [payloads|f'] eqn:E; simpl.
  - apply Wire_ofSpan_throws.
  - intros [= <-]. revert E. induction Hall as [|q l Hq _ IH]; cbn [mapM]; [done|].
    destruct (Packet_get FragmentField q) as [v|g] eqn:Eg; simpl.
    + destruct (mapM _ l) as [vs|g]; simpl; [done|]. intros [= <-]. by apply IH.
    + intros [= <-]. by eapply get_Fragment_throws.
Qed.

Lemma get_NonNegativeInteger_bound type q v :
  Packet_bytes q → Packet_get (field_NonNegativeInteger type) q = Ok v → is_u64 v.
Proof.
  intros Hb. rewrite Packet_get_fields. destruct (fieldsAt _ _) as [|b l] eqn:E; [done|].
  assert (b ∈ p_elements q) as Hin by 
    (apply (elem_of_fieldsAt (F_type (field_NonNegativeInteger type))); rewrite E; by left).
  unfold F_decode. case_bool_decide; [done|]. cbn [F_decodeHelper field_NonNegativeInteger].
  unfold readNonNegativeInteger_block.
  destruct (readNonNegativeInteger _ _) as [[m rest]|] eqn:Er; simpl; [|done]. intros [= <-].
  eapply readNonNegativeInteger_bound; [|exact Er].
  unfold Packet_bytes in Hb. rewrite Forall_forall in Hb. by apply Hb.
Qed.

Lemma fragIndexOf_bound q v : Packet_bytes q → fragIndexOf q = Ok v → is_u64 v.
Proof.
  intros Hb. unfold fragIndexOf. destruct (Packet_has _ q); [|intros [= <-]; by split].
  by apply get_NonNegativeInteger_bound.
Qed.

(** Every packet with a Fragment is either a piece of a larger packet or is
    dealt with without touching the map. *)
Lemma receiveFragment_cases now ep q r :
  Packet_has FragmentField q = true → Packet_bytes q →
  (∃ i n seq, isPiece (r_options r) q i n seq) ∨
  (∃ out, receiveFragment now ep q r = (out, r) ∧
     (∀ f, out = Fault f → f = Throw TlvError) ∧
     (∀ w first, out = Ok (Some (w, first)) →
        first = q ∧ ∃ buf, Packet_get FragmentField q = Ok buf ∧ Wire_ofSpan buf = Ok w)).
Proof.
  intros Hf Hb.
  unfold receiveFragment, mbind, ME_bind, assertE, liftE, getE, modifyE, mret, ME_ret.
  rewrite Hf. cbv beta iota zeta.
  destruct (fragIndexOf q) as [i|f] eqn:Ei.
  2:{ right. eexists. split; [done|]. split; [|done]. intros f' [= <-]. by eapply fragIndexOf_throws. }
  destruct (fragCountOf q) as [n|f] eqn:En.
  2:{ right. eexists. split; [done|]. split; [|done]. intros f' [= <-]. by eapply fragCountOf_throws. }
  case_bool_decide as Hlt; [right; by eexists|]. case_bool_decide as Hmax; [right; by eexists|].
  pose proof (fragIndexOf_bound q i Hb Ei) as Hi. unfold is_u64 in Hi.
  case_bool_decide as Hfast.
  - right. destruct (Packet_get FragmentField q) as [buf|f] eqn:Eg.
    2:{ eexists. split; [done|]. split; [|done]. intros f' [= <-]. by eapply get_Fragment_throws. }
    destruct (Wire_ofSpan buf) as [w|f] eqn:Ew.
    2:{ eexists. split; [done|]. split; [|done]. intros f' [= <-]. by eapply Wire_ofSpan_throws. }
    eexists. split; [done|]. split; [done|]. intros w' first [= <- <-]. eauto.
  - destruct (Packet_has SequenceField q) eqn:Hs; cbn [negb]; [|right; by eexists].
    destruct (Packet_get SequenceField q) as [seq|f] eqn:Eg.
    + left. exists (Z.to_nat i), (Z.to_nat n), seq.
      split; rewrite ?Z2Nat.id by lia; first [done|lia].
    + right. eexists. split; [done|]. split; [|done]. intros f' [= <-].
      by eapply get_Sequence_throws.
Qed.

Lemma piece_wasReceived options q i n seq ep :
  isPiece options q i n seq →
  wasReceived (ep, u64 (seq - Z.of_nat i)) (Z.of_nat n) i q.
Proof. intros []. split_and!; [done..|]. by exists seq. Qed.

Lemma Reassembler_ok_set r key pp :
  Reassembler_ok r → partial_ok key pp → Reassembler_ok (set_partial key pp r).
Proof.
  intros Hr Hpp key' pp'. simpl. rewrite lookup_insert. case_decide as E; [|apply Hr].
  intros [= <-]. by subst.
Qed.
Lemma Reassembler_ok_erase r key : Reassembler_ok r → Reassembler_ok (erase_partial key r).
Proof.
  intros Hr key' pp'. simpl. rewrite lookup_delete. case_decide; [done|apply Hr].
Qed.

Lemma receiveFragment_ok now ep q r :
  Reassembler_ok r → Packet_has FragmentField q = true → Packet_bytes q →
  wpE (receiveFragment now ep q)
    (fun out r' => Reassembler_ok r' ∧ r_options r' = r_options r ∧
       ∀ f, out = Fault f → f = Throw TlvError) r.
Proof.
  intros Hr Hf Hb. unfold wpE.
  destruct (receiveFragment_cases now ep q r Hf Hb) as [(i & n & seq & Hq)|(out & -> & Ht & _)];
    [|done].
  set (key := (ep, u64 (seq - Z.of_nat i))).
  destruct (partialFor_ok r key n Hr (piece_several _ _ _ _ _ Hq)) as (Hl & H2 & Hrec & Htimer & Hslots).
  rewrite (receiveFragment_slow now ep q r i n seq Hq) by (fold key; lia). fold key.
  set (pp := partialFor r key n) in *. case_bool_decide as Hmis; [done|].
  assert (Z.of_nat n = pp_fragCount pp) as Hn by (destruct (decide (Z.of_nat n = pp_fragCount pp)); tauto).
  destruct (pp_fragments pp !! i) as [slot|] eqn:Hi.
  2:{ apply lookup_ge_None in Hi. pose proof (piece_lt _ _ _ _ _ Hq). lia. }
  pose proof (piece_wasReceived _ _ _ _ _ ep Hq) as Hwas. fold key in Hwas. rewrite Hn in Hwas.
  destruct (Packet_has SequenceField slot) eqn:Hslot; simpl.
  - split_and!; [|done|done]. apply Reassembler_ok_set; [done|].
    unfold pp, partialFor in *. destruct (r_partialPackets r !! key) as [pp0|] eqn:E; [by apply Hr|].
    simpl in Hi. apply lookup_replicate_1 in Hi as [-> _]. discriminate Hslot.
  - assert (∀ t, partial_ok key (mkPartial (<[i := q]> (pp_fragments pp)) (pp_fragCount pp)
      (pp_nReceivedFragments pp + 1) (Some t))) as Hins
      by (intros t; by eapply partial_insert).
    case_bool_decide as Hfull; simpl.
    + destruct (Htimer ltac:(lia)) as [t Ht]. rewrite Ht.
      pose proof (partial_full key _ (Hins t) Hfull) as Hall. simpl in Hall.
      assert (is_Some (<[i := q]> (pp_fragments pp) !! 0%nat)) as [first Hfirst].
      { apply lookup_lt_is_Some_2. rewrite length_insert. lia. }
      rewrite Hfirst. destruct (doReassembly _) as [w|f] eqn:Ed; simpl.
      * split_and!; [by apply Reassembler_ok_erase|done|done].
      * split_and!; [by apply Reassembler_ok_set|done|]. intros f' [= <-].
        by eapply doReassembly_throws.
    + split_and!; [by apply Reassembler_ok_set|done|done].
Qed.

(** ** Delivery in any order *)

(** A piece of another packet, or no piece at all, leaves our partial packet
    alone. *)
Lemma receiveFragment_other now ep q r key :
  Reassembler_ok r → Packet_has FragmentField q = true → Packet_bytes q →
  (∀ i n seq, isPiece (r_options r) q i n seq → (ep, u64 (seq - Z.of_nat i)) ≠ key) →
  r_partialPackets (receiveFragment now ep q r).2 !! key = r_partialPackets r !! key.
Proof.
  intros Hr Hf Hb Hother.
  destruct (receiveFragment_cases now ep q r Hf Hb) as [(i & n & seq & Hq)|(out & -> & _)]; [|done].
  specialize (Hother i n seq Hq). set (k := (ep, u64 (seq - Z.of_nat i))) in *.
  destruct (partialFor_ok r k n Hr (piece_several _ _ _ _ _ Hq)) as (_ & H2 & _).
  rewrite (receiveFragment_slow now ep q r i n seq Hq) by (fold k; lia). fold k.
  set (pp := partialFor r k n). clearbody pp. clear H2.
  assert (∀ p, r_partialPackets (set_partial k p r) !! key = r_partialPackets r !! key) as Hset.
  { intros p. simpl. by rewrite lookup_insert_ne. }
  case_bool_decide; [done|]. destruct (_ !! i) as [slot|]; [|apply Hset].
  destruct (Packet_has _ slot); [apply Hset|]. cbv zeta. case_bool_decide; [|apply Hset].
  destruct (doReassembly _); [|apply Hset]. destruct (_ !! 0%nat); [|apply Hset].
  simpl. by rewrite lookup_delete_ne.
Qed.

(** What reaches the reassembler: a fragment of our packet, by its number, or
    anything else. *)
Inductive Delivery : Type :=
| Ours (now : Z) (i : nat)
| Foreign (now : Z) (ep : EndpointId) (q : Packet).

Definition ourIndices (ds : list Delivery) : list nat :=
  omap (fun d => match d with Ours _ i => Some i | Foreign _ _ _ => None end) ds.

(** The results for our fragments, in the order they came, and the state after
    all deliveries. *)
Fixpoint deliverAll (qs : list Packet) (ep : EndpointId) (ds : list Delivery) (r : LpReassembler)
  : list (outcome (option (Wire * Packet))) * LpReassembler :=
  match ds with
  | [] => ([], r)
  | Ours now i :: ds' =>
      match qs !! i with
      | Some q =>
          let '(out, r1) := receiveFragment now ep q r in
          let '(outs, r2) := deliverAll qs ep ds' r1 in (out :: outs, r2)
      | None => deliverAll qs ep ds' r
      end
  | Foreign now ep' q :: ds' => deliverAll qs ep ds' (receiveFragment now ep' q r).2
  end.

Section any_order.
Context (options : ReassemblerOptions) (ep : EndpointId) (seq0 : Z).
Context (qs : list Packet) (payloads : list (list Z)) (netPkt : Wire).

Definition ourKey : Key := (ep, u64 seq0).

Lemma piece_key i : (ep, u64 (u64 (seq0 + Z.of_nat i) - Z.of_nat i)) = ourKey.
Proof. unfold ourKey, u64. f_equal. by rewrite Zminus_mod_idemp_l, Z.add_simpl_r. Qed.

(** The slots once the fragments numbered in [got] have come. *)
Definition slots (got : list nat) : list Packet :=
  imap (fun i q => if decide (i ∈ got) then q else Packet_new) qs.

Lemma slots_nil : slots [] = replicate (length qs) Packet_new.
Proof.
  apply list_eq. intros i. unfold slots. rewrite list_lookup_imap.
  destruct (qs !! i) as [q|] eqn:E; cbn [fmap option_fmap option_map].
  - rewrite lookup_replicate_2 by by eapply lookup_lt_Some.
    rewrite decide_False; [done|]. apply not_elem_of_nil.
  - symmetry. apply lookup_ge_None_2. rewrite length_replicate. by apply lookup_ge_None.
Qed.

Lemma slots_insert got i q : qs !! i = Some q → <[i := q]> (slots got) = slots (i :: got).
Proof.
  intros Hi. apply list_eq. intros j. unfold slots. rewrite list_lookup_insert.
  rewrite !list_lookup_imap, length_imap. pose proof (lookup_lt_Some _ _ _ Hi) as Hlt.
  case_decide as Hj.
  - destruct Hj as [-> _]. rewrite Hi. cbn [fmap option_fmap option_map]. rewrite decide_True; [done|]. by left.
  - destruct (qs !! j) as [q'|]; cbn [fmap option_fmap option_map]; [|done]. f_equal.
    assert (j ≠ i) by (intros ->; tauto).
    destruct (decide (j ∈ got)); [rewrite decide_True; [done|by right]|].
    rewrite decide_False; [done|]. rewrite elem_of_cons. tauto.
Qed.

Lemma slots_full got :
  NoDup got → (∀ i, i ∈ got → (i < length qs)%nat) → length got = length qs → slots got = qs.
Proof.
  intros Hnd Hlt Hlen. apply list_eq. intros i. unfold slots. rewrite list_lookup_imap.
  destruct (qs !! i) as [q|] eqn:E;
    cbn [fmap option_fmap option_map]; [|done]. rewrite decide_True; [done|].
  assert (got ⊆+ seq 0 (length qs)) as Hsub.
  { apply NoDup_submseteq; [done|]. intros j Hj. apply elem_of_seq. specialize (Hlt j Hj). lia. }
  apply submseteq_length_Permutation in Hsub; [|rewrite length_seq; lia].
  rewrite Hsub. apply elem_of_seq. apply lookup_lt_Some in E. lia.
Qed.

Context (Hpieces : ∀ i q, qs !! i = Some q →
           isPiece options q i (length qs) (u64 (seq0 + Z.of_nat i)) ∧ Packet_bytes q).
Context (Hpayloads : mapM (Packet_get FragmentField) qs = Ok payloads).
Context (Hnet : Wire_ofSpan (mjoin payloads) = Ok netPkt).
Context (Hseveral : (2 ≤ length qs)%nat).

(** The state while the fragments in [got] have come. *)
Definition progress (got : list nat) (r : LpReassembler) : Prop :=
  Reassembler_ok r ∧ r_options r = options ∧
  match got with
  | [] => r_partialPackets r !! ourKey = None
  | _ :: _ => ∃ t, r_partialPackets r !! ourKey =
      Some (mkPartial (slots got) (Z.of_nat (length qs)) (Z.of_nat (length got)) t)
  end.

Lemma progress_partialFor got r :
  progress got r →
  ∃ t, partialFor r ourKey (length qs) =
    mkPartial (slots got) (Z.of_nat (length qs)) (Z.of_nat (length got)) t.
Proof.
  intros (_ & _ & Hp). unfold partialFor. destruct got as [|i got].
  - rewrite Hp. exists None. by rewrite slots_nil.
  - destruct Hp as [t ->]. by exists t.
Qed.

Lemma receive_ours now got i q r :
  progress got r → qs !! i = Some q → i ∉ got →
  ∃ t, receiveFragment now ep q r =
    if bool_decide (Z.of_nat (length got) + 1 = Z.of_nat (length qs)) then
      match doReassembly (slots (i :: got)), slots (i :: got) !! 0%nat with
      | Ok w, Some first => (Ok (Some (w, first)), erase_partial ourKey r)
      | Ok w, None =>
          (Fault UndefinedBehaviour, set_partial ourKey
             (mkPartial (slots (i :: got)) (Z.of_nat (length qs)) (Z.of_nat (length got) + 1) t) r)
      | Fault f, _ =>
          (Fault f, set_partial ourKey
             (mkPartial (slots (i :: got)) (Z.of_nat (length qs)) (Z.of_nat (length got) + 1) t) r)
      end
    else (Ok None, set_partial ourKey
            (mkPartial (slots (i :: got)) (Z.of_nat (length qs)) (Z.of_nat (length got) + 1)
               (Some (now + ro_reassemblyTimeout options))) r).
Proof using Hpieces Hseveral.
  intros Hp Hi Hni. destruct (Hpieces i q Hi) as [Hq _]. pose proof Hp as (_ & Ho & _).
  rewrite <-Ho in Hq. destruct (progress_partialFor got r Hp) as [t Ht]. exists t.
  pose proof (receiveFragment_slow now ep q r _ _ _ Hq) as E. cbv zeta in E.
  rewrite piece_key, Ht in E. cbn [pp_fragCount pp_fragments pp_nReceivedFragments pp_dropTimer] in E.
  specialize (E ltac:(lia)). rewrite (bool_decide_false (_ ≠ _)) in E by (intros Hn; by apply Hn).
  assert (slots got !! i = Some Packet_new) as Hslot.
  { unfold slots. rewrite list_lookup_imap, Hi. cbn [fmap option_fmap option_map].
    by rewrite decide_False. }
  rewrite Hslot, slots_insert in E by done.
  change (Packet_has SequenceField Packet_new) with false in E. cbv iota in E.
  by rewrite Ho in E.
Qed.

Lemma receive_ours_more now got i q r :
  progress got r → qs !! i = Some q → i ∉ got → (S (length got) < length qs)%nat →
  ∃ r', receiveFragment now ep q r = (Ok None, r') ∧ progress (i :: got) r'.
Proof using Hpieces Hseveral.
  intros Hp Hi Hni Hlt. destruct (receive_ours now got i q r Hp Hi Hni) as [t E].
  rewrite bool_decide_false in E by lia. eexists. split; [exact E|].
  destruct (Hpieces i q Hi) as [Hq Hb]. pose proof Hp as (Hr & Ho & _).
  pose proof (receiveFragment_ok now ep q r Hr (piece_fragment _ _ _ _ _ Hq) Hb) as Hok.
  unfold wpE in Hok. rewrite E in Hok. destruct Hok as (Hr' & _).
  split_and!; [done|exact Ho|]. eexists. simpl. rewrite lookup_insert_eq. do 2 f_equal. lia.
Qed.

Lemma receive_ours_last now got i q r :
  progress got r → qs !! i = Some q → i ∉ got → S (length got) = length qs →
  NoDup got → (∀ j, j ∈ got → (j < length qs)%nat) →
  ∃ first, qs !! 0%nat = Some first ∧
    receiveFragment now ep q r = (Ok (Some (netPkt, first)), erase_partial ourKey r) ∧
    progress [] (erase_partial ourKey r).
Proof using Hpieces Hseveral Hpayloads Hnet.
  intros Hp Hi Hni Hlen Hnd Hlt. destruct (receive_ours now got i q r Hp Hi Hni) as [t E].
  rewrite bool_decide_true in E by lia.
  rewrite slots_full in E; [|by constructor| |simpl; lia].
  2:{ intros j [->|Hj]%elem_of_cons; [by eapply lookup_lt_Some|by apply Hlt]. }
  destruct (lookup_lt_is_Some_2 qs 0) as [first Hfirst]; [lia|]. exists first. split; [done|].
  unfold doReassembly in E. rewrite Hpayloads, bind_Ok, Hnet, Hfirst in E. split; [exact E|].
  destruct Hp as (Hr & Ho & _). split_and!; [by apply Reassembler_ok_erase|done|].
  simpl. by rewrite lookup_delete_eq.
Qed.

Definition foreign_ok (ds : list Delivery) : Prop :=
  Forall (fun d => match d with
    | Ours _ _ => True
    | Foreign _ ep' q => Packet_has FragmentField q = true ∧ Packet_bytes q ∧
        ∀ i n seq, isPiece options q i n seq → (ep', u64 (seq - Z.of_nat i)) ≠ ourKey
    end) ds.

Lemma receive_foreign now ep' q got r :
  progress got r → Packet_has FragmentField q = true → Packet_bytes q →
  (∀ i n seq, isPiece options q i n seq → (ep', u64 (seq - Z.of_nat i)) ≠ ourKey) →
  progress got (receiveFragment now ep' q r).2.
Proof.
  intros (Hr & Ho & Hp) Hf Hb Hother.
  destruct (receiveFragment_ok now ep' q r Hr Hf Hb) as (Hr' & Ho' & _).
  rewrite <-Ho in Hother. pose proof (receiveFragment_other now ep' q r _ Hr Hf Hb Hother) as Hsame.
  split_and!; [done|congruence|]. by rewrite Hsame.
Qed.

Lemma deliverAll_spec ds : ∀ got r,
  progress got r → foreign_ok ds →
  (ourIndices ds = [] ∧ got = [] ∨
   ourIndices ds ≠ [] ∧ ourIndices ds ++ got ≡ₚ seq 0 (length qs)) →
  ∃ outs r', deliverAll qs ep ds r = (outs, r') ∧ progress [] r' ∧
    match ourIndices ds with
    | [] => outs = []
    | _ :: rest => ∃ first, qs !! 0%nat = Some first ∧
        outs = replicate (length rest) (Ok None) ++ [Ok (Some (netPkt, first))]
    end.
Proof using Hpieces Hseveral Hpayloads Hnet.
  induction ds as [|[now i|now ep' q] ds IH]; intros got r Hp Hfor Hperm; cbn [deliverAll].
  - destruct Hperm as [[_ ->]|[Hn _]]; [|done]. by exists [], r.
  - destruct Hperm as [[Hn _]|[_ Hperm]]; [discriminate Hn|]. cbn in Hperm |- *.
    fold (ourIndices ds) in *. apply Forall_cons in Hfor as [_ Hfor].
    assert (NoDup (i :: ourIndices ds ++ got)) as [Hni Hnd]%NoDup_cons
      by (rewrite Hperm; apply NoDup_seq).
    assert (∀ j, j ∈ i :: ourIndices ds ++ got → (j < length qs)%nat) as Hlt.
    { intros j. rewrite Hperm, elem_of_seq. lia. }
    rewrite not_elem_of_app in Hni. destruct Hni as [Hni1 Hni2].
    destruct (lookup_lt_is_Some_2 qs i) as [q Hi]; [apply Hlt; by left|]. rewrite Hi.
    pose proof (Permutation_length Hperm) as Hlen. rewrite length_seq in Hlen. simpl in Hlen.
    rewrite length_app in Hlen. apply NoDup_app in Hnd as (_ & _ & Hnd).
    destruct (ourIndices ds) as [|i2 is2] eqn:Eds.
    + destruct (receive_ours_last now got i q r Hp Hi Hni2) as (first & Hfirst & -> & Hp');
        [simpl in Hlen; lia|done|intros j Hj; apply Hlt; right; set_solver|].
      destruct (IH [] _ Hp' Hfor) as (outs & r' & -> & Hr' & ->); [by left|].
      eexists _, r'. split_and!; [done|done|]. by exists first.
    + destruct (receive_ours_more now got i q r Hp Hi Hni2) as (r1 & -> & Hp');
        [simpl in Hlen; lia|].
      destruct (IH (i :: got) r1 Hp' Hfor) as (outs & r' & -> & Hr' & first & Hfirst & ->).
      { right. split; [done|]. by rewrite <-Permutation_middle. }
      eexists _, r'. split_and!; [done|done|]. by exists first.
  - apply Forall_cons in Hfor as [(Hf & Hb & Hother) Hfor].
    exact (IH got _ (receive_foreign now ep' q got r Hp Hf Hb Hother) Hfor Hperm).
Qed.
End any_order.

(** ** Properties *)

(** What can happen to a reassembler: any packet with a Fragment arrives from
    anywhere, the timer of a partial packet fires, the options change. *)
Inductive reassembler_step : LpReassembler → LpReassembler → Prop :=
| step_receive now ep q r :
    Packet_has FragmentField q = true → Packet_bytes q →
    reassembler_step r (receiveFragment now ep q r).2
| step_timeout now key pp t r :
    r_partialPackets r !! key = Some pp → pp_dropTimer pp = Some t → t ≤ now →
    reassembler_step r (timeoutPartialPacket key r).2
| step_options options r : reassembler_step r (LpReassembler_setOptions options r).

(** The reassembler keeps its table sound under every traffic.  From the
    empty reassembler, after any packets in any order, timeouts and changes of
    options: every partial packet has as many slots as fragments announced,
    counts exactly the fragments it holds, holds each in the slot of its
    FragIndex under the message identifier of its Sequence, and has its drop
    timer set, so that it cannot stay forever; and one more packet, whatever
    its bytes, neither fails an assertion nor reads out of range: the only
    exception is [tlv::Error]. *)
Theorem reassembler_table_sound options r now ep q :
  rtc reassembler_step (LpReassembler_new options) r →
  Packet_has FragmentField q = true → Packet_bytes q →
  Reassembler_ok r ∧
  ∀ f, (receiveFragment now ep q r).1 = Fault f → f = Throw TlvError.
Proof.
  intros Hrtc Hf Hb. assert (Reassembler_ok r) as Hr.
  { assert (Reassembler_ok (LpReassembler_new options)) as H0 by 
      (intros k pp; cbn; by rewrite lookup_empty).
    revert H0. induction Hrtc as [|r1 r2 r3 Hstep _ IH]; [done|]. intros H1. apply IH.
    destruct Hstep as [now' ep' q' r1 Hf' Hb'|now' key pp t r1 Hk Ht _|opts r1].
    - by apply (receiveFragment_ok now' ep' q' r1 H1 Hf' Hb').
    - unfold timeoutPartialPacket. rewrite Hk. by apply Reassembler_ok_erase.
    - exact H1. }
  split; [done|]. by apply (receiveFragment_ok now ep q r Hr Hf Hb).
Qed.

(** The first of two fragments, for the witness. *)
Definition samplePiece : Packet :=
  mkPacket None [sequenceBlock 9; fragIndexBlock 0; fragCountBlock 2; fragmentBlock [5; 1]].
Lemma reassembler_table_sound_witness :
  Reassembler_ok (receiveFragment 0 Ep_monostate samplePiece
                    (LpReassembler_new ReassemblerOptions_default)).2.
Proof.
  destruct (reassembler_table_sound ReassemblerOptions_default
    (receiveFragment 0 Ep_monostate samplePiece (LpReassembler_new ReassemblerOptions_default)).2
    1 Ep_monostate samplePiece) as [Hok _].
  - apply rtc_once. apply (step_receive 0 Ep_monostate samplePiece).
    + vm_compute. reflexivity.
    + apply (bool_decide_unpack _). vm_compute. exact I.
  - vm_compute. reflexivity.
  - apply (bool_decide_unpack _). vm_compute. exact I.
  - exact Hok.
Defined.
