(* ===== verification/GenericLinkService.v ===== *)
(** * The NDNLPv2 link service ([NFD/daemon/face/generic-link-service.cpp])

    [GenericLinkService] with the counters of its base class [LinkService]
    and the sending side of [Transport]: from a network packet with its tags
    to the elements handed to the socket, and from a received element to the
    signal the forwarder listens to.  The reliability feature is off, as it is
    by default ([reliabilityOptions.isEnabled] false); its branches are in
    [ReliableLink].  Decoding an Interest or a Data is an interface, [NetCodec]. *)

From Stdlib Require Import SpecFloat.
From S2P Require Import Prelude Tlv Encoding Packet Transport LpPacket LpFragmenter LpReassembler.
Local Open Scope Z_scope.

(** ** Interface to the network-layer packet formats *)

Class NetCodec := {
  InterestT : Type;
  DataT : Type;
  Interest_decode : Wire → outcome InterestT;
  Data_decode : Wire → outcome DataT;
  PrefixAnnouncement_check : Block → outcome unit
}.

(** Decoding throws nothing but [tlv::Error] and its subclasses. *)
Class NetCodecLaws (C : NetCodec) : Prop := {
  Interest_decode_throws w f : Interest_decode w = Fault f → isTlvError f = true;
  Data_decode_throws w f : Data_decode w = Fault f → isTlvError f = true
}.
(** So does the check of a prefix announcement, when dates are well-formed. *)
Definition announcements_checked (C : NetCodec) : Prop :=
  ∀ b f, PrefixAnnouncement_check b = Fault f → isTlvError f = true.

(** ** State *)

(** The packet tags ([TagHost]) the link service reads and writes. *)
Record Tags := mkTags {
  tag_incomingFaceId : option Z;
  tag_nextHopFaceId : option Z;
  tag_cachePolicy : option Z;
  tag_congestionMark : option Z;
  tag_nonDiscovery : bool;
  tag_prefixAnnouncement : option Block;
  tag_pitToken : option PitToken
}.
Definition Tags_none : Tags := mkTags None None None None false None None.
Definition set_tag_nextHopFaceId v t :=
  mkTags (tag_incomingFaceId t) v (tag_cachePolicy t) (tag_congestionMark t) (tag_nonDiscovery t)
    (tag_prefixAnnouncement t) (tag_pitToken t).
Definition set_tag_cachePolicy v t :=
  mkTags (tag_incomingFaceId t) (tag_nextHopFaceId t) v (tag_congestionMark t) (tag_nonDiscovery t)
    (tag_prefixAnnouncement t) (tag_pitToken t).
Definition set_tag_congestionMark v t :=
  mkTags (tag_incomingFaceId t) (tag_nextHopFaceId t) (tag_cachePolicy t) v (tag_nonDiscovery t)
    (tag_prefixAnnouncement t) (tag_pitToken t).
Definition set_tag_nonDiscovery v t :=
  mkTags (tag_incomingFaceId t) (tag_nextHopFaceId t) (tag_cachePolicy t) (tag_congestionMark t) v
    (tag_prefixAnnouncement t) (tag_pitToken t).
Definition set_tag_prefixAnnouncement v t :=
  mkTags (tag_incomingFaceId t) (tag_nextHopFaceId t) (tag_cachePolicy t) (tag_congestionMark t)
    (tag_nonDiscovery t) v (tag_pitToken t).
Definition set_tag_pitToken v t :=
  mkTags (tag_incomingFaceId t) (tag_nextHopFaceId t) (tag_cachePolicy t) (tag_congestionMark t)
    (tag_nonDiscovery t) (tag_prefixAnnouncement t) v.

(** [GenericLinkService::Options]; times in nanoseconds. *)
Record LinkOptions := mkLinkOptions {
  allowLocalFields : bool;
  allowFragmentation : bool;
  fragmenterOptions : FragmenterOptions;
  allowReassembly : bool;
  reassemblerOptions : ReassemblerOptions;
  allowCongestionMarking : bool;
  baseCongestionMarkingInterval : Z;
  defaultCongestionThreshold : Z;
  allowSelfLearning : bool;
  overrideMtu : Z
}.
Definition LinkOptions_default : LinkOptions :=
  mkLinkOptions false false FragmenterOptions_default false ReassemblerOptions_default false
    (100 * 1000000) 65536 true (2 ^ 63 - 1).

(** The counters of [LinkService] and [GenericLinkService]. *)
Inductive Counter : Type :=
| nOutInterests | nOutData | nOutNacks | nInInterests | nInData | nInNacks
| nFragmentationErrors | nOutOverMtu | nInLpInvalid | nReassemblyTimeouts | nInNetInvalid
| nCongestionMarked | nOutPackets | nOutBytes | nInPackets | nInBytes.
#[export] Instance Counter_eq_dec : EqDecision Counter.
Proof. solve_decision. Defined.

Section service.
Context {C : NetCodec}.

(** The signals of [LinkService] the forwarder is connected to. *)
Inductive RxEvent : Type :=
| RxInterest (interest : InterestT) (tags : Tags) (endpoint : EndpointId)
| RxData (data : DataT) (tags : Tags) (endpoint : EndpointId)
| RxNack (interest : InterestT) (header : Z) (tags : Tags) (endpoint : EndpointId).

(** [m_nextMarkTime] is [None] for [time_point::max()]; [ls_sent] lists what
    [Transport::doSend] got and [ls_received] the signals emitted. *)
Record LinkService := mkLinkService {
  ls_options : LinkOptions;
  ls_reassembler : LpReassembler;
  ls_lastSeqNo : Z;
  ls_nextMarkTime : option Z;
  ls_nMarkedSinceInMarkingState : Z;
  ls_counters : Counter → Z;
  ls_sent : list Wire;
  ls_received : list RxEvent
}.

(** The constructor. *)
Definition LinkService_new (options : LinkOptions) : LinkService :=
  mkLinkService options (LpReassembler_new (reassemblerOptions options)) (u64 (-2)) None 0
    (fun _ => 0) [] [].

Definition set_ls_reassembler r s :=
  mkLinkService (ls_options s) r (ls_lastSeqNo s) (ls_nextMarkTime s)
    (ls_nMarkedSinceInMarkingState s) (ls_counters s) (ls_sent s) (ls_received s).
Definition set_ls_lastSeqNo n s :=
  mkLinkService (ls_options s) (ls_reassembler s) n (ls_nextMarkTime s)
    (ls_nMarkedSinceInMarkingState s) (ls_counters s) (ls_sent s) (ls_received s).
Definition set_ls_marking t n s :=
  mkLinkService (ls_options s) (ls_reassembler s) (ls_lastSeqNo s) t n (ls_counters s) (ls_sent s)
    (ls_received s).
Definition set_ls_counters c s :=
  mkLinkService (ls_options s) (ls_reassembler s) (ls_lastSeqNo s) (ls_nextMarkTime s)
    (ls_nMarkedSinceInMarkingState s) c (ls_sent s) (ls_received s).
Definition set_ls_sent l s :=
  mkLinkService (ls_options s) (ls_reassembler s) (ls_lastSeqNo s) (ls_nextMarkTime s)
    (ls_nMarkedSinceInMarkingState s) (ls_counters s) l (ls_received s).
Definition set_ls_received l s :=
  mkLinkService (ls_options s) (ls_reassembler s) (ls_lastSeqNo s) (ls_nextMarkTime s)
    (ls_nMarkedSinceInMarkingState s) (ls_counters s) (ls_sent s) l.

(** [setOptions]. *)
Definition LinkService_setOptions (options : LinkOptions) (s : LinkService) : LinkService :=
  mkLinkService options (LpReassembler_setOptions (reassemblerOptions options) (ls_reassembler s))
    (ls_lastSeqNo s) (ls_nextMarkTime s) (ls_nMarkedSinceInMarkingState s) (ls_counters s)
    (ls_sent s) (ls_received s).

(** A 64-bit counter. *)
Definition addCount (c : Counter) (n : Z) : ME LinkService unit :=
  modifyE (fun s => set_ls_counters
    (fun c' => if decide (c' = c) then u64 (ls_counters s c' + n) else ls_counters s c') s).
Abbreviation increment c := (addCount c 1).

(** ** The transport *)

Definition MTU_UNLIMITED : Z := -1.
Definition MIN_MTU : Z := 64.

(** The transport as the link service sees it: its MTU, its state, and the
    length of the send queue, which depends on what has been sent. *)
Record Transport := mkTransport {
  t_mtu : Z;
  t_state : TransportState;
  t_sendQueueLength : list Wire → Z
}.
Context (transport : Transport).

(** [Transport::send]. *)
Definition Transport_send (packet : Wire) : ME LinkService unit :=
  _ ← assertE (bool_decide (t_mtu transport = MTU_UNLIMITED ∨
                            Z.of_nat (Wire_size packet) ≤ u64 (t_mtu transport)));
  if bool_decide (t_state transport ≠ TransportState_UP ∧ t_state transport ≠ TransportState_DOWN) then mret tt
  else
    _ ← (if bool_decide (t_state transport = TransportState_UP) then
           _ ← increment nOutPackets; addCount nOutBytes (Z.of_nat (Wire_size packet))
         else mret tt);
    modifyE (fun s => set_ls_sent (ls_sent s ++ [packet]) s).

(** ** Sending *)

Definition getEffectiveMtu (options : LinkOptions) : Z := Z.min (overrideMtu options) (t_mtu transport).

Definition canOverrideMtuTo (mtu : Z) : bool :=
  if bool_decide (t_mtu transport = MTU_UNLIMITED) then false else bool_decide (MIN_MTU ≤ mtu).

Definition CONGESTION_MARK_SIZE : Z :=
  Z.of_nat (sizeOfVarNumber lp_CongestionMark + sizeOfVarNumber 8 +
            sizeOfNonNegativeInteger (2 ^ 64 - 1)).

(** [double] arithmetic of the marking interval. *)
Definition double_of_Z (z : Z) : spec_float := binary_normalize 53 1024 z 0 false.
Definition Z_of_double (f : spec_float) : Z :=
  match f with
  | S754_finite s m e =>
      let v := if bool_decide (0 ≤ e) then Zpos m * 2 ^ e else Zpos m / 2 ^ (- e) in
      if s then - v else v
  | _ => 0
  end.
Definition markingInterval (base nMarked : Z) : Z :=
  Z_of_double (SFdiv 53 1024 (double_of_Z base) (SFsqrt 53 1024 (double_of_Z (u64 (nMarked + 1))))).

(** [checkCongestionLevel]: the packet, marked or not. *)
Definition checkCongestionLevel (now : Z) (pkt : Packet) : ME LinkService Packet :=
  s ← getE id;
  let sendQueueLength := t_sendQueueLength transport (ls_sent s) in
  if bool_decide (sendQueueLength < 0) then mret pkt
  else if bool_decide (defaultCongestionThreshold (ls_options s) < sendQueueLength) then
    match ls_nextMarkTime s with
    | None =>
        _ ← modifyE (set_ls_marking (Some (now + baseCongestionMarkingInterval (ls_options s)))
                       (ls_nMarkedSinceInMarkingState s));
        mret pkt
    | Some nextMarkTime =>
        if bool_decide (nextMarkTime ≤ now) then
          pkt ← liftE (Packet_set CongestionMarkField 1 pkt);
          _ ← increment nCongestionMarked;
          let nMarked := u64 (ls_nMarkedSinceInMarkingState s + 1) in
          let interval := markingInterval (baseCongestionMarkingInterval (ls_options s)) nMarked in
          _ ← modifyE (set_ls_marking (Some (nextMarkTime + interval)) nMarked);
          mret pkt
        else mret pkt
    end
  else
    match ls_nextMarkTime s with
    | Some _ => _ ← modifyE (set_ls_marking None 0); mret pkt
    | None => mret pkt
    end.

(** [sendLpPacket] behind the Acks that reliability adds ([sendLpPacketR] is the
    whole function). *)
Definition sendLpPacket (now : Z) (pkt : Packet) : ME LinkService unit :=
  options ← getE ls_options;
  let mtu := getEffectiveMtu options in
  pkt ← (if allowCongestionMarking options then checkCongestionLevel now pkt else mret pkt);
  block ← liftE (Packet_wireEncode pkt);
  if bool_decide (mtu ≠ MTU_UNLIMITED ∧ u64 mtu < Z.of_nat (Wire_size block))
  then increment nOutOverMtu
  else Transport_send block.

(** [assignSequences]. *)
Fixpoint assignSequences (pkts : list Packet) : ME LinkService (list Packet) :=
  match pkts with
  | [] => mret []
  | pkt :: pkts' =>
      seq ← getE (fun s => u64 (ls_lastSeqNo s + 1));
      _ ← modifyE (set_ls_lastSeqNo seq);
      pkt ← liftE (Packet_set SequenceField seq pkt);
      pkts' ← assignSequences pkts';
      mret (pkt :: pkts')
  end.

(** Adding a field when its tag is present. *)
Definition addTag {A} (F : FieldDecl A) (tag : option A) (pkt : Packet) : outcome Packet :=
  match tag with Some v => Packet_add F v pkt | None => Ok pkt end.

(** [encodeLpFields]; [PitToken::operator pair] validates the token. *)
Definition encodeLpFields (options : LinkOptions) (tags : Tags) (lpPacket : Packet)
  : outcome Packet :=
  lpPacket ← (if allowLocalFields options
              then addTag IncomingFaceIdField (tag_incomingFaceId tags) lpPacket else Ok lpPacket);
  lpPacket ← addTag CongestionMarkField (tag_congestionMark tags) lpPacket;
  lpPacket ← (if allowSelfLearning options then
                lpPacket ← addTag NonDiscoveryField
                             (if tag_nonDiscovery tags then Some tt else None) lpPacket;
                addTag (PrefixAnnouncementField PrefixAnnouncement_check)
                  (tag_prefixAnnouncement tags) lpPacket
              else Ok lpPacket);
  match tag_pitToken tags with
  | Some pitToken => value ← makePitToken pitToken; Packet_add PitTokenField value lpPacket
  | None => Ok lpPacket
  end.

(** [sendNetPacket] with reliability off; [sendNetPacketR] is the whole function,
    and equal to this one then. *)
Definition sendNetPacket (now : Z) (pkt : Packet) : ME LinkService unit :=
  options ← getE ls_options;
  let mtu := getEffectiveMtu options in
  let mtu := if allowCongestionMarking options && bool_decide (mtu ≠ MTU_UNLIMITED)
             then mtu - CONGESTION_MARK_SIZE else mtu in
  _ ← assertE (bool_decide (mtu = MTU_UNLIMITED ∨ 0 ≤ mtu));
  '(isOk, frags) ← liftE (if allowFragmentation options && bool_decide (mtu ≠ MTU_UNLIMITED)
                          then fragmentPacket (fragmenterOptions options) pkt (Z.to_nat mtu)
                          else Ok (true, [pkt]));
  if negb isOk then increment nFragmentationErrors
  else
    _ ← (match frags with
         | [front] => _ ← assertE (negb (Packet_has FragIndexField front));
                      assertE (negb (Packet_has FragCountField front))
         | _ => mret tt
         end);
    frags ← (if bool_decide (1 < length frags)%nat then assignSequences frags else mret frags);
    forE_ frags (sendLpPacket now).

(** [doSendInterest], [doSendData] and [doSendNack] with the counting of
    [LinkService::sendInterest] and its siblings; [wire] is
    [interest.wireEncode()]. *)
Definition sendInterest (now : Z) (wire : Wire) (tags : Tags) : ME LinkService unit :=
  _ ← increment nOutInterests;
  options ← getE ls_options;
  lpPacket ← liftE (Packet_wireDecode wire);
  lpPacket ← liftE (encodeLpFields options tags lpPacket);
  sendNetPacket now lpPacket.

Definition sendData (now : Z) (wire : Wire) (tags : Tags) : ME LinkService unit :=
  _ ← increment nOutData;
  options ← getE ls_options;
  lpPacket ← liftE (Packet_wireDecode wire);
  lpPacket ← liftE (encodeLpFields options tags lpPacket);
  sendNetPacket now lpPacket.

Definition sendNack (now : Z) (wire : Wire) (header : Z) (tags : Tags) : ME LinkService unit :=
  _ ← increment nOutNacks;
  options ← getE ls_options;
  lpPacket ← liftE (Packet_wireDecode wire);
  lpPacket ← liftE (Packet_add NackField header lpPacket);
  lpPacket ← liftE (encodeLpFields options tags lpPacket);
  sendNetPacket now lpPacket.

(** [requestIdlePacket]. *)
Definition requestIdlePacket (now : Z) : ME LinkService unit := sendLpPacket now Packet_new.

(** ** Receiving *)

Definition emit (e : RxEvent) : ME LinkService unit :=
  modifyE (fun s => set_ls_received (ls_received s ++ [e]) s).
(** [LinkService::receiveInterest] and its siblings. *)
Definition receiveInterest i tags ep := _ ← increment nInInterests; emit (RxInterest i tags ep).
Definition receiveData d tags ep := _ ← increment nInData; emit (RxData d tags ep).
Definition receiveNack i header tags ep := _ ← increment nInNacks; emit (RxNack i header tags ep).

Abbreviation has F p := (Packet_has F p).
Abbreviation PrefixAnnField := (PrefixAnnouncementField PrefixAnnouncement_check).

(** The tag of a field that is present. *)
Definition readTag {A B} (F : FieldDecl A) (set : A → B) (dflt : B) (p : Packet)
  : ME LinkService B :=
  if has F p then v ← liftE (Packet_get F p); mret (set v) else mret dflt.

(** [decodeInterest]. *)
Definition decodeInterest (netPkt : Wire) (firstPkt : Packet) (endpointId : EndpointId)
  : ME LinkService unit :=
  _ ← assertE (bool_decide (w_type netPkt = tlv_Interest));
  _ ← assertE (negb (has NackField firstPkt));
  options ← getE ls_options;
  interest ← liftE (Interest_decode netPkt);
  if has NextHopFaceIdField firstPkt && negb (allowLocalFields options) then mret tt
  else
    tags ← readTag NextHopFaceIdField (fun v => set_tag_nextHopFaceId (Some v) Tags_none) Tags_none
             firstPkt;
    if has CachePolicyField firstPkt then increment nInNetInvalid
    else
      tags ← readTag CongestionMarkField (fun v => set_tag_congestionMark (Some v) tags) tags firstPkt;
      tags ← (if allowSelfLearning options
              then readTag NonDiscoveryField (fun _ => set_tag_nonDiscovery true tags) tags firstPkt
              else mret tags);
      if has PrefixAnnField firstPkt then increment nInNetInvalid
      else
        tags ← (if has PitTokenField firstPkt then
                  value ← liftE (Packet_get PitTokenField firstPkt);
                  pitToken ← liftE (makePitToken value);
                  mret (set_tag_pitToken (Some pitToken) tags)
                else mret tags);
        receiveInterest interest tags endpointId.

(** [decodeData]. *)
Definition decodeData (netPkt : Wire) (firstPkt : Packet) (endpointId : EndpointId)
  : ME LinkService unit :=
  _ ← assertE (bool_decide (w_type netPkt = tlv_Data));
  options ← getE ls_options;
  data ← liftE (Data_decode netPkt);
  if has NackField firstPkt then increment nInNetInvalid
  else if has NextHopFaceIdField firstPkt then increment nInNetInvalid
  else
    tags ← readTag CachePolicyField (fun v => set_tag_cachePolicy (Some v) Tags_none) Tags_none firstPkt;
    tags ← readTag CongestionMarkField (fun v => set_tag_congestionMark (Some v) tags) tags firstPkt;
    if has NonDiscoveryField firstPkt then increment nInNetInvalid
    else
      tags ← (if allowSelfLearning options
              then readTag PrefixAnnField (fun v => set_tag_prefixAnnouncement (Some v) tags) tags
                     firstPkt
              else mret tags);
      receiveData data tags endpointId.

(** [decodeNack]. *)
Definition decodeNack (netPkt : Wire) (firstPkt : Packet) (endpointId : EndpointId)
  : ME LinkService unit :=
  _ ← assertE (bool_decide (w_type netPkt = tlv_Interest));
  _ ← assertE (has NackField firstPkt);
  interest ← liftE (Interest_decode netPkt);
  header ← liftE (Packet_get NackField firstPkt);
  if has NextHopFaceIdField firstPkt then increment nInNetInvalid
  else if has CachePolicyField firstPkt then increment nInNetInvalid
  else
    tags ← readTag CongestionMarkField (fun v => set_tag_congestionMark (Some v) Tags_none) Tags_none
             firstPkt;
    if has NonDiscoveryField firstPkt then increment nInNetInvalid
    else if has PrefixAnnField firstPkt then increment nInNetInvalid
    else receiveNack interest header tags endpointId.

(** [decodeNetPacket]. *)
Definition decodeNetPacket (netPkt : Wire) (firstPkt : Packet) (endpointId : EndpointId)
  : ME LinkService unit :=
  catchTlv
    (if bool_decide (w_type netPkt = tlv_Interest) then
       if has NackField firstPkt then decodeNack netPkt firstPkt endpointId
       else decodeInterest netPkt firstPkt endpointId
     else if bool_decide (w_type netPkt = tlv_Data) then decodeData netPkt firstPkt endpointId
     else increment nInNetInvalid)
    (increment nInNetInvalid).

(** [doReceivePacket], from the check of the Fragment on. *)
Definition receiveLpPacket (now : Z) (pkt : Packet) (endpoint : EndpointId) : ME LinkService unit :=
  options ← getE ls_options;
  if negb (has FragmentField pkt) then mret tt
  else if (has FragIndexField pkt || has FragCountField pkt) && negb (allowReassembly options)
  then mret tt
  else
    result ← zoomE ls_reassembler set_ls_reassembler (receiveFragment now endpoint pkt);
    match result with
    | Some (netPkt, firstPkt) => decodeNetPacket netPkt firstPkt endpoint
    | None => mret tt
    end.
(** [doReceivePacket] with reliability off; [doReceivePacketR] is the whole
    function, and equal to this one then. *)
Definition doReceivePacket (now : Z) (packet : Wire) (endpoint : EndpointId)
  : ME LinkService unit :=
  catchTlv (pkt ← liftE (Packet_wireDecode packet); receiveLpPacket now pkt endpoint)
    (increment nInLpInvalid).

(** [Transport::receive], which the subclasses call with what they read. *)
Definition Transport_receive (now : Z) (packet : Wire) (endpoint : EndpointId)
  : ME LinkService unit :=
  _ ← assertE (bool_decide (t_mtu transport = MTU_UNLIMITED ∨
                            Z.of_nat (Wire_size packet) ≤ u64 (t_mtu transport)));
  _ ← increment nInPackets;
  _ ← addCount nInBytes (Z.of_nat (Wire_size packet));
  doReceivePacket now packet endpoint.

(** The drop timer of a partial packet: [timeoutPartialPacket] with the
    counting slot of [beforeTimeout]. *)
Definition onReassemblyTimeout (key : Key) : ME LinkService unit :=
  r ← getE ls_reassembler;
  let '(fired, r') := timeoutPartialPacket key r in
  _ ← modifyE (set_ls_reassembler r');
  if fired is Some _ then increment nReassemblyTimeouts else mret tt.
End service.
Arguments RxEvent : clear implicits.
Arguments RxEvent C : rename.
Arguments LinkService : clear implicits.
Arguments LinkService C : rename.

(** ** Robustness of the receiving side *)

Lemma decode_int_enum_throws b f : readNonNegativeIntegerAs_int b = Fault f → f = Throw TlvError.
Proof.
  unfold readNonNegativeIntegerAs_int. destruct (readNonNegativeInteger_block b) as [n|g] eqn:E; simpl.
  - case_bool_decide; congruence.
  - intros [= <-]. by eapply readNonNegativeInteger_throws.
Qed.

(** Every decoder of a field throws [tlv::Error] or a subclass of it only. *)
Class FieldThrows {A} (F : FieldDecl A) : Prop :=
  field_throws b f : F_decodeHelper F b = Fault f → isTlvError f = true.

#[export] Instance uint64_throws type rep : FieldThrows (field_uint64 type rep).
Proof. intros b f. simpl. unfold decode_uint64. case_bool_decide; [by intros [= <-]|done]. Qed.
#[export] Instance NonNegativeInteger_throws type : FieldThrows (field_NonNegativeInteger type).
Proof. by intros b f ->%readNonNegativeInteger_throws. Qed.
#[export] Instance Fragment_throws : FieldThrows FragmentField.
Proof. intros b f. simpl. unfold decode_range. case_bool_decide; [by intros [= <-]|done]. Qed.
#[export] Instance PitToken_throws : FieldThrows PitTokenField.
Proof. intros b f. simpl. unfold decode_range. case_bool_decide; [by intros [= <-]|done]. Qed.
#[export] Instance NonDiscovery_throws : FieldThrows NonDiscoveryField.
Proof. intros b f. simpl. unfold decode_EmptyValue. case_bool_decide; [by intros [= <-]|done]. Qed.
#[export] Instance Nack_throws : FieldThrows NackField.
Proof.
  intros b f. simpl. unfold NackHeader_wireDecode.
  destruct (Wire_parse _) as [[|e els]|g] eqn:E; simpl; [done| |].
  - case_bool_decide; [by intros ->%decode_int_enum_throws|by intros [= <-]].
  - intros [= <-]. by apply Wire_parse_throws in E as ->.
Qed.
#[export] Instance CachePolicy_throws : FieldThrows CachePolicyField.
Proof.
  intros b f. simpl. unfold CachePolicy_wireDecode.
  destruct (Wire_parse _) as [[|e els]|g] eqn:E; simpl; [by intros [= <-]| |].
  - case_bool_decide; [|by intros [= <-]].
    destruct (readNonNegativeIntegerAs_int e) as [n|g] eqn:En; simpl.
    + case_bool_decide; [by intros [= <-]|done].
    + intros [= <-]. by apply decode_int_enum_throws in En as ->.
  - intros [= <-]. by apply Wire_parse_throws in E as ->.
Qed.
Lemma PrefixAnnouncement_throws (C : NetCodec) :
  announcements_checked C → FieldThrows (PrefixAnnouncementField PrefixAnnouncement_check).
Proof.
  intros Hann b f. simpl. unfold PrefixAnnouncementHeader_wireDecode.
  destruct (Wire_parse _) as [els|g] eqn:E; simpl.
  - destruct (List.find _ els) as [d|]; [|by intros [= <-]].
    destruct (PrefixAnnouncement_check d) eqn:Ec; simpl; [done|]. intros [= <-].
    by eapply Hann.
  - intros [= <-]. by apply Wire_parse_throws in E as ->.
Qed.

Create HintDb link.

Section receive.
Context {C : NetCodec} {L : NetCodecLaws C}.
Implicit Types s : LinkService C.

(** [s'] is [s] with counters changed and at most [n] signals more. *)
Definition rx (n : nat) s s' : Prop :=
  ls_options s' = ls_options s ∧ ls_reassembler s' = ls_reassembler s ∧
  ls_lastSeqNo s' = ls_lastSeqNo s ∧ ls_nextMarkTime s' = ls_nextMarkTime s ∧
  ls_sent s' = ls_sent s ∧
  ∃ events, ls_received s' = ls_received s ++ events ∧ (length events ≤ n)%nat.

Lemma rx_refl n s : rx n s s.
Proof. split_and!; [done..|]. exists []. rewrite app_nil_r. split; [done|simpl; lia]. Qed.
Lemma rx_trans n m s1 s2 s3 : rx n s1 s2 → rx m s2 s3 → rx (n + m) s1 s3.
Proof.
  intros (?&?&?&?&?&ev1&E1&?) (?&?&?&?&?&ev2&E2&?). split_and!; [congruence..|].
  exists (ev1 ++ ev2). rewrite E2, E1, length_app, app_assoc. split; [done|lia].
Qed.
Lemma rx_mono n m s s' : (n ≤ m)%nat → rx n s s' → rx m s s'.
Proof. intros Hnm (?&?&?&?&?&ev&?&?). split_and!; [done..|]. exists ev. split; [done|lia]. Qed.

(** Announcements are not decoded, or checked by code that throws
    [tlv::Error]s only. *)
Definition announcementsSafe (options : LinkOptions) : Prop :=
  allowSelfLearning options = false ∨ announcements_checked C.

(** [m] decodes: it emits at most [n] signals, none when it throws, and throws
    only [tlv::Error]s. *)
Definition decodes {A} (n : nat) (m : ME (LinkService C) A) : Prop :=
  ∀ s, announcementsSafe (ls_options s) → wpE m (fun r s' => match r with
    | Ok _ => rx n s s'
    | Fault f => rx 0 s s' ∧ isTlvError f = true
    end) s.

Lemma decodes_bind {A B} n (m : ME _ A) (k : A → ME _ B) :
  decodes 0 m → (∀ a, decodes n (k a)) → decodes n (m ≫= k).
Proof.
  intros Hm Hk s Hsafe. apply wpE_bind. eapply wpE_mono; [by apply Hm|]. intros [a|f] s1 H1; [|done].
  eapply wpE_mono; [apply Hk; by destruct H1 as [-> _]|]. intros [b|f] s2 H2; [exact (rx_trans 0 n _ _ _ H1 H2)|].
  destruct H2 as [H2 Hf]. split; [exact (rx_trans 0 0 _ _ _ H1 H2)|done].
Qed.
(** What is read of the options is safe. *)
Lemma decodes_options {B} n (k : LinkOptions → ME _ B) :
  (∀ options, announcementsSafe options → decodes n (k options)) → decodes n (getE ls_options ≫= k).
Proof.
  intros Hk s Hsafe. apply wpE_bind, wpE_get. by apply Hk.
Qed.
Lemma decodes_ret {A} n (a : A) : decodes n (mret a).
Proof. intros s _. apply rx_refl. Qed.
Lemma decodes_assert n b : b = true → decodes n (assertE b).
Proof. intros -> s _. apply rx_refl. Qed.
Lemma decodes_lift {A} n (m : outcome A) :
  (∀ f, m = Fault f → isTlvError f = true) → decodes n (liftE m).
Proof. intros Hm s _. unfold wpE, liftE. simpl. destruct m; [apply rx_refl|]. auto using rx_refl. Qed.
Lemma decodes_addCount n c k : decodes n (addCount c k).
Proof. intros s _. split_and!; [done..|]. exists []. simpl. rewrite app_nil_r. split; [done|lia]. Qed.
Lemma decodes_emit e : decodes 1 (emit e).
Proof. intros s _. split_and!; [done..|]. by exists [e]. Qed.
Lemma decodes_if {A} n (b : bool) (m1 m2 : ME _ A) :
  (b = true → decodes n m1) → (b = false → decodes n m2) → decodes n (if b then m1 else m2).
Proof. destruct b; auto. Qed.
Lemma decodes_field {A} n (F : FieldDecl A) `{!FieldThrows F} p :
  Packet_has F p = true → decodes n (liftE (Packet_get F p)).
Proof.
  intros Hh. apply decodes_lift. intros f. rewrite Packet_get_fields.
  rewrite Packet_has_fields in Hh. destruct (fieldsAt _ _) as [|b l]; [done|]. clear Hh.
  unfold F_decode. case_bool_decide; [by intros [= <-]|apply field_throws].
Qed.
Lemma decodes_readTag {A B} n (F : FieldDecl A) `{!FieldThrows F} (set : A → B) dflt p :
  decodes n (readTag F set dflt p).
Proof.
  unfold readTag. apply decodes_if; intros H; [|apply decodes_ret].
  apply decodes_bind; [by apply decodes_field|]. intros. apply decodes_ret.
Qed.

#[local] Hint Resolve decodes_ret decodes_addCount decodes_emit decodes_readTag : link.
#[local] Hint Extern 1 (FieldThrows _) => apply _ : link.

Lemma decodes_receiveInterest i tags ep : decodes 1 (receiveInterest i tags ep).
Proof. apply decodes_bind; auto with link. Qed.
Lemma decodes_receiveData d tags ep : decodes 1 (receiveData d tags ep).
Proof. apply decodes_bind; auto with link. Qed.
Lemma decodes_receiveNack i h tags ep : decodes 1 (receiveNack i h tags ep).
Proof. apply decodes_bind; auto with link. Qed.
#[local] Hint Resolve decodes_receiveInterest decodes_receiveData decodes_receiveNack : link.

Lemma makePitToken_throws buf f : makePitToken buf = Fault f → isTlvError f = true.
Proof. unfold makePitToken. case_bool_decide; [by intros [= <-]|done]. Qed.

(** One step of a decoder. *)
Ltac decode_step :=
  match goal with
  | |- decodes _ (getE ls_options ≫= _) => apply decodes_options; intros ??
  | |- decodes _ (_ ≫= _) => apply decodes_bind; [|intros ?]
  | |- decodes _ (if _ then _ else _) => apply decodes_if; intros ?
  | |- decodes _ (assertE _) => apply decodes_assert
  | |- decodes _ (liftE (Interest_decode _)) => apply decodes_lift, Interest_decode_throws
  | |- decodes _ (liftE (Data_decode _)) => apply decodes_lift, Data_decode_throws
  | |- decodes _ (liftE (makePitToken _)) => apply decodes_lift, makePitToken_throws
  | |- decodes _ (liftE (Packet_get _ _)) => apply decodes_field; [apply _|done]
  | |- decodes _ _ => solve [auto with link]
  end.

Lemma decodes_Interest netPkt first ep :
  w_type netPkt = tlv_Interest → Packet_has NackField first = false →
  decodes 1 (decodeInterest netPkt first ep).
Proof using L.
  intros Ht Hn. unfold decodeInterest. repeat decode_step.
  - by apply bool_decide_eq_true.
  - by rewrite Hn.
Qed.
Lemma decodes_Data netPkt first ep :
  w_type netPkt = tlv_Data → decodes 1 (decodeData netPkt first ep).
Proof using L.
  intros Ht. unfold decodeData. repeat decode_step; [by apply bool_decide_eq_true|].
  match goal with Hsafe : announcementsSafe _ |- _ => destruct Hsafe as [|Hann]; [congruence|] end.
  apply decodes_readTag. by apply PrefixAnnouncement_throws.
Qed.
Lemma decodes_Nack netPkt first ep :
  w_type netPkt = tlv_Interest → Packet_has NackField first = true →
  decodes 1 (decodeNack netPkt first ep).
Proof using L.
  intros Ht Hn. unfold decodeNack. repeat decode_step; [by apply bool_decide_eq_true|done].
Qed.

(** After the handler nothing is thrown any more. *)
Lemma decodes_catchTlv n (m h : ME (LinkService C) unit) :
  decodes n m → (∀ s, ∃ s', h s = (Ok tt, s') ∧ rx n s s') →
  ∀ s, announcementsSafe (ls_options s) →
    wpE (catchTlv m h) (fun r s' => r = Ok tt ∧ rx n s s') s.
Proof.
  intros Hm Hh s Hsafe. apply wpE_catchTlv. eapply wpE_mono; [by apply Hm|]. intros [[]|f] s1 H1; [done|].
  destruct H1 as [H1 ->]. unfold wpE. destruct (Hh s1) as (s2 & -> & H2).
  split; [done|]. exact (rx_trans 0 n _ _ _ H1 H2).
Qed.

Lemma increment_rx n c s : ∃ s', addCount c 1 s = (Ok tt, s') ∧ rx n s s'.
Proof. eexists. split; [done|]. exact (rx_refl n s). Qed.

Lemma decodeNetPacket_ok netPkt first ep s :
  announcementsSafe (ls_options s) →
  wpE (decodeNetPacket netPkt first ep) (fun r s' => r = Ok tt ∧ rx 1 s s') s.
Proof using L.
  intros Hsafe. apply decodes_catchTlv; [|apply increment_rx|done].
  apply decodes_if; intros Hi.
  - apply bool_decide_eq_true in Hi. apply decodes_if; intros Hn.
    + by apply decodes_Nack.
    + by apply decodes_Interest.
  - apply decodes_if; intros Hd; [|auto with link].
    apply bool_decide_eq_true in Hd. by apply decodes_Data.
Qed.

(** What a received element may change. *)
Definition received_ok s s' : Prop :=
  Reassembler_ok (ls_reassembler s') ∧ ls_options s' = ls_options s ∧
  ls_lastSeqNo s' = ls_lastSeqNo s ∧ ls_nextMarkTime s' = ls_nextMarkTime s ∧
  ls_sent s' = ls_sent s ∧
  ∃ events, ls_received s' = ls_received s ++ events ∧ (length events ≤ 1)%nat.

Lemma rx_received_ok s s1 s2 :
  Reassembler_ok (ls_reassembler s1) → rx 0 s (set_ls_reassembler (ls_reassembler s) s1) → rx 1 s1 s2 →
  received_ok s s2.
Proof.
  intros Hr (?&_&?&?&?&ev1&E1&?) (?&Er&?&?&?&ev2&E2&?). simpl in *.
  split_and!; [by rewrite Er|congruence..|]. exists (ev1 ++ ev2).
  rewrite E2, E1, length_app, app_assoc. split; [done|lia].
Qed.

Lemma received_ok_refl s : Reassembler_ok (ls_reassembler s) → received_ok s s.
Proof. intros Hr. split_and!; [done..|]. exists []. rewrite app_nil_r. split; [done|simpl; lia]. Qed.
Lemma receiveLpPacket_ok now pkt ep s :
  Packet_bytes pkt → Reassembler_ok (ls_reassembler s) → announcementsSafe (ls_options s) →
  wpE (receiveLpPacket now pkt ep) (fun r s' => received_ok s s' ∧ (r = Ok tt ∨ r = Fault (Throw TlvError))) s.
Proof using L.
  intros Hpb Hr Hsafe. pose proof (received_ok_refl s Hr) as Hrefl. unfold receiveLpPacket.
  apply wpE_bind, wpE_get. destruct (Packet_has FragmentField pkt) eqn:Hf; cbn [negb]; [|by split; [|left]].
  destruct (_ && _); [by split; [|left]|]. apply wpE_bind, wpE_zoom.
  eapply wpE_mono; [exact (receiveFragment_ok now ep pkt (ls_reassembler s) Hr Hf Hpb)|].
  intros out r' (Hr' & _ & Hthrow).
  assert (rx 0 s (set_ls_reassembler (ls_reassembler s) (set_ls_reassembler r' s))) as Hrx.
  { split_and!; [done..|]. exists []. rewrite app_nil_r. split; [done|simpl; lia]. }
  destruct out as [[[netPkt first]|]|f].
  - eapply wpE_mono; [by apply decodeNetPacket_ok|]. intros r s' [-> Hs']. split; [|by left].
    by apply (rx_received_ok s (set_ls_reassembler r' s)).
  - apply wpE_ret. split; [|by left].
    apply (rx_received_ok s (set_ls_reassembler r' s)); [done|done|apply rx_refl].
  - rewrite (Hthrow f eq_refl). split; [|by right].
    apply (rx_received_ok s (set_ls_reassembler r' s)); [done|done|apply rx_refl].
Qed.
Lemma doReceivePacket_ok now packet ep s :
  Wire_ok packet → w_elements packet = [] → Reassembler_ok (ls_reassembler s) →
  announcementsSafe (ls_options s) →
  wpE (doReceivePacket now packet ep) (fun r s' => r = Ok tt ∧ received_ok s s') s.
Proof using L.
  intros Hw Hel Hr Hsafe. pose proof (received_ok_refl s Hr) as Hrefl.
  unfold doReceivePacket. apply wpE_catchTlv, wpE_bind, wpE_lift.
  destruct (Packet_wireDecode packet) as [pkt|f] eqn:Ed; [|by apply Packet_wireDecode_throws in Ed as ->].
  pose proof Hw as (Hv & Hb & _). pose proof (Packet_wireDecode_bytes packet pkt Hv Hb Hel Ed) as Hpb.
  eapply wpE_mono; [by apply receiveLpPacket_ok|]. intros r s' [Hs' [->| ->]]; [done|]. by split.
Qed.
End receive.

(** ** Properties of the receiving side *)

(** Receiving any element returns. *)
Theorem receive_returns {C : NetCodec} {L : NetCodecLaws C} now buffer packet ep
    (s : LinkService C) :
  bytes_ok buffer → Z.of_nat (length buffer) < 2 ^ 64 → Wire_ofSpan buffer = Ok packet →
  Reassembler_ok (ls_reassembler s) → announcementsSafe (ls_options s) →
  ∃ s', doReceivePacket now packet ep s = (Ok tt, s') ∧ received_ok s s'.
Proof.
  intros Hb Hl Hw Hr Hsafe. destruct (Wire_ofSpan_inv buffer packet Hb Hw) as (_ & Hel & _).
  destruct (wpE_elim _ _ _ (doReceivePacket_ok now packet ep s
    (Wire_ofSpan_ok buffer packet Hb Hl Hw) Hel Hr Hsafe)) as (r & s' & E & -> & Hok).
  by exists s'.
Qed.
