(* ===== verification/LinkSend.v ===== *)
(** * The sending side of the link service

    What [GenericLinkService] puts on the wire for one network packet: the
    fields of the tags, the fragments, the sequence numbers and the congestion
    marks; that it never fails and never exceeds the MTU. *)

From S2P Require Import Transport.
From S2P Require Import Prelude Tlv Encoding Packet LpPacket LpFragmenter LpReassembler GenericLinkService.
Local Open Scope Z_scope.

(** ** The fields of the tags *)

(** The value has an encoding that can go on the wire. *)
Definition encodable {A} (F : FieldDecl A) (v : A) : Prop :=
  ∃ value, F_encode F v = Ok (Build_Block (F_type F) value) ∧
    Z.of_nat (length value) < 2 ^ 32 ∧ bytes_ok value.

Definition tagBlocks {A} (F : FieldDecl A) (tag : option A) : list Block :=
  match tag with
  | Some v => match F_encode F v with Ok b => [b] | Fault _ => [] end
  | None => []
  end.

Lemma encodable_NonNegativeInteger type v : encodable (field_NonNegativeInteger type) v.
Proof.
  exists (prependNonNegativeInteger v []). split; [done|].
  rewrite length_prependNonNegativeInteger. pose proof (sizeOfNonNegativeInteger_le v).
  split; [lia|apply prependNonNegativeInteger_bytes].
Qed.

(** The types the fragmenter uses. *)
Definition fragTypes : list Z := [lp_Fragment; lp_FragIndex; lp_FragCount].

Section add_field.
Context {A : Type} (F : FieldDecl A) `{!Registered F}.
Context (Htype : F_type F ∉ fragTypes).

Lemma sendable_add v p netPkt :
  sendable p netPkt → encodable F v → fieldsAt (F_type F) (p_elements p) = [] →
  ∃ p', Packet_add F v p = Ok p' ∧ sendable p' netPkt ∧
    ∀ type, fieldsAt type (p_elements p') =
      fieldsAt type (p_elements p) ++ (if bool_decide (type = F_type F) then tagBlocks F (Some v) else []).
Proof using Registered0 Htype.
  intros [Hok Hw Hf Hi Hc Hn Hb] (value & Henc & Hl & Hvb) Hnone.
  destruct (Packet_add_spec F v value p Hok Henc ltac:(lia) (or_intror Hnone))
    as (p' & Hadd & Hok' & Hw' & Hp & Hfields).
  exists p'. split; [done|].
  assert (∀ type, type ∈ fragTypes → fieldsAt type (p_elements p') = fieldsAt type (p_elements p))
    as Hsame.
  { intros type Ht. rewrite Hfields, bool_decide_false, app_nil_r; [done|]. intros ->. done. }
  split.
  - split; [done|done| | | |done|].
    + by rewrite Hsame by set_solver.
    + by rewrite Hsame by set_solver.
    + by rewrite Hsame by set_solver.
    + unfold Packet_bytes. rewrite Hp. by constructor.
  - intros type. rewrite Hfields. unfold tagBlocks. by rewrite Henc.
Qed.

Lemma sendable_addTag tag p netPkt :
  sendable p netPkt → (∀ v, tag = Some v → encodable F v) →
  fieldsAt (F_type F) (p_elements p) = [] →
  ∃ p', addTag F tag p = Ok p' ∧ sendable p' netPkt ∧
    ∀ type, fieldsAt type (p_elements p') =
      fieldsAt type (p_elements p) ++ (if bool_decide (type = F_type F) then tagBlocks F tag else []).
Proof using Registered0 Htype.
  intros Hs Henc Hnone. destruct tag as [v|]; [apply sendable_add; auto|].
  exists p. split_and!; [done..|]. intros type. simpl. case_bool_decide; by rewrite app_nil_r.
Qed.

Lemma sendable_addTag_if (b : bool) tag p netPkt :
  sendable p netPkt → (∀ v, tag = Some v → encodable F v) →
  fieldsAt (F_type F) (p_elements p) = [] →
  ∃ p', (if b then addTag F tag p else Ok p) = Ok p' ∧ sendable p' netPkt ∧
    ∀ type, fieldsAt type (p_elements p') =
      fieldsAt type (p_elements p) ++
      (if bool_decide (type = F_type F) then if b then tagBlocks F tag else [] else []).
Proof using Registered0 Htype.
  intros Hs Henc Hnone. destruct b; [by apply sendable_addTag|].
  exists p. split_and!; [done..|]. intros type. case_bool_decide; by rewrite app_nil_r.
Qed.
End add_field.

(** The tags a packet may have when it is sent. *)
Record tags_ok (tags : Tags) : Prop := {
  tags_prefixAnnouncement b :
    tag_prefixAnnouncement tags = Some b →
    Z.of_nat (length (Block_encode b [])) < 2 ^ 32 ∧ bytes_ok (Block_encode b []);
  tags_pitToken token :
    tag_pitToken tags = Some token → (1 ≤ length token ≤ 32)%nat ∧ bytes_ok token
}.

(** The types of the fields of the tags. *)
Definition tagTypes : list Z :=
  [lp_IncomingFaceId; lp_CongestionMark; lp_NonDiscovery; lp_PrefixAnnouncement; lp_PitToken].

Section send.
Context {C : NetCodec}.

Lemma encodeSelfLearning_ok (b : bool) tags p netPkt :
  tags_ok tags → sendable p netPkt →
  fieldsAt lp_NonDiscovery (p_elements p) = [] → fieldsAt lp_PrefixAnnouncement (p_elements p) = [] →
  ∃ p', (if b then
      (lpPacket ← addTag NonDiscoveryField (if tag_nonDiscovery tags then Some tt else None) p;
       addTag (PrefixAnnouncementField PrefixAnnouncement_check) (tag_prefixAnnouncement tags) lpPacket)
      else Ok p) = Ok p' ∧ sendable p' netPkt ∧ ∀ type, fieldsAt type (p_elements p') =
    fieldsAt type (p_elements p) ++
      (if bool_decide (type = lp_NonDiscovery) then
         if b then tagBlocks NonDiscoveryField (if tag_nonDiscovery tags then Some tt else None)
         else [] else []) ++
      (if bool_decide (type = lp_PrefixAnnouncement) then
         if b then tagBlocks (PrefixAnnouncementField PrefixAnnouncement_check) (tag_prefixAnnouncement tags)
         else [] else []).
Proof.
  intros Ht Hs Hn Hp. destruct b.
  - destruct (sendable_addTag NonDiscoveryField ltac:(set_solver)
      (if tag_nonDiscovery tags then Some tt else None) p netPkt)
      as (q & -> & Hsq & Hfq); [done|intros [] _; by exists []|done|].
    rewrite bind_Ok.
    destruct (sendable_addTag (PrefixAnnouncementField PrefixAnnouncement_check) ltac:(set_solver)
      (tag_prefixAnnouncement tags) q netPkt) as (q' & Hq' & Hsq' & Hfq'); [done| | |].
    { intros b Hb. destruct (tags_prefixAnnouncement _ Ht b Hb). by eexists. }
    { rewrite Hfq. simpl. by rewrite Hp. }
    exists q'. split_and!; [done..|]. intros type. by rewrite Hfq', Hfq, <-app_assoc.
  - exists p. split_and!; [done..|]. intros type. repeat case_bool_decide; by rewrite !app_nil_r.
Qed.

Lemma encodePitToken_ok tags p netPkt :
  tags_ok tags → sendable p netPkt → fieldsAt lp_PitToken (p_elements p) = [] →
  ∃ p', match tag_pitToken tags with
      | Some pitToken => value ← makePitToken pitToken; Packet_add PitTokenField value p
      | None => Ok p
      end = Ok p' ∧ sendable p' netPkt ∧ ∀ type, fieldsAt type (p_elements p') =
    fieldsAt type (p_elements p) ++
      (if bool_decide (type = lp_PitToken) then tagBlocks PitTokenField (tag_pitToken tags) else []).
Proof.
  intros Ht Hs Hn. destruct (tag_pitToken tags) as [token|] eqn:Etoken.
  - destruct (tags_pitToken _ Ht token Etoken) as [Hlen Htb]. unfold makePitToken.
    rewrite bool_decide_false by (unfold LENGTH_MIN, LENGTH_MAX; lia). rewrite bind_Ok.
    apply sendable_add; [apply _|set_solver|done| |done].
    exists token. split_and!; [done|lia|done].
  - exists p. split_and!; [done..|]. intros type. case_bool_decide; by rewrite app_nil_r.
Qed.

Lemma encodeLpFields_ok options tags p netPkt :
  tags_ok tags → sendable p netPkt →
  (∀ type, type ∈ tagTypes → fieldsAt type (p_elements p) = []) →
  ∃ p', encodeLpFields options tags p = Ok p' ∧ sendable p' netPkt ∧
    ∀ type, fieldsAt type (p_elements p') =
      fieldsAt type (p_elements p) ++
      (if bool_decide (type = lp_IncomingFaceId) then
         if allowLocalFields options then tagBlocks IncomingFaceIdField (tag_incomingFaceId tags)
         else [] else []) ++
      (if bool_decide (type = lp_CongestionMark)
       then tagBlocks CongestionMarkField (tag_congestionMark tags) else []) ++
      (if bool_decide (type = lp_NonDiscovery) then
         if allowSelfLearning options
         then tagBlocks NonDiscoveryField (if tag_nonDiscovery tags then Some tt else None)
         else [] else []) ++
      (if bool_decide (type = lp_PrefixAnnouncement) then
         if allowSelfLearning options
         then tagBlocks (PrefixAnnouncementField PrefixAnnouncement_check) (tag_prefixAnnouncement tags)
         else [] else []) ++
      (if bool_decide (type = lp_PitToken) then tagBlocks PitTokenField (tag_pitToken tags) else []).
Proof.
  intros Ht Hs Hnone. unfold encodeLpFields.
  destruct (sendable_addTag_if IncomingFaceIdField ltac:(set_solver) (allowLocalFields options)
    (tag_incomingFaceId tags) p netPkt) as (p1 & -> & Hs1 & Hf1);
    [done|intros v _; apply encodable_NonNegativeInteger|apply Hnone; set_solver|].
  rewrite bind_Ok.
  destruct (sendable_addTag CongestionMarkField ltac:(set_solver) (tag_congestionMark tags) p1 netPkt)
    as (p2 & -> & Hs2 & Hf2); [done|intros v _; apply encodable_NonNegativeInteger| |].
  { rewrite Hf1, Hnone by set_solver. by rewrite bool_decide_false. }
  rewrite bind_Ok.
  assert (∀ type, type ∈ [lp_NonDiscovery; lp_PrefixAnnouncement; lp_PitToken] →
    fieldsAt type (p_elements p2) = []) as Hnone2.
  { intros type Hty. rewrite Hf2, Hf1, Hnone by set_solver.
    rewrite !bool_decide_false; [done|simpl; set_solver..]. }
  destruct (encodeSelfLearning_ok (allowSelfLearning options) tags p2 netPkt Ht Hs2)
    as (p3 & -> & Hs3 & Hf3); [apply Hnone2; set_solver..|].
  rewrite bind_Ok.
  destruct (encodePitToken_ok tags p3 netPkt Ht Hs3) as (p4 & -> & Hs4 & Hf4).
  { rewrite Hf3, Hnone2 by set_solver. by rewrite !bool_decide_false. }
  exists p4. split_and!; [done..|]. intros type. by rewrite Hf4, Hf3, Hf2, Hf1, <-!app_assoc.
Qed.

(** ** Congestion marks *)

Definition markBlock : Block := Build_Block lp_CongestionMark [1].

(** What [checkCongestionLevel] may do to a packet. *)
Definition marked (q q' : Packet) : Prop := q' = q ∨ Packet_set CongestionMarkField 1 q = Ok q'.

Lemma set_mark q :
  Packet_ok q →
  ∃ q', Packet_set CongestionMarkField 1 q = Ok q' ∧ Packet_ok q' ∧ p_wire q' = None ∧
    (elementsSize (p_elements q') ≤ 5 + elementsSize (p_elements q))%nat ∧
    (Packet_bytes q → Packet_bytes q') ∧
    ∀ type, fieldsAt type (p_elements q') =
      if bool_decide (type = lp_CongestionMark) then [markBlock] else fieldsAt type (p_elements q).
Proof.
  intros Hok. destruct (Packet_set_spec CongestionMarkField 1 [1] q)
    as (q' & Hset & Hok' & Hw & Hp & Hf); [done|done|done|].
  exists q'. split_and!; [done..| | |exact Hf].
  - rewrite Hp, elementsSize_cons. unfold Packet_clear. cbn [p_elements].
    pose proof (elementsSize_filter (fun b => negb (isField CongestionMarkField b)) (p_elements q)).
    change (Block_size _) with 5%nat. lia.
  - unfold Packet_bytes. intros Hb. rewrite Hp. constructor; [by repeat constructor|].
    unfold Packet_clear. cbn [p_elements]. rewrite Forall_forall in Hb |- *.
    intros b. rewrite list_elem_of_In, filter_In. intros [Hin _].
    apply Hb. by apply list_elem_of_In.
Qed.

Implicit Types s : LinkService C.

(** Nothing but the marking state, its counter and the counters of the
    transport changes. *)
Definition quiet s s' : Prop :=
  ls_options s' = ls_options s ∧ ls_reassembler s' = ls_reassembler s ∧
  ls_received s' = ls_received s ∧
  ∀ c, c ∈ [nOutOverMtu; nFragmentationErrors; nInLpInvalid; nInNetInvalid] →
    ls_counters s' c = ls_counters s c.

Lemma quiet_refl s : quiet s s.
Proof. done. Qed.
Lemma quiet_trans s1 s2 s3 : quiet s1 s2 → quiet s2 s3 → quiet s1 s3.
Proof.
  intros (?&?&?&Hc1) (?&?&?&Hc2). split_and!; [congruence..|]. intros c Hc.
  by rewrite Hc2, Hc1.
Qed.
Lemma quiet_addCount c n s :
  c ∉ [nOutOverMtu; nFragmentationErrors; nInLpInvalid; nInNetInvalid] →
  ∃ s', addCount c n s = (Ok tt, s') ∧ quiet s s' ∧ ls_sent s' = ls_sent s ∧
    ls_lastSeqNo s' = ls_lastSeqNo s.
Proof.
  intros Hc. eexists. split; [done|]. split; [|done]. split_and!; [done..|].
  intros c' Hc'. simpl. rewrite decide_False; [done|]. by intros ->.
Qed.

Context (transport : Transport) (now : Z).

Lemma checkCongestionLevel_spec q s :
  Packet_ok q →
  ∃ q' s', checkCongestionLevel transport now q s = (Ok q', s') ∧ marked q q' ∧ quiet s s' ∧
    ls_sent s' = ls_sent s ∧ ls_lastSeqNo s' = ls_lastSeqNo s.
Proof.
  intros Hok. unfold checkCongestionLevel. rewrite (bindE _ _ s s s) by done. cbv zeta.
  case_bool_decide; [exists q, s; split_and!; by auto using quiet_refl || left|].
  case_bool_decide.
  - destruct (ls_nextMarkTime s) as [t|].
    + case_bool_decide; [|exists q, s; split_and!; by auto using quiet_refl || left].
      destruct (set_mark q Hok) as (q' & Hset & _).
      rewrite (bindE _ _ s q' s) by (unfold liftE; by rewrite Hset).
      destruct (quiet_addCount nCongestionMarked 1 s) as (s1 & E1 & Hq & Hs1 & Hl1); [set_solver|].
      rewrite (bindE _ _ s tt s1 E1). eexists q', _.
      split; [done|]. split_and!; [by right| |done|done].
      apply (quiet_trans _ s1); [done|]. done.
    + eexists q, _. split; [done|]. split_and!; [by left|done..].
  - destruct (ls_nextMarkTime s) as [t|].
    + eexists q, _. split; [done|]. split_and!; [by left|done..].
    + exists q, s. split_and!; [done|by left|done..].
Qed.

(** ** One link-layer packet *)

(** The MTU of the face: [None] when unlimited. *)
Definition mtuIs (options : LinkOptions) (mtu : option nat) : Prop :=
  match mtu with
  | Some M => getEffectiveMtu transport options = Z.of_nat M ∧ t_mtu transport < 2 ^ 63
  | None => t_mtu transport = MTU_UNLIMITED ∧ getEffectiveMtu transport options = MTU_UNLIMITED
  end.
Definition fits (mtu : option nat) (n : nat) : Prop :=
  match mtu with Some M => (n ≤ M)%nat | None => True end.
Lemma fits_le mtu n m : (n ≤ m)%nat → fits mtu m → fits mtu n.
Proof. destruct mtu; simpl; lia. Qed.

(** A packet that [sendLpPacket] can be called with. *)
Record txReady (mtu : option nat) (marking : bool) (q : Packet) : Prop := {
  tx_ok : Packet_ok q;
  tx_wire : p_wire q = None;
  tx_encode : ∃ w, Packet_wireEncode q = Ok w ∧ fits mtu (Wire_size w);
  tx_room : marking = true → fits mtu (15 + elementsSize (p_elements q))
}.

(** [w] is the wire of [q], with or without a mark. *)
Definition sentAs (mtu : option nat) (q : Packet) (w : Wire) : Prop :=
  ∃ q', marked q q' ∧ Packet_wireEncode q' = Ok w ∧ fits mtu (Wire_size w).

Lemma not_bare type els b l : type ≠ lp_Fragment → fieldsAt type els = b :: l → isBare els = false.
Proof.
  intros Ht Hf. destruct els as [|e [|??]]; [done| |done]. unfold isBare.
  case_bool_decide as He; [|done]. rewrite fieldsAt_cons, He, bool_decide_false in Hf by auto.
  discriminate Hf.
Qed.

Lemma marked_encode mtu q q' :
  txReady mtu true q → marked q q' → ∃ w, Packet_wireEncode q' = Ok w ∧ fits mtu (Wire_size w).
Proof.
  intros [Hok Hw Henc Hroom] [->|Hset]; [done|].
  destruct (set_mark q Hok) as (q2 & Hset2 & Hok2 & Hw2 & Hsz & _ & Hf). rewrite Hset in Hset2.
  injection Hset2 as <-. rewrite Packet_wireEncode_lp.
  - eexists. split; [done|]. pose proof (Packet_encodeWire_size q' Hw2).
    eapply fits_le; [|by apply Hroom]. lia.
  - apply (not_bare lp_CongestionMark _ markBlock []); [done|].
    by rewrite Hf, bool_decide_true.
Qed.

Lemma Transport_send_spec mtu w s :
  mtuIs (ls_options s) mtu → fits mtu (Wire_size w) →
  t_state transport = TransportState_UP ∨ t_state transport = TransportState_DOWN →
  ∃ s', Transport_send transport w s = (Ok tt, s') ∧ quiet s s' ∧
    ls_sent s' = ls_sent s ++ [w] ∧ ls_lastSeqNo s' = ls_lastSeqNo s.
Proof.
  intros Hm Hfit Hst. unfold Transport_send. rewrite (bindE _ _ s tt s).
  2:{ unfold assertE, liftE. rewrite bool_decide_true; [done|].
      destruct mtu as [M|]; [|left; apply Hm]. right. destruct Hm as [Hm Ht]. simpl in Hfit.
      unfold getEffectiveMtu in Hm. rewrite u64_small by lia. lia. }
  rewrite (bool_decide_false (_ ∧ _)) by (destruct Hst; intros [? ?]; congruence).
  case_bool_decide.
  - destruct (quiet_addCount nOutPackets 1 s) as (s1 & E1 & Hq1 & Hs1 & Hl1); [set_solver|].
    destruct (quiet_addCount nOutBytes (Z.of_nat (Wire_size w)) s1)
      as (s2 & E2 & Hq2 & Hs2 & Hl2); [set_solver|].
    rewrite (bindE _ _ s tt s2) by (rewrite (bindE _ _ s tt s1 E1); exact E2).
    eexists. split; [done|]. cbn. split_and!; [|congruence..].
    apply (quiet_trans _ s1); [done|]. by apply (quiet_trans _ s2).
  - eexists. split; [done|]. by split_and!.
Qed.

Lemma sendLpPacket_spec mtu q s :
  mtuIs (ls_options s) mtu → t_state transport = TransportState_UP ∨ t_state transport = TransportState_DOWN →
  txReady mtu (allowCongestionMarking (ls_options s)) q →
  ∃ s' w, sendLpPacket transport now q s = (Ok tt, s') ∧ quiet s s' ∧
    ls_lastSeqNo s' = ls_lastSeqNo s ∧ ls_sent s' = ls_sent s ++ [w] ∧ sentAs mtu q w.
Proof.
  intros Hm Hst Hq. unfold sendLpPacket. rewrite (bindE _ _ s (ls_options s) s) by done. cbv zeta.
  assert (∃ q' s1 w, (if allowCongestionMarking (ls_options s) then checkCongestionLevel transport now q
      else mret q) s = (Ok q', s1) ∧ quiet s s1 ∧ ls_sent s1 = ls_sent s ∧
      ls_lastSeqNo s1 = ls_lastSeqNo s ∧
      marked q q' ∧ Packet_wireEncode q' = Ok w ∧ fits mtu (Wire_size w))
    as (q' & s1 & w & E1 & Hq1 & Hs1 & Hl1 & Hmark & Henc & Hfit).
  { destruct (allowCongestionMarking _).
    - destruct (checkCongestionLevel_spec q s (tx_ok _ _ _ Hq)) as (q' & s1 & E1 & Hmark & ? & ? & ?).
      destruct (marked_encode mtu q q' Hq Hmark) as (w & Henc & Hfit). exists q', s1, w. by split_and!.
    - destruct (tx_encode _ _ _ Hq) as (w & Henc & Hfit). exists q, s, w. split_and!; first [done|by left]. }
  rewrite (bindE _ _ s q' s1 E1). rewrite (bindE _ _ s1 w s1) by (unfold liftE; by rewrite Henc).
  rewrite bool_decide_false.
  2:{ destruct mtu as [M|]; [|intros [Hu _]; by destruct Hm]. intros [_ Hgt].
      destruct Hm as [Hm Ht]. simpl in Hfit. unfold getEffectiveMtu in *.
      rewrite u64_small in Hgt by lia. lia. }
  destruct (Transport_send_spec mtu w s1) as (s2 & E2 & Hq2 & Hs2 & Hl2); [|done|done|].
  { destruct Hq1 as [-> _]. done. }
  exists s2, w. rewrite Hs2, Hs1, Hl2, Hl1. split_and!; [done|by apply (quiet_trans _ s1)|done|done|].
  by exists q'.
Qed.

Lemma forE_sendLpPacket mtu qs s :
  mtuIs (ls_options s) mtu → t_state transport = TransportState_UP ∨ t_state transport = TransportState_DOWN →
  Forall (txReady mtu (allowCongestionMarking (ls_options s))) qs →
  ∃ s' ws, forE_ qs (sendLpPacket transport now) s = (Ok tt, s') ∧ quiet s s' ∧
    ls_lastSeqNo s' = ls_lastSeqNo s ∧ ls_sent s' = ls_sent s ++ ws ∧ Forall2 (sentAs mtu) qs ws.
Proof.
  intros Hm Hst Hqs. revert s Hm Hqs. induction qs as [|q qs IH]; intros s Hm Hqs; cbn [forE_].
  { exists s, []. rewrite app_nil_r. split_and!; first [done|constructor]. }
  apply Forall_cons in Hqs as [Hq Hqs].
  destruct (sendLpPacket_spec mtu q s Hm Hst Hq) as (s1 & w & E1 & Hq1 & Hl1 & Hs1 & Hw).
  rewrite (bindE _ _ s tt s1 E1). pose proof Hq1 as [Ho _]. rewrite <-Ho in Hm, Hqs.
  destruct (IH s1 Hm Hqs) as (s2 & ws & E2 & Hq2 & Hl2 & Hs2 & Hws).
  exists s2, (w :: ws). rewrite Hs2, Hs1, <-app_assoc, Hl2, Hl1.
  split_and!; [done|by apply (quiet_trans _ s1)|done|done|by constructor].
Qed.

(** ** Sequence numbers *)

(** [qs] are the packets [frags] numbered from the one after [last]. *)
Definition sequenced (last : Z) (frags qs : list Packet) : Prop :=
  length qs = length frags ∧
  ∀ i frag, frags !! i = Some frag →
    ∃ q, qs !! i = Some q ∧ Packet_set SequenceField (u64 (last + 1 + Z.of_nat i)) frag = Ok q.

Lemma assignSequences_spec frags s :
  Forall (fun frag => Packet_ok frag ∧ ∃ payload,
    fieldsAt lp_Fragment (p_elements frag) = [fragmentBlock payload]) frags →
  ∃ qs s', assignSequences frags s = (Ok qs, s') ∧ quiet s s' ∧ ls_sent s' = ls_sent s ∧
    sequenced (ls_lastSeqNo s) frags qs.
Proof.
  intros Hall. revert s. induction Hall as [|frag frags [Hok [payload Hf]] _ IH]; intros s;
    cbn [assignSequences].
  { exists [], s. by split_and!. }
  set (seq := u64 (ls_lastSeqNo s + 1)). rewrite (bindE _ _ s seq s) by done.
  rewrite (bindE _ _ s tt (set_ls_lastSeqNo seq s)) by done.
  destruct (set_sequence frag seq payload Hok Hf) as (q & w & Hset & _).
  rewrite (bindE _ _ _ q (set_ls_lastSeqNo seq s)) by (unfold liftE; by rewrite Hset).
  destruct (IH (set_ls_lastSeqNo seq s)) as (qs & s' & E & Hq & Hs & Hlen & Hseq).
  rewrite (bindE _ _ _ qs s' E). exists (q :: qs), s'. split; [done|]. split; [exact Hq|].
  split; [exact Hs|]. split; [simpl; congruence|].
  intros [|i] frag' Hi; cbn [lookup list_lookup] in Hi |- *.
  - injection Hi as <-. exists q. split; [done|]. rewrite Z.add_0_r. exact Hset.
  - destruct (Hseq i frag' Hi) as (q' & Hq' & Hset'). exists q'. split; [done|].
    rewrite <-Hset'. f_equal. cbn [ls_lastSeqNo set_ls_lastSeqNo]. unfold seq, u64.
    transitivity (((ls_lastSeqNo s + 1) mod 2 ^ 64 + (1 + Z.of_nat i)) mod 2 ^ 64).
    + rewrite Zplus_mod_idemp_l. f_equal. lia.
    + f_equal. lia.
Qed.

(** A numbered fragment is ready to be sent. *)
Lemma sequenced_ready p n (mtu' : nat) payloads frags last qs mtu (marking : bool) :
  fragmentsOf p n mtu' 0 payloads frags → sequenced last frags qs →
  fits mtu (mtu' + (if marking then 12 else 0))%nat → Forall (txReady mtu marking) qs.
Proof.
  intros Hfr [Hlen Hseq] Hfit. apply Forall_forall. intros q [i Hi]%list_elem_of_lookup.
  destruct (lookup_lt_is_Some_2 frags i) as [frag Hfi];
    [rewrite <-Hlen; by eapply lookup_lt_Some|].
  destruct (Hseq i frag Hfi) as (q2 & Hq2 & Hset). rewrite Hi in Hq2. injection Hq2 as <-.
  destruct (fragmentsOf_lookup _ _ _ _ _ _ _ _ Hfr Hfi) as (payload & _ & _ & Hf & Hroom).
  destruct (set_sequence frag (u64 (last + 1 + Z.of_nat i)) payload
    (fragment_ok _ _ _ _ _ Hf) (fragment_payload_fields Hf))
    as (q2 & w & Hset2 & Henc & Hok2 & Hw2 & _ & _ & Hsz & Hwsz).
  rewrite Hset in Hset2. injection Hset2 as <-. pose proof (fragment_size Hf) as Hfs.
  unfold MAX_FRAG_OVERHEAD in Hroom. split; [done|done| |].
  - exists w. split; [done|]. eapply fits_le; [|exact Hfit]. lia.
  - intros ->. eapply fits_le; [|exact Hfit]. lia.
Qed.

Lemma single_ready p netPkt (mtu' : nat) w mtu (marking : bool) :
  sendable p netPkt → Packet_wireEncode p = Ok w →
  (MAX_SINGLE_FRAG_OVERHEAD + Wire_size w ≤ mtu')%nat →
  fits mtu (mtu' + (if marking then 12 else 0))%nat → txReady mtu marking p.
Proof.
  intros Hs Hw Hfast Hfit. destruct (sendable_encode Hs) as (w' & Hw' & _ & _ & Hroom).
  rewrite Hw in Hw'. injection Hw' as <-. unfold MAX_SINGLE_FRAG_OVERHEAD in Hfast.
  split; [apply Hs|apply Hs| |].
  - exists w. split; [done|]. eapply fits_le; [|exact Hfit]. lia.
  - intros ->. eapply fits_le; [|exact Hfit]. lia.
Qed.

(** ** One network packet *)

(** The link-layer packets for [p]: itself, or its numbered fragments. *)
Inductive txPlan (options : LinkOptions) (p : Packet) (netPkt : list Z) (last : Z)
  : list Packet → Prop :=
| plan_single : txPlan options p netPkt last [p]
| plan_fragments n mtu' payloads frags qs :
    (2 ≤ n)%nat → (n ≤ fo_nMaxFragments (fragmenterOptions options))%nat →
    length payloads = n → mjoin payloads = netPkt →
    fragmentsOf p n mtu' 0 payloads frags → sequenced last frags qs →
    txPlan options p netPkt last qs.

(** The packet was refused by the fragmenter, or went out. *)
Definition sendOutcome (options : LinkOptions) (p : Packet) (netPkt : list Z) (mtu : option nat)
    s s' : Prop :=
  (ls_sent s' = ls_sent s ∧
   ls_counters s' nFragmentationErrors = u64 (ls_counters s nFragmentationErrors + 1)) ∨
  ∃ qs ws, quiet s s' ∧ ls_sent s' = ls_sent s ++ ws ∧ Forall2 (sentAs mtu) qs ws ∧
    txPlan options p netPkt (ls_lastSeqNo s) qs.

Lemma no_frag_fields p netPkt :
  sendable p netPkt →
  negb (Packet_has FragIndexField p) = true ∧ negb (Packet_has FragCountField p) = true.
Proof.
  intros Hs. rewrite (proj2 (Packet_has_false FragIndexField p) (sendable_index _ _ Hs)).
  by rewrite (proj2 (Packet_has_false FragCountField p) (sendable_count _ _ Hs)).
Qed.

(** The end of [sendNetPacket], once the fragments are made. *)
Lemma sendFragments_spec options p netPkt mtu frags s :
  sendable p netPkt → mtuIs (ls_options s) mtu →
  t_state transport = TransportState_UP ∨ t_state transport = TransportState_DOWN → options = ls_options s →
  (frags = [p] ∧ txReady mtu (allowCongestionMarking options) p ∨
   ∃ n mtu' payloads, (2 ≤ n)%nat ∧ (n ≤ fo_nMaxFragments (fragmenterOptions options))%nat ∧
     length payloads = n ∧ mjoin payloads = netPkt ∧ fragmentsOf p n mtu' 0 payloads frags ∧
     fits mtu (mtu' + (if allowCongestionMarking options then 12 else 0))%nat) →
  ∃ s', (_ ← (match frags with
         | [front] => _ ← assertE (negb (Packet_has FragIndexField front));
                      assertE (negb (Packet_has FragCountField front))
         | _ => mret tt
         end);
    frags ← (if bool_decide (1 < length frags)%nat then assignSequences frags else mret frags);
    forE_ frags (sendLpPacket transport now)) s = (Ok tt, s') ∧
    sendOutcome options p netPkt mtu s s'.
Proof.
  intros Hs Hm Hst -> [[-> Hready]|(n & mtu' & payloads & Hn & Hmax & Hlen & Hcat & Hfr & Hfit)].
  - destruct (no_frag_fields p netPkt Hs) as [H1 H2]. rewrite H1, H2.
    rewrite (bindE _ _ s tt s) by done. rewrite (bindE _ _ s [p] s) by done.
    destruct (forE_sendLpPacket mtu [p] s Hm Hst) as (s' & ws & E & Hq & _ & Hsent & Hws);
      [by constructor|].
    exists s'. split; [exact E|]. right. exists [p], ws. split_and!; try done. constructor.
  - pose proof (fragmentsOf_length _ _ _ _ _ _ Hfr) as Hl.
    rewrite (bindE _ _ s tt s) by (destruct frags as [|? [|??]]; simpl in *; [done|lia|done]).
    rewrite bool_decide_true by lia.
    destruct (assignSequences_spec frags s) as (qs & s1 & E1 & Hq1 & Hs1 & Hseq).
    { apply Forall_forall. intros frag [i Hi]%list_elem_of_lookup.
      destruct (fragmentsOf_lookup _ _ _ _ _ _ _ _ Hfr Hi) as (payload & _ & _ & Hf & _).
      split; [apply Hf|]. exists payload. exact (fragment_payload_fields Hf). }
    rewrite (bindE _ _ s qs s1 E1). pose proof Hq1 as [Ho _].
    destruct (forE_sendLpPacket mtu qs s1) as (s' & ws & E & Hq & _ & Hsent & Hws);
      [by rewrite Ho|done|rewrite Ho; by eapply sequenced_ready|].
    exists s'. split; [exact E|]. right. exists qs, ws. rewrite Hsent, Hs1.
    split_and!; [by apply (quiet_trans _ s1)|done|done|by eapply plan_fragments].
Qed.

Lemma sendNetPacket_spec p netPkt mtu s :
  sendable p netPkt → mtuIs (ls_options s) mtu →
  t_state transport = TransportState_UP ∨ t_state transport = TransportState_DOWN →
  match mtu with Some M => MIN_MTU ≤ Z.of_nat M ∧ allowFragmentation (ls_options s) = true
               | None => True end →
  ∃ s', sendNetPacket transport now p s = (Ok tt, s') ∧
    sendOutcome (ls_options s) p netPkt mtu s s'.
Proof.
  intros Hs Hm Hst Hlim. unfold sendNetPacket. rewrite (bindE _ _ s (ls_options s) s) by done.
  cbv zeta. unfold MIN_MTU in Hlim. destruct mtu as [M|].
  - destruct Hlim as [Hmin Hfrag]. pose proof Hm as [HM _]. rewrite HM, Hfrag.
    assert (Z.of_nat M ≠ MTU_UNLIMITED) as Hne by (unfold MTU_UNLIMITED; lia).
    rewrite (bool_decide_true (Z.of_nat M ≠ MTU_UNLIMITED)), andb_true_r by done.
    set (mtuZ := if allowCongestionMarking (ls_options s)
                 then Z.of_nat M - CONGESTION_MARK_SIZE else Z.of_nat M).
    assert (0 ≤ mtuZ ∧
      (Z.to_nat mtuZ + (if allowCongestionMarking (ls_options s) then 12 else 0) = M)%nat) as [Hpos HmtuZ].
    { unfold mtuZ. change CONGESTION_MARK_SIZE with 12.
      destruct (allowCongestionMarking (ls_options s)); lia. }
    rewrite (bindE _ _ s tt s) by (unfold assertE, liftE; by rewrite bool_decide_true by auto).
    rewrite (bool_decide_true (mtuZ ≠ MTU_UNLIMITED)) by (unfold MTU_UNLIMITED; lia). cbn [andb].
    destruct (fragmentPacket_spec Hs (fragmenterOptions (ls_options s)) (Z.to_nat mtuZ))
      as (w & Hw & Hspec). cbv zeta in Hspec.
    case_bool_decide as Hfast; [|case_bool_decide as Hbad].
    + rewrite (bindE _ _ s (true, [p]) s) by (unfold liftE; by rewrite Hspec). cbn [negb].
      apply sendFragments_spec; [done|done|done|done|]. left. split; [done|].
      eapply single_ready; [done|done|exact Hfast|]. simpl. lia.
    + rewrite (bindE _ _ s (false, []) s) by (unfold liftE; by rewrite Hspec). cbn [negb].
      eexists. split; [done|]. left. split; [done|]. simpl. done.
    + destruct Hspec as (Hn & payloads & frags & Hfr & Hcat & Hlen & Hall).
      rewrite (bindE _ _ s (true, frags) s) by (unfold liftE; by rewrite Hfr). cbn [negb].
      apply sendFragments_spec; [done|done|done|done|]. right.
      eexists _, _, payloads. split_and!; [exact Hn| |done|done|exact Hall|simpl; lia]. lia.
  - destruct Hm as [Ht Hu]. rewrite Hu.
    rewrite (bool_decide_false (MTU_UNLIMITED ≠ MTU_UNLIMITED)), andb_false_r
      by (intros Hn; by apply Hn).
    rewrite (bindE _ _ s tt s) by done.
    rewrite (bool_decide_false (MTU_UNLIMITED ≠ MTU_UNLIMITED)), andb_false_r
      by (intros Hn; by apply Hn).
    rewrite (bindE _ _ s (true, [p]) s) by done. cbn [negb].
    apply sendFragments_spec; [done|by split|done|done|]. left. split; [done|].
    destruct (sendable_encode Hs) as (w & Hw & _). split; [apply Hs|apply Hs|by exists w|done].
Qed.

(** ** The three kinds of network packets *)

Inductive NetSend : Type :=
| TxInterest (wire : Wire) (tags : Tags)
| TxData (wire : Wire) (tags : Tags)
| TxNack (wire : Wire) (header : Z) (tags : Tags).

Definition transmit (x : NetSend) : ME (LinkService C) unit :=
  match x with
  | TxInterest wire tags => sendInterest transport now wire tags
  | TxData wire tags => sendData transport now wire tags
  | TxNack wire header tags => sendNack transport now wire header tags
  end.
Definition tx_wireOf (x : NetSend) : Wire :=
  match x with TxInterest w _ | TxData w _ | TxNack w _ _ => w end.
Definition tx_tagsOf (x : NetSend) : Tags :=
  match x with TxInterest _ t | TxData _ t | TxNack _ _ t => t end.
Definition tx_nackOf (x : NetSend) : option Z :=
  match x with TxNack _ h _ => Some h | _ => None end.

(** The wire of an Interest or a Data, as [wireEncode] returns it. *)
Record netWire_ok (w : Wire) : Prop := {
  netWire_type : w_type w = tlv_Interest ∨ w_type w = tlv_Data;
  netWire_packet : isNetPacket (w_bytes w) = true;
  netWire_bytes : bytes_ok (w_bytes w);
  netWire_length : Z.of_nat (length (w_bytes w)) < 2 ^ 32
}.
Definition NetSend_ok (x : NetSend) : Prop :=
  netWire_ok (tx_wireOf x) ∧ tags_ok (tx_tagsOf x) ∧
  ∀ header, tx_nackOf x = Some header → is_int_enum header.

Definition bareNetPacket (w : Wire) : Packet := mkPacket None [fragmentBlock (w_bytes w)].

Lemma bareNetPacket_sendable w : netWire_ok w → sendable (bareNetPacket w) (w_bytes w).
Proof.
  intros [Ht Hn Hb Hl]. split; try done.
  - apply (Packet_wireDecode_ok (mkWire (w_type w) [] (w_bytes w) [])).
    + split_and!; [constructor|done|constructor|done|simpl; lia].
    + apply Packet_wireDecode_bare; [done|simpl; lia].
  - by repeat constructor.
Qed.

Lemma bareNetPacket_fields w type :
  type ≠ lp_Fragment → fieldsAt type (p_elements (bareNetPacket w)) = [].
Proof. intros Ht. apply fieldsAt_nil. intros b ->%list_elem_of_singleton. done. Qed.

Lemma encodable_Nack header : is_int_enum header → encodable NackField header.
Proof.
  unfold is_int_enum. intros Hh. eexists. split; [reflexivity|].
  destruct (parse_nested lp_Nack lp_NackReason (u64 header)) as [_ Hl]; [done|]. split; [lia|].
  rewrite Block_encode_app, app_nil_r. cbn [blk_type blk_value].
  rewrite !Forall_app. split_and!; [apply varNumber_ok..|apply prependNonNegativeInteger_bytes].
Qed.

(** The packet [sendNetPacket] is called with. *)
Lemma transmit_packet options x :
  NetSend_ok x →
  ∃ base p,
    (match tx_nackOf x with
     | Some header => Packet_add NackField header (bareNetPacket (tx_wireOf x))
     | None => Ok (bareNetPacket (tx_wireOf x))
     end) = Ok base ∧
    encodeLpFields options (tx_tagsOf x) base = Ok p ∧ sendable p (w_bytes (tx_wireOf x)) ∧
    ∀ type, fieldsAt type (p_elements p) =
      (if bool_decide (type = lp_Fragment) then [fragmentBlock (w_bytes (tx_wireOf x))] else []) ++
      (if bool_decide (type = lp_Nack) then tagBlocks NackField (tx_nackOf x) else []) ++
      (if bool_decide (type = lp_IncomingFaceId) then
         if allowLocalFields options
         then tagBlocks IncomingFaceIdField (tag_incomingFaceId (tx_tagsOf x)) else [] else []) ++
      (if bool_decide (type = lp_CongestionMark)
       then tagBlocks CongestionMarkField (tag_congestionMark (tx_tagsOf x)) else []) ++
      (if bool_decide (type = lp_NonDiscovery) then
         if allowSelfLearning options
         then tagBlocks NonDiscoveryField (if tag_nonDiscovery (tx_tagsOf x) then Some tt else None)
         else [] else []) ++
      (if bool_decide (type = lp_PrefixAnnouncement) then
         if allowSelfLearning options
         then tagBlocks (PrefixAnnouncementField PrefixAnnouncement_check)
                (tag_prefixAnnouncement (tx_tagsOf x)) else [] else []) ++
      (if bool_decide (type = lp_PitToken)
       then tagBlocks PitTokenField (tag_pitToken (tx_tagsOf x)) else []).
Proof.
  intros (Hw & Ht & Hh). pose proof (bareNetPacket_sendable _ Hw) as Hs.
  destruct (sendable_addTag NackField ltac:(set_solver) (tx_nackOf x)
    (bareNetPacket (tx_wireOf x)) (w_bytes (tx_wireOf x))) as (base & Hbase & Hsb & Hfb);
    [done|intros v Hv; apply encodable_Nack, Hh, Hv|by apply bareNetPacket_fields|].
  destruct (encodeLpFields_ok options (tx_tagsOf x) base (w_bytes (tx_wireOf x)) Ht Hsb)
    as (p & Hp & Hsp & Hfp).
  { intros type Hty. rewrite Hfb, bareNetPacket_fields, bool_decide_false;
      [done|set_solver|intros ->; simpl in Hty; set_solver]. }
  exists base, p. split_and!; [|done|done|].
  - rewrite <-Hbase. unfold addTag. by destruct (tx_nackOf x).
  - intros type. rewrite Hfp, Hfb, <-app_assoc. f_equal. case_bool_decide as Hf.
    + by subst type.
    + by apply bareNetPacket_fields.
Qed.

Lemma transmit_eq x s base p :
  NetSend_ok x →
  (match tx_nackOf x with
   | Some header => Packet_add NackField header (bareNetPacket (tx_wireOf x))
   | None => Ok (bareNetPacket (tx_wireOf x))
   end) = Ok base →
  encodeLpFields (ls_options s) (tx_tagsOf x) base = Ok p →
  ∃ s1, quiet s s1 ∧ ls_sent s1 = ls_sent s ∧ ls_lastSeqNo s1 = ls_lastSeqNo s ∧
    transmit x s = sendNetPacket transport now p s1.
Proof.
  intros (Hw & _) Hbase Hp.
  assert (Packet_wireDecode (tx_wireOf x) = Ok (bareNetPacket (tx_wireOf x))) as Hdec.
  { destruct Hw as [Ht _ _ Hl]. apply Packet_wireDecode_bare; [done|lia]. }
  assert (∀ c, c ∈ [nOutInterests; nOutData; nOutNacks] →
    ∃ s1, addCount c 1 s = (Ok tt, s1) ∧ quiet s s1 ∧ ls_sent s1 = ls_sent s ∧
      ls_lastSeqNo s1 = ls_lastSeqNo s) as Hcount by (intros c Hc; apply quiet_addCount; set_solver).
  destruct x as [wire tags|wire tags|wire header tags]; simpl in *.
  - destruct (Hcount nOutInterests) as (s1 & E & Hq & Hs & Hl); [set_solver|]. exists s1.
    split_and!; [done..|]. unfold sendInterest. rewrite (bindE _ _ s tt s1 E).
    pose proof Hq as [Ho _]. rewrite (bindE _ _ s1 (ls_options s) s1) by (unfold getE; by rewrite Ho).
    injection Hbase as <-. rewrite (bindE _ _ s1 _ s1) by (unfold liftE; by rewrite Hdec).
    by rewrite (bindE _ _ s1 p s1) by (unfold liftE; by rewrite Hp).
  - destruct (Hcount nOutData) as (s1 & E & Hq & Hs & Hl); [set_solver|]. exists s1.
    split_and!; [done..|]. unfold sendData. rewrite (bindE _ _ s tt s1 E).
    pose proof Hq as [Ho _]. rewrite (bindE _ _ s1 (ls_options s) s1) by (unfold getE; by rewrite Ho).
    injection Hbase as <-. rewrite (bindE _ _ s1 _ s1) by (unfold liftE; by rewrite Hdec).
    by rewrite (bindE _ _ s1 p s1) by (unfold liftE; by rewrite Hp).
  - destruct (Hcount nOutNacks) as (s1 & E & Hq & Hs & Hl); [clear; set_solver|]. exists s1.
    split_and!; [done..|]. unfold sendNack. rewrite (bindE _ _ s tt s1 E).
    pose proof Hq as [Ho _]. rewrite (bindE _ _ s1 (ls_options s) s1) by (unfold getE; by rewrite Ho).
    rewrite (bindE _ _ s1 _ s1) by (unfold liftE; by rewrite Hdec).
    rewrite (bindE _ _ s1 _ s1) by (unfold liftE; by rewrite Hbase).
    by rewrite (bindE _ _ s1 p s1) by (unfold liftE; by rewrite Hp).
Qed.

(** The face can send: its transport is open, and when the MTU is limited, it
    is at least [MIN_MTU] and fragmentation is on. *)
Record canSend (options : LinkOptions) (mtu : option nat) : Prop := {
  canSend_mtu : mtuIs options mtu;
  canSend_state : t_state transport = TransportState_UP ∨ t_state transport = TransportState_DOWN;
  canSend_limit :
    match mtu with Some M => MIN_MTU ≤ Z.of_nat M ∧ allowFragmentation options = true
                 | None => True end
}.

Lemma transmit_spec x mtu s :
  NetSend_ok x → canSend (ls_options s) mtu →
  ∃ s' base p, transmit x s = (Ok tt, s') ∧
    (match tx_nackOf x with
     | Some header => Packet_add NackField header (bareNetPacket (tx_wireOf x))
     | None => Ok (bareNetPacket (tx_wireOf x))
     end) = Ok base ∧
    encodeLpFields (ls_options s) (tx_tagsOf x) base = Ok p ∧
    sendable p (w_bytes (tx_wireOf x)) ∧
    sendOutcome (ls_options s) p (w_bytes (tx_wireOf x)) mtu s s'.
Proof.
  intros Hx [Hm Hst Hlim].
  destruct (transmit_packet (ls_options s) x Hx) as (base & p & Hbase & Hp & Hs & _).
  destruct (transmit_eq x s base p Hx Hbase Hp) as (s1 & Hq & Hsent & Hlast & E).
  pose proof Hq as (Ho & _ & _ & Hc). rewrite <-Ho in Hm, Hlim.
  destruct (sendNetPacket_spec p (w_bytes (tx_wireOf x)) mtu s1 Hs Hm Hst Hlim) as (s' & E' & Hout).
  exists s', base, p. split_and!; [congruence|done..|]. rewrite Ho in Hout.
  destruct Hout as [[Hs' Hf]|(qs & ws & Hq' & Hs' & Hws & Hplan)].
  - left. rewrite Hs', Hf, Hsent, Hc by set_solver. done.
  - right. exists qs, ws. rewrite Hs', Hsent, <-Hlast.
    split_and!; [by apply (quiet_trans _ s1)|done..].
Qed.
End send.

(** ** Properties of the sending side *)

(** Sending returns, and everything handed to the transport fits the MTU. *)
Theorem send_within_mtu {C : NetCodec} transport now x M (s : LinkService C) :
  NetSend_ok x → canSend transport (ls_options s) (Some M) →
  ∃ s', transmit transport now x s = (Ok tt, s') ∧
    ((ls_sent s' = ls_sent s ∧
      ls_counters s' nFragmentationErrors = u64 (ls_counters s nFragmentationErrors + 1)) ∨
     ∃ ws, ls_sent s' = ls_sent s ++ ws ∧ ws ≠ [] ∧
       Forall (fun w => (Wire_size w ≤ M)%nat) ws ∧
       ls_counters s' nOutOverMtu = ls_counters s nOutOverMtu).
Proof.
  intros Hx Hcan.
  destruct (transmit_spec transport now x (Some M) s Hx Hcan) as (s' & base & p & E & _ & _ & _ & Hout).
  exists s'. split; [done|]. destruct Hout as [Hr|(qs & ws & Hq & Hs' & Hws & Hplan)]; [by left|right].
  exists ws. split; [done|]. split_and!.
  - intros ->. apply Forall2_nil_inv_r in Hws as ->. inversion Hplan as [|n mtu' pls frags qs' Hn _ Hl _ Hf Hseq].
    destruct Hseq as [Hlen _]. apply fragmentsOf_length in Hf. simpl in Hlen. lia.
  - clear -Hws. induction Hws as [|q w qs ws (q' & _ & _ & Hfit) _ IH]; constructor; done.
  - destruct Hq as (_ & _ & _ & Hc). apply Hc. set_solver.
Qed.
