(* ===== verification/LinkRoundtrip.v ===== *)
(** * From one link service to another

    What the elements sent for one network packet do at the receiving link
    service, whatever the order they arrive in: the sender's [sendNetPacket]
    of [LinkSend] against the receiver's [doReceivePacket]. *)

From S2P Require Import Prelude Tlv Encoding Packet LpPacket LpFragmenter LpReassembler GenericLinkService LinkSend.
Local Open Scope Z_scope.

(** ** One element *)

Lemma indexed_choice {A} (P : nat → A → Prop) n :
  (∀ i, (i < n)%nat → ∃ x, P i x) →
  ∃ l, length l = n ∧ ∀ i x, l !! i = Some x → P i x.
Proof.
  induction n as [|n IH]; intros Hex.
  { exists []. split; [done|]. intros i x Hi. by rewrite lookup_nil in Hi. }
  destruct IH as (l & Hlen & Hl); [intros i Hi; apply Hex; lia|].
  destruct (Hex n) as [x Hx]; [lia|]. exists (l ++ [x]). split; [rewrite length_app; simpl; lia|].
  intros i y [Hi|[Hi Hy]]%lookup_app_Some; [by apply Hl|].
  apply list_lookup_singleton_Some in Hy as [Hi0 <-]. by replace i with n by lia.
Qed.

(** The receiver of the wire of [q] gets the fields of [q]. *)
Lemma wire_received q w :
  Packet_ok q → p_wire q = None → Packet_wireEncode q = Ok w → Z.of_nat (Wire_size w) < 2 ^ 62 →
  (∀ buf, p_elements q = [Build_Block lp_Fragment buf] → bytes_ok buf ∧ isNetPacket buf = true) →
  ∃ w' q', Wire_ofSpan (w_bytes w) = Ok w' ∧ Packet_wireDecode w' = Ok q' ∧
    p_elements q' = p_elements q.
Proof.
  intros Hok Hw Henc Hsz Hbare.
  assert (Z.of_nat (length (Block_encodeElements (p_elements q) [])) < 2 ^ 63) as Hlen.
  { rewrite length_Block_encodeElements. destruct (isBare (p_elements q)) eqn:Hb.
    - destruct q as [wire els]. cbn [p_elements p_wire] in *.
      destruct els as [|[t buf] [|??]]; try done. apply bool_decide_eq_true in Hb. simpl in Hb.
      subst t. destruct (Hbare buf eq_refl) as [Hbb Hnet].
      destruct (Packet_wireEncode_bare wire buf Hnet Hbb) as (w2 & _ & Hwb & _ & Henc2).
      rewrite Henc in Henc2. injection Henc2 as <-. unfold Wire_size in Hsz. rewrite Hwb in Hsz.
      rewrite elementsSize_cons. pose proof (Block_size_Fragment buf).
      change (elementsSize []) with 0%nat. lia.
    - rewrite Packet_wireEncode_lp in Henc by done. injection Henc as <-.
      unfold Packet_encodeWire, Wire_size in Hsz. rewrite Hw in Hsz.
      cbn [w_bytes Wire_ofBlock] in Hsz. rewrite Block_encode_app, !length_app in Hsz.
      cbn [blk_value] in Hsz. rewrite length_Block_encodeElements in Hsz. lia. }
  destruct (Packet_roundtrip q [] Hok (cachedWire_none q Hw) Hlen) as (w2 & w' & q' & Henc2 & Hspan & Hdec & Hels).
  { intros buf Hbuf. destruct (Hbare buf Hbuf). done. }
  rewrite Henc in Henc2. injection Henc2 as <-. rewrite app_nil_r in Hspan. eauto.
Qed.

Lemma marked_fields q q' :
  Packet_ok q → p_wire q = None → marked q q' →
  Packet_ok q' ∧ p_wire q' = None ∧ (Packet_bytes q → Packet_bytes q') ∧
  (∀ type, type ≠ lp_CongestionMark → fieldsAt type (p_elements q') = fieldsAt type (p_elements q)) ∧
  (q' = q ∨ fieldsAt lp_CongestionMark (p_elements q') = [markBlock]).
Proof.
  intros Hok Hw [->|Hset]; [by auto 10|].
  destruct (set_mark q Hok) as (q2 & Hset2 & Hok2 & Hw2 & _ & Hb & Hf). rewrite Hset in Hset2.
  injection Hset2 as <-. split_and!; [done..| |].
  - intros type Ht. by rewrite Hf, bool_decide_false.
  - right. by rewrite Hf, bool_decide_true.
Qed.

Lemma Packet_set_bytes {A} (F : FieldDecl A) `{!Registered F} v value q q' :
  Packet_ok q → F_encode F v = Ok (Build_Block (F_type F) value) →
  Z.of_nat (length value) < 2 ^ 64 → bytes_ok value → Packet_bytes q →
  Packet_set F v q = Ok q' → Packet_bytes q'.
Proof.
  intros Hok Henc Hl Hvb Hb Hset.
  destruct (Packet_set_spec F v value q Hok Henc Hl) as (q2 & Hset2 & _ & _ & Hp & _).
  rewrite Hset in Hset2. injection Hset2 as <-. unfold Packet_bytes in *. rewrite Hp.
  constructor; [done|]. unfold Packet_clear. cbn [p_elements]. rewrite Forall_forall in Hb |- *.
  intros b. rewrite list_elem_of_In, filter_In. intros [Hin _]. apply Hb. by apply list_elem_of_In.
Qed.

(** Reading the fields of a fragment. *)
Lemma piece_of_fields options q i n seq payload :
  fieldsAt lp_Fragment (p_elements q) = [fragmentBlock payload] →
  fieldsAt lp_FragIndex (p_elements q) = [fragIndexBlock i] →
  fieldsAt lp_FragCount (p_elements q) = [fragCountBlock n] →
  fieldsAt lp_Sequence (p_elements q) = [sequenceBlock seq] →
  (i < n)%nat → (2 ≤ n)%nat → Z.of_nat n ≤ ro_nMaxFragments options →
  Z.of_nat n < 2 ^ 64 → 0 ≤ seq < 2 ^ 64 → isPiece options q i n seq.
Proof.
  intros Hf Hi Hc Hs Hlt Htwo Hmax Hn Hseq.
  destruct (get_NonNegativeInteger lp_FragIndex q (Z.of_nat i) Hi) as [Hhi Hgi]; [unfold is_u64; lia|].
  destruct (get_NonNegativeInteger lp_FragCount q (Z.of_nat n) Hc) as [Hhc Hgc]; [unfold is_u64; lia|].
  destruct (Packet_has_get FragmentField q _ _ Hf) as [Hhf _].
  destruct (Packet_has_get SequenceField q _ _ Hs) as [Hhs Hgs].
  split; try done.
  - unfold fragIndexOf. unfold FragIndexField. by rewrite Hhi.
  - unfold fragCountOf. unfold FragCountField. by rewrite Hhc.
  - rewrite Hgs. unfold sequenceBlock. rewrite (F_decode_same SequenceField).
    cbn [F_decodeHelper SequenceField field_uint64 F_type]. unfold decode_uint64. cbn [blk_value].
    rewrite length_be_bytes, bool_decide_false by auto. by rewrite be_number_be_bytes.
Qed.

(** ** The fragments as they arrive *)

Section arrive.
Context (p : Packet) (netPkt : list Z) (last : Z).
Context (n mtu' : nat) (payloads : list (list Z)) (frags qs : list Packet).
Context (Hs : sendable p netPkt) (Hcat : mjoin payloads = netPkt).
Context (Hfrags : fragmentsOf p n mtu' 0 payloads frags) (Hseq : sequenced last frags qs).

(** The fields the first fragment has from [p], but for the mark. *)
Definition keepsHeaders (first : Packet) : Prop :=
  (∀ type, type ∉ fragTypes → type ≠ lp_Sequence → type ≠ lp_CongestionMark →
     fieldsAt type (p_elements first) = fieldsAt type (p_elements p)) ∧
  (fieldsAt lp_CongestionMark (p_elements first) = fieldsAt lp_CongestionMark (p_elements p) ∨
   fieldsAt lp_CongestionMark (p_elements first) = [markBlock]).

Lemma payload_bytes i payload : payloads !! i = Some payload → bytes_ok payload.
Proof using Hs Hcat.
  intros Hi. pose proof (sendable_netPkt_bytes Hs) as Hb. rewrite <-Hcat in Hb.
  rewrite Forall_forall in Hb |- *. intros b Hin. apply Hb. apply list_elem_of_join.
  exists payload. split; [done|]. by eapply list_elem_of_lookup_2.
Qed.

Lemma header_bytes base : Packet_bytes base → Forall (fun b => bytes_ok (blk_value b)) (headers base).
Proof.
  unfold Packet_bytes, headers, Packet_clear. cbn [p_elements]. rewrite !Forall_forall.
  intros Hb b. rewrite list_elem_of_In, filter_In. intros [Hin _]. apply Hb. by apply list_elem_of_In.
Qed.

Lemma fragment_bytes i frag payload :
  isFragment (fragmentBase p i) i n payload frag → payloads !! i = Some payload → Packet_bytes frag.
Proof using Hs Hcat.
  intros Hf Hpl. unfold Packet_bytes. rewrite (fragment_perm _ _ _ _ _ Hf).
  constructor; [by eapply payload_bytes|]. constructor; [apply prependNonNegativeInteger_bytes|].
  constructor; [apply prependNonNegativeInteger_bytes|]. apply header_bytes.
  destruct i; [apply Hs|constructor].
Qed.

(** The fields of fragment [i] as it was sent. *)
Lemma sent_fragment i q :
  qs !! i = Some q →
  ∃ payload, payloads !! i = Some payload ∧ payload ≠ [] ∧ Packet_ok q ∧ p_wire q = None ∧
    Packet_bytes q ∧
    fieldsAt lp_Fragment (p_elements q) = [fragmentBlock payload] ∧
    fieldsAt lp_FragIndex (p_elements q) = [fragIndexBlock i] ∧
    fieldsAt lp_FragCount (p_elements q) = [fragCountBlock n] ∧
    fieldsAt lp_Sequence (p_elements q) = [sequenceBlock (u64 (last + 1 + Z.of_nat i))] ∧
    (i = 0%nat → ∀ type, type ∉ fragTypes → type ≠ lp_Sequence →
       fieldsAt type (p_elements q) = fieldsAt type (p_elements p)).
Proof using Hs Hcat Hfrags Hseq.
  intros Hqi. destruct Hseq as [Hql Hqs].
  destruct (lookup_lt_is_Some_2 frags i) as [frag Hfi];
    [rewrite <-Hql; by eapply lookup_lt_Some|].
  destruct (Hqs i frag Hfi) as (q2 & Hq2 & Hset). rewrite Hqi in Hq2. injection Hq2 as <-.
  destruct (fragmentsOf_lookup _ _ _ _ _ _ _ _ Hfrags Hfi) as (payload & Hpl & Hne & Hf & _).
  cbn [Nat.add] in Hf. exists payload. set (seq := u64 (last + 1 + Z.of_nat i)) in *.
  destruct (set_sequence frag seq payload (fragment_ok _ _ _ _ _ Hf) (fragment_payload_fields Hf))
    as (q2 & w & Hset2 & _ & Hok & Hw & _ & Hfields & _). rewrite Hset in Hset2. injection Hset2 as <-.
  assert (Packet_bytes q) as Hqb.
  { apply (Packet_set_bytes SequenceField seq (be_bytes 8 seq) frag); try done.
    - apply Hf.
    - apply be_bytes_ok.
    - by eapply fragment_bytes. }
  rewrite !Hfields. split_and!; try done.
  - rewrite bool_decide_false by done. exact (fragment_payload_fields Hf).
  - rewrite bool_decide_false by done. exact (fragment_index_fields Hf (sendable_index _ _ Hs)).
  - rewrite bool_decide_false by done. exact (fragment_count_fields Hf (sendable_count _ _ Hs)).
  - intros -> type Ht Hts. rewrite Hfields, bool_decide_false by done.
    apply (fragment_other_fields Hf); unfold fragTypes in Ht; set_solver.
Qed.

Context (options : ReassemblerOptions) (mtu : option nat) (ws : list Wire).
Context (Htwo : (2 ≤ n)%nat) (Hmax : Z.of_nat n ≤ ro_nMaxFragments options).
Context (Hmax64 : ro_nMaxFragments options < 2 ^ 64) (Hlen : length payloads = n).
Context (Hws : Forall2 (sentAs mtu) qs ws).
Context (Hsmall : Forall (fun w => Z.of_nat (Wire_size w) < 2 ^ 62) ws).

Lemma fragment_arrives i w :
  ws !! i = Some w →
  ∃ w' q payload, Wire_ofSpan (w_bytes w) = Ok w' ∧ Packet_wireDecode w' = Ok q ∧
    isPiece options q i n (u64 (last + 1 + Z.of_nat i)) ∧ Packet_bytes q ∧
    payloads !! i = Some payload ∧ Packet_get FragmentField q = Ok payload ∧
    (i = 0%nat → keepsHeaders q).
Proof using Hs Htwo Hmax Hmax64 Hlen Hcat Hfrags Hseq Hws Hsmall.
  intros Hi. destruct (Forall2_lookup_r _ _ _ _ _ Hws Hi) as (qi & Hqi & (qm & Hmark & Henc & _)).
  destruct (sent_fragment i qi Hqi)
    as (payload & Hpl & Hne & Hok & Hw & Hb & Hff & Hfi & Hfc & Hfs & Hfh).
  destruct (marked_fields qi qm Hok Hw Hmark) as (Hokm & Hwm & Hbm & Hfm & Hcm).
  destruct (wire_received qm w Hokm Hwm Henc) as (w' & q & Hspan & Hdec & Hels).
  { rewrite Forall_forall in Hsmall. apply Hsmall. by eapply list_elem_of_lookup_2. }
  { intros buf Hbuf. exfalso. assert (isBare (p_elements qm) = false) as Hnb.
    { eapply (not_bare lp_Sequence); [done|]. rewrite Hfm by done. exact Hfs. }
    rewrite Hbuf in Hnb. discriminate Hnb. }
  exists w', q, payload. split_and!; [done..| | | | |].
  - apply (piece_of_fields options q i n _ payload); rewrite ?Hels, ?Hfm by done; try done.
    + apply lookup_lt_Some in Hpl. lia.
    + lia.
    + unfold u64. apply Z.mod_pos_bound. lia.
  - unfold Packet_bytes. rewrite Hels. by apply Hbm.
  - done.
  - assert (fieldsAt (F_type FragmentField) (p_elements q) = [fragmentBlock payload]) as Hq
      by (rewrite Hels; simpl; by rewrite Hfm).
    destruct (Packet_has_get FragmentField q _ _ Hq) as [_ ->]. unfold fragmentBlock.
    rewrite (F_decode_same FragmentField). by apply decode_range_ok.
  - intros ->. split.
    + intros type Ht1 Ht2 Ht3. rewrite Hels, Hfm by done. by apply Hfh.
    + rewrite Hels. destruct Hcm as [->|Hm]; [left|by right]. apply Hfh; [done|set_solver|done].
Qed.
End arrive.

Lemma mapM_lookup {A B} (f : A → outcome B) l k :
  length l = length k →
  (∀ i x, l !! i = Some x → ∃ y, k !! i = Some y ∧ f x = Ok y) → mapM f l = Ok k.
Proof.
  revert k. induction l as [|x l IH]; intros [|y k] Hlen Hl; try done.
  destruct (Hl 0%nat x eq_refl) as (y' & [= <-] & Hx). cbn [mapM]. rewrite Hx, bind_Ok.
  rewrite (IH k); [done|simpl in Hlen; lia|]. intros i z Hz. exact (Hl (S i) z Hz).
Qed.

(** ** The receiving side *)

Section receiver.
Context {C : NetCodec}.
Implicit Types s : LinkService C.

(** Delivery of the wires numbered in [order], at the given times. *)
Definition deliverWires (ep : EndpointId) (ws : list Wire) (order : list (Z * nat))
  : ME (LinkService C) unit :=
  forE_ order (fun '(now, i) =>
    match ws !! i with
    | Some w => w' ← liftE (Wire_ofSpan (w_bytes w)); doReceivePacket now w' ep
    | None => mret tt
    end).

(** What [decodeNetPacket] lets through is no [tlv::Error]. *)
Lemma decodeNetPacket_throws netPkt first ep s f s' :
  decodeNetPacket netPkt first ep s = (Fault f, s') → isTlvError f = false.
Proof.
  unfold decodeNetPacket, catchTlv. destruct (_ s) as [[[]|g] s1]; [done|].
  destruct (isTlvError g) eqn:Eg; [done|]. by intros [= <- _].
Qed.
Lemma bindE_last (m : ME (LinkService C) unit) s : (_ ← m; mret tt) s = m s.
Proof. unfold mbind, ME_bind. by destruct (m s) as [[[]|f] s']. Qed.

Lemma doReceivePacket_eq now w ep s q :
  Packet_wireDecode w = Ok q → Packet_has FragmentField q = true →
  allowReassembly (ls_options s) = true ∨
    Packet_has FragIndexField q = false ∧ Packet_has FragCountField q = false →
  doReceivePacket now w ep s =
    match receiveFragment now ep q (ls_reassembler s) with
    | (Ok None, r) => (Ok tt, set_ls_reassembler r s)
    | (Ok (Some (netPkt, first)), r) => decodeNetPacket netPkt first ep (set_ls_reassembler r s)
    | (Fault f, r) =>
        if isTlvError f then addCount nInLpInvalid 1 (set_ls_reassembler r s)
        else (Fault f, set_ls_reassembler r s)
    end.
Proof.
  intros Hd Hf Ha. unfold doReceivePacket, receiveLpPacket, catchTlv, zoomE.
  unfold mbind at 1, ME_bind at 1, liftE. rewrite Hd.
  unfold mbind at 1, ME_bind at 1, getE. rewrite Hf. cbn [negb].
  assert ((Packet_has FragIndexField q || Packet_has FragCountField q) &&
          negb (allowReassembly (ls_options s)) = false) as ->
    by (destruct Ha as [->|[-> ->]]; simpl; by rewrite ?andb_false_r).
  unfold mbind, ME_bind. destruct (receiveFragment now ep q (ls_reassembler s)) as [[[[netPkt first]|]|f] r].
  - destruct (decodeNetPacket netPkt first ep (set_ls_reassembler r s)) as [[[]|f] s'] eqn:E; [done|].
    by rewrite (decodeNetPacket_throws _ _ _ _ _ _ E).
  - done.
  - done.
Qed.

Section several.
Context (ep : EndpointId) (seq0 : Z) (ws : list Wire) (rs : list Packet).
Context (payloads : list (list Z)) (netPkt : Wire).
Context (Hlen : length rs = length ws) (Hseveral : (2 ≤ length rs)%nat).
Context (Hpayloads : mapM (Packet_get FragmentField) rs = Ok payloads).
Context (Hnet : Wire_ofSpan (mjoin payloads) = Ok netPkt).
Context (Harrive : ∀ i q, rs !! i = Some q →
  ∃ w w', ws !! i = Some w ∧ Wire_ofSpan (w_bytes w) = Ok w' ∧ Packet_wireDecode w' = Ok q).

Lemma deliverWires_several order : ∀ got s,
  (∀ i q, rs !! i = Some q →
     isPiece (r_options (ls_reassembler s)) q i (length rs) (u64 (seq0 + Z.of_nat i)) ∧
     Packet_bytes q) →
  allowReassembly (ls_options s) = true →
  progress (r_options (ls_reassembler s)) ep seq0 rs got (ls_reassembler s) →
  order ≠ [] → order.*2 ++ got ≡ₚ seq 0 (length rs) →
  ∃ r first, rs !! 0%nat = Some first ∧ Reassembler_ok r ∧
    deliverWires ep ws order s = decodeNetPacket netPkt first ep (set_ls_reassembler r s).
Proof using Hlen Hseveral Hpayloads Hnet Harrive.
  induction order as [|[now i] order IH]; intros got s Hpieces Ha Hp Hne Hperm; [done|].
  simpl in Hperm. assert (NoDup (i :: order.*2 ++ got)) as [Hni Hnd]%NoDup_cons
    by (rewrite Hperm; apply NoDup_seq).
  assert (∀ j, j ∈ i :: order.*2 ++ got → (j < length rs)%nat) as Hlt.
  { intros j. rewrite Hperm, elem_of_seq. lia. }
  rewrite not_elem_of_app in Hni. destruct Hni as [_ Hni].
  destruct (lookup_lt_is_Some_2 rs i) as [q Hi]; [apply Hlt; by left|].
  destruct (Harrive i q Hi) as (w & w' & Hw & Hspan & Hdec).
  destruct (Hpieces i q Hi) as [Hq _].
  pose proof (Permutation_length Hperm) as Hl. rewrite length_seq in Hl. simpl in Hl.
  rewrite length_app, length_fmap in Hl. apply NoDup_app in Hnd as (_ & _ & Hnd).
  unfold deliverWires. cbn [forE_]. rewrite Hw. fold (deliverWires ep ws order).
  assert (∀ k : unit → ME (LinkService C) unit,
    ((w' ← liftE (Wire_ofSpan (w_bytes w)); doReceivePacket now w' ep) ≫= k) s =
    (doReceivePacket now w' ep ≫= k) s) as Hstep.
  { intros k. unfold mbind, ME_bind, liftE. by rewrite Hspan. }
  rewrite Hstep. pose proof (doReceivePacket_eq now w' ep s q Hdec (piece_fragment _ _ _ _ _ Hq)
    (or_introl Ha)) as Erecv.
  destruct order as [|d order].
  - destruct (receive_ours_last _ ep seq0 rs payloads netPkt Hpieces Hpayloads Hnet Hseveral
      now got i q (ls_reassembler s) Hp Hi Hni) as (first & Hfirst & E & Hr & _);
      [simpl in Hl; lia|done|intros j Hj; apply Hlt; right; set_solver|].
    rewrite E in Erecv. eexists _, first. split; [done|]. split; [exact Hr|].
    rewrite <-Erecv. apply bindE_last.
  - destruct (receive_ours_more _ ep seq0 rs Hpieces Hseveral now got i q (ls_reassembler s) Hp Hi Hni)
      as (r1 & E & Hp'); [simpl in Hl; lia|].
    rewrite E in Erecv. rewrite (bindE _ _ s tt _ Erecv).
    pose proof Hp' as (_ & Ho & _).
    destruct (IH (i :: got) (set_ls_reassembler r1 s)) as (r & first & Hfirst & Hr & ->);
      [cbn [ls_reassembler set_ls_reassembler]; rewrite Ho; done|done| |done| |].
    + cbn [ls_reassembler set_ls_reassembler]. by rewrite Ho.
    + by rewrite <-Permutation_middle.
    + exists r, first. by split_and!.
Qed.
End several.
End receiver.

(** ** The two ways a packet travels *)

Lemma single_fields p netPkt q :
  sendable p netPkt → marked p q →
  Packet_ok q ∧ p_wire q = None ∧ keepsHeaders p q ∧
  (∀ type, type ∈ fragTypes → fieldsAt type (p_elements q) = fieldsAt type (p_elements p)).
Proof.
  intros Hs Hm. destruct (marked_fields p q (sendable_ok _ _ Hs) (sendable_wire _ _ Hs) Hm)
    as (Hok & Hw & _ & Hf & Hc).
  split_and!; [done|done| |].
  - split; [intros; by apply Hf|]. destruct Hc as [-> | ?]; auto.
  - intros type Ht. apply Hf. unfold fragTypes in Ht. intros ->. revert Ht. vm_compute. set_solver.
Qed.

Lemma keepsHeaders_ext p q q' :
  p_elements q' = p_elements q → keepsHeaders p q → keepsHeaders p q'.
Proof. unfold keepsHeaders. by intros ->. Qed.

Section delivered.
Context {C : NetCodec}.
Implicit Types s : LinkService C.

(** The receiver takes what a sender with [options] puts on the link for the
    packet whose first sequence number is [seq0]. *)
Record canReceive (options : LinkOptions) (ep : EndpointId) (seq0 : Z) s : Prop := {
  recv_sound : Reassembler_ok (ls_reassembler s);
  recv_reassembly : allowReassembly (ls_options s) = true;
  recv_max : Z.of_nat (fo_nMaxFragments (fragmenterOptions options)) ≤
             ro_nMaxFragments (r_options (ls_reassembler s));
  recv_max64 : 1 ≤ ro_nMaxFragments (r_options (ls_reassembler s)) < 2 ^ 64;
  recv_free : r_partialPackets (ls_reassembler s) !! (ep, u64 seq0) = None
}.

Lemma receiveFragment_single now ep q netPkt netW r :
  Packet_has FragmentField q = true → Packet_get FragmentField q = Ok netPkt →
  Packet_has FragIndexField q = false → Packet_has FragCountField q = false →
  1 ≤ ro_nMaxFragments (r_options r) → Wire_ofSpan netPkt = Ok netW →
  receiveFragment now ep q r = (Ok (Some (netW, q)), r).
Proof.
  intros Hf Hg Hi Hc Hmax Hw. unfold receiveFragment, fragIndexOf, fragCountOf. rewrite Hf, Hi, Hc.
  rewrite (bindE _ _ r tt r) by done. rewrite (bindE _ _ r (r_options r) r) by done.
  rewrite (bindE _ _ r 0 r) by done. rewrite (bindE _ _ r 1 r) by done.
  rewrite bool_decide_false by lia. rewrite bool_decide_false by lia.
  rewrite bool_decide_true by done.
  rewrite (bindE _ _ r netPkt r) by (unfold liftE; by rewrite Hg).
  by rewrite (bindE _ _ r netW r) by (unfold liftE; by rewrite Hw).
Qed.

Lemma deliverWires_single mtu p netPkt netW w now ep s :
  sendable p netPkt → sentAs mtu p w → Z.of_nat (Wire_size w) < 2 ^ 62 →
  1 ≤ ro_nMaxFragments (r_options (ls_reassembler s)) → Wire_ofSpan netPkt = Ok netW →
  ∃ first, keepsHeaders p first ∧
    deliverWires ep [w] [(now, 0%nat)] s = decodeNetPacket netW first ep s.
Proof.
  intros Hs (q & Hm & Henc & _) Hsz Hmax Hnet.
  destruct (single_fields p netPkt q Hs Hm) as (Hok & Hw & Hk & Hfr).
  assert (fieldsAt lp_Fragment (p_elements q) = [fragmentBlock netPkt]) as Hpay
    by (rewrite Hfr by (unfold fragTypes; set_solver); apply Hs).
  destruct (wire_received q w Hok Hw Henc Hsz) as (w' & q' & Hspan & Hdec & Hels).
  { intros buf Hbuf. rewrite Hbuf in Hpay. injection Hpay as ->.
    split; [by eapply sendable_netPkt_bytes|apply Hs]. }
  exists q'. split; [by eapply keepsHeaders_ext|].
  rewrite <-Hels in Hpay.
  destruct (Packet_has_get FragmentField q' _ _ Hpay) as [Hhf Hgf].
  unfold fragmentBlock in Hgf. rewrite (F_decode_same FragmentField) in Hgf.
  cbn [F_decodeHelper FragmentField F_type] in Hgf.
  rewrite decode_range_ok in Hgf by (by eapply sendable_nonempty).
  assert (Packet_has FragIndexField q' = false) as Hi.
  { apply Packet_has_false. rewrite Hels, Hfr by (unfold fragTypes; set_solver).
    by eapply sendable_index. }
  assert (Packet_has FragCountField q' = false) as Hc.
  { apply Packet_has_false. rewrite Hels, Hfr by (unfold fragTypes; set_solver).
    by eapply sendable_count. }
  unfold deliverWires. cbn [forE_ lookup list_lookup].
  assert ((w'0 ← liftE (Wire_ofSpan (w_bytes w)); doReceivePacket now w'0 ep) s =
          decodeNetPacket netW q' ep s) as E.
  { rewrite (bindE _ _ s w' s) by (unfold liftE; by rewrite Hspan).
    rewrite (doReceivePacket_eq now w' ep s q' Hdec Hhf) by auto.
    rewrite (receiveFragment_single now ep q' netPkt netW) by done. by destruct s. }
  by rewrite bindE_last.
Qed.

Lemma delivered mtu options p netPkt netW last qs ws ep order s :
  sendable p netPkt → txPlan options p netPkt last qs → Forall2 (sentAs mtu) qs ws →
  Forall (fun w => Z.of_nat (Wire_size w) < 2 ^ 62) ws → Wire_ofSpan netPkt = Ok netW →
  canReceive options ep (last + 1) s → order.*2 ≡ₚ seq 0 (length ws) →
  ∃ r first, Reassembler_ok r ∧ keepsHeaders p first ∧
    deliverWires ep ws order s = decodeNetPacket netW first ep (set_ls_reassembler r s).
Proof.
  intros Hs Hplan Hws Hsmall Hnet [Hok Ha Hmax Hmax64 Hfree] Hperm.
  pose proof (Forall2_length _ _ _ Hws) as Hlq.
  destruct Hplan as [|n mtu' payloads frags qs Hn HnM Hlen Hcat Hfr Hseq].
  - apply Forall2_cons_inv_l in Hws as (w & ? & Hw & ->%Forall2_nil_inv_l & ->).
    apply Forall_cons in Hsmall as [Hsz _]. apply Permutation_singleton_r in Hperm.
    destruct order as [|[now i] [|??]]; try discriminate Hperm. injection Hperm as ->.
    destruct (deliverWires_single mtu p netPkt netW w now ep s Hs Hw Hsz) as (first & Hk & E);
      [lia|done|].
    exists (ls_reassembler s), first. rewrite E. by destruct s.
  - set (opts := r_options (ls_reassembler s)) in *.
    destruct (indexed_choice (fun i q => ∃ w w' payload, ws !! i = Some w ∧
        Wire_ofSpan (w_bytes w) = Ok w' ∧ Packet_wireDecode w' = Ok q ∧
        isPiece opts q i n (u64 (last + 1 + Z.of_nat i)) ∧ Packet_bytes q ∧
        payloads !! i = Some payload ∧ Packet_get FragmentField q = Ok payload ∧
        (i = 0%nat → keepsHeaders p q)) (length ws)) as (rs & Hlrs & Hrs).
    { intros i Hi. destruct (lookup_lt_is_Some_2 ws i Hi) as [w Hw].
      destruct (fragment_arrives p netPkt last n mtu' payloads frags qs Hs Hcat Hfr Hseq opts mtu ws
        Hn ltac:(lia) ltac:(lia) Hlen Hws Hsmall i w Hw) as (w' & q & payload & H).
      exists q, w, w', payload. tauto. }
    pose proof (fragmentsOf_length _ _ _ _ _ _ Hfr) as Hlf. destruct Hseq as [Hlseq _].
    assert (length rs = n) as Hlr by lia.
    destruct (deliverWires_several ep (last + 1) ws rs payloads netW) with (order := order)
      (got := @nil nat) (s := s) as (r & first & Hfirst & Hr & E); try done.
    + lia.
    + apply mapM_lookup; [lia|]. intros i q Hq.
      destruct (Hrs i q Hq) as (?&?&payload&_&_&_&_&_&Hp&Hg&_). by exists payload.
    + by rewrite Hcat.
    + intros i q Hq. destruct (Hrs i q Hq) as (w&w'&?&?&?&?&_). by exists w, w'.
    + intros i q Hq. destruct (Hrs i q Hq) as (?&?&?&_&_&_&?&?&_). by rewrite Hlr.
    + intros ->. apply Permutation_length in Hperm. rewrite length_seq in Hperm. simpl in Hperm. lia.
    + rewrite app_nil_r, Hlrs. done.
    + exists r, first. split_and!; [done| |done].
      by destruct (Hrs 0%nat first Hfirst) as (?&?&?&_&_&_&_&_&_&_&Hk); apply Hk.
Qed.
End delivered.

(** ** What the receiver reads *)

(** An announcement that [PrefixAnnouncementHeader] gives back. *)
Definition announcement_ok (check : Block → outcome unit) (b : Block) : Prop :=
  blk_type b = tlv_Data ∧ Block_ok b ∧ Z.of_nat (length (Block_encode b [])) < 2 ^ 64 ∧
  check b = Ok tt.
#[export] Instance PrefixAnnouncementField_codec check :
  FieldCodec (PrefixAnnouncementField check) (announcement_ok check).
Proof.
  intros b (Ht & Hok & Hl & Hc). eexists. split; [reflexivity|]. split; [done|].
  rewrite F_decode_same. cbn [F_decodeHelper PrefixAnnouncementField F_type].
  unfold PrefixAnnouncementHeader_wireDecode, Wire_parse.
  cbn [w_elements w_value Wire_ofBlock blk_value].
  pose proof (Block_parse_encode [b]) as Hp. simpl in Hp. rewrite Hp by (by constructor).
  rewrite bind_Ok. cbn [List.find]. rewrite bool_decide_true by done. by rewrite Hc.
Qed.

Lemma tagBlocks_has {A} (F : FieldDecl A) valid `{!FieldCodec F valid} tag q :
  fieldsAt (F_type F) (p_elements q) = tagBlocks F tag → (∀ v, tag = Some v → valid v) →
  match tag with
  | Some v => Packet_has F q = true ∧ Packet_get F q = Ok v
  | None => Packet_has F q = false
  end.
Proof.
  intros Hf Hv. destruct tag as [v|]; [|by apply Packet_has_false].
  destruct (FieldCodec0 v (Hv v eq_refl)) as (value & Henc & _ & Hdec).
  simpl in Hf. rewrite Henc in Hf. destruct (Packet_has_get F q _ _ Hf) as [Hh Hg].
  by rewrite Hh, Hg, Hdec.
Qed.

Section decode.
Context {C : NetCodec}.
Implicit Types s : LinkService C.

Lemma readTag_eq {A B} (F : FieldDecl A) valid `{!FieldCodec F valid} tag (set : A → B) dflt q s :
  fieldsAt (F_type F) (p_elements q) = tagBlocks F tag → (∀ v, tag = Some v → valid v) →
  readTag F set dflt q s = (Ok (match tag with Some v => set v | None => dflt end), s).
Proof.
  intros Hf Hv. pose proof (tagBlocks_has F valid tag q Hf Hv) as H. unfold readTag.
  destruct tag as [v|]; [|by rewrite H]. destruct H as [-> Hg].
  by rewrite (bindE _ _ s v s) by (unfold liftE; by rewrite Hg).
Qed.

(** The header fields that reach the receiver. *)
Record headersOf (options : LinkOptions) (x : NetSend) (mark : option Z) (q : Packet) : Prop := {
  hdr_nack : fieldsAt lp_Nack (p_elements q) = tagBlocks NackField (tx_nackOf x);
  hdr_nextHop : fieldsAt lp_NextHopFaceId (p_elements q) = [];
  hdr_cachePolicy : fieldsAt lp_CachePolicy (p_elements q) = [];
  hdr_mark : fieldsAt lp_CongestionMark (p_elements q) = tagBlocks CongestionMarkField mark;
  hdr_nonDiscovery : fieldsAt lp_NonDiscovery (p_elements q) = tagBlocks NonDiscoveryField
    (if allowSelfLearning options && tag_nonDiscovery (tx_tagsOf x) then Some tt else None);
  hdr_announcement : fieldsAt lp_PrefixAnnouncement (p_elements q) = tagBlocks
      (PrefixAnnouncementField PrefixAnnouncement_check)
    (if allowSelfLearning options then tag_prefixAnnouncement (tx_tagsOf x) else None);
  hdr_pitToken : fieldsAt lp_PitToken (p_elements q) = tagBlocks PitTokenField (tag_pitToken (tx_tagsOf x))
}.

Definition markSeen (tag mark : option Z) : Prop := mark = tag ∨ mark = Some 1.

Lemma headersOf_first options x base p first :
  NetSend_ok x →
  (match tx_nackOf x with
   | Some header => Packet_add NackField header (bareNetPacket (tx_wireOf x))
   | None => Ok (bareNetPacket (tx_wireOf x))
   end) = Ok base →
  encodeLpFields options (tx_tagsOf x) base = Ok p → keepsHeaders p first →
  ∃ mark, markSeen (tag_congestionMark (tx_tagsOf x)) mark ∧ headersOf options x mark first.
Proof.
  intros Hx Hbase Hp [Hk Hm].
  destruct (transmit_packet options x Hx) as (base' & p' & Hbase' & Hp' & _ & Hf).
  rewrite Hbase in Hbase'. injection Hbase' as <-. rewrite Hp in Hp'. injection Hp' as <-.
  assert (∃ mark, markSeen (tag_congestionMark (tx_tagsOf x)) mark ∧
    fieldsAt lp_CongestionMark (p_elements first) = tagBlocks CongestionMarkField mark)
    as (mark & Hseen & Hmark).
  { destruct Hm as [Hm|Hm]; [|exists (Some 1); split; [by right|done]].
    exists (tag_congestionMark (tx_tagsOf x)). split; [by left|]. rewrite Hm, Hf. cbn.
    by rewrite app_nil_r. }
  exists mark. split; [done|].
  split; rewrite ?Hmark; try done; rewrite Hk by (vm_compute; set_solver || congruence); rewrite Hf; cbn;
    rewrite ?app_nil_r; try done; by destruct (allowSelfLearning options), (tag_nonDiscovery (tx_tagsOf x)).
Qed.

(** The tags fit the kind of packet: what the receiver rejects is not there. *)
Definition tagsFit (x : NetSend) : Prop :=
  let tags := tx_tagsOf x in
  (∀ v, tag_congestionMark tags = Some v → is_u64 v) ∧
  match x with
  | TxInterest _ _ => tag_prefixAnnouncement tags = None
  | TxData _ _ => tag_nonDiscovery tags = false ∧
      ∀ b, tag_prefixAnnouncement tags = Some b → announcement_ok PrefixAnnouncement_check b
  | TxNack _ _ _ => tag_nonDiscovery tags = false ∧ tag_prefixAnnouncement tags = None
  end.

(** The signal the receiver emits for the packet. *)
Inductive arrivesAs (txo rxo : LinkOptions) (ep : EndpointId) (netW : Wire)
  : NetSend → RxEvent C → Prop :=
| arrives_Interest wire tags i mark :
    Interest_decode netW = Ok i → markSeen (tag_congestionMark tags) mark →
    arrivesAs txo rxo ep netW (TxInterest wire tags)
      (RxInterest i (mkTags None None None mark
         (allowSelfLearning rxo && (allowSelfLearning txo && tag_nonDiscovery tags)) None
         (tag_pitToken tags)) ep)
| arrives_Data wire tags d mark :
    Data_decode netW = Ok d → markSeen (tag_congestionMark tags) mark →
    arrivesAs txo rxo ep netW (TxData wire tags)
      (RxData d (mkTags None None None mark false
         (if allowSelfLearning rxo && allowSelfLearning txo then tag_prefixAnnouncement tags else None)
         None) ep)
| arrives_Nack wire header tags i mark :
    Interest_decode netW = Ok i → markSeen (tag_congestionMark tags) mark →
    arrivesAs txo rxo ep netW (TxNack wire header tags)
      (RxNack i header (mkTags None None None mark false None None) ep).

(** The network packet is of its kind and decodes. *)
Definition decodable (x : NetSend) (netW : Wire) : Prop :=
  match x with
  | TxInterest _ _ | TxNack _ _ _ => w_type netW = tlv_Interest ∧ ∃ i, Interest_decode netW = Ok i
  | TxData _ _ => w_type netW = tlv_Data ∧ ∃ d, Data_decode netW = Ok d
  end.

(** One signal more, and nothing else but a counter. *)
Definition signalled s s' (e : RxEvent C) : Prop :=
  ls_received s' = ls_received s ++ [e] ∧ ls_reassembler s' = ls_reassembler s ∧
  ls_options s' = ls_options s ∧ ls_sent s' = ls_sent s ∧ ls_lastSeqNo s' = ls_lastSeqNo s ∧
  ∀ c, c ∈ [nInLpInvalid; nInNetInvalid] → ls_counters s' c = ls_counters s c.

Lemma signalled_receive c e s :
  c ∉ [nInLpInvalid; nInNetInvalid] →
  ∃ s', (_ ← addCount c 1; emit e) s = (Ok tt, s') ∧ signalled s s' e.
Proof.
  intros Hc. eexists. split; [done|]. split_and!; [done..|]. intros c' Hc'. simpl.
  rewrite decide_False; [done|]. by intros ->.
Qed.

Section read.
Context (txo : LinkOptions) (ep : EndpointId) (netW : Wire) (mark : option Z) (q : Packet).

Lemma seen_u64 tag : (∀ v, tag = Some v → is_u64 v) → markSeen tag mark → ∀ v, mark = Some v → is_u64 v.
Proof. intros Hv [-> | ->]; [done|]. intros v [= <-]. unfold is_u64. lia. Qed.

Lemma absent {A} (F : FieldDecl A) : fieldsAt (F_type F) (p_elements q) = [] → Packet_has F q = false.
Proof. apply Packet_has_false. Qed.

Lemma decodeInterest_headers wire tags i s :
  headersOf txo (TxInterest wire tags) mark q → tags_ok tags → tagsFit (TxInterest wire tags) →
  markSeen (tag_congestionMark tags) mark → w_type netW = tlv_Interest → Interest_decode netW = Ok i →
  Packet_has NackField q = false ∧
  ∃ s' e, decodeInterest netW q ep s = (Ok tt, s') ∧ signalled s s' e ∧
    arrivesAs txo (ls_options s) ep netW (TxInterest wire tags) e.
Proof.
  intros [Hnack Hnext Hcache Hmark Hnd Hann Hpit] Htags [Hu64 Hfit] Hseen Hty Hi.
  simpl in Hnack, Hu64, Hfit, Hnd, Hann, Hpit. rewrite Hfit in Hann.
  pose proof (absent NackField Hnack) as HN. split; [done|].
  unfold decodeInterest. rewrite Hty, HN, (absent NextHopFaceIdField Hnext).
  rewrite (bindE _ _ s tt s) by done. rewrite (bindE _ _ s tt s) by done.
  rewrite (bindE _ _ s (ls_options s) s) by done.
  rewrite (bindE _ _ s i s) by (unfold liftE; by rewrite Hi). cbn [andb].
  rewrite (bindE _ _ s _ s (readTag_eq NextHopFaceIdField is_u64 None _ _ q s Hnext ltac:(done))).
  rewrite (absent CachePolicyField Hcache).
  rewrite (bindE _ _ s _ s (readTag_eq CongestionMarkField is_u64 mark _ _ q s Hmark (seen_u64 _ Hu64 Hseen))).
  rewrite (bindE _ _ s (mkTags None None None mark
    (allowSelfLearning (ls_options s) && (allowSelfLearning txo && tag_nonDiscovery tags)) None None) s).
  2:{ destruct (allowSelfLearning (ls_options s)); [|by destruct mark].
      rewrite (readTag_eq NonDiscoveryField (fun _ => True) _ _ _ q s Hnd) by done.
      by destruct (_ && _), mark. }
  rewrite (absent (PrefixAnnouncementField PrefixAnnouncement_check))
    by (simpl; rewrite Hann; by destruct (allowSelfLearning txo)).
  rewrite (bindE _ _ s (mkTags None None None mark
    (allowSelfLearning (ls_options s) && (allowSelfLearning txo && tag_nonDiscovery tags)) None
    (tag_pitToken tags)) s).
  - destruct (signalled_receive nInInterests (RxInterest i (mkTags None None None mark
      (allowSelfLearning (ls_options s) && (allowSelfLearning txo && tag_nonDiscovery tags)) None
      (tag_pitToken tags)) ep) s) as (s' & E & Hs'); [set_solver|].
    eexists s', _. split; [exact E|]. split; [exact Hs'|]. by constructor.
  - pose proof (tagBlocks_has PitTokenField range_ok (tag_pitToken tags) q Hpit) as HT.
    destruct (tag_pitToken tags) as [token|] eqn:Et; [|by rewrite HT].
    destruct (tags_pitToken _ Htags token Et) as [Hlen _].
    destruct HT as [-> Hg]; [intros v [= <-]; split; [by destruct token; simpl in Hlen; [lia|]|lia]|].
    rewrite (bindE _ _ s token s) by (unfold liftE; by rewrite Hg).
    rewrite (bindE _ _ s token s); [done|]. unfold liftE, makePitToken.
    rewrite bool_decide_false; [done|]. unfold LENGTH_MIN, LENGTH_MAX. lia.
Qed.

Lemma decodeData_headers wire tags d s :
  headersOf txo (TxData wire tags) mark q → tagsFit (TxData wire tags) →
  markSeen (tag_congestionMark tags) mark → w_type netW = tlv_Data → Data_decode netW = Ok d →
  ∃ s' e, decodeData netW q ep s = (Ok tt, s') ∧ signalled s s' e ∧
    arrivesAs txo (ls_options s) ep netW (TxData wire tags) e.
Proof.
  intros [Hnack Hnext Hcache Hmark Hnd Hann _] [Hu64 [Hno Hok]] Hseen Hty Hd.
  simpl in Hnack, Hu64, Hno, Hok, Hnd, Hann. rewrite Hno, andb_false_r in Hnd.
  unfold decodeData. rewrite Hty, (absent NackField Hnack), (absent NextHopFaceIdField Hnext).
  rewrite (absent NonDiscoveryField Hnd). rewrite (bindE _ _ s tt s) by done.
  rewrite (bindE _ _ s (ls_options s) s) by done.
  rewrite (bindE _ _ s d s) by (unfold liftE; by rewrite Hd).
  rewrite (bindE _ _ s Tags_none s)
    by (unfold readTag; by rewrite (absent CachePolicyField Hcache)).
  rewrite (bindE _ _ s _ s (readTag_eq CongestionMarkField is_u64 mark _ _ q s Hmark (seen_u64 _ Hu64 Hseen))).
  rewrite (bindE _ _ s (mkTags None None None mark false
    (if allowSelfLearning (ls_options s) && allowSelfLearning txo
     then tag_prefixAnnouncement tags else None) None) s).
  - destruct (signalled_receive nInData (RxData d (mkTags None None None mark false
      (if allowSelfLearning (ls_options s) && allowSelfLearning txo
       then tag_prefixAnnouncement tags else None) None) ep) s) as (s' & E & Hs'); [set_solver|].
    eexists s', _. split; [exact E|]. split; [exact Hs'|]. by constructor.
  - destruct (allowSelfLearning (ls_options s)); [|by destruct mark]. cbn [andb].
    rewrite (readTag_eq (PrefixAnnouncementField PrefixAnnouncement_check) _ _ _ _ q s Hann).
    + by destruct (allowSelfLearning txo), mark; [destruct (tag_prefixAnnouncement tags)..| |].
    + intros v Hv. apply Hok. by destruct (allowSelfLearning txo).
Qed.

Lemma decodeNack_headers wire header tags i s :
  headersOf txo (TxNack wire header tags) mark q → is_int_enum header →
  tagsFit (TxNack wire header tags) →
  markSeen (tag_congestionMark tags) mark → w_type netW = tlv_Interest → Interest_decode netW = Ok i →
  Packet_has NackField q = true ∧
  ∃ s' e, decodeNack netW q ep s = (Ok tt, s') ∧ signalled s s' e ∧
    arrivesAs txo (ls_options s) ep netW (TxNack wire header tags) e.
Proof.
  intros [Hnack Hnext Hcache Hmark Hnd Hann _] Hh [Hu64 [Hno Hpa]] Hseen Hty Hi.
  simpl in Hu64, Hno, Hpa, Hnd, Hann. rewrite Hno, andb_false_r in Hnd. rewrite Hpa in Hann.
  assert (Packet_has NackField q = true ∧ Packet_get NackField q = Ok header) as [HN Hg].
  { apply (tagBlocks_has NackField is_int_enum (Some header) q Hnack). by intros v [= <-]. }
  split; [done|]. unfold decodeNack. rewrite Hty, HN, (absent NextHopFaceIdField Hnext).
  rewrite (absent CachePolicyField Hcache), (absent NonDiscoveryField Hnd).
  rewrite (absent (PrefixAnnouncementField PrefixAnnouncement_check))
    by (simpl; rewrite Hann; by destruct (allowSelfLearning txo)).
  rewrite (bindE _ _ s tt s) by done. rewrite (bindE _ _ s tt s) by done.
  rewrite (bindE _ _ s i s) by (unfold liftE; by rewrite Hi).
  rewrite (bindE _ _ s header s) by (unfold liftE; by rewrite Hg).
  rewrite (bindE _ _ s _ s (readTag_eq CongestionMarkField is_u64 mark _ _ q s Hmark (seen_u64 _ Hu64 Hseen))).
  destruct (signalled_receive nInNacks (RxNack i header
    (mkTags None None None mark false None None) ep) s) as (s' & E & Hs'); [set_solver|].
  eexists s', _. split; [|split; [exact Hs'|by constructor]]. rewrite <-E. by destruct mark.
Qed.

Lemma decodeNetPacket_headers x s :
  headersOf txo x mark q → NetSend_ok x → tagsFit x →
  markSeen (tag_congestionMark (tx_tagsOf x)) mark → decodable x netW →
  ∃ s' e, decodeNetPacket netW q ep s = (Ok tt, s') ∧ signalled s s' e ∧
    arrivesAs txo (ls_options s) ep netW x e.
Proof.
  intros Hq (_ & Htags & Hnack) Hfit Hseen Hdec. unfold decodeNetPacket, catchTlv.
  destruct x as [wire tags|wire tags|wire header tags]; destruct Hdec as [Hty [v Hv]]; rewrite Hty;
    [rewrite bool_decide_true by done|rewrite bool_decide_false, bool_decide_true by done
    |rewrite bool_decide_true by done].
  - destruct (decodeInterest_headers wire tags v s Hq Htags Hfit Hseen Hty Hv)
      as (-> & s' & e & E & ? & ?). exists s', e. by rewrite E.
  - destruct (decodeData_headers wire tags v s Hq Hfit Hseen Hty Hv) as (s' & e & E & ? & ?).
    exists s', e. by rewrite E.
  - destruct (decodeNack_headers wire header tags v s Hq (Hnack header eq_refl) Hfit Hseen Hty Hv)
      as (-> & s' & e & E & ? & ?). exists s', e. by rewrite E.
Qed.
End read.
End decode.

(** ** Properties of the link *)

(** The elements of one packet, in any order, make the peer emit one signal for
    it; [PlainLink] states what follows for the whole link service. *)
Theorem link_delivers {C : NetCodec} transport now x mtu netW ep order
    (s s' r : LinkService C) ws :
  NetSend_ok x → tagsFit x → canSend transport (ls_options s) mtu →
  transmit transport now x s = (Ok tt, s') → ls_sent s' = ls_sent s ++ ws → ws ≠ [] →
  Forall (fun w => Z.of_nat (Wire_size w) < 2 ^ 62) ws →
  Wire_ofSpan (w_bytes (tx_wireOf x)) = Ok netW → decodable x netW →
  canReceive (ls_options s) ep (ls_lastSeqNo s + 1) r → order.*2 ≡ₚ seq 0 (length ws) →
  ∃ r' e, deliverWires ep ws order r = (Ok tt, r') ∧
    ls_received r' = ls_received r ++ [e] ∧ arrivesAs (ls_options s) (ls_options r) ep netW x e ∧
    Reassembler_ok (ls_reassembler r') ∧
    ls_counters r' nInLpInvalid = ls_counters r nInLpInvalid ∧
    ls_counters r' nInNetInvalid = ls_counters r nInNetInvalid.
Proof.
  intros Hx Hfit Hcan Htx Hsent Hne Hsmall Hnet Hdec Hrecv Hperm.
  destruct (transmit_spec transport now x mtu s Hx Hcan)
    as (s2 & base & p & Htx' & Hbase & Hp & Hs & Hout).
  rewrite Htx in Htx'. injection Htx' as <-.
  destruct Hout as [[Hno _]|(qs & ws' & _ & Hsent' & Hws & Hplan)].
  { rewrite Hsent in Hno. apply (f_equal length) in Hno. rewrite length_app in Hno.
    destruct ws; [done|simpl in Hno; lia]. }
  rewrite Hsent in Hsent'. apply app_inv_head in Hsent' as <-.
  destruct (delivered mtu _ p _ netW _ qs ws ep order r Hs Hplan Hws Hsmall Hnet Hrecv Hperm)
    as (re & first & Hre & Hk & E).
  destruct (headersOf_first _ x base p first Hx Hbase Hp Hk) as (mark & Hseen & Hhdr).
  destruct (decodeNetPacket_headers (ls_options s) ep netW mark first x (set_ls_reassembler re r)
    Hhdr Hx Hfit Hseen Hdec) as (r' & e & E' & (Hrx & Hrr & _ & _ & _ & Hc) & He).
  exists r', e. split_and!; [by rewrite E|done|done|by rewrite Hrr| |]; rewrite Hc by set_solver; done.
Qed.
