(* ===== verification/RttEstimator.v ===== *)
(** * The round-trip time estimator ([ndn-cxx/util/rtt-estimator.cpp])

    The smoothed round-trip time and the retransmission timeout, with the
    arithmetic of doubles of the code. *)

From Stdlib Require Import SpecFloat.
From S2P Require Import Prelude Tlv Encoding Packet LpPacket LpFragmenter LpReassembler GenericLinkService.
Local Open Scope Z_scope.

(** [RttEstimator::Options]; times in nanoseconds. *)
Record RttOptions := mkRttOptions {
  rto_alpha : spec_float;
  rto_beta : spec_float;
  rto_initialRto : Z;
  rto_minRto : Z;
  rto_maxRto : Z;
  rto_k : Z;
  rto_backoffMultiplier : Z
}.
(** A double that is a power of two. *)
Definition pow2_double (e : Z) : spec_float := binary_normalize 53 1024 1 e false.
Definition RttOptions_default : RttOptions :=
  mkRttOptions (pow2_double (-3)) (pow2_double (-2)) 1000000000 200000000 60000000000 4 2.

(** No sample has been taken while [m_sRtt] is -1. *)
Record RttEstimator := mkRttEstimator {
  re_options : RttOptions;
  re_sRtt : Z;
  re_rttVar : Z;
  re_rto : Z
}.
Definition RttEstimator_new (options : RttOptions) : RttEstimator :=
  mkRttEstimator options (-1) (-1) (rto_initialRto options).
Definition hasSamples (r : RttEstimator) : bool := bool_decide (re_sRtt r ≠ -1).
Definition getEstimatedRto (r : RttEstimator) : Z := re_rto r.

(** [std::clamp]. *)
Definition clamp (v lo hi : Z) : Z := if bool_decide (v < lo) then lo else if bool_decide (hi < v) then hi else v.
(** [(1 - w) * a + w * b], cast back to nanoseconds. *)
Definition weighted (w : spec_float) (a b : Z) : Z :=
  Z_of_double (SFadd 53 1024 (SFmul 53 1024 (SFsub 53 1024 (double_of_Z 1) w) (double_of_Z a))
                             (SFmul 53 1024 w (double_of_Z b))).

Definition addMeasurement (rtt nExpectedSamples : Z) (r : RttEstimator) : outcome RttEstimator :=
  if negb (bool_decide (0 ≤ rtt)) || negb (bool_decide (0 < nExpectedSamples)) then Fault AssertFailed
  else
    let options := re_options r in
    let '(sRtt, rttVar) :=
      if hasSamples r then
        let alpha := SFdiv 53 1024 (rto_alpha options) (double_of_Z nExpectedSamples) in
        let beta := SFdiv 53 1024 (rto_beta options) (double_of_Z nExpectedSamples) in
        (weighted alpha (re_sRtt r) rtt, weighted beta (re_rttVar r) (Z.abs (re_sRtt r - rtt)))
      else (rtt, rtt ÷ 2) in
    Ok (mkRttEstimator options sRtt rttVar
          (clamp (sRtt + rto_k options * rttVar) (rto_minRto options) (rto_maxRto options))).

Definition backoffRto (r : RttEstimator) : RttEstimator :=
  mkRttEstimator (re_options r) (re_sRtt r) (re_rttVar r)
    (clamp (re_rto r * rto_backoffMultiplier (re_options r)) (rto_minRto (re_options r)) (rto_maxRto (re_options r))).

(** The timeout is never negative, with options as the constructor asserts. *)
Definition rtt_ok (r : RttEstimator) : Prop :=
  0 ≤ rto_minRto (re_options r) ≤ rto_maxRto (re_options r) ∧ 0 ≤ re_rto r.
Lemma clamp_range v lo hi : lo ≤ hi → lo ≤ clamp v lo hi ≤ hi.
Proof. unfold clamp. repeat case_bool_decide; lia. Qed.
Lemma addMeasurement_ok rtt r :
  rtt_ok r → 0 ≤ rtt → ∃ r', addMeasurement rtt 1 r = Ok r' ∧ rtt_ok r' ∧
    rto_minRto (re_options r) ≤ re_rto r' ≤ rto_maxRto (re_options r).
Proof.
  intros [Hm Hr] Ht. unfold addMeasurement. rewrite !bool_decide_true by lia. cbn [negb orb].
  destruct (if hasSamples r then _ else _) as [sRtt rttVar]. eexists. split; [done|].
  pose proof (clamp_range (sRtt + rto_k (re_options r) * rttVar) _ _ (proj2 Hm)).
  split; [|done]. split; [done|]. cbn [re_rto]. lia.
Qed.
Lemma RttEstimator_new_ok : rtt_ok (RttEstimator_new RttOptions_default).
Proof. split; cbn; lia. Qed.
(** Samples of 100 ms and 200 ms. *)
Example rtt_samples :
  (r ← addMeasurement 100000000 1 (RttEstimator_new RttOptions_default); addMeasurement 200000000 1 r) =
    Ok (mkRttEstimator RttOptions_default 112500000 62500000 362500000).
Proof. by vm_compute. Qed.
