(* ===== verification/LpReliability.v ===== *)
(** * Link-layer reliability ([NFD/daemon/face/lp-reliability.cpp])

    Fragments that have been sent wait in a map ordered by TxSequence numbers
    until they are acknowledged, sent again or given up; [m_firstUnackedFrag] is
    the start of the window, which wraps around.  Every network packet lists its
    fragments by iterators into the map.  Iterators are the keys they designate;
    [shared_ptr<NetPkt>] is a reference into a heap. *)

From S2P Require Import Prelude Tlv Encoding Packet LpPacket LpFragmenter LpReassembler GenericLinkService RttEstimator.
Local Open Scope Z_scope.

(** ** Ordered maps *)

Section ordered.
Context {A : Type}.
(** The least key with a property. *)
Definition leastKey (P : Z → bool) (m : gmap Z A) : option Z :=
  foldr (fun k acc => if P k then Some (match acc with Some a => Z.min k a | None => k end) else acc) None
    (map fst (map_to_list m)).
(** [begin()] and the iterator after a key; [None] is [end()]. *)
Definition beginKey (m : gmap Z A) : option Z := leastKey (fun _ => true) m.
Definition nextKey (k : Z) (m : gmap Z A) : option Z := leastKey (fun x => bool_decide (k < x)) m.
(** [try_emplace]. *)
Definition tryEmplace (k : Z) (a : A) (m : gmap Z A) : gmap Z A :=
  match m !! k with Some _ => m | None => <[k := a]> m end.
End ordered.

(** ** State *)

(** [LpReliability::Options]. *)
Record ReliabilityOptions := mkReliabilityOptions {
  ro_isEnabled : bool;
  ro_maxRetx : Z;
  ro_idleAckTimerPeriod : Z;
  ro_seqNumLossThreshold : Z
}.
Definition ReliabilityOptions_default : ReliabilityOptions := mkReliabilityOptions false 3 5000000 3.

Definition NetPktRef := nat.
(** [rtoTimer] is the time it expires at. *)
Record UnackedFrag := mkUnackedFrag {
  uf_pkt : Packet;
  uf_rtoTimer : option Z;
  uf_sendTime : Z;
  uf_retxCount : Z;
  uf_nGreaterSeqAcks : Z;
  uf_netPkt : option NetPktRef
}.
Definition UnackedFrag_new (now : Z) (pkt : Packet) : UnackedFrag := mkUnackedFrag pkt None now 0 0 None.
Definition set_uf_pkt v f :=
  mkUnackedFrag v (uf_rtoTimer f) (uf_sendTime f) (uf_retxCount f) (uf_nGreaterSeqAcks f) (uf_netPkt f).
Definition set_uf_rtoTimer v f :=
  mkUnackedFrag (uf_pkt f) v (uf_sendTime f) (uf_retxCount f) (uf_nGreaterSeqAcks f) (uf_netPkt f).
Definition set_uf_sendTime v f :=
  mkUnackedFrag (uf_pkt f) (uf_rtoTimer f) v (uf_retxCount f) (uf_nGreaterSeqAcks f) (uf_netPkt f).
Definition set_uf_retxCount v f :=
  mkUnackedFrag (uf_pkt f) (uf_rtoTimer f) (uf_sendTime f) v (uf_nGreaterSeqAcks f) (uf_netPkt f).
Definition set_uf_nGreaterSeqAcks v f :=
  mkUnackedFrag (uf_pkt f) (uf_rtoTimer f) (uf_sendTime f) (uf_retxCount f) v (uf_netPkt f).
Definition set_uf_netPkt v f :=
  mkUnackedFrag (uf_pkt f) (uf_rtoTimer f) (uf_sendTime f) (uf_retxCount f) (uf_nGreaterSeqAcks f) v.

Record NetPkt := mkNetPkt {
  np_unackedFrags : list Z;
  np_pkt : Packet;
  np_isInterest : bool;
  np_didRetx : bool
}.
Definition set_np_unackedFrags v n := mkNetPkt v (np_pkt n) (np_isInterest n) (np_didRetx n).
Definition set_np_didRetx v n := mkNetPkt (np_unackedFrags n) (np_pkt n) (np_isInterest n) v.

Record LpReliability := mkLpReliability {
  rl_options : ReliabilityOptions;
  rl_unackedFrags : gmap Z UnackedFrag;
  rl_netPkts : gmap NetPktRef NetPkt;
  rl_firstUnackedFrag : option Z;
  rl_ackQueue : list Z;
  rl_recentRecvSeqs : gmap Z Z;
  rl_recentRecvSeqsQueue : list Z;
  rl_lastTxSeqNo : Z;
  rl_idleAckTimer : option Z;
  rl_rttEst : RttEstimator
}.
Definition set_rl_options v s := mkLpReliability v (rl_unackedFrags s) (rl_netPkts s) (rl_firstUnackedFrag s)
  (rl_ackQueue s) (rl_recentRecvSeqs s) (rl_recentRecvSeqsQueue s) (rl_lastTxSeqNo s) (rl_idleAckTimer s) (rl_rttEst s).
Definition set_rl_unackedFrags v s := mkLpReliability (rl_options s) v (rl_netPkts s) (rl_firstUnackedFrag s)
  (rl_ackQueue s) (rl_recentRecvSeqs s) (rl_recentRecvSeqsQueue s) (rl_lastTxSeqNo s) (rl_idleAckTimer s) (rl_rttEst s).
Definition set_rl_netPkts v s := mkLpReliability (rl_options s) (rl_unackedFrags s) v (rl_firstUnackedFrag s)
  (rl_ackQueue s) (rl_recentRecvSeqs s) (rl_recentRecvSeqsQueue s) (rl_lastTxSeqNo s) (rl_idleAckTimer s) (rl_rttEst s).
Definition set_rl_firstUnackedFrag v s := mkLpReliability (rl_options s) (rl_unackedFrags s) (rl_netPkts s) v
  (rl_ackQueue s) (rl_recentRecvSeqs s) (rl_recentRecvSeqsQueue s) (rl_lastTxSeqNo s) (rl_idleAckTimer s) (rl_rttEst s).
Definition set_rl_ackQueue v s := mkLpReliability (rl_options s) (rl_unackedFrags s) (rl_netPkts s) (rl_firstUnackedFrag s)
  v (rl_recentRecvSeqs s) (rl_recentRecvSeqsQueue s) (rl_lastTxSeqNo s) (rl_idleAckTimer s) (rl_rttEst s).
Definition set_rl_recent v q s := mkLpReliability (rl_options s) (rl_unackedFrags s) (rl_netPkts s) (rl_firstUnackedFrag s)
  (rl_ackQueue s) v q (rl_lastTxSeqNo s) (rl_idleAckTimer s) (rl_rttEst s).
Definition set_rl_lastTxSeqNo v s := mkLpReliability (rl_options s) (rl_unackedFrags s) (rl_netPkts s)
  (rl_firstUnackedFrag s) (rl_ackQueue s) (rl_recentRecvSeqs s) (rl_recentRecvSeqsQueue s) v (rl_idleAckTimer s) (rl_rttEst s).
Definition set_rl_idleAckTimer v s := mkLpReliability (rl_options s) (rl_unackedFrags s) (rl_netPkts s)
  (rl_firstUnackedFrag s) (rl_ackQueue s) (rl_recentRecvSeqs s) (rl_recentRecvSeqsQueue s) (rl_lastTxSeqNo s) v (rl_rttEst s).
Definition set_rl_rttEst v s := mkLpReliability (rl_options s) (rl_unackedFrags s) (rl_netPkts s) (rl_firstUnackedFrag s)
  (rl_ackQueue s) (rl_recentRecvSeqs s) (rl_recentRecvSeqsQueue s) (rl_lastTxSeqNo s) (rl_idleAckTimer s) v.

(** The constructor; [m_lastTxSeqNo] is -1 as an unsigned number. *)
Definition LpReliability_new (options : ReliabilityOptions) : LpReliability :=
  mkLpReliability options ∅ ∅ None [] ∅ [] (u64 (-1)) None (RttEstimator_new RttOptions_default).
(** [setOptions], after its assertion. *)
Definition LpReliability_setOptions (options : ReliabilityOptions) (s : LpReliability) : LpReliability :=
  set_rl_options options
    (if ro_isEnabled (rl_options s) && negb (ro_isEnabled options) then set_rl_idleAckTimer None s else s).

Abbreviation RL := (ME LpReliability).
(** Dereferencing an iterator or a pointer. *)
Definition derefE {S A} (o : option A) : ME S A :=
  liftE (match o with Some a => Ok a | None => Fault UndefinedBehaviour end).
Definition updFrag (k : Z) (f : UnackedFrag → UnackedFrag) : RL unit :=
  modifyE (fun s => set_rl_unackedFrags (alter f k (rl_unackedFrags s)) s).
Definition updNetPkt (r : NetPktRef) (f : NetPkt → NetPkt) : RL unit :=
  modifyE (fun s => set_rl_netPkts (alter f r (rl_netPkts s)) s).
Definition fragAt (k : Z) : RL UnackedFrag := f ← getE (fun s => rl_unackedFrags s !! k); derefE f.
Definition netPktAt (r : option NetPktRef) : RL NetPkt :=
  r ← derefE r; n ← getE (fun s => rl_netPkts s !! r); derefE n.

(** ** Sending *)

(** [assignTxSequence]: the number is put on the packet before the check that
    can throw. *)
Definition takeTxSequence (frag : Packet) : RL (Z * Packet) :=
  txSeq ← getE (fun s => u64 (rl_lastTxSeqNo s + 1));
  _ ← modifyE (set_rl_lastTxSeqNo txSeq);
  frag ← liftE (Packet_set TxSequenceField txSeq frag);
  mret (txSeq, frag).
Definition checkTxSequence (txSeq : Z) : RL unit :=
  s ← getE id;
  if bool_decide (rl_unackedFrags s ≠ ∅) then
    first ← derefE (rl_firstUnackedFrag s);
    if bool_decide (txSeq = first) then liftE (Fault (Throw LengthError)) else mret tt
  else mret tt.
Definition assignTxSequence (frag : Packet) : RL (Z * Packet) :=
  '(txSeq, frag) ← takeTxSequence frag;
  _ ← checkTxSequence txSeq;
  mret (txSeq, frag).

(** The loop of [handleOutgoing]; the fragments are returned with their numbers. *)
Fixpoint handleFrags (now : Z) (netPkt : NetPktRef) (frags : list Packet) : RL (list Packet) :=
  match frags with
  | [] => mret []
  | frag :: frags' =>
      _ ← assertE (Packet_has SequenceField frag);
      '(txSeq, frag) ← assignTxSequence frag;
      _ ← modifyE (fun s => set_rl_unackedFrags (tryEmplace txSeq (UnackedFrag_new now frag) (rl_unackedFrags s)) s);
      rto ← getE (fun s => getEstimatedRto (rl_rttEst s));
      _ ← updFrag txSeq (fun f => set_uf_netPkt (Some netPkt) (set_uf_rtoTimer (Some (now + rto)) (set_uf_sendTime now f)));
      _ ← modifyE (fun s => if bool_decide (size (rl_unackedFrags s) = 1%nat)
                            then set_rl_firstUnackedFrag (beginKey (rl_unackedFrags s)) s else s);
      _ ← updNetPkt netPkt (fun n => set_np_unackedFrags (np_unackedFrags n ++ [txSeq]) n);
      frags' ← handleFrags now netPkt frags';
      mret (frag :: frags')
  end.
Definition handleOutgoing (now : Z) (frags : list Packet) (pkt : Packet) (isInterest : bool) : RL (list Packet) :=
  options ← getE rl_options;
  _ ← assertE (ro_isEnabled options);
  netPkt ← getE (fun s => fresh (dom (rl_netPkts s)));
  _ ← modifyE (fun s => set_rl_netPkts (<[netPkt := mkNetPkt [] pkt isInterest false]> (rl_netPkts s)) s);
  handleFrags now netPkt frags.

(** [piggyback]: TLV-TYPE, TLV-LENGTH and value of an Ack; [mtu] is [None] when unlimited. *)
Definition MAX_NDN_PACKET_SIZE : Z := 8800.
Definition ackSize : Z := Z.of_nat (sizeOfVarNumber lp_Ack + sizeOfVarNumber 8 + 8).
Fixpoint piggyback_loop (queue : list Z) (remainingSpace : Z) (pkt : Packet) : outcome (list Z * Packet) :=
  match queue with
  | [] => Ok ([], pkt)
  | ackTxSeq :: queue' =>
      if bool_decide (remainingSpace < ackSize) then Ok (queue, pkt)
      else
        pkt ← Packet_add AckField ackTxSeq pkt;
        piggyback_loop queue' (remainingSpace - ackSize) pkt
  end.
Definition piggyback (pkt : Packet) (mtu : Z) : RL Packet :=
  options ← getE rl_options;
  _ ← assertE (ro_isEnabled options);
  wire ← liftE (Packet_wireEncode pkt);
  _ ← assertE (bool_decide (w_type wire = lp_LpPacket));
  let pktSize := Z.of_nat (Wire_size wire) in
  let reservedSpace := Z.of_nat (sizeOfVarNumber MAX_NDN_PACKET_SIZE) - Z.of_nat (sizeOfVarNumber pktSize) in
  let remainingSpace := (if bool_decide (mtu = MTU_UNLIMITED) then MAX_NDN_PACKET_SIZE else mtu) - reservedSpace - pktSize in
  queue ← getE rl_ackQueue;
  '(queue', pkt') ← liftE (piggyback_loop queue remainingSpace pkt);
  _ ← modifyE (set_rl_ackQueue queue');
  mret pkt'.

(** ** Acknowledgements and losses *)

(** [deleteUnackedFrag]. *)
Definition deleteUnackedFrag (k : Z) : RL unit :=
  first ← getE rl_firstUnackedFrag;
  firstUnackedTxSeq ← derefE first;
  modifyE (fun s =>
    let m := delete k (rl_unackedFrags s) in
    let s' := set_rl_unackedFrags m s in
    if bool_decide (m ≠ ∅) && bool_decide (firstUnackedTxSeq = k) then
      set_rl_firstUnackedFrag (match nextKey k m with Some n => Some n | None => beginKey m end) s'
    else if bool_decide (m = ∅) then set_rl_firstUnackedFrag None s'
    else s').

(** The loop of [findLostLpPackets] from an iterator. *)
Fixpoint findLost_loop (fuel : nat) (ack : Z) (it : option Z) (lost : list Z) : RL (list Z) :=
  match fuel with
  | O => liftE (Fault Diverges)
  | S fuel' =>
      m ← getE rl_unackedFrags;
      k ← derefE (match it with Some k => Some k | None => beginKey m end);
      if bool_decide (k = ack) then mret lost
      else
        _ ← updFrag k (fun f => set_uf_nGreaterSeqAcks (u64 (uf_nGreaterSeqAcks f + 1)) f);
        f ← fragAt k;
        threshold ← getE (fun s => ro_seqNumLossThreshold (rl_options s));
        findLost_loop fuel' ack (nextKey k m)
          (if bool_decide (threshold ≤ uf_nGreaterSeqAcks f) then lost ++ [k] else lost)
  end.
(** One round for every fragment is enough. *)
Definition findLostLpPackets (ack : Z) : RL (list Z) :=
  s ← getE id;
  findLost_loop (S (size (rl_unackedFrags s))) ack (rl_firstUnackedFrag s) [].

(** [*fragInNetPkt = unackedFrags.back(); unackedFrags.pop_back()]. *)
Definition replaceWithLast (k : Z) (l : list Z) : list Z :=
  match last l with
  | Some b => take (length l - 1) (updateFirst (fun x => bool_decide (x = k)) (fun _ => b) l)
  | None => l
  end.
(** The counters of the link service that reliability counts in. *)
Inductive RelCounter : Type := nAcknowledged | nRetransmitted | nRetxExhausted | nDuplicateSequence.
#[export] Instance RelCounter_eq_dec : EqDecision RelCounter.
Proof. solve_decision. Defined.

(** [onLpPacketAcknowledged]: the counter to increment, if any. *)
Definition onLpPacketAcknowledged (k : Z) : RL (option RelCounter) :=
  frag ← fragAt k;
  r ← derefE (uf_netPkt frag);
  netPkt ← netPktAt (Some r);
  _ ← assertE (bool_decide (k ∈ np_unackedFrags netPkt));
  let rest := replaceWithLast k (np_unackedFrags netPkt) in
  _ ← updNetPkt r (set_np_unackedFrags rest);
  _ ← deleteUnackedFrag k;
  mret (match rest with
        | [] => Some (if np_didRetx netPkt then nRetransmitted else nAcknowledged)
        | _ => None
        end).

(** [startIdleAckTimer]. *)
Definition startIdleAckTimer (now : Z) : RL unit :=
  modifyE (fun s => match rl_idleAckTimer s with
                    | Some _ => s
                    | None => set_rl_idleAckTimer (Some (now + ro_idleAckTimerPeriod (rl_options s))) s
                    end).

(** The removal of recent Sequences; [operator[]] creates an entry at the epoch
    when there is none. *)
Fixpoint purgeRecent (now rto : Z) (seqs : gmap Z Z) (queue : list Z) : gmap Z Z * list Z :=
  match queue with
  | [] => (seqs, [])
  | q :: queue' =>
      let seqs := match seqs !! q with Some _ => seqs | None => <[q := 0]> seqs end in
      if bool_decide (default 0 (seqs !! q) + rto < now)
      then purgeRecent now rto (delete q seqs) queue'
      else (seqs, queue)
  end.
(** Whether the Sequence was received recently; it is remembered. *)
Definition checkDuplicate (now pktSequence : Z) : RL bool :=
  s ← getE id;
  let isDuplicate := bool_decide (is_Some (rl_recentRecvSeqs s !! pktSequence)) in
  let '(seqs, queue) :=
    purgeRecent now (getEstimatedRto (rl_rttEst s)) (rl_recentRecvSeqs s) (rl_recentRecvSeqsQueue s) in
  _ ← modifyE (set_rl_recent (tryEmplace pktSequence now seqs) (queue ++ [pktSequence]));
  mret isDuplicate.
