(* ===== verification/RelWindow.v ===== *)
(** * The window of unacknowledged fragments

    TxSequence numbers are taken in turn modulo 2^64: seen from the first
    unacknowledged fragment, the keys of the map are in the order of sending. *)

From S2P Require Import Prelude Tlv Encoding Packet LpPacket LpFragmenter LpReassembler GenericLinkService RttEstimator LpReliability.
Local Open Scope Z_scope.

(** ** Least keys *)

Section least.
Context {A : Type}.
Implicit Types (m : gmap Z A) (P : Z → bool).

Lemma leastKey_spec P m :
  match leastKey P m with
  | Some k => is_Some (m !! k) ∧ P k = true ∧ ∀ x, is_Some (m !! x) → P x = true → k ≤ x
  | None => ∀ x, is_Some (m !! x) → P x = false
  end.
Proof.
  unfold leastKey.
  assert (∀ l, match foldr (fun k acc => if P k then Some (match acc with Some a => Z.min k a | None => k end) else acc) None l with
    | Some k => k ∈ l ∧ P k = true ∧ ∀ x, x ∈ l → P x = true → k ≤ x
    | None => ∀ x, x ∈ l → P x = false end) as Hl.
  { induction l as [|a l IH]; cbn [foldr]; [by intros x ?%not_elem_of_nil|]. destruct (P a) eqn:Ea.
    - destruct (foldr _ _ _) as [b|].
      + destruct IH as (Hb & HPb & Hle). split_and!.
        * rewrite elem_of_cons. destruct (Z.min_spec a b) as [[_ ->]|[_ ->]]; auto.
        * destruct (Z.min_spec a b) as [[_ ->]|[_ ->]]; done.
        * intros x [->|Hx]%elem_of_cons HP; [lia|]. specialize (Hle x Hx HP). lia.
      + split_and!; [by left|done|]. intros x [->|Hx]%elem_of_cons HP; [lia|]. by rewrite IH in HP.
    - destruct (foldr _ _ _) as [b|].
      + destruct IH as (Hb & HPb & Hle). split_and!; [by right|done|]. intros x [->|Hx]%elem_of_cons HP; [congruence|auto].
      + intros x [->|Hx]%elem_of_cons; auto. }
  assert (∀ x, x ∈ map fst (map_to_list m) ↔ is_Some (m !! x)) as Hk.
  { intros x. change (map fst (map_to_list m)) with ((map_to_list m).*1). rewrite list_elem_of_fmap. split.
    - intros ([k v] & -> & H%elem_of_map_to_list). eauto.
    - intros [v H%elem_of_map_to_list]. by exists (x, v). }
  specialize (Hl (map fst (map_to_list m))). destruct (foldr _ _ _) as [k|].
  - destruct Hl as (H1 & H2 & H3). rewrite Hk in H1. split_and!; [done|done|]. intros x Hx. apply H3. by apply Hk.
  - intros x Hx. apply Hl. by apply Hk.
Qed.
End least.
Lemma leastKey_ext {A B} P (m : gmap Z A) (m' : gmap Z B) :
  (∀ x, is_Some (m !! x) ↔ is_Some (m' !! x)) → leastKey P m = leastKey P m'.
Proof.
  intros H. pose proof (leastKey_spec P m) as H1. pose proof (leastKey_spec P m') as H2.
  destruct (leastKey P m) as [k|], (leastKey P m') as [k'|]; [|exfalso..|done].
  - destruct H1 as (Hk & HP & Hle), H2 as (Hk' & HP' & Hle'). f_equal.
    specialize (Hle k' (proj2 (H k') Hk') HP'). specialize (Hle' k (proj1 (H k) Hk) HP). lia.
  - destruct H1 as (Hk & HP & _). rewrite (H2 k) in HP by by apply H. done.
  - destruct H2 as (Hk & HP & _). rewrite (H1 k') in HP by by apply H. done.
Qed.

(** ** Distances in the window *)

Definition dist (a b : Z) : Z := (b - a) mod 2 ^ 64.
Definition is_seq (a : Z) : Prop := 0 ≤ a < 2 ^ 64.

Lemma dist_cases a b : is_seq a → is_seq b → dist a b = if bool_decide (a ≤ b) then b - a else b - a + 2 ^ 64.
Proof.
  unfold is_seq, dist. intros Ha Hb. case_bool_decide; [by rewrite Z.mod_small by lia|].
  symmetry. apply (Z.mod_unique_pos _ _ (-1)); lia.
Qed.
Lemma dist_range a b : is_seq a → is_seq b → 0 ≤ dist a b < 2 ^ 64.
Proof. intros _ _. apply Z.mod_pos_bound. lia. Qed.
Lemma dist_0 a b : is_seq a → is_seq b → dist a b = 0 ↔ a = b.
Proof. intros Ha Hb. rewrite dist_cases by done. unfold is_seq in *. case_bool_decide; lia. Qed.
Lemma dist_inj a b c : is_seq a → is_seq b → is_seq c → dist a b = dist a c → b = c.
Proof. intros Ha Hb Hc. rewrite !dist_cases by done. unfold is_seq in *. repeat case_bool_decide; lia. Qed.
Lemma dist_sub a b c : is_seq a → is_seq b → is_seq c → dist a b ≤ dist a c → dist b c = dist a c - dist a b.
Proof. intros Ha Hb Hc. rewrite !dist_cases by done. unfold is_seq in *. repeat case_bool_decide; lia. Qed.
Lemma dist_next a b : is_seq a → is_seq b → u64 (b + 1) ≠ a → dist a (u64 (b + 1)) = dist a b + 1.
Proof.
  intros Ha Hb. unfold is_seq in *. unfold u64. destruct (decide (b = 2 ^ 64 - 1)) as [->|Hne].
  - change ((2 ^ 64 - 1 + 1) mod 2 ^ 64) with 0. intros H0. rewrite !dist_cases by (unfold is_seq; lia).
    repeat case_bool_decide; lia.
  - rewrite Z.mod_small by lia. intros H0. rewrite !dist_cases by (unfold is_seq; lia). repeat case_bool_decide; lia.
Qed.

(** The key after [k], around the end of the range. *)
Definition cyclicNext {A} (k : Z) (m : gmap Z A) : option Z :=
  match nextKey k m with Some n => Some n | None => beginKey m end.
Lemma cyclicNext_spec {A} k (m : gmap Z A) :
  is_seq k → (∀ x, is_Some (m !! x) → is_seq x) → m ≠ ∅ →
  ∃ n, cyclicNext k m = Some n ∧ is_Some (m !! n) ∧
    ∀ x, is_Some (m !! x) → x ≠ k → n ≠ k ∧ dist k n ≤ dist k x.
Proof.
  intros Hk Hm Hne. unfold cyclicNext, nextKey, beginKey. pose proof (leastKey_spec (fun x => bool_decide (k < x)) m) as Hn.
  destruct (leastKey (fun x => bool_decide (k < x)) m) as [n|].
  - destruct Hn as (Hn & Hlt%bool_decide_eq_true & Hle). exists n. split_and!; [done|done|]. intros x Hx Hxk. split; [lia|].
    rewrite !dist_cases by auto. specialize (Hle x Hx). unfold is_seq in *. pose proof (Hm x Hx). pose proof (Hm n Hn).
    assert (k < x → n ≤ x) as Hle' by (intros ?; apply Hle, bool_decide_eq_true; lia). clear Hle.
    repeat case_bool_decide; lia.
  - pose proof (leastKey_spec (fun _ => true) m) as Hb. destruct (leastKey (fun _ => true) m) as [n|].
    2: { destruct Hne. apply map_eq. intros x. rewrite lookup_empty. destruct (m !! x) eqn:E; [|done].
         specialize (Hb x). rewrite E in Hb. by discriminate Hb. }
    destruct Hb as (Hn' & _ & Hle). exists n. split_and!; [done|done|]. intros x Hx Hxk.
    assert (n ≤ x) by auto. pose proof (Hn x Hx) as Hx'%bool_decide_eq_false. pose proof (Hm x Hx). pose proof (Hm n Hn').
    split; [lia|]. rewrite !dist_cases by auto. unfold is_seq in *. repeat case_bool_decide; lia.
Qed.

(** ** The window *)

Record window {A} (m : gmap Z A) (first : option Z) (last : Z) : Prop := {
  wi_keys : ∀ k, is_Some (m !! k) → is_seq k;
  wi_last : is_seq last;
  wi_first : match first with Some f => is_Some (m !! f) | None => m = ∅ end;
  wi_span : ∀ f k, first = Some f → is_Some (m !! k) → dist f k ≤ dist f last
}.

Lemma window_same {A B} (m : gmap Z A) (m' : gmap Z B) first last :
  (∀ x, is_Some (m' !! x) ↔ is_Some (m !! x)) → window m first last → window m' first last.
Proof.
  intros H [H1 H2 H3 H4]. split; [intros k Hk%H; auto|done| |intros f k E Hk%H; eauto].
  destruct first as [f|]; [by apply H|]. subst. apply map_eq. intros x. rewrite lookup_empty.
  destruct (m' !! x) eqn:E; [|done]. destruct (proj1 (H x)) as [? Hx]; [eauto|]. by rewrite lookup_empty in Hx.
Qed.

(** The start of the window after a fragment has gone. *)
Definition firstAfter {A} (k : Z) (m' : gmap Z A) (first : option Z) : option Z :=
  if bool_decide (m' ≠ ∅) && bool_decide (first = Some k) then cyclicNext k m'
  else if bool_decide (m' = ∅) then None else first.
Lemma window_delete {A} (m : gmap Z A) f last k :
  window m (Some f) last → is_Some (m !! k) → window (delete k m) (firstAfter k (delete k m) (Some f)) last.
Proof.
  intros [H1 H2 H3 H4] Hk. assert (∀ x, is_Some (delete k m !! x) ↔ x ≠ k ∧ is_Some (m !! x)) as Hd.
  { intros x. rewrite lookup_delete_is_Some. naive_solver. }
  unfold firstAfter. case_bool_decide as Hne; cbn [andb].
  2: { rewrite bool_decide_true by done. split; [|done|done|done].
       intros x Hx. rewrite Hne, lookup_empty in Hx. by destruct Hx. }
  case_bool_decide as Ef.
  - injection Ef as ->. destruct (cyclicNext_spec k (delete k m)) as (n & -> & Hn & Hmin); [by apply H1|intros x []%Hd; auto|done|].
    split; [intros x []%Hd; auto|done|done|]. intros g x [= <-] Hx. apply Hd in Hn as [Hnk Hn]. apply Hd in Hx as [Hxk Hx].
    destruct (Hmin x) as [_ Hle]; [by apply Hd|done|]. pose proof (H4 k n eq_refl Hn). pose proof (H4 k x eq_refl Hx).
    rewrite (dist_sub k n x), (dist_sub k n last) by auto. lia.
  - rewrite bool_decide_false by done. split; [intros x []%Hd; auto|done|apply Hd; split; [congruence|done]|].
    intros g x [= <-] [_ Hx]%Hd. auto.
Qed.

(** A new number at the end of the window is not in use. *)
Lemma window_fresh {A} (m : gmap Z A) first last :
  window m first last → first ≠ Some (u64 (last + 1)) → m !! u64 (last + 1) = None.
Proof.
  intros [H1 H2 H3 H4] Hne. destruct (m !! u64 (last + 1)) as [a|] eqn:E; [|done]. exfalso.
  assert (is_Some (m !! u64 (last + 1))) as Hs by eauto. destruct first as [f|].
  - pose proof (H4 f _ eq_refl Hs). rewrite dist_next in *; [lia|auto|done|congruence].
  - subst. by rewrite lookup_empty in E.
Qed.
Lemma window_insert {A} (m : gmap Z A) first last a :
  window m first last → first ≠ Some (u64 (last + 1)) →
  window (<[u64 (last + 1) := a]> m) (match first with Some f => Some f | None => Some (u64 (last + 1)) end) (u64 (last + 1)).
Proof.
  intros [H1 H2 H3 H4] Hne. set (k := u64 (last + 1)) in *.
  assert (is_seq k) as Hk by (unfold is_seq, k, u64; apply Z.mod_pos_bound; lia).
  assert (∀ x, is_Some (<[k := a]> m !! x) ↔ x = k ∨ is_Some (m !! x)) as Hi.
  { intros x. rewrite lookup_insert_is_Some. destruct (decide (x = k)); naive_solver. }
  split; [intros x [->|?]%Hi; auto|done|destruct first; [apply Hi; by right|apply Hi; by left]|].
  intros f x. destruct first as [f0|].
  - intros [= <-] [->|Hx]%Hi; [lia|]. unfold k. rewrite dist_next; [|auto|done|by intros E; destruct Hne; rewrite <-E]. specialize (H4 f0 x eq_refl Hx). lia.
  - intros [= <-] [->|Hx]%Hi; [lia|]. subst. rewrite lookup_empty in Hx. by destruct Hx.
Qed.

(** ** The loop over the fragments sent before an acknowledged one *)

Lemma dist_add a b c : is_seq a → is_seq b → is_seq c → dist a b + dist b c < 2 ^ 64 → dist a c = dist a b + dist b c.
Proof. intros Ha Hb Hc. rewrite !dist_cases by done. unfold is_seq in *. repeat case_bool_decide; lia. Qed.

Definition bump (f : UnackedFrag) : UnackedFrag := set_uf_nGreaterSeqAcks (u64 (uf_nGreaterSeqAcks f + 1)) f.
(** The fragments less than [d] behind the first have one more later Ack. *)
Definition bumpBefore (first d : Z) (m : gmap Z UnackedFrag) : gmap Z UnackedFrag :=
  map_imap (fun k f => Some (if bool_decide (dist first k < d) then bump f else f)) m.
Lemma lookup_bumpBefore first d m k :
  bumpBefore first d m !! k = (fun f => if bool_decide (dist first k < d) then bump f else f) <$> m !! k.
Proof. unfold bumpBefore. rewrite map_lookup_imap. by destruct (m !! k). Qed.
Lemma is_Some_bumpBefore first d m k : is_Some (bumpBefore first d m !! k) ↔ is_Some (m !! k).
Proof. rewrite lookup_bumpBefore. by rewrite fmap_is_Some. Qed.
Lemma bumpBefore_0 first m : (∀ k, is_Some (m !! k) → 0 ≤ dist first k) → bumpBefore first 0 m = m.
Proof.
  intros H. apply map_eq. intros k. rewrite lookup_bumpBefore. destruct (m !! k) as [f|] eqn:E; [|done]. simpl.
  rewrite bool_decide_false; [done|]. specialize (H k ltac:(eauto)). lia.
Qed.

Section lost.
Context (s0 : LpReliability) (first ack last : Z).
Abbreviation m0 := (rl_unackedFrags s0).
Abbreviation threshold := (ro_seqNumLossThreshold (rl_options s0)).
Context (Hw : window m0 (Some first) last) (Hack : is_Some (m0 !! ack)).

(** With this Ack the threshold is reached. *)
Definition reaches (k : Z) : Prop := ∃ f, m0 !! k = Some f ∧ threshold ≤ u64 (uf_nGreaterSeqAcks f + 1).
(** The fragments less than [d] behind the first that are lost now, in the order of
    sending. *)
Definition lostBefore (d : Z) (lost : list Z) : Prop :=
  (∀ k, k ∈ lost ↔ reaches k ∧ dist first k < d) ∧ StronglySorted (fun a b => dist first a < dist first b) lost.
Definition after (d : Z) : gset Z := filter (fun k => d ≤ dist first k) (dom m0).

Lemma keys_seq k : is_Some (m0 !! k) → is_seq k.
Proof using Hw. apply (wi_keys _ _ _ Hw). Qed.
Lemma first_seq : is_seq first.
Proof using Hw. apply keys_seq, (wi_first _ _ _ Hw). Qed.

Lemma next_in_window k :
  is_Some (m0 !! k) → k ≠ ack → dist first k ≤ dist first ack →
  ∃ n, cyclicNext k m0 = Some n ∧ is_Some (m0 !! n) ∧ dist first k < dist first n ≤ dist first ack ∧
    ∀ x, is_Some (m0 !! x) → dist first k < dist first x → dist first n ≤ dist first x.
Proof using Hw Hack.
  intros Hk Hne Hle. pose proof first_seq as Hf. pose proof (keys_seq k Hk) as Sk. pose proof (keys_seq ack Hack) as Sa.
  destruct (cyclicNext_spec k m0) as (n & En & Hn & Hmin); [done|apply keys_seq|intros E; rewrite E, lookup_empty in Hk; by destruct Hk|].
  pose proof (keys_seq n Hn) as Sn. destruct (Hmin ack Hack) as [Hnk Hka]; [done|].
  assert (dist k ack = dist first ack - dist first k) as Ea by (apply dist_sub; auto).
  pose proof (dist_range first ack Hf Sa). pose proof (dist_range k n Sk Sn).
  assert (dist k n ≠ 0) by (rewrite dist_0 by done; congruence).
  assert (dist first n = dist first k + dist k n) as E by (apply dist_add; auto; lia).
  exists n. split_and!; [done|done|lia|lia|]. intros x Hx Hkx. destruct (Hmin x Hx) as [_ Hle']; [intros ->; lia|].
  rewrite (dist_sub first k x) in Hle' by (auto using keys_seq; lia). lia.
Qed.

Lemma findLost_loop_spec fuel : ∀ k it lost,
  is_Some (m0 !! k) → dist first k ≤ dist first ack → (size (after (dist first k)) ≤ fuel)%nat →
  match it with Some k' => Some k' | None => beginKey m0 end = Some k → lostBefore (dist first k) lost →
  ∃ lost', findLost_loop fuel ack it lost (set_rl_unackedFrags (bumpBefore first (dist first k) m0) s0) =
    (Ok lost', set_rl_unackedFrags (bumpBefore first (dist first ack) m0) s0) ∧ lostBefore (dist first ack) lost'.
Proof using Hw Hack.
  induction fuel as [|fuel IH]; intros k it lost Hk Hle Hfuel Hit Hlost.
  { exfalso. assert (k ∈ after (dist first k)) as Hin by (apply elem_of_filter; split; [lia|by apply elem_of_dom]).
    assert (after (dist first k) ≡ ∅) as E by (apply size_empty_iff; lia). set_solver. }
  cbn [findLost_loop]. set (m := bumpBefore first (dist first k) m0).
  assert (∀ x, is_Some (m !! x) ↔ is_Some (m0 !! x)) as Hm by (intros; apply is_Some_bumpBefore).
  rewrite (bindE _ _ _ m (set_rl_unackedFrags m s0)) by done. unfold beginKey.
  rewrite (leastKey_ext _ m m0 Hm). fold (beginKey m0). rewrite Hit.
  rewrite (bindE _ _ _ k (set_rl_unackedFrags m s0)) by done. case_bool_decide as Ek.
  { subst k. exists lost. done. }
  destruct (next_in_window k Hk Ek Hle) as (n & En & Hn & [Hkn Hna] & Hmin). destruct Hk as [f Hf].
  assert (m !! k = Some f) as Hmk.
  { unfold m. rewrite lookup_bumpBefore, Hf. simpl. rewrite bool_decide_false by lia. done. }
  assert (alter bump k m = bumpBefore first (dist first n) m0) as Em.
  { apply map_eq. intros x. destruct (decide (x = k)) as [->|Hx].
    - rewrite lookup_alter_eq, Hmk, lookup_bumpBefore, Hf. simpl. by rewrite bool_decide_true.
    - rewrite lookup_alter_ne by done. unfold m. rewrite !lookup_bumpBefore. destruct (m0 !! x) as [fx|] eqn:Ex; [|done]. simpl.
      f_equal. assert (is_Some (m0 !! x)) as Hsx by eauto.
      assert (dist first x ≠ dist first k) as Hdx.
      { intros E. apply Hx. apply (dist_inj first); auto using first_seq, keys_seq. }
      destruct (decide (dist first x < dist first k)) as [Hlt|Hge].
      + rewrite !bool_decide_true by lia. done.
      + specialize (Hmin x Hsx ltac:(lia)). rewrite !bool_decide_false by lia. done. }
  assert (∃ s1, s1 = set_rl_unackedFrags (alter bump k m) s0) as [s1 Es1] by eauto.
  rewrite (bindE _ _ _ tt s1) by (subst s1; done).
  rewrite (bindE _ _ _ (bump f) s1).
  2: { subst s1. unfold fragAt. rewrite (bindE _ _ _ (Some (bump f)) (set_rl_unackedFrags (alter bump k m) s0)); [done|].
       unfold getE. cbn [rl_unackedFrags set_rl_unackedFrags]. by rewrite lookup_alter_eq, Hmk. }
  rewrite (bindE _ _ _ threshold s1) by (subst s1; done). rewrite Es1, Em. clear s1 Es1.
  apply IH; [done|done| | |].
  - assert (size (after (dist first n)) < size (after (dist first k)))%nat; [|lia]. apply subset_size.
    split; [intros x; unfold after; rewrite !elem_of_filter; intros [? ?]; split; [lia|done]|]. intros Hsub.
    assert (k ∈ after (dist first n)) as Hin by (apply Hsub, elem_of_filter; split; [lia|apply elem_of_dom; eauto]).
    apply elem_of_filter in Hin. lia.
  - unfold nextKey. rewrite (leastKey_ext _ m m0 Hm). exact En.
  - destruct Hlost as [Hel Hso]. cbn [uf_nGreaterSeqAcks bump set_uf_nGreaterSeqAcks].
    assert (∀ x, (reaches x ∧ dist first x < dist first n) ↔ (reaches x ∧ dist first x < dist first k) ∨ (x = k ∧ reaches k)) as Hiff.
    { intros x. split.
      - intros [Hr Hx]. destruct (decide (x = k)) as [->|Hxk]; [by right|]. left. split; [done|].
        destruct Hr as (fx & Hfx & _). destruct (decide (dist first x < dist first k)) as [?|Hge]; [done|].
        assert (dist first x ≠ dist first k).
        { intros E. apply Hxk. apply (dist_inj first); auto using first_seq, keys_seq. }
        specialize (Hmin x ltac:(eauto) ltac:(lia)). lia.
      - intros [[Hr Hx]|[-> Hr]]; (split; [done|lia]). }
    case_bool_decide as Ht; split.
    + intros x. rewrite elem_of_app, list_elem_of_singleton, Hel, Hiff. assert (reaches k) by (exists f; eauto). naive_solver.
    + apply StronglySorted_app_2; [|done|repeat constructor]. intros x y Hx ->%list_elem_of_singleton.
      apply Hel in Hx. apply Hx.
    + intros x. rewrite Hel, Hiff. assert (¬ reaches k) by (intros (f' & Hf' & Hr); assert (f' = f) as -> by congruence; done). naive_solver.
    + done.
Qed.
End lost.

Lemma size_after s first d : (size (after s first d) ≤ size (rl_unackedFrags s))%nat.
Proof. unfold after. rewrite <-(size_dom (D := gset Z)). apply subseteq_size. intros x. rewrite elem_of_filter. tauto. Qed.

Lemma findLost_spec s first ack :
  rl_firstUnackedFrag s = Some first → window (rl_unackedFrags s) (Some first) (rl_lastTxSeqNo s) →
  is_Some (rl_unackedFrags s !! ack) →
  ∃ lost, findLostLpPackets ack s =
    (Ok lost, set_rl_unackedFrags (bumpBefore first (dist first ack) (rl_unackedFrags s)) s) ∧
    lostBefore s first (dist first ack) lost.
Proof.
  intros Ef Hw Hack. pose proof (first_seq s first (rl_lastTxSeqNo s) Hw) as Sf. pose proof (wi_keys _ _ _ Hw) as Hk.
  unfold findLostLpPackets. rewrite (bindE _ _ s s s) by done. rewrite Ef.
  destruct (findLost_loop_spec s first ack (rl_lastTxSeqNo s) Hw Hack (S (size (rl_unackedFrags s))) first (Some first) [])
    as (lost & E & Hlost).
  - apply (wi_first _ _ _ Hw).
  - rewrite (proj2 (dist_0 first first Sf Sf)) by done. apply dist_range; auto.
  - pose proof (size_after s first (dist first first)). lia.
  - done.
  - rewrite (proj2 (dist_0 first first Sf Sf)) by done. split; [|constructor]. intros k. split; [by intros ?%not_elem_of_nil|].
    intros [(f & Hf & _) Hd]. pose proof (dist_range first k Sf ltac:(eauto)). lia.
  - rewrite (proj2 (dist_0 first first Sf Sf)), bumpBefore_0 in E; [|intros k Hkk; apply dist_range; auto|done].
    exists lost. split; [|done]. rewrite <-E. by destruct s.
Qed.
