(* ===== verification/RelInv.v ===== *)
(** * The invariant of link-layer reliability

    The window, the fragments stored for retransmission and the lists of the
    network packets fit together, and every operation of [LpReliability] keeps it
    so or throws [std::length_error] when the TxSequence numbers run out. *)

From S2P Require Import Prelude Tlv Encoding Packet LpPacket LpFragmenter LpReassembler GenericLinkService LinkSend.
From S2P Require Import RttEstimator LpReliability RelWindow.
Local Open Scope Z_scope.

(** ** Computations that return or run out of TxSequence numbers *)

(** The next number is that of the oldest fragment that is not acknowledged. *)
Class Exhausted (S : Type) := exhausted : S → Prop.
#[export] Instance LpReliability_exhausted : Exhausted LpReliability :=
  fun s => rl_unackedFrags s ≠ ∅ ∧ rl_firstUnackedFrag s = Some (rl_lastTxSeqNo s).
#[export] Instance LinkService_exhausted {C : NetCodec} : Exhausted (LinkService C) := fun _ => False.
Class ZoomExhausted {S T} `{Exhausted S, Exhausted T} (update : T → S → S) : Prop :=
  zoom_exhausted t s : exhausted t → exhausted (update t s).

Definition wpL {S A} `{Exhausted S} (m : ME S A) (Q : A → S → Prop) (s : S) : Prop :=
  match m s with (Ok a, s') => Q a s' | (Fault f, s') => f = Throw LengthError ∧ exhausted s' end.

Section wpL.
Context {S : Type} `{Exhausted S}.

Lemma wpL_ret {A} (a : A) (Q : A → S → Prop) s : Q a s → wpL (mret a) Q s.
Proof. done. Qed.
Lemma wpL_bind {A B} (m : ME S A) (k : A → ME S B) (Q : B → S → Prop) s :
  wpL m (fun a => wpL (k a) Q) s → wpL (m ≫= k) Q s.
Proof. unfold wpL, mbind, ME_bind. by destruct (m s) as [[a|f] s']. Qed.
Lemma wpL_mono {A} (m : ME S A) (Q Q' : A → S → Prop) s : wpL m Q s → (∀ a s', Q a s' → Q' a s') → wpL m Q' s.
Proof. unfold wpL. destruct (m s) as [[a|f] s']; auto. Qed.
Lemma wpL_get {A} (f : S → A) (Q : A → S → Prop) s : Q (f s) s → wpL (getE f) Q s.
Proof. done. Qed.
Lemma wpL_modify (f : S → S) (Q : unit → S → Prop) s : Q tt (f s) → wpL (modifyE f) Q s.
Proof. done. Qed.
Lemma wpL_lift {A} (m : outcome A) a (Q : A → S → Prop) s : m = Ok a → Q a s → wpL (liftE m) Q s.
Proof. by intros ->. Qed.
Lemma wpL_assert (b : bool) (Q : unit → S → Prop) s : b = true → Q tt s → wpL (assertE b) Q s.
Proof. by intros ->. Qed.
Lemma wpL_deref {A} (o : option A) a (Q : A → S → Prop) s : o = Some a → Q a s → wpL (derefE o) Q s.
Proof. by intros ->. Qed.
Lemma wpL_run {A} (m : ME S A) a s' (Q : A → S → Prop) s : m s = (Ok a, s') → Q a s' → wpL m Q s.
Proof. unfold wpL. by intros ->. Qed.
Lemma wpL_conj {A} (m : ME S A) (Q Q' : A → S → Prop) s : wpL m Q s → wpL m Q' s → wpL m (fun a s' => Q a s' ∧ Q' a s') s.
Proof. unfold wpL. by destruct (m s) as [[a|f] s']. Qed.
Lemma wpL_elim {A} (m : ME S A) (Q : A → S → Prop) s :
  wpL m Q s → (∃ a s', m s = (Ok a, s') ∧ Q a s') ∨ (∃ s', m s = (Fault (Throw LengthError), s') ∧ exhausted s').
Proof. unfold wpL. destruct (m s) as [[a|f] s']; [eauto 10|intros [-> ?]; eauto]. Qed.

Lemma wpL_ok {A} (m : ME S A) a (Q : A → S → Prop) s : wpL m Q s → (m s).1 = Ok a → Q a (m s).2.
Proof. unfold wpL. destruct (m s) as [r s']. cbn. by intros Hq ->. Qed.

(** A loop over a list keeps its invariant. *)
Lemma wpL_forE {A} (I : S → Prop) (l : list A) (k : A → ME S unit) s :
  I s → (∀ x s, x ∈ l → I s → wpL (k x) (fun _ => I) s) → wpL (forE_ l k) (fun _ => I) s.
Proof.
  revert s. induction l as [|x l IH]; intros s Hs Hk; cbn [forE_]; [done|].
  apply wpL_bind. eapply wpL_mono; [by apply Hk; [left|]|]. intros [] s' Hs'.
  apply IH; [done|]. intros y s2 Hy. apply Hk. by right.
Qed.
End wpL.
Lemma wpL_zoom {S T A} `{Exhausted S, Exhausted T} (view : S → T) (update : T → S → S) `{!ZoomExhausted update}
    (m : ME T A) (Q : A → S → Prop) s :
  wpL m (fun a t => Q a (update t s)) (view s) → wpL (zoomE view update m) Q s.
Proof. unfold wpL, zoomE. destruct (m (view s)) as [[a|f] t]; [done|]. intros [-> He]. split; [done|]. by apply zoom_exhausted. Qed.

Lemma alter_present `{Countable K} {A} (k : K) (g : A → A) a (m : gmap K A) :
  m !! k = Some a → alter g k m = <[k := g a]> m.
Proof. intros E. rewrite <-(insert_id m k a E) at 1. apply alter_insert_eq. Qed.

(** ** Stored fragments *)

Definition txSequenceBlock (k : Z) : Block := Build_Block lp_TxSequence (be_bytes 8 k).
(** A fragment that has been given its Sequence. *)
Record sequencedFrag (p : Packet) : Prop := {
  sq_ok : Packet_ok p;
  sq_wire : p_wire p = None;
  sq_sequence : ∃ seq, fieldsAt lp_Sequence (p_elements p) = [sequenceBlock seq]
}.
(** The fragment stored under a TxSequence number. *)
Definition storedFrag (k : Z) (p : Packet) : Prop :=
  sequencedFrag p ∧ fieldsAt lp_TxSequence (p_elements p) = [txSequenceBlock k].

Lemma sequencedFrag_has p : sequencedFrag p → Packet_has SequenceField p = true ∧ ∃ seq, Packet_get SequenceField p = Ok seq.
Proof.
  intros [_ _ [seq Hs]]. destruct (Packet_has_get SequenceField p (sequenceBlock seq) [] Hs) as [-> ->]. split; [done|].
  unfold F_decode. rewrite bool_decide_false by (by intros []). cbn [F_decodeHelper SequenceField field_uint64]. unfold decode_uint64.
  cbn [sequenceBlock blk_value]. rewrite length_be_bytes, bool_decide_false by lia. eauto.
Qed.
Lemma sequencedFrag_lp p : sequencedFrag p → Packet_wireEncode p = Ok (Packet_encodeWire p) ∧ w_type (Packet_encodeWire p) = lp_LpPacket.
Proof.
  intros [_ Hw [seq Hs]]. split; [|unfold Packet_encodeWire; by rewrite Hw].
  apply Packet_wireEncode_lp. by apply (not_bare lp_Sequence _ (sequenceBlock seq) []).
Qed.
Lemma set_txSequence k p :
  sequencedFrag p → ∃ p', Packet_set TxSequenceField k p = Ok p' ∧ storedFrag k p' ∧
    ∀ type, type ≠ lp_TxSequence → fieldsAt type (p_elements p') = fieldsAt type (p_elements p).
Proof.
  intros [Hok Hw [seq Hs]]. destruct (Packet_set_spec TxSequenceField k (be_bytes 8 k) p) as (p' & Hset & Hok' & Hw' & _ & Hf);
    [done|done|by rewrite length_be_bytes|]. exists p'. split; [done|]. split; [split; [split; [done|done|]|]|].
  - exists seq. rewrite Hf. by rewrite bool_decide_false by done.
  - rewrite Hf. by rewrite bool_decide_true by done.
  - intros type Ht. rewrite Hf. by rewrite bool_decide_false by done.
Qed.

(** ** The invariant *)

(** What [onLpPacketLost] reads of an Interest that is given up. *)
Definition droppable {C : NetCodec} (p : Packet) : Prop :=
  ∃ frag w i, Packet_has FragmentField p = true ∧ Packet_get FragmentField p = Ok frag ∧
    Wire_ofSpan frag = Ok w ∧ Interest_decode w = Ok i.

Record options_ok (o : ReliabilityOptions) : Prop := {
  oo_enabled : ro_isEnabled o = true;
  oo_maxRetx : 0 ≤ ro_maxRetx o < 2 ^ 64
}.

(** ** Network packets in flight *)

Definition liveNets (m : gmap Z UnackedFrag) : gset NetPktRef := list_to_set (omap uf_netPkt (map_to_list m).*2).
Lemma elem_of_liveNets m r : r ∈ liveNets m ↔ ∃ k f, m !! k = Some f ∧ uf_netPkt f = Some r.
Proof.
  unfold liveNets. rewrite elem_of_list_to_set, list_elem_of_omap. split.
  - intros (f & ([k f'] & -> & Hk)%list_elem_of_fmap & Hr). exists k, f'. by apply elem_of_map_to_list in Hk.
  - intros (k & f & Hk & Hr). exists f. split; [|done]. apply list_elem_of_fmap. exists (k, f). by apply elem_of_map_to_list in Hk.
Qed.
Lemma liveNets_ext m m' : (∀ k, uf_netPkt <$> m !! k = uf_netPkt <$> m' !! k) → liveNets m = liveNets m'.
Proof.
  assert (∀ m m' r, (∀ k, uf_netPkt <$> m !! k = uf_netPkt <$> m' !! k) → r ∈ liveNets m → r ∈ liveNets m') as Hone.
  { intros m1 m2 r H (k & f & Hk & Hr)%elem_of_liveNets. specialize (H k). rewrite Hk in H. symmetry in H.
    apply fmap_Some in H as (f' & Hk' & Hr'). apply elem_of_liveNets. exists k, f'. split; [done|congruence]. }
  intros H. apply set_eq. intros r. split; apply Hone; auto.
Qed.
Lemma liveNets_insert m k f r : m !! k = None → uf_netPkt f = Some r → liveNets (<[k := f]> m) = liveNets m ∪ {[r]}.
Proof.
  intros Hk Hr. apply set_eq. intros x. rewrite elem_of_union, elem_of_singleton, !elem_of_liveNets. split.
  - intros (k' & f' & [[<- <-]|[? Hk']]%lookup_insert_Some & Hx); [right; congruence|left; eauto].
  - intros [(k' & f' & Hk' & Hx)| ->]; [exists k', f'; rewrite lookup_insert_ne by congruence; done|exists k, f; by rewrite lookup_insert_eq].
Qed.
(** The number of network packets in flight, and of all there have been. *)
Definition nLive (s : LpReliability) : nat := size (liveNets (rl_unackedFrags s)).
Definition nNets (s : LpReliability) : nat := size (rl_netPkts s).

Section invariant.
Context {C : NetCodec}.
Implicit Types (s : LpReliability) (m : gmap Z UnackedFrag).

(** The list of a network packet: its fragments, each once. *)
Record netPkt_ok m (r : NetPktRef) (n : NetPkt) : Prop := {
  nk_nodup : NoDup (np_unackedFrags n);
  nk_listed : ∀ k, k ∈ np_unackedFrags n → ∃ f, m !! k = Some f ∧ uf_netPkt f = Some r;
  nk_interest : np_isInterest n = true → droppable (np_pkt n)
}.
Record frag_ok (t maxRetx : Z) (k : Z) (f : UnackedFrag) : Prop := {
  fk_stored : storedFrag k (uf_pkt f);
  fk_sendTime : uf_sendTime f ≤ t;
  fk_retxCount : 0 ≤ uf_retxCount f ≤ maxRetx
}.
(** At time [t]; the timers of the fragments in [X] may be stopped. *)
Record rel_inv (t : Z) (X : gset Z) s : Prop := {
  ri_options : options_ok (rl_options s);
  ri_window : window (rl_unackedFrags s) (rl_firstUnackedFrag s) (rl_lastTxSeqNo s);
  ri_rtt : rtt_ok (rl_rttEst s);
  ri_frag k f : rl_unackedFrags s !! k = Some f → frag_ok t (ro_maxRetx (rl_options s)) k f;
  ri_timer k f : rl_unackedFrags s !! k = Some f → k ∉ X → is_Some (uf_rtoTimer f);
  ri_net k f : rl_unackedFrags s !! k = Some f →
    ∃ r n, uf_netPkt f = Some r ∧ rl_netPkts s !! r = Some n ∧ k ∈ np_unackedFrags n ∧
      netPkt_ok (rl_unackedFrags s) r n
}.

Lemma rel_inv_later t t' X s : t ≤ t' → rel_inv t X s → rel_inv t' X s.
Proof.
  intros Ht [H1 H2 H3 H4 H5 H6]. split; [done..| |done|done]. intros k f Hf. destruct (H4 k f Hf) as [? ? ?].
  split; [done|lia|done].
Qed.
Lemma rel_inv_first t X s k : rel_inv t X s → is_Some (rl_unackedFrags s !! k) → ∃ first, rl_firstUnackedFrag s = Some first.
Proof.
  intros Hi Hk. pose proof (wi_first _ _ _ (ri_window _ _ _ Hi)) as Hf. destruct (rl_firstUnackedFrag s); [eauto|].
  rewrite Hf, lookup_empty in Hk. by destruct Hk.
Qed.

(** Changes to fragments that keep what the invariant speaks of. *)
Lemma rel_inv_frags t X X' s m' :
  rel_inv t X s →
  (∀ k f', m' !! k = Some f' → ∃ f, rl_unackedFrags s !! k = Some f ∧ uf_pkt f' = uf_pkt f ∧
     uf_sendTime f' = uf_sendTime f ∧ uf_retxCount f' = uf_retxCount f ∧ uf_netPkt f' = uf_netPkt f ∧
     (k ∉ X' → is_Some (uf_rtoTimer f'))) →
  (∀ k, is_Some (rl_unackedFrags s !! k) → is_Some (m' !! k)) →
  rel_inv t X' (set_rl_unackedFrags m' s).
Proof.
  intros [H1 H2 H3 H4 H5 H6] Hm Hm'. split; cbn; [done| |done|..].
  - eapply window_same; [|done]. intros x. split; [|auto]. intros [f' Hf']. destruct (Hm x f' Hf') as (f & Hf & _). eauto.
  - intros k f' Hf'. destruct (Hm k f' Hf') as (f & Hf & E1 & E2 & E3 & _). destruct (H4 k f Hf). split; by rewrite ?E1, ?E2, ?E3.
  - intros k f' Hf' Hne. destruct (Hm k f' Hf') as (f & Hf & _ & _ & _ & _ & Ht). auto.
  - intros k f' Hf'. destruct (Hm k f' Hf') as (f & Hf & _ & _ & _ & E & _). destruct (H6 k f Hf) as (r & n & En & Hn & Hin & [N1 N2 N3]).
    exists r, n. split_and!; [congruence|done|done|]. split; [done| |done]. intros k2 Hk2. destruct (N2 k2 Hk2) as (f2 & Hf2 & Er).
    destruct (Hm' k2 ltac:(eauto)) as [f2' Hf2']. destruct (Hm k2 f2' Hf2') as (f3 & Hf3 & _ & _ & _ & E3 & _). exists f2'. split; [done|congruence].
Qed.
Lemma rel_inv_alter t X X' s k0 g :
  rel_inv t X s →
  (∀ f, uf_pkt (g f) = uf_pkt f ∧ uf_sendTime (g f) = uf_sendTime f ∧ uf_retxCount (g f) = uf_retxCount f ∧ uf_netPkt (g f) = uf_netPkt f) →
  (∀ f, rl_unackedFrags s !! k0 = Some f → k0 ∉ X' → is_Some (uf_rtoTimer (g f))) →
  X ⊆ X' ∪ {[k0]} →
  rel_inv t X' (set_rl_unackedFrags (alter g k0 (rl_unackedFrags s)) s).
Proof.
  intros Hi Hg Ht HX. eapply rel_inv_frags; [done|..].
  - intros k f'. destruct (decide (k = k0)) as [->|Hk].
    + rewrite lookup_alter_eq. intros (f & Hf & ->)%fmap_Some_1. exists f. destruct (Hg f) as (?&?&?&?). split_and!; auto.
    + rewrite lookup_alter_ne by done. intros Hf. exists f'. split_and!; [done..|]. intros HX'. eapply (ri_timer _ _ _ Hi); [done|]. set_solver.
  - intros k. destruct (decide (k = k0)) as [->|Hk]; [by rewrite lookup_alter_eq, fmap_is_Some|by rewrite lookup_alter_ne].
Qed.
Lemma rel_inv_timed t X s : rel_inv t X s → (∀ k, k ∈ X → rl_unackedFrags s !! k = None) → rel_inv t ∅ s.
Proof.
  intros [H1 H2 H3 H4 H5 H6] HX. split; [done..| |done]. intros k f Hf _. apply (H5 k f Hf). intros Hk.
  specialize (HX k Hk). congruence.
Qed.
(** Parts of the state the invariant does not mention. *)
Lemma rel_inv_ackQueue t X s q : rel_inv t X s → rel_inv t X (set_rl_ackQueue q s).
Proof. by intros []. Qed.
Lemma rel_inv_recent t X s a b : rel_inv t X s → rel_inv t X (set_rl_recent a b s).
Proof. by intros []. Qed.
Lemma rel_inv_idleAckTimer t X s a : rel_inv t X s → rel_inv t X (set_rl_idleAckTimer a s).
Proof. by intros []. Qed.
Lemma rel_inv_rttEst t X s r : rtt_ok r → rel_inv t X s → rel_inv t X (set_rl_rttEst r s).
Proof. by intros ? []. Qed.

(** ** Removing fragments *)

Definition removeFrag (k : Z) s : LpReliability :=
  let m' := delete k (rl_unackedFrags s) in
  set_rl_firstUnackedFrag (firstAfter k m' (rl_firstUnackedFrag s)) (set_rl_unackedFrags m' s).
Lemma deleteUnackedFrag_spec k s :
  window (rl_unackedFrags s) (rl_firstUnackedFrag s) (rl_lastTxSeqNo s) → is_Some (rl_unackedFrags s !! k) →
  deleteUnackedFrag k s = (Ok tt, removeFrag k s) ∧
  window (rl_unackedFrags (removeFrag k s)) (rl_firstUnackedFrag (removeFrag k s)) (rl_lastTxSeqNo s).
Proof.
  intros Hw Hk. destruct (rl_firstUnackedFrag s) as [f|] eqn:Ef.
  2: { pose proof (wi_first _ _ _ Hw) as E. cbn in E. rewrite E, lookup_empty in Hk. by destruct Hk. }
  split.
  - unfold deleteUnackedFrag. rewrite (bindE _ _ s (Some f) s) by (unfold getE; by rewrite Ef).
    rewrite (bindE _ _ s f s) by done. unfold modifyE. f_equal. unfold removeFrag, firstAfter, cyclicNext. rewrite Ef.
    rewrite (bool_decide_ext (Some f = Some k) (f = k)) by naive_solver.
    destruct (bool_decide (delete k (rl_unackedFrags s) ≠ ∅) && bool_decide (f = k)); [done|]. case_bool_decide; [done|]. rewrite <-Ef. by destruct s.
  - cbn [removeFrag rl_unackedFrags rl_firstUnackedFrag set_rl_firstUnackedFrag set_rl_unackedFrags]. rewrite Ef. by apply window_delete.
Qed.

(** [s'] is [s] without the fragments of [K]. *)
Record lacking (K : list Z) s s' : Prop := {
  wo_lookup k : rl_unackedFrags s' !! k = if bool_decide (k ∈ K) then None else rl_unackedFrags s !! k;
  wo_window : window (rl_unackedFrags s') (rl_firstUnackedFrag s') (rl_lastTxSeqNo s');
  wo_rest : ∃ m' first', s' = set_rl_firstUnackedFrag first' (set_rl_unackedFrags m' s)
}.
Lemma without_nil s : window (rl_unackedFrags s) (rl_firstUnackedFrag s) (rl_lastTxSeqNo s) → lacking [] s s.
Proof. intros Hw. split; [done|done|]. exists (rl_unackedFrags s), (rl_firstUnackedFrag s). by destruct s. Qed.
Lemma without_trans K K' s1 s2 s3 : lacking K s1 s2 → lacking K' s2 s3 → lacking (K ++ K') s1 s3.
Proof.
  intros [A1 A2 (m & f & ->)] [B1 B2 (m' & f' & ->)]. split; [|done|by exists m', f']. intros k. rewrite B1, A1.
  rewrite (bool_decide_ext (k ∈ K ++ K') (k ∈ K ∨ k ∈ K')) by apply elem_of_app. repeat case_bool_decide; naive_solver.
Qed.
Lemma deleteUnackedFrag_without k s :
  window (rl_unackedFrags s) (rl_firstUnackedFrag s) (rl_lastTxSeqNo s) → is_Some (rl_unackedFrags s !! k) →
  wpL (deleteUnackedFrag k) (fun _ s' => lacking [k] s s') s.
Proof.
  intros Hw Hk. destruct (deleteUnackedFrag_spec k s Hw Hk) as [E Hw']. apply (wpL_run _ tt (removeFrag k s)); [done|].
  split; [|done|by eexists _, _]. intros x. cbn. rewrite lookup_delete.
  rewrite (bool_decide_ext (x ∈ [k]) (x = k)) by apply list_elem_of_singleton. case_bool_decide; case_decide; naive_solver.
Qed.
(** Whole network packets can go. *)
Lemma rel_inv_without t X K s s' :
  rel_inv t X s → lacking K s s' →
  (∀ k k' f f' r, k ∈ K → rl_unackedFrags s !! k = Some f → rl_unackedFrags s !! k' = Some f' →
     uf_netPkt f = Some r → uf_netPkt f' = Some r → k' ∈ K) →
  rel_inv t X s'.
Proof.
  intros [H1 H2 H3 H4 H5 H6] [W1 W2 (m & first & ->)] HK. cbn in *.
  assert (∀ k f, m !! k = Some f → rl_unackedFrags s !! k = Some f ∧ k ∉ K) as Hm.
  { intros k f Hf. rewrite W1 in Hf. by case_bool_decide. }
  split; cbn; [done|done|done|intros k f []%Hm; auto|intros k f [? _]%Hm; eauto|].
  intros k f [Hf Hk]%Hm. destruct (H6 k f Hf) as (r & n & Er & Hn & Hin & [N1 N2 N3]). exists r, n. split_and!; [done..|].
  split; [done| |done]. intros k2 Hk2. destruct (N2 k2 Hk2) as (f2 & Hf2 & Er2). exists f2. split; [|done].
  rewrite W1, bool_decide_false; [done|]. intros Hin2. apply Hk. by apply (HK k2 k f2 f r).
Qed.

(** ** Taking a TxSequence number *)

Lemma takeTxSequence_spec frag s :
  sequencedFrag frag → let k := u64 (rl_lastTxSeqNo s + 1) in
  wpL (takeTxSequence frag) (fun '(k', frag') s' =>
    k' = k ∧ s' = set_rl_lastTxSeqNo k s ∧ storedFrag k frag' ∧
    ∀ type, type ≠ lp_TxSequence → fieldsAt type (p_elements frag') = fieldsAt type (p_elements frag)) s.
Proof.
  intros Hfrag k. unfold takeTxSequence. apply wpL_bind, wpL_get. fold k. apply wpL_bind, wpL_modify.
  destruct (set_txSequence k frag Hfrag) as (frag' & E & Hst & Hf). apply wpL_bind, (wpL_lift _ frag'); [done|]. by apply wpL_ret.
Qed.
Lemma checkTxSequence_spec s :
  match rl_firstUnackedFrag s with Some f => is_Some (rl_unackedFrags s !! f) | None => rl_unackedFrags s = ∅ end →
  wpL (checkTxSequence (rl_lastTxSeqNo s)) (fun _ s' => s' = s ∧ rl_firstUnackedFrag s ≠ Some (rl_lastTxSeqNo s)) s.
Proof.
  intros H1. unfold checkTxSequence. apply wpL_bind, wpL_get. unfold id. case_bool_decide as Hne.
  - destruct (rl_firstUnackedFrag s) as [f|] eqn:Ef; [|done]. apply wpL_bind, (wpL_deref _ f); [done|].
    case_bool_decide as Ek; [split; [done|]; split; cbn; [done|congruence]|]. split; [done|congruence].
  - apply wpL_ret. split; [done|]. destruct (rl_firstUnackedFrag s) as [f|]; [|done].
    rewrite Hne, lookup_empty in H1. by destruct H1.
Qed.
Lemma assignTxSequence_spec frag s :
  window (rl_unackedFrags s) (rl_firstUnackedFrag s) (rl_lastTxSeqNo s) → sequencedFrag frag →
  let k := u64 (rl_lastTxSeqNo s + 1) in
  wpL (assignTxSequence frag) (fun '(k', frag') s' =>
    k' = k ∧ s' = set_rl_lastTxSeqNo k s ∧ rl_firstUnackedFrag s ≠ Some k ∧ storedFrag k frag' ∧
    ∀ type, type ≠ lp_TxSequence → fieldsAt type (p_elements frag') = fieldsAt type (p_elements frag)) s.
Proof.
  intros Hw Hfrag k. unfold assignTxSequence. apply wpL_bind. eapply wpL_mono; [by apply takeTxSequence_spec|].
  intros [k' frag'] s1 (-> & -> & Hst & Hf). apply wpL_bind.
  eapply wpL_mono; [apply (checkTxSequence_spec (set_rl_lastTxSeqNo k s)), (wi_first _ _ _ Hw)|]. intros [] ? [-> Hne]. by apply wpL_ret.
Qed.

(** A fragment at the end of the window. *)
Definition addFrag (f : UnackedFrag) s : LpReliability :=
  let k := u64 (rl_lastTxSeqNo s + 1) in
  set_rl_firstUnackedFrag (match rl_firstUnackedFrag s with Some first => Some first | None => Some k end)
    (set_rl_unackedFrags (<[k := f]> (rl_unackedFrags s)) (set_rl_lastTxSeqNo k s)).

(** It belongs to a network packet that lists it. *)
Lemma rel_inv_addFrag t X X' s f r n n' :
  rel_inv t X s → rl_firstUnackedFrag s ≠ Some (u64 (rl_lastTxSeqNo s + 1)) →
  frag_ok t (ro_maxRetx (rl_options s)) (u64 (rl_lastTxSeqNo s + 1)) f → uf_netPkt f = Some r →
  (u64 (rl_lastTxSeqNo s + 1) ∉ X' → is_Some (uf_rtoTimer f)) → X ⊆ X' →
  rl_netPkts s !! r = Some n → netPkt_ok (rl_unackedFrags s) r n →
  np_unackedFrags n' ≡ₚ np_unackedFrags n ++ [u64 (rl_lastTxSeqNo s + 1)] → np_isInterest n' = np_isInterest n → np_pkt n' = np_pkt n →
  rel_inv t X' (set_rl_netPkts (<[r := n']> (rl_netPkts s)) (addFrag f s)) ∧
  netPkt_ok (<[u64 (rl_lastTxSeqNo s + 1) := f]> (rl_unackedFrags s)) r n'.
Proof.
  set (k := u64 (rl_lastTxSeqNo s + 1)). intros Hi Hfirst Hf Er Htimer HX Hn [N1 N2 N3] El Ei Ep.
  pose proof (ri_window _ _ _ Hi) as Hw. pose proof (window_fresh _ _ _ Hw Hfirst) as Hk. fold k in Hk.
  assert (∀ x fx, rl_unackedFrags s !! x = Some fx → <[k := f]> (rl_unackedFrags s) !! x = Some fx) as Hkeep.
  { intros x fx Hx. rewrite lookup_insert_ne by congruence. done. }
  assert (netPkt_ok (<[k := f]> (rl_unackedFrags s)) r n') as Hn'.
  { split; [|intros x|by rewrite Ei, Ep].
    - rewrite El. apply NoDup_app. split_and!; [done| |apply NoDup_singleton]. intros x Hx ->%list_elem_of_singleton.
      destruct (N2 k Hx) as (? & ? & _). congruence.
    - rewrite El, elem_of_app, list_elem_of_singleton. intros [Hx| ->]; [|exists f; by rewrite lookup_insert_eq].
      destruct (N2 x Hx) as (fx & Hfx & ?). eauto. }
  split; [|done]. destruct Hi as [H1 H2 H3 H4 H5 H6]. split; cbn; fold k; [done| |done|..].
  - by apply window_insert.
  - intros x fx [[<- <-]|[? ?]]%lookup_insert_Some; auto.
  - intros x fx [[<- <-]|[? Hx]]%lookup_insert_Some Hne; [auto|].
    apply (H5 x fx Hx). set_solver.
  - intros x fx [[<- <-]|[Hxk Hx]]%lookup_insert_Some.
    + exists r, n'. rewrite lookup_insert_eq, El. split_and!; [done|done|set_solver|done].
    + destruct (H6 x fx Hx) as (r2 & n2 & Er2 & Hn2 & Hin & Hnk). destruct (decide (r2 = r)) as [->|Hr].
      * exists r, n'. rewrite lookup_insert_eq, El. assert (n2 = n) as -> by congruence. split_and!; [done|done|set_solver|done].
      * exists r2, n2. rewrite lookup_insert_ne by done. split_and!; [done..|]. destruct Hnk as [? Hl ?]. split; [done| |done].
        intros y Hy. destruct (Hl y Hy) as (fy & Hfy & ?). eauto.
Qed.

(** ** Outgoing fragments *)

Lemma beginKey_single {A} k (a : A) : beginKey {[k := a]} = Some k.
Proof.
  unfold beginKey. pose proof (leastKey_spec (fun _ => true) ({[k := a]} : gmap Z A)) as H. destruct (leastKey _ _) as [x|].
  - destruct H as ([? Hx%lookup_singleton_Some] & _). by destruct Hx as [-> _].
  - specialize (H k). rewrite lookup_singleton_eq in H. by specialize (H ltac:(eauto)).
Qed.
(** The fragments as they go out. *)
Definition numbered (frag frag' : Packet) : Prop :=
  (∃ k, storedFrag k frag') ∧
  ∀ type, type ≠ lp_TxSequence → fieldsAt type (p_elements frag') = fieldsAt type (p_elements frag).

(** One round of the loop in [handleOutgoing]. *)
Lemma addFrag_loop t r k f s :
  window (rl_unackedFrags s) (rl_firstUnackedFrag s) (rl_lastTxSeqNo s) →
  rl_firstUnackedFrag s ≠ Some (u64 (rl_lastTxSeqNo s + 1)) → k = u64 (rl_lastTxSeqNo s + 1) →
  let s1 := set_rl_unackedFrags (tryEmplace k f (rl_unackedFrags s)) (set_rl_lastTxSeqNo k s) in
  let g := fun f => set_uf_netPkt (Some r) (set_uf_rtoTimer (Some (t + getEstimatedRto (rl_rttEst s))) (set_uf_sendTime t f)) in
  let s2 := set_rl_unackedFrags (alter g k (rl_unackedFrags s1)) s1 in
  (if bool_decide (size (rl_unackedFrags s2) = 1%nat) then set_rl_firstUnackedFrag (beginKey (rl_unackedFrags s2)) s2 else s2) =
  addFrag (g f) s.
Proof.
  intros Hw Hfirst -> s1 g s2. set (k := u64 (rl_lastTxSeqNo s + 1)) in *.
  pose proof (window_fresh _ _ _ Hw Hfirst) as Hk. fold k in Hk.
  assert (rl_unackedFrags s2 = <[k := g f]> (rl_unackedFrags s)) as Em.
  { unfold s2, s1. cbn. unfold tryEmplace. rewrite Hk. apply alter_insert_eq. }
  rewrite Em. rewrite map_size_insert_None by done. pose proof (wi_first _ _ _ Hw) as H1. unfold addFrag. fold k. rewrite <-Em.
  case_bool_decide as Es.
  - assert (rl_unackedFrags s = ∅) as E0 by (apply map_size_empty_iff; lia). destruct (rl_firstUnackedFrag s) as [first|].
    { rewrite E0, lookup_empty in H1. by destruct H1. }
    rewrite Em, E0, insert_empty, beginKey_single. unfold s2, s1. cbn. f_equal; try done. unfold tryEmplace. rewrite Hk, alter_insert_eq, E0. by rewrite insert_empty.
  - destruct (rl_firstUnackedFrag s) as [first|] eqn:E; [|rewrite H1, map_size_empty in Es; lia].
    unfold s2, s1. cbn. by destruct s; cbn in *; subst.
Qed.

Lemma handleFrags_spec t r frags s n :
  rel_inv t ∅ s → Forall sequencedFrag frags → rl_netPkts s !! r = Some n → netPkt_ok (rl_unackedFrags s) r n →
  wpL (handleFrags t r frags) (fun frags' s' => rel_inv t ∅ s' ∧ Forall2 numbered frags frags' ∧ nNets s' = nNets s ∧
    (liveNets (rl_unackedFrags s') = match frags with [] => liveNets (rl_unackedFrags s) | _ => liveNets (rl_unackedFrags s) ∪ {[r]} end)) s.
Proof.
  intros Hi Hall. revert s n Hi. induction Hall as [|frag frags Hfrag _ IH]; intros s n Hi Hn Hnk; cbn [handleFrags]; [done|].
  destruct (sequencedFrag_has frag Hfrag) as [Hhas _]. apply wpL_bind, wpL_assert; [done|].
  pose proof (ri_window _ _ _ Hi) as Hw.
  apply wpL_bind. eapply wpL_mono; [by apply assignTxSequence_spec|]. intros [k frag'] s1 (-> & -> & Hfirst & Hst & Hf).
  apply wpL_bind, wpL_modify, wpL_bind, wpL_get, wpL_bind, wpL_modify, wpL_bind, wpL_modify.
  pose proof (addFrag_loop t r _ (UnackedFrag_new t frag') s Hw Hfirst eq_refl) as E. cbv zeta in E. cbn in E |- *. rewrite E. clear E.
  apply wpL_bind, wpL_modify.
  destruct (rel_inv_addFrag t ∅ ∅ s (set_uf_netPkt (Some r) (set_uf_rtoTimer (Some (t + getEstimatedRto (rl_rttEst s)))
    (set_uf_sendTime t (UnackedFrag_new t frag')))) r n (set_np_unackedFrags (np_unackedFrags n ++ [u64 (rl_lastTxSeqNo s + 1)]) n))
    as [Hi' Hnk']; try done.
  { split; cbn; [done|lia|]. destruct (ri_options _ _ _ Hi) as [_ ?]. lia. }
  apply wpL_bind. eapply wpL_mono.
  - cbn [rl_netPkts addFrag set_rl_firstUnackedFrag set_rl_unackedFrags set_rl_lastTxSeqNo]. rewrite (alter_present r _ n) by exact Hn.
    eapply IH; [exact Hi'| |exact Hnk']. cbn. by rewrite lookup_insert_eq.
  - intros frags' s' (Hi2 & Hall2 & En & El). split_and!; [done|constructor; [|done]; split; [by eexists|done]| |].
    + rewrite En. unfold nNets. cbn. rewrite map_size_insert_Some by eauto. done.
    + rewrite El. cbn. rewrite (liveNets_insert _ _ _ r); [|by apply (window_fresh _ _ _ Hw)|done].
      destruct frags; [done|]. set_solver.
Qed.

Lemma handleOutgoing_spec t frags pkt isInterest s :
  rel_inv t ∅ s → Forall sequencedFrag frags → (isInterest = true → droppable pkt) → frags ≠ [] →
  wpL (handleOutgoing t frags pkt isInterest) (fun frags' s' => rel_inv t ∅ s' ∧ Forall2 numbered frags frags' ∧
    nNets s' = S (nNets s) ∧ nLive s' = S (nLive s)) s.
Proof.
  intros Hi Hall Hd Hne. unfold handleOutgoing. apply wpL_bind, wpL_get, wpL_bind, wpL_assert; [apply (ri_options _ _ _ Hi)|].
  apply wpL_bind, wpL_get. set (r := fresh (dom (rl_netPkts s))). apply wpL_bind, wpL_modify.
  assert (rl_netPkts s !! r = None) as Hr by (apply not_elem_of_dom, is_fresh).
  eapply wpL_mono; [apply (handleFrags_spec t r frags _ (mkNetPkt [] pkt isInterest false)); [|done|cbn; by rewrite lookup_insert_eq|]|].
  - destruct Hi as [H1 H2 H3 H4 H5 H6]. split; cbn; [done..|]. intros k f Hf. destruct (H6 k f Hf) as (r' & n & ? & ? & ?).
    exists r', n. by rewrite lookup_insert_ne by congruence.
  - split; cbn; [constructor|by intros k ?%not_elem_of_nil|done].
  - intros frags' s' (Hi' & Hnum & En & El). split_and!; [done|done| |].
    + rewrite En. unfold nNets. cbn. by rewrite map_size_insert_None.
    + unfold nLive. rewrite El. destruct frags; [done|]. cbn. rewrite size_union, size_singleton; [lia|].
      intros x Hx ->%elem_of_singleton. apply elem_of_liveNets in Hx as (k & f & Hf & Er).
      destruct (ri_net _ _ _ Hi k f Hf) as (r' & n & Er' & Hn & _). congruence.
Qed.

(** ** Acknowledgements *)

Lemma updateFirst_split (k b : Z) l1 l2 :
  k ∉ l1 → updateFirst (fun x => bool_decide (x = k)) (fun _ => b) (l1 ++ k :: l2) = l1 ++ b :: l2.
Proof.
  induction l1 as [|x l1 IH]; cbn; intros Hk; [by rewrite bool_decide_true|].
  rewrite bool_decide_false by set_solver. f_equal. apply IH. set_solver.
Qed.
Lemma NoDup_split (k : Z) l : NoDup l → k ∈ l → ∃ l1 l2, l = l1 ++ k :: l2 ∧ k ∉ l1 ∧ k ∉ l2.
Proof.
  intros Hnd (l1 & l2 & ->)%list_elem_of_split. exists l1, l2. apply NoDup_app in Hnd as (_ & Hd & [Hk _]%NoDup_cons).
  split_and!; [done| |done]. intros Hin. apply (Hd k Hin). by left.
Qed.
Lemma replaceWithLast_perm k l : NoDup l → k ∈ l → l ≡ₚ k :: replaceWithLast k l.
Proof.
  intros Hnd Hk. destruct (NoDup_split k l Hnd Hk) as (l1 & l2 & -> & H1 & H2). unfold replaceWithLast.
  destruct l2 as [|b l3 _] using rev_ind.
  - rewrite last_snoc, updateFirst_split, length_app by done. cbn. rewrite Nat.add_sub, take_app_length.
    by rewrite Permutation_app_comm.
  - assert (l1 ++ k :: l3 ++ [b] = (l1 ++ k :: l3) ++ [b]) as -> by (by rewrite <-app_assoc).
    rewrite last_snoc, length_app. cbn [length]. rewrite Nat.add_sub, <-app_assoc. cbn [app]. rewrite updateFirst_split by done.
    assert (l1 ++ b :: l3 ++ [b] = (l1 ++ b :: l3) ++ [b]) as -> by (by rewrite <-app_assoc).
    rewrite take_app_le by (rewrite !length_app; cbn; lia). rewrite firstn_all2 by (rewrite !length_app; cbn; lia).
    rewrite <-Permutation_middle. apply perm_skip. by rewrite (Permutation_app_comm l3).
Qed.

(** A fragment leaves its network packet and the map. *)
Lemma rel_inv_unlist t X X' s s' k f r n rest :
  rel_inv t X s → rl_unackedFrags s !! k = Some f → uf_netPkt f = Some r → rl_netPkts s !! r = Some n →
  X ⊆ X' ∪ {[k]} → np_unackedFrags n ≡ₚ k :: rest →
  lacking [k] (set_rl_netPkts (alter (set_np_unackedFrags rest) r (rl_netPkts s)) s) s' → rel_inv t X' s'.
Proof.
  intros [H1 H2 H3 H4 H5 H6] Hf Er Hn HX Hp [W1 W2 (m & first & ->)]. cbn in *.
  assert (∀ x fx, m !! x = Some fx → rl_unackedFrags s !! x = Some fx ∧ x ≠ k) as Hm.
  { intros x fx Hx. rewrite W1 in Hx. case_bool_decide as Hxk; [done|]. split; [done|set_solver]. }
  assert (∀ x fx, rl_unackedFrags s !! x = Some fx → x ≠ k → m !! x = Some fx) as Hm'.
  { intros x fx Hx Hxk. rewrite W1, bool_decide_false; [done|set_solver]. }
  rewrite (alter_present r _ n) by done.
  split; cbn; [done|done|done|intros x fx []%Hm; auto| |].
  { intros x fx [Hx Hxk]%Hm HX'. apply (H5 x fx Hx). set_solver. }
  intros x fx [Hx Hxk]%Hm. destruct (H6 x fx Hx) as (r2 & n2 & Er2 & Hn2 & Hin & [N1 N2 N3]).
  destruct (decide (r2 = r)) as [->|Hr].
  - assert (n2 = n) as -> by congruence. exists r, (set_np_unackedFrags rest n). rewrite lookup_insert_eq. cbn.
    rewrite Hp in Hin, N1. apply NoDup_cons in N1 as [Hk N1]. apply elem_of_cons in Hin as [?|Hin]; [done|].
    split_and!; [done..|]. split; cbn; [done| |done]. intros y Hy. destruct (N2 y) as (fy & Hfy & ?); [rewrite Hp; by right|].
    exists fy. split; [|done]. apply Hm'; [done|]. congruence.
  - exists r2, n2. rewrite lookup_insert_ne by done. split_and!; [done..|]. split; [done| |done]. intros y Hy.
    destruct (N2 y Hy) as (fy & Hfy & Ey). exists fy. split; [|done]. apply Hm'; [done|]. intros ->. congruence.
Qed.

(** The packet is in flight as long as a fragment is left. *)
Lemma liveNets_unlist t X s k f r n rest :
  rel_inv t X s → rl_unackedFrags s !! k = Some f → uf_netPkt f = Some r → rl_netPkts s !! r = Some n → np_unackedFrags n ≡ₚ k :: rest →
  liveNets (delete k (rl_unackedFrags s)) =
    match rest with [] => liveNets (rl_unackedFrags s) ∖ {[r]} | _ => liveNets (rl_unackedFrags s) end.
Proof.
  intros Hi Hf Er Hn Hp. destruct (ri_net _ _ _ Hi k f Hf) as (r' & n' & Er' & Hn' & Hin & Hnk).
  assert (r' = r) as -> by congruence. assert (n' = n) as -> by congruence.
  assert (∀ x, x ∈ liveNets (delete k (rl_unackedFrags s)) ↔ ∃ k' f', k' ≠ k ∧ rl_unackedFrags s !! k' = Some f' ∧ uf_netPkt f' = Some x) as Hd.
  { intros x. rewrite elem_of_liveNets. split; intros (k' & f' & H).
    - destruct H as [[? ?]%lookup_delete_Some ?]. eauto 10.
    - exists k', f'. rewrite lookup_delete_Some. naive_solver. }
  apply set_eq. intros x. rewrite Hd. destruct rest as [|y rest].
  - rewrite elem_of_difference, elem_of_singleton, elem_of_liveNets. split.
    + intros (k' & f' & Hne & Hf' & Ex). split; [eauto|]. intros ->. destruct (ri_net _ _ _ Hi k' f' Hf') as (r2 & n2 & E2 & Hn2 & Hin2 & _).
      assert (n2 = n) as -> by congruence. rewrite Hp in Hin2. set_solver.
    + intros [(k' & f' & Hf' & Ex) Hne]. exists k', f'. split_and!; [|done|done]. intros ->. congruence.
  - rewrite elem_of_liveNets. split; [naive_solver|]. intros (k' & f' & Hf' & Ex). destruct (decide (k' = k)) as [->|Hne]; [|eauto 10].
    assert (x = r) as -> by congruence. pose proof (nk_nodup _ _ _ Hnk) as Hnd. rewrite Hp in Hnd. apply NoDup_cons in Hnd as [Hk _].
    destruct (nk_listed _ _ _ Hnk y) as (fy & Hfy & Ey); [rewrite Hp; set_solver|]. exists y, fy. split_and!; [set_solver|done|done].
Qed.
Lemma onLpPacketAcknowledged_spec t X s k :
  rel_inv t X s → is_Some (rl_unackedFrags s !! k) → X ⊆ {[k]} →
  wpL (onLpPacketAcknowledged k) (fun c s' => rel_inv t ∅ s' ∧ rl_unackedFrags s' = delete k (rl_unackedFrags s) ∧
    rl_options s' = rl_options s ∧ nNets s' = nNets s ∧
    match c with
    | Some c => (c = nAcknowledged ∨ c = nRetransmitted) ∧ nLive s = S (nLive s')
    | None => nLive s' = nLive s
    end) s.
Proof.
  intros Hi [f Hf] HX. destruct (ri_net _ _ _ Hi k f Hf) as (r & n & Er & Hn & Hin & Hnk). unfold onLpPacketAcknowledged.
  apply wpL_bind. unfold fragAt. apply wpL_bind, wpL_get, (wpL_deref _ f); [done|]. apply wpL_bind, (wpL_deref _ r); [done|].
  apply wpL_bind. unfold netPktAt. apply wpL_bind, (wpL_deref _ r); [done|]. apply wpL_bind, wpL_get, (wpL_deref _ n); [done|].
  apply wpL_bind, wpL_assert; [by apply bool_decide_eq_true|]. apply wpL_bind, wpL_modify, wpL_bind.
  eapply wpL_mono; [apply deleteUnackedFrag_without; [apply (ri_window _ _ _ Hi)|cbn; eauto]|].
  intros [] s' Hs'. apply wpL_ret. pose proof (replaceWithLast_perm k _ (nk_nodup _ _ _ Hnk) Hin) as Hp.
  assert (rl_unackedFrags s' = delete k (rl_unackedFrags s)) as Em.
  { apply map_eq. intros x. rewrite (wo_lookup _ _ _ Hs'), lookup_delete.
    rewrite (bool_decide_ext (x ∈ [k]) (k = x)) by (rewrite list_elem_of_singleton; naive_solver). case_bool_decide; by case_decide. }
  pose proof (liveNets_unlist _ _ _ _ _ _ _ _ Hi Hf Er Hn Hp) as Hlive. rewrite <-Em in Hlive.
  split_and!; [eapply rel_inv_unlist; try done; set_solver|done|by destruct Hs' as [_ _ (? & ? & ->)]| |].
  - destruct Hs' as [_ _ (? & ? & ->)]. unfold nNets. cbn. rewrite (alter_present r _ n) by done. by rewrite map_size_insert_Some by eauto.
  - unfold nLive. destruct (replaceWithLast _ _); [|by rewrite Hlive]. split; [destruct (np_didRetx n); auto|]. rewrite Hlive.
    assert ({[r]} ⊆ liveNets (rl_unackedFrags s)) as Hsub by (intros x ->%elem_of_singleton; apply elem_of_liveNets; eauto).
    pose proof (subseteq_size _ _ Hsub) as Hsz. rewrite size_difference, size_singleton by done. rewrite size_singleton in Hsz. lia.
Qed.

(** Counting later Acks changes nothing else. *)
Lemma rel_inv_bump t X s first d : rel_inv t X s → rel_inv t X (set_rl_unackedFrags (bumpBefore first d (rl_unackedFrags s)) s).
Proof.
  intros Hi. eapply rel_inv_frags; [done| |intros k; apply is_Some_bumpBefore].
  intros k f'. rewrite lookup_bumpBefore. intros (f & Hf & ->)%fmap_Some_1. exists f. pose proof (ri_timer _ _ _ Hi k f Hf).
  case_bool_decide; split_and!; done.
Qed.
End invariant.
