(* ===== verification/ReliableLink.v ===== *)
(** * The link service with reliability on

    [GenericLinkService] and [LpReliability] together: the branches of
    [generic-link-service.cpp] that the option [reliabilityOptions.isEnabled]
    opens, the functions of [lp-reliability.cpp] that send, and the two timers. *)

From S2P Require Import Prelude Tlv Encoding Packet LpPacket LpFragmenter LpReassembler GenericLinkService LinkSend.
From S2P Require Import RttEstimator LpReliability.
Local Open Scope Z_scope.

Section link.
Context {C : NetCodec} (transport : Transport).

(** [rk_dropped] lists what the signal [onDroppedInterest] was emitted with;
    [rk_trace] says whether the log level of the module is [TRACE], without
    which the arguments of the trace messages are not evaluated. *)
Record ReliableLink := mkReliableLink {
  rk_rel : LpReliability;
  rk_link : LinkService C;
  rk_counters : RelCounter → Z;
  rk_dropped : list InterestT;
  rk_now : Z;
  rk_trace : bool
}.
Definition set_rk_rel v s := mkReliableLink v (rk_link s) (rk_counters s) (rk_dropped s) (rk_now s) (rk_trace s).
Definition set_rk_link v s := mkReliableLink (rk_rel s) v (rk_counters s) (rk_dropped s) (rk_now s) (rk_trace s).
Definition set_rk_counters v s := mkReliableLink (rk_rel s) (rk_link s) v (rk_dropped s) (rk_now s) (rk_trace s).
Definition set_rk_dropped v s := mkReliableLink (rk_rel s) (rk_link s) (rk_counters s) v (rk_now s) (rk_trace s).
Definition set_rk_now v s := mkReliableLink (rk_rel s) (rk_link s) (rk_counters s) (rk_dropped s) v (rk_trace s).
Definition set_rk_trace v s := mkReliableLink (rk_rel s) (rk_link s) (rk_counters s) (rk_dropped s) (rk_now s) v.
Definition ReliableLink_new (options : LinkOptions) (reliability : ReliabilityOptions) : ReliableLink :=
  mkReliableLink (LpReliability_new reliability) (LinkService_new options) (fun _ => 0) [] 0 false.

Abbreviation RK := (ME ReliableLink).
Definition onRel {A} (m : ME LpReliability A) : RK A := zoomE rk_rel set_rk_rel m.
Definition onLink {A} (m : ME (LinkService C) A) : RK A := zoomE rk_link set_rk_link m.
Definition countRel (c : RelCounter) : RK unit :=
  modifyE (fun s => set_rk_counters
    (fun c' => if decide (c' = c) then u64 (rk_counters s c' + 1) else rk_counters s c') s).
Abbreviation now := (getE rk_now).
Abbreviation increment c := (addCount c 1).
Abbreviation isEnabled := (getE (fun s => ro_isEnabled (rl_options (rk_rel s)))).

(** ** Sending *)

(** [sendLpPacket]. *)
Definition sendLpPacketR (pkt : Packet) : RK unit :=
  t ← now;
  mtu ← getE (fun s => getEffectiveMtu transport (ls_options (rk_link s)));
  enabled ← isEnabled;
  pkt ← (if enabled : bool then onRel (piggyback pkt mtu) else mret pkt);
  onLink (sendLpPacket transport t pkt).

(** [LpReliability::RESERVED_HEADER_SPACE]. *)
Definition RESERVED_HEADER_SPACE : Z := Z.of_nat (sizeOfVarNumber lp_TxSequence + sizeOfVarNumber 8 + 8).

(** [sendNetPacket]. *)
Definition sendNetPacketR (pkt : Packet) (isInterest : bool) : RK unit :=
  t ← now;
  options ← getE (fun s => ls_options (rk_link s));
  enabled ← isEnabled;
  let mtu := getEffectiveMtu transport options in
  let mtu := if (enabled : bool) && bool_decide (mtu ≠ MTU_UNLIMITED) then mtu - RESERVED_HEADER_SPACE else mtu in
  let mtu := if allowCongestionMarking options && bool_decide (mtu ≠ MTU_UNLIMITED)
             then mtu - CONGESTION_MARK_SIZE else mtu in
  _ ← assertE (bool_decide (mtu = MTU_UNLIMITED ∨ 0 ≤ mtu));
  '(isOk, frags) ← liftE (if allowFragmentation options && bool_decide (mtu ≠ MTU_UNLIMITED)
                          then fragmentPacket (fragmenterOptions options) pkt (Z.to_nat mtu)
                          else Ok (true, [pkt]));
  if negb isOk then onLink (increment nFragmentationErrors)
  else
    _ ← (match frags with
         | [front] => _ ← assertE (negb (Packet_has FragIndexField front));
                      assertE (negb (Packet_has FragCountField front))
         | _ => mret tt
         end);
    frags ← (if enabled || bool_decide (1 < length frags)%nat then onLink (assignSequences frags) else mret frags);
    frags ← (if enabled then
               front ← derefE (head frags);
               if Packet_has FragmentField front then onRel (handleOutgoing t frags pkt isInterest) else mret frags
             else mret frags);
    forE_ frags sendLpPacketR.

(** [doSendInterest], [doSendData] and [doSendNack] with the counters of
    [LinkService::sendInterest] and its siblings. *)
Definition transmitR (x : NetSend) : RK unit :=
  _ ← onLink (match x with
              | TxInterest _ _ => increment nOutInterests
              | TxData _ _ => increment nOutData
              | TxNack _ _ _ => increment nOutNacks
              end);
  options ← getE (fun s => ls_options (rk_link s));
  lpPacket ← liftE (Packet_wireDecode (tx_wireOf x));
  lpPacket ← liftE (match tx_nackOf x with Some header => Packet_add NackField header lpPacket | None => Ok lpPacket end);
  lpPacket ← liftE (encodeLpFields options (tx_tagsOf x) lpPacket);
  sendNetPacketR lpPacket (match x with TxInterest _ _ => true | _ => false end).

(** ** Losses *)

(** The other fragments of a network packet that is given up. *)
Fixpoint deleteOthers (txSeq : Z) (l : list Z) : ME LpReliability (list Z) :=
  match l with
  | [] => mret []
  | x :: l' =>
      if bool_decide (x ≠ txSeq) then
        _ ← fragAt x;
        _ ← deleteUnackedFrag x;
        removed ← deleteOthers txSeq l';
        mret (x :: removed)
      else deleteOthers txSeq l'
  end.

(** [onLpPacketLost]: too many retransmissions. *)
Definition giveUp (txSeq : Z) (netPkt : NetPkt) : RK (list Z) :=
  removed ← onRel (deleteOthers txSeq (np_unackedFrags netPkt));
  _ ← countRel nRetxExhausted;
  _ ← (if np_isInterest netPkt then
         _ ← assertE (Packet_has FragmentField (np_pkt netPkt));
         frag ← liftE (Packet_get FragmentField (np_pkt netPkt));
         wire ← liftE (Wire_ofSpan frag);
         interest ← liftE (Interest_decode wire);
         modifyE (fun s => set_rk_dropped (rk_dropped s ++ [interest]) s)
       else mret tt);
  _ ← onRel (deleteUnackedFrag txSeq);
  mret (removed ++ [txSeq]).
(** [onLpPacketLost]: the fragment moves to a new TxSequence number. *)
Definition moveFrag (t txSeq : Z) (frag : UnackedFrag) (r : NetPktRef) : ME LpReliability Z :=
  '(newTxSeq, pkt) ← takeTxSequence (uf_pkt frag);
  _ ← updFrag txSeq (set_uf_pkt pkt);
  _ ← checkTxSequence newTxSeq;
  _ ← updNetPkt r (set_np_didRetx true);
  _ ← modifyE (fun s => set_rl_unackedFrags (tryEmplace newTxSeq (UnackedFrag_new t pkt) (rl_unackedFrags s)) s);
  _ ← updFrag newTxSeq (fun f => set_uf_netPkt (Some r) (set_uf_retxCount (u64 (uf_retxCount frag + 1)) f));
  netPkt ← netPktAt (Some r);
  _ ← assertE (bool_decide (txSeq ∈ np_unackedFrags netPkt));
  _ ← updNetPkt r (fun n => set_np_unackedFrags
        (updateFirst (fun x => bool_decide (x = txSeq)) (fun _ => newTxSeq) (np_unackedFrags n)) n);
  _ ← deleteUnackedFrag txSeq;
  mret newTxSeq.
(** The trace message of a retransmission reads [txFrag.retxCount], through the
    reference to the entry of [txSeq]. *)
Definition traceRetx (txSeq : Z) : RK unit :=
  trace ← getE rk_trace;
  if trace : bool then _ ← onRel (fragAt txSeq); mret tt else mret tt.
Definition onLpPacketLost (txSeq : Z) : RK (list Z) :=
  t ← now;
  present ← getE (fun s => bool_decide (is_Some (rl_unackedFrags (rk_rel s) !! txSeq)));
  _ ← assertE present;
  _ ← onRel (updFrag txSeq (set_uf_rtoTimer None));
  frag ← onRel (fragAt txSeq);
  r ← derefE (uf_netPkt frag);
  netPkt ← onRel (netPktAt (Some r));
  _ ← liftE (Packet_get SequenceField (uf_pkt frag));
  maxRetx ← getE (fun s => ro_maxRetx (rl_options (rk_rel s)));
  if bool_decide (maxRetx ≤ uf_retxCount frag) then giveUp txSeq netPkt
  else
    newTxSeq ← onRel (moveFrag t txSeq frag r);
    newFrag ← onRel (fragAt newTxSeq);
    _ ← sendLpPacketR (uf_pkt newFrag);
    rto ← getE (fun s => getEstimatedRto (rl_rttEst (rk_rel s)));
    _ ← traceRetx txSeq;
    _ ← onRel (updFrag newTxSeq (set_uf_rtoTimer (Some (t + rto))));
    mret [txSeq].

(** ** Receiving *)

(** Fragments considered lost, except those that went with another one. *)
Fixpoint resendLost (lost removed : list Z) : RK unit :=
  match lost with
  | [] => mret tt
  | txSeq :: lost' =>
      if bool_decide (txSeq ∈ removed) then resendLost lost' removed
      else
        removed' ← onLpPacketLost txSeq;
        resendLost lost' (removed ++ removed')
  end.
(** The loop body over the Acks in [processIncomingPacket]. *)
Definition processAck (ackTxSeq : Z) : RK unit :=
  t ← now;
  it ← getE (fun s => rl_unackedFrags (rk_rel s) !! ackTxSeq);
  match it with
  | None => mret tt
  | Some frag =>
      _ ← onRel (updFrag ackTxSeq (set_uf_rtoTimer None));
      _ ← (if bool_decide (uf_retxCount frag = 0) then
             r ← getE (fun s => rl_rttEst (rk_rel s));
             r' ← liftE (addMeasurement (t - uf_sendTime frag) 1 r);
             onRel (modifyE (set_rl_rttEst r'))
           else mret tt);
      lostLpPackets ← onRel (findLostLpPackets ackTxSeq);
      counter ← onRel (onLpPacketAcknowledged ackTxSeq);
      _ ← (match counter with Some c => countRel c | None => mret tt end);
      resendLost lostLpPackets []
  end.
Definition processIncomingPacket (pkt : Packet) : RK bool :=
  t ← now;
  enabled ← isEnabled;
  _ ← assertE enabled;
  acks ← liftE (Packet_list AckField pkt);
  _ ← forE_ acks processAck;
  if Packet_has FragmentField pkt && Packet_has TxSequenceField pkt then
    txSeq ← liftE (Packet_get TxSequenceField pkt);
    _ ← onRel (modifyE (fun s => set_rl_ackQueue (rl_ackQueue s ++ [txSeq]) s));
    isDuplicate ← (if Packet_has SequenceField pkt then
                     pktSequence ← liftE (Packet_get SequenceField pkt);
                     onRel (checkDuplicate t pktSequence)
                   else mret false);
    _ ← onRel (startIdleAckTimer t);
    mret (negb isDuplicate)
  else mret true.

(** [doReceivePacket]. *)
Definition doReceivePacketR (packet : Wire) (endpoint : EndpointId) : RK unit :=
  t ← now;
  enabled ← isEnabled;
  catchTlv
    (pkt ← liftE (Packet_wireDecode packet);
     isNew ← (if enabled : bool then processIncomingPacket pkt else mret true);
     if isNew : bool then onLink (receiveLpPacket t pkt endpoint) else countRel nDuplicateSequence)
    (onLink (increment nInLpInvalid)).

(** ** Timers *)

Definition onRtoTimer (txSeq : Z) : RK unit :=
  t ← now;
  it ← getE (fun s => rl_unackedFrags (rk_rel s) !! txSeq);
  match it ≫= uf_rtoTimer with
  | Some deadline => if bool_decide (deadline ≤ t) then _ ← onLpPacketLost txSeq; mret tt else mret tt
  | None => mret tt
  end.

(** [while (!m_ackQueue.empty()) requestIdlePacket()]. *)
Fixpoint idleAck_loop (fuel : nat) : RK unit :=
  queue ← getE (fun s => rl_ackQueue (rk_rel s));
  match queue, fuel with
  | [], _ => mret tt
  | _, O => liftE (Fault Diverges)
  | _, S fuel' => _ ← sendLpPacketR Packet_new; idleAck_loop fuel'
  end.
(** Every round takes an Ack from the queue. *)
Definition onIdleAckTimer : RK unit :=
  t ← now;
  timer ← getE (fun s => rl_idleAckTimer (rk_rel s));
  match timer with
  | Some deadline =>
      if bool_decide (deadline ≤ t) then
        _ ← onRel (modifyE (set_rl_idleAckTimer None));
        n ← getE (fun s => length (rl_ackQueue (rk_rel s)));
        idleAck_loop n
      else mret tt
  | None => mret tt
  end.
End link.
Arguments ReliableLink : clear implicits.
