(* ===== verification/RelAcks.v ===== *)
(** * Acknowledgements on outgoing packets

    What [piggyback] puts on a packet, how large the packet gets, and what the
    idle timer sends ([lp-reliability.cpp], [generic-link-service.cpp]). *)

From S2P Require Import Transport.
From S2P Require Import Prelude Tlv Encoding Packet LpPacket LpFragmenter LpReassembler GenericLinkService LinkSend.
From S2P Require Import RttEstimator LpReliability RelWindow RelInv ReliableLink.
Local Open Scope Z_scope.

#[export] Instance ReliableLink_exhausted {C : NetCodec} : Exhausted (ReliableLink C) := fun s => exhausted (rk_rel s).
#[export] Instance zoom_exhausted_rel {C : NetCodec} : ZoomExhausted (S := ReliableLink C) set_rk_rel.
Proof. intros t s Ht. exact Ht. Qed.
#[export] Instance zoom_exhausted_link {C : NetCodec} : ZoomExhausted (S := ReliableLink C) set_rk_link.
Proof. by intros t s []. Qed.
Lemma wpL_onRel {C : NetCodec} {A} (m : ME LpReliability A) (Q : A → ReliableLink C → Prop) s :
  wpL m (fun a t => Q a (set_rk_rel t s)) (rk_rel s) → wpL (onRel m) Q s.
Proof. apply wpL_zoom, _. Qed.
Lemma wpL_onLink {C : NetCodec} {A} (m : ME (LinkService C) A) (Q : A → ReliableLink C → Prop) s :
  wpL m (fun a t => Q a (set_rk_link t s)) (rk_link s) → wpL (onLink m) Q s.
Proof. apply wpL_zoom, _. Qed.

(** ** Packets that go out as LpPackets *)

Record lpReady (q : Packet) : Prop := {
  lr_ok : Packet_ok q;
  lr_wire : p_wire q = None;
  lr_notBare : isBare (p_elements q) = false
}.
Lemma lpReady_encode q : lpReady q → Packet_wireEncode q = Ok (Packet_encodeWire q) ∧ w_type (Packet_encodeWire q) = lp_LpPacket.
Proof. intros [_ Hw Hb]. split; [by apply Packet_wireEncode_lp|]. unfold Packet_encodeWire. by rewrite Hw. Qed.
Lemma lpReady_new : lpReady Packet_new.
Proof. split; [apply Packet_new_ok|done|done]. Qed.
Lemma sequencedFrag_ready p : sequencedFrag p → lpReady p.
Proof. intros [Hok Hw [seq Hs]]. split; [done|done|]. by apply (not_bare lp_Sequence _ (sequenceBlock seq) []). Qed.

(** The size of an LpPacket from the size of its elements. *)
Definition lpSize (V : nat) : nat := (1 + sizeOfVarNumber (Z.of_nat V) + V)%nat.
Lemma Packet_encodeWire_lpSize q : p_wire q = None → Wire_size (Packet_encodeWire q) = lpSize (elementsSize (p_elements q)).
Proof.
  intros Hw. unfold Packet_encodeWire. rewrite Hw. unfold Wire_size. cbn [w_bytes Wire_ofBlock].
  set (b := Build_Block lp_LpPacket (Block_encodeElements (p_elements q) [])).
  pose proof (Block_size_eq b) as E. unfold Block_size in E. cbn [blk_type blk_value b] in E. rewrite length_Block_encodeElements in E. exact E.
Qed.

(** ** The loop over the queue *)

Definition ackBlock (k : Z) : Block := Build_Block lp_Ack (be_bytes 8 k).
Lemma ackBlock_size k : Block_size (ackBlock k) = 12%nat.
Proof. rewrite Block_size_eq. cbn [blk_type blk_value ackBlock]. by rewrite length_be_bytes. Qed.
(** [q] with the Acks of [taken]. *)
Record withAcks (taken : list Z) (q q' : Packet) : Prop := {
  wa_ready : lpReady q';
  wa_size : elementsSize (p_elements q') = (elementsSize (p_elements q) + 12 * length taken)%nat;
  wa_fields type : fieldsAt type (p_elements q') =
    fieldsAt type (p_elements q) ++ (if bool_decide (type = lp_Ack) then map ackBlock taken else [])
}.
Lemma withAcks_nil q : lpReady q → withAcks [] q q.
Proof. intros Hq. split; [done|cbn; lia|]. intros type. cbn. case_bool_decide; by rewrite app_nil_r. Qed.
Lemma withAcks_cons k taken q q1 q' : withAcks [k] q q1 → withAcks taken q1 q' → withAcks (k :: taken) q q'.
Proof.
  intros [_ S1 F1] [R2 S2 F2]. split; [done|rewrite S2, S1; cbn; lia|]. intros type. rewrite F2, F1, <-app_assoc. f_equal.
  by case_bool_decide.
Qed.
Lemma add_ack k q : lpReady q → ∃ q', Packet_add AckField k q = Ok q' ∧ withAcks [k] q q'.
Proof.
  intros [Hok Hw Hb]. destruct (Packet_add_spec AckField k (be_bytes 8 k) q) as (q' & Hadd & Hok' & Hw' & Hp & Hf);
    [done|done|by rewrite length_be_bytes|by left|]. exists q'. split; [done|]. split.
  - split; [done|done|]. destruct (fieldsAt lp_Ack (p_elements q')) as [|b l] eqn:E; [|by apply (not_bare lp_Ack _ b l)].
    rewrite Hf in E. cbn in E. by apply app_nil in E as [_ E].
  - rewrite Hp, elementsSize_cons. change (Build_Block (F_type AckField) (be_bytes 8 k)) with (ackBlock k). rewrite ackBlock_size. cbn. lia.
  - intros type. rewrite Hf. done.
Qed.

Lemma piggyback_loop_spec queue : ∀ space q,
  lpReady q → ∃ taken queue' q', piggyback_loop queue space q = Ok (queue', q') ∧ queue = taken ++ queue' ∧
    withAcks taken q q' ∧ (taken = [] ∨ 12 * Z.of_nat (length taken) ≤ space) ∧
    (queue' = [] ∨ space < 12 * Z.of_nat (length taken) + 12).
Proof.
  induction queue as [|k queue IH]; intros space q Hq; cbn [piggyback_loop].
  { exists [], [], q. split_and!; [done|done|by apply withAcks_nil|by left|by left]. }
  change ackSize with 12. case_bool_decide as Hs.
  { exists [], (k :: queue), q. split_and!; [done|done|by apply withAcks_nil|by left|right; cbn; lia]. }
  destruct (add_ack k q Hq) as (q1 & -> & H1). rewrite bind_Ok.
  destruct (IH (space - 12) q1 (wa_ready _ _ _ H1)) as (taken & queue' & q' & -> & -> & H2 & Hle & Hlt).
  exists (k :: taken), queue', q'. split_and!; [done|done|by eapply withAcks_cons| |].
  - right. cbn [length]. destruct Hle as [->|Hle]; cbn [length] in *; lia.
  - destruct Hlt as [?|Hlt]; [by left|]. right. cbn [length]. lia.
Qed.

(** The space [piggyback] counts with. *)
Definition ackSpace (mtu : Z) (q : Packet) : Z :=
  let pktSize := Z.of_nat (Wire_size (Packet_encodeWire q)) in
  (if bool_decide (mtu = MTU_UNLIMITED) then MAX_NDN_PACKET_SIZE else mtu) -
  (3 - Z.of_nat (sizeOfVarNumber pktSize)) - pktSize.
Lemma piggyback_spec q mtu s :
  lpReady q → ro_isEnabled (rl_options s) = true →
  ∃ taken queue' q', piggyback q mtu s = (Ok q', set_rl_ackQueue queue' s) ∧ rl_ackQueue s = taken ++ queue' ∧
    withAcks taken q q' ∧ (taken = [] ∨ 12 * Z.of_nat (length taken) ≤ ackSpace mtu q) ∧
    (queue' = [] ∨ ackSpace mtu q < 12 * Z.of_nat (length taken) + 12).
Proof.
  intros Hq Hen. destruct (lpReady_encode q Hq) as [Henc Htype].
  destruct (piggyback_loop_spec (rl_ackQueue s) (ackSpace mtu q) q Hq) as (taken & queue' & q' & E & Hrest).
  exists taken, queue', q'. split; [|done]. unfold piggyback. rewrite (bindE _ _ s (rl_options s) s) by done.
  rewrite (bindE _ _ s tt s) by (by rewrite Hen). rewrite Henc. rewrite (bindE _ _ s (Packet_encodeWire q) s) by done.
  rewrite (bindE _ _ s tt s) by (by rewrite bool_decide_true by done). cbv zeta.
  rewrite (bindE _ _ s (rl_ackQueue s) s) by done. rewrite (bindE _ _ s (queue', q') s); [done|].
  unfold liftE. by rewrite <-E.
Qed.

(** The packet stays within the MTU; from 253 or 254 bytes its length grows to
    three bytes and nothing is set aside for it. *)
Lemma withAcks_fits taken q q' (M : nat) :
  lpReady q → withAcks taken q q' → Z.of_nat M < 65536 → (Wire_size (Packet_encodeWire q) ≤ M)%nat →
  Wire_size (Packet_encodeWire q) ≠ 253%nat → Wire_size (Packet_encodeWire q) ≠ 254%nat →
  taken = [] ∨ 12 * Z.of_nat (length taken) ≤ ackSpace (Z.of_nat M) q →
  (Wire_size (Packet_encodeWire q') ≤ M)%nat.
Proof.
  intros Hq Ha HM Hfit H253 H254 Hspace. unfold ackSpace in Hspace. rewrite bool_decide_false in Hspace by (unfold MTU_UNLIMITED; lia).
  rewrite Packet_encodeWire_lpSize in * by (apply Hq || apply (wa_ready _ _ _ Ha)). rewrite (wa_size _ _ _ Ha).
  set (V := elementsSize (p_elements q)) in *. destruct Hspace as [->|Hspace]; [cbn [length]; by rewrite Nat.mul_0_r, Nat.add_0_r|].
  unfold lpSize, sizeOfVarNumber, UINT16_MAX, UINT32_MAX in *. repeat case_bool_decide; lia.
Qed.

(** ** Sending *)

Section send.
Context {C : NetCodec} (transport : Transport).
Implicit Types s : ReliableLink C.

Definition linkUp (options : LinkOptions) (mtu : option nat) : Prop :=
  mtuIs transport options mtu ∧ (t_state transport = TransportState_UP ∨ t_state transport = TransportState_DOWN).

(** [sendLpPacket] sends or drops; the marking state and the counters change. *)
Lemma sendLpPacket_safe t q mtu (l : LinkService C) :
  lpReady q → linkUp (ls_options l) mtu →
  ∃ l', sendLpPacket transport t q l = (Ok tt, l') ∧ ls_options l' = ls_options l ∧
    ls_reassembler l' = ls_reassembler l ∧ ls_received l' = ls_received l ∧ ls_lastSeqNo l' = ls_lastSeqNo l.
Proof.
  intros Hq [Hm Hst]. unfold sendLpPacket. rewrite (bindE _ _ l (ls_options l) l) by done. cbv zeta.
  assert (∃ q' l1, (if allowCongestionMarking (ls_options l) then checkCongestionLevel transport t q else mret q) l = (Ok q', l1) ∧
    quiet l l1 ∧ ls_lastSeqNo l1 = ls_lastSeqNo l ∧ isBare (p_elements q') = false) as (q' & l1 & E & Hquiet & Hseq & Hb).
  { destruct (allowCongestionMarking _); [|exists q, l; by split_and!; [|apply quiet_refl| |apply Hq]].
    destruct (checkCongestionLevel_spec transport t q l (lr_ok _ Hq)) as (q' & l1 & E & Hmark & Hquiet & _ & Hseq).
    exists q', l1. split_and!; [done..|]. destruct Hmark as [->|Hset]; [apply Hq|].
    destruct (set_mark q (lr_ok _ Hq)) as (q2 & Hset2 & _ & _ & _ & _ & Hf). rewrite Hset in Hset2. injection Hset2 as <-.
    apply (not_bare lp_CongestionMark _ markBlock []); [done|]. by rewrite Hf, bool_decide_true. }
  rewrite (bindE _ _ _ _ _ E). destruct Hquiet as (Ho & Hr & Hrx & _).
  rewrite (bindE _ _ l1 (Packet_encodeWire q') l1) by (unfold liftE; by rewrite Packet_wireEncode_lp).
  case_bool_decide as Hover; [by eexists|].
  destruct (Transport_send_spec transport mtu (Packet_encodeWire q') l1) as (l' & E' & (? & ? & ? & _) & _ & ?); [by rewrite Ho| |done|].
  - destruct mtu as [M|]; [|done]. destruct Hm as [Hm Ht]. cbn. rewrite Hm in Hover. unfold MTU_UNLIMITED in Hover.
    unfold getEffectiveMtu in Hm. rewrite u64_small in Hover by lia. lia.
  - exists l'. split; [done|]. split_and!; congruence.
Qed.

(** What a transmission changes. *)
Definition sentOnly s s' : Prop :=
  ∃ l queue taken, s' = set_rk_link l (set_rk_rel (set_rl_ackQueue queue (rk_rel s)) s) ∧
    rl_ackQueue (rk_rel s) = taken ++ queue ∧
    ls_options l = ls_options (rk_link s) ∧ ls_reassembler l = ls_reassembler (rk_link s).
Lemma sendLpPacketR_eq p q rel' l s :
  ro_isEnabled (rl_options (rk_rel s)) = true →
  piggyback p (getEffectiveMtu transport (ls_options (rk_link s))) (rk_rel s) = (Ok q, rel') →
  sendLpPacket transport (rk_now s) q (rk_link s) = (Ok tt, l) →
  sendLpPacketR transport p s = (Ok tt, set_rk_link l (set_rk_rel rel' s)).
Proof.
  intros Hen E El. unfold sendLpPacketR. rewrite (bindE _ _ s (rk_now s) s) by done.
  rewrite (bindE _ _ s (getEffectiveMtu transport (ls_options (rk_link s))) s) by done. rewrite (bindE _ _ s true s) by (unfold getE; by rewrite Hen).
  rewrite (bindE _ _ s q (set_rk_rel rel' s)) by (unfold onRel, zoomE; by rewrite E).
  unfold onLink, zoomE. cbn [rk_link set_rk_rel]. by rewrite El.
Qed.
Lemma sendLpPacketR_safe q mtu s :
  lpReady q → linkUp (ls_options (rk_link s)) mtu → ro_isEnabled (rl_options (rk_rel s)) = true →
  wpL (sendLpPacketR transport q) (fun _ s' => sentOnly s s') s.
Proof.
  intros Hq Hup Hen.
  destruct (piggyback_spec q (getEffectiveMtu transport (ls_options (rk_link s))) (rk_rel s) Hq Hen)
    as (taken & queue & q' & E & Hqueue & Hacks & _).
  destruct (sendLpPacket_safe (rk_now s) q' mtu (rk_link s) (wa_ready _ _ _ Hacks) Hup) as (l & El & Ho & Hr & _).
  eapply wpL_run; [by eapply sendLpPacketR_eq|]. by exists l, queue, taken.
Qed.

(** ** Idle packets *)

(** The largest packet that may go out. *)
Definition ackLimit (mtu : option nat) : nat := match mtu with Some M => M | None => Z.to_nat MAX_NDN_PACKET_SIZE end.
Lemma ackSpace_limit mtu options q :
  mtuIs transport options mtu → ackSpace (getEffectiveMtu transport options) q = ackSpace (Z.of_nat (ackLimit mtu)) q.
Proof.
  unfold ackSpace, MTU_UNLIMITED. destruct mtu as [M|]; intros [Hm Hm']; cbn [ackLimit]; [by rewrite Hm|].
  rewrite Hm'. unfold MTU_UNLIMITED. rewrite bool_decide_true, bool_decide_false by (try unfold MAX_NDN_PACKET_SIZE; lia).
  unfold MAX_NDN_PACKET_SIZE. lia.
Qed.

(** With marking off, a packet that fits is sent as it is. *)
Lemma sendLpPacket_fits t q mtu (l : LinkService C) :
  lpReady q → linkUp (ls_options l) mtu → allowCongestionMarking (ls_options l) = false →
  (Wire_size (Packet_encodeWire q) ≤ ackLimit mtu)%nat →
  ∃ l', sendLpPacket transport t q l = (Ok tt, l') ∧ ls_options l' = ls_options l ∧ ls_sent l' = ls_sent l ++ [Packet_encodeWire q].
Proof.
  intros Hq [Hm Hst] Hmark Hfit. unfold sendLpPacket. rewrite (bindE _ _ l (ls_options l) l) by done. cbv zeta. rewrite Hmark.
  rewrite (bindE _ _ l q l) by done. rewrite (bindE _ _ l (Packet_encodeWire q) l) by (unfold liftE; by rewrite (proj1 (lpReady_encode q Hq))).
  assert (fits mtu (Wire_size (Packet_encodeWire q))) as Hf by (destruct mtu; [exact Hfit|done]).
  rewrite bool_decide_false.
  - destruct (Transport_send_spec transport mtu (Packet_encodeWire q) l Hm Hf Hst) as (l' & E & (Ho & _) & Hs & _). by exists l'.
  - intros [H1 H2]. destruct mtu as [M|]; [|by destruct Hm]. destruct Hm as [Hm Ht]. cbn in Hf. rewrite Hm in H2.
    unfold getEffectiveMtu in Hm. rewrite u64_small in H2 by lia. lia.
Qed.

(** One IDLE packet takes Acks from the queue. *)
Lemma idle_takes mtu (queue0 taken queue : list Z) :
  queue0 = taken ++ queue → 16 ≤ Z.of_nat (ackLimit mtu) →
  queue = [] ∨ ackSpace (Z.of_nat (ackLimit mtu)) Packet_new < 12 * Z.of_nat (length taken) + 12 → queue0 ≠ [] → taken ≠ [].
Proof.
  intros Hqueue HM Hlt Hne ->. cbn in Hqueue. subst queue. destruct Hlt as [?|Hlt]; [done|]. cbn [length] in Hlt. unfold ackSpace in Hlt.
  rewrite bool_decide_false in Hlt by (unfold MTU_UNLIMITED; lia).
  assert (Wire_size (Packet_encodeWire Packet_new) = 2%nat) as E by done. rewrite E in Hlt.
  change (sizeOfVarNumber (Z.of_nat 2)) with 1%nat in Hlt. lia.
Qed.
Lemma sendIdle_progress mtu s :
  linkUp (ls_options (rk_link s)) mtu → ro_isEnabled (rl_options (rk_rel s)) = true → 16 ≤ Z.of_nat (ackLimit mtu) →
  rl_ackQueue (rk_rel s) ≠ [] →
  wpL (sendLpPacketR transport Packet_new)
    (fun _ s' => sentOnly s s' ∧ (length (rl_ackQueue (rk_rel s')) < length (rl_ackQueue (rk_rel s)))%nat) s.
Proof.
  intros Hup Hen HM Hne.
  destruct (piggyback_spec Packet_new (getEffectiveMtu transport (ls_options (rk_link s))) (rk_rel s) lpReady_new Hen)
    as (taken & queue & q & E & Hqueue & Hacks & _ & Hlt). rewrite (ackSpace_limit mtu) in Hlt by apply Hup.
  pose proof (idle_takes _ _ _ _ Hqueue HM Hlt Hne) as Ht.
  destruct (sendLpPacket_safe (rk_now s) q mtu (rk_link s) (wa_ready _ _ _ Hacks) Hup) as (l & El & Ho & Hr & _).
  eapply wpL_run; [by eapply sendLpPacketR_eq|]. split; [by exists l, queue, taken|]. cbn. rewrite Hqueue, length_app.
  destruct taken; [done|]. cbn. lia.
Qed.
Lemma sendIdle mtu s :
  linkUp (ls_options (rk_link s)) mtu → ro_isEnabled (rl_options (rk_rel s)) = true →
  allowCongestionMarking (ls_options (rk_link s)) = false → 16 ≤ Z.of_nat (ackLimit mtu) < 65536 →
  rl_ackQueue (rk_rel s) ≠ [] →
  ∃ taken queue q l, sendLpPacketR transport Packet_new s = (Ok tt, set_rk_link l (set_rk_rel (set_rl_ackQueue queue (rk_rel s)) s)) ∧
    rl_ackQueue (rk_rel s) = taken ++ queue ∧ taken ≠ [] ∧ withAcks taken Packet_new q ∧
    (Wire_size (Packet_encodeWire q) ≤ ackLimit mtu)%nat ∧
    ls_options l = ls_options (rk_link s) ∧ ls_sent l = ls_sent (rk_link s) ++ [Packet_encodeWire q].
Proof.
  intros Hup Hen Hmark HM Hne.
  destruct (piggyback_spec Packet_new (getEffectiveMtu transport (ls_options (rk_link s))) (rk_rel s) lpReady_new Hen)
    as (taken & queue & q & E & Hqueue & Hacks & Hle & Hlt). rewrite (ackSpace_limit mtu) in Hle, Hlt by apply Hup.
  pose proof (idle_takes _ _ _ _ Hqueue (proj1 HM) Hlt Hne) as Ht.
  assert (Wire_size (Packet_encodeWire q) ≤ ackLimit mtu)%nat as Hfit.
  { apply (withAcks_fits taken Packet_new q); [apply lpReady_new|done|lia| |done|done|done].
    assert (Wire_size (Packet_encodeWire Packet_new) = 2%nat) as -> by done. lia. }
  destruct (sendLpPacket_fits (rk_now s) q mtu (rk_link s) (wa_ready _ _ _ Hacks) Hup Hmark Hfit) as (l & El & Ho & Hs).
  exists taken, queue, q, l. split; [by eapply sendLpPacketR_eq|done].
Qed.

Lemma idleAck_loop_spec mtu fuel : ∀ s,
  linkUp (ls_options (rk_link s)) mtu → ro_isEnabled (rl_options (rk_rel s)) = true →
  allowCongestionMarking (ls_options (rk_link s)) = false → 16 ≤ Z.of_nat (ackLimit mtu) < 65536 →
  (length (rl_ackQueue (rk_rel s)) ≤ fuel)%nat →
  ∃ s' groups pkts, idleAck_loop transport fuel s = (Ok tt, s') ∧ rl_ackQueue (rk_rel s') = [] ∧
    mjoin groups = rl_ackQueue (rk_rel s) ∧ Forall2 (fun acks q => withAcks acks Packet_new q) groups pkts ∧
    Forall (fun q => (Wire_size (Packet_encodeWire q) ≤ ackLimit mtu)%nat) pkts ∧
    ls_sent (rk_link s') = ls_sent (rk_link s) ++ map Packet_encodeWire pkts.
Proof.
  assert (∀ s fuel, rl_ackQueue (rk_rel s) = [] → idleAck_loop transport fuel s = (Ok tt, s)) as Hnil.
  { intros s [|n] E; cbn [idleAck_loop]; rewrite (bindE _ _ s [] s) by (unfold getE; by rewrite E); done. }
  induction fuel as [|fuel IH]; intros s Hup Hen Hmark HM Hfuel.
  { exists s, [], []. apply Nat.le_0_r, length_zero_iff_nil in Hfuel. rewrite Hnil, Hfuel, app_nil_r by done. by split_and!. }
  destruct (decide (rl_ackQueue (rk_rel s) = [])) as [E|Hne].
  { exists s, [], []. rewrite Hnil, E, app_nil_r by done. by split_and!. }
  destruct (sendIdle mtu s Hup Hen Hmark HM Hne) as (taken & queue & q & l & E & Hqueue & Ht & Hacks & Hfit & Ho & Hs).
  set (s1 := set_rk_link l (set_rk_rel (set_rl_ackQueue queue (rk_rel s)) s)) in *.
  destruct (IH s1) as (s' & groups & pkts & E' & Hq' & Hj & Hall & Hfits & Hs').
  { cbn. by rewrite Ho. } { done. } { cbn. by rewrite Ho. } { done. }
  { cbn. apply (f_equal length) in Hqueue. rewrite length_app in Hqueue. destruct taken; [done|]. cbn in Hqueue. lia. }
  exists s', (taken :: groups), (q :: pkts). split_and!.
  - cbn [idleAck_loop]. rewrite (bindE _ _ s (rl_ackQueue (rk_rel s)) s) by done.
    destruct (rl_ackQueue (rk_rel s)) eqn:Eq; [done|]. by rewrite (bindE _ _ s tt s1).
  - done.
  - change (taken ++ mjoin groups = rl_ackQueue (rk_rel s)). by rewrite Hj.
  - by constructor.
  - by constructor.
  - rewrite Hs'. cbn. rewrite Hs. by rewrite <-app_assoc.
Qed.
End send.

(** ** Properties *)

(** Piggybacked Acks fit.  [piggyback] takes Acks from the front of the queue
    and adds them to the packet in order, as many as there is room for; no other
    field changes, and a packet within the MTU stays within it, unless it was 253
    or 254 bytes long. *)
Theorem piggyback_within_mtu q (M : nat) (s : LpReliability) :
  lpReady q → ro_isEnabled (rl_options s) = true → Z.of_nat M < 65536 → (Wire_size (Packet_encodeWire q) ≤ M)%nat →
  Wire_size (Packet_encodeWire q) ≠ 253%nat → Wire_size (Packet_encodeWire q) ≠ 254%nat →
  ∃ taken queue q', piggyback q (Z.of_nat M) s = (Ok q', set_rl_ackQueue queue s) ∧ rl_ackQueue s = taken ++ queue ∧
    (∀ type, fieldsAt type (p_elements q') = fieldsAt type (p_elements q) ++ (if bool_decide (type = lp_Ack) then map ackBlock taken else [])) ∧
    Packet_wireEncode q' = Ok (Packet_encodeWire q') ∧ (Wire_size (Packet_encodeWire q') ≤ M)%nat ∧
    (queue = [] ∨ (M < Wire_size (Packet_encodeWire q') + 14)%nat).
Proof.
  intros Hq Hen HM Hfit H253 H254. destruct (piggyback_spec q (Z.of_nat M) s Hq Hen) as (taken & queue & q' & E & Hqueue & Hacks & Hle & Hlt).
  exists taken, queue, q'. split_and!; [done|done|apply Hacks|apply lpReady_encode, Hacks|by eapply withAcks_fits|].
  destruct Hlt as [?|Hlt]; [by left|]. right. unfold ackSpace in Hlt. rewrite bool_decide_false in Hlt by (unfold MTU_UNLIMITED; lia).
  rewrite (Packet_encodeWire_lpSize q') by apply Hacks. rewrite Packet_encodeWire_lpSize in * by apply Hq. rewrite (wa_size _ _ _ Hacks).
  unfold lpSize, sizeOfVarNumber, UINT16_MAX, UINT32_MAX in *. repeat case_bool_decide; lia.
Qed.

(** C31. Acks are not held back.  When the idle timer runs out, with congestion
    marking off and an MTU of at least 16 bytes, the loop ends with the queue
    empty: packets without a Fragment went out, each within the MTU, that carry
    exactly the queued Acks in order. *)
Theorem idle_timer_sends_acks {C : NetCodec} transport mtu (s : ReliableLink C) deadline :
  linkUp transport (ls_options (rk_link s)) mtu → ro_isEnabled (rl_options (rk_rel s)) = true →
  allowCongestionMarking (ls_options (rk_link s)) = false → 16 ≤ Z.of_nat (ackLimit mtu) < 65536 →
  rl_idleAckTimer (rk_rel s) = Some deadline → deadline ≤ rk_now s →
  ∃ s' groups pkts, onIdleAckTimer transport s = (Ok tt, s') ∧ rl_ackQueue (rk_rel s') = [] ∧
    mjoin groups = rl_ackQueue (rk_rel s) ∧
    ls_sent (rk_link s') = ls_sent (rk_link s) ++ map Packet_encodeWire pkts ∧
    Forall2 (fun acks q => ∀ type, fieldsAt type (p_elements q) = if bool_decide (type = lp_Ack) then map ackBlock acks else []) groups pkts ∧
    Forall (fun q => (Wire_size (Packet_encodeWire q) ≤ ackLimit mtu)%nat) pkts.
Proof.
  intros Hup Hen Hmark HM Ht Hdue. unfold onIdleAckTimer. rewrite (bindE _ _ s (rk_now s) s) by done.
  rewrite (bindE _ _ s (Some deadline) s) by (unfold getE; by rewrite Ht). rewrite bool_decide_true by done.
  set (s1 := set_rk_rel (set_rl_idleAckTimer None (rk_rel s)) s). rewrite (bindE _ _ s tt s1) by done.
  rewrite (bindE _ _ s1 (length (rl_ackQueue (rk_rel s))) s1) by done.
  destruct (idleAck_loop_spec transport mtu (length (rl_ackQueue (rk_rel s))) s1) as (s' & groups & pkts & E & Hq & Hj & Hall & Hfit & Hsent); [done..|].
  exists s', groups, pkts. split_and!; [done..| |done]. eapply Forall2_impl; [exact Hall|]. intros acks q Hacks type.
  rewrite (wa_fields _ _ _ Hacks). done.
Qed.

(** With an MTU under 16 bytes no Ack ever fits, and the loop of the idle timer
    does not end. *)
Lemma idle_loop_small_mtu {C : NetCodec} transport (M : nat) fuel : ∀ s : ReliableLink C,
  linkUp transport (ls_options (rk_link s)) (Some M) → ro_isEnabled (rl_options (rk_rel s)) = true →
  Z.of_nat M < 16 → rl_ackQueue (rk_rel s) ≠ [] → (idleAck_loop transport fuel s).1 = Fault Diverges.
Proof.
  induction fuel as [|fuel IH]; intros s Hup Hen HM Hne; cbn [idleAck_loop];
    rewrite (bindE _ _ s (rl_ackQueue (rk_rel s)) s) by done; destruct (rl_ackQueue (rk_rel s)) as [|a queue0] eqn:Eq; try done.
  destruct (piggyback_spec Packet_new (getEffectiveMtu transport (ls_options (rk_link s))) (rk_rel s) lpReady_new Hen)
    as (taken & queue & q & E & Hqueue & Hacks & Hle & _). rewrite (ackSpace_limit transport (Some M)) in Hle by apply Hup.
  assert (taken = []) as ->.
  { destruct Hle as [?|Hle]; [done|]. destruct taken as [|x taken]; [done|]. exfalso. unfold ackSpace in Hle. cbn [ackLimit] in Hle.
    rewrite bool_decide_false in Hle by (unfold MTU_UNLIMITED; lia).
    assert (Wire_size (Packet_encodeWire Packet_new) = 2%nat) as E2 by done. rewrite E2 in Hle.
    change (sizeOfVarNumber (Z.of_nat 2)) with 1%nat in Hle. cbn [length] in Hle. lia. }
  destruct (sendLpPacket_safe transport (rk_now s) q (Some M) (rk_link s) (wa_ready _ _ _ Hacks) Hup) as (l & El & Ho & _).
  set (s1 := set_rk_link l (set_rk_rel (set_rl_ackQueue queue (rk_rel s)) s)).
  rewrite (bindE _ _ s tt s1).
  - apply IH; cbn; [by rewrite Ho|done|done|]. cbn in Hqueue. congruence.
  - by eapply sendLpPacketR_eq.
Qed.
