(* ===== verification/RelSafety.v ===== *)
(** * Safety of the link service with reliability on

    No event (a packet to send, a received element, a timer) makes an assertion
    fail or an iterator dangle, and retransmission comes to an end. *)

From S2P Require Import Prelude Tlv Encoding Packet LpPacket LpFragmenter LpReassembler GenericLinkService LinkSend.
From S2P Require Import RttEstimator LpReliability RelWindow RelInv ReliableLink RelAcks.
Local Open Scope Z_scope.

(** ** Retransmissions that are left *)

Definition fragBudget (maxRetx : Z) (f : UnackedFrag) : nat := S (Z.to_nat (maxRetx - uf_retxCount f)).
(** How often the fragments can still be lost. *)
Definition retxBudget (maxRetx : Z) (m : gmap Z UnackedFrag) : nat :=
  map_fold (fun _ f acc => (fragBudget maxRetx f + acc)%nat) 0%nat m.
Lemma retxBudget_insert maxRetx k f m :
  m !! k = None → retxBudget maxRetx (<[k := f]> m) = (fragBudget maxRetx f + retxBudget maxRetx m)%nat.
Proof. intros Hk. unfold retxBudget. rewrite map_fold_insert_L; [done| |done]. intros. lia. Qed.
Lemma retxBudget_delete maxRetx k f m :
  m !! k = Some f → retxBudget maxRetx m = (fragBudget maxRetx f + retxBudget maxRetx (delete k m))%nat.
Proof. intros Hk. rewrite <-(retxBudget_insert maxRetx k) by apply lookup_delete_eq. by rewrite insert_delete_id. Qed.
Lemma retxBudget_mono maxRetx m1 : ∀ m2, m1 ⊆ m2 → (retxBudget maxRetx m1 ≤ retxBudget maxRetx m2)%nat.
Proof.
  induction m1 as [|k f m1 Hk IH] using map_ind; intros m2 Hsub; [unfold retxBudget at 1; rewrite map_fold_empty; lia|].
  rewrite map_subseteq_spec in Hsub. rewrite retxBudget_insert by done.
  rewrite (retxBudget_delete maxRetx k f m2) by (apply Hsub, lookup_insert_eq).
  assert (retxBudget maxRetx m1 ≤ retxBudget maxRetx (delete k m2))%nat; [|lia]. apply IH, map_subseteq_spec.
  intros x fx Hx. rewrite lookup_delete_ne by congruence. apply Hsub. by rewrite lookup_insert_ne by congruence.
Qed.
Lemma retxBudget_alter maxRetx g k m : (∀ f, uf_retxCount (g f) = uf_retxCount f) → retxBudget maxRetx (alter g k m) = retxBudget maxRetx m.
Proof.
  intros Hg. destruct (m !! k) as [f|] eqn:E.
  - rewrite (alter_present k g f) by done. rewrite <-insert_delete_eq, retxBudget_insert, (retxBudget_delete _ k f m E) by apply lookup_delete_eq.
    unfold fragBudget. by rewrite Hg.
  - f_equal. apply map_eq. intros x. destruct (decide (x = k)) as [->|]; [by rewrite lookup_alter_eq, E|by rewrite lookup_alter_ne].
Qed.

(** ** Moving a fragment to a new number *)

Lemma nLive_alter g k s :
  (∀ f, uf_netPkt (g f) = uf_netPkt f) → nLive (set_rl_unackedFrags (alter g k (rl_unackedFrags s)) s) = nLive s.
Proof.
  intros Hg. unfold nLive. f_equal. apply liveNets_ext. intros x. cbn. destruct (decide (x = k)) as [->|]; [|by rewrite lookup_alter_ne].
  rewrite lookup_alter_eq. destruct (rl_unackedFrags s !! k); [|done]. cbn. by rewrite Hg.
Qed.

Section frags.
Context {C : NetCodec}.
Implicit Types s : LpReliability.

Definition movedFrag (t : Z) (r : NetPktRef) (frag : UnackedFrag) (pkt : Packet) : UnackedFrag :=
  set_uf_netPkt (Some r) (set_uf_retxCount (u64 (uf_retxCount frag + 1)) (UnackedFrag_new t pkt)).

Lemma moveFrag_spec t s k f r :
  rel_inv t {[k]} s → rl_unackedFrags s !! k = Some f → uf_netPkt f = Some r → uf_retxCount f < ro_maxRetx (rl_options s) →
  wpL (moveFrag t k f r) (fun k' s' => rel_inv t {[k']} s' ∧ k' ≠ k ∧ rl_unackedFrags s !! k' = None ∧ rl_options s' = rl_options s ∧
    nNets s' = nNets s ∧ nLive s' = nLive s ∧ ∃ pkt, storedFrag k' pkt ∧ rl_unackedFrags s' = <[k' := movedFrag t r f pkt]> (delete k (rl_unackedFrags s))) s.
Proof.
  intros Hi Hf Er Hretx. destruct (ri_net _ _ _ Hi k f Hf) as (r' & n & Er' & Hn & Hin & Hnk).
  assert (r' = r) as -> by congruence. destruct (ri_frag _ _ _ Hi k f Hf) as [[Hsq _] Htime Hcount].
  pose proof (ri_window _ _ _ Hi) as Hw. pose proof (ri_options _ _ _ Hi) as [_ Hmax]. unfold moveFrag.
  apply wpL_bind. eapply wpL_mono; [by apply takeTxSequence_spec|]. intros [k' pkt] s1 (-> & -> & Hst & _).
  set (k' := u64 (rl_lastTxSeqNo s + 1)) in *. apply wpL_bind, wpL_modify, wpL_bind.
  eapply wpL_mono; [apply (checkTxSequence_spec (set_rl_unackedFrags (alter (set_uf_pkt pkt) k (rl_unackedFrags s)) (set_rl_lastTxSeqNo k' s)))|].
  { pose proof (wi_first _ _ _ Hw) as H1. cbn. destruct (rl_firstUnackedFrag s) as [f1|]; [|rewrite H1, lookup_empty in Hf; done].
    destruct (decide (f1 = k)) as [->|]; [rewrite lookup_alter_eq, Hf; eauto|by rewrite lookup_alter_ne]. }
  intros [] ? [-> Hfirst]. cbn in Hfirst. pose proof (window_fresh _ _ _ Hw Hfirst) as Hk'. fold k' in Hk'.
  assert (k' ≠ k) as Hne by congruence.
  destruct (NoDup_split k _ (nk_nodup _ _ _ Hnk) Hin) as (l1 & l2 & El & Hl1 & _).
  apply wpL_bind, wpL_modify, wpL_bind, wpL_modify, wpL_bind, wpL_modify.
  cbn [rl_unackedFrags rl_netPkts set_rl_unackedFrags set_rl_netPkts set_rl_lastTxSeqNo].
  set (m1 := alter (set_uf_pkt pkt) k (rl_unackedFrags s)). unfold tryEmplace.
  assert (m1 !! k' = None) as Hm1 by (unfold m1; by rewrite lookup_alter_ne). rewrite Hm1. cbn [rl_unackedFrags set_rl_unackedFrags].
  rewrite alter_insert_eq. fold (movedFrag t r f pkt). rewrite (alter_present r _ n) by done.
  apply wpL_bind. unfold netPktAt. apply wpL_bind, (wpL_deref _ r); [done|].
  apply wpL_bind, wpL_get, (wpL_deref _ (set_np_didRetx true n)); [cbn; by rewrite lookup_insert_eq|].
  apply wpL_bind, wpL_assert; [by apply bool_decide_eq_true|]. apply wpL_bind, wpL_modify.
  cbn [rl_netPkts set_rl_unackedFrags set_rl_netPkts set_rl_lastTxSeqNo]. rewrite alter_insert_eq. cbn [np_unackedFrags set_np_didRetx].
  rewrite El, updateFirst_split by done. set (rest := l1 ++ k' :: l2).
  destruct (rel_inv_addFrag t {[k]} {[k; k']} s (movedFrag t r f pkt) r n (mkNetPkt (k :: rest) (np_pkt n) (np_isInterest n) true)) as [Hadd _];
    [done|done| |done|fold k'; set_solver|set_solver|done|done| |done|done|].
  { fold k'. split; cbn; [done|lia|]. rewrite u64_small by lia. lia. }
  { cbn. fold k'. rewrite El. unfold rest. rewrite <-app_assoc. cbn. rewrite <-!Permutation_middle. by rewrite app_nil_r. }
  apply wpL_bind. eapply wpL_mono.
  { apply deleteUnackedFrag_without; [|cbn; unfold m1; rewrite lookup_insert_ne, lookup_alter_eq, Hf by done; eauto].
    pose proof (ri_window _ _ _ Hadd) as Hw2. cbn in Hw2 |- *. fold k' in Hw2.
    pose proof (wi_first _ _ _ Hw) as H1. destruct (rl_firstUnackedFrag s); [|rewrite H1, lookup_empty in Hf; done].
    eapply window_same; [|exact Hw2]. intros x. rewrite !lookup_insert_is_Some. unfold m1.
    destruct (decide (x = k)) as [->|]; [rewrite lookup_alter_eq, fmap_is_Some|rewrite lookup_alter_ne by done]; done. }
  intros [] s' Hs'. apply wpL_ret.
  assert (rl_unackedFrags s' = <[k' := movedFrag t r f pkt]> (delete k (rl_unackedFrags s))) as Em.
  { apply map_eq. intros x. rewrite (wo_lookup _ _ _ Hs'). cbn.
    case_bool_decide as Hx; [apply list_elem_of_singleton in Hx as ->; by rewrite lookup_insert_ne, lookup_delete_eq|].
    destruct (decide (x = k')) as [->|]; [by rewrite !lookup_insert_eq|]. rewrite !lookup_insert_ne by done. unfold m1.
    rewrite lookup_alter_ne, lookup_delete_ne; [done|set_solver..]. }
  split; [|split_and!; [done|done|by destruct Hs' as [_ _ (? & ? & ->)]| | |by exists pkt]].
  - eapply (rel_inv_unlist t {[k; k']} {[k']} _ s' k f r (mkNetPkt (k :: rest) (np_pkt n) (np_isInterest n) true) rest Hadd); try done.
    + cbn. fold k'. by rewrite lookup_insert_ne.
    + cbn. by rewrite lookup_insert_eq.
    + set_solver.
    + destruct Hs' as [W1 W2 (m' & first' & ->)]. split; [|done|].
      * intros x. rewrite W1. cbn. fold k'. case_bool_decide as Hx; [done|]. destruct (decide (x = k')) as [->|]; [by rewrite !lookup_insert_eq|].
        rewrite !lookup_insert_ne by done. unfold m1. rewrite lookup_alter_ne; [done|]. set_solver.
      * exists m', first'. cbn. fold k'. by rewrite alter_insert_eq.
  - destruct Hs' as [_ _ (? & ? & ->)]. unfold nNets. cbn. by rewrite map_size_insert_Some by eauto.
  - unfold nLive. f_equal. rewrite Em, (liveNets_insert _ _ _ r); [|by rewrite lookup_delete_ne|done].
    apply set_eq. intros x. rewrite elem_of_union, elem_of_singleton, !elem_of_liveNets. split.
    + intros [(x' & fx & [? ?]%lookup_delete_Some & ?)| ->]; eauto.
    + intros (x' & fx & Hx & Ex). destruct (decide (x' = k)) as [->|]; [right; congruence|]. left. exists x', fx. by rewrite lookup_delete_ne.
Qed.

(** ** Giving up a network packet *)

Lemma deleteOthers_spec k l : ∀ s,
  window (rl_unackedFrags s) (rl_firstUnackedFrag s) (rl_lastTxSeqNo s) → NoDup l →
  (∀ x, x ∈ l → is_Some (rl_unackedFrags s !! x)) →
  wpL (deleteOthers k l) (fun removed s' => lacking removed s s' ∧ ∀ x, x ∈ removed ↔ x ∈ l ∧ x ≠ k) s.
Proof.
  induction l as [|x l IH]; intros s Hw Hnd Hl; cbn [deleteOthers].
  { split; [by apply without_nil|]. set_solver. }
  apply NoDup_cons in Hnd as [Hx Hnd]. case_bool_decide as Hxk.
  - destruct (Hl x) as [f Hf]; [by left|]. apply wpL_bind. unfold fragAt. apply wpL_bind, wpL_get, (wpL_deref _ f); [done|].
    apply wpL_bind. eapply wpL_mono; [apply deleteUnackedFrag_without; eauto|]. intros [] s1 H1.
    apply wpL_bind. eapply wpL_mono; [apply (IH s1)|].
    + apply (wo_window _ _ _ H1).
    + done.
    + intros y Hy. rewrite (wo_lookup _ _ _ H1), bool_decide_false by set_solver. apply Hl. by right.
    + intros removed s2 [H2 Hr]. apply wpL_ret. split; [exact (without_trans [x] removed _ _ _ H1 H2)|]. intros y.
      rewrite !elem_of_cons, Hr. naive_solver.
  - eapply wpL_mono; [apply (IH s Hw Hnd); intros y Hy; apply Hl; by right|]. intros removed s' [H1 Hr]. split; [done|].
    intros y. rewrite Hr, elem_of_cons. naive_solver.
Qed.

(** All fragments of a network packet are gone. *)
Lemma without_netPkt t s s' k f r n K :
  rel_inv t {[k]} s → rl_unackedFrags s !! k = Some f → uf_netPkt f = Some r → rl_netPkts s !! r = Some n →
  (∀ x, x ∈ K ↔ x ∈ np_unackedFrags n) → lacking K s s' →
  rel_inv t ∅ s' ∧ nLive s = S (nLive s') ∧ nNets s' = nNets s ∧ rl_unackedFrags s' ⊆ delete k (rl_unackedFrags s).
Proof.
  intros Hi Hf Er Hn HK Hwo. destruct (ri_net _ _ _ Hi k f Hf) as (r' & n' & Er' & Hn' & Hin & Hnk).
  assert (r' = r) as -> by congruence. assert (n' = n) as -> by congruence.
  assert (∀ x fx, rl_unackedFrags s !! x = Some fx → x ∈ K ↔ uf_netPkt fx = Some r) as HKr.
  { intros x fx Hx. rewrite HK. split.
    - intros Hl. destruct (nk_listed _ _ _ Hnk x Hl) as (f' & Hf' & E'). congruence.
    - intros E. destruct (ri_net _ _ _ Hi x fx Hx) as (r2 & n2 & ? & ? & ? & _). by assert (n2 = n) as -> by congruence. }
  split_and!.
  - apply (rel_inv_timed _ {[k]}).
    + eapply rel_inv_without; [exact Hi|done|]. intros k1 k2 f1 f2 r1 H1 Hf1 Hf2 E1 E2.
      apply (HKr k2 f2 Hf2). apply (HKr k1 f1 Hf1) in H1. congruence.
    + intros x ->%elem_of_singleton. rewrite (wo_lookup _ _ _ Hwo), bool_decide_true; [done|]. by apply HK.
  - unfold nLive. assert (liveNets (rl_unackedFrags s') = liveNets (rl_unackedFrags s) ∖ {[r]}) as ->.
    { apply set_eq. intros x. rewrite elem_of_difference, elem_of_singleton, !elem_of_liveNets. split.
      - intros (x' & fx & Hx & Ex). rewrite (wo_lookup _ _ _ Hwo) in Hx. case_bool_decide as Hx'; [done|].
        split; [eauto|]. intros ->. apply Hx'. by apply (HKr x' fx).
      - intros [(x' & fx & Hx & Ex) Hne]. exists x', fx. split; [|done]. rewrite (wo_lookup _ _ _ Hwo), bool_decide_false; [done|].
        rewrite (HKr x' fx Hx). congruence. }
    assert ({[r]} ⊆ liveNets (rl_unackedFrags s)) as Hsub by (intros x ->%elem_of_singleton; apply elem_of_liveNets; eauto).
    pose proof (subseteq_size _ _ Hsub) as Hsz. rewrite size_difference, size_singleton by done. rewrite size_singleton in Hsz. lia.
  - by destruct Hwo as [_ _ (? & ? & ->)].
  - apply map_subseteq_spec. intros x fx. rewrite (wo_lookup _ _ _ Hwo). case_bool_decide as Hx; [done|].
    intros ?. rewrite lookup_delete_ne; [done|]. rewrite HK in Hx. congruence.
Qed.
End frags.

(** ** The link *)

Section link.
Context {C : NetCodec} (transport : Transport) (mtu : option nat).
Implicit Types s : ReliableLink C.

(** Frames of the usual size, or no limit. *)
Definition mtuEnough : Prop := match mtu with Some M => MIN_MTU ≤ Z.of_nat M | None => True end.
(** Every network packet that was handed to reliability is acknowledged, given up
    or in flight; the counters have 64 bits. *)
Definition accounted (counters : RelCounter → Z) (rel : LpReliability) : Prop :=
  u64 (counters nAcknowledged + counters nRetransmitted + counters nRetxExhausted + Z.of_nat (nLive rel)) = u64 (Z.of_nat (nNets rel)).
Record link_inv (X : gset Z) s : Prop := {
  li_rel : rel_inv (rk_now s) X (rk_rel s);
  li_up : linkUp transport (ls_options (rk_link s)) mtu;
  li_limit : mtuEnough;
  li_reassembler : Reassembler_ok (ls_reassembler (rk_link s));
  li_safe : announcementsSafe (C := C) (ls_options (rk_link s));
  li_account : accounted (rk_counters s) (rk_rel s);
  li_trace : rk_trace s = false
}.
Lemma link_inv_enabled X s : link_inv X s → ro_isEnabled (rl_options (rk_rel s)) = true.
Proof. intros Hi. apply (ri_options _ _ _ (li_rel _ _ Hi)). Qed.
Lemma link_inv_sent X s s' : link_inv X s → sentOnly s s' → link_inv X s'.
Proof.
  intros [H1 H2 H3 H4 H5 H6 H7] (l & queue & taken & -> & _ & Ho & Hr). split; cbn; [by apply rel_inv_ackQueue|by rewrite Ho|done|by rewrite Hr|by rewrite Ho|exact H6|exact H7].
Qed.
Lemma link_inv_rel X X' s rel :
  link_inv X s → rel_inv (rk_now s) X' rel → nLive rel = nLive (rk_rel s) → nNets rel = nNets (rk_rel s) → link_inv X' (set_rk_rel rel s).
Proof. intros [H1 H2 H3 H4 H5 H6 H7] Hr El En. split; try done. unfold accounted. cbn. rewrite El, En. exact H6. Qed.
(** A network packet more. *)
Lemma link_inv_outgoing s rel :
  link_inv ∅ s → rel_inv (rk_now s) ∅ rel → nLive rel = S (nLive (rk_rel s)) → nNets rel = S (nNets (rk_rel s)) → link_inv ∅ (set_rk_rel rel s).
Proof.
  intros [H1 H2 H3 H4 H5 H6 H7] Hr El En. split; try done. unfold accounted, u64 in *. cbn. rewrite El, En, !Nat2Z.inj_succ.
  rewrite <-!Z.add_1_r, Z.add_assoc. rewrite <-Zplus_mod_idemp_l, H6. apply Zplus_mod_idemp_l.
Qed.
(** A network packet leaves and is counted. *)
Lemma accounted_count c counters counters' rel rel' :
  accounted counters rel → nLive rel = S (nLive rel') → nNets rel' = nNets rel →
  (c = nAcknowledged ∨ c = nRetransmitted ∨ c = nRetxExhausted) →
  (∀ c', counters' c' = if decide (c' = c) then u64 (counters c' + 1) else counters c') → accounted counters' rel'.
Proof.
  assert (∀ x y z, z = (x mod 2 ^ 64) + y → z mod 2 ^ 64 = (x + y) mod 2 ^ 64) as Hmod by (intros x y z ->; apply Zplus_mod_idemp_l).
  unfold accounted, u64. intros Ha El En Hc E. rewrite En, <-Ha, El, !E. set (a := counters nAcknowledged).
  set (b := counters nRetransmitted). set (d := counters nRetxExhausted).
  destruct Hc as [->|[->| ->]]; repeat case_decide; try done.
  - rewrite (Hmod (a + 1) (b + d + Z.of_nat (nLive rel'))) by (unfold u64, a; lia). f_equal. lia.
  - rewrite (Hmod (b + 1) (a + d + Z.of_nat (nLive rel'))) by (unfold u64, b; lia). f_equal. lia.
  - rewrite (Hmod (d + 1) (a + b + Z.of_nat (nLive rel'))) by (unfold u64, d; lia). f_equal. lia.
Qed.
Lemma link_inv_counters X s c :
  link_inv X s → (∀ c', c' ≠ nDuplicateSequence → c c' = rk_counters s c') → link_inv X (set_rk_counters c s).
Proof. intros [H1 H2 H3 H4 H5 H6 H7] Hc. split; try done. unfold accounted in *. cbn. by rewrite !Hc. Qed.
Lemma link_inv_dropped X s l : link_inv X s → link_inv X (set_rk_dropped l s).
Proof. by intros []. Qed.
Lemma link_inv_now X s t : rk_now s ≤ t → link_inv X s → link_inv X (set_rk_now t s).
Proof. intros Ht [H1 H2 H3 H4 H5 H6 H7]. split; cbn; [by eapply rel_inv_later|done..]. Qed.
Lemma link_inv_link X s l :
  link_inv X s → ls_options l = ls_options (rk_link s) → Reassembler_ok (ls_reassembler l) → link_inv X (set_rk_link l s).
Proof. intros [H1 H2 H3 H4 H5 H6 H7] Ho Hr. split; cbn; [done|by rewrite Ho|done|done|by rewrite Ho|done|done]. Qed.

Abbreviation frags s := (rl_unackedFrags (rk_rel s)).
Abbreviation maxRetxOf s := (ro_maxRetx (rl_options (rk_rel s))).

(** A loss takes its fragment away; of the others only those that are returned
    can go. *)
Record lossOutcome s (removed : list Z) s' : Prop := {
  lo_inv : link_inv ∅ s';
  lo_kept x : is_Some (frags s !! x) → x ∉ removed → is_Some (frags s' !! x);
  lo_budget : (retxBudget (maxRetxOf s) (frags s') < retxBudget (maxRetxOf s) (frags s))%nat;
  lo_options : rl_options (rk_rel s') = rl_options (rk_rel s);
  lo_now : rk_now s' = rk_now s
}.

(** The first lines of [onLpPacketLost], with the timer stopped. *)
Lemma stop_timer X s k :
  link_inv X s → link_inv (X ∪ {[k]}) (set_rk_rel (set_rl_unackedFrags (alter (set_uf_rtoTimer None) k (frags s)) (rk_rel s)) s).
Proof.
  intros Hi. eapply link_inv_rel; [done| |by apply nLive_alter|done].
  eapply rel_inv_alter; [apply (li_rel _ _ Hi)|done|set_solver|set_solver].
Qed.

Lemma giveUp_spec k f r n s :
  link_inv {[k]} s → frags s !! k = Some f → uf_netPkt f = Some r → rl_netPkts (rk_rel s) !! r = Some n →
  wpL (giveUp k n) (fun removed s' => lossOutcome s removed s') s.
Proof.
  intros Hi Hf Er Hn. destruct (ri_net _ _ _ (li_rel _ _ Hi) k f Hf) as (r' & n' & Er' & Hn' & Hin & Hnk).
  assert (r' = r) as -> by congruence. assert (n' = n) as -> by congruence. pose proof (ri_window _ _ _ (li_rel _ _ Hi)) as Hw. unfold giveUp.
  apply wpL_bind, wpL_onRel. eapply wpL_mono.
  { apply (deleteOthers_spec k (np_unackedFrags n)); [done|by destruct Hnk|]. intros x Hx. destruct (nk_listed _ _ _ Hnk x Hx) as (fx & ? & _). eauto. }
  intros removed rel1 [Hwo Hrem]. apply wpL_bind, wpL_modify. match goal with |- wpL _ _ (set_rk_counters ?c _) => set (c0 := c) end.
  apply wpL_bind. eapply (wpL_mono _ (fun _ s' => ∃ d, s' = set_rk_dropped d (set_rk_counters c0 (set_rk_rel rel1 s)))).
  { destruct (np_isInterest n) eqn:Ei; [|apply wpL_ret; by exists (rk_dropped s)].
    destruct (nk_interest _ _ _ Hnk Ei) as (frag & w & i & Hhas & Hget & Hspan & Hdec).
    apply wpL_bind, wpL_assert; [done|]. apply wpL_bind, (wpL_lift _ frag); [done|]. apply wpL_bind, (wpL_lift _ w); [done|].
    apply wpL_bind, (wpL_lift _ i); [done|]. apply wpL_modify. by exists (rk_dropped s ++ [i]). }
  intros [] s1 (d & ->). apply wpL_bind, wpL_onRel. cbn [rk_rel set_rk_dropped set_rk_counters set_rk_rel].
  eapply wpL_mono.
  { apply deleteUnackedFrag_without; [apply (wo_window _ _ _ Hwo)|]. rewrite (wo_lookup _ _ _ Hwo), bool_decide_false; [eauto|]. rewrite Hrem. tauto. }
  intros [] rel2 Hwo2. apply wpL_ret. pose proof (without_trans _ _ _ _ _ Hwo Hwo2) as Hall.
  assert (∀ x, x ∈ removed ++ [k] ↔ x ∈ np_unackedFrags n) as HK.
  { intros x. rewrite elem_of_app, Hrem, list_elem_of_singleton. destruct (decide (x = k)) as [->|]; naive_solver. }
  assert (rl_options rel2 = rl_options (rk_rel s)) as Ho by (by destruct Hall as [_ _ (? & ? & ->)]).
  destruct (without_netPkt _ _ _ k f r n _ (li_rel _ _ Hi) Hf Er Hn HK Hall) as (Hi2 & Elive & Enets & Hsub).
  split; cbn; [|intros x ? Hx; rewrite (wo_lookup _ _ _ Hall); by rewrite bool_decide_false| |done|done].
  - destruct Hi as [H1 H2 H3 H4 H5 H6 H7]. split; try done. cbn. by apply (accounted_count nRetxExhausted (rk_counters s) _ (rk_rel s)); auto.
  - pose proof (retxBudget_mono (maxRetxOf s) _ _ Hsub). rewrite (retxBudget_delete _ k f (frags s) Hf). unfold fragBudget. lia.
Qed.

Lemma onLpPacketLost_spec s k :
  link_inv ∅ s → is_Some (frags s !! k) → wpL (onLpPacketLost transport k) (fun removed s' => lossOutcome s removed s') s.
Proof.
  intros Hi [f Hf]. unfold onLpPacketLost. apply wpL_bind, wpL_get, wpL_bind, wpL_get, wpL_bind, wpL_assert; [apply bool_decide_eq_true; eauto|].
  apply wpL_bind, wpL_onRel, wpL_modify. pose proof (stop_timer ∅ s k Hi) as Hi1. rewrite (left_id_L ∅ (∪)) in Hi1.
  set (s1 := set_rk_rel (set_rl_unackedFrags (alter (set_uf_rtoTimer None) k (frags s)) (rk_rel s)) s) in *.
  assert (frags s1 !! k = Some (set_uf_rtoTimer None f)) as Hf1 by (cbn; by rewrite lookup_alter_eq, Hf).
  assert (∀ x, is_Some (frags s !! x) → is_Some (frags s1 !! x)) as Hs1.
  { intros x. cbn. destruct (decide (x = k)) as [->|]; [by rewrite lookup_alter_eq, fmap_is_Some|by rewrite lookup_alter_ne]. }
  assert (retxBudget (maxRetxOf s) (frags s1) = retxBudget (maxRetxOf s) (frags s)) as Eb by (by apply retxBudget_alter).
  set (f1 := set_uf_rtoTimer None f) in *. destruct (ri_net _ _ _ (li_rel _ _ Hi1) k f1 Hf1) as (r & n & Er & Hn & Hin & Hnk).
  apply wpL_bind, wpL_onRel. unfold fragAt. apply wpL_bind, wpL_get, (wpL_deref _ f1); [done|]. change (set_rk_rel (rk_rel s1) s1) with s1.
  apply wpL_bind, (wpL_deref _ r); [done|]. apply wpL_bind, wpL_onRel. unfold netPktAt. apply wpL_bind, (wpL_deref _ r); [done|].
  apply wpL_bind, wpL_get, (wpL_deref _ n); [done|]. change (set_rk_rel (rk_rel s1) s1) with s1.
  destruct (ri_frag _ _ _ (li_rel _ _ Hi1) k f1 Hf1) as [[Hsq _] _ Hcount]. destruct (sequencedFrag_has _ Hsq) as [_ [seq Hseq]].
  apply wpL_bind, (wpL_lift _ seq); [done|]. apply wpL_bind, wpL_get. case_bool_decide as Hmax.
  - eapply wpL_mono; [by apply (giveUp_spec k f1 r n s1)|]. intros removed s' [L1 L2 L3 L4 L5]. split; [done|auto| |done|done].
    cbn in L3 |- *. rewrite <-Eb. exact L3.
  - apply wpL_bind, wpL_onRel. eapply wpL_mono; [apply (moveFrag_spec (rk_now s) (rk_rel s1) k f1 r (li_rel _ _ Hi1) Hf1 Er); cbn in Hmax |- *; lia|].
    intros k' rel2 (Hi2 & Hne & Hk' & Ho & En & El & pkt & Hst & Hm). pose proof (link_inv_rel _ _ s1 rel2 Hi1 Hi2 El En) as Hl2.
    set (s2 := set_rk_rel rel2 s1) in *. set (f2 := movedFrag (rk_now s) r f1 pkt) in *.
    assert (frags s2 !! k' = Some f2) as Hf2 by (cbn; by rewrite Hm, lookup_insert_eq).
    apply wpL_bind, wpL_onRel. unfold fragAt. apply wpL_bind, wpL_get, (wpL_deref _ f2); [done|]. change (set_rk_rel (rk_rel s2) s2) with s2.
    apply wpL_bind. eapply wpL_mono.
    { apply (sendLpPacketR_safe transport (uf_pkt f2) mtu s2); [apply sequencedFrag_ready, Hst|apply (li_up _ _ Hl2)|by eapply link_inv_enabled]. }
    intros [] s3 Hsent. pose proof (link_inv_sent _ _ _ Hl2 Hsent) as Hl3. destruct Hsent as (l & queue & taken & -> & _ & _ & _).
    set (s3 := set_rk_link l (set_rk_rel (set_rl_ackQueue queue (rk_rel s2)) s2)) in *.
    apply wpL_bind, wpL_get, wpL_bind. unfold traceRetx. apply wpL_bind, wpL_get. change (rk_trace s3) with (rk_trace s).
    rewrite (li_trace _ _ Hi). apply wpL_ret, wpL_bind, wpL_onRel, wpL_modify, wpL_ret.
    assert (frags s3 = <[k' := f2]> (delete k (frags s1))) as Em3 by exact Hm.
    split.
    + eapply link_inv_rel; [done| |by apply nLive_alter|done]. eapply rel_inv_alter; [apply (li_rel _ _ Hl3)|done|by eexists|set_solver].
    + intros x Hx Hxk. cbn [rk_rel set_rk_rel rl_unackedFrags set_rl_unackedFrags]. rewrite Em3. apply Hs1 in Hx.
      destruct (decide (x = k')) as [->|]; [by rewrite lookup_alter_eq, lookup_insert_eq|].
      rewrite lookup_alter_ne, lookup_insert_ne, lookup_delete_ne by set_solver. done.
    + cbn [rk_rel set_rk_rel rl_unackedFrags set_rl_unackedFrags]. rewrite retxBudget_alter by done. rewrite Em3, <-Eb.
      rewrite retxBudget_insert by (rewrite lookup_delete_ne by done; exact Hk'). rewrite (retxBudget_delete _ k f1 (frags s1) Hf1).
      pose proof (ri_options _ _ _ (li_rel _ _ Hi)) as [_ HM]. cbn in Hmax, Hcount.
      unfold fragBudget, f2, f1. cbn. rewrite u64_small by lia. lia.
    + exact Ho.
    + done.
Qed.
End link.
