(* ===== verification/RelEvents.v ===== *)
(** * The events of a reliable link

    Sending, receiving and the timers keep the invariant of [RelSafety], one
    after the other in any order; the timers of a silent peer come to an end. *)

From S2P Require Import Prelude Tlv Encoding Packet LpPacket LpFragmenter LpReassembler GenericLinkService LinkSend.
From S2P Require Import RttEstimator LpReliability RelWindow RelInv ReliableLink RelAcks RelSafety.
Local Open Scope Z_scope.

(** The budget depends on the retransmission counts only. *)
Lemma retxBudget_counts maxRetx m :
  retxBudget maxRetx m = map_fold (fun _ c acc => (S (Z.to_nat (maxRetx - c)) + acc)%nat) 0%nat (uf_retxCount <$> m).
Proof. unfold retxBudget. by rewrite map_fold_fmap. Qed.
Lemma retxBudget_ext maxRetx m m' :
  (∀ k, uf_retxCount <$> m !! k = uf_retxCount <$> m' !! k) → retxBudget maxRetx m = retxBudget maxRetx m'.
Proof. intros H. rewrite !retxBudget_counts. f_equal. apply map_eq. intros k. by rewrite !lookup_fmap. Qed.

(** Faults of the accessors. *)
Lemma wpE_of_wpL {S A} `{Exhausted S} (m : ME S A) Q (R : outcome A → S → Prop) s :
  wpL m Q s → (∀ a s', Q a s' → R (Ok a) s') → (∀ s', exhausted s' → R (Fault (Throw LengthError)) s') → wpE m R s.
Proof. unfold wpL, wpE. destruct (m s) as [[a|f] s']; cbn; [auto|intros [-> ?]; auto]. Qed.
Lemma F_decode_throws {A} (F : FieldDecl A) `{!FieldThrows F} b f : F_decode F b = Fault f → isTlvError f = true.
Proof. unfold F_decode. case_bool_decide; [by intros [= <-]|apply field_throws]. Qed.
Lemma Packet_list_throws {A} (F : FieldDecl A) `{!FieldThrows F} p f : Packet_list F p = Fault f → isTlvError f = true.
Proof.
  unfold Packet_list. generalize (@nil A). induction (p_elements p) as [|e els IH]; intros out; cbn [list_loop]; [done|].
  destruct (isField F e); [|apply IH]. destruct (F_decode F e) as [v|g] eqn:E; cbn; [apply IH|]. intros [= <-]. by eapply F_decode_throws.
Qed.
Lemma Packet_get_throws {A} (F : FieldDecl A) `{!FieldThrows F} p f :
  Packet_has F p = true → Packet_get F p = Fault f → isTlvError f = true.
Proof.
  rewrite Packet_has_fields, Packet_get_fields. destruct (fieldsAt _ _) as [|b l]; [done|]. intros _ Hg. by eapply F_decode_throws.
Qed.

Section events.
Context {C : NetCodec} (transport : Transport) (mtu : option nat).
Implicit Types s : ReliableLink C.
Abbreviation link_inv := (link_inv transport mtu).
Abbreviation frags s := (rl_unackedFrags (rk_rel s)).
Abbreviation maxRetxOf s := (ro_maxRetx (rl_options (rk_rel s))).
Abbreviation budget s := (retxBudget (maxRetxOf s) (frags s)).

(** ** Acks *)

(** What everything but sending a network packet does. *)
Record quietStep s s' : Prop := {
  qs_inv : link_inv ∅ s';
  qs_budget : (budget s' ≤ budget s)%nat;
  qs_options : rl_options (rk_rel s') = rl_options (rk_rel s);
  qs_now : rk_now s' = rk_now s
}.
Lemma quietStep_refl s : link_inv ∅ s → quietStep s s.
Proof. by split. Qed.
Lemma quietStep_trans s1 s2 s3 : quietStep s1 s2 → quietStep s2 s3 → quietStep s1 s3.
Proof. intros [? ? E1 ?] [? ? E2 ?]. split; [done|lia|congruence|congruence]. Qed.
Lemma quietStep_rel s rel :
  link_inv ∅ s → rel_inv (rk_now s) ∅ rel → rl_unackedFrags rel = frags s → rl_netPkts rel = rl_netPkts (rk_rel s) →
  rl_options rel = rl_options (rk_rel s) → quietStep s (set_rk_rel rel s).
Proof.
  intros Hi Hr Hm Hn Ho. split; cbn; [|by rewrite Hm, Ho|done|done].
  eapply link_inv_rel; [done|done|unfold nLive; by rewrite Hm|unfold nNets; by rewrite Hn].
Qed.

Lemma resendLost_spec lost : ∀ removed s,
  link_inv ∅ s → (∀ x, x ∈ lost → x ∉ removed → is_Some (frags s !! x)) →
  wpL (resendLost transport lost removed) (fun _ s' => quietStep s s') s.
Proof.
  induction lost as [|x lost IH]; intros removed s Hi Hl; cbn [resendLost]; [by apply quietStep_refl|].
  case_bool_decide as Hx; [apply IH; [done|]; intros y ?; apply Hl; by right|].
  apply wpL_bind. eapply wpL_mono; [apply (onLpPacketLost_spec transport mtu s x Hi); apply Hl; [by left|done]|].
  intros removed' s1 [L1 L2 L3 L4 L5]. eapply wpL_mono.
  - apply IH; [done|]. intros y Hy Hyr. apply L2; [apply Hl; [by right|set_solver]|set_solver].
  - intros [] s2 H2. apply (quietStep_trans s s1); [|done]. split; [done|rewrite L4; lia|done|done].
Qed.

Lemma bump_budget maxRetx first d m : retxBudget maxRetx (bumpBefore first d m) = retxBudget maxRetx m.
Proof. apply retxBudget_ext. intros k. rewrite lookup_bumpBefore. destruct (m !! k); [|done]. cbn. by case_bool_decide. Qed.

Lemma nLive_bump first d m : liveNets (bumpBefore first d m) = liveNets m.
Proof. apply liveNets_ext. intros k. rewrite lookup_bumpBefore. destruct (m !! k); [|done]. cbn. by case_bool_decide. Qed.

Lemma processAck_spec s ack : link_inv ∅ s → wpL (processAck transport ack) (fun _ s' => quietStep s s') s.
Proof.
  intros Hi. unfold processAck. apply wpL_bind, wpL_get, wpL_bind, wpL_get. destruct (frags s !! ack) as [frag|] eqn:Hf; [|by apply quietStep_refl].
  apply wpL_bind, wpL_onRel, wpL_modify. pose proof (stop_timer transport mtu ∅ s ack Hi) as Hi1. rewrite (left_id_L ∅ (∪)) in Hi1.
  set (s1 := set_rk_rel (set_rl_unackedFrags (alter (set_uf_rtoTimer None) ack (frags s)) (rk_rel s)) s) in *.
  assert (is_Some (frags s1 !! ack)) as Hs1 by (cbn; rewrite lookup_alter_eq, Hf; eauto).
  assert (budget s1 = budget s) as Eb by (by apply retxBudget_alter).
  apply wpL_bind. eapply (wpL_mono _ (fun _ s2 => ∃ r, rtt_ok r ∧ s2 = set_rk_rel (set_rl_rttEst r (rk_rel s1)) s1)).
  { pose proof (ri_rtt _ _ _ (li_rel _ _ _ _ Hi1)) as Hr. case_bool_decide; [|exists (rl_rttEst (rk_rel s1)); by destruct s as [[]]].
    apply wpL_bind, wpL_get. destruct (ri_frag _ _ _ (li_rel _ _ _ _ Hi) ack frag Hf) as [_ Ht _].
    destruct (addMeasurement_ok (rk_now s - uf_sendTime frag) (rl_rttEst (rk_rel s1)) Hr) as (r' & E & Hr' & _); [lia|].
    apply wpL_bind, (wpL_lift _ r'); [done|]. apply wpL_onRel, wpL_modify. by exists r'. }
  intros [] s2 (r & Hr & ->). set (rel2 := set_rl_rttEst r (rk_rel s1)).
  assert (rel_inv (rk_now s) {[ack]} rel2) as Hi2 by (apply rel_inv_rttEst; [done|apply (li_rel _ _ _ _ Hi1)]).
  destruct (rel_inv_first _ _ rel2 ack Hi2 Hs1) as [first Efirst].
  pose proof (ri_window _ _ _ Hi2) as Hw. rewrite Efirst in Hw.
  destruct (findLost_spec rel2 first ack Efirst Hw Hs1) as (lost & Elost & Hlost & _).
  apply wpL_bind, wpL_onRel, (wpL_run _ _ _ _ _ Elost).
  set (rel3 := set_rl_unackedFrags (bumpBefore first (dist first ack) (rl_unackedFrags rel2)) rel2) in *.
  assert (rel_inv (rk_now s) {[ack]} rel3) as Hi3 by (by apply rel_inv_bump).
  apply wpL_bind, wpL_onRel. eapply wpL_mono.
  { apply (onLpPacketAcknowledged_spec (rk_now s) {[ack]} rel3 ack); [done|by apply is_Some_bumpBefore|done]. }
  intros counter rel4 (Hi4 & Em & Ho & En & Hcount). set (s4 := set_rk_rel rel4 s).
  assert (nLive rel3 = nLive (rk_rel s)) as El3.
  { rewrite <-(nLive_alter (set_uf_rtoTimer None) ack (rk_rel s)) by done. unfold nLive, rel3. cbn. by rewrite nLive_bump. }
  apply wpL_bind. eapply (wpL_mono _ (fun _ s5 => ∃ c, s5 = set_rk_counters c s4 ∧ link_inv ∅ s5)).
  { destruct Hi as [I1 I2 I3 I4 I5 I6 I7]. destruct counter as [c|].
    - apply wpL_modify. match goal with |- ∃ _, set_rk_counters ?c0 _ = _ ∧ _ => exists c0 end. split; [done|]. split; try done. cbn.
      destruct Hcount as [Hc El]. apply (accounted_count c (rk_counters s) _ (rk_rel s)); [done|congruence|exact En|naive_solver|done].
    - apply wpL_ret. exists (rk_counters s). split; [done|]. split; try done. unfold accounted in *. cbn. rewrite Hcount, El3, En. exact I6. }
  intros [] s5 (c & -> & Hl4). assert (quietStep s (set_rk_counters c s4)) as H4.
  { split; [done| |done|done]. cbn [rk_rel s4 set_rk_rel set_rk_counters]. rewrite Ho, Em. etrans; [|apply Nat.eq_le_incl; exact Eb].
    rewrite <-(bump_budget _ first (dist first ack) (frags s1)). apply retxBudget_mono, delete_subseteq. }
  eapply wpL_mono; [apply resendLost_spec; [done|]|].
  { intros x Hx _. apply Hlost in Hx as [(f & Hfx & _) Hd]. cbn [rk_rel s4 set_rk_rel set_rk_counters].
    rewrite Em, lookup_delete_ne by (intros ->; lia). apply is_Some_bumpBefore. by exists f. }
  intros [] s6 H6. by eapply quietStep_trans.
Qed.

(** ** Receiving *)

(** The element is processed, or not well-formed. *)
Definition received {A} s (r : outcome A) s' : Prop :=
  match r with
  | Ok _ => quietStep s s'
  | Fault f => f = Throw LengthError ∧ exhausted s' ∨ isTlvError f = true ∧ quietStep s s'
  end.
Lemma received_trans {A} s1 s2 (r : outcome A) s3 : quietStep s1 s2 → received s2 r s3 → received s1 r s3.
Proof. intros H1. destruct r as [a|f]; cbn; [by apply quietStep_trans|]. intros [?|[? ?]]; [by left|]. right. split; [done|by eapply quietStep_trans]. Qed.
Lemma received_lift {A B} s (m : outcome A) (k : A → ME (ReliableLink C) B) :
  link_inv ∅ s → (∀ f, m = Fault f → isTlvError f = true) → (∀ a, m = Ok a → wpE (k a) (received s) s) → wpE (liftE m ≫= k) (received s) s.
Proof.
  intros Hi Hf Hk. apply wpE_bind, wpE_lift. destruct m as [a|f]; [auto|]. right. split; [auto|by apply quietStep_refl].
Qed.

Lemma processIncomingPacket_spec s pkt : link_inv ∅ s → wpE (processIncomingPacket transport pkt) (received s) s.
Proof.
  intros Hi. unfold processIncomingPacket. apply wpE_bind, wpE_get, wpE_bind, wpE_get, wpE_bind, wpE_assert; [by eapply link_inv_enabled|].
  apply received_lift; [done|intros f Hg; exact (Packet_list_throws AckField pkt f Hg)|]. intros acks _. apply wpE_bind.
  eapply wpE_of_wpL; [apply (wpL_forE (quietStep s)); [by apply quietStep_refl|]| |by left].
  { intros ack s1 _ H1. eapply wpL_mono; [apply processAck_spec, H1|]. intros [] s2 H2. by eapply quietStep_trans. }
  intros [] s1 H1. eapply wpE_mono; [|intros r s'; by apply received_trans]. clear acks Hi. assert (link_inv ∅ s1) as Hi by apply H1.
  replace (rk_now s) with (rk_now s1) by apply H1. clear s H1. rename s1 into s.
  destruct (Packet_has FragmentField pkt && Packet_has TxSequenceField pkt) eqn:Hh; [|by apply quietStep_refl].
  apply andb_true_iff in Hh as [_ Hh]. apply received_lift; [done|intros f Hg; exact (Packet_get_throws TxSequenceField pkt f Hh Hg)|]. intros txSeq _.
  apply wpE_bind, wpE_zoom, wpE_modify. set (rel1 := set_rl_ackQueue _ (rk_rel s)). set (s1 := set_rk_rel rel1 s).
  assert (quietStep s s1) as H1 by (apply quietStep_rel; [done|apply rel_inv_ackQueue, (li_rel _ _ _ _ Hi)|done|done|done]).
  apply wpE_bind. eapply (wpE_mono _ (received s)).
  { destruct (Packet_has SequenceField pkt) eqn:Hs; [|exact H1].
    eapply wpE_mono; [|intros r s'; by apply received_trans]. apply received_lift; [apply H1|intros f Hg; exact (Packet_get_throws SequenceField pkt f Hs Hg)|].
    intros seq _. apply wpE_zoom. unfold checkDuplicate. apply wpE_bind, wpE_get. unfold id.
    destruct (purgeRecent _ _ _ _) as [seqs queue]. apply wpE_bind, wpE_modify, wpE_ret. cbn.
    apply quietStep_rel; [apply H1|apply rel_inv_recent, (li_rel _ _ _ _ (qs_inv _ _ H1))|done|done|done]. }
  intros [isDuplicate|f] s2 H2; [|done]. cbn in H2. apply wpE_bind, wpE_zoom, wpE_modify, wpE_ret. apply (quietStep_trans s s2); [done|].
  apply quietStep_rel; [apply H2| | | |].
  - destruct (rl_idleAckTimer (rk_rel s2)); [|apply rel_inv_idleAckTimer]; apply (li_rel _ _ _ _ (qs_inv _ _ H2)).
  - by destruct (rl_idleAckTimer (rk_rel s2)).
  - by destruct (rl_idleAckTimer (rk_rel s2)).
  - by destruct (rl_idleAckTimer (rk_rel s2)).
Qed.

Lemma doReceivePacketR_spec {L : NetCodecLaws C} s packet ep :
  link_inv ∅ s → Wire_ok packet → w_elements packet = [] →
  wpL (doReceivePacketR transport packet ep) (fun _ s' => quietStep s s') s.
Proof.
  intros Hi Hw Hel. assert (wpE (doReceivePacketR transport packet ep)
    (fun r s' => r = Ok tt ∧ quietStep s s' ∨ r = Fault (Throw LengthError) ∧ exhausted s') s) as H.
  2: { revert H. unfold wpE, wpL. destruct (doReceivePacketR _ _ _ s) as [r s']. cbn. by intros [[-> ?]|[-> ?]]. }
  unfold doReceivePacketR. apply wpE_bind, wpE_get, wpE_bind, wpE_get. rewrite (link_inv_enabled _ _ _ _ Hi).
  assert (∀ s', quietStep s s' → wpE (onLink (addCount nInLpInvalid 1))
    (fun r s' => r = Ok tt ∧ quietStep s s' ∨ r = Fault (Throw LengthError) ∧ exhausted s') s') as Hcount.
  { intros s' [Q1 Q2 Q3 Q4]. apply wpE_zoom, wpE_modify. left. split; [done|]. split; [|done..].
    apply link_inv_link; [done|done|apply (li_reassembler _ _ _ _ Q1)]. }
  apply wpE_catchTlv, wpE_bind, wpE_lift.
  destruct (Packet_wireDecode packet) as [pkt|f] eqn:Ed.
  2: { apply Packet_wireDecode_throws in Ed as ->. cbn [isTlvError]. apply Hcount. by apply quietStep_refl. }
  pose proof Hw as (Hv & Hb & _). pose proof (Packet_wireDecode_bytes packet pkt Hv Hb Hel Ed) as Hpb.
  apply wpE_bind. eapply wpE_mono; [by apply processIncomingPacket_spec|]. intros [isNew|f] s1; cbn [received].
  2: { intros [[-> ?]|[Hf Hs1]]; [by right|]. rewrite Hf. by apply Hcount. }
  intros Hs1. assert (link_inv ∅ s1) as Hi1 by apply Hs1. destruct isNew.
  - apply wpE_zoom. eapply wpE_mono.
    { apply receiveLpPacket_ok; [done|apply (li_reassembler _ _ _ _ Hi1)|apply (li_safe _ _ _ _ Hi1)]. }
    intros r l (Hrx & Hr). assert (quietStep s (set_rk_link l s1)) as Hs2.
    { destruct Hs1 as [Q1 Q2 Q3 Q4]. destruct Hrx as (Hre & Ho & _). split; [by apply link_inv_link|done..]. }
    destruct Hr as [->| ->]; [by left|]. cbn [isTlvError]. by apply Hcount.
  - apply wpE_modify. left. split; [done|]. destruct Hs1 as [Q1 Q2 Q3 Q4]. split; [|done..].
    apply link_inv_counters; [done|]. intros c' Hc'. by rewrite decide_False.
Qed.

(** ** Sending *)

(** The fragments of a packet, before they have numbers. *)
Definition fragmented (frags : list Packet) : Prop :=
  frags ≠ [] ∧ Forall (fun frag => Packet_ok frag ∧ ∃ payload, fieldsAt lp_Fragment (p_elements frag) = [fragmentBlock payload]) frags ∧
  ∀ front, frags = [front] → Packet_has FragIndexField front = false ∧ Packet_has FragCountField front = false.

Lemma makeFragments p netPkt options (n : nat) (b : bool) :
  sendable p netPkt →
  (if b then fragmentPacket options p n else Ok (true, [p])) = Ok (false, []) ∨
  ∃ frags, (if b then fragmentPacket options p n else Ok (true, [p])) = Ok (true, frags) ∧ fragmented frags.
Proof.
  intros Hs. assert (fragmented [p]) as Hone.
  { split_and!; [done| |].
    - constructor; [|constructor]. split; [apply Hs|]. exists netPkt. apply Hs.
    - intros front [= <-]. split; apply Packet_has_false; [apply (sendable_index _ _ Hs)|apply (sendable_count _ _ Hs)]. }
  destruct b; [|right; by exists [p]]. destruct (fragmentPacket_spec Hs options n) as (w & _ & Hspec). cbv zeta in Hspec.
  case_bool_decide; [right; by exists [p]|]. case_bool_decide; [by left|]. right.
  destruct Hspec as (Hn & payloads & frags & E & _ & Hlen & Hfr). exists frags. split; [done|].
  pose proof (fragmentsOf_length _ _ _ _ _ _ Hfr) as Hl. split_and!.
  - intros ->. cbn in Hl. lia.
  - apply Forall_forall. intros frag [i Hi]%list_elem_of_lookup. destruct (fragmentsOf_lookup _ _ _ _ _ _ _ _ Hfr Hi) as (payload & _ & _ & Hf & _).
    split; [apply Hf|]. exists payload. exact (fragment_payload_fields Hf).
  - intros front ->. cbn in Hl. lia.
Qed.
Lemma sequenced_frags last frags qs :
  Forall (fun frag => Packet_ok frag ∧ ∃ payload, fieldsAt lp_Fragment (p_elements frag) = [fragmentBlock payload]) frags →
  sequenced last frags qs → Forall sequencedFrag qs ∧ ∀ q, head qs = Some q → Packet_has FragmentField q = true.
Proof.
  intros Hall [Hlen Hseq]. assert (∀ i q, qs !! i = Some q → sequencedFrag q ∧ Packet_has FragmentField q = true) as H.
  { intros i q Hi. destruct (lookup_lt_is_Some_2 frags i) as [frag Hf]; [rewrite <-Hlen; by eapply lookup_lt_Some|].
    destruct (Hseq i frag Hf) as (q' & Hq' & Hset). assert (q' = q) as -> by congruence.
    rewrite Forall_lookup in Hall. destruct (Hall i frag Hf) as (Hok & payload & Hp).
    destruct (set_sequence frag (u64 (last + 1 + Z.of_nat i)) payload Hok Hp) as (q2 & w & Hset2 & _ & Hok2 & Hw2 & _ & Hfields & _).
    assert (q2 = q) as -> by congruence. split.
    - split; [done|done|]. eexists. by rewrite Hfields, bool_decide_true.
    - rewrite Packet_has_fields. apply bool_decide_eq_true. change (F_type FragmentField) with lp_Fragment. rewrite Hfields, bool_decide_false by done. by rewrite Hp. }
  split; [apply Forall_lookup; intros i q Hi; by destruct (H i q Hi)|]. intros q Hq. destruct qs as [|q' qs]; [done|]. injection Hq as ->.
  by destruct (H 0%nat q eq_refl).
Qed.

Lemma sendFrags_spec qs s : link_inv ∅ s → Forall sequencedFrag qs →
  wpL (forE_ qs (sendLpPacketR transport)) (fun _ s' => link_inv ∅ s') s.
Proof.
  intros Hi Hall. apply (wpL_forE (link_inv ∅)); [done|]. intros q s1 Hq H1. rewrite Forall_forall in Hall.
  eapply wpL_mono; [apply (sendLpPacketR_safe transport q mtu s1)|].
  - by apply sequencedFrag_ready, Hall.
  - apply (li_up _ _ _ _ H1).
  - by eapply link_inv_enabled.
  - intros [] s2. by apply link_inv_sent.
Qed.

Lemma sendNetPacketR_spec p netPkt isInterest s :
  link_inv ∅ s → sendable p netPkt → (isInterest = true → droppable p) →
  wpL (sendNetPacketR transport p isInterest) (fun _ s' => link_inv ∅ s') s.
Proof.
  intros Hi Hs Hd. unfold sendNetPacketR. apply wpL_bind, wpL_get, wpL_bind, wpL_get, wpL_bind, wpL_get. rewrite (link_inv_enabled _ _ _ _ Hi).
  set (options := ls_options (rk_link s)). cbv zeta. cbn [andb orb].
  match goal with |- context [assertE (bool_decide (?m = MTU_UNLIMITED ∨ 0 ≤ ?m))] => set (mtuZ := m) end.
  apply wpL_bind, wpL_assert.
  { apply bool_decide_eq_true. unfold mtuZ. destruct (li_up _ _ _ _ Hi) as [Hm _]. pose proof (li_limit _ _ _ _ Hi) as Hlim.
    unfold mtuEnough, MIN_MTU in Hlim. unfold mtuIs in Hm. fold options in Hm. destruct mtu as [M|].
    - destruct Hm as [-> _]. right. change RESERVED_HEADER_SPACE with 12. change CONGESTION_MARK_SIZE with 12. unfold MTU_UNLIMITED.
      destruct (allowCongestionMarking options); repeat case_bool_decide; cbn [andb]; lia.
    - destruct Hm as [_ ->]. left. rewrite bool_decide_false by (intros H; by apply H). rewrite bool_decide_false by (intros H; by apply H). by rewrite andb_false_r. }
  destruct (makeFragments p netPkt (fragmenterOptions options) (Z.to_nat mtuZ)
    (allowFragmentation options && bool_decide (mtuZ ≠ MTU_UNLIMITED)) Hs) as [E|(frags & E & Hne & Hall & Hone)].
  { apply wpL_bind, (wpL_lift _ (false, [])); [exact E|]. cbn [negb]. apply wpL_onLink, wpL_modify. apply link_inv_link; [done|done|apply (li_reassembler _ _ _ _ Hi)]. }
  apply wpL_bind, (wpL_lift _ (true, frags)); [exact E|]. cbn [negb]. apply wpL_bind.
  eapply (wpL_mono _ (fun _ s' => s' = s)).
  { destruct frags as [|front [|??]]; [done| |done]. destruct (Hone front eq_refl) as [-> ->]. done. }
  intros [] ? ->. destruct (assignSequences_spec frags (rk_link s) Hall) as (qs & l1 & E1 & (Ho & Hr & _) & _ & Hseq).
  apply wpL_bind, wpL_onLink, (wpL_run _ _ _ _ _ E1). destruct (sequenced_frags _ _ _ Hall Hseq) as [Hqs Hfront].
  set (s1 := set_rk_link l1 s). assert (link_inv ∅ s1) as Hi1 by (apply link_inv_link; [done|done|rewrite Hr; apply (li_reassembler _ _ _ _ Hi)]).
  assert (∃ front, head qs = Some front) as [front Efront].
  { destruct Hseq as [Hlen _]. destruct qs; [|by eexists]. by destruct frags. }
  apply wpL_bind, wpL_bind, (wpL_deref _ front); [done|]. rewrite (Hfront _ Efront). apply wpL_onRel.
  eapply wpL_mono; [apply (handleOutgoing_spec (rk_now s) qs p isInterest (rk_rel s1)); [apply (li_rel _ _ _ _ Hi1)|done|done|by destruct qs]|].
  intros qs' rel2 (Hi2 & Hnum & En & El). apply sendFrags_spec; [by apply link_inv_outgoing|].
  apply Forall_forall. intros q' [i Hi']%list_elem_of_lookup. destruct (Forall2_lookup_r _ _ _ _ _ Hnum Hi') as (q & _ & (k & Hst & _) & _). apply Hst.
Qed.

(** Packets the forwarder sends; the wire of an Interest is one. *)
Definition netSend_ok (x : NetSend) : Prop :=
  NetSend_ok x ∧ ∀ wire tags, x = TxInterest wire tags → ∃ w i, Wire_ofSpan (w_bytes wire) = Ok w ∧ Interest_decode w = Ok i.

Lemma transmitR_spec x s : link_inv ∅ s → netSend_ok x → wpL (transmitR transport x) (fun _ s' => link_inv ∅ s') s.
Proof.
  intros Hi [Hx Hint]. unfold transmitR. apply wpL_bind, wpL_onLink.
  eapply (wpL_mono _ (fun _ l => ls_options l = ls_options (rk_link s) ∧ ls_reassembler l = ls_reassembler (rk_link s))); [by destruct x|].
  intros [] l [Ho Hr]. set (s1 := set_rk_link l s).
  assert (link_inv ∅ s1) as Hi1 by (apply link_inv_link; [done|done|rewrite Hr; apply (li_reassembler _ _ _ _ Hi)]).
  apply wpL_bind, wpL_get. destruct (transmit_packet (ls_options l) x Hx) as (base & p & Hbase & Hp & Hs & Hfields).
  apply wpL_bind, (wpL_lift _ (bareNetPacket (tx_wireOf x))).
  { destruct Hx as ([Ht _ _ Hl] & _). apply Packet_wireDecode_bare; [done|lia]. }
  apply wpL_bind, (wpL_lift _ base); [done|]. apply wpL_bind, (wpL_lift _ p); [done|].
  eapply (sendNetPacketR_spec p); [done|done|]. intros Eint. destruct x as [wire tags|wire tags|wire header tags]; [|done..].
  destruct (Hint wire tags eq_refl) as (w & i & Hspan & Hdec). exists (w_bytes wire), w, i.
  destruct (Packet_has_get FragmentField p (fragmentBlock (w_bytes wire)) []) as [-> ->]; [apply Hs|].
  split_and!; [done| |done|done]. unfold F_decode. rewrite bool_decide_false by (by intros []). apply decode_range_ok.
  intros En. destruct Hx as ([_ Hnet _ _] & _). cbn in Hnet. by rewrite En in Hnet.
Qed.

(** ** Timers *)

Lemma onRtoTimer_spec k s :
  link_inv ∅ s → wpL (onRtoTimer transport k) (fun _ s' => link_inv ∅ s' ∧ rl_options (rk_rel s') = rl_options (rk_rel s) ∧
    rk_now s' = rk_now s ∧
    match frags s !! k ≫= uf_rtoTimer with
    | Some deadline => if bool_decide (deadline ≤ rk_now s) then (budget s' < budget s)%nat else s' = s
    | None => s' = s
    end) s.
Proof.
  intros Hi. unfold onRtoTimer. apply wpL_bind, wpL_get, wpL_bind, wpL_get. destruct (frags s !! k ≫= uf_rtoTimer) as [deadline|] eqn:Et; [|done].
  case_bool_decide; [|done]. apply wpL_bind. eapply wpL_mono.
  - apply (onLpPacketLost_spec transport mtu s k Hi). destruct (frags s !! k); [eauto|done].
  - intros removed s' [L1 L2 L3 L4 L5]. apply wpL_ret. split_and!; [done..|]. by rewrite L4.
Qed.

Lemma limit_16 s : link_inv ∅ s → 16 ≤ Z.of_nat (ackLimit mtu).
Proof. intros Hi. pose proof (li_limit _ _ _ _ Hi) as H. unfold mtuEnough, MIN_MTU in H. destruct mtu; cbn in *; [lia|done]. Qed.
Lemma idleAck_loop_safe fuel : ∀ s,
  link_inv ∅ s → (length (rl_ackQueue (rk_rel s)) ≤ fuel)%nat → wpL (idleAck_loop transport fuel) (fun _ s' => link_inv ∅ s') s.
Proof.
  induction fuel as [|fuel IH]; intros s Hi Hfuel; cbn [idleAck_loop]; apply wpL_bind, wpL_get.
  { apply Nat.le_0_r, length_zero_iff_nil in Hfuel. by rewrite Hfuel. }
  destruct (rl_ackQueue (rk_rel s)) as [|a queue] eqn:Eq; [done|]. apply wpL_bind. eapply wpL_mono.
  - apply (sendIdle_progress transport mtu s); [apply (li_up _ _ _ _ Hi)|by eapply link_inv_enabled|by eapply limit_16|by rewrite Eq].
  - intros [] s1 [Hsent Hlen]. apply IH; [by eapply link_inv_sent|]. rewrite Eq in Hlen. cbn in *. lia.
Qed.
Lemma onIdleAckTimer_spec s : link_inv ∅ s → wpL (onIdleAckTimer transport) (fun _ s' => link_inv ∅ s') s.
Proof.
  intros Hi. unfold onIdleAckTimer. apply wpL_bind, wpL_get, wpL_bind, wpL_get. destruct (rl_idleAckTimer (rk_rel s)); [|done].
  case_bool_decide; [|done]. apply wpL_bind, wpL_onRel, wpL_modify, wpL_bind, wpL_get. apply idleAck_loop_safe; [|done].
  eapply link_inv_rel; [done| |done|done]. apply rel_inv_idleAckTimer, (li_rel _ _ _ _ Hi).
Qed.

(** ** Runs *)

Inductive LinkEvent : Type :=
| EvSend (x : NetSend)
| EvReceive (packet : Wire) (endpoint : EndpointId)
| EvRtoTimer (txSeq : Z)
| EvIdleAckTimer
| EvElapse (d : Z).
Definition event_ok (e : LinkEvent) : Prop :=
  match e with
  | EvSend x => netSend_ok x
  | EvReceive packet _ => ∃ buffer, bytes_ok buffer ∧ Z.of_nat (length buffer) < 2 ^ 64 ∧ Wire_ofSpan buffer = Ok packet
  | EvElapse d => 0 ≤ d
  | _ => True
  end.
Definition runEvent (e : LinkEvent) : ME (ReliableLink C) unit :=
  match e with
  | EvSend x => transmitR transport x
  | EvReceive packet endpoint => doReceivePacketR transport packet endpoint
  | EvRtoTimer txSeq => onRtoTimer transport txSeq
  | EvIdleAckTimer => onIdleAckTimer transport
  | EvElapse d => modifyE (fun s => set_rk_now (rk_now s + d) s)
  end.
Lemma runEvent_spec {L : NetCodecLaws C} e s : link_inv ∅ s → event_ok e → wpL (runEvent e) (fun _ s' => link_inv ∅ s') s.
Proof.
  intros Hi He. destruct e as [x|packet ep|k| |d]; cbn in *.
  - by apply transmitR_spec.
  - destruct He as (buffer & Hb & Hl & Hw). destruct (Wire_ofSpan_inv buffer packet Hb Hw) as (_ & Hel & _).
    eapply wpL_mono; [apply doReceivePacketR_spec; [done|by apply (Wire_ofSpan_ok buffer)|done]|]. by intros [] s' [].
  - eapply wpL_mono; [by apply onRtoTimer_spec|]. by intros [] s' [].
  - by apply onIdleAckTimer_spec.
  - apply link_inv_now; [lia|done].
Qed.
Lemma runEvents_spec {L : NetCodecLaws C} evs s : link_inv ∅ s → Forall event_ok evs → wpL (forE_ evs runEvent) (fun _ s' => link_inv ∅ s') s.
Proof.
  intros Hi Hall. apply (wpL_forE (link_inv ∅)); [done|]. intros e s1 He H1. apply runEvent_spec; [done|]. by eapply Forall_forall in Hall.
Qed.

(** The link as it is created. *)
Lemma link_inv_new options reliability :
  options_ok reliability → linkUp transport options mtu → mtuEnough mtu → announcementsSafe (C := C) options →
  link_inv ∅ (ReliableLink_new options reliability).
Proof.
  intros Ho Hup Hlim Hsafe. split; cbn; [|done|done|done|done|done|done]. split; cbn; [done| |apply RttEstimator_new_ok|done|done|done].
  split; [by intros k [? ?]|unfold is_seq, u64; apply Z.mod_pos_bound; lia|done|done].
Qed.

(** Timers that run out while nothing is received and nothing else is sent. *)
Inductive timeouts : ReliableLink C → nat → ReliableLink C → Prop :=
| timeouts_nil s : timeouts s 0 s
| timeouts_cons s d k deadline s1 n s2 :
    0 ≤ d → frags s !! k ≫= uf_rtoTimer = Some deadline → deadline ≤ rk_now s + d →
    onRtoTimer transport k (set_rk_now (rk_now s + d) s) = (Ok tt, s1) → timeouts s1 n s2 → timeouts s (S n) s2.
Lemma timeouts_spec s n s' :
  timeouts s n s' → link_inv ∅ s → link_inv ∅ s' ∧ (n + budget s' ≤ budget s)%nat.
Proof.
  induction 1 as [s|s d k deadline s1 n s2 Hd Ht Hdue E _ IH]; intros Hi; [done|].
  assert (link_inv ∅ (set_rk_now (rk_now s + d) s)) as Hi0 by (apply link_inv_now; [lia|done]).
  pose proof (onRtoTimer_spec k (set_rk_now (rk_now s + d) s) Hi0) as H.
  unfold wpL in H. rewrite E in H. destruct H as (Hi1 & Ho & _ & Hb). cbn in Hb. rewrite Ht in Hb. rewrite bool_decide_true in Hb by done.
  destruct (IH Hi1) as [Hi2 Hle]. split; [done|]. lia.
Qed.
End events.

Lemma retxBudget_bound maxRetx m :
  (∀ k f, m !! k = Some f → 0 ≤ uf_retxCount f) → (retxBudget maxRetx m ≤ (Z.to_nat maxRetx + 1) * size m)%nat.
Proof.
  induction m as [|k f m Hk IH] using map_ind; intros Hm.
  - unfold retxBudget. rewrite map_fold_empty. lia.
  - rewrite retxBudget_insert, map_size_insert_None by done.
    assert (retxBudget maxRetx m ≤ (Z.to_nat maxRetx + 1) * size m)%nat.
    { apply IH. intros x fx Hx. apply (Hm x fx). by rewrite lookup_insert_ne by congruence. }
    assert (0 ≤ uf_retxCount f) by (apply (Hm k f), lookup_insert_eq). unfold fragBudget. lia.
Qed.
(** While a fragment is left, another timer runs out in time. *)
Lemma timeouts_progress {C : NetCodec} transport mtu (s : ReliableLink C) :
  link_inv transport mtu ∅ s → rl_unackedFrags (rk_rel s) ≠ ∅ →
  ∃ d k, match onRtoTimer transport k (set_rk_now (rk_now s + d) s) with
         | (Ok _, s2) => timeouts transport s 1 s2
         | (Fault f, s2) => f = Throw LengthError ∧ exhausted s2
         end.
Proof.
  intros Hi Hne. apply map_choose in Hne as (k & f & Hf). destruct (ri_timer _ _ _ (li_rel _ _ _ _ Hi) k f Hf) as [deadline Ht]; [set_solver|].
  set (d := Z.max 0 (deadline - rk_now s)). exists d, k.
  assert (link_inv transport mtu ∅ (set_rk_now (rk_now s + d) s)) as Hi' by (apply link_inv_now; [lia|done]).
  pose proof (onRtoTimer_spec transport mtu k _ Hi') as H. unfold wpL in H.
  destruct (onRtoTimer transport k (set_rk_now (rk_now s + d) s)) as [[[]|e] s2] eqn:E; [|done].
  apply (timeouts_cons transport s d k deadline s2 0 s2); [lia|by rewrite Hf|lia|done|constructor].
Qed.

(** ** Properties *)

(** C16. A link with reliability on never fails.  From a new link, in any order and
    number, network packets are sent, any bytes are received as elements, the timers
    run out and time passes.  Either every event returns, and the window of
    unacknowledged fragments, the lists of the network packets, the numbers on the
    stored fragments and the timers are consistent; or an event throws
    [std::length_error] with the TxSequence numbers come round to the oldest
    unacknowledged fragment.  No assertion fails, no iterator dangles, and no other
    exception leaves.  Conditions: the MTU is unlimited or at least 64 (below 16 the
    loop of idle Acks does not end); the transport is up or down, not closing;
    prefix announcements are not decoded (self-learning off), or their check throws
    [tlv::Error]s only (a malformed date does not); an Interest that is sent
    decodes; the log level is not TRACE (where a retransmission reads an erased
    entry, [trace_reads_erased]). *)
Theorem reliable_link_never_fails {C : NetCodec} {L : NetCodecLaws C} transport mtu options reliability (evs : list LinkEvent) :
  options_ok reliability → linkUp transport options mtu → mtuEnough mtu → announcementsSafe (C := C) options → Forall event_ok evs →
  match forE_ evs (runEvent transport) (ReliableLink_new options reliability) with
  | (Ok _, s') => link_inv transport mtu ∅ s'
  | (Fault f, s') => f = Throw LengthError ∧ exhausted s'
  end.
Proof. intros Ho Hup Hm Hs Hevs. exact (runEvents_spec transport mtu evs _ (link_inv_new transport mtu options reliability Ho Hup Hm Hs) Hevs). Qed.

(** C18. Every network packet is accounted for once.  After any run of a link with
    reliability on, the packets counted as acknowledged, acknowledged after a
    retransmission and given up, and those that still have unacknowledged
    fragments, are together the packets that were handed to [LpReliability],
    modulo the 64 bits of the counters. *)
Theorem packets_accounted_for {C : NetCodec} {L : NetCodecLaws C} transport mtu options reliability (evs : list LinkEvent) s' :
  options_ok reliability → linkUp transport options mtu → mtuEnough mtu → announcementsSafe (C := C) options → Forall event_ok evs →
  forE_ evs (runEvent transport) (ReliableLink_new options reliability) = (Ok tt, s') →
  u64 (rk_counters s' nAcknowledged + rk_counters s' nRetransmitted + rk_counters s' nRetxExhausted +
       Z.of_nat (size (liveNets (rl_unackedFrags (rk_rel s'))))) = u64 (Z.of_nat (size (rl_netPkts (rk_rel s')))).
Proof.
  intros Ho Hup Hm Hs Hevs E. pose proof (runEvents_spec transport mtu evs _ (link_inv_new transport mtu options reliability Ho Hup Hm Hs) Hevs) as H.
  unfold wpL in H. rewrite E in H. apply (li_account _ _ _ _ H).
Qed.

(** C19. Retransmission comes to an end.  When no Ack arrives, at most
    [maxRetx] + 1 timers run out for every unacknowledged fragment, in whatever
    order they do; and as long as a fragment is left, one of its timers runs out
    after a time, sends it again or gives it up, or finds the TxSequence numbers
    exhausted.  The link is in a state that [reliable_link_never_fails] reaches
    (so its log level is not TRACE). *)
Theorem retransmissions_end {C : NetCodec} transport mtu (s : ReliableLink C) n s' :
  link_inv transport mtu ∅ s → timeouts transport s n s' →
  (n ≤ (Z.to_nat (ro_maxRetx (rl_options (rk_rel s))) + 1) * size (rl_unackedFrags (rk_rel s)))%nat ∧
  (rl_unackedFrags (rk_rel s') = ∅ ∨
   ∃ d k, match onRtoTimer transport k (set_rk_now (rk_now s' + d) s') with
          | (Ok _, s2) => timeouts transport s' 1 s2
          | (Fault f, s2) => f = Throw LengthError ∧ exhausted s2
          end).
Proof.
  intros Hi Ht. destruct (timeouts_spec transport mtu s n s' Ht Hi) as [Hi' Hle]. split.
  - pose proof (retxBudget_bound (ro_maxRetx (rl_options (rk_rel s))) (rl_unackedFrags (rk_rel s))) as Hb.
    assert (∀ k f, rl_unackedFrags (rk_rel s) !! k = Some f → 0 ≤ uf_retxCount f) as H0.
    { intros k f Hf. by destruct (ri_frag _ _ _ (li_rel _ _ _ _ Hi) k f Hf) as [_ _ [? _]]. }
    specialize (Hb H0). lia.
  - destruct (decide (rl_unackedFrags (rk_rel s') = ∅)) as [|Hne]; [by left|]. right. by eapply timeouts_progress.
Qed.

(** C17. The fragments declared lost are the right ones.  When a fragment is
    acknowledged, [findLostLpPackets] terminates; it counts one more later Ack for
    exactly the fragments sent before it and still unacknowledged, where the
    order of sending is the distance from the start of the window modulo 2^64, and
    returns, in that order, exactly those of them that have reached the
    threshold. *)
Theorem lost_after_later_acks {C : NetCodec} t X (s : LpReliability) ack :
  rel_inv t X s → is_Some (rl_unackedFrags s !! ack) →
  ∃ first lost m', rl_firstUnackedFrag s = Some first ∧ findLostLpPackets ack s = (Ok lost, set_rl_unackedFrags m' s) ∧
    (∀ k, m' !! k = (fun f => if bool_decide (dist first k < dist first ack) then bump f else f) <$> rl_unackedFrags s !! k) ∧
    (∀ k, k ∈ lost ↔ ∃ f, rl_unackedFrags s !! k = Some f ∧ dist first k < dist first ack ∧
       ro_seqNumLossThreshold (rl_options s) ≤ u64 (uf_nGreaterSeqAcks f + 1)) ∧
    StronglySorted (fun a b => dist first a < dist first b) lost.
Proof.
  intros Hi Hack. destruct (rel_inv_first _ _ s ack Hi Hack) as [first Ef]. pose proof (ri_window _ _ _ Hi) as Hw. rewrite Ef in Hw.
  destruct (findLost_spec s first ack Ef Hw Hack) as (lost & E & Hel & Hso).
  exists first, lost, (bumpBefore first (dist first ack) (rl_unackedFrags s)). split_and!; [done|done|apply lookup_bumpBefore| |done].
  intros k. rewrite Hel. unfold reaches. naive_solver.
Qed.
