(* ===== verification/InterestWire.v ===== *)
(** * The Interest packet (ndn-cxx [interest.cpp])

    The [Interest] class with its cached wire encoding: encoding, decoding,
    the ParametersSha256DigestComponent and the modifiers.  SHA-256 and the
    random nonce are parameters. *)

From S2P Require Import Prelude Tlv Component Name Encoding.
Local Open Scope Z_scope.

(** ** State *)

Definition DEFAULT_INTEREST_LIFETIME : Z := 4000.

(** The members of the class; [m_parameters] holds ApplicationParameters and
    the elements after it with their bytes; a Nonce is four bytes. *)
Record InterestPkt := mkInterestPkt {
  ip_name : Name;
  ip_canBePrefix : bool;
  ip_mustBeFresh : bool;
  ip_forwardingHint : list Name;
  ip_nonce : option (list Z);
  ip_interestLifetime : Z;
  ip_hopLimit : option Z;
  ip_parameters : list Wire;
  ip_wire : option Wire
}.

Definition set_ip_name v i :=
  mkInterestPkt v (ip_canBePrefix i) (ip_mustBeFresh i) (ip_forwardingHint i) (ip_nonce i)
    (ip_interestLifetime i) (ip_hopLimit i) (ip_parameters i) (ip_wire i).
Definition set_ip_canBePrefix v i :=
  mkInterestPkt (ip_name i) v (ip_mustBeFresh i) (ip_forwardingHint i) (ip_nonce i)
    (ip_interestLifetime i) (ip_hopLimit i) (ip_parameters i) (ip_wire i).
Definition set_ip_mustBeFresh v i :=
  mkInterestPkt (ip_name i) (ip_canBePrefix i) v (ip_forwardingHint i) (ip_nonce i)
    (ip_interestLifetime i) (ip_hopLimit i) (ip_parameters i) (ip_wire i).
Definition set_ip_forwardingHint v i :=
  mkInterestPkt (ip_name i) (ip_canBePrefix i) (ip_mustBeFresh i) v (ip_nonce i)
    (ip_interestLifetime i) (ip_hopLimit i) (ip_parameters i) (ip_wire i).
Definition set_ip_nonce v i :=
  mkInterestPkt (ip_name i) (ip_canBePrefix i) (ip_mustBeFresh i) (ip_forwardingHint i) v
    (ip_interestLifetime i) (ip_hopLimit i) (ip_parameters i) (ip_wire i).
Definition set_ip_interestLifetime v i :=
  mkInterestPkt (ip_name i) (ip_canBePrefix i) (ip_mustBeFresh i) (ip_forwardingHint i) (ip_nonce i)
    v (ip_hopLimit i) (ip_parameters i) (ip_wire i).
Definition set_ip_hopLimit v i :=
  mkInterestPkt (ip_name i) (ip_canBePrefix i) (ip_mustBeFresh i) (ip_forwardingHint i) (ip_nonce i)
    (ip_interestLifetime i) v (ip_parameters i) (ip_wire i).
Definition set_ip_parameters v i :=
  mkInterestPkt (ip_name i) (ip_canBePrefix i) (ip_mustBeFresh i) (ip_forwardingHint i) (ip_nonce i)
    (ip_interestLifetime i) (ip_hopLimit i) v (ip_wire i).
Definition set_ip_wire v i :=
  mkInterestPkt (ip_name i) (ip_canBePrefix i) (ip_mustBeFresh i) (ip_forwardingHint i) (ip_nonce i)
    (ip_interestLifetime i) (ip_hopLimit i) (ip_parameters i) v.
Abbreviation resetWire := (modifyE (set_ip_wire None)).

(** The state before any member is set. *)
Definition Interest_members : InterestPkt :=
  mkInterestPkt [] false false [] None DEFAULT_INTEREST_LIFETIME None [] None.

Definition hasApplicationParameters (i : InterestPkt) : bool :=
  negb (bool_decide (length (ip_parameters i) = 0%nat)).

(** [findParametersDigestComponent]: -1 when there is none, -2 when there is
    more than one. *)
Fixpoint findDigest_loop (i pos : Z) (name : Name) : Z :=
  match name with
  | [] => pos
  | c :: name' =>
      if isParametersSha256Digest c then
        if bool_decide (pos ≠ -1) then -2 else findDigest_loop (i + 1) i name'
      else findDigest_loop (i + 1) pos name'
  end.
Definition findParametersDigestComponent (name : Name) : Z := findDigest_loop 0 (-1) name.

Section interest.
Context (sha256 : list Z → list Z).
(** [s_autoCheckParametersDigest]: true in the library, turned off by the daemon
    ([daemon/nfd.cpp]). *)
Context (autoCheckParametersDigest : bool).

(** ** ParametersSha256DigestComponent *)

(** [computeParametersDigest]: the bytes of the parameters, one after another. *)
Definition computeParametersDigest (i : InterestPkt) : list Z :=
  sha256 (mjoin (map w_bytes (ip_parameters i))).

(** [isParametersDigestValid]. *)
Definition isParametersDigestValid : ME InterestPkt bool :=
  i ← getE id;
  let digestIndex := findParametersDigestComponent (ip_name i) in
  if bool_decide (digestIndex = -1) then mret (negb (hasApplicationParameters i))
  else
    _ ← assertE (bool_decide (0 ≤ digestIndex));
    if negb (hasApplicationParameters i) then mret false
    else
      digestComponent ← liftE (Name_get (ip_name i) digestIndex);
      mret (bool_decide (cvalue digestComponent = computeParametersDigest i)).

(** [addOrReplaceParametersDigestComponent]. *)
Definition addOrReplaceParametersDigestComponent : ME InterestPkt unit :=
  i ← getE id;
  _ ← assertE (hasApplicationParameters i);
  let digestIndex := findParametersDigestComponent (ip_name i) in
  digestComponent ← liftE (makeComponent ParametersSha256DigestComponent (computeParametersDigest i));
  if bool_decide (digestIndex = -1) then modifyE (set_ip_name (ip_name i ++ [digestComponent]))
  else
    _ ← assertE (bool_decide (0 ≤ digestIndex));
    modifyE (set_ip_name (<[Z.to_nat digestIndex := digestComponent]> (ip_name i))).

(** ** Encoding *)

(** The body of [wireEncode(encoder)] after its checks, with the nonce set. *)
Definition Interest_encodeFields (i : InterestPkt) (nonce : list Z) : list Z :=
  let enc := foldr prependBlock [] (ip_parameters i) in
  let enc := match ip_hopLimit i with
             | Some h => prependBinaryBlock tlv_HopLimit [h] enc
             | None => enc
             end in
  let enc := if bool_decide (ip_interestLifetime i ≠ DEFAULT_INTEREST_LIFETIME)
             then prependNonNegativeIntegerBlock tlv_InterestLifetime (u64 (ip_interestLifetime i)) enc
             else enc in
  let enc := prependBinaryBlock tlv_Nonce nonce enc in
  let enc := if negb (bool_decide (length (ip_forwardingHint i) = 0%nat))
             then prependNestedBlock Name_wireEncode tlv_ForwardingHint (ip_forwardingHint i) enc
             else enc in
  let enc := if ip_mustBeFresh i then prependEmptyBlock tlv_MustBeFresh enc else enc in
  let enc := if ip_canBePrefix i then prependEmptyBlock tlv_CanBePrefix enc else enc in
  Name_wireEncode (ip_name i) enc.

(** [getNonce]; [fresh] is what [generateNonce] returns. *)
Definition getNonce (fresh : list Z) : ME InterestPkt (list Z) :=
  i ← getE id;
  match ip_nonce i with
  | Some nonce => mret nonce
  | None => _ ← modifyE (set_ip_nonce (Some fresh)); _ ← resetWire; mret fresh
  end.

(** [wireEncode(encoder)]: the whole element. *)
Definition Interest_wireEncode_to (fresh : list Z) : ME InterestPkt (list Z) :=
  i ← getE id;
  let digestIndex := findParametersDigestComponent (ip_name i) in
  _ ← assertE (bool_decide (digestIndex ≠ -2));
  _ ← (if bool_decide (digestIndex = -1) then
         if hasApplicationParameters i then throwE TlvError else mret tt
       else if negb (hasApplicationParameters i) then throwE TlvError else mret tt);
  nonce ← getNonce fresh;
  let body := Interest_encodeFields i nonce in
  mret (prependVarNumber tlv_Interest (prependVarNumber (Z.of_nat (length body)) body)).

(** ** Decoding *)

(** One delegation of the ForwardingHint, in the current or the old format. *)
Definition decodeDelegation (del : Wire) : ME InterestPkt unit :=
  let push (n : Name) := modifyE (fun i => set_ip_forwardingHint (ip_forwardingHint i ++ [n]) i) in
  if bool_decide (w_type del = tlv_Name) then
    n ← liftE (Name_wireDecode (wire_block del)); push n
  else if bool_decide (w_type del = 31) then
    subs ← liftE (Wire_subs del);
    match findWire tlv_Name subs with
    | Some e => n ← liftE (Name_wireDecode (wire_block e)); push n
    | None => throwE TlvError
    end
  else if isCriticalType (w_type del) then throwE TlvError
  else mret tt.

(** One iteration of the loop of [wireDecode]: the new [lastElement]. *)
Definition decodeElement (lastElement : Z) (element : Wire) : ME InterestPkt Z :=
  let type := w_type element in
  if bool_decide (type = tlv_CanBePrefix) then
    if bool_decide (2 ≤ lastElement) then throwE TlvError
    else if bool_decide (length (w_value element) ≠ 0%nat) then throwE TlvError
    else _ ← modifyE (set_ip_canBePrefix true); mret 2
  else if bool_decide (type = tlv_MustBeFresh) then
    if bool_decide (3 ≤ lastElement) then throwE TlvError
    else if bool_decide (length (w_value element) ≠ 0%nat) then throwE TlvError
    else _ ← modifyE (set_ip_mustBeFresh true); mret 3
  else if bool_decide (type = tlv_ForwardingHint) then
    if bool_decide (4 ≤ lastElement) then throwE TlvError
    else
      delegations ← liftE (Wire_subs element);
      _ ← forE_ delegations decodeDelegation; mret 4
  else if bool_decide (type = tlv_Nonce) then
    if bool_decide (5 ≤ lastElement) then throwE TlvError
    else if bool_decide (length (w_value element) ≠ 4%nat) then throwE TlvError
    else _ ← modifyE (set_ip_nonce (Some (w_value element))); mret 5
  else if bool_decide (type = tlv_InterestLifetime) then
    if bool_decide (6 ≤ lastElement) then throwE TlvError
    else
      '(n, _) ← liftE (readNonNegativeInteger (length (w_value element)) (w_value element));
      _ ← modifyE (set_ip_interestLifetime (i64 n)); mret 6
  else if bool_decide (type = tlv_HopLimit) then
    if bool_decide (7 ≤ lastElement) then mret lastElement
    else match w_value element with
         | [h] => _ ← modifyE (set_ip_hopLimit (Some h)); mret 7
         | _ => throwE TlvError
         end
  else if bool_decide (type = tlv_ApplicationParameters) then
    if bool_decide (8 ≤ lastElement) then mret lastElement
    else
      _ ← (b ← getE hasApplicationParameters; assertE (negb b));
      _ ← modifyE (fun i => set_ip_parameters (ip_parameters i ++ [element]) i); mret 8
  else if isCriticalType type then throwE TlvError
  else
    b ← getE hasApplicationParameters;
    _ ← (if b : bool then modifyE (fun i => set_ip_parameters (ip_parameters i ++ [element]) i)
         else mret tt);
    mret lastElement.

Fixpoint decodeElements (lastElement : Z) (elements : list Wire) : ME InterestPkt unit :=
  match elements with
  | [] => mret tt
  | element :: elements' =>
      lastElement ← decodeElement lastElement element;
      decodeElements lastElement elements'
  end.

(** The members [wireDecode] resets once the name is known to be valid. *)
Definition resetMembers (name : Name) (i : InterestPkt) : InterestPkt :=
  mkInterestPkt name false false [] None DEFAULT_INTEREST_LIFETIME None [] (ip_wire i).

(** [wireDecode]. *)
Definition Interest_wireDecode (wire : Wire) : ME InterestPkt unit :=
  if bool_decide (w_type wire ≠ tlv_Interest) then throwE TlvError
  else
    _ ← modifyE (set_ip_wire (Some wire));
    elements ← liftE (Wire_subs wire);
    match elements with
    | [] => throwE TlvError
    | element :: elements =>
        if bool_decide (w_type element ≠ tlv_Name) then throwE TlvError
        else
          tempName ← liftE (Name_wireDecode (wire_block element));
          if bool_decide (length tempName = 0%nat) then throwE TlvError
          else if bool_decide (findParametersDigestComponent tempName = -2) then throwE TlvError
          else
            _ ← modifyE (resetMembers tempName);
            _ ← decodeElements 1 elements;
            if autoCheckParametersDigest then
              valid ← isParametersDigestValid;
              if negb valid then throwE TlvError else mret tt
            else mret tt
    end.

(** [wireEncode()]: the cached wire, or a new one, which is decoded again. *)
Definition Interest_wireEncode (fresh : list Z) : ME InterestPkt Wire :=
  cached ← getE ip_wire;
  match cached with
  | Some wire => mret wire
  | None =>
      bytes ← Interest_wireEncode_to fresh;
      wire ← liftE (Wire_ofSpan bytes);
      _ ← Interest_wireDecode wire;
      mret wire
  end.

(** ** Modifiers *)

(** [setName]. *)
Definition Interest_setName (name : Name) : ME InterestPkt unit :=
  let digestIndex := findParametersDigestComponent name in
  if bool_decide (digestIndex = -2) then throwE InvalidArgument
  else
    i ← getE id;
    if negb (Name_equals name (ip_name i)) then
      _ ← modifyE (set_ip_name name);
      _ ← (if hasApplicationParameters i then addOrReplaceParametersDigestComponent else mret tt);
      resetWire
    else mret tt.

Definition setCanBePrefix (b : bool) : ME InterestPkt unit :=
  i ← getE id;
  if negb (Bool.eqb b (ip_canBePrefix i))
  then _ ← modifyE (set_ip_canBePrefix b); resetWire else mret tt.
Definition setMustBeFresh (b : bool) : ME InterestPkt unit :=
  i ← getE id;
  if negb (Bool.eqb b (ip_mustBeFresh i))
  then _ ← modifyE (set_ip_mustBeFresh b); resetWire else mret tt.
Definition setForwardingHint (value : list Name) : ME InterestPkt unit :=
  _ ← modifyE (set_ip_forwardingHint value); resetWire.
Definition setNonce (nonce : option (list Z)) : ME InterestPkt unit :=
  i ← getE id;
  if bool_decide (nonce ≠ ip_nonce i)
  then _ ← modifyE (set_ip_nonce nonce); resetWire else mret tt.
Definition setInterestLifetime (lifetime : Z) : ME InterestPkt unit :=
  if bool_decide (lifetime < 0) then throwE InvalidArgument
  else
    i ← getE id;
    if bool_decide (lifetime ≠ ip_interestLifetime i)
    then _ ← modifyE (set_ip_interestLifetime lifetime); resetWire else mret tt.
Definition setHopLimit (hopLimit : option Z) : ME InterestPkt unit :=
  i ← getE id;
  if bool_decide (hopLimit ≠ ip_hopLimit i)
  then _ ← modifyE (set_ip_hopLimit hopLimit); resetWire else mret tt.

(** The constructor [Interest(name, lifetime)]. *)
Definition Interest_new (name : Name) (lifetime : Z) : outcome InterestPkt :=
  match (_ ← Interest_setName name; setInterestLifetime lifetime) Interest_members with
  | (Ok _, i) => Ok i
  | (Fault f, _) => Fault f
  end.
(** The constructor [Interest(wire)]. *)
Definition Interest_ofWire (wire : Wire) : outcome InterestPkt :=
  match Interest_wireDecode wire Interest_members with
  | (Ok _, i) => Ok i
  | (Fault f, _) => Fault f
  end.

(** [refreshNonce]; [words] are the random nonces drawn, the loop ends at the
    first that differs. *)
Fixpoint drawNonce (oldNonce : list Z) (words : list (list Z)) : outcome (list Z) :=
  match words with
  | [] => Fault Diverges
  | w :: words' => if bool_decide (w = oldNonce) then drawNonce oldNonce words' else Ok w
  end.
Definition refreshNonce (words : list (list Z)) : ME InterestPkt unit :=
  i ← getE id;
  match ip_nonce i with
  | None => mret tt
  | Some oldNonce =>
      n ← liftE (drawNonce oldNonce words);
      _ ← modifyE (set_ip_nonce (Some n)); resetWire
  end.

(** [setApplicationParametersInternal]. *)
Definition setApplicationParametersInternal (parameters : Wire) : ME InterestPkt unit :=
  i ← getE id;
  _ ← (match ip_parameters i with
       | [] => modifyE (set_ip_parameters [parameters])
       | first :: rest =>
           _ ← assertE (bool_decide (w_type first = tlv_ApplicationParameters));
           modifyE (set_ip_parameters (parameters :: rest))
       end);
  _ ← addOrReplaceParametersDigestComponent;
  resetWire.

(** [setApplicationParameters(span)], the string and buffer overloads. *)
Definition setApplicationParameters (value : list Z) : ME InterestPkt unit :=
  setApplicationParametersInternal (makeBinaryBlock tlv_ApplicationParameters value).
(** [setApplicationParameters(Block)], of a valid block with a wire. *)
Definition setApplicationParameters_block (parameters : Wire) : ME InterestPkt unit :=
  if bool_decide (w_type parameters = tlv_ApplicationParameters)
  then setApplicationParametersInternal parameters
  else setApplicationParametersInternal (makeBinaryBlock tlv_ApplicationParameters (w_bytes parameters)).

(** [unsetApplicationParameters]. *)
Definition unsetApplicationParameters : ME InterestPkt unit :=
  _ ← modifyE (set_ip_parameters []);
  i ← getE id;
  let digestIndex := findParametersDigestComponent (ip_name i) in
  _ ← (if bool_decide (0 ≤ digestIndex)
       then modifyE (set_ip_name (delete (Z.to_nat digestIndex) (ip_name i))) else mret tt);
  resetWire.

(** The position of the first parameter of a type, the end when there is
    none ([findFirstParameter]). *)
Fixpoint findFirstParameter (type : Z) (parameters : list Wire) : nat :=
  match parameters with
  | [] => 0
  | w :: parameters' =>
      if bool_decide (w_type w = type) then 0 else S (findFirstParameter type parameters')
  end.

(** [setSignatureInfo]; [encodedInfo] is the InterestSignatureInfo element.
    The empty ApplicationParameters is added before the comparison. *)
Definition setSignatureInfo (encodedInfo : Wire) : ME InterestPkt unit :=
  _ ← modifyE (fun i => match ip_parameters i with
                        | [] => set_ip_parameters [makeEmptyBlock tlv_ApplicationParameters] i
                        | _ => i
                        end);
  i ← getE id;
  let infoIt := findFirstParameter tlv_InterestSignatureInfo (ip_parameters i) in
  match ip_parameters i !! infoIt with
  | Some info =>
      if bool_decide (wire_block info = wire_block encodedInfo) then mret tt
      else
        _ ← modifyE (set_ip_parameters (<[infoIt := encodedInfo]> (ip_parameters i)));
        _ ← addOrReplaceParametersDigestComponent; resetWire
  | None =>
      let valueIt := findFirstParameter tlv_InterestSignatureValue (ip_parameters i) in
      _ ← modifyE (set_ip_parameters
             (take valueIt (ip_parameters i) ++ encodedInfo :: drop valueIt (ip_parameters i)));
      _ ← addOrReplaceParametersDigestComponent; resetWire
  end.

(** [setSignatureValueInternal]. *)
Definition setSignatureValueInternal (sigValue : Wire) : ME InterestPkt unit :=
  i ← getE id;
  let infoIt := findFirstParameter tlv_InterestSignatureInfo (ip_parameters i) in
  match ip_parameters i !! infoIt with
  | None => throwE TlvError
  | Some _ =>
      let valueIt := findFirstParameter tlv_InterestSignatureValue (ip_parameters i) in
      match ip_parameters i !! valueIt with
      | Some value =>
          if bool_decide (wire_block value = wire_block sigValue) then mret tt
          else
            _ ← modifyE (set_ip_parameters (<[valueIt := sigValue]> (ip_parameters i)));
            _ ← addOrReplaceParametersDigestComponent; resetWire
      | None =>
          _ ← modifyE (set_ip_parameters
                 (take (S infoIt) (ip_parameters i) ++ sigValue :: drop (S infoIt) (ip_parameters i)));
          _ ← addOrReplaceParametersDigestComponent; resetWire
      end
  end.
End interest.

(** ** The position of the digest component *)

Definition noDigest (n : Name) : Prop := Forall (fun c => isParametersSha256Digest c = false) n.

Lemma findDigest_loop_none i pos n : noDigest n → findDigest_loop i pos n = pos.
Proof.
  intros Hn. revert i. induction Hn as [|c n Hc _ IH]; intros i; cbn; [done|]. by rewrite Hc.
Qed.
Lemma findDigest_loop_second i pos n : pos ≠ -1 → ¬ noDigest n → findDigest_loop i pos n = -2.
Proof.
  intros Hpos. revert i. induction n as [|c n IH]; intros i Hn; cbn; [by destruct Hn; constructor|].
  destruct (isParametersSha256Digest c) eqn:Hc; [by rewrite bool_decide_true|].
  apply IH. intros H. apply Hn. by constructor.
Qed.
#[export] Instance noDigest_dec n : Decision (noDigest n).
Proof. unfold noDigest. apply _. Defined.

Inductive digestCase (n : Name) : Z → Prop :=
| digest_none : noDigest n → digestCase n (-1)
| digest_many : (∃ l1 c l2, n = l1 ++ c :: l2 ∧ isParametersSha256Digest c = true ∧ ¬ noDigest l2) →
    digestCase n (-2)
| digest_one l1 c l2 : n = l1 ++ c :: l2 → isParametersSha256Digest c = true → noDigest l1 →
    noDigest l2 → digestCase n (Z.of_nat (length l1)).

Lemma findDigest_loop_skip i pos l1 n :
  noDigest l1 → findDigest_loop i pos (l1 ++ n) = findDigest_loop (i + Z.of_nat (length l1)) pos n.
Proof.
  intros Hl. revert i. induction Hl as [|c l1 Hc _ IH]; intros i; cbn [app findDigest_loop length].
  - f_equal. lia.
  - rewrite Hc, IH. f_equal. lia.
Qed.

Lemma split_first (n : Name) :
  noDigest n ∨ ∃ l1 c l2, n = l1 ++ c :: l2 ∧ isParametersSha256Digest c = true ∧ noDigest l1.
Proof.
  induction n as [|c n IH]; [left; constructor|].
  destruct (isParametersSha256Digest c) eqn:Hc.
  - right. exists [], c, n. split_and!; [done..|constructor].
  - destruct IH as [Hn|(l1 & c' & l2 & -> & Hc' & Hl1)]; [left; by constructor|].
    right. exists (c :: l1), c', l2. split_and!; [done..|by constructor].
Qed.

Lemma findDigest_one l1 c l2 :
  isParametersSha256Digest c = true → noDigest l1 → noDigest l2 →
  findParametersDigestComponent (l1 ++ c :: l2) = Z.of_nat (length l1).
Proof.
  intros Hc Hl1 Hl2. unfold findParametersDigestComponent.
  rewrite findDigest_loop_skip by done. cbn [findDigest_loop]. rewrite Hc.
  rewrite bool_decide_false by auto. rewrite findDigest_loop_none by done. lia.
Qed.

Lemma findDigest_cases n : digestCase n (findParametersDigestComponent n).
Proof.
  destruct (split_first n) as [Hn|(l1 & c & l2 & -> & Hc & Hl1)].
  - unfold findParametersDigestComponent. rewrite findDigest_loop_none by done. by constructor.
  - destruct (decide (noDigest l2)) as [Hl2|Hl2].
    + rewrite findDigest_one by done. by econstructor.
    + unfold findParametersDigestComponent. rewrite findDigest_loop_skip by done.
      cbn [findDigest_loop]. rewrite Hc, bool_decide_false by auto.
      rewrite findDigest_loop_second by (done || lia). constructor. eauto 10.
Qed.

(** ** What is written *)

(** A parameter after ApplicationParameters that the decoder keeps. *)
Definition isExtra (type : Z) : bool :=
  negb (isCriticalType type) && bool_decide (type ≠ tlv_HopLimit ∧ type ≠ tlv_ApplicationParameters).
Definition params_ok (ps : list Wire) : Prop :=
  Forall Wire_closed ps ∧
  match ps with
  | [] => True
  | first :: rest => w_type first = tlv_ApplicationParameters ∧
                     Forall (fun w => isExtra (w_type w) = true) rest
  end.

Definition opt {A} (b : bool) (x : A) : list A := if b then [x] else [].

Definition hintWire (names : list Name) : Wire :=
  makeBinaryBlock tlv_ForwardingHint (foldr Name_wireEncode [] names).

(** The elements of the packet, in order. *)
Definition Interest_elements (i : InterestPkt) (nonce : list Z) : list Wire :=
  [nameWire (ip_name i)] ++
  opt (ip_canBePrefix i) (makeEmptyBlock tlv_CanBePrefix) ++
  opt (ip_mustBeFresh i) (makeEmptyBlock tlv_MustBeFresh) ++
  opt (negb (bool_decide (length (ip_forwardingHint i) = 0%nat))) (hintWire (ip_forwardingHint i)) ++
  [makeBinaryBlock tlv_Nonce nonce] ++
  opt (bool_decide (ip_interestLifetime i ≠ DEFAULT_INTEREST_LIFETIME))
    (makeBinaryBlock tlv_InterestLifetime (prependNonNegativeInteger (u64 (ip_interestLifetime i)) [])) ++
  (match ip_hopLimit i with Some h => [makeBinaryBlock tlv_HopLimit [h]] | None => [] end) ++
  ip_parameters i.

Lemma Interest_encodeFields_elements i nonce :
  Interest_encodeFields i nonce = wiresBytes (Interest_elements i nonce) [].
Proof.
  unfold Interest_encodeFields, Interest_elements, hintWire. rewrite !wiresBytes_app, Name_wireEncode_make.
  cbn [wiresBytes foldr app]. rewrite !prependEmptyBlock_make, prependNestedBlock_make.
  rewrite prependNonNegativeIntegerBlock_make, <-!prependBlock_make.
  f_equal. unfold wiresBytes.
  destruct (ip_canBePrefix i), (ip_mustBeFresh i), (ip_hopLimit i);
    repeat case_bool_decide; cbn [opt foldr app negb]; rewrite ?prependBlock_make; done.
Qed.

(** ** What is read *)

Section steps.
Context (n : Name) (w : option Wire).

Lemma decode_canBePrefix b last :
  last < 2 →
  ∃ last', last' < 3 ∧ ∀ rest,
    decodeElements last (opt b (makeEmptyBlock tlv_CanBePrefix) ++ rest)
      (mkInterestPkt n false false [] None DEFAULT_INTEREST_LIFETIME None [] w) =
    decodeElements last' rest (mkInterestPkt n b false [] None DEFAULT_INTEREST_LIFETIME None [] w).
Proof.
  intros Hl. destruct b; [|exists last; split; [lia|done]]. exists 2. split; [lia|]. intros rest.
  cbn [opt app decodeElements]. unfold decodeElement. cbn [w_type makeEmptyBlock makeBinaryBlock Wire_ofBlock blk_type].
  rewrite bool_decide_true by done. by rewrite bool_decide_false by lia.
Qed.

Lemma decode_mustBeFresh cbp b last :
  last < 3 →
  ∃ last', last' < 4 ∧ ∀ rest,
    decodeElements last (opt b (makeEmptyBlock tlv_MustBeFresh) ++ rest)
      (mkInterestPkt n cbp false [] None DEFAULT_INTEREST_LIFETIME None [] w) =
    decodeElements last' rest (mkInterestPkt n cbp b [] None DEFAULT_INTEREST_LIFETIME None [] w).
Proof.
  intros Hl. destruct b; [|exists last; split; [lia|done]]. exists 3. split; [lia|]. intros rest.
  cbn [opt app decodeElements]. unfold decodeElement. cbn [w_type makeEmptyBlock makeBinaryBlock Wire_ofBlock blk_type].
  rewrite bool_decide_false, bool_decide_true by done. by rewrite bool_decide_false by lia.
Qed.

Lemma forE_delegations (names : list Name) i :
  Forall name_wf names →
  forE_ (map nameWire names) decodeDelegation i =
    (Ok tt, set_ip_forwardingHint (ip_forwardingHint i ++ names) i).
Proof.
  intros Hn. revert i. induction Hn as [|m names Hm _ IH]; intros i.
  { cbn. destruct i. cbn. by rewrite app_nil_r. }
  cbn [map forE_]. rewrite (bindE _ _ i tt (set_ip_forwardingHint (ip_forwardingHint i ++ [m]) i)).
  - rewrite IH. destruct i. cbn. by rewrite <-app_assoc.
  - unfold decodeDelegation. cbn [w_type nameWire makeBinaryBlock Wire_ofBlock blk_type].
    rewrite bool_decide_true by done. fold (makeBinaryBlock tlv_Name (foldr Component_wireEncode [] m)).
    fold (nameWire m). rewrite (bindE _ _ i m i); [done|].
    unfold liftE. by rewrite Name_wireDecode_nameWire.
Qed.

Lemma hintWire_subs names :
  Forall (fun m => Wire_closed (nameWire m)) names → Wire_subs (hintWire names) = Ok (map nameWire names).
Proof.
  intros Hc. unfold hintWire.
  assert (foldr Name_wireEncode [] names = wiresBytes (map nameWire names) []) as ->.
  { clear Hc. induction names as [|m names IH]; [done|]. cbn [foldr map]. rewrite IH.
    by rewrite Name_wireEncode_make. }
  apply Wire_subs_make. by apply Forall_map.
Qed.

Lemma decode_hint cbp mbf names last :
  last < 4 → Forall name_wf names → Forall (fun m => Wire_closed (nameWire m)) names →
  ∃ last', last' < 5 ∧ ∀ rest,
    decodeElements last
      (opt (negb (bool_decide (length names = 0%nat))) (hintWire names) ++ rest)
      (mkInterestPkt n cbp mbf [] None DEFAULT_INTEREST_LIFETIME None [] w) =
    decodeElements last' rest (mkInterestPkt n cbp mbf names None DEFAULT_INTEREST_LIFETIME None [] w).
Proof.
  intros Hl Hn Hc. case_bool_decide as Hlen.
  { apply nil_length_inv in Hlen as ->. exists last. split; [lia|done]. }
  exists 4. split; [lia|]. intros rest. cbn [opt negb app decodeElements]. unfold decodeElement.
  cbn [w_type hintWire makeBinaryBlock Wire_ofBlock blk_type].
  rewrite bool_decide_false, bool_decide_false, bool_decide_true by done.
  rewrite bool_decide_false by lia. fold (makeBinaryBlock tlv_ForwardingHint (foldr Name_wireEncode [] names)).
  fold (hintWire names). set (i := mkInterestPkt _ _ _ _ _ _ _ _ _).
  rewrite (bindE _ _ i 4 (mkInterestPkt n cbp mbf names None DEFAULT_INTEREST_LIFETIME None [] w)); [done|].
  rewrite (bindE _ _ i (map nameWire names) i) by (unfold liftE; by rewrite hintWire_subs).
  by rewrite (bindE _ _ i tt _ (forE_delegations names i Hn)).
Qed.

Lemma decode_nonce cbp mbf names nonce rest last :
  last < 5 → length nonce = 4%nat →
  decodeElements last (makeBinaryBlock tlv_Nonce nonce :: rest)
    (mkInterestPkt n cbp mbf names None DEFAULT_INTEREST_LIFETIME None [] w) =
  decodeElements 5 rest (mkInterestPkt n cbp mbf names (Some nonce) DEFAULT_INTEREST_LIFETIME None [] w).
Proof.
  intros Hl Hlen. cbn [decodeElements]. unfold decodeElement.
  cbn [w_type w_value makeBinaryBlock Wire_ofBlock blk_type blk_value].
  rewrite bool_decide_false, bool_decide_false, bool_decide_false, bool_decide_true by done.
  rewrite bool_decide_false by lia. by rewrite bool_decide_false by auto.
Qed.

Lemma decode_lifetime cbp mbf names nonce lifetime :
  - 2 ^ 63 ≤ lifetime < 2 ^ 63 →
  ∃ last', last' < 7 ∧ ∀ rest,
    decodeElements 5
      (opt (bool_decide (lifetime ≠ DEFAULT_INTEREST_LIFETIME))
         (makeBinaryBlock tlv_InterestLifetime (prependNonNegativeInteger (u64 lifetime) [])) ++ rest)
      (mkInterestPkt n cbp mbf names nonce DEFAULT_INTEREST_LIFETIME None [] w) =
    decodeElements last' rest (mkInterestPkt n cbp mbf names nonce lifetime None [] w).
Proof.
  intros Hz. case_bool_decide as Hd.
  2:{ exists 5. split; [lia|]. destruct (decide (lifetime = DEFAULT_INTEREST_LIFETIME)) as [->|?]; done. }
  exists 6. split; [lia|]. intros rest. cbn [opt app decodeElements]. unfold decodeElement.
  cbn [w_type w_value makeBinaryBlock Wire_ofBlock blk_type blk_value].
  rewrite bool_decide_false, bool_decide_false, bool_decide_false, bool_decide_false, bool_decide_true by done.
  rewrite bool_decide_false by lia. rewrite length_prependNonNegativeInteger.
  set (i := mkInterestPkt _ _ _ _ _ _ _ _ _).
  rewrite (bindE _ _ i 6 (mkInterestPkt n cbp mbf names nonce lifetime None [] w)); [done|].
  rewrite (bindE _ _ i (u64 lifetime, []) i).
  - unfold i. cbn. by rewrite i64_u64.
  - unfold liftE. rewrite readNonNegativeInteger_written; [done|]. unfold is_u64, u64.
    apply Z.mod_pos_bound. lia.
Qed.

Lemma decode_hopLimit cbp mbf names nonce lifetime hop last :
  last < 7 →
  ∃ last', last' < 8 ∧ ∀ rest,
    decodeElements last
      ((match hop with Some h => [makeBinaryBlock tlv_HopLimit [h]] | None => [] end) ++ rest)
      (mkInterestPkt n cbp mbf names nonce lifetime None [] w) =
    decodeElements last' rest (mkInterestPkt n cbp mbf names nonce lifetime hop [] w).
Proof.
  intros Hl. destruct hop as [h|]; [|exists last; split; [lia|done]].
  exists 7. split; [lia|]. intros rest. cbn [app decodeElements]. unfold decodeElement.
  cbn [w_type w_value makeBinaryBlock Wire_ofBlock blk_type blk_value].
  rewrite bool_decide_false, bool_decide_false, bool_decide_false, bool_decide_false,
    bool_decide_false, bool_decide_true by done.
  by rewrite bool_decide_false by lia.
Qed.
End steps.

(** The parameters, after the other elements. *)
Lemma decodeElement_extra last e i :
  isExtra (w_type e) = true →
  decodeElement last e i =
    (Ok last, if hasApplicationParameters i then set_ip_parameters (ip_parameters i ++ [e]) i else i).
Proof.
  unfold isExtra. intros [Hcrit Ht]%andb_true_iff. apply negb_true_iff in Hcrit.
  apply bool_decide_eq_true in Ht as [H1 H2]. unfold decodeElement.
  assert (∀ t, isCriticalType t = true → w_type e ≠ t) as Hne by (intros t Hc Heq; congruence).
  rewrite bool_decide_false by (apply Hne; done).
  rewrite bool_decide_false by (apply Hne; done). rewrite bool_decide_false by (apply Hne; done).
  rewrite bool_decide_false by (apply Hne; done). rewrite bool_decide_false by (apply Hne; done).
  rewrite bool_decide_false by done. rewrite bool_decide_false by done. rewrite Hcrit.
  rewrite (bindE _ _ i (hasApplicationParameters i) i) by done.
  by destruct (hasApplicationParameters i).
Qed.

Lemma decode_extras rest last i :
  Forall (fun w => isExtra (w_type w) = true) rest → hasApplicationParameters i = true →
  decodeElements last rest i = (Ok tt, set_ip_parameters (ip_parameters i ++ rest) i).
Proof.
  intros Hr. revert i. induction Hr as [|e rest He _ IH]; intros i Hi.
  { destruct i. cbn. by rewrite app_nil_r. }
  cbn [decodeElements].
  rewrite (bindE _ _ i last (set_ip_parameters (ip_parameters i ++ [e]) i))
    by (by rewrite decodeElement_extra, Hi).
  rewrite IH.
  - destruct i. cbn. by rewrite <-app_assoc.
  - unfold hasApplicationParameters. cbn [ip_parameters set_ip_parameters]. rewrite length_app. simpl.
    rewrite bool_decide_false by lia. done.
Qed.

Lemma decode_params ps last i :
  last < 8 → params_ok ps → ip_parameters i = [] →
  decodeElements last ps i = (Ok tt, set_ip_parameters ps i).
Proof.
  intros Hl [_ Hps] Hi. destruct ps as [|first rest]; [by destruct i; cbn in *; subst|].
  destruct Hps as [Ht Hr]. cbn [decodeElements].
  rewrite (bindE _ _ i 8 (set_ip_parameters [first] i)); [by rewrite decode_extras|].
  unfold decodeElement. rewrite Ht.
  rewrite bool_decide_false, bool_decide_false, bool_decide_false, bool_decide_false,
    bool_decide_false, bool_decide_false, bool_decide_true by done.
  rewrite bool_decide_false by lia. destruct i. cbn in Hi. by subst.
Qed.

(** What the fields of the packet must be for the encoding to be readable. *)
Record fields_ok (i : InterestPkt) (nonce : list Z) : Prop := {
  f_name : name_wf (ip_name i);
  f_hint : Forall name_wf (ip_forwardingHint i);
  f_nonce : length nonce = 4%nat ∧ bytes_ok nonce;
  f_lifetime : - 2 ^ 63 ≤ ip_interestLifetime i < 2 ^ 63;
  f_hopLimit : ∀ h, ip_hopLimit i = Some h → is_byte h;
  f_params : params_ok (ip_parameters i);
  f_size : Z.of_nat (length (Interest_encodeFields i nonce)) < 2 ^ 63
}.

Lemma make_closed type value ws :
  0 < type < 2 ^ 32 → bytes_ok value → makeBinaryBlock type value ∈ ws →
  Z.of_nat (length (wiresBytes ws [])) < 2 ^ 63 → Wire_closed (makeBinaryBlock type value).
Proof.
  intros Ht Hb Hin Hl. apply makeBinaryBlock_closed; [done| |done].
  apply wire_in_length in Hin. unfold makeBinaryBlock in Hin. cbn [w_bytes Wire_ofBlock] in Hin.
  rewrite Block_encode_app, !length_app in Hin. cbn [blk_value] in Hin. lia.
Qed.

Lemma hints_closed names :
  Forall name_wf names → Z.of_nat (length (foldr Name_wireEncode [] names)) < 2 ^ 63 →
  Forall (fun m => Wire_closed (nameWire m)) names ∧ bytes_ok (foldr Name_wireEncode [] names).
Proof.
  intros Hn Hl.
  assert (foldr Name_wireEncode [] names = wiresBytes (map nameWire names) []) as E.
  { clear. induction names as [|m names IH]; [done|]. cbn [foldr map]. rewrite IH.
    by rewrite Name_wireEncode_make. }
  rewrite E in *. assert (Forall Wire_closed (map nameWire names)) as Hc.
  { apply Forall_forall. intros w (m & -> & Hm)%list_elem_of_fmap.
    apply (make_closed _ _ (map nameWire names)); [done| |exact (list_elem_of_fmap_2 nameWire names m Hm)|done].
    apply Name_value_bytes. rewrite Forall_forall in Hn. by apply Hn. }
  split; [|by apply wiresBytes_ok]. by rewrite Forall_map in Hc.
Qed.

Section encoded.
Context (i : InterestPkt) (nonce : list Z) (Hi : fields_ok i nonce).

Lemma hint_small : Z.of_nat (length (foldr Name_wireEncode [] (ip_forwardingHint i))) < 2 ^ 63.
Proof using Hi.
  destruct (ip_forwardingHint i) as [|m names] eqn:E; [done|]. rewrite <-E.
  pose proof (f_size _ _ Hi) as Hs. rewrite Interest_encodeFields_elements in Hs.
  assert (hintWire (ip_forwardingHint i) ∈ Interest_elements i nonce) as Hin%wire_in_length.
  { unfold Interest_elements. rewrite E. cbn [length negb]. rewrite bool_decide_false by done.
    cbn [opt negb]. rewrite !elem_of_app, !list_elem_of_singleton. tauto. }
  unfold hintWire, makeBinaryBlock in Hin. cbn [w_bytes Wire_ofBlock] in Hin.
  rewrite Block_encode_app, !length_app in Hin. cbn [blk_value] in Hin. lia.
Qed.

Lemma elements_closed :
  Forall Wire_closed (Interest_elements i nonce) ∧
  Forall (fun m => Wire_closed (nameWire m)) (ip_forwardingHint i).
Proof using Hi.
  pose proof (f_size _ _ Hi) as Hs. rewrite Interest_encodeFields_elements in Hs.
  destruct (hints_closed _ (f_hint _ _ Hi) hint_small) as [Hh Hhb]. split; [|done].
  destruct Hi as [Hn _ [Hn4 Hnb] Hlt Hhop [Hpc _] _].
  assert (∀ e type value, e = makeBinaryBlock type value → 0 < type < 2 ^ 32 → bytes_ok value →
    e ∈ Interest_elements i nonce → Wire_closed e) as Hc.
  { intros e type value -> Ht Hb Hin. by eapply make_closed. }
  apply Forall_forall. intros e He. pose proof He as He'. unfold Interest_elements in He.
  rewrite !elem_of_app in He.
  destruct He as [He|[He|[He|[He|[He|[He|[He|He]]]]]]].
  - apply list_elem_of_singleton in He. eapply Hc; [exact He|done|by apply Name_value_bytes|done].
  - destruct (ip_canBePrefix i); [|by apply elem_of_nil in He].
    apply list_elem_of_singleton in He. eapply Hc; [exact He|done|constructor|done].
  - destruct (ip_mustBeFresh i); [|by apply elem_of_nil in He].
    apply list_elem_of_singleton in He. eapply Hc; [exact He|done|constructor|done].
  - destruct (negb _); [|by apply elem_of_nil in He].
    apply list_elem_of_singleton in He. eapply Hc; [exact He|done|done|done].
  - apply list_elem_of_singleton in He. by eapply Hc.
  - destruct (bool_decide _); [|by apply elem_of_nil in He].
    apply list_elem_of_singleton in He.
    eapply Hc; [exact He|done|apply prependNonNegativeInteger_bytes|done].
  - destruct (ip_hopLimit i) as [h|]; [|by apply elem_of_nil in He].
    apply list_elem_of_singleton in He. eapply Hc; [exact He|done| |done].
    constructor; [by apply Hhop|done].
  - rewrite Forall_forall in Hpc. by apply Hpc.
Qed.

Lemma decodeElements_elements w :
  ∃ tail, Interest_elements i nonce = nameWire (ip_name i) :: tail ∧
    decodeElements 1 tail (mkInterestPkt (ip_name i) false false [] None DEFAULT_INTEREST_LIFETIME None [] w)
    = (Ok tt, set_ip_wire w (set_ip_nonce (Some nonce) i)).
Proof using Hi.
  pose proof elements_closed as [_ Hhc]. destruct Hi as [_ Hh [Hn4 _] Hlt _ Hp _].
  eexists. split; [reflexivity|].
  destruct (decode_canBePrefix (ip_name i) w (ip_canBePrefix i) 1) as (l1 & Hl1 & E1); [lia|].
  destruct (decode_mustBeFresh (ip_name i) w (ip_canBePrefix i) (ip_mustBeFresh i) l1 Hl1)
    as (l2 & Hl2 & E2).
  destruct (decode_hint (ip_name i) w (ip_canBePrefix i) (ip_mustBeFresh i) _ l2 Hl2 Hh Hhc)
    as (l3 & Hl3 & E3).
  destruct (decode_lifetime (ip_name i) w (ip_canBePrefix i) (ip_mustBeFresh i) (ip_forwardingHint i)
    (Some nonce) _ Hlt) as (l4 & Hl4 & E4).
  destruct (decode_hopLimit (ip_name i) w (ip_canBePrefix i) (ip_mustBeFresh i) (ip_forwardingHint i)
    (Some nonce) (ip_interestLifetime i) (ip_hopLimit i) l4 Hl4) as (l5 & Hl5 & E5).
  rewrite E1, E2, E3. cbn [app]. rewrite decode_nonce, E4, E5, decode_params by done. by destruct i.
Qed.
End encoded.

Section decode.
Context (sha256 : list Z → list Z).

(** The digest component is there exactly when there are parameters, and is
    their digest. *)
Definition digest_ok (i : InterestPkt) : Prop :=
  if hasApplicationParameters i then
    ∃ l1 c l2, ip_name i = l1 ++ c :: l2 ∧ isParametersSha256Digest c = true ∧
      noDigest l1 ∧ noDigest l2 ∧ cvalue c = computeParametersDigest sha256 i
  else noDigest (ip_name i).

Lemma digest_ok_valid i : digest_ok i → isParametersDigestValid sha256 i = (Ok true, i).
Proof.
  unfold digest_ok, isParametersDigestValid. intros Hd.
  rewrite (bindE _ _ i i i) by done. cbv zeta.
  destruct (hasApplicationParameters i) eqn:Hp.
  - destruct Hd as (l1 & c & l2 & Hn & Hc & H1 & H2 & Hv).
    rewrite Hn, findDigest_one by done. rewrite bool_decide_false by lia.
    rewrite (bindE _ _ i tt i) by (unfold assertE, liftE; by rewrite bool_decide_true by lia).
    cbn [negb]. rewrite (bindE _ _ i c i).
    + rewrite bool_decide_true by done. done.
    + unfold liftE. rewrite (Name_get_nat _ (length l1) c); [done|].
      rewrite lookup_app_r, Nat.sub_diag by lia. done.
  - unfold findParametersDigestComponent. rewrite findDigest_loop_none by done. done.
Qed.

Lemma digest_ok_single i : digest_ok i → findParametersDigestComponent (ip_name i) ≠ -2.
Proof.
  unfold digest_ok. destruct (hasApplicationParameters i).
  - intros (l1 & c & l2 & -> & Hc & H1 & H2 & _). rewrite findDigest_one by done. lia.
  - intros Hn. unfold findParametersDigestComponent. by rewrite findDigest_loop_none.
Qed.

(** Decoding the element that [wireEncode] writes gives the fields back. *)
Lemma Interest_decode_encoded auto i nonce s :
  fields_ok i nonce → ip_name i ≠ [] → findParametersDigestComponent (ip_name i) ≠ -2 →
  (auto = true → digest_ok i) →
  let w := makeBinaryBlock tlv_Interest (Interest_encodeFields i nonce) in
  Wire_closed w ∧
  Interest_wireDecode sha256 auto w s = (Ok tt, set_ip_wire (Some w) (set_ip_nonce (Some nonce) i)).
Proof.
  intros Hi Hne Hsingle Hd w. destruct (elements_closed i nonce Hi) as [Hc _].
  pose proof (f_size _ _ Hi) as Hs. split.
  - apply makeBinaryBlock_closed; [done|lia|]. rewrite Interest_encodeFields_elements.
    by apply wiresBytes_ok.
  - unfold Interest_wireDecode. cbn [w_type w makeBinaryBlock Wire_ofBlock blk_type]. fold w.
    rewrite bool_decide_false by auto. rewrite (bindE _ _ s tt (set_ip_wire (Some w) s)) by done.
    rewrite (bindE _ _ _ (Interest_elements i nonce) (set_ip_wire (Some w) s)).
    2:{ unfold liftE, w. by rewrite Interest_encodeFields_elements, Wire_subs_make. }
    destruct (decodeElements_elements i nonce Hi (Some w)) as (tail & -> & E).
    cbn [w_type nameWire makeBinaryBlock Wire_ofBlock blk_type].
    rewrite bool_decide_false by auto.
    fold (makeBinaryBlock tlv_Name (foldr Component_wireEncode [] (ip_name i))).
    fold (nameWire (ip_name i)). set (s1 := set_ip_wire (Some w) s).
    rewrite (bindE _ _ s1 (ip_name i) s1)
      by (unfold liftE; by rewrite Name_wireDecode_nameWire by apply Hi).
    rewrite bool_decide_false by (by destruct (ip_name i)).
    rewrite bool_decide_false by done.
    rewrite (bindE _ _ s1 tt (resetMembers (ip_name i) s1)) by done.
    rewrite (bindE _ _ _ tt _ E). destruct auto; [|done].
    set (i' := set_ip_wire (Some w) (set_ip_nonce (Some nonce) i)).
    rewrite (bindE _ _ i' true i'); [done|]. apply (digest_ok_valid i'). by apply Hd.
Qed.

(** ** What decoding can throw, and what it yields *)

(** ApplicationParameters have been seen only when [lastElement] says so. *)
Definition seenParams (last : Z) (i : InterestPkt) : Prop := last < 8 → ip_parameters i = [].

(** The members but the parameters, as the encoder needs them. *)
Record members_ok (i : InterestPkt) : Prop := {
  m_name : name_wf (ip_name i);
  m_hint : Forall name_wf (ip_forwardingHint i);
  m_nonce : ∀ n, ip_nonce i = Some n → length n = 4%nat ∧ bytes_ok n;
  m_lifetime : - 2 ^ 63 ≤ ip_interestLifetime i < 2 ^ 63;
  m_hopLimit : ∀ h, ip_hopLimit i = Some h → is_byte h;
  m_params : params_ok (ip_parameters i)
}.

(** The invariant of the loop; that of the members holds when the input is
    well-formed ([P]). *)
Context (P : Prop).
Definition decoding (name : Name) (w : option Wire) (last : Z) (i : InterestPkt) : Prop :=
  (P → members_ok i) ∧ seenParams last i ∧ ip_name i = name ∧ ip_wire i = w.

Lemma readNonNegativeInteger_fault v f :
  readNonNegativeInteger (length v) v = Fault f → f = Throw TlvError.
Proof.
  intros E. apply (readNonNegativeInteger_throws (Build_Block 0 v)).
  unfold readNonNegativeInteger_block. cbn [blk_value]. by rewrite E.
Qed.

Lemma i64_range z : - 2 ^ 63 ≤ i64 z < 2 ^ 63.
Proof. unfold i64. pose proof (Z.mod_pos_bound (z + 2 ^ 63) (2 ^ 64)). lia. Qed.

Lemma Name_decode_small w n : smallWire w → Name_wireDecode (wire_block w) = Ok n → name_wf n.
Proof. intros [(_ & _ & Hb & _) Hl]. by apply Name_wireDecode_wf. Qed.

Lemma decodeDelegation_ok name w del i :
  (P → smallWire del) → decoding name w 1 i →
  decodesTo (decodeDelegation del) (fun _ => decoding name w 1) i.
Proof.
  intros Hd Hi. assert (∀ n, (P → name_wf n) → decoding name w 1
    (set_ip_forwardingHint (ip_forwardingHint i ++ [n]) i)) as Hpush.
  { intros n Hn. destruct Hi as (Hm & Hi). split; [|done]. intros HP. destruct (Hm HP).
    split; try done. cbn. apply Forall_app. split; [done|]. constructor; [by apply Hn|done]. }
  unfold decodeDelegation. apply decodesTo_decide; intros Ht.
  - apply decodesTo_bind, decodesTo_lift; [apply Name_wireDecode_throws|]. intros n Hn.
    apply decodesTo_modify, Hpush. intros HP. by eapply Name_decode_small; [apply Hd|].
  - apply decodesTo_decide; intros Ht'.
    + apply decodesTo_bind, decodesTo_lift; [apply Wire_subs_throws|]. intros subs Hs.
      assert (P → Forall smallWire subs) as Hsmall.
      { intros HP. destruct (Hd HP) as [(_ & _ & Hb & _) Hl]. by eapply subs_small. }
      destruct (findWire tlv_Name subs) as [e|] eqn:Ef; [|apply decodesTo_throw].
      apply find_some in Ef as [He%list_elem_of_In _].
      apply decodesTo_bind, decodesTo_lift; [apply Name_wireDecode_throws|]. intros n Hn.
      apply decodesTo_modify, Hpush. intros HP. specialize (Hsmall HP).
      rewrite Forall_forall in Hsmall. eapply Name_decode_small; [by apply Hsmall|done].
    + apply decodesTo_if; intros _; [apply decodesTo_throw|by apply decodesTo_ret].
Qed.

Lemma params_ok_push i e :
  hasApplicationParameters i = true → params_ok (ip_parameters i) → Wire_closed e →
  isExtra (w_type e) = true → params_ok (ip_parameters i ++ [e]).
Proof.
  unfold hasApplicationParameters. destruct (ip_parameters i) as [|first rest]; [done|].
  intros _ [Hc [Ht Hr]] He Hx. split.
  - apply (Forall_app _ (first :: rest)). by split; [|constructor].
  - cbn. split; [done|]. apply Forall_app. by split; [|constructor].
Qed.

(** A member was set, and the parameters are still empty. *)
Ltac member_set Hm Hp :=
  unfold decoding; split_and!;
    [let HP := fresh "HP" in intros HP; specialize (Hm HP); destruct Hm; split; cbn; try done
    |intros _; exact Hp|done|done].

Lemma decodeElement_ok name w last e i :
  1 ≤ last → (P → smallWire e) → decoding name w last i →
  decodesTo (decodeElement last e) (fun last' i' => 1 ≤ last' ∧ decoding name w last' i') i.
Proof.
  intros Hlast He Hi. pose proof Hi as (Hm & Hseen & Hn & Hw). unfold decodeElement.
  assert (∀ last', last' < 8 → last < last' → 1 ≤ last' ∧ ip_parameters i = []) as Hnext.
  { intros l Hl1 Hl2. split; [lia|]. apply Hseen. lia. }
  apply decodesTo_decide; intros H1.
  { apply decodesTo_decide; intros Hl; [apply decodesTo_throw|].
    apply decodesTo_decide; intros Hv; [apply decodesTo_throw|].
    destruct (Hnext 2) as [? Hp]; [lia..|]. split; [done|].
    member_set Hm Hp. }
  apply decodesTo_decide; intros H2.
  { apply decodesTo_decide; intros Hl; [apply decodesTo_throw|].
    apply decodesTo_decide; intros Hv; [apply decodesTo_throw|].
    destruct (Hnext 3) as [? Hp]; [lia..|]. split; [done|].
    member_set Hm Hp. }
  apply decodesTo_decide; intros H3.
  { apply decodesTo_decide; intros Hl; [apply decodesTo_throw|].
    apply decodesTo_bind, decodesTo_lift; [apply Wire_subs_throws|]. intros ds Hds.
    assert (P → Forall smallWire ds) as Hsmall.
    { intros HP. destruct (He HP) as [(_ & _ & Hb & _) Hel]. by eapply subs_small. }
    apply decodesTo_bind. eapply decodesTo_mono.
    - apply (decodesTo_forE (decoding name w 1)).
      + split_and!; [done|intros _; apply Hseen; lia|done|done].
      + intros d i' Hd Hi'. apply decodeDelegation_ok; [|done]. intros HP. specialize (Hsmall HP).
        rewrite Forall_forall in Hsmall. auto.
    - intros [] i' (Hm' & Hs' & Hn' & Hw'). split; [lia|]. split_and!; [done| |done|done].
      intros _. apply Hs'. lia. }
  apply decodesTo_decide; intros H4.
  { apply decodesTo_decide; intros Hl; [apply decodesTo_throw|].
    apply decodesTo_decide; intros Hv; [apply decodesTo_throw|].
    destruct (Hnext 5) as [? Hp]; [lia..|]. split; [done|].
    member_set Hm Hp. destruct (He HP) as [(_ & _ & Hb & _) _]. intros n [= <-].
    split; [|done]. by destruct (decide (length (w_value e) = 4%nat)). }
  apply decodesTo_decide; intros H5.
  { apply decodesTo_decide; intros Hl; [apply decodesTo_throw|].
    apply decodesTo_bind, decodesTo_lift; [apply readNonNegativeInteger_fault|]. intros [n r] _.
    destruct (Hnext 6) as [? Hp]; [lia..|]. split; [done|].
    pose proof (i64_range n). member_set Hm Hp. }
  apply decodesTo_decide; intros H6.
  { apply decodesTo_decide; intros Hl; [by apply decodesTo_ret|].
    destruct (w_value e) as [|h [|??]] eqn:Ev; try apply decodesTo_throw.
    destruct (Hnext 7) as [? Hp]; [lia..|]. split; [done|].
    member_set Hm Hp. destruct (He HP) as [(_ & _ & Hb & _) _]. rewrite Ev in Hb.
    by intros h' [= <-]; inversion Hb. }
  apply decodesTo_decide; intros H7.
  { apply decodesTo_decide; intros Hl; [by apply decodesTo_ret|].
    assert (ip_parameters i = []) as Hp by (apply Hseen; lia).
    apply decodesTo_bind, decodesTo_bind, decodesTo_get, decodesTo_assert.
    { unfold hasApplicationParameters. by rewrite Hp. }
    split; [lia|]. unfold decoding. split_and!; [|intros ?; lia|done|done].
    intros HP. destruct (He HP) as [He' _].
    assert (params_ok (ip_parameters i ++ [e])) by (rewrite Hp; split; [by constructor|done]).
    destruct (Hm HP). by split. }
  apply decodesTo_if; intros H8; [apply decodesTo_throw|].
  apply decodesTo_bind, decodesTo_get, decodesTo_bind.
  destruct (hasApplicationParameters i) eqn:Hp; [|by split].
  apply decodesTo_modify. split; [done|].
  assert (P → params_ok (ip_parameters i ++ [e])) as Hpush.
  { intros HP. destruct (He HP) as [He' _]. apply params_ok_push; [done|by apply Hm|done|]. unfold isExtra. rewrite H8. cbn.
    by rewrite bool_decide_true. }
  assert (8 ≤ last) as Hlast8.
  { destruct (decide (last < 8)) as [Hlt|]; [|lia]. apply Hseen in Hlt.
    unfold hasApplicationParameters in Hp. by rewrite Hlt in Hp. }
  split; [|split_and!; [intros ?; lia|done|done]]. intros HP. specialize (Hpush HP).
  destruct (Hm HP). by split.
Qed.

Lemma decodeElements_ok name w els : ∀ last i,
  1 ≤ last → (P → Forall smallWire els) → decoding name w last i →
  decodesTo (decodeElements last els) (fun _ i' => ∃ last', decoding name w last' i') i.
Proof.
  induction els as [|e els IH]; intros last i Hl Hels Hi; cbn [decodeElements].
  { apply decodesTo_ret. by exists last. }
  apply decodesTo_bind. eapply decodesTo_mono.
  - apply (decodeElement_ok name w); [done| |done]. intros HP.
    by specialize (Hels HP); inversion Hels.
  - intros last' i' [Hl' Hi']. apply IH; [done| |done]. intros HP.
    by specialize (Hels HP); inversion Hels.
Qed.

(** [isParametersDigestValid] returns; [true] means the digest is right. *)
Lemma isParametersDigestValid_ok i :
  findParametersDigestComponent (ip_name i) ≠ -2 →
  ∃ b, isParametersDigestValid sha256 i = (Ok b, i) ∧ (b = true → digest_ok i).
Proof.
  intros Hf. unfold isParametersDigestValid, digest_ok. rewrite (bindE _ _ i i i) by done. cbv zeta.
  destruct (findDigest_cases (ip_name i)) as [Hn|_|l1 c l2 Hn Hc H1 H2]; [|done|].
  - rewrite bool_decide_true by done. exists (negb (hasApplicationParameters i)).
    split; [done|]. by destruct (hasApplicationParameters i).
  - rewrite bool_decide_false by lia.
    rewrite (bindE _ _ i tt i) by (unfold assertE, liftE; by rewrite bool_decide_true by lia).
    destruct (hasApplicationParameters i) eqn:Hp; cbn [negb]; [|by exists false].
    eexists. split.
    + rewrite (bindE _ _ i c i); [done|]. unfold liftE. rewrite (Name_get_nat _ (length l1) c); [done|].
      rewrite Hn, lookup_app_r, Nat.sub_diag by lia. done.
    + intros Hb%bool_decide_eq_true. by exists l1, c, l2.
Qed.
End decode.

Section decoded.
Context (sha256 : list Z → list Z) (auto : bool).

(** Decoding any element ends, throws [tlv::Error]s only, and yields a packet
    whose members can be encoded again. *)
Lemma Interest_wireDecode_ok w s :
  decodesTo (Interest_wireDecode sha256 auto w) (fun _ i =>
    (bytes_ok (w_value w) ∧ Z.of_nat (length (w_value w)) < 2 ^ 64 → members_ok i) ∧
    ip_wire i = Some w ∧ ip_name i ≠ [] ∧ findParametersDigestComponent (ip_name i) ≠ -2 ∧
    (auto = true → digest_ok sha256 i)) s.
Proof.
  unfold Interest_wireDecode. apply decodesTo_decide; intros Ht; [apply decodesTo_throw|].
  apply decodesTo_bind, decodesTo_modify, decodesTo_bind, decodesTo_lift; [apply Wire_subs_throws|].
  intros els Hels. set (P := bytes_ok (w_value w) ∧ Z.of_nat (length (w_value w)) < 2 ^ 64).
  assert (P → Forall smallWire els) as Hsmall by (intros []; by eapply subs_small).
  destruct els as [|e els]; [apply decodesTo_throw|].
  apply decodesTo_decide; intros Hty; [apply decodesTo_throw|].
  apply decodesTo_bind, decodesTo_lift; [apply Name_wireDecode_throws|]. intros name Hname.
  apply decodesTo_decide; intros Hne; [apply decodesTo_throw|].
  apply decodesTo_decide; intros Hf; [apply decodesTo_throw|].
  apply decodesTo_bind, decodesTo_modify, decodesTo_bind. eapply decodesTo_mono.
  - apply (decodeElements_ok P name (Some w)); [done|intros HP; by specialize (Hsmall HP); inversion Hsmall|].
    split_and!; [|done|done|done]. intros HP. specialize (Hsmall HP).
    inversion Hsmall as [|?? He ?]; subst.
    split; cbn; try done. by eapply Name_decode_small.
  - intros [] i (last & Hm & _ & Hn & Hw).
    assert (ip_name i ≠ [] ∧ findParametersDigestComponent (ip_name i) ≠ -2) as [H1 H2].
    { rewrite Hn. split; [|done]. by intros ->. }
    destruct auto; [|by apply decodesTo_ret].
    destruct (isParametersDigestValid_ok sha256 i H2) as (b & Eb & Hb).
    apply decodesTo_bind. unfold decodesTo at 1, wpE. rewrite Eb. cbn.
    destruct b; cbn [negb]; [|done]. by apply decodesTo_ret; auto.
Qed.

(** What was in the object before does not matter. *)
Lemma Interest_wireDecode_state w s s' i :
  Interest_wireDecode sha256 auto w s = (Ok tt, i) → Interest_wireDecode sha256 auto w s' = (Ok tt, i).
Proof.
  unfold Interest_wireDecode. case_bool_decide; [done|].
  rewrite (bindE _ _ s tt (set_ip_wire (Some w) s)) by done.
  rewrite (bindE _ _ s' tt (set_ip_wire (Some w) s')) by done.
  destruct (Wire_subs w) as [els|f] eqn:Es; [|by rewrite !(bindE_fault _ _ _ f _) by done].
  do 2 (erewrite (bindE (liftE (Ok els))) by done).
  destruct els as [|e els]; [done|]. case_bool_decide; [done|].
  destruct (Name_wireDecode (wire_block e)) as [name|f]; [|by rewrite !(bindE_fault _ _ _ f _) by done].
  do 2 (erewrite (bindE (liftE (Ok name))) by done).
  case_bool_decide; [done|]. case_bool_decide; [done|].
  do 2 (erewrite (bindE (modifyE (resetMembers name))) by done). done.
Qed.

(** ** The class invariant *)

(** What holds of an [Interest] between two calls: there is at most one digest
    component, it is the digest of the parameters when there are any and
    decoding checks digests, and a cached wire is an encoding of the members. *)
Record Interest_inv (i : InterestPkt) : Prop := {
  inv_members : members_ok i;
  inv_single : findParametersDigestComponent (ip_name i) ≠ -2;
  inv_digest : auto = true → hasApplicationParameters i = true → digest_ok sha256 i;
  inv_wire w : ip_wire i = Some w → ∀ s, Interest_wireDecode sha256 auto w s = (Ok tt, i)
}.

Lemma Interest_members_inv : Interest_inv Interest_members.
Proof.
  split; try done. split; cbn; try done; try constructor.
Qed.

(** A member other than the name and the parameters was set. *)
Lemma inv_member i i' :
  Interest_inv i → members_ok i' → ip_name i' = ip_name i → ip_parameters i' = ip_parameters i →
  ip_wire i' = None → Interest_inv i'.
Proof.
  intros [_ Hs Hd _] Hm Hn Hp Hw. split; [done|by rewrite Hn| |by rewrite Hw].
  unfold digest_ok, hasApplicationParameters, computeParametersDigest in *. rewrite Hn, Hp. exact Hd.
Qed.

Context (Hsha : ∀ l, length (sha256 l) = 32%nat ∧ bytes_ok (sha256 l)).

Lemma makeDigestComponent v :
  length v = 32%nat →
  makeComponent ParametersSha256DigestComponent v = Ok (mkComponent ParametersSha256DigestComponent v) ∧
  isParametersSha256Digest (mkComponent ParametersSha256DigestComponent v) = true.
Proof.
  intros Hv. assert (isParametersSha256Digest (mkComponent ParametersSha256DigestComponent v) = true) as Hd
    by (apply bool_decide_eq_true; done).
  split; [|done]. unfold makeComponent, ensureValid.
  rewrite bool_decide_false by (vm_compute; intuition congruence).
  change (ComponentTypeTable_get _) with Sha256ComponentType. cbn [ComponentType_check cvalue].
  by rewrite bool_decide_true.
Qed.

Lemma addOrReplace_ok i :
  members_ok i → hasApplicationParameters i = true → findParametersDigestComponent (ip_name i) ≠ -2 →
  ∃ n, addOrReplaceParametersDigestComponent sha256 i = (Ok tt, set_ip_name n i) ∧
    members_ok (set_ip_name n i) ∧ digest_ok sha256 (set_ip_name n i).
Proof using Hsha.
  intros Hm Hp Hf. unfold addOrReplaceParametersDigestComponent, digest_ok.
  set (v := computeParametersDigest sha256 i).
  assert (length v = 32%nat ∧ bytes_ok v) as [Hv Hb] by apply Hsha.
  destruct (makeDigestComponent v Hv) as [Hmk Hdig].
  set (c := mkComponent ParametersSha256DigestComponent v) in *.
  assert (comp_wf c) as Hc by (split; [split; [done|cbn; rewrite Hv; lia]|done]).
  rewrite (bindE _ _ i i i) by done. rewrite (bindE _ _ i tt i) by (by rewrite Hp). cbv zeta.
  fold v. rewrite (bindE _ _ i c i) by (unfold liftE; by rewrite Hmk).
  assert (∀ n, name_wf n → members_ok (set_ip_name n i)) as Hset by (by intros n Hn; destruct Hm).
  assert (∀ n, hasApplicationParameters (set_ip_name n i) = true) as Hp' by done.
  destruct (findDigest_cases (ip_name i)) as [Hn|_|l1 c0 l2 Hn Hc0 H1 H2]; [|done|].
  - rewrite bool_decide_true by done. exists (ip_name i ++ [c]). split; [done|]. split.
    + apply Hset, Forall_app. split; [apply Hm|by constructor; [|constructor]].
    + rewrite Hp'. exists (ip_name i), c, []. split_and!; [done..|constructor|done].
  - rewrite bool_decide_false by lia.
    rewrite (bindE _ _ i tt i) by (unfold assertE, liftE; by rewrite bool_decide_true by lia).
    exists (l1 ++ c :: l2). rewrite Nat2Z.id. split; [|split].
    + unfold modifyE. rewrite Hn. by rewrite insert_app_r_alt, Nat.sub_diag by lia.
    + apply Hset. pose proof (m_name _ Hm) as Hwf. rewrite Hn in Hwf. unfold name_wf in *.
      rewrite Forall_app, Forall_cons in Hwf |- *. tauto.
    + rewrite Hp'. by exists l1, c, l2.
Qed.

(** The end of a modifier that changed the name or the parameters. *)
Lemma addOrReplace_inv i :
  members_ok i → hasApplicationParameters i = true → findParametersDigestComponent (ip_name i) ≠ -2 →
  ∃ i', (_ ← addOrReplaceParametersDigestComponent sha256; resetWire) i = (Ok tt, i') ∧ Interest_inv i'.
Proof using Hsha.
  intros Hm Hp Hf. destruct (addOrReplace_ok i Hm Hp Hf) as (n & E & Hm' & Hd).
  rewrite (bindE _ _ i tt _ E). eexists. split; [done|]. split; [by destruct Hm'| |done|done].
  exact (digest_ok_single sha256 _ Hd).
Qed.
End decoded.

(** ** The parameters list *)

Lemma params_ok_set ps k w :
  params_ok ps → (1 ≤ k)%nat → Wire_closed w → isExtra (w_type w) = true → params_ok (<[k := w]> ps).
Proof.
  intros [Hc Hp] Hk Hw Hx. split; [by apply Forall_insert|].
  destruct ps as [|first rest]; [done|]. destruct k as [|k]; [lia|]. cbn. destruct Hp as [Ht Hr].
  split; [done|]. by apply Forall_insert.
Qed.
Lemma insert_nonempty {A} (l : list A) k x : l ≠ [] → <[k := x]> l ≠ [].
Proof. by destruct l, k. Qed.
Lemma put_nonempty {A} (l l' : list A) x : l ++ x :: l' ≠ [].
Proof. by destruct l. Qed.
Lemma params_ok_put ps k w :
  params_ok ps → ps ≠ [] → (1 ≤ k)%nat → Wire_closed w → isExtra (w_type w) = true →
  params_ok (take k ps ++ w :: drop k ps).
Proof.
  intros [Hc Hp] Hne Hk Hw Hx. split.
  - apply Forall_app. split; [by apply Forall_take|]. constructor; [done|by apply Forall_drop].
  - destruct ps as [|first rest]; [done|]. destruct k as [|k]; [lia|]. cbn. destruct Hp as [Ht Hr].
    split; [done|]. apply Forall_app. split; [by apply Forall_take|].
    constructor; [done|by apply Forall_drop].
Qed.
Lemma findFirstParameter_pos type ps :
  params_ok ps → ps ≠ [] → type ≠ tlv_ApplicationParameters → (1 ≤ findFirstParameter type ps)%nat.
Proof.
  destruct ps as [|first rest]; [done|]. intros [_ [Ht _]] _ Hne. cbn. rewrite Ht.
  rewrite bool_decide_false by auto. lia.
Qed.

Lemma hasApplicationParameters_cons i : hasApplicationParameters i = true ↔ ip_parameters i ≠ [].
Proof.
  unfold hasApplicationParameters. rewrite negb_true_iff, bool_decide_eq_false.
  destruct (ip_parameters i); naive_solver.
Qed.

(** ** The modifiers keep the invariant *)

Inductive InterestOp : Type :=
| Op_setName (name : Name)
| Op_setCanBePrefix (b : bool)
| Op_setMustBeFresh (b : bool)
| Op_setForwardingHint (names : list Name)
| Op_getNonce (fresh : list Z)
| Op_setNonce (nonce : option (list Z))
| Op_refreshNonce (words : list (list Z))
| Op_setInterestLifetime (lifetime : Z)
| Op_setHopLimit (hopLimit : option Z)
| Op_setApplicationParameters (value : list Z)
| Op_unsetApplicationParameters
| Op_setSignatureInfo (info : Wire)
| Op_setSignatureValue (value : list Z)
| Op_wireDecode (wire : Wire)
| Op_wireEncode (fresh : list Z).

Section ops.
Context (sha256 : list Z → list Z) (auto : bool).
Context (Hsha : ∀ l, length (sha256 l) = 32%nat ∧ bytes_ok (sha256 l)).

Definition runOp (op : InterestOp) : ME InterestPkt unit :=
  match op with
  | Op_setName name => Interest_setName sha256 name
  | Op_setCanBePrefix b => setCanBePrefix b
  | Op_setMustBeFresh b => setMustBeFresh b
  | Op_setForwardingHint names => setForwardingHint names
  | Op_getNonce fresh => _ ← getNonce fresh; mret tt
  | Op_setNonce nonce => setNonce nonce
  | Op_refreshNonce words => refreshNonce words
  | Op_setInterestLifetime lifetime => setInterestLifetime lifetime
  | Op_setHopLimit hopLimit => setHopLimit hopLimit
  | Op_setApplicationParameters value => setApplicationParameters sha256 value
  | Op_unsetApplicationParameters => unsetApplicationParameters
  | Op_setSignatureInfo info => setSignatureInfo sha256 info
  | Op_setSignatureValue value =>
      setSignatureValueInternal sha256 (makeBinaryBlock tlv_InterestSignatureValue value)
  | Op_wireDecode wire => Interest_wireDecode sha256 auto wire
  | Op_wireEncode fresh => _ ← Interest_wireEncode sha256 auto fresh; mret tt
  end.

Definition nonce_ok (n : list Z) : Prop := length n = 4%nat ∧ bytes_ok n.

(** Arguments of the types the C++ signatures have, and sizes below 2^63. *)
Definition op_ok (i : InterestPkt) (op : InterestOp) : Prop :=
  match op with
  | Op_setName name => name_wf name
  | Op_setForwardingHint names => Forall name_wf names
  | Op_getNonce fresh => nonce_ok fresh
  | Op_setNonce nonce => ∀ n, nonce = Some n → nonce_ok n
  | Op_refreshNonce words => Forall nonce_ok words
  | Op_setInterestLifetime lifetime => lifetime < 2 ^ 63
  | Op_setHopLimit hopLimit => ∀ h, hopLimit = Some h → is_byte h
  | Op_setApplicationParameters value | Op_setSignatureValue value =>
      bytes_ok value ∧ Z.of_nat (length value) < 2 ^ 63
  | Op_setSignatureInfo info => w_type info = tlv_InterestSignatureInfo ∧ Wire_closed info
  | Op_wireDecode wire => bytes_ok (w_value wire) ∧ Z.of_nat (length (w_value wire)) < 2 ^ 64
  | Op_wireEncode fresh =>
      nonce_ok fresh ∧
      Z.of_nat (length (Interest_encodeFields i (default fresh (ip_nonce i)))) < 2 ^ 63
  | _ => True
  end.

Abbreviation inv := (Interest_inv sha256 auto).

Lemma setName_inv name i i' :
  inv i → name_wf name → Interest_setName sha256 name i = (Ok tt, i') → inv i'.
Proof using Hsha.
  intros Hi Hn. unfold Interest_setName. case_bool_decide as Hf; [done|].
  rewrite (bindE _ _ i i i) by done. destruct (Name_equals name (ip_name i)); cbn [negb].
  { by intros [= <-]. }
  pose proof (inv_members _ _ _ Hi) as Hm.
  assert (members_ok (set_ip_name name i)) as Hm' by (by destruct Hm).
  rewrite (bindE _ _ i tt (set_ip_name name i)) by done.
  destruct (hasApplicationParameters i) eqn:Hp.
  - destruct (addOrReplace_inv sha256 auto Hsha (set_ip_name name i) Hm' Hp Hf) as (i2 & E & H2).
    rewrite E. by intros [= <-].
  - intros [= <-]. split; [by destruct Hm'|done| |done]. intros _ Hp'.
    unfold hasApplicationParameters in *. cbn in Hp'. congruence.
Qed.

Lemma setParameters_inv i ps i' :
  inv i → ps ≠ [] → params_ok ps →
  (_ ← modifyE (set_ip_parameters ps); _ ← addOrReplaceParametersDigestComponent sha256; resetWire) i
    = (Ok tt, i') → inv i'.
Proof using Hsha.
  intros Hi Hne Hps. rewrite (bindE _ _ i tt (set_ip_parameters ps i)) by done.
  assert (members_ok (set_ip_parameters ps i)) as Hm by (by destruct (inv_members _ _ _ Hi)).
  destruct (addOrReplace_inv sha256 auto Hsha (set_ip_parameters ps i) Hm) as (i2 & E & H2);
    [by apply hasApplicationParameters_cons|apply Hi|].
  rewrite E. by intros [= <-].
Qed.

Lemma setApplicationParameters_inv value i i' :
  inv i → bytes_ok value → Z.of_nat (length value) < 2 ^ 63 →
  setApplicationParameters sha256 value i = (Ok tt, i') → inv i'.
Proof using Hsha.
  intros Hi Hb Hl. unfold setApplicationParameters, setApplicationParametersInternal.
  set (p := makeBinaryBlock tlv_ApplicationParameters value).
  assert (Wire_closed p) as Hp by (apply makeBinaryBlock_closed; [done|lia|done]).
  rewrite (bindE _ _ i i i) by done. destruct (m_params _ (inv_members _ _ _ Hi)) as [Hc Hps].
  destruct (ip_parameters i) as [|first rest] eqn:E.
  - apply (setParameters_inv i [p]); [done|done|]. split; [by constructor|by split].
  - destruct Hps as [Ht Hr]. rewrite Ht, bool_decide_true by done. intros Erun.
    eapply (setParameters_inv i (p :: rest) i'); [done|done| |exact Erun].
    split; [constructor; [done|by inversion Hc]|by split].
Qed.

Lemma unsetApplicationParameters_inv i i' :
  inv i → unsetApplicationParameters i = (Ok tt, i') → inv i'.
Proof.
  intros Hi. pose proof (inv_members _ _ _ Hi) as Hm. unfold unsetApplicationParameters.
  rewrite (bindE _ _ i tt (set_ip_parameters [] i)) by done.
  set (j := set_ip_parameters [] i). rewrite (bindE _ _ j j j) by done. cbv zeta.
  assert (∀ n, name_wf n → findParametersDigestComponent n ≠ -2 →
    inv (set_ip_wire None (set_ip_name n j))) as Hdone.
  { intros n Hn Hf. split; [|done|done|done]. destruct Hm. by split. }
  change (ip_name j) with (ip_name i).
  destruct (findDigest_cases (ip_name i)) as [Hn|_|l1 c l2 Hn Hc H1 H2].
  - rewrite bool_decide_false by lia. intros [= <-].
    apply (Hdone (ip_name i)); [apply Hm|apply Hi].
  - rewrite bool_decide_false by lia. intros [= <-].
    apply (Hdone (ip_name i)); [apply Hm|apply Hi].
  - rewrite bool_decide_true by lia. rewrite Nat2Z.id, Hn, delete_middle. intros [= <-].
    apply (Hdone (l1 ++ l2)).
    + pose proof (m_name _ Hm) as Hwf. rewrite Hn in Hwf. unfold name_wf in *.
      rewrite Forall_app, Forall_cons in Hwf. apply Forall_app. tauto.
    + unfold findParametersDigestComponent.
      rewrite findDigest_loop_none; [done|]. by apply Forall_app.
Qed.

Lemma setSignatureInfo_inv info i i' :
  inv i → w_type info = tlv_InterestSignatureInfo → Wire_closed info →
  setSignatureInfo sha256 info i = (Ok tt, i') → inv i'.
Proof using Hsha.
  intros Hi Ht Hc. unfold setSignatureInfo.
  set (ps0 := match ip_parameters i with
              | [] => [makeEmptyBlock tlv_ApplicationParameters] | ps => ps end).
  assert (ps0 ≠ []) as Hne by (unfold ps0; by destruct (ip_parameters i)).
  assert (params_ok ps0) as Hps.
  { unfold ps0. destruct (ip_parameters i) eqn:E; [|rewrite <-E; by apply Hi].
    split; [|by split]. constructor; [|done]. by apply makeBinaryBlock_closed. }
  assert (isExtra (w_type info) = true) as Hx by by rewrite Ht.
  rewrite (bindE _ _ i tt (set_ip_parameters ps0 i))
    by (unfold modifyE, ps0; destruct i as [????????ps ?]; by destruct ps).
  set (j := set_ip_parameters ps0 i). rewrite (bindE _ _ j j j) by done. cbv zeta.
  change (ip_parameters j) with ps0.
  pose proof (findFirstParameter_pos tlv_InterestSignatureInfo ps0 Hps Hne ltac:(done)) as Hpos.
  pose proof (findFirstParameter_pos tlv_InterestSignatureValue ps0 Hps Hne ltac:(done)) as Hpos'.
  assert (∀ ps, ps ≠ [] → params_ok ps →
    (_ ← modifyE (set_ip_parameters ps); _ ← addOrReplaceParametersDigestComponent sha256; resetWire) j
      = (Ok tt, i') → inv i') as Hset.
  { intros ps Hps1 Hps2 Erun. apply (setParameters_inv i ps i' Hi Hps1 Hps2). exact Erun. }
  destruct (ps0 !! findFirstParameter tlv_InterestSignatureInfo ps0) as [old|] eqn:Eold.
  - case_bool_decide as Hsame.
    + intros [= <-]. unfold ps0 in Eold |- *. destruct (ip_parameters i) as [|first rest] eqn:E.
      { exfalso. vm_compute in Eold. discriminate Eold. }
      destruct i. cbn in E |- *. by subst.
    + apply Hset; [by apply insert_nonempty|by apply params_ok_set].
  - apply Hset; [apply put_nonempty|by apply params_ok_put].
Qed.

Lemma setSignatureValue_inv value i i' :
  inv i → bytes_ok value → Z.of_nat (length value) < 2 ^ 63 →
  setSignatureValueInternal sha256 (makeBinaryBlock tlv_InterestSignatureValue value) i = (Ok tt, i') →
  inv i'.
Proof using Hsha.
  intros Hi Hb Hl. unfold setSignatureValueInternal.
  set (sig := makeBinaryBlock tlv_InterestSignatureValue value).
  assert (Wire_closed sig) as Hc by (apply makeBinaryBlock_closed; [done|lia|done]).
  rewrite (bindE _ _ i i i) by done. cbv zeta. set (ps := ip_parameters i).
  assert (params_ok ps) as Hps by apply Hi.
  destruct (ps !! findFirstParameter tlv_InterestSignatureInfo ps) as [info|] eqn:Einfo; [|done].
  assert (ps ≠ []) as Hne by (by intros E; rewrite E in Einfo).
  destruct (ps !! findFirstParameter tlv_InterestSignatureValue ps) as [old|] eqn:Eold.
  - case_bool_decide; [by intros [= <-]|].
    apply setParameters_inv; [done|by apply insert_nonempty|].
    apply params_ok_set; [done| |done|done]. by apply findFirstParameter_pos.
  - apply setParameters_inv; [done|apply put_nonempty|].
    apply params_ok_put; [done|done|lia|done|done].
Qed.

Lemma wireDecode_inv w s i :
  bytes_ok (w_value w) → Z.of_nat (length (w_value w)) < 2 ^ 64 →
  Interest_wireDecode sha256 auto w s = (Ok tt, i) → inv i.
Proof.
  intros Hb Hl E. pose proof (decodesTo_elim _ _ _ _ _ (Interest_wireDecode_ok sha256 auto w s) E)
    as (Hm & Hw & _ & Hf & Hd).
  split; [by apply Hm|done|by intros Ha _; apply Hd|]. intros w' Hw' s'. rewrite Hw in Hw'. injection Hw' as <-.
  by eapply Interest_wireDecode_state.
Qed.

(** ** Encoding, the checks included *)

(** The encoder's own checks. *)
Definition encodable (i : InterestPkt) : bool :=
  if hasApplicationParameters i then negb (bool_decide (noDigest (ip_name i)))
  else bool_decide (noDigest (ip_name i)).

Lemma getNonce_eq fresh i :
  ∃ i1, getNonce fresh i = (Ok (default fresh (ip_nonce i)), i1) ∧
    i1 = match ip_nonce i with
         | Some _ => i
         | None => set_ip_wire None (set_ip_nonce (Some fresh) i)
         end.
Proof.
  unfold getNonce. rewrite (bindE _ _ i i i) by done. destruct (ip_nonce i) as [n|]; eauto.
Qed.

Lemma wireEncode_to_eq fresh i :
  findParametersDigestComponent (ip_name i) ≠ -2 →
  Interest_wireEncode_to fresh i =
    if encodable i then
      let body := Interest_encodeFields i (default fresh (ip_nonce i)) in
      (Ok (w_bytes (makeBinaryBlock tlv_Interest body)), (getNonce fresh i).2)
    else (Fault (Throw TlvError), i).
Proof.
  intros Hf. unfold Interest_wireEncode_to. rewrite (bindE _ _ i i i) by done. cbv zeta.
  rewrite (bindE _ _ i tt i) by (unfold assertE, liftE; by rewrite bool_decide_true).
  assert (bool_decide (findParametersDigestComponent (ip_name i) = -1) =
          bool_decide (noDigest (ip_name i))) as ->.
  { apply bool_decide_ext. destruct (findDigest_cases (ip_name i)) as [Hn|_|l1 c l2 Hn Hc _ _].
    - done.
    - done.
    - split; [lia|]. rewrite Hn. intros Hno. apply Forall_app in Hno as [_ Hno].
      apply Forall_cons in Hno as [Hno _]. congruence. }
  destruct (getNonce_eq fresh i) as (i1 & E1 & _). unfold encodable.
  assert (∀ body, w_bytes (makeBinaryBlock tlv_Interest body) =
    prependVarNumber tlv_Interest (prependVarNumber (Z.of_nat (length body)) body)) as Hb.
  { intros body. unfold makeBinaryBlock. cbn [w_bytes Wire_ofBlock]. unfold Block_encode.
    cbn [blk_type blk_value]. by rewrite app_nil_r. }
  destruct (hasApplicationParameters i), (bool_decide (noDigest (ip_name i))); cbn [negb].
  - by rewrite (bindE_fault _ _ i (Throw TlvError) i).
  - rewrite (bindE _ _ i tt i), (bindE _ _ i _ i1 E1) by done. by rewrite E1, Hb.
  - rewrite (bindE _ _ i tt i), (bindE _ _ i _ i1 E1) by done. by rewrite E1, Hb.
  - by rewrite (bindE_fault _ _ i (Throw TlvError) i).
Qed.

Section encode.
Context (fresh : list Z) (i : InterestPkt).
Let nonce := default fresh (ip_nonce i).
Let body := Interest_encodeFields i nonce.
Context (Hi : inv i) (Hfresh : nonce_ok fresh).
Context (Hsize : Z.of_nat (length body) < 2 ^ 63).

Lemma inv_fields_ok : fields_ok i nonce.
Proof using Hi Hfresh Hsize.
  destruct (inv_members _ _ _ Hi) as [Hn Hh Hno Hl Hhop Hp]. split; try done.
  unfold nonce. destruct (ip_nonce i) as [n|]; [by apply Hno|done].
Qed.

Lemma encodable_digest : encodable i = true → auto = true → digest_ok sha256 i.
Proof using Hi.
  unfold encodable. destruct (hasApplicationParameters i) eqn:Hp.
  - intros _ Ha. by apply Hi.
  - intros H _. revert H. unfold digest_ok. rewrite Hp. by intros H%bool_decide_eq_true.
Qed.

(** The whole of [wireEncode()] when nothing is cached. *)
Lemma wireEncode_uncached :
  ip_wire i = None →
  Interest_wireEncode sha256 auto fresh i =
    if encodable i then
      let w := makeBinaryBlock tlv_Interest body in
      if bool_decide (ip_name i = [])
      then (Fault (Throw TlvError), set_ip_wire (Some w) (set_ip_nonce (Some nonce) i))
      else (Ok w, set_ip_wire (Some w) (set_ip_nonce (Some nonce) i))
    else (Fault (Throw TlvError), i).
Proof using Hi Hfresh Hsize.
  intros Hw. pose proof inv_fields_ok as Hf. unfold Interest_wireEncode.
  rewrite (bindE _ _ i None i) by (unfold getE; by rewrite Hw).
  pose proof (wireEncode_to_eq fresh i (inv_single _ _ _ Hi)) as Eto. cbv zeta in Eto |- *.
  fold nonce body in Eto. destruct (encodable i) eqn:He; [|by rewrite (bindE_fault _ _ i _ _ Eto)].
  rewrite (bindE _ _ i _ _ Eto). set (w := makeBinaryBlock tlv_Interest body).
  destruct (getNonce_eq fresh i) as (i1 & -> & Hi1). cbn [snd].
  assert (Wire_ofSpan (w_bytes w) = Ok w) as Hspan.
  { destruct (elements_closed i nonce Hf) as [Hc _].
    assert (Wire_closed w) as (Hcl & _).
    { apply makeBinaryBlock_closed; [done|lia|]. unfold body. rewrite Interest_encodeFields_elements.
      by apply wiresBytes_ok. }
    specialize (Hcl []). by rewrite app_nil_r in Hcl. }
  rewrite (bindE _ _ i1 w i1) by (unfold liftE; by rewrite Hspan).
  case_bool_decide as Hname.
  - apply bindE_fault. unfold Interest_wireDecode.
    cbn [w_type w makeBinaryBlock Wire_ofBlock blk_type]. fold w.
    rewrite bool_decide_false by auto. rewrite (bindE _ _ i1 tt (set_ip_wire (Some w) i1)) by done.
    rewrite (bindE _ _ _ (Interest_elements i nonce) (set_ip_wire (Some w) i1)).
    2:{ unfold liftE, w, body. rewrite Interest_encodeFields_elements, Wire_subs_make; [done|].
        by apply elements_closed. }
    unfold Interest_elements. cbn [app]. rewrite Hname.
    cbn [w_type nameWire makeBinaryBlock Wire_ofBlock blk_type].
    rewrite bool_decide_false by auto. cbn. rewrite Hi1. unfold nonce.
    destruct i as [? ? ? ? [n|] ? ? ? wire]; cbn in *; by subst.
  - destruct (Interest_decode_encoded sha256 auto i nonce i1 Hf Hname (inv_single _ _ _ Hi) (encodable_digest He)) as [_ E].
    by rewrite (bindE _ _ i1 tt _ E).
Qed.
End encode.

Lemma wireEncode_inv fresh i w i' :
  inv i → nonce_ok fresh →
  Z.of_nat (length (Interest_encodeFields i (default fresh (ip_nonce i)))) < 2 ^ 63 →
  Interest_wireEncode sha256 auto fresh i = (Ok w, i') →
  inv i' ∧ (∀ s, Interest_wireDecode sha256 auto w s = (Ok tt, i')) ∧
  (i' = i ∨ i' = set_ip_wire (Some w) (set_ip_nonce (Some (default fresh (ip_nonce i))) i)).
Proof.
  intros Hi Hfr Hs E. destruct (ip_wire i) as [w0|] eqn:Hw.
  - unfold Interest_wireEncode in E. rewrite (bindE _ _ i (Some w0) i) in E by (unfold getE; by rewrite Hw).
    injection E as <- <-. split_and!; [done| |by left]. by apply Hi.
  - rewrite wireEncode_uncached in E by done. cbv zeta in E.
    destruct (encodable i) eqn:He; [|discriminate E]. case_bool_decide as Hn; [discriminate E|].
    injection E as <- <-. pose proof (inv_fields_ok fresh i Hi Hfr Hs) as Hf.
    pose proof (fun s => proj2 (Interest_decode_encoded sha256 auto i _ s Hf Hn (inv_single _ _ _ Hi) (encodable_digest i Hi He)))
      as Hdec. cbv zeta in Hdec.
    split_and!; [|exact Hdec|by right]. eapply wireDecode_inv; [| |exact (Hdec i)]; cbn [w_value makeBinaryBlock Wire_ofBlock blk_value]; [|lia].
    rewrite Interest_encodeFields_elements. apply wiresBytes_ok. by apply elements_closed.
Qed.

(** A member was set and the wire reset. *)
Ltac member_reset Hi := eapply inv_member; [exact Hi|destruct (inv_members _ _ _ Hi); split|..]; done.

Lemma drawNonce_in old words n : drawNonce old words = Ok n → n ∈ words.
Proof.
  induction words as [|w words IH]; cbn; [done|].
  case_bool_decide; [intros; right; by apply IH|intros [= <-]; left].
Qed.

Lemma runOp_inv op i i' : inv i → op_ok i op → runOp op i = (Ok tt, i') → inv i'.
Proof using Hsha.
  intros Hi Hop.
  destruct op as [name|b|b|names|fresh|nonce|words|lifetime|hop|value| |info|value|wire|fresh];
    cbn [runOp op_ok] in *.
  - by apply setName_inv.
  - unfold setCanBePrefix. rewrite (bindE _ _ i i i) by done.
    destruct (negb _); intros [= <-]; [member_reset Hi|done].
  - unfold setMustBeFresh. rewrite (bindE _ _ i i i) by done.
    destruct (negb _); intros [= <-]; [member_reset Hi|done].
  - intros [= <-]. member_reset Hi.
  - unfold getNonce. destruct (ip_nonce i) as [n|] eqn:En.
    + intros E. assert (i' = i) as ->; [|done].
      unfold mbind, ME_bind in E. cbn in E. rewrite En in E. by injection E as <-.
    + intros E. assert (i' = set_ip_wire None (set_ip_nonce (Some fresh) i)) as ->.
      { unfold mbind, ME_bind in E. cbn in E. rewrite En in E. by injection E as <-. }
      eapply inv_member; [exact Hi| |done..]. destruct (inv_members _ _ _ Hi). split; try done.
      by intros n [= <-].
  - unfold setNonce. rewrite (bindE _ _ i i i) by done.
    case_bool_decide; intros [= <-]; [member_reset Hi|done].
  - unfold refreshNonce. rewrite (bindE _ _ i i i) by done.
    destruct (ip_nonce i) as [old|] eqn:En; [|by intros [= <-]].
    destruct (drawNonce old words) as [n|f] eqn:Ed; [|done].
    rewrite (bindE _ _ i n i) by done. intros [= <-]. apply drawNonce_in in Ed.
    rewrite Forall_forall in Hop. specialize (Hop n Ed).
    eapply inv_member; [exact Hi| |done..]. destruct (inv_members _ _ _ Hi). split; try done.
    by intros m [= <-].
  - unfold setInterestLifetime. case_bool_decide; [done|]. rewrite (bindE _ _ i i i) by done.
    case_bool_decide; intros [= <-]; [|done].
    eapply inv_member; [exact Hi| |done..]. destruct (inv_members _ _ _ Hi). split; try done. cbn. lia.
  - unfold setHopLimit. rewrite (bindE _ _ i i i) by done.
    case_bool_decide; intros [= <-]; [member_reset Hi|done].
  - destruct Hop. by apply setApplicationParameters_inv.
  - by apply unsetApplicationParameters_inv.
  - destruct Hop. by apply setSignatureInfo_inv.
  - destruct Hop. by apply setSignatureValue_inv.
  - destruct Hop. by apply wireDecode_inv.
  - destruct Hop as [Hfr Hs]. destruct (Interest_wireEncode sha256 auto fresh i) as [[w|f] i2] eqn:E.
    + rewrite (bindE _ _ i w i2 E). intros [= <-].
      by destruct (wireEncode_inv fresh i w i2 Hi Hfr Hs E).
    + rewrite (bindE_fault _ _ i f i2 E). discriminate.
Qed.

(** The operations that returned, one after another. *)
Definition interest_step (i i' : InterestPkt) : Prop :=
  ∃ op, op_ok i op ∧ runOp op i = (Ok tt, i').
End ops.

(** ** Properties *)

(** C34. What goes on the wire is what the object says, with the check of
    parameters digests on (the library's default) or off (as the daemon sets it).  After any
    sequence of modifiers, decodings and encodings that returned, an
    [Interest] has at most one ParametersSha256DigestComponent; with the check
    on it is the digest of the parameters when there are any (with the check
    off, a decoded Interest may carry a wrong or no digest).  Either way, whatever
    [wireEncode()] returns, cached or new, any object that decodes it gets
    exactly the members of this one, the nonce included; the members are not
    changed by encoding but for a nonce that was missing. *)
Theorem interest_wire_coherent sha256 auto i fresh w i' :
  (∀ l, length (sha256 l) = 32%nat ∧ bytes_ok (sha256 l)) →
  rtc (interest_step sha256 auto) Interest_members i →
  nonce_ok fresh →
  Z.of_nat (length (Interest_encodeFields i (default fresh (ip_nonce i)))) < 2 ^ 63 →
  Interest_wireEncode sha256 auto fresh i = (Ok w, i') →
  findParametersDigestComponent (ip_name i) ≠ -2 ∧
  (auto = true → hasApplicationParameters i = true → digest_ok sha256 i) ∧
  (∀ s, Interest_wireDecode sha256 auto w s = (Ok tt, i')) ∧
  (i' = i ∨ i' = set_ip_wire (Some w) (set_ip_nonce (Some (default fresh (ip_nonce i))) i)).
Proof.
  intros Hsha Hrtc Hfr Hs E. assert (Interest_inv sha256 auto i) as Hi.
  { assert (Interest_inv sha256 auto Interest_members) as H0 by apply Interest_members_inv.
    clear -Hrtc Hsha H0. induction Hrtc as [|i1 i2 i3 (op & Hop & Erun) _ IH]; [done|].
    apply IH. by eapply runOp_inv. }
  destruct (wireEncode_inv sha256 auto fresh i w i' Hi Hfr Hs E) as (_ & Hdec & Hsame).
  split_and!; [apply Hi|apply Hi|exact Hdec|exact Hsame].
Qed.

(** A digest function and a packet with parameters, for the witnesses. *)
Definition sampleSha (l : list Z) : list Z := replicate 31 7 ++ [Z.of_nat (length l) mod 256].
Lemma sampleSha_ok l : length (sampleSha l) = 32%nat ∧ bytes_ok (sampleSha l).
Proof.
  split; [done|]. unfold sampleSha. apply Forall_app. split.
  - by repeat constructor.
  - constructor; [|constructor]. unfold is_byte. apply Z.mod_pos_bound. lia.
Qed.
Definition sampleInterest : InterestPkt :=
  (runOp sampleSha true (Op_setApplicationParameters [1; 2; 3])
    (runOp sampleSha true (Op_setName [mkComponent 8 [65]]) Interest_members).2).2.
Lemma sampleInterest_reachable : rtc (interest_step sampleSha true) Interest_members sampleInterest.
Proof.
  eapply rtc_l; [|apply rtc_once].
  - exists (Op_setName [mkComponent 8 [65]]). split; [|vm_compute; reflexivity].
    apply (bool_decide_unpack _). by vm_compute.
  - exists (Op_setApplicationParameters [1; 2; 3]). split; [|vm_compute; reflexivity].
    split; [by repeat constructor|done].
Defined.

Lemma interest_wire_coherent_witness :
  ∃ w i', Interest_wireEncode sampleSha true [1; 2; 3; 4] sampleInterest = (Ok w, i') ∧
    digest_ok sampleSha sampleInterest ∧
    ∀ s, Interest_wireDecode sampleSha true w s = (Ok tt, i').
Proof.
  destruct (Interest_wireEncode sampleSha true [1; 2; 3; 4] sampleInterest) as [[w|f] i'] eqn:E.
  - exists w, i'. split; [reflexivity|].
    destruct (interest_wire_coherent sampleSha true sampleInterest [1; 2; 3; 4] w i') as (_ & Hd & Hdec & _).
    + exact sampleSha_ok.
    + exact sampleInterest_reachable.
    + split; [reflexivity|]. by repeat constructor.
    + vm_compute. reflexivity.
    + exact E.
    + split; [apply Hd; vm_compute; reflexivity|exact Hdec].
  - exfalso. revert E. vm_compute. discriminate.
Defined.

(** What the check decides: a wrong digest is refused with the check on and
    accepted with it off. *)
Definition wrongDigest : Wire :=
  makeBinaryBlock tlv_Interest (Interest_encodeFields
    (set_ip_parameters [makeBinaryBlock tlv_ApplicationParameters [1]]
       (set_ip_name [mkComponent 8 [65]; mkComponent ParametersSha256DigestComponent (replicate 32 0)] Interest_members))
    [1; 2; 3; 4]).
Example wrong_digest_unchecked :
  (Interest_wireDecode sampleSha true wrongDigest Interest_members).1 = Fault (Throw TlvError) ∧
  (Interest_wireDecode sampleSha false wrongDigest Interest_members).1 = Ok tt.
Proof. vm_compute. split; reflexivity. Qed.

(** C35. Interest packets survive the wire, whether or not decoding checks the
    digest of the parameters.  An Interest with a name, whose
    parameters and digest component go together, is encoded without an
    exception, and whoever reads the bytes, with anything after them, and
    decodes the element gets the same name, selectors, forwarding hint,
    lifetime, hop limit, parameters and nonce, and the same bytes cached. *)
Theorem interest_wire_roundtrip sha256 auto i fresh rest s :
  let nonce := default fresh (ip_nonce i) in
  Interest_inv sha256 auto i → nonce_ok fresh →
  Z.of_nat (length (Interest_encodeFields i nonce)) < 2 ^ 63 →
  ip_wire i = None → encodable i = true → ip_name i ≠ [] →
  ∃ w i', Interest_wireEncode sha256 auto fresh i = (Ok w, i') ∧
    Wire_ofSpan (w_bytes w ++ rest) = Ok w ∧
    Interest_wireDecode sha256 auto w s =
      (Ok tt, set_ip_wire (Some w) (set_ip_nonce (Some nonce) i)).
Proof.
  intros nonce Hi Hfr Hs Hw He Hn. pose proof (inv_fields_ok sha256 auto fresh i Hi Hfr Hs) as Hf.
  destruct (Interest_decode_encoded sha256 auto i nonce s Hf Hn (inv_single _ _ _ Hi) (encodable_digest sha256 auto i Hi He))
    as [(Hcl & _) Hdec].
  eexists _, _. split; [|split; [apply Hcl|exact Hdec]].
  rewrite wireEncode_uncached by done. cbv zeta. by rewrite He, bool_decide_false.
Qed.
Lemma interest_wire_roundtrip_witness :
  ∃ w i', Interest_wireEncode sampleSha true [1; 2; 3; 4] Interest_members = (Fault (Throw TlvError), i') ∧
    Interest_wireEncode sampleSha true [1; 2; 3; 4] (set_ip_name [mkComponent 8 [65]] Interest_members)
      = (Ok w, set_ip_wire (Some w) (set_ip_nonce (Some [1; 2; 3; 4])
                 (set_ip_name [mkComponent 8 [65]] Interest_members))).
Proof.
  destruct (interest_wire_roundtrip sampleSha true (set_ip_name [mkComponent 8 [65]] Interest_members)
    [1; 2; 3; 4] [99] Interest_members) as (w & i' & E & _ & _).
  - split; try done. split; cbn; try done. apply (bool_decide_unpack _). by vm_compute.
  - split; [reflexivity|]. by repeat constructor.
  - vm_compute. reflexivity.
  - reflexivity.
  - vm_compute. reflexivity.
  - discriminate.
  - eexists w, _. split; [vm_compute; reflexivity|].
    revert E. vm_compute. intros [= <- <-]. reflexivity.
Defined.

(** Encoding twice hides the error of an empty name.  [wireEncode()] on an
    Interest without a name throws, because the re-decoding refuses an empty
    Name, but by then the refused element is in [m_wire]: the second call
    returns it without an exception, although no receiver can decode it. *)
Theorem empty_name_encodes_twice sha256 auto i fresh :
  Interest_inv sha256 auto i → nonce_ok fresh →
  Z.of_nat (length (Interest_encodeFields i (default fresh (ip_nonce i)))) < 2 ^ 63 →
  ip_wire i = None → ip_name i = [] → hasApplicationParameters i = false →
  ∃ i1 w, Interest_wireEncode sha256 auto fresh i = (Fault (Throw TlvError), i1) ∧
    Interest_wireEncode sha256 auto fresh i1 = (Ok w, i1) ∧
    Wire_ofSpan (w_bytes w) = Ok w ∧
    ∀ s, (Interest_wireDecode sha256 auto w s).1 = Fault (Throw TlvError).
Proof.
  intros Hi Hfr Hs Hw Hn Hp. pose proof (inv_fields_ok sha256 auto fresh i Hi Hfr Hs) as Hf.
  assert (encodable i = true) as He.
  { unfold encodable. rewrite Hp. apply bool_decide_eq_true. rewrite Hn. constructor. }
  destruct (elements_closed i _ Hf) as [Hc _].
  set (w := makeBinaryBlock tlv_Interest (Interest_encodeFields i (default fresh (ip_nonce i)))).
  exists (set_ip_wire (Some w) (set_ip_nonce (Some (default fresh (ip_nonce i))) i)), w. split_and!.
  - rewrite wireEncode_uncached by done. cbv zeta. by rewrite He, bool_decide_true.
  - done.
  - assert (Wire_closed w) as (Hcl & _).
    { apply makeBinaryBlock_closed; [done|lia|]. rewrite Interest_encodeFields_elements.
      by apply wiresBytes_ok. }
    specialize (Hcl []). by rewrite app_nil_r in Hcl.
  - intros s. unfold Interest_wireDecode.
    cbn [w_type w makeBinaryBlock Wire_ofBlock blk_type]. fold w.
    rewrite bool_decide_false by auto. rewrite (bindE _ _ s tt (set_ip_wire (Some w) s)) by done.
    rewrite (bindE _ _ _ (Interest_elements i (default fresh (ip_nonce i))) (set_ip_wire (Some w) s)).
    2:{ unfold liftE, w. rewrite Interest_encodeFields_elements, Wire_subs_make; done. }
    unfold Interest_elements. cbn [app]. rewrite Hn.
    cbn [w_type nameWire makeBinaryBlock Wire_ofBlock blk_type].
    by rewrite bool_decide_false by auto.
Qed.
Lemma empty_name_encodes_twice_witness :
  ∃ i1 w, Interest_wireEncode sampleSha true [1; 2; 3; 4] Interest_members = (Fault (Throw TlvError), i1) ∧
    Interest_wireEncode sampleSha true [1; 2; 3; 4] i1 = (Ok w, i1).
Proof.
  destruct (empty_name_encodes_twice sampleSha true Interest_members [1; 2; 3; 4])
    as (i1 & w & E1 & E2 & _).
  - apply Interest_members_inv.
  - split; [reflexivity|]. by repeat constructor.
  - vm_compute. reflexivity.
  - reflexivity.
  - reflexivity.
  - vm_compute. reflexivity.
  - exists i1, w. split; [exact E1|exact E2].
Defined.
