(* ===== verification/DataWire.v ===== *)
(** * The Data packet (ndn-cxx [data.cpp], [meta-info.cpp], [signature-info.cpp],
    [key-locator.cpp])

    The classes a Data packet is made of, each with its cached wire encoding:
    encoding, decoding and the modifiers.  SHA-256, for the full name, is a
    parameter. *)

From S2P Require Import Prelude Tlv Component Name Encoding.
Local Open Scope Z_scope.

(** ** KeyLocator *)

Inductive Locator : Type :=
| Loc_None
| Loc_Name (name : Name)
| Loc_KeyDigest (digest : Wire)
| Loc_Other (type : Z).
(** [operator==] of the variant; Blocks compare by type and value. *)
Definition Locator_equals (x y : Locator) : bool :=
  match x, y with
  | Loc_None, Loc_None => true
  | Loc_Name n, Loc_Name m => Name_equals n m
  | Loc_KeyDigest d, Loc_KeyDigest e => bool_decide (wire_block d = wire_block e)
  | Loc_Other t, Loc_Other u => bool_decide (t = u)
  | _, _ => false
  end.

Record KeyLocator := mkKeyLocator { kl_locator : Locator; kl_wire : option Wire }.
Definition KeyLocator_new : KeyLocator := mkKeyLocator Loc_None None.
Definition KeyLocator_equals (k l : KeyLocator) : bool := Locator_equals (kl_locator k) (kl_locator l).

(** [KeyLocator::wireEncode(encoder)]. *)
Definition KeyLocator_wireEncode_to (k : KeyLocator) (enc : list Z) : outcome (list Z) :=
  body ← (match kl_locator k with
          | Loc_None => Ok []
          | Loc_Name name => Ok (Name_wireEncode name [])
          | Loc_KeyDigest digest => Ok (prependBlock digest [])
          | Loc_Other _ => Fault (Throw TlvError)
          end);
  Ok (prependVarNumber tlv_KeyLocator (prependVarNumber (Z.of_nat (length body)) (body ++ enc))).

(** [KeyLocator::wireDecode], into a new object. *)
Definition KeyLocator_ofWire (wire : Wire) : outcome KeyLocator :=
  if bool_decide (w_type wire ≠ tlv_KeyLocator) then Fault (Throw TlvError)
  else
    elements ← Wire_subs wire;
    match elements with
    | [] => Ok (mkKeyLocator Loc_None (Some wire))
    | element :: _ =>
        if bool_decide (w_type element = tlv_Name) then
          name ← Name_wireDecode (wire_block element); Ok (mkKeyLocator (Loc_Name name) (Some wire))
        else if bool_decide (w_type element = tlv_KeyDigest)
        then Ok (mkKeyLocator (Loc_KeyDigest element) (Some wire))
        else Ok (mkKeyLocator (Loc_Other (w_type element)) (Some wire))
    end.

(** [getType], [setName] and [setKeyDigest]. *)
Definition KeyLocator_getType (k : KeyLocator) : Z :=
  match kl_locator k with
  | Loc_None => tlv_Invalid
  | Loc_Name _ => tlv_Name
  | Loc_KeyDigest _ => tlv_KeyDigest
  | Loc_Other type => type
  end.
Definition KeyLocator_setName (name : Name) (k : KeyLocator) : KeyLocator :=
  mkKeyLocator (Loc_Name name) None.
Definition KeyLocator_setKeyDigest (digest : Wire) (k : KeyLocator) : outcome KeyLocator :=
  if bool_decide (w_type digest ≠ tlv_KeyDigest) then Fault (Throw InvalidArgument)
  else Ok (mkKeyLocator (Loc_KeyDigest digest) None).

(** ** SignatureInfo *)

(** [m_type] is -1 for an invalid object. *)
Record SignatureInfo := mkSignatureInfo {
  si_type : Z;
  si_keyLocator : option KeyLocator;
  si_otherTlvs : list Wire;
  si_wire : option Wire
}.
Definition SignatureInfo_new : SignatureInfo := mkSignatureInfo (-1) None [] None.
Definition set_si_type v s := mkSignatureInfo v (si_keyLocator s) (si_otherTlvs s) (si_wire s).
Definition set_si_keyLocator v s := mkSignatureInfo (si_type s) v (si_otherTlvs s) (si_wire s).
Definition set_si_otherTlvs v s := mkSignatureInfo (si_type s) (si_keyLocator s) v (si_wire s).
Definition set_si_wire v s := mkSignatureInfo (si_type s) (si_keyLocator s) (si_otherTlvs s) v.

(** [SignatureInfo::Type], as the TLV-TYPE. *)
Inductive SignatureInfoType : Type := SI_Data | SI_Interest.
Definition SignatureInfoType_code (t : SignatureInfoType) : Z :=
  match t with SI_Data => tlv_SignatureInfo | SI_Interest => tlv_InterestSignatureInfo end.

(** [SignatureInfo::wireEncode(encoder, type)]. *)
Definition SignatureInfo_wireEncode_to (type : SignatureInfoType) (s : SignatureInfo) (enc : list Z)
  : outcome (list Z) :=
  if bool_decide (si_type s = -1) then Fault (Throw TlvError)
  else
    let body := foldr prependBlock [] (si_otherTlvs s) in
    body ← (match si_keyLocator s with
            | Some k => KeyLocator_wireEncode_to k body
            | None => Ok body
            end);
    let body := prependNonNegativeIntegerBlock tlv_SignatureType (u64 (si_type s)) body in
    Ok (prependVarNumber (SignatureInfoType_code type)
          (prependVarNumber (Z.of_nat (length body)) (body ++ enc))).

(** [SignatureInfo::wireEncode(type)]: the cached wire, whatever its type. *)
Definition SignatureInfo_wireEncode (type : SignatureInfoType) : ME SignatureInfo Wire :=
  s ← getE id;
  match si_wire s with
  | Some wire => mret wire
  | None =>
      bytes ← liftE (SignatureInfo_wireEncode_to type s []);
      wire ← liftE (Wire_ofSpan bytes);
      _ ← modifyE (set_si_wire (Some wire));
      mret wire
  end.

(** One element of [SignatureInfo::wireDecode]: the new [lastCriticalElement]. *)
Definition SignatureInfo_decodeElement (last : Z) (element : Wire) : ME SignatureInfo Z :=
  let push := modifyE (fun s => set_si_otherTlvs (si_otherTlvs s ++ [element]) s) in
  if bool_decide (w_type element = tlv_SignatureType) then
    if bool_decide (0 < last) then throwE TlvError
    else
      type ← liftE (readNonNegativeIntegerAs UINT16_MAX (wire_block element));
      _ ← modifyE (set_si_type type); mret 1
  else if bool_decide (w_type element = tlv_KeyLocator) then
    if bool_decide (1 < last) then throwE TlvError
    else
      k ← liftE (KeyLocator_ofWire element);
      _ ← modifyE (set_si_keyLocator (Some k)); mret 2
  else if bool_decide (w_type element = tlv_SignatureNonce) then
    if bool_decide (length (w_value element) < 1)%nat then throwE TlvError
    else _ ← push; mret last
  else if bool_decide (w_type element = tlv_ValidityPeriod) then _ ← push; mret last
  else if isCriticalType (w_type element) then throwE TlvError
  else _ ← push; mret last.

Fixpoint SignatureInfo_decodeElements (last : Z) (elements : list Wire) : ME SignatureInfo unit :=
  match elements with
  | [] => mret tt
  | element :: elements' =>
      last ← SignatureInfo_decodeElement last element;
      SignatureInfo_decodeElements last elements'
  end.

(** [SignatureInfo::wireDecode]. *)
Definition SignatureInfo_wireDecode (wire : Wire) (type : SignatureInfoType) : ME SignatureInfo unit :=
  _ ← modifyE (fun s => mkSignatureInfo (-1) None [] (Some wire));
  elements ← liftE (Wire_subs wire);
  if bool_decide (w_type wire ≠ SignatureInfoType_code type) then throwE TlvError
  else
    _ ← SignatureInfo_decodeElements 0 elements;
    s ← getE id;
    if bool_decide (si_type s = -1) then throwE TlvError else mret tt.

(** The modifiers. *)
Definition setSignatureType (type : Z) : ME SignatureInfo unit :=
  s ← getE id;
  if bool_decide (type ≠ si_type s)
  then _ ← modifyE (set_si_type type); modifyE (set_si_wire None) else mret tt.
Definition setKeyLocator (k : option KeyLocator) : ME SignatureInfo unit :=
  s ← getE id;
  let same := match k, si_keyLocator s with
              | Some x, Some y => KeyLocator_equals x y
              | None, None => true
              | _, _ => false
              end in
  if negb same
  then _ ← modifyE (set_si_keyLocator k); modifyE (set_si_wire None) else mret tt.
Definition addCustomTlv (block : Wire) : ME SignatureInfo unit :=
  s ← getE id;
  match list_find (fun b => w_type b = w_type block) (si_otherTlvs s) with
  | None =>
      _ ← modifyE (set_si_otherTlvs (si_otherTlvs s ++ [block])); modifyE (set_si_wire None)
  | Some (at_, existing) =>
      if bool_decide (wire_block existing ≠ wire_block block)
      then _ ← modifyE (set_si_otherTlvs (<[at_ := block]> (si_otherTlvs s)));
           modifyE (set_si_wire None)
      else mret tt
  end.
Definition removeCustomTlv (type : Z) : ME SignatureInfo unit :=
  s ← getE id;
  let kept := List.filter (fun b => negb (bool_decide (w_type b = type))) (si_otherTlvs s) in
  if bool_decide (length kept ≠ length (si_otherTlvs s))
  then _ ← modifyE (set_si_otherTlvs kept); modifyE (set_si_wire None) else mret tt.
(** [setNonce], [setTime] and [setSeqNum]; the time in milliseconds. *)
Definition SignatureInfo_setNonce (nonce : option (list Z)) : ME SignatureInfo unit :=
  match nonce with
  | None => removeCustomTlv tlv_SignatureNonce
  | Some n => addCustomTlv (makeBinaryBlock tlv_SignatureNonce n)
  end.
Definition SignatureInfo_setTime (time : option Z) : ME SignatureInfo unit :=
  match time with
  | None => removeCustomTlv tlv_SignatureTime
  | Some t => addCustomTlv (makeBinaryBlock tlv_SignatureTime (prependNonNegativeInteger (u64 t) []))
  end.
Definition SignatureInfo_setSeqNum (seqNum : option Z) : ME SignatureInfo unit :=
  match seqNum with
  | None => removeCustomTlv tlv_SignatureSeqNum
  | Some n => addCustomTlv (makeBinaryBlock tlv_SignatureSeqNum (prependNonNegativeInteger n []))
  end.

(** ** MetaInfo *)

Definition ContentType_Blob : Z := 0.
Definition DEFAULT_FRESHNESS_PERIOD : Z := 0.

Record MetaInfo := mkMetaInfo {
  mi_type : Z;
  mi_freshnessPeriod : Z;
  mi_finalBlockId : option Component;
  mi_appMetaInfo : list Wire;
  mi_wire : option Wire
}.
Definition MetaInfo_new : MetaInfo := mkMetaInfo ContentType_Blob DEFAULT_FRESHNESS_PERIOD None [] None.
Definition set_mi_type v m :=
  mkMetaInfo v (mi_freshnessPeriod m) (mi_finalBlockId m) (mi_appMetaInfo m) (mi_wire m).
Definition set_mi_freshnessPeriod v m :=
  mkMetaInfo (mi_type m) v (mi_finalBlockId m) (mi_appMetaInfo m) (mi_wire m).
Definition set_mi_finalBlockId v m :=
  mkMetaInfo (mi_type m) (mi_freshnessPeriod m) v (mi_appMetaInfo m) (mi_wire m).
Definition set_mi_appMetaInfo v m :=
  mkMetaInfo (mi_type m) (mi_freshnessPeriod m) (mi_finalBlockId m) v (mi_wire m).
Definition set_mi_wire v m :=
  mkMetaInfo (mi_type m) (mi_freshnessPeriod m) (mi_finalBlockId m) (mi_appMetaInfo m) v.

(** [MetaInfo::wireEncode(encoder)]. *)
Definition MetaInfo_wireEncode_to (m : MetaInfo) (enc : list Z) : list Z :=
  let body := foldr prependBlock [] (mi_appMetaInfo m) in
  let body := match mi_finalBlockId m with
              | Some c => prependNestedBlock Component_wireEncode tlv_FinalBlockId [c] body
              | None => body
              end in
  let body := if bool_decide (mi_freshnessPeriod m ≠ DEFAULT_FRESHNESS_PERIOD)
              then prependNonNegativeIntegerBlock tlv_FreshnessPeriod (u64 (mi_freshnessPeriod m)) body
              else body in
  let body := if bool_decide (mi_type m ≠ ContentType_Blob)
              then prependNonNegativeIntegerBlock tlv_ContentType (mi_type m) body else body in
  prependVarNumber tlv_MetaInfo (prependVarNumber (Z.of_nat (length body)) (body ++ enc)).

(** [MetaInfo::wireDecode]: each part takes the next element when its type is
    right.  Nothing clears [m_appMetaInfo]. *)
Definition decodeContentType (els : list Wire) : ME MetaInfo (list Wire) :=
  match els with
  | e :: els' =>
      if bool_decide (w_type e = tlv_ContentType) then
        v ← liftE (readNonNegativeIntegerAs UINT32_MAX (wire_block e));
        _ ← modifyE (set_mi_type v); mret els'
      else _ ← modifyE (set_mi_type ContentType_Blob); mret els
  | [] => _ ← modifyE (set_mi_type ContentType_Blob); mret els
  end.
Definition decodeFreshnessPeriod (els : list Wire) : ME MetaInfo (list Wire) :=
  match els with
  | e :: els' =>
      if bool_decide (w_type e = tlv_FreshnessPeriod) then
        v ← liftE (readNonNegativeInteger_block (wire_block e));
        _ ← modifyE (set_mi_freshnessPeriod (i64 v)); mret els'
      else _ ← modifyE (set_mi_freshnessPeriod DEFAULT_FRESHNESS_PERIOD); mret els
  | [] => _ ← modifyE (set_mi_freshnessPeriod DEFAULT_FRESHNESS_PERIOD); mret els
  end.
Definition decodeFinalBlockId (els : list Wire) : ME MetaInfo (list Wire) :=
  match els with
  | e :: els' =>
      if bool_decide (w_type e = tlv_FinalBlockId) then
        inner ← liftE (blockFromValue e);
        c ← liftE (makeComponent (w_type inner) (w_value inner));
        _ ← modifyE (set_mi_finalBlockId (Some c)); mret els'
      else _ ← modifyE (set_mi_finalBlockId None); mret els
  | [] => _ ← modifyE (set_mi_finalBlockId None); mret els
  end.
Definition MetaInfo_wireDecode (wire : Wire) : ME MetaInfo unit :=
  _ ← modifyE (set_mi_wire (Some wire));
  els ← liftE (Wire_subs wire);
  els ← decodeContentType els;
  els ← decodeFreshnessPeriod els;
  els ← decodeFinalBlockId els;
  modifyE (fun m => set_mi_appMetaInfo (mi_appMetaInfo m ++ els) m).

(** [MetaInfo::wireEncode()]. *)
Definition MetaInfo_wireEncode : ME MetaInfo Wire :=
  m ← getE id;
  match mi_wire m with
  | Some wire => mret wire
  | None =>
      wire ← liftE (Wire_ofSpan (MetaInfo_wireEncode_to m []));
      _ ← modifyE (set_mi_wire (Some wire));
      mret wire
  end.

(** The modifiers. *)
Definition MetaInfo_setType (type : Z) : ME MetaInfo unit :=
  _ ← modifyE (set_mi_wire None); modifyE (set_mi_type type).
Definition MetaInfo_setFreshnessPeriod (freshnessPeriod : Z) : ME MetaInfo unit :=
  if bool_decide (freshnessPeriod < 0) then throwE InvalidArgument
  else _ ← modifyE (set_mi_wire None); modifyE (set_mi_freshnessPeriod freshnessPeriod).
Definition MetaInfo_setFinalBlock (finalBlockId : option Component) : ME MetaInfo unit :=
  _ ← modifyE (set_mi_wire None); modifyE (set_mi_finalBlockId finalBlockId).
Definition MetaInfo_addAppMetaInfo (block : Wire) : ME MetaInfo unit :=
  if negb (bool_decide (128 ≤ w_type block ∧ w_type block ≤ 252)) then throwE TlvError
  else
    _ ← modifyE (set_mi_wire None);
    modifyE (fun m => set_mi_appMetaInfo (mi_appMetaInfo m ++ [block]) m).
Definition MetaInfo_removeAppMetaInfo (tlvType : Z) : ME MetaInfo bool :=
  m ← getE id;
  match list_find (fun b => w_type b = tlvType) (mi_appMetaInfo m) with
  | Some (at_, _) =>
      _ ← modifyE (set_mi_wire None);
      _ ← modifyE (set_mi_appMetaInfo (delete at_ (mi_appMetaInfo m)));
      mret true
  | None => mret false
  end.

(** ** Data *)

(** [m_content] and [m_signatureValue] are [None] for an invalid Block. *)
Record DataPkt := mkDataPkt {
  dp_name : Name;
  dp_metaInfo : MetaInfo;
  dp_content : option Wire;
  dp_signatureInfo : SignatureInfo;
  dp_signatureValue : option Wire;
  dp_wire : option Wire;
  dp_fullName : Name
}.
Definition Data_new (name : Name) : DataPkt :=
  mkDataPkt name MetaInfo_new None SignatureInfo_new None None [].
Definition set_dp_metaInfo v d :=
  mkDataPkt (dp_name d) v (dp_content d) (dp_signatureInfo d) (dp_signatureValue d) (dp_wire d)
    (dp_fullName d).
Definition set_dp_content v d :=
  mkDataPkt (dp_name d) (dp_metaInfo d) v (dp_signatureInfo d) (dp_signatureValue d) (dp_wire d)
    (dp_fullName d).
Definition set_dp_signatureInfo v d :=
  mkDataPkt (dp_name d) (dp_metaInfo d) (dp_content d) v (dp_signatureValue d) (dp_wire d)
    (dp_fullName d).
Definition set_dp_signatureValue v d :=
  mkDataPkt (dp_name d) (dp_metaInfo d) (dp_content d) (dp_signatureInfo d) v (dp_wire d)
    (dp_fullName d).
Definition set_dp_name v d :=
  mkDataPkt v (dp_metaInfo d) (dp_content d) (dp_signatureInfo d) (dp_signatureValue d) (dp_wire d)
    (dp_fullName d).
Definition set_dp_wire v d :=
  mkDataPkt (dp_name d) (dp_metaInfo d) (dp_content d) (dp_signatureInfo d) (dp_signatureValue d) v
    (dp_fullName d).
Definition set_dp_fullName v d :=
  mkDataPkt (dp_name d) (dp_metaInfo d) (dp_content d) (dp_signatureInfo d) (dp_signatureValue d)
    (dp_wire d) v.

(** [resetWire]. *)
Definition Data_resetWire : ME DataPkt unit :=
  _ ← modifyE (set_dp_wire None); modifyE (set_dp_fullName []).

Section data.
Context (sha256 : list Z → list Z).

(** The elements up to SignatureInfo: the signed portion. *)
Definition Data_encodeUnsigned (d : DataPkt) (enc : list Z) : outcome (list Z) :=
  enc ← SignatureInfo_wireEncode_to SI_Data (dp_signatureInfo d) enc;
  let enc := match dp_content d with Some c => prependBlock c enc | None => enc end in
  let enc := MetaInfo_wireEncode_to (dp_metaInfo d) enc in
  Ok (Name_wireEncode (dp_name d) enc).

(** [Data::wireEncode(encoder, wantUnsignedPortionOnly)].  An invalid
    SignatureValue is written with its TLV-TYPE [tlv::Invalid]. *)
Definition Data_wireEncode_to (wantUnsignedPortionOnly : bool) (d : DataPkt) : outcome (list Z) :=
  if wantUnsignedPortionOnly then Data_encodeUnsigned d []
  else
    if bool_decide (si_type (dp_signatureInfo d) = -1) then Fault (Throw TlvError)
    else
      let enc := match dp_signatureValue d with
                 | Some v => prependBlock v []
                 | None => prependBinaryBlock tlv_Invalid [] []
                 end in
      body ← Data_encodeUnsigned d enc;
      Ok (prependVarNumber tlv_Data (prependVarNumber (Z.of_nat (length body)) body)).

(** One element of [Data::wireDecode]: the new [lastElement]. *)
Definition Data_decodeElement (lastElement : Z) (element : Wire) : ME DataPkt Z :=
  let type := w_type element in
  if bool_decide (type = tlv_MetaInfo) then
    if bool_decide (2 ≤ lastElement) then throwE TlvError
    else _ ← zoomE dp_metaInfo set_dp_metaInfo (MetaInfo_wireDecode element); mret 2
  else if bool_decide (type = tlv_Content) then
    if bool_decide (3 ≤ lastElement) then throwE TlvError
    else _ ← modifyE (set_dp_content (Some element)); mret 3
  else if bool_decide (type = tlv_SignatureInfo) then
    if bool_decide (4 ≤ lastElement) then throwE TlvError
    else
      _ ← zoomE dp_signatureInfo set_dp_signatureInfo (SignatureInfo_wireDecode element SI_Data);
      mret 4
  else if bool_decide (type = tlv_SignatureValue) then
    if bool_decide (5 ≤ lastElement) then throwE TlvError
    else _ ← modifyE (set_dp_signatureValue (Some element)); mret 5
  else if isCriticalType type then throwE TlvError
  else mret lastElement.

Fixpoint Data_decodeElements (lastElement : Z) (elements : list Wire) : ME DataPkt unit :=
  match elements with
  | [] => mret tt
  | element :: elements' =>
      lastElement ← Data_decodeElement lastElement element;
      Data_decodeElements lastElement elements'
  end.

(** [Data::wireDecode]. *)
Definition Data_wireDecode (wire : Wire) : ME DataPkt unit :=
  if bool_decide (w_type wire ≠ tlv_Data) then throwE TlvError
  else
    _ ← modifyE (set_dp_wire (Some wire));
    elements ← liftE (Wire_subs wire);
    match elements with
    | [] => throwE TlvError
    | element :: elements =>
        if bool_decide (w_type element ≠ tlv_Name) then throwE TlvError
        else
          name ← liftE (Name_wireDecode (wire_block element));
          _ ← modifyE (fun d => mkDataPkt name MetaInfo_new None SignatureInfo_new None (dp_wire d) []);
          _ ← Data_decodeElements 1 elements;
          d ← getE id;
          if bool_decide (si_type (dp_signatureInfo d) = -1) then throwE TlvError
          else match dp_signatureValue d with None => throwE TlvError | Some _ => mret tt end
    end.

(** [Data::wireEncode()]. *)
Definition Data_wireEncode : ME DataPkt Wire :=
  d ← getE id;
  match dp_wire d with
  | Some wire => mret wire
  | None =>
      bytes ← liftE (Data_wireEncode_to false d);
      wire ← liftE (Wire_ofSpan bytes);
      _ ← Data_wireDecode wire;
      mret wire
  end.

(** [Data::wireEncode(encoder, signature)]; [encoder] holds the unsigned
    portion. *)
Definition Data_wireEncode_signed (encoder signature : list Z) : ME DataPkt Wire :=
  let enc := appendVarNumber encoder tlv_SignatureValue in
  let enc := appendVarNumber enc (Z.of_nat (length signature)) ++ signature in
  let bytes := prependVarNumber tlv_Data (prependVarNumber (Z.of_nat (length enc)) enc) in
  wire ← liftE (Wire_ofSpan bytes);
  _ ← Data_wireDecode wire;
  mret wire.

(** The constructor [Data(wire)]. *)
Definition Data_ofWire (wire : Wire) : outcome DataPkt :=
  match Data_wireDecode wire (Data_new []) with
  | (Ok _, d) => Ok d
  | (Fault f, _) => Fault f
  end.

(** [Data::getFullName]. *)
Definition Data_getFullName : ME DataPkt Name :=
  d ← getE id;
  if bool_decide (length (dp_fullName d) = 0%nat) then
    match dp_wire d with
    | None => throwE TlvError
    | Some wire =>
        c ← liftE (makeComponent ImplicitSha256DigestComponent (sha256 (w_bytes wire)));
        _ ← modifyE (set_dp_fullName (dp_name d ++ [c]));
        mret (dp_name d ++ [c])
    end
  else mret (dp_fullName d).

(** [Data::extractSignedRanges]: the bytes from the begin of the value to the
    element before SignatureValue. *)
Definition Data_extractSignedRanges : ME DataPkt (list Z) :=
  wire ← Data_wireEncode;
  elements ← liftE (Wire_subs wire);
  match list_find (fun e => w_type e = tlv_SignatureValue) elements with
  | Some (S at_, _) => mret (wiresBytes (take (S at_) elements) [])
  | _ => liftE (Fault UndefinedBehaviour)
  end.

(** [KeyChain::sign(Data)] with [sigInfo] from [prepareSignatureInfo] and the
    crypto as the parameter [sign]. *)
Definition KeyChain_signData (sign : list Z → list Z) (sigInfo : SignatureInfo) : ME DataPkt unit :=
  _ ← modifyE (set_dp_signatureInfo sigInfo);
  _ ← Data_resetWire;
  d ← getE id;
  encoder ← liftE (Data_wireEncode_to true d);
  _ ← Data_wireEncode_signed encoder (sign encoder);
  mret tt.

(** The modifiers. *)
Definition Data_setName (name : Name) : ME DataPkt unit :=
  d ← getE id;
  if negb (Name_equals name (dp_name d))
  then _ ← modifyE (set_dp_name name); Data_resetWire else mret tt.
Definition Data_setMetaInfo (m : MetaInfo) : ME DataPkt unit :=
  _ ← modifyE (set_dp_metaInfo m); Data_resetWire.
(** [setContent(Block)], of a valid block with a wire, and [setContent(span)]. *)
Definition Data_setContent_block (block : Wire) : ME DataPkt unit :=
  _ ← modifyE (set_dp_content (Some
         (if bool_decide (w_type block = tlv_Content) then block
          else makeBinaryBlock tlv_Content (w_bytes block))));
  Data_resetWire.
Definition Data_setContent (value : list Z) : ME DataPkt unit :=
  _ ← modifyE (set_dp_content (Some (makeBinaryBlock tlv_Content value))); Data_resetWire.
Definition Data_unsetContent : ME DataPkt unit :=
  d ← getE id;
  match dp_content d with
  | Some _ => _ ← modifyE (set_dp_content None); Data_resetWire
  | None => mret tt
  end.
Definition Data_setSignatureInfo (info : SignatureInfo) : ME DataPkt unit :=
  _ ← modifyE (set_dp_signatureInfo info); Data_resetWire.
Definition Data_setSignatureValue (value : list Z) : ME DataPkt unit :=
  _ ← modifyE (set_dp_signatureValue (Some (makeBinaryBlock tlv_SignatureValue value)));
  Data_resetWire.
Definition Data_setContentType (type : Z) : ME DataPkt unit :=
  d ← getE id;
  if bool_decide (type ≠ mi_type (dp_metaInfo d)) then
    _ ← zoomE dp_metaInfo set_dp_metaInfo (MetaInfo_setType type); Data_resetWire
  else mret tt.
Definition Data_setFreshnessPeriod (freshnessPeriod : Z) : ME DataPkt unit :=
  d ← getE id;
  if bool_decide (freshnessPeriod ≠ mi_freshnessPeriod (dp_metaInfo d)) then
    _ ← zoomE dp_metaInfo set_dp_metaInfo (MetaInfo_setFreshnessPeriod freshnessPeriod);
    Data_resetWire
  else mret tt.
Definition Data_setFinalBlock (finalBlockId : option Component) : ME DataPkt unit :=
  d ← getE id;
  if bool_decide (finalBlockId ≠ mi_finalBlockId (dp_metaInfo d)) then
    _ ← zoomE dp_metaInfo set_dp_metaInfo (MetaInfo_setFinalBlock finalBlockId); Data_resetWire
  else mret tt.
End data.

(** ** The elements that are written *)

Definition locatorElements (l : Locator) : list Wire :=
  match l with Loc_Name n => [nameWire n] | Loc_KeyDigest d => [d] | _ => [] end.
Definition keyLocatorWire (l : Locator) : Wire :=
  makeBinaryBlock tlv_KeyLocator (wiresBytes (locatorElements l) []).

Definition locator_ok (l : Locator) : Prop :=
  match l with
  | Loc_None => True
  | Loc_Name n => name_wf n
  | Loc_KeyDigest d => Wire_closed d ∧ w_type d = tlv_KeyDigest
  | Loc_Other _ => False
  end.

Lemma KeyLocator_encode k enc :
  locator_ok (kl_locator k) →
  KeyLocator_wireEncode_to k enc = Ok (prependBlock (keyLocatorWire (kl_locator k)) enc).
Proof.
  unfold KeyLocator_wireEncode_to, keyLocatorWire. rewrite prependBlock_make.
  destruct (kl_locator k) as [|n|d|t]; cbn [locator_ok locatorElements]; [done| |done|done].
  intros _. rewrite bind_Ok, Name_wireEncode_make. done.
Qed.

Lemma locatorElements_closed l :
  locator_ok l → small (locatorElements l) → Forall Wire_closed (locatorElements l).
Proof.
  destruct l as [|n|d|t]; cbn [locator_ok locatorElements]; try done.
  - intros Hn Hs. constructor; [|constructor]. apply makeBinaryBlock_closed; [done| |].
    + pose proof (small_in _ (nameWire n) ltac:(by left) Hs) as Hl.
      pose proof (value_le_bytes tlv_Name (foldr Component_wireEncode [] n)). unfold nameWire in Hl. lia.
    + by apply Name_value_bytes.
  - intros [Hd _] _. by constructor.
Qed.

Definition cachedLocator (l : Locator) : KeyLocator := mkKeyLocator l (Some (keyLocatorWire l)).

Lemma KeyLocator_decode l :
  locator_ok l → small (locatorElements l) → KeyLocator_ofWire (keyLocatorWire l) = Ok (cachedLocator l).
Proof.
  intros Hl Hs. pose proof (locatorElements_closed l Hl Hs) as Hc.
  unfold KeyLocator_ofWire, cachedLocator.
  change (w_type (keyLocatorWire l)) with tlv_KeyLocator. rewrite bool_decide_false by auto.
  assert (Wire_subs (keyLocatorWire l) = Ok (locatorElements l)) as -> by (by apply Wire_subs_make).
  rewrite bind_Ok.
  destruct l as [|n|d|t]; cbn [locatorElements locator_ok] in *; try done.
  - cbn [w_type nameWire makeBinaryBlock Wire_ofBlock blk_type]. rewrite bool_decide_true by done.
    fold (makeBinaryBlock tlv_Name (foldr Component_wireEncode [] n)). fold (nameWire n).
    by rewrite Name_wireDecode_nameWire.
  - destruct Hl as [_ Ht]. rewrite Ht, bool_decide_false, bool_decide_true by done. done.
Qed.

(** ** SignatureInfo *)

Definition sigElements (s : SignatureInfo) : list Wire :=
  [makeBinaryBlock tlv_SignatureType (prependNonNegativeInteger (u64 (si_type s)) [])] ++
  (match si_keyLocator s with Some k => [keyLocatorWire (kl_locator k)] | None => [] end) ++
  si_otherTlvs s.
Definition sigInfoWire (type : SignatureInfoType) (s : SignatureInfo) : Wire :=
  makeBinaryBlock (SignatureInfoType_code type) (wiresBytes (sigElements s) []).

(** An element the decoder keeps in [m_otherTlvs]. *)
Definition isOtherTlv (w : Wire) : bool :=
  (bool_decide (w_type w = tlv_ValidityPeriod) || negb (isCriticalType (w_type w))) &&
  negb (bool_decide (w_type w = tlv_SignatureNonce ∧ length (w_value w) < 1)%nat).
Record sig_ok (s : SignatureInfo) : Prop := {
  sig_type : 0 ≤ si_type s ≤ UINT16_MAX;
  sig_locator : ∀ k, si_keyLocator s = Some k → locator_ok (kl_locator k);
  sig_others : Forall (fun w => Wire_closed w ∧ isOtherTlv w = true) (si_otherTlvs s)
}.

Lemma SignatureInfo_encode type s enc :
  sig_ok s → SignatureInfo_wireEncode_to type s enc = Ok (prependBlock (sigInfoWire type s) enc).
Proof.
  intros [Ht Hk _]. unfold SignatureInfo_wireEncode_to, sigInfoWire, sigElements.
  rewrite bool_decide_false by lia. rewrite prependBlock_make, !wiresBytes_app.
  unfold wiresBytes at 2. destruct (si_keyLocator s) as [k|].
  - rewrite KeyLocator_encode by auto. rewrite bind_Ok, prependNonNegativeIntegerBlock_make. done.
  - rewrite bind_Ok, prependNonNegativeIntegerBlock_make. done.
Qed.

Definition cachedSig (type : SignatureInfoType) (s : SignatureInfo) : SignatureInfo :=
  mkSignatureInfo (si_type s) ((fun k => cachedLocator (kl_locator k)) <$> si_keyLocator s)
    (si_otherTlvs s) (Some (sigInfoWire type s)).

Lemma sigElements_closed s : sig_ok s → small (sigElements s) → Forall Wire_closed (sigElements s).
Proof.
  intros [Ht Hk Ho] Hs. unfold sigElements in *. apply Forall_app. split.
  { constructor; [|constructor]. apply makeBinaryBlock_closed; [done| |apply prependNonNegativeInteger_bytes].
    rewrite length_prependNonNegativeInteger.
    pose proof (sizeOfNonNegativeInteger_le (u64 (si_type s))). lia. }
  apply small_app in Hs as [_ Hs]. apply Forall_app. split.
  - destruct (si_keyLocator s) as [k|]; [|constructor]. constructor; [|constructor].
    assert (small (locatorElements (kl_locator k))) as Hs'.
    { unfold small. pose proof (small_in _ (keyLocatorWire (kl_locator k)) ltac:(by left) Hs) as Hl.
      unfold keyLocatorWire in Hl.
      pose proof (value_le_bytes tlv_KeyLocator (wiresBytes (locatorElements (kl_locator k)) [])). lia. }
    apply nested_closed; [done| |done]. apply locatorElements_closed; auto.
  - eapply Forall_impl; [exact Ho|]. by intros w [].
Qed.

Lemma SignatureInfo_decode_others others last s :
  Forall (fun w => Wire_closed w ∧ isOtherTlv w = true) others →
  SignatureInfo_decodeElements last others s =
    (Ok tt, set_si_otherTlvs (si_otherTlvs s ++ others) s).
Proof.
  intros Ho. revert s. induction Ho as [|e others [_ He] _ IH]; intros s.
  { destruct s. cbn. by rewrite app_nil_r. }
  cbn [SignatureInfo_decodeElements].
  rewrite (bindE _ _ s last (set_si_otherTlvs (si_otherTlvs s ++ [e]) s)).
  { rewrite IH. destruct s. cbn. by rewrite <-app_assoc. }
  unfold isOtherTlv in He. apply andb_true_iff in He as [H1 H2].
  apply negb_true_iff, bool_decide_eq_false in H2. unfold SignatureInfo_decodeElement.
  assert (∀ t, isCriticalType t = true → t ≠ tlv_ValidityPeriod → w_type e ≠ t) as Hne.
  { intros t Hc Hv Et. rewrite Et, Hc, bool_decide_false in H1 by done. done. }
  rewrite bool_decide_false by (apply Hne; done). rewrite bool_decide_false by (apply Hne; done).
  destruct (decide (w_type e = tlv_SignatureNonce)) as [H3|H3].
  { rewrite bool_decide_true by done. by rewrite bool_decide_false by (intros ?; by apply H2). }
  rewrite bool_decide_false by done. case_bool_decide; [done|]. cbn in H1.
  apply negb_true_iff in H1. by rewrite H1.
Qed.

Lemma readNonNegativeIntegerAs_make maximum type v :
  0 ≤ v ≤ maximum → maximum < 2 ^ 64 →
  readNonNegativeIntegerAs maximum (wire_block (makeBinaryBlock type (prependNonNegativeInteger v [])))
    = Ok v.
Proof.
  intros Hv Hm. unfold readNonNegativeIntegerAs, wire_block, makeBinaryBlock.
  cbn [w_type w_value Wire_ofBlock blk_type blk_value].
  rewrite readNonNegativeInteger_block_written by (unfold is_u64; lia). rewrite bind_Ok.
  by rewrite bool_decide_false by lia.
Qed.

Lemma SignatureInfo_decode type s s0 :
  sig_ok s → small (sigElements s) →
  SignatureInfo_wireDecode (sigInfoWire type s) type s0 = (Ok tt, cachedSig type s).
Proof.
  intros Hok Hs. pose proof (sigElements_closed s Hok Hs) as Hc.
  unfold SignatureInfo_wireDecode.
  set (s1 := mkSignatureInfo (-1) None [] (Some (sigInfoWire type s))).
  rewrite (bindE _ _ s0 tt s1) by done.
  rewrite (bindE _ _ s1 (sigElements s) s1) by (unfold liftE; unfold sigInfoWire; by rewrite Wire_subs_make).
  change (w_type (sigInfoWire type s)) with (SignatureInfoType_code type).
  rewrite bool_decide_false by (intros H; by apply H).
  pose proof Hok as [Ht Hk Ho]. unfold UINT16_MAX in Ht.
  assert (SignatureInfo_decodeElements 0 (sigElements s) s1 = (Ok tt, cachedSig type s)) as E.
  { unfold sigElements. cbn [app SignatureInfo_decodeElements].
    rewrite (bindE _ _ s1 1 (set_si_type (si_type s) s1)).
    2:{ unfold SignatureInfo_decodeElement. cbn [w_type makeBinaryBlock Wire_ofBlock blk_type].
        rewrite bool_decide_true by done. rewrite bool_decide_false by lia.
        fold (makeBinaryBlock tlv_SignatureType (prependNonNegativeInteger (u64 (si_type s)) [])).
        rewrite (bindE _ _ s1 (si_type s) s1); [done|]. unfold liftE.
        rewrite u64_small by lia. by rewrite readNonNegativeIntegerAs_make by (unfold UINT16_MAX; lia). }
    set (s2 := set_si_type (si_type s) s1). destruct (si_keyLocator s) as [k|] eqn:Ek.
    - cbn [app SignatureInfo_decodeElements].
      rewrite (bindE _ _ s2 2 (set_si_keyLocator (Some (cachedLocator (kl_locator k))) s2)).
      + rewrite SignatureInfo_decode_others by done. unfold cachedSig. rewrite Ek. done.
      + unfold SignatureInfo_decodeElement. change (w_type (keyLocatorWire _)) with tlv_KeyLocator.
        rewrite bool_decide_false, bool_decide_true by done. rewrite bool_decide_false by lia.
        rewrite (bindE _ _ s2 (cachedLocator (kl_locator k)) s2); [done|]. unfold liftE.
        rewrite KeyLocator_decode; [done|by apply Hk|].
        unfold sigElements in Hs. rewrite Ek in Hs. apply small_app in Hs as [_ [Hs _]%small_app].
        pose proof (small_in _ (keyLocatorWire (kl_locator k)) ltac:(by left) Hs) as Hl.
        unfold small, keyLocatorWire in *.
        pose proof (value_le_bytes tlv_KeyLocator (wiresBytes (locatorElements (kl_locator k)) [])). lia.
    - cbn [app]. rewrite SignatureInfo_decode_others by done. unfold cachedSig. by rewrite Ek. }
  rewrite (bindE _ _ s1 tt _ E). rewrite (bindE _ _ _ (cachedSig type s) (cachedSig type s)) by done.
  by rewrite bool_decide_false by (cbn; lia).
Qed.

(** ** MetaInfo *)

Definition metaElements (m : MetaInfo) : list Wire :=
  (if bool_decide (mi_type m ≠ ContentType_Blob)
   then [makeBinaryBlock tlv_ContentType (prependNonNegativeInteger (mi_type m) [])] else []) ++
  (if bool_decide (mi_freshnessPeriod m ≠ DEFAULT_FRESHNESS_PERIOD)
   then [makeBinaryBlock tlv_FreshnessPeriod (prependNonNegativeInteger (u64 (mi_freshnessPeriod m)) [])]
   else []) ++
  (match mi_finalBlockId m with
   | Some c => [makeBinaryBlock tlv_FinalBlockId (Component_wireEncode c [])]
   | None => []
   end) ++
  mi_appMetaInfo m.
Definition metaWire (m : MetaInfo) : Wire := makeBinaryBlock tlv_MetaInfo (wiresBytes (metaElements m) []).

Record meta_ok (m : MetaInfo) : Prop := {
  meta_type : 0 ≤ mi_type m ≤ UINT32_MAX;
  meta_freshness : - 2 ^ 63 ≤ mi_freshnessPeriod m < 2 ^ 63;
  meta_final : ∀ c, mi_finalBlockId m = Some c → Component_ok c;
  meta_app : Forall (fun w => Wire_closed w ∧
    w_type w ∉ [tlv_ContentType; tlv_FreshnessPeriod; tlv_FinalBlockId]) (mi_appMetaInfo m)
}.

Lemma MetaInfo_encode m enc : MetaInfo_wireEncode_to m enc = prependBlock (metaWire m) enc.
Proof.
  unfold MetaInfo_wireEncode_to, metaWire, metaElements. rewrite prependBlock_make, !wiresBytes_app.
  unfold wiresBytes at 4.
  destruct (mi_finalBlockId m) as [c|]; repeat case_bool_decide;
    rewrite ?prependNonNegativeIntegerBlock_make, ?prependNestedBlock_make; done.
Qed.

Lemma Component_wire_closed c :
  Component_ok c →
  Wire_closed (makeBinaryBlock (ctype c) (cvalue c)) ∧
  Component_wireEncode c [] = w_bytes (makeBinaryBlock (ctype c) (cvalue c)).
Proof.
  intros (Hv & Hb & Hl). pose proof (ensureValid_type c Hv) as Ht. unfold value_size in Hl. split.
  - apply makeBinaryBlock_closed; [lia|lia|done].
  - done.
Qed.

Lemma metaElements_closed m : meta_ok m → small (metaElements m) → Forall Wire_closed (metaElements m).
Proof.
  intros [Ht Hf Hc Ha] Hs. unfold metaElements in *.
  assert (∀ type v, 0 < type < 2 ^ 32 →
    Wire_closed (makeBinaryBlock type (prependNonNegativeInteger v []))) as Hnum.
  { intros type v Hty. apply makeBinaryBlock_closed; [done| |apply prependNonNegativeInteger_bytes].
    rewrite length_prependNonNegativeInteger. pose proof (sizeOfNonNegativeInteger_le v). lia. }
  rewrite !Forall_app. split_and!.
  - clear Hs. case_bool_decide; [|constructor]. constructor; [by apply Hnum|constructor].
  - clear Hs. case_bool_decide; [|constructor]. constructor; [by apply Hnum|constructor].
  - destruct (mi_finalBlockId m) as [c|] eqn:Ec; [|constructor]. constructor; [|constructor].
    destruct (Component_wire_closed c (Hc c eq_refl)) as [(_ & Hb & _) E].
    apply makeBinaryBlock_closed; [done| |by rewrite E].
    apply small_app in Hs as [_ [_ [Hs _]%small_app]%small_app].
    pose proof (small_in _ _ ltac:(by left) Hs) as Hl. cbv beta in Hl.
    pose proof (value_le_bytes tlv_FinalBlockId (Component_wireEncode c [])). lia.
  - eapply Forall_impl; [exact Ha|]. by intros w [].
Qed.

Lemma decodeContentType_eq m els s :
  0 ≤ mi_type m ≤ UINT32_MAX → (∀ e els', els = e :: els' → w_type e ≠ tlv_ContentType) →
  decodeContentType
    ((if bool_decide (mi_type m ≠ ContentType_Blob)
      then [makeBinaryBlock tlv_ContentType (prependNonNegativeInteger (mi_type m) [])] else []) ++ els) s
  = (Ok els, set_mi_type (mi_type m) s).
Proof.
  intros Ht Hels. case_bool_decide as Hd.
  - cbn [app decodeContentType]. cbn [w_type makeBinaryBlock Wire_ofBlock blk_type].
    rewrite bool_decide_true by done.
    fold (makeBinaryBlock tlv_ContentType (prependNonNegativeInteger (mi_type m) [])).
    rewrite (bindE _ _ s (mi_type m) s); [done|]. unfold liftE.
    by rewrite readNonNegativeIntegerAs_make by (done || unfold UINT32_MAX; lia).
  - destruct (decide (mi_type m = ContentType_Blob)) as [->|]; [|done]. cbn [app].
    destruct els as [|e els]; [done|]. unfold decodeContentType.
    by rewrite bool_decide_false by (by eapply Hels).
Qed.

Lemma decodeFreshnessPeriod_eq m els s :
  - 2 ^ 63 ≤ mi_freshnessPeriod m < 2 ^ 63 →
  (∀ e els', els = e :: els' → w_type e ≠ tlv_FreshnessPeriod) →
  decodeFreshnessPeriod
    ((if bool_decide (mi_freshnessPeriod m ≠ DEFAULT_FRESHNESS_PERIOD)
      then [makeBinaryBlock tlv_FreshnessPeriod
              (prependNonNegativeInteger (u64 (mi_freshnessPeriod m)) [])] else []) ++ els) s
  = (Ok els, set_mi_freshnessPeriod (mi_freshnessPeriod m) s).
Proof.
  intros Hf Hels. case_bool_decide as Hd.
  - cbn [app decodeFreshnessPeriod]. cbn [w_type makeBinaryBlock Wire_ofBlock blk_type].
    rewrite bool_decide_true by done.
    fold (makeBinaryBlock tlv_FreshnessPeriod (prependNonNegativeInteger (u64 (mi_freshnessPeriod m)) [])).
    rewrite (bindE _ _ s (u64 (mi_freshnessPeriod m)) s).
    + rewrite i64_u64 by done. done.
    + unfold liftE, wire_block. cbn [w_type w_value makeBinaryBlock Wire_ofBlock blk_type blk_value].
      rewrite readNonNegativeInteger_block_written; [done|].
      unfold is_u64, u64. apply Z.mod_pos_bound. lia.
  - destruct (decide (mi_freshnessPeriod m = DEFAULT_FRESHNESS_PERIOD)) as [->|]; [|done]. cbn [app].
    destruct els as [|e els]; [done|]. unfold decodeFreshnessPeriod.
    by rewrite bool_decide_false by (by eapply Hels).
Qed.

Lemma decodeFinalBlockId_eq o els s :
  (∀ c, o = Some c → Component_ok c) → (∀ e els', els = e :: els' → w_type e ≠ tlv_FinalBlockId) →
  decodeFinalBlockId
    ((match o with
      | Some c => [makeBinaryBlock tlv_FinalBlockId (Component_wireEncode c [])]
      | None => []
      end) ++ els) s = (Ok els, set_mi_finalBlockId o s).
Proof.
  intros Ho Hels. destruct o as [c|].
  - destruct (Component_wire_closed c (Ho c eq_refl)) as [(Hcl & _ & _ & Hne) E].
    destruct (Ho c eq_refl) as [Hv _].
    cbn [app decodeFinalBlockId]. cbn [w_type makeBinaryBlock Wire_ofBlock blk_type].
    rewrite bool_decide_true by done.
    fold (makeBinaryBlock tlv_FinalBlockId (Component_wireEncode c [])).
    rewrite (bindE _ _ s (makeBinaryBlock (ctype c) (cvalue c)) s).
    + rewrite (bindE _ _ s c s); [done|]. unfold liftE, makeComponent.
      cbn [w_type w_value makeBinaryBlock Wire_ofBlock blk_type blk_value].
      destruct c as [t v]. cbn [ctype cvalue]. by rewrite Hv.
    + unfold liftE, blockFromValue. cbn [w_value makeBinaryBlock Wire_ofBlock blk_value]. rewrite E.
      rewrite bool_decide_false by (by destruct (w_bytes _)).
      specialize (Hcl []). rewrite app_nil_r in Hcl. rewrite Hcl, bind_Ok.
      rewrite bool_decide_false; [done|]. intros H. by apply H.
  - cbn [app]. destruct els as [|e els]; [done|]. unfold decodeFinalBlockId.
    by rewrite bool_decide_false by (by eapply Hels).
Qed.

Definition cachedMeta (m : MetaInfo) : MetaInfo := set_mi_wire (Some (metaWire m)) m.

(** Decoding appends to the AppMetaInfo that is there. *)
Lemma MetaInfo_decode_onto m m0 :
  meta_ok m → small (metaElements m) →
  MetaInfo_wireDecode (metaWire m) m0 =
    (Ok tt, set_mi_appMetaInfo (mi_appMetaInfo m0 ++ mi_appMetaInfo m) (cachedMeta m)).
Proof.
  intros Hok Hs. pose proof (metaElements_closed m Hok Hs) as Hc. destruct Hok as [Ht Hf Hcm Ha].
  unfold MetaInfo_wireDecode. set (m1 := set_mi_wire (Some (metaWire m)) m0).
  rewrite (bindE _ _ m0 tt m1) by done.
  rewrite (bindE _ _ m1 (metaElements m) m1) by (unfold liftE, metaWire; by rewrite Wire_subs_make).
  assert (∀ t e els', t ∈ [tlv_ContentType; tlv_FreshnessPeriod; tlv_FinalBlockId] →
    mi_appMetaInfo m = e :: els' → w_type e ≠ t) as Happ.
  { intros t e els' Hin E Et. rewrite E in Ha. apply Forall_cons in Ha as [[_ Hn] _]. by rewrite Et in Hn. }
  assert (∀ e els', (match mi_finalBlockId m with
      | Some c => [makeBinaryBlock tlv_FinalBlockId (Component_wireEncode c [])] | None => [] end)
      ++ mi_appMetaInfo m = e :: els' → w_type e ≠ tlv_ContentType ∧ w_type e ≠ tlv_FreshnessPeriod) as H3.
  { intros e els'. destruct (mi_finalBlockId m); cbn [app]; [by intros [= <- _]|].
    intros E. split; eapply Happ; try done; set_solver. }
  unfold metaElements. set (els := mi_appMetaInfo m) in *.
  set (els2 := (match mi_finalBlockId m with Some _ => _ | None => _ end) ++ els) in *.
  set (els1 := (if bool_decide (mi_freshnessPeriod m ≠ _) then _ else _) ++ els2).
  rewrite (bindE _ _ m1 els1 (set_mi_type (mi_type m) m1)).
  2:{ apply decodeContentType_eq; [done|]. intros e els'. unfold els1. clear Hs.
      case_bool_decide; cbn [app]; [by intros [= <- _]|]. intros E. by eapply H3. }
  unfold els1.
  set (m2 := set_mi_type (mi_type m) m1).
  rewrite (bindE _ _ m2 _ _ (decodeFreshnessPeriod_eq m _ m2 Hf (fun e els' E => proj2 (H3 e els' E)))).
  set (m3 := set_mi_freshnessPeriod (mi_freshnessPeriod m) m2).
  rewrite (bindE _ _ m3 _ _ (decodeFinalBlockId_eq (mi_finalBlockId m) (mi_appMetaInfo m) m3 Hcm
    (fun e els' => Happ tlv_FinalBlockId e els' ltac:(set_solver)))).
  by destruct m.
Qed.
Lemma MetaInfo_decode m m0 :
  meta_ok m → small (metaElements m) → mi_appMetaInfo m0 = [] →
  MetaInfo_wireDecode (metaWire m) m0 = (Ok tt, cachedMeta m).
Proof. intros Hok Hs H0. rewrite MetaInfo_decode_onto, H0 by done. by destruct m. Qed.

(** ** Data *)

Definition unsignedElements (d : DataPkt) : list Wire :=
  [nameWire (dp_name d); metaWire (dp_metaInfo d)] ++
  (match dp_content d with Some c => [c] | None => [] end) ++
  [sigInfoWire SI_Data (dp_signatureInfo d)].

(** The members as the encoder needs them, but for the signature value. *)
Record data_ok (d : DataPkt) : Prop := {
  data_name : name_wf (dp_name d);
  data_meta : meta_ok (dp_metaInfo d);
  data_content : ∀ c, dp_content d = Some c → Wire_closed c ∧ w_type c = tlv_Content;
  data_sig : sig_ok (dp_signatureInfo d)
}.

Lemma Data_encodeUnsigned_eq d enc :
  data_ok d → Data_encodeUnsigned d enc = Ok (wiresBytes (unsignedElements d) enc).
Proof.
  intros [_ _ _ Hs]. unfold Data_encodeUnsigned, unsignedElements.
  rewrite SignatureInfo_encode, bind_Ok by done. rewrite !wiresBytes_app.
  rewrite MetaInfo_encode, Name_wireEncode_make. by destruct (dp_content d).
Qed.

(** The smallness of the whole gives that of the parts. *)
Lemma nested_small type ws ws' :
  makeBinaryBlock type (wiresBytes ws []) ∈ ws' → small ws' → small ws.
Proof.
  intros Hin Hs. pose proof (small_in _ _ Hin Hs) as Hl. unfold small.
  pose proof (value_le_bytes type (wiresBytes ws [])). lia.
Qed.

Lemma unsigned_closed d : data_ok d → small (unsignedElements d) → Forall Wire_closed (unsignedElements d).
Proof.
  intros [Hn Hm Hc Hsig] Hs. unfold unsignedElements in *.
  assert (Wire_closed (nameWire (dp_name d))) as H1.
  { apply makeBinaryBlock_closed; [done| |by apply Name_value_bytes].
    pose proof (small_in _ (nameWire (dp_name d)) ltac:(by left) Hs) as Hl.
    pose proof (value_le_bytes tlv_Name (foldr Component_wireEncode [] (dp_name d))).
    unfold nameWire in Hl. lia. }
  assert (small (metaElements (dp_metaInfo d))) as Hsm.
  { eapply nested_small; [|exact Hs]. right. by left. }
  assert (small (sigElements (dp_signatureInfo d))) as Hss.
  { eapply nested_small; [|exact Hs]. rewrite !elem_of_app. right. right. by left. }
  rewrite !Forall_app. split_and!.
  - constructor; [done|]. constructor; [|constructor].
    apply nested_closed; [done|by apply metaElements_closed|done].
  - destruct (dp_content d) as [c|]; [|constructor]. constructor; [|constructor]. by apply Hc.
  - constructor; [|constructor]. apply nested_closed; [done|by apply sigElements_closed|done].
Qed.

Definition cachedData (d : DataPkt) (v w : Wire) : DataPkt :=
  mkDataPkt (dp_name d) (cachedMeta (dp_metaInfo d)) (dp_content d)
    (cachedSig SI_Data (dp_signatureInfo d)) (Some v) (Some w) [].

Lemma Data_decodeElements_cons last e els s :
  Data_decodeElements last (e :: els) s =
    (last' ← Data_decodeElement last e; Data_decodeElements last' els) s.
Proof. done. Qed.

Definition sigValue_ok (v : Wire) : Prop := Wire_closed v ∧ w_type v = tlv_SignatureValue.

Section decode.
Context (d : DataPkt) (v : Wire) (Hd : data_ok d) (Hv : sigValue_ok v).
Context (Hs : small (unsignedElements d ++ [v])).

Lemma Data_decodeElements_eq w :
  ∃ tail, unsignedElements d ++ [v] = nameWire (dp_name d) :: tail ∧
    Data_decodeElements 1 tail (mkDataPkt (dp_name d) MetaInfo_new None SignatureInfo_new None (Some w) [])
      = (Ok tt, cachedData d v w).
Proof using Hd Hv Hs.
  eexists. split; [reflexivity|]. destruct Hd as [Hn Hm Hc Hsig]. destruct Hv as [_ Htv].
  apply small_app in Hs as [Hsu _]. unfold unsignedElements in Hsu.
  assert (small (metaElements (dp_metaInfo d))) as Hsm.
  { eapply nested_small; [|exact Hsu]. right. by left. }
  assert (small (sigElements (dp_signatureInfo d))) as Hss.
  { eapply nested_small; [|exact Hsu]. rewrite !elem_of_app. right. right. by left. }
  cbn [app]. set (d0 := mkDataPkt _ _ _ _ _ _ _).
  rewrite Data_decodeElements_cons, (bindE _ _ d0 2 (set_dp_metaInfo (cachedMeta (dp_metaInfo d)) d0)).
  2:{ unfold Data_decodeElement. change (w_type (metaWire _)) with tlv_MetaInfo.
      rewrite bool_decide_true by done. rewrite bool_decide_false by lia.
      rewrite (bindE _ _ d0 tt (set_dp_metaInfo (cachedMeta (dp_metaInfo d)) d0)); [done|].
      unfold zoomE. by rewrite MetaInfo_decode. }
  set (d1 := set_dp_metaInfo _ d0).
  assert (∀ last d2, last < 4 → dp_signatureInfo d2 = SignatureInfo_new →
    Data_decodeElements last [sigInfoWire SI_Data (dp_signatureInfo d); v] d2 =
    (Ok tt, set_dp_signatureValue (Some v)
              (set_dp_signatureInfo (cachedSig SI_Data (dp_signatureInfo d)) d2))) as Htail.
  { intros last d2 Hlast H2. rewrite Data_decodeElements_cons.
    rewrite (bindE _ _ d2 4 (set_dp_signatureInfo (cachedSig SI_Data (dp_signatureInfo d)) d2)).
    - cbn [Data_decodeElements]. unfold Data_decodeElement. rewrite Htv.
      rewrite bool_decide_false, bool_decide_false, bool_decide_false, bool_decide_true by done.
      by rewrite bool_decide_false by lia.
    - unfold Data_decodeElement. change (w_type (sigInfoWire _ _)) with tlv_SignatureInfo.
      rewrite bool_decide_false, bool_decide_false, bool_decide_true by done.
      rewrite bool_decide_false by lia.
      rewrite (bindE _ _ d2 tt (set_dp_signatureInfo (cachedSig SI_Data (dp_signatureInfo d)) d2)); [done|].
      unfold zoomE. by rewrite SignatureInfo_decode. }
  unfold cachedData. destruct (dp_content d) as [c|] eqn:Ec; cbn [app].
  - destruct (Hc c eq_refl) as [_ Htc]. rewrite Data_decodeElements_cons.
    rewrite (bindE _ _ d1 3 (set_dp_content (Some c) d1)).
    + rewrite Htail by done. done.
    + unfold Data_decodeElement. rewrite Htc. rewrite bool_decide_false, bool_decide_true by done.
      by rewrite bool_decide_false by lia.
  - rewrite Htail by done. done.
Qed.

(** Decoding what was encoded. *)
Lemma Data_decode_encoded s :
  let w := makeBinaryBlock tlv_Data (wiresBytes (unsignedElements d ++ [v]) []) in
  Wire_closed w ∧ Data_wireDecode w s = (Ok tt, cachedData d v w).
Proof using Hd Hv Hs.
  intros w. assert (Forall Wire_closed (unsignedElements d ++ [v])) as Hc.
  { apply Forall_app. split; [|constructor; [apply Hv|constructor]].
    apply unsigned_closed; [done|]. by apply small_app in Hs as [? _]. }
  split; [by apply nested_closed|]. unfold Data_wireDecode.
  change (w_type w) with tlv_Data. rewrite bool_decide_false by auto.
  rewrite (bindE _ _ s tt (set_dp_wire (Some w) s)) by done.
  rewrite (bindE _ _ _ (unsignedElements d ++ [v]) (set_dp_wire (Some w) s))
    by (unfold liftE, w; by rewrite Wire_subs_make).
  destruct (Data_decodeElements_eq w) as (tail & -> & E).
  change (w_type (nameWire (dp_name d))) with tlv_Name. rewrite bool_decide_false by auto.
  set (s1 := set_dp_wire (Some w) s).
  rewrite (bindE _ _ s1 (dp_name d) s1)
    by (unfold liftE; by rewrite Name_wireDecode_nameWire by apply Hd).
  erewrite (bindE _ _ s1 tt) by done.
  rewrite (bindE _ _ _ tt _ E). rewrite (bindE _ _ _ (cachedData d v w) (cachedData d v w)) by done.
  rewrite bool_decide_false; [done|]. cbn. pose proof (sig_type _ (data_sig _ Hd)). lia.
Qed.
End decode.

(** ** What decoding can throw *)

Lemma readNonNegativeIntegerAs_throws maximum b f :
  readNonNegativeIntegerAs maximum b = Fault f → f = Throw TlvError.
Proof.
  unfold readNonNegativeIntegerAs. destruct (readNonNegativeInteger_block b) as [n|g] eqn:E; cbn.
  - case_bool_decide; congruence.
  - intros [= <-]. by eapply readNonNegativeInteger_throws.
Qed.
Lemma KeyLocator_ofWire_throws w f : KeyLocator_ofWire w = Fault f → f = Throw TlvError.
Proof.
  unfold KeyLocator_ofWire. case_bool_decide; [congruence|].
  destruct (Wire_subs w) as [[|e els]|g] eqn:E; cbn; [done| |].
  - case_bool_decide.
    + destruct (Name_wireDecode _) eqn:En; cbn; [done|]. intros [= <-]. by eapply Name_wireDecode_throws.
    + by case_bool_decide.
  - intros [= <-]. by eapply Wire_subs_throws.
Qed.
Lemma makeComponent_throws t v f : makeComponent t v = Fault f → isTlvError f = true.
Proof. unfold makeComponent. destruct (ensureValid _); [done|]. by intros [= <-]. Qed.

Section throws.
Lemma SignatureInfo_decodes w type s : decodesTo (SignatureInfo_wireDecode w type) (fun _ _ => True) s.
Proof.
  apply decodesTo_bind, decodesTo_modify, decodesTo_bind, decodesTo_lift; [apply Wire_subs_throws|].
  intros els _. apply decodesTo_decide; intros _; [apply decodesTo_throw|].
  apply decodesTo_bind. eapply (decodesTo_mono _ (fun _ _ => True)).
  - generalize 0. match goal with |- ∀ z, decodesTo _ _ ?s => generalize s end. revert els.
    induction els as [|e els IH]; intros s' last; cbn [SignatureInfo_decodeElements]; [done|].
    apply decodesTo_bind, (decodesTo_mono _ (fun _ _ => True)); [|intros last' s2 _; apply IH].
    unfold SignatureInfo_decodeElement. apply decodesTo_decide; intros _.
    { apply decodesTo_decide; intros _; [apply decodesTo_throw|].
      apply decodesTo_bind, decodesTo_lift; [apply readNonNegativeIntegerAs_throws|done]. }
    apply decodesTo_decide; intros _.
    { apply decodesTo_decide; intros _; [apply decodesTo_throw|].
      apply decodesTo_bind, decodesTo_lift; [apply KeyLocator_ofWire_throws|done]. }
    apply decodesTo_decide; intros _; [by apply decodesTo_decide|].
    apply decodesTo_decide; intros _; [done|]. by apply decodesTo_if.
  - intros _ s' _. apply decodesTo_bind, decodesTo_get. by apply decodesTo_decide.
Qed.

Lemma MetaInfo_decodes w m : decodesTo (MetaInfo_wireDecode w) (fun _ _ => True) m.
Proof.
  apply decodesTo_bind, decodesTo_modify, decodesTo_bind, decodesTo_lift; [apply Wire_subs_throws|].
  intros els _. apply decodesTo_bind. eapply (decodesTo_mono _ (fun _ _ => True)).
  { destruct els as [|e els]; [done|]. apply decodesTo_decide; intros _; [|done].
    apply decodesTo_bind, decodesTo_lift; [apply readNonNegativeIntegerAs_throws|done]. }
  intros els1 m1 _. apply decodesTo_bind. eapply (decodesTo_mono _ (fun _ _ => True)).
  { destruct els1 as [|e els1]; [done|]. apply decodesTo_decide; intros _; [|done].
    apply decodesTo_bind, decodesTo_lift; [apply readNonNegativeInteger_throws|done]. }
  intros els2 m2 _. apply decodesTo_bind. eapply (decodesTo_mono _ (fun _ _ => True)); [|done].
  destruct els2 as [|e els2]; [done|]. apply decodesTo_decide; intros _; [|done].
  apply decodesTo_bind, decodesTo_lift; [apply blockFromValue_throws|]. intros inner _.
  apply decodesTo_bind, decodesTo_lift_error; [apply makeComponent_throws|done].
Qed.

Lemma Data_decodes w d : decodesTo (Data_wireDecode w) (fun _ _ => True) d.
Proof.
  apply decodesTo_decide; intros _; [apply decodesTo_throw|].
  apply decodesTo_bind, decodesTo_modify, decodesTo_bind, decodesTo_lift; [apply Wire_subs_throws|].
  intros [|e els] _; [apply decodesTo_throw|]. apply decodesTo_decide; intros _; [apply decodesTo_throw|].
  apply decodesTo_bind, decodesTo_lift; [apply Name_wireDecode_throws|]. intros name _.
  apply decodesTo_bind, decodesTo_modify, decodesTo_bind. eapply (decodesTo_mono _ (fun _ _ => True)).
  - generalize 1. match goal with |- ∀ z, decodesTo _ _ ?s => generalize s end. revert els.
    induction els as [|e' els IH]; intros s' last; cbn [Data_decodeElements]; [done|].
    apply decodesTo_bind, (decodesTo_mono _ (fun _ _ => True)); [|intros last' s2 _; apply IH].
    unfold Data_decodeElement. apply decodesTo_decide; intros _.
    { apply decodesTo_decide; intros _; [apply decodesTo_throw|].
      apply decodesTo_bind, decodesTo_zoom. eapply decodesTo_mono; [apply MetaInfo_decodes|done]. }
    apply decodesTo_decide; intros _; [by apply decodesTo_decide|].
    apply decodesTo_decide; intros _.
    { apply decodesTo_decide; intros _; [apply decodesTo_throw|].
      apply decodesTo_bind, decodesTo_zoom. eapply decodesTo_mono; [apply SignatureInfo_decodes|done]. }
    apply decodesTo_decide; intros _; [by apply decodesTo_decide|]. by apply decodesTo_if.
  - intros _ s' _. apply decodesTo_bind, decodesTo_get. apply decodesTo_decide; intros _; [done|].
    by destruct (dp_signatureValue (id s')).
Qed.
End throws.

(** ** Properties *)

(** C36. Data packets survive the wire.  A signed Data whose members can be
    encoded is encoded without an exception, and whoever reads the bytes, with
    anything after them, and decodes the element gets the same name, MetaInfo,
    Content, SignatureInfo and SignatureValue, whatever was in the object
    before. *)
Theorem data_wire_roundtrip d v rest s :
  data_ok d → dp_signatureValue d = Some v → sigValue_ok v →
  Z.of_nat (length (wiresBytes (unsignedElements d ++ [v]) [])) < 2 ^ 63 → dp_wire d = None →
  ∃ w, Data_wireEncode d = (Ok w, cachedData d v w) ∧
    Wire_ofSpan (w_bytes w ++ rest) = Ok w ∧ Data_wireDecode w s = (Ok tt, cachedData d v w).
Proof.
  intros Hd Hv Hok Hs Hw. set (w := makeBinaryBlock tlv_Data (wiresBytes (unsignedElements d ++ [v]) [])).
  assert (∀ s, Wire_closed w ∧ Data_wireDecode w s = (Ok tt, cachedData d v w)) as Hdec
    by (intros s'; by apply Data_decode_encoded).
  exists w. destruct (Hdec s) as [[Hcl _] Es]. split_and!; [|done|done].
  unfold Data_wireEncode. rewrite (bindE _ _ d d d) by done. rewrite Hw.
  rewrite (bindE _ _ d (w_bytes w) d).
  - specialize (Hcl []). rewrite app_nil_r in Hcl.
    rewrite (bindE _ _ d w d) by (unfold liftE; by rewrite Hcl).
    destruct (Hdec d) as [_ E]. by rewrite (bindE _ _ d tt _ E).
  - unfold liftE, Data_wireEncode_to. rewrite bool_decide_false
      by (pose proof (sig_type _ (data_sig _ Hd)); lia).
    rewrite Hv. rewrite Data_encodeUnsigned_eq, bind_Ok by done. unfold w, makeBinaryBlock.
    cbn [w_bytes Wire_ofBlock]. unfold Block_encode. cbn [blk_type blk_value].
    rewrite wiresBytes_app, app_nil_r. done.
Qed.

(** A FreshnessPeriod of 2^63 on the wire becomes a negative one, which the setter
    refuses. *)
Example huge_freshness_is_negative :
  ((w ← liftE (Wire_ofSpan [tlv_MetaInfo; 10; tlv_FreshnessPeriod; 8; 128; 0; 0; 0; 0; 0; 0; 0]);
    _ ← MetaInfo_wireDecode w; getE mi_freshnessPeriod) MetaInfo_new).1 = Ok (- 2 ^ 63).
Proof. vm_compute. reflexivity. Qed.

(** A signed Data for the witnesses. *)
Definition sampleSigInfo : SignatureInfo := mkSignatureInfo 0 None [] None.
Definition sampleData : DataPkt :=
  mkDataPkt [mkComponent 8 [65]] (set_mi_freshnessPeriod 1000 MetaInfo_new)
    (Some (makeBinaryBlock tlv_Content [1; 2])) sampleSigInfo
    (Some (makeBinaryBlock tlv_SignatureValue [9])) None [].
Lemma sampleData_ok : data_ok sampleData.
Proof.
  split.
  - apply (bool_decide_unpack _). by vm_compute.
  - split; cbn; done.
  - intros c [= <-]. split; [|done]. apply makeBinaryBlock_closed; [done|done|]. by repeat constructor.
  - split; cbn; done.
Qed.
Lemma data_wire_roundtrip_witness :
  ∃ w, Data_wireEncode sampleData = (Ok w, cachedData sampleData (makeBinaryBlock tlv_SignatureValue [9]) w) ∧
    Wire_ofSpan (w_bytes w ++ [77]) = Ok w.
Proof.
  destruct (data_wire_roundtrip sampleData (makeBinaryBlock tlv_SignatureValue [9]) [77] sampleData)
    as (w & E & Hspan & _).
  - exact sampleData_ok.
  - reflexivity.
  - split; [|reflexivity]. apply makeBinaryBlock_closed; [done|done|]. by repeat constructor.
  - vm_compute. reflexivity.
  - reflexivity.
  - exists w. split; [exact E|exact Hspan].
Defined.

Lemma signed_elements d v :
  data_ok d → w_type v = tlv_SignatureValue →
  list_find (fun e => w_type e = tlv_SignatureValue) (unsignedElements d ++ [v]) =
    Some (length (unsignedElements d), v).
Proof.
  intros Hd Hv. rewrite list_find_app_r.
  - cbn. by rewrite decide_True.
  - apply list_find_None. unfold unsignedElements. cbn [app].
    constructor; [done|]. constructor; [done|]. apply Forall_app. split; [|by constructor].
    destruct (dp_content d) as [c|] eqn:Ec; [|constructor].
    destruct (data_content _ Hd c Ec) as [_ Hc]. constructor; [by rewrite Hc|constructor].
Qed.

(** The wire of a Data signed with [v], and what [KeyChain::sign] does. *)
Definition signedWire (d : DataPkt) (v : Wire) : Wire :=
  makeBinaryBlock tlv_Data (wiresBytes (unsignedElements d ++ [v]) []).

Lemma signData_spec sign sigInfo d :
  let d0 := mkDataPkt (dp_name d) (dp_metaInfo d) (dp_content d) sigInfo (dp_signatureValue d) None [] in
  let U := wiresBytes (unsignedElements d0) [] in
  let v := makeBinaryBlock tlv_SignatureValue (sign U) in
  data_ok d0 → bytes_ok (sign U) → Z.of_nat (length U) + Z.of_nat (length (sign U)) < 2 ^ 62 →
  sigValue_ok v ∧ small (unsignedElements d0 ++ [v]) ∧
  KeyChain_signData sign sigInfo d = (Ok tt, cachedData d0 v (signedWire d0 v)).
Proof.
  intros d0 U v Hd Hb Hl.
  assert (sigValue_ok v) as Hv by (split; [apply makeBinaryBlock_closed; [done|lia|done]|done]).
  assert (wiresBytes (unsignedElements d0 ++ [v]) [] = U ++ w_bytes v) as Hbytes.
  { rewrite wiresBytes_app, wiresBytes_enc. cbn. by rewrite app_nil_r. }
  pose proof (length_makeBinaryBlock tlv_SignatureValue (sign U)) as Hvl. fold v in Hvl.
  assert (small (unsignedElements d0 ++ [v])) as Hs
    by (unfold small; rewrite Hbytes, length_app; lia).
  split_and!; [done..|]. set (w := signedWire d0 v).
  destruct (Data_decode_encoded d0 v Hd Hv Hs d0) as [[Hcl _] E0]. fold (signedWire d0 v) in Hcl, E0.
  fold w in Hcl, E0. specialize (Hcl []). rewrite app_nil_r in Hcl.
  unfold KeyChain_signData. rewrite (bindE _ _ d tt (set_dp_signatureInfo sigInfo d)) by done.
  rewrite (bindE _ _ _ tt d0) by (by destruct d).
  rewrite (bindE _ _ d0 d0 d0) by done.
  rewrite (bindE _ _ d0 U d0)
    by (unfold liftE, Data_wireEncode_to; by rewrite Data_encodeUnsigned_eq by done).
  rewrite (bindE _ _ d0 w (cachedData d0 v w)); [done|]. unfold Data_wireEncode_signed.
  rewrite !appendVarNumber_app.
  replace ((U ++ varNumber tlv_SignatureValue) ++ varNumber (Z.of_nat (length (sign U)))) with
    (U ++ varNumber tlv_SignatureValue ++ varNumber (Z.of_nat (length (sign U)))) by (by rewrite app_assoc).
  rewrite <-!app_assoc. rewrite (bindE _ _ d0 w d0); [by rewrite (bindE _ _ d0 tt _ E0)|].
  unfold liftE. rewrite <-Hcl. f_equal. f_equal. unfold w, signedWire, makeBinaryBlock.
  cbn [w_bytes Wire_ofBlock]. unfold Block_encode at 1. cbn [blk_type blk_value].
  fold v. rewrite Hbytes, app_nil_r. unfold v, makeBinaryBlock. cbn [w_bytes Wire_ofBlock].
  rewrite Block_encode_app. cbn [blk_type blk_value]. by rewrite app_nil_r.
Qed.

(** C37. The signature of a Data covers exactly what the verifier checks.  After
    [KeyChain::sign] the Data has a wire; whoever decodes its bytes finds the
    name, MetaInfo and Content of the signed object, the SignatureValue is what
    the crypto returned, and the range that [extractSignedRanges] hands to the
    verifier is byte for byte the range that was signed. *)
Theorem data_signature_covers_content sign sigInfo d U s :
  let d0 := mkDataPkt (dp_name d) (dp_metaInfo d) (dp_content d) sigInfo (dp_signatureValue d) None [] in
  data_ok d0 → Data_wireEncode_to true d0 = Ok U → bytes_ok (sign U) →
  Z.of_nat (length U) + Z.of_nat (length (sign U)) < 2 ^ 62 →
  ∃ d' w r, KeyChain_signData sign sigInfo d = (Ok tt, d') ∧ dp_wire d' = Some w ∧
    Wire_ofSpan (w_bytes w) = Ok w ∧ Data_wireDecode w s = (Ok tt, r) ∧
    dp_name r = dp_name d ∧ dp_content r = dp_content d ∧
    set_mi_wire None (dp_metaInfo r) = set_mi_wire None (dp_metaInfo d) ∧
    (w_value <$> dp_signatureValue r) = Some (sign U) ∧
    (Data_extractSignedRanges r).1 = Ok U.
Proof.
  intros d0 Hd HU0 Hb Hl. unfold Data_wireEncode_to in HU0.
  rewrite Data_encodeUnsigned_eq in HU0 by done.
  assert (U = wiresBytes (unsignedElements d0) []) as -> by congruence. clear HU0.
  destruct (signData_spec sign sigInfo d Hd Hb Hl) as (Hv & Hs & E).
  fold d0 in Hv, Hs, E. set (v := makeBinaryBlock tlv_SignatureValue _) in *.
  destruct (Data_decode_encoded d0 v Hd Hv Hs s) as [[Hcl _] Es].
  specialize (Hcl []). rewrite app_nil_r in Hcl.
  eexists _, _, _. split_and!; [exact E|done|exact Hcl|exact Es|done..|].
  unfold Data_extractSignedRanges. erewrite bindE by done.
  rewrite (bindE _ _ _ (unsignedElements d0 ++ [v]) (cachedData d0 v (signedWire d0 v))).
  2:{ unfold liftE, signedWire. rewrite Wire_subs_make; [done|]. apply Forall_app. split.
      - apply unsigned_closed; [done|]. by apply small_app in Hs as [? _].
      - constructor; [apply Hv|constructor]. }
  rewrite signed_elements by (done || apply Hv).
  destruct (length (unsignedElements d0)) as [|k] eqn:Elen; [done|].
  by rewrite <-Elen, take_app_length.
Qed.
Lemma data_signature_covers_content_witness :
  ∃ d' w r, KeyChain_signData (fun u => [Z.of_nat (length u) mod 256]) sampleSigInfo (Data_new [mkComponent 8 [65]])
      = (Ok tt, d') ∧ Data_wireDecode w (Data_new []) = (Ok tt, r) ∧ dp_wire d' = Some w.
Proof.
  destruct (Data_wireEncode_to true
    (mkDataPkt [mkComponent 8 [65]] MetaInfo_new None sampleSigInfo None None [])) as [U|f] eqn:EU.
  - destruct (data_signature_covers_content (fun u => [Z.of_nat (length u) mod 256]) sampleSigInfo
      (Data_new [mkComponent 8 [65]]) U (Data_new [])) as (d' & w & r & E1 & E2 & _ & E3 & _).
    + split.
      * apply (bool_decide_unpack _). by vm_compute.
      * split; cbn; done.
      * discriminate.
      * split; cbn; done.
    + exact EU.
    + constructor; [|constructor]. unfold is_byte. apply Z.mod_pos_bound. lia.
    + vm_compute in EU. injection EU as <-. vm_compute. reflexivity.
    + exists d', w, r. split; [exact E1|]. split; [exact E3|exact E2].
  - exfalso. revert EU. vm_compute. discriminate.
Defined.

(** [MetaInfo::wireDecode] does not start from an empty list of
    application elements.  Decoding the same MetaInfo element a second time
    into the object leaves every AppMetaInfo element twice, while [m_wire] is
    the element with each of them once: the object no longer agrees with its
    own cached encoding. *)
Theorem metaInfo_decode_accumulates m :
  meta_ok m → small (metaElements m) →
  ∃ m1 m2, MetaInfo_wireDecode (metaWire m) MetaInfo_new = (Ok tt, m1) ∧
    MetaInfo_wireDecode (metaWire m) m1 = (Ok tt, m2) ∧
    mi_appMetaInfo m1 = mi_appMetaInfo m ∧
    mi_appMetaInfo m2 = mi_appMetaInfo m ++ mi_appMetaInfo m ∧
    mi_wire m2 = Some (metaWire m).
Proof.
  intros Hm Hs. exists (cachedMeta m), (set_mi_appMetaInfo (mi_appMetaInfo m ++ mi_appMetaInfo m) (cachedMeta m)).
  split_and!; [by apply MetaInfo_decode|exact (MetaInfo_decode_onto m (cachedMeta m) Hm Hs)|done..].
Qed.
Lemma metaInfo_decode_accumulates_witness :
  ∃ m2, MetaInfo_wireDecode (metaWire (mkMetaInfo 0 0 None [makeBinaryBlock 128 [5]] None))
      (cachedMeta (mkMetaInfo 0 0 None [makeBinaryBlock 128 [5]] None)) = (Ok tt, m2) ∧
    length (mi_appMetaInfo m2) = 2%nat.
Proof.
  destruct (metaInfo_decode_accumulates (mkMetaInfo 0 0 None [makeBinaryBlock 128 [5]] None))
    as (m1 & m2 & E1 & E2 & _ & H2 & _).
  - split; cbn; try done. constructor; [|constructor]. split.
    + apply makeBinaryBlock_closed; [done|done|]. by repeat constructor.
    + apply (bool_decide_unpack _). by vm_compute.
  - vm_compute. reflexivity.
  - exists m2. split; [|by rewrite H2]. revert E1 E2. vm_compute. intros [= <-]. exact id.
Defined.

(** [SignatureInfo::wireEncode(type)] ignores its argument once there is a
    cached encoding.  After the Data form has been encoded (or decoded),
    asking for the Interest form returns the element with TLV-TYPE
    SignatureInfo, and the decoder of an InterestSignatureInfo rejects it. *)
Theorem signatureInfo_encode_ignores_type s s0 :
  sig_ok s → small (sigElements s) → si_wire s = None →
  ∃ w s', SignatureInfo_wireEncode SI_Data s = (Ok w, s') ∧
    SignatureInfo_wireEncode SI_Interest s' = (Ok w, s') ∧
    w_type w = tlv_SignatureInfo ∧
    (SignatureInfo_wireDecode w SI_Interest s0).1 = Fault (Throw TlvError).
Proof.
  intros Hs Hsm Hw. pose proof (sigElements_closed s Hs Hsm) as Hc.
  destruct (nested_closed tlv_SignatureInfo (sigElements s) ltac:(done) Hc Hsm) as (Hcl & _).
  exists (sigInfoWire SI_Data s), (set_si_wire (Some (sigInfoWire SI_Data s)) s). split_and!; try done.
  - unfold SignatureInfo_wireEncode. rewrite (bindE _ _ s s s) by done. rewrite Hw.
    rewrite (bindE _ _ s (w_bytes (sigInfoWire SI_Data s)) s).
    + rewrite (bindE _ _ s (sigInfoWire SI_Data s) s); [done|]. unfold liftE.
      specialize (Hcl []). rewrite app_nil_r in Hcl. by f_equal.
    + unfold liftE. rewrite SignatureInfo_encode by done. unfold prependBlock. by rewrite app_nil_r.
  - unfold SignatureInfo_wireDecode.
    erewrite (bindE _ _ s0 tt) by done.
    erewrite (bindE _ _ _ (sigElements s)) by (unfold liftE, sigInfoWire; by rewrite Wire_subs_make).
    change (w_type (sigInfoWire SI_Data s)) with tlv_SignatureInfo.
    by rewrite bool_decide_true.
Qed.
Lemma signatureInfo_encode_ignores_type_witness :
  ∃ w s', SignatureInfo_wireEncode SI_Data sampleSigInfo = (Ok w, s') ∧
    SignatureInfo_wireEncode SI_Interest s' = (Ok w, s') ∧ w_type w = tlv_SignatureInfo.
Proof.
  destruct (signatureInfo_encode_ignores_type sampleSigInfo sampleSigInfo) as (w & s' & E1 & E2 & E3 & _).
  - split; cbn; done.
  - vm_compute. reflexivity.
  - reflexivity.
  - exists w, s'. split; [exact E1|]. split; [exact E2|exact E3].
Defined.
