(* ===== verification/PrefixAnn.v ===== *)
(** * Prefix announcements
    ([ndn-cxx/security/validity-period.cpp], [ndn-cxx/prefix-announcement.cpp])

    A [PrefixAnnouncement] is a signed Data whose Content holds an expiration
    period and an optional validity period.  The self-learning feature of the
    link service decodes one from every Data that carries the NDNLPv2 header
    field of that name.  Boost's conversion between a time and its ISO string
    is the parameter [IsoTime]. *)

From S2P Require Import Prelude Tlv Component Name Encoding DataWire.
Local Open Scope Z_scope.

(** ** The calendar functions of Boost *)

(** A [ptime] is its microseconds since 1970-01-01. *)
Class IsoTime := {
  to_iso_string : Z → list Z;
  from_iso_string : list Z → outcome Z
}.

Definition tlv_NotBefore : Z := 254.
Definition tlv_NotAfter : Z := 255.
Definition tlv_nfd_ExpirationPeriod : Z := 109.
Definition ISO_DATETIME_SIZE : nat := 15.
Definition NANOS : Z := 1000000000.
(** [system_clock::time_point::min()] and [max()], in nanoseconds. *)
Definition time_point_min : Z := - 2 ^ 63.
Definition time_point_max : Z := 2 ^ 63 - 1.

Section iso.
Context {I : IsoTime}.

(** [time::toIsoString] and [time::fromIsoString], on nanoseconds. *)
Definition convertToPosixTime (timePoint : Z) : Z := Z.quot timePoint 1000.
Definition toIsoString (timePoint : Z) : list Z := to_iso_string (convertToPosixTime timePoint).
Definition convertToTimePoint (ptime : Z) : Z :=
  Z.quot ptime 1000000 * NANOS + Z.rem ptime 1000000 * 1000.
Definition fromIsoString (isoString : list Z) : outcome Z :=
  ptime ← from_iso_string isoString; Ok (convertToTimePoint ptime).

(** ** Validity periods *)

(** [m_notBefore] and [m_notAfter] are in seconds. *)
Record ValidityPeriod := mkValidityPeriod {
  vp_notBefore : Z;
  vp_notAfter : Z;
  vp_wire : option Wire
}.
Definition set_vp_notBefore v p := mkValidityPeriod v (vp_notAfter p) (vp_wire p).
Definition set_vp_notAfter v p := mkValidityPeriod (vp_notBefore p) v (vp_wire p).
Definition set_vp_wire v p := mkValidityPeriod (vp_notBefore p) (vp_notAfter p) v.

Definition toTimePointFloor (t : Z) : Z := t / NANOS.
Definition toTimePointCeil (t : Z) : Z := - (- t / NANOS).

Definition ValidityPeriod_make (notBefore notAfter : Z) : ValidityPeriod :=
  mkValidityPeriod (toTimePointCeil notBefore) (toTimePointFloor notAfter) None.
Definition ValidityPeriod_new : ValidityPeriod := ValidityPeriod_make 1 0.
Definition makeRelative (validFrom validUntil now : Z) : ValidityPeriod :=
  ValidityPeriod_make (now + validFrom * NANOS) (now + validUntil * NANOS).

(** [wireEncode(encoder)] and [wireEncode()]. *)
Definition ValidityPeriod_wireEncode_to (p : ValidityPeriod) (enc : list Z) : list Z :=
  let inner := prependBinaryBlock tlv_NotAfter (toIsoString (vp_notAfter p * NANOS)) [] in
  let inner := prependBinaryBlock tlv_NotBefore (toIsoString (vp_notBefore p * NANOS)) inner in
  prependVarNumber tlv_ValidityPeriod (prependVarNumber (Z.of_nat (length inner)) (inner ++ enc)).
Definition ValidityPeriod_wireEncode : ME ValidityPeriod Wire :=
  p ← getE id;
  match vp_wire p with
  | Some wire => mret wire
  | None =>
      wire ← liftE (Wire_ofSpan (ValidityPeriod_wireEncode_to p []));
      _ ← modifyE (set_vp_wire (Some wire));
      _ ← liftE (Wire_subs wire);
      mret wire
  end.

(** [decodeTimePoint]; strings compare byte by byte. *)
Definition decodeTimePoint (element : Wire) : outcome Z :=
  let minTime := toTimePointCeil time_point_min in
  let maxTime := toTimePointFloor time_point_max in
  let minValue := toIsoString (minTime * NANOS) in
  let maxValue := toIsoString (maxTime * NANOS) in
  if bool_decide (length minValue ≠ ISO_DATETIME_SIZE ∨ length maxValue ≠ ISO_DATETIME_SIZE)
  then Fault AssertFailed
  else
    let value := w_value element in
    if bool_decide (length value ≠ ISO_DATETIME_SIZE) then Fault AssertFailed
    else if bool_decide (bytes_lex value minValue = Lt) then Ok minTime
    else if bool_decide (bytes_lex value maxValue = Gt) then Ok maxTime
    else t ← fromIsoString value; Ok (Z.quot t NANOS).

(** [try { m } catch (const std::bad_cast&) { throw Error }]. *)
Definition catchBadCast {S A} (m : ME S A) : ME S A :=
  fun s => match m s with
           | (Fault (Throw BadCast), s') => (Fault (Throw TlvError), s')
           | r => r
           end.

(** [wireDecode], of a block with a wire. *)
Definition ValidityPeriod_wireDecode (wire : Wire) : ME ValidityPeriod unit :=
  _ ← modifyE (set_vp_wire (Some wire));
  elements ← liftE (Wire_subs wire);
  if bool_decide (w_type wire ≠ tlv_ValidityPeriod) then throwE TlvError
  else match elements with
  | [notBefore; notAfter] =>
      if bool_decide (w_type notBefore ≠ tlv_NotBefore ∨
                      length (w_value notBefore) ≠ ISO_DATETIME_SIZE ∨
                      w_type notAfter ≠ tlv_NotAfter ∨
                      length (w_value notAfter) ≠ ISO_DATETIME_SIZE) then throwE TlvError
      else catchBadCast (
        t ← liftE (decodeTimePoint notBefore);
        _ ← modifyE (set_vp_notBefore t);
        t ← liftE (decodeTimePoint notAfter);
        modifyE (set_vp_notAfter t))
  | _ => throwE TlvError
  end.
Definition ValidityPeriod_ofWire (wire : Wire) : outcome ValidityPeriod :=
  match ValidityPeriod_wireDecode wire ValidityPeriod_new with
  | (Ok _, p) => Ok p
  | (Fault f, _) => Fault f
  end.

Definition setPeriod (notBefore notAfter : Z) : ME ValidityPeriod unit :=
  modifyE (fun _ => mkValidityPeriod (toTimePointCeil notBefore) (toTimePointFloor notAfter) None).
Definition getPeriod (p : ValidityPeriod) : Z * Z := (vp_notBefore p * NANOS, vp_notAfter p * NANOS).
Definition isValid (p : ValidityPeriod) (now : Z) : bool :=
  bool_decide (vp_notBefore p * NANOS ≤ now ∧ now ≤ vp_notAfter p * NANOS).
Definition ValidityPeriod_equals (lhs rhs : ValidityPeriod) : bool :=
  bool_decide (vp_notBefore lhs = vp_notBefore rhs ∧ vp_notAfter lhs = vp_notAfter rhs).

(** ** Prefix announcements *)

Definition ContentType_PrefixAnn : Z := 5.
Definition KeywordNameComponent : Z := 32.
(** [getKeywordComponent]: [32=PA]. *)
Definition getKeywordComponent : Component := mkComponent KeywordNameComponent [80; 65].

Record PrefixAnnouncement := mkPrefixAnnouncement {
  pa_data : option DataPkt;
  pa_announcedName : Name;
  pa_expiration : Z;
  pa_validity : option ValidityPeriod
}.
Definition set_pa_data v a :=
  mkPrefixAnnouncement v (pa_announcedName a) (pa_expiration a) (pa_validity a).
Definition PrefixAnnouncement_new : PrefixAnnouncement := mkPrefixAnnouncement None [] 0 None.

(** The condition on the name; [||] does not evaluate what it need not. *)
Definition announcementName (g : Convention) (dataName : Name) : outcome bool :=
  if bool_decide (Name_size dataName < 3) then Ok false
  else
    keyword ← Name_get dataName (-3);
    if bool_decide (keyword ≠ getKeywordComponent) then Ok false
    else
      version ← Name_get dataName (-2);
      if negb (isVersion g version) then Ok false
      else
        segment ← Name_get dataName (-1);
        Ok (isSegment g segment).

(** The elements that nobody knows. *)
Definition unrecognizedCritical (element : Wire) : bool :=
  bool_decide (w_type element ≠ tlv_nfd_ExpirationPeriod) &&
  bool_decide (w_type element ≠ tlv_ValidityPeriod) && isCriticalType (w_type element).

(** The constructor [PrefixAnnouncement(Data)]. *)
Definition PrefixAnnouncement_ofData (g : Convention) (data : DataPkt) : outcome PrefixAnnouncement :=
  let dataName := dp_name data in
  isAnnouncement ← announcementName g dataName;
  if negb isAnnouncement then Fault (Throw TlvError)
  else
    let announcedName := getPrefix dataName (-3) in
    if bool_decide (mi_type (dp_metaInfo data) ≠ ContentType_PrefixAnn) then Fault (Throw TlvError)
    else match dp_content data with
    | None => Fault (Throw TlvError)
    | Some payload =>
        if bool_decide (length (w_value payload) = 0%nat) then Fault (Throw TlvError)
        else
          elements ← Wire_subs payload;
          match findWire tlv_nfd_ExpirationPeriod elements with
          | None => Fault (Throw TlvError)
          | Some expirationElement =>
              n ← readNonNegativeInteger_block (wire_block expirationElement);
              validity ← match findWire tlv_ValidityPeriod elements with
                         | Some validityElement =>
                             v ← ValidityPeriod_ofWire validityElement; Ok (Some v)
                         | None => Ok None
                         end;
              if existsb unrecognizedCritical elements then Fault (Throw TlvError)
              else Ok (mkPrefixAnnouncement (Some data) announcedName (i64 n) validity)
          end
    end.

(** [toData]; [version] is the given one or the Unix timestamp. *)
Definition toData (gEnc : Convention) (sign : list Z → list Z) (sigInfo : SignatureInfo) (version : Z)
  : ME PrefixAnnouncement DataPkt :=
  a ← getE id;
  match pa_data a with
  | Some data => mret data
  | None =>
      versionComponent ← liftE (fromVersion gEnc version);
      segmentComponent ← liftE (fromSegment gEnc 0);
      let dataName := pa_announcedName a ++ [getKeywordComponent; versionComponent; segmentComponent] in
      _ ← modifyE (set_pa_data (Some (Data_new dataName)));
      let onData m := zoomE (fun a => default (Data_new []) (pa_data a))
                            (fun d => set_pa_data (Some d)) m in
      _ ← onData (Data_setContentType ContentType_PrefixAnn);
      validity ← match pa_validity a with
                 | Some p =>
                     match ValidityPeriod_wireEncode p with
                     | (Ok wire, p') =>
                         _ ← modifyE (fun a => mkPrefixAnnouncement (pa_data a) (pa_announcedName a)
                                                 (pa_expiration a) (Some p'));
                         mret [wire]
                     | (Fault f, _) => liftE (Fault f)
                     end
                 | None => mret []
                 end;
      let content := prependNonNegativeIntegerBlock tlv_nfd_ExpirationPeriod (u64 (pa_expiration a))
                       (wiresBytes validity []) in
      _ ← onData (Data_setContent_block (makeBinaryBlock tlv_Content content));
      _ ← onData (KeyChain_signData sign sigInfo);
      getE (fun a => default (Data_new []) (pa_data a))
  end.

Definition setAnnouncedName (name : Name) : ME PrefixAnnouncement unit :=
  modifyE (fun a => mkPrefixAnnouncement None name (pa_expiration a) (pa_validity a)).
Definition setExpiration (expiration : Z) : ME PrefixAnnouncement unit :=
  if bool_decide (expiration < 0) then throwE InvalidArgument
  else modifyE (fun a => mkPrefixAnnouncement None (pa_announcedName a) expiration (pa_validity a)).
Definition setValidityPeriod (validity : option ValidityPeriod) : ME PrefixAnnouncement unit :=
  modifyE (fun a => mkPrefixAnnouncement None (pa_announcedName a) (pa_expiration a) validity).
Definition PrefixAnnouncement_equals (lhs rhs : PrefixAnnouncement) : bool :=
  Name_equals (pa_announcedName lhs) (pa_announcedName rhs) &&
  bool_decide (pa_expiration lhs = pa_expiration rhs) &&
  match pa_validity lhs, pa_validity rhs with
  | Some v, Some w => ValidityPeriod_equals v w
  | None, None => true
  | _, _ => false
  end.
End iso.

(** ** The documented behaviour of the calendar *)

Definition minSecond : Z := toTimePointCeil time_point_min.
Definition maxSecond : Z := toTimePointFloor time_point_max.
Definition second_ok (s : Z) : Prop := minSecond ≤ s ≤ maxSecond.

(** [to_iso_string] of a whole second has the form YYYYMMDDThhmmss, whose
    order is that of the times, and [from_iso_string] reads it back. *)
Class IsoTimeLaws (I : IsoTime) : Prop := {
  iso_size s : second_ok s → length (to_iso_string (s * 1000000)) = ISO_DATETIME_SIZE;
  iso_bytes s : second_ok s → bytes_ok (to_iso_string (s * 1000000));
  iso_read s : second_ok s → from_iso_string (to_iso_string (s * 1000000)) = Ok (s * 1000000);
  iso_order s t : second_ok s → second_ok t → s ≤ t →
    bytes_lex (to_iso_string (s * 1000000)) (to_iso_string (t * 1000000)) ≠ Gt
}.

Section laws.
Context {I : IsoTime} {L : IsoTimeLaws I}.

Lemma toIsoString_second s : toIsoString (s * NANOS) = to_iso_string (s * 1000000).
Proof.
  unfold toIsoString, convertToPosixTime, NANOS. f_equal.
  replace (s * 1000000000) with (s * 1000000 * 1000) by lia. apply Z.quot_mul. lia.
Qed.
Lemma fromIsoString_second s :
  second_ok s → (t ← fromIsoString (to_iso_string (s * 1000000)); Ok (Z.quot t NANOS)) = Ok s.
Proof using L.
  intros Hs. unfold fromIsoString. rewrite iso_read by done. rewrite !bind_Ok. unfold convertToTimePoint.
  rewrite Z.quot_mul, Z.rem_mul by lia. rewrite Z.mul_0_l, Z.add_0_r, Z.quot_mul; [done|].
  unfold NANOS. lia.
Qed.

Lemma extremes_ok : second_ok minSecond ∧ second_ok maxSecond.
Proof. by vm_compute. Qed.

Lemma decodeTimePoint_written type s :
  second_ok s → decodeTimePoint (makeBinaryBlock type (toIsoString (s * NANOS))) = Ok s.
Proof using L.
  intros Hs. destruct extremes_ok as [Hmin Hmax]. unfold decodeTimePoint.
  fold minSecond maxSecond. rewrite !toIsoString_second. cbn [w_value makeBinaryBlock Wire_ofBlock blk_value].
  rewrite bool_decide_false by (rewrite !iso_size by done; tauto).
  rewrite bool_decide_false by (rewrite iso_size by done; tauto).
  rewrite bool_decide_false.
  2:{ rewrite bytes_lex_antisym. intros Hlt. apply (iso_order minSecond s Hmin Hs); [apply Hs|].
      by destruct (bytes_lex _ _). }
  rewrite bool_decide_false by (apply (iso_order s maxSecond Hs Hmax); apply Hs).
  by apply fromIsoString_second.
Qed.

Definition validityElements (p : ValidityPeriod) : list Wire :=
  [makeBinaryBlock tlv_NotBefore (toIsoString (vp_notBefore p * NANOS));
   makeBinaryBlock tlv_NotAfter (toIsoString (vp_notAfter p * NANOS))].
Definition validityWire (p : ValidityPeriod) : Wire :=
  makeBinaryBlock tlv_ValidityPeriod (wiresBytes (validityElements p) []).
Definition validity_ok (p : ValidityPeriod) : Prop :=
  second_ok (vp_notBefore p) ∧ second_ok (vp_notAfter p) ∧
  (vp_wire p = None ∨ vp_wire p = Some (validityWire p)).

Lemma ValidityPeriod_encode p enc : ValidityPeriod_wireEncode_to p enc = prependBlock (validityWire p) enc.
Proof.
  unfold validityWire. rewrite prependBlock_make. unfold ValidityPeriod_wireEncode_to, validityElements.
  unfold wiresBytes. cbn [foldr]. by rewrite !prependBlock_make.
Qed.

Lemma iso_closed type s :
  0 < type < 2 ^ 32 → second_ok s →
  Wire_closed (makeBinaryBlock type (toIsoString (s * NANOS))) ∧
  (length (w_bytes (makeBinaryBlock type (toIsoString (s * NANOS)))) ≤ 33)%nat.
Proof using L.
  intros Ht Hs. rewrite toIsoString_second. pose proof (iso_size s Hs) as Hl.
  unfold ISO_DATETIME_SIZE in Hl. split.
  - apply makeBinaryBlock_closed; [done|lia|by apply iso_bytes].
  - pose proof (length_makeBinaryBlock type (to_iso_string (s * 1000000))). lia.
Qed.

Lemma validity_closed p :
  validity_ok p →
  Forall Wire_closed (validityElements p) ∧ Wire_closed (validityWire p) ∧
  (length (w_bytes (validityWire p)) ≤ 84)%nat.
Proof using L.
  intros (Hb & Ha & _). destruct (iso_closed tlv_NotBefore _ ltac:(done) Hb) as [Hcb Hlb].
  destruct (iso_closed tlv_NotAfter _ ltac:(done) Ha) as [Hca Hla].
  assert (Forall Wire_closed (validityElements p)) as Hf
    by (by apply Forall_cons_2, Forall_cons_2, Forall_nil_2).
  assert (length (wiresBytes (validityElements p) []) ≤ 66)%nat as Hl.
  { unfold validityElements, wiresBytes, prependBlock. cbn [foldr]. rewrite !length_app. cbn [length]. lia. }
  split_and!; [done|apply nested_closed; [done|done|unfold small; lia]|].
  pose proof (length_makeBinaryBlock tlv_ValidityPeriod (wiresBytes (validityElements p) [])).
  fold (validityWire p) in *. lia.
Qed.

Definition cachedValidity (p : ValidityPeriod) : ValidityPeriod := set_vp_wire (Some (validityWire p)) p.

Lemma ValidityPeriod_wireEncode_eq p :
  validity_ok p → ValidityPeriod_wireEncode p = (Ok (validityWire p), cachedValidity p).
Proof using L.
  intros Hp. destruct (validity_closed p Hp) as (Hf & [Hc _] & _). specialize (Hc []).
  rewrite app_nil_r in Hc. unfold ValidityPeriod_wireEncode. rewrite (bindE _ _ p p p) by done.
  destruct Hp as (_ & _ & [-> | Hw]).
  - rewrite (bindE _ _ p (validityWire p) p).
    2:{ unfold liftE. rewrite ValidityPeriod_encode. unfold prependBlock. by rewrite app_nil_r, Hc. }
    rewrite (bindE _ _ p tt (cachedValidity p)) by done.
    rewrite (bindE _ _ _ (validityElements p) (cachedValidity p)); [done|].
    unfold liftE, validityWire. by rewrite Wire_subs_make.
  - rewrite Hw. unfold cachedValidity. rewrite <-Hw. by destruct p.
Qed.

Lemma ValidityPeriod_ofWire_eq p :
  validity_ok p → ValidityPeriod_ofWire (validityWire p) = Ok (cachedValidity p).
Proof using L.
  intros Hp. destruct (validity_closed p Hp) as (Hf & _ & _). destruct Hp as (Hb & Ha & _).
  unfold ValidityPeriod_ofWire, ValidityPeriod_wireDecode.
  set (p0 := ValidityPeriod_new). set (p1 := set_vp_wire (Some (validityWire p)) p0).
  rewrite (bindE _ _ p0 tt p1) by done.
  rewrite (bindE _ _ p1 (validityElements p) p1) by (unfold liftE, validityWire; by rewrite Wire_subs_make).
  change (w_type (validityWire p)) with tlv_ValidityPeriod. rewrite bool_decide_false by auto.
  unfold validityElements at 1. cbn [w_type makeBinaryBlock Wire_ofBlock blk_type].
  cbn [w_value makeBinaryBlock Wire_ofBlock blk_value].
  rewrite bool_decide_false by (rewrite !toIsoString_second, !iso_size by done; naive_solver).
  unfold catchBadCast. fold (makeBinaryBlock tlv_NotBefore (toIsoString (vp_notBefore p * NANOS))).
  fold (makeBinaryBlock tlv_NotAfter (toIsoString (vp_notAfter p * NANOS))).
  rewrite (bindE _ _ p1 (vp_notBefore p) p1)
    by (unfold liftE; by rewrite decodeTimePoint_written).
  erewrite (bindE _ _ p1 tt) by done.
  erewrite (bindE _ _ _ (vp_notAfter p))
    by (unfold liftE; by rewrite decodeTimePoint_written).
  done.
Qed.

End laws.

(** ** The Data of an announcement *)

Lemma comp_wf_short type value :
  0 < type < 2 ^ 32 → bytes_ok value → (length value ≤ 9)%nat → comp_wf (mkComponent type value).
Proof.
  intros Ht Hb Hl. split; [|done]. unfold Block_ok, comp_block. cbn [blk_type blk_value ctype cvalue]. lia.
Qed.

Lemma from_convention_ok gEnc marker ttype n :
  ttype = VersionNameComponent ∨ ttype = SegmentNameComponent → 0 ≤ marker < 256 →
  ∃ c, from_convention gEnc marker ttype n = Ok c ∧ comp_wf c ∧
    is_convention EITHER GenericNameComponent marker ttype c = true ∧ (length (cvalue c) ≤ 9)%nat.
Proof.
  intros Ht Hm. pose proof (length_prependNonNegativeInteger n) as Hl.
  pose proof (sizeOfNonNegativeInteger_le n) as Hs. pose proof (prependNonNegativeInteger_bytes n) as Hb.
  assert (sizeOfNonNegativeInteger n ∈ [1; 2; 4; 8]%nat) as Hin.
  { unfold sizeOfNonNegativeInteger. repeat case_bool_decide; set_solver. }
  assert (∃ c, fromNumber n ttype = Ok c ∧ comp_wf c ∧
    is_convention EITHER GenericNameComponent marker ttype c = true ∧ (length (cvalue c) ≤ 9)%nat) as Hnum.
  { exists (mkComponent ttype (prependNonNegativeInteger n [])). split_and!.
    - by destruct Ht as [-> | ->].
    - apply comp_wf_short; [by destruct Ht as [-> | ->]|done|rewrite Hl; lia].
    - unfold is_convention. apply orb_true_intro. right. unfold isNumber, value_size.
      cbn [cvalue ctype]. rewrite Hl, !bool_decide_true; [done|set_solver|done].
    - cbn [cvalue]. rewrite Hl. lia. }
  destruct gEnc; [|done..]. cbn [from_convention].
  exists (mkComponent GenericNameComponent (marker :: prependNonNegativeInteger n [])). split_and!.
  - done.
  - apply comp_wf_short; [done|by constructor|cbn [length]; rewrite Hl; lia].
  - unfold is_convention. apply orb_true_intro. left. unfold isNumberWithMarker, value_size.
    cbn [cvalue ctype length]. rewrite Hl, !bool_decide_true; [done|done|set_solver|done].
  - cbn [cvalue length]. rewrite Hl. lia.
Qed.

Lemma announcementName_ok n version segment :
  isVersion EITHER version = true → isSegment EITHER segment = true →
  Name_size n < 2 ^ 62 →
  announcementName EITHER (n ++ [getKeywordComponent; version; segment]) = Ok true ∧
  getPrefix (n ++ [getKeywordComponent; version; segment]) (-3) = n.
Proof.
  intros Hv Hs Hn. set (l := n ++ _). assert (Name_size l = Name_size n + 3) as Hl
    by (unfold Name_size, l; rewrite length_app; cbn [length]; lia).
  assert (0 ≤ Name_size n) by (unfold Name_size; lia).
  assert (∀ k c, (0 < k ≤ 3)%nat → [getKeywordComponent; version; segment] !! (3 - k)%nat = Some c →
    Name_get l (- Z.of_nat k) = Ok c) as Hget.
  { intros k c Hk Hc. unfold Name_get. cbv zeta. rewrite (bool_decide_true (- Z.of_nat k < 0)) by lia.
    rewrite bool_decide_false by lia.
    replace (Z.to_nat (- Z.of_nat k + Name_size l)) with (length n + (3 - k))%nat
      by (unfold Name_size in *; lia).
    unfold l. rewrite lookup_app_r by lia.
    replace (length n + (3 - k) - length n)%nat with (3 - k)%nat by lia. by rewrite Hc. }
  split.
  - unfold announcementName. rewrite bool_decide_false by lia.
    change (-3) with (- Z.of_nat 3). rewrite (Hget 3%nat getKeywordComponent), bind_Ok by (lia || done). rewrite bool_decide_false by auto.
    change (-2) with (- Z.of_nat 2). rewrite (Hget 2%nat version), bind_Ok, Hv by (lia || done). cbn [negb].
    change (-1) with (- Z.of_nat 1). rewrite (Hget 1%nat segment), bind_Ok by (lia || done). by rewrite Hs.
  - unfold getPrefix, getSubName. rewrite bool_decide_true by lia. rewrite Hl.
    rewrite u64_small by lia. cbv zeta. rewrite !(bool_decide_false (0 < 0)) by lia.
    rewrite bool_decide_true by (unfold npos; lia). rewrite u64_small by lia. rewrite drop_0.
    replace (Z.to_nat _) with (length n) by (unfold Name_size in *; lia). unfold l. apply take_app_length.
Qed.

Section roundtrip.
Context {I : IsoTime} {L : IsoTimeLaws I}.

Definition contentElements (a : PrefixAnnouncement) : list Wire :=
  makeBinaryBlock tlv_nfd_ExpirationPeriod (prependNonNegativeInteger (u64 (pa_expiration a)) []) ::
  match pa_validity a with Some p => [validityWire p] | None => [] end.

(** What is written in the Data before it is signed. *)
Definition announcementData (a : PrefixAnnouncement) (sigInfo : SignatureInfo)
    (version segment : Component) : DataPkt :=
  mkDataPkt (pa_announcedName a ++ [getKeywordComponent; version; segment])
    (mkMetaInfo ContentType_PrefixAnn 0 None [] None)
    (Some (makeBinaryBlock tlv_Content (wiresBytes (contentElements a) []))) sigInfo None None [].

Definition announcement_wf (a : PrefixAnnouncement) : Prop :=
  name_wf (pa_announcedName a) ∧ 0 ≤ pa_expiration a < 2 ^ 63 ∧
  ∀ p, pa_validity a = Some p → validity_ok p.

Lemma contentElements_ok a :
  announcement_wf a → Forall Wire_closed (contentElements a) ∧ (length (wiresBytes (contentElements a) []) ≤ 200)%nat.
Proof using L.
  intros (_ & He & Hv). pose proof (length_prependNonNegativeInteger (u64 (pa_expiration a))) as Hl.
  pose proof (sizeOfNonNegativeInteger_le (u64 (pa_expiration a))) as Hs.
  pose proof (length_makeBinaryBlock tlv_nfd_ExpirationPeriod
    (prependNonNegativeInteger (u64 (pa_expiration a)) [])) as Hb. rewrite Hl in Hb.
  assert (Wire_closed (makeBinaryBlock tlv_nfd_ExpirationPeriod
    (prependNonNegativeInteger (u64 (pa_expiration a)) []))) as Hc
    by (apply makeBinaryBlock_closed; [done|lia|apply prependNonNegativeInteger_bytes]).
  unfold contentElements. destruct (pa_validity a) as [p|].
  - destruct (validity_closed p (Hv p eq_refl)) as (_ & Hcv & Hlv).
    split; [by apply Forall_cons_2, Forall_cons_2, Forall_nil_2|].
    unfold wiresBytes, prependBlock. cbn [foldr]. rewrite !length_app. cbn [length]. lia.
  - split; [by apply Forall_cons_2, Forall_nil_2|].
    unfold wiresBytes, prependBlock. cbn [foldr]. rewrite !length_app. cbn [length]. lia.
Qed.

Lemma announcementData_ok a sigInfo version segment :
  announcement_wf a → sig_ok sigInfo → comp_wf version → comp_wf segment →
  data_ok (announcementData a sigInfo version segment).
Proof using L.
  intros Ha Hsig Hv Hs. destruct (contentElements_ok a Ha) as [Hc Hl].
  split; cbn [dp_name dp_metaInfo dp_content dp_signatureInfo announcementData].
  - apply Forall_app. split; [apply Ha|]. repeat (apply Forall_cons_2; [|]); try done; try apply Forall_nil_2.
    apply comp_wf_short; [done| |cbn; lia]. by repeat constructor.
  - split; cbn; [by vm_compute|lia|done|constructor].
  - intros c <-%(inj Some). split; [|done]. apply nested_closed; [done|done|unfold small; lia].
  - done.
Qed.

(** [toData] signs that Data. *)
Lemma toData_eq gEnc sign sigInfo version a :
  announcement_wf a → pa_data a = None →
  ∃ vc sc, isVersion EITHER vc = true ∧ isSegment EITHER sc = true ∧ comp_wf vc ∧ comp_wf sc ∧
    (length (cvalue vc) ≤ 9)%nat ∧ (length (cvalue sc) ≤ 9)%nat ∧
    ∀ d, KeyChain_signData sign sigInfo
        (set_dp_signatureInfo SignatureInfo_new (announcementData a sigInfo vc sc)) = (Ok tt, d) →
      toData gEnc sign sigInfo version a =
        (Ok d, mkPrefixAnnouncement (Some d) (pa_announcedName a) (pa_expiration a)
                 (cachedValidity <$> pa_validity a)).
Proof using L.
  intros (_ & _ & Hval) Hd.
  destruct (from_convention_ok gEnc VERSION_MARKER VersionNameComponent version) as (vc & Ev & Hv & Hisv & ?);
    [by left|done|].
  destruct (from_convention_ok gEnc SEGMENT_MARKER SegmentNameComponent 0) as (sc & Es & Hs & Hiss & ?);
    [by right|done|].
  exists vc, sc. split_and!; [done..|]. intros d Hsign.
  unfold toData. rewrite (bindE _ _ a a a) by done. rewrite Hd.
  rewrite (bindE _ _ a vc a) by (unfold liftE; by rewrite <-Ev).
  rewrite (bindE _ _ a sc a) by (unfold liftE; by rewrite <-Es).
  set (n := pa_announcedName a ++ _) in *. erewrite bindE by done.
  erewrite bindE by done. set (a1 := set_pa_data _ (set_pa_data _ a)).
  set (a2 := mkPrefixAnnouncement (pa_data a1) (pa_announcedName a) (pa_expiration a)
               (cachedValidity <$> pa_validity a)).
  rewrite (bindE _ _ a1 (match pa_validity a with Some p => [validityWire p] | None => [] end) a2).
  2:{ unfold a2. destruct (pa_validity a) as [p|] eqn:Ep.
      - rewrite ValidityPeriod_wireEncode_eq by auto. done.
      - unfold a1. destruct a; cbn in *. by subst. }
  rewrite prependNonNegativeIntegerBlock_make.
  set (d0 := set_dp_signatureInfo SignatureInfo_new (announcementData a sigInfo vc sc)) in *.
  rewrite (bindE _ _ a2 tt (set_pa_data (Some d0) a2)) by done.
  rewrite (bindE _ _ _ tt (set_pa_data (Some d) a2)); [done|].
  unfold zoomE. cbn [pa_data set_pa_data default from_option]. unfold id. by rewrite Hsign.
Qed.

Lemma announcementData_size a sigInfo version segment :
  announcement_wf a → (length (cvalue version) ≤ 9)%nat → (length (cvalue segment) ≤ 9)%nat →
  (length (wiresBytes (unsignedElements (announcementData a sigInfo version segment)) []) ≤
   length (foldr Component_wireEncode [] (pa_announcedName a)) +
   length (wiresBytes (sigElements sigInfo) []) + 500)%nat.
Proof using L.
  intros Ha Hv Hs. destruct (contentElements_ok a Ha) as [_ Hc]. 
  assert (∀ c enc, length (Component_wireEncode c enc) ≤ 18 + length (cvalue c) + length enc)%nat as Hcomp.
  { intros c enc. unfold Component_wireEncode. rewrite !prependVarNumber_app, !length_app, !length_varNumber.
    unfold sizeOfVarNumber. repeat case_bool_decide; lia. }
  assert (∀ n enc, length (foldr Component_wireEncode enc n) =
    length (foldr Component_wireEncode [] n) + length enc)%nat as Hfold.
  { intros n enc. induction n as [|c n IH]; [done|]. cbn [foldr]. unfold Component_wireEncode at 1 3.
    rewrite !prependVarNumber_app, !length_app. rewrite IH. lia. }
  set (tail := [getKeywordComponent; version; segment]).
  assert (length (foldr Component_wireEncode [] tail) ≤ 80)%nat as Ht.
  { unfold tail. cbn [foldr]. pose proof (Hcomp segment []) as H1.
    pose proof (Hcomp version (Component_wireEncode segment [])) as H2.
    pose proof (Hcomp getKeywordComponent (Component_wireEncode version (Component_wireEncode segment []))) as H3.
    cbn [length cvalue getKeywordComponent] in *. lia. }
  pose proof (length_makeBinaryBlock tlv_Name
    (foldr Component_wireEncode [] (pa_announcedName a ++ tail))) as H1.
  rewrite foldr_app, Hfold in H1. rewrite <-foldr_app in H1.
  pose proof (length_makeBinaryBlock tlv_Content (wiresBytes (contentElements a) [])) as H2.
  pose proof (length_makeBinaryBlock tlv_SignatureInfo (wiresBytes (sigElements sigInfo) [])) as H3.
  unfold unsignedElements, wiresBytes at 1, prependBlock.
  cbn [dp_name dp_metaInfo dp_content dp_signatureInfo announcementData foldr app].
  rewrite !length_app. cbn [length].
  change (nameWire _) with (makeBinaryBlock tlv_Name
    (foldr Component_wireEncode [] (pa_announcedName a ++ tail))).
  change (sigInfoWire SI_Data sigInfo) with
    (makeBinaryBlock tlv_SignatureInfo (wiresBytes (sigElements sigInfo) [])).
  assert (length (w_bytes (metaWire (mkMetaInfo ContentType_PrefixAnn 0 None [] None))) = 5)%nat as -> by done.
  lia.
Qed.

(** What the constructor reads of the Data. *)
Lemma ofData_announcement a data version segment :
  announcement_wf a → Name_size (pa_announcedName a) < 2 ^ 62 →
  isVersion EITHER version = true → isSegment EITHER segment = true →
  dp_name data = pa_announcedName a ++ [getKeywordComponent; version; segment] →
  mi_type (dp_metaInfo data) = ContentType_PrefixAnn →
  dp_content data = Some (makeBinaryBlock tlv_Content (wiresBytes (contentElements a) [])) →
  PrefixAnnouncement_ofData EITHER data = Ok (mkPrefixAnnouncement (Some data) (pa_announcedName a)
    (pa_expiration a) (cachedValidity <$> pa_validity a)).
Proof using L.
  intros Ha Hn Hv Hs En Et Ec. destruct (contentElements_ok a Ha) as [Hcl _].
  destruct (announcementName_ok _ version segment Hv Hs Hn) as [E1 E2].
  unfold PrefixAnnouncement_ofData. rewrite En, E1, bind_Ok, E2. cbn [negb].
  rewrite bool_decide_false by auto. rewrite Ec. rewrite bool_decide_false.
  2:{ cbn [w_value makeBinaryBlock Wire_ofBlock blk_value]. unfold contentElements, wiresBytes, prependBlock.
      cbn [foldr]. rewrite length_app.
      pose proof (value_le_bytes tlv_nfd_ExpirationPeriod
        (prependNonNegativeInteger (u64 (pa_expiration a)) [])) as Hl.
      rewrite length_prependNonNegativeInteger in Hl.
      pose proof (sizeOfNonNegativeInteger_le (u64 (pa_expiration a))). lia. }
  rewrite Wire_subs_make, bind_Ok by done. destruct Ha as (_ & He & Hval).
  assert (findWire tlv_nfd_ExpirationPeriod (contentElements a) = Some (makeBinaryBlock
    tlv_nfd_ExpirationPeriod (prependNonNegativeInteger (u64 (pa_expiration a)) []))) as -> by done.
  unfold wire_block. cbn [w_type w_value makeBinaryBlock Wire_ofBlock blk_type blk_value].
  rewrite readNonNegativeInteger_block_written by (unfold is_u64, u64; apply Z.mod_pos_bound; lia).
  rewrite bind_Ok, i64_u64 by lia.
  assert (existsb unrecognizedCritical (contentElements a) = false) as ->
    by (unfold contentElements; by destruct (pa_validity a)).
  assert (findWire tlv_ValidityPeriod (contentElements a) = validityWire <$> pa_validity a) as ->
    by (unfold contentElements; by destruct (pa_validity a)).
  destruct (pa_validity a) as [p|]; cbn; [|done]. rewrite ValidityPeriod_ofWire_eq by auto. done.
Qed.

Lemma name_size_le n : Name_size n ≤ Z.of_nat (length (foldr Component_wireEncode [] n)).
Proof.
  unfold Name_size. induction n as [|c n IH]; [done|]. cbn [foldr length].
  unfold Component_wireEncode at 1. rewrite !prependVarNumber_app, !length_app, !length_varNumber.
  assert (1 ≤ sizeOfVarNumber (ctype c))%nat; [|lia].
  unfold sizeOfVarNumber. repeat case_bool_decide; lia.
Qed.
End roundtrip.

(** ** Properties *)

(** C38. A prefix announcement survives publication.  [toData] signs a Data that
    whoever decodes its bytes can turn back into an equal announcement: the
    same announced name, expiration and validity period, in whichever naming
    convention the version and segment components are written; and [toData]
    leaves the announced values as they were. *)
Theorem announcement_roundtrip {I : IsoTime} {L : IsoTimeLaws I} gEnc sign sigInfo version a s :
  announcement_wf a → pa_data a = None → sig_ok sigInfo →
  (∀ u, bytes_ok (sign u) ∧ Z.of_nat (length (sign u)) < 2 ^ 60) →
  Z.of_nat (length (foldr Component_wireEncode [] (pa_announcedName a))) +
    Z.of_nat (length (wiresBytes (sigElements sigInfo) [])) < 2 ^ 60 →
  ∃ d a' w r a'', toData gEnc sign sigInfo version a = (Ok d, a') ∧ pa_data a' = Some d ∧
    PrefixAnnouncement_equals a' a = true ∧
    dp_wire d = Some w ∧ Wire_ofSpan (w_bytes w) = Ok w ∧ Data_wireDecode w s = (Ok tt, r) ∧
    PrefixAnnouncement_ofData g_conventionDecoding r = Ok a'' ∧ pa_data a'' = Some r ∧
    PrefixAnnouncement_equals a'' a = true.
Proof.
  intros Ha Hd Hsig Hsign Hsize.
  destruct (toData_eq gEnc sign sigInfo version a Ha Hd)
    as (vc & sc & Hv & Hs & Hwv & Hws & Hlv & Hls & Hto).
  pose proof (announcementData_ok a sigInfo vc sc Ha Hsig Hwv Hws) as Hok.
  pose proof (announcementData_size a sigInfo vc sc Ha Hlv Hls) as Hl.
  set (d0 := announcementData a sigInfo vc sc) in *.
  destruct (signData_spec sign sigInfo (set_dp_signatureInfo SignatureInfo_new d0)) as (Hsv & Hsm & E);
    [exact Hok|apply Hsign|destruct (Hsign (wiresBytes (unsignedElements d0) [])) as [_ ?];
       change (mkDataPkt _ _ _ _ _ _ _) with d0; lia|].
  change (mkDataPkt _ _ _ _ _ _ _) with d0 in Hsv, Hsm, E.
  set (v := makeBinaryBlock tlv_SignatureValue _) in *.
  destruct (Data_decode_encoded d0 v Hok Hsv Hsm s) as [[Hcl _] Es].
  fold (signedWire d0 v) in Hcl, Es. specialize (Hcl []). rewrite app_nil_r in Hcl.
  pose proof (name_size_le (pa_announcedName a)) as Hns.
  pose proof (ofData_announcement a (cachedData d0 v (signedWire d0 v)) vc sc Ha ltac:(lia) Hv Hs
    eq_refl eq_refl eq_refl) as Eo.
  assert (∀ x, PrefixAnnouncement_equals (mkPrefixAnnouncement x (pa_announcedName a) (pa_expiration a)
    (cachedValidity <$> pa_validity a)) a = true) as Heq.
  { intros x. unfold PrefixAnnouncement_equals. cbn [pa_announcedName pa_expiration pa_validity].
    assert (Name_equals (pa_announcedName a) (pa_announcedName a) = true) as -> by (by apply Name_equals_spec).
    rewrite bool_decide_true by done. destruct (pa_validity a) as [p|]; [|done]. cbn.
    by apply bool_decide_eq_true. }
  eexists _, _, _, _, _. split_and!; [exact (Hto _ E)|done|apply Heq|done|exact Hcl|exact Es|exact Eo|done|apply Heq].
Qed.

(** A calendar for the witnesses: fifteen digits to the base 256. *)
#[local] Instance sampleIso : IsoTime := {
  to_iso_string p := be_bytes 15 (p / 1000000 + 2 ^ 40);
  from_iso_string v := Ok ((be_number v - 2 ^ 40) * 1000000)
}.
Lemma second_range s : second_ok s → 0 ≤ s + 2 ^ 40 < 256 ^ Z.of_nat 15.
Proof.
  intros [H1 H2]. assert (minSecond = -9223372036) as E1 by done.
  assert (maxSecond = 9223372036) as E2 by done. change (256 ^ Z.of_nat 15) with (2 ^ 120). lia.
Qed.
#[local] Instance sampleIso_laws : IsoTimeLaws sampleIso.
Proof.
  assert (∀ s, s * 1000000 / 1000000 = s) as Hd by (intros; apply Z.div_mul; lia).
  split; cbn [to_iso_string from_iso_string sampleIso].
  - intros s _. apply length_be_bytes.
  - intros s _. apply be_bytes_ok.
  - intros s Hs. rewrite Hd, be_number_be_bytes by (by apply second_range). f_equal. lia.
  - intros s t Hs Ht Hle. rewrite !Hd. unfold bytes_lex.
    rewrite lex_be_bytes by (by apply second_range). intros Hgt%Z.compare_gt_iff. lia.
Qed.
Definition sampleAnnouncement : PrefixAnnouncement :=
  mkPrefixAnnouncement None [mkComponent 8 [65]] 3600000 (Some (ValidityPeriod_make 0 (7 * NANOS))).

Lemma announcement_roundtrip_witness :
  ∃ d a' r a'', toData TYPED (fun _ => [9]) sampleSigInfo 17 sampleAnnouncement = (Ok d, a') ∧
    PrefixAnnouncement_ofData EITHER r = Ok a'' ∧ PrefixAnnouncement_equals a'' sampleAnnouncement = true.
Proof.
  destruct (announcement_roundtrip TYPED (fun _ => [9]) sampleSigInfo 17 sampleAnnouncement (Data_new []))
    as (d & a' & w & r & a'' & E & _ & _ & _ & _ & _ & E' & _ & Heq).
  - split_and!; [|done..|].
    + apply (bool_decide_unpack _). by vm_compute.
    + intros p [= <-]. split_and!; [by vm_compute..|by left].
  - reflexivity.
  - split; cbn; done.
  - intros u. split; [by repeat constructor|done].
  - vm_compute. reflexivity.
  - exists d, a', r, a''. split; [exact E|]. split; [exact E'|exact Heq].
Defined.
