(* ===== verification/NetPackets.v ===== *)
(** * The link service over the packet formats

    The interface [NetCodec] of the link service, implemented by the decoders
    of [Interest], [Data] and [PrefixAnnouncement]. *)

From S2P Require Import Transport.
From S2P Require Import Prelude Tlv Component Name Encoding Packet LpPacket LpFragmenter LpReassembler GenericLinkService LinkSend LinkRoundtrip InterestWire DataWire PrefixAnn.
Local Open Scope Z_scope.

(** [PrefixAnnouncement(Data(block))], as [PrefixAnnouncementHeader::wireDecode]
    calls it; NFD never changes the convention of the name library. *)
Definition checkAnnouncement {I : IsoTime} (b : Block) : outcome unit :=
  data ← Data_ofWire (Wire_ofBlock b []);
  _ ← PrefixAnnouncement_ofData g_conventionDecoding data;
  Ok tt.

(** [make_shared<Interest>(netPkt)] without the automatic check of the parameters
    digest, which the constructor of [Nfd] turns off, and [make_shared<Data>(netPkt)]. *)
#[export] Instance packetCodec (I : IsoTime) (sha256 : list Z → list Z) : NetCodec := {
  InterestT := InterestPkt;
  DataT := DataPkt;
  Interest_decode := Interest_ofWire sha256 false;
  Data_decode := Data_ofWire;
  PrefixAnnouncement_check := checkAnnouncement
}.

Lemma Data_ofWire_throws w f : Data_ofWire w = Fault f → isTlvError f = true.
Proof.
  unfold Data_ofWire. pose proof (Data_decodes w (Data_new [])) as H. unfold decodesTo, wpE in H.
  destruct (Data_wireDecode w (Data_new [])) as [[[]|g] d]; [done|]. by intros [= <-].
Qed.
#[export] Instance packetCodec_laws I sha256 : NetCodecLaws (packetCodec I sha256).
Proof.
  split; [|exact Data_ofWire_throws]. intros w f. cbn. unfold Interest_ofWire.
  pose proof (Interest_wireDecode_ok sha256 false w Interest_members) as H. unfold decodesTo, wpE in H.
  destruct (Interest_wireDecode sha256 false w Interest_members) as [[[]|g] d]; [done|]. by intros [= <-].
Qed.

(** ** What the check of an announcement throws *)

(** [from_iso_string] reports a string it cannot read as [std::bad_cast] and
    accepts every other one. *)
Definition dates_lenient (I : IsoTime) : Prop :=
  ∀ v f, from_iso_string v = Fault f → f = Throw BadCast.

Section throws.
Context {I : IsoTime} {L : IsoTimeLaws I} (Hlenient : dates_lenient I).

Lemma decodeTimePoint_throws w f :
  length (w_value w) = ISO_DATETIME_SIZE → decodeTimePoint w = Fault f → f = Throw BadCast.
Proof using L Hlenient.
  intros Hl. destruct extremes_ok as [Hmin Hmax]. unfold decodeTimePoint. fold minSecond maxSecond.
  rewrite !toIsoString_second. rewrite bool_decide_false by (rewrite !iso_size by done; tauto).
  rewrite bool_decide_false by auto. case_bool_decide; [done|]. case_bool_decide; [done|].
  unfold fromIsoString. destruct (from_iso_string (w_value w)) as [p|g] eqn:E; [done|].
  cbn. intros [= <-]. by eapply Hlenient.
Qed.

Lemma ValidityPeriod_ofWire_throws w f : ValidityPeriod_ofWire w = Fault f → f = Throw TlvError.
Proof using L Hlenient.
  unfold ValidityPeriod_ofWire, ValidityPeriod_wireDecode. set (p := ValidityPeriod_new).
  erewrite bindE by done. destruct (Wire_subs w) as [els|g] eqn:Es.
  2:{ erewrite bindE_fault by done. intros [= <-]. by eapply Wire_subs_throws. }
  erewrite (bindE (liftE (Ok els))) by done. case_bool_decide; [by intros [= <-]|].
  destruct els as [|nb [|na [|??]]]; try by intros [= <-].
  case_bool_decide as Hb; [by intros [= <-]|]. unfold catchBadCast.
  destruct (decodeTimePoint nb) as [t|g] eqn:Eb.
  - erewrite (bindE (liftE (Ok t))) by done. erewrite (bindE (modifyE _)) by done.
    destruct (decodeTimePoint na) as [t'|g] eqn:Ea; [done|]. erewrite bindE_fault by done.
    apply decodeTimePoint_throws in Ea as ->; [|apply dec_stable; tauto]. by intros [= <-].
  - erewrite bindE_fault by done. apply decodeTimePoint_throws in Eb as ->; [|apply dec_stable; tauto]. by intros [= <-].
Qed.

Lemma announcementName_returns g n : ∃ b, announcementName g n = Ok b.
Proof.
  unfold announcementName. case_bool_decide as Hs; [by exists false|].
  assert (∀ k, -3 ≤ k < 0 → ∃ c, Name_get n k = Ok c) as Hget.
  { intros k Hk. unfold Name_get, Name_size in *. cbv zeta. rewrite (bool_decide_true (k < 0)) by lia.
    rewrite bool_decide_false by lia.
    destruct (lookup_lt_is_Some_2 n (Z.to_nat (k + Z.of_nat (length n)))) as [c ->]; [lia|]. by exists c. }
  destruct (Hget (-3)) as [c3 ->]; [lia|]. rewrite bind_Ok. case_bool_decide; [by exists false|].
  destruct (Hget (-2)) as [c2 ->]; [lia|]. rewrite bind_Ok. destruct (negb _); [by exists false|].
  destruct (Hget (-1)) as [c1 ->]; [lia|]. rewrite bind_Ok. eauto.
Qed.

Lemma PrefixAnnouncement_ofData_throws g d f :
  PrefixAnnouncement_ofData g d = Fault f → f = Throw TlvError.
Proof using L Hlenient.
  unfold PrefixAnnouncement_ofData. destruct (announcementName_returns g (dp_name d)) as [b ->].
  rewrite bind_Ok. destruct (negb b); [by intros [= <-]|]. case_bool_decide; [by intros [= <-]|].
  destruct (dp_content d) as [payload|]; [|by intros [= <-]]. case_bool_decide; [by intros [= <-]|].
  destruct (Wire_subs payload) as [els|h] eqn:Es; cbn; [|intros [= <-]; by eapply Wire_subs_throws].
  destruct (findWire tlv_nfd_ExpirationPeriod els) as [e|]; [|by intros [= <-]].
  destruct (readNonNegativeInteger_block (wire_block e)) as [n|h] eqn:En; cbn;
    [|intros [= <-]; by eapply readNonNegativeInteger_throws].
  destruct (findWire tlv_ValidityPeriod els) as [v|]; cbn.
  - destruct (ValidityPeriod_ofWire v) as [p|h] eqn:Ev; cbn;
      [|intros [= <-]; by eapply ValidityPeriod_ofWire_throws].
    destruct (existsb _ _); [by intros [= <-]|done].
  - destruct (existsb _ _); [by intros [= <-]|done].
Qed.

Lemma announcements_checked_lenient sha256 : announcements_checked (packetCodec I sha256).
Proof using L Hlenient.
  intros b f. cbn. unfold checkAnnouncement.
  destruct (Data_ofWire _) as [d|g] eqn:Ed; cbn; [|intros [= <-]; by eapply Data_ofWire_throws].
  destruct (PrefixAnnouncement_ofData _ d) as [a|g] eqn:Ea; cbn; [done|]. intros [= <-].
  by apply PrefixAnnouncement_ofData_throws in Ea as ->.
Qed.
End throws.

(** ** Sample packets *)

#[export] Instance sampleCodec : NetCodec := packetCodec sampleIso sampleSha.
Lemma sampleCodec_checked : announcements_checked sampleCodec.
Proof. by apply (announcements_checked_lenient (L := sampleIso_laws)). Qed.

(** A Data of more than one fragment, on a link with a small MTU. *)
Definition bigData : DataPkt :=
  mkDataPkt [mkComponent 8 [65]] MetaInfo_new (Some (makeBinaryBlock tlv_Content (replicate 200 7)))
    sampleSigInfo (Some (makeBinaryBlock tlv_SignatureValue [9])) None [].
Definition bigWire : Wire :=
  Eval vm_compute in match (Data_wireEncode bigData).1 with Ok w => w | Fault _ => mkWire 0 [] [] [] end.
Definition smallMtu : Transport := mkTransport 100 TransportState_UP (fun _ => 0).
Definition sampleOptions : LinkOptions :=
  mkLinkOptions false true FragmenterOptions_default true ReassemblerOptions_default true
    (100 * 1000000) 65536 true (2 ^ 63 - 1).
Definition sampleSend : NetSend := TxData bigWire (set_tag_congestionMark (Some 3) Tags_none).
Definition sampleLink : LinkService sampleCodec := LinkService_new sampleOptions.

Lemma sampleSend_ok : NetSend_ok sampleSend.
Proof.
  split_and!; [|by split|done]. split.
  - by right.
  - by vm_compute.
  - apply (bool_decide_unpack _). by vm_compute.
  - by vm_compute.
Qed.
Lemma sample_canSend : canSend smallMtu sampleOptions (Some 100%nat).
Proof. split; [by vm_compute|by left|by vm_compute]. Qed.
Lemma sampleLink_ok : Reassembler_ok (ls_reassembler sampleLink).
Proof. by intros ???. Qed.

Lemma sample_tagsFit : tagsFit sampleSend.
Proof. split; [|by split]. intros v [= <-]. by vm_compute. Qed.
Lemma sample_canReceive :
  canReceive (ls_options sampleLink) Ep_monostate (ls_lastSeqNo sampleLink + 1) sampleLink.
Proof. split; [exact sampleLink_ok|reflexivity|by vm_compute|by vm_compute|reflexivity]. Qed.
Lemma sample_decodable : decodable sampleSend bigWire.
Proof. split; [reflexivity|]. eexists. vm_compute. reflexivity. Qed.

(** ** A date that does not exist *)

Definition ascii_bytes (s : string) : list Z :=
  map (fun c => Z.of_N (Ascii.N_of_ascii c)) (String.list_ascii_of_string s).
(** The thirteenth month. *)
Definition badDate : list Z := ascii_bytes "20241301T000000".

Definition badPayload : list Wire :=
  [makeBinaryBlock tlv_nfd_ExpirationPeriod [1];
   makeBinaryBlock tlv_ValidityPeriod (wiresBytes
     [makeBinaryBlock tlv_NotBefore badDate; makeBinaryBlock tlv_NotAfter badDate] [])].
Definition badAnnouncement : DataPkt :=
  mkDataPkt [getKeywordComponent; mkComponent VersionNameComponent [1]; mkComponent SegmentNameComponent [0]]
    (mkMetaInfo ContentType_PrefixAnn 0 None [] None)
    (Some (makeBinaryBlock tlv_Content (wiresBytes badPayload []))) sampleSigInfo None None [].
Definition badDataWire : Wire :=
  Eval vm_compute in signedWire badAnnouncement (makeBinaryBlock tlv_SignatureValue [9]).
(** An LpPacket with the announcement, and any Data. *)
Definition badPacket : list Z :=
  Eval vm_compute in Block_encode (Build_Block lp_LpPacket
    (Block_encode (Build_Block lp_PrefixAnnouncement (w_bytes badDataWire))
      (Block_encode (fragmentBlock (w_bytes badDataWire)) []))) [].
Definition badWire : Wire :=
  Eval vm_compute in match Wire_ofSpan badPacket with Ok w => w | Fault _ => mkWire 0 [] [] [] end.
Definition badLp : Packet :=
  Eval vm_compute in match Packet_wireDecode badWire with Ok p => p | Fault _ => Packet_new end.
Definition badDecoded : DataPkt :=
  Eval vm_compute in match Data_ofWire badDataWire with Ok d => d | Fault _ => Data_new [] end.

Section badDate.
Context {I : IsoTime} (sha256 : list Z → list Z).
Context (Hmin : to_iso_string (minSecond * 1000000) = ascii_bytes "16770921T001244").
Context (Hmax : to_iso_string (maxSecond * 1000000) = ascii_bytes "22620411T234716").
Context (Hbad : from_iso_string badDate = Fault (Throw OutOfRange)).

Lemma badDate_decode type :
  decodeTimePoint (makeBinaryBlock type badDate) = Fault (Throw OutOfRange).
Proof using Hmin Hmax Hbad.
  unfold decodeTimePoint. fold minSecond maxSecond. rewrite !toIsoString_second, Hmin, Hmax.
  change (w_value (makeBinaryBlock type badDate)) with badDate.
  unfold fromIsoString. rewrite Hbad. by vm_compute.
Qed.

Lemma badAnnouncement_throws d :
  dp_name d = dp_name badAnnouncement → mi_type (dp_metaInfo d) = ContentType_PrefixAnn →
  dp_content d = dp_content badAnnouncement →
  PrefixAnnouncement_ofData EITHER d = Fault (Throw OutOfRange).
Proof using Hmin Hmax Hbad.
  intros Hn Ht Hc. unfold PrefixAnnouncement_ofData. rewrite Hn, Ht, Hc.
  change (announcementName EITHER (dp_name badAnnouncement)) with (Ok true). cbv iota beta.
  rewrite bind_Ok. cbn [negb]. rewrite bool_decide_false by auto.
  assert (dp_content badAnnouncement =
    Some (makeBinaryBlock tlv_Content (wiresBytes badPayload []))) as -> by done.
  rewrite bool_decide_false by (by vm_compute).
  assert (Wire_subs (makeBinaryBlock tlv_Content (wiresBytes badPayload [])) = Ok badPayload) as ->
    by (by vm_compute).
  rewrite bind_Ok.
  assert (findWire tlv_nfd_ExpirationPeriod badPayload =
    Some (makeBinaryBlock tlv_nfd_ExpirationPeriod [1])) as -> by done.
  assert (readNonNegativeInteger_block (wire_block (makeBinaryBlock tlv_nfd_ExpirationPeriod [1])) = Ok 1)
    as -> by (by vm_compute).
  rewrite bind_Ok. set (nb := makeBinaryBlock tlv_NotBefore badDate).
  set (na := makeBinaryBlock tlv_NotAfter badDate).
  set (vw := makeBinaryBlock tlv_ValidityPeriod (wiresBytes [nb; na] [])).
  assert (findWire tlv_ValidityPeriod badPayload = Some vw) as -> by done.
  assert (ValidityPeriod_ofWire vw = Fault (Throw OutOfRange)) as ->; [|done].
  unfold ValidityPeriod_ofWire, ValidityPeriod_wireDecode. erewrite bindE by done.
  assert (Wire_subs vw = Ok [nb; na]) as -> by (by vm_compute).
  erewrite (bindE (liftE (Ok _))) by done. rewrite bool_decide_false by auto.
  rewrite bool_decide_false by (by vm_compute; intuition).
  unfold catchBadCast. unfold nb. rewrite badDate_decode. by erewrite bindE_fault by done.
Qed.

Lemma badCheck_throws :
  checkAnnouncement (Build_Block tlv_Data (w_value badDataWire)) = Fault (Throw OutOfRange).
Proof using Hmin Hmax Hbad.
  unfold checkAnnouncement.
  assert (Data_ofWire (Wire_ofBlock (Build_Block tlv_Data (w_value badDataWire)) []) = Ok badDecoded) as ->
    by (vm_compute; reflexivity).
  rewrite bind_Ok, badAnnouncement_throws; [done|vm_compute; reflexivity..].
Qed.

Lemma badLp_throws ep (s : LinkService (packetCodec I sha256)) :
  allowSelfLearning (ls_options s) = true →
  decodeData badDataWire badLp ep s = (Fault (Throw OutOfRange), s).
Proof using Hmin Hmax Hbad.
  intros Hsl. unfold decodeData. change (w_type badDataWire) with tlv_Data.
  rewrite (bindE _ _ s tt s) by done. rewrite (bindE _ _ s (ls_options s) s) by done.
  rewrite (bindE _ _ s badDecoded s) by (unfold liftE; f_equal; vm_compute; reflexivity).
  assert (∀ A (F : FieldDecl A), F_type F ∈ [lp_Nack; lp_NextHopFaceId; lp_CachePolicy; lp_CongestionMark;
    lp_NonDiscovery] → Packet_has F badLp = false) as Habs.
  { intros A F HF. apply Packet_has_false. revert HF. generalize (F_type F). rewrite <-Forall_forall.
    apply (bool_decide_unpack _). vm_compute. exact Logic.I. }
  rewrite !Habs by (cbn; set_solver). rewrite Hsl.
  rewrite (bindE _ _ s Tags_none s) by (unfold readTag; by rewrite Habs by (cbn; set_solver)).
  rewrite (bindE _ _ s Tags_none s) by (unfold readTag; by rewrite Habs by (cbn; set_solver)).
  assert (Packet_has (PrefixAnnouncementField checkAnnouncement) badLp = true) as Hhas
    by (vm_compute; reflexivity).
  rewrite (bindE_fault _ _ s (Throw OutOfRange) s); [done|].
  unfold readTag. cbn [PrefixAnnouncement_check packetCodec]. rewrite Hhas.
  rewrite (bindE_fault _ _ s (Throw OutOfRange) s); [done|]. unfold liftE. f_equal.
  rewrite Packet_get_fields.
  assert (fieldsAt (F_type (PrefixAnnouncementField checkAnnouncement)) (p_elements badLp) =
    [Build_Block lp_PrefixAnnouncement (w_bytes badDataWire)]) as -> by (vm_compute; reflexivity).
  rewrite (F_decode_same (PrefixAnnouncementField checkAnnouncement)).
  cbn [F_decodeHelper PrefixAnnouncementField F_type]. unfold PrefixAnnouncementHeader_wireDecode.
  assert (Wire_parse (Wire_ofBlock (Build_Block lp_PrefixAnnouncement (w_bytes badDataWire)) []) =
    Ok [Build_Block tlv_Data (w_value badDataWire)]) as -> by (vm_compute; reflexivity).
  rewrite bind_Ok. cbn [List.find blk_type]. rewrite bool_decide_true by done.
  by rewrite badCheck_throws.
Qed.
End badDate.

(** A date that does not exist gets past the handlers of the link service.
    [ValidityPeriod::wireDecode] catches [std::bad_cast] only, while Boost
    reports a month 13 as [bad_month], a [std::out_of_range]: with
    self-learning on, which is the default, one packet of at most 300 bytes
    makes [doReceivePacket] leave with that exception, which none of the
    [catch (const tlv::Error&)] on its way handles. *)
Theorem malformed_date_escapes {I : IsoTime} sha256 now ep (s : LinkService (packetCodec I sha256)) :
  to_iso_string (minSecond * 1000000) = ascii_bytes "16770921T001244" →
  to_iso_string (maxSecond * 1000000) = ascii_bytes "22620411T234716" →
  from_iso_string badDate = Fault (Throw OutOfRange) →
  allowSelfLearning (ls_options s) = true → 1 ≤ ro_nMaxFragments (r_options (ls_reassembler s)) →
  (length badPacket ≤ 300)%nat ∧
  ∃ packet s', Wire_ofSpan badPacket = Ok packet ∧
    doReceivePacket now packet ep s = (Fault (Throw OutOfRange), s').
Proof.
  intros Hmin Hmax Hbad Hsl Hfr. split; [vm_compute; lia|].
  exists badWire, s. split; [vm_compute; reflexivity|].
  rewrite (doReceivePacket_eq now badWire ep s badLp) by
    (try (right; split); vm_compute; reflexivity).
  rewrite (receiveFragment_single now ep badLp (w_bytes badDataWire) badDataWire) by
    (try done; vm_compute; reflexivity).
  replace (set_ls_reassembler (ls_reassembler s) s) with s by (by destruct s).
  unfold decodeNetPacket, catchTlv. change (w_type badDataWire) with tlv_Data.
  rewrite bool_decide_false, bool_decide_true by done.
  by rewrite badLp_throws.
Qed.

(** A reader of dates that checks the month, for the witness. *)
Definition twoDigits (v : list Z) (at_ : nat) : Z :=
  match drop at_ v with a :: b :: _ => (a - 48) * 10 + (b - 48) | _ => 0 end.
Definition monthIso : IsoTime := {|
  to_iso_string p :=
    if bool_decide (p < 0) then ascii_bytes "16770921T001244" else ascii_bytes "22620411T234716";
  from_iso_string v :=
    if bool_decide (1 ≤ twoDigits v 4 ≤ 12) then Ok 0 else Fault (Throw OutOfRange)
|}.
Lemma malformed_date_escapes_witness :
  ∃ packet s', doReceivePacket 0 packet Ep_monostate
      (LinkService_new LinkOptions_default : LinkService (packetCodec monthIso sampleSha))
    = (Fault (Throw OutOfRange), s').
Proof.
  destruct (malformed_date_escapes (I := monthIso) sampleSha 0 Ep_monostate
    (LinkService_new LinkOptions_default)) as (_ & packet & s' & _ & E).
  - vm_compute. reflexivity.
  - vm_compute. reflexivity.
  - vm_compute. reflexivity.
  - reflexivity.
  - vm_compute. discriminate.
  - exists packet, s'. exact E.
Defined.
