(* ===== verification/PlainLink.v ===== *)
(** * The link service with reliability off

    Reliability is off by default.  Then the whole of [generic-link-service.cpp],
    as [ReliableLink] models it with both values of
    [reliabilityOptions.isEnabled], does on the link service exactly what the
    definitions of [GenericLinkService] do, and leaves [LpReliability] alone.
    So the properties of the two directions hold of the whole code. *)

From S2P Require Import Transport.
From S2P Require Import Prelude Tlv Component Name Encoding Packet LpPacket LpFragmenter LpReassembler GenericLinkService LinkSend LinkRoundtrip.
From S2P Require Import RttEstimator LpReliability ReliableLink InterestWire DataWire PrefixAnn NetPackets.
Local Open Scope Z_scope.

Create HintDb plain.

Section plain.
Context {C : NetCodec} (transport : Transport).
Implicit Types s : ReliableLink C.

Definition reliabilityOff s : Prop := ro_isEnabled (rl_options (rk_rel s)) = false.

(** At time [t], [m] is [n] on the link service, as long as reliability is off. *)
Definition isPlain {A} (t : Z) (m : ME (ReliableLink C) A) (n : ME (LinkService C) A) : Prop :=
  ∀ s, reliabilityOff s → rk_now s = t → m s = onLink n s.

Lemma isPlain_bind {A B} t (m : ME (ReliableLink C) A) n (k : A → ME (ReliableLink C) B) l :
  isPlain t m n → (∀ a, isPlain t (k a) (l a)) → isPlain t (m ≫= k) (n ≫= l).
Proof.
  intros Hm Hk s Hs Ht. unfold mbind, ME_bind. rewrite (Hm s Hs Ht). unfold onLink, zoomE.
  destruct (n (rk_link s)) as [[a|f] x]; [|done]. by rewrite (Hk a).
Qed.
Lemma isPlain_link {A} t (m : ME (LinkService C) A) : isPlain t (onLink m) m.
Proof. by intros s _ _. Qed.
Lemma isPlain_lift {A} t (m : outcome A) : isPlain t (liftE m) (liftE m).
Proof. intros s _ _. by destruct s. Qed.
Lemma isPlain_ret {A} t (a : A) : isPlain t (mret a) (mret a).
Proof. intros s _ _. by destruct s. Qed.
Lemma isPlain_if {A} t (b : bool) (m1 m2 : ME (ReliableLink C) A) n1 n2 :
  isPlain t m1 n1 → isPlain t m2 n2 → isPlain t (if b then m1 else m2) (if b then n1 else n2).
Proof. by destruct b. Qed.
Lemma isPlain_for {A} t (xs : list A) k l : (∀ x, isPlain t (k x) (l x)) → isPlain t (forE_ xs k) (forE_ xs l).
Proof. intros Hk. induction xs; cbn [forE_]; [apply isPlain_ret|by apply isPlain_bind]. Qed.
Lemma isPlain_catch {A} t (m h : ME (ReliableLink C) A) n g :
  isPlain t m n → isPlain t h g → isPlain t (catchTlv m h) (catchTlv n g).
Proof.
  intros Hm Hh s Hs Ht. unfold catchTlv. rewrite (Hm s Hs Ht). unfold onLink, zoomE.
  destruct (n (rk_link s)) as [[a|f] x]; [done|]. destruct (isTlvError f); [|done]. by rewrite Hh.
Qed.
(** What is read: the options, the clock and the flag. *)
Lemma isPlain_options {A} t (k : LinkOptions → ME (ReliableLink C) A) l :
  (∀ o, isPlain t (k o) (l o)) →
  isPlain t (getE (fun s => ls_options (rk_link s)) ≫= k) (getE ls_options ≫= l).
Proof. intros Hk s Hs Ht. by rewrite (bindE _ _ s (ls_options (rk_link s)) s), Hk. Qed.
Lemma isPlain_now {A} t (k : Z → ME (ReliableLink C) A) l : isPlain t (k t) l → isPlain t (getE rk_now ≫= k) l.
Proof. intros Hk s Hs Ht. rewrite (bindE _ _ s t s) by (unfold getE; by rewrite Ht). by apply Hk. Qed.
Lemma isPlain_enabled {A} t (k : bool → ME (ReliableLink C) A) l :
  isPlain t (k false) l → isPlain t (getE (fun s => ro_isEnabled (rl_options (rk_rel s))) ≫= k) l.
Proof. intros Hk s Hs Ht. rewrite (bindE _ _ s false s) by (unfold getE; by rewrite Hs). by apply Hk. Qed.
Lemma isPlain_skip {A B} t (a : B) (k : B → ME (ReliableLink C) A) l : isPlain t (k a) l → isPlain t (mret a ≫= k) l.
Proof. done. Qed.

#[local] Hint Resolve isPlain_link isPlain_lift isPlain_ret isPlain_if isPlain_bind : plain.

(** ** The definitions with both branches, in the branch without reliability *)

Lemma sendLpPacketR_plain t pkt : isPlain t (sendLpPacketR transport pkt) (sendLpPacket transport t pkt).
Proof.
  apply isPlain_now. intros s Hs Ht.
  rewrite (bindE _ _ s (getEffectiveMtu transport (ls_options (rk_link s))) s) by done.
  by apply (isPlain_enabled t).
Qed.
Lemma sendNetPacketR_plain t pkt isInterest :
  isPlain t (sendNetPacketR transport pkt isInterest) (sendNetPacket transport t pkt).
Proof.
  apply isPlain_now, isPlain_options. intros o. apply isPlain_enabled. cbn [andb orb]. cbv zeta.
  apply isPlain_bind; [apply isPlain_lift|]. intros _. apply isPlain_bind; [apply isPlain_lift|]. intros [isOk frags].
  apply isPlain_if; [apply isPlain_link|]. apply isPlain_bind.
  { destruct frags as [|front [|??]]; auto with plain. apply isPlain_bind; intros; apply isPlain_lift. }
  intros _. apply isPlain_bind; [auto with plain|]. intros qs. apply isPlain_skip.
  apply isPlain_for. intros q. apply sendLpPacketR_plain.
Qed.
Lemma transmitR_plain t x : isPlain t (transmitR transport x) (transmit transport t x).
Proof.
  assert (∀ A (m : outcome A) k l, (∀ a, isPlain t (k a) (l a : ME _ unit)) → isPlain t (liftE m ≫= k) (liftE m ≫= l)) as Hl.
  { intros A m k l Hk. apply isPlain_bind; [apply isPlain_lift|done]. }
  unfold transmitR. destruct x as [wire tags|wire tags|wire header tags]; cbn [transmit tx_wireOf tx_tagsOf tx_nackOf];
    (apply isPlain_bind; [apply isPlain_link|]; intros _; apply isPlain_options; intros o; apply Hl; intros p1).
  - intros s Hs Ht. rewrite (bindE _ _ s p1 s) by done. revert s Hs Ht. apply Hl. intros p2. apply sendNetPacketR_plain.
  - intros s Hs Ht. rewrite (bindE _ _ s p1 s) by done. revert s Hs Ht. apply Hl. intros p2. apply sendNetPacketR_plain.
  - apply Hl. intros p2. apply Hl. intros p3. apply sendNetPacketR_plain.
Qed.
Lemma doReceivePacketR_plain t packet ep :
  isPlain t (doReceivePacketR transport packet ep) (doReceivePacket t packet ep).
Proof.
  apply isPlain_now, isPlain_enabled, isPlain_catch; [|apply isPlain_link].
  apply isPlain_bind; [apply isPlain_lift|]. intros pkt. apply isPlain_skip, isPlain_link.
Qed.

(** Elements that arrive at times of their own. *)
Definition deliverWiresR (ep : EndpointId) (ws : list Wire) (order : list (Z * nat)) : ME (ReliableLink C) unit :=
  forE_ order (fun '(now, i) =>
    _ ← modifyE (set_rk_now now);
    match ws !! i with
    | Some w => w' ← liftE (Wire_ofSpan (w_bytes w)); doReceivePacketR transport w' ep
    | None => mret tt
    end).
Lemma deliverWiresR_plain ep ws order : ∀ s,
  reliabilityOff s →
  ∃ t, deliverWiresR ep ws order s =
    let '(r, l) := deliverWires ep ws order (rk_link s) in (r, set_rk_now t (set_rk_link l s)).
Proof.
  induction order as [|[now i] order IH]; intros s Hs; [exists (rk_now s); by destruct s|].
  unfold deliverWiresR, deliverWires in *. cbn [forE_]. set (s1 := set_rk_now now s).
  assert (isPlain now (match ws !! i with
    | Some w => w' ← liftE (Wire_ofSpan (w_bytes w)); doReceivePacketR transport w' ep | None => mret tt end)
    (match ws !! i with
    | Some w => w' ← liftE (Wire_ofSpan (w_bytes w)); doReceivePacket now w' ep | None => mret tt end)) as Hstep.
  { destruct (ws !! i); [|apply isPlain_ret]. apply isPlain_bind; [apply isPlain_lift|]. intros w'.
    apply doReceivePacketR_plain. }
  match type of Hstep with isPlain _ ?m ?n => set (mR := m) in *; set (mL := n) in * end.
  destruct (mL (rk_link s)) as [o l] eqn:EL.
  assert ((_ ← modifyE (set_rk_now now); mR) s = (o, set_rk_link l s1)) as ER.
  { rewrite (bindE _ _ s tt s1), (Hstep s1 Hs eq_refl) by done. unfold onLink, zoomE.
    change (rk_link s1) with (rk_link s). by rewrite EL. }
  destruct o as [[]|f].
  - rewrite (bindE _ _ _ _ _ ER), (bindE _ _ _ _ _ EL). destruct (IH (set_rk_link l s1) Hs) as [t Et].
    exists t. rewrite Et. change (rk_link (set_rk_link l s1)) with l. by destruct (forE_ _ _ l).
  - rewrite (bindE_fault _ _ _ _ _ ER), (bindE_fault _ _ _ _ _ EL). by exists now.
Qed.
End plain.

(** ** Properties *)

(** C9. Two link services with reliability off deliver what is sent, once, in any
    order of arrival.  A well-formed Interest, Data or Nack that decodes is sent,
    with tags the peer accepts for its kind (congestion marks of 64 bits,
    announcements only on Data and well-formed, NonDiscovery on Interests only),
    over a transport that is up or down, with no MTU or one of at least 64 and
    fragmentation on, and the fragmenter does not refuse it.  At a peer that
    reassembles, allows as many fragments as the sender and has no partial packet
    under the same endpoint and message identifier, the elements handed to the
    transport (each below 2^62 bytes), all arriving, in any order, at any times,
    make it emit exactly one signal: the same packet and Nack reason, the sender's
    congestion mark or the mark 1 of a congested link, on an Interest its PIT token
    (Data and Nacks lose theirs at the receiver), NonDiscovery or the announcement
    if both sides allow self-learning.  Nothing is counted as invalid. *)
Theorem plain_link_delivers {C : NetCodec} transport transport' x mtu netW ep order
    (s s' r : ReliableLink C) ws :
  reliabilityOff s → reliabilityOff r →
  NetSend_ok x → tagsFit x → canSend transport (ls_options (rk_link s)) mtu →
  transmitR transport x s = (Ok tt, s') → ls_sent (rk_link s') = ls_sent (rk_link s) ++ ws → ws ≠ [] →
  Forall (fun w => Z.of_nat (Wire_size w) < 2 ^ 62) ws →
  Wire_ofSpan (w_bytes (tx_wireOf x)) = Ok netW → decodable x netW →
  canReceive (ls_options (rk_link s)) ep (ls_lastSeqNo (rk_link s) + 1) (rk_link r) →
  order.*2 ≡ₚ seq 0 (length ws) →
  ∃ r' e, deliverWiresR transport' ep ws order r = (Ok tt, r') ∧ rk_rel r' = rk_rel r ∧
    ls_received (rk_link r') = ls_received (rk_link r) ++ [e] ∧
    arrivesAs (ls_options (rk_link s)) (ls_options (rk_link r)) ep netW x e ∧
    Reassembler_ok (ls_reassembler (rk_link r')) ∧
    ls_counters (rk_link r') nInLpInvalid = ls_counters (rk_link r) nInLpInvalid ∧
    ls_counters (rk_link r') nInNetInvalid = ls_counters (rk_link r) nInNetInvalid.
Proof.
  intros Hoff Hoff' Hx Hfit Hcan Htx Hsent Hne Hsmall Hnet Hdec Hrecv Hperm.
  rewrite (transmitR_plain transport (rk_now s) x s Hoff eq_refl) in Htx. unfold onLink, zoomE in Htx.
  destruct (transmit transport (rk_now s) x (rk_link s)) as [o l] eqn:E. injection Htx as -> <-.
  destruct (link_delivers transport (rk_now s) x mtu netW ep order (rk_link s) l (rk_link r) ws)
    as (l' & e & Hdel & H1 & H2 & H3 & H4 & H5); try done.
  destruct (deliverWiresR_plain transport' ep ws order r Hoff') as [t Et]. rewrite Hdel in Et.
  eexists _, e. split; [exact Et|]. by split_and!.
Qed.

(** C10. With reliability off, no byte string from the network can crash or corrupt
    the link service.  Whatever element a transport cuts out of whatever
    bytes, and whatever was received before, [doReceivePacket] returns: no
    assertion fails, no exception leaves it, at most one packet is passed up,
    nothing is sent, the sequence numbers and [LpReliability] are untouched and the reassembly
    table stays sound.  The conditions: decoding an Interest or a Data throws [tlv::Error]s only, which
    the decoders of the library do; and self-learning is off, or the check of
    a prefix announcement throws [tlv::Error]s only, which it does unless it
    meets a date that does not exist.  (With reliability on see [reliable_link_never_fails]: a received Ack may then cause a retransmission.) *)
Theorem plain_receive_never_fails {C : NetCodec} {L : NetCodecLaws C} transport buffer packet ep
    (s : ReliableLink C) :
  reliabilityOff s → bytes_ok buffer → Z.of_nat (length buffer) < 2 ^ 64 → Wire_ofSpan buffer = Ok packet →
  Reassembler_ok (ls_reassembler (rk_link s)) → announcementsSafe (ls_options (rk_link s)) →
  ∃ l, doReceivePacketR transport packet ep s = (Ok tt, set_rk_link l s) ∧ received_ok (rk_link s) l.
Proof.
  intros Hoff Hb Hl Hw Hr Hsafe. rewrite (doReceivePacketR_plain transport (rk_now s) packet ep s Hoff eq_refl).
  destruct (receive_returns (rk_now s) buffer packet ep (rk_link s) Hb Hl Hw Hr Hsafe) as (l & E & Hok).
  exists l. unfold onLink, zoomE. by rewrite E.
Qed.

(** C11. With reliability off, the link service never exceeds the MTU.  With a
    limited MTU of at least [MIN_MTU], fragmentation on and the transport up or down, sending any
    well-formed Interest, Data or Nack of less than 2^32 bytes with well-formed tags never fails an assertion or throws;
    either the packet cannot be fragmented, which is counted and nothing is
    sent, or one or more elements are handed to the transport, all of them
    within the MTU even after a sequence number and a congestion mark were
    added, and no packet is counted as over the MTU.  (With reliability on this is false: two of the
    findings are packets that Acks make too long.) *)
Theorem plain_send_respects_mtu {C : NetCodec} transport x M (s : ReliableLink C) :
  reliabilityOff s → NetSend_ok x → canSend transport (ls_options (rk_link s)) (Some M) →
  ∃ l, transmitR transport x s = (Ok tt, set_rk_link l s) ∧
    ((ls_sent l = ls_sent (rk_link s) ∧
      ls_counters l nFragmentationErrors = u64 (ls_counters (rk_link s) nFragmentationErrors + 1)) ∨
     ∃ ws, ls_sent l = ls_sent (rk_link s) ++ ws ∧ ws ≠ [] ∧
       Forall (fun w => (Wire_size w ≤ M)%nat) ws ∧
       ls_counters l nOutOverMtu = ls_counters (rk_link s) nOutOverMtu).
Proof.
  intros Hoff Hx Hcan. rewrite (transmitR_plain transport (rk_now s) x s Hoff eq_refl).
  destruct (send_within_mtu transport (rk_now s) x M (rk_link s) Hx Hcan) as (l & E & Hout).
  exists l. unfold onLink, zoomE. by rewrite E.
Qed.

(** ** Witnesses *)

Definition plainLink : ReliableLink sampleCodec := ReliableLink_new sampleOptions ReliabilityOptions_default.
#[local] Instance plainCodec_laws : NetCodecLaws sampleCodec := packetCodec_laws sampleIso sampleSha.

Lemma plain_receive_never_fails_witness :
  ∃ l, doReceivePacketR smallMtu bigWire Ep_monostate plainLink = (Ok tt, set_rk_link l plainLink) ∧
    received_ok sampleLink l.
Proof.
  apply (plain_receive_never_fails smallMtu (w_bytes bigWire)).
  - reflexivity.
  - apply (bool_decide_unpack _). vm_compute. exact I.
  - vm_compute. reflexivity.
  - vm_compute. reflexivity.
  - exact sampleLink_ok.
  - right. exact sampleCodec_checked.
Defined.

Lemma plain_send_respects_mtu_witness :
  ∃ l, transmitR smallMtu sampleSend plainLink = (Ok tt, set_rk_link l plainLink) ∧ ls_sent l ≠ [] ∧
    Forall (fun w => (Wire_size w ≤ 100)%nat) (ls_sent l).
Proof.
  destruct (plain_send_respects_mtu smallMtu sampleSend 100 plainLink) as (l & E & Hout).
  - reflexivity.
  - exact sampleSend_ok.
  - exact sample_canSend.
  - exists l. split; [exact E|]. destruct Hout as [[Hno _]|(ws & Hs & Hne & Hsz & _)].
    + exfalso. apply (f_equal (fun x => rk_link x.2)) in E. cbn [snd rk_link set_rk_link] in E. subst l.
      revert Hno. vm_compute. discriminate.
    + rewrite Hs. split; [exact Hne|exact Hsz].
Defined.

Lemma plain_link_delivers_witness :
  ∃ r' e, deliverWiresR smallMtu Ep_monostate (ls_sent (rk_link (transmitR smallMtu sampleSend plainLink).2))
      [(5, 2%nat); (6, 0%nat); (7, 3%nat); (8, 1%nat); (9, 5%nat); (9, 4%nat)] plainLink = (Ok tt, r') ∧
    ls_received (rk_link r') = [e].
Proof.
  assert ((transmitR smallMtu sampleSend plainLink).1 = Ok tt) as H1 by (vm_compute; reflexivity).
  pose proof (surjective_pairing (transmitR smallMtu sampleSend plainLink)) as Htx. rewrite H1 in Htx.
  set (s' := (transmitR smallMtu sampleSend plainLink).2) in *.
  destruct (plain_link_delivers smallMtu smallMtu sampleSend (Some 100%nat) bigWire Ep_monostate
    [(5, 2%nat); (6, 0%nat); (7, 3%nat); (8, 1%nat); (9, 5%nat); (9, 4%nat)] plainLink s' plainLink (ls_sent (rk_link s')))
    as (r' & e & E & _ & Hrx & _).
  - reflexivity.
  - reflexivity.
  - exact sampleSend_ok.
  - exact sample_tagsFit.
  - exact sample_canSend.
  - exact Htx.
  - reflexivity.
  - vm_compute. discriminate.
  - apply (bool_decide_unpack _). vm_compute. exact I.
  - vm_compute. reflexivity.
  - exact sample_decodable.
  - exact sample_canReceive.
  - replace (length (ls_sent (rk_link s'))) with 6%nat by (vm_compute; reflexivity).
    apply (bool_decide_unpack _). vm_compute. exact I.
  - exists r', e. split; [exact E|exact Hrx].
Defined.
