(* ===== verification/RelScenario.v ===== *)
(** * Reliable links at work

    Two links with reliability on: a lost fragment is sent again, witnesses of
    the properties of [RelAcks] and [RelEvents], and packets dropped at the MTU. *)

From S2P Require Import Transport.
From S2P Require Import Prelude Tlv Component Name Encoding Packet LpPacket LpFragmenter LpReassembler GenericLinkService LinkSend LinkRoundtrip InterestWire DataWire PrefixAnn NetPackets.
From S2P Require Import RttEstimator LpReliability RelWindow RelInv ReliableLink RelAcks RelSafety RelEvents.
Local Open Scope Z_scope.

Definition relOptions : ReliabilityOptions := mkReliabilityOptions true 3 5000000 3.
Definition linkOptions (marking : bool) : LinkOptions :=
  mkLinkOptions false true FragmenterOptions_default true ReassemblerOptions_default marking
    (100 * 1000000) 65536 true (2 ^ 63 - 1).
Definition newLink (marking : bool) : ReliableLink sampleCodec := ReliableLink_new (linkOptions marking) relOptions.

(** What a link has sent, as the peer reads it. *)
Definition rxWire (w : Wire) : Wire := match Wire_ofSpan (w_bytes w) with Ok w' => w' | Fault _ => w end.
Definition runs (t : Transport) (evs : list LinkEvent) (s : ReliableLink sampleCodec) : ReliableLink sampleCodec :=
  (forE_ evs (runEvent t) s).2.
Definition receives (ws : list Wire) : list LinkEvent := map (fun w => EvReceive (rxWire w) Ep_monostate) ws.

(** ** A lost fragment *)

Definition dataSend : NetSend := TxData bigWire Tags_none.
(** Six fragments go out; the first is lost. *)
Definition sender1 : ReliableLink sampleCodec := runs smallMtu [EvSend dataSend] (newLink false).
(** The peer acknowledges the others when its timer runs out. *)
Definition receiver1 : ReliableLink sampleCodec :=
  runs smallMtu (receives (tail (ls_sent (rk_link sender1))) ++ [EvElapse 5000000; EvIdleAckTimer]) (newLink false).
Definition sender2 : ReliableLink sampleCodec :=
  runs smallMtu (EvElapse 10000000 :: receives (ls_sent (rk_link receiver1))) sender1.
(** The fragment sent again arrives, and its Ack comes back. *)
Definition receiver2 : ReliableLink sampleCodec :=
  runs smallMtu (receives (drop 6 (ls_sent (rk_link sender2))) ++ [EvElapse 5000000; EvIdleAckTimer]) receiver1.
Definition sender3 : ReliableLink sampleCodec :=
  runs smallMtu (receives (drop (length (ls_sent (rk_link receiver1))) (ls_sent (rk_link receiver2)))) sender2.

(** ** Packets dropped at the MTU *)

Definition dataOf (n : nat) : Wire :=
  match (Data_wireEncode (mkDataPkt [mkComponent 8 [65]] MetaInfo_new (Some (makeBinaryBlock tlv_Content (replicate n 7)))
    sampleSigInfo (Some (makeBinaryBlock tlv_SignatureValue [9])) None [])).1 with Ok w => w | Fault _ => mkWire 0 [] [] [] end.
Definition mtu277 : Transport := mkTransport 277 TransportState_UP (fun _ => 0).
(** A link that has two fragments to acknowledge. *)
Definition owesAck : ReliableLink sampleCodec :=
  runs mtu277 (receives (ls_sent (rk_link (runs mtu277 (replicate 2 (EvSend (TxData (dataOf 10) Tags_none))) (newLink false))))) (newLink false).
(** The send queue has been long for a while. *)
Definition congested : Transport := mkTransport 100 TransportState_UP (fun _ => 70000).
Definition owesAcks : ReliableLink sampleCodec :=
  runs congested (receives (ls_sent (rk_link (runs congested (replicate 11 (EvSend (TxData (dataOf 10) Tags_none))) (newLink true))))
    ++ [EvSend (TxData (dataOf 10) Tags_none); EvElapse 200000000]) (newLink true).

(** Every fragment but the first is acknowledged, the first is sent again, the
    peer gets the packet, and it is counted as retransmitted. *)
Example lost_fragment_recovered :
  length (ls_received (rk_link receiver1)) = 0%nat ∧ map fst (map_to_list (rl_unackedFrags (rk_rel sender2))) = [6] ∧
  length (ls_sent (rk_link sender2)) = 7%nat ∧ length (ls_received (rk_link receiver2)) = 1%nat ∧
  rk_counters sender3 nRetransmitted = 1 ∧ rk_counters sender3 nAcknowledged = 0 ∧ size (rl_unackedFrags (rk_rel sender3)) = 0%nat.
Proof. split_and!; vm_compute; reflexivity. Qed.

(** A Data that fits goes out when there is nothing to acknowledge; with two
    Acks in the queue the packet is two bytes over the MTU and dropped, and the
    Acks are gone. *)
Lemma piggyback_over_mtu :
  map Wire_size (ls_sent (rk_link (runs mtu277 [EvSend (TxData (dataOf 208) Tags_none)] (newLink false)))) = [253%nat] ∧
  let s := runs mtu277 [EvSend (TxData (dataOf 208) Tags_none)] owesAck in
  rl_ackQueue (rk_rel owesAck) = [0; 1] ∧ ls_sent (rk_link s) = [] ∧ ls_counters (rk_link s) nOutOverMtu = 1 ∧ rl_ackQueue (rk_rel s) = [].
Proof. cbv zeta. split_and!; vm_compute; reflexivity. Qed.
(** The Acks fill an IDLE packet up to the MTU, the congestion mark comes on top,
    and the Acks are gone. *)
Lemma marked_acks_over_mtu :
  let s := runs congested [EvIdleAckTimer] owesAcks in
  length (rl_ackQueue (rk_rel owesAcks)) = 8%nat ∧ length (ls_sent (rk_link s)) = length (ls_sent (rk_link owesAcks)) ∧
  ls_counters (rk_link s) nOutOverMtu = 1 ∧ rl_ackQueue (rk_rel s) = [].
Proof. cbv zeta. split_and!; vm_compute; reflexivity. Qed.

(** ** Witnesses *)

Lemma relOptions_ok : options_ok relOptions.
Proof. split; [done|cbn; lia]. Qed.
Lemma smallMtu_up marking : linkUp smallMtu (linkOptions marking) (Some 100%nat).
Proof. split; [by vm_compute|by left]. Qed.
Lemma smallMtu_enough : mtuEnough (Some 100%nat).
Proof. by vm_compute. Qed.
Lemma linkOptions_safe marking : announcementsSafe (C := sampleCodec) (linkOptions marking).
Proof. right. exact sampleCodec_checked. Qed.
Lemma dataSend_ok : event_ok (C := sampleCodec) (EvSend dataSend).
Proof.
  split; [|intros wire tags E; discriminate E]. destruct sampleSend_ok as (Hw & _). split_and!; [exact Hw|by split|done].
Qed.
Definition sampleEvents : list LinkEvent := [EvSend dataSend; EvElapse 1000000000; EvRtoTimer 0; EvReceive bigWire Ep_monostate; EvIdleAckTimer].
Lemma sampleEvents_ok : Forall (event_ok (C := sampleCodec)) sampleEvents.
Proof.
  constructor; [exact dataSend_ok|]. constructor; [done|]. constructor; [done|]. constructor; [|by constructor].
  exists (w_bytes bigWire). split_and!; [apply (bool_decide_unpack _); by vm_compute|by vm_compute|by vm_compute].
Qed.
#[local] Instance sampleCodec_laws : NetCodecLaws sampleCodec := packetCodec_laws sampleIso sampleSha.
Lemma sender1_inv : link_inv smallMtu (Some 100%nat) ∅ sender1.
Proof.
  apply (wpL_ok (forE_ [EvSend dataSend] (runEvent smallMtu)) tt (fun _ s => link_inv smallMtu (Some 100%nat) ∅ s)); [|by vm_compute].
  apply (runEvents_spec smallMtu (Some 100%nat) (L := sampleCodec_laws)); [|exact (Forall_cons_2 _ _ _ dataSend_ok (Forall_nil_2 _))].
  apply link_inv_new; [exact relOptions_ok|exact (smallMtu_up false)|exact smallMtu_enough|exact (linkOptions_safe false)].
Qed.

Lemma reliable_link_never_fails_witness :
  link_inv smallMtu (Some 100%nat) ∅ (runs smallMtu sampleEvents (newLink false)).
Proof.
  apply (wpL_ok (forE_ sampleEvents (runEvent smallMtu)) tt (fun _ s => link_inv smallMtu (Some 100%nat) ∅ s)).
  - apply (reliable_link_never_fails (L := sampleCodec_laws) smallMtu (Some 100%nat) (linkOptions false) relOptions sampleEvents).
    + exact relOptions_ok.
    + exact (smallMtu_up false).
    + exact smallMtu_enough.
    + exact (linkOptions_safe false).
    + exact sampleEvents_ok.
  - vm_compute. reflexivity.
Defined.

Lemma run_pair {S A} (m : ME S A) s a : (m s).1 = Ok a → m s = (Ok a, (m s).2).
Proof. destruct (m s). cbn. by intros ->. Qed.
Lemma packets_accounted_for_witness :
  u64 (rk_counters sender1 nAcknowledged + rk_counters sender1 nRetransmitted + rk_counters sender1 nRetxExhausted +
       Z.of_nat (size (liveNets (rl_unackedFrags (rk_rel sender1))))) = u64 (Z.of_nat (size (rl_netPkts (rk_rel sender1)))).
Proof.
  apply (packets_accounted_for (L := sampleCodec_laws) smallMtu (Some 100%nat) (linkOptions false) relOptions [EvSend dataSend]).
  - exact relOptions_ok.
  - exact (smallMtu_up false).
  - exact smallMtu_enough.
  - exact (linkOptions_safe false).
  - exact (Forall_cons_2 _ _ _ dataSend_ok (Forall_nil_2 _)).
  - apply (run_pair (forE_ [EvSend dataSend] (runEvent smallMtu)) (newLink false)). vm_compute. reflexivity.
Defined.

(** The first timer of [sender1] runs out. *)
Definition afterTimeout : ReliableLink sampleCodec := (onRtoTimer smallMtu 0 (set_rk_now (rk_now sender1 + 1000000000) sender1)).2.
Lemma sender1_timeout : timeouts smallMtu sender1 1 afterTimeout.
Proof.
  apply (timeouts_cons smallMtu sender1 1000000000 0 1000000000 afterTimeout 0 afterTimeout); [lia|by vm_compute|by vm_compute| |constructor].
  apply (run_pair (onRtoTimer smallMtu 0) (set_rk_now (rk_now sender1 + 1000000000) sender1) tt). by vm_compute.
Qed.
Lemma retransmissions_end_witness :
  (1 ≤ (Z.to_nat (ro_maxRetx (rl_options (rk_rel sender1))) + 1) * size (rl_unackedFrags (rk_rel sender1)))%nat ∧
  ∃ d k, match onRtoTimer smallMtu k (set_rk_now (rk_now afterTimeout + d) afterTimeout) with
         | (Ok _, s2) => timeouts smallMtu afterTimeout 1 s2
         | (Fault f, s2) => f = Throw LengthError ∧ exhausted s2
         end.
Proof.
  destruct (retransmissions_end smallMtu (Some 100%nat) sender1 1 afterTimeout sender1_inv sender1_timeout) as [H1 [H2|H2]].
  - exfalso. revert H2. vm_compute. discriminate.
  - split; [exact H1|exact H2].
Defined.

Lemma lost_after_later_acks_witness :
  ∃ first lost m', rl_firstUnackedFrag (rk_rel sender1) = Some first ∧
    findLostLpPackets 5 (rk_rel sender1) = (Ok lost, set_rl_unackedFrags m' (rk_rel sender1)).
Proof.
  destruct (lost_after_later_acks (rk_now sender1) ∅ (rk_rel sender1) 5) as (first & lost & m' & H1 & H2 & _).
  - exact (li_rel _ _ _ _ sender1_inv).
  - apply (bool_decide_unpack _). vm_compute. exact I.
  - exists first, lost, m'. split; [exact H1|exact H2].
Defined.

Lemma piggyback_within_mtu_witness :
  ∃ taken queue q', piggyback Packet_new 100 (rk_rel owesAck) = (Ok q', set_rl_ackQueue queue (rk_rel owesAck)) ∧
    [0; 1] = taken ++ queue ∧ (Wire_size (Packet_encodeWire q') ≤ 100)%nat.
Proof.
  destruct (piggyback_within_mtu Packet_new 100 (rk_rel owesAck)) as (taken & queue & q' & E & Hq & _ & _ & Hfit & _).
  - exact lpReady_new.
  - vm_compute. reflexivity.
  - vm_compute. reflexivity.
  - vm_compute. lia.
  - vm_compute. lia.
  - vm_compute. lia.
  - exists taken, queue, q'. split_and!; [exact E| |exact Hfit]. rewrite <-Hq. vm_compute. reflexivity.
Defined.

(** Five fragments have been received and the timer of their Acks is due. *)
Definition idleDue : ReliableLink sampleCodec :=
  runs smallMtu (receives (tail (ls_sent (rk_link sender1))) ++ [EvElapse 5000000]) (newLink false).
Lemma idle_timer_sends_acks_witness :
  ∃ s' groups, onIdleAckTimer smallMtu idleDue = (Ok tt, s') ∧ rl_ackQueue (rk_rel s') = [] ∧ mjoin groups = [1; 2; 3; 4; 5].
Proof.
  destruct (idle_timer_sends_acks smallMtu (Some 100%nat) idleDue 5000000) as (s' & groups & pkts & E & Hq & Hj & _).
  - assert (ls_options (rk_link idleDue) = linkOptions false) as -> by (vm_compute; reflexivity). exact (smallMtu_up false).
  - vm_compute. reflexivity.
  - vm_compute. reflexivity.
  - cbn. lia.
  - vm_compute. reflexivity.
  - vm_compute. discriminate.
  - exists s', groups. split_and!; [exact E|exact Hq|]. rewrite Hj. vm_compute. reflexivity.
Defined.

(** With the log level [TRACE] the first retransmission fails: the message reads
    the number of retransmissions through the reference to the entry that
    [deleteUnackedFrag] has erased. *)
Theorem trace_reads_erased :
  (onRtoTimer smallMtu 0 (set_rk_now (rk_now sender1 + 1000000000) (set_rk_trace true sender1))).1 = Fault UndefinedBehaviour ∧
  (onRtoTimer smallMtu 0 (set_rk_now (rk_now sender1 + 1000000000) sender1)).1 = Ok tt.
Proof. split; vm_compute; reflexivity. Qed.
