(* ===== verification/RibEntry.v ===== *)
(** * Routes and RIB entries
    (NFD [rib/route.hpp], [rib/route.cpp], [rib/rib-entry.hpp],
    [rib/rib-entry.cpp], [rib/rib-update.hpp], [rib/fib-update.cpp])

    A RIB entry is a shared object: its parent and its children are references
    ([RibRef]) into the heap of entries that [Rib.v] keeps.  A [std::list] of
    routes is a list; an iterator to a route is the route found. *)

From S2P Require Import Prelude Tlv Component Name PrefixAnn.
Local Open Scope Z_scope.

(** ** Routes *)

(** A pending event of the scheduler. *)
Abbreviation EventId := nat.

Record Route := mkRoute {
  rt_faceId : Z;
  rt_origin : Z;
  rt_cost : Z;
  rt_flags : Z;
  rt_expires : option Z;                     (* steady clock, nanoseconds *)
  rt_announcement : option PrefixAnnouncement;
  rt_annExpires : Z;
  rt_expirationEvent : option EventId
}.
Definition set_rt_expirationEvent v r :=
  mkRoute (rt_faceId r) (rt_origin r) (rt_cost r) (rt_flags r) (rt_expires r) (rt_announcement r)
    (rt_annExpires r) v.
(** The three fields [FibUpdater::computeUpdatesForRegistration] copies. *)
Definition set_rt_flags_cost_expires flags cost expires r :=
  mkRoute (rt_faceId r) (rt_origin r) cost flags expires (rt_announcement r)
    (rt_annExpires r) (rt_expirationEvent r).

Definition ROUTE_ORIGIN_APP : Z := 0.
Definition ROUTE_ORIGIN_PREFIXANN : Z := 129.
Definition ROUTE_ORIGIN_STATIC : Z := 255.
Definition ROUTE_FLAG_CHILD_INHERIT : Z := 1.
Definition ROUTE_FLAG_CAPTURE : Z := 2.
Definition PA_ROUTE_COST : Z := 2048.

(** [Route()]. *)
Definition Route_new : Route := mkRoute 0 ROUTE_ORIGIN_APP 0 0 None None 0 None.

(** [RouteFlagsTraits]. *)
Definition isChildInherit (r : Route) : bool :=
  bool_decide (Z.land (rt_flags r) ROUTE_FLAG_CHILD_INHERIT ≠ 0).
Definition isRibCapture (r : Route) : bool :=
  bool_decide (Z.land (rt_flags r) ROUTE_FLAG_CAPTURE ≠ 0).

(** Signed 64-bit arithmetic on clock values: overflow is undefined. *)
Definition checked_i64 (z : Z) : outcome Z :=
  if bool_decide (- 2 ^ 63 ≤ z < 2 ^ 63) then Ok z else Fault UndefinedBehaviour.

Definition NANOS_PER_MS : Z := 1000000.

(** [ValidityPeriod::isValid] for a time in nanoseconds; the bounds are kept in
    seconds and converted to the unit of [now]; [&&] does not evaluate what it
    need not. *)
Definition ValidityPeriod_isValid (p : ValidityPeriod) (now : Z) : outcome bool :=
  notBefore ← checked_i64 (vp_notBefore p * NANOS);
  if negb (bool_decide (notBefore ≤ now)) then Ok false
  else notAfter ← checked_i64 (vp_notAfter p * NANOS); Ok (bool_decide (now ≤ notAfter)).

(** [computeExpiration]; [sysNow] and [steadyNow] are the two clocks. *)
Definition computeExpiration (sysNow steadyNow : Z) (ann : PrefixAnnouncement) : outcome Z :=
  validityEnd ←
    match pa_validity ann with
    | Some p =>
        isValid ← ValidityPeriod_isValid p sysNow;
        if negb isValid then Ok 0 else checked_i64 (vp_notAfter p * NANOS - sysNow)
    | None => Ok time_point_max
    end;
  expiration ← checked_i64 (pa_expiration ann * NANOS_PER_MS);
  checked_i64 (steadyNow + Z.min validityEnd expiration).

(** [Route(ann, faceId)]. *)
Definition Route_fromAnnouncement (sysNow steadyNow : Z) (ann : PrefixAnnouncement) (faceId : Z)
  : outcome Route :=
  e ← computeExpiration sysNow steadyNow ann;
  Ok (mkRoute faceId ROUTE_ORIGIN_PREFIXANN PA_ROUTE_COST ROUTE_FLAG_CHILD_INHERIT (Some e)
        (Some ann) e None).

(** ** RIB entries *)

Abbreviation RibRef := nat.

Record RibEntry := mkRibEntry {
  re_name : Name;
  re_children : list RibRef;
  re_parent : option RibRef;
  re_routes : list Route;
  re_inheritedRoutes : list Route;
  re_nRoutesWithCaptureSet : Z
}.
Definition RibEntry_new : RibEntry := mkRibEntry [] [] None [] [] 0.
Definition set_re_name v e :=
  mkRibEntry v (re_children e) (re_parent e) (re_routes e) (re_inheritedRoutes e)
    (re_nRoutesWithCaptureSet e).
Definition set_re_children v e :=
  mkRibEntry (re_name e) v (re_parent e) (re_routes e) (re_inheritedRoutes e)
    (re_nRoutesWithCaptureSet e).
Definition set_re_parent v e :=
  mkRibEntry (re_name e) (re_children e) v (re_routes e) (re_inheritedRoutes e)
    (re_nRoutesWithCaptureSet e).
Definition set_re_routes v e :=
  mkRibEntry (re_name e) (re_children e) (re_parent e) v (re_inheritedRoutes e)
    (re_nRoutesWithCaptureSet e).
Definition set_re_inheritedRoutes v e :=
  mkRibEntry (re_name e) (re_children e) (re_parent e) (re_routes e) v
    (re_nRoutesWithCaptureSet e).
Definition set_re_nRoutesWithCaptureSet v e :=
  mkRibEntry (re_name e) (re_children e) (re_parent e) (re_routes e) (re_inheritedRoutes e) v.

Definition compareFaceIdAndOrigin (lhs rhs : Route) : bool :=
  bool_decide (rt_faceId lhs = rt_faceId rhs) && bool_decide (rt_origin lhs = rt_origin rhs).

Definition findRoute (e : RibEntry) (route : Route) : option Route :=
  List.find (fun r => compareFaceIdAndOrigin r route) (re_routes e).
Definition hasRoute (e : RibEntry) (route : Route) : bool :=
  match findRoute e route with Some _ => true | None => false end.

(** [insertRoute]: the entry, and whether the route was inserted. *)
Definition insertRoute (route : Route) (e : RibEntry) : RibEntry * bool :=
  match findRoute e route with
  | None =>
      let e := if isRibCapture route
               then set_re_nRoutesWithCaptureSet (u64 (re_nRoutesWithCaptureSet e + 1)) e else e in
      (set_re_routes (re_routes e ++ [route]) e, true)
  | Some _ => (e, false)
  end.

(** [eraseRoute]: the entry, and the expiration event that is cancelled. *)
Definition eraseRoute (route : Route) (e : RibEntry) : RibEntry * option EventId :=
  match findRoute e route with
  | Some r =>
      let e := if isRibCapture r
               then set_re_nRoutesWithCaptureSet (u64 (re_nRoutesWithCaptureSet e - 1)) e else e in
      (set_re_routes (removeFirst (fun r' => compareFaceIdAndOrigin r' route) (re_routes e)) e,
       rt_expirationEvent r)
  | None => (e, None)
  end.

Definition hasFaceId (e : RibEntry) (faceId : Z) : bool :=
  existsb (fun r => bool_decide (rt_faceId r = faceId)) (re_routes e).
Definition getNRoutes (e : RibEntry) : nat := length (re_routes e).

Definition re_addInheritedRoute (route : Route) (e : RibEntry) : RibEntry :=
  set_re_inheritedRoutes (re_inheritedRoutes e ++ [route]) e.
Definition re_removeInheritedRoute (route : Route) (e : RibEntry) : RibEntry :=
  set_re_inheritedRoutes
    (List.filter (fun r => negb (bool_decide (rt_faceId r = rt_faceId route))) (re_inheritedRoutes e)) e.
Definition findInheritedRoute (e : RibEntry) (route : Route) : option Route :=
  List.find (fun r => bool_decide (rt_faceId r = rt_faceId route)) (re_inheritedRoutes e).
Definition hasInheritedRoute (e : RibEntry) (route : Route) : bool :=
  match findInheritedRoute e route with Some _ => true | None => false end.

Definition hasCapture (e : RibEntry) : bool := bool_decide (0 < re_nRoutesWithCaptureSet e).
Definition hasChildInheritOnFaceId (e : RibEntry) (faceId : Z) : bool :=
  existsb (fun r => bool_decide (rt_faceId r = faceId) && isChildInherit r) (re_routes e).

(** The loop of the two [getRouteWithLowestCost…] functions over the routes
    that [p] selects. *)
Fixpoint lowestCost_loop (p : Route → bool) (candidate : option Route) (l : list Route) : option Route :=
  match l with
  | [] => candidate
  | r :: l' =>
      let candidate :=
        if p r then
          match candidate with
          | None => Some r
          | Some c => if bool_decide (rt_cost r < rt_cost c) then Some r else Some c
          end
        else candidate in
      lowestCost_loop p candidate l'
  end.
Definition getRouteWithLowestCostByFaceId (e : RibEntry) (faceId : Z) : option Route :=
  lowestCost_loop (fun r => bool_decide (rt_faceId r = faceId)) None (re_routes e).
Definition getRouteWithLowestCostAndChildInheritByFaceId (e : RibEntry) (faceId : Z) : option Route :=
  lowestCost_loop (fun r => bool_decide (rt_faceId r = faceId) &&
    bool_decide (Z.land (rt_flags r) ROUTE_FLAG_CHILD_INHERIT = ROUTE_FLAG_CHILD_INHERIT))
    None (re_routes e).

(** [std::nth_element] puts at position 1 the element that sorting puts there;
    among routes of one cost the first registered is taken. *)
Definition routeCost_le (r1 r2 : Route) : Prop := rt_cost r1 ≤ rt_cost r2.
#[export] Instance routeCost_le_dec r1 r2 : Decision (routeCost_le r1 r2).
Proof. unfold routeCost_le. apply _. Defined.
Definition getRouteWithSecondLowestCostByFaceId (e : RibEntry) (faceId : Z) : option Route :=
  let matches := List.filter (fun r => bool_decide (rt_faceId r = faceId)) (re_routes e) in
  if bool_decide (length matches < 2)%nat then None
  else merge_sort routeCost_le matches !! 1%nat.

(** [getPrefixAnnouncement] at steady time [now]. *)
Fixpoint bestAnnouncement (l : list Route) (best : option (Route * Z)) (entryExpiry : Z)
  : option (Route * Z) * Z :=
  match l with
  | [] => (best, entryExpiry)
  | r :: l' =>
      match rt_expires r with
      | Some x =>
          let best :=
            match rt_announcement r with
            | Some _ =>
                match best with
                | None => Some (r, x)
                | Some (_, x0) => if bool_decide (x > x0) then Some (r, x) else best
                end
            | None => best
            end in
          bestAnnouncement l' best (Z.max entryExpiry x)
      | None => bestAnnouncement l' best time_point_max
      end
  end.
Definition getPrefixAnnouncement (now minExpiration maxExpiration : Z) (e : RibEntry)
  : outcome PrefixAnnouncement :=
  match bestAnnouncement (re_routes e) None time_point_min with
  | (Some (r, _), _) =>
      match rt_announcement r with Some a => Ok a | None => Fault UndefinedBehaviour end
  | (None, entryExpiry) =>
      d ← checked_i64 (entryExpiry - now);
      if bool_decide (maxExpiration < minExpiration) then Fault UndefinedBehaviour
      else Ok (mkPrefixAnnouncement None (re_name e)
                 (Z.min (Z.max (Z.quot d NANOS_PER_MS) minExpiration) maxExpiration) None)
  end.

(** ** Updates *)

Inductive RibUpdateAction : Type := REGISTER | UNREGISTER | REMOVE_FACE.
Record RibUpdate := mkRibUpdate {
  ru_action : RibUpdateAction;
  ru_name : Name;
  ru_route : Route
}.

(** [RibUpdateBatch], and [add], which asserts the face. *)
Record RibUpdateBatch := mkRibUpdateBatch {
  rub_faceId : Z;
  rub_updates : list RibUpdate
}.
Definition RibUpdateBatch_add (u : RibUpdate) (b : RibUpdateBatch) : outcome RibUpdateBatch :=
  if bool_decide (rub_faceId b = rt_faceId (ru_route u))
  then Ok (mkRibUpdateBatch (rub_faceId b) (rub_updates b ++ [u])) else Fault AssertFailed.

Inductive FibUpdateAction : Type := ADD_NEXTHOP | REMOVE_NEXTHOP.
#[export] Instance FibUpdateAction_eq_dec : EqDecision FibUpdateAction.
Proof. solve_decision. Defined.
Record FibUpdate := mkFibUpdate {
  fu_name : Name;
  fu_faceId : Z;
  fu_cost : Z;
  fu_action : FibUpdateAction
}.
#[export] Instance FibUpdate_eq_dec : EqDecision FibUpdate.
Proof. solve_decision. Defined.
Definition createAddUpdate (name : Name) (faceId cost : Z) : FibUpdate :=
  mkFibUpdate name faceId cost ADD_NEXTHOP.
Definition createRemoveUpdate (name : Name) (faceId : Z) : FibUpdate :=
  mkFibUpdate name faceId 0 REMOVE_NEXTHOP.

(** ** Sets of routes ordered by face ([Rib::RouteSet])

    The comparison [sortRoutes] looks at the face only, so a set holds one
    route per face and [insert] keeps the one that is already there. *)
Abbreviation RouteSet := (list Route).
Fixpoint routeSet_insert (route : Route) (s : RouteSet) : RouteSet :=
  match s with
  | [] => [route]
  | r :: s' =>
      if bool_decide (rt_faceId route < rt_faceId r) then route :: s
      else if bool_decide (rt_faceId r < rt_faceId route) then r :: routeSet_insert route s'
      else s
  end.
Definition routeSet_find (route : Route) (s : RouteSet) : option Route :=
  List.find (fun r => bool_decide (rt_faceId r = rt_faceId route)) s.
Definition routeSet_erase (route : Route) (s : RouteSet) : RouteSet :=
  List.filter (fun r => negb (bool_decide (rt_faceId r = rt_faceId route))) s.
