(* ===== verification/Rib.v ===== *)
(** * The Routing Information Base (NFD [rib/rib.hpp], [rib/rib.cpp])

    The entries are objects of a heap; the table [m_rib] maps a name to the
    entry's reference and is kept in the order of names, as [std::map] keeps
    it.  [m_faceEntries] is the multimap from a face to the entries with a
    route on it; it can refer to entries that have left the table.  The signals
    and the cancelled expiration events are recorded in the order they occur. *)

From S2P Require Import Prelude Tlv Component Name RibEntry.
Local Open Scope Z_scope.

Inductive RibSignal : Type :=
| AfterInsertEntry (n : Name)
| AfterEraseEntry (n : Name)
| AfterAddRoute (r : RibRef) (route : Route)
| BeforeRemoveRoute (r : RibRef) (route : Route)
| CancelExpirationEvent (e : EventId).

(** The manager's callbacks are known by a number. *)
Abbreviation CallbackId := nat.
Record UpdateQueueItem := mkUpdateQueueItem {
  uq_batch : RibUpdateBatch;
  uq_successCb : option CallbackId;
  uq_failureCb : option CallbackId
}.

Record Rib := mkRib {
  rb_heap : gmap RibRef RibEntry;
  rb_rib : list (Name * RibRef);
  rb_faceEntries : list (Z * RibRef);
  rb_nItems : Z;
  rb_updateBatches : list UpdateQueueItem;
  rb_isUpdateInProgress : bool;
  rb_signals : list RibSignal
}.
Definition Rib_init : Rib := mkRib ∅ [] [] 0 [] false [].
Definition set_rb_heap v s :=
  mkRib v (rb_rib s) (rb_faceEntries s) (rb_nItems s) (rb_updateBatches s)
    (rb_isUpdateInProgress s) (rb_signals s).
Definition set_rb_rib v s :=
  mkRib (rb_heap s) v (rb_faceEntries s) (rb_nItems s) (rb_updateBatches s)
    (rb_isUpdateInProgress s) (rb_signals s).
Definition set_rb_faceEntries v s :=
  mkRib (rb_heap s) (rb_rib s) v (rb_nItems s) (rb_updateBatches s)
    (rb_isUpdateInProgress s) (rb_signals s).
Definition set_rb_nItems v s :=
  mkRib (rb_heap s) (rb_rib s) (rb_faceEntries s) v (rb_updateBatches s)
    (rb_isUpdateInProgress s) (rb_signals s).
Definition set_rb_updateBatches v s :=
  mkRib (rb_heap s) (rb_rib s) (rb_faceEntries s) (rb_nItems s) v
    (rb_isUpdateInProgress s) (rb_signals s).
Definition set_rb_isUpdateInProgress v s :=
  mkRib (rb_heap s) (rb_rib s) (rb_faceEntries s) (rb_nItems s) (rb_updateBatches s)
    v (rb_signals s).
Definition emit (g : RibSignal) (s : Rib) : Rib :=
  mkRib (rb_heap s) (rb_rib s) (rb_faceEntries s) (rb_nItems s) (rb_updateBatches s)
    (rb_isUpdateInProgress s) (rb_signals s ++ [g]).

(** ** The containers *)

(** [std::map<Name, …>]: lookup, [operator[]] on a new key, erase, and the
    elements after a key. *)
Fixpoint tableFind (n : Name) (l : list (Name * RibRef)) : option RibRef :=
  match l with
  | [] => None
  | (n', r) :: l' => if bool_decide (n' = n) then Some r else tableFind n l'
  end.
Fixpoint tableInsert (n : Name) (r : RibRef) (l : list (Name * RibRef)) : list (Name * RibRef) :=
  match l with
  | [] => [(n, r)]
  | (n', r') :: l' =>
      match name_cmp n n' with
      | Lt => (n, r) :: l
      | Eq => (n, r) :: l'
      | Gt => (n', r') :: tableInsert n r l'
      end
  end.
Definition tableErase (n : Name) (l : list (Name * RibRef)) : list (Name * RibRef) :=
  List.filter (fun nr => negb (bool_decide (nr.1 = n))) l.
Fixpoint tableAfter (n : Name) (l : list (Name * RibRef)) : list (Name * RibRef) :=
  match l with
  | [] => []
  | (n', _) :: l' => if bool_decide (n' = n) then l' else tableAfter n l'
  end.

(** [std::multimap<uint64_t, …>]: [emplace] puts a pair after those of its key. *)
Fixpoint faceEmplace (f : Z) (r : RibRef) (l : list (Z * RibRef)) : list (Z * RibRef) :=
  match l with
  | [] => [(f, r)]
  | (f', r') :: l' =>
      if bool_decide (f < f') then (f, r) :: l else (f', r') :: faceEmplace f r l'
  end.
Definition faceRange (f : Z) (l : list (Z * RibRef)) : list (Z * RibRef) :=
  List.filter (fun fr => bool_decide (fr.1 = f)) l.

(** ** Access to the entries *)

Definition getEntry (r : RibRef) : M Rib RibEntry := s ← get; deref (rb_heap s !! r).
Definition setEntry (r : RibRef) (f : RibEntry → RibEntry) : M Rib unit :=
  e ← getEntry r; modify (fun s => set_rb_heap (<[r := f e]> (rb_heap s)) s).

(** [RibEntry::addChild] and [RibEntry::removeChild]. *)
Definition addChild (this child : RibRef) : M Rib unit :=
  c ← getEntry child;
  assertM (bool_decide (re_parent c = None));;
  setEntry child (set_re_parent (Some this));;
  setEntry this (fun e => set_re_children (re_children e ++ [child]) e).
Definition removeChild (this child : RibRef) : M Rib unit :=
  c ← getEntry child;
  assertM (bool_decide (re_parent c = Some this));;
  setEntry child (set_re_parent None);;
  setEntry this (fun e =>
    set_re_children (List.filter (fun x => negb (bool_decide (x = child))) (re_children e)) e).

(** ** Lookup *)

Definition Rib_find (s : Rib) (prefix : Name) : option RibRef := tableFind prefix (rb_rib s).

(** [find(prefix, route)]. *)
Definition Rib_findRoute (prefix : Name) (route : Route) : M Rib (option Route) :=
  s ← get;
  match Rib_find s prefix with
  | Some r => e ← getEntry r; mret (findRoute e route)
  | None => mret None
  end.

(** [findParent]: the loop over the proper prefixes, longest first. *)
Fixpoint findParent_loop (s : Rib) (prefix : Name) (k : nat) : option RibRef :=
  match k with
  | O => None
  | S i =>
      match Rib_find s (getPrefix prefix (Z.of_nat i)) with
      | Some r => Some r
      | None => findParent_loop s prefix i
      end
  end.
Definition findParent (s : Rib) (prefix : Name) : option RibRef :=
  findParent_loop s prefix (length prefix).

Definition findLongestPrefix (prefix : Name) (route : Route) : M Rib (option Route) :=
  existing ← Rib_findRoute prefix route;
  match existing with
  | Some r => mret (Some r)
  | None =>
      s ← get;
      match findParent s prefix with
      | Some p => e ← getEntry p; Rib_findRoute (re_name e) route
      | None => mret None
      end
  end.

Fixpoint takeDescendants (prefix : Name) (l : list (Name * RibRef)) : list RibRef :=
  match l with
  | [] => []
  | (n, r) :: l' => if isPrefixOf prefix n then r :: takeDescendants prefix l' else []
  end.
Definition findDescendants (s : Rib) (prefix : Name) : list RibRef :=
  match Rib_find s prefix with
  | Some _ => takeDescendants prefix (tableAfter prefix (rb_rib s))
  | None => []
  end.
Definition findDescendantsForNonInsertedName (s : Rib) (prefix : Name) : list RibRef :=
  map snd (List.filter (fun nr => isPrefixOf prefix nr.1) (rb_rib s)).

(** ** Insertion and removal *)

Definition cancelEvent (ev : option EventId) : M Rib unit :=
  match ev with Some i => modify (emit (CancelExpirationEvent i)) | None => mret tt end.

(** [insert] when the name is in the table. *)
Definition insertExisting (r : RibRef) (route : Route) : M Rib unit :=
  e ← getEntry r;
  let '(e', didInsert) := insertRoute route e in
  setEntry r (fun _ => e');;
  if didInsert : bool then
    modify (fun s => set_rb_nItems (u64 (rb_nItems s + 1)) s);;
    modify (emit (AfterAddRoute r route));;
    modify (fun s => set_rb_faceEntries (faceEmplace (rt_faceId route) r (rb_faceEntries s)) s)
  else
    old ← deref (findRoute e route);
    cancelEvent (rt_expirationEvent old);;
    setEntry r (fun e =>
      set_re_routes (updateFirst (fun r' => compareFaceIdAndOrigin r' route) (fun _ => route)
                       (re_routes e)) e).
(** The loop over the descendants of a new entry. *)
Definition adoptChild (parent : option RibRef) (this child : RibRef) : M Rib unit :=
  c ← getEntry child;
  if bool_decide (re_parent c = parent) then
    (match parent with Some p => removeChild p child | None => mret tt end);;
    addChild this child
  else mret tt.
Definition insertNew (prefix : Name) (route : Route) : M Rib unit :=
  s ← get;
  let r := fresh (dom (rb_heap s)) in
  modify (fun s => set_rb_heap (<[r := RibEntry_new]> (rb_heap s)) s);;
  modify (fun s => set_rb_rib (tableInsert prefix r (rb_rib s)) s);;
  modify (fun s => set_rb_nItems (u64 (rb_nItems s + 1)) s);;
  setEntry r (set_re_name prefix);;
  setEntry r (fun e => (insertRoute route e).1);;
  s ← get;
  let parent := findParent s prefix in
  (match parent with Some p => addChild p r | None => mret tt end);;
  s ← get;
  forM_ (findDescendants s prefix) (adoptChild parent r);;
  modify (fun s => set_rb_faceEntries (faceEmplace (rt_faceId route) r (rb_faceEntries s)) s);;
  modify (emit (AfterInsertEntry prefix));;
  modify (emit (AfterAddRoute r route)).
Definition Rib_insert (prefix : Name) (route : Route) : M Rib unit :=
  s ← get;
  match Rib_find s prefix with
  | Some r => insertExisting r route
  | None => insertNew prefix route
  end.

(** [eraseEntry]; the loop removes the child it stands on, after having
    advanced. *)
Definition eraseEntry (r : RibRef) (prefix : Name) : M Rib unit :=
  e ← getEntry r;
  let parent := re_parent e in
  (match parent with Some p => removeChild p r | None => mret tt end);;
  forM_ (re_children e) (fun child =>
    removeChild r child;;
    match parent with Some p => addChild p child | None => mret tt end);;
  modify (fun s => set_rb_rib (tableErase prefix (rb_rib s)) s);;
  modify (emit (AfterEraseEntry (re_name e))).

Definition Rib_erase (prefix : Name) (route : Route) : M Rib unit :=
  s ← get;
  match Rib_find s prefix with
  | None => mret tt
  | Some r =>
      e ← getEntry r;
      match findRoute e route with
      | None => mret tt
      | Some found =>
          modify (emit (BeforeRemoveRoute r found));;
          let '(e', ev) := eraseRoute route e in
          setEntry r (fun _ => e');;
          cancelEvent ev;;
          modify (fun s => set_rb_nItems (u64 (rb_nItems s - 1)) s);;
          (if negb (hasFaceId e' (rt_faceId route))
           then modify (fun s => set_rb_faceEntries
                  (removeFirst (fun fr => bool_decide (fr = (rt_faceId route, r))) (rb_faceEntries s)) s)
           else mret tt);;
          if bool_decide (re_routes e' = []) then eraseEntry r prefix else mret tt
      end
  end.

(** ** Inherited routes *)

(** [getAncestorRoutes]: the walk from [parent] to the root; [fuel] bounds the
    number of entries visited. *)
Definition childInheritRoutes (e : RibEntry) (s : RouteSet) : RouteSet :=
  fold_left (fun s r => if isChildInherit r then routeSet_insert r s else s) (re_routes e) s.
Fixpoint ancestorRoutes_loop (fuel : nat) (h : gmap RibRef RibEntry) (parent : option RibRef)
    (acc : RouteSet) : outcome RouteSet :=
  match parent with
  | None => Ok acc
  | Some p =>
      match fuel with
      | O => Fault Diverges
      | S fuel' =>
          match h !! p with
          | None => Fault UndefinedBehaviour
          | Some e =>
              let acc := childInheritRoutes e acc in
              if hasCapture e then Ok acc else ancestorRoutes_loop fuel' h (re_parent e) acc
          end
      end
  end.
(** Every step goes to an entry with a shorter name; there are at most as many
    as there are entries. *)
Definition ribFuel (s : Rib) : nat := S (length (rb_rib s)).
Definition getAncestorRoutes (s : Rib) (e : RibEntry) : outcome RouteSet :=
  ancestorRoutes_loop (ribFuel s) (rb_heap s) (re_parent e) [].
Definition getAncestorRoutes_name (s : Rib) (name : Name) : outcome RouteSet :=
  ancestorRoutes_loop (ribFuel s) (rb_heap s) (findParent s name) [].

(** [modifyInheritedRoutes]. *)
Definition modifyInheritedRoutes (inheritedRoutes : list RibUpdate) : M Rib unit :=
  forM_ inheritedRoutes (fun u =>
    s ← get;
    match Rib_find s (ru_name u) with
    | None => raise AssertFailed
    | Some r =>
        match ru_action u with
        | REGISTER => setEntry r (re_addInheritedRoute (ru_route u))
        | UNREGISTER => setEntry r (re_removeInheritedRoute (ru_route u))
        | REMOVE_FACE => mret tt
        end
    end).

(** ** The queue of updates *)

Definition addUpdateToQueue (u : RibUpdate) (onSuccess onFailure : option CallbackId) : M Rib unit :=
  b ← lift (RibUpdateBatch_add u (mkRibUpdateBatch (rt_faceId (ru_route u)) []));
  modify (fun s => set_rb_updateBatches
    (rb_updateBatches s ++ [mkUpdateQueueItem b onSuccess onFailure]) s).
Definition enqueueRemoveFace (r : RibRef) (faceId : Z) : M Rib unit :=
  e ← getEntry r;
  forM_ (re_routes e) (fun route =>
    if bool_decide (rt_faceId route ≠ faceId) then mret tt
    else addUpdateToQueue (mkRibUpdate REMOVE_FACE (re_name e) route) None None).
(** [beginRemoveFace] and [beginRemoveFailedFaces] before they send. *)
Definition enqueueRemoveFaces (faceId : Z) : M Rib unit :=
  s ← get;
  forM_ (faceRange faceId (rb_faceEntries s)) (fun fr => enqueueRemoveFace fr.2 faceId).
Definition enqueueRemoveFailedFaces (activeFaceIds : gset Z) : M Rib unit :=
  s ← get;
  forM_ (rb_faceEntries s) (fun fr =>
    if bool_decide (fr.1 ∈ activeFaceIds) then mret tt else enqueueRemoveFace fr.2 fr.1).
