(* ===== verification/RibTree.v ===== *)
(** * The tree of RIB entries

    The table's invariant: the parent of an entry is the entry of its longest
    proper prefix in the table, and the children lists are the inverse of the
    parents.  [Rib::insert] and [Rib::erase] keep it, never fail one of the
    assertions of [addChild] and [removeChild], and act on the table as
    insertion and removal of one route act on a map from names to routes. *)

From S2P Require Import Prelude Tlv Component Name RibEntry Rib.
Local Open Scope Z_scope.

(** ** The table *)

Definition sprefix (p n : Name) : Prop := p `prefix_of` n ∧ p ≠ n.

Lemma sprefix_length p n : sprefix p n → (length p < length n)%nat.
Proof.
  intros [Hp Hne]. pose proof (prefix_length _ _ Hp).
  destruct (decide (length p = length n)) as [E|]; [|lia].
  destruct Hne. apply prefix_length_eq; [done|lia].
Qed.
Lemma sprefix_trans p q n : sprefix p q → sprefix q n → sprefix p n.
Proof.
  intros H1 H2. pose proof (sprefix_length _ _ H1). pose proof (sprefix_length _ _ H2).
  split; [by etrans; [apply H1|apply H2]|]. intros ->. lia.
Qed.
Lemma sprefix_prefix_trans p q n : sprefix p q → q `prefix_of` n → sprefix p n.
Proof.
  intros H1 H2. pose proof (sprefix_length _ _ H1). pose proof (prefix_length _ _ H2).
  split; [by etrans; [apply H1|]|]. intros ->. lia.
Qed.
(** Two prefixes of one name are comparable. *)
Lemma prefixes_linear p q n : p `prefix_of` n → q `prefix_of` n → p `prefix_of` q ∨ sprefix q p.
Proof.
  intros Hp Hq. destruct (prefix_weak_total p q n Hp Hq) as [|H]; [by left|].
  destruct (decide (q = p)) as [->|]; [by left|right; by split].
Qed.

Lemma sprefix_lt p n : sprefix p n → name_cmp p n = Lt.
Proof.
  intros [[k ->] Hne]. pose proof (name_cmp_app_lt p k) as H.
  destruct (name_cmp p (p ++ k)) eqn:E; [|done..]. apply name_cmp_eq in E. done.
Qed.
(** The names with a given prefix are contiguous in the order of names. *)
Lemma prefix_contiguous p n1 n2 :
  name_cmp p n1 ≠ Gt → name_cmp n1 n2 = Lt → p `prefix_of` n2 → p `prefix_of` n1.
Proof.
  unfold name_cmp. intros H1 H2 [k ->]. revert n1 H1 H2.
  induction p as [|c p IH]; intros [|c1 n1]; simpl; try done; [intros; by eexists|].
  intros H1 H2. rewrite (comp_cmp_antisym c c1) in H2. destruct (comp_cmp c c1) eqn:E; simpl in *; try done.
  apply comp_cmp_eq in E as ->. by apply prefix_cons, IH.
Qed.

Definition tableLt (a b : Name * RibRef) : Prop := name_cmp a.1 b.1 = Lt.
Abbreviation tableSorted := (StronglySorted tableLt).

Lemma name_cmp_irrefl n : name_cmp n n ≠ Lt.
Proof. by rewrite name_cmp_refl. Qed.

Lemma tableFind_Some l n r : tableSorted l → tableFind n l = Some r ↔ (n, r) ∈ l.
Proof.
  induction l as [|[n' r'] l IH]; cbn [tableFind].
  { intros _. split; [done|by intros ?%not_elem_of_nil]. }
  intros [Hs Hf]%StronglySorted_inv. rewrite elem_of_cons.
  case_bool_decide as E; subst.
  - split; [intros [= ->]; by left|]. intros [[= <-]|Hin]; [done|].
    rewrite Forall_forall in Hf. destruct (name_cmp_irrefl n). exact (Hf (n, r) Hin).
  - rewrite IH by done. naive_solver.
Qed.
Lemma tableFind_insert l n r m :
  tableFind m (tableInsert n r l) = if bool_decide (m = n) then Some r else tableFind m l.
Proof.
  induction l as [|[n' r'] l IH]; cbn [tableInsert tableFind].
  { repeat case_bool_decide; congruence. }
  destruct (name_cmp n n') eqn:E; cbn [tableFind].
  - apply name_cmp_eq in E as ->. repeat case_bool_decide; congruence.
  - repeat case_bool_decide; congruence.
  - rewrite IH. repeat case_bool_decide; try congruence. subst. by rewrite name_cmp_refl in E.
Qed.
Lemma tableFind_erase l n m :
  tableFind m (tableErase n l) = if bool_decide (m = n) then None else tableFind m l.
Proof.
  induction l as [|[n' r'] l IH]; cbn [tableErase List.filter tableFind fst].
  { by case_bool_decide. }
  fold (tableErase n l). repeat case_bool_decide; subst; cbn [negb tableFind]; rewrite ?IH;
    repeat case_bool_decide; congruence.
Qed.
Lemma tableSorted_erase n l : tableSorted l → tableSorted (tableErase n l).
Proof.
  induction 1 as [|a l Hs IH Hf]; cbn [tableErase List.filter]; [constructor|].
  fold (tableErase n l). destruct (negb _); [|done]. constructor; [done|].
  rewrite Forall_forall in Hf |- *. intros x Hx. apply Hf.
  apply list_elem_of_In, filter_In in Hx as [Hx _]. by apply list_elem_of_In.
Qed.
Lemma elem_of_tableInsert n r l x :
  x ∈ tableInsert n r l → x = (n, r) ∨ x ∈ l.
Proof.
  induction l as [|[n' r'] l IH]; cbn [tableInsert]; [intros ->%list_elem_of_singleton; by left|].
  destruct (name_cmp n n'); rewrite ?elem_of_cons; naive_solver.
Qed.
Lemma tableSorted_insert n r l : tableSorted l → tableSorted (tableInsert n r l).
Proof.
  induction 1 as [|[n' r'] l Hs IH Hf]; cbn [tableInsert]; [repeat constructor|].
  rewrite Forall_forall in Hf. destruct (name_cmp n n') eqn:E.
  - apply name_cmp_eq in E as ->. constructor; [done|]. rewrite Forall_forall. intros x Hx.
    exact (Hf x Hx).
  - constructor; [constructor; [done|by apply Forall_forall]|].
    rewrite Forall_forall. intros x [->|Hx]%elem_of_cons; [done|].
    eapply name_cmp_trans; [exact E|]. exact (Hf x Hx).
  - constructor; [done|]. rewrite Forall_forall. intros x [->|Hx]%elem_of_tableInsert; [|by apply Hf].
    unfold tableLt. cbn [fst]. by rewrite name_cmp_antisym, E.
Qed.

(** [findDescendants] finds the entries under a name, each once. *)
Lemma elem_of_takeDescendants p l x :
  tableSorted l → (∀ nr, nr ∈ l → name_cmp p nr.1 = Lt) →
  x ∈ takeDescendants p l ↔ ∃ n, (n, x) ∈ l ∧ p `prefix_of` n.
Proof.
  induction 1 as [|[n r] l Hs IH Hf]; intros Hp; cbn [takeDescendants].
  { split; [by intros ?%not_elem_of_nil|]. by intros (? & ?%not_elem_of_nil & _). }
  rewrite Forall_forall in Hf. destruct (isPrefixOf p n) eqn:E.
  - apply isPrefixOf_spec in E. rewrite elem_of_cons, IH by (intros; apply Hp; by right).
    setoid_rewrite elem_of_cons. split; [|naive_solver].
    intros [->|(m & ? & ?)]; [exists n|exists m]; auto.
  - split; [by intros ?%not_elem_of_nil|]. intros (m & Hm & Hpm).
    enough (isPrefixOf p n = true) by congruence. apply isPrefixOf_spec.
    apply elem_of_cons in Hm as [[= -> ->]|Hm]; [done|].
    eapply prefix_contiguous; [..|exact Hpm]; [|exact (Hf _ Hm)].
    pose proof (Hp (n, r) ltac:(by left)) as Hlt. simpl in Hlt. by rewrite Hlt.
Qed.
Lemma takeDescendants_sublist p l : takeDescendants p l `sublist_of` map snd l.
Proof.
  induction l as [|[n r] l IH]; cbn [takeDescendants map snd]; [done|].
  destruct (isPrefixOf p n); [by apply sublist_skip|]. apply sublist_nil_l.
Qed.
Lemma tableAfter_spec p l r :
  tableSorted l → (p, r) ∈ l →
  tableSorted (tableAfter p l) ∧ tableAfter p l `sublist_of` l ∧
  ∀ nr, nr ∈ tableAfter p l ↔ nr ∈ l ∧ name_cmp p nr.1 = Lt.
Proof.
  induction 1 as [|[n r'] l Hs IH Hf]; cbn [tableAfter]; [by intros ?%not_elem_of_nil|].
  rewrite Forall_forall in Hf. case_bool_decide as E; [subst n; intros _|].
  - split_and!; [done|by apply sublist_cons|]. intros nr. rewrite elem_of_cons. split.
    + intros Hin. split; [by right|]. exact (Hf _ Hin).
    + intros [[->|?] Hlt]; [|done]. by destruct (name_cmp_irrefl p).
  - intros [[= -> ->]|Hin]%elem_of_cons; [done|].
    destruct (IH Hin) as (H1 & H2 & H3). split_and!; [done|by apply sublist_cons|].
    intros nr. rewrite H3, elem_of_cons. split; [naive_solver|].
    intros [[->|?] Hlt]; [|done]. pose proof (Hf _ Hin) as Hlt'. unfold tableLt in Hlt'. simpl in *.
    destruct (name_cmp_irrefl n). eapply name_cmp_trans; [exact Hlt'|exact Hlt].
Qed.
Lemma findDescendants_spec s p r x :
  tableSorted (rb_rib s) → Rib_find s p = Some r →
  x ∈ findDescendants s p ↔ ∃ n, Rib_find s n = Some x ∧ sprefix p n.
Proof.
  intros Hs Hr. unfold findDescendants, Rib_find in *. rewrite Hr.
  apply tableFind_Some in Hr as Hin; [|done].
  destruct (tableAfter_spec _ _ _ Hs Hin) as (H1 & _ & H3).
  rewrite elem_of_takeDescendants; [|done|intros nr Hnr; by apply H3].
  split; intros (n & Hn & Hp); exists n; [|].
  - apply H3 in Hn as [Hn Hlt]. rewrite tableFind_Some by done. repeat split; try done.
    intros ->. by apply name_cmp_irrefl in Hlt.
  - apply tableFind_Some in Hn; [|done]. split; [|apply Hp]. apply H3. split; [done|].
    by apply sprefix_lt.
Qed.
Lemma findDescendants_NoDup s p :
  tableSorted (rb_rib s) → NoDup (map snd (rb_rib s)) → NoDup (findDescendants s p).
Proof.
  intros Hs Hnd. unfold findDescendants, Rib_find. destruct (tableFind p _) as [r|] eqn:Hr; [|constructor].
  apply tableFind_Some in Hr; [|done]. destruct (tableAfter_spec _ _ _ Hs Hr) as (_ & H2 & _).
  eapply sublist_NoDup; [exact Hnd|]. etrans; [apply takeDescendants_sublist|].
  by apply (fmap_sublist snd).
Qed.

(** ** Parents *)

(** [p] is the longest proper prefix of [n] in the table. *)
Definition isParent (s : Rib) (n p : Name) : Prop :=
  sprefix p n ∧ is_Some (Rib_find s p) ∧
  ∀ q, sprefix q n → is_Some (Rib_find s q) → q `prefix_of` p.

Abbreviation smallName n := (Name_size n < 2 ^ 31).

Lemma findParent_loop_spec s n k :
  smallName n → (k ≤ length n)%nat →
  match findParent_loop s n k with
  | Some r => ∃ i, (i < k)%nat ∧ Rib_find s (take i n) = Some r ∧
                   ∀ j, (i < j < k)%nat → Rib_find s (take j n) = None
  | None => ∀ j, (j < k)%nat → Rib_find s (take j n) = None
  end.
Proof.
  intros Hn. induction k as [|k IH]; intros Hk; cbn [findParent_loop]; [lia|].
  rewrite getPrefix_nonneg by lia.
  destruct (Rib_find s (take k n)) as [r|] eqn:E.
  - exists k. split_and!; [lia|done|lia].
  - specialize (IH ltac:(lia)). destruct (findParent_loop s n k) as [r|].
    + destruct IH as (i & Hi & Hf & Hj). exists i. split_and!; [lia|done|].
      intros j Hlt. destruct (decide (j = k)) as [->|]; [done|]. apply Hj. lia.
    + intros j Hlt. destruct (decide (j = k)) as [->|]; [done|]. apply IH. lia.
Qed.
Lemma sprefix_take q n : sprefix q n ↔ q = take (length q) n ∧ (length q < length n)%nat.
Proof.
  split.
  - intros Hq. split; [|by apply sprefix_length]. destruct Hq as [[k ->] _]. by rewrite take_app_length.
  - intros [E Hl]. split; [rewrite E; by exists (drop (length q) n); rewrite take_drop|].
    intros ->. lia.
Qed.
Lemma findParent_Some s n r :
  smallName n → findParent s n = Some r ↔ ∃ p, isParent s n p ∧ Rib_find s p = Some r.
Proof.
  intros Hn. pose proof (findParent_loop_spec s n (length n) Hn ltac:(lia)) as Hspec.
  fold (findParent s n) in Hspec. destruct (findParent s n) as [r'|].
  - destruct Hspec as (i & Hi & Hf & Hj).
    assert (length (take i n) = i) as Hlen by (rewrite length_take; lia).
    assert (isParent s n (take i n)) as Hp.
    { split_and!; [apply sprefix_take; by rewrite Hlen|by rewrite Hf|].
      intros q [Eq Hq]%sprefix_take Hs. destruct (decide (i < length q)%nat) as [Hlt|].
      - rewrite Eq, Hj in Hs by lia. by destruct Hs.
      - rewrite Eq. replace (take (length q) n) with (take (length q) (take i n))
          by (rewrite take_take; f_equal; lia). by exists (drop (length q) (take i n)); rewrite take_drop. }
    split; [intros [= <-]; eauto|]. intros (p & Hp' & Hr).
    assert (p = take i n) as ->; [|congruence].
    destruct Hp as (H1 & H2 & H3), Hp' as (H1' & H2' & H3').
    apply (anti_symm prefix); [by apply H3|by apply H3'].
  - split; [done|]. intros (p & (Hp & Hs & _) & _). apply sprefix_take in Hp as [E Hl].
    rewrite E, Hspec in Hs by lia. by destruct Hs.
Qed.
Lemma findParent_None s n :
  smallName n → findParent s n = None ↔ ∀ q, sprefix q n → Rib_find s q = None.
Proof.
  intros Hn. pose proof (findParent_loop_spec s n (length n) Hn ltac:(lia)) as Hspec.
  fold (findParent s n) in Hspec. destruct (findParent s n) as [r'|]; split; try done.
  - destruct Hspec as (i & Hi & Hf & _). intros Hq. rewrite Hq in Hf; [done|].
    apply sprefix_take. rewrite length_take. split; [f_equal; lia|lia].
  - intros _ q [E Hl]%sprefix_take. rewrite E. by apply Hspec.
Qed.

(** ** Links *)

(** What an entry holds besides its links. *)
Definition content (e : RibEntry) : Name * list Route * list Route * Z :=
  (re_name e, re_routes e, re_inheritedRoutes e, re_nRoutesWithCaptureSet e).

(** Among the entries [live], the parents are [par] and the children lists are
    its inverse. *)
Definition linked (h : gmap RibRef RibEntry) (live : RibRef → Prop)
    (par : RibRef → option RibRef) : Prop :=
  ∀ r, live r → ∃ e, h !! r = Some e ∧ re_parent e = par r ∧ NoDup (re_children e) ∧
    ∀ c, c ∈ re_children e ↔ live c ∧ par c = Some r.

Definition setPar (par : RibRef → option RibRef) (c : RibRef) (p : option RibRef) :=
  fun x => if bool_decide (x = c) then p else par x.

(** [s'] differs from [s] in the links of entries only. *)
Definition linksOnly (s s' : Rib) : Prop :=
  ∃ h, s' = set_rb_heap h s ∧ ∀ x, content <$> h !! x = content <$> rb_heap s !! x.

Lemma set_rb_heap_heap h h' s : set_rb_heap h (set_rb_heap h' s) = set_rb_heap h s.
Proof. done. Qed.
Lemma set_rb_heap_id s : set_rb_heap (rb_heap s) s = s.
Proof. by destruct s. Qed.
Lemma linksOnly_refl s : linksOnly s s.
Proof. exists (rb_heap s). by rewrite set_rb_heap_id. Qed.
Lemma linksOnly_trans s1 s2 s3 : linksOnly s1 s2 → linksOnly s2 s3 → linksOnly s1 s3.
Proof.
  intros (h1 & -> & H1) (h2 & -> & H2). exists h2. split; [done|]. intros x. by rewrite H2, <-H1.
Qed.
Lemma linksOnly_find s s' n : linksOnly s s' → Rib_find s' n = Rib_find s n.
Proof. by intros (h & -> & _). Qed.

Lemma wp_getEntry r e (R : RibEntry → Rib → Prop) s :
  rb_heap s !! r = Some e → R e s → wp (getEntry r) R s.
Proof. intros He HR. unfold getEntry. apply wp_bind, wp_get. by eapply wp_deref. Qed.
Lemma wp_setEntry r f e (R : unit → Rib → Prop) s :
  rb_heap s !! r = Some e → R tt (set_rb_heap (<[r := f e]> (rb_heap s)) s) → wp (setEntry r f) R s.
Proof. intros He HR. unfold setEntry. apply wp_bind. eapply wp_getEntry; [done|]. by apply wp_modify. Qed.

Section links.
Context (live : RibRef → Prop).

Lemma linked_unique h par r e :
  linked h live par → live r → h !! r = Some e → re_parent e = par r.
Proof. intros Hl Hr He. destruct (Hl r Hr) as (e' & ? & ? & _). by simplify_eq. Qed.

(** Both operations write the parent of [child] and the children list of
    [this]. *)
Lemma relink_spec s par this child v (g : list RibRef → list RibRef) :
  linked (rb_heap s) live par → live this → live child →
  (∀ x, x ≠ this → par child ≠ Some x ∧ v ≠ Some x) →
  (∀ l, NoDup l → (∀ c, c ∈ l ↔ live c ∧ par c = Some this) →
     NoDup (g l) ∧ ∀ c, c ∈ g l ↔ live c ∧ setPar par child v c = Some this) →
  wp (setEntry child (set_re_parent v);;
      setEntry this (fun e => set_re_children (g (re_children e)) e)) (fun _ s' =>
    linksOnly s s' ∧ linked (rb_heap s') live (setPar par child v)) s.
Proof.
  intros Hl Ht Hc Hother Hg. destruct (Hl child Hc) as (ec & Hec & Epc & Hndc & Hchc).
  destruct (Hl this Ht) as (et & Het & Ept & Hndt & Hcht).
  apply wp_bind. eapply wp_setEntry; [done|].
  set (h1 := <[child := set_re_parent v ec]> (rb_heap s)).
  assert (∃ e1, h1 !! this = Some e1 ∧ re_children e1 = re_children et ∧ content e1 = content et ∧
    re_parent e1 = setPar par child v this) as (e1 & He1 & Ech & Eco & Epar1).
  { unfold h1, setPar. destruct (decide (this = child)) as [->|Hne].
    - rewrite lookup_insert_eq. simplify_eq. eexists. split; [done|]. by rewrite bool_decide_true.
    - rewrite lookup_insert_ne by done. exists et. by rewrite bool_decide_false. }
  eapply wp_setEntry; [exact He1|]. cbn [rb_heap set_rb_heap]. rewrite set_rb_heap_heap. fold h1. split.
  - eexists. split; [reflexivity|]. intros x. destruct (decide (x = this)) as [->|Hx].
    + rewrite lookup_insert_eq, Het. simpl. f_equal. exact Eco.
    + rewrite lookup_insert_ne by done. unfold h1. destruct (decide (x = child)) as [->|Hxc].
      * by rewrite lookup_insert_eq, Hec.
      * by rewrite lookup_insert_ne.
  - intros x Hx. destruct (decide (x = this)) as [->|Hxt].
    + rewrite lookup_insert_eq. eexists. split; [done|]. cbn [re_children set_re_children re_parent].
      split; [done|]. rewrite Ech. by apply Hg.
    + rewrite lookup_insert_ne by done. destruct (Hl x Hx) as (ex & Hex & Epx & Hndx & Hchx).
      exists (if bool_decide (x = child) then set_re_parent v ex else ex).
      assert (∀ c, c ∈ re_children ex ↔ live c ∧ setPar par child v c = Some x) as Hch'.
      { intros c. rewrite Hchx. unfold setPar. destruct (Hother x Hxt). case_bool_decide; naive_solver. }
      unfold h1, setPar. destruct (decide (x = child)) as [->|Hxc].
      * rewrite lookup_insert_eq, !bool_decide_true by done. by simplify_eq.
      * rewrite lookup_insert_ne, !bool_decide_false by done. done.
Qed.

Lemma addChild_spec s par this child :
  linked (rb_heap s) live par → live this → live child → par child = None →
  wp (addChild this child) (fun _ s' =>
    linksOnly s s' ∧ linked (rb_heap s') live (setPar par child (Some this))) s.
Proof.
  intros Hl Ht Hc Hp. destruct (Hl child Hc) as (ec & Hec & Epc & _). unfold addChild.
  apply wp_bind. eapply wp_getEntry; [done|]. apply wp_bind, wp_assert; [by rewrite Epc, Hp|].
  apply (relink_spec s par this child _ (fun l => l ++ [child])); try done.
  { intros x Hx. by split; [congruence|intros [= ->]]. }
  intros l Hnd Hin. split.
  - apply NoDup_app. split_and!; [done| |apply NoDup_singleton].
    intros c Hc1 ->%list_elem_of_singleton. apply Hin in Hc1 as [_ ?]. congruence.
  - intros c. rewrite elem_of_app, list_elem_of_singleton, Hin. unfold setPar.
    case_bool_decide; naive_solver.
Qed.
Lemma removeChild_spec s par this child :
  linked (rb_heap s) live par → live this → live child → par child = Some this →
  wp (removeChild this child) (fun _ s' =>
    linksOnly s s' ∧ linked (rb_heap s') live (setPar par child None)) s.
Proof.
  intros Hl Ht Hc Hp. destruct (Hl child Hc) as (ec & Hec & Epc & _). unfold removeChild.
  apply wp_bind. eapply wp_getEntry; [done|].
  apply wp_bind, wp_assert; [by apply bool_decide_eq_true; congruence|].
  apply (relink_spec s par this child None (List.filter (fun x => negb (bool_decide (x = child))))); try done.
  { intros x Hx. split; [congruence|done]. }
  intros l Hnd Hin. split.
  - by apply NoDup_ListNoDup, List.NoDup_filter, NoDup_ListNoDup.
  - intros c. rewrite list_elem_of_In, filter_In, <-list_elem_of_In, Hin. unfold setPar.
    repeat case_bool_decide; naive_solver.
Qed.
End links.

Lemma linked_ext h live live' par par' :
  linked h live par → (∀ r, live r ↔ live' r) → (∀ r, live r → par r = par' r) → linked h live' par'.
Proof.
  intros Hl Hlive Hpar r Hr. destruct (Hl r ltac:(by apply Hlive)) as (e & He & Hp & Hnd & Hch).
  exists e. split_and!; [done| |done|].
  - rewrite Hp. by apply Hpar, Hlive.
  - intros c. rewrite Hch, <-Hlive. split; intros [Hc E]; (split; [done|]); specialize (Hpar c Hc); congruence.
Qed.

(** ** The invariant *)

Definition liveRef (s : Rib) (r : RibRef) : Prop := ∃ n, Rib_find s n = Some r.
Definition parOf (s : Rib) (r : RibRef) : option RibRef :=
  match rb_heap s !! r with Some e => findParent s (re_name e) | None => None end.

Record rib_tree (s : Rib) : Prop := {
  tr_sorted : tableSorted (rb_rib s);
  tr_entry : ∀ n r, Rib_find s n = Some r →
    smallName n ∧ ∃ e, rb_heap s !! r = Some e ∧ re_name e = n;
  tr_linked : linked (rb_heap s) (liveRef s) (parOf s)
}.

Lemma findParent_table s s' n : rb_rib s' = rb_rib s → findParent s' n = findParent s n.
Proof.
  intros E. unfold findParent. generalize (length n). intros k.
  induction k as [|k IH]; [done|]. cbn [findParent_loop]. unfold Rib_find. by rewrite IH, E.
Qed.
Lemma rib_tree_same s s' : rb_heap s' = rb_heap s → rb_rib s' = rb_rib s → rib_tree s → rib_tree s'.
Proof.
  intros Eh Et [H1 H2 H3]. split; unfold Rib_find; rewrite ?Eh, ?Et; [exact H1|exact H2|].
  eapply linked_ext; [exact H3|..].
  - intros r. unfold liveRef, Rib_find. by rewrite Et.
  - intros r _. unfold parOf. rewrite Eh. destruct (rb_heap s !! r); [|done]. symmetry. by apply findParent_table.
Qed.
Lemma Rib_find_inj s n n' r : rib_tree s → Rib_find s n = Some r → Rib_find s n' = Some r → n = n'.
Proof.
  intros Ht H1 H2. destruct (tr_entry s Ht n r H1) as (_ & e & He & <-).
  destruct (tr_entry s Ht n' r H2) as (_ & e' & He' & <-). by simplify_eq.
Qed.
Lemma parOf_find s n r : rib_tree s → Rib_find s n = Some r → parOf s r = findParent s n.
Proof.
  intros Ht H. destruct (tr_entry s Ht n r H) as (_ & e & He & <-). unfold parOf. by rewrite He.
Qed.
Lemma findParent_live s n r : smallName n → findParent s n = Some r → liveRef s r.
Proof. intros Hn (p & _ & Hp)%findParent_Some; [by exists p|done]. Qed.
Lemma live_heap s r : rib_tree s → liveRef s r → is_Some (rb_heap s !! r).
Proof. intros Ht [n Hn]. destruct (tr_entry s Ht n r Hn) as (_ & e & He & _). eauto. Qed.
Lemma table_NoDup s :
  tableSorted (rb_rib s) →
  (∀ n r, Rib_find s n = Some r → smallName n ∧ ∃ e, rb_heap s !! r = Some e ∧ re_name e = n) →
  NoDup (map snd (rb_rib s)).
Proof.
  intros Hs He.
  assert (∀ n n' r, (n, r) ∈ rb_rib s → (n', r) ∈ rb_rib s → n = n') as Hinj.
  { intros n n' r H1%tableFind_Some H2%tableFind_Some; [|done..].
    destruct (He n r H1) as (_ & e & ? & <-), (He n' r H2) as (_ & e' & ? & <-). by simplify_eq. }
  revert Hs Hinj. generalize (rb_rib s). induction 1 as [|[n r] l Hs IH Hf]; intros Hinj; simpl; [constructor|].
  constructor.
  - intros ([n' r'] & -> & Hin)%list_elem_of_fmap. simpl in *.
    rewrite Forall_forall in Hf. specialize (Hf _ Hin).
    rewrite (Hinj n n' r') in Hf by (rewrite elem_of_cons; auto). by apply name_cmp_irrefl in Hf.
  - apply IH. intros n1 n2 x H1 H2. eapply Hinj; by right.
Qed.

(** How a new name changes the parents. *)
Lemma findParent_insert s s' n r m :
  (∀ p q x, Rib_find s p = Some x → Rib_find s q = Some x → p = q) →
  (∀ x, Rib_find s' x = if bool_decide (x = n) then Some r else Rib_find s x) →
  Rib_find s n = None → smallName n → smallName m →
  (sprefix n m → findParent s m = findParent s n → findParent s' m = Some r) ∧
  (¬ (sprefix n m ∧ findParent s m = findParent s n) → findParent s' m = findParent s m).
Proof.
  intros Hinj HF Hn Hsn Hsm. split.
  - intros Hnm E. apply findParent_Some; [done|]. exists n. rewrite HF, bool_decide_true by done.
    split; [|done]. split_and!; [done|by rewrite HF, bool_decide_true|].
    intros q Hq. rewrite HF. case_bool_decide as Eq; [by subst|]. intros [x Hx].
    destruct (findParent s m) as [y|] eqn:Ey; cycle 1.
    { rewrite (proj1 (findParent_None s m Hsm) Ey q Hq) in Hx. done. }
    apply findParent_Some in Ey as (p & (_ & _ & Hp) & Hy); [|done].
    symmetry in E. apply findParent_Some in E as (p' & (Hp' & _) & Hy'); [|done].
    rewrite (Hinj p p' y) in Hp by done. etrans; [by apply Hp|apply Hp'].
  - intros Hnot. destruct (findParent s m) as [y|] eqn:Ey.
    + apply findParent_Some in Ey as (p & (Hp & Hps & Hmax) & Hy); [|done].
      apply findParent_Some; [done|]. exists p.
      assert (p ≠ n) as Hpn by (intros ->; congruence).
      rewrite HF, bool_decide_false by done. split; [|done]. split_and!; [done|by rewrite HF, bool_decide_false|].
      intros q Hq. rewrite HF. case_bool_decide as Eq; [subst q; intros _|by apply Hmax].
      destruct (prefixes_linear n p m) as [|Hpn']; [apply Hq|apply Hp|done|].
      destruct Hnot. split; [done|]. symmetry. apply findParent_Some; [done|]. exists p. split; [|done].
      split_and!; [done..|]. intros q' Hq' Hs. apply Hmax; [|done].
      eapply sprefix_trans; [exact Hq'|exact Hq].
    + pose proof (proj1 (findParent_None s m Hsm) Ey) as Hnone.
      apply findParent_None; [done|]. intros q Hq. rewrite HF. case_bool_decide as Eq; [subst q|by apply Hnone].
      destruct Hnot. split; [done|]. symmetry. apply findParent_None; [done|].
      intros q Hq'. apply Hnone. eapply sprefix_trans; [exact Hq'|exact Hq].
Qed.
(** How a name that leaves changes them. *)
Lemma findParent_erase s s' n r m :
  (∀ p q x, Rib_find s p = Some x → Rib_find s q = Some x → p = q) →
  (∀ x, Rib_find s' x = if bool_decide (x = n) then None else Rib_find s x) →
  Rib_find s n = Some r → smallName n → smallName m →
  (findParent s m = Some r → findParent s' m = findParent s n) ∧
  (findParent s m ≠ Some r → findParent s' m = findParent s m).
Proof.
  intros Hinj HF Hn Hsn Hsm. split.
  - intros (p & (Hp & _ & Hmax) & Hy)%findParent_Some; [|done].
    assert (p = n) as -> by by eapply Hinj.
    destruct (findParent s n) as [y|] eqn:Ey.
    + apply findParent_Some in Ey as (p & (Hp' & Hps & Hmax') & Hy'); [|done].
      assert (p ≠ n) by apply Hp'.
      apply findParent_Some; [done|]. exists p. rewrite HF, bool_decide_false by done.
      split; [|done]. split_and!; [by eapply sprefix_trans|by rewrite HF, bool_decide_false|].
      intros q Hq. rewrite HF. case_bool_decide as Eq; [by intros []|]. intros Hs. apply Hmax'; [|done].
      split; [by apply Hmax|done].
    + pose proof (proj1 (findParent_None s n Hsn) Ey) as Hnone. apply findParent_None; [done|].
      intros q Hq. rewrite HF. case_bool_decide as Eq; [done|].
      destruct (Rib_find s q) as [x|] eqn:Hx; [|done].
      rewrite Hnone in Hx; [done|]. split; [apply Hmax; [done|by rewrite Hx]|done].
  - intros Hne. destruct (findParent s m) as [y|] eqn:Ey.
    + apply findParent_Some in Ey as (p & (Hp & Hps & Hmax) & Hy); [|done].
      assert (p ≠ n) as Hpn by (intros ->; congruence).
      apply findParent_Some; [done|]. exists p. rewrite HF, bool_decide_false by done.
      split; [|done]. split_and!; [done|by rewrite HF, bool_decide_false|].
      intros q Hq. rewrite HF. case_bool_decide; [by intros []|by apply Hmax].
    + pose proof (proj1 (findParent_None s m Hsm) Ey) as Hnone. apply findParent_None; [done|].
      intros q Hq. rewrite HF. case_bool_decide; [done|by apply Hnone].
Qed.

(** ** The table as a map from names to routes *)

Definition entryView (e : RibEntry) : list Route * list Route * Z :=
  (re_routes e, re_inheritedRoutes e, re_nRoutesWithCaptureSet e).
Definition ribView (s : Rib) (n : Name) : option (list Route * list Route * Z) :=
  r ← Rib_find s n; e ← rb_heap s !! r; Some (entryView e).

Lemma linksOnly_view s s' n : linksOnly s s' → ribView s' n = ribView s n.
Proof.
  intros (h & -> & Hh). unfold ribView. change (Rib_find (set_rb_heap h s) n) with (Rib_find s n).
  destruct (Rib_find s n) as [r|]; [|done]. simpl. specialize (Hh r).
  destruct (h !! r) as [[]|], (rb_heap s !! r) as [[]|]; try done.
  cbn in Hh. apply (inj Some) in Hh. unfold content, entryView in *. simpl in *. by simplify_eq.
Qed.
Lemma linksOnly_name s s' r : linksOnly s s' → re_name <$> rb_heap s' !! r = re_name <$> rb_heap s !! r.
Proof.
  intros (h & -> & Hh). specialize (Hh r). simpl.
  destruct (h !! r) as [[]|], (rb_heap s !! r) as [[]|]; try done.
  cbn in Hh |- *. apply (inj Some) in Hh. unfold content in *. simpl in *. by simplify_eq.
Qed.
Lemma linksOnly_findParent s s' n : linksOnly s s' → findParent s' n = findParent s n.
Proof.
  intros (h & -> & _). by apply findParent_table.
Qed.
Lemma linksOnly_tree s s' :
  linksOnly s s' → tableSorted (rb_rib s) →
  (∀ n r, Rib_find s n = Some r → smallName n ∧ ∃ e, rb_heap s !! r = Some e ∧ re_name e = n) →
  linked (rb_heap s') (liveRef s) (parOf s) → rib_tree s'.
Proof.
  intros Hlo Hs He Hl. split.
  - by destruct Hlo as (h & -> & _).
  - intros n r. rewrite (linksOnly_find _ _ _ Hlo). intros Hr. destruct (He n r Hr) as (Hn & e & Hre & Hne).
    split; [done|]. pose proof (linksOnly_name _ _ r Hlo) as E. rewrite Hre in E.
    destruct (rb_heap s' !! r) as [e'|]; [|done]. exists e'. split; [done|]. simpl in E. by simplify_eq.
  - eapply linked_ext; [exact Hl|..].
    + intros r. unfold liveRef. by setoid_rewrite (linksOnly_find _ _ _ Hlo).
    + intros r _. unfold parOf. pose proof (linksOnly_name _ _ r Hlo) as E.
      destruct (rb_heap s' !! r), (rb_heap s !! r); simpl in E; try done.
      apply (inj Some) in E. by rewrite E, (linksOnly_findParent _ _ _ Hlo).
Qed.

(** The loop that gives the new entry [r] the children of its parent [P]. *)
Lemma adopt_loop live P r D s par :
  linked (rb_heap s) live par → live r → NoDup D → (∀ d, d ∈ D → live d ∧ d ≠ r) →
  (∀ p, P = Some p → live p) → P ≠ Some r →
  wp (forM_ D (adoptChild P r)) (fun _ s' =>
    linksOnly s s' ∧
    linked (rb_heap s') live (fun x => if bool_decide (x ∈ D ∧ par x = P) then Some r else par x)) s.
Proof.
  intros Hl Hr Hnd HD HP HPr. revert s par Hl. induction Hnd as [|d D Hd Hnd IH]; intros s par Hl.
  { split; [apply linksOnly_refl|]. eapply linked_ext; [exact Hl|done|]. intros x _.
    by rewrite bool_decide_false by (intros [[]%not_elem_of_nil _]). }
  cbn [forM_]. apply wp_bind.
  assert (∀ d0, d0 ∈ D → live d0 ∧ d0 ≠ r) as HD' by (intros; apply HD; by right).
  destruct (HD d ltac:(by left)) as [Hld Hdr].
  destruct (Hl d Hld) as (ed & Hed & Epd & _). unfold adoptChild at 1. apply wp_bind.
  eapply wp_getEntry; [exact Hed|]. rewrite Epd. case_bool_decide as E.
  - apply wp_bind. eapply wp_mono with (R := fun _ s' => linksOnly s s' ∧
      linked (rb_heap s') live (setPar par d None)).
    { destruct P as [p|].
      - apply removeChild_spec; auto.
      - split; [apply linksOnly_refl|]. eapply linked_ext; [exact Hl|done|].
        intros x _. unfold setPar. case_bool_decide; congruence. }
    intros [] s1 [Hlo1 Hl1]. eapply wp_mono.
    { apply (addChild_spec live s1 _ r d Hl1 Hr Hld). unfold setPar. by rewrite bool_decide_true. }
    intros [] s2 [Hlo2 Hl2]. eapply wp_mono; [exact (IH HD' _ _ Hl2)|].
    intros [] s3 [Hlo3 Hl3]. split; [by eauto using linksOnly_trans|].
    eapply linked_ext; [exact Hl3|done|]. intros x _. unfold setPar.
    destruct (decide (x = d)) as [->|Hx].
    + rewrite !(bool_decide_true (d = d)) by done. rewrite (bool_decide_false (_ ∧ _)) by naive_solver.
      rewrite bool_decide_true; [done|]. split; [by left|done].
    + rewrite !(bool_decide_false (x = d)) by done.
      erewrite bool_decide_ext; [reflexivity|]. rewrite elem_of_cons. naive_solver.
  - apply wp_ret. eapply wp_mono; [exact (IH HD' _ _ Hl)|]. intros [] s3 [Hlo3 Hl3]. split; [done|].
    eapply linked_ext; [exact Hl3|done|]. intros x _.
    erewrite bool_decide_ext; [reflexivity|]. rewrite elem_of_cons. naive_solver.
Qed.

(** The state of [insertNew] before the entry is linked. *)
Definition newEntry (prefix : Name) (route : Route) : RibEntry :=
  set_re_name prefix (insertRoute route RibEntry_new).1.
Definition withNewEntry (s : Rib) (prefix : Name) (route : Route) (r : RibRef) : Rib :=
  set_rb_nItems (u64 (rb_nItems s + 1))
    (set_rb_rib (tableInsert prefix r (rb_rib s))
       (set_rb_heap (<[r := newEntry prefix route]> (rb_heap s)) s)).

Lemma withNewEntry_find s n route r m :
  Rib_find (withNewEntry s n route r) m = if bool_decide (m = n) then Some r else Rib_find s m.
Proof. unfold Rib_find. simpl. apply tableFind_insert. Qed.

Section insertNew.
Context (s : Rib) (n : Name) (route : Route) (r : RibRef).
Context (Ht : rib_tree s) (Hn : smallName n) (Hnone : Rib_find s n = None).
Context (Hfresh : rb_heap s !! r = None).
Local Abbreviation s1 := (withNewEntry s n route r).

Lemma new_not_live : ¬ liveRef s r.
Proof using Ht Hfresh. intros Hl. destruct (live_heap s r Ht Hl) as [e He]. congruence. Qed.
Lemma new_live x : liveRef s1 x ↔ x = r ∨ liveRef s x.
Proof using Hnone.
  unfold liveRef. setoid_rewrite withNewEntry_find. split.
  - intros [m Hm]. case_bool_decide; [left; congruence|eauto].
  - intros [->|[m Hm]]; [exists n; by rewrite bool_decide_true|].
    exists m. rewrite bool_decide_false; [done|]. intros ->. congruence.
Qed.
Lemma new_findParent_self : findParent s1 n = findParent s n.
Proof using Hn Hnone Ht.
  eapply (findParent_insert s); [intros; by eapply Rib_find_inj|apply withNewEntry_find|done..|].
  intros [[_ ?] _]. done.
Qed.
Lemma new_entries m x :
  Rib_find s1 m = Some x → smallName m ∧ ∃ e, rb_heap s1 !! x = Some e ∧ re_name e = m.
Proof using Hn Ht Hfresh.
  rewrite withNewEntry_find. cbn [rb_heap set_rb_heap withNewEntry set_rb_nItems set_rb_rib].
  case_bool_decide as E; [intros [= <-]; subst m|intros Hx].
  - split; [done|]. rewrite lookup_insert_eq. eexists. by split.
  - destruct (tr_entry s Ht m x Hx) as (Hm & e & He & Ee). split; [done|]. exists e.
    rewrite lookup_insert_ne by congruence. done.
Qed.
(** Before the links are made, the new entry stands alone. *)
Lemma new_linked :
  linked (rb_heap s1) (liveRef s1) (fun x => if bool_decide (x = r) then None else parOf s x).
Proof using Ht Hn Hnone Hfresh.
  intros x [->|Hx]%new_live; cbn [rb_heap set_rb_heap withNewEntry set_rb_nItems set_rb_rib].
  - rewrite lookup_insert_eq. eexists. split; [done|]. rewrite bool_decide_true by done.
    assert (re_children (newEntry n route) = [] ∧ re_parent (newEntry n route) = None) as [-> ->].
    { unfold newEntry, insertRoute. simpl. by destruct (isRibCapture route). }
    split_and!; [done|constructor|]. intros c. split; [by intros ?%not_elem_of_nil|].
    intros [[->|Hc]%new_live Hp]; [by rewrite bool_decide_true in Hp|].
    case_bool_decide; [done|]. destruct new_not_live. destruct Hc as [m Hm].
    rewrite (parOf_find _ _ _ Ht Hm) in Hp. eapply findParent_live; [|done]. by apply (tr_entry s Ht m c).
  - assert (x ≠ r) as Hxr by (intros ->; by apply new_not_live).
    destruct (tr_linked s Ht x Hx) as (e & He & Hp & Hnd & Hch). exists e.
    rewrite lookup_insert_ne, bool_decide_false by done. split_and!; [done..|].
    intros c. rewrite Hch, new_live. split.
    + intros [Hc Hpc]. rewrite bool_decide_false; [by auto|]. intros ->. by apply new_not_live.
    + intros [[->|Hc] Hpc]; [by rewrite bool_decide_true in Hpc|].
      rewrite bool_decide_false in Hpc; [done|]. intros ->. by apply new_not_live.
Qed.
(** The parents after the loop are those the new table asks for. *)
Lemma new_parents x :
  liveRef s1 x →
  (let par := setPar (fun x => if bool_decide (x = r) then None else parOf s x) r (findParent s n) in
   if bool_decide (x ∈ findDescendants s1 n ∧ par x = findParent s n) then Some r else par x) =
  parOf s1 x.
Proof using Ht Hn Hnone Hfresh.
  assert (tableSorted (rb_rib s1)) as Hs1 by apply tableSorted_insert, (tr_sorted s Ht).
  assert (∀ x, x ∈ findDescendants s1 n ↔ ∃ m, Rib_find s1 m = Some x ∧ sprefix n m) as HD.
  { intros y. eapply findDescendants_spec; [done|]. rewrite withNewEntry_find, bool_decide_true; done. }
  intros [->|Hx]%new_live; cbv zeta.
  - unfold setPar. rewrite (bool_decide_true (r = r)) by done. rewrite bool_decide_false.
    + unfold parOf. cbn [rb_heap set_rb_heap withNewEntry set_rb_nItems set_rb_rib].
      rewrite lookup_insert_eq. cbn [re_name newEntry set_re_name]. symmetry. apply new_findParent_self.
    + intros [(m & Hm & [_ Hne])%HD _]. rewrite withNewEntry_find in Hm.
      rewrite bool_decide_false in Hm by done. apply new_not_live. by exists m.
  - assert (x ≠ r) as Hxr by (intros ->; by apply new_not_live). destruct Hx as [m Hm].
    destruct (tr_entry s Ht m x Hm) as (Hsm & e & He & Ee).
    assert (m ≠ n) as Hmn by (intros ->; congruence).
    assert (parOf s1 x = findParent s1 m) as ->.
    { unfold parOf. cbn [rb_heap set_rb_heap withNewEntry set_rb_nItems set_rb_rib].
      rewrite lookup_insert_ne, He by done. by rewrite Ee. }
    unfold setPar. rewrite !(bool_decide_false (x = r)) by done. rewrite (parOf_find _ _ _ Ht Hm).
    destruct (findParent_insert s s1 n r m) as [H1 H2]; try done.
    { intros; by eapply Rib_find_inj. } { apply withNewEntry_find. }
    assert (x ∈ findDescendants s1 n ↔ sprefix n m) as Hdx.
    { rewrite HD. split; [|intros; exists m; by rewrite withNewEntry_find, bool_decide_false].
      intros (m' & Hm' & Hp). rewrite withNewEntry_find in Hm'. case_bool_decide; [congruence|].
      by rewrite (Rib_find_inj s m m' x Ht Hm Hm'). }
    case_bool_decide as E; rewrite Hdx in E; symmetry; [apply H1; apply E|by apply H2].
Qed.
End insertNew.

(** The members that the tree operations leave alone. *)
Definition sameQueue (s s' : Rib) : Prop :=
  rb_updateBatches s' = rb_updateBatches s ∧ rb_isUpdateInProgress s' = rb_isUpdateInProgress s.

Lemma insertNew_create s n route r (R : unit → Rib → Prop) k :
  wp k R (withNewEntry s n route r) →
  wp (modify (fun s => set_rb_heap (<[r := RibEntry_new]> (rb_heap s)) s);;
      modify (fun s => set_rb_rib (tableInsert n r (rb_rib s)) s);;
      modify (fun s => set_rb_nItems (u64 (rb_nItems s + 1)) s);;
      setEntry r (set_re_name n);;
      setEntry r (fun e => (insertRoute route e).1);; k) R s.
Proof.
  intros Hk. do 3 (apply wp_bind, wp_modify).
  apply wp_bind. eapply wp_setEntry; [apply lookup_insert_eq|].
  apply wp_bind. eapply wp_setEntry; [apply lookup_insert_eq|].
  cbn [rb_heap set_rb_heap set_rb_nItems set_rb_rib]. rewrite !insert_insert_eq.
  replace (insertRoute route (set_re_name n RibEntry_new)).1 with (newEntry n route); [exact Hk|].
  unfold newEntry, insertRoute. simpl. by destruct (isRibCapture route).
Qed.

(** [insert] of a name that is not in the table. *)
Lemma insertNew_spec s n route :
  rib_tree s → smallName n → Rib_find s n = None →
  wp (insertNew n route) (fun _ s' =>
    rib_tree s' ∧ sameQueue s s' ∧ rb_nItems s' = u64 (rb_nItems s + 1) ∧
    (∀ m, ribView s' m = if bool_decide (m = n) then Some (entryView (newEntry n route)) else ribView s m) ∧
    ∃ r, rb_heap s !! r = None ∧
      (∀ m, Rib_find s' m = if bool_decide (m = n) then Some r else Rib_find s m) ∧
      rb_faceEntries s' = faceEmplace (rt_faceId route) r (rb_faceEntries s) ∧
      rb_signals s' = rb_signals s ++ [AfterInsertEntry n; AfterAddRoute r route]) s.
Proof.
  intros Ht Hn Hnone. unfold insertNew. apply wp_bind, wp_get. set (r := fresh _).
  apply insertNew_create. assert (rb_heap s !! r = None) as Hfresh by apply not_elem_of_dom, is_fresh.
  set (s1 := withNewEntry s n route r). apply wp_bind, wp_get.
  assert (findParent s1 n = findParent s n) as -> by by apply new_findParent_self.
  assert (liveRef s1 r) as Hlr by (apply new_live; auto).
  assert (∀ p, findParent s n = Some p → liveRef s1 p ∧ p ≠ r) as HP.
  { intros p Hp%findParent_live; [|done]. split; [apply new_live; auto|].
    intros ->. by apply (new_not_live s r). }
  apply wp_bind. eapply wp_mono with (R := fun _ s2 => linksOnly s1 s2 ∧ linked (rb_heap s2) (liveRef s1)
    (setPar (fun x => if bool_decide (x = r) then None else parOf s x) r (findParent s n))).
  { pose proof (new_linked s n route r Ht Hn Hnone Hfresh) as Hl. destruct (findParent s n) as [p|].
    - apply addChild_spec; [done|by apply HP|done|by rewrite bool_decide_true].
    - split; [apply linksOnly_refl|]. eapply linked_ext; [exact Hl|done|]. intros x _. unfold setPar.
      by case_bool_decide. }
  intros [] s2 [Hlo2 Hl2]. apply wp_bind, wp_get. apply wp_bind.
  assert (findDescendants s2 n = findDescendants s1 n) as -> by by destruct Hlo2 as (h & -> & _).
  assert (tableSorted (rb_rib s1)) as Hs1 by apply tableSorted_insert, (tr_sorted s Ht).
  eapply wp_mono.
  { apply (adopt_loop (liveRef s1) (findParent s n) r _ s2 _ Hl2 Hlr).
    - apply findDescendants_NoDup; [done|]. by apply table_NoDup; [|apply new_entries].
    - intros d Hd. eapply findDescendants_spec in Hd as (m & Hm & Hnm); [|done|];
        [|unfold s1; by rewrite withNewEntry_find, bool_decide_true].
      split; [by exists m|]. intros ->. unfold s1 in Hm. rewrite withNewEntry_find in Hm.
      rewrite bool_decide_false in Hm by (intros ->; by destruct Hnm). apply (new_not_live s r); [done..|by exists m].
    - intros p Hp. by apply HP.
    - intros E. by apply (HP r E). }
  intros [] s3 [Hlo3 Hl3]. pose proof (linksOnly_trans _ _ _ Hlo2 Hlo3) as Hlo.
  apply wp_bind, wp_modify. apply wp_bind, wp_modify. apply wp_modify.
  assert (rib_tree s3) as Ht3.
  { apply (linksOnly_tree s1); [done..|by apply new_entries|].
    eapply linked_ext; [exact Hl3|done|]. intros x Hx. by apply new_parents. }
  assert (∀ m, Rib_find s3 m = if bool_decide (m = n) then Some r else Rib_find s m) as HF.
  { intros m. rewrite (linksOnly_find _ _ _ Hlo). apply withNewEntry_find. }
  split_and!; [by eapply rib_tree_same; [..|exact Ht3]|by destruct Hlo as (h & -> & _)|by destruct Hlo as (h & -> & _)| |].
  - intros m. trans (ribView s3 m); [done|]. rewrite (linksOnly_view _ _ _ Hlo).
    unfold ribView. unfold s1. rewrite withNewEntry_find.
    case_bool_decide as E; cbn [mbind option_bind rb_heap set_rb_heap withNewEntry set_rb_nItems set_rb_rib].
    + by rewrite lookup_insert_eq.
    + destruct (Rib_find s m) as [x|] eqn:Hx; [|done]. simpl. rewrite lookup_insert_ne; [done|].
      intros <-. apply (new_not_live s r); [done..|by exists m].
  - exists r. split_and!; [done|done|by destruct Hlo as (h & -> & _)|].
    destruct Hlo as (h & -> & _). simpl. by rewrite <-app_assoc.
Qed.

(** Writing an entry without touching its name and links. *)
Lemma setEntry_tree s n r e e' :
  rib_tree s → Rib_find s n = Some r → rb_heap s !! r = Some e →
  re_name e' = re_name e → re_parent e' = re_parent e → re_children e' = re_children e →
  let s' := set_rb_heap (<[r := e']> (rb_heap s)) s in
  rib_tree s' ∧
  ∀ m, ribView s' m = if bool_decide (m = n) then Some (entryView e') else ribView s m.
Proof.
  intros Ht Hr He En Ep Ec s'.
  assert (∀ x, rb_heap s' !! x = if bool_decide (x = r) then Some e' else rb_heap s !! x) as Hlk.
  { intros x. unfold s'. cbn [rb_heap set_rb_heap]. rewrite lookup_insert. case_decide; case_bool_decide; congruence. }
  split; [split|].
  - apply (tr_sorted s Ht).
  - intros m x Hx. destruct (tr_entry s Ht m x Hx) as (Hm & ex & Hex & Enx). split; [done|].
    rewrite Hlk. case_bool_decide; [|by exists ex]. exists e'. split; [done|]. simplify_eq. congruence.
  - assert (∀ x, parOf s' x = parOf s x) as Hpar.
    { intros x. unfold parOf. rewrite Hlk. case_bool_decide as E; [subst x; rewrite He, En|];
        [by apply findParent_table|]. destruct (rb_heap s !! x); [|done]. by apply findParent_table. }
    intros x Hx. destruct (tr_linked s Ht x Hx) as (ex & Hex & Hp & Hnd & Hch).
    rewrite Hlk, Hpar. exists (if bool_decide (x = r) then e' else ex).
    assert (∀ c, c ∈ re_children ex ↔ liveRef s' c ∧ parOf s' c = Some x) as Hch'.
    { intros c. by rewrite Hpar, Hch. }
    case_bool_decide as E; [|by split_and!]. subst x. simplify_eq. rewrite Ep, Ec. by split_and!.
  - intros m. unfold ribView. change (Rib_find s' m) with (Rib_find s m). case_bool_decide as E.
    + subst m. rewrite Hr. simpl. rewrite lookup_insert_eq. done.
    + destruct (Rib_find s m) as [x|] eqn:Hx; [|done]. simpl. rewrite lookup_insert_ne; [done|].
      intros <-. destruct E. by eapply Rib_find_inj.
Qed.
Lemma ribView_same s s' n : rb_heap s' = rb_heap s → rb_rib s' = rb_rib s → ribView s' n = ribView s n.
Proof. intros Eh Et. unfold ribView, Rib_find. by rewrite Eh, Et. Qed.
Lemma insertRoute_links route e :
  let e' := (insertRoute route e).1 in
  re_name e' = re_name e ∧ re_parent e' = re_parent e ∧ re_children e' = re_children e.
Proof. unfold insertRoute. destruct (findRoute e route); [done|]. by destruct (isRibCapture route). Qed.
Lemma eraseRoute_links route e :
  let e' := (eraseRoute route e).1 in
  re_name e' = re_name e ∧ re_parent e' = re_parent e ∧ re_children e' = re_children e.
Proof. unfold eraseRoute. destruct (findRoute e route) as [r|]; [|done]. by destruct (isRibCapture r). Qed.

(** The entry that [insert] leaves for a name that is in the table. *)
Definition registered (route : Route) (e : RibEntry) : RibEntry :=
  match findRoute e route with
  | None => (insertRoute route e).1
  | Some _ => set_re_routes (updateFirst (fun r' => compareFaceIdAndOrigin r' route) (fun _ => route)
                               (re_routes e)) e
  end.

Lemma insertExisting_spec s n r e route :
  rib_tree s → Rib_find s n = Some r → rb_heap s !! r = Some e →
  wp (insertExisting r route) (fun _ s' =>
    rib_tree s' ∧ sameQueue s s' ∧
    (∀ m, ribView s' m = if bool_decide (m = n) then Some (entryView (registered route e)) else ribView s m) ∧
    (∀ m, Rib_find s' m = Rib_find s m) ∧
    if hasRoute e route then rb_nItems s' = rb_nItems s ∧ rb_faceEntries s' = rb_faceEntries s
    else rb_nItems s' = u64 (rb_nItems s + 1) ∧
         rb_faceEntries s' = faceEmplace (rt_faceId route) r (rb_faceEntries s)) s.
Proof.
  intros Ht Hr He. unfold insertExisting. apply wp_bind. eapply wp_getEntry; [done|].
  destruct (insertRoute_links route e) as (E1 & E2 & E3). unfold hasRoute, registered.
  destruct (insertRoute route e) as [e' b] eqn:Ei. cbn [fst] in *.
  apply wp_bind. eapply wp_setEntry; [done|].
  destruct (findRoute e route) as [old|] eqn:Ef.
  - assert (e' = e ∧ b = false) as [-> ->] by (unfold insertRoute in Ei; rewrite Ef in Ei; by simplify_eq).
    apply wp_bind, wp_ret, wp_bind. rewrite insert_id, set_rb_heap_id by done.
    eapply wp_mono with (R := fun _ s' => rb_heap s' = rb_heap s ∧ rb_rib s' = rb_rib s ∧ sameQueue s s' ∧
      rb_nItems s' = rb_nItems s ∧ rb_faceEntries s' = rb_faceEntries s).
    { unfold cancelEvent. by destruct (rt_expirationEvent old). }
    intros [] s1 (Eh & Et & Eq & En & Efc). eapply wp_setEntry; [by rewrite Eh|].
    destruct (setEntry_tree s1 n r e (set_re_routes (updateFirst (fun r' => compareFaceIdAndOrigin r' route)
      (fun _ => route) (re_routes e)) e)) as [Ht' Hv]; [by eapply rib_tree_same|
      unfold Rib_find; by rewrite Et|by rewrite Eh|done..|].
    split_and!; [done|done| |intros m; unfold Rib_find; simpl; by rewrite Et|done|done].
    intros m. rewrite Hv. case_bool_decide; [done|]. by apply ribView_same.
  - assert (b = true) as -> by (unfold insertRoute in Ei; rewrite Ef in Ei; by simplify_eq).
    destruct (setEntry_tree s n r e e' Ht Hr He E1 E2 E3) as [Ht' Hv].
    apply wp_bind, wp_modify. apply wp_bind, wp_modify. apply wp_modify.
    split_and!; [by eapply rib_tree_same; [..|exact Ht']|done| |done|done|done].
    intros m. rewrite <-Hv. by apply ribView_same.
Qed.

(** The loop of [eraseEntry] hands the children of [r] to [P]. *)
Lemma orphan_loop live P r C s par :
  linked (rb_heap s) live par → live r → NoDup C →
  (∀ c, c ∈ C → live c ∧ par c = Some r) → (∀ p, P = Some p → live p) →
  wp (forM_ C (fun child => removeChild r child;;
        match P with Some p => addChild p child | None => mret tt end)) (fun _ s' =>
    linksOnly s s' ∧
    linked (rb_heap s') live (fun x => if bool_decide (x ∈ C) then P else par x)) s.
Proof.
  intros Hl Hr Hnd HC HP. revert s par Hl HC. induction Hnd as [|c C Hc Hnd IH]; intros s par Hl HC.
  { split; [apply linksOnly_refl|]. eapply linked_ext; [exact Hl|done|]. intros x _.
    by rewrite bool_decide_false by (intros []%not_elem_of_nil). }
  destruct (HC c ltac:(by left)) as [Hlc Hpc]. cbn [forM_]. apply wp_bind, wp_bind.
  eapply wp_mono; [by apply (removeChild_spec live s par r c)|]. intros [] s1 [Hlo1 Hl1].
  eapply wp_mono with (R := fun _ s' => linksOnly s1 s' ∧ linked (rb_heap s') live (setPar par c P)).
  { destruct P as [p|].
    - eapply wp_mono; [apply (addChild_spec live s1 _ p c Hl1); [by apply HP|done|]|].
      + unfold setPar. by rewrite bool_decide_true.
      + intros [] s2 [Hlo2 Hl2]. split; [done|]. eapply linked_ext; [exact Hl2|done|].
        intros x _. unfold setPar. by case_bool_decide.
    - apply wp_ret. split; [apply linksOnly_refl|done]. }
  intros [] s2 [Hlo2 Hl2]. eapply wp_mono; [apply (IH s2 _ Hl2)|].
  - intros d Hd. unfold setPar. rewrite bool_decide_false by (intros ->; done). apply HC. by right.
  - intros [] s3 [Hlo3 Hl3]. split; [by eauto using linksOnly_trans|].
    eapply linked_ext; [exact Hl3|done|]. intros x _. unfold setPar.
    destruct (decide (x = c)) as [->|Hx].
    + rewrite (bool_decide_true (c = c)), (bool_decide_false (c ∈ C)) by done.
      by rewrite bool_decide_true by (by left).
    + rewrite (bool_decide_false (x = c)) by done.
      erewrite bool_decide_ext; [reflexivity|]. rewrite elem_of_cons. naive_solver.
Qed.

Section eraseEntry.
Context (s : Rib) (n : Name) (r : RibRef) (e : RibEntry).
Context (Ht : rib_tree s) (Hr : Rib_find s n = Some r) (He : rb_heap s !! r = Some e).
(** The parents once the children are handed over. *)
Definition parAfterErase : RibRef → option RibRef :=
  fun x => if bool_decide (x ∈ re_children e) then re_parent e else setPar (parOf s) r None x.

Lemma erase_links :
  re_parent e = findParent s n ∧ NoDup (re_children e) ∧
  ∀ m c, Rib_find s m = Some c → c ∈ re_children e ↔ findParent s m = Some r.
Proof using Ht Hr He.
  destruct (tr_linked s Ht r ltac:(by exists n)) as (e0 & He0 & Hp & Hnd & Hch). simplify_eq.
  rewrite (parOf_find _ _ _ Ht Hr) in Hp. split_and!; [done..|].
  intros m c Hm. rewrite Hch, (parOf_find _ _ _ Ht Hm). split; [by intros [_ ?]|]. split; [by exists m|done].
Qed.
Lemma erase_child_ne c : c ∈ re_children e → liveRef s c ∧ c ≠ r.
Proof using Ht Hr He.
  destruct (tr_linked s Ht r ltac:(by exists n)) as (e0 & He0 & _ & _ & Hch). simplify_eq.
  intros [Hlc Hpc]%Hch. split; [done|]. intros ->. rewrite (parOf_find _ _ _ Ht Hr) in Hpc.
  apply findParent_Some in Hpc as (p & [[_ Hne] _] & Hpr); [|by apply (tr_entry s Ht n r)].
  destruct Hne. by eapply Rib_find_inj.
Qed.
Lemma erase_parents s' m x :
  (∀ y, Rib_find s' y = if bool_decide (y = n) then None else Rib_find s y) →
  Rib_find s m = Some x → m ≠ n → parAfterErase x = findParent s' m.
Proof using Ht Hr He.
  intros HF Hm Hmn. destruct erase_links as (Ep & _ & Hch). unfold parAfterErase, setPar.
  destruct (findParent_erase s s' n r m) as [H1 H2]; try done.
  { intros; by eapply Rib_find_inj. } { by apply (tr_entry s Ht n r). } { by apply (tr_entry s Ht m x). }
  assert (x ≠ r) as Hxr by (intros ->; destruct Hmn; by eapply Rib_find_inj).
  rewrite (bool_decide_false (x = r)), (parOf_find _ _ _ Ht Hm) by done.
  case_bool_decide as E; rewrite (Hch m x Hm) in E; symmetry; [rewrite Ep|]; auto.
Qed.
Lemma erase_tree s2 :
  linksOnly s s2 → linked (rb_heap s2) (liveRef s) parAfterErase →
  rib_tree (set_rb_rib (tableErase n (rb_rib s2)) s2).
Proof using Ht Hr He.
  intros Hlo Hl2. set (s3 := set_rb_rib (tableErase n (rb_rib s2)) s2).
  assert (∀ m, Rib_find s3 m = if bool_decide (m = n) then None else Rib_find s m) as HF.
  { intros m. unfold Rib_find, s3. simpl. rewrite tableFind_erase. case_bool_decide; [done|].
    apply (linksOnly_find _ _ _ Hlo). }
  assert (∀ m x, Rib_find s3 m = Some x → Rib_find s m = Some x ∧ m ≠ n ∧ smallName m ∧
    ∃ e, rb_heap s2 !! x = Some e ∧ re_name e = m) as Hent.
  { intros m x. rewrite HF. case_bool_decide as E; [done|]. intros Hx.
    destruct (tr_entry s Ht m x Hx) as (Hsm & ex & Hex & <-). split_and!; [done..|].
    pose proof (linksOnly_name _ _ x Hlo) as En. rewrite Hex in En.
    destruct (rb_heap s2 !! x) as [ex'|]; [|done]. exists ex'. split; [done|]. by apply (inj Some) in En. }
  assert (∀ x, liveRef s3 x → parAfterErase x = parOf s3 x) as Hpar.
  { intros x [m Hm]. destruct (Hent m x Hm) as (Hms & Hne & Hsm & ex & Hex & Enx).
    rewrite (erase_parents s3 m x) by done. unfold parOf. cbn [rb_heap s3 set_rb_rib].
    by rewrite Hex, Enx. }
  split; [|intros m x Hx; by destruct (Hent m x Hx) as (_ & _ & ? & ?)|].
  - apply tableSorted_erase. destruct Hlo as (h & -> & _). apply (tr_sorted s Ht).
  - intros x Hx. destruct Hx as [m Hm]. destruct (Hent m x Hm) as (Hms & Hne & _).
    destruct (Hl2 x) as (ex & Hex & Epx & Hndx & Hchx); [by exists m|].
    exists ex. split_and!; [done|rewrite Epx; apply Hpar; by exists m|done|].
    intros c. rewrite Hchx. split; [|intros [Hc Epc]].
    + intros [[mc Hmc] Epc]. assert (mc ≠ n) as Hmcn.
      { intros ->. assert (c = r) as -> by congruence. unfold parAfterErase, setPar in Epc.
        rewrite (bool_decide_true (r = r)), bool_decide_false in Epc; [done| |done].
        intros Hin. by apply erase_child_ne in Hin as [_ ?]. }
      assert (liveRef s3 c) as Hc by (exists mc; by rewrite HF, bool_decide_false).
      split; [done|]. by rewrite <-Hpar.
    + rewrite Hpar by done. split; [|done]. destruct Hc as [mc Hmc]. exists mc. by apply Hent.
Qed.
End eraseEntry.

(** [eraseEntry] takes one name out of the table and hands its children to its
    parent. *)
Lemma eraseEntry_spec s n r :
  rib_tree s → Rib_find s n = Some r →
  wp (eraseEntry r n) (fun _ s' =>
    rib_tree s' ∧ sameQueue s s' ∧ rb_nItems s' = rb_nItems s ∧ rb_faceEntries s' = rb_faceEntries s ∧
    rb_signals s' = rb_signals s ++ [AfterEraseEntry n] ∧
    (∀ m, ribView s' m = if bool_decide (m = n) then None else ribView s m) ∧
    (∀ m, Rib_find s' m = if bool_decide (m = n) then None else Rib_find s m)) s.
Proof.
  intros Ht Hr. assert (liveRef s r) as Hlr by by exists n.
  destruct (tr_entry s Ht n r Hr) as (Hn & e & He & En).
  destruct (erase_links s n r e Ht Hr He) as (Ep & Hnd & Hch).
  unfold eraseEntry. apply wp_bind. eapply wp_getEntry; [exact He|]. apply wp_bind.
  eapply wp_mono with (R := fun _ s1 => linksOnly s s1 ∧
    linked (rb_heap s1) (liveRef s) (setPar (parOf s) r None)).
  { destruct (re_parent e) as [p|] eqn:Epe.
    - apply removeChild_spec; [apply Ht|by eapply findParent_live|done|]. by rewrite (parOf_find _ _ _ Ht Hr).
    - apply wp_ret. split; [apply linksOnly_refl|]. eapply linked_ext; [apply Ht|done|]. intros x _.
      unfold setPar. case_bool_decide; [|done]. subst x. by rewrite (parOf_find _ _ _ Ht Hr). }
  intros [] s1 [Hlo1 Hl1]. apply wp_bind. eapply wp_mono.
  { apply (orphan_loop (liveRef s) (re_parent e) r _ s1 _ Hl1 Hlr Hnd).
    - intros c Hc. destruct (erase_child_ne s n r e Ht Hr He c Hc) as [Hlc Hcr]. split; [done|].
      unfold setPar. rewrite bool_decide_false by done. destruct Hlc as [mc Hmc].
      rewrite (parOf_find _ _ _ Ht Hmc). by apply (Hch mc c Hmc).
    - rewrite Ep. intros p. by apply findParent_live. }
  intros [] s2 [Hlo2 Hl2]. pose proof (linksOnly_trans _ _ _ Hlo1 Hlo2) as Hlo.
  apply wp_bind, wp_modify. apply wp_modify.
  pose proof (erase_tree s n r e Ht Hr He s2 Hlo Hl2) as Ht3.
  assert (∀ m, tableFind m (tableErase n (rb_rib s2)) = if bool_decide (m = n) then None else Rib_find s m) as HF.
  { intros m. rewrite tableFind_erase. case_bool_decide; [done|]. apply (linksOnly_find _ _ _ Hlo). }
  split_and!; [by eapply rib_tree_same; [..|exact Ht3]|..|done]; try by destruct Hlo as (h & -> & _).
  - destruct Hlo as (h & -> & _). simpl. by rewrite En.
  - intros m. unfold ribView, Rib_find at 1. cbn [rb_rib set_rb_rib emit rb_heap]. rewrite HF.
    case_bool_decide; [done|]. etrans; [|exact (linksOnly_view s s2 m Hlo)].
    unfold ribView. by rewrite (linksOnly_find _ _ m Hlo).
Qed.

(** ** Insertion and removal on the map

    The routes of a name, the routes it has inherited and its count of routes
    with the capture flag, after a route is registered or unregistered. *)
Abbreviation EntryView := (list Route * list Route * Z)%type.
Definition viewEntry (v : EntryView) : RibEntry := mkRibEntry [] [] None v.1.1 v.1.2 v.2.
Definition registerView (route : Route) (v : option EntryView) : EntryView :=
  entryView (match v with
             | Some v => registered route (viewEntry v)
             | None => (insertRoute route RibEntry_new).1
             end).
Definition unregisterView (route : Route) (v : EntryView) : option EntryView :=
  let e := (eraseRoute route (viewEntry v)).1 in
  if bool_decide (re_routes e = []) then None else Some (entryView e).

Lemma registered_view route e : entryView (registered route e) = registerView route (Some (entryView e)).
Proof.
  unfold registerView, registered, insertRoute, findRoute. destruct e as [n ch p rs ir c].
  cbn [re_routes viewEntry entryView fst snd].
  destruct (List.find _ rs); [done|]. by destruct (isRibCapture route).
Qed.
Lemma newEntry_view n route : entryView (newEntry n route) = registerView route None.
Proof. unfold newEntry, registerView, insertRoute. simpl. by destruct (isRibCapture route). Qed.
Lemma erased_view route e : entryView (eraseRoute route e).1 = entryView (eraseRoute route (viewEntry (entryView e))).1.
Proof.
  unfold eraseRoute, findRoute. destruct e as [n ch p rs ir c]. cbn [re_routes viewEntry entryView fst snd].
  destruct (List.find _ rs) as [x|]; [|done]. by destruct (isRibCapture x).
Qed.
Lemma ribView_find s n r e : Rib_find s n = Some r → rb_heap s !! r = Some e → ribView s n = Some (entryView e).
Proof. intros Hr He. unfold ribView. rewrite Hr. simpl. by rewrite He. Qed.
Lemma ribView_None s n : rib_tree s → ribView s n = None ↔ Rib_find s n = None.
Proof.
  intros Ht. unfold ribView. destruct (Rib_find s n) as [r|] eqn:Hr; [|done].
  destruct (tr_entry s Ht n r Hr) as (_ & e & He & _). simpl. by rewrite He.
Qed.
Lemma ribView_Some s n v :
  ribView s n = Some v → ∃ r e, Rib_find s n = Some r ∧ rb_heap s !! r = Some e ∧ v = entryView e.
Proof.
  unfold ribView. destruct (Rib_find s n) as [r|]; [|done]. simpl.
  destruct (rb_heap s !! r) as [e|] eqn:He; [|done]. intros <-%(inj Some). eauto.
Qed.

Definition hasRouteView (route : Route) (v : option EntryView) : bool :=
  match v with Some v => hasRoute (viewEntry v) route | None => false end.

(** What both operations do to the members that the tree does not use. *)
Lemma Rib_insert_spec s n route :
  rib_tree s → smallName n →
  wp (Rib_insert n route) (fun _ s' =>
    rib_tree s' ∧ sameQueue s s' ∧
    (∀ m, ribView s' m = if bool_decide (m = n) then Some (registerView route (ribView s n)) else ribView s m) ∧
    (∀ m x, Rib_find s m = Some x → Rib_find s' m = Some x) ∧
    if hasRouteView route (ribView s n) then
      rb_nItems s' = rb_nItems s ∧ rb_faceEntries s' = rb_faceEntries s
    else rb_nItems s' = u64 (rb_nItems s + 1) ∧ ∃ r, Rib_find s' n = Some r ∧
      rb_faceEntries s' = faceEmplace (rt_faceId route) r (rb_faceEntries s)) s.
Proof.
  intros Ht Hn. unfold Rib_insert. apply wp_bind, wp_get. destruct (Rib_find s n) as [r|] eqn:Hr.
  - destruct (tr_entry s Ht n r Hr) as (_ & e & He & _). rewrite (ribView_find _ _ _ _ Hr He).
    eapply wp_mono; [by apply (insertExisting_spec s n r e)|].
    intros [] s' (Ht' & Hq & Hv & HF & Hrest). rewrite <-registered_view.
    split_and!; [done..|by intros; rewrite HF|]. cbn [hasRouteView].
    change (hasRoute (viewEntry (entryView e)) route) with (hasRoute e route).
    destruct (hasRoute e route); [done|]. destruct Hrest as [H1 H2]. split; [done|].
    exists r. by rewrite HF.
  - rewrite (proj2 (ribView_None s n Ht) Hr). eapply wp_mono; [by apply insertNew_spec|].
    intros [] s' (Ht' & Hq & Hni & Hv & r & _ & HF & Hfe & _). cbn [hasRouteView].
    rewrite <-(newEntry_view n). split_and!; [done..| |done|].
    + intros m x Hx. rewrite HF. case_bool_decide; [congruence|done].
    + exists r. by rewrite HF, bool_decide_true.
Qed.
Lemma Rib_erase_spec s n route :
  rib_tree s →
  wp (Rib_erase n route) (fun _ s' =>
    rib_tree s' ∧ sameQueue s s' ∧
    if hasRouteView route (ribView s n) then
      (∀ m, ribView s' m = if bool_decide (m = n) then ribView s n ≫= unregisterView route else ribView s m) ∧
      (∀ m x, Rib_find s' m = Some x → Rib_find s m = Some x) ∧
      rb_nItems s' = u64 (rb_nItems s - 1) ∧
      ∃ r e, Rib_find s n = Some r ∧ rb_heap s !! r = Some e ∧
        rb_faceEntries s' = if hasFaceId (eraseRoute route e).1 (rt_faceId route) then rb_faceEntries s
          else removeFirst (fun fr => bool_decide (fr = (rt_faceId route, r))) (rb_faceEntries s)
    else s' = s) s.
Proof.
  intros Ht. unfold Rib_erase. apply wp_bind, wp_get. destruct (Rib_find s n) as [r|] eqn:Hr.
  2:{ rewrite (proj2 (ribView_None s n Ht) Hr). by apply wp_ret. }
  destruct (tr_entry s Ht n r Hr) as (Hn & e & He & Ene). rewrite (ribView_find _ _ _ _ Hr He).
  cbn [hasRouteView mbind option_bind]. unfold hasRoute.
  change (findRoute (viewEntry (entryView e)) route) with (findRoute e route).
  apply wp_bind. eapply wp_getEntry; [done|]. destruct (findRoute e route) as [found|] eqn:Ef; [|by apply wp_ret].
  destruct (eraseRoute_links route e) as (E1 & E2 & E3). pose proof (erased_view route e) as Ev.
  unfold unregisterView. destruct (eraseRoute route e) as [e' ev] eqn:Eer. cbn [fst] in *.
  apply wp_bind, wp_modify. apply wp_bind. eapply wp_setEntry; [done|].
  destruct (setEntry_tree s n r e e' Ht Hr He E1 E2 E3) as [Ht1 Hv1].
  set (s1 := set_rb_heap _ s) in *. apply wp_bind.
  eapply wp_mono with (R := fun _ s2 => rb_heap s2 = rb_heap s1 ∧ rb_rib s2 = rb_rib s1 ∧ sameQueue s1 s2 ∧
    rb_nItems s2 = rb_nItems s1 ∧ rb_faceEntries s2 = rb_faceEntries s1).
  { unfold cancelEvent. by destruct ev. }
  intros [] s2 (Eh2 & Et2 & Eq2 & En2 & Efc2). apply wp_bind, wp_modify. apply wp_bind.
  set (faces := if hasFaceId e' (rt_faceId route) then rb_faceEntries s
     else removeFirst (fun fr => bool_decide (fr = (rt_faceId route, r))) (rb_faceEntries s)).
  eapply wp_mono with (R := fun _ s3 => rb_heap s3 = rb_heap s1 ∧ rb_rib s3 = rb_rib s1 ∧ sameQueue s1 s3 ∧
    rb_nItems s3 = u64 (rb_nItems s - 1) ∧ rb_faceEntries s3 = faces).
  { unfold faces. destruct (hasFaceId e' _); simpl;
      (split_and!; [done|done|apply Eq2|by rewrite En2|first [exact Efc2|cbn [rb_faceEntries set_rb_faceEntries set_rb_nItems]; by rewrite Efc2]]). }
  intros [] s3 (Eh & Et & Eq & En & Efc).
  assert (rib_tree s3) as Ht3 by (by eapply rib_tree_same; [..|exact Ht1]).
  assert (re_routes (eraseRoute route (viewEntry (entryView e))).1 = re_routes e') as Er.
  { exact (eq_sym (f_equal (fun v => v.1.1) Ev)). }
  rewrite Er, <-Ev.
  assert (∀ m, ribView s3 m = ribView s1 m) as Hv3 by (intros; by apply ribView_same).
  assert (∀ m, Rib_find s3 m = Rib_find s m) as HF3 by (intros m; unfold Rib_find; by rewrite Et).
  case_bool_decide as Emp.
  - eapply wp_mono; [apply (eraseEntry_spec s3 n r Ht3); by rewrite HF3|].
    intros [] s4 (Ht4 & Hq4 & En4 & Efc4 & _ & Hv4 & HF4).
    split_and!; [done|destruct Hq4, Eq; split; etrans; eauto|..|by rewrite En4|by exists r, e; rewrite Efc4, Eer].
    + intros m. rewrite Hv4, Hv3. case_bool_decide as Em; [done|]. rewrite Hv1. by rewrite bool_decide_false.
    + intros m x. rewrite HF4, HF3. by case_bool_decide.
  - apply wp_ret. split_and!; [done|done| |by intros m x; rewrite HF3|done|by exists r, e; rewrite Eer].
    intros m. by rewrite Hv3, Hv1.
Qed.
