(* ===== verification/RibProps.v ===== *)
(** * The Routing Information Base over sequences of operations

    The invariant of the whole table (its tree, the routes of every name, the
    number of routes and the lookup table by face) holds in the empty RIB and is
    kept by [Rib::insert] and [Rib::erase], so every sequence of them runs to
    its end. *)

From S2P Require Import Prelude Tlv Component Name PrefixAnn RibEntry Rib RibTree.
Local Open Scope Z_scope.

Definition routeKey (r : Route) : Z * Z := (rt_faceId r, rt_origin r).

Lemma compareFaceIdAndOrigin_key r route :
  compareFaceIdAndOrigin r route = bool_decide (routeKey r = routeKey route).
Proof.
  unfold compareFaceIdAndOrigin, routeKey. apply Bool.eq_iff_eq_true.
  rewrite andb_true_iff, !bool_decide_eq_true. split; [by intros [-> ->]|by intros [= -> ->]].
Qed.
Lemma findRoute_key e route :
  findRoute e route = List.find (fun r => bool_decide (routeKey r = routeKey route)) (re_routes e).
Proof.
  unfold findRoute. induction (re_routes e) as [|r l IH]; [done|]. cbn [List.find].
  by rewrite compareFaceIdAndOrigin_key, IH.
Qed.
Lemma updateFirst_pred {A} (p q : A → bool) f l : (∀ x, p x = q x) → updateFirst p f l = updateFirst q f l.
Proof. intros E. induction l as [|x l IH]; [done|]. cbn [updateFirst]. by rewrite E, IH. Qed.
Lemma removeFirst_pred {A} (p q : A → bool) l : (∀ x, p x = q x) → removeFirst p l = removeFirst q l.
Proof. intros E. induction l as [|x l IH]; [done|]. cbn [removeFirst]. by rewrite E, IH. Qed.

(** ** The routes of a name *)

Abbreviation viewRoutes v := (v.1.1 : list Route).

Lemma registerView_routes route v :
  viewRoutes (registerView route v) =
    match v with
    | Some v =>
        if hasRouteView route (Some v)
        then updateFirst (fun r => bool_decide (routeKey r = routeKey route)) (fun _ => route) (viewRoutes v)
        else viewRoutes v ++ [route]
    | None => [route]
    end.
Proof.
  unfold registerView, hasRouteView, hasRoute. destruct v as [v|].
  - unfold registered, insertRoute. destruct (findRoute (viewEntry v) route) eqn:E.
    + apply updateFirst_pred. intros. apply compareFaceIdAndOrigin_key.
    + by destruct (isRibCapture route).
  - unfold insertRoute. simpl. by destruct (isRibCapture route).
Qed.
Lemma eraseRoute_routes route e :
  re_routes (eraseRoute route e).1 =
    removeFirst (fun r => bool_decide (routeKey r = routeKey route)) (re_routes e).
Proof.
  unfold eraseRoute. destruct (findRoute e route) as [r|] eqn:E.
  - destruct (isRibCapture r); apply removeFirst_pred; intros; apply compareFaceIdAndOrigin_key.
  - cbn [fst]. rewrite findRoute_key in E. induction (re_routes e) as [|x l IH]; [done|].
    cbn [List.find removeFirst] in *. destruct (bool_decide _); [done|]. f_equal. auto.
Qed.
Lemma unregisterView_routes route v v' :
  unregisterView route v = Some v' →
  viewRoutes v' = removeFirst (fun r => bool_decide (routeKey r = routeKey route)) (viewRoutes v) ∧
  viewRoutes v' ≠ [].
Proof.
  unfold unregisterView. case_bool_decide as E; [done|]. intros <-%(inj Some).
  cbn [entryView fst]. split; [|done]. apply (eraseRoute_routes route (viewEntry v)).
Qed.
Lemma hasRouteView_key route v :
  hasRouteView route (Some v) = true ↔ routeKey route ∈ map routeKey (viewRoutes v).
Proof.
  unfold hasRouteView, hasRoute. rewrite findRoute_key. cbn [viewEntry re_routes].
  destruct (List.find _ _) as [r|] eqn:E.
  - split; [|done]. intros _. apply (find_key_Some routeKey) in E as [Hin <-]. by apply list_elem_of_fmap_2.
  - apply (find_key_None routeKey) in E. done.
Qed.

(** A name of the table has routes, one per face and origin. *)
Definition routes_ok (l : list Route) : Prop := l ≠ [] ∧ NoDup (map routeKey l).

Lemma registerView_ok route v :
  (∀ w, v = Some w → routes_ok (viewRoutes w)) → routes_ok (viewRoutes (registerView route v)).
Proof.
  intros Hv. rewrite registerView_routes. destruct v as [w|]; [|split; [done|apply NoDup_singleton]].
  destruct (Hv w eq_refl) as [Hne Hnd]. destruct (hasRouteView route (Some w)) eqn:E.
  - split; [destruct (viewRoutes w); [done|simpl; by case_bool_decide]|].
    assert (map routeKey (updateFirst (fun r => bool_decide (routeKey r = routeKey route)) (fun _ => route)
      (viewRoutes w)) = map routeKey (viewRoutes w)) as ->; [|done].
    clear. induction (viewRoutes w) as [|x l IH]; [done|]. simpl. case_bool_decide; simpl; congruence.
  - split; [by destruct (viewRoutes w)|]. rewrite map_app. apply NoDup_app. split_and!; [done| |apply NoDup_singleton].
    intros k Hk ->%list_elem_of_singleton. apply hasRouteView_key in Hk. congruence.
Qed.
Lemma unregisterView_ok route v w :
  routes_ok (viewRoutes v) → unregisterView route v = Some w → routes_ok (viewRoutes w).
Proof.
  intros [_ Hnd] [E Hne]%unregisterView_routes. split; [done|]. rewrite E. by apply NoDup_removeFirst.
Qed.

(** ** The number of routes *)

Definition viewCount (s : Rib) (n : Name) : nat :=
  match ribView s n with Some v => length (viewRoutes v) | None => 0%nat end.
Definition otherNames (n : Name) (s : Rib) : list Name :=
  List.filter (fun m => negb (bool_decide (m = n))) (map fst (rb_rib s)).
Definition routeTotal (s : Rib) : nat := sum_list (map (viewCount s) (map fst (rb_rib s))).

Lemma names_NoDup s : rib_tree s → NoDup (map fst (rb_rib s)).
Proof.
  intros Ht. pose proof (tr_sorted s Ht) as Hs. revert Hs. generalize (rb_rib s).
  induction 1 as [|[n r] l Hs IH Hf]; simpl; [constructor|]. constructor; [|done].
  intros ([n' r'] & -> & Hin)%list_elem_of_fmap. rewrite Forall_forall in Hf.
  by apply Hf, name_cmp_irrefl in Hin.
Qed.
Lemma elem_of_names s n : rib_tree s → n ∈ map fst (rb_rib s) ↔ is_Some (ribView s n).
Proof.
  intros Ht. rewrite <-not_eq_None_Some, ribView_None by done. unfold Rib_find.
  pose proof (tr_sorted s Ht) as Hs. split.
  - intros ([n' r] & -> & Hin)%list_elem_of_fmap. apply tableFind_Some in Hin; [|done].
    simpl. congruence.
  - destruct (tableFind n (rb_rib s)) as [r|] eqn:E; [|done]. intros _.
    apply tableFind_Some in E; [|done]. by apply (list_elem_of_fmap_2 fst) in E.
Qed.
Lemma routeTotal_split s n :
  rib_tree s → routeTotal s = (viewCount s n + sum_list (map (viewCount s) (otherNames n s)))%nat.
Proof.
  intros Ht. pose proof (names_NoDup s Ht) as Hnd. unfold routeTotal, otherNames.
  destruct (decide (n ∈ map fst (rb_rib s))) as [Hin|Hin].
  - revert Hnd Hin. generalize (map fst (rb_rib s)). intros l.
    induction 1 as [|m l Hm Hnd IH]; [by intros ?%not_elem_of_nil|]. simpl. intros [<-|Hin]%elem_of_cons.
    + rewrite bool_decide_true by done. simpl. do 2 f_equal. clear IH Hnd.
      induction l as [|x l IH]; [done|]. simpl. apply not_elem_of_cons in Hm as [Hx Hm].
      rewrite bool_decide_false by done. simpl. by rewrite IH.
    + rewrite bool_decide_false by (intros ->; done). simpl. rewrite (IH Hin). lia.
  - assert (viewCount s n = 0%nat) as ->.
    { unfold viewCount. destruct (ribView s n) eqn:E; [|done]. destruct Hin. by apply elem_of_names; rewrite ?E. }
    simpl. f_equal. f_equal. revert Hin. generalize (map fst (rb_rib s)). clear.
    induction l as [|x l IH]; [done|]. intros [Hx Hin]%not_elem_of_cons. simpl.
    rewrite bool_decide_false by done. simpl. by rewrite <-IH.
Qed.
(** Only the routes of [n] change, so only their number does. *)
Lemma routeTotal_change s s' n :
  rib_tree s → rib_tree s' → (∀ m, m ≠ n → ribView s' m = ribView s m) →
  (routeTotal s' + viewCount s n = routeTotal s + viewCount s' n)%nat.
Proof.
  intros Ht Ht' Hv. rewrite (routeTotal_split s n Ht), (routeTotal_split s' n Ht').
  enough (sum_list (map (viewCount s') (otherNames n s')) = sum_list (map (viewCount s) (otherNames n s))) by lia.
  assert (otherNames n s' ≡ₚ otherNames n s) as ->.
  { apply NoDup_Permutation.
    1,2: by apply NoDup_ListNoDup, List.NoDup_filter, NoDup_ListNoDup, names_NoDup.
    intros m. unfold otherNames. rewrite !list_elem_of_In, !filter_In, <-!list_elem_of_In, !elem_of_names by done.
    rewrite negb_true_iff, bool_decide_eq_false.
    split; intros [H1 H2]; (split; [|done]); rewrite Hv in * by done; done. }
  unfold otherNames. f_equal. apply map_ext_in. intros m [_ Hm]%filter_In.
  rewrite negb_true_iff, bool_decide_eq_false in Hm. unfold viewCount. by rewrite Hv.
Qed.

(** ** The invariant *)

Record rib_inv (s : Rib) : Prop := {
  ri_tree : rib_tree s;
  ri_routes : ∀ n v, ribView s n = Some v → routes_ok (viewRoutes v);
  ri_count : rb_nItems s = u64 (Z.of_nat (routeTotal s));
  ri_faces : ∀ n r v route, Rib_find s n = Some r → ribView s n = Some v → route ∈ viewRoutes v →
    (rt_faceId route, r) ∈ rb_faceEntries s
}.

Lemma Rib_init_inv : rib_inv Rib_init.
Proof. split; [split; [constructor|done|]|done..]. intros r [n Hn]. done. Qed.

Lemma elem_of_faceEmplace f r l x : x ∈ faceEmplace f r l ↔ x = (f, r) ∨ x ∈ l.
Proof.
  induction l as [|[f' r'] l IH]; cbn [faceEmplace].
  - rewrite list_elem_of_singleton. split; [by left|]. intros [->|?%not_elem_of_nil]; done.
  - case_bool_decide; rewrite !elem_of_cons; [tauto|]. rewrite IH. tauto.
Qed.
Lemma elem_of_updateFirst_const {A} (p : A → bool) (x y : A) l :
  y ∈ updateFirst p (fun _ => x) l → y = x ∨ y ∈ l.
Proof.
  induction l as [|z l IH]; cbn [updateFirst]; [by intros ?%not_elem_of_nil|].
  destruct (p z); rewrite !elem_of_cons; [tauto|]. intros [->|H]; [tauto|]. destruct (IH H); tauto.
Qed.
Lemma registerView_old route v r :
  r ∈ viewRoutes (registerView route v) → r = route ∨ ∃ w, v = Some w ∧ r ∈ viewRoutes w.
Proof.
  rewrite registerView_routes. destruct v as [w|]; [|intros ->%list_elem_of_singleton; by left].
  destruct (hasRouteView route (Some w)).
  - intros [->|Hin]%elem_of_updateFirst_const; eauto.
  - rewrite elem_of_app, list_elem_of_singleton. intros [Hin| ->]; eauto.
Qed.
Lemma registerView_length route v :
  length (viewRoutes (registerView route v)) =
    (match v with Some w => length (viewRoutes w) | None => 0 end +
     if hasRouteView route v then 0 else 1)%nat.
Proof.
  rewrite registerView_routes. destruct v as [w|]; [|done].
  destruct (hasRouteView route (Some w)); [by rewrite updateFirst_length, Nat.add_0_r|by rewrite length_app].
Qed.
Lemma unregisterView_length route v :
  hasRouteView route (Some v) = true →
  S (match unregisterView route v with Some w => length (viewRoutes w) | None => 0 end)%nat =
    length (viewRoutes v).
Proof.
  intros Hin%hasRouteView_key.
  pose proof (eraseRoute_routes route (viewEntry v)) as Er.
  assert (S (length (re_routes (eraseRoute route (viewEntry v)).1)) = length (viewRoutes v)) as <-.
  { rewrite Er. cbn [viewEntry re_routes].
    destruct (List.find (fun r => bool_decide (routeKey r = routeKey route)) (viewRoutes v)) as [r|] eqn:Ef.
    - by rewrite <-(Permutation_length (removeFirst_perm _ _ _ Ef)).
    - by apply (find_key_None routeKey) in Ef. }
  unfold unregisterView. case_bool_decide as E; [by rewrite E|done].
Qed.

Lemma Rib_insert_inv s n route :
  rib_inv s → smallName n → wp (Rib_insert n route) (fun _ => rib_inv) s.
Proof.
  intros [Ht Hok Hc Hf] Hn. eapply wp_mono; [by apply Rib_insert_spec|].
  intros [] s' (Ht' & _ & Hv & HF & Hrest).
  assert (∀ m, m ≠ n → ribView s' m = ribView s m) as Hother by (intros m Hm; by rewrite Hv, bool_decide_false).
  assert (ribView s' n = Some (registerView route (ribView s n))) as Hvn by by rewrite Hv, bool_decide_true.
  pose proof (routeTotal_change s s' n Ht Ht' Hother) as Htot. unfold viewCount in Htot.
  rewrite Hvn, registerView_length in Htot. split; [done|..].
  - intros m v Hm. destruct (decide (m = n)) as [->|Hmn]; [|rewrite Hother in Hm by done; eauto].
    rewrite Hvn in Hm. apply (inj Some) in Hm as <-. apply registerView_ok. eauto.
  - destruct (hasRouteView route (ribView s n)); destruct Hrest as [-> _]; rewrite Hc, ?u64_add_l; f_equal; lia.
  - assert (∀ x, x ∈ rb_faceEntries s → x ∈ rb_faceEntries s') as Hsub.
    { destruct (hasRouteView route (ribView s n)).
      - by destruct Hrest as [_ ->].
      - destruct Hrest as (_ & r & _ & ->). intros x Hx. apply elem_of_faceEmplace. auto. }
    assert (∀ m r, is_Some (ribView s m) → Rib_find s' m = Some r → Rib_find s m = Some r) as HF'.
    { intros m r (v & Hm) Hr. apply ribView_Some in Hm as (r' & _ & Hr' & _). rewrite (HF _ _ Hr') in Hr. congruence. }
    intros m r v rt Hr Hm Hin. destruct (decide (m = n)) as [->|Hmn]; cycle 1.
    { rewrite Hother in Hm by done. apply Hsub. by eapply Hf; [apply HF'|..]. }
    rewrite Hvn in Hm. apply (inj Some) in Hm as <-.
    apply registerView_old in Hin as [->|(w & Hw & Hin)]; [|by apply Hsub; eapply Hf; [apply HF'|..]].
    destruct (hasRouteView route (ribView s n)) eqn:Hh.
    + destruct (ribView s n) as [w|] eqn:Hw; [|done].
      apply hasRouteView_key, list_elem_of_fmap in Hh as (r0 & Ek & Hr0). apply Hsub.
      injection Ek as -> _. by eapply Hf; [apply HF'; [by rewrite Hw|]|..].
    + destruct Hrest as (_ & r' & Hr' & ->). apply elem_of_faceEmplace. left. congruence.
Qed.

Lemma elem_of_removeFirst_ne {A} `{EqDecision A} (x y : A) l :
  x ≠ y → x ∈ l → x ∈ removeFirst (fun z => bool_decide (z = y)) l.
Proof.
  intros Hne. induction l as [|z l IH]; cbn [removeFirst]; [done|]. rewrite elem_of_cons.
  case_bool_decide as E; [subst; by intros [->|?]|]. rewrite elem_of_cons. tauto.
Qed.
Lemma hasFaceId_false e f : hasFaceId e f = false ↔ ∀ r, r ∈ re_routes e → rt_faceId r ≠ f.
Proof.
  unfold hasFaceId. rewrite <-not_true_iff_false, existsb_exists. setoid_rewrite <-list_elem_of_In.
  setoid_rewrite bool_decide_eq_true. naive_solver.
Qed.

Lemma Rib_erase_inv s n route : rib_inv s → wp (Rib_erase n route) (fun _ => rib_inv) s.
Proof.
  intros [Ht Hok Hc Hf]. eapply wp_mono; [by apply Rib_erase_spec|]. intros [] s' (Ht' & _ & Hrest).
  destruct (hasRouteView route (ribView s n)) eqn:Hh; [|by subst; split].
  destruct Hrest as (Hv & HF & Hni & r & e & Hr & He & Hfe).
  rewrite (ribView_find _ _ _ _ Hr He) in Hh. set (v := entryView e) in *.
  assert (ribView s n = Some v) as Hvn by by apply (ribView_find _ _ r).
  assert (∀ m, m ≠ n → ribView s' m = ribView s m) as Hother by (intros m Hm; by rewrite Hv, bool_decide_false).
  assert (ribView s' n = unregisterView route v) as Hvn' by by rewrite Hv, bool_decide_true, Hvn.
  split; [done|..].
  - intros m w Hm. destruct (decide (m = n)) as [->|Hmn]; [|rewrite Hother in Hm by done; eauto].
    rewrite Hvn' in Hm. eapply unregisterView_ok; [|done]. eauto.
  - pose proof (routeTotal_change s s' n Ht Ht' Hother) as Htot. unfold viewCount in Htot.
    rewrite Hvn, Hvn', <-(unregisterView_length route v Hh) in Htot. rewrite Hni, Hc.
    change (u64 (Z.of_nat (routeTotal s)) - 1) with (u64 (Z.of_nat (routeTotal s)) + -1).
    rewrite u64_add_l. f_equal. lia.
  - intros m x w rt Hx Hm Hin.
    assert (∀ y, (rt_faceId rt, x) ∈ rb_faceEntries s → (rt_faceId rt, x) ≠ (rt_faceId route, r) ∨ y = true →
      (rt_faceId rt, x) ∈ if y then rb_faceEntries s
        else removeFirst (fun fr => bool_decide (fr = (rt_faceId route, r))) (rb_faceEntries s)) as Hkeep.
    { intros [] Hin' [Hne|?]; try done. by apply elem_of_removeFirst_ne. }
    rewrite Hfe. destruct (decide (m = n)) as [->|Hmn].
    + rewrite Hvn' in Hm. destruct (unregisterView_routes _ _ _ Hm) as [Ew _].
      assert (rt ∈ viewRoutes v) as Hold by (eapply sublist_subseteq; [apply removeFirst_sublist|by rewrite <-Ew]).
      apply Hkeep; [by eapply Hf; [apply HF|..]|].
      destruct (hasFaceId (eraseRoute route e).1 (rt_faceId route)) eqn:Ehf; [by right|left].
      intros [= E _]. rewrite hasFaceId_false in Ehf. eapply Ehf; [|exact E].
      rewrite eraseRoute_routes. by rewrite Ew in Hin.
    + rewrite Hother in Hm by done. apply Hkeep; [by eapply Hf; [apply HF|..]|]. left.
      intros [= _ ->]. apply Hmn. eapply Rib_find_inj; [exact Ht|by apply HF|done].
Qed.

(** ** Sequences of operations *)

Inductive RibOp : Type :=
| OpInsert (n : Name) (route : Route)
| OpErase (n : Name) (route : Route).
Definition ribStep (o : RibOp) : M Rib unit :=
  match o with OpInsert n r => Rib_insert n r | OpErase n r => Rib_erase n r end.
Definition ribOp_ok (o : RibOp) : Prop :=
  match o with OpInsert n _ | OpErase n _ => smallName n end.

(** C15. Any sequence of [Rib::insert] and [Rib::erase] on an empty RIB runs to
    its end: no assertion of [addChild] or [removeChild] fails and no null entry
    is used.  In the RIB it leaves, the parent of an entry is the entry of its
    longest proper prefix in the table and its children are exactly the entries
    whose parent it is; every name has routes, at most one per face and origin;
    [size()] is their number; and every route is found under its face in the
    lookup table that serves the removal of a face. *)
Theorem rib_runs_safely (ops : list RibOp) :
  Forall ribOp_ok ops →
  ∃ s, forM_ ops ribStep Rib_init = Ok (tt, s) ∧
    rb_nItems s = u64 (Z.of_nat (routeTotal s)) ∧
    ∀ n r, Rib_find s n = Some r →
      ∃ e, rb_heap s !! r = Some e ∧ re_name e = n ∧ routes_ok (re_routes e) ∧
        re_parent e = findParent s n ∧ NoDup (re_children e) ∧
        (∀ c, c ∈ re_children e ↔ ∃ m, Rib_find s m = Some c ∧ findParent s m = Some r) ∧
        (∀ route, route ∈ re_routes e → (rt_faceId route, r) ∈ rb_faceEntries s).
Proof.
  intros Hops. destruct (wp_elim _ _ _ (wp_forM rib_inv ops ribStep Rib_init Rib_init_inv
    ltac:(intros [] s Hin Hs; rewrite Forall_forall in Hops; specialize (Hops _ Hin);
          [by apply Rib_insert_inv|by apply Rib_erase_inv]))) as ([] & s & Hrun & [Ht Hok Hc Hf]).
  exists s. split_and!; [done..|]. intros n r Hr.
  destruct (tr_entry s Ht n r Hr) as (Hn & e & He & En).
  destruct (erase_links s n r e Ht Hr He) as (Ep & Hnd & Hch).
  pose proof (ribView_find _ _ _ _ Hr He) as Hv.
  exists e. split_and!; [done..|by apply (Hok n (entryView e))|done|done| |].
  - intros c. split.
    + intros Hc'. destruct (erase_child_ne s n r e Ht Hr He c Hc') as [[m Hm] _]. exists m.
      split; [done|]. by apply (Hch m c).
    + intros (m & Hm & Hp). by apply (Hch m c).
  - intros route Hin. by apply (Hf n r (entryView e)).
Qed.
