(* ===== verification/FibUpdater.v ===== *)
(** * Computing and sending FIB updates (NFD [rib/fib-updater.cpp])

    The updater reads the RIB and writes its own lists: the updates for the
    face of the batch, those for other faces, and the changes to the inherited
    routes that the RIB applies once the FIB has accepted the updates.  A copy of
    a RIB entry shares the expiration events of its routes, so erasing a route
    in a copy cancels the event of the original; [up_cancelled] records it. *)

From S2P Require Import Prelude Tlv Component Name RibEntry Rib.
Local Open Scope Z_scope.

Definition MAX_NUM_TIMEOUTS : Z := 10.
Definition ERROR_FACE_NOT_FOUND : Z := 410.
Definition ERROR_TIMEOUT : Z := 10060.

Record FibUpdater := mkFibUpdater {
  up_batchFaceId : Z;
  up_updatesForBatchFaceId : list FibUpdate;
  up_updatesForNonBatchFaceId : list FibUpdate;
  up_inheritedRoutes : list RibUpdate;
  up_cancelled : list EventId
}.
Definition FibUpdater_init : FibUpdater := mkFibUpdater 0 [] [] [] [].
Definition set_up_batch v u :=
  mkFibUpdater (up_batchFaceId u) v (up_updatesForNonBatchFaceId u) (up_inheritedRoutes u) (up_cancelled u).
Definition set_up_nonBatch v u :=
  mkFibUpdater (up_batchFaceId u) (up_updatesForBatchFaceId u) v (up_inheritedRoutes u) (up_cancelled u).
Definition set_up_inherited v u :=
  mkFibUpdater (up_batchFaceId u) (up_updatesForBatchFaceId u) (up_updatesForNonBatchFaceId u) v (up_cancelled u).
Definition cancelIn (ev : option EventId) u :=
  mkFibUpdater (up_batchFaceId u) (up_updatesForBatchFaceId u) (up_updatesForNonBatchFaceId u)
    (up_inheritedRoutes u) (up_cancelled u ++ match ev with Some i => [i] | None => [] end).

(** ** The lists of updates *)

(** [addFibUpdate]: an update with the same name and face is replaced. *)
Definition sameTarget (update other : FibUpdate) : bool :=
  bool_decide (fu_name update = fu_name other) && bool_decide (fu_faceId update = fu_faceId other).
Definition putUpdate (update : FibUpdate) (updates : list FibUpdate) : list FibUpdate :=
  if existsb (sameTarget update) updates
  then updateFirst (sameTarget update) (fun o => mkFibUpdate (fu_name o) (fu_faceId o) (fu_cost update) (fu_action update)) updates
  else updates ++ [update].
Definition addFibUpdate (update : FibUpdate) : M FibUpdater unit :=
  modify (fun u =>
    if bool_decide (fu_faceId update = up_batchFaceId u)
    then set_up_batch (putUpdate update (up_updatesForBatchFaceId u)) u
    else set_up_nonBatch (putUpdate update (up_updatesForNonBatchFaceId u)) u).

Definition addInheritedRoute (name : Name) (route : Route) : M FibUpdater unit :=
  modify (fun u => set_up_inherited (up_inheritedRoutes u ++ [mkRibUpdate REGISTER name route]) u).
Definition removeInheritedRoute (name : Name) (route : Route) : M FibUpdater unit :=
  modify (fun u => set_up_inherited (up_inheritedRoutes u ++ [mkRibUpdate UNREGISTER name route]) u).

(** The two [addInheritedRoutes] and [removeInheritedRoutes]. *)
Definition addInheritedRoutes (entry : RibEntry) (routesToAdd : RouteSet) : M FibUpdater unit :=
  forM_ routesToAdd (fun route =>
    if negb (hasFaceId entry (rt_faceId route)) then
      addInheritedRoute (re_name entry) route;;
      addFibUpdate (createAddUpdate (re_name entry) (rt_faceId route) (rt_cost route))
    else mret tt).
Definition addInheritedRoutes_name (name : Name) (routesToAdd : RouteSet) (ignore : Route)
  : M FibUpdater unit :=
  forM_ routesToAdd (fun route =>
    if bool_decide (rt_faceId route ≠ rt_faceId ignore) then
      addInheritedRoute name route;;
      addFibUpdate (createAddUpdate name (rt_faceId route) (rt_cost route))
    else mret tt).
Definition removeInheritedRoutes (entry : RibEntry) (routesToRemove : RouteSet) : M FibUpdater unit :=
  forM_ routesToRemove (fun route =>
    if hasInheritedRoute entry route then
      removeInheritedRoute (re_name entry) route;;
      addFibUpdate (createRemoveUpdate (re_name entry) (rt_faceId route))
    else mret tt).

(** ** The walk over a subtree *)

(** The two loops of [traverseSubTree]; each returns what is left of its set. *)
Fixpoint traverseRemove (entry : RibEntry) (routesToRemove : RouteSet) : M FibUpdater RouteSet :=
  match routesToRemove with
  | [] => mret []
  | route :: rest =>
      if hasChildInheritOnFaceId entry (rt_faceId route) then traverseRemove entry rest
      else
        (if hasInheritedRoute entry route then
           removeInheritedRoute (re_name entry) route;;
           addFibUpdate (createRemoveUpdate (re_name entry) (rt_faceId route))
         else mret tt);;
        rest' ← traverseRemove entry rest;
        mret (route :: rest')
  end.
Fixpoint traverseAdd (entry : RibEntry) (routesToAdd : RouteSet) : M FibUpdater RouteSet :=
  match routesToAdd with
  | [] => mret []
  | route :: rest =>
      if hasChildInheritOnFaceId entry (rt_faceId route) then traverseAdd entry rest
      else
        (if negb (hasFaceId entry (rt_faceId route)) then
           addInheritedRoute (re_name entry) route;;
           addFibUpdate (createAddUpdate (re_name entry) (rt_faceId route) (rt_cost route))
         else mret tt);;
        rest' ← traverseAdd entry rest;
        mret (route :: rest')
  end.

Section compute.
Context (rib : Rib).

(** [traverseSubTree] and [modifyChildrensInheritedRoutes]; a child has a longer
    name than its parent, so the depth is bounded by the number of entries. *)
Fixpoint traverseSubTree (fuel : nat) (r : RibRef) (routesToAdd routesToRemove : RouteSet)
  : M FibUpdater unit :=
  match fuel with
  | O => raise Diverges
  | S fuel' =>
      entry ← deref (rb_heap rib !! r);
      if hasCapture entry then mret tt
      else
        routesToRemove ← traverseRemove entry routesToRemove;
        routesToAdd ← traverseAdd entry routesToAdd;
        forM_ (re_children entry) (fun child => traverseSubTree fuel' child routesToAdd routesToRemove)
  end.
Definition modifyChildrensInheritedRoutes (children : list RibRef) (routesToAdd routesToRemove : RouteSet)
  : M FibUpdater unit :=
  forM_ children (fun child => traverseSubTree (ribFuel rib) child routesToAdd routesToRemove).

(** ** One RIB update *)

Definition createFibUpdatesForNewRibEntry (name : Name) (route : Route) (children : list RibRef)
  : M FibUpdater unit :=
  addFibUpdate (createAddUpdate name (rt_faceId route) (rt_cost route));;
  if negb (isChildInherit route) && negb (isRibCapture route) then
    ancestorRoutes ← lift (getAncestorRoutes_name rib name);
    addInheritedRoutes_name name ancestorRoutes route
  else if isChildInherit route && isRibCapture route then
    ancestorRoutes ← lift (getAncestorRoutes_name rib name);
    modifyChildrensInheritedRoutes children [route] ancestorRoutes
  else if isChildInherit route then
    ancestorRoutes ← lift (getAncestorRoutes_name rib name);
    addInheritedRoutes_name name ancestorRoutes route;;
    let ancestorRoutes := routeSet_insert route (routeSet_erase route ancestorRoutes) in
    modifyChildrensInheritedRoutes children ancestorRoutes []
  else
    ancestorRoutes ← lift (getAncestorRoutes_name rib name);
    modifyChildrensInheritedRoutes children [] ancestorRoutes.

Definition createFibUpdatesForNewRoute (entry : RibEntry) (route : Route) (captureWasTurnedOn : bool)
  : M FibUpdater unit :=
  let prevRoute := getRouteWithLowestCostAndChildInheritByFaceId entry (rt_faceId route) in
  let routesToAdd :=
    if isChildInherit route then
      match prevRoute with
      | None => [route]
      | Some p => if bool_decide (rt_cost route ≤ rt_cost p) then [route] else []
      end
    else [] in
  routesToRemove ←
    (if captureWasTurnedOn then
       routesToRemove ← lift (getAncestorRoutes rib entry);
       removeInheritedRoutes entry routesToRemove;;
       mret routesToRemove
     else mret []);
  modifyChildrensInheritedRoutes (re_children entry) routesToAdd routesToRemove;;
  let other := getRouteWithLowestCostByFaceId entry (rt_faceId route) in
  let update := createAddUpdate (re_name entry) (rt_faceId route) (rt_cost route) in
  match other with
  | None => addFibUpdate update
  | Some o => if bool_decide (rt_cost route ≤ rt_cost o) then addFibUpdate update else mret tt
  end.

(** [createFibUpdatesForUpdatedRoute]: the update for the entry itself, the
    child-inherit flag, and the capture flag. *)
Definition updatedRoute_cost (entry : RibEntry) (route existingRoute : Route) (prevRoute : option Route)
  : M FibUpdater unit :=
  lowest ← deref (getRouteWithLowestCostByFaceId entry (rt_faceId route));
  if bool_decide (rt_cost route ≤ rt_cost lowest) then
    addFibUpdate (createAddUpdate (re_name entry) (rt_faceId route) (rt_cost route))
  else if bool_decide (rt_cost existingRoute < rt_cost lowest) then
    p ← deref prevRoute;
    addFibUpdate (createAddUpdate (re_name entry) (rt_faceId p) (rt_cost p))
  else mret tt.
Definition updatedRoute_inherit (entry : RibEntry) (route existingRoute : Route) (prevRoute : option Route)
  : M FibUpdater unit :=
  if negb (isChildInherit existingRoute) && isChildInherit route then
    if match prevRoute with None => true | Some p => bool_decide (rt_cost route ≤ rt_cost p) end
    then modifyChildrensInheritedRoutes (re_children entry) [route] []
    else mret tt
  else if isChildInherit existingRoute && negb (isChildInherit route) then
    routesToAdd ←
      match prevRoute with
      | Some p => mret [p]
      | None =>
          ancestorRoutes ← lift (getAncestorRoutes rib entry);
          mret (match routeSet_find route ancestorRoutes with Some a => [a] | None => [] end)
      end;
    modifyChildrensInheritedRoutes (re_children entry) routesToAdd [route]
  else mret tt.
Definition updatedRoute_capture (entry : RibEntry) (route existingRoute : Route) : M FibUpdater unit :=
  if negb (isRibCapture existingRoute) && isRibCapture route then
    ancestorRoutes ← lift (getAncestorRoutes rib entry);
    removeInheritedRoutes entry ancestorRoutes;;
    modifyChildrensInheritedRoutes (re_children entry) [] ancestorRoutes
  else if isRibCapture existingRoute && negb (isRibCapture route) then
    ancestorRoutes ← lift (getAncestorRoutes rib entry);
    addInheritedRoutes entry ancestorRoutes;;
    modifyChildrensInheritedRoutes (re_children entry) ancestorRoutes []
  else mret tt.
Definition createFibUpdatesForUpdatedRoute (entry : RibEntry) (route existingRoute : Route)
  : M FibUpdater unit :=
  let costDidChange := bool_decide (rt_cost route ≠ rt_cost existingRoute) in
  let sameFlags := bool_decide (rt_flags route = rt_flags existingRoute) in
  let prevRoute := getRouteWithLowestCostAndChildInheritByFaceId entry (rt_faceId route) in
  if sameFlags && negb costDidChange then mret tt
  else
    (if costDidChange then updatedRoute_cost entry route existingRoute prevRoute else mret tt);;
    if costDidChange
       && match prevRoute with None => true | Some p => bool_decide (rt_cost route ≤ rt_cost p) end
       && (sameFlags && isChildInherit route)
    then modifyChildrensInheritedRoutes (re_children entry) [route] []
    else
      updatedRoute_inherit entry route existingRoute prevRoute;;
      updatedRoute_capture entry route existingRoute.

Definition createFibUpdatesForErasedRoute (entry : RibEntry) (route : Route) (captureWasTurnedOff : bool)
  : M FibUpdater unit :=
  addFibUpdate (createRemoveUpdate (re_name entry) (rt_faceId route));;
  let ancestorsToSelf : M FibUpdater RouteSet :=
    if captureWasTurnedOff && bool_decide (getNRoutes entry ≠ 0%nat) then
      routesToAdd ← lift (getAncestorRoutes rib entry);
      addInheritedRoutes entry routesToAdd;;
      mret routesToAdd
    else mret [] in
  (if isChildInherit route && isRibCapture route then
     routesToAdd ← ancestorsToSelf;
     modifyChildrensInheritedRoutes (re_children entry) routesToAdd [route]
   else if isChildInherit route then
     routesToAdd ← (if negb (hasCapture entry) then lift (getAncestorRoutes rib entry) else mret []);
     modifyChildrensInheritedRoutes (re_children entry) routesToAdd [route]
   else if isRibCapture route then
     routesToAdd ← ancestorsToSelf;
     modifyChildrensInheritedRoutes (re_children entry) routesToAdd []
   else mret tt);;
  ancestorRoutes ← lift (getAncestorRoutes rib entry);
  if negb (hasCapture entry) && bool_decide (getNRoutes entry ≠ 0%nat) then
    match routeSet_find route ancestorRoutes with
    | Some a =>
        addInheritedRoute (re_name entry) a;;
        addFibUpdate (createAddUpdate (re_name entry) (rt_faceId a) (rt_cost a))
    | None => mret tt
    end
  else mret tt.

Definition createFibUpdatesForErasedRibEntry (entry : RibEntry) : M FibUpdater unit :=
  forM_ (re_inheritedRoutes entry) (fun route =>
    addFibUpdate (createRemoveUpdate (re_name entry) (rt_faceId route))).

(** [computeUpdatesForRegistration]. *)
Fixpoint sameParent (parent : option RibRef) (descendants : list RibRef) : M FibUpdater (list RibRef) :=
  match descendants with
  | [] => mret []
  | d :: ds =>
      e ← deref (rb_heap rib !! d);
      rest ← sameParent parent ds;
      mret (if bool_decide (re_parent e = parent) then d :: rest else rest)
  end.
Definition computeUpdatesForRegistration (u : RibUpdate) : M FibUpdater unit :=
  let prefix := ru_name u in
  let route := ru_route u in
  match Rib_find rib prefix with
  | Some r =>
      entry ← deref (rb_heap rib !! r);
      match findRoute entry route with
      | None =>
          createFibUpdatesForNewRoute entry route (negb (hasCapture entry) && isRibCapture route)
      | Some existingRoute =>
          let entryCopy := set_re_routes
            (updateFirst (fun x => compareFaceIdAndOrigin x route)
               (set_rt_flags_cost_expires (rt_flags route) (rt_cost route) (rt_expires route))
               (re_routes entry)) entry in
          createFibUpdatesForUpdatedRoute entryCopy route existingRoute
      end
  | None =>
      let parent := findParent rib prefix in
      children ← sameParent parent (findDescendantsForNonInsertedName rib prefix);
      createFibUpdatesForNewRibEntry prefix route children
  end.

(** [computeUpdatesForUnregistration]. *)
Definition computeUpdatesForUnregistration (u : RibUpdate) : M FibUpdater unit :=
  let prefix := ru_name u in
  let route := ru_route u in
  match Rib_find rib prefix with
  | None => mret tt
  | Some r =>
      entry ← deref (rb_heap rib !! r);
      let hadCapture := hasCapture entry in
      match findRoute entry route with
      | None => mret tt
      | Some existing =>
          let '(temp, ev) := eraseRoute route entry in
          modify (cancelIn ev);;
          let captureWasTurnedOff := hadCapture && negb (hasCapture temp) in
          createFibUpdatesForErasedRoute temp existing captureWasTurnedOff;;
          (match getRouteWithSecondLowestCostByFaceId entry (rt_faceId route) with
           | Some next => createFibUpdatesForNewRoute temp next false
           | None => mret tt
           end);;
          if bool_decide (getNRoutes entry = 1%nat) then createFibUpdatesForErasedRibEntry entry else mret tt
      end
  end.

Definition computeUpdates (b : RibUpdateBatch) : M FibUpdater unit :=
  forM_ (rub_updates b) (fun u =>
    match ru_action u with
    | REGISTER => computeUpdatesForRegistration u
    | UNREGISTER => computeUpdatesForUnregistration u
    | REMOVE_FACE =>
        computeUpdatesForUnregistration u;;
        modify (set_up_batch [])
    end).
End compute.
