(* ===== verification/RibSystem.v ===== *)
(** * Applying RIB updates (NFD [rib/rib.cpp] and [rib/fib-updater.cpp])

    The RIB and its updater work on one update at a time: the FIB commands for
    the face of the update are sent first, those for other faces when they have
    all been answered, and the RIB changes when these have been answered too.
    A command carries the closures of the callbacks it was sent with, that is
    the queue item it serves.  The controller is outside the daemon's own code:
    the commands handed to it are recorded, and its answers are inputs. *)

From S2P Require Import Prelude Tlv Component Name RibEntry Rib FibUpdater.
Local Open Scope Z_scope.

Record FibCommand := mkFibCommand {
  fc_verb : FibUpdateAction;
  fc_update : FibUpdate;
  fc_nTimeouts : Z;
  fc_item : UpdateQueueItem
}.
Inductive RibOutput : Type :=
| SuccessCallback (cb : CallbackId)
| FailureCallback (cb : CallbackId) (code : Z).

Record RibSys := mkRibSys {
  sy_rib : Rib;
  sy_updater : FibUpdater;
  sy_commands : list FibCommand;
  sy_outputs : list RibOutput
}.
Definition RibSys_init : RibSys := mkRibSys Rib_init FibUpdater_init [] [].
Definition set_sy_rib v s := mkRibSys v (sy_updater s) (sy_commands s) (sy_outputs s).
Definition set_sy_updater v s := mkRibSys (sy_rib s) v (sy_commands s) (sy_outputs s).
Definition set_sy_commands v s := mkRibSys (sy_rib s) (sy_updater s) v (sy_outputs s).
Definition set_sy_outputs v s := mkRibSys (sy_rib s) (sy_updater s) (sy_commands s) v.

Definition onRib {A} : M Rib A → M RibSys A := zoom sy_rib set_sy_rib.
Definition onUpdater {A} : M FibUpdater A → M RibSys A := zoom sy_updater set_sy_updater.
Definition callback (o : option RibOutput) : M RibSys unit :=
  match o with Some o => modify (fun s => set_sy_outputs (sy_outputs s ++ [o]) s) | None => mret tt end.

(** [sendAddNextHopUpdate] and [sendRemoveNextHopUpdate]. *)
Definition sendCommand (verb : FibUpdateAction) (update : FibUpdate) (item : UpdateQueueItem)
    (nTimeouts : Z) : M RibSys unit :=
  modify (fun s => set_sy_commands (sy_commands s ++ [mkFibCommand verb update nTimeouts item]) s).
Definition sendAddNextHopUpdate := sendCommand ADD_NEXTHOP.
Definition sendRemoveNextHopUpdate := sendCommand REMOVE_NEXTHOP.

Definition sendUpdates (updates : list FibUpdate) (item : UpdateQueueItem) : M RibSys unit :=
  forM_ updates (fun update =>
    match fu_action update with
    | ADD_NEXTHOP => sendAddNextHopUpdate update item 0
    | REMOVE_NEXTHOP => sendRemoveNextHopUpdate update item 0
    end).

(** The functions that end by advancing the queue take [sendBatchFromQueue] as
    [next]. *)
Section next.
Context (next : M RibSys unit).

Definition applyUpdate (u : RibUpdate) : M Rib unit :=
  match ru_action u with
  | REGISTER => Rib_insert (ru_name u) (ru_route u)
  | UNREGISTER | REMOVE_FACE => Rib_erase (ru_name u) (ru_route u)
  end.
Definition onFibUpdateSuccess (item : UpdateQueueItem) (inheritedRoutes : list RibUpdate) : M RibSys unit :=
  onRib (forM_ (rub_updates (uq_batch item)) applyUpdate);;
  onRib (modifyInheritedRoutes inheritedRoutes);;
  onRib (modify (set_rb_isUpdateInProgress false));;
  callback (SuccessCallback <$> uq_successCb item);;
  next.
Definition onFibUpdateFailure (item : UpdateQueueItem) (code : Z) : M RibSys unit :=
  onRib (modify (set_rb_isUpdateInProgress false));;
  callback ((fun cb => FailureCallback cb code) <$> uq_failureCb item);;
  next.

Definition sendUpdatesForNonBatchFaceId (item : UpdateQueueItem) : M RibSys unit :=
  u ← gets sy_updater;
  if bool_decide (up_updatesForNonBatchFaceId u ≠ []) then sendUpdates (up_updatesForNonBatchFaceId u) item
  else onFibUpdateSuccess item (up_inheritedRoutes u).
Definition sendUpdatesForBatchFaceId (item : UpdateQueueItem) : M RibSys unit :=
  u ← gets sy_updater;
  if bool_decide (up_updatesForBatchFaceId u ≠ []) then sendUpdates (up_updatesForBatchFaceId u) item
  else sendUpdatesForNonBatchFaceId item.
Definition computeAndSendFibUpdates (item : UpdateQueueItem) : M RibSys unit :=
  onUpdater (modify (fun u => mkFibUpdater (rub_faceId (uq_batch item)) [] [] [] (up_cancelled u)));;
  rib ← gets sy_rib;
  onUpdater (computeUpdates rib (uq_batch item));;
  sendUpdatesForBatchFaceId item.
End next.

(** [sendBatchFromQueue]: every nested call has taken one item from the queue. *)
Fixpoint sendBatchFromQueue_loop (fuel : nat) : M RibSys unit :=
  match fuel with
  | O => raise Diverges
  | S fuel' =>
      s ← gets sy_rib;
      match rb_updateBatches s with
      | [] => mret tt
      | item :: rest =>
          if rb_isUpdateInProgress s then mret tt
          else
            onRib (modify (set_rb_isUpdateInProgress true));;
            onRib (modify (set_rb_updateBatches rest));;
            assertM (bool_decide (length (rub_updates (uq_batch item)) = 1%nat));;
            computeAndSendFibUpdates (sendBatchFromQueue_loop fuel') item
      end
  end.
Definition sendBatchFromQueue : M RibSys unit :=
  s ← gets sy_rib; sendBatchFromQueue_loop (S (length (rb_updateBatches s))).

(** ** The operations of the RIB's users *)

Definition beginApplyUpdate (u : RibUpdate) (onSuccess onFailure : option CallbackId) : M RibSys unit :=
  onRib (addUpdateToQueue u onSuccess onFailure);; sendBatchFromQueue.
Definition onRouteExpiration (prefix : Name) (route : Route) : M RibSys unit :=
  beginApplyUpdate (mkRibUpdate UNREGISTER prefix route) None None.
Definition beginRemoveFace (faceId : Z) : M RibSys unit :=
  onRib (enqueueRemoveFaces faceId);; sendBatchFromQueue.
Definition beginRemoveFailedFaces (activeFaceIds : gset Z) : M RibSys unit :=
  onRib (enqueueRemoveFailedFaces activeFaceIds);; sendBatchFromQueue.

(** ** The answers of the controller *)

Definition without (update : FibUpdate) : list FibUpdate → list FibUpdate :=
  List.filter (fun o => negb (bool_decide (o = update))).
Definition onUpdateSuccess (c : FibCommand) : M RibSys unit :=
  let update := fc_update c in
  u ← gets sy_updater;
  if bool_decide (fu_faceId update = up_batchFaceId u) then
    onUpdater (modify (fun u => set_up_batch (without update (up_updatesForBatchFaceId u)) u));;
    u ← gets sy_updater;
    if bool_decide (up_updatesForBatchFaceId u = [])
    then sendUpdatesForNonBatchFaceId sendBatchFromQueue (fc_item c) else mret tt
  else
    onUpdater (modify (fun u => set_up_nonBatch (without update (up_updatesForNonBatchFaceId u)) u));;
    u ← gets sy_updater;
    if bool_decide (up_updatesForNonBatchFaceId u = [])
    then onFibUpdateSuccess sendBatchFromQueue (fc_item c) (up_inheritedRoutes u) else mret tt.
Definition onUpdateError (c : FibCommand) (code : Z) : M RibSys unit :=
  let update := fc_update c in
  if bool_decide (code = ERROR_TIMEOUT) && bool_decide (fc_nTimeouts c < MAX_NUM_TIMEOUTS) then
    sendAddNextHopUpdate update (fc_item c) (u32 (fc_nTimeouts c + 1))
  else if bool_decide (code = ERROR_FACE_NOT_FOUND) then
    u ← gets sy_updater;
    if bool_decide (fu_faceId update = up_batchFaceId u) then
      onFibUpdateFailure sendBatchFromQueue (fc_item c) code
    else
      onUpdater (modify (fun u => set_up_nonBatch (without update (up_updatesForNonBatchFaceId u)) u));;
      u ← gets sy_updater;
      if bool_decide (up_updatesForNonBatchFaceId u = [])
      then onFibUpdateSuccess sendBatchFromQueue (fc_item c) (up_inheritedRoutes u) else mret tt
  else raise (Throw FibUpdaterError).

(** The controller answers one of the commands it holds. *)
Inductive Answer : Type := Succeeds | Fails (code : Z).
Definition answer (i : nat) (a : Answer) : M RibSys unit :=
  s ← get;
  match sy_commands s !! i with
  | None => mret tt
  | Some c =>
      put (set_sy_commands (delete i (sy_commands s)) s);;
      match a with
      | Succeeds => onUpdateSuccess c
      | Fails code => onUpdateError c code
      end
  end.
