(* ===== verification/RibInherit.v ===== *)
(** * Route inheritance

    The specification of the FIB that a RIB asks for, over the RIB seen as a
    map from names to routes: a name has the routes registered for it, the
    cheapest per face, and unless one of its own routes captures it inherits,
    for a face it has no route on, the child-inherit route of the nearest shorter
    name that has one, up to and including the first name that captures.
    [Rib::getAncestorRoutes] computes exactly these. *)

From S2P Require Import Prelude Tlv Component Name PrefixAnn RibEntry Rib RibTree RibProps.
Local Open Scope Z_scope.

Abbreviation RibView := (Name → option EntryView).

(** ** The specification *)

Definition viewCapture (v : EntryView) : bool := hasCapture (viewEntry v).
Definition viewInherit (v : EntryView) (f : Z) : option Route :=
  List.find (fun r => bool_decide (rt_faceId r = f) && isChildInherit r) (viewRoutes v).
Definition ownCost (v : EntryView) (f : Z) : option Z :=
  rt_cost <$> getRouteWithLowestCostByFaceId (viewEntry v) f.

(** What a name on the way decides about face [f]: a route to inherit,
    nothing to inherit, or no decision. *)
Definition nodeOf (v : option EntryView) (f : Z) : option (option Route) :=
  v ← v;
  match viewInherit v f with
  | Some a => Some (Some a)
  | None => if viewCapture v then Some None else None
  end.
(** The first decision among the prefixes of [m] with [lo], …, [lo + k - 1]
    components, longest first. *)
Fixpoint scan (V : RibView) (m : Name) (f : Z) (lo k : nat) : option (option Route) :=
  match k with
  | O => None
  | S i =>
      match nodeOf (V (take (lo + i) m)) f with
      | Some d => Some d
      | None => scan V m f lo i
      end
  end.
Definition inheritedRoute (V : RibView) (m : Name) (f : Z) : option Route :=
  mjoin (scan V m f 0 (length m)).
Definition inheritedCost (V : RibView) (m : Name) (f : Z) : option Z :=
  v ← V m;
  match ownCost v f with
  | Some _ => None
  | None => if viewCapture v then None else rt_cost <$> inheritedRoute V m f
  end.
Definition expectedCost (V : RibView) (m : Name) (f : Z) : option Z :=
  v ← V m;
  match ownCost v f with
  | Some c => Some c
  | None => inheritedCost V m f
  end.

(** The faces recorded as inherited are those of the specification. *)
Definition viewRecorded (v : EntryView) (f : Z) : bool :=
  existsb (fun r => bool_decide (rt_faceId r = f)) v.1.2.
Definition recorded_ok (V : RibView) : Prop :=
  ∀ m v f, V m = Some v → viewRecorded v f = true ↔ is_Some (inheritedCost V m f).

(** ** Scanning *)

Lemma scan_split V m f lo a b :
  scan V m f lo (a + b) = match scan V m f (lo + a) b with Some d => Some d | None => scan V m f lo a end.
Proof.
  induction b as [|b IH]; simpl; [by rewrite Nat.add_0_r|].
  rewrite Nat.add_succ_r. cbn [scan]. rewrite (Nat.add_assoc lo a b).
  destruct (nodeOf _ _); [done|apply IH].
Qed.
Lemma scan_ext V V' m m' f lo k :
  (∀ i, (lo ≤ i < lo + k)%nat → nodeOf (V' (take i m')) f = nodeOf (V (take i m)) f) →
  scan V' m' f lo k = scan V m f lo k.
Proof.
  induction k as [|k IH]; intros H; [done|]. cbn [scan]. rewrite H by lia.
  destruct (nodeOf _ _); [done|]. apply IH. intros. apply H. lia.
Qed.
Lemma scan_None V m f lo k :
  scan V m f lo k = None ↔ ∀ i, (lo ≤ i < lo + k)%nat → nodeOf (V (take i m)) f = None.
Proof.
  induction k as [|k IH]; cbn [scan]; [split; [lia|done]|].
  destruct (nodeOf (V (take (lo + k) m)) f) as [d|] eqn:E.
  - split; [done|]. intros H. rewrite H in E by lia. done.
  - rewrite IH. split; intros H i Hi; [|apply H; lia].
    destruct (decide (i = lo + k)%nat) as [->|]; [done|]. apply H. lia.
Qed.

(** Below [n], the decision is taken between, then at [n], then above. *)
Lemma scan_below V n m f :
  sprefix n m →
  scan V m f 0 (length m) =
    match scan V m f (S (length n)) (length m - S (length n)) with
    | Some d => Some d
    | None => match nodeOf (V n) f with Some d => Some d | None => scan V n f 0 (length n) end
    end.
Proof.
  intros Hnm. pose proof (sprefix_length _ _ Hnm). apply sprefix_take in Hnm as [E _].
  replace (length m) with (S (length n) + (length m - S (length n)))%nat at 1 by lia.
  rewrite scan_split, Nat.add_0_l. destruct (scan V m f (S (length n)) _); [done|].
  cbn [scan]. rewrite Nat.add_0_l, <-E. destruct (nodeOf (V n) f); [done|].
  apply scan_ext. intros i Hi. rewrite E, take_take. do 3 f_equal. lia.
Qed.
(** Away from [n], a change at [n] is not seen. *)
Lemma scan_elsewhere V V' n m f :
  (∀ x, x ≠ n → nodeOf (V' x) f = nodeOf (V x) f) → ¬ sprefix n m →
  scan V' m f 0 (length m) = scan V m f 0 (length m).
Proof.
  intros HV Hnm. apply scan_ext. intros i Hi. apply HV. intros <-. apply Hnm. apply sprefix_take.
  rewrite length_take. split; [f_equal; lia|lia].
Qed.

(** ** Sets of routes *)

Definition findFace (f : Z) (s : RouteSet) : option Route :=
  List.find (fun r => bool_decide (rt_faceId r = f)) s.
Definition routeSet_ok (s : RouteSet) : Prop := StronglySorted (fun a b => rt_faceId a < rt_faceId b) s.

Lemma findFace_Some f s a : findFace f s = Some a → a ∈ s ∧ rt_faceId a = f.
Proof. apply (find_key_Some rt_faceId). Qed.
Lemma findFace_None f s : findFace f s = None ↔ ∀ a, a ∈ s → rt_faceId a ≠ f.
Proof.
  unfold findFace. rewrite (find_key_None rt_faceId). split.
  - intros H a Ha E. apply H. rewrite <-E. by apply list_elem_of_fmap_2.
  - intros H (a & -> & Ha)%list_elem_of_fmap. by eapply H.
Qed.
Lemma routeSet_insert_find r s f :
  routeSet_ok s →
  findFace f (routeSet_insert r s) =
    match findFace f s with Some a => Some a | None => if bool_decide (rt_faceId r = f) then Some r else None end.
Proof.
  unfold findFace. induction 1 as [|x s Hs IH Hf]; cbn [routeSet_insert]; [done|].
  rewrite Forall_forall in Hf. destruct (decide (rt_faceId r < rt_faceId x)) as [E1|E1].
  { rewrite (bool_decide_true (_ < _)) by done. cbn [List.find].
    destruct (decide (rt_faceId r = f)) as [<-|E2]; cycle 1.
    { rewrite !(bool_decide_false (rt_faceId r = f)) by done.
      destruct (if bool_decide (rt_faceId x = f) then _ else _); done. }
    rewrite !(bool_decide_true (rt_faceId r = _)), (bool_decide_false (rt_faceId x = _)) by lia.
    destruct (List.find _ s) as [a|] eqn:Ea; [|done]. apply (find_key_Some rt_faceId) in Ea as [Ha Ef].
    specialize (Hf a Ha). lia. }
  rewrite (bool_decide_false (rt_faceId r < _)) by done.
  destruct (decide (rt_faceId x < rt_faceId r)) as [E2|E2].
  - rewrite (bool_decide_true (_ < _)) by done. cbn [List.find]. rewrite IH.
    by destruct (bool_decide (rt_faceId x = f)).
  - rewrite (bool_decide_false (_ < _)) by done. cbn [List.find].
    destruct (decide (rt_faceId x = f)) as [E3|E3]; [by rewrite bool_decide_true|].
    rewrite (bool_decide_false (rt_faceId x = f)), (bool_decide_false (rt_faceId r = f)) by lia.
    by destruct (List.find _ s).
Qed.
Lemma routeSet_insert_elem r s x : x ∈ routeSet_insert r s → x = r ∨ x ∈ s.
Proof.
  induction s as [|y s IH]; cbn [routeSet_insert]; [by intros ->%list_elem_of_singleton; left|].
  repeat case_bool_decide; rewrite ?elem_of_cons; naive_solver.
Qed.
Lemma routeSet_insert_ok r s : routeSet_ok s → routeSet_ok (routeSet_insert r s).
Proof.
  induction 1 as [|x s Hs IH Hf]; cbn [routeSet_insert]; [repeat constructor|].
  rewrite Forall_forall in Hf. case_bool_decide as E1; [|case_bool_decide as E2].
  - constructor; [by constructor; [|apply Forall_forall]|]. apply Forall_forall.
    intros y [->|Hy]%elem_of_cons; [done|]. specialize (Hf y Hy). lia.
  - constructor; [done|]. apply Forall_forall. intros y [->|Hy]%routeSet_insert_elem; [done|by apply Hf].
  - constructor; [done|by apply Forall_forall].
Qed.
Lemma routeSet_erase_find r s f :
  findFace f (routeSet_erase r s) = if bool_decide (rt_faceId r = f) then None else findFace f s.
Proof.
  unfold findFace, routeSet_erase. induction s as [|x s IH]; cbn [List.filter List.find]; [by case_bool_decide|].
  repeat case_bool_decide; cbn [negb List.find]; rewrite ?IH; repeat case_bool_decide; congruence.
Qed.
Lemma routeSet_erase_ok r s : routeSet_ok s → routeSet_ok (routeSet_erase r s).
Proof.
  induction 1 as [|x s Hs IH Hf]; unfold routeSet_erase in *; cbn [List.filter]; [constructor|].
  destruct (negb _); [|done]. constructor; [done|]. rewrite Forall_forall in Hf |- *. intros y Hy.
  apply list_elem_of_In, filter_In in Hy as [Hy _]. by apply Hf, list_elem_of_In.
Qed.
Lemma childInheritRoutes_spec e s :
  routeSet_ok s →
  routeSet_ok (childInheritRoutes e s) ∧
  ∀ f, findFace f (childInheritRoutes e s) =
    match findFace f s with Some a => Some a | None => viewInherit (entryView e) f end.
Proof.
  unfold childInheritRoutes, viewInherit. cbn [entryView fst]. revert s.
  induction (re_routes e) as [|r l IH]; intros s Hs; simpl.
  { split; [done|]. intros f. by destruct (findFace f s). }
  destruct (isChildInherit r) eqn:E.
  - destruct (IH (routeSet_insert r s) (routeSet_insert_ok r s Hs)) as [H1 H2]. split; [done|].
    intros f. rewrite H2, routeSet_insert_find by done. rewrite andb_true_r.
    destruct (findFace f s); [done|]. by case_bool_decide.
  - destruct (IH s Hs) as [H1 H2]. split; [done|]. intros f. rewrite H2. by rewrite andb_false_r.
Qed.

(** ** The ancestors' routes *)

(** The names of the table that are proper prefixes of [n]. *)
Definition above (s : Rib) (n : Name) : list (Name * RibRef) :=
  List.filter (fun nr => isPrefixOf nr.1 n && negb (bool_decide (nr.1 = n))) (rb_rib s).
Lemma filter_length_lt {A} (p q : A → bool) (l : list A) x :
  (∀ y, p y = true → q y = true) → x ∈ l → q x = true → p x = false →
  (length (List.filter p l) < length (List.filter q l))%nat.
Proof.
  intros Hpq Hx Hq Hp.
  assert (∀ l', length (List.filter p l') ≤ length (List.filter q l'))%nat as Hle.
  { induction l' as [|y l' IH]; [done|]. simpl. destruct (p y) eqn:E; [rewrite (Hpq y E); simpl; lia|].
    destruct (q y); simpl; lia. }
  induction l as [|y l IH]; [by apply not_elem_of_nil in Hx|]. simpl.
  apply elem_of_cons in Hx as [<-|Hx].
  - rewrite Hp, Hq. simpl. specialize (Hle l). lia.
  - specialize (IH Hx). destruct (p y) eqn:E; [rewrite (Hpq y E); simpl; lia|]. destruct (q y); simpl; lia.
Qed.
Lemma strictly_prefix (p n : Name) : isPrefixOf p n && negb (bool_decide (p = n)) = true ↔ sprefix p n.
Proof. by rewrite andb_true_iff, isPrefixOf_spec, negb_true_iff, bool_decide_eq_false. Qed.
Lemma above_parent s n p :
  rib_tree s → isParent s n p → (length (above s p) < length (above s n))%nat.
Proof.
  intros Ht (Hp & [r Hr] & _). unfold above. apply tableFind_Some in Hr as Hin; [|apply Ht].
  apply (filter_length_lt _ _ _ (p, r)); [|done|by apply strictly_prefix|].
  - intros y Hy%strictly_prefix. apply strictly_prefix. by eapply sprefix_trans.
  - cbn [fst]. by rewrite (bool_decide_true (p = p)), andb_false_r.
Qed.
(** Going to the parent skips names that are not in the table. *)
Lemma scan_parent s n f :
  rib_tree s → smallName n →
  scan (ribView s) n f 0 (length n) =
    match findParent s n with
    | None => None
    | Some r => e ← rb_heap s !! r;
        match nodeOf (Some (entryView e)) f with
        | Some d => Some d
        | None => scan (ribView s) (re_name e) f 0 (length (re_name e))
        end
    end.
Proof.
  intros Ht Hn. destruct (findParent s n) as [r|] eqn:Ep.
  - apply findParent_Some in Ep as (p & (Hp & Hs & Hmax) & Hr); [|done].
    destruct (tr_entry s Ht p r Hr) as (_ & e & He & <-). rewrite He. cbn [mbind option_bind].
    rewrite (scan_below _ (re_name e) n f Hp), (ribView_find _ _ _ _ Hr He).
    destruct (scan _ n f (S _) _) as [d|] eqn:Es; [|done]. exfalso.
    assert (scan (ribView s) n f (S (length (re_name e))) (length n - S (length (re_name e))) = None); [|congruence].
    apply scan_None. intros i Hi. destruct (ribView s (take i n)) as [v|] eqn:Ev; [|done].
    apply ribView_Some in Ev as (r' & _ & Hr' & _).
    assert (take i n `prefix_of` re_name e) as Hpre.
    { apply Hmax; [|by rewrite Hr']. apply sprefix_take. rewrite length_take. split; [f_equal|]; lia. }
    apply prefix_length in Hpre. rewrite length_take in Hpre. lia.
  - apply scan_None. intros i Hi. pose proof (proj1 (findParent_None s n Hn) Ep (take i n)) as Hq.
    destruct (ribView s (take i n)) as [v|] eqn:Ev; [|done].
    apply ribView_Some in Ev as (r' & _ & Hr' & _). rewrite Hq in Hr'; [done|].
    apply sprefix_take. rewrite length_take. split; [f_equal|]; lia.
Qed.

Lemma ancestorRoutes_loop_spec s fuel n acc :
  rib_tree s → smallName n → (length (above s n) ≤ fuel)%nat → routeSet_ok acc →
  ∃ S, ancestorRoutes_loop fuel (rb_heap s) (findParent s n) acc = Ok S ∧ routeSet_ok S ∧
    ∀ f, findFace f S =
      match findFace f acc with
      | Some a => Some a
      | None => mjoin (scan (ribView s) n f 0 (length n))
      end.
Proof.
  intros Ht. revert n acc. induction fuel as [|fuel IH]; intros n acc Hn Hfuel Hacc;
    pose proof (scan_parent s n) as Hsp; destruct (findParent s n) as [r|] eqn:Ep.
  - apply findParent_Some in Ep as (p & Hp & _); [|done].
    pose proof (above_parent s n p Ht Hp). lia.
  - exists acc. split_and!; [done..|]. intros f. rewrite Hsp by done. by destruct (findFace f acc).
  - apply findParent_Some in Ep as (p & Hp & Hr); [|done]. pose proof (above_parent s n p Ht Hp).
    destruct (tr_entry s Ht p r Hr) as (Hsm & e & He & <-). cbn [ancestorRoutes_loop]. rewrite He.
    destruct (childInheritRoutes_spec e acc Hacc) as [Hok Hfind].
    assert (re_parent e = findParent s (re_name e)) as Epar.
    { destruct (tr_linked s Ht r) as (e' & He' & Hpar & _); [by exists (re_name e)|]. simplify_eq.
      by rewrite Hpar, (parOf_find _ _ _ Ht Hr). }
    assert (∀ f, scan (ribView s) n f 0 (length n) =
      match nodeOf (Some (entryView e)) f with
      | Some d => Some d
      | None => scan (ribView s) (re_name e) f 0 (length (re_name e))
      end) as Hsp' by (intros f; rewrite Hsp by done; by rewrite He).
    unfold nodeOf in Hsp'. cbn [mbind option_bind] in Hsp'.
    change (viewCapture (entryView e)) with (hasCapture e) in Hsp'.
    destruct (hasCapture e) eqn:Ec.
    + eexists. split_and!; [done..|]. intros f. rewrite Hfind, Hsp'.
      destruct (findFace f acc); [done|]. by destruct (viewInherit (entryView e) f).
    + rewrite Epar. destruct (IH (re_name e) (childInheritRoutes e acc)) as (S & HS & HokS & HfS); [done|lia|done|].
      exists S. split_and!; [done..|]. intros f. rewrite HfS, Hfind, Hsp'.
      destruct (findFace f acc); [done|]. by destruct (viewInherit (entryView e) f).
  - exists acc. split_and!; [done..|]. intros f. rewrite Hsp by done. by destruct (findFace f acc).
Qed.

(** [getAncestorRoutes] finds, for every face, the route the specification
    inherits. *)
Lemma getAncestorRoutes_name_spec s n :
  rib_tree s → smallName n →
  ∃ S, getAncestorRoutes_name s n = Ok S ∧ routeSet_ok S ∧
    ∀ f, findFace f S = inheritedRoute (ribView s) n f.
Proof.
  intros Ht Hn. apply (ancestorRoutes_loop_spec s _ n []); [done..| |constructor].
  unfold ribFuel, above. pose proof (filter_length_le (fun nr : Name * RibRef => isPrefixOf nr.1 n &&
    negb (bool_decide (nr.1 = n))) (rb_rib s)). lia.
Qed.
Lemma getAncestorRoutes_spec s n e :
  rib_tree s → smallName n → re_parent e = findParent s n →
  ∃ S, getAncestorRoutes s e = Ok S ∧ routeSet_ok S ∧
    ∀ f, findFace f S = inheritedRoute (ribView s) n f.
Proof.
  intros Ht Hn E. unfold getAncestorRoutes. rewrite E. by apply getAncestorRoutes_name_spec.
Qed.
