(* ===== verification/RibEffect.v ===== *)
(** * The effect of the FIB updater

    What the functions of [FibUpdater] leave in its lists, as a function from
    names and faces: the update that will be sent for them, if any, and the
    change to the record of inherited routes.  [traverseSubTree] reaches exactly
    the names below on whose way nothing decides about the face. *)

From S2P Require Import Prelude Tlv Component Name PrefixAnn RibEntry Rib RibTree RibProps.
From S2P Require Import FibUpdater RibInherit.
Local Open Scope Z_scope.

(** ** Reading the lists *)

Definition targets (n : Name) (f : Z) (o : FibUpdate) : bool :=
  bool_decide (fu_name o = n) && bool_decide (fu_faceId o = f).
Definition updateCost (o : FibUpdate) : option Z :=
  match fu_action o with ADD_NEXTHOP => Some (fu_cost o) | REMOVE_NEXTHOP => None end.
Definition listFor (u : FibUpdater) (f : Z) : list FibUpdate :=
  if bool_decide (f = up_batchFaceId u) then up_updatesForBatchFaceId u else up_updatesForNonBatchFaceId u.
(** The update for [n] and [f]: the new cost, or removal. *)
Definition upd (u : FibUpdater) (n : Name) (f : Z) : option (option Z) :=
  updateCost <$> List.find (targets n f) (listFor u f).
(** A record of inherited routes after the changes [l]. *)
Definition recAfter (l : list RibUpdate) (n : Name) (f : Z) (b : bool) : bool :=
  fold_left (fun b x =>
    if bool_decide (ru_name x = n) && bool_decide (rt_faceId (ru_route x) = f)
    then match ru_action x with REGISTER => true | UNREGISTER => false | REMOVE_FACE => b end
    else b) l b.

(** One update per name and face, in the list of its face. *)
Definition updKey (o : FibUpdate) : Name * Z := (fu_name o, fu_faceId o).
Record upd_wf (u : FibUpdater) : Prop := {
  uw_batch : Forall (fun o => fu_faceId o = up_batchFaceId u) (up_updatesForBatchFaceId u);
  uw_nonBatch : Forall (fun o => fu_faceId o ≠ up_batchFaceId u) (up_updatesForNonBatchFaceId u);
  uw_nodup : NoDup (map updKey (up_updatesForBatchFaceId u)) ∧
             NoDup (map updKey (up_updatesForNonBatchFaceId u))
}.

(** ** Effects *)

Abbreviation Changes A := (Name → Z → option A).
Definition over {A} (E2 E1 : Changes A) : Changes A :=
  fun n f => match E2 n f with Some a => Some a | None => E1 n f end.
Definition recordOf (E : Changes (option Z)) : Changes bool :=
  fun n f => (fun a => match a with Some _ => true | None => false end) <$> E n f.

(** From [u] to [u'] the updates change by [E] and the records by [R], at names
    of [L]. *)
Definition effect (L : Name → Prop) (E : Changes (option Z)) (R : Changes bool) (u u' : FibUpdater) : Prop :=
  up_batchFaceId u' = up_batchFaceId u ∧ (upd_wf u → upd_wf u') ∧
  (∀ n f, upd u' n f = over E (upd u) n f) ∧
  ∃ l, up_inheritedRoutes u' = up_inheritedRoutes u ++ l ∧
    (∀ x, x ∈ l → L (ru_name x)) ∧
    (∀ n f b, recAfter l n f b = default b (R n f)).

Definition none {A} : Changes A := fun _ _ => None.

Lemma effect_refl L u : effect L none none u u.
Proof. split_and!; [done..|]. exists []. split_and!; [by rewrite app_nil_r|by intros x ?%not_elem_of_nil|done]. Qed.
Lemma effect_trans L E1 E2 R1 R2 u1 u2 u3 :
  effect L E1 R1 u1 u2 → effect L E2 R2 u2 u3 → effect L (over E2 E1) (over R2 R1) u1 u3.
Proof.
  intros (B1 & W1 & U1 & l1 & I1 & N1 & A1) (B2 & W2 & U2 & l2 & I2 & N2 & A2).
  split_and!; [congruence|auto|..].
  - intros n f. rewrite U2. unfold over. rewrite U1. unfold over. by destruct (E2 n f).
  - exists (l1 ++ l2). split_and!; [by rewrite I2, I1, app_assoc|intros x [?|?]%elem_of_app; auto|].
    intros n f b. unfold recAfter in *. rewrite fold_left_app, A1, A2. unfold over. by destruct (R2 n f).
Qed.
Lemma effect_ext L E R E' R' u u' :
  effect L E R u u' → (∀ n f, E n f = E' n f) → (∀ n f, R n f = R' n f) → effect L E' R' u u'.
Proof.
  intros (B & W & U & l & I & N & A) HE HR. split_and!; [done..| |].
  - intros n f. rewrite U. unfold over. by rewrite HE.
  - exists l. split_and!; [done..|]. intros. by rewrite A, HR.
Qed.
Lemma recordOf_over E2 E1 n f : over (recordOf E2) (recordOf E1) n f = recordOf (over E2 E1) n f.
Proof. unfold over, recordOf. by destruct (E2 n f). Qed.
(** Effects that keep updates and records in step. *)
Abbreviation paired L E := (effect L E (recordOf E)).
Lemma paired_trans L E1 E2 u1 u2 u3 :
  paired L E1 u1 u2 → paired L E2 u2 u3 → paired L (over E2 E1) u1 u3.
Proof.
  intros H1 H2. eapply effect_ext; [by eapply effect_trans|done|]. intros. apply recordOf_over.
Qed.
Lemma paired_ext L E E' u u' : paired L E u u' → (∀ n f, E n f = E' n f) → paired L E' u u'.
Proof. intros H HE. eapply effect_ext; [done..|]. intros. unfold recordOf. by rewrite HE. Qed.

Definition at_ {A} (n : Name) (f : Z) (a : A) : Changes A :=
  fun n' f' => if bool_decide (n' = n ∧ f' = f) then Some a else None.

Lemma sameTarget_targets o x : sameTarget o x = targets (fu_name o) (fu_faceId o) x.
Proof. unfold sameTarget, targets. f_equal; by apply bool_decide_ext. Qed.
Lemma putUpdate_find o l n f :
  List.find (targets n f) (putUpdate o l) =
    if targets n f o
    then match List.find (targets n f) l with
         | Some x => Some (mkFibUpdate (fu_name x) (fu_faceId x) (fu_cost o) (fu_action o))
         | None => Some o
         end
    else List.find (targets n f) l.
Proof.
  unfold putUpdate. destruct (targets n f o) eqn:Eo.
  - unfold targets in Eo. apply andb_true_iff in Eo as [<-%bool_decide_eq_true <-%bool_decide_eq_true].
    destruct (existsb (sameTarget o) l) eqn:Ex.
    + clear -Ex. induction l as [|x l IH]; [done|]. cbn [existsb updateFirst List.find] in *.
      rewrite sameTarget_targets in *. destruct (targets _ _ x) eqn:E; cbn [List.find].
      * assert (targets (fu_name o) (fu_faceId o) (mkFibUpdate (fu_name x) (fu_faceId x) (fu_cost o) (fu_action o)) = true)
          as -> by exact E. done.
      * rewrite E. by apply IH.
    + assert (List.find (targets (fu_name o) (fu_faceId o)) l = None) as En.
      { clear -Ex. induction l as [|x l IH]; [done|]. cbn [existsb List.find] in *.
        rewrite sameTarget_targets in Ex. by destruct (targets _ _ x); [|apply IH]. }
      rewrite En. clear Ex. induction l as [|x l IH]; cbn [List.find app] in *.
      * assert (targets (fu_name o) (fu_faceId o) o = true) as -> by (unfold targets; by rewrite !bool_decide_true).
        done.
      * destruct (targets _ _ x); [done|auto].
  - destruct (existsb (sameTarget o) l).
    + induction l as [|x l IH]; [done|]. cbn [updateFirst List.find].
      destruct (sameTarget o x) eqn:E; cbn [List.find]; [|destruct (targets n f x); [done|apply IH]].
      assert (targets n f (mkFibUpdate (fu_name x) (fu_faceId x) (fu_cost o) (fu_action o)) = targets n f x) as -> by done.
      unfold sameTarget in E. apply andb_true_iff in E as [E1%bool_decide_eq_true E2%bool_decide_eq_true].
      unfold targets in *. rewrite <-E1, <-E2, Eo. done.
    + induction l as [|x l IH]; cbn [app List.find]; [by rewrite Eo|]. by rewrite IH.
Qed.

Lemma putUpdate_keys o l :
  map updKey (putUpdate o l) = map updKey l ∨
  (updKey o ∉ map updKey l ∧ map updKey (putUpdate o l) = map updKey l ++ [updKey o]).
Proof.
  unfold putUpdate. destruct (existsb (sameTarget o) l) eqn:Ex.
  - left. apply map_updateFirst. done.
  - right. split; [|by rewrite map_app]. intros (x & E & Hx)%list_elem_of_fmap.
    assert (existsb (sameTarget o) l = true); [|congruence]. apply existsb_exists. exists x.
    rewrite <-list_elem_of_In. split; [done|]. unfold sameTarget. injection E as -> ->. by rewrite !bool_decide_true.
Qed.
Lemma putUpdate_wf o l (P : Z → Prop) :
  P (fu_faceId o) → Forall (fun x => P (fu_faceId x)) l → NoDup (map updKey l) →
  Forall (fun x => P (fu_faceId x)) (putUpdate o l) ∧ NoDup (map updKey (putUpdate o l)).
Proof.
  intros Ho Hl Hnd.
  split.
  - rewrite Forall_forall in Hl |- *. intros x Hx.
    assert (∀ k, k ∈ map updKey (putUpdate o l) → P k.2) as H;
      [|by apply (H (updKey x)), list_elem_of_fmap_2].
    intros k Hk. assert (k ∈ map updKey l ∨ k = updKey o) as [(y & -> & Hy)%list_elem_of_fmap| ->];
      [|by apply Hl|done].
    destruct (putUpdate_keys o l) as [E|[_ E]]; rewrite E in Hk; [by left|].
    by rewrite elem_of_app, list_elem_of_singleton in Hk.
  - destruct (putUpdate_keys o l) as [->|[Hni ->]]; [done|]. apply NoDup_app. split_and!; [done| |apply NoDup_singleton].
    by intros k Hk' ->%list_elem_of_singleton.
Qed.
Lemma addFibUpdate_wf o u u' : addFibUpdate o u = Ok (tt, u') → upd_wf u → upd_wf u'.
Proof.
  intros [= <-] [Hb Hn [Hnd1 Hnd2]]. case_bool_decide as E; split; simpl; try done.
  - by apply (putUpdate_wf o _ (fun f => f = up_batchFaceId u)).
  - split; [|done]. by apply (putUpdate_wf o _ (fun f => f = up_batchFaceId u)).
  - by apply (putUpdate_wf o _ (fun f => f ≠ up_batchFaceId u)).
  - split; [done|]. by apply (putUpdate_wf o _ (fun f => f ≠ up_batchFaceId u)).
Qed.
Lemma addFibUpdate_effect L o u :
  wp (addFibUpdate o) (fun _ => effect L (at_ (fu_name o) (fu_faceId o) (updateCost o)) none u) u.
Proof.
  unfold addFibUpdate. apply wp_modify. set (u' := if bool_decide _ then _ else _).
  assert (up_batchFaceId u' = up_batchFaceId u) as Eb by (unfold u'; by case_bool_decide).
  split_and!; [done|by apply (addFibUpdate_wf o)|..].
  - intros n f. unfold over, at_, upd.
    assert (listFor u' f = putUpdate o (listFor u f) ∨ (listFor u' f = listFor u f ∧ f ≠ fu_faceId o)) as Hl.
    { unfold listFor, u'. destruct (decide (fu_faceId o = up_batchFaceId u)) as [E|E].
      - rewrite (bool_decide_true (fu_faceId o = _)) by done. simpl. case_bool_decide; [by left|].
        right. split; [done|congruence].
      - rewrite (bool_decide_false (fu_faceId o = _)) by done. simpl. case_bool_decide; [|by left].
        right. split; [done|congruence]. }
    destruct Hl as [->|[-> Hf]]; [|by rewrite bool_decide_false by naive_solver].
    rewrite putUpdate_find. destruct (targets n f o) eqn:Et; unfold targets in Et.
    + apply andb_true_iff in Et as [<-%bool_decide_eq_true <-%bool_decide_eq_true].
      rewrite bool_decide_true by done. by destruct (List.find _ (listFor u (fu_faceId o))).
    + rewrite bool_decide_false; [done|]. intros [-> ->]. by rewrite !bool_decide_true in Et.
  - exists []. split_and!; [|by intros x ?%not_elem_of_nil|done].
    rewrite app_nil_r. unfold u'. by case_bool_decide.
Qed.

Lemma recAfter_single x n f b :
  recAfter [x] n f b =
    if bool_decide (n = ru_name x ∧ f = rt_faceId (ru_route x))
    then match ru_action x with REGISTER => true | UNREGISTER => false | REMOVE_FACE => b end else b.
Proof.
  unfold recAfter. simpl. destruct (decide (n = ru_name x ∧ f = rt_faceId (ru_route x))) as [[-> ->]|Hne].
  - by rewrite !bool_decide_true.
  - rewrite (bool_decide_false (_ ∧ _)) by done.
    destruct (bool_decide (ru_name x = n)) eqn:E1, (bool_decide (_ = f)) eqn:E2; try done.
    apply bool_decide_eq_true in E1, E2. destruct Hne. by split.
Qed.
(** A record and its update. *)
Lemma record_effect (L : Name → Prop) act n route o u :
  L n → updKey o = (n, rt_faceId route) →
  match act with REGISTER => Some true | UNREGISTER => Some false | REMOVE_FACE => None end =
    recordOf (fun _ _ => Some (updateCost o)) n 0 →
  wp (modify (fun u => set_up_inherited (up_inheritedRoutes u ++ [mkRibUpdate act n route]) u);; addFibUpdate o)
    (fun _ => paired L (at_ n (rt_faceId route) (updateCost o)) u) u.
Proof.
  intros HL Hk Hact. apply wp_bind. apply wp_modify. set (u1 := set_up_inherited _ u).
  eapply wp_mono; [apply (addFibUpdate_effect L)|]. intros [] u' He. injection Hk as <- Ef. rewrite <-Ef.
  eapply effect_ext; [eapply (effect_trans L none _ (at_ (fu_name o) (fu_faceId o)
    match updateCost o with Some _ => true | None => false end)); [|exact He]|..].
  - split_and!; [done|intros [H1 H2 H3]; by split|done|].
    eexists. split_and!; [done|by intros x ->%list_elem_of_singleton|].
    intros n' f' b. rewrite recAfter_single. unfold at_. cbn [ru_name ru_route ru_action]. rewrite <-Ef.
    case_bool_decide; [|done]. unfold recordOf in Hact. simpl in *. by destruct act; simplify_eq.
  - intros n' f'. unfold over, none. simpl. by destruct (at_ _ _ _ n' f').
  - intros n' f'. unfold over, none, recordOf, at_. by case_bool_decide.
Qed.
Lemma addRoute_effect (L : Name → Prop) n route u :
  L n →
  wp (addInheritedRoute n route;; addFibUpdate (createAddUpdate n (rt_faceId route) (rt_cost route)))
    (fun _ => paired L (at_ n (rt_faceId route) (Some (rt_cost route))) u) u.
Proof.
  intros HL. exact (record_effect L REGISTER n route
    (createAddUpdate n (rt_faceId route) (rt_cost route)) u HL eq_refl eq_refl).
Qed.
Lemma removeRoute_effect (L : Name → Prop) n route u :
  L n →
  wp (removeInheritedRoute n route;; addFibUpdate (createRemoveUpdate n (rt_faceId route)))
    (fun _ => paired L (at_ n (rt_faceId route) None) u) u.
Proof.
  intros HL. exact (record_effect L UNREGISTER n route
    (createRemoveUpdate n (rt_faceId route)) u HL eq_refl eq_refl).
Qed.

(** ** The loops over a set of routes *)

Definition inFace (f : Z) (S : RouteSet) : bool :=
  match findFace f S with Some _ => true | None => false end.
Definition notInherit (entry : RibEntry) (r : Route) : bool :=
  negb (hasChildInheritOnFaceId entry (rt_faceId r)).

Lemma findFace_filter f (p : Route → bool) (q : Z → bool) S :
  (∀ r, p r = q (rt_faceId r)) → findFace f (List.filter p S) = if q f then findFace f S else None.
Proof.
  intros Hpq. unfold findFace. induction S as [|x S IH]; cbn [List.filter List.find]; [by destruct (q f)|].
  rewrite Hpq. destruct (q (rt_faceId x)) eqn:E; cbn [List.find]; rewrite IH; case_bool_decide; subst; rewrite ?E; done.
Qed.
Lemma routeSet_filter_ok (p : Route → bool) S : routeSet_ok S → routeSet_ok (List.filter p S).
Proof.
  induction 1 as [|x s Hs IH Hf]; cbn [List.filter]; [constructor|]. destruct (p x); [|done].
  constructor; [done|]. rewrite Forall_forall in Hf |- *. intros y Hy.
  apply list_elem_of_In, filter_In in Hy as [Hy _]. by apply Hf, list_elem_of_In.
Qed.
Lemma findFace_cons f x S :
  findFace f (x :: S) = if bool_decide (rt_faceId x = f) then Some x else findFace f S.
Proof. done. Qed.
Lemma routeSet_cons_inv x S : routeSet_ok (x :: S) → routeSet_ok S ∧ findFace (rt_faceId x) S = None.
Proof.
  intros [Hs Hf]%StronglySorted_inv. split; [done|]. apply findFace_None. intros a Ha.
  rewrite Forall_forall in Hf. specialize (Hf a Ha). lia.
Qed.

(** A loop that, for the routes of a set whose face passes [g], writes [val]. *)
Definition loopE (n : Name) (g : Z → bool) (val : Route → option Z) (S : RouteSet) : Changes (option Z) :=
  fun n' f => if bool_decide (n' = n) then if g f then val <$> findFace f S else None else None.

Lemma loopE_cons n g val x S n' f :
  findFace (rt_faceId x) S = None →
  loopE n g val (x :: S) n' f =
    over (loopE n g val S) (if g (rt_faceId x) then at_ n (rt_faceId x) (val x) else none) n' f.
Proof.
  intros Hx. unfold loopE, over, at_, none. rewrite findFace_cons.
  destruct (decide (n' = n)) as [->|Hn]; cycle 1.
  { rewrite (bool_decide_false (n' = n)) by done. destruct (g _); [|done]. by rewrite bool_decide_false by naive_solver. }
  rewrite (bool_decide_true (n = n)) by done. destruct (decide (rt_faceId x = f)) as [<-|Hf].
  - rewrite bool_decide_true, Hx by done. destruct (g (rt_faceId x)); [|done]. simpl. by rewrite bool_decide_true.
  - rewrite bool_decide_false by done. destruct (g f), (findFace f S); simpl; try done;
      (destruct (g _); [|done]); by rewrite bool_decide_false by naive_solver.
Qed.

Lemma forM_loop (L : Name → Prop) n (g : Z → bool) (val : Route → option Z) S (body : Route → M FibUpdater unit) u :
  L n → routeSet_ok S →
  (∀ r u, wp (body r) (fun _ => paired L (if g (rt_faceId r) then at_ n (rt_faceId r) (val r) else none) u) u) →
  wp (forM_ S body) (fun _ => paired L (loopE n g val S) u) u.
Proof.
  intros HL HS Hbody. revert u. induction S as [|x S IH]; intros u; cbn [forM_].
  - apply wp_ret. apply (paired_ext L none); [apply effect_refl|]. intros. unfold loopE, none.
    case_bool_decide; [|done]. simpl. by destruct (g _).
  - apply routeSet_cons_inv in HS as [HS Hx]. apply wp_bind. eapply wp_mono; [apply Hbody|]. intros [] u1 H1.
    eapply wp_mono; [by apply IH|]. intros [] u2 H2. eapply paired_ext; [by eapply paired_trans|].
    intros. symmetry. by apply loopE_cons.
Qed.
Lemma paired_none L u : paired L none u u.
Proof. apply effect_refl. Qed.

(** ** The walk over a subtree *)

Lemma hasInheritedRoute_view e r : hasInheritedRoute e r = viewRecorded (entryView e) (rt_faceId r).
Proof.
  unfold hasInheritedRoute, findInheritedRoute, viewRecorded. cbn [entryView fst snd].
  induction (re_inheritedRoutes e) as [|x l IH]; [done|]. cbn [List.find existsb]. by case_bool_decide.
Qed.
Lemma hasChildInherit_view e f :
  hasChildInheritOnFaceId e f = match viewInherit (entryView e) f with Some _ => true | None => false end.
Proof.
  unfold hasChildInheritOnFaceId, viewInherit. cbn [entryView fst].
  induction (re_routes e) as [|x l IH]; [done|]. cbn [List.find existsb]. rewrite IH. by destruct (_ && _).
Qed.

(** The two loops of [traverseSubTree] as loops over the whole set. *)
Lemma traverseRemove_spec (L : Name → Prop) e S u :
  L (re_name e) → routeSet_ok S →
  wp (traverseRemove e S) (fun S' u' =>
    S' = List.filter (notInherit e) S ∧
    paired L (loopE (re_name e) (fun f => negb (hasChildInheritOnFaceId e f) && viewRecorded (entryView e) f)
                (fun _ => None) S) u u') u.
Proof.
  intros HL HS. revert u. induction S as [|x S IH]; intros u; cbn [traverseRemove].
  { apply wp_ret. split; [done|]. apply (paired_ext L none); [apply effect_refl|]. intros. unfold loopE, none.
    case_bool_decide; [|done]. simpl. by destruct (_ && _). }
  apply routeSet_cons_inv in HS as [HS Hx]. cbn [List.filter]. unfold notInherit at 1.
  destruct (hasChildInheritOnFaceId e (rt_faceId x)) eqn:Eci; cbn [negb].
  - eapply wp_mono; [by apply IH|]. intros S' u' [-> He]. split; [done|]. eapply paired_ext; [exact He|].
    intros n f. rewrite loopE_cons by done. unfold over, none. rewrite Eci. simpl. by destruct (loopE _ _ _ _ n f).
  - apply wp_bind. eapply wp_mono with (R := fun _ => paired L
      (if negb (hasChildInheritOnFaceId e (rt_faceId x)) && viewRecorded (entryView e) (rt_faceId x)
       then at_ (re_name e) (rt_faceId x) None else none) u).
    { rewrite hasInheritedRoute_view, Eci. cbn [negb andb].
      destruct (viewRecorded _ _); [by apply removeRoute_effect|apply wp_ret, paired_none]. }
    intros [] u1 H1. apply wp_bind. eapply wp_mono; [by apply IH|]. intros S' u2 [-> H2]. apply wp_ret.
    split; [done|]. eapply paired_ext; [by eapply paired_trans|]. intros. symmetry. by apply loopE_cons.
Qed.
Lemma traverseAdd_spec (L : Name → Prop) e S u :
  L (re_name e) → routeSet_ok S →
  wp (traverseAdd e S) (fun S' u' =>
    S' = List.filter (notInherit e) S ∧
    paired L (loopE (re_name e) (fun f => negb (hasChildInheritOnFaceId e f) && negb (hasFaceId e f))
                (fun r => Some (rt_cost r)) S) u u') u.
Proof.
  intros HL HS. revert u. induction S as [|x S IH]; intros u; cbn [traverseAdd].
  { apply wp_ret. split; [done|]. apply (paired_ext L none); [apply effect_refl|]. intros. unfold loopE, none.
    case_bool_decide; [|done]. simpl. by destruct (_ && _). }
  apply routeSet_cons_inv in HS as [HS Hx]. cbn [List.filter]. unfold notInherit at 1.
  destruct (hasChildInheritOnFaceId e (rt_faceId x)) eqn:Eci; cbn [negb].
  - eapply wp_mono; [by apply IH|]. intros S' u' [-> He]. split; [done|]. eapply paired_ext; [exact He|].
    intros n f. rewrite loopE_cons by done. unfold over, none. rewrite Eci. simpl. by destruct (loopE _ _ _ _ n f).
  - apply wp_bind. eapply wp_mono with (R := fun _ => paired L
      (if negb (hasChildInheritOnFaceId e (rt_faceId x)) && negb (hasFaceId e (rt_faceId x))
       then at_ (re_name e) (rt_faceId x) (Some (rt_cost x)) else none) u).
    { rewrite Eci. cbn [negb andb].
      destruct (negb (hasFaceId _ _)); [by apply addRoute_effect|apply wp_ret, paired_none]. }
    intros [] u1 H1. apply wp_bind. eapply wp_mono; [by apply IH|]. intros S' u2 [-> H2]. apply wp_ret.
    split; [done|]. eapply paired_ext; [by eapply paired_trans|]. intros. symmetry. by apply loopE_cons.
Qed.

Section traverse.
Context (s : Rib) (Ht : rib_tree s).
Local Abbreviation V := (ribView s).

(** Nothing on the way from [c] to [m], both included, decides about [f]. *)
Definition reach (c m : Name) (f : Z) : bool :=
  isPrefixOf c m && match scan V m f (length c) (S (length m) - length c) with None => true | Some _ => false end.
(** What the walk writes at a name it reaches. *)
Definition walkValue (toAdd toRemove : RouteSet) (m : Name) (f : Z) : option (option Z) :=
  v ← V m;
  let removed := if inFace f toRemove && viewRecorded v f then Some None else None in
  match findFace f toAdd with
  | Some a => if hasFaceId (viewEntry v) f then removed else Some (Some (rt_cost a))
  | None => removed
  end.
Definition walkE (toAdd toRemove : RouteSet) (tops : list Name) : Changes (option Z) :=
  fun m f => if existsb (fun c => reach c m f) tops then walkValue toAdd toRemove m f else None.

Lemma reach_spec c m f :
  reach c m f = true ↔ c `prefix_of` m ∧
    ∀ i, (length c ≤ i ≤ length m)%nat → nodeOf (V (take i m)) f = None.
Proof.
  unfold reach. rewrite andb_true_iff, isPrefixOf_spec.
  assert (match scan V m f (length c) (S (length m) - length c) with None => true | Some _ => false end = true ↔
    scan V m f (length c) (S (length m) - length c) = None) as -> by by destruct (scan _ _ _ _ _).
  rewrite scan_None. split; intros [Hp H]; (split; [done|]); intros i Hi; apply H; [lia|].
  apply prefix_length in Hp. lia.
Qed.

(** A name below [c] is below one of the children of [c]. *)
Lemma child_towards c r m x :
  Rib_find s c = Some r → Rib_find s m = Some x → sprefix c m →
  ∃ d y, Rib_find s d = Some y ∧ findParent s d = Some r ∧ d `prefix_of` m.
Proof using Ht.
  intros Hc Hm. remember (length m) as k eqn:Ek. revert m x Hm Ek.
  induction k as [k IH] using lt_wf_ind. intros m x Hm -> Hcm.
  destruct (tr_entry s Ht m x Hm) as (Hsm & _).
  destruct (findParent s m) as [y|] eqn:Ep.
  - apply findParent_Some in Ep as Hp; [|done]. destruct Hp as (p & (Hp & Hps & Hmax) & Hy).
    destruct (decide (c = p)) as [<-|Hne].
    { exists m, x. split_and!; [done|congruence|done]. }
    destruct (IH (length p) (sprefix_length _ _ Hp) p y Hy eq_refl) as (d & z & Hd & Hpd & Hdp).
    { split; [apply Hmax; [done|by rewrite Hc]|done]. }
    exists d, z. split_and!; [done..|]. etrans; [exact Hdp|apply Hp].
  - rewrite (proj1 (findParent_None s m Hsm) Ep c Hcm) in Hc. done.
Qed.
Lemma reach_children c r e m f :
  Rib_find s c = Some r → rb_heap s !! r = Some e → is_Some (V m) → m ≠ c →
  reach c m f = true ↔ nodeOf (V c) f = None ∧
    ∃ d x, Rib_find s d = Some x ∧ x ∈ re_children e ∧ reach d m f = true.
Proof using Ht.
  intros Hc He [v Hm] Hmc. apply ribView_Some in Hm as (x & _ & Hm & _).
  destruct (erase_links s c r e Ht Hc He) as (_ & _ & Hch). split.
  - intros [Hp Hall]%reach_spec.
    assert (sprefix c m) as Hcm by by split.
    assert (take (length c) m = c) as Etk by (apply sprefix_take in Hcm as [E _]; by rewrite <-E).
    split; [rewrite <-Etk; apply Hall; apply prefix_length in Hp; lia|].
    destruct (child_towards c r m x Hc Hm Hcm) as (d & y & Hd & Hpd & Hdm).
    exists d, y. split_and!; [done|by apply (Hch d y)|]. apply reach_spec. split; [done|].
    intros i Hi. apply Hall. destruct (tr_entry s Ht d y Hd) as (Hsd & _).
    apply findParent_Some in Hpd as (p & (Hp' & _) & Hpr); [|done].
    rewrite (Rib_find_inj s p c r Ht Hpr Hc) in Hp'. apply sprefix_length in Hp'. lia.
  - intros [Hnode (d & y & Hd & Hyc & [Hdm Hall]%reach_spec)].
    apply (Hch d y Hd) in Hyc. destruct (tr_entry s Ht d y Hd) as (Hsd & _).
    apply findParent_Some in Hyc as (p & (Hp & _ & Hmax) & Hpr); [|done].
    rewrite (Rib_find_inj s p c r Ht Hpr Hc) in *. clear p Hpr.
    assert (c `prefix_of` m) as Hcm by (etrans; [apply Hp|done]).
    apply reach_spec. split; [done|]. intros i Hi.
    destruct (decide (length d ≤ i)%nat) as [|Hlt]; [apply Hall; lia|].
    assert (take i m = take i d) as Ei.
    { destruct Hdm as [k ->]. rewrite take_app_le by lia. done. }
    destruct (decide (i = length c)) as [->|Hic].
    { rewrite Ei. apply sprefix_take in Hp as [E _]. by rewrite <-E. }
    rewrite Ei. destruct (V (take i d)) as [w|] eqn:Ew; [|done]. exfalso.
    apply ribView_Some in Ew as (z & _ & Hz & _).
    assert (take i d `prefix_of` c) as Hpre.
    { apply Hmax; [|by rewrite Hz]. apply sprefix_take. rewrite length_take. split; [f_equal|]; lia. }
    apply prefix_length in Hpre. rewrite length_take in Hpre. lia.
Qed.

Lemma walkE_cons A R d ds m f :
  walkE A R (d :: ds) m f = over (walkE A R ds) (walkE A R [d]) m f.
Proof.
  unfold walkE, over. cbn [existsb]. rewrite orb_false_r.
  destruct (existsb _ ds); [|by rewrite orb_false_r; destruct (reach d m f)].
  rewrite orb_true_r. destruct (walkValue A R m f); [done|by destruct (reach d m f)].
Qed.
Lemma walk_loop (L : Name → Prop) A R ds cs (body : RibRef → M FibUpdater unit) u :
  Forall2 (fun c d => ∀ u, wp (body c) (fun _ => paired L (walkE A R [d]) u) u) cs ds →
  wp (forM_ cs body) (fun _ => paired L (walkE A R ds) u) u.
Proof.
  intros HF. revert u. induction HF as [|c d cs ds Hd HF IH]; intros u; cbn [forM_].
  - apply wp_ret. apply (paired_ext L none); [apply effect_refl|done].
  - apply wp_bind. eapply wp_mono; [apply Hd|]. intros [] u1 H1. eapply wp_mono; [apply IH|].
    intros [] u2 H2. eapply paired_ext; [by eapply paired_trans|]. intros. symmetry. apply walkE_cons.
Qed.

(** The names of the table below [c]. *)
Definition below (c : Name) : list (Name * RibRef) :=
  List.filter (fun nr => isPrefixOf c nr.1 && negb (bool_decide (c = nr.1))) (rb_rib s).
Lemma below_child c d y :
  Rib_find s d = Some y → sprefix c d → (length (below d) < length (below c))%nat.
Proof using Ht.
  intros Hd Hcd. apply tableFind_Some in Hd; [|apply Ht]. unfold below.
  apply (filter_length_lt _ _ _ (d, y)); [|done|by apply strictly_prefix|].
  - intros x Hx%strictly_prefix. apply strictly_prefix. by eapply sprefix_trans.
  - cbn [fst]. by rewrite (bool_decide_true (d = d)), andb_false_r.
Qed.
Lemma below_fuel c : (length (below c) < ribFuel s)%nat.
Proof.
  unfold ribFuel, below. pose proof (filter_length_le (fun nr : Name * RibRef => isPrefixOf c nr.1 &&
    negb (bool_decide (c = nr.1))) (rb_rib s)). lia.
Qed.
(** The children of an entry have names in the table. *)
Lemma children_names c r e :
  Rib_find s c = Some r → rb_heap s !! r = Some e →
  ∃ ds, Forall2 (fun x d => Rib_find s d = Some x ∧ sprefix c d) (re_children e) ds.
Proof using Ht.
  intros Hc He. destruct (erase_links s c r e Ht Hc He) as (_ & _ & Hch).
  assert (∀ x, x ∈ re_children e → ∃ d, Rib_find s d = Some x ∧ sprefix c d) as H.
  { intros x Hx. destruct (erase_child_ne s c r e Ht Hc He x Hx) as [[d Hd] _]. exists d. split; [done|].
    apply (Hch d x Hd) in Hx. apply findParent_Some in Hx as (p & (Hp & _) & Hpr); [|by apply (tr_entry s Ht d x)].
    by rewrite (Rib_find_inj s p c r Ht Hpr Hc) in Hp. }
  clear -H. induction (re_children e) as [|x l IH]; [by exists []|].
  destruct (H x) as (d & Hd); [by left|]. destruct IH as [ds Hds]; [intros; apply H; by right|].
  exists (d :: ds). by constructor.
Qed.

(** What the entry itself and the walk below it write, together. *)
Lemma walkE_step A R c r e ds m f :
  Rib_find s c = Some r → rb_heap s !! r = Some e → hasCapture e = false →
  Forall2 (fun x d => Rib_find s d = Some x ∧ sprefix c d) (re_children e) ds →
  over (walkE (List.filter (notInherit e) A) (List.filter (notInherit e) R) ds)
    (over (loopE c (fun f => negb (hasChildInheritOnFaceId e f) && negb (hasFaceId e f)) (fun r => Some (rt_cost r)) A)
       (loopE c (fun f => negb (hasChildInheritOnFaceId e f) && viewRecorded (entryView e) f) (fun _ => None) R)) m f =
  walkE A R [c] m f.
Proof using Ht.
  intros Hc He Hcap Hds. pose proof (ribView_find _ _ _ _ Hc He) as HV.
  assert (nodeOf (V c) f = match viewInherit (entryView e) f with Some a => Some (Some a) | None => None end) as Hnode.
  { rewrite HV. unfold nodeOf. cbn [mbind option_bind]. change (viewCapture (entryView e)) with (hasCapture e).
    by rewrite Hcap. }
  unfold over, walkE, loopE. cbn [existsb]. rewrite orb_false_r.
  destruct (decide (m = c)) as [->|Hmc].
  - assert (existsb (fun d => reach d c f) ds = false) as ->.
    { apply not_true_iff_false. intros (d & Hd%list_elem_of_In & [Hr _]%reach_spec)%existsb_exists.
      apply list_elem_of_lookup in Hd as [i Hi].
      destruct (Forall2_lookup_r _ _ _ _ _ Hds Hi) as (x & _ & _ & Hcd).
      apply prefix_length in Hr. apply sprefix_length in Hcd. lia. }
    rewrite (bool_decide_true (c = c)) by done.
    assert (reach c c f = negb (hasChildInheritOnFaceId e f)) as ->.
    { rewrite hasChildInherit_view. apply Bool.eq_iff_eq_true. rewrite reach_spec.
      assert (negb match viewInherit (entryView e) f with Some _ => true | None => false end = true ↔
        nodeOf (V c) f = None) as -> by (rewrite Hnode; by destruct (viewInherit _ _)).
      split; [intros [_ H]; rewrite <-(take_ge c (length c)) by done; by apply H|].
      intros H. split; [done|]. intros i Hi. by rewrite take_ge by lia. }
    destruct (hasChildInheritOnFaceId e f); [done|]. cbn [negb andb]. unfold walkValue. rewrite HV. simpl.
    change (hasFaceId (viewEntry (entryView e)) f) with (hasFaceId e f). unfold inFace.
    destruct (findFace f A); simpl; destruct (hasFaceId e f), (findFace f R), (viewRecorded _ f); done.
  - rewrite !(bool_decide_false (m = c)) by done.
    destruct (V m) as [v|] eqn:Hm.
    2:{ unfold walkValue. rewrite Hm. simpl. by destruct (existsb _ ds), (reach c m f). }
    assert (reach c m f = true ↔ nodeOf (V c) f = None ∧ existsb (fun d => reach d m f) ds = true) as Hrc.
    { rewrite (reach_children c r e m f Hc He) by (by rewrite ?Hm || done). split; intros [Hn Hex]; (split; [done|]).
      - destruct Hex as (d & x & Hd & Hx & Hr). apply existsb_exists. exists d. split; [|done].
        apply list_elem_of_In. apply list_elem_of_lookup in Hx as [i Hi].
        destruct (Forall2_lookup_l _ _ _ _ _ Hds Hi) as (d' & Hd' & Hf & _).
        rewrite (Rib_find_inj s d d' x Ht Hd Hf). by eapply list_elem_of_lookup_2.
      - apply existsb_exists in Hex as (d & Hd%list_elem_of_In & Hr). apply list_elem_of_lookup in Hd as [i Hi].
        destruct (Forall2_lookup_r _ _ _ _ _ Hds Hi) as (x & Hx & Hf & _).
        exists d, x. split_and!; [done|by eapply list_elem_of_lookup_2|done]. }
    destruct (existsb _ ds) eqn:Ex.
    + destruct (viewInherit (entryView e) f) as [a|] eqn:Ei.
      * assert (reach c m f = false) as -> by (apply not_true_iff_false; intros [Hn _]%Hrc; congruence).
        unfold walkValue, inFace. rewrite Hm. simpl.
        rewrite !(findFace_filter f (notInherit e) (fun f => negb (hasChildInheritOnFaceId e f))) by done.
        rewrite hasChildInherit_view, Ei. done.
      * assert (reach c m f = true) as -> by by apply Hrc.
        unfold walkValue, inFace. rewrite Hm. simpl.
        rewrite !(findFace_filter f (notInherit e) (fun f => negb (hasChildInheritOnFaceId e f))) by done.
        rewrite hasChildInherit_view, Ei. cbn [negb]. by destruct (match findFace f A with Some _ => _ | None => _ end).
    + destruct (reach c m f) eqn:Er; [|done]. destruct (proj1 Hrc eq_refl). congruence.
Qed.

(** [traverseSubTree] ends, and writes at the names it reaches. *)
Lemma traverseSubTree_spec (L : Name → Prop) fuel c r A R u :
  (∀ m, is_Some (V m) → c `prefix_of` m → L m) → Rib_find s c = Some r → (length (below c) < fuel)%nat → routeSet_ok A → routeSet_ok R →
  wp (traverseSubTree s fuel r A R) (fun _ => paired L (walkE A R [c]) u) u.
Proof using Ht.
  revert c r A R u. induction fuel as [|fuel IH]; intros c r A R u HLc Hc Hfuel HA HR; [lia|].
  destruct (tr_entry s Ht c r Hc) as (_ & e & He & <-). cbn [traverseSubTree].
  apply wp_bind. eapply wp_deref; [done|]. destruct (hasCapture e) eqn:Ecap.
  - apply wp_ret. apply (paired_ext L none); [apply effect_refl|]. intros m f. unfold walkE, none. cbn [existsb].
    rewrite orb_false_r. destruct (reach (re_name e) m f) eqn:Er; [|done]. exfalso.
    apply reach_spec in Er as [Hp Hall].
    assert (take (length (re_name e)) m = re_name e) as Etk by (destruct Hp as [k ->]; by rewrite take_app_length).
    specialize (Hall (length (re_name e)) ltac:(apply prefix_length in Hp; lia)).
    rewrite Etk, (ribView_find _ _ _ _ Hc He) in Hall. unfold nodeOf in Hall. cbn [mbind option_bind] in Hall.
    change (viewCapture (entryView e)) with (hasCapture e) in Hall. rewrite Ecap in Hall.
    by destruct (viewInherit _ f).
  - assert (L (re_name e)) as HL by (apply HLc; [by rewrite (ribView_find _ _ _ _ Hc He)|done]).
    apply wp_bind. eapply wp_mono; [by apply (traverseRemove_spec L)|]. intros R' u1 [-> H1].
    apply wp_bind. eapply wp_mono; [by apply (traverseAdd_spec L)|]. intros A' u2 [-> H2].
    destruct (children_names _ r e Hc He) as [ds Hds].
    eapply wp_mono; [apply (walk_loop L (List.filter (notInherit e) A) (List.filter (notInherit e) R) ds)|].
    + eapply Forall2_impl; [exact Hds|]. intros x d [Hd Hcd] u'.
      apply IH; [|done| |by apply routeSet_filter_ok..].
      * intros m Hm Hdm. apply HLc; [done|]. etrans; [apply Hcd|exact Hdm].
      * pose proof (below_child _ _ _ Hd Hcd). lia.
    + intros [] u3 H3. eapply paired_ext; [eapply paired_trans; [eapply paired_trans; [exact H1|exact H2]|exact H3]|].
      intros m f. by eapply walkE_step.
Qed.
Lemma modifyChildrens_spec (L : Name → Prop) cs ds A R u :
  (∀ m d, is_Some (V m) → d ∈ ds → d `prefix_of` m → L m) →
  Forall2 (fun x d => Rib_find s d = Some x) cs ds → routeSet_ok A → routeSet_ok R →
  wp (modifyChildrensInheritedRoutes s cs A R) (fun _ => paired L (walkE A R ds) u) u.
Proof using Ht.
  intros HL Hcs HA HR. apply walk_loop. apply Forall2_same_length_lookup_2; [by eapply Forall2_length|].
  intros i x d Hx Hd u'. apply traverseSubTree_spec; [|exact (Forall2_lookup_lr _ _ _ _ _ _ Hcs Hx Hd)|apply below_fuel|done..].
  intros m Hm Hdm. eapply HL; [done|by eapply list_elem_of_lookup_2|done].
Qed.
End traverse.
