(* ===== verification/RibFib.v ===== *)
(** * The FIB follows the RIB

    If the FIB holds what the RIB asks for ([expectedCost]) and the RIB's
    records of inherited routes are right, then the updates computed for a RIB
    update turn the FIB into what the RIB asks for afterwards, and the records
    stay right.  The lemmas treat the registration of a new name, of a new route,
    of a new cost, and the removal of a route. *)

From S2P Require Import Prelude Tlv Component Name PrefixAnn RibEntry Rib RibTree RibProps.
From S2P Require Import FibUpdater RibInherit RibEffect.
Local Open Scope Z_scope.

(** ** Own routes *)

Lemma lowestCost_loop_Some p c l : is_Some (lowestCost_loop p (Some c) l).
Proof.
  revert c. induction l as [|r l IH]; intros c; [by eexists|]. cbn [lowestCost_loop].
  destruct (p r); [|apply IH]. case_bool_decide; apply IH.
Qed.
Lemma lowestCost_loop_None p l : lowestCost_loop p None l = None ↔ ∀ r, r ∈ l → p r = false.
Proof.
  induction l as [|r l IH]; cbn [lowestCost_loop].
  { split; [by intros _ r ?%not_elem_of_nil|done]. }
  destruct (p r) eqn:E.
  - split; [|intros H; rewrite H in E by (by left); done].
    destruct (lowestCost_loop_Some p r l) as [x Hx]. by rewrite Hx.
  - rewrite IH. split; [intros H x [->|?]%elem_of_cons; auto|]. intros H x Hx. apply H. by right.
Qed.
Lemma ownCost_hasFaceId v f : ownCost v f = None ↔ hasFaceId (viewEntry v) f = false.
Proof.
  unfold ownCost. rewrite fmap_None. unfold getRouteWithLowestCostByFaceId.
  rewrite lowestCost_loop_None, hasFaceId_false. by setoid_rewrite bool_decide_eq_false.
Qed.
Lemma viewInherit_own v f a : viewInherit v f = Some a → is_Some (ownCost v f).
Proof.
  intros H. destruct (ownCost v f) eqn:E; [by eexists|]. apply ownCost_hasFaceId in E.
  rewrite hasFaceId_false in E. unfold viewInherit in H. apply find_some in H as [Hin%list_elem_of_In Hp].
  apply andb_true_iff in Hp as [Hf%bool_decide_eq_true _]. by destruct (E a Hin).
Qed.

(** ** Names below the one that changes *)

Section below.
Context (s : Rib) (V' : RibView) (n : Name).
Local Abbreviation V := (ribView s).
Context (HV : ∀ x, x ≠ n → V' x = V x) (Hrec : recorded_ok V).
Context (A R : RouteSet) (tops : list Name).
(** The walk reaches the names below [n] that see a change at [n]. *)
Context (Htops : ∀ m f, is_Some (V m) → m ≠ n →
  existsb (fun c => reach s c m f) tops = true ↔
  sprefix n m ∧ scan V m f (S (length n)) (length m - length n) = None).
(** What the children of [n] inherit, before and after. *)
Definition baseRoute (W : RibView) (f : Z) : option Route :=
  match nodeOf (W n) f with Some d => d | None => inheritedRoute V n f end.
Context (H1 : ∀ f a, findFace f A = Some a → rt_cost <$> baseRoute V' f = Some (rt_cost a)).
Context (H2 : ∀ f, findFace f A = None → inFace f R = true → baseRoute V' f = None).
Context (H3 : ∀ f, findFace f A = None → inFace f R = false →
  rt_cost <$> baseRoute V' f = rt_cost <$> baseRoute V f).

Lemma inheritedRoute_self f : inheritedRoute V' n f = inheritedRoute V n f.
Proof using HV.
  unfold inheritedRoute. f_equal. apply (scan_elsewhere V V' n).
  - intros x Hx. by rewrite HV.
  - intros [_ ?]. done.
Qed.
Lemma inheritedRoute_elsewhere m f : ¬ sprefix n m → inheritedRoute V' m f = inheritedRoute V m f.
Proof using HV.
  intros Hm. unfold inheritedRoute. f_equal. apply (scan_elsewhere V V' n); [|done]. intros x Hx. by rewrite HV.
Qed.
Lemma inheritedRoute_below W m f :
  (∀ x, x ≠ n → W x = V x) → sprefix n m →
  inheritedRoute W m f =
    match scan V m f (S (length n)) (length m - S (length n)) with Some d => d | None => baseRoute W f end.
Proof.
  intros HW Hm. unfold inheritedRoute. rewrite (scan_below W n m f Hm).
  rewrite (scan_ext V W m m f (S (length n))).
  - destruct (scan V m f _ _) as [d|]; [done|]. unfold baseRoute. destruct (nodeOf (W n) f); [done|].
    unfold inheritedRoute. f_equal. apply (scan_elsewhere V W n); [|by intros [_ ?]].
    intros x Hx. by rewrite HW.
  - intros i Hi. rewrite HW; [done|]. intros E. apply (f_equal length) in E. rewrite length_take in E.
    apply sprefix_length in Hm. lia.
Qed.
(** The updates of the walk give the names below [n] what they now inherit. *)
Lemma walk_correct m v f :
  m ≠ n → V m = Some v →
  inheritedCost V' m f = default (inheritedCost V m f) (walkE s A R tops m f).
Proof using HV Hrec Htops H1 H2 H3.
  intros Hmn Hm. unfold walkE. pose proof (Htops m f ltac:(by rewrite Hm) Hmn) as Ht.
  assert (inheritedCost V' m f = match ownCost v f with Some _ => None | None =>
    if viewCapture v then None else rt_cost <$> inheritedRoute V' m f end) as ->.
  { unfold inheritedCost. by rewrite HV, Hm. }
  assert (inheritedCost V m f = match ownCost v f with Some _ => None | None =>
    if viewCapture v then None else rt_cost <$> inheritedRoute V m f end) as Hold.
  { unfold inheritedCost. by rewrite Hm. }
  assert (viewRecorded v f = match inheritedCost V m f with Some _ => true | None => false end) as Hr.
  { pose proof (Hrec m v f Hm) as Hr. destruct (inheritedCost V m f); destruct (viewRecorded v f); try done;
      [by destruct (proj2 Hr ltac:(by eexists))|by destruct (proj1 Hr eq_refl)]. }
  destruct (decide (n `prefix_of` m)) as [Hp|Hp]; cycle 1.
  { rewrite inheritedRoute_elsewhere by (intros [? _]; done).
    destruct (existsb _ tops); [by destruct (proj1 Ht eq_refl) as [[? _] _]|done]. }
  assert (sprefix n m) as Hnm by by split. pose proof (sprefix_length _ _ Hnm) as Hlen.
  rewrite (inheritedRoute_below V' m f HV Hnm). rewrite (inheritedRoute_below V m f ltac:(done) Hnm) in Hold.
  replace (length m - length n)%nat with (S (length m - S (length n))) in Ht by lia.
  cbn [scan] in Ht. rewrite take_ge, Hm in Ht by lia.
  destruct (nodeOf (Some v) f) as [d|] eqn:Enode.
  { assert (existsb (fun c => reach s c m f) tops = false) as ->.
    { apply not_true_iff_false. intros E. by destruct (proj1 Ht E). }
    simpl. rewrite Hold. destruct (ownCost v f) eqn:Eo; [done|]. unfold nodeOf in Enode. cbn [mbind option_bind] in Enode.
    destruct (viewInherit v f) eqn:Ei; [destruct (viewInherit_own _ _ _ Ei); congruence|].
    by destruct (viewCapture v). }
  unfold nodeOf in Enode. cbn [mbind option_bind] in Enode.
  destruct (viewInherit v f) eqn:Ei; [done|]. destruct (viewCapture v) eqn:Ec; [done|].
  destruct (scan V m f (S (length n)) (length m - S (length n))) as [d|].
  { assert (existsb (fun c => reach s c m f) tops = false) as ->.
    { apply not_true_iff_false. intros E. by destruct (proj1 Ht E). }
    by rewrite Hold. }
  rewrite (proj2 Ht) by done. unfold walkValue. rewrite Hm. cbn [mbind option_bind].
  destruct (ownCost v f) as [c|] eqn:Eo.
  - assert (hasFaceId (viewEntry v) f = true) as ->.
    { apply not_false_iff_true. intros E%ownCost_hasFaceId. congruence. }
    rewrite Hold in Hr. rewrite Hr, andb_false_r, Hold. by destruct (findFace f A).
  - rewrite (proj1 (ownCost_hasFaceId v f) Eo). destruct (findFace f A) as [a|] eqn:EA; [by apply H1|].
    destruct (inFace f R) eqn:ER; cbn [andb].
    + rewrite (H2 f EA ER). rewrite Hr. by destruct (inheritedCost V m f).
    + simpl. rewrite Hold. by apply H3.
Qed.
End below.

(** The nearest names below [n] are where the walk starts. *)
Definition nearestBelow (V : RibView) (n : Name) (tops : list Name) : Prop :=
  (∀ d, d ∈ tops → sprefix n d ∧ ∀ x, sprefix n x → sprefix x d → V x = None) ∧
  (∀ m, is_Some (V m) → sprefix n m → ∃ d, d ∈ tops ∧ d `prefix_of` m).

Lemma tops_reach s n tops m f :
  nearestBelow (ribView s) n tops → is_Some (ribView s m) →
  existsb (fun c => reach s c m f) tops = true ↔
  sprefix n m ∧ scan (ribView s) m f (S (length n)) (length m - length n) = None.
Proof.
  intros [Hgap Hex] Hm. rewrite existsb_exists, scan_None. split.
  - intros (d & Hd%list_elem_of_In & [Hp Hall]%reach_spec). destruct (Hgap d Hd) as [Hnd Hnone].
    pose proof (sprefix_prefix_trans _ _ _ Hnd Hp) as Hnm. split; [done|]. intros i Hi.
    destruct (decide (length d ≤ i)%nat) as [|Hlt]; [apply Hall; lia|].
    assert (take i m = take i d) as -> by (destruct Hp as [k ->]; by rewrite take_app_le by lia).
    rewrite Hnone; [done|..].
    + apply sprefix_take in Hnd as [E Hl]. apply sprefix_take. rewrite length_take. split; [|lia].
      rewrite take_take, Nat.min_l by lia. done.
    + apply sprefix_take. rewrite length_take. split; [f_equal|]; lia.
  - intros [Hnm Hall]. destruct (Hex m Hm Hnm) as (d & Hd & Hp). exists d. split; [by apply list_elem_of_In|].
    apply reach_spec. split; [done|]. intros i Hi. apply Hall.
    destruct (Hgap d Hd) as [Hnd _]. apply sprefix_length in Hnd. apply sprefix_length in Hnm. lia.
Qed.
Lemma nearest_children s n r e ds :
  rib_tree s → Rib_find s n = Some r → rb_heap s !! r = Some e →
  Forall2 (fun x d => Rib_find s d = Some x ∧ sprefix n d) (re_children e) ds →
  nearestBelow (ribView s) n ds.
Proof.
  intros Ht Hr He Hds. destruct (erase_links s n r e Ht Hr He) as (_ & _ & Hch). split.
  - intros d [i Hi]%list_elem_of_lookup. destruct (Forall2_lookup_r _ _ _ _ _ Hds Hi) as (x & Hx & Hd & Hnd).
    split; [done|]. intros y Hny Hyd. apply (ribView_None s y Ht).
    destruct (Rib_find s y) as [z|] eqn:Hz; [|done]. exfalso.
    assert (findParent s d = Some r) as Hp by (apply (Hch d x Hd); by eapply list_elem_of_lookup_2).
    apply findParent_Some in Hp as (p & (_ & _ & Hmax) & Hpr); [|by apply (tr_entry s Ht d x)].
    rewrite (Rib_find_inj s p n r Ht Hpr Hr) in Hmax.
    assert (y `prefix_of` n) as Hyn by (apply Hmax; [done|by rewrite Hz]).
    apply prefix_length in Hyn. apply sprefix_length in Hny. lia.
  - intros m [v Hm] Hnm. apply ribView_Some in Hm as (x & _ & Hm & _).
    destruct (child_towards s Ht n r m x Hr Hm Hnm) as (d & y & Hd & Hp & Hdm). exists d. split; [|done].
    apply (Hch d y Hd) in Hp. apply list_elem_of_lookup in Hp as [i Hi].
    destruct (Forall2_lookup_l _ _ _ _ _ Hds Hi) as (d' & Hd' & Hf & _).
    rewrite (Rib_find_inj s d d' y Ht Hd Hf). by eapply list_elem_of_lookup_2.
Qed.

(** The children that a new name takes over. *)
Lemma orphan_towards s n m x :
  rib_tree s → smallName n → Rib_find s n = None → Rib_find s m = Some x → sprefix n m →
  ∃ d y, Rib_find s d = Some y ∧ findParent s d = findParent s n ∧ sprefix n d ∧ d `prefix_of` m.
Proof.
  intros Ht Hn Hnone Hm. remember (length m) as k eqn:Ek. revert m x Hm Ek.
  induction k as [k IH] using lt_wf_ind. intros m x Hm -> Hnm.
  destruct (tr_entry s Ht m x Hm) as (Hsm & _).
  destruct (findParent s m) as [y|] eqn:Ep.
  - apply findParent_Some in Ep as Hp; [|done]. destruct Hp as (p & (Hp & Hps & Hmax) & Hy).
    destruct (prefixes_linear n p m) as [Hnp|Hpn]; [apply Hnm|apply Hp|..].
    + destruct (IH (length p) (sprefix_length _ _ Hp) p y Hy eq_refl) as (d & z & Hd & Hpd & Hnd & Hdp).
      { split; [done|]. intros ->. congruence. }
      exists d, z. split_and!; [done..|]. etrans; [exact Hdp|apply Hp].
    + exists m, x. split_and!; [done| |done..]. rewrite Ep. symmetry. apply findParent_Some; [done|]. exists p.
      split; [|done]. split_and!; [done..|]. intros q Hq Hs. apply Hmax; [by eapply sprefix_trans|done].
  - exists m, x. split_and!; [done| |done..]. rewrite Ep. symmetry. apply findParent_None; [done|].
    intros q Hq. apply (proj1 (findParent_None s m Hsm) Ep). by eapply sprefix_trans.
Qed.
Lemma sameParent_spec s parent l u :
  Forall (fun x => is_Some (rb_heap s !! x)) l →
  wp (sameParent s parent l) (fun cs u' => u' = u ∧
    ∀ x, x ∈ cs ↔ x ∈ l ∧ (rb_heap s !! x ≫= re_parent) = parent) u.
Proof.
  induction 1 as [|x l [e He] Hl IH]; cbn [sameParent].
  { apply wp_ret. split; [done|]. intros x. split; [by intros ?%not_elem_of_nil|by intros [?%not_elem_of_nil _]]. }
  apply wp_bind. eapply wp_deref; [done|]. apply wp_bind. eapply wp_mono; [exact IH|].
  intros cs u' [-> Hcs]. apply wp_ret. split; [done|]. intros y.
  case_bool_decide as E; rewrite ?elem_of_cons, Hcs.
  - split; [|naive_solver]. intros [->|[? ?]]; [|tauto]. split; [by left|]. by rewrite He.
  - split; [tauto|]. intros [[->|?] Hy]; [|done]. rewrite He in Hy. done.
Qed.
Lemma sameParent_tops s n u :
  rib_tree s → smallName n → Rib_find s n = None →
  wp (sameParent s (findParent s n) (findDescendantsForNonInsertedName s n)) (fun cs u' => u' = u ∧
    ∃ ds, Forall2 (fun x d => Rib_find s d = Some x) cs ds ∧ nearestBelow (ribView s) n ds) u.
Proof.
  intros Ht Hn Hnone.
  assert (∀ x, x ∈ findDescendantsForNonInsertedName s n ↔ ∃ d, Rib_find s d = Some x ∧ n `prefix_of` d) as HD.
  { intros x. unfold findDescendantsForNonInsertedName, Rib_find. split.
    - intros ([d y] & -> & Hin)%list_elem_of_fmap. apply list_elem_of_In, filter_In in Hin as [Hin Hp].
      exists d. rewrite tableFind_Some by apply Ht. rewrite list_elem_of_In, <-isPrefixOf_spec. done.
    - intros (d & Hd & Hp). rewrite tableFind_Some in Hd by apply Ht. apply list_elem_of_fmap.
      exists (d, x). split; [done|]. apply list_elem_of_In, filter_In. rewrite <-list_elem_of_In.
      split; [done|]. by apply isPrefixOf_spec. }
  eapply wp_mono; [apply sameParent_spec|].
  { apply Forall_forall. intros x (d & Hd & _)%HD. destruct (tr_entry s Ht d x Hd) as (_ & e & He & _). by rewrite He. }
  intros cs u' [-> Hcs]. split; [done|].
  assert (∀ x, x ∈ cs ↔ ∃ d, Rib_find s d = Some x ∧ sprefix n d ∧ findParent s d = findParent s n) as Hcs'.
  { intros x. rewrite Hcs, HD. split.
    - intros [(d & Hd & Hp) E]. exists d. destruct (tr_entry s Ht d x Hd) as (_ & e & He & _).
      destruct (erase_links s d x e Ht Hd He) as (Ep & _). rewrite He in E. simpl in E.
      split_and!; [done|split; [done|intros ->; congruence]|congruence].
    - intros (d & Hd & [Hp _] & E). split; [by exists d|]. destruct (tr_entry s Ht d x Hd) as (_ & e & He & _).
      destruct (erase_links s d x e Ht Hd He) as (Ep & _). rewrite He. simpl. congruence. }
  assert (∃ ds, Forall2 (fun x d => Rib_find s d = Some x ∧ sprefix n d ∧ findParent s d = findParent s n) cs ds)
    as [ds Hds].
  { assert (∀ x, x ∈ cs → ∃ d, Rib_find s d = Some x ∧ sprefix n d ∧ findParent s d = findParent s n) as H
      by (intros; by apply Hcs'). clear -H. induction cs as [|x l IH]; [by exists []|].
    destruct (H x) as (d & Hd); [by left|]. destruct IH as [ds Hds]; [intros; apply H; by right|].
    exists (d :: ds). by constructor. }
  exists ds. split; [eapply Forall2_impl; [exact Hds|]; by intros ? ? (? & _)|]. split.
  - intros d [i Hi]%list_elem_of_lookup. destruct (Forall2_lookup_r _ _ _ _ _ Hds Hi) as (x & Hx & Hd & Hnd & Ep).
    split; [done|]. intros y Hny Hyd. apply (ribView_None s y Ht).
    destruct (Rib_find s y) as [z|] eqn:Hz; [|done]. exfalso.
    destruct (tr_entry s Ht d x Hd) as (Hsd & _). destruct (findParent s d) as [p|] eqn:Epd.
    + apply findParent_Some in Epd as (p' & (_ & _ & Hmax) & Hpr); [|done]. symmetry in Ep.
      apply findParent_Some in Ep as (p'' & (Hp'' & _) & Hpr'); [|done].
      rewrite (Rib_find_inj s p' p'' p Ht Hpr Hpr') in Hmax.
      assert (y `prefix_of` p'') as Hyp by (apply Hmax; [done|by rewrite Hz]).
      apply prefix_length in Hyp. apply sprefix_length in Hny, Hp''. lia.
    + rewrite (proj1 (findParent_None s d Hsd) Epd y Hyd) in Hz. done.
  - intros m [v Hm] Hnm. apply ribView_Some in Hm as (x & _ & Hm & _).
    destruct (orphan_towards s n m x Ht Hn Hnone Hm Hnm) as (d & y & Hd & Ep & Hnd & Hdm).
    exists d. split; [|done]. assert (y ∈ cs) as Hy by (apply Hcs'; eauto). apply list_elem_of_lookup in Hy as [i Hi].
    destruct (Forall2_lookup_l _ _ _ _ _ Hds Hi) as (d' & Hd' & Hf & _).
    rewrite (Rib_find_inj s d d' y Ht Hd Hf). by eapply list_elem_of_lookup_2.
Qed.

(** ** Correct updates *)

(** From a FIB as [V] asks for, the updates of [u] give the one [V'] asks for,
    without removing what is not there; and the records of [V'], changed as [u]
    says, are right. *)
Record update_correct (V V' : RibView) (u : FibUpdater) : Prop := {
  uc_wf : upd_wf u;
  uc_fib : ∀ m f, expectedCost V' m f = default (expectedCost V m f) (upd u m f);
  uc_names : ∀ x, x ∈ up_inheritedRoutes u → is_Some (V' (ru_name x));
  uc_rec : ∀ m v f, V' m = Some v →
    recAfter (up_inheritedRoutes u) m f (viewRecorded v f) = true ↔ is_Some (inheritedCost V' m f);
  uc_removes : ∀ m f, upd u m f = Some None → is_Some (expectedCost V m f)
}.

(** An updater before it computes. *)
Definition clean (u : FibUpdater) : Prop :=
  up_updatesForBatchFaceId u = [] ∧ up_updatesForNonBatchFaceId u = [] ∧ up_inheritedRoutes u = [].
Lemma clean_upd u n f : clean u → upd u n f = None.
Proof. intros (E1 & E2 & _). unfold upd, listFor. rewrite E1, E2. by case_bool_decide. Qed.
Lemma clean_wf u : clean u → upd_wf u.
Proof. intros (E1 & E2 & _). split; rewrite ?E1, ?E2; [constructor..|split; constructor]. Qed.

Lemma walkE_self s A R n tops f : nearestBelow (ribView s) n tops → walkE s A R tops n f = None.
Proof.
  intros [Hgap _]. unfold walkE. destruct (existsb _ tops) eqn:E; [|done]. exfalso.
  apply existsb_exists in E as (d & Hd%list_elem_of_In & [Hp _]%reach_spec).
  destruct (Hgap d Hd) as [Hnd _]. apply prefix_length in Hp. apply sprefix_length in Hnd. lia.
Qed.
Lemma walkE_own s A R tops m v f :
  recorded_ok (ribView s) → ribView s m = Some v → is_Some (ownCost v f) → walkE s A R tops m f = None.
Proof.
  intros Hrec Hm [c Hc]. unfold walkE, walkValue. destruct (existsb _ tops); [|done]. rewrite Hm. simpl.
  assert (hasFaceId (viewEntry v) f = true) as ->.
  { apply not_false_iff_true. intros E%ownCost_hasFaceId. congruence. }
  assert (viewRecorded v f = false) as ->; [|rewrite andb_false_r; by destruct (findFace f A)].
  apply not_true_iff_false. intros [x Hx]%(Hrec m v f Hm). unfold inheritedCost in Hx. rewrite Hm in Hx. simpl in Hx.
  by rewrite Hc in Hx.
Qed.

(** The walk removes only what a name has inherited. *)
Lemma walkE_removes s A R tops m f :
  recorded_ok (ribView s) → walkE s A R tops m f = Some None → is_Some (expectedCost (ribView s) m f).
Proof.
  intros Hrec. unfold walkE, walkValue. destruct (existsb _ tops); [|done].
  destruct (ribView s m) as [v|] eqn:Hm; [|done]. cbn [mbind option_bind]. intros H.
  assert (viewRecorded v f = true) as Hv.
  { destruct (viewRecorded v f); [done|]. rewrite andb_false_r in H.
    destruct (findFace f A); [|done]. by destruct (hasFaceId (viewEntry v) f). }
  apply (Hrec m v f Hm) in Hv. unfold expectedCost. rewrite Hm. cbn [mbind option_bind].
  destruct (ownCost v f); [by eexists|done].
Qed.
Lemma update_correct_intro s V' n A R tops E Rc u0 u :
  recorded_ok (ribView s) → (∀ x, x ≠ n → V' x = ribView s x) →
  nearestBelow (ribView s) n tops →
  (∀ f a, findFace f A = Some a → rt_cost <$> baseRoute s n V' f = Some (rt_cost a)) →
  (∀ f, findFace f A = None → inFace f R = true → baseRoute s n V' f = None) →
  (∀ f, findFace f A = None → inFace f R = false →
     rt_cost <$> baseRoute s n V' f = rt_cost <$> baseRoute s n (ribView s) f) →
  clean u0 → effect (fun m => is_Some (V' m)) E Rc u0 u →
  (∀ m f, m ≠ n → E m f = walkE s A R tops m f ∧ Rc m f = recordOf (walkE s A R tops) m f) →
  (∀ f, expectedCost V' n f = default (expectedCost (ribView s) n f) (E n f)) →
  (∀ f, E n f = Some None → is_Some (expectedCost (ribView s) n f)) →
  (∀ v f, V' n = Some v → default (viewRecorded v f) (Rc n f) = true ↔ is_Some (inheritedCost V' n f)) →
  update_correct (ribView s) V' u.
Proof.
  intros Hrec HV Hnear H1 H2 H3 Hclean (Hb & Hwf & Hupd & l & Hl & HL & Hra) Hoff Hn1 Hn3 Hn2.
  destruct Hclean as (C1 & C2 & C3). assert (clean u0) as Hclean by done.
  assert (∀ m f, upd u m f = E m f) as HE.
  { intros m f. rewrite Hupd. unfold over. rewrite clean_upd by done. by destruct (E m f). }
  rewrite C3 in Hl. simpl in Hl.
  pose proof (walk_correct s V' n HV Hrec A R tops (fun m f Hm _ => tops_reach s n tops m f Hnear Hm) H1 H2 H3) as Hw.
  split.
  - by apply Hwf, clean_wf.
  - intros m f. rewrite HE. destruct (decide (m = n)) as [->|Hmn]; [apply Hn1|].
    destruct (Hoff m f Hmn) as [-> _]. unfold expectedCost. rewrite HV by done.
    destruct (ribView s m) as [v|] eqn:Hm; simpl.
    + destruct (ownCost v f) eqn:Eo; [by erewrite walkE_own by eauto|]. by apply (Hw m v f).
    + unfold walkE, walkValue. rewrite Hm. simpl. by destruct (existsb _ tops).
  - intros x Hx. rewrite Hl in Hx. by apply HL.
  - intros m v f Hm. rewrite Hl, Hra. destruct (decide (m = n)) as [->|Hmn]; [by apply Hn2|].
    destruct (Hoff m f Hmn) as [_ ->]. rewrite HV in Hm by done. unfold recordOf. rewrite (Hw m v f Hmn Hm).
    destruct (walkE s A R tops m f) as [[c|]|]; simpl; [naive_solver|split; [done|by intros []]|]. by apply Hrec.
  - intros m f. rewrite HE. destruct (decide (m = n)) as [->|Hmn]; [apply Hn3|].
    destruct (Hoff m f Hmn) as [-> _]. by apply walkE_removes.
Qed.

Lemma effect_mono (L L' : Name → Prop) E R u u' : (∀ m, L m → L' m) → effect L E R u u' → effect L' E R u u'.
Proof. intros HL (B & W & U & l & I & N & X). split_and!; [done..|]. exists l. split_and!; auto. Qed.

Definition updView (V : RibView) (n : Name) (v : option EntryView) : RibView :=
  fun x => if bool_decide (x = n) then v else V x.
Lemma updView_self V n v : updView V n v n = v.
Proof. unfold updView. by rewrite bool_decide_true. Qed.
Lemma updView_other V n v x : x ≠ n → updView V n v x = V x.
Proof. intros. unfold updView. by rewrite bool_decide_false. Qed.

Lemma walkE_nil s tops m f : walkE s [] [] tops m f = None.
Proof. unfold walkE, walkValue. destruct (existsb _ tops); [|done]. by destruct (ribView s m). Qed.

(** *** A new name *)

Section newName.
Context (s : Rib) (n : Name) (route : Route).
Context (Ht : rib_tree s) (Hn : smallName n) (Hnone : Rib_find s n = None) (Hrec : recorded_ok (ribView s)).
Local Abbreviation V := (ribView s).
Local Abbreviation newView := (registerView route None).
Local Abbreviation V' := (updView V n (Some newView)).

Lemma newView_own f : ownCost newView f = if bool_decide (rt_faceId route = f) then Some (rt_cost route) else None.
Proof.
  unfold ownCost, getRouteWithLowestCostByFaceId. cbn [viewEntry re_routes]. rewrite registerView_routes.
  cbn [lowestCost_loop]. by case_bool_decide.
Qed.
Lemma newView_capture : viewCapture newView = isRibCapture route.
Proof. unfold viewCapture, hasCapture, registerView, insertRoute. simpl. by destruct (isRibCapture route). Qed.
Lemma newView_inherit f :
  viewInherit newView f = if bool_decide (rt_faceId route = f) && isChildInherit route then Some route else None.
Proof. unfold viewInherit. rewrite registerView_routes. cbn [List.find]. by destruct (_ && _). Qed.
Lemma newView_recorded f : viewRecorded newView f = false.
Proof. unfold viewRecorded, registerView, insertRoute. simpl. by destruct (isRibCapture route). Qed.
Lemma newName_absent : V n = None.
Proof using Ht Hnone. by apply ribView_None. Qed.

Lemma newName_base f :
  baseRoute s n V' f =
    if bool_decide (rt_faceId route = f) && isChildInherit route then Some route
    else if isRibCapture route then None else inheritedRoute V n f.
Proof.
  unfold baseRoute. rewrite updView_self. unfold nodeOf. cbn [mbind option_bind].
  rewrite newView_inherit, newView_capture. destruct (_ && _); [done|]. by destruct (isRibCapture route).
Qed.
Lemma newName_base_old f : baseRoute s n V f = inheritedRoute V n f.
Proof using Ht Hnone. unfold baseRoute. by rewrite newName_absent. Qed.

(** The updates of the new name itself are right if it takes over the
    ancestors' routes unless it captures. *)
Lemma newName_correct anc A R tops Einh u0 u :
  (∀ f, findFace f anc = inheritedRoute V n f) →
  nearestBelow V n tops →
  (∀ f a, findFace f A = Some a → rt_cost <$> baseRoute s n V' f = Some (rt_cost a)) →
  (∀ f, findFace f A = None → inFace f R = true → baseRoute s n V' f = None) →
  (∀ f, findFace f A = None → inFace f R = false →
     rt_cost <$> baseRoute s n V' f = rt_cost <$> baseRoute s n V f) →
  Einh = (if isRibCapture route then none
          else loopE n (fun f => negb (bool_decide (f = rt_faceId route))) (fun r => Some (rt_cost r)) anc) →
  clean u0 →
  effect (fun m => is_Some (V' m))
    (over (walkE s A R tops) (over Einh (at_ n (rt_faceId route) (Some (rt_cost route)))))
    (over (recordOf (walkE s A R tops)) (over (recordOf Einh) none)) u0 u →
  update_correct V V' u.
Proof using Ht Hnone Hrec.
  intros Hanc Hnear H1 H2 H3 -> Hclean Heff.
  assert (∀ f, inheritedRoute V' n f = inheritedRoute V n f) as Hself.
  { intros f. apply inheritedRoute_self. intros. by apply updView_other. }
  eapply update_correct_intro; [done|by intros; apply updView_other|done..|exact Heff| | | |].
  - intros m f Hm. split.
    + unfold over at 1. destruct (walkE s A R tops m f); [done|]. unfold over, loopE, at_, none.
      destruct (isRibCapture route); rewrite ?(bool_decide_false (m = n)), (bool_decide_false (_ ∧ _)) by naive_solver; done.
    + unfold over at 1. destruct (recordOf (walkE s A R tops) m f); [done|]. unfold over, loopE, recordOf, none.
      destruct (isRibCapture route); rewrite ?(bool_decide_false (m = n)) by naive_solver; done.
  - intros f. unfold expectedCost, inheritedCost. rewrite !updView_self, newName_absent. cbn [mbind option_bind].
    rewrite newView_own, newView_capture, Hself. unfold over. rewrite walkE_self by done. unfold loopE, at_, none.
    destruct (decide (rt_faceId route = f)) as [<-|Hf].
    + rewrite !(bool_decide_true (rt_faceId route = _)) by done. destruct (isRibCapture route);
        rewrite ?(bool_decide_true (n = n)), ?(bool_decide_true (rt_faceId route = _)) by done; cbn [negb];
        by rewrite (bool_decide_true (_ ∧ _)) by done.
    + rewrite (bool_decide_false (rt_faceId route = _)) by done.
      destruct (isRibCapture route); [by rewrite bool_decide_false by naive_solver|].
      rewrite (bool_decide_true (n = n)), (bool_decide_false (f = _)), Hanc by done. cbn [negb].
      destruct (inheritedRoute V n f); [done|]. simpl. by rewrite bool_decide_false by naive_solver.
  - intros f. unfold over. rewrite walkE_self by done. unfold loopE, at_, none.
    destruct (isRibCapture route); [by case_bool_decide|]. rewrite (bool_decide_true (n = n)) by done.
    destruct (negb _), (findFace f anc); simpl; by try case_bool_decide.
  - intros v f Hv. rewrite updView_self in Hv. apply (inj Some) in Hv as <-. rewrite newView_recorded.
    unfold inheritedCost. rewrite updView_self. cbn [mbind option_bind]. rewrite newView_own, newView_capture, Hself.
    unfold over, recordOf. rewrite walkE_self by done. unfold loopE, none. simpl.
    destruct (isRibCapture route); simpl.
    { case_bool_decide; (split; [done|by intros []]). }
    rewrite (bool_decide_true (n = n)) by done. destruct (decide (rt_faceId route = f)) as [<-|Hf].
    + rewrite !(bool_decide_true (rt_faceId route = _)) by done. split; [done|by intros []].
    + rewrite (bool_decide_false (rt_faceId route = _)), (bool_decide_false (f = _)), Hanc by done. simpl.
      destruct (inheritedRoute V n f); simpl; [naive_solver|]. split; [done|by intros []].
Qed.
End newName.

Lemma addInheritedRoutes_name_effect (L : Name → Prop) n anc route u :
  L n → routeSet_ok anc →
  wp (addInheritedRoutes_name n anc route)
    (fun _ => paired L (loopE n (fun f => negb (bool_decide (f = rt_faceId route))) (fun r => Some (rt_cost r)) anc) u) u.
Proof.
  intros HL Hanc. apply forM_loop; [done..|]. intros r u'. rewrite bool_decide_not.
  destruct (negb _); [by apply addRoute_effect|apply wp_ret, paired_none].
Qed.
Lemma recordOf_over_none E n f : over (recordOf E) none n f = recordOf E n f.
Proof. unfold over, none. by destruct (recordOf E n f). Qed.
Lemma over_none_l {A} (E : Changes A) n f : over none E n f = E n f.
Proof. done. Qed.

Lemma routeSet_single route : routeSet_ok [route].
Proof. repeat constructor. Qed.
Lemma findFace_single f route :
  findFace f [route] = if bool_decide (rt_faceId route = f) then Some route else None.
Proof. unfold findFace. cbn [List.find]. by case_bool_decide. Qed.

Lemma register_newName s act n route u0 :
  rib_tree s → smallName n → Rib_find s n = None → recorded_ok (ribView s) → clean u0 →
  wp (computeUpdatesForRegistration s (mkRibUpdate act n route)) (fun _ =>
    update_correct (ribView s) (updView (ribView s) n (Some (registerView route None)))) u0.
Proof.
  intros Ht Hn Hnone Hrec Hclean. unfold computeUpdatesForRegistration. cbn [ru_name ru_route]. rewrite Hnone.
  apply wp_bind. eapply wp_mono; [by apply sameParent_tops|]. intros cs u (-> & tops & Hcs & Hnear).
  set (V := ribView s) in *. set (V' := updView V n (Some (registerView route None))).
  set (L' := fun m => is_Some (V' m)).
  assert (∀ m d, is_Some (V m) → d ∈ tops → d `prefix_of` m → L' m) as HLL.
  { intros m d Hm _ _. unfold L', V', updView. case_bool_decide; [by eexists|done]. }
  assert (L' n) as HLn by (unfold L', V'; rewrite updView_self; by eexists).
  unfold createFibUpdatesForNewRibEntry. apply wp_bind.
  eapply wp_mono; [apply (addFibUpdate_effect L')|]. intros [] u1 Hu1. cbn [createAddUpdate fu_name fu_faceId] in Hu1.
  destruct (getAncestorRoutes_name_spec s n Ht Hn) as (anc & Eanc & Hancok & Hanc). rewrite Eanc. fold V in Hanc.
  pose proof (newName_correct s n route Ht Hnone Hrec anc) as Hfinal.
  pose proof (newName_base s n route) as Hbase. pose proof (newName_base_old s n Ht Hnone) as Hbase0.
  fold V V' in Hfinal, Hbase, Hbase0.
  assert (∀ f, inFace f anc = true → is_Some (inheritedRoute V n f)) as Hin.
  { intros f. unfold inFace. rewrite Hanc. by destruct (inheritedRoute V n f). }
  assert (∀ f, inFace f anc = false → inheritedRoute V n f = None) as Hnin.
  { intros f. unfold inFace. rewrite Hanc. by destruct (inheritedRoute V n f). }
  destruct (isChildInherit route) eqn:Eci, (isRibCapture route) eqn:Ecap; cbn [negb andb].
  - apply wp_bind. eapply wp_lift; [done|].
    eapply wp_mono; [by apply (modifyChildrens_spec s Ht L' cs tops [route] anc u1); [..|apply routeSet_single|]|].
    intros [] u2 Hu2.
    eapply (Hfinal [route] anc tops none u0 u2); [done|done| | | |done|done|].
    + intros f a. rewrite findFace_single, Hbase, andb_true_r. case_bool_decide; [by intros [= ->]|done].
    + intros f. rewrite findFace_single, Hbase, andb_true_r. by case_bool_decide.
    + intros f. rewrite findFace_single, Hbase, andb_true_r, Hbase0. case_bool_decide; [done|].
      intros _ E%Hnin. by rewrite E.
    + eapply effect_ext; [eapply effect_trans; [exact Hu1|exact Hu2]|done..].
  - apply wp_bind. eapply wp_lift; [done|]. apply wp_bind.
    eapply wp_mono; [by apply (addInheritedRoutes_name_effect L')|]. intros [] u2 Hu2.
    set (A := routeSet_insert route (routeSet_erase route anc)).
    assert (∀ f, findFace f A = if bool_decide (rt_faceId route = f) then Some route else inheritedRoute V n f) as HA.
    { intros f. unfold A. rewrite routeSet_insert_find, routeSet_erase_find, Hanc by by apply routeSet_erase_ok.
      case_bool_decide; [done|]. by destruct (inheritedRoute V n f). }
    eapply wp_mono; [apply (modifyChildrens_spec s Ht L' cs tops A [] u2); [done|done|by apply routeSet_insert_ok, routeSet_erase_ok|constructor]|].
    intros [] u3 Hu3.
    eapply (Hfinal A [] tops _ u0 u3); [done|done| | | |done|done|].
    + intros f a. rewrite HA, Hbase, andb_true_r. case_bool_decide; [by intros [= ->]|by intros ->].
    + done.
    + intros f. rewrite HA, Hbase, andb_true_r, Hbase0. by case_bool_decide.
    + eapply effect_ext; [eapply effect_trans; [eapply effect_trans; [exact Hu1|exact Hu2]|exact Hu3]|done..].
  - apply wp_bind. eapply wp_lift; [done|].
    eapply wp_mono; [by apply (modifyChildrens_spec s Ht L' cs tops [] anc u1); [..|constructor|]|].
    intros [] u2 Hu2.
    eapply (Hfinal [] anc tops none u0 u2); [done|done|done| | |done|done|].
    + intros f. by rewrite Hbase, andb_false_r.
    + intros f. rewrite Hbase, andb_false_r, Hbase0. intros _ E%Hnin. by rewrite E.
    + eapply effect_ext; [eapply effect_trans; [exact Hu1|exact Hu2]|done..].
  - apply wp_bind. eapply wp_lift; [done|].
    eapply wp_mono; [by apply (addInheritedRoutes_name_effect L')|]. intros [] u2 Hu2.
    eapply (Hfinal [] [] tops _ u0 u2); [done|done|done|done| |done|done|].
    + intros f. by rewrite Hbase, andb_false_r, Hbase0.
    + eapply effect_ext; [eapply effect_trans; [exact Hu1|exact Hu2]|..]; intros m f; unfold over at 2;
        [by rewrite walkE_nil|unfold recordOf at 2; by rewrite walkE_nil].
Qed.
