(* ===== verification/RibRoutes.v ===== *)
(** * The routes of one name

    When a name has at most one route per face and its count of capturing
    routes is right, what the specification of inheritance asks about it can be
    read off by face; and registering or unregistering a route changes the
    answer for that face only. *)

From S2P Require Import Prelude Tlv Component Name PrefixAnn RibEntry Rib RibTree RibProps.
From S2P Require Import RibInherit RibEffect RibFib.
Local Open Scope Z_scope.

Definition captureCount (l : list Route) : Z := Z.of_nat (length (List.filter isRibCapture l)).
Definition view_ok (v : EntryView) : Prop :=
  NoDup (map rt_faceId (viewRoutes v)) ∧ v.2 = captureCount (viewRoutes v) ∧
  Z.of_nat (length (viewRoutes v)) < 2 ^ 64.

Lemma captureCount_bounds l : 0 ≤ captureCount l ≤ Z.of_nat (length l).
Proof. unfold captureCount. pose proof (filter_length_le isRibCapture l). lia. Qed.
Lemma captureCount_pos l : bool_decide (0 < captureCount l) = existsb isRibCapture l.
Proof.
  unfold captureCount. induction l as [|r l IH]; [done|]. cbn [List.filter existsb].
  destruct (isRibCapture r); cbn [length orb]; [apply bool_decide_true; lia|done].
Qed.
Lemma view_capture v : view_ok v → viewCapture v = existsb isRibCapture (viewRoutes v).
Proof.
  intros (_ & Hc & _). unfold viewCapture, hasCapture. cbn [viewEntry re_nRoutesWithCaptureSet].
  by rewrite Hc, captureCount_pos.
Qed.
Lemma findFace_NoDup l a :
  NoDup (map rt_faceId l) → a ∈ l → findFace (rt_faceId a) l = Some a.
Proof. apply (find_key_NoDup rt_faceId). Qed.

Lemma lowestCost_unique p l c :
  (∀ r, r ∈ l → p r = false) → lowestCost_loop p c l = c.
Proof.
  revert c. induction l as [|r l IH]; intros c H; [done|]. cbn [lowestCost_loop].
  rewrite H by (by left). apply IH. intros x Hx. apply H. by right.
Qed.
Lemma lowestCost_face (q : Route → bool) f l :
  NoDup (map rt_faceId l) →
  lowestCost_loop (fun r => bool_decide (rt_faceId r = f) && q r) None l =
    match findFace f l with Some a => if q a then Some a else None | None => None end.
Proof.
  induction l as [|r l IH]; [done|]. intros Hnd. cbn [map] in Hnd. apply NoDup_cons in Hnd as [Hr Hnd].
  cbn [lowestCost_loop]. rewrite findFace_cons. case_bool_decide as E; cbn [andb]; [|by apply IH].
  rewrite lowestCost_unique; [by destruct (q r)|]. intros x Hx. rewrite bool_decide_false; [done|].
  intros Ex. apply Hr. rewrite E, <-Ex. by apply list_elem_of_fmap_2.
Qed.
Lemma lowestCost_loop_pred p q c l : (∀ r, p r = q r) → lowestCost_loop p c l = lowestCost_loop q c l.
Proof. intros H. revert c. induction l as [|r l IH]; intros c; [done|]. cbn [lowestCost_loop]. by rewrite H, IH. Qed.
Lemma getLowest_face e f :
  NoDup (map rt_faceId (re_routes e)) → getRouteWithLowestCostByFaceId e f = findFace f (re_routes e).
Proof.
  intros Hnd. unfold getRouteWithLowestCostByFaceId.
  rewrite (lowestCost_loop_pred _ (fun r => bool_decide (rt_faceId r = f) && true)) by (intros; by rewrite andb_true_r).
  rewrite lowestCost_face by done. by destruct (findFace f (re_routes e)).
Qed.
Lemma land_1 x : bool_decide (Z.land x ROUTE_FLAG_CHILD_INHERIT = ROUTE_FLAG_CHILD_INHERIT) =
  bool_decide (Z.land x ROUTE_FLAG_CHILD_INHERIT ≠ 0).
Proof.
  unfold ROUTE_FLAG_CHILD_INHERIT. change 1 with (Z.ones 1). rewrite Z.land_ones by lia.
  pose proof (Z.mod_pos_bound x (2 ^ 1) ltac:(lia)). apply bool_decide_ext.
  change (Z.ones 1) with 1. lia.
Qed.
Lemma getLowestInherit_face e f :
  NoDup (map rt_faceId (re_routes e)) →
  getRouteWithLowestCostAndChildInheritByFaceId e f =
    match findFace f (re_routes e) with Some a => if isChildInherit a then Some a else None | None => None end.
Proof.
  intros Hnd. unfold getRouteWithLowestCostAndChildInheritByFaceId.
  rewrite (lowestCost_loop_pred _ (fun r => bool_decide (rt_faceId r = f) && isChildInherit r))
    by (intros; by rewrite land_1). by apply lowestCost_face.
Qed.
Lemma ownCost_face v f : view_ok v → ownCost v f = rt_cost <$> findFace f (viewRoutes v).
Proof. intros (Hnd & _). unfold ownCost. by rewrite getLowest_face. Qed.
Lemma viewInherit_face v f :
  view_ok v →
  viewInherit v f = match findFace f (viewRoutes v) with Some a => if isChildInherit a then Some a else None | None => None end.
Proof.
  intros (Hnd & _). unfold viewInherit. revert Hnd. generalize (viewRoutes v). intros l.
  induction l as [|r l IH]; [done|]. intros Hnd. cbn [map] in Hnd. apply NoDup_cons in Hnd as [Hr Hnd].
  rewrite findFace_cons. cbn [List.find]. case_bool_decide as E; cbn [andb]; [|by apply IH].
  destruct (isChildInherit r); [done|]. rewrite IH by done.
  destruct (findFace f l) as [a|] eqn:Ea; [|done]. apply findFace_Some in Ea as [Ha Ef].
  destruct Hr. rewrite E, <-Ef. by apply list_elem_of_fmap_2.
Qed.

(** ** Changing the routes *)

(** The name gets its first route on a face. *)
Lemma register_new_view v route :
  view_ok v → findFace (rt_faceId route) (viewRoutes v) = None →
  Z.of_nat (length (viewRoutes v)) + 1 < 2 ^ 64 →
  let v' := registerView route (Some v) in
  view_ok v' ∧ v'.1.2 = v.1.2 ∧ viewCapture v' = viewCapture v || isRibCapture route ∧
  (∀ f, findFace f (viewRoutes v') = if bool_decide (rt_faceId route = f) then Some route else findFace f (viewRoutes v)).
Proof.
  intros Hok Hf Hlen v'. destruct Hok as (Hnd & Hc & Hl). assert (view_ok v) as Hok by done.
  assert (findRoute (viewEntry v) route = None) as Hfr.
  { rewrite findRoute_key. apply (find_key_None routeKey). intros (a & Ek & Ha)%list_elem_of_fmap.
    injection Ek as Ef _. rewrite findFace_None in Hf. by destruct (Hf a Ha). }
  assert (viewRoutes v' = viewRoutes v ++ [route] ∧ v'.1.2 = v.1.2 ∧
    v'.2 = if isRibCapture route then u64 (v.2 + 1) else v.2) as (Er & Ei & Ec).
  { unfold v', registerView, registered, insertRoute. rewrite Hfr. by destruct (isRibCapture route). }
  assert (view_ok v') as Hok'.
  { split_and!; rewrite ?Er.
    - rewrite map_app. apply NoDup_app. split_and!; [done| |apply NoDup_singleton].
      intros x Hx ->%list_elem_of_singleton. apply list_elem_of_fmap in Hx as (a & Ea & Ha).
      rewrite findFace_None in Hf. by destruct (Hf a Ha).
    - rewrite Ec. unfold captureCount. rewrite List.filter_app, length_app. cbn [List.filter].
      pose proof (captureCount_bounds (viewRoutes v)). unfold captureCount in *.
      destruct (isRibCapture route); simpl; [rewrite u64_small|]; lia.
    - rewrite length_app. simpl. lia. }
  split_and!; [done..| |].
  - rewrite !view_capture, Er, existsb_app by done. simpl. by rewrite orb_false_r.
  - intros f. rewrite Er. unfold findFace in *. clear -Hf. induction (viewRoutes v) as [|x l IH]; cbn [app List.find] in *.
    + by case_bool_decide.
    + destruct (bool_decide (rt_faceId x = rt_faceId route)) eqn:E; [done|]. rewrite IH by done.
      apply bool_decide_eq_false in E. repeat case_bool_decide; congruence.
Qed.

Lemma updateFirst_findFace (p : Route → bool) g f a l :
  findFace (rt_faceId a) l = Some a → (∀ x, x ∈ l → p x = true ↔ rt_faceId x = rt_faceId a) →
  (∀ x, rt_faceId x = rt_faceId a → rt_faceId (g x) = rt_faceId a) →
  findFace f (updateFirst p g l) = if bool_decide (rt_faceId a = f) then Some (g a) else findFace f l.
Proof.
  unfold findFace. intros Hf Hp Hg. induction l as [|x l IH]; [done|]. cbn [updateFirst List.find] in *.
  destruct (p x) eqn:E.
  - apply Hp in E; [|by left]. rewrite bool_decide_true in Hf by done. simplify_eq. cbn [List.find].
    rewrite Hg by done. by case_bool_decide.
  - assert (rt_faceId x ≠ rt_faceId a) as Hne by (intros E'; apply Hp in E'; [congruence|by left]).
    rewrite bool_decide_false in Hf by done. cbn [List.find]. rewrite IH; [|done|intros; apply Hp; by right].
    repeat case_bool_decide; congruence.
Qed.
Lemma removeFirst_findFace (p : Route → bool) f a l :
  NoDup (map rt_faceId l) → findFace (rt_faceId a) l = Some a →
  (∀ x, x ∈ l → p x = true ↔ rt_faceId x = rt_faceId a) →
  findFace f (removeFirst p l) = if bool_decide (rt_faceId a = f) then None else findFace f l.
Proof.
  intros Hnd Hf Hp. rewrite (removeFirst_pred p (fun x => p x)) by done. revert Hnd Hf Hp. unfold findFace.
  induction l as [|x l IH]; [done|]. cbn [map removeFirst List.find]. intros [Hx Hnd]%NoDup_cons Hf Hp.
  destruct (p x) eqn:E.
  - apply Hp in E; [|by left]. rewrite bool_decide_true in Hf by done. simplify_eq.
    case_bool_decide as Ef; [|done]. subst. apply (find_key_None rt_faceId). done.
  - assert (rt_faceId x ≠ rt_faceId a) as Hne by (intros E'; apply Hp in E'; [congruence|by left]).
    rewrite bool_decide_false in Hf by done. cbn [List.find]. rewrite IH; [|done|done|intros; apply Hp; by right].
    repeat case_bool_decide; congruence.
Qed.

(** [existing] is the name's route with the key of [route]. *)
Lemma existing_face v route existing :
  view_ok v → findRoute (viewEntry v) route = Some existing →
  existing ∈ viewRoutes v ∧ routeKey existing = routeKey route ∧ rt_faceId existing = rt_faceId route ∧
  findFace (rt_faceId route) (viewRoutes v) = Some existing ∧
  ∀ x, x ∈ viewRoutes v → compareFaceIdAndOrigin x route = true ↔ rt_faceId x = rt_faceId existing.
Proof.
  intros (Hnd & _) Hf. rewrite findRoute_key in Hf. apply (find_key_Some routeKey) in Hf as [Hin Hk].
  cbn [viewEntry re_routes] in Hin. assert (rt_faceId existing = rt_faceId route) as Ef by (by injection Hk).
  split_and!; [done..|by rewrite <-Ef; apply findFace_NoDup|].
  intros x Hx. rewrite compareFaceIdAndOrigin_key, bool_decide_eq_true. split.
  - rewrite <-Hk. intros E. by injection E.
  - intros E. assert (x = existing) as ->; [|done].
    pose proof (findFace_NoDup _ _ Hnd Hx) as H1. pose proof (findFace_NoDup _ _ Hnd Hin) as H2. congruence.
Qed.

(** The name's route on a face gets a new cost. *)
Lemma register_cost_view v route existing :
  view_ok v → findRoute (viewEntry v) route = Some existing → rt_flags route = rt_flags existing →
  let v' := registerView route (Some v) in
  view_ok v' ∧ v'.1.2 = v.1.2 ∧ viewCapture v' = viewCapture v ∧
  (∀ f, findFace f (viewRoutes v') = if bool_decide (rt_faceId route = f) then Some route else findFace f (viewRoutes v)).
Proof.
  intros Hok Hf Hfl v'. destruct (existing_face v route existing Hok Hf) as (Hin & Hk & Ef & Hff & Hp).
  destruct Hok as (Hnd & Hc & Hl).
  assert (viewRoutes v' = updateFirst (fun x => compareFaceIdAndOrigin x route) (fun _ => route) (viewRoutes v) ∧
    v'.1.2 = v.1.2 ∧ v'.2 = v.2) as (Er & Ei & Ec).
  { unfold v', registerView, registered. by rewrite Hf. }
  assert (∀ x, x ∈ viewRoutes v → compareFaceIdAndOrigin x route = true → x = existing) as Hx.
  { intros x Hx Hpx%(Hp x Hx). pose proof (findFace_NoDup _ _ Hnd Hx) as E. rewrite Hpx, Ef in E. congruence. }
  split_and!; [split_and!|..].
  - assert (map rt_faceId (viewRoutes v') = map rt_faceId (viewRoutes v)) as ->; [|done]. rewrite Er.
    clear -Hx Ef. induction (viewRoutes v) as [|y l IH]; [done|]. cbn [updateFirst map].
    destruct (compareFaceIdAndOrigin y route) eqn:E; cbn [map].
    + by rewrite (Hx y ltac:(by left) E), Ef.
    + f_equal. apply IH. intros; apply Hx; [by right|done].
  - rewrite Ec, Hc, Er. unfold captureCount. f_equal. clear -Hx Hfl. induction (viewRoutes v) as [|y l IH]; [done|].
    cbn [updateFirst]. destruct (compareFaceIdAndOrigin y route) eqn:E; cbn [List.filter].
    + assert (isRibCapture route = isRibCapture y) as ->; [|by destruct (isRibCapture y)].
      unfold isRibCapture. by rewrite (Hx y ltac:(by left) E), Hfl.
    + specialize (IH ltac:(intros; apply Hx; [by right|done])). destruct (isRibCapture y); simpl; lia.
  - by rewrite Er, updateFirst_length.
  - done.
  - unfold viewCapture, hasCapture. cbn [viewEntry re_nRoutesWithCaptureSet]. by rewrite Ec.
  - intros f. rewrite Er, (updateFirst_findFace _ _ f existing); [by rewrite Ef|by rewrite Ef|done|].
    intros x _. done.
Qed.

(** The name loses its route on a face. *)
Lemma erase_view v route existing :
  view_ok v → findRoute (viewEntry v) route = Some existing →
  let v' := entryView (eraseRoute route (viewEntry v)).1 in
  view_ok v' ∧ v'.1.2 = v.1.2 ∧ viewCapture v = viewCapture v' || isRibCapture existing ∧
  (∀ f, findFace f (viewRoutes v') = if bool_decide (rt_faceId route = f) then None else findFace f (viewRoutes v)).
Proof.
  intros Hok Hf v'. destruct (existing_face v route existing Hok Hf) as (Hin & Hk & Ef & Hff & Hp).
  assert (view_ok v) as Hok0 by done. destruct Hok as (Hnd & Hc & Hl).
  assert (viewRoutes v' = removeFirst (fun x => compareFaceIdAndOrigin x route) (viewRoutes v) ∧
    v'.1.2 = v.1.2 ∧ v'.2 = if isRibCapture existing then u64 (v.2 - 1) else v.2) as (Er & Ei & Ec).
  { unfold v', eraseRoute. rewrite Hf. by destruct (isRibCapture existing). }
  assert (existing :: viewRoutes v' ≡ₚ viewRoutes v) as Hperm.
  { rewrite Er. apply removeFirst_perm. exact Hf. }
  assert (captureCount (viewRoutes v) = (if isRibCapture existing then 1 else 0) + captureCount (viewRoutes v')) as Ecc.
  { unfold captureCount. assert (∀ l l' : list Route, l ≡ₚ l' →
      length (List.filter isRibCapture l) = length (List.filter isRibCapture l')) as Hpl.
    { induction 1 as [|x l l' _ IH|x y l|l1 l2 l3 _ IH1 _ IH2]; cbn [List.filter]; [done| | |lia].
      - destruct (isRibCapture x); simpl; lia.
      - by destruct (isRibCapture x), (isRibCapture y). }
    rewrite <-(Hpl _ _ Hperm). cbn [List.filter]. destruct (isRibCapture existing); simpl; lia. }
  pose proof (captureCount_bounds (viewRoutes v')). pose proof (captureCount_bounds (viewRoutes v)).
  assert (view_ok v') as Hok'.
  { split_and!.
    - apply (fmap_Permutation rt_faceId) in Hperm. rewrite <-Hperm in Hnd. by apply NoDup_cons in Hnd as [_ ?].
    - rewrite Ec, Hc, Ecc. destruct (isRibCapture existing); [rewrite u64_small|]; lia.
    - pose proof (Permutation_length Hperm) as Hpl. cbn [length] in Hpl. rewrite <-Hpl in Hl. lia. }
  split_and!; [done..| |].
  - rewrite !view_capture by done. assert (∀ l l' : list Route, l ≡ₚ l' → existsb isRibCapture l = existsb isRibCapture l') as Hpe.
    { induction 1; cbn [existsb]; [done|congruence|by rewrite !orb_assoc, (orb_comm (isRibCapture x))|congruence]. }
    rewrite <-(Hpe _ _ Hperm). cbn [existsb]. by rewrite orb_comm.
  - intros f. rewrite Er, (removeFirst_findFace _ f existing); [by rewrite Ef|done|by rewrite Ef|done].
Qed.
