(* ===== verification/RibUpdates.v ===== *)
(** * Updates of a name that is in the RIB

    The updates computed when a name of the RIB gets a new route, when the cost
    of a route changes, and when a route is removed. *)

From S2P Require Import Prelude Tlv Component Name PrefixAnn RibEntry Rib RibTree RibProps.
From S2P Require Import FibUpdater RibInherit RibEffect RibFib RibRoutes.
Local Open Scope Z_scope.

Lemma removeInheritedRoutes_effect (L : Name → Prop) e anc u :
  L (re_name e) → routeSet_ok anc →
  wp (removeInheritedRoutes e anc)
    (fun _ => paired L (loopE (re_name e) (viewRecorded (entryView e)) (fun _ => None) anc) u) u.
Proof.
  intros HL Hanc. apply forM_loop; [done..|]. intros r u'. rewrite hasInheritedRoute_view.
  destruct (viewRecorded _ _); [by apply removeRoute_effect|apply wp_ret, paired_none].
Qed.
Lemma addInheritedRoutes_effect (L : Name → Prop) e anc u :
  L (re_name e) → routeSet_ok anc →
  wp (addInheritedRoutes e anc)
    (fun _ => paired L (loopE (re_name e) (fun f => negb (hasFaceId e f)) (fun r => Some (rt_cost r)) anc) u) u.
Proof.
  intros HL Hanc. apply forM_loop; [done..|]. intros r u'.
  destruct (negb _); [by apply addRoute_effect|apply wp_ret, paired_none].
Qed.

Section live.
Context (s : Rib) (n : Name) (r : RibRef) (e : RibEntry).
Context (Ht : rib_tree s) (Hr : Rib_find s n = Some r) (He : rb_heap s !! r = Some e).
Context (Hrec : recorded_ok (ribView s)) (Hok : view_ok (entryView e)).
Local Abbreviation V := (ribView s).
Local Abbreviation v := (entryView e).

Lemma live_view : V n = Some v.
Proof using Hr He. by eapply ribView_find. Qed.
Lemma live_small : smallName n ∧ re_name e = n.
Proof using Ht Hr He. destruct (tr_entry s Ht n r Hr) as (Hn & e' & He' & <-). by simplify_eq. Qed.
Lemma live_tops : ∃ tops, Forall2 (fun x d => Rib_find s d = Some x) (re_children e) tops ∧ nearestBelow V n tops.
Proof using Ht Hr He.
  destruct (children_names s Ht n r e Hr He) as [ds Hds]. exists ds.
  split; [eapply Forall2_impl; [exact Hds|]; by intros ? ? [? _]|by eapply nearest_children].
Qed.
Lemma live_ancestors e' :
  re_parent e' = re_parent e →
  ∃ anc, getAncestorRoutes s e' = Ok anc ∧ routeSet_ok anc ∧ ∀ f, findFace f anc = inheritedRoute V n f.
Proof using Ht Hr He.
  intros Ep. destruct (erase_links s n r e Ht Hr He) as (Ep' & _). apply getAncestorRoutes_spec; [done|apply live_small|].
  congruence.
Qed.
Lemma live_recorded f :
  viewRecorded v f = match ownCost v f with Some _ => false | None =>
    if viewCapture v then false else match inheritedRoute V n f with Some _ => true | None => false end end.
Proof using Hr He Hrec.
  pose proof (Hrec n v f live_view) as Hf. unfold inheritedCost in Hf. rewrite live_view in Hf. cbn [mbind option_bind] in Hf.
  destruct (ownCost v f); [|destruct (viewCapture v)]; [..|destruct (inheritedRoute V n f)];
    (destruct (viewRecorded v f); [try done; by destruct (proj1 Hf eq_refl)|try done; by destruct (proj2 Hf ltac:(by eexists))]).
Qed.
Lemma live_inheritedCost f :
  inheritedCost V n f = match ownCost v f with Some _ => None | None =>
    if viewCapture v then None else rt_cost <$> inheritedRoute V n f end.
Proof using Hr He. unfold inheritedCost. by rewrite live_view. Qed.
Lemma live_expectedCost f :
  expectedCost V n f = match ownCost v f with Some c => Some c | None => inheritedCost V n f end.
Proof using Hr He. unfold expectedCost. by rewrite live_view. Qed.
Lemma live_base f :
  baseRoute s n V f = match viewInherit v f with Some a => Some a | None =>
    if viewCapture v then None else inheritedRoute V n f end.
Proof using Hr He.
  unfold baseRoute, nodeOf. rewrite live_view. cbn [mbind option_bind].
  destruct (viewInherit v f); [done|]. by destruct (viewCapture v).
Qed.

(** The same of the changed name. *)
Section changed.
Context (v' : EntryView).
Local Abbreviation V' := (updView V n (Some v')).
Lemma changed_inheritedCost f :
  inheritedCost V' n f = match ownCost v' f with Some _ => None | None =>
    if viewCapture v' then None else rt_cost <$> inheritedRoute V n f end.
Proof.
  unfold inheritedCost. rewrite updView_self. cbn [mbind option_bind].
  rewrite (inheritedRoute_self s V' n); [done|]. intros. by apply updView_other.
Qed.
Lemma changed_expectedCost f :
  expectedCost V' n f = match ownCost v' f with Some c => Some c | None => inheritedCost V' n f end.
Proof. unfold expectedCost. by rewrite updView_self. Qed.
Lemma changed_base f :
  baseRoute s n V' f = match viewInherit v' f with Some a => Some a | None =>
    if viewCapture v' then None else inheritedRoute V n f end.
Proof.
  unfold baseRoute, nodeOf. rewrite updView_self. cbn [mbind option_bind].
  destruct (viewInherit v' f); [done|]. by destruct (viewCapture v').
Qed.
Lemma changed_live : ∀ m, is_Some (V m) → is_Some (V' m).
Proof. intros m Hm. unfold updView. case_bool_decide; [by eexists|done]. Qed.
End changed.

(** ** A new cost *)

Section newCost.
Context (route existing : Route).
Context (Hf : findRoute e route = Some existing) (Hfl : rt_flags route = rt_flags existing).
Local Abbreviation v' := (registerView route (Some v)).
Local Abbreviation V' := (updView V n (Some v')).

Lemma newCost_correct A tops E u0 u :
  nearestBelow V n tops → clean u0 →
  A = (if bool_decide (rt_cost route ≠ rt_cost existing) && isChildInherit route then [route] else []) →
  E = (if bool_decide (rt_cost route ≠ rt_cost existing) then at_ n (rt_faceId route) (Some (rt_cost route)) else none) →
  effect (fun m => is_Some (V' m)) (over (walkE s A [] tops) E) (recordOf (walkE s A [] tops)) u0 u →
  update_correct V V' u.
Proof using Hr He Hrec Hok Hf Hfl.
  intros Hnear Hclean EA EE Heff.
  destruct (register_cost_view v route existing Hok Hf Hfl) as (Hok' & Ei & Ecap & Hff).
  destruct (existing_face v route existing Hok Hf) as (Hin & Hk & Efc & Hfe & _).
  assert (isChildInherit route = isChildInherit existing) as Eci by (unfold isChildInherit; by rewrite Hfl).
  assert (∀ f, viewInherit v' f = if bool_decide (rt_faceId route = f) then (if isChildInherit route then Some route else None)
    else viewInherit v f) as Hvi.
  { intros f. rewrite !viewInherit_face, Hff by done. by destruct (bool_decide (rt_faceId route = f)). }
  assert (viewInherit v (rt_faceId route) = if isChildInherit route then Some existing else None) as Hvo.
  { by rewrite viewInherit_face, Hfe, Eci. }
  assert (∀ f, ownCost v' f = if bool_decide (rt_faceId route = f) then Some (rt_cost route) else ownCost v f) as Hown.
  { intros f. rewrite !ownCost_face, Hff by done. by destruct (bool_decide (rt_faceId route = f)). }
  assert (ownCost v (rt_faceId route) = Some (rt_cost existing)) as Hoo by by rewrite ownCost_face, Hfe.
  eapply (update_correct_intro s V' n A []); [done|by intros; apply updView_other|done|..|exact Hclean|exact Heff| | | |].
  - intros f a Ha. rewrite changed_base, Hvi, EA in *. destruct (bool_decide (_ ≠ _) && isChildInherit route) eqn:Eb; [|done].
    apply andb_true_iff in Eb as [_ ->]. rewrite findFace_single in Ha. case_bool_decide; [|done]. simpl. congruence.
  - done.
  - intros f Ha _. rewrite changed_base, live_base, Hvi, Ecap. destruct (decide (rt_faceId route = f)) as [<-|Hne]; [|by rewrite bool_decide_false].
    rewrite bool_decide_true by done. rewrite Hvo. destruct (isChildInherit route) eqn:Ec; [|done].
    rewrite andb_true_r in EA. case_bool_decide as Eco; subst A.
    + rewrite findFace_single, bool_decide_true in Ha by done. done.
    + simpl. congruence.
  - intros m f Hm. split; [|done]. unfold over. destruct (walkE s A [] tops m f); [done|]. subst E.
    destruct (bool_decide (rt_cost route ≠ _)); [|done]. unfold at_. by rewrite bool_decide_false by naive_solver.
  - intros f. unfold over. rewrite walkE_self by done.
    rewrite changed_expectedCost, live_expectedCost, changed_inheritedCost, live_inheritedCost, Hown, Ecap. subst E.
    destruct (decide (rt_faceId route = f)) as [<-|Hne].
    + rewrite (bool_decide_true (rt_faceId route = _)), Hoo by done. case_bool_decide as Eco.
      * unfold at_. by rewrite bool_decide_true.
      * simpl. congruence.
    + rewrite (bool_decide_false (rt_faceId route = _)) by done.
      destruct (bool_decide (rt_cost route ≠ _)); unfold at_, none; rewrite ?bool_decide_false by naive_solver; done.
  - intros f. unfold over. rewrite walkE_self by done. subst E. unfold at_, none.
    destruct (bool_decide (rt_cost route ≠ _)); by try case_bool_decide.
  - intros w f Hw. rewrite updView_self in Hw. apply (inj Some) in Hw as <-. unfold recordOf. rewrite walkE_self by done. simpl.
    assert (viewRecorded v' f = viewRecorded v f) as -> by (unfold viewRecorded; by rewrite Ei).
    rewrite live_recorded, changed_inheritedCost, Hown, Ecap.
    destruct (decide (rt_faceId route = f)) as [<-|Hne].
    + rewrite bool_decide_true, Hoo by done. split; [done|by intros []].
    + rewrite bool_decide_false by done. destruct (ownCost v f); [split; [done|by intros []]|].
      destruct (viewCapture v); [split; [done|by intros []]|]. destruct (inheritedRoute V n f); simpl; [naive_solver|].
      split; [done|by intros []].
Qed.

Lemma register_newCost act u0 :
  clean u0 →
  wp (computeUpdatesForRegistration s (mkRibUpdate act n route)) (fun _ => update_correct V V') u0.
Proof using Ht Hr He Hrec Hok Hf Hfl.
  intros Hclean. unfold computeUpdatesForRegistration. cbn [ru_name ru_route]. rewrite Hr.
  apply wp_bind. eapply wp_deref; [exact He|]. rewrite Hf. cbv zeta.
  set (g := set_rt_flags_cost_expires (rt_flags route) (rt_cost route) (rt_expires route)).
  set (copy := set_re_routes _ e).
  destruct (existing_face v route existing Hok Hf) as (_ & _ & Efc & Hfe & Hp).
  destruct live_small as [_ En]. destruct live_tops as (tops & Hcs & Hnear).
  assert (NoDup (map rt_faceId (re_routes copy))) as Hnd.
  { cbn [copy re_routes set_re_routes]. rewrite map_updateFirst by done. apply Hok. }
  assert (findFace (rt_faceId route) (re_routes copy) = Some (g existing)) as Hfc.
  { cbn [copy re_routes set_re_routes]. rewrite (updateFirst_findFace _ g _ existing); [|by rewrite Efc|exact Hp|intros x E; exact E].
    by rewrite bool_decide_true. }
  assert (isChildInherit existing = isChildInherit route ∧ isRibCapture existing = isRibCapture route) as [Eci Ecap].
  { unfold isChildInherit, isRibCapture. by rewrite Hfl. }
  unfold createFibUpdatesForUpdatedRoute. rewrite getLowestInherit_face, Hfc by done.
  change (isChildInherit (g existing)) with (isChildInherit route).
  rewrite (bool_decide_true (rt_flags route = _)) by done. cbn [andb].
  pose proof (fun u => newCost_correct _ tops _ u0 u Hnear Hclean eq_refl eq_refl) as Hfinal.
  destruct (decide (rt_cost route = rt_cost existing)) as [Eco|Eco].
  - rewrite bool_decide_false by (intros H; by apply H). cbn [negb]. apply wp_ret.
    apply Hfinal.
    rewrite bool_decide_false by (intros H; by apply H). cbn [andb].
    eapply effect_ext; [apply effect_refl|..]; intros m f; unfold over, recordOf; by rewrite walkE_nil.
  - rewrite bool_decide_true by done. cbn [negb andb]. apply wp_bind. unfold updatedRoute_cost.
    rewrite getLowest_face, Hfc by done. apply wp_bind, wp_ret.
    rewrite bool_decide_true by (cbn [g set_rt_flags_cost_expires rt_cost]; lia).
    eapply wp_mono; [apply (addFibUpdate_effect (fun m => is_Some (V' m)))|]. intros [] u1 Hu1.
    cbn [createAddUpdate fu_name fu_faceId copy set_re_routes re_name] in Hu1. rewrite En in Hu1.
    assert (match (if isChildInherit route then Some (g existing) else None) with
            | Some p => bool_decide (rt_cost route ≤ rt_cost p) | None => true end = true) as ->.
    { destruct (isChildInherit route); [|done]. apply bool_decide_true. cbn [g set_rt_flags_cost_expires rt_cost]. lia. }
    cbn [andb]. rewrite bool_decide_true in Hfinal by done. cbn [andb] in Hfinal.
    destruct (isChildInherit route) eqn:Ec.
    + eapply wp_mono; [apply (modifyChildrens_spec s Ht (fun m => is_Some (V' m)) _ tops [route] [] u1)|].
      * intros m d Hm _ _. by apply changed_live.
      * exact Hcs.
      * apply routeSet_single.
      * constructor.
      * intros [] u2 Hu2. apply Hfinal.
        eapply effect_ext; [eapply effect_trans; [exact Hu1|exact Hu2]|done|]. intros. apply recordOf_over_none.
    + unfold updatedRoute_inherit, updatedRoute_capture. rewrite Eci, Ecap, Ec. cbn [negb andb].
      rewrite andb_negb_l, andb_negb_r. apply wp_bind, wp_ret, wp_ret.
      apply Hfinal.
      eapply effect_ext; [exact Hu1|..]; intros m f; unfold over, recordOf; by rewrite walkE_nil.
Qed.
End newCost.

(** ** A route on a new face *)

Section newRoute.
Context (route : Route).
Context (Hnew : findFace (rt_faceId route) (viewRoutes v) = None).
Context (Hlen : Z.of_nat (length (viewRoutes v)) + 1 < 2 ^ 64).
Local Abbreviation turnedOn := (negb (viewCapture v) && isRibCapture route).
(** The name does not inherit on that face already, or stops inheriting; and if
    it stops, its children do not inherit from it what it hides. *)
Context (Hself : isRibCapture route = true ∨ viewCapture v = true ∨ inheritedRoute V n (rt_faceId route) = None).
Context (Hhide : turnedOn = true → ∀ g, is_Some (viewInherit v g) → inheritedRoute V n g = None).
Local Abbreviation v' := (registerView route (Some v)).
Local Abbreviation V' := (updView V n (Some v')).

Lemma newRoute_correct anc A R tops E u0 u :
  (∀ f, findFace f anc = inheritedRoute V n f) → nearestBelow V n tops → clean u0 →
  A = (if isChildInherit route then [route] else []) → R = (if turnedOn then anc else []) →
  E = (if turnedOn then loopE n (viewRecorded v) (fun _ => None) anc else none) →
  effect (fun m => is_Some (V' m))
    (over (at_ n (rt_faceId route) (Some (rt_cost route))) (over (walkE s A R tops) E))
    (over none (over (recordOf (walkE s A R tops)) (recordOf E))) u0 u →
  update_correct V V' u.
Proof using Hr He Hrec Hok Hnew Hlen Hself Hhide.
  intros Hanc Hnear Hclean EA ER EE Heff.
  destruct (register_new_view v route Hok Hnew Hlen) as (Hok' & Ei & Ecap & Hff).
  assert (viewInherit v (rt_faceId route) = None ∧ ownCost v (rt_faceId route) = None) as [Hvo Hoo].
  { by rewrite viewInherit_face, ownCost_face, Hnew. }
  assert (∀ f, viewInherit v' f = if bool_decide (rt_faceId route = f) then (if isChildInherit route then Some route else None)
    else viewInherit v f) as Hvi.
  { intros f. rewrite !viewInherit_face, Hff by done. by destruct (bool_decide (rt_faceId route = f)). }
  assert (∀ f, ownCost v' f = if bool_decide (rt_faceId route = f) then Some (rt_cost route) else ownCost v f) as Hown.
  { intros f. rewrite !ownCost_face, Hff by done. by destruct (bool_decide (rt_faceId route = f)). }
  assert (∀ f, findFace f A = if bool_decide (rt_faceId route = f) && isChildInherit route then Some route else None) as HA.
  { intros f. rewrite EA. destruct (isChildInherit route); [rewrite findFace_single; by rewrite andb_true_r|by rewrite andb_false_r]. }
  assert (∀ f, inFace f R = turnedOn && match inheritedRoute V n f with Some _ => true | None => false end) as HR.
  { intros f. rewrite ER. unfold inFace. destruct turnedOn; [by rewrite Hanc|done]. }
  assert (∀ f, E n f = if turnedOn && viewRecorded v f && match inheritedRoute V n f with Some _ => true | None => false end
    then Some None else None) as HE.
  { intros f. rewrite EE. destruct turnedOn; [|done]. unfold loopE. rewrite (bool_decide_true (n = n)), Hanc by done.
    destruct (viewRecorded v f); [|done]. by destruct (inheritedRoute V n f). }
  eapply (update_correct_intro s V' n A R); [done|by intros; apply updView_other|done|..|exact Hclean|exact Heff| | | |].
  - intros f a. rewrite HA, changed_base, Hvi. destruct (bool_decide (rt_faceId route = f)); [|done].
    destruct (isChildInherit route); [by intros [= ->]|done].
  - intros f. rewrite HA, HR, changed_base, Hvi, Ecap. intros HA0 [Hon Hinh]%andb_true_iff.
    assert (inheritedRoute V n f ≠ None) as Hne by by destruct (inheritedRoute V n f).
    destruct (viewInherit v f) eqn:Evf; [by rewrite Hhide in Hne by (by rewrite ?Evf)|].
    apply andb_true_iff in Hon as [_ ->]. rewrite orb_true_r.
    destruct (bool_decide (rt_faceId route = f)), (isChildInherit route); done.
  - intros f. rewrite HA, HR, changed_base, live_base, Hvi, Ecap. intros HA0 HR0.
    destruct (decide (rt_faceId route = f)) as [<-|Hne].
    + rewrite bool_decide_true in * by done. rewrite Hvo. destruct (isChildInherit route); [done|].
      destruct (viewCapture v); [done|]. cbn [negb andb orb] in *. destruct (isRibCapture route); [|done].
      cbn [andb] in HR0. by destruct (inheritedRoute V n (rt_faceId route)).
    + rewrite bool_decide_false in * by done. destruct (viewInherit v f); [done|].
      destruct (viewCapture v); [done|]. cbn [negb andb orb] in *. destruct (isRibCapture route); [|done].
      cbn [andb] in HR0. by destruct (inheritedRoute V n f).
  - intros m f Hm.
    assert (E m f = None) as Em.
    { rewrite EE. destruct turnedOn; [|done]. unfold loopE. by rewrite bool_decide_false. }
    unfold over, at_, none. rewrite (bool_decide_false (m = n ∧ _)) by naive_solver.
    unfold recordOf. rewrite Em. by destruct (walkE s A R tops m f).
  - intros f. unfold over. rewrite walkE_self, HE by done. unfold at_.
    rewrite changed_expectedCost, live_expectedCost, changed_inheritedCost, live_inheritedCost, Hown, Ecap.
    destruct (decide (rt_faceId route = f)) as [<-|Hne].
    + rewrite !bool_decide_true by done. done.
    + rewrite (bool_decide_false (rt_faceId route = f)), (bool_decide_false (n = n ∧ _)) by naive_solver.
      rewrite live_recorded. destruct (ownCost v f); [by rewrite andb_false_r|].
      destruct (viewCapture v); [done|]. cbn [negb andb orb]. destruct (isRibCapture route); [|done].
      cbn [andb]. by destruct (inheritedRoute V n f).
  - intros f. unfold over. rewrite walkE_self, HE by done. unfold at_. case_bool_decide; [done|].
    rewrite live_recorded, live_expectedCost, live_inheritedCost. destruct (ownCost v f); [by eexists|].
    destruct (viewCapture v); [done|]. destruct (inheritedRoute V n f); [by eexists|]. by rewrite andb_false_r.
  - intros w f Hw. rewrite updView_self in Hw. apply (inj Some) in Hw as <-. unfold over, none, recordOf.
    rewrite walkE_self, HE by done. simpl.
    assert (viewRecorded v' f = viewRecorded v f) as -> by (unfold viewRecorded; by rewrite Ei).
    rewrite changed_inheritedCost, Hown, Ecap, live_recorded.
    destruct (decide (rt_faceId route = f)) as [<-|Hne].
    + rewrite bool_decide_true, Hoo by done. destruct (viewCapture v); cbn [negb andb orb]; [split; [done|by intros []]|].
      destruct (inheritedRoute V n (rt_faceId route)) eqn:Einh; cbn [andb]; rewrite ?andb_true_r, ?andb_false_r;
        [|split; [done|by intros []]].
      destruct (isRibCapture route); simpl; [split; [done|by intros []]|]. naive_solver.
    + rewrite bool_decide_false by done. destruct (ownCost v f); [rewrite andb_false_r; split; [done|by intros []]|].
      destruct (viewCapture v); [split; [done|by intros []]|]. cbn [negb andb orb].
      destruct (isRibCapture route), (inheritedRoute V n f); simpl;
        first [split; [done|by intros []] | naive_solver].
Qed.

Lemma register_newRoute act u0 :
  clean u0 →
  wp (computeUpdatesForRegistration s (mkRibUpdate act n route)) (fun _ => update_correct V V') u0.
Proof using Ht Hr He Hrec Hok Hnew Hlen Hself Hhide.
  intros Hclean. unfold computeUpdatesForRegistration. cbn [ru_name ru_route]. rewrite Hr.
  apply wp_bind. eapply wp_deref; [exact He|].
  assert (findRoute e route = None) as Hfr.
  { rewrite findRoute_key. apply (find_key_None routeKey). intros (a & Ek & Ha)%list_elem_of_fmap.
    injection Ek as Ef _. rewrite findFace_None in Hnew. by destruct (Hnew a Ha). }
  rewrite Hfr. destruct live_small as [_ En]. destruct live_tops as (tops & Hcs & Hnear).
  destruct (live_ancestors e eq_refl) as (anc & Eanc & Hancok & Hanc).
  pose proof (fun u => newRoute_correct anc _ _ tops _ u0 u Hanc Hnear Hclean eq_refl eq_refl eq_refl) as Hfinal.
  change (viewCapture v) with (hasCapture e) in Hfinal. set (L' := fun m => is_Some (V' m)) in *.
  assert (L' n) as HLn by (unfold L'; rewrite updView_self; by eexists).
  destruct Hok as (Hnd & _). unfold createFibUpdatesForNewRoute.
  rewrite getLowestInherit_face, getLowest_face by done.
  change (findFace (rt_faceId route) (re_routes e)) with (findFace (rt_faceId route) (viewRoutes v)). rewrite Hnew.
  apply wp_bind. eapply wp_mono with (R := fun R u1 => R = (if negb (hasCapture e) && isRibCapture route then anc else []) ∧
    routeSet_ok R ∧ paired L' (if negb (hasCapture e) && isRibCapture route
      then loopE n (viewRecorded v) (fun _ => None) anc else none) u0 u1).
  { destruct (negb (hasCapture e) && isRibCapture route).
    - rewrite Eanc. apply wp_bind. eapply wp_lift; [done|]. apply wp_bind.
      eapply wp_mono; [by apply (removeInheritedRoutes_effect L'); [rewrite En|]|]. intros [] u1 Hu1.
      rewrite En in Hu1. by apply wp_ret.
    - apply wp_ret. split_and!; [done|constructor|apply paired_none]. }
  intros R u1 (-> & HRok & Hu1). apply wp_bind.
  set (A := if isChildInherit route then [route] else []) in *.
  eapply wp_mono; [apply (modifyChildrens_spec s Ht L' _ tops A _ u1)|].
  - intros m d Hm _ _. by apply changed_live.
  - exact Hcs.
  - unfold A. destruct (isChildInherit route); [apply routeSet_single|constructor].
  - exact HRok.
  - intros [] u2 Hu2. eapply wp_mono; [apply (addFibUpdate_effect L')|]. intros [] u3 Hu3.
    cbn [createAddUpdate fu_name fu_faceId] in Hu3. rewrite En in Hu3. apply Hfinal.
    eapply effect_ext; [eapply effect_trans; [eapply effect_trans; [exact Hu1|exact Hu2]|exact Hu3]|done..].
Qed.
End newRoute.

(** ** A route that leaves *)

Section erase.
Context (route existing : Route) (Hf : findRoute e route = Some existing).
Local Abbreviation temp := (eraseRoute route e).1.
Local Abbreviation ve := (entryView temp).
Local Abbreviation inh f := (inheritedRoute V n f).
Local Abbreviation f0 := (rt_faceId route).

Lemma erased_facts :
  view_ok ve ∧ re_inheritedRoutes temp = re_inheritedRoutes e ∧
  viewCapture v = viewCapture ve || isRibCapture existing ∧
  (∀ f, viewInherit ve f = if bool_decide (f0 = f) then None else viewInherit v f) ∧
  (∀ f, ownCost ve f = if bool_decide (f0 = f) then None else ownCost v f) ∧
  ownCost v f0 = Some (rt_cost existing) ∧
  viewInherit v f0 = (if isChildInherit existing then Some existing else None) ∧
  rt_faceId existing = f0.
Proof using Hf Hok.
  pose proof (erased_view route e) as Ev.
  destruct (erase_view v route existing Hok Hf) as (Hok' & Ei & Ecap & Hff). rewrite <-Ev in *.
  destruct (existing_face v route existing Hok Hf) as (_ & _ & Ef & Hfe & _).
  split_and!; [done|exact Ei|done|..|done].
  - intros f. rewrite !viewInherit_face, Hff by done. by destruct (bool_decide (f0 = f)).
  - intros f. rewrite !ownCost_face, Hff by done. by destruct (bool_decide (f0 = f)).
  - by rewrite ownCost_face, Hfe.
  - by rewrite viewInherit_face, Hfe.
Qed.

(** The walk: the removed route goes, and what it or its capture hid comes. *)
Context (anc : RouteSet) (Hanc : ∀ f, findFace f anc = inh f).
Definition erasedAdd : RouteSet :=
  if (isChildInherit existing || isRibCapture existing) && negb (viewCapture ve) then anc else [].
Definition erasedRemove : RouteSet := if isChildInherit existing then [existing] else [].

Lemma erasedAdd_find f :
  findFace f erasedAdd = if (isChildInherit existing || isRibCapture existing) && negb (viewCapture ve) then inh f else None.
Proof using Hanc. unfold erasedAdd. destruct (_ && _); [apply Hanc|done]. Qed.
Lemma erasedRemove_in f : inFace f erasedRemove = isChildInherit existing && bool_decide (f0 = f).
Proof using Hf Hok.
  destruct erased_facts as (_ & _ & _ & _ & _ & _ & _ & Ef).
  unfold inFace, erasedRemove. destruct (isChildInherit existing); [|done].
  rewrite findFace_single, Ef. by destruct (bool_decide (f0 = f)).
Qed.

(** *** The name keeps other routes *)

Section kept.
(** What its remaining routes offer to the children does not hide what they
    would inherit from above. *)
Context (Hhide : isChildInherit existing = true ∨ isRibCapture existing = true → viewCapture ve = false →
  ∀ g, is_Some (viewInherit ve g) → inh g = None).
Local Abbreviation V' := (updView V n (Some ve)).

Lemma kept_correct tops Eself Elast u0 u :
  nearestBelow V n tops → clean u0 →
  Eself = (if viewCapture v && negb (viewCapture ve)
           then loopE n (fun f => negb (hasFaceId temp f)) (fun a => Some (rt_cost a)) anc else none) →
  Elast = (if viewCapture ve then none
           else match inh f0 with Some a => at_ n f0 (Some (rt_cost a)) | None => none end) →
  effect (fun m => is_Some (V' m))
    (over Elast (over (walkE s erasedAdd erasedRemove tops) (over Eself (at_ n f0 None))))
    (over (recordOf Elast) (over (recordOf (walkE s erasedAdd erasedRemove tops)) (over (recordOf Eself) none))) u0 u →
  update_correct V V' u.
Proof using Hr He Hrec Hok Hf Hanc Hhide.
  intros Hnear Hclean EEs EEl Heff.
  destruct erased_facts as (Hok' & Ei & Ecap & Hvi & Hown & Hoo & Hvo & Ef).
  assert (∀ f, Eself n f = if viewCapture v && negb (viewCapture ve)
    then match ownCost ve f with Some _ => None | None => (fun a => Some (rt_cost a)) <$> inh f end else None) as HEs.
  { intros f. rewrite EEs. destruct (_ && _); [|done]. unfold loopE. rewrite (bool_decide_true (n = n)), Hanc by done.
    destruct (ownCost ve f) eqn:Eo.
    - assert (hasFaceId temp f = true) as ->; [|done]. apply not_false_iff_true. intros E%(ownCost_hasFaceId ve). congruence.
    - assert (hasFaceId temp f = false) as -> by by apply (ownCost_hasFaceId ve). done. }
  assert (∀ f, Elast n f = if viewCapture ve then None else if bool_decide (f0 = f)
    then (fun a => Some (rt_cost a)) <$> inh f0 else None) as HEl.
  { intros f. rewrite EEl. destruct (viewCapture ve); [done|]. unfold at_, none.
    destruct (inh f0); [|by destruct (bool_decide (f0 = f))].
    destruct (decide (f0 = f)) as [<-|Hne]; [by rewrite !bool_decide_true|].
    by rewrite !bool_decide_false by naive_solver. }
  assert (∀ m f, m ≠ n → Eself m f = None ∧ Elast m f = None) as Hoff.
  { intros m f Hm. rewrite EEs, EEl. split.
    - destruct (_ && _); [|done]. unfold loopE. by rewrite bool_decide_false.
    - destruct (viewCapture ve); [done|]. destruct (inh f0); [|done]. unfold at_. by rewrite bool_decide_false by naive_solver. }
  eapply (update_correct_intro s V' n erasedAdd erasedRemove);
    [done|by intros; apply updView_other|done|..|exact Hclean|exact Heff| | | |].
  - intros f a. rewrite erasedAdd_find, changed_base. destruct ((isChildInherit existing || isRibCapture existing) && negb (viewCapture ve)) eqn:Ecc; [|done]. intros Ha.
    apply andb_true_iff in Ecc as [Hor Hcv]. apply negb_true_iff in Hcv. apply orb_true_iff in Hor.
    destruct (viewInherit ve f) eqn:Evf; [rewrite Hhide in Ha by (by rewrite ?Evf); done|]. by rewrite Hcv, Ha.
  - intros f. rewrite erasedAdd_find, erasedRemove_in, changed_base, Hvi. intros HA [Hci <-%bool_decide_eq_true]%andb_true_iff.
    rewrite bool_decide_true by done. rewrite Hci in HA. simpl in HA. by destruct (viewCapture ve).
  - intros f. rewrite erasedAdd_find, erasedRemove_in, changed_base, live_base, Hvi, Ecap. intros HA HR.
    destruct (decide (f0 = f)) as [<-|Hne].
    + rewrite !bool_decide_true in * by done. rewrite andb_true_r in HR. rewrite Hvo, HR in *. simpl in HA.
      destruct (viewCapture ve), (isRibCapture existing); simpl in *; try done. by rewrite HA.
    + rewrite !bool_decide_false in * by done. destruct (viewInherit v f); [done|].
      destruct (viewCapture ve), (isRibCapture existing); simpl in *; try done. rewrite orb_true_r in HA. simpl in HA.
      by rewrite HA.
  - intros m f Hm. destruct (Hoff m f Hm) as [E1 E2]. unfold over, recordOf, at_, none. rewrite E1, E2. simpl.
    rewrite (bool_decide_false (m = n ∧ _)) by naive_solver. by destruct (walkE _ _ _ _ m f).
  - intros f. unfold over. rewrite HEl, walkE_self, HEs by done. unfold at_.
    rewrite changed_expectedCost, live_expectedCost, changed_inheritedCost, live_inheritedCost, Hown.
    destruct (decide (f0 = f)) as [<-|Hne].
    + rewrite !bool_decide_true by done. destruct (viewCapture ve); [by rewrite andb_false_r|].
      destruct (inh f0); simpl; [done|]. by destruct (viewCapture v && true).
    + rewrite (bool_decide_false (f0 = f)), (bool_decide_false (n = n ∧ _)) by naive_solver. rewrite Ecap.
      destruct (ownCost v f); [by destruct (viewCapture ve), (isRibCapture existing)|].
      destruct (viewCapture ve), (isRibCapture existing), (inh f); done.
  - intros f. unfold over. rewrite HEl, walkE_self, HEs by done. unfold at_. rewrite live_expectedCost.
    destruct (decide (f0 = f)) as [<-|Hne]; [rewrite Hoo; by eexists|].
    rewrite (bool_decide_false (f0 = f)), (bool_decide_false (n = n ∧ _)) by naive_solver.
    destruct (viewCapture ve), (viewCapture v), (ownCost ve f), (inh f); done.
  - intros w f Hw. rewrite updView_self in Hw. apply (inj Some) in Hw as <-. unfold over, none, recordOf.
    rewrite HEl, walkE_self, HEs by done.
    assert (viewRecorded ve f = viewRecorded v f) as -> by (unfold viewRecorded; cbn [entryView fst snd]; by rewrite Ei).
    rewrite changed_inheritedCost, live_recorded, Hown.
    destruct (decide (f0 = f)) as [<-|Hne].
    + rewrite !bool_decide_true, Hoo by done. destruct (viewCapture ve); simpl; [rewrite andb_false_r; split; [done|by intros []]|].
      destruct (inh f0); simpl; [naive_solver|]. destruct (viewCapture v && true); (split; [done|by intros []]).
    + rewrite (bool_decide_false (f0 = f)) by done. rewrite Ecap.
      destruct (ownCost v f); [destruct (viewCapture ve), (isRibCapture existing); (split; [done|by intros []])|].
      destruct (viewCapture ve), (isRibCapture existing), (inh f); simpl;
        first [split; [done|by intros []] | naive_solver].
Qed.
End kept.

(** *** The name leaves the RIB *)

Section gone.
Context (Hempty : re_routes temp = []) (Hnocap : isRibCapture existing = false).
Local Abbreviation V' := (updView V n None).

Lemma gone_facts : viewCapture ve = false ∧ viewCapture v = false ∧
  (∀ f, ownCost v f = if bool_decide (f0 = f) then Some (rt_cost existing) else None) ∧
  (∀ f, viewInherit v f = if bool_decide (f0 = f) then (if isChildInherit existing then Some existing else None) else None).
Proof using Hf Hok Hempty Hnocap.
  destruct erased_facts as (Hok' & _ & Ecap & Hvi & Hown & Hoo & Hvo & _).
  assert (viewCapture ve = false) as Hc by (rewrite view_capture by done; cbn [entryView fst]; by rewrite Hempty).
  rewrite Hc, Hnocap in Ecap. split_and!; [done..| |].
  - intros f. specialize (Hown f). rewrite ownCost_face in Hown by done. cbn [entryView fst] in Hown.
    rewrite Hempty in Hown. destruct (decide (f0 = f)) as [<-|Hne]; [by rewrite bool_decide_true|].
    by rewrite bool_decide_false in * by done.
  - intros f. specialize (Hvi f). rewrite viewInherit_face in Hvi by done. cbn [entryView fst] in Hvi.
    rewrite Hempty in Hvi. destruct (decide (f0 = f)) as [<-|Hne]; [by rewrite bool_decide_true|].
    by rewrite bool_decide_false in * by done.
Qed.
Lemma gone_correct tops Erib u0 u :
  nearestBelow V n tops → clean u0 →
  Erib = (fun m f => if bool_decide (m = n) && viewRecorded v f then Some None else None) →
  effect (fun m => is_Some (V' m))
    (over Erib (over (walkE s erasedAdd erasedRemove tops) (at_ n f0 None)))
    (over none (recordOf (walkE s erasedAdd erasedRemove tops))) u0 u →
  update_correct V V' u.
Proof using Hr He Hrec Hok Hf Hanc Hempty Hnocap.
  intros Hnear Hclean EEr Heff. destruct gone_facts as (Hcve & Hcv & Hown & Hvi).
  assert (∀ f, baseRoute s n V' f = inh f) as Hbase.
  { intros f. unfold baseRoute. by rewrite updView_self. }
  eapply (update_correct_intro s V' n erasedAdd erasedRemove);
    [done|by intros; apply updView_other|done|..|exact Hclean|exact Heff| | | |].
  - intros f a. rewrite erasedAdd_find, Hbase, Hcve. rewrite andb_true_r. destruct (_ || _); [by intros ->|done].
  - intros f. rewrite erasedAdd_find, erasedRemove_in, Hbase, Hcve, andb_true_r.
    intros HA [Hci _]%andb_true_iff. by rewrite Hci in HA.
  - intros f. rewrite erasedAdd_find, erasedRemove_in, Hbase, live_base, Hcve, Hcv, andb_true_r, Hvi, Hnocap, orb_false_r.
    intros HA HR. destruct (bool_decide (f0 = f)); [|done]. destruct (isChildInherit existing); done.
  - intros m f Hm. rewrite EEr. unfold over, none, at_. rewrite (bool_decide_false (m = n)) by done. cbn [andb].
    rewrite (bool_decide_false (m = n ∧ _)) by naive_solver. split; [by destruct (walkE _ _ _ _ m f)|done].
  - intros f. rewrite EEr. unfold over. rewrite (bool_decide_true (n = n)), walkE_self by done. cbn [andb]. unfold at_.
    unfold expectedCost at 1. rewrite updView_self. cbn [mbind option_bind].
    rewrite live_recorded, live_expectedCost, live_inheritedCost, Hown, Hcv.
    destruct (decide (f0 = f)) as [<-|Hne]; [by rewrite !bool_decide_true|].
    rewrite (bool_decide_false (f0 = f)), (bool_decide_false (n = n ∧ _)) by naive_solver. by destruct (inh f).
  - intros f. rewrite EEr. unfold over. rewrite (bool_decide_true (n = n)), walkE_self by done. cbn [andb]. unfold at_.
    rewrite live_recorded, live_expectedCost, live_inheritedCost, Hown, Hcv.
    destruct (decide (f0 = f)) as [<-|Hne]; [by rewrite bool_decide_true|].
    rewrite (bool_decide_false (f0 = f)), (bool_decide_false (n = n ∧ _)) by naive_solver. by destruct (inh f).
  - intros w f Hw. by rewrite updView_self in Hw.
Qed.
End gone.

Lemma matches_short l f :
  NoDup (map rt_faceId l) → (length (List.filter (fun x => bool_decide (rt_faceId x = f)) l) < 2)%nat.
Proof.
  induction l as [|x l IH]; cbn [map List.filter length]; [lia|]. intros [Hx Hnd]%NoDup_cons.
  case_bool_decide as E; [|by apply IH]. cbn [length].
  assert (List.filter (fun y => bool_decide (rt_faceId y = f)) l = []) as ->; [|simpl; lia].
  clear -Hx E. induction l as [|y l IH]; [done|]. cbn [map] in Hx. apply not_elem_of_cons in Hx as [H1 H2].
  cbn [List.filter]. rewrite bool_decide_false by congruence. by apply IH.
Qed.
Lemma erasedEntry_effect (L : Name → Prop) e0 u :
  wp (createFibUpdatesForErasedRibEntry e0)
    (fun _ => effect L (fun m f => if bool_decide (m = re_name e0) && viewRecorded (entryView e0) f then Some None else None)
       none u) u.
Proof.
  unfold createFibUpdatesForErasedRibEntry, viewRecorded. cbn [entryView fst snd]. revert u.
  induction (re_inheritedRoutes e0) as [|x l IH]; intros u; cbn [forM_].
  - apply wp_ret. eapply effect_ext; [apply effect_refl| |done]. intros m f. simpl. by rewrite andb_false_r.
  - apply wp_bind. eapply wp_mono; [apply (addFibUpdate_effect L)|]. intros [] u1 H1.
    eapply wp_mono; [apply IH|]. intros [] u2 H2. eapply effect_ext; [eapply effect_trans; [exact H1|exact H2]| |done].
    intros m f. cbn [existsb createRemoveUpdate fu_name fu_faceId updateCost fu_action]. unfold over, at_.
    destruct (decide (m = re_name e0)) as [->|Hm].
    + rewrite !(bool_decide_true (re_name e0 = re_name e0)) by done. cbn [andb].
      destruct (existsb _ l); [by rewrite orb_true_r|]. rewrite orb_false_r.
      destruct (decide (rt_faceId x = f)) as [<-|Hne]; [by rewrite !bool_decide_true|].
      by rewrite !bool_decide_false by naive_solver.
    + rewrite !(bool_decide_false (m = re_name e0)) by done. cbn [andb]. by rewrite bool_decide_false by naive_solver.
Qed.

Context (Hancok : routeSet_ok anc) (Eanc : getAncestorRoutes s temp = Ok anc).
Local Abbreviation turnedOff := (viewCapture v && negb (viewCapture ve)).
Definition erasedSelf : Changes (option Z) :=
  if turnedOff then loopE n (fun f => negb (hasFaceId temp f)) (fun a => Some (rt_cost a)) anc else none.

(** The branches of [createFibUpdatesForErasedRoute] on the flags of the route. *)
Lemma erased_flags (L' : Name → Prop) tops u :
  Forall2 (fun x d => Rib_find s d = Some x) (re_children e) tops →
  (∀ m d, is_Some (V m) → d ∈ tops → d `prefix_of` m → L' m) →
  (turnedOff = true → L' n ∧ re_routes temp ≠ []) →
  let ancestorsToSelf : M FibUpdater RouteSet :=
    if turnedOff && bool_decide (getNRoutes temp ≠ 0%nat) then
      routesToAdd ← lift (getAncestorRoutes s temp);
      addInheritedRoutes temp routesToAdd;;
      mret routesToAdd
    else mret [] in
  wp (if isChildInherit existing && isRibCapture existing then
        routesToAdd ← ancestorsToSelf;
        modifyChildrensInheritedRoutes s (re_children temp) routesToAdd [existing]
      else if isChildInherit existing then
        routesToAdd ← (if negb (hasCapture temp) then lift (getAncestorRoutes s temp) else mret []);
        modifyChildrensInheritedRoutes s (re_children temp) routesToAdd [existing]
      else if isRibCapture existing then
        routesToAdd ← ancestorsToSelf;
        modifyChildrensInheritedRoutes s (re_children temp) routesToAdd []
      else mret tt)
    (fun _ => paired L' (over (walkE s erasedAdd erasedRemove tops) erasedSelf) u) u.
Proof using Ht Hr He Hok Hf Hanc Hancok Eanc.
  intros Hcs HL Hoff ancestorsToSelf.
  destruct erased_facts as (_ & _ & Ecap & _). destruct (eraseRoute_links route e) as (En & Ep & Ech).
  destruct live_small as [_ Ene].
  assert (∀ A R u', routeSet_ok A → routeSet_ok R →
    wp (modifyChildrensInheritedRoutes s (re_children temp) A R) (fun _ => paired L' (walkE s A R tops) u') u') as Hwalk.
  { intros A R u' HA HR. rewrite Ech. by apply (modifyChildrens_spec s Ht L'). }
  assert (∀ R u', R = erasedRemove → isRibCapture existing = true →
    wp (routesToAdd ← ancestorsToSelf; modifyChildrensInheritedRoutes s (re_children temp) routesToAdd R)
      (fun _ => paired L' (over (walkE s erasedAdd erasedRemove tops) erasedSelf) u') u') as Hcapture.
  { intros R u' -> Hcap. assert (routeSet_ok erasedRemove) as HR.
    { unfold erasedRemove. destruct (isChildInherit existing); [apply routeSet_single|constructor]. }
    rewrite Hcap, orb_true_r in Ecap. unfold ancestorsToSelf, erasedSelf, erasedAdd. rewrite Ecap, Hcap, orb_true_r.
    rewrite Ecap in Hoff. cbn [andb] in *. destruct (negb (viewCapture ve)) eqn:Eon.
    - destruct (Hoff eq_refl) as [HLn Hne]. rewrite bool_decide_true; cycle 1.
      { unfold getNRoutes. by destruct (re_routes temp). }
      cbn [andb]. rewrite Eanc. apply wp_bind, wp_bind. eapply wp_lift; [done|]. apply wp_bind.
      eapply wp_mono; [apply (addInheritedRoutes_effect L'); [by rewrite En, Ene|done]|]. intros [] u1 H1. apply wp_ret.
      rewrite En, Ene in H1. eapply wp_mono; [by apply Hwalk|]. intros [] u2 H2. by eapply paired_trans.
    - apply wp_bind, wp_ret. eapply wp_mono; [apply Hwalk; [constructor|done]|]. intros [] u2 H2.
      eapply paired_ext; [exact H2|]. intros m f. unfold over, none. by destruct (walkE _ _ _ _ m f). }
  destruct (isChildInherit existing) eqn:Eci, (isRibCapture existing) eqn:Ecp; cbn [andb].
  - apply Hcapture; [|done]. unfold erasedRemove. by rewrite Eci.
  - assert (erasedSelf = none) as ->.
    { unfold erasedSelf. rewrite Ecap, orb_false_r. by rewrite andb_negb_r. }
    assert (erasedAdd = if negb (hasCapture temp) then anc else []) as EA by (unfold erasedAdd; by rewrite Eci).
    assert (erasedRemove = [existing]) as ER by (unfold erasedRemove; by rewrite Eci).
    apply wp_bind. eapply wp_mono with (R := fun A u1 => A = erasedAdd ∧ u1 = u).
    { rewrite EA. destruct (negb (hasCapture temp)); [by eapply wp_lift|by apply wp_ret]. }
    intros A u1 [-> ->]. eapply wp_mono; [apply Hwalk; [rewrite EA; destruct (negb _); [done|constructor]|apply routeSet_single]|].
    intros [] u2 H2. eapply paired_ext; [exact H2|]. intros m f. rewrite ER. unfold over, none. by destruct (walkE _ _ _ _ m f).
  - apply Hcapture; [|done]. unfold erasedRemove. by rewrite Eci.
  - apply wp_ret. apply (paired_ext L' none); [apply effect_refl|]. intros m f. unfold over, erasedSelf, erasedAdd, erasedRemove.
    rewrite Eci, Ecp, Ecap, !orb_false_r, andb_negb_r. cbn [orb andb]. by rewrite walkE_nil.
Qed.

(** The last step of [createFibUpdatesForErasedRoute]. *)
Definition erasedLast : Changes (option Z) :=
  if viewCapture ve then none else match inh f0 with Some a => at_ n f0 (Some (rt_cost a)) | None => none end.
Lemma createErased_effect (L' : Name → Prop) tops u :
  Forall2 (fun x d => Rib_find s d = Some x) (re_children e) tops →
  (∀ m d, is_Some (V m) → d ∈ tops → d `prefix_of` m → L' m) →
  (turnedOff = true → L' n ∧ re_routes temp ≠ []) → (re_routes temp ≠ [] → L' n) →
  let Elast := if bool_decide (re_routes temp = []) then none else erasedLast in
  wp (createFibUpdatesForErasedRoute s temp existing turnedOff)
    (fun _ => effect L'
      (over Elast (over (over (walkE s erasedAdd erasedRemove tops) erasedSelf) (at_ n f0 None)))
      (over (recordOf Elast) (over (recordOf (over (walkE s erasedAdd erasedRemove tops) erasedSelf)) none)) u) u.
Proof using Ht Hr He Hok Hf Hanc Hancok Eanc.
  intros Hcs HL Hoff HLn Elast. destruct (eraseRoute_links route e) as (En & _).
  destruct live_small as [_ Ene]. destruct erased_facts as (_ & _ & _ & _ & _ & _ & _ & Ef).
  unfold createFibUpdatesForErasedRoute. apply wp_bind.
  eapply wp_mono; [apply (addFibUpdate_effect L')|]. intros [] u1 H1.
  cbn [createRemoveUpdate fu_name fu_faceId updateCost fu_action] in H1. rewrite En, Ene, Ef in H1.
  cbv zeta. apply wp_bind. eapply wp_mono; [by apply (erased_flags L')|]. intros [] u2 H2.
  rewrite Eanc. apply wp_bind. eapply wp_lift; [done|].
  pose proof (effect_trans _ _ _ _ _ _ _ _ H1 H2) as H12.
  eapply wp_mono with (R := fun _ u3 => paired L' Elast u2 u3).
  - assert (routeSet_find existing anc = inh f0) as -> by (unfold routeSet_find; rewrite Ef; apply Hanc).
    unfold Elast, erasedLast. change (viewCapture ve) with (hasCapture temp).
    assert (bool_decide (getNRoutes temp ≠ 0%nat) = negb (bool_decide (re_routes temp = []))) as ->.
    { unfold getNRoutes. by destruct (re_routes temp). }
    destruct (hasCapture temp); cbn [negb andb].
    { destruct (bool_decide _); apply wp_ret, paired_none. }
    case_bool_decide as Hempty; cbn [negb]; [apply wp_ret, paired_none|].
    destruct (inh f0) as [a|] eqn:Ea; [|apply wp_ret, paired_none].
    assert (rt_faceId a = f0) as Efa by (rewrite <-Hanc in Ea; by apply findFace_Some in Ea as [_ ?]).
    rewrite En, Ene. rewrite <-Efa. apply addRoute_effect. by apply HLn.
  - intros [] u3 H3. exact (effect_trans _ _ _ _ _ _ _ _ H12 H3).
Qed.
End erase.

(** What must hold for the removal of [existing] to be computed right. *)
Definition eraseSafe (route existing : Route) : Prop :=
  let ve := entryView (eraseRoute route e).1 in
  if bool_decide (viewRoutes ve = []) then isRibCapture existing = false
  else isChildInherit existing = true ∨ isRibCapture existing = true → viewCapture ve = false →
       ∀ g, is_Some (viewInherit ve g) → inheritedRoute V n g = None.

Lemma unregister_correct route existing act u0 :
  findRoute e route = Some existing → eraseSafe route existing → clean u0 →
  wp (computeUpdatesForUnregistration s (mkRibUpdate act n route)) (fun _ =>
    update_correct V (updView V n (unregisterView route v))) u0.
Proof using Ht Hr He Hrec Hok.
  intros Hf Hsafe Hclean. unfold computeUpdatesForUnregistration. cbn [ru_name ru_route]. rewrite Hr.
  apply wp_bind. eapply wp_deref; [exact He|]. rewrite Hf. cbv zeta.
  destruct (eraseRoute_links route e) as (_ & Ep & _). destruct live_tops as (tops & Hcs & Hnear).
  destruct (live_ancestors _ Ep) as (anc & Eanc & Hancok & Hanc).
  pose proof (erased_facts route existing Hf) as (Hok' & _ & Ecap & _).
  pose proof (createErased_effect route existing Hf anc Hanc Hancok Eanc) as Hcreate.
  pose proof (kept_correct route existing Hf anc Hanc) as Hkept.
  pose proof (gone_correct route existing Hf anc Hanc) as Hgone.
  assert (getNRoutes e = S (length (re_routes (eraseRoute route e).1))) as Hlen.
  { rewrite eraseRoute_routes. rewrite findRoute_key in Hf. symmetry.
    exact (Permutation_length (removeFirst_perm _ _ _ Hf)). }
  unfold eraseSafe in Hsafe. cbn [entryView fst] in Hsafe.
  unfold unregisterView. rewrite <-(f_equal (fun v => v.1.1) (erased_view route e) : re_routes _ = re_routes _).
  rewrite <-erased_view. set (V' := updView V n _).
  rewrite (surjective_pairing (eraseRoute route e)). cbn beta iota.
  apply wp_bind, wp_modify. set (u1 := cancelIn _ u0). assert (clean u1) as Hclean1 by exact Hclean.
  apply wp_bind. change (hasCapture e) with (viewCapture v).
  change (hasCapture (eraseRoute route e).1) with (viewCapture (entryView (eraseRoute route e).1)).
  assert (getRouteWithSecondLowestCostByFaceId e (rt_faceId route) = None) as ->.
  { unfold getRouteWithSecondLowestCostByFaceId. rewrite bool_decide_true; [done|]. apply matches_short. apply Hok. }
  set (L' := fun m => is_Some (V' m)).
  assert (∀ m d, is_Some (V m) → d ∈ tops → d `prefix_of` m → L' m) as HL.
  { intros m d Hm Hd Hdm. unfold L', V'. rewrite updView_other; [done|]. intros ->.
    destruct Hnear as [Hgap _]. destruct (Hgap d Hd) as [Hnd _].
    apply prefix_length in Hdm. apply sprefix_length in Hnd. lia. }
  destruct (decide (re_routes (eraseRoute route e).1 = [])) as [Hempty|Hne].
  - rewrite bool_decide_true in Hsafe, Hcreate by done. rewrite Hsafe in Ecap.
    assert (viewCapture (entryView (eraseRoute route e).1) = false) as Hcve.
    { rewrite view_capture by done. cbn [entryView fst]. by rewrite Hempty. }
    rewrite Hcve in Ecap. simpl in Ecap.
    eapply wp_mono; [apply (Hcreate L' tops u1 Hcs HL); [by rewrite Ecap|done]|]. intros [] u2 H2.
    apply wp_bind, wp_ret. rewrite Hlen, Hempty. cbn [length]. rewrite bool_decide_true by done.
    eapply wp_mono; [apply (erasedEntry_effect L')|]. intros [] u3 H3.
    destruct live_small as [_ Ene]. rewrite Ene in H3.
    assert (V' = updView V n None) as EV by (unfold V'; by rewrite bool_decide_true).
    clearbody V'. subst V'.
    eapply Hgone; [done|done|exact Hnear|exact Hclean1|reflexivity|].
    eapply effect_ext; [eapply effect_trans; [exact H2|exact H3]|..].
    + intros m f. unfold erasedSelf, over. rewrite Ecap. cbn [andb]. unfold none.
      destruct (bool_decide (m = n) && viewRecorded v f); [done|]. by destruct (walkE _ _ _ _ m f).
    + intros m f. unfold erasedSelf, over, none. rewrite Ecap. cbn [andb]. unfold recordOf. simpl.
      by destruct (walkE _ _ _ _ m f) as [[]|].
  - rewrite bool_decide_false in Hsafe, Hcreate by done.
    assert (L' n) as HLn.
    { unfold L', V'. rewrite updView_self, bool_decide_false by done. by eexists. }
    eapply wp_mono; [apply (Hcreate L' tops u1 Hcs HL); [by intros _; split|done]|]. intros [] u2 H2.
    apply wp_bind, wp_ret. rewrite Hlen. rewrite bool_decide_false; cycle 1.
    { by destruct (re_routes (eraseRoute route e).1). }
    apply wp_ret.
    assert (V' = updView V n (Some (entryView (eraseRoute route e).1))) as EV by (unfold V'; by rewrite bool_decide_false).
    clearbody V'. subst V'.
    eapply Hkept; [done|exact Hnear|exact Hclean1|reflexivity..|].
    eapply effect_ext; [exact H2|..]; intros m f; unfold over, erasedLast, erasedSelf, recordOf.
    + destruct ((if viewCapture _ then none else _) m f); [done|]. by destruct (walkE _ _ _ _ m f).
    + destruct ((if viewCapture _ then none else _) m f); [done|]. by destruct (walkE _ _ _ _ m f).
Qed.
End live.
