(* ===== verification/RibCorrect.v ===== *)
(** * From a RIB update to the FIB

    The FIB is seen as a function from names and faces to costs; a command
    that the controller carries out changes it.  An update that the updater
    handles right ([updateSafe]) is begun, its commands are answered in any
    order, and when none is left the RIB has been changed, the FIB is what the
    new RIB asks for and the manager has been told. *)

From S2P Require Import Prelude Tlv Component Name PrefixAnn RibEntry Rib RibTree RibProps.
From S2P Require Import FibUpdater RibSystem RibInherit RibEffect RibFib RibRoutes RibUpdates.
Local Open Scope Z_scope.

Abbreviation FibMap := (Name → Z → option Z).

(** ** Records of inherited routes in the RIB *)

Lemma recAfter_cons x l n f b : recAfter (x :: l) n f b = recAfter l n f (recAfter [x] n f b).
Proof. done. Qed.
Lemma existsb_filter_ne (l : list Route) f g :
  existsb (fun r => bool_decide (rt_faceId r = f)) (List.filter (fun r => negb (bool_decide (rt_faceId r = g))) l) =
    if bool_decide (f = g) then false else existsb (fun r => bool_decide (rt_faceId r = f)) l.
Proof.
  induction l as [|x l IH]; cbn [List.filter existsb]; [by case_bool_decide|].
  destruct (decide (rt_faceId x = g)) as [E|E].
  - rewrite (bool_decide_true (rt_faceId x = g)) by done. cbn [negb]. rewrite IH.
    repeat case_bool_decide; try done; congruence.
  - rewrite (bool_decide_false (rt_faceId x = g)) by done. cbn [negb existsb]. rewrite IH.
    repeat case_bool_decide; try done; congruence.
Qed.
(** The members of the RIB besides its entries. *)
Definition sameMembers (s s' : Rib) : Prop :=
  rb_rib s' = rb_rib s ∧ rb_faceEntries s' = rb_faceEntries s ∧ rb_nItems s' = rb_nItems s ∧ sameQueue s s' ∧
  rb_signals s' = rb_signals s.
(** The routes and the count of [v'] are those of [v]. *)
Definition sameRoutes (v v' : EntryView) : Prop := v'.1.1 = v.1.1 ∧ v'.2 = v.2.

Lemma modifyInheritedRoutes_spec s l :
  rib_tree s → (∀ x, x ∈ l → is_Some (ribView s (ru_name x))) →
  wp (modifyInheritedRoutes l) (fun _ s' =>
    rib_tree s' ∧ sameMembers s s' ∧
    ∀ m, match ribView s m with
         | Some v => ∃ v', ribView s' m = Some v' ∧ sameRoutes v v' ∧ ∀ f, viewRecorded v' f = recAfter l m f (viewRecorded v f)
         | None => ribView s' m = None
         end) s.
Proof.
  unfold modifyInheritedRoutes. revert s. induction l as [|x l IH]; intros s Ht Hl; cbn [forM_].
  { apply wp_ret. split_and!; [done..|]. intros m. destruct (ribView s m); [|done]. by eexists. }
  apply wp_bind, wp_bind, wp_get. destruct (Hl x ltac:(by left)) as [v Hv].
  apply ribView_Some in Hv as (r & e & Hr & He & ->). rewrite Hr.
  assert (∀ e', re_name e' = re_name e → re_parent e' = re_parent e → re_children e' = re_children e →
    sameRoutes (entryView e) (entryView e') →
    (∀ f, viewRecorded (entryView e') f = recAfter [x] (ru_name x) f (viewRecorded (entryView e) f)) →
    wp (forM_ l (fun u => s ← get; match Rib_find s (ru_name u) with None => raise AssertFailed | Some r =>
        match ru_action u with REGISTER => setEntry r (re_addInheritedRoute (ru_route u))
        | UNREGISTER => setEntry r (re_removeInheritedRoute (ru_route u)) | REMOVE_FACE => mret tt end end))
      (fun _ s' => rib_tree s' ∧ sameMembers s s' ∧
        ∀ m, match ribView s m with
         | Some v => ∃ v', ribView s' m = Some v' ∧ sameRoutes v v' ∧ ∀ f, viewRecorded v' f = recAfter (x :: l) m f (viewRecorded v f)
         | None => ribView s' m = None
         end) (set_rb_heap (<[r := e']> (rb_heap s)) s)) as Hstep.
  { intros e' En Ep Ec Hsame Hrec. destruct (setEntry_tree s (ru_name x) r e e' Ht Hr He En Ep Ec) as [Ht' Hv'].
    eapply wp_mono; [apply IH; [done|]|].
    - intros y Hy. rewrite Hv'. case_bool_decide; [by eexists|]. apply Hl. by right.
    - intros [] s' (Ht'' & Hmem & Hview). split_and!; [done|exact Hmem|]. intros m. specialize (Hview m).
      rewrite Hv' in Hview. destruct (decide (m = ru_name x)) as [->|Hne].
      + rewrite bool_decide_true in Hview by done. rewrite (ribView_find _ _ _ _ Hr He).
        destruct Hview as (v' & Hvv & [S1 S2] & Hrec'). destruct Hsame as [S3 S4]. exists v'. split_and!; [done|..].
        * split; congruence.
        * intros f. by rewrite Hrec', Hrec, (recAfter_cons x l).
      + rewrite bool_decide_false in Hview by done. destruct (ribView s m) as [w|]; [|done].
        destruct Hview as (v' & Hvv & Hs & Hrec'). exists v'. split_and!; [done..|]. intros f.
        rewrite Hrec', (recAfter_cons x l), recAfter_single. by rewrite bool_decide_false by naive_solver. }
  assert (∀ f, recAfter [x] (ru_name x) f (viewRecorded (entryView e) f) =
    if bool_decide (f = rt_faceId (ru_route x)) then match ru_action x with REGISTER => true | UNREGISTER => false
      | REMOVE_FACE => viewRecorded (entryView e) f end else viewRecorded (entryView e) f) as Hone.
  { intros f. rewrite recAfter_single. erewrite bool_decide_ext; [reflexivity|]. naive_solver. }
  destruct (ru_action x).
  - eapply wp_setEntry; [done|]. apply Hstep; [done..|]. intros f. rewrite Hone. unfold viewRecorded. simpl.
    rewrite existsb_app. simpl. rewrite orb_false_r. repeat case_bool_decide; rewrite ?orb_true_r, ?orb_false_r; congruence.
  - eapply wp_setEntry; [done|]. apply Hstep; [done..|]. intros f. rewrite Hone. unfold viewRecorded. simpl.
    apply existsb_filter_ne.
  - apply wp_ret. specialize (Hstep e). rewrite insert_id, set_rb_heap_id in Hstep by done. apply Hstep; [done..|].
    intros f. rewrite Hone. by case_bool_decide.
Qed.

(** The specification looks at routes and counts only. *)
Definition sameCosts (V V' : RibView) : Prop :=
  ∀ m, match V m with
       | Some v => ∃ v', V' m = Some v' ∧ sameRoutes v v'
       | None => V' m = None
       end.
Lemma sameRoutes_view v v' f :
  sameRoutes v v' →
  ownCost v' f = ownCost v f ∧ viewInherit v' f = viewInherit v f ∧ viewCapture v' = viewCapture v.
Proof.
  intros [E1 E2]. unfold ownCost, viewInherit, viewCapture, hasCapture, getRouteWithLowestCostByFaceId.
  cbn [viewEntry re_routes re_nRoutesWithCaptureSet]. by rewrite E1, E2.
Qed.
Lemma sameCosts_spec V V' :
  sameCosts V V' →
  (∀ m f, inheritedCost V' m f = inheritedCost V m f) ∧ (∀ m f, expectedCost V' m f = expectedCost V m f) ∧
  (∀ m f, inheritedRoute V' m f = inheritedRoute V m f).
Proof.
  intros HV.
  assert (∀ x f, nodeOf (V' x) f = nodeOf (V x) f) as Hnode.
  { intros x f. specialize (HV x). destruct (V x) as [v|]; [|by rewrite HV].
    destruct HV as (v' & -> & Hs). unfold nodeOf. simpl. by destruct (sameRoutes_view v v' f Hs) as (_ & -> & ->). }
  assert (∀ m f, inheritedRoute V' m f = inheritedRoute V m f) as Hir.
  { intros m f. unfold inheritedRoute. f_equal. apply scan_ext. intros. apply Hnode. }
  assert (∀ m f, inheritedCost V' m f = inheritedCost V m f) as Hic.
  { intros m f. unfold inheritedCost. specialize (HV m). destruct (V m) as [v|]; [|by rewrite HV].
    destruct HV as (v' & -> & Hs). simpl. destruct (sameRoutes_view v v' f Hs) as (-> & _ & ->). by rewrite Hir. }
  split_and!; [done| |done]. intros m f. unfold expectedCost. rewrite Hic. specialize (HV m).
  destruct (V m) as [v|]; [|by rewrite HV]. destruct HV as (v' & -> & Hs). simpl.
  by destruct (sameRoutes_view v v' f Hs) as (-> & _).
Qed.
Lemma sameRoutes_ok v v' : sameRoutes v v' → view_ok v → view_ok v'.
Proof. intros [E1 E2] (H1 & H2 & H3). unfold view_ok. by rewrite E1, E2. Qed.

(** ** The state between updates *)

(** The FIB holds what the RIB asks for, the records of inherited routes are
    right, every name has one route per face and its count of capturing routes
    is right. *)
Record rib_fib (s : Rib) (F : FibMap) : Prop := {
  rf_inv : rib_inv s;
  rf_views : ∀ n v, ribView s n = Some v → view_ok v;
  rf_recorded : recorded_ok (ribView s);
  rf_fib : ∀ n f, F n f = expectedCost (ribView s) n f
}.

(** The updates for which the updater computes the right commands. *)
Definition registerSafe (s : Rib) (n : Name) (route : Route) : Prop :=
  smallName n ∧
  match ribView s n with
  | None => True
  | Some v =>
      Z.of_nat (length (viewRoutes v)) + 1 < 2 ^ 64 ∧
      match findFace (rt_faceId route) (viewRoutes v) with
      | Some existing => rt_origin existing = rt_origin route ∧ rt_flags route = rt_flags existing
      | None =>
          (isRibCapture route = true ∨ viewCapture v = true ∨
             inheritedRoute (ribView s) n (rt_faceId route) = None) ∧
          (negb (viewCapture v) && isRibCapture route = true →
             ∀ g, is_Some (viewInherit v g) → inheritedRoute (ribView s) n g = None)
      end
  end.
Definition unregisterSafe (s : Rib) (n : Name) (route : Route) : Prop :=
  match ribView s n with
  | None => True
  | Some v =>
      match findRoute (viewEntry v) route with
      | None => True
      | Some existing => eraseSafe s n (viewEntry v) route existing
      end
  end.
Definition updateSafe (s : Rib) (u : RibUpdate) : Prop :=
  match ru_action u with
  | REGISTER => registerSafe s (ru_name u) (ru_route u)
  | UNREGISTER => unregisterSafe s (ru_name u) (ru_route u)
  | REMOVE_FACE => False
  end.
(** The update on the map of routes. *)
Definition updateView (V : RibView) (u : RibUpdate) : RibView :=
  match ru_action u with
  | REGISTER => updView V (ru_name u) (Some (registerView (ru_route u) (V (ru_name u))))
  | UNREGISTER | REMOVE_FACE =>
      if hasRouteView (ru_route u) (V (ru_name u))
      then updView V (ru_name u) (V (ru_name u) ≫= unregisterView (ru_route u)) else V
  end.

Lemma applyUpdate_spec s u :
  rib_inv s → (ru_action u = REGISTER → smallName (ru_name u)) →
  wp (applyUpdate u) (fun _ s' => rib_inv s' ∧ sameQueue s s' ∧ ∀ m, ribView s' m = updateView (ribView s) u m) s.
Proof.
  intros Hi Hn. unfold applyUpdate, updateView. destruct (ru_action u).
  - eapply wp_mono; [apply wp_conj; [by apply Rib_insert_inv; [|apply Hn]|apply Rib_insert_spec; [apply Hi|by apply Hn]]|].
    intros [] s' [Hi' (_ & Hq & Hv & _)]. done.
  - eapply wp_mono; [apply wp_conj; [by apply Rib_erase_inv|apply Rib_erase_spec, Hi]|].
    intros [] s' [Hi' (_ & Hq & Hv)]. split_and!; [done..|]. intros m.
    destruct (hasRouteView _ _); [apply Hv|by subst].
  - eapply wp_mono; [apply wp_conj; [by apply Rib_erase_inv|apply Rib_erase_spec, Hi]|].
    intros [] s' [Hi' (_ & Hq & Hv)]. split_and!; [done..|]. intros m.
    destruct (hasRouteView _ _); [apply Hv|by subst].
Qed.

Lemma update_correct_ext V V1 V2 u : (∀ m, V1 m = V2 m) → update_correct V V1 u → update_correct V V2 u.
Proof.
  intros E [H1 H2 H3 H4 H5].
  assert (sameCosts V1 V2) as Hs.
  { intros m. rewrite <-E. destruct (V1 m); [|done]. by eexists. }
  destruct (sameCosts_spec _ _ Hs) as (Hic & Hec & _). split; [done|..].
  - intros m f. by rewrite Hec.
  - intros x Hx. rewrite <-E. by apply H3.
  - intros m v f Hm. rewrite Hic. apply H4. by rewrite E.
  - exact H5.
Qed.
Lemma update_correct_id V u : recorded_ok V → clean u → update_correct V V u.
Proof.
  intros Hrec Hc. destruct Hc as (E1 & E2 & E3). assert (clean u) as Hc by done.
  split; [by apply clean_wf|by intros; rewrite clean_upd|rewrite E3; by intros x ?%not_elem_of_nil|..].
  - intros m v f Hm. rewrite E3. by apply Hrec.
  - intros m f. by rewrite clean_upd.
Qed.

(** ** Computing *)

Lemma computeUpdates_correct s F u face up :
  rib_fib s F → updateSafe s u → clean up →
  wp (computeUpdates s (mkRibUpdateBatch face [u])) (fun _ =>
    update_correct (ribView s) (updateView (ribView s) u)) up.
Proof.
  intros [Hi Hviews Hrec _] Hsafe Hclean. pose proof (ri_tree s Hi) as Ht.
  unfold computeUpdates. cbn [rub_updates forM_]. apply wp_bind.
  eapply wp_mono with (R := fun _ => update_correct (ribView s) (updateView (ribView s) u)); [|by intros [] up' ?].
  unfold updateSafe in Hsafe. unfold updateView. destruct u as [act n route]. cbn [ru_action ru_name ru_route] in *.
  destruct act; [| |done].
  - destruct Hsafe as [Hn Hsafe]. destruct (ribView s n) as [v|] eqn:Hv.
    + apply ribView_Some in Hv as Hv'. destruct Hv' as (r & e & Hr & He & ->).
      destruct Hsafe as [Hlen Hsafe]. destruct (findFace (rt_faceId route) _) as [existing|] eqn:Hff.
      * destruct Hsafe as [Ho Hfl]. apply findFace_Some in Hff as [Hin Hface].
        apply (register_newCost s n r e Ht Hr He Hrec (Hviews _ _ Hv) route existing); [|done|done].
        rewrite findRoute_key. assert (routeKey route = routeKey existing) as ->.
        { unfold routeKey. by rewrite Ho, Hface. }
        apply (find_key_NoDup routeKey); [|done]. by apply (ri_routes s Hi n _ Hv).
      * destruct Hsafe as [Hself Hhide]. by apply (register_newRoute s n r e Ht Hr He Hrec (Hviews _ _ Hv) route).
    + apply register_newName; [done..| |done|done]. by apply (ribView_None s n Ht).
  - unfold unregisterSafe in Hsafe. destruct (ribView s n) as [v|] eqn:Hv; cbn [hasRouteView].
    + apply ribView_Some in Hv as Hv'. destruct Hv' as (r & e & Hr & He & ->). unfold hasRoute.
      change (findRoute (viewEntry (entryView e)) route) with (findRoute e route) in *.
      destruct (findRoute e route) as [existing|] eqn:Hf.
      * apply (unregister_correct s n r e Ht Hr He Hrec (Hviews _ _ Hv) route existing); [done| |done].
        unfold eraseSafe in *. by rewrite <-erased_view in Hsafe.
      * unfold computeUpdatesForUnregistration. cbn [ru_name ru_route]. rewrite Hr. apply wp_bind.
        eapply wp_deref; [done|]. rewrite Hf. apply wp_ret. by apply update_correct_id.
    + unfold computeUpdatesForUnregistration. cbn [ru_name ru_route].
      rewrite (proj1 (ribView_None s n Ht) Hv). apply wp_ret. by apply update_correct_id.
Qed.

(** The RIB after the update, and the state between updates again. *)
Lemma updateSafe_views s F u :
  rib_fib s F → updateSafe s u → ∀ n v, updateView (ribView s) u n = Some v → view_ok v.
Proof.
  intros [Hi Hviews _ _] Hsafe m w. unfold updateView, updateSafe in *.
  destruct u as [act n route]. cbn [ru_action ru_name ru_route] in *. destruct act; [| |done].
  - unfold updView. case_bool_decide as Em; [|by apply Hviews]. intros <-%(inj Some). destruct Hsafe as [_ Hsafe].
    destruct (ribView s n) as [v|] eqn:Hv.
    + pose proof (Hviews n v Hv) as Hok. destruct Hsafe as [Hlen Hsafe].
      destruct (findFace (rt_faceId route) _) as [existing|] eqn:Hff; [|by apply register_new_view].
      destruct Hsafe as [Ho Hfl]. apply findFace_Some in Hff as [Hin Hface].
      apply (register_cost_view v route existing); [done| |done].
      rewrite findRoute_key. assert (routeKey route = routeKey existing) as ->.
      { unfold routeKey. by rewrite Ho, Hface. }
      apply (find_key_NoDup routeKey); [|done]. by apply (ri_routes s Hi n _ Hv).
    + unfold view_ok. rewrite registerView_routes. split_and!; [apply NoDup_singleton| |simpl; lia].
      unfold registerView, insertRoute, captureCount. cbn [List.filter]. simpl.
      by destruct (isRibCapture route).
  - destruct (hasRouteView route (ribView s n)) eqn:Hh; [|by apply Hviews].
    unfold updView. case_bool_decide as Em; [|by apply Hviews]. destruct (ribView s n) as [v|] eqn:Hv; [|done].
    simpl. unfold unregisterView. cbn [hasRouteView] in Hh. unfold hasRoute in Hh.
    destruct (findRoute (viewEntry v) route) as [existing|] eqn:Hf; [|done].
    case_bool_decide; [done|]. intros <-%(inj Some). by apply (erase_view v route existing (Hviews n v Hv)).
Qed.
Lemma finish_correct s F F' u up :
  rib_fib s F → updateSafe s u →
  update_correct (ribView s) (updateView (ribView s) u) up →
  (∀ n f, F' n f = default (F n f) (upd up n f)) →
  wp (applyUpdate u;; modifyInheritedRoutes (up_inheritedRoutes up)) (fun _ s' =>
    rib_fib s' F' ∧ sameQueue s s' ∧ sameCosts (updateView (ribView s) u) (ribView s')) s.
Proof.
  intros Hrf Hsafe Hup HF. pose proof (updateSafe_views s F u Hrf Hsafe) as Hviews'. destruct Hrf as [Hi Hviews Hrec HFs].
  apply wp_bind. eapply wp_mono; [apply applyUpdate_spec; [done|]|].
  { intros E. unfold updateSafe in Hsafe. rewrite E in Hsafe. by destruct Hsafe. }
  intros [] s1 (Hi1 & Hq1 & Hv1).
  destruct (update_correct_ext _ _ (ribView s1) up (fun m => eq_sym (Hv1 m)) Hup) as [_ Hfib Hnames Hrecs _].
  eapply wp_mono; [apply modifyInheritedRoutes_spec; [apply Hi1|exact Hnames]|].
  intros [] s2 (Ht2 & Hmem & Hv2).
  assert (sameCosts (ribView s1) (ribView s2)) as Hsame.
  { intros m. specialize (Hv2 m). destruct (ribView s1 m); [|done]. destruct Hv2 as (v' & ? & ? & _). eauto. }
  destruct (sameCosts_spec _ _ Hsame) as (Hic & Hec & _).
  destruct Hmem as (M1 & M2 & M3 & M4 & M5). split_and!; [split|..].
  - destruct Hi1 as [Ht1 Hr1 Hc1 Hf1]. split; [done|..].
    + intros n v Hv. specialize (Hsame n). destruct (ribView s1 n) as [w|] eqn:Hw; [|congruence].
      destruct Hsame as (v' & Hv' & [E _]). replace v with v' by congruence. rewrite E. by apply (Hr1 n).
    + rewrite M3, Hc1. do 2 f_equal. unfold routeTotal. rewrite M1. f_equal. apply map_ext. intros n. unfold viewCount.
      specialize (Hsame n). destruct (ribView s1 n) as [w|]; [|by rewrite Hsame].
      destruct Hsame as (v' & -> & [E _]). by rewrite E.
    + intros n r v rt Hr Hv Hin. rewrite M2. unfold Rib_find in Hr. rewrite M1 in Hr. specialize (Hsame n).
      destruct (ribView s1 n) as [w|] eqn:Hw; [|congruence]. destruct Hsame as (v' & Hv' & [E _]).
      eapply Hf1; [exact Hr|exact Hw|]. rewrite <-E. by replace v' with v by congruence.
  - intros n v Hv. specialize (Hsame n). destruct (ribView s1 n) as [w|] eqn:Hw; [|congruence].
    destruct Hsame as (v' & Hv' & Hs). replace v with v' by congruence. eapply sameRoutes_ok; [exact Hs|].
    apply (Hviews' n). by rewrite <-Hv1.
  - intros m v f Hm. specialize (Hv2 m). destruct (ribView s1 m) as [w|] eqn:Hw; [|congruence].
    destruct Hv2 as (v' & Hv' & _ & Hr'). replace v with v' by congruence. rewrite Hr', Hic. by apply Hrecs.
  - intros n f. by rewrite HF, HFs, Hec, Hfib.
  - destruct Hq1, M4. split; congruence.
  - intros m. rewrite <-Hv1. apply Hsame.
Qed.

(** ** Carrying out the commands *)

Definition runCommand (c : FibCommand) (F : FibMap) : FibMap :=
  fun n f =>
    if targets n f (fc_update c)
    then match fc_verb c with ADD_NEXTHOP => Some (fu_cost (fc_update c)) | REMOVE_NEXTHOP => None end
    else F n f.

(** Whatever the order in which the commands held by the controller succeed,
    the system comes to rest, without a fault, in a state that satisfies [Q];
    every command satisfies [P]. *)
Inductive settles (P : FibCommand → Prop) (Q : RibSys → FibMap → Prop) : RibSys → FibMap → Prop :=
| settles_rest sys F : sy_commands sys = [] → Q sys F → settles P Q sys F
| settles_answer sys F :
    sy_commands sys ≠ [] →
    (∀ i c, sy_commands sys !! i = Some c →
       P c ∧ ∃ sys', answer i Succeeds sys = Ok (tt, sys') ∧ settles P Q sys' (runCommand c F)) →
    settles P Q sys F.

Lemma settles_mono P (Q Q' : RibSys → FibMap → Prop) sys F :
  (∀ sys F, Q sys F → Q' sys F) → settles P Q sys F → settles P Q' sys F.
Proof.
  intros HQ. revert sys F. fix IH 3. intros _ _ [sys F Hc Hq|sys F Hc Hall]; [by apply settles_rest, HQ|].
  apply settles_answer; [done|]. intros i c Hic. destruct (Hall i c Hic) as (Hp & sys' & Ha & Hs).
  split; [done|]. exists sys'. split; [done|]. by apply IH.
Qed.

(** A command that serves the change of the RIB from [V] to [V']: it adds a next
    hop that [V'] asks for, or removes one that only [V] asks for. *)
Definition commandFor (V V' : RibView) (c : FibCommand) : Prop :=
  let '(n, f) := (fu_name (fc_update c), fu_faceId (fc_update c)) in
  match fc_verb c with
  | ADD_NEXTHOP => expectedCost V' n f = Some (fu_cost (fc_update c))
  | REMOVE_NEXTHOP => is_Some (expectedCost V n f) ∧ expectedCost V' n f = None
  end.

Definition idle (sys : RibSys) : Prop :=
  rb_updateBatches (sy_rib sys) = [] ∧ rb_isUpdateInProgress (sy_rib sys) = false ∧ sy_commands sys = [].

Lemma rib_fib_same s s' F :
  rb_heap s' = rb_heap s → rb_rib s' = rb_rib s → rb_faceEntries s' = rb_faceEntries s →
  rb_nItems s' = rb_nItems s → rib_fib s F → rib_fib s' F.
Proof.
  intros E1 E2 E3 E4 [[Ht Hr Hc Hf] Hv Hrec HF].
  assert (∀ m, ribView s' m = ribView s m) as Hview by (intros; by apply ribView_same).
  assert (sameCosts (ribView s) (ribView s')) as Hs.
  { intros m. rewrite Hview. destruct (ribView s m); [|done]. by eexists. }
  destruct (sameCosts_spec _ _ Hs) as (Hic & Hec & _). split; [split|..].
  - by eapply rib_tree_same.
  - intros n v. rewrite Hview. apply Hr.
  - rewrite E4, Hc. do 2 f_equal. unfold routeTotal. rewrite E2. f_equal. apply map_ext. intros n.
    unfold viewCount. by rewrite Hview.
  - intros n r v rt. unfold Rib_find. rewrite E2, E3, Hview. apply Hf.
  - intros n v. rewrite Hview. apply Hv.
  - intros m v f. rewrite Hview, Hic. apply Hrec.
  - intros n f. by rewrite HF, Hec.
Qed.
Lemma wp_bind_inv {S A B} (m : M S A) (k : A → M S B) (R : B → S → Prop) s :
  wp (m ≫= k) R s → wp m (fun a => wp (k a) R) s.
Proof. unfold wp, mbind, M_bind. by destruct (m s) as [[a s']|]. Qed.

Section protocol.
Context (s : Rib) (F : FibMap) (u : RibUpdate) (item : UpdateQueueItem).
Context (Hrf : rib_fib s F) (Hsafe : updateSafe s u).
Context (Hqueue : rb_updateBatches s = []) (Hitem : rub_updates (uq_batch item) = [u]).
Context (outs : list RibOutput).

(** What the update leaves. *)
Definition updateDone (sys : RibSys) (F' : FibMap) : Prop :=
  rib_fib (sy_rib sys) F' ∧ sameCosts (updateView (ribView s) u) (ribView (sy_rib sys)) ∧ idle sys ∧
  sy_outputs sys = outs ++ match uq_successCb item with Some cb => [SuccessCallback cb] | None => [] end.

(** With an empty queue there is nothing to advance. *)
Definition stops (next : M RibSys unit) : Prop :=
  ∀ sys, rb_updateBatches (sy_rib sys) = [] → next sys = Ok (tt, sys).
Lemma loop_stops fuel : stops (sendBatchFromQueue_loop (S fuel)).
Proof. intros sys E. cbn [sendBatchFromQueue_loop]. munfold. by rewrite E. Qed.
Lemma loop_first fuel sys it Q :
  rb_updateBatches (sy_rib sys) = [it] → rb_isUpdateInProgress (sy_rib sys) = false →
  length (rub_updates (uq_batch it)) = 1%nat →
  wp (computeAndSendFibUpdates (sendBatchFromQueue_loop fuel) it) Q
    (set_sy_rib (set_rb_updateBatches [] (set_rb_isUpdateInProgress true (sy_rib sys))) sys) →
  wp (sendBatchFromQueue_loop (S fuel)) Q sys.
Proof.
  intros Eq Ep El H. cbn [sendBatchFromQueue_loop]. apply wp_bind, wp_gets. rewrite Eq, Ep.
  do 2 (apply wp_bind, wp_zoom, wp_modify). by apply wp_bind, wp_assert; [rewrite El|].
Qed.
Lemma sendBatch_stops : stops sendBatchFromQueue.
Proof. intros sys E. unfold sendBatchFromQueue. munfold. by apply loop_stops. Qed.

Lemma success_spec next up F' sys :
  stops next →
  update_correct (ribView s) (updateView (ribView s) u) up →
  (∀ n f, F' n f = default (F n f) (upd up n f)) →
  sy_rib sys = set_rb_isUpdateInProgress true s → sy_commands sys = [] → sy_outputs sys = outs →
  wp (onFibUpdateSuccess next item (up_inheritedRoutes up)) (fun _ sys' => updateDone sys' F') sys.
Proof using Hrf Hsafe Hqueue Hitem.
  intros Hnext Hup HF Hrib Hcmd Hout. set (s1 := set_rb_isUpdateInProgress true s) in *.
  assert (rib_fib s1 F) as Hrf1 by by eapply rib_fib_same; [..|exact Hrf].
  pose proof (finish_correct s1 F F' u up Hrf1) as Hfin.
  assert (ribView s1 = ribView s) as Ev by done. 
  assert (updateSafe s1 u) as Hsafe1 by exact Hsafe.
  specialize (Hfin Hsafe1 Hup HF). apply wp_bind_inv in Hfin.
  unfold onFibUpdateSuccess. rewrite Hitem. cbn [forM_]. apply wp_bind, wp_zoom. rewrite Hrib. apply wp_bind.
  eapply wp_mono; [exact Hfin|]. intros [] s2 H2. apply wp_ret. apply wp_bind, wp_zoom.
  eapply wp_mono; [exact H2|]. intros [] s3 (Hrf3 & [Q1 Q2] & Hsame). apply wp_bind, wp_zoom, wp_modify. apply wp_bind.
  set (s4 := set_rb_isUpdateInProgress false s3).
  eapply wp_mono with (R := fun _ sys' => sy_rib sys' = s4 ∧ sy_commands sys' = [] ∧ sy_outputs sys' =
    outs ++ match uq_successCb item with Some cb => [SuccessCallback cb] | None => [] end).
  { unfold callback. destruct (uq_successCb item); simpl; [by rewrite <-Hout|by rewrite <-Hout, app_nil_r]. }
  intros [] sys4 (Er & Ec & Eo).
  assert (rb_updateBatches s4 = []) as Hq4 by (cbn [s4 rb_updateBatches set_rb_isUpdateInProgress]; by rewrite Q1).
  eapply wp_run; [apply Hnext; by rewrite Er|]. split_and!; [|by rewrite Er|by split_and!; rewrite ?Er|done].
  rewrite Er. by eapply rib_fib_same; [..|exact Hrf3].
Qed.

(** The FIB when the updates [rest] of [up] are still to be carried out. *)
Definition partialFib (up : FibUpdater) (rest : list FibUpdate) : FibMap :=
  fun n f =>
    match List.find (targets n f) (listFor up f) with
    | Some o => if bool_decide (o ∈ rest) then F n f else updateCost o
    | None => F n f
    end.
Definition commandOf (o : FibUpdate) : FibCommand := mkFibCommand (fu_action o) o 0 item.

Lemma listFor_NoDup up f : upd_wf up → NoDup (map updKey (listFor up f)).
Proof. intros [_ _ [H1 H2]]. unfold listFor. by case_bool_decide. Qed.
Lemma targets_key n f o : targets n f o = bool_decide (updKey o = (n, f)).
Proof.
  unfold targets, updKey. apply Bool.eq_iff_eq_true. rewrite andb_true_iff, !bool_decide_eq_true.
  split; [by intros [-> ->]|by intros [= -> ->]].
Qed.
Lemma find_targets n f l o : List.find (targets n f) l = Some o → o ∈ l ∧ updKey o = (n, f).
Proof.
  intros H. apply find_some in H as [Hin Ht]. rewrite targets_key, bool_decide_eq_true in Ht.
  by rewrite list_elem_of_In.
Qed.
Lemma find_targets_NoDup l o :
  NoDup (map updKey l) → o ∈ l → List.find (targets (fu_name o) (fu_faceId o)) l = Some o.
Proof.
  intros Hnd Hin. pose proof (find_key_NoDup updKey l o Hnd Hin) as H. rewrite <-H. clear.
  induction l as [|x l IH]; [done|]. cbn [List.find]. by rewrite IH, targets_key.
Qed.

Lemma partial_step up rest rest' o G n f :
  upd_wf up → o ∈ listFor up (fu_faceId o) → (∀ x, x ∈ rest' ↔ x ∈ rest ∧ x ≠ o) →
  (∀ n f, G n f = partialFib up rest n f) →
  runCommand (commandOf o) G n f = partialFib up rest' n f.
Proof.
  intros Hwf Ho Hrest HG. unfold runCommand. cbn [commandOf fc_update fc_verb].
  destruct (targets n f o) eqn:Et.
  - rewrite targets_key, bool_decide_eq_true in Et. injection Et as <- <-.
    unfold partialFib. rewrite find_targets_NoDup by (done || by apply listFor_NoDup).
    rewrite bool_decide_false; [done|]. rewrite Hrest. tauto.
  - rewrite HG. unfold partialFib. destruct (List.find _ _) as [x|] eqn:Ex; [|done].
    apply find_targets in Ex as [_ Ek].
    assert (x ≠ o) as Hxo.
    { intros ->. rewrite targets_key, Ek, bool_decide_true in Et by done. done. }
    erewrite bool_decide_ext; [reflexivity|]. rewrite Hrest. naive_solver.
Qed.
Lemma partial_nil up n f : partialFib up [] n f = default (F n f) (upd up n f).
Proof.
  unfold partialFib, upd. by destruct (List.find _ _).
Qed.
Lemma partial_all up n f : partialFib up (up_updatesForBatchFaceId up ++ up_updatesForNonBatchFaceId up) n f = F n f.
Proof.
  unfold partialFib. destruct (List.find _ _) as [o|] eqn:E; [|done]. apply find_targets in E as [Hin _].
  rewrite bool_decide_true; [done|]. apply elem_of_app. unfold listFor in Hin. case_bool_decide; auto.
Qed.
Lemma without_spec o l i :
  NoDup (map updKey l) → l !! i = Some o →
  delete i l = without o l ∧ (∀ x, x ∈ without o l ↔ x ∈ l ∧ x ≠ o) ∧ (length (without o l) < length l)%nat ∧
  NoDup (map updKey (without o l)).
Proof.
  intros Hnd Hi.
  assert (∀ x, x ∈ without o l ↔ x ∈ l ∧ x ≠ o) as Hin.
  { intros x. unfold without. rewrite !list_elem_of_In, filter_In, negb_true_iff, bool_decide_eq_false. done. }
  assert (delete i l = without o l) as Ed.
  { clear Hin. revert i Hi. induction l as [|x l IH]; intros [|i] Hi; [done..| |]; cbn [map] in Hnd;
      apply NoDup_cons in Hnd as [Hx Hnd]; unfold without in *; cbn [List.filter delete list_delete].
    - injection Hi as ->. rewrite bool_decide_true by done. cbn [negb]. clear -Hx.
      induction l as [|y l IH]; [done|]. cbn [map] in Hx. apply not_elem_of_cons in Hx as [H1 H2]. cbn [List.filter].
      rewrite bool_decide_false by (intros ->; done). cbn [negb]. by rewrite <-IH.
    - simpl in Hi. rewrite bool_decide_false; cycle 1.
      { intros ->. apply Hx. apply list_elem_of_fmap_2. by eapply list_elem_of_lookup_2. }
      cbn [negb]. f_equal. by apply IH. }
  split_and!; [done|done| |].
  - rewrite <-Ed, length_delete by by eexists. apply lookup_lt_Some in Hi. lia.
  - rewrite <-Ed. eapply sublist_NoDup; [exact Hnd|]. apply (fmap_sublist updKey), sublist_delete.
Qed.

Lemma sendUpdates_spec l sys :
  wp (sendUpdates l item) (fun _ sys' =>
    sy_commands sys' = sy_commands sys ++ map commandOf l ∧ sy_rib sys' = sy_rib sys ∧
    sy_updater sys' = sy_updater sys ∧ sy_outputs sys' = sy_outputs sys) sys.
Proof.
  unfold sendUpdates. revert sys. induction l as [|o l IH]; intros sys; cbn [forM_ map].
  { apply wp_ret. by rewrite app_nil_r. }
  apply wp_bind. eapply wp_mono with (R := fun _ sys' => sys' = set_sy_commands (sy_commands sys ++ [commandOf o]) sys).
  { unfold sendAddNextHopUpdate, sendRemoveNextHopUpdate, sendCommand, commandOf. destruct (fu_action o); by apply wp_modify. }
  intros [] sys1 ->. eapply wp_mono; [apply IH|]. intros [] sys2 (C1 & C2 & C3 & C4).
  split_and!; [|done..]. rewrite C1. cbn [sy_commands set_sy_commands]. by rewrite <-app_assoc.
Qed.

(** The state while the commands of [B] and [N] are outstanding. *)
Record waiting (up : FibUpdater) (B N : list FibUpdate) (sys : RibSys) : Prop := {
  wa_rib : sy_rib sys = set_rb_isUpdateInProgress true s;
  wa_updater : up_batchFaceId (sy_updater sys) = up_batchFaceId up ∧
    up_updatesForBatchFaceId (sy_updater sys) = B ∧ up_updatesForNonBatchFaceId (sy_updater sys) = N ∧
    up_inheritedRoutes (sy_updater sys) = up_inheritedRoutes up;
  wa_outputs : sy_outputs sys = outs
}.

Context (up : FibUpdater) (Hup : update_correct (ribView s) (updateView (ribView s) u) up).

Lemma answer_spec i o l sys (R : unit → RibSys → Prop) :
  sy_commands sys = map commandOf l → l !! i = Some o →
  wp (onUpdateSuccess (commandOf o)) R (set_sy_commands (map commandOf (delete i l)) sys) →
  wp (answer i Succeeds) R sys ∧ sy_commands sys !! i = Some (commandOf o).
Proof.
  intros Ec Hi HR. assert (sy_commands sys !! i = Some (commandOf o)) as Hl.
  { rewrite Ec, list_lookup_fmap, Hi. done. }
  split; [|done]. unfold answer. apply wp_bind, wp_get. rewrite Hl. apply wp_bind, wp_put. rewrite Ec.
  change (delete i (map commandOf l)) with (delete i (commandOf <$> l)). by rewrite <-list_fmap_delete.
Qed.
Abbreviation settlesFor := (settles (commandFor (ribView s) (updateView (ribView s) u))).
Lemma commandOf_for o : o ∈ listFor up (fu_faceId o) → commandFor (ribView s) (updateView (ribView s) u) (commandOf o).
Proof using Hup.
  intros Ho. assert (upd up (fu_name o) (fu_faceId o) = Some (updateCost o)) as Hu.
  { unfold upd. by rewrite find_targets_NoDup by (done || apply listFor_NoDup, Hup). }
  unfold commandFor. cbn [commandOf fc_update fc_verb]. rewrite (uc_fib _ _ _ Hup), Hu. unfold updateCost in *.
  destruct (fu_action o); [done|]. split; [by apply (uc_removes _ _ _ Hup)|done].
Qed.
Lemma settles_all l sys G (Q : RibSys → FibMap → Prop) :
  sy_commands sys = map commandOf l → l ≠ [] → (∀ o, o ∈ l → o ∈ listFor up (fu_faceId o)) →
  (∀ i o, l !! i = Some o → wp (onUpdateSuccess (commandOf o))
     (fun _ sys' => settlesFor Q sys' (runCommand (commandOf o) G)) (set_sy_commands (map commandOf (delete i l)) sys)) →
  settlesFor Q sys G.
Proof using Hup.
  intros Ec Hne Hl H. apply settles_answer; [rewrite Ec; by destruct l|]. intros i c Hc.
  rewrite Ec, list_lookup_fmap_Some in Hc. destruct Hc as (o & -> & Ho).
  destruct (answer_spec i o l sys _ Ec Ho (H i o Ho)) as [Ha _].
  apply wp_elim in Ha as ([] & sys' & Hrun & Hs). split; [|eauto].
  apply commandOf_for, Hl. by eapply list_elem_of_lookup_2.
Qed.
Lemma in_nonBatch o : o ∈ up_updatesForNonBatchFaceId up → o ∈ listFor up (fu_faceId o).
Proof using Hup.
  intros Ho. destruct (uc_wf _ _ _ Hup) as [_ Hnb _]. rewrite Forall_forall in Hnb.
  unfold listFor. by rewrite bool_decide_false by (by apply Hnb).
Qed.
Lemma in_batch o : o ∈ up_updatesForBatchFaceId up → o ∈ listFor up (fu_faceId o).
Proof using Hup.
  intros Ho. destruct (uc_wf _ _ _ Hup) as [Hb _ _]. rewrite Forall_forall in Hb.
  unfold listFor. by rewrite bool_decide_true by (by apply Hb).
Qed.

(** The commands for other faces. *)
Lemma settle_nonBatch N sys G :
  waiting up [] N sys → sy_commands sys = map commandOf N → N ≠ [] →
  N ⊆ up_updatesForNonBatchFaceId up → NoDup (map updKey N) →
  (∀ n f, G n f = partialFib up N n f) → settlesFor updateDone sys G.
Proof using Hrf Hsafe Hqueue Hitem Hup.
  remember (length N) as k eqn:Ek. revert N sys G Ek. induction k as [k IH] using lt_wf_ind.
  intros N sys G -> [Er (U1 & U2 & U3 & U4) Eo] Ec Hne Hsub Hnd HG. eapply settles_all; [exact Ec|done|by intros o Ho; apply in_nonBatch, Hsub|].
  intros i o Ho. destruct (without_spec o N i Hnd Ho) as (Ed & Hin & Hlt & Hnd').
  assert (o ∈ up_updatesForNonBatchFaceId up) as Hou by (by apply Hsub, (list_elem_of_lookup_2 _ i)).
  pose proof (uc_wf _ _ _ Hup) as Hwf. pose proof Hwf as [_ Hnb _]. rewrite Forall_forall in Hnb. specialize (Hnb o Hou).
  assert (∀ n f, runCommand (commandOf o) G n f = partialFib up (without o N) n f) as HG'.
  { intros n f. apply (partial_step up N); [done|by apply in_nonBatch|done|done]. }
  unfold onUpdateSuccess. apply wp_bind, wp_gets. cbn [sy_updater set_sy_commands commandOf fc_update].
  rewrite bool_decide_false by congruence. apply wp_bind, wp_zoom, wp_modify. apply wp_bind, wp_gets.
  cbn [sy_updater set_sy_updater set_up_nonBatch up_updatesForNonBatchFaceId set_sy_commands]. rewrite U3, Ed.
  case_bool_decide as Emp.
  - rewrite Emp in HG'. cbn [up_inheritedRoutes set_up_nonBatch]. rewrite U4. eapply wp_mono.
    + apply (success_spec _ up (runCommand (commandOf o) G)); [apply sendBatch_stops|exact Hup| |exact Er|by rewrite Emp|exact Eo].
      intros n f. rewrite HG'. apply partial_nil.
    + intros [] sys' Hd. apply settles_rest; [|done]. apply Hd.
  - apply wp_ret. eapply (IH (length (without o N)) Hlt (without o N)); [done| |done|done| |done|done].
    + split; [exact Er| |exact Eo]. by split_and!.
    + intros x [Hx _]%Hin. by apply Hsub.
Qed.

(** When the last command for the face of the batch has succeeded, the others
    are sent, or the RIB is changed. *)
Lemma sendNonBatch_spec next sys G :
  stops next →
  waiting up [] (up_updatesForNonBatchFaceId up) sys → sy_commands sys = [] →
  (∀ n f, G n f = partialFib up (up_updatesForNonBatchFaceId up) n f) →
  wp (sendUpdatesForNonBatchFaceId next item) (fun _ sys' => settlesFor updateDone sys' G) sys.
Proof using Hrf Hsafe Hqueue Hitem Hup.
  intros Hnext [Er (U1 & U2 & U3 & U4) Eo] Ec HG. unfold sendUpdatesForNonBatchFaceId. apply wp_bind, wp_gets. rewrite U3.
  case_bool_decide as Emp.
  - eapply wp_mono; [apply sendUpdates_spec|]. intros [] sys' (C1 & C2 & C3 & C4). rewrite Ec in C1.
    eapply settle_nonBatch; [|exact C1|done|done|by apply Hup|exact HG].
    split; [congruence| |congruence]. rewrite C3. by split_and!.
  - rewrite U4. rewrite Emp in HG. eapply wp_mono; [apply (success_spec _ up G); [exact Hnext|exact Hup| |done..]|].
    + intros n f. rewrite HG. apply partial_nil.
    + intros [] sys' Hd. apply settles_rest; [apply Hd|done].
Qed.

(** The commands for the face of the batch. *)
Lemma settle_batch B sys G :
  waiting up B (up_updatesForNonBatchFaceId up) sys → sy_commands sys = map commandOf B → B ≠ [] →
  B ⊆ up_updatesForBatchFaceId up → NoDup (map updKey B) →
  (∀ n f, G n f = partialFib up (B ++ up_updatesForNonBatchFaceId up) n f) → settlesFor updateDone sys G.
Proof using Hrf Hsafe Hqueue Hitem Hup.
  remember (length B) as k eqn:Ek. revert B sys G Ek. induction k as [k IH] using lt_wf_ind.
  intros B sys G -> [Er (U1 & U2 & U3 & U4) Eo] Ec Hne Hsub Hnd HG. eapply settles_all; [exact Ec|done|by intros o Ho; apply in_batch, Hsub|].
  intros i o Ho. destruct (without_spec o B i Hnd Ho) as (Ed & Hin & Hlt & Hnd').
  assert (o ∈ up_updatesForBatchFaceId up) as Hou by (by apply Hsub, (list_elem_of_lookup_2 _ i)).
  pose proof (uc_wf _ _ _ Hup) as Hwf. pose proof Hwf as [Hb Hnb _]. rewrite Forall_forall in Hb, Hnb. specialize (Hb o Hou).
  assert (∀ n f, runCommand (commandOf o) G n f = partialFib up (without o B ++ up_updatesForNonBatchFaceId up) n f) as HG'.
  { intros n f. eapply partial_step; [done| | |exact HG].
    - by apply in_batch.
    - intros x. rewrite !elem_of_app, Hin. split; [|naive_solver].
      intros [[? ?]|Hx]; [by auto|]. split; [by right|]. intros ->. by apply (Hnb o Hx). }
  unfold onUpdateSuccess. apply wp_bind, wp_gets. cbn [sy_updater set_sy_commands commandOf fc_update].
  rewrite bool_decide_true by congruence. apply wp_bind, wp_zoom, wp_modify. apply wp_bind, wp_gets.
  cbn [sy_updater set_sy_updater set_up_batch up_updatesForBatchFaceId set_sy_commands]. rewrite U2, Ed.
  case_bool_decide as Emp.
  - rewrite Emp in HG'. eapply sendNonBatch_spec; [apply sendBatch_stops| |cbn [sy_commands set_sy_updater set_sy_commands]; by rewrite Emp|exact HG'].
    split; [exact Er| |exact Eo]. by split_and!.
  - apply wp_ret. eapply (IH (length (without o B)) Hlt (without o B)); [done| |done|done| |done|done].
    + split; [exact Er| |exact Eo]. by split_and!.
    + intros x [Hx _]%Hin. by apply Hsub.
Qed.

Lemma sendBatch_spec next sys G :
  stops next →
  waiting up (up_updatesForBatchFaceId up) (up_updatesForNonBatchFaceId up) sys → sy_commands sys = [] →
  (∀ n f, G n f = F n f) →
  wp (sendUpdatesForBatchFaceId next item) (fun _ sys' => settlesFor updateDone sys' G) sys.
Proof using Hrf Hsafe Hqueue Hitem Hup.
  intros Hnext [Er (U1 & U2 & U3 & U4) Eo] Ec HG. unfold sendUpdatesForBatchFaceId. apply wp_bind, wp_gets. rewrite U2.
  assert (∀ n f, G n f = partialFib up (up_updatesForBatchFaceId up ++ up_updatesForNonBatchFaceId up) n f) as HG'.
  { intros n f. by rewrite partial_all. }
  case_bool_decide as Emp.
  - eapply wp_mono; [apply sendUpdates_spec|]. intros [] sys' (C1 & C2 & C3 & C4). rewrite Ec in C1.
    eapply settle_batch; [|exact C1|done|done|by apply Hup|exact HG'].
    split; [congruence| |congruence]. rewrite C3. by split_and!.
  - rewrite Emp in HG'. apply sendNonBatch_spec; [done| |done|exact HG']. split; [done| |done]. rewrite Emp in U2. by split_and!.
Qed.
End protocol.

(** ** The theorem *)

Lemma update_settles (sys : RibSys) (F : FibMap) (u : RibUpdate) (onSuccess onFailure : option CallbackId) :
  rib_fib (sy_rib sys) F → idle sys → updateSafe (sy_rib sys) u →
  ∃ sys1, beginApplyUpdate u onSuccess onFailure sys = Ok (tt, sys1) ∧
    settles (commandFor (ribView (sy_rib sys)) (updateView (ribView (sy_rib sys)) u)) (fun sys' F' =>
      rib_fib (sy_rib sys') F' ∧
      sameCosts (updateView (ribView (sy_rib sys)) u) (ribView (sy_rib sys')) ∧ idle sys' ∧
      sy_outputs sys' = sy_outputs sys ++ match onSuccess with Some cb => [SuccessCallback cb] | None => [] end)
    sys1 F.
Proof.
  intros Hrf (Hq & Hp & Hc) Hsafe. set (s := sy_rib sys) in *.
  set (item := mkUpdateQueueItem (mkRibUpdateBatch (rt_faceId (ru_route u)) [u]) onSuccess onFailure).
  enough (wp (beginApplyUpdate u onSuccess onFailure) (fun _ sys1 => settles (commandFor (ribView s) (updateView (ribView s) u)) (updateDone s u item (sy_outputs sys)) sys1 F) sys)
    as H by (apply wp_elim in H as ([] & sys1 & Hrun & Hs); eauto).
  unfold beginApplyUpdate. apply wp_bind, wp_zoom. unfold addUpdateToQueue. apply wp_bind.
  eapply wp_lift; [unfold RibUpdateBatch_add; cbn [rub_faceId]; by rewrite bool_decide_true|]. apply wp_modify.
  unfold sendBatchFromQueue. apply wp_bind, wp_gets. fold s.
  cbn [sy_rib set_sy_rib rb_updateBatches set_rb_updateBatches rub_updates app]. rewrite Hq. cbn [app length].
  apply (loop_first _ _ item); [done..|]. set (sys2 := set_sy_rib _ _).
  assert (sy_rib sys2 = set_rb_isUpdateInProgress true s ∧ sy_commands sys2 = [] ∧ sy_outputs sys2 = sy_outputs sys)
    as (R1 & R2 & R3).
  { unfold sys2. cbn [sy_rib set_sy_rib sy_commands sy_outputs set_rb_updateBatches set_rb_isUpdateInProgress]. split_and!; [|done..].
    clearbody s. destruct s. cbn in Hq. by subst. }
  unfold computeAndSendFibUpdates. apply wp_bind, wp_zoom, wp_modify. apply wp_bind, wp_gets. apply wp_bind, wp_zoom.
  eapply wp_mono.
  { apply (computeUpdates_correct _ F u (rt_faceId (ru_route u))); [| |by split_and!].
    - cbn [sy_rib set_sy_updater]. rewrite R1. by eapply rib_fib_same; [..|exact Hrf].
    - cbn [sy_rib set_sy_updater]. rewrite R1. exact Hsafe. }
  intros [] up Hup. cbn [sy_rib set_sy_updater] in Hup. rewrite R1 in Hup.
  apply (sendBatch_spec s F u item Hrf Hsafe Hq eq_refl (sy_outputs sys) up Hup (sendBatchFromQueue_loop 1)); [apply loop_stops| |exact R2|done].
  split; [exact R1|done|exact R3].
Qed.

(** One update: if the FIB holds what the RIB asks for and the RIB's own records
    are right ([rib_fib]), an update that [updateSafe] covers leaves them so. *)
Theorem rib_update_applied (sys : RibSys) (F : FibMap) (u : RibUpdate) (onSuccess onFailure : option CallbackId) :
  rib_fib (sy_rib sys) F → idle sys → updateSafe (sy_rib sys) u →
  ∃ sys1, beginApplyUpdate u onSuccess onFailure sys = Ok (tt, sys1) ∧
    settles (commandFor (ribView (sy_rib sys)) (updateView (ribView (sy_rib sys)) u)) (fun sys' F' =>
      rib_fib (sy_rib sys') F' ∧
      sameCosts (updateView (ribView (sy_rib sys)) u) (ribView (sy_rib sys')) ∧ idle sys' ∧
      sy_outputs sys' = sy_outputs sys ++ match onSuccess with Some cb => [SuccessCallback cb] | None => [] end)
    sys1 F.
Proof. apply update_settles. Qed.

(** A run: updates one after another, each begun when the one before has settled.
    Before each of them the RIB and the FIB agree and nothing is under way. *)
Fixpoint updatesSettle (us : list (RibUpdate * option CallbackId * option CallbackId)) (sys : RibSys) (F : FibMap) : Prop :=
  rib_fib (sy_rib sys) F ∧ idle sys ∧
  match us with
  | [] => True
  | (u, onSuccess, onFailure) :: us' =>
      let V := ribView (sy_rib sys) in
      updateSafe (sy_rib sys) u →
      ∃ sys1, beginApplyUpdate u onSuccess onFailure sys = Ok (tt, sys1) ∧
        settles (commandFor V (updateView V u)) (fun sys' F' =>
          sameCosts (updateView V u) (ribView (sy_rib sys')) ∧
          sy_outputs sys' = sy_outputs sys ++ match onSuccess with Some cb => [SuccessCallback cb] | None => [] end ∧
          updatesSettle us' sys' F') sys1 F
  end.
Lemma updatesSettle_from us : ∀ sys F, rib_fib (sy_rib sys) F → idle sys → updatesSettle us sys F.
Proof.
  induction us as [|[[u ok] fail] us IH]; intros sys F Hrf Hi; cbn [updatesSettle]; (split_and!; [done|done|]); [done|].
  intros Hsafe. destruct (update_settles sys F u ok fail Hrf Hi Hsafe) as (sys1 & Hb & Hs).
  exists sys1. split; [done|]. eapply settles_mono; [|exact Hs]. intros sys' F' (H1 & H2 & H3 & H4).
  split_and!; [done|done|by apply IH].
Qed.
