(* ===== verification/RibScenario.v ===== *)
(** * Runs of the RIB and its FIB updater

    Concrete runs.  A run gives the system registrations and unregistrations one
    after the other and lets the FIB commands of each succeed in the order in
    which they were sent.  The first section shows that the hypotheses of the
    theorems on the RIB can be met; the second holds the runs outside
    [updateSafe] in which the updater does not keep the FIB in step with the
    RIB. *)

From S2P Require Import Prelude Tlv Component Name PrefixAnn RibEntry Rib RibTree RibProps.
From S2P Require Import FibUpdater RibSystem RibInherit RibEffect RibFib RibRoutes RibUpdates RibCorrect.
Local Open Scope Z_scope.

(** ** Driving the system *)

Fixpoint drain (fuel : nat) (sys : RibSys) (F : FibMap) : outcome (RibSys * FibMap) :=
  match sy_commands sys, fuel with
  | [], _ => Ok (sys, F)
  | _, O => Fault Diverges
  | c :: _, S fuel' =>
      match answer 0 Succeeds sys with
      | Ok (_, sys') => drain fuel' sys' (runCommand c F)
      | Fault e => Fault e
      end
  end.
Fixpoint runUpdates (us : list RibUpdate) (sys : RibSys) (F : FibMap) : outcome (RibSys * FibMap) :=
  match us with
  | [] => Ok (sys, F)
  | u :: us' =>
      match beginApplyUpdate u None None sys with
      | Ok (_, sys1) =>
          match drain 100 sys1 F with
          | Ok (sys2, F2) => runUpdates us' sys2 F2
          | Fault e => Fault e
          end
      | Fault e => Fault e
      end
  end.
Definition noFib : FibMap := fun _ _ => None.

Definition comp (b : Z) : Component := mkComponent 8 [b].
Definition nA : Name := [comp 97].
Definition nAB : Name := [comp 97; comp 98].
Definition nABC : Name := [comp 97; comp 98; comp 99].
Definition route (face origin cost flags : Z) : Route := mkRoute face origin cost flags None None 0 None.
Definition reg (n : Name) (r : Route) : RibUpdate := mkRibUpdate REGISTER n r.
Definition unreg (n : Name) (r : Route) : RibUpdate := mkRibUpdate UNREGISTER n r.

(** The next hop of the FIB and the one the RIB asks for. *)
Definition compareAt (n : Name) (f : Z) (o : outcome (RibSys * FibMap)) : outcome (option Z * option Z) :=
  match o with
  | Ok (sys, F) => Ok (F n f, expectedCost (ribView (sy_rib sys)) n f)
  | Fault e => Fault e
  end.

(** ** The hypotheses of the theorems *)

(** Entries created out of order, two of them shared by several routes, one
    emptied in the middle of the tree. *)
Lemma rib_runs_safely_witness :
  let ops := [OpInsert nABC (route 1 0 5 0); OpInsert nA (route 2 0 5 1); OpInsert nAB (route 1 0 9 0);
              OpInsert nAB (route 1 255 9 0); OpErase nAB (route 1 0 0 0); OpErase nAB (route 1 255 0 0);
              OpErase nAB (route 1 255 0 0)] in
  Forall ribOp_ok ops ∧
  ∃ s, forM_ ops ribStep Rib_init = Ok (tt, s) ∧ rb_nItems s = 2 ∧
    ∃ r, Rib_find s nABC = Some r ∧ findParent s nABC = Rib_find s nA ∧
      ∃ e, rb_heap s !! r = Some e ∧ re_parent e = Rib_find s nA.
Proof.
  intros ops. assert (Forall ribOp_ok ops) as Hops by (repeat constructor; by vm_compute).
  split; [exact Hops|]. destruct (rib_runs_safely ops Hops) as (s & Hs & _ & Ht).
  exists s. split; [done|]. vm_compute in Hs. injection Hs as Hs.
  split; [by rewrite <-Hs; vm_compute|].
  assert (is_Some (Rib_find s nABC)) as [r Hr] by (rewrite <-Hs; vm_compute; eauto).
  destruct (Ht nABC r Hr) as (e & He & _ & _ & Hp & _).
  assert (findParent s nABC = Rib_find s nA) as Hpar by (rewrite <-Hs; by vm_compute).
  exists r. split_and!; [done..|]. exists e. by rewrite Hp.
Defined.

Lemma rib_fib_init : rib_fib Rib_init noFib.
Proof. split; [apply Rib_init_inv|done..]. Qed.


Lemma rib_update_applied_witness :
  let u := reg nA (route 1 0 5 1) in
  rib_fib (sy_rib RibSys_init) noFib ∧ idle RibSys_init ∧ updateSafe (sy_rib RibSys_init) u ∧
  ∃ sys1, beginApplyUpdate u (Some 7%nat) None RibSys_init = Ok (tt, sys1) ∧
    settles (commandFor (ribView Rib_init) (updateView (ribView Rib_init) u)) (fun sys' F' =>
      rib_fib (sy_rib sys') F' ∧ F' nA 1 = Some 5 ∧ sy_outputs sys' = [SuccessCallback 7]) sys1 noFib.
Proof.
  intros u. pose proof rib_fib_init as Hrf.
  assert (idle RibSys_init) as Hi by (by split_and!).
  assert (updateSafe (sy_rib RibSys_init) u) as Hs by (by split).
  split_and!; [done..|].
  destruct (rib_update_applied RibSys_init noFib u (Some 7%nat) None Hrf Hi Hs) as (sys1 & Hrun & Hset).
  exists sys1. split; [done|]. eapply settles_mono; [|exact Hset]. intros sys F (H1 & H2 & _ & H4).
  split; [done|]. split; [|done]. rewrite (rf_fib _ _ H1). destruct (sameCosts_spec _ _ H2) as (_ & -> & _). by vm_compute.
Defined.

(** ** Updates the FIB updater gets wrong *)

(** What the cheapest of the selected routes is. *)
Lemma lowestCost_loop_min p c l x :
  lowestCost_loop p c l = Some x →
  (c = Some x ∨ x ∈ l ∧ p x = true) ∧ ∀ y, (c = Some y ∨ y ∈ l ∧ p y = true) → rt_cost x ≤ rt_cost y.
Proof.
  revert c. induction l as [|r l IH]; intros c; cbn [lowestCost_loop].
  - intros ->. split; [by left|]. intros y [[= ->]|[?%elem_of_nil _]]; done.
  - intros [H1 H2]%IH. setoid_rewrite elem_of_cons. destruct (p r) eqn:Ep; [|split; [naive_solver|intros y]].
    + destruct c as [c|]; [case_bool_decide|]; (split; [naive_solver|]); intros y Hy;
        [destruct Hy as [[= <-]|Hy]; [specialize (H2 r ltac:(by left)); lia|]
        |destruct Hy as [Hy|[[->|Hy] ?]]; [auto|specialize (H2 c ltac:(by left)); lia|auto]|]; naive_solver.
    + intros [?|[[->|?] ?]]; [auto|congruence|auto].
Qed.
Lemma elem_of_updateFirst_key (route : Route) g l x :
  NoDup (map routeKey l) →
  x ∈ updateFirst (fun x => compareFaceIdAndOrigin x route) g l →
  (∃ y, y ∈ l ∧ routeKey y = routeKey route ∧ x = g y) ∨ x ∈ l ∧ routeKey x ≠ routeKey route.
Proof.
  induction l as [|y l IH]; cbn [updateFirst map]; [by intros _ ?%elem_of_nil|].
  intros [Hy Hnd]%NoDup_cons. rewrite compareFaceIdAndOrigin_key. case_bool_decide as E; intros [->|Hx]%elem_of_cons.
  - left. exists y. split; [left|done].
  - right. split; [by right|]. intros Ex. apply Hy. rewrite E, <-Ex. by apply list_elem_of_fmap_2.
  - right. split; [left|done].
  - destruct (IH Hnd Hx) as [(z & ? & ? & ?)|[? ?]]; [left; exists z; split_and!; [by right|done..]|right; split; [by right|done]].
Qed.

Lemma elem_of_updateFirst_other (route : Route) g l x :
  x ∈ l → routeKey x ≠ routeKey route → x ∈ updateFirst (fun x => compareFaceIdAndOrigin x route) g l.
Proof.
  induction l as [|y l IH]; [by intros ?%elem_of_nil|]. intros [->|Hx]%elem_of_cons Hk; cbn [updateFirst];
    rewrite compareFaceIdAndOrigin_key; case_bool_decide; [done|left|by right|right; auto].
Qed.

(** A change of cost can dereference a null pointer.  When the cheapest of
    several routes of a name on one face is registered again with a cost above
    another's, and none of these routes is inherited by longer names,
    [createFibUpdatesForUpdatedRoute] announces the route that is the cheapest
    now through [prevRoute], which only looks at child-inherit routes and is
    null. *)
Theorem reregister_null_route (sys : RibSys) (n : Name) (r : RibRef) (e : RibEntry) (route existing other : Route)
    (onSuccess onFailure : option CallbackId) :
  idle sys → Rib_find (sy_rib sys) n = Some r → rb_heap (sy_rib sys) !! r = Some e →
  NoDup (map routeKey (re_routes e)) → findRoute e route = Some existing →
  isChildInherit route = false →
  (∀ o, o ∈ re_routes e → rt_faceId o = rt_faceId route → routeKey o ≠ routeKey route →
     rt_cost existing < rt_cost o ∧ isChildInherit o = false) →
  other ∈ re_routes e → rt_faceId other = rt_faceId route → routeKey other ≠ routeKey route →
  rt_cost other < rt_cost route →
  beginApplyUpdate (mkRibUpdate REGISTER n route) onSuccess onFailure sys = Fault UndefinedBehaviour.
Proof.
  intros (Hq & Hp & Hc) Hr He Hnd Hf Hci Hall Ho Hof Hok Hcost.
  set (e' := set_re_routes (updateFirst (fun x => compareFaceIdAndOrigin x route)
    (set_rt_flags_cost_expires (rt_flags route) (rt_cost route) (rt_expires route)) (re_routes e)) e).
  assert (∀ x, x ∈ re_routes e' → rt_faceId x = rt_faceId route →
    isChildInherit x = false ∧ (rt_cost x = rt_cost route ∨ rt_cost existing < rt_cost x)) as Hx.
  { intros x [(y & Hy & Ek & ->)|[Hin Hk]]%elem_of_updateFirst_key Hxf; [|by destruct (Hall x); auto|done].
    split; [exact Hci|by left]. }
  assert (other ∈ re_routes e') as Ho' by (by apply elem_of_updateFirst_other).
  assert (∀ s up, createFibUpdatesForUpdatedRoute s e' route existing up = Fault UndefinedBehaviour) as Hfault.
  { intros s up. unfold createFibUpdatesForUpdatedRoute.
    destruct (getRouteWithLowestCostByFaceId e' (rt_faceId route)) as [m|] eqn:Em;
      [apply lowestCost_loop_min in Em as Hm; destruct Hm as [[?|[Hm Hmf]] Hmin]; [done|]|].
    2: { unfold getRouteWithLowestCostByFaceId in Em. rewrite lowestCost_loop_None in Em.
         specialize (Em other Ho'). by rewrite bool_decide_eq_false in Em. }
    specialize (Hmin other ltac:(right; split; [done|by apply bool_decide_eq_true])).
    apply bool_decide_eq_true in Hmf. destruct (Hx m Hm Hmf) as [_ [?|Hlt]]; [lia|].
    assert (getRouteWithLowestCostAndChildInheritByFaceId e' (rt_faceId route) = None) as ->.
    { apply lowestCost_loop_None. intros x Hin. case_bool_decide as Ef; [|done]. destruct (Hx x Hin Ef) as [E _].
      unfold isChildInherit in E. by rewrite land_1, E. }
    assert (rt_cost route ≠ rt_cost existing) by lia. rewrite (bool_decide_true (rt_cost route ≠ rt_cost existing)) by done.
    rewrite andb_false_r. unfold updatedRoute_cost. munfold. rewrite Em. cbn [deref lift].
    munfold. rewrite (bool_decide_false (rt_cost route ≤ rt_cost m)), (bool_decide_true (rt_cost existing < rt_cost m)) by lia. done. }
  unfold beginApplyUpdate, addUpdateToQueue, sendBatchFromQueue, RibUpdateBatch_add, onRib, zoom. munfold.
  cbn [rub_faceId ru_route]. rewrite (bool_decide_true (rt_faceId route = rt_faceId route)) by done.
  cbn [sy_rib set_sy_rib rb_updateBatches set_rb_updateBatches rub_updates]. rewrite Hq. cbn [app length].
  set (sys1 := set_sy_rib _ _). unfold sendBatchFromQueue_loop, computeAndSendFibUpdates, onRib, onUpdater, zoom. munfold.
  cbn [sys1 sy_rib set_sy_rib rb_updateBatches rb_isUpdateInProgress set_rb_updateBatches]. rewrite Hp. cbn.
  rewrite bool_decide_true by done. unfold assertM. munfold. cbn [sy_rib set_sy_rib sy_updater set_sy_updater].
  unfold computeUpdatesForRegistration. cbn [ru_name ru_route].
  set (rib := set_rb_updateBatches _ _). change (Rib_find rib n) with (Rib_find (sy_rib sys) n). rewrite Hr.
  change (rb_heap rib) with (rb_heap (sy_rib sys)). rewrite He. munfold. cbn [deref]. munfold. rewrite Hf.
  fold e'. by rewrite Hfault.
Qed.

Lemma reregister_null_route_witness :
  ∃ sys F, runUpdates [reg nA (route 1 0 5 0); reg nA (route 1 255 10 0)] RibSys_init noFib = Ok (sys, F) ∧
    idle sys ∧ beginApplyUpdate (reg nA (route 1 0 20 0)) None None sys = Fault UndefinedBehaviour.
Proof.
  do 2 eexists. split; [by vm_compute|]. split; [by split_and!|].
  eapply (reregister_null_route _ nA _ _ (route 1 0 20 0) (route 1 0 5 0) (route 1 255 10 0)); try by vm_compute.
  - repeat constructor; set_solver.
  - intros o Ho _ Hk. cbn in Ho. set_unfold in Ho. destruct Ho as [->|[->|[]]]; by vm_compute in Hk |- *.
  - right. left.
Defined.

Definition runs (us : list RibUpdate) : outcome (RibSys * FibMap) := runUpdates us RibSys_init noFib.

(** Unregistering the costlier of two routes on one face removes the next hop
    although the cheaper route is still registered. *)
Theorem unregister_costlier_removes_nexthop :
  compareAt nA 1 (runs [reg nA (route 1 0 5 0); reg nA (route 1 255 10 0)]) = Ok (Some 5, Some 5) ∧
  compareAt nA 1 (runs [reg nA (route 1 0 5 0); reg nA (route 1 255 10 0); unreg nA (route 1 255 10 0)]) =
    Ok (None, Some 5).
Proof. split; by vm_compute. Qed.

(** When the last route of a name is unregistered and it captured, longer names
    are not given the routes it held back. *)
Theorem erased_capture_not_inherited :
  compareAt nABC 1 (runs [reg nA (route 1 0 5 1); reg nAB (route 2 0 10 2); reg nABC (route 3 0 1 0);
    unreg nAB (route 2 0 0 0)]) = Ok (None, Some 5).
Proof. by vm_compute. Qed.

(** A name that inherits a face and then gets a route of its own on it loses its
    own next hop when the inherited route is unregistered. *)
Theorem stale_inherited_record :
  compareAt nAB 1 (runs [reg nA (route 1 0 5 1); reg nAB (route 2 0 10 0); reg nAB (route 1 0 9 0);
    unreg nA (route 1 0 0 0)]) = Ok (None, Some 9).
Proof. by vm_compute. Qed.

(** A child-inherit route registered again with another cost and other flags:
    longer names keep the old cost. *)
Theorem inherited_cost_kept :
  compareAt nAB 1 (runs [reg nA (route 1 0 5 1); reg nAB (route 2 0 10 0); reg nA (route 1 0 9 3)]) =
    Ok (Some 5, Some 9).
Proof. by vm_compute. Qed.

(** Child inheritance turned off on a name that captures: longer names get the
    route that the name holds back. *)
Theorem captured_route_leaks :
  compareAt nABC 1 (runs [reg nA (route 1 0 5 1); reg nAB (route 1 0 10 3); reg nABC (route 3 0 1 0);
    reg nAB (route 1 0 10 2)]) = Ok (Some 5, None).
Proof. by vm_compute. Qed.

(** The count of capturing routes is not adjusted when a route is registered
    again with the capture flag: the entry has a capturing route and
    [hasCapture] says it has none. *)
Theorem capture_count_stale :
  ∃ sys F, runs [reg nA (route 1 0 5 0); reg nA (route 1 0 5 2)] = Ok (sys, F) ∧
    ∃ v, ribView (sy_rib sys) nA = Some v ∧ existsb isRibCapture (viewRoutes v) = true ∧ viewCapture v = false.
Proof. eexists _, _. split; [by vm_compute|]. eexists. split_and!; by vm_compute. Qed.

(** After unregistering a route that was registered with a capture flag
    cleared, the count wraps around. *)
Theorem capture_count_wraps :
  ∃ sys F, runs [reg nA (route 1 0 5 0); reg nA (route 2 0 5 0); reg nA (route 1 0 5 2); unreg nA (route 1 0 0 0)] =
      Ok (sys, F) ∧
    ∃ v, ribView (sy_rib sys) nA = Some v ∧ existsb isRibCapture (viewRoutes v) = false ∧ viewCapture v = true.
Proof. eexists _, _. split; [by vm_compute|]. eexists. split_and!; by vm_compute. Qed.

(** A remove-nexthop command that times out is sent again as an add-nexthop:
    the route is unregistered and the FIB keeps a next hop for it. *)
Theorem timeout_resends_as_add :
  ∃ sys F sys1 sys2 sys3 F3,
    runs [reg nA (route 1 0 5 0)] = Ok (sys, F) ∧
    beginApplyUpdate (unreg nA (route 1 0 0 0)) None None sys = Ok (tt, sys1) ∧
    map fc_verb (sy_commands sys1) = [REMOVE_NEXTHOP] ∧
    answer 0 (Fails ERROR_TIMEOUT) sys1 = Ok (tt, sys2) ∧
    map fc_verb (sy_commands sys2) = [ADD_NEXTHOP] ∧
    drain 1 sys2 F = Ok (sys3, F3) ∧ idle sys3 ∧
    ribView (sy_rib sys3) nA = None ∧ F3 nA 1 = Some 0.
Proof.
  do 6 eexists. split; [by vm_compute|]. do 5 (split; [by vm_compute|]). split; [by split_and!|]. split; by vm_compute.
Qed.

(** Two commands for the face of an update that both fail because the face is
    gone: the manager is told twice. *)
Theorem failure_reported_twice :
  ∃ sys F sys1 sys2 sys3,
    runs [reg nAB (route 2 0 10 0)] = Ok (sys, F) ∧
    beginApplyUpdate (reg nA (route 1 0 5 1)) None (Some 7%nat) sys = Ok (tt, sys1) ∧
    answer 0 (Fails ERROR_FACE_NOT_FOUND) sys1 = Ok (tt, sys2) ∧
    answer 0 (Fails ERROR_FACE_NOT_FOUND) sys2 = Ok (tt, sys3) ∧
    sy_outputs sys3 = [FailureCallback 7 ERROR_FACE_NOT_FOUND; FailureCallback 7 ERROR_FACE_NOT_FOUND].
Proof. do 5 eexists. do 4 (split; [by vm_compute|]). by vm_compute. Qed.
