(* ===== verification/ControlParams.v ===== *)
(** * Parameters and responses of management commands
    (ndn-cxx [mgmt/nfd/control-parameters.hpp], [control-parameters.cpp],
    [mgmt/control-response.cpp])

    The parameters are a map from the fields of the protocol to their values,
    with the cached wire encoding.  The source keeps a bit per field and a member
    per value; a value whose bit is not set cannot be read. *)

From S2P Require Import Prelude Tlv Component Name Encoding.
Local Open Scope Z_scope.

(** ** Fields *)

Inductive ControlParameterField : Type :=
| CONTROL_PARAMETER_NAME
| CONTROL_PARAMETER_FACE_ID
| CONTROL_PARAMETER_URI
| CONTROL_PARAMETER_LOCAL_URI
| CONTROL_PARAMETER_ORIGIN
| CONTROL_PARAMETER_COST
| CONTROL_PARAMETER_CAPACITY
| CONTROL_PARAMETER_COUNT
| CONTROL_PARAMETER_FLAGS
| CONTROL_PARAMETER_MASK
| CONTROL_PARAMETER_STRATEGY
| CONTROL_PARAMETER_EXPIRATION_PERIOD
| CONTROL_PARAMETER_FACE_PERSISTENCY
| CONTROL_PARAMETER_BASE_CONGESTION_MARKING_INTERVAL
| CONTROL_PARAMETER_DEFAULT_CONGESTION_THRESHOLD
| CONTROL_PARAMETER_MTU.
#[export] Instance ControlParameterField_eq_dec : EqDecision ControlParameterField.
Proof. solve_decision. Defined.

(** In the order of the enumeration, below [CONTROL_PARAMETER_UBOUND]. *)
Definition controlParameterFields : list ControlParameterField :=
  [CONTROL_PARAMETER_NAME; CONTROL_PARAMETER_FACE_ID; CONTROL_PARAMETER_URI; CONTROL_PARAMETER_LOCAL_URI;
   CONTROL_PARAMETER_ORIGIN; CONTROL_PARAMETER_COST; CONTROL_PARAMETER_CAPACITY; CONTROL_PARAMETER_COUNT;
   CONTROL_PARAMETER_FLAGS; CONTROL_PARAMETER_MASK; CONTROL_PARAMETER_STRATEGY;
   CONTROL_PARAMETER_EXPIRATION_PERIOD; CONTROL_PARAMETER_FACE_PERSISTENCY;
   CONTROL_PARAMETER_BASE_CONGESTION_MARKING_INTERVAL; CONTROL_PARAMETER_DEFAULT_CONGESTION_THRESHOLD;
   CONTROL_PARAMETER_MTU].

(** The type of a member: names, strings, numbers; durations are the signed
    counts of [time::milliseconds] and [time::nanoseconds]. *)
Definition fieldType (f : ControlParameterField) : Type :=
  match f with
  | CONTROL_PARAMETER_NAME | CONTROL_PARAMETER_STRATEGY => Name
  | CONTROL_PARAMETER_URI | CONTROL_PARAMETER_LOCAL_URI => list Z
  | _ => Z
  end.

Definition fieldTlv (f : ControlParameterField) : Z :=
  match f with
  | CONTROL_PARAMETER_NAME => tlv_Name
  | CONTROL_PARAMETER_FACE_ID => 105
  | CONTROL_PARAMETER_URI => 114
  | CONTROL_PARAMETER_LOCAL_URI => 129
  | CONTROL_PARAMETER_ORIGIN => 111
  | CONTROL_PARAMETER_COST => 106
  | CONTROL_PARAMETER_CAPACITY => 131
  | CONTROL_PARAMETER_COUNT => 132
  | CONTROL_PARAMETER_FLAGS => 108
  | CONTROL_PARAMETER_MASK => 112
  | CONTROL_PARAMETER_STRATEGY => 107
  | CONTROL_PARAMETER_EXPIRATION_PERIOD => 109
  | CONTROL_PARAMETER_FACE_PERSISTENCY => 133
  | CONTROL_PARAMETER_BASE_CONGESTION_MARKING_INTERVAL => 135
  | CONTROL_PARAMETER_DEFAULT_CONGESTION_THRESHOLD => 136
  | CONTROL_PARAMETER_MTU => 137
  end.
Definition tlv_ControlParameters : Z := 104.
Definition tlv_ControlResponse : Z := 101.
Definition tlv_StatusCode : Z := 102.
Definition tlv_StatusText : Z := 103.

(** ** Parameters *)

Abbreviation Fields := (∀ f : ControlParameterField, option (fieldType f)).
Record ControlParameters := mkControlParameters { cp_fields : Fields; cp_wire : option Wire }.
Definition noFields : Fields := fun _ => None.
Definition ControlParameters_new : ControlParameters := mkControlParameters noFields None.

Definition updField (f : ControlParameterField) (v : option (fieldType f)) (fs : Fields) : Fields :=
  fun g => match decide (f = g) with
           | left E => eq_rect f (fun x => option (fieldType x)) v g E
           | right _ => fs g
           end.

(** The getters and modifiers: [hasX], [getX], [setX] and [unsetX]. *)
Definition hasField (f : ControlParameterField) (p : ControlParameters) : bool :=
  match cp_fields p f with Some _ => true | None => false end.
Definition getField (f : ControlParameterField) (p : ControlParameters) : outcome (fieldType f) :=
  match cp_fields p f with Some v => Ok v | None => Fault AssertFailed end.
Definition setField (f : ControlParameterField) (v : fieldType f) (p : ControlParameters) : ControlParameters :=
  mkControlParameters (updField f (Some v) (cp_fields p)) None.
Definition unsetField (f : ControlParameterField) (p : ControlParameters) : ControlParameters :=
  mkControlParameters (updField f None (cp_fields p)) None.

(** ** Encoding *)

Definition encodeField (f : ControlParameterField) : fieldType f → list Z → list Z :=
  match f with
  | CONTROL_PARAMETER_NAME => fun v enc => Name_wireEncode v enc
  | CONTROL_PARAMETER_STRATEGY =>
      fun v enc => prependNestedBlock Name_wireEncode (fieldTlv CONTROL_PARAMETER_STRATEGY) [v] enc
  | CONTROL_PARAMETER_URI => prependBinaryBlock (fieldTlv CONTROL_PARAMETER_URI)
  | CONTROL_PARAMETER_LOCAL_URI => prependBinaryBlock (fieldTlv CONTROL_PARAMETER_LOCAL_URI)
  | CONTROL_PARAMETER_EXPIRATION_PERIOD as f
  | CONTROL_PARAMETER_BASE_CONGESTION_MARKING_INTERVAL as f =>
      fun v => prependNonNegativeIntegerBlock (fieldTlv f) (u64 v)
  | f => prependNonNegativeIntegerBlock (fieldTlv f)
  end.
(** [wireEncode(encoder)]: the last field is prepended first. *)
Definition ControlParameters_wireEncode_to (p : ControlParameters) (enc : list Z) : list Z :=
  let body := foldr (fun f enc =>
    match cp_fields p f with Some v => encodeField f v enc | None => enc end) [] controlParameterFields in
  prependVarNumber tlv_ControlParameters (prependVarNumber (Z.of_nat (length body)) (body ++ enc)).
Definition ControlParameters_wireEncode : ME ControlParameters Wire :=
  p ← getE id;
  match cp_wire p with
  | Some wire => mret wire
  | None =>
      wire ← liftE (Wire_ofSpan (ControlParameters_wireEncode_to p []));
      _ ← modifyE (fun p => mkControlParameters (cp_fields p) (Some wire));
      mret wire
  end.

(** ** Decoding *)

Definition UINT16_MAX : Z := 65535.
Definition UINT8_MAX : Z := 255.
Definition decodeField (f : ControlParameterField) (val : Wire) : outcome (fieldType f) :=
  match f with
  | CONTROL_PARAMETER_NAME => Name_wireDecode (wire_block val)
  | CONTROL_PARAMETER_STRATEGY =>
      elements ← Wire_subs val;
      match elements with
      | [] => Fault (Throw TlvError)
      | e :: _ => Name_wireDecode (wire_block e)
      end
  | CONTROL_PARAMETER_URI | CONTROL_PARAMETER_LOCAL_URI => Ok (w_value val)
  | CONTROL_PARAMETER_ORIGIN => readNonNegativeIntegerAs UINT16_MAX (wire_block val)
  | CONTROL_PARAMETER_FACE_PERSISTENCY => readNonNegativeIntegerAs UINT8_MAX (wire_block val)
  | CONTROL_PARAMETER_EXPIRATION_PERIOD | CONTROL_PARAMETER_BASE_CONGESTION_MARKING_INTERVAL =>
      v ← readNonNegativeInteger_block (wire_block val); Ok (i64 v)
  | _ => readNonNegativeInteger_block (wire_block val)
  end.
(** [wireDecode], into a new object; each field takes the first element of its
    type. *)
Fixpoint decodeFields (todo : list ControlParameterField) (elements : list Wire) (fs : Fields) : outcome Fields :=
  match todo with
  | [] => Ok fs
  | f :: todo' =>
      match findWire (fieldTlv f) elements with
      | None => decodeFields todo' elements (updField f None fs)
      | Some val => v ← decodeField f val; decodeFields todo' elements (updField f (Some v) fs)
      end
  end.
Definition ControlParameters_ofWire (block : Wire) : outcome ControlParameters :=
  if bool_decide (w_type block ≠ tlv_ControlParameters) then Fault (Throw TlvError)
  else
    elements ← Wire_subs block;
    fs ← decodeFields controlParameterFields elements noFields;
    Ok (mkControlParameters fs (Some block)).

(** ** Flag bits *)

(** [1 << bit] on [int]: bit 31 is the sign, more is undefined. *)
Definition shift1 (bit : Z) : outcome Z :=
  if bool_decide (bit < 31) then Ok (Z.shiftl 1 bit)
  else if bool_decide (bit = 31) then Ok (- 2 ^ 31)
  else Fault UndefinedBehaviour.
Definition orZero (v : option Z) : Z := match v with Some v => v | None => 0 end.
Definition hasFlagBit (bit : Z) (p : ControlParameters) : outcome bool :=
  if bool_decide (64 ≤ bit) then Fault (Throw OutOfRange)
  else
    match cp_fields p CONTROL_PARAMETER_MASK with
    | None => Ok false
    | Some mask => one ← shift1 bit; Ok (negb (bool_decide (Z.land mask (u64 one) = 0)))
    end.
Definition getFlagBit (bit : Z) (p : ControlParameters) : outcome bool :=
  if bool_decide (64 ≤ bit) then Fault (Throw OutOfRange)
  else
    match cp_fields p CONTROL_PARAMETER_FLAGS with
    | None => Ok false
    | Some flags => one ← shift1 bit; Ok (negb (bool_decide (Z.land flags (u64 one) = 0)))
    end.
Definition setFlagBit (bit : Z) (value wantMask : bool) (p : ControlParameters) : outcome ControlParameters :=
  if bool_decide (64 ≤ bit) then Fault (Throw OutOfRange)
  else
    one ← shift1 bit;
    let flags := orZero (cp_fields p CONTROL_PARAMETER_FLAGS) in
    let flags := if value then Z.lor flags (u64 one) else Z.land flags (u64 (Z.lnot one)) in
    let p := setField CONTROL_PARAMETER_FLAGS flags p in
    if wantMask then
      let mask := orZero (cp_fields p CONTROL_PARAMETER_MASK) in
      Ok (setField CONTROL_PARAMETER_MASK (Z.lor mask (u64 one)) p)
    else Ok p.
Definition unsetFlagBit (bit : Z) (p : ControlParameters) : outcome ControlParameters :=
  if bool_decide (64 ≤ bit) then Fault (Throw OutOfRange)
  else
    one ← shift1 bit;
    let mask := Z.land (orZero (cp_fields p CONTROL_PARAMETER_MASK)) (u64 (Z.lnot one)) in
    if bool_decide (mask = 0)
    then Ok (unsetField CONTROL_PARAMETER_FLAGS (unsetField CONTROL_PARAMETER_MASK p))
    else Ok (setField CONTROL_PARAMETER_MASK mask p).

(** ** Responses *)

Record ControlResponse := mkControlResponse {
  cr_code : Z;
  cr_text : list Z;
  cr_body : option Wire;
  cr_wire : option Wire
}.
(** [ControlResponse(code, text)], [setCode], [setText] and [setBody]. *)
Definition ControlResponse_make (code : Z) (text : list Z) : ControlResponse := mkControlResponse code text None None.
Definition setCode (code : Z) (r : ControlResponse) : ControlResponse :=
  mkControlResponse code (cr_text r) (cr_body r) None.
Definition setText (text : list Z) (r : ControlResponse) : ControlResponse :=
  mkControlResponse (cr_code r) text (cr_body r) None.
Definition setBody (body : Wire) (r : ControlResponse) : ControlResponse :=
  mkControlResponse (cr_code r) (cr_text r) (Some body) None.
(** The elements pushed by [wireEncode]. *)
Definition responseElements (r : ControlResponse) : list Wire :=
  [makeBinaryBlock tlv_StatusCode (prependNonNegativeInteger (cr_code r) []);
   makeBinaryBlock tlv_StatusText (cr_text r)] ++
  match cr_body r with Some b => [b] | None => [] end.
Definition ControlResponse_wireEncode : ME ControlResponse Wire :=
  r ← getE id;
  match cr_wire r with
  | Some wire => mret wire
  | None =>
      let wire := Wire_ofBlock (Build_Block tlv_ControlResponse (wiresBytes (responseElements r) []))
                    (map wire_block (responseElements r)) in
      _ ← modifyE (fun r => mkControlResponse (cr_code r) (cr_text r) (cr_body r) (Some wire));
      mret wire
  end.
(** [wireDecode], into a new object. *)
Definition ControlResponse_ofWire (wire : Wire) : outcome ControlResponse :=
  if bool_decide (w_type wire ≠ tlv_ControlResponse) then Fault (Throw TlvError)
  else
    elements ← Wire_subs wire;
    match elements with
    | [] => Fault (Throw TlvError)
    | e :: elements =>
        if bool_decide (w_type e ≠ tlv_StatusCode) then Fault (Throw TlvError)
        else
          code ← readNonNegativeIntegerAs UINT32_MAX (wire_block e);
          match elements with
          | [] => Fault (Throw TlvError)
          | e :: elements =>
              if bool_decide (w_type e ≠ tlv_StatusText) then Fault (Throw TlvError)
              else Ok (mkControlResponse code (w_value e) (head elements) (Some wire))
          end
    end.

(** ** Fields as a map *)

Lemma updField_same f v fs : updField f v fs f = v.
Proof.
  unfold updField. destruct (decide (f = f)) as [E|]; [|done].
  by rewrite (Eqdep_dec.UIP_dec (fun x y => decide (x = y)) E eq_refl).
Qed.
Lemma updField_other f v fs g : f ≠ g → updField f v fs g = fs g.
Proof. unfold updField. intros H. by destruct (decide (f = g)). Qed.
Lemma fields_complete f : f ∈ controlParameterFields.
Proof. apply list_elem_of_In. destruct f; simpl; tauto. Qed.
Lemma fieldTlv_inj : Inj (=) (=) fieldTlv.
Proof. intros f g. by destruct f, g. Qed.
Lemma fieldTlv_range f : 0 < fieldTlv f < 2 ^ 32.
Proof. destruct f; cbv; split; reflexivity. Qed.

(** ** The elements that are written *)

Definition fieldValue (f : ControlParameterField) : fieldType f → list Z :=
  match f with
  | CONTROL_PARAMETER_NAME => fun v => foldr Component_wireEncode [] v
  | CONTROL_PARAMETER_STRATEGY => fun v => w_bytes (nameWire v)
  | CONTROL_PARAMETER_URI | CONTROL_PARAMETER_LOCAL_URI => fun v => v
  | CONTROL_PARAMETER_EXPIRATION_PERIOD | CONTROL_PARAMETER_BASE_CONGESTION_MARKING_INTERVAL =>
      fun v => prependNonNegativeInteger (u64 v) []
  | _ => fun v => prependNonNegativeInteger v []
  end.
Definition fieldWire (f : ControlParameterField) (v : fieldType f) : Wire :=
  makeBinaryBlock (fieldTlv f) (fieldValue f v).
Definition writtenFields (fs : Fields) (l : list ControlParameterField) : list Wire :=
  omap (fun f => fieldWire f <$> fs f) l.
Definition paramsWire (fs : Fields) : Wire :=
  makeBinaryBlock tlv_ControlParameters (wiresBytes (writtenFields fs controlParameterFields) []).

(** What the type of a member guarantees, and well-formed names. *)
Definition field_ok (f : ControlParameterField) : fieldType f → Prop :=
  match f with
  | CONTROL_PARAMETER_NAME | CONTROL_PARAMETER_STRATEGY => name_wf
  | CONTROL_PARAMETER_URI | CONTROL_PARAMETER_LOCAL_URI => bytes_ok
  | CONTROL_PARAMETER_EXPIRATION_PERIOD | CONTROL_PARAMETER_BASE_CONGESTION_MARKING_INTERVAL =>
      fun v => - 2 ^ 63 ≤ v < 2 ^ 63
  | CONTROL_PARAMETER_ORIGIN => fun v => 0 ≤ v ≤ UINT16_MAX
  | CONTROL_PARAMETER_FACE_PERSISTENCY => fun v => 0 ≤ v ≤ UINT8_MAX
  | _ => is_u64
  end.
Definition fields_ok (fs : Fields) : Prop :=
  (∀ f v, fs f = Some v → field_ok f v) ∧ small (writtenFields fs controlParameterFields).

Lemma encodeField_make f v enc : encodeField f v enc = prependBlock (fieldWire f v) enc.
Proof.
  unfold fieldWire. rewrite prependBlock_make.
  by destruct f.
Qed.
Lemma wireEncode_to_make p enc : ControlParameters_wireEncode_to p enc = prependBlock (paramsWire (cp_fields p)) enc.
Proof.
  unfold ControlParameters_wireEncode_to, paramsWire. rewrite prependBlock_make.
  assert (∀ l, foldr (fun f enc => match cp_fields p f with Some v => encodeField f v enc | None => enc end) [] l =
    wiresBytes (writtenFields (cp_fields p) l) []) as ->; [|done].
  induction l as [|f l IH]; [done|]. cbn [foldr writtenFields omap list_omap]. rewrite IH.
  destruct (cp_fields p f) as [v|]; [|done]. cbn [fmap option_fmap option_map]. by rewrite encodeField_make.
Qed.

Lemma nameWire_closed v :
  name_wf v → Z.of_nat (length (w_bytes (nameWire v))) < 2 ^ 63 → Wire_closed (nameWire v).
Proof.
  intros Hv Hl. unfold nameWire in *. apply makeBinaryBlock_closed; [done| |by apply Name_value_bytes].
  pose proof (value_le_bytes tlv_Name (foldr Component_wireEncode [] v)). lia.
Qed.
Lemma fieldWire_closed f v :
  field_ok f v → Z.of_nat (length (w_bytes (fieldWire f v))) < 2 ^ 63 → Wire_closed (fieldWire f v).
Proof.
  intros Hv Hl. unfold fieldWire in *. pose proof (value_le_bytes (fieldTlv f) (fieldValue f v)) as Hle.
  apply makeBinaryBlock_closed; [apply fieldTlv_range|lia|].
  destruct f; cbn [fieldValue field_ok] in *; try apply prependNonNegativeInteger_bytes; try assumption.
  - by apply Name_value_bytes.
  - apply nameWire_closed; [done|lia].
Qed.
Lemma writtenFields_closed fs l :
  (∀ f v, fs f = Some v → field_ok f v) → small (writtenFields fs l) → Forall Wire_closed (writtenFields fs l).
Proof.
  intros Hok Hs. apply Forall_forall. intros w Hw. pose proof (small_in _ _ Hw Hs) as Hl.
  apply list_elem_of_omap in Hw as (f & _ & Hf). destruct (fs f) as [v|] eqn:E; [|done].
  injection Hf as <-. apply fieldWire_closed; auto.
Qed.

(** ** Decoding what was written *)

Lemma decodeField_written f v :
  field_ok f v → Z.of_nat (length (w_bytes (fieldWire f v))) < 2 ^ 63 → decodeField f (fieldWire f v) = Ok v.
Proof.
  intros Hv Hl. assert (∀ type n, is_u64 n →
    readNonNegativeInteger_block (wire_block (makeBinaryBlock type (prependNonNegativeInteger n []))) = Ok n) as Hnum.
  { intros type n Hn. by apply readNonNegativeInteger_block_written. }
  assert (∀ type m n, 0 ≤ n ≤ m → m < 2 ^ 64 →
    readNonNegativeIntegerAs m (wire_block (makeBinaryBlock type (prependNonNegativeInteger n []))) = Ok n) as Hmax.
  { intros type m n Hn Hm. unfold readNonNegativeIntegerAs. rewrite Hnum by (unfold is_u64; lia). cbn.
    by rewrite bool_decide_false by lia. }
  pose proof (value_le_bytes (fieldTlv f) (fieldValue f v)) as Hle. fold (fieldWire f v) in Hle.
  destruct f; cbn [decodeField field_ok fieldValue] in *; unfold fieldWire; cbn [fieldValue];
    try (by apply Hnum); try (by apply Hmax); try done.
  - by apply Name_wireDecode_nameWire.
  - assert (Wire_closed (nameWire v)) as Hc by (apply nameWire_closed; [done|lia]).
    pose proof (Wire_subs_make 107 [nameWire v] ltac:(by constructor)) as Hsubs.
    cbn [wiresBytes foldr prependBlock] in Hsubs. unfold prependBlock in Hsubs. rewrite app_nil_r in Hsubs.
    change (fieldTlv CONTROL_PARAMETER_STRATEGY) with 107. rewrite Hsubs. cbn. by apply Name_wireDecode_nameWire.
  - rewrite Hnum by (unfold is_u64, u64; apply Z.mod_pos_bound; lia). cbn. by rewrite i64_u64.
  - rewrite Hnum by (unfold is_u64, u64; apply Z.mod_pos_bound; lia). cbn. by rewrite i64_u64.
Qed.
Lemma findWire_written fs l f :
  NoDup l → f ∈ l → findWire (fieldTlv f) (writtenFields fs l) = fieldWire f <$> fs f.
Proof.
  intros Hnd Hf. induction Hnd as [|g l Hg Hnd IH]; [by apply elem_of_nil in Hf|].
  assert (∀ l, f ∉ l → findWire (fieldTlv f) (writtenFields fs l) = None) as Hnone.
  { clear. induction l as [|g l IH]; [done|]. intros [Hne Hl]%not_elem_of_cons. cbn [writtenFields omap list_omap].
    destruct (fs g); [|by apply IH]. cbn. rewrite bool_decide_false; [by apply IH|].
    intros E%fieldTlv_inj. by subst. }
  cbn [writtenFields omap list_omap]. apply elem_of_cons in Hf as [<-|Hf].
  - destruct (fs f) as [v|]; cbn; [by rewrite bool_decide_true|]. by apply Hnone.
  - destruct (fs g) as [v|]; cbn; [|by apply IH]. rewrite bool_decide_false; [by apply IH|].
    intros E%fieldTlv_inj. by subst.
Qed.
Lemma decodeFields_written fs ws l acc :
  (∀ f, f ∈ l → findWire (fieldTlv f) ws = fieldWire f <$> fs f) →
  (∀ f v, fs f = Some v → decodeField f (fieldWire f v) = Ok v) → NoDup l →
  ∃ fs', decodeFields l ws acc = Ok fs' ∧ ∀ g, fs' g = if decide (g ∈ l) then fs g else acc g.
Proof.
  intros Hfind Hdec. revert acc. induction l as [|f l IH]; intros acc Hnd; [by exists acc|].
  apply NoDup_cons in Hnd as [Hf Hnd]. cbn [decodeFields]. rewrite Hfind by by left.
  assert (∀ v, fs f = v → ∃ fs', decodeFields l ws (updField f v acc) = Ok fs' ∧
    ∀ g, fs' g = if decide (g ∈ f :: l) then fs g else acc g) as Hgo.
  { intros v Ev. destruct (IH (fun g Hg => Hfind g (list_elem_of_further g f l Hg))
      (updField f v acc) Hnd) as (fs' & -> & Hfs). exists fs'. split; [done|]. intros g. rewrite Hfs.
    destruct (decide (g ∈ l)) as [Hg|Hg]; [by rewrite decide_True by by right|].
    destruct (decide (f = g)) as [<-|Hne]; [by rewrite updField_same, decide_True by by left|].
    rewrite updField_other by done. rewrite decide_False; [done|]. set_solver. }
  destruct (fs f) as [v|] eqn:Ev; cbn [fmap option_fmap option_map]; [|by apply Hgo].
  rewrite Hdec by done. cbn. by apply Hgo.
Qed.
Lemma fields_NoDup : NoDup controlParameterFields.
Proof. apply (bool_decide_unpack _). by vm_compute. Qed.
Lemma paramsWire_subs fs :
  fields_ok fs → Wire_subs (paramsWire fs) = Ok (writtenFields fs controlParameterFields).
Proof. intros [Hok Hs]. by apply Wire_subs_make, writtenFields_closed. Qed.
Lemma params_fields fs :
  fields_ok fs →
  ∃ fs', decodeFields controlParameterFields (writtenFields fs controlParameterFields) noFields = Ok fs' ∧
    ∀ f, fs' f = fs f.
Proof.
  intros [Hok Hs].
  destruct (decodeFields_written fs (writtenFields fs controlParameterFields) controlParameterFields noFields)
    as (fs' & Hd & Hfs); [intros f Hf; apply findWire_written; [apply fields_NoDup|exact Hf]| |apply fields_NoDup|].
  - intros f v Hv. apply decodeField_written; [by apply Hok|].
    eapply small_in; [|exact Hs]. apply list_elem_of_omap. exists f. split; [apply fields_complete|by rewrite Hv].
  - exists fs'. split; [exact Hd|]. intros f. rewrite Hfs. destruct (decide _) as [|Hn]; [done|]. by destruct (Hn (fields_complete f)).
Qed.
Lemma paramsWire_type fs : w_type (paramsWire fs) = tlv_ControlParameters.
Proof. reflexivity. Qed.
Lemma params_decode fs :
  fields_ok fs →
  ∃ fs', ControlParameters_ofWire (paramsWire fs) = Ok (mkControlParameters fs' (Some (paramsWire fs))) ∧
    ∀ f, fs' f = fs f.
Proof.
  intros Hok. destruct (params_fields fs Hok) as (fs' & Hd & Hfs). exists fs'. split; [|exact Hfs].
  unfold ControlParameters_ofWire. pose proof (paramsWire_subs fs Hok) as Hsubs. pose proof (paramsWire_type fs) as Ht.
  revert Hsubs Ht. generalize (paramsWire fs). intros w Hsubs Ht. rewrite Hsubs.
  rewrite bind_Ok, Hd, bind_Ok. case_bool_decide as E; [congruence|reflexivity].
Qed.

(** ** Properties *)

(** The cached wire is an element that decodes to the fields. *)
Definition params_coherent (p : ControlParameters) : Prop :=
  ∀ w, cp_wire p = Some w →
    Wire_closed w ∧ ∃ q, ControlParameters_ofWire w = Ok q ∧ ∀ f, cp_fields q f = cp_fields p f.

Lemma paramsWire_closed fs : fields_ok fs → Wire_closed (paramsWire fs).
Proof. intros [Hok Hs]. by apply nested_closed; [|apply writtenFields_closed|]. Qed.
Lemma wireEncode_fresh p :
  cp_wire p = None → fields_ok (cp_fields p) →
  ControlParameters_wireEncode p =
    (Ok (paramsWire (cp_fields p)), mkControlParameters (cp_fields p) (Some (paramsWire (cp_fields p)))).
Proof.
  intros Hw Hok. unfold ControlParameters_wireEncode. rewrite (bindE _ _ p p p), Hw, wireEncode_to_make by done.
  destruct (paramsWire_closed _ Hok) as [Hspan _]. revert Hspan. generalize (paramsWire (cp_fields p)). intros w Hspan.
  assert (Wire_ofSpan (prependBlock w []) = Ok w) as -> by apply Hspan. done.
Qed.
Lemma fields_ok_ext (fs fs' : Fields) : (∀ f, fs' f = fs f) → fields_ok fs → fields_ok fs'.
Proof.
  intros E [H1 H2]. split; [intros f v Hf; apply H1; by rewrite <-E|].
  assert (∀ l, writtenFields fs' l = writtenFields fs l) as ->; [|done].
  induction l as [|f l IH]; [done|]. cbn [writtenFields omap list_omap]. rewrite E. destruct (fs f); [|exact IH].
  cbn [fmap option_fmap option_map]. f_equal. exact IH.
Qed.
Lemma wireEncode_spec p :
  params_coherent p → fields_ok (cp_fields p) →
  ∃ w q, ControlParameters_wireEncode p = (Ok w, mkControlParameters (cp_fields p) (Some w)) ∧ Wire_closed w ∧
    ControlParameters_ofWire w = Ok q ∧ ∀ f, cp_fields q f = cp_fields p f.
Proof.
  intros Hc Hok. destruct (cp_wire p) as [w|] eqn:Ew.
  - destruct (Hc w Ew) as (Hw & q & Hq & Hf). exists w, q. split_and!; [|done..].
    unfold ControlParameters_wireEncode. rewrite (bindE _ _ p p p), Ew by done. destruct p. cbn in Ew. by subst.
  - destruct (params_decode _ Hok) as (fs' & Hd & Hfs). eexists _, _. rewrite (wireEncode_fresh p Ew Hok).
    split_and!; [done|by apply paramsWire_closed|exact Hd|exact Hfs].
Qed.

(** Parameters made by the constructors and modified by the operations of the
    class; values have the types of the members. *)
Inductive params_made : ControlParameters → Prop :=
| made_new : params_made ControlParameters_new
| made_decoded w p : Wire_closed w → ControlParameters_ofWire w = Ok p → params_made p
| made_set f v p : params_made p → params_made (setField f v p)
| made_unset f p : params_made p → params_made (unsetField f p)
| made_setFlagBit bit value wantMask p q :
    params_made p → setFlagBit bit value wantMask p = Ok q → params_made q
| made_unsetFlagBit bit p q : params_made p → unsetFlagBit bit p = Ok q → params_made q
| made_encoded p w q :
    params_made p → fields_ok (cp_fields p) → ControlParameters_wireEncode p = (Ok w, q) → params_made q.

Lemma made_coherent p : params_made p → params_coherent p.
Proof.
  induction 1 as [|w p Hcl Hd|f v p _ _|f p _ _|bit value wantMask p q _ IH Hq|bit p q _ IH Hq|p w q _ IH Hok Hq].
  - done.
  - intros w' Hw. assert (w' = w) as ->; [|by split; [|exists p]]. unfold ControlParameters_ofWire in Hd. case_bool_decide; [done|].
    apply bind_Ok_inv in Hd as (els & _ & Hd). apply bind_Ok_inv in Hd as (fs & _ & Hd). injection Hd as <-.
    by injection Hw as ->.
  - done.
  - done.
  - unfold setFlagBit in Hq. case_bool_decide; [done|]. apply bind_Ok_inv in Hq as (one & _ & Hq).
    destruct wantMask; by injection Hq as <-.
  - unfold unsetFlagBit in Hq. case_bool_decide; [done|]. apply bind_Ok_inv in Hq as (one & _ & Hq).
    case_bool_decide; by injection Hq as <-.
  - destruct (wireEncode_spec p IH Hok) as (w' & r & Hr & Hcl & Hd & Hf). rewrite Hr in Hq. injection Hq as <- <-.
    intros w [= <-]. by split; [|exists r].
Qed.

(** Parameters of a management command survive their wire encoding, whatever
    was done to the object before: after any sequence of constructions,
    modifications and encodings the encoding that is returned, cached or new,
    decodes to exactly the fields that are set, with their values. *)
Theorem params_wire_roundtrip (p : ControlParameters) :
  params_made p → fields_ok (cp_fields p) →
  ∃ w q, ControlParameters_wireEncode p = (Ok w, mkControlParameters (cp_fields p) (Some w)) ∧
    ControlParameters_ofWire w = Ok q ∧ ∀ f, cp_fields q f = cp_fields p f.
Proof.
  intros Hp%made_coherent Hok. destruct (wireEncode_spec p Hp Hok) as (w & q & He & _ & Hd & Hf). by exists w, q.
Qed.
Definition sampleParams : ControlParameters :=
  setField CONTROL_PARAMETER_EXPIRATION_PERIOD 30000
    (setField CONTROL_PARAMETER_STRATEGY [mkComponent 8 [97]]
      (setField CONTROL_PARAMETER_COST 10
        (setField CONTROL_PARAMETER_FACE_ID 300
          (setField CONTROL_PARAMETER_NAME [mkComponent 8 [97]; mkComponent 8 [98]] ControlParameters_new)))).
Lemma sampleParams_ok : params_made sampleParams ∧ fields_ok (cp_fields sampleParams).
Proof.
  split; [repeat constructor|]. split; [|by vm_compute].
  intros f v Hf. destruct f; try discriminate Hf; injection Hf as <-; cbn [field_ok]; try (unfold is_u64; lia).
  all: apply (bool_decide_unpack _); by vm_compute.
Qed.
Lemma params_wire_roundtrip_witness :
  ∃ w q, ControlParameters_wireEncode sampleParams = (Ok w, mkControlParameters (cp_fields sampleParams) (Some w)) ∧
    ControlParameters_ofWire w = Ok q ∧ getField CONTROL_PARAMETER_FACE_ID q = Ok 300 ∧
    hasField CONTROL_PARAMETER_MTU q = false.
Proof.
  destruct sampleParams_ok as [Hm Hok].
  destruct (params_wire_roundtrip sampleParams Hm Hok) as (w & q & He & Hd & Hf).
  exists w, q. split_and!; [done|done| |].
  - unfold getField. by rewrite Hf.
  - unfold hasField. by rewrite Hf.
Defined.

(** Bit operations below the sign of [int]. *)
Lemma shift1_small bit : 0 ≤ bit < 31 → shift1 bit = Ok (2 ^ bit) ∧ u64 (2 ^ bit) = 2 ^ bit.
Proof.
  intros Hb. unfold shift1. rewrite bool_decide_true, Z.shiftl_1_l by lia. split; [done|]. apply u64_small.
  split; [lia|]. apply Z.pow_lt_mono_r; lia.
Qed.
Lemma land_pow2 x bit : 0 ≤ bit → negb (bool_decide (Z.land x (2 ^ bit) = 0)) = Z.testbit x bit.
Proof.
  intros Hb. case_bool_decide as E.
  - assert (Z.testbit (Z.land x (2 ^ bit)) bit = false) as H by (by rewrite E, Z.testbit_0_l).
    rewrite Z.land_spec, Z.pow2_bits_true, andb_true_r in H by done. by rewrite H.
  - destruct (Z.testbit x bit) eqn:Ex; [done|]. destruct E. apply Z.bits_inj'. intros n Hn.
    rewrite Z.land_spec, Z.testbit_0_l. destruct (decide (n = bit)) as [->|Hne]; [by rewrite Ex|].
    rewrite Z.pow2_bits_false by done. apply andb_false_r.
Qed.
Lemma u64_lnot_bit one n : 0 ≤ n < 64 → Z.testbit (u64 (Z.lnot one)) n = negb (Z.testbit one n).
Proof. intros Hn. unfold u64. rewrite Z.mod_pow2_bits_low, Z.lnot_spec by lia. done. Qed.

Lemma getFlagBit_small bit p :
  0 ≤ bit < 31 → getFlagBit bit p = Ok (Z.testbit (orZero (cp_fields p CONTROL_PARAMETER_FLAGS)) bit).
Proof.
  intros Hb. unfold getFlagBit. rewrite bool_decide_false by lia.
  destruct (cp_fields p CONTROL_PARAMETER_FLAGS) as [flags|]; cbn [orZero]; [|by rewrite Z.testbit_0_l].
  destruct (shift1_small bit Hb) as [-> E]. rewrite bind_Ok, E, land_pow2 by lia. done.
Qed.

(** Setting a flag bit below 31 sets that bit and no other, and marks it in the
    mask. *)
Theorem setFlagBit_spec (bit : Z) (value : bool) (p : ControlParameters) :
  0 ≤ bit < 31 →
  ∃ q, setFlagBit bit value true p = Ok q ∧ getFlagBit bit q = Ok value ∧ hasFlagBit bit q = Ok true ∧
    ∀ b, 0 ≤ b < 31 → b ≠ bit → getFlagBit b q = getFlagBit b p.
Proof.
  intros Hb. unfold setFlagBit. rewrite bool_decide_false by lia. destruct (shift1_small bit Hb) as [Hs E].
  rewrite Hs, bind_Ok, E. eexists. split; [reflexivity|].
  set (flags := if value then _ else _). set (q := setField CONTROL_PARAMETER_MASK _ _).
  assert (cp_fields q CONTROL_PARAMETER_FLAGS = Some flags) as Hf by done.
  assert (∀ b, 0 ≤ b < 31 → Z.testbit flags b =
    if bool_decide (b = bit) then value else Z.testbit (orZero (cp_fields p CONTROL_PARAMETER_FLAGS)) b) as Hbits.
  { intros b Hb'. unfold flags. destruct value; rewrite ?Z.lor_spec, ?Z.land_spec, ?u64_lnot_bit by lia;
      case_bool_decide as Eb; [subst b|..|subst b|]; rewrite ?Z.pow2_bits_true, ?Z.pow2_bits_false by lia;
      by rewrite ?orb_true_r, ?orb_false_r, ?andb_true_r, ?andb_false_r. }
  split_and!.
  - rewrite getFlagBit_small, Hf by lia. cbn [orZero]. by rewrite Hbits, bool_decide_true.
  - unfold hasFlagBit. rewrite bool_decide_false by lia.
    change (cp_fields q CONTROL_PARAMETER_MASK) with (Some (Z.lor (orZero (cp_fields p CONTROL_PARAMETER_MASK)) (2 ^ bit))).
    cbv beta iota. rewrite Hs, bind_Ok, E, land_pow2, Z.lor_spec, Z.pow2_bits_true, orb_true_r by lia. done.
  - intros b Hb' Hne. rewrite !getFlagBit_small, Hf by lia. cbn [orZero]. by rewrite Hbits, bool_decide_false.
Qed.
(** The documented range of bits is 0 to 63: bit 31 changes the 32 bits above it
    as well, and from 32 on the shift is undefined. *)
Theorem setFlagBit_wide :
  (∃ q, setFlagBit 31 true false ControlParameters_new = Ok q ∧
     cp_fields q CONTROL_PARAMETER_FLAGS = Some (2 ^ 64 - 2 ^ 31)) ∧
  ∀ bit value wantMask p, 32 ≤ bit < 64 → setFlagBit bit value wantMask p = Fault UndefinedBehaviour.
Proof.
  split; [by eexists; split; vm_compute|]. intros bit value wantMask p Hb. unfold setFlagBit, shift1.
  by rewrite !bool_decide_false by lia.
Qed.

(** ** Responses *)

Definition response_ok (r : ControlResponse) : Prop :=
  0 ≤ cr_code r ≤ UINT32_MAX ∧ bytes_ok (cr_text r) ∧ (∀ b, cr_body r = Some b → Wire_closed b) ∧
  small (responseElements r).
Lemma responseElements_closed r : response_ok r → Forall Wire_closed (responseElements r).
Proof.
  intros (_ & Ht & Hb & Hs). unfold responseElements. constructor; [|constructor].
  - apply makeBinaryBlock_closed; [done| |apply prependNonNegativeInteger_bytes].
    rewrite length_prependNonNegativeInteger. pose proof (sizeOfNonNegativeInteger_le (cr_code r)). lia.
  - apply makeBinaryBlock_closed; [done| |done].
    assert (makeBinaryBlock tlv_StatusText (cr_text r) ∈ responseElements r) as Hin by (right; left).
    pose proof (small_in _ _ Hin Hs). pose proof (value_le_bytes tlv_StatusText (cr_text r)). lia.
  - destruct (cr_body r) as [b|]; [|constructor]. constructor; [by apply Hb|constructor].
Qed.
(** A response survives its wire encoding. *)
Lemma response_roundtrip r :
  response_ok r → cr_wire r = None →
  ∃ w, (ControlResponse_wireEncode r).1 = Ok w ∧ w_bytes w = w_bytes (makeBinaryBlock tlv_ControlResponse (w_value w)) ∧
    Wire_closed (makeBinaryBlock tlv_ControlResponse (w_value w)) ∧
    ControlResponse_ofWire (makeBinaryBlock tlv_ControlResponse (w_value w)) =
      Ok (mkControlResponse (cr_code r) (cr_text r) (cr_body r) (Some (makeBinaryBlock tlv_ControlResponse (w_value w)))).
Proof.
  intros Hok Hw. pose proof (responseElements_closed r Hok) as Hcl. destruct Hok as (Hcode & Ht & Hb & Hs).
  unfold ControlResponse_wireEncode. rewrite (bindE _ _ r r r), Hw by done. eexists. split; [reflexivity|].
  cbn [w_value Wire_ofBlock blk_value]. split; [done|].
  set (w := makeBinaryBlock tlv_ControlResponse _).
  assert (Wire_closed w) as Hclw by by apply nested_closed. split; [done|].
  assert (Wire_subs w = Ok (responseElements r)) as Hsubs by by apply Wire_subs_make.
  assert (w_type w = tlv_ControlResponse) as Hty by done. clearbody w.
  assert (readNonNegativeIntegerAs UINT32_MAX (wire_block (makeBinaryBlock tlv_StatusCode
    (prependNonNegativeInteger (cr_code r) []))) = Ok (cr_code r)) as Hread.
  { unfold readNonNegativeIntegerAs, wire_block. cbn [w_type w_value makeBinaryBlock Wire_ofBlock blk_type blk_value].
    rewrite readNonNegativeInteger_block_written by (unfold is_u64, UINT32_MAX in *; lia).
    by rewrite bind_Ok, bool_decide_false by lia. }
  unfold ControlResponse_ofWire. rewrite Hty, Hsubs, bind_Ok. unfold responseElements. cbn [app].
  rewrite Hread, bind_Ok. by destruct (cr_body r).
Qed.
