(* ===== verification/Management.v ===== *)
(** * Management commands, from the controller to the manager
    (ndn-cxx [mgmt/nfd/control-command.cpp], [mgmt/nfd/controller.cpp],
    [mgmt/dispatcher.cpp]; NFD [mgmt/manager-base.cpp])

    A command is sent as an Interest whose name holds the encoded parameters, is
    parsed, authorized and checked by the dispatcher, completed with default
    values and given to the handler of a manager; the response comes back as
    the content of a Data.  Signing and the authorization are outside: the
    signature is whatever follows the parameters in the name, and the
    authorization is a function. *)

From Stdlib Require Import String Ascii.
From S2P Require Import Prelude Tlv Component Name Encoding ControlParams.
Local Open Scope Z_scope.

(** ** Field validators *)

Record FieldValidator := mkFieldValidator {
  fv_required : list ControlParameterField;
  fv_optional : list ControlParameterField
}.
(** [FieldValidator::validate]: the loop over the fields, and the rule on flags
    and mask. *)
Fixpoint validate_loop (v : FieldValidator) (p : ControlParameters) (fields : list ControlParameterField)
  : outcome unit :=
  match fields with
  | [] => Ok tt
  | f :: fields' =>
      let isPresent := hasField f p in
      if bool_decide (f ∈ fv_required v) then
        if negb isPresent then Fault (Throw ArgumentError) else validate_loop v p fields'
      else if isPresent && negb (bool_decide (f ∈ fv_optional v)) then Fault (Throw ArgumentError)
      else validate_loop v p fields'
  end.
Definition FieldValidator_validate (v : FieldValidator) (p : ControlParameters) : outcome unit :=
  _ ← validate_loop v p controlParameterFields;
  if bool_decide (CONTROL_PARAMETER_FLAGS ∈ fv_optional v) && bool_decide (CONTROL_PARAMETER_MASK ∈ fv_optional v)
     && negb (bool_decide (hasField CONTROL_PARAMETER_FLAGS p = hasField CONTROL_PARAMETER_MASK p))
  then Fault (Throw ArgumentError) else Ok tt.

(** ** Commands *)

(** What a subclass of [ControlCommand] provides: the validators, its own checks
    after those, and the defaults. *)
Record ControlCommand := mkControlCommand {
  cc_module : list Z;
  cc_verb : list Z;
  cc_requestValidator : FieldValidator;
  cc_responseValidator : FieldValidator;
  cc_checkRequest : ControlParameters → outcome unit;
  cc_checkResponse : ControlParameters → outcome unit;
  cc_applyDefaultsToRequest : ControlParameters → ControlParameters
}.
Definition validateRequest (c : ControlCommand) (p : ControlParameters) : outcome unit :=
  _ ← FieldValidator_validate (cc_requestValidator c) p; cc_checkRequest c p.
Definition validateResponse (c : ControlCommand) (p : ControlParameters) : outcome unit :=
  _ ← FieldValidator_validate (cc_responseValidator c) p; cc_checkResponse c p.

Definition bytesOf (s : string) : list Z := map (fun a => Z.of_N (N_of_ascii a)) (list_ascii_of_string s).
Definition INVALID_FACE_ID : Z := 0.
Definition noCheck (p : ControlParameters) : outcome unit := Ok tt.
Definition checkFaceId (p : ControlParameters) : outcome unit :=
  faceId ← getField CONTROL_PARAMETER_FACE_ID p;
  if bool_decide (faceId = INVALID_FACE_ID) then Fault (Throw ArgumentError) else Ok tt.
(** [if (!parameters.hasX()) parameters.setX(v)]. *)
Definition setDefault (f : ControlParameterField) (v : fieldType f) (p : ControlParameters) : ControlParameters :=
  if negb (hasField f p) then setField f v p else p.
Definition noDefaults (p : ControlParameters) : ControlParameters := p.

Definition FaceCreateCommand : ControlCommand :=
  mkControlCommand (bytesOf "faces") (bytesOf "create")
    (mkFieldValidator [CONTROL_PARAMETER_URI]
       [CONTROL_PARAMETER_LOCAL_URI; CONTROL_PARAMETER_FACE_PERSISTENCY;
        CONTROL_PARAMETER_BASE_CONGESTION_MARKING_INTERVAL; CONTROL_PARAMETER_DEFAULT_CONGESTION_THRESHOLD;
        CONTROL_PARAMETER_MTU; CONTROL_PARAMETER_FLAGS; CONTROL_PARAMETER_MASK])
    (mkFieldValidator
       [CONTROL_PARAMETER_FACE_ID; CONTROL_PARAMETER_URI; CONTROL_PARAMETER_LOCAL_URI;
        CONTROL_PARAMETER_FACE_PERSISTENCY; CONTROL_PARAMETER_FLAGS]
       [CONTROL_PARAMETER_BASE_CONGESTION_MARKING_INTERVAL; CONTROL_PARAMETER_DEFAULT_CONGESTION_THRESHOLD;
        CONTROL_PARAMETER_MTU])
    noCheck checkFaceId (setDefault CONTROL_PARAMETER_FACE_PERSISTENCY 0).
Definition FaceUpdateCommand : ControlCommand :=
  mkControlCommand (bytesOf "faces") (bytesOf "update")
    (mkFieldValidator []
       [CONTROL_PARAMETER_FACE_ID; CONTROL_PARAMETER_FACE_PERSISTENCY;
        CONTROL_PARAMETER_BASE_CONGESTION_MARKING_INTERVAL; CONTROL_PARAMETER_DEFAULT_CONGESTION_THRESHOLD;
        CONTROL_PARAMETER_MTU; CONTROL_PARAMETER_FLAGS; CONTROL_PARAMETER_MASK])
    (mkFieldValidator
       [CONTROL_PARAMETER_FACE_ID; CONTROL_PARAMETER_FACE_PERSISTENCY; CONTROL_PARAMETER_FLAGS]
       [CONTROL_PARAMETER_BASE_CONGESTION_MARKING_INTERVAL; CONTROL_PARAMETER_DEFAULT_CONGESTION_THRESHOLD;
        CONTROL_PARAMETER_MTU])
    noCheck checkFaceId (setDefault CONTROL_PARAMETER_FACE_ID 0).
Definition FaceDestroyCommand : ControlCommand :=
  mkControlCommand (bytesOf "faces") (bytesOf "destroy")
    (mkFieldValidator [CONTROL_PARAMETER_FACE_ID] []) (mkFieldValidator [CONTROL_PARAMETER_FACE_ID] [])
    checkFaceId checkFaceId noDefaults.
Definition FibAddNextHopCommand : ControlCommand :=
  mkControlCommand (bytesOf "fib") (bytesOf "add-nexthop")
    (mkFieldValidator [CONTROL_PARAMETER_NAME] [CONTROL_PARAMETER_FACE_ID; CONTROL_PARAMETER_COST])
    (mkFieldValidator [CONTROL_PARAMETER_NAME; CONTROL_PARAMETER_FACE_ID; CONTROL_PARAMETER_COST] [])
    noCheck checkFaceId
    (fun p => setDefault CONTROL_PARAMETER_COST 0 (setDefault CONTROL_PARAMETER_FACE_ID 0 p)).
Definition FibRemoveNextHopCommand : ControlCommand :=
  mkControlCommand (bytesOf "fib") (bytesOf "remove-nexthop")
    (mkFieldValidator [CONTROL_PARAMETER_NAME] [CONTROL_PARAMETER_FACE_ID])
    (mkFieldValidator [CONTROL_PARAMETER_NAME; CONTROL_PARAMETER_FACE_ID] [])
    noCheck checkFaceId (setDefault CONTROL_PARAMETER_FACE_ID 0).
Definition CsConfigCommand : ControlCommand :=
  mkControlCommand (bytesOf "cs") (bytesOf "config")
    (mkFieldValidator [] [CONTROL_PARAMETER_CAPACITY; CONTROL_PARAMETER_FLAGS; CONTROL_PARAMETER_MASK])
    (mkFieldValidator [CONTROL_PARAMETER_CAPACITY; CONTROL_PARAMETER_FLAGS] [])
    noCheck noCheck noDefaults.
Definition CsEraseCommand : ControlCommand :=
  mkControlCommand (bytesOf "cs") (bytesOf "erase")
    (mkFieldValidator [CONTROL_PARAMETER_NAME] [CONTROL_PARAMETER_COUNT])
    (mkFieldValidator [CONTROL_PARAMETER_NAME; CONTROL_PARAMETER_COUNT] [CONTROL_PARAMETER_CAPACITY])
    (fun p => if bool_decide (cp_fields p CONTROL_PARAMETER_COUNT = Some (0 : fieldType CONTROL_PARAMETER_COUNT))
              then Fault (Throw ArgumentError) else Ok tt)
    (fun p => if bool_decide (cp_fields p CONTROL_PARAMETER_CAPACITY = Some (0 : fieldType CONTROL_PARAMETER_CAPACITY))
              then Fault (Throw ArgumentError) else Ok tt)
    noDefaults.
Definition StrategyChoiceSetCommand : ControlCommand :=
  mkControlCommand (bytesOf "strategy-choice") (bytesOf "set")
    (mkFieldValidator [CONTROL_PARAMETER_NAME; CONTROL_PARAMETER_STRATEGY] [])
    (mkFieldValidator [CONTROL_PARAMETER_NAME; CONTROL_PARAMETER_STRATEGY] [])
    noCheck noCheck noDefaults.
Definition checkNameNotEmpty (p : ControlParameters) : outcome unit :=
  name ← getField CONTROL_PARAMETER_NAME p;
  match name : Name with [] => Fault (Throw ArgumentError) | _ => Ok tt end.
Definition StrategyChoiceUnsetCommand : ControlCommand :=
  mkControlCommand (bytesOf "strategy-choice") (bytesOf "unset")
    (mkFieldValidator [CONTROL_PARAMETER_NAME] []) (mkFieldValidator [CONTROL_PARAMETER_NAME] [])
    checkNameNotEmpty checkNameNotEmpty noDefaults.
Definition RibRegisterCommand : ControlCommand :=
  mkControlCommand (bytesOf "rib") (bytesOf "register")
    (mkFieldValidator [CONTROL_PARAMETER_NAME]
       [CONTROL_PARAMETER_FACE_ID; CONTROL_PARAMETER_ORIGIN; CONTROL_PARAMETER_COST; CONTROL_PARAMETER_FLAGS;
        CONTROL_PARAMETER_EXPIRATION_PERIOD])
    (mkFieldValidator
       [CONTROL_PARAMETER_NAME; CONTROL_PARAMETER_FACE_ID; CONTROL_PARAMETER_ORIGIN; CONTROL_PARAMETER_COST;
        CONTROL_PARAMETER_FLAGS] [CONTROL_PARAMETER_EXPIRATION_PERIOD])
    noCheck checkFaceId
    (fun p => setDefault CONTROL_PARAMETER_FLAGS 1 (setDefault CONTROL_PARAMETER_COST 0
       (setDefault CONTROL_PARAMETER_ORIGIN 0 (setDefault CONTROL_PARAMETER_FACE_ID 0 p)))).
Definition RibUnregisterCommand : ControlCommand :=
  mkControlCommand (bytesOf "rib") (bytesOf "unregister")
    (mkFieldValidator [CONTROL_PARAMETER_NAME] [CONTROL_PARAMETER_FACE_ID; CONTROL_PARAMETER_ORIGIN])
    (mkFieldValidator [CONTROL_PARAMETER_NAME; CONTROL_PARAMETER_FACE_ID; CONTROL_PARAMETER_ORIGIN] [])
    noCheck checkFaceId
    (fun p => setDefault CONTROL_PARAMETER_ORIGIN 0 (setDefault CONTROL_PARAMETER_FACE_ID 0 p)).

(** [Name::append] of a string or of the bytes of a block. *)
Definition genericComponent (value : list Z) : Component := mkComponent GenericNameComponent value.
(** [ControlCommand::getRequestName]. *)
Definition getRequestName (c : ControlCommand) (commandPrefix : Name) (p : ControlParameters) : outcome Name :=
  _ ← validateRequest c p;
  w ← (ControlParameters_wireEncode p).1;
  Ok (commandPrefix ++ [genericComponent (cc_module c); genericComponent (cc_verb c); genericComponent (w_bytes w)]).

(** ** The dispatcher and the managers' base class *)

Inductive RejectReply : Type := REJECT_SILENT | REJECT_STATUS403.
(** What becomes of a command Interest: no reply, a reply made by the dispatcher,
    or the handler is called. *)
Inductive Dispatched : Type :=
| Dropped
| Replied (code : Z)
| Handled (p : ControlParameters).

(** The parser [addControlCommand] installs: [CP(comp.blockFromValue())]. *)
Definition parseParameters (pc : Component) : outcome ControlParameters :=
  block ← blockFromValue (makeBinaryBlock (ctype pc) (cvalue pc)); ControlParameters_ofWire block.
(** [ManagerBase::validateParameters]. *)
Definition validateParameters (c : ControlCommand) (p : ControlParameters) : outcome bool :=
  match validateRequest c p with
  | Ok _ => Ok true
  | Fault (Throw ArgumentError) => Ok false
  | Fault e => Fault e
  end.
(** [processControlCommandInterest] with the continuation
    [processAuthorizedControlCommandInterest]; [authorization] accepts with
    [None].  The handler starts, in [ManagerBase::handleCommand], with the
    defaults. *)
Definition processAuthorized (c : ControlCommand) (p : ControlParameters) : outcome Dispatched :=
  valid ← validateParameters c p;
  if valid : bool then Ok (Handled (cc_applyDefaultsToRequest c p)) else Ok (Replied 400).
Definition processControlCommandInterest (c : ControlCommand) (prefix relPrefix name : Name)
    (authorization : ControlParameters → option RejectReply) : outcome Dispatched :=
  pc ← Name_get name (Name_size prefix + Name_size relPrefix);
  match parseParameters pc with
  | Fault e => if isTlvError e then Ok Dropped else Fault e
  | Ok p =>
      match authorization p with
      | Some REJECT_SILENT => Ok Dropped
      | Some REJECT_STATUS403 => Ok (Replied 403)
      | None => processAuthorized c p
      end
  end.
Definition relPrefixOf (c : ControlCommand) : Name := [genericComponent (cc_module c); genericComponent (cc_verb c)].

(** ** The controller's side of a response *)

Definition ERROR_LBOUND : Z := 400.
Definition ERROR_SERVER : Z := 500.
Inductive CommandResult : Type :=
| CommandSucceeds (p : ControlParameters)
| CommandFails (code : Z).
(** [Controller::processValidatedCommandResponse]; [content] is the value of the
    Data's content. *)
Definition processCommandResponse (c : ControlCommand) (content : list Z) : outcome CommandResult :=
  match (w ← blockFromValue (makeBinaryBlock tlv_Content content); ControlResponse_ofWire w) with
  | Fault e => if isTlvError e then Ok (CommandFails ERROR_SERVER) else Fault e
  | Ok r =>
      if bool_decide (ERROR_LBOUND ≤ cr_code r) then Ok (CommandFails (cr_code r))
      else
        match (match cr_body r with Some b => ControlParameters_ofWire b | None => Fault (Throw TlvError) end) with
        | Fault e => if isTlvError e then Ok (CommandFails ERROR_SERVER) else Fault e
        | Ok p =>
            match validateResponse c p with
            | Ok _ => Ok (CommandSucceeds p)
            | Fault (Throw ArgumentError) => Ok (CommandFails ERROR_SERVER)
            | Fault e => Fault e
            end
        end
  end.

(** ** Validators *)

Lemma hasField_Some f p : hasField f p = true ↔ is_Some (cp_fields p f).
Proof. unfold hasField. destruct (cp_fields p f); [naive_solver|]. split; [done|by intros []]. Qed.
Lemma validate_loop_spec v p l :
  match validate_loop v p l with
  | Ok _ => ∀ f, f ∈ l → (f ∈ fv_required v → is_Some (cp_fields p f)) ∧
              (is_Some (cp_fields p f) → f ∈ fv_required v ∨ f ∈ fv_optional v)
  | Fault e => e = Throw ArgumentError ∧ ∃ f, f ∈ l ∧
      ((f ∈ fv_required v ∧ cp_fields p f = None) ∨
       (is_Some (cp_fields p f) ∧ f ∉ fv_required v ∧ f ∉ fv_optional v))
  end.
Proof.
  induction l as [|f l IH]; cbn [validate_loop]; [by intros f ?%elem_of_nil|]. unfold hasField.
  case_bool_decide as Hreq; destruct (cp_fields p f) as [x|] eqn:Ef; cbn [negb andb];
    try (case_bool_decide as Hopt; cbn [negb]).
  all: first [ destruct (validate_loop v p l) as [|e]; [|destruct IH as (-> & g & Hg & Hc); split; [done|];
                 exists g; split; [by right|done]];
               intros g [->|Hg]%elem_of_cons; [|by apply IH]; rewrite Ef; split; [naive_solver|naive_solver]
             | split; [done|]; exists f; split; [left|]; rewrite Ef; naive_solver ].
Qed.

(** What a validator accepts. *)
Definition acceptable (v : FieldValidator) (p : ControlParameters) : Prop :=
  (∀ f, f ∈ fv_required v → is_Some (cp_fields p f)) ∧
  (∀ f, is_Some (cp_fields p f) → f ∈ fv_required v ∨ f ∈ fv_optional v) ∧
  (CONTROL_PARAMETER_FLAGS ∈ fv_optional v → CONTROL_PARAMETER_MASK ∈ fv_optional v →
     hasField CONTROL_PARAMETER_FLAGS p = hasField CONTROL_PARAMETER_MASK p).
Lemma validate_spec v p :
  (FieldValidator_validate v p = Ok tt ∧ acceptable v p) ∨
  (FieldValidator_validate v p = Fault (Throw ArgumentError) ∧ ¬ acceptable v p).
Proof.
  unfold FieldValidator_validate, acceptable. pose proof (validate_loop_spec v p controlParameterFields) as H.
  destruct (validate_loop v p controlParameterFields) as [[]|e].
  - rewrite bind_Ok. destruct (decide (CONTROL_PARAMETER_FLAGS ∈ fv_optional v ∧ CONTROL_PARAMETER_MASK ∈ fv_optional v ∧
      hasField CONTROL_PARAMETER_FLAGS p ≠ hasField CONTROL_PARAMETER_MASK p)) as [(H1 & H2 & H3)|Hn].
    + right. rewrite !bool_decide_true, bool_decide_false by done. split; [done|]. intros (_ & _ & Hf). by apply H3, Hf.
    + left. split; [|split_and!].
      * destruct (_ && _) eqn:E; [|done]. rewrite !andb_true_iff, negb_true_iff, !bool_decide_eq_true, bool_decide_eq_false in E.
        tauto.
      * intros f. apply (H f (fields_complete f)).
      * intros f. apply (H f (fields_complete f)).
      * intros H1 H2. destruct (decide (hasField CONTROL_PARAMETER_FLAGS p = hasField CONTROL_PARAMETER_MASK p)); tauto.
  - destruct H as (-> & f & _ & Hf). right. split; [done|]. intros (H1 & H2 & _).
    destruct Hf as [[Hr Hn]|(Hs & Hr & Ho)]; [destruct (H1 f Hr); congruence|destruct (H2 f Hs); tauto].
Qed.
Lemma validate_ext v p q :
  (∀ f, cp_fields q f = cp_fields p f) → FieldValidator_validate v q = FieldValidator_validate v p.
Proof.
  intros E. assert (∀ f, hasField f q = hasField f p) as Eh by (intros; unfold hasField; by rewrite E).
  unfold FieldValidator_validate. rewrite !Eh. f_equal.
  induction controlParameterFields as [|f l IH]; cbn [validate_loop]; [done|]. by rewrite Eh, IH.
Qed.

(** ** The commands of NFD *)

Definition nfdCommands : list ControlCommand :=
  [FaceCreateCommand; FaceUpdateCommand; FaceDestroyCommand; FibAddNextHopCommand; FibRemoveNextHopCommand;
   CsConfigCommand; CsEraseCommand; StrategyChoiceSetCommand; StrategyChoiceUnsetCommand;
   RibRegisterCommand; RibUnregisterCommand].

(** What the dispatcher and the controller rely on: the checks look at the fields
    only, fail with [ArgumentError] only, and read only fields that the validator
    requires. *)
Definition check_lawful (v : FieldValidator) (check : ControlParameters → outcome unit) : Prop :=
  (∀ p q, (∀ f, cp_fields q f = cp_fields p f) → check q = check p) ∧
  (∀ p, acceptable v p → check p = Ok tt ∨ check p = Fault (Throw ArgumentError)).
Record command_lawful (c : ControlCommand) : Prop := {
  cl_request : check_lawful (cc_requestValidator c) (cc_checkRequest c);
  cl_response : check_lawful (cc_responseValidator c) (cc_checkResponse c);
  cl_defaults : ∀ p q, (∀ f, cp_fields q f = cp_fields p f) →
    ∀ f, cp_fields (cc_applyDefaultsToRequest c q) f = cp_fields (cc_applyDefaultsToRequest c p) f;
  cl_bytes : bytes_ok (cc_module c) ∧ bytes_ok (cc_verb c)
}.

Lemma noCheck_lawful v : check_lawful v noCheck.
Proof. split; [done|]. by left. Qed.
Lemma checkFaceId_lawful v : CONTROL_PARAMETER_FACE_ID ∈ fv_required v → check_lawful v checkFaceId.
Proof.
  intros Hr. split.
  - intros p q E. unfold checkFaceId, getField. by rewrite E.
  - intros p (Hreq & _). destruct (Hreq _ Hr) as [x Hx]. unfold checkFaceId, getField. rewrite Hx, bind_Ok.
    case_bool_decide; auto.
Qed.
Lemma checkName_lawful v : CONTROL_PARAMETER_NAME ∈ fv_required v → check_lawful v checkNameNotEmpty.
Proof.
  intros Hr. split.
  - intros p q E. unfold checkNameNotEmpty, getField. by rewrite E.
  - intros p (Hreq & _). destruct (Hreq _ Hr) as [x Hx]. unfold checkNameNotEmpty, getField. rewrite Hx, bind_Ok.
    destruct x; auto.
Qed.
Lemma setField_fields f v p g : cp_fields (setField f v p) g = updField f (Some v) (cp_fields p) g.
Proof. done. Qed.
Lemma setDefault_ext f v p q :
  (∀ g, cp_fields q g = cp_fields p g) → ∀ g, cp_fields (setDefault f v q) g = cp_fields (setDefault f v p) g.
Proof.
  intros E g. unfold setDefault, hasField. rewrite E. destruct (cp_fields p f); [apply E|]. cbn [negb].
  rewrite !setField_fields. destruct (decide (f = g)) as [<-|]; [by rewrite !updField_same|by rewrite !updField_other, E].
Qed.
Lemma nfdCommands_lawful : Forall command_lawful nfdCommands.
Proof.
  assert (∀ s, bytes_ok (bytesOf s)) as Hb.
  { intros s. unfold bytesOf. induction (list_ascii_of_string s) as [|a l IH]; [constructor|]. constructor; [|done].
    pose proof (N_ascii_bounded a). unfold is_byte. lia. }
  repeat (apply Forall_cons; split; [apply Build_command_lawful; [| | |by split; apply Hb]|]); try done.
  all: cbn [nfdCommands cc_requestValidator cc_checkRequest cc_responseValidator cc_checkResponse
    cc_applyDefaultsToRequest FaceCreateCommand FaceUpdateCommand FaceDestroyCommand FibAddNextHopCommand
    FibRemoveNextHopCommand CsConfigCommand CsEraseCommand StrategyChoiceSetCommand StrategyChoiceUnsetCommand
    RibRegisterCommand RibUnregisterCommand].
  all: try apply noCheck_lawful.
  all: try (apply checkFaceId_lawful; apply (bool_decide_unpack _); by vm_compute).
  all: try (apply checkName_lawful; apply (bool_decide_unpack _); by vm_compute).
  all: try (by intros p q E; repeat apply setDefault_ext).
  all: try (by intros p q E f; apply E).
  all: split; [intros p q E; by rewrite E|]; intros p _; case_bool_decide; auto.
Qed.

Lemma lawful c : c ∈ nfdCommands → command_lawful c.
Proof. intros Hc. pose proof nfdCommands_lawful as H. rewrite Forall_forall in H. by apply H. Qed.

Lemma validateRequest_cases c p :
  command_lawful c →
  (validateRequest c p = Ok tt ∧ acceptable (cc_requestValidator c) p) ∨ validateRequest c p = Fault (Throw ArgumentError).
Proof.
  intros [[_ Hreq] _ _ _]. unfold validateRequest.
  destruct (validate_spec (cc_requestValidator c) p) as [[-> Ha]|[-> _]]; [|by right].
  rewrite bind_Ok. destruct (Hreq p Ha) as [E|E]; [left|right]; by rewrite E.
Qed.
Lemma validateRequest_ext c p q :
  command_lawful c → (∀ f, cp_fields q f = cp_fields p f) → validateRequest c q = validateRequest c p.
Proof.
  intros [[Hreq _] _ _ _] E. unfold validateRequest. rewrite (validate_ext _ p q E).
  destruct (FieldValidator_validate _ p); [|done]. rewrite !bind_Ok. by apply Hreq.
Qed.
Lemma validateResponse_cases c p :
  command_lawful c → validateResponse c p = Ok tt ∨ validateResponse c p = Fault (Throw ArgumentError).
Proof.
  intros [_ [_ Hresp] _ _]. unfold validateResponse.
  destruct (validate_spec (cc_responseValidator c) p) as [[-> Ha]|[-> _]]; [|by right].
  rewrite bind_Ok. by apply Hresp.
Qed.
Lemma validateResponse_ext c p q :
  command_lawful c → (∀ f, cp_fields q f = cp_fields p f) → validateResponse c q = validateResponse c p.
Proof.
  intros [_ [Hresp _] _ _] E. unfold validateResponse. rewrite (validate_ext _ p q E).
  destruct (FieldValidator_validate _ p); [|done]. rewrite !bind_Ok. by apply Hresp.
Qed.

(** ** Dispatching *)

Lemma decodeField_throws f w e : decodeField f w = Fault e → isTlvError e = true.
Proof.
  assert (∀ b g, Name_wireDecode b = Fault g → isTlvError g = true) as Hn.
  { intros b g H%Name_wireDecode_throws. by subst. }
  assert (∀ b g, readNonNegativeInteger_block b = Fault g → isTlvError g = true) as Hi.
  { intros b g H%readNonNegativeInteger_throws. by subst. }
  assert (∀ m b g, readNonNegativeIntegerAs m b = Fault g → isTlvError g = true) as Hm.
  { intros m b g. unfold readNonNegativeIntegerAs. destruct (readNonNegativeInteger_block b) as [v|g'] eqn:E.
    - rewrite bind_Ok. case_bool_decide; [by intros [= <-]|done].
    - intros [= <-]. by eapply Hi. }
  destruct f; cbn [decodeField]; eauto; try done.
  - destruct (Wire_subs w) as [els|g] eqn:E; [|intros [= <-]; by apply Wire_subs_throws in E as ->].
    rewrite bind_Ok. destruct els; [by intros [= <-]|apply Hn].
  - destruct (readNonNegativeInteger_block _) as [v|g] eqn:E; [done|]. intros [= <-]. by eapply Hi.
  - destruct (readNonNegativeInteger_block _) as [v|g] eqn:E; [done|]. intros [= <-]. by eapply Hi.
Qed.
Lemma ofWire_throws w e : ControlParameters_ofWire w = Fault e → isTlvError e = true.
Proof.
  unfold ControlParameters_ofWire. case_bool_decide; [by intros [= <-]|].
  destruct (Wire_subs w) as [els|g] eqn:E; [|intros [= <-]; by apply Wire_subs_throws in E as ->].
  rewrite bind_Ok. destruct (decodeFields _ els noFields) as [fs|g] eqn:Ed; [done|]. intros [= <-].
  revert Ed. generalize noFields. induction controlParameterFields as [|f l IH]; intros acc; cbn [decodeFields]; [done|].
  destruct (findWire _ els) as [val|]; [|apply IH].
  destruct (decodeField f val) as [v|g'] eqn:Ef; [rewrite bind_Ok; apply IH|]. intros [= <-]. by eapply decodeField_throws.
Qed.
Lemma parseParameters_throws pc e : parseParameters pc = Fault e → isTlvError e = true.
Proof.
  unfold parseParameters. destruct (blockFromValue _) as [w|g] eqn:E.
  - rewrite bind_Ok. apply ofWire_throws.
  - intros [= <-]. by apply blockFromValue_throws in E as ->.
Qed.
Lemma blockFromValue_closed type w :
  Wire_closed w → blockFromValue (makeBinaryBlock type (w_bytes w)) = Ok w.
Proof.
  intros (Hspan & _ & _ & Hne). specialize (Hspan []). rewrite app_nil_r in Hspan.
  unfold blockFromValue. cbn [w_value makeBinaryBlock Wire_ofBlock blk_value].
  rewrite bool_decide_false by (destruct (w_bytes w); [done|simpl; lia]).
  rewrite Hspan, bind_Ok, bool_decide_false; [done|]. unfold Wire_size. tauto.
Qed.

(** The handler sees the outcome of the checks and nothing else. *)
Lemma processAuthorized_cases c p :
  command_lawful c →
  (validateRequest c p = Ok tt ∧ processAuthorized c p = Ok (Handled (cc_applyDefaultsToRequest c p))) ∨
  (validateRequest c p = Fault (Throw ArgumentError) ∧ processAuthorized c p = Ok (Replied 400)).
Proof.
  intros Hc. unfold processAuthorized, validateParameters.
  destruct (validateRequest_cases c p Hc) as [[E _]|E]; rewrite E; [left|right]; by rewrite bind_Ok.
Qed.
Lemma Name_get_loc prefix rel name pc :
  name !! (length prefix + length rel)%nat = Some pc → Name_get name (Name_size prefix + Name_size rel) = Ok pc.
Proof. intros H. unfold Name_size at 1 2. rewrite <-Nat2Z.inj_add. by apply Name_get_nat. Qed.

(** Dispatching a command Interest never fails when the name reaches the
    parameters, whatever those are; and the handler runs only with parameters
    that were parsed, authorized, valid and completed. *)
Theorem dispatch_checked (c : ControlCommand) (prefix name : Name)
    (authorization : ControlParameters → option RejectReply) :
  c ∈ nfdCommands → (length prefix + 2 < length name)%nat →
  ∃ d, processControlCommandInterest c prefix (relPrefixOf c) name authorization = Ok d ∧
    ∀ q, d = Handled q →
      ∃ pc p, name !! (length prefix + 2)%nat = Some pc ∧ parseParameters pc = Ok p ∧ authorization p = None ∧
        validateRequest c p = Ok tt ∧ q = cc_applyDefaultsToRequest c p.
Proof.
  intros Hc%lawful Hlen. destruct (lookup_lt_is_Some_2 name _ Hlen) as [pc Hpc].
  unfold processControlCommandInterest. rewrite (Name_get_loc _ (relPrefixOf c) _ pc Hpc), bind_Ok.
  destruct (parseParameters pc) as [p|e] eqn:Ep.
  2: { rewrite (parseParameters_throws _ _ Ep). by exists Dropped. }
  destruct (authorization p) as [[]|] eqn:Ea; [by exists Dropped|by exists (Replied 403)|].
  destruct (processAuthorized_cases c p Hc) as [[Hv ->]|[_ ->]]; eexists; (split; [done|]); [|done].
  intros q [= <-]. by exists pc, p.
Qed.
(** The name of an Interest that matches the filter of a command and stops there
    has no component for the parameters; [Name::get] does not check. *)
Theorem dispatch_reads_past_end (c : ControlCommand) (prefix : Name)
    (authorization : ControlParameters → option RejectReply) :
  processControlCommandInterest c prefix (relPrefixOf c) (prefix ++ relPrefixOf c) authorization =
    Fault UndefinedBehaviour.
Proof.
  assert (0 ≤ Name_size prefix + Name_size (relPrefixOf c)) as Hn by (unfold Name_size; lia).
  unfold processControlCommandInterest, Name_get. rewrite (bool_decide_false _ (proj2 (Z.nlt_ge _ _) Hn)). cbv zeta.
  rewrite (bool_decide_false _ (proj2 (Z.nlt_ge _ _) Hn)), lookup_ge_None_2; [done|].
  unfold Name_size. rewrite length_app. lia.
Qed.

(** ** A command from the controller to the handler *)

Section delivery.
Context (c : ControlCommand) (p : ControlParameters).
Context (Hc : c ∈ nfdCommands) (Hp : params_made p) (Hok : fields_ok (cp_fields p)).

Lemma getRequestName_spec prefix :
  validateRequest c p = Ok tt →
  ∃ w q, getRequestName c prefix p = Ok (prefix ++ relPrefixOf c ++ [genericComponent (w_bytes w)]) ∧
    parseParameters (genericComponent (w_bytes w)) = Ok q ∧ (ControlParameters_wireEncode p).1 = Ok w ∧
    Wire_closed w ∧ ControlParameters_ofWire w = Ok q ∧ ∀ f, cp_fields q f = cp_fields p f.
Proof using Hp Hok.
  intros Hv. destruct (wireEncode_spec p (made_coherent p Hp) Hok) as (w & q & He & Hcl & Hd & Hf).
  exists w, q. unfold getRequestName, parseParameters. rewrite Hv, He, !bind_Ok. cbn [fst]. rewrite bind_Ok.
  split_and!; [done| |done..].
  cbn [ctype cvalue genericComponent]. by rewrite blockFromValue_closed, bind_Ok.
Qed.
(** The parameters that are parsed keep the bytes that were sent as their
    encoding. *)
Lemma request_delivered prefix :
  validateRequest c p = Ok tt →
  ∃ rn w q, getRequestName c prefix p = Ok rn ∧
    (∀ suffix authorization, (∀ p, authorization p = None) →
       processControlCommandInterest c prefix (relPrefixOf c) (rn ++ suffix) authorization =
         Ok (Handled (cc_applyDefaultsToRequest c q))) ∧
    (ControlParameters_wireEncode p).1 = Ok w ∧ Wire_closed w ∧ ControlParameters_ofWire w = Ok q ∧
    ∀ f, cp_fields q f = cp_fields p f.
Proof using Hc Hp Hok.
  intros Hv. pose proof (lawful c Hc) as Hl.
  destruct (getRequestName_spec prefix Hv) as (w & q & Hrn & Hparse & He & Hcl & Hd & Hf). exists (prefix ++ relPrefixOf c ++
    [genericComponent (w_bytes w)]), w, q. split_and!; [done| |done..].
  intros suffix authorization Ha. unfold processControlCommandInterest.
  rewrite (Name_get_loc _ _ _ (genericComponent (w_bytes w))), bind_Ok, Hparse, Ha.
  + destruct (processAuthorized_cases c q Hl) as [[_ ->]|[Hbad _]]; [done|].
    rewrite (validateRequest_ext c p q Hl Hf), Hv in Hbad. done.
  + rewrite <-!app_assoc. by rewrite lookup_app_r, Nat.add_comm, Nat.add_sub by lia.
Qed.

(** A valid command sent by the controller reaches the handler of the manager
    with its own parameters: the name the controller makes is parsed and, when
    authorized, accepted by the dispatcher with every field of the request and
    the defaults for the fields that are absent, whatever signature components
    follow.  A request that is not valid is refused before anything is sent. *)
Theorem command_delivered (prefix : Name) :
  (validateRequest c p = Ok tt →
   ∃ rn q, getRequestName c prefix p = Ok rn ∧
     (∀ suffix, processControlCommandInterest c prefix (relPrefixOf c) (rn ++ suffix) (fun _ => None) = Ok (Handled q)) ∧
     ∀ f, cp_fields q f = cp_fields (cc_applyDefaultsToRequest c p) f) ∧
  (validateRequest c p ≠ Ok tt → getRequestName c prefix p = Fault (Throw ArgumentError)).
Proof using Hc Hp Hok.
  split; intros Hv.
  - destruct (request_delivered prefix Hv) as (rn & w & q & Hrn & Hd & _ & _ & _ & Hf).
    exists rn, (cc_applyDefaultsToRequest c q).
    split_and!; [done|intros suffix; by apply Hd|]. by apply (cl_defaults c (lawful c Hc)).
  - unfold getRequestName. destruct (validateRequest_cases c p (lawful c Hc)) as [[E _]|E]; [done|by rewrite E].
Qed.

(** The answer of a handler with a valid body succeeds at the controller with
    the handler's parameters. *)
Lemma response_delivered (text : list Z) (code : Z) :
  0 ≤ code < ERROR_LBOUND → validateResponse c p = Ok tt →
  (∀ w, (ControlParameters_wireEncode p).1 = Ok w → response_ok (setBody w (ControlResponse_make code text))) →
  ∃ w rw q, (ControlParameters_wireEncode p).1 = Ok w ∧
    (ControlResponse_wireEncode (setBody w (ControlResponse_make code text))).1 = Ok rw ∧
    processCommandResponse c (w_bytes rw) = Ok (CommandSucceeds q) ∧ ∀ f, cp_fields q f = cp_fields p f.
Proof using Hc Hp Hok.
  intros Hcode Hv Hr. destruct (wireEncode_spec p (made_coherent p Hp) Hok) as (w & q & He & Hcl & Hd & Hf).
  rewrite He in *. cbn [fst] in *. specialize (Hr w eq_refl).
  destruct (response_roundtrip _ Hr eq_refl) as (rw & Hrw & Hb & Hrcl & Hrd). exists w, rw, q.
  split_and!; [done|done| |done]. unfold processCommandResponse. rewrite Hb, blockFromValue_closed, bind_Ok, Hrd by done.
  cbn [cr_code cr_body setBody ControlResponse_make]. rewrite bool_decide_false by lia. rewrite Hd.
  by rewrite (validateResponse_ext c p q (lawful c Hc) Hf), Hv.
Qed.
End delivery.

(** An error code is reported as it is, whatever the command. *)
Lemma error_delivered c code text :
  response_ok (ControlResponse_make code text) → ERROR_LBOUND ≤ code →
  ∃ rw, (ControlResponse_wireEncode (ControlResponse_make code text)).1 = Ok rw ∧
    processCommandResponse c (w_bytes rw) = Ok (CommandFails code).
Proof.
  intros Hr Hcode. destruct (response_roundtrip _ Hr eq_refl) as (rw & Hrw & Hb & Hrcl & Hrd). exists rw.
  split; [done|]. unfold processCommandResponse. rewrite Hb, blockFromValue_closed, bind_Ok, Hrd by done.
  cbn [cr_code ControlResponse_make]. by rewrite bool_decide_true.
Qed.

(** A request to add a next hop without a face id. *)
Definition nextHopParams : ControlParameters :=
  setField CONTROL_PARAMETER_COST 10 (setField CONTROL_PARAMETER_NAME [mkComponent 8 [97]; mkComponent 8 [98]]
    ControlParameters_new).
Definition nfdPrefix : Name := [genericComponent (bytesOf "localhost"); genericComponent (bytesOf "nfd")].
Lemma nextHopParams_ok : params_made nextHopParams ∧ fields_ok (cp_fields nextHopParams).
Proof.
  split; [repeat constructor|]. split; [|by vm_compute].
  intros f v Hf. destruct f; try discriminate Hf; injection Hf as <-; cbn [field_ok]; try (unfold is_u64; lia).
  apply (bool_decide_unpack _); by vm_compute.
Qed.
Lemma command_delivered_witness :
  validateRequest FibAddNextHopCommand nextHopParams = Ok tt ∧
  ∃ rn q, getRequestName FibAddNextHopCommand nfdPrefix nextHopParams = Ok rn ∧
    (∀ suffix, processControlCommandInterest FibAddNextHopCommand nfdPrefix (relPrefixOf FibAddNextHopCommand)
      (rn ++ suffix) (fun _ => None) = Ok (Handled q)) ∧
    getField CONTROL_PARAMETER_COST q = Ok 10 ∧ getField CONTROL_PARAMETER_FACE_ID q = Ok 0.
Proof.
  assert (validateRequest FibAddNextHopCommand nextHopParams = Ok tt) as Hv by by vm_compute. split; [exact Hv|].
  destruct nextHopParams_ok as [Hm Hok].
  assert (FibAddNextHopCommand ∈ nfdCommands) as Hin by (apply list_elem_of_In; simpl; tauto).
  destruct (command_delivered FibAddNextHopCommand nextHopParams Hin Hm Hok nfdPrefix) as [Hd _].
  destruct (Hd Hv) as (rn & q & Hrn & Hdis & Hf). exists rn, q.
  split; [exact Hrn|]. split; [exact Hdis|]. unfold getField. by rewrite !Hf.
Defined.
(** A command outside the list of fields is refused by the controller. *)
Lemma sampleParams_refused :
  getRequestName FibAddNextHopCommand nfdPrefix sampleParams = Fault (Throw ArgumentError).
Proof. by vm_compute. Qed.
