(* ===== verification/FibManager.v ===== *)
(** * The FIB manager (NFD [mgmt/fib-manager.cpp])

    The handlers of the commands that add and remove next hops, on the state of
    the forwarder, and their effect on the FIB seen by face ids. *)

From Stdlib Require Import String.
From S2P Require Import Prelude Tlv Component Name Encoding Packet NameTree Face FibEntry PitEntry Store Pit Fib.
From S2P Require Import NameEnum Cs Forwarder ForwarderInv ForwarderSafety ControlParams Management.
Local Open Scope Z_scope.

(** [FibManager::setFaceForSelfRegistration]; [tag] is the IncomingFaceId tag of
    the request. *)
Definition setFaceForSelfRegistration (tag : option Z) (p : ControlParameters) : outcome ControlParameters :=
  faceId ← getField CONTROL_PARAMETER_FACE_ID p;
  if bool_decide (faceId = INVALID_FACEID) then
    match tag with
    | None => Fault AssertFailed
    | Some id => Ok (setField CONTROL_PARAMETER_FACE_ID id p)
    end
  else Ok p.

Section manager.
Context {Env : Environment} {Q : Type} {Pol : CsPolicy Q} (strategy : StrategyRef → Strategy (Q := Q)).
Abbreviation FW := (M (Forwarder Q)).

(** The texts of the responses; [Fib::getMaxDepth()] is 32. *)
Definition successText : list Z := bytesOf "Success".
Definition failureText (code : Z) : list Z :=
  if bool_decide (code = 414) then bytesOf "FIB entry prefix cannot exceed 32 components"
  else bytesOf "Face not found".

(** [FibManager::addNextHop]: [addNextHop] is its middle part. *)
Definition FibManager_addNextHop (tag : option Z) (p : ControlParameters) : FW ControlResponse :=
  p ← lift (setFaceForSelfRegistration tag p);
  prefix ← lift (getField CONTROL_PARAMETER_NAME p);
  faceId ← lift (getField CONTROL_PARAMETER_FACE_ID p);
  cost ← lift (getField CONTROL_PARAMETER_COST p);
  code ← addNextHop strategy prefix faceId cost;
  if bool_decide (code = 200) then
    body ← lift (ControlParameters_wireEncode p).1;
    mret (setBody body (ControlResponse_make 200 successText))
  else mret (ControlResponse_make code (failureText code)).

(** The part of [FibManager::removeNextHop] that follows the response. *)
Definition removeNextHopOf (prefix : Name) (faceId : Z) : FW unit :=
  s ← get;
  match faceTable_get (fw_faces s) faceId with
  | None => mret tt
  | Some face =>
      match Fib_findExactMatch HashFunc (fw_store s) prefix with
      | None => mret tt
      | Some _ => onStore (Fib_removeNextHop HashFunc prefix face);; mret tt
      end
  end.
(** [FibManager::removeNextHop].  The response is handed to the face, which
    sends it later, before the FIB is changed. *)
Definition FibManager_removeNextHop (tag : option Z) (p : ControlParameters) : FW ControlResponse :=
  p ← lift (setFaceForSelfRegistration tag p);
  prefix ← lift (getField CONTROL_PARAMETER_NAME p);
  faceId ← lift (getField CONTROL_PARAMETER_FACE_ID p);
  body ← lift (ControlParameters_wireEncode p).1;
  removeNextHopOf prefix faceId;;
  mret (setBody body (ControlResponse_make 200 successText)).

(** ** The FIB by names and face ids *)

Definition hopsMap (fe : FibEntry) : gmap FaceRef Z :=
  list_to_map ((fun nh => (nh_face nh, nh_cost nh)) <$> fe_nextHops fe).
(** The cost of the next hop for the face with an id. *)
Definition fibView (s : Forwarder Q) (n : Name) (faceId : Z) : option Z :=
  face ← faceTable_get (fw_faces s) faceId;
  fe ← fibSlot (fw_store s) n;
  hopsMap fe !! face.

Lemma hopsMap_abs fe : fe_inv fe → hops_abs fe (hopsMap fe).
Proof.
  intros [Hnd _] f c. unfold hopsMap. rewrite <-elem_of_list_to_map, list_elem_of_fmap.
  - split; [intros H; by exists (mkNextHop f c)|]. by intros ([f' c'] & [= -> ->] & H).
  - by rewrite <-list_fmap_compose.
Qed.
Lemma hops_abs_unique fe m : fe_inv fe → hops_abs fe m → hopsMap fe = m.
Proof.
  intros Hfe Hm. apply map_eq. intros f. apply option_eq. intros c. rewrite <-(hopsMap_abs fe Hfe f c). apply Hm.
Qed.
Lemma hopsMap_add fe f c :
  fe_inv fe → hopsMap (addOrUpdateNextHop fe f c).1.1 = <[f := c]> (hopsMap fe).
Proof.
  intros Hfe. apply hops_abs_unique; [|by apply hops_add, hopsMap_abs].
  destruct (addOrUpdateNextHop fe f c) as [[fe' it] b] eqn:E. by eapply fe_inv_addOrUpdate.
Qed.
Lemma hopsMap_remove fe f fe' b :
  fe_inv fe → removeNextHop fe f = (fe', b) →
  hopsMap fe' = delete f (hopsMap fe) ∧ (hasNextHops fe' = false → delete f (hopsMap fe) = ∅).
Proof.
  intros Hfe E. destruct (hops_remove fe _ f fe' b Hfe (hopsMap_abs fe Hfe) E) as (Hm & _ & He).
  split; [|apply He]. apply hops_abs_unique; [|done]. by destruct (fe_inv_remove _ _ _ _ Hfe E).
Qed.

Lemma faceTable_get_id faces id g :
  faceTable_get faces id = Some g → ∃ face, faces !! g = Some face ∧ face_id face = id ∧ id ≠ INVALID_FACEID.
Proof.
  unfold faceTable_get. case_bool_decide as E0; [done|].
  destruct (List.find _ _) as [[r face]|] eqn:E; [|done]. intros [= <-].
  apply List.find_some in E as [Hin Hid%bool_decide_eq_true]. exists face. split_and!; [|done..].
  by apply elem_of_map_to_list, list_elem_of_In.
Qed.
Lemma faceTable_get_inj faces id id' g :
  faceTable_get faces id = Some g → faceTable_get faces id' = Some g → id = id'.
Proof. intros (f1 & E1 & <- & _)%faceTable_get_id (f2 & E2 & <- & _)%faceTable_get_id. congruence. Qed.

(** What the commands need of the tables: those of the FIB and of the PIT hold
    together, and every name has a strategy. *)
Record plane_inv (st : Store) : Prop := {
  pl_fib : fib_inv HashFunc st;
  pl_pit : pit_inv HashFunc st;
  pl_strategy : is_Some (t_sc (tablesAt (st_nameTree st) []))
}.
Lemma plane_inv_rest st st' : plane_inv st → fib_inv HashFunc st' → sameRest st st' → plane_inv st'.
Proof.
  intros [_ Hp Hs] Hf Hr. split; [done|eapply sameRest_pit; [done|apply Hf|done]|].
  destruct Hr as (_ & _ & _ & Hn). by rewrite (nonFib_inv _ _ Hn).
Qed.

(** What a change of the FIB leaves alone. *)
Definition fibChanged (s s' : Forwarder Q) : Prop :=
  plane_inv (fw_store s') ∧ sameRest (fw_store s) (fw_store s') ∧ s' = set_fw_store (fw_store s') s.
Lemma fibChanged_refl s : plane_inv (fw_store s) → fibChanged s s.
Proof. intros Hi. split_and!; [done|done|by destruct s]. Qed.
Lemma fibChanged_trans s s1 s2 : fibChanged s s1 → fibChanged s1 s2 → fibChanged s s2.
Proof.
  intros (_ & Hr & E) (Hi & Hr' & E'). split_and!; [done|by eapply sameRest_trans|]. rewrite E', E. done.
Qed.
Lemma fibChanged_faces s s' : fibChanged s s' → fw_faces s' = fw_faces s.
Proof. intros (_ & _ & ->). done. Qed.

(** A strategy that does nothing about a new next hop, as [Strategy] itself; the
    forwarder still looks for the strategy of every PIT entry concerned. *)
Definition ignoresNewNextHops : Prop := ∀ ref nh p, afterNewNextHop (strategy ref) nh p = mret tt.
Lemma onNewNextHop_quiet prefix nh s :
  ignoresNewNextHops → plane_inv (fw_store s) → wp (onNewNextHop strategy prefix nh) (fun _ s' => s' = s) s.
Proof.
  intros Hq [_ Hpit Hroot]. unfold onNewNextHop. apply wp_bind, wp_get.
  destruct (partialEnumerate_spec HashFunc (st_nameTree (fw_store s)) prefix (affectedSelector prefix)) as (l & El & _);
    [apply Hpit|]. apply wp_bind. eapply wp_lift; [exact El|]. clear El. apply forM_same. intros n _.
  apply wp_bind, wp_get. apply forM_same. intros p Hp. destruct (slot_entryOf s n p Hpit Hp) as (i & He).
  apply wp_bind. eapply wp_mono; [by eapply findEffectiveStrategy_pit|]. intros st s' (-> & ref & ->).
  rewrite Hq. by apply wp_ret.
Qed.

(** The code of the response to a request to add a next hop. *)
Definition addCode (s : Forwarder Q) (prefix : Name) (faceId : Z) : Z :=
  if bool_decide (getMaxDepth < length prefix)%nat then 414
  else match faceTable_get (fw_faces s) faceId with None => 410 | Some _ => 200 end.
Lemma addNextHop_view prefix faceId cost s :
  ignoresNewNextHops → plane_inv (fw_store s) →
  wp (addNextHop strategy prefix faceId cost) (fun code s' =>
    code = addCode s prefix faceId ∧ fibChanged s s' ∧
    ∀ n f, fibView s' n f = if bool_decide (code = 200 ∧ n = prefix ∧ f = faceId) then Some cost else fibView s n f) s.
Proof.
  intros Hq Hi. unfold addNextHop, addCode. case_bool_decide as Hd.
  { apply wp_ret. split_and!; [done|by apply fibChanged_refl|]. intros n f. by rewrite bool_decide_false by naive_solver. }
  apply wp_bind, wp_get. destruct (faceTable_get (fw_faces s) faceId) as [g|] eqn:Eg.
  2: { apply wp_ret. split_and!; [done|by apply fibChanged_refl|]. intros n f. by rewrite bool_decide_false by naive_solver. }
  destruct (Fib_insert_spec HashFunc (fw_store s) prefix (pl_fib _ Hi)) as (st1 & E1 & (Hi1 & Hr1 & Hs1) & _); [lia|].
  set (fe := default _ _) in Hs1.
  assert (fibSlot st1 prefix = Some fe) as Hfe by (rewrite Hs1; unfold updSlot; by rewrite decide_True).
  destruct (Fib_addOrUpdateNextHop_spec HashFunc st1 prefix g cost fe Hi1 Hfe) as (nh & st2 & E2 & (Hi2 & Hr2 & Hs2) & _).
  apply wp_bind, wp_zoom. eapply wp_run; [exact E1|]. apply wp_bind, wp_zoom. eapply wp_run; [exact E2|].
  set (s2 := set_fw_store st2 _).
  assert (fibChanged s s2) as Hch.
  { assert (sameRest (fw_store s) st2) as Hr by by eapply sameRest_trans.
    split_and!; [by eapply plane_inv_rest|done|done]. }
  apply wp_bind, (wp_mono _ (fun _ s' => s' = s2)); [|intros [] s' ->; apply wp_ret].
  { destruct nh as [nh|]; [apply onNewNextHop_quiet, Hch; done|by apply wp_ret]. }
  split_and!; [done|done|].
  intros n f. unfold fibView. subst s2. cbn [fw_faces fw_store set_fw_store].
  assert (fe_inv fe) as Hfi by exact (proj2 (fb_entry _ st1 Hi1 _ _ Hfe)).
  assert (∀ g', hopsMap fe !! g' = fibSlot (fw_store s) prefix ≫= fun fe => hopsMap fe !! g') as Hold.
  { intros g'. unfold fe. destruct (fibSlot (fw_store s) prefix); [done|]. apply lookup_empty. }
  destruct (decide (n = prefix)) as [->|Hn].
  - rewrite Hs2. unfold updSlot at 1. rewrite decide_True by done. destruct (decide (f = faceId)) as [->|Hf].
    + rewrite bool_decide_true by done. rewrite Eg. cbn [mbind option_bind]. rewrite hopsMap_add by done. apply lookup_insert_eq.
    + rewrite bool_decide_false by naive_solver. destruct (faceTable_get (fw_faces s) f) as [g'|] eqn:Eg'; [|done].
      change (hopsMap (addOrUpdateNextHop fe g cost).1.1 !! g' = fibSlot (fw_store s) prefix ≫= fun fe => hopsMap fe !! g').
      rewrite hopsMap_add, lookup_insert_ne by (done || (intros ->; by destruct Hf; eapply faceTable_get_inj)). apply Hold.
  - rewrite bool_decide_false by naive_solver. rewrite Hs2. unfold updSlot at 1. rewrite decide_False by done.
    rewrite Hs1. unfold updSlot at 1. by rewrite decide_False.
Qed.

Lemma removeNextHop_view prefix faceId s :
  plane_inv (fw_store s) →
  wp (removeNextHopOf prefix faceId) (fun _ s' =>
    fibChanged s s' ∧
    ∀ n f, fibView s' n f = if bool_decide (n = prefix ∧ f = faceId) then None else fibView s n f) s.
Proof.
  intros Hi. unfold removeNextHopOf. apply wp_bind, wp_get.
  destruct (faceTable_get (fw_faces s) faceId) as [g|] eqn:Eg.
  2: { apply wp_ret. split; [by apply fibChanged_refl|]. intros n f. case_bool_decide as E; [|done].
       destruct E as [-> ->]. unfold fibView. by rewrite Eg. }
  rewrite Fib_findExactMatch_spec by apply Hi. destruct (fibSlot (fw_store s) prefix) as [fe|] eqn:Efe.
  2: { apply wp_ret. split; [by apply fibChanged_refl|]. intros n f. case_bool_decide as E; [|done].
       destruct E as [-> ->]. unfold fibView. by rewrite Eg, Efe. }
  pose proof (Fib_removeNextHop_spec HashFunc (fw_store s) prefix g fe (pl_fib _ Hi) Efe) as Hrm.
  destruct (removeNextHop fe g) as [fe' b] eqn:Er. destruct Hrm as (st1 & E1 & (Hi1 & Hr1 & Hs1) & _).
  apply wp_bind, wp_zoom. eapply wp_run; [exact E1|]. apply wp_ret. split; [split_and!; [by eapply plane_inv_rest|done|done]|].
  intros n f. unfold fibView. cbn [fw_faces fw_store set_fw_store].
  destruct (hopsMap_remove fe g fe' b) as [Hm He]; [exact (proj2 (fb_entry _ _ (pl_fib _ Hi) _ _ Efe))|done|].
  rewrite Hs1. destruct (decide (n = prefix)) as [->|Hn].
  2: { rewrite bool_decide_false by naive_solver. unfold updSlot. by rewrite decide_False. }
  unfold updSlot. rewrite decide_True by done. rewrite Efe.
  assert (∀ g', ((if b && negb (hasNextHops fe') then None else Some fe') ≫= fun fe => hopsMap fe !! g') =
    delete g (hopsMap fe) !! g') as Hnew.
  { intros g'. destruct b; cbn [andb]; [|by rewrite <-Hm]. destruct (hasNextHops fe') eqn:Eh; cbn [negb]; [by rewrite <-Hm|].
    rewrite He by done. by rewrite lookup_empty. }
  destruct (decide (f = faceId)) as [->|Hf].
  - rewrite bool_decide_true by done. rewrite Eg. cbn [mbind option_bind]. etransitivity; [apply Hnew|]. apply lookup_delete_eq.
  - rewrite bool_decide_false by naive_solver. destruct (faceTable_get (fw_faces s) f) as [g'|] eqn:Eg'; [|done].
    cbn [mbind option_bind]. etransitivity; [apply Hnew|]. apply lookup_delete_ne. intros ->. by destruct Hf; eapply faceTable_get_inj.
Qed.
End manager.
