(* ===== verification/RoutePlane.v ===== *)
(** * From a route to the forwarder's FIB

    The parts that carry a route: the RIB and its updater, the controller, the
    dispatcher, the FIB manager and the FIB of the forwarder.  A command of the
    updater is encoded into the name of an Interest, parsed, checked and
    executed on the forwarder, and the response goes the same way back.  What is
    outside is the transport between the two: the Interests and Data arrive. *)

From Stdlib Require Import String.
From S2P Require Import Prelude Tlv Component Name Encoding Packet NameTree Face FibEntry PitEntry Store Fib.
From S2P Require Import Cs Forwarder ControlParams Management FibManager.
From S2P Require Import PrefixAnn RibEntry Rib RibTree RibProps FibUpdater RibSystem RibInherit RibEffect RibFib RibRoutes RibUpdates RibCorrect.
Local Open Scope Z_scope.

(** A command that the RIB has sent waits ([None]), or has been executed and its
    response is on the way. *)
Abbreviation InFlight := (nat → option Answer).

Section routes.
Context {Env : Environment} {Q : Type} {Pol : CsPolicy Q} (strategy : StrategyRef → Strategy (Q := Q)).
(** The components that the signature adds to the name, the authorization and the
    IncomingFaceId tag of the requests. *)
Context (signature : Name) (authorization : ControlParameters → option RejectReply) (tag : option Z).

(** ** A command of the updater, through management *)

(** The arguments of [m_controller.start] in [sendAddNextHopUpdate] and
    [sendRemoveNextHopUpdate]. *)
Definition fibControlCommand (c : FibCommand) : ControlCommand :=
  match fc_verb c with ADD_NEXTHOP => FibAddNextHopCommand | REMOVE_NEXTHOP => FibRemoveNextHopCommand end.
Definition fibParameters (c : FibCommand) : ControlParameters :=
  let p := setField CONTROL_PARAMETER_FACE_ID (fu_faceId (fc_update c))
             (setField CONTROL_PARAMETER_NAME (fu_name (fc_update c)) ControlParameters_new) in
  match fc_verb c with
  | ADD_NEXTHOP => setField CONTROL_PARAMETER_COST (fu_cost (fc_update c)) p
  | REMOVE_NEXTHOP => p
  end.
Definition fibHandler (c : FibCommand) (p : ControlParameters) : M (Forwarder Q) ControlResponse :=
  match fc_verb c with
  | ADD_NEXTHOP => FibManager_addNextHop strategy tag p
  | REMOVE_NEXTHOP => FibManager_removeNextHop tag p
  end.
(** [Dispatcher::sendControlResponse] and the controller at the other end. *)
Definition respond (cmd : ControlCommand) (r : ControlResponse) : outcome Answer :=
  rw ← (ControlResponse_wireEncode r).1;
  result ← processCommandResponse cmd (w_bytes rw);
  Ok (match result with CommandSucceeds _ => Succeeds | CommandFails code => Fails code end).
(** [Controller::startCommand], with all that it causes; a command that is dropped
    times out. *)
Definition startCommand (c : FibCommand) : M (Forwarder Q) Answer :=
  name ← lift (getRequestName (fibControlCommand c) nfdPrefix (fibParameters c));
  d ← lift (processControlCommandInterest (fibControlCommand c) nfdPrefix (relPrefixOf (fibControlCommand c))
              (name ++ signature) authorization);
  match d with
  | Dropped => mret (Fails ERROR_TIMEOUT)
  | Replied code =>
      lift (respond (fibControlCommand c) (ControlResponse_make code
        (bytesOf (if bool_decide (code = 403) then "authorization rejected" else "failed in validating parameters"))))
  | Handled p => r ← fibHandler c p; lift (respond (fibControlCommand c) r)
  end.

(** ** What the encoding needs *)

(** Names that can be encoded, with room for the rest of a message, and face ids
    that are not the null id. *)
Definition routable (n : Name) (faceId : Z) : Prop :=
  name_wf n ∧ Z.of_nat (length (w_bytes (nameWire n))) < 2 ^ 62 ∧ is_u64 faceId ∧ faceId ≠ INVALID_FACEID.
Definition sendable (c : FibCommand) : Prop :=
  routable (fu_name (fc_update c)) (fu_faceId (fc_update c)) ∧
  (fc_verb c = ADD_NEXTHOP → is_u64 (fu_cost (fc_update c))).

Lemma numberWire_length (f : ControlParameterField) (v : Z) :
  (length (w_bytes (makeBinaryBlock (fieldTlv f) (prependNonNegativeInteger v []))) ≤ 26)%nat.
Proof.
  pose proof (length_makeBinaryBlock (fieldTlv f) (prependNonNegativeInteger v [])) as H.
  rewrite length_prependNonNegativeInteger in H. pose proof (sizeOfNonNegativeInteger_le v). lia.
Qed.
Lemma fibParameters_length c :
  routable (fu_name (fc_update c)) (fu_faceId (fc_update c)) →
  Z.of_nat (length (wiresBytes (writtenFields (cp_fields (fibParameters c)) controlParameterFields) [])) < 2 ^ 62 + 52.
Proof.
  intros (_ & Hl & _). unfold fibParameters.
  pose proof (numberWire_length CONTROL_PARAMETER_FACE_ID (fu_faceId (fc_update c))) as H1.
  pose proof (numberWire_length CONTROL_PARAMETER_COST (fu_cost (fc_update c))) as H2.
  destruct (fc_verb c).
  - change (writtenFields _ _) with [nameWire (fu_name (fc_update c));
      makeBinaryBlock (fieldTlv CONTROL_PARAMETER_FACE_ID) (prependNonNegativeInteger (fu_faceId (fc_update c)) []);
      makeBinaryBlock (fieldTlv CONTROL_PARAMETER_COST) (prependNonNegativeInteger (fu_cost (fc_update c)) [])].
    revert H1 H2 Hl. generalize (nameWire (fu_name (fc_update c))).
    generalize (makeBinaryBlock (fieldTlv CONTROL_PARAMETER_FACE_ID) (prependNonNegativeInteger (fu_faceId (fc_update c)) [])).
    generalize (makeBinaryBlock (fieldTlv CONTROL_PARAMETER_COST) (prependNonNegativeInteger (fu_cost (fc_update c)) [])).
    intros w1 w2 w3 H1 H2 Hl. unfold wiresBytes. cbn [foldr]. unfold prependBlock. rewrite !length_app. cbn [length]. lia.
  - change (writtenFields _ _) with [nameWire (fu_name (fc_update c));
      makeBinaryBlock (fieldTlv CONTROL_PARAMETER_FACE_ID) (prependNonNegativeInteger (fu_faceId (fc_update c)) [])].
    revert H1 Hl. generalize (nameWire (fu_name (fc_update c))).
    generalize (makeBinaryBlock (fieldTlv CONTROL_PARAMETER_FACE_ID) (prependNonNegativeInteger (fu_faceId (fc_update c)) [])).
    intros w1 w2 H1 Hl. unfold wiresBytes. cbn [foldr]. unfold prependBlock. rewrite !length_app. cbn [length]. lia.
Qed.
Lemma fibParameters_ok c :
  sendable c → params_made (fibParameters c) ∧ fields_ok (cp_fields (fibParameters c)).
Proof.
  intros [Hr Hc]. pose proof (fibParameters_length c Hr) as Hl. destruct Hr as (Hn & _ & Hf & _).
  split; [unfold fibParameters; destruct (fc_verb c); repeat constructor|].
  split; [|unfold small; lia]. clear Hl. intros f v. unfold fibParameters.
  destruct (fc_verb c); destruct f; intros E; try discriminate E; injection E as <-; cbn [field_ok]; auto.
Qed.
Lemma fibControlCommand_in c : fibControlCommand c ∈ nfdCommands.
Proof. unfold fibControlCommand. apply list_elem_of_In. destruct (fc_verb c); simpl; tauto. Qed.
Lemma fib_request_valid c : validateRequest (fibControlCommand c) (fibParameters c) = Ok tt.
Proof. unfold fibControlCommand, fibParameters. by destruct (fc_verb c). Qed.
Lemma fib_response_valid c :
  fu_faceId (fc_update c) ≠ INVALID_FACEID → validateResponse (fibControlCommand c) (fibParameters c) = Ok tt.
Proof.
  intros Hf. unfold validateResponse.
  assert (FieldValidator_validate (cc_responseValidator (fibControlCommand c)) (fibParameters c) = Ok tt) as ->
    by (unfold fibControlCommand, fibParameters; by destruct (fc_verb c)).
  rewrite bind_Ok. unfold fibControlCommand.
  assert (checkFaceId (fibParameters c) = Ok tt) as Hcheck; [|by destruct (fc_verb c)].
  unfold checkFaceId. assert (getField CONTROL_PARAMETER_FACE_ID (fibParameters c) = Ok (fu_faceId (fc_update c))) as ->
    by (unfold fibParameters; by destruct (fc_verb c)).
  rewrite bind_Ok. by rewrite bool_decide_false.
Qed.
Lemma setDefault_has f v p : is_Some (cp_fields p f) → setDefault f v p = p.
Proof. intros H%hasField_Some. unfold setDefault. by rewrite H. Qed.

(** Parameters with the fields of a command. *)
Section received.
Context (c : FibCommand) (q : ControlParameters).
Context (Hf : ∀ f, cp_fields q f = cp_fields (fibParameters c) f).

Lemma received_defaults : cc_applyDefaultsToRequest (fibControlCommand c) q = q.
Proof using Hf.
  assert (is_Some (cp_fields q CONTROL_PARAMETER_FACE_ID)) as H1
    by (rewrite Hf; unfold fibParameters; destruct (fc_verb c); by eexists).
  unfold fibControlCommand. destruct (fc_verb c) eqn:E; cbn [cc_applyDefaultsToRequest FibAddNextHopCommand FibRemoveNextHopCommand].
  - rewrite (setDefault_has CONTROL_PARAMETER_FACE_ID) by done. apply setDefault_has. rewrite Hf. unfold fibParameters.
    rewrite E. by eexists.
  - by apply setDefault_has.
Qed.
Lemma received_fields :
  getField CONTROL_PARAMETER_NAME q = Ok (fu_name (fc_update c)) ∧
  getField CONTROL_PARAMETER_FACE_ID q = Ok (fu_faceId (fc_update c)) ∧
  (fc_verb c = ADD_NEXTHOP → getField CONTROL_PARAMETER_COST q = Ok (fu_cost (fc_update c))).
Proof using Hf. unfold getField. rewrite !Hf. unfold fibParameters. by destruct (fc_verb c). Qed.
Lemma received_face :
  fu_faceId (fc_update c) ≠ INVALID_FACEID → setFaceForSelfRegistration tag q = Ok q.
Proof using Hf.
  intros H. unfold setFaceForSelfRegistration. destruct received_fields as (_ & -> & _). rewrite bind_Ok.
  by rewrite bool_decide_false.
Qed.

Context (w : Wire) (Hw : (ControlParameters_wireEncode (fibParameters c)).1 = Ok w).
Context (Hcl : Wire_closed w) (Hd : ControlParameters_ofWire w = Ok q) (Hs : sendable c).

Lemma received_wire : (ControlParameters_wireEncode q).1 = Ok w.
Proof using Hd.
  clear - Hd. unfold ControlParameters_wireEncode. rewrite (bindE _ _ q q q) by done.
  assert (cp_wire q = Some w) as ->; [|done]. revert Hd. unfold ControlParameters_ofWire. case_bool_decide; [done|].
  intros (els & _ & E)%bind_Ok_inv. apply bind_Ok_inv in E as (fs & _ & E). by injection E as <-.
Qed.
Lemma received_succeeds :
  respond (fibControlCommand c) (setBody w (ControlResponse_make 200 successText)) = Ok Succeeds.
Proof using Hf Hw Hcl Hd Hs.
  destruct (fibParameters_ok c Hs) as [Hm Hok].
  assert (∀ w', (ControlParameters_wireEncode q).1 = Ok w' → response_ok (setBody w' (ControlResponse_make 200 successText)))
    as Hr.
  { intros w'. rewrite received_wire. intros [= <-]. split; [cbn; unfold UINT32_MAX; lia|].
    split; [apply (bool_decide_unpack _); by vm_compute|]. split.
    - by intros b [= <-].
    - pose proof (fibParameters_length c (proj1 Hs)) as Hl. rewrite wireEncode_fresh in Hw; [|by unfold fibParameters; destruct (fc_verb c)|done].
      cbn [fst] in Hw. assert (Z.of_nat (length (w_bytes w)) < 2 ^ 62 + 70) as Hlw.
      { injection Hw as <-. pose proof (length_makeBinaryBlock tlv_ControlParameters
          (wiresBytes (writtenFields (cp_fields (fibParameters c)) controlParameterFields) [])). unfold paramsWire. lia. }
      clear - Hlw. unfold small, responseElements. cbn [cr_body setBody]. unfold wiresBytes. rewrite foldr_app.
      cbn [foldr]. unfold prependBlock. rewrite !length_app. cbn [length cr_code cr_text setBody ControlResponse_make].
      assert (length (w_bytes (makeBinaryBlock tlv_StatusCode (prependNonNegativeInteger 200 []))) = 3%nat) as -> by by vm_compute.
      assert (length (w_bytes (makeBinaryBlock tlv_StatusText successText)) = 9%nat) as -> by by vm_compute. lia. }
  destruct (response_delivered (fibControlCommand c) q (fibControlCommand_in c) (made_decoded w q Hcl Hd)
    (fields_ok_ext _ _ Hf Hok) successText 200) as (w' & rw & r & E1 & E2 & E3 & _); [unfold ERROR_LBOUND; lia| |exact Hr|].
  - rewrite (validateResponse_ext (fibControlCommand c) (fibParameters c) q (lawful _ (fibControlCommand_in c)) Hf).
    apply fib_response_valid, Hs.
  - rewrite received_wire in E1. injection E1 as <-. unfold respond. by rewrite E2, bind_Ok, E3, bind_Ok.
Qed.
End received.

Lemma respond_failure cmd code :
  code = 414 ∨ code = 410 → respond cmd (ControlResponse_make code (failureText code)) = Ok (Fails code).
Proof.
  intros Hcode. destruct (error_delivered cmd code (failureText code)) as (rw & E1 & E2).
  - split; [destruct Hcode as [-> | ->]; cbn; unfold UINT32_MAX; lia|]. split; [|split; [done|]];
      destruct Hcode as [-> | ->]; try (apply (bool_decide_unpack _); by vm_compute); by vm_compute.
  - unfold ERROR_LBOUND. lia.
  - unfold respond. by rewrite E1, bind_Ok, E2, bind_Ok.
Qed.

(** What a command does, on every branch: the answer and the FIB. *)
Definition commandAnswer (s : Forwarder Q) (c : FibCommand) : Answer :=
  match fc_verb c with
  | ADD_NEXTHOP =>
      let code := addCode s (fu_name (fc_update c)) (fu_faceId (fc_update c)) in
      if bool_decide (code = 200) then Succeeds else Fails code
  | REMOVE_NEXTHOP => Succeeds
  end.
Lemma startCommand_spec c s :
  (∀ p, authorization p = None) → ignoresNewNextHops strategy → sendable c → plane_inv (fw_store s) →
  wp (startCommand c) (fun a s' =>
    a = commandAnswer s c ∧ fibChanged s s' ∧
    ∀ n f, fibView s' n f = match a with Succeeds => runCommand c (fibView s) n f | Fails _ => fibView s n f end) s.
Proof.
  intros Ha Hq Hs Hi. destruct (fibParameters_ok c Hs) as [Hm Hok].
  destruct (request_delivered (fibControlCommand c) (fibParameters c) (fibControlCommand_in c) Hm Hok nfdPrefix (fib_request_valid c))
    as (name & w & q & Hname & Hdis & Hw & Hcl & Hd & Hf).
  unfold startCommand. apply wp_bind. eapply wp_lift; [exact Hname|]. apply wp_bind.
  eapply wp_lift; [by apply Hdis|]. rewrite (received_defaults c q Hf).
  pose proof (received_succeeds c q Hf w Hw Hcl Hd Hs) as Hresp. pose proof (received_wire q w Hd) as Hqw.
  pose proof (received_face c q Hf (proj2 (proj2 (proj2 (proj1 Hs))))) as Hface.
  destruct (received_fields c q Hf) as (Hn & Hid & Hcost). unfold fibHandler, commandAnswer.
  apply wp_bind. destruct (fc_verb c) eqn:Ev.
  - unfold FibManager_addNextHop. apply wp_bind. eapply wp_lift; [exact Hface|]. apply wp_bind.
    eapply wp_lift; [exact Hn|]. apply wp_bind. eapply wp_lift; [exact Hid|]. apply wp_bind.
    eapply wp_lift; [by apply Hcost|]. apply wp_bind. eapply wp_mono; [by apply addNextHop_view|].
    intros code s' (Hcode & Hch & Hview). rewrite <-Hcode. case_bool_decide as E200.
    + apply wp_bind. eapply wp_lift; [exact Hqw|]. apply wp_ret. eapply wp_lift; [exact Hresp|].
      split_and!; [done|done|]. intros n f. rewrite Hview. unfold runCommand, targets. rewrite Ev.
      repeat case_bool_decide; naive_solver.
    + apply wp_ret. eapply wp_lift; [apply respond_failure|].
      { revert E200. rewrite Hcode. unfold addCode. case_bool_decide; [by left|]. destruct (faceTable_get _ _); [done|by right]. }
      split_and!; [done|done|]. intros n f. rewrite Hview. rewrite bool_decide_false by naive_solver. done.
  - unfold FibManager_removeNextHop. apply wp_bind. eapply wp_lift; [exact Hface|]. apply wp_bind.
    eapply wp_lift; [exact Hn|]. apply wp_bind. eapply wp_lift; [exact Hid|]. apply wp_bind.
    eapply wp_lift; [exact Hqw|]. apply wp_bind. eapply wp_mono; [by apply removeNextHop_view|].
    intros [] s' (Hch & Hview). apply wp_ret. eapply wp_lift; [exact Hresp|].
    split_and!; [done|done|]. intros n f. rewrite Hview. unfold runCommand, targets. rewrite Ev.
    repeat case_bool_decide; naive_solver.
Qed.

(** ** The RIB and the forwarder together *)

Definition noResponse : InFlight := fun _ => None.
Definition withResponse (i : nat) (a : Answer) (m : InFlight) : InFlight :=
  fun j => if bool_decide (j = i) then Some a else m j.
(** The commands behind the answered one move up; new ones come last. *)
Definition withoutCommand (i : nat) (m : InFlight) : InFlight :=
  fun j => if bool_decide (j < i)%nat then m j else m (S j).

(** Every sequence of executions and responses, in any order and interleaving,
    goes on without a fault until no command is left, and then [P] holds. *)
Inductive comesToRest (P : RibSys → Forwarder Q → Prop) : RibSys → InFlight → Forwarder Q → Prop :=
| rest_done sys m fw : sy_commands sys = [] → P sys fw → comesToRest P sys m fw
| rest_step sys m fw :
    sy_commands sys ≠ [] →
    (∀ i c, sy_commands sys !! i = Some c → m i = None →
       ∃ a fw', startCommand c fw = Ok (a, fw') ∧ comesToRest P sys (withResponse i a m) fw') →
    (∀ i c a, sy_commands sys !! i = Some c → m i = Some a →
       ∃ sys', answer i a sys = Ok (tt, sys') ∧ comesToRest P sys' (withoutCommand i m) fw) →
    comesToRest P sys m fw.

Lemma comesToRest_mono (P P' : RibSys → Forwarder Q → Prop) sys m fw :
  (∀ sys fw, P sys fw → P' sys fw) → comesToRest P sys m fw → comesToRest P' sys m fw.
Proof.
  intros HP. revert sys m fw. fix IH 4. intros _ _ _ [sys m fw Hc Hp|sys m fw Hc Hx Ha]; [by apply rest_done, HP|].
  apply rest_step; [done|..].
  - intros i c Hi Hm. destruct (Hx i c Hi Hm) as (a & fw' & Hrun & Hr). exists a, fw'. split; [done|]. by apply IH.
  - intros i c a Hi Hm. destruct (Ha i c a Hi Hm) as (sys' & Hans & Hr). exists sys'. split; [done|]. by apply IH.
Qed.

(** The FIB holds the next hops that the RIB asks for; it may hold others. *)
Definition holds (fw : Forwarder Q) (V : RibView) : Prop :=
  ∀ n f c, expectedCost V n f = Some c → routable n f ∧ fibView fw n f = Some c.
(** The next hops that the RIB asks for can be installed. *)
Definition feasible (fw : Forwarder Q) (V : RibView) : Prop :=
  ∀ n f c, expectedCost V n f = Some c →
    routable n f ∧ is_u64 c ∧ (length n ≤ getMaxDepth)%nat ∧ is_Some (faceTable_get (fw_faces fw) f).

(** The number of commands that wait. *)
Definition nWaiting (m : InFlight) (k : nat) : nat :=
  length (List.filter (fun i => bool_decide (m i = None)) (seq 0 k)).
Lemma nWaiting_less m i a k : (i < k)%nat → m i = None → (nWaiting (withResponse i a m) k < nWaiting m k)%nat.
Proof.
  intros Hi Hm. unfold nWaiting. assert (i ∈ seq 0 k) as Hin by (apply elem_of_seq; lia). clear Hi.
  assert (∀ j, bool_decide (withResponse i a m j = None) = negb (bool_decide (j = i)) && bool_decide (m j = None)) as Hw.
  { intros j. unfold withResponse. by destruct (bool_decide (j = i)). }
  assert (∀ l, (length (List.filter (fun j => bool_decide (withResponse i a m j = None)) l) ≤
    length (List.filter (fun j => bool_decide (m j = None)) l))%nat) as Hle.
  { induction l as [|j l IH]; [done|]. cbn [List.filter]. rewrite Hw.
    repeat case_bool_decide; cbn [negb andb length]; lia. }
  induction (seq 0 k) as [|j l IH]; [by apply elem_of_nil in Hin|]. cbn [List.filter]. rewrite Hw.
  apply elem_of_cons in Hin as [<-|Hin].
  - rewrite !bool_decide_true by done. cbn [negb andb length]. specialize (Hle l). lia.
  - specialize (IH Hin). repeat case_bool_decide; cbn [negb andb length]; lia.
Qed.
End routes.

(** *** Answers take one command away and add commands behind the others *)

Definition appends {A} (m : M RibSys A) : Prop :=
  ∀ s a s', m s = Ok (a, s') → ∃ l, sy_commands s' = sy_commands s ++ l.
Lemma appends_same {A} (m : M RibSys A) :
  (∀ s a s', m s = Ok (a, s') → sy_commands s' = sy_commands s) → appends m.
Proof. intros H s a s' E%H. exists []. by rewrite app_nil_r. Qed.
Lemma appends_ret {A} (a : A) : appends (mret a).
Proof. apply appends_same. by intros s ? s' [= _ <-]. Qed.
Lemma appends_bind {A B} (m : M RibSys A) (k : A → M RibSys B) :
  appends m → (∀ a, appends (k a)) → appends (m ≫= k).
Proof.
  intros Hm Hk s b s'. unfold mbind, M_bind. destruct (m s) as [[a s1]|] eqn:E; [|done]. intros E'.
  destruct (Hk a _ _ _ E') as [l' ->], (Hm _ _ _ E) as [l ->]. exists (l ++ l'). by rewrite app_assoc.
Qed.
Lemma appends_gets {A} (f : RibSys → A) : appends (gets f).
Proof. apply appends_same. by intros s ? s' [= _ <-]. Qed.
Lemma appends_raise {A} e : appends (raise e : M RibSys A).
Proof. by intros s a s'. Qed.
Lemma appends_assert b : appends (assertM b).
Proof. destruct b; [apply appends_ret|apply appends_raise]. Qed.
Lemma appends_onRib {A} (m : M Rib A) : appends (onRib m).
Proof. apply appends_same. intros s a s'. unfold onRib, zoom. destruct (m _) as [[? ?]|]; [by intros [= _ <-]|done]. Qed.
Lemma appends_onUpdater {A} (m : M FibUpdater A) : appends (onUpdater m).
Proof. apply appends_same. intros s a s'. unfold onUpdater, zoom. destruct (m _) as [[? ?]|]; [by intros [= _ <-]|done]. Qed.
Lemma appends_callback o : appends (callback o).
Proof. destruct o; [|apply appends_ret]. apply appends_same. by intros s ? s' [= _ <-]. Qed.
Lemma appends_sendCommand verb update item k : appends (sendCommand verb update item k).
Proof. intros s a s' [= _ <-]. by eexists. Qed.
Create HintDb appends.
#[export] Hint Resolve appends_ret appends_bind appends_gets appends_raise appends_assert appends_onRib : appends.
#[export] Hint Resolve appends_onUpdater appends_callback appends_sendCommand : appends.
Lemma appends_sendUpdates l item : appends (sendUpdates l item).
Proof.
  unfold sendUpdates. induction l as [|u l IH]; cbn [forM_]; [apply appends_ret|].
  apply appends_bind; [|done]. destruct (fu_action u); apply appends_sendCommand.
Qed.
#[export] Hint Resolve appends_sendUpdates : appends.
Lemma appends_success next item l : appends next → appends (onFibUpdateSuccess next item l).
Proof. intros H. unfold onFibUpdateSuccess. repeat (apply appends_bind; [auto with appends|intros _]). done. Qed.
Lemma appends_nonBatch next item : appends next → appends (sendUpdatesForNonBatchFaceId next item).
Proof.
  intros H. unfold sendUpdatesForNonBatchFaceId. apply appends_bind; [auto with appends|]. intros u.
  case_bool_decide; [auto with appends|by apply appends_success].
Qed.
Lemma appends_loop fuel : appends (sendBatchFromQueue_loop fuel).
Proof.
  induction fuel as [|fuel IH]; cbn [sendBatchFromQueue_loop]; [apply appends_raise|].
  apply appends_bind; [auto with appends|]. intros s. destruct (rb_updateBatches s) as [|item rest]; [auto with appends|].
  destruct (rb_isUpdateInProgress s); [auto with appends|]. repeat (apply appends_bind; [auto with appends|intros _]).
  unfold computeAndSendFibUpdates. repeat (apply appends_bind; [auto with appends|intros ?]).
  case_bool_decide; [auto with appends|by apply appends_nonBatch].
Qed.
Lemma appends_next : appends sendBatchFromQueue.
Proof. unfold sendBatchFromQueue. apply appends_bind; [auto with appends|]. intros s. apply appends_loop. Qed.
Lemma appends_onUpdateSuccess c : appends (onUpdateSuccess c).
Proof.
  unfold onUpdateSuccess. apply appends_bind; [auto with appends|]. intros u. case_bool_decide.
  all: apply appends_bind; [auto with appends|intros _]; apply appends_bind; [auto with appends|]; intros u'.
  all: case_bool_decide; auto with appends; first [apply appends_nonBatch, appends_next|apply appends_success, appends_next].
Qed.
Lemma answer_commands i c sys sys' :
  sy_commands sys !! i = Some c → answer i Succeeds sys = Ok (tt, sys') →
  ∃ l, sy_commands sys' = delete i (sy_commands sys) ++ l.
Proof.
  intros Hc. unfold answer. munfold. rewrite Hc. intros H.
  exact (appends_onUpdateSuccess c _ _ _ H).
Qed.

(** *** An update, from the request to rest *)

Section deploy.
Context {Env : Environment} {Q : Type} {Pol : CsPolicy Q} (strategy : StrategyRef → Strategy (Q := Q)).
Context (signature : Name) (authorization : ControlParameters → option RejectReply) (tag : option Z).
Context (Haccept : ∀ p, authorization p = None) (Hquiet : ignoresNewNextHops strategy).
Context (fw0 : Forwarder Q) (V V' : RibView).
Context (Hold : holds fw0 V) (Hnew : feasible fw0 V') (Hinv : plane_inv (fw_store fw0)).
Abbreviation run := (startCommand strategy signature authorization tag).
Abbreviation E := expectedCost.

Lemma commandFor_sendable c : commandFor V V' c → sendable c.
Proof using Hold Hnew.
  unfold commandFor, sendable. destruct (fc_verb c).
  - intros Hc. destruct (Hnew _ _ _ Hc) as (Hr & Hu & _). done.
  - intros [[x Hx] _]. by destruct (Hold _ _ _ Hx).
Qed.
(** Whatever the commands that have run, the next hop for the target of a
    command is what the new RIB asks for. *)
Lemma commandFor_effect c F n f :
  commandFor V V' c → runCommand c F n f = if targets n f (fc_update c) then E V' n f else F n f.
Proof.
  unfold commandFor, runCommand. destruct (targets n f (fc_update c)) eqn:Et; [|done].
  unfold targets in Et. rewrite andb_true_iff, !bool_decide_eq_true in Et. destruct Et as [<- <-].
  destruct (fc_verb c); [done|]. by intros [_ ->].
Qed.
Lemma commandFor_runs c fw :
  commandFor V V' c → fibChanged fw0 fw →
  ∃ fw', run c fw = Ok (Succeeds, fw') ∧ fibChanged fw0 fw' ∧
    ∀ n f, fibView fw' n f = if targets n f (fc_update c) then E V' n f else fibView fw n f.
Proof using Haccept Hquiet Hold Hnew.
  intros Hc Hch. pose proof (startCommand_spec strategy signature authorization tag c fw Haccept Hquiet (commandFor_sendable c Hc)
    (proj1 Hch)) as H.
  apply wp_elim in H as (a & fw' & Hrun & -> & Hch' & Hview). exists fw'.
  assert (commandAnswer fw c = Succeeds) as Ea.
  { unfold commandAnswer. unfold commandFor in Hc. destruct (fc_verb c); [|done].
    destruct (Hnew _ _ _ Hc) as (_ & _ & Hd & [g Hg]). unfold addCode.
    rewrite (bool_decide_false (getMaxDepth < _)%nat) by lia. rewrite (fibChanged_faces _ _ Hch), Hg. done. }
  rewrite Ea in *. split_and!; [done|by eapply fibChanged_trans|]. intros n f. rewrite Hview. by apply commandFor_effect.
Qed.

(** What the forwarder has become, when the commands that were answered have made
    [G] of what the old RIB asked for. *)
Definition between (G : FibMap) (fw : Forwarder Q) : Prop :=
  fibChanged fw0 fw ∧
  ∀ n f, if bool_decide (E V n f = None ∧ E V' n f = None) then fibView fw n f = fibView fw0 n f
         else fibView fw n f = E V' n f ∨ (G n f = E V n f ∧ (is_Some (E V n f) → fibView fw n f = E V n f)).
(** Commands whose response is on the way were executed. *)
Definition executed (sys : RibSys) (m : InFlight) (fw : Forwarder Q) : Prop :=
  (∀ i, (length (sy_commands sys) ≤ i)%nat → m i = None) ∧
  ∀ i c a, sy_commands sys !! i = Some c → m i = Some a →
    a = Succeeds ∧ ∀ n f, targets n f (fc_update c) = true → fibView fw n f = E V' n f.

Lemma between_execute c G fw fw' :
  commandFor V V' c → between G fw → fibChanged fw0 fw' →
  (∀ n f, fibView fw' n f = if targets n f (fc_update c) then E V' n f else fibView fw n f) → between G fw'.
Proof.
  intros Hc [_ Hb] Hch Hview. split; [done|]. intros n f. specialize (Hb n f). rewrite Hview.
  destruct (targets n f (fc_update c)) eqn:Et; [|done]. rewrite bool_decide_false; [by left|].
  unfold targets in Et. rewrite andb_true_iff, !bool_decide_eq_true in Et. destruct Et as [<- <-].
  unfold commandFor in Hc. destruct (fc_verb c); [rewrite Hc; naive_solver|]. destruct Hc as [[x ->] _]. naive_solver.
Qed.
Lemma between_answer c G fw :
  commandFor V V' c → between G fw →
  (∀ n f, targets n f (fc_update c) = true → fibView fw n f = E V' n f) → between (runCommand c G) fw.
Proof.
  intros Hc [Hch Hb] Hview. split; [done|]. intros n f. specialize (Hb n f).
  rewrite commandFor_effect by done. case_bool_decide; [done|].
  destruct (targets n f (fc_update c)) eqn:Et; [|done]. left. by apply Hview.
Qed.
Lemma executed_execute sys m fw fw' i c :
  sy_commands sys !! i = Some c → executed sys m fw →
  (∀ n f, fibView fw' n f = if targets n f (fc_update c) then E V' n f else fibView fw n f) →
  executed sys (withResponse i Succeeds m) fw'.
Proof.
  intros Hi [H1 H2] Hview. split.
  - intros j Hj. unfold withResponse. rewrite bool_decide_false; [by apply H1|].
    apply lookup_lt_Some in Hi. lia.
  - intros j c' a Hj. unfold withResponse. case_bool_decide as Ej.
    + subst j. intros [= <-]. split; [done|]. intros n f Ht. assert (c' = c) as -> by congruence. by rewrite Hview, Ht.
    + intros Ha. destruct (H2 j c' a Hj Ha) as [-> Hv]. split; [done|]. intros n f Ht. rewrite Hview.
      destruct (targets n f (fc_update c)); [done|]. by apply Hv.
Qed.
Lemma executed_answer sys sys' m fw i c :
  sy_commands sys !! i = Some c → answer i Succeeds sys = Ok (tt, sys') → executed sys m fw →
  executed sys' (withoutCommand i m) fw.
Proof.
  intros Hi Ha [H1 H2]. destruct (answer_commands i c sys sys' Hi Ha) as [l El].
  pose proof (lookup_lt_Some _ _ _ Hi) as Hlt. assert (length (delete i (sy_commands sys)) = (length (sy_commands sys) - 1)%nat) as Hlen
    by (by apply length_delete).
  assert (∀ j, (length (delete i (sy_commands sys)) ≤ j)%nat → withoutCommand i m j = None) as Hout.
  { intros j Hj. unfold withoutCommand. rewrite bool_decide_false by lia. apply H1. lia. }
  split.
  - intros j. rewrite El, length_app. intros Hj. apply Hout. lia.
  - intros j c' a. rewrite El. intros Hj Hm. destruct (decide (j < length (delete i (sy_commands sys)))%nat) as [Hl|Hl].
    2: { by rewrite Hout in Hm by lia. }
    rewrite lookup_app_l in Hj by done. unfold withoutCommand in Hm. case_bool_decide as Eij.
    + rewrite list_lookup_delete_lt in Hj by done. by eapply H2.
    + rewrite list_lookup_delete_ge in Hj by lia. by eapply H2.
Qed.

Lemma settles_comesToRest P sys G :
  settles (commandFor V V') P sys G →
  ∀ m fw, between G fw → executed sys m fw →
  comesToRest strategy signature authorization tag (fun sys' fw' => ∃ G', P sys' G' ∧ between G' fw') sys m fw.
Proof using Haccept Hquiet Hold Hnew.
  revert sys G. fix IH 3. intros sys0 G0 [sys G Hc Hp|sys G Hc Hall] m fw Hb Hx.
  { apply rest_done; [done|]. by exists G. }
  remember (nWaiting m (length (sy_commands sys))) as k eqn:Ek.
  revert m fw Hb Hx Ek. induction (lt_wf k) as [k _ IHk]. intros m fw Hb Hx ->. apply rest_step; [done|..].
  - intros i c Hi Hm. destruct (Hall i c Hi) as (Hcf & _).
    destruct (commandFor_runs c fw Hcf (proj1 Hb)) as (fw' & Hrun & Hch & Hview).
    exists Succeeds, fw'. split; [exact Hrun|]. eapply IHk; [|by eapply between_execute|by eapply executed_execute|reflexivity].
    apply nWaiting_less; [by eapply lookup_lt_Some|done].
  - intros i c a Hi Hm. destruct (Hall i c Hi) as (Hcf & sys' & Hans & Hset).
    destruct (proj2 Hx i c a Hi Hm) as [-> Hv]. exists sys'. split; [exact Hans|].
    exact (IH _ _ Hset _ _ (between_answer c G fw Hcf Hb Hv) (executed_answer sys sys' m fw i c Hi Hans Hx)).
Qed.
Lemma between_start : between (E V) fw0.
Proof using Hold Hinv.
  split; [by apply fibChanged_refl|]. intros n f. case_bool_decide; [done|]. right. split; [done|]. intros [c Hc].
  rewrite Hc. by apply Hold.
Qed.
Lemma between_end G fw :
  between G fw → (∀ n f, G n f = E V' n f) →
  ∀ n f, fibView fw n f = match E V' n f with
                          | Some c => Some c
                          | None => match E V n f with Some _ => None | None => fibView fw0 n f end
                          end.
Proof.
  intros [_ Hb] HG n f. specialize (Hb n f). rewrite HG in Hb. case_bool_decide as Ea.
  - destruct Ea as [-> ->]. done.
  - destruct Hb as [->|[Eq Hv]].
    + destruct (E V' n f), (E V n f); naive_solver.
    + rewrite Eq in *. destruct (E V n f); [|naive_solver]. by rewrite Hv.
Qed.
End deploy.

(** C13. A route reaches the forwarder.  When the RIB begins a registration or
    unregistration that [updateSafe] covers, its commands go as signed Interests to
    the dispatcher, are parsed, checked and executed by the FIB manager and
    answered, in any order and interleaving.  Nothing faults, no command is refused
    and the two come to rest: the update is in the RIB, the success callback has
    been called, and the FIB has the next hops that the new RIB asks for, none that
    only the old one asked for, and every other one as it was; nothing else of the
    forwarder has changed.  Conditions: every command is authorized; no update is
    under way; the RIB has at most one route per face and name, right counts of
    capturing routes and right records of inherited ones ([rib_fib], which safe
    updates keep; not so with two routes on a face,
    [unregister_costlier_removes_nexthop]); the FIB holds what the RIB asks for; the
    new next hops can be installed; the strategies ignore new next hops. *)
Theorem route_reaches_forwarder {Env : Environment} {Q : Type} {Pol : CsPolicy Q}
    (strategy : StrategyRef → Strategy (Q := Q)) (signature : Name)
    (authorization : ControlParameters → option RejectReply) (tag : option Z)
    (sys : RibSys) (fw : Forwarder Q) (u : RibUpdate) (onSuccess onFailure : option CallbackId) :
  let V := ribView (sy_rib sys) in
  (∀ p, authorization p = None) → rib_fib (sy_rib sys) (expectedCost V) → idle sys → updateSafe (sy_rib sys) u →
  ignoresNewNextHops strategy → plane_inv (fw_store fw) → holds fw V → feasible fw (updateView V u) →
  ∃ sys1, beginApplyUpdate u onSuccess onFailure sys = Ok (tt, sys1) ∧
    comesToRest strategy signature authorization tag (fun sys' fw' =>
      let V' := ribView (sy_rib sys') in
      rib_fib (sy_rib sys') (expectedCost V') ∧ sameCosts (updateView V u) V' ∧ idle sys' ∧
      sy_outputs sys' = sy_outputs sys ++ match onSuccess with Some cb => [SuccessCallback cb] | None => [] end ∧
      fibChanged fw fw' ∧
      ∀ n f, fibView fw' n f = match expectedCost V' n f with
                               | Some c => Some c
                               | None => match expectedCost V n f with Some _ => None | None => fibView fw n f end
                               end)
    sys1 noResponse fw.
Proof.
  intros V Ha Hrf Hidle Hsafe Hquiet Hinv Hold Hnew.
  destruct (update_settles sys (expectedCost V) u onSuccess onFailure Hrf Hidle Hsafe) as (sys1 & Hbegin & Hset).
  exists sys1. split; [exact Hbegin|].
  eapply comesToRest_mono; [|eapply settles_comesToRest; [exact Ha|exact Hquiet|exact Hold|exact Hnew|exact Hset|by apply between_start|by split]].
  intros sys' fw' (G & (Hrf' & Hsame & Hidle' & Hout) & Hb). destruct (sameCosts_spec _ _ Hsame) as (_ & HE & _).
  assert (∀ n f, expectedCost (ribView (sy_rib sys')) n f = expectedCost (updateView V u) n f) as HE' by exact HE.
  split_and!; try done; [by destruct Hrf'|apply Hb|].
  intros n f. rewrite HE'. eapply between_end; [exact Hb|]. intros n' f'. rewrite (rf_fib _ _ Hrf'). apply HE'.
Qed.
