(* ===== verification/RouteScenario.v ===== *)
(** * A route on its way from the RIB to the forwarder *)

From S2P Require Import Prelude Tlv Component Name Encoding Packet NameTree Face FibEntry PitEntry Store Fib.
From S2P Require Import Cs Forwarder ForwarderInv ForwarderSafety BestRoute Scenario ControlParams Management FibManager.
From S2P Require Import PrefixAnn RibEntry Rib RibTree RibProps FibUpdater RibSystem RibInherit RibEffect RibFib RibRoutes RibUpdates RibCorrect RibScenario RoutePlane.
Local Open Scope Z_scope.

Definition routeName : Name := [generic 112].
Definition routeUpdate : RibUpdate := reg routeName (route 257 0 1 1).
Definition routeView : RibView := updateView (ribView Rib_init) routeUpdate.

Lemma routeView_asks n f c : expectedCost routeView n f = Some c → n = routeName ∧ f = 257 ∧ c = 1.
Proof.
  destruct (decide (n = routeName)) as [->|Hn].
  2: { unfold expectedCost, routeView, updateView. cbn [ru_action routeUpdate reg]. unfold updView.
       by rewrite bool_decide_false. }
  destruct (decide (f = 257)) as [->|Hf]; [vm_compute; by intros [= <-]|].
  assert (inheritedRoute routeView routeName f = None) as Hir by reflexivity.
  assert (∃ v, routeView routeName = Some v ∧ viewRoutes v = [route 257 0 1 1]) as (v & Hv & Hr)
    by (eexists; split; by vm_compute).
  assert (ownCost v f = None) as Ho.
  { unfold ownCost, getRouteWithLowestCostByFaceId. change (re_routes (viewEntry v)) with (viewRoutes v).
    rewrite Hr. cbn [lowestCost_loop route rt_faceId]. by rewrite bool_decide_false. }
  unfold expectedCost. rewrite Hv. cbn [mbind option_bind]. rewrite Ho. unfold inheritedCost. rewrite Hv.
  cbn [mbind option_bind]. rewrite Ho, Hir. by destruct (viewCapture v).
Qed.
Lemma route_reaches_forwarder_witness :
  holds startState (ribView Rib_init) ∧ feasible startState routeView ∧
  ∃ sys1, beginApplyUpdate routeUpdate (Some 7%nat) None RibSys_init = Ok (tt, sys1) ∧
    comesToRest bestRoute [] (fun _ => None) None (fun sys' fw' =>
      sy_outputs sys' = [SuccessCallback 7] ∧ fibView fw' routeName 257 = Some 1) sys1 noResponse startState.
Proof.
  assert (holds startState (ribView Rib_init)) as Hold by by intros n f c.
  assert (feasible startState routeView) as Hnew.
  { intros n f c (-> & -> & ->)%routeView_asks. split; [|split; [unfold is_u64; lia|split; [by vm_compute; lia|by vm_compute; eauto]]].
    split; [apply (bool_decide_unpack _); by vm_compute|]. split; [by vm_compute|]. split; [unfold is_u64; lia|done]. }
  split; [exact Hold|]. split; [exact Hnew|].
  assert (plane_inv (fw_store startState)) as Hinv by (split; apply (run_stateAfter []), eq_refl).
  assert (rib_fib (sy_rib RibSys_init) (expectedCost (ribView Rib_init))) as Hrf
    by (split; [apply Rib_init_inv|done..]).
  destruct (route_reaches_forwarder bestRoute [] (fun _ => None) None RibSys_init startState routeUpdate (Some 7%nat) None
    (fun _ => eq_refl) Hrf ltac:(by split_and!) ltac:(by split) ltac:(done) Hinv Hold Hnew) as (sys1 & Hbegin & Hrest).
  exists sys1. split; [exact Hbegin|]. eapply comesToRest_mono; [|exact Hrest].
  intros sys fw (_ & Hsame & _ & Hout & _ & Hview). split; [exact Hout|]. rewrite Hview.
  destruct (sameCosts_spec _ _ Hsame) as (_ & HE & _). rewrite HE. by vm_compute.
Defined.

(** A run: the first command in the queue is executed and answered until none is
    left. *)
Fixpoint deliverAll (fuel : nat) (sys : RibSys) (fw : LruForwarder) : outcome (RibSys * LruForwarder) :=
  match fuel, sy_commands sys with
  | S fuel', c :: _ =>
      '(a, fw') ← startCommand bestRoute [] (fun _ => None) None c fw;
      '(_, sys') ← answer 0 a sys;
      deliverAll fuel' sys' fw'
  | _, _ => Ok (sys, fw)
  end.
Definition requestAll (us : list RibUpdate) (sys : RibSys) (fw : LruForwarder) : outcome (RibSys * LruForwarder) :=
  foldl (fun o u => '(sys, fw) ← o; '(_, sys1) ← beginApplyUpdate u None None sys; deliverAll 10 sys1 fw) (Ok (sys, fw)) us.
(** The faces that get the Interest, and those that get a Nack. *)
Definition forwardedAfter (us : list RibUpdate) : outcome (list FaceRef * list FaceRef) :=
  '(_, fw) ← requestAll us RibSys_init startState;
  '(_, fw') ← handleAll bestRoute [EvInterest consumerInterest 0%nat] fw;
  Ok (omap (fun o => match o with SendInterest f _ => Some f | _ => None end) (fw_output fw'),
      omap (fun o => match o with SendNack f _ => Some f | _ => None end) (fw_output fw')).

(** An Interest follows a route that was registered with the RIB; after the route
    was unregistered it is answered with a Nack. *)
Lemma registered_route_forwards :
  forwardedAfter [routeUpdate] = Ok ([1%nat], []) ∧
  forwardedAfter [routeUpdate; unreg routeName (route 257 0 1 1)] = Ok ([], [0%nat]).
Proof. split; by vm_compute. Qed.
